(* ===== verification/_CoqProject ===== *)
-Q . S2P
Prelude.v
EiBase.v
EiEncode.v
EiDecode.v
EiAtom.v
EiTerm.v
EiBuff.v
EiProps.v
BigDigits.v
BigShift.v
BigSqr.v
BigBits.v
Big.v
BigSpec.v
BigDiv.v
BigText.v
BigProps.v
Arith.v
ArithSpec.v
ArithProps.v
Scan.v
Avl.v
Monitors.v
MonProps.v
Packet.v
PacketFrame.v
Http.v
HttpSpec.v
PacketProps.v
Tcp.v
TcpSpec.v
TcpProps.v
Hash.v
Index.v
Utf8.v
AtomTab.v
AtomCmp.v
TableProps.v
TermCmp.v
TermOrd.v
TermProps.v
DbSeg.v
DbHash.v
DbHashSpec.v
DbHashOps.v
DbHashIter.v
DbHashProps.v
DbTree.v
DbTreePath.v
DbTreeOps.v
DbTreeUpd.v
DbTreeProps.v
DbTreeSelect.v
DbTreeTrav.v
DbTreeSelProps.v
DbTreeChunk.v
DbPattern.v
DbPatternSpec.v
DbPatternLimits.v
DbPatternAnalysis.v
DbPatternProps.v
TimerWheel.v
TimerInv.v
TimerBump.v
TimerNext.v
TimerProps.v
