(* ===== verification/Prelude.v ===== *)
(** * Verification of core C code of Erlang/OTP

    This library models parts of the C code of Erlang/OTP as executable Rocq
    functions and proves them correct.  The subsystems covered:

    - The [ei] library (lib/erl_interface/src), with which C programs encode and
      decode terms in the external term format.
    - The integers of the emulator (erts/emulator/beam/big.c, big.h and
      erl_arith.c): digit vectors, integer terms, their byte and text
      representations, and the arithmetic of the language on top of them.
    - The monitor and link trees (erl_monitors.c, erl_monitors.h).
    - The packet parser of the inet driver and of erlang:decode_packet/3
      (packet_parser.c, packet_parser.h).
    - Receiving on a TCP socket in the inet driver (the input buffer of
      drivers/common/inet_drv.c), on top of that parser.
    - The tables: generic hash and index tables (hash.c, index.c), the atom table
      (atom.c) and the UTF-8 analysis it uses (erl_unicode.c).
    - The comparison of terms (utils.c, erl_term.h).
    - ETS tables: the types set, bag and duplicate_bag (erl_db_hash.c) and ordered_set
      (erl_db_tree.c), with the select functions of the latter.
    - The timer wheel (time.c, erl_time.h).

    They meet in several places: erl_arith.c calls big.c, the inet driver calls the
    packet parser, the atom table is an index table, which is a hash table, with
    names checked by the UTF-8 analysis, and an ordered_set compares its keys with the
    comparison of terms, which compares atoms by the atom table.  All are composed here the
    way the code composes them; the theorems about the atom table are proved against the
    interface of the index table, which is proved against that of the hash table
    ([HashLaws]), and those about ordered sets against an abstract order of the keys
    ([TermOrder], [KeyCmp]) and of partly bound keys ([PartlyBoundLaws]), which the
    comparison of terms is shown to have.

    ** How the code is modelled

    A C integer is a [Z] with its wrap-around written out ([wrap], [swrap],
    [to_int]; [dw] and [hw] in BigDigits.v for digits and half digits).  Memory is
    a list of bytes (or of digits), read and written with [rd] and [wr]; code that
    reads or writes outside the object it was given is [Fault], so that a theorem
    [f .. = Ok ..] also says that the code stays inside its memory.  The outcome of
    a function is in the monad [res]; an [index] or output parameter of the C
    function is an argument and a component of the result, a NULL destination is
    [None].  A [goto] to a label shared by several places is a definition with the
    label's name, or a value that says which label was taken.  Callbacks, the
    memory allocator, the garbage collector and floating point are parameters,
    with what the code relies on in a class ([KeyCmp], [HashLaws],
    [CollectorLaws], [MemoryLaws], [ReceiverLaws], [PartlyBoundLaws], [PointersLaws],
    [AtomNamesLaws]) or as named hypotheses.

    Loops are structural on the data they traverse or take a fuel argument; running
    out of it is [NoFuel], and the theorems that code returns say [Ok], hence that
    the fuel given is enough: 8 bytes or 64 bits for a loop over a machine word, 20
    decimals for a digit, 2 rounds per digit for the division by 10^17 and (plus
    one) for the long division, 160 rounds for the quotient of two double digits
    (each leaves at most three quarters), the nesting depth of the term for
    [ei_skip_term], three steps per subterm for the comparison of terms,
    three rounds per node for the sweep of a tree, the length of
    the buffer for the loops of the packet parser and of the delivery of packets, the
    number of slots for a traversal of an ETS table and of segments for freeing it, the
    number of objects (and of changes by others) for the calls that trap, the
    yield count for the timers
    that fire at once, and two rounds of at most 65536 slots for the rest of the
    wheel.  The model is that of the 64-bit build without a 128-bit integer type.

    ** Files

    Prelude.v: machine integers, [res], byte memory, generic lemmas.

    The [ei] library:
    - EiBase.v: constants of ei.h and eiext.h, the macros of putget.h, the records
      of ei.h, and the interface [Encodes f l] (an encoder that writes the bytes
      [l] or, without a buffer, only advances the index by their number).
    - EiEncode.v, EiDecode.v: encode/*.c and decode/*.c for integers, floats,
      binaries, strings, headers and big integers, with their formats [fmt_*].
    - EiAtom.v: atoms in latin-1 and UTF-8 (encode_atom.c, decode_atom.c).
    - EiTerm.v: pids, ports, references, funs and traces; get_type.c,
      decode_skip.c, ei_decode_term.c; abstract terms [eterm] and their external
      representation [fmt_term].
    - EiBuff.v: the expanding buffer of ei_x_encode.c, for an abstract allocator.
    - EiProps.v: the properties.  Every encoder is undone by its decoder; skipping a
      term advances exactly past it; a sequence of [ei_x_encode_*] calls leaves
      exactly the encodings in the buffer; three defects of the code.

    Integers:
    - BigDigits.v: digit arithmetic without a double digit (DSUM, DMULc, DDIVREM,
      ..) and I_comp, I_add, I_sub, I_mul, D_mul, D_div, D_rem and the like, against
      the value [val] of a vector.
    - BigShift.v: I_lshift and the definitions of the bitwise operations.
      BigSqr.v: I_sqr.  BigBits.v: the bitwise operations against two's complement.
    - Big.v: terms ([Eterm]), big_norm, conversions and the operations on terms.
    - BigSpec.v: the abstract integer of a term ([bignum], [int_term]), the one
      canonical term of an integer ([repr]), and each operation against [Z].
    - BigDiv.v: D2DIVREM, I_div, I_rem, big_div and big_rem: the loops with
      estimated quotient digits, of which some are too large, end with the
      quotient and the remainder.
    - BigText.v: write_big, big_decimal_estimate, erts_chars_to_integer.
    - BigProps.v: the properties.  Arithmetic, shifts, comparison, conversions return
      the canonical term of the exact result; bytes and text are read back; the
      estimated buffer is large enough; two defects of the code.
    - Arith.v: erl_arith.c, with the memory it allocates on the heap or in heap
      fragments (erts_heap_alloc, maybe_shrink, trim_heap).  A function that
      exists twice, with HAlloc and with the operands in registers and a garbage
      collection, is one definition with an [allocator].
    - ArithSpec.v: what every operation returns, against [Z] and for any allocator
      that keeps its promise ([good_alloc]).
    - ArithProps.v: the properties.  The BIFs return the exact result or the right
      error, are type safe and account for their memory, with the exceptions named there; the functions with
      registers return the same and keep the heap below the stack.

    Monitors and links:
    - Avl.v: the balanced trees with their explicit stacks of 50 entries ([Fault]
      beyond): insertion_rotation, balance_left, balance_right, delsub, search and
      sweep; the interface [KeyCmp] states what they need of the key comparison.
    - Monitors.v: monitors, links and suspend monitors on top of them, the counter of
      large nodes, and histories of operations with a map as their specification.
    - MonProps.v: the properties.  Histories of fewer than 2^32 operations refine the
      map and never overrun the stacks (45 levels suffice); the branches of the link
      operations; the sweep.

    Packets:
    - Scan.v: the C library's memchr, memcmp and string comparisons, and scanning loops.
    - Packet.v: packet_get_length and packet_get_body.  PacketFrame.v: the packet
      formats as a sender writes them, and that the parser finds each exactly.
    - Http.v: the HTTP tables, packet_parse_http and packet_parse_ssl.  HttpSpec.v:
      header names, request lines and URIs as text.
    - PacketProps.v: the properties.  A packet is found exactly; more data never
      changes a decision already made; no input makes the parser read outside the
      buffer; headers and request lines are parsed as they are written.

    Receiving:
    - Tcp.v: the input buffer of a socket, the stack of free buffers, tcp_remain,
      tcp_deliver, tcp_recv and the requests that lead to them.  A buffer knows
      whether the owner of the socket may hold a reference to it.
    - TcpSpec.v: the invariant of the input buffer ([in_ok], [broken]) and that every
      operation keeps it, for any property of the data that taking off a packet keeps.
    - TcpProps.v: the properties, for memory that can be allocated and sends that report no
      error.  With a packet size limit no input makes the driver
      leave its buffers or lose a byte; a well-formed stream arrives as its packets,
      at once, however it is cut; two overflows and a needless error.

    Tables:
    - Hash.v: hash_init, hash_put, hash_get, hash_erase, rehash; buckets over a store
      of objects.  Index.v: index_put_entry, index_get, index_erase_latest_from on
      two levels of pages.
    - Utf8.v: erts_analyze_utf8 against the encodings of Unicode scalar values.
      AtomTab.v: the atom table's callbacks, erts_atom_put, erts_atom_get, cmp_atoms.
      AtomCmp.v: cmp_atoms is the lexicographic order of the bytes of the names.
    - TableProps.v: the properties.  A history of calls of a hash table refines a
      finite map, of an index table a list without duplicates, whatever is rehashed
      in between; atoms are interned; the analysis accepts exactly UTF-8; the order
      of atoms is that of their texts; what erts_atom_put refuses.

    Terms:
    - TermCmp.v: terms as the emulator has them, and erts_cmp with its work stack, in which
      a label that is jumped to is a value.  TermOrd.v: the standard order [term_compare] as
      a structural function, and that erts_cmp computes it.
    - TermProps.v: the property.  erts_cmp always returns and is a total order; a defect:
      the numbers of references are compared by the sign of a difference that wraps around.

    ETS tables:
    - DbSeg.v: the segments of the bucket array and the segment tables that are kept in
      some of them, in a heap, against a list of buckets ([represents]).
    - DbHash.v: the operations of erl_db_hash.c on a table and its buckets, with
      linear hashing, fixation and pseudo-deleted objects.
    - DbHashSpec.v: the invariant of a table ([table_ok]), the address of a key, and
      that splitting and joining buckets keeps the objects of every key.
      DbHashOps.v: what each operation does to the objects of its key, and that it keeps
      the order of the keys while the table is fixed.  DbHashIter.v: first and next.
    - DbHashProps.v: the properties.  A history of fewer than 2^31 operations refines a
      store of objects; a traversal of a fixed table visits every key that stays in the
      table exactly once, whatever happens meanwhile; three defects of the code.
    - DbTree.v: the operations of erl_db_tree.c on the tree and its static stack, with
      the rotations of Avl.v, which erl_monitors.c and erl_db_tree.c have in common.
      A pointer to a node is its address, found in the tree as it is now.
    - DbTreePath.v: positions in a tree, and that the moves between them (find_next,
      find_prev, slot_search) go to the neighbouring nodes, in both directions at once.
      DbTreeOps.v: the invariant of a table ([tree_ok]: balanced, sorted, the static
      stack empty or a path of the tree) and each operation.  DbTreeUpd.v: freeing the
      tree, and updates in place.
    - DbTreeProps.v: the properties.  A history of fewer than 2^31 operations refines a
      list that is sorted by the keys; 45 levels suffice, so that the stacks of 50
      entries are never overrun, and neither the balance nor the static stack can be seen.
    - DbTreeSelect.v: select, select_count and select_delete with their traversals and
      continuations; the match specification is a function.  DbTreeTrav.v: a traversal
      that may remove nodes visits every node once, in order, over any number of traps.
      DbTreeSelProps.v: the properties.  Exactly the objects that match are found,
      counted or removed, if no object outside the search area matches.
    - DbTreeChunk.v: select with a chunk size, while the table is changed between the calls:
      in order, no key twice, nothing missed that stays, every chunk but the last full.
    - DbPattern.v: tables of tuples of terms; variables, partly bound keys and
      analyze_pattern.  DbPatternSpec.v: a key, bound or not, as a sequence of what it has from
      left to right, so that a partly bound key is a prefix of the keys it can match, and the
      laws that DbTreeSelect.v asks for.  DbPatternLimits.v: the comparison of two keys for the least and
      the greatest one.  DbPatternAnalysis.v: the search area holds every object that matches.
    - DbPatternProps.v: the property.  From the clauses to the results; two defects, with
      tuples of different sizes inside a key, and with lists that end in the atom _.

    Timers:
    - TimerWheel.v: the wheel and its operations.  TimerInv.v: the wheel as a map from
      timers to timeouts.  TimerBump.v: erts_bump_timers on that map.  TimerNext.v:
      find_next_timeout.
    - TimerProps.v: the properties.  A call fires only what is due, ends, and leaves
      nothing due unless it yields; repeated calls fire everything due; the next
      timeout is not reported too late.  The states are those a program can reach
      ([reached]), with a condition on searches, without which a timer can be lost.

    ** Conditions of the theorems

    Where the code does not do what it means to on some inputs, a theorem names them, and a
    lemma next to it shows what happens there.  The conditions that are not visible in the
    statement's own words:
    - The counters of objects in hash and ETS tables and the index arithmetic are C [int]s:
      histories have fewer than 2^31 operations, index tables a limit of at most
      [max_limit] = 2^31 - 1025, buffers of bytes fewer than 2^31 bytes.
    - Timers are those of a wheel that a program can reach ([reached]); a search for the next
      timeout must not start while a timer is exactly one turn ahead ([no_full_turn]),
      after which a timer can be lost for a turn ([timer_lost_for_a_turn]).
    - Receiving supposes that memory can be allocated ([MemoryLaws]) and that sending to the
      owner reports no error ([ReceiverLaws]): driver_output2 returns 0 then, erl_drv_send_term
      1 or 0.  A failed allocation in the middle of tcp_deliver is not checked by the code.
    - Arithmetic: [borrow_kept] leaves out the operands of band and bxor for which big.c loses a
      borrow; [gives_nil] and [refused] are the cases with an answer of their own.
    - Selecting from an ordered set supposes a search area that holds every matching object
      ([range_sound]) and partly bound keys that compare monotonically ([PartlyBoundLaws]);
      DbPatternProps.v proves both for tables of terms ([row]) when the tuples inside the keys
      of the patterns have one size and no list in an object ends in a variable-like atom.
    - The order of terms is that of terms without floats, maps and funs, with the numbers of
      references below 2^31 ([term_ok]).
    - The store that an ETS table refines has no contract for taking from a fixed bag and
      for updates of bags or updates that fail ([store_step]).
    - Framing: raw data and HTTP headers depend on what has been received behind them
      ([framed_at]); a decision is final with the exceptions of [decision_final].

    ** Not modelled

    In the modelled files: ei_encode_bignum and ei_decode_bignum (GMP),
    ei_big_to_double, big_to_double and double_to_big (floating point), and
    erts_list_to_integer; the heap that erts_chars_to_integer reserves, computed
    with a floating-point logarithm; node-entry reference counts and debug output
    in erl_monitors.c; locks and text segments of the atom table; index_put of an
    object that is already allocated (erts_index_merge).

    Of erl_db_hash.c the select functions, and
    the internal tables' db_get_element_array and db_erase_bag_exact2; of erl_db_tree.c
    printing and the walk over data outside the table.  Compiled match specifications are a
    parameter (a function from objects to results).  An
    operation on a table is one step, so that the races of fine-grained locking, for which the code
    has checks that the model keeps, do not occur.

    Of the terms that erts_cmp compares: floats, maps, funs and exports, identifiers of
    other nodes, bit strings that are not bytes; ordered sets of terms therefore have no
    such keys, while DbTree.v and DbTreeSelect.v are about any keys.

    Of inet_drv.c only receiving on a connected TCP socket is modelled: connecting,
    accepting, sending, UDP and SCTP are system calls and their results.  In the
    theorems about arbitrary data the options of the socket stay as they are (only
    the active mode changes), and nothing is put back with gen_tcp:unrecv, which
    the model has and the theorems about overflows use.

    Left out, though within reach of this library: the port mapper's name table
    (epmd_srv.c), the registry and the format parser of erl_interface.  The rest of the
    runtime system (loader, interpreter, schedulers, allocators, drivers, distribution)
    and the Erlang libraries are outside its plan: their state is shared by concurrent
    threads or is the state of a whole virtual machine. *)
From stdpp Require Export base tactics numbers list gmap strings.
From Stdlib Require Export ZArith Lia.
#[global] Open Scope Z_scope.

(** * Machine integers *)

(** [wrap w x]: conversion to an unsigned [w]-bit type. *)
Definition wrap (w x : Z) : Z := x mod 2 ^ w.

(** [swrap w x]: conversion to a signed two's-complement [w]-bit type. *)
Definition swrap (w x : Z) : Z :=
  let y := x mod 2 ^ w in if y <? 2 ^ (w - 1) then y else y - 2 ^ w.

Definition INT_MAX : Z := 2147483647.

(** Conversion of a [ptrdiff_t]/[long] value to [int]. *)
Definition to_int (x : Z) : Z := swrap 32 x.

(** C truth values. *)
Definition c_bool (b : bool) : Z := if b then 1 else 0.

(** * Outcomes of C code

    [Ok a]: the code returns normally with [a].  [Fault]: it touches memory
    outside the object it was given (undefined behaviour).  [NoFuel]: the
    recursion bound of the model is exhausted; a theorem that the code returns
    always says [Ok]. *)
Inductive res (A : Type) : Type :=
| Ok (a : A)
| Fault
| NoFuel.
Arguments Ok {A} _.
Arguments Fault {A}.
Arguments NoFuel {A}.

#[export] Instance res_ret : MRet res := λ A a, Ok a.
#[export] Instance res_bind : MBind res := λ A B f m,
  match m with Ok a => f a | Fault => Fault | NoFuel => NoFuel end.
#[export] Instance res_eq_dec {A} `{EqDecision A} : EqDecision (res A).
Proof. solve_decision. Defined.

Definition is_Ok {A} (m : res A) : Prop := ∃ a, m = Ok a.

Lemma bind_Ok {A B} (a : A) (f : A → res B) : (Ok a ≫= f) = f a.
Proof. reflexivity. Qed.

Lemma bind_assoc {A B C} (m : res A) (f : A → res B) (g : B → res C) :
  ((m ≫= f) ≫= g) = (m ≫= λ a, f a ≫= g).
Proof. by destruct m. Qed.

Lemma bind_ext {A B} (m : res A) (f g : A → res B) :
  (∀ a, f a = g a) → (m ≫= f) = (m ≫= g).
Proof. intros H. destruct m; simpl; auto. Qed.

Lemma bind_ext_eq {A B} (m m' : res A) (f g : A → res B) :
  m = m' → (∀ a, f a = g a) → (m ≫= f) = (m' ≫= g).
Proof. intros -> H. by apply bind_ext. Qed.

Lemma bind_pair_ext {A B C} (m : res (A * B)) (f g : A → B → res C) :
  (∀ a b, f a b = g a b) → ('(a, b) ← m; f a b) = ('(a, b) ← m; g a b).
Proof. intros H. destruct m as [[]| |]; simpl; auto. Qed.

Lemma bind_Ok_inv {A B} (m : res A) (f : A → res B) b :
  (m ≫= f) = Ok b → ∃ a, m = Ok a ∧ f a = Ok b.
Proof. destruct m; simpl; intros H; try discriminate; eauto. Qed.

(** * Byte memory *)

(** A C object of [char]s: the list of its bytes, each in [0,255]. *)
Abbreviation bytes := (list Z).

Definition byte (x : Z) : Prop := 0 <= x < 256.

Definition zlen {A} (l : list A) : Z := Z.of_nat (length l).

(** [b[s]] *)
Definition rd (b : bytes) (s : Z) : res Z :=
  if s <? 0 then Fault
  else match b !! Z.to_nat s with Some v => Ok v | None => Fault end.

(** [b[s] = v] *)
Definition wr (b : bytes) (s v : Z) : res bytes :=
  if (0 <=? s) && (s <? zlen b) then Ok (<[Z.to_nat s := v]> b) else Fault.

(** Consecutive stores of the bytes [l] at [s]: [memcpy]/[memmove] into [b],
    and what a run of [*s++ = x] amounts to. *)
Fixpoint wrs (b : bytes) (s : Z) (l : bytes) : res (bytes * Z) :=
  match l with
  | [] => Ok (b, s)
  | x :: l' => b' ← wr b s x; wrs b' (s + 1) l'
  end.

(** The [n] bytes at [s], the source side of a [memcpy]; a negative [n] is a
    huge [size_t]. *)
Definition rds (b : bytes) (s n : Z) : res bytes :=
  if (n =? 0) then Ok []
  else if (0 <? n) && (0 <=? s) && (s + n <=? zlen b)
  then Ok (take (Z.to_nat n) (drop (Z.to_nat s) b)) else Fault.

(** [splice b s l]: [b] with the bytes from [s] on replaced by [l]. *)
Definition splice (b : bytes) (s : Z) (l : bytes) : bytes :=
  take (Z.to_nat s) b ++ l ++ drop (Z.to_nat s + length l) b.

(** [bytes_at b s l]: the bytes [l] are in [b] from offset [s] on. *)
Definition bytes_at (b : bytes) (s : Z) (l : bytes) : Prop :=
  ∃ pre post, b = pre ++ l ++ post ∧ zlen pre = s.

(** [dlia]: linear arithmetic with division and remainder by constants. *)
Ltac dlia := Z.to_euclidean_division_equations; lia.

(** * Lemmas on machine integers *)

Lemma wrap_range w x : 0 <= w → 0 <= wrap w x < 2 ^ w.
Proof. intros. unfold wrap. apply Z.mod_pos_bound. lia. Qed.

Lemma wrap_small w x : 0 <= x < 2 ^ w → wrap w x = x.
Proof. intros. unfold wrap. by apply Z.mod_small. Qed.

Lemma pow2_split w : 0 < w → 2 ^ w = 2 * 2 ^ (w - 1).
Proof. intros. rewrite <- Z.pow_succ_r by lia. f_equal. lia. Qed.

Lemma swrap_range w x : 0 < w → - 2 ^ (w - 1) <= swrap w x < 2 ^ (w - 1).
Proof.
  intros Hw. unfold swrap. pose proof (pow2_split w Hw).
  pose proof (Z.mod_pos_bound x (2 ^ w) ltac:(lia)).
  destruct (Z.ltb_spec (x mod 2 ^ w) (2 ^ (w - 1))); lia.
Qed.

Lemma swrap_small w x :
  0 < w → - 2 ^ (w - 1) <= x < 2 ^ (w - 1) → swrap w x = x.
Proof.
  intros Hw Hx. unfold swrap. pose proof (pow2_split w Hw).
  destruct (Z.ltb_spec x 0).
  - assert (x mod 2 ^ w = x + 2 ^ w) as ->.
    { rewrite <- (Z.mod_add x 1), Z.mul_1_l by lia. apply Z.mod_small. lia. }
    destruct (Z.ltb_spec (x + 2 ^ w) (2 ^ (w - 1))); lia.
  - rewrite Z.mod_small by lia.
    destruct (Z.ltb_spec x (2 ^ (w - 1))); lia.
Qed.

Lemma to_int_small x : - 2 ^ 31 <= x <= INT_MAX → to_int x = x.
Proof. unfold INT_MAX. intros. apply swrap_small; lia. Qed.

Lemma wrap_swrap w x : 0 < w → wrap w (swrap w x) = wrap w x.
Proof.
  intros Hw. unfold swrap, wrap.
  destruct (_ <? _); [by rewrite Z.mod_mod by lia|].
  rewrite <- (Z.mod_add (_ - _) 1) by lia.
  replace (x mod 2 ^ w - 2 ^ w + 1 * 2 ^ w) with (x mod 2 ^ w) by lia.
  by rewrite Z.mod_mod by lia.
Qed.

Lemma swrap_wrap w x : 0 < w → swrap w (wrap w x) = swrap w x.
Proof. intros Hw. unfold swrap, wrap. by rewrite Z.mod_mod by lia. Qed.

Lemma swrap_opp w x : 0 < w → swrap w (- swrap w x) = swrap w (- x).
Proof.
  intros Hw. rewrite <- swrap_wrap, <- (swrap_wrap w (- x)) by done. f_equal.
  unfold wrap. pose proof (wrap_swrap w x Hw) as H. unfold wrap in H.
  rewrite <- !Z.sub_0_l, Zminus_mod, H, <- Zminus_mod. done.
Qed.

(** * Lemmas on lengths and byte memory *)

Lemma zlen_nil {A} : zlen (@nil A) = 0.
Proof. reflexivity. Qed.

Lemma zlen_cons {A} (x : A) l : zlen (x :: l) = 1 + zlen l.
Proof. unfold zlen. simpl. lia. Qed.

Lemma zlen_app {A} (l k : list A) : zlen (l ++ k) = zlen l + zlen k.
Proof. unfold zlen. rewrite length_app. lia. Qed.

Lemma zlen_nonneg {A} (l : list A) : 0 <= zlen l.
Proof. unfold zlen. lia. Qed.

Lemma zlen_map {A B} (f : A → B) l : zlen (map f l) = zlen l.
Proof. unfold zlen. by rewrite length_map. Qed.

Lemma to_nat_zlen {A} (l : list A) : Z.to_nat (zlen l) = length l.
Proof. unfold zlen. lia. Qed.

Create HintDb cmem.
Create Rewrite HintDb cmem.
#[export] Hint Rewrite @zlen_nil @zlen_cons @zlen_app @zlen_map : cmem.
#[export] Hint Resolve zlen_nonneg : cmem.

(** [zl]: normalise [zlen] of literal lists and finish with [lia]. *)
Ltac zl :=
  autorewrite with cmem in *;
  repeat match goal with
  | |- context [zlen ?l] =>
      lazymatch goal with
      | H : 0 <= zlen l |- _ => fail
      | _ => pose proof (zlen_nonneg l)
      end
  | H : context [zlen ?l] |- _ =>
      lazymatch goal with
      | H : 0 <= zlen l |- _ => fail
      | _ => pose proof (zlen_nonneg l)
      end
  end; lia.

Lemma wr_length b s v b' : wr b s v = Ok b' → length b' = length b.
Proof.
  unfold wr. destruct (_ && _); intros [= <-]. apply length_insert.
Qed.

Lemma wr_ok b s v : 0 <= s < zlen b → wr b s v = Ok (splice b s [v]).
Proof.
  intros Hs. unfold wr, zlen in *.
  destruct (Z.leb_spec 0 s), (Z.ltb_spec s (Z.of_nat (length b))); try lia.
  simpl. f_equal. unfold splice.
  rewrite insert_take_drop by lia. f_equal. simpl. do 2 f_equal. lia.
Qed.

Lemma splice_length b s l :
  0 <= s → s + zlen l <= zlen b → length (splice b s l) = length b.
Proof.
  unfold splice, zlen. intros.
  rewrite !length_app, length_take, length_drop. lia.
Qed.

Lemma zlen_splice b s l :
  0 <= s → s + zlen l <= zlen b → zlen (splice b s l) = zlen b.
Proof. intros. unfold zlen at 1. by rewrite splice_length. Qed.

Lemma splice_nil b s : splice b s [] = b.
Proof.
  unfold splice. simpl. rewrite Nat.add_0_r. apply take_drop.
Qed.

Lemma splice_app b s l1 l2 :
  0 <= s → s + zlen l1 + zlen l2 <= zlen b →
  splice (splice b s l1) (s + zlen l1) l2 = splice b s (l1 ++ l2).
Proof.
  unfold splice, zlen. intros Hs Hb.
  rewrite (app_assoc (take _ b) l1).
  assert (length (take (Z.to_nat s) b ++ l1) = Z.to_nat (s + Z.of_nat (length l1)))
    as Hlen by (rewrite length_app, length_take; lia).
  rewrite take_app_le, drop_app_ge by lia. rewrite take_ge by lia.
  rewrite <- !app_assoc. do 3 f_equal. rewrite drop_drop. f_equal.
  rewrite Hlen, length_app. lia.
Qed.

Lemma wrs_app b s l1 l2 :
  wrs b s (l1 ++ l2) = ('(b', s') ← wrs b s l1; wrs b' s' l2).
Proof.
  revert b s. induction l1 as [|x l1 IH]; intros b s; [done|].
  simpl. destruct (wr b s x); simpl; auto.
Qed.

(** Stores inside the buffer succeed and splice the bytes in. *)
Lemma wrs_ok b s l :
  0 <= s → s + zlen l <= zlen b → wrs b s l = Ok (splice b s l, s + zlen l).
Proof.
  revert b s. induction l as [|x l IH]; intros b s Hs Hb; simpl.
  { rewrite splice_nil, zlen_nil. do 2 f_equal. lia. }
  rewrite zlen_cons in *. pose proof (zlen_nonneg l).
  rewrite wr_ok by lia. simpl. rewrite IH.
  - change (s + 1) with (s + zlen [x]). rewrite splice_app; [|lia|zl].
    do 2 f_equal. change (zlen [x]) with 1. lia.
  - lia.
  - unfold zlen at 2. rewrite splice_length; [|lia|zl]. fold (zlen b). lia.
Qed.

(** A store that does not fit faults. *)
Lemma wrs_fault b s l :
  l ≠ [] → (s < 0 ∨ zlen b < s + zlen l) → wrs b s l = Fault.
Proof.
  revert b s. induction l as [|x l IH]; intros b s Hl Hs; [done|].
  simpl. destruct (wr b s x) as [b'| |] eqn:E; simpl.
  - pose proof (wr_length _ _ _ _ E) as Hlen.
    unfold wr in E. destruct (Z.leb_spec 0 s), (Z.ltb_spec s (zlen b)); try discriminate.
    destruct l as [|y l]; [unfold zlen in *; simpl in *; lia|].
    apply IH; [done|]. right.
    unfold zlen in *. rewrite Hlen. simpl in *. lia.
  - done.
  - unfold wr in E. destruct (_ && _); discriminate.
Qed.

Lemma wrs_length b s l b' s' : wrs b s l = Ok (b', s') → length b' = length b.
Proof.
  revert b s. induction l as [|x l IH]; intros b s; simpl; [by intros [= <- <-]|].
  destruct (wr b s x) as [b1| |] eqn:E; simpl; try discriminate.
  intros H. rewrite (IH _ _ H). by eapply wr_length.
Qed.

Lemma wrs_no_NoFuel b s l : wrs b s l ≠ NoFuel.
Proof.
  revert b s. induction l as [|x l IH]; intros b s; simpl; [done|].
  unfold wr. destruct (_ && _); simpl; auto.
Qed.

(** The bytes a successful store leaves behind. *)
Lemma splice_bytes_at b s l :
  0 <= s → s + zlen l <= zlen b → bytes_at (splice b s l) s l.
Proof.
  intros. eexists _, _. split; [reflexivity|].
  unfold zlen in *. rewrite length_take. lia.
Qed.

(** Storing the second part first gives the same buffer. *)
Lemma wrs_swap b s l1 l2 :
  l1 ≠ [] →
  ('(b1, _) ← wrs b (s + zlen l1) l2; '(b2, _) ← wrs b1 s l1; Ok b2) =
  ('(b2, _) ← wrs b s (l1 ++ l2); Ok b2).
Proof.
  intros Hne. pose proof (zlen_nonneg l2).
  assert (0 < zlen l1). { destruct l1; [done|]. zl. }
  destruct (decide (0 <= s ∧ s + zlen (l1 ++ l2) <= zlen b)) as [[Hs Hb]|Hno].
  - rewrite zlen_app in Hb.
    rewrite (wrs_ok b s) by zl. rewrite (wrs_ok b (s + _)) by lia. simpl.
    assert (zlen (splice b (s + zlen l1) l2) = zlen b) as Hlen.
    { unfold zlen. rewrite splice_length; unfold zlen in *; lia. }
    rewrite wrs_ok by lia. simpl. f_equal.
    unfold splice, zlen in *. rewrite length_app.
    rewrite take_app_le by (rewrite length_take; lia).
    rewrite take_take. replace (_ `min` _)%nat with (Z.to_nat s) by lia.
    f_equal. rewrite <- app_assoc. f_equal.
    rewrite drop_app_ge by (rewrite length_take; lia).
    rewrite length_take.
    replace (_ - _)%nat with 0%nat by lia. rewrite drop_0. f_equal.
    by replace (Z.to_nat (s + _)) with (Z.to_nat s + length l1)%nat by lia;
      rewrite Nat.add_assoc.
  - rewrite (wrs_fault b s (l1 ++ l2)); [|by destruct l1|zl]. simpl.
    destruct (wrs b (s + zlen l1) l2) as [[b1 s1]| |] eqn:E; simpl;
      [|done|by apply wrs_no_NoFuel in E].
    pose proof (wrs_length _ _ _ _ _ E) as Hlen.
    assert (zlen b1 = zlen b) as Hz by (unfold zlen; lia).
    rewrite wrs_fault; [done|done|].
    rewrite zlen_app in Hno. destruct l2 as [|y l2]; [zl|].
    destruct (decide (0 <= s + zlen l1 ∧ s + zlen l1 + zlen (y :: l2) <= zlen b)).
    + left. zl.
    + rewrite wrs_fault in E; [done|done|lia].
Qed.

(** Loads of bytes that are there succeed. *)
Lemma rd_at b s x l : bytes_at b s (x :: l) → rd b s = Ok x.
Proof.
  intros (pre & post & -> & <-). unfold rd, zlen.
  destruct (Z.ltb_spec (Z.of_nat (length pre)) 0); [lia|].
  rewrite Nat2Z.id, lookup_app_r by lia. by rewrite Nat.sub_diag.
Qed.

Lemma bytes_at_app b s l1 l2 :
  bytes_at b s (l1 ++ l2) ↔ bytes_at b s l1 ∧ bytes_at b (s + zlen l1) l2.
Proof.
  split.
  - intros (pre & post & -> & <-). split.
    + exists pre, (l2 ++ post). by rewrite <- app_assoc.
    + exists (pre ++ l1), post. rewrite zlen_app. by rewrite <- !app_assoc.
  - intros [(pre & post & -> & <-) (pre2 & post2 & E & Hl)].
    exists pre, post2. split; [|done].
    assert (length pre2 = length (pre ++ l1)) as Hlen.
    { unfold zlen in Hl. rewrite length_app. lia. }
    rewrite app_assoc in E. apply app_inj_1 in E as [_ ->]; [|done].
    by rewrite <- !app_assoc.
Qed.

Lemma bytes_at_cons b s x l : bytes_at b s (x :: l) → bytes_at b (s + 1) l.
Proof. intros H. by apply (bytes_at_app b s [x] l) in H as [_ H]. Qed.

Lemma bytes_at_nonneg b s l : bytes_at b s l → 0 <= s.
Proof. intros (pre & post & -> & <-). apply zlen_nonneg. Qed.

Lemma bytes_at_bound b s l : bytes_at b s l → s + zlen l <= zlen b.
Proof. intros (pre & post & -> & <-). zl. Qed.

Lemma rds_at b s l : bytes_at b s l → rds b s (zlen l) = Ok l.
Proof.
  intros (pre & post & -> & <-). unfold rds.
  destruct (Z.eqb_spec (zlen l) 0) as [E|E].
  { destruct l; [done|]. autorewrite with cmem in E. pose proof (zlen_nonneg l). lia. }
  destruct (Z.ltb_spec 0 (zlen l)); [|zl].
  destruct (Z.leb_spec 0 (zlen pre)); [|zl].
  destruct (Z.leb_spec (zlen pre + zlen l) (zlen (pre ++ l ++ post))); [|zl].
  simpl. f_equal. unfold zlen. rewrite !Nat2Z.id.
  by rewrite drop_app_length, take_app_length.
Qed.

Lemma bytes_at_intro pre l post : bytes_at (pre ++ l ++ post) (zlen pre) l.
Proof. by exists pre, post. Qed.

(** * Bit operations on digits *)

Lemma land_255 x : Z.land x 255 = x mod 256.
Proof. change 255 with (Z.ones 8). by rewrite Z.land_ones. Qed.

Lemma land_255_idem x : Z.land (Z.land x 255) 255 = Z.land x 255.
Proof. by rewrite <- Z.land_assoc. Qed.

Lemma byte_land x : byte (Z.land x 255).
Proof. rewrite land_255. unfold byte. apply Z.mod_pos_bound. lia. Qed.

Lemma testbit_high b k i : 0 <= b < 2 ^ k → k <= i → Z.testbit b i = false.
Proof.
  intros Hb Hi. destruct (decide (b = 0)) as [->|]; [apply Z.bits_0|].
  apply Z.bits_above_log2; [lia|]. 
  assert (Z.log2 b < k); [|lia]. apply Z.log2_lt_pow2; lia.
Qed.

Lemma land_shiftl_low a b k : 0 <= k → 0 <= b < 2 ^ k → Z.land (Z.shiftl a k) b = 0.
Proof.
  intros Hk Hb. apply Z.bits_inj'. intros i Hi.
  rewrite Z.land_spec, Z.bits_0, Z.shiftl_spec by done.
  destruct (decide (i < k)).
  - by rewrite Z.testbit_neg_r by lia.
  - rewrite (testbit_high b k i) by lia. apply andb_false_r.
Qed.

(** [(a << k) | b] is [a * 2^k + b] when [b] fits in [k] bits. *)
Lemma lor_shiftl_add a b k :
  0 <= k → 0 <= b < 2 ^ k → Z.lor (Z.shiftl a k) b = a * 2 ^ k + b.
Proof.
  intros Hk Hb. pose proof (land_shiftl_low a b k Hk Hb) as H0.
  rewrite <- Z.shiftl_mul_pow2 by done.
  rewrite Z.add_nocarry_lxor by done. symmetry. by apply Z.lxor_lor.
Qed.
