(* ===== verification/EiBase.v ===== *)
(** The wire level of the [ei] library (lib/erl_interface): the tags of
    [include/ei.h], the byte-order macros of [src/misc/putget.h], the structs
    the codec fills in, and the interface every encoder is proved against.

    A [char *buf] argument is [option bytes]: [None] is the NULL pointer of a
    size pass, [Some b] the object the pointer points to.  [*index] is passed in
    and returned.  An encoder's result is [(return value, buf, *index)]. *)
From S2P Require Import Prelude.

(** * Tags and limits of ei.h and eiext.h *)

Definition ERL_SMALL_INTEGER_EXT : Z := 97.
Definition ERL_INTEGER_EXT : Z := 98.
Definition ERL_FLOAT_EXT : Z := 99.
Definition NEW_FLOAT_EXT : Z := 70.
Definition ERL_ATOM_EXT : Z := 100.
Definition ERL_SMALL_ATOM_EXT : Z := 115.
Definition ERL_ATOM_UTF8_EXT : Z := 118.
Definition ERL_SMALL_ATOM_UTF8_EXT : Z := 119.
Definition ERL_REFERENCE_EXT : Z := 101.
Definition ERL_NEW_REFERENCE_EXT : Z := 114.
Definition ERL_NEWER_REFERENCE_EXT : Z := 90.
Definition ERL_PORT_EXT : Z := 102.
Definition ERL_NEW_PORT_EXT : Z := 89.
Definition ERL_PID_EXT : Z := 103.
Definition ERL_NEW_PID_EXT : Z := 88.
Definition ERL_SMALL_TUPLE_EXT : Z := 104.
Definition ERL_LARGE_TUPLE_EXT : Z := 105.
Definition ERL_NIL_EXT : Z := 106.
Definition ERL_STRING_EXT : Z := 107.
Definition ERL_LIST_EXT : Z := 108.
Definition ERL_BINARY_EXT : Z := 109.
Definition ERL_SMALL_BIG_EXT : Z := 110.
Definition ERL_LARGE_BIG_EXT : Z := 111.
Definition ERL_NEW_FUN_EXT : Z := 112.
Definition ERL_MAP_EXT : Z := 116.
Definition ERL_FUN_EXT : Z := 117.
Definition ERL_NEW_CACHE : Z := 78.
Definition ERL_CACHED_ATOM : Z := 67.
Definition ERL_PASS_THROUGH : Z := 112.

Definition ERL_VERSION_MAGIC : Z := 131.
Definition ERL_MAX : Z := Z.shiftl 1 27 - 1.
Definition ERL_MIN : Z := - Z.shiftl 1 27.

Lemma ERL_MAX_val : ERL_MAX = 134217727.
Proof. reflexivity. Qed.
Lemma ERL_MIN_val : ERL_MIN = -134217728.
Proof. reflexivity. Qed.

Definition MAXATOMLEN : Z := 255 + 1.
Definition MAXATOMLEN_UTF8 : Z := 255 * 4 + 1.

(** [erlang_char_encoding] is a bit set: the code also passes
    [ERLANG_LATIN1|ERLANG_UTF8]. *)
Definition ERLANG_ASCII : Z := 1.
Definition ERLANG_LATIN1 : Z := 2.
Definition ERLANG_UTF8 : Z := 4.

(** * Structs of ei.h *)

Record erlang_pid := mk_pid {
  pid_node : bytes; pid_num : Z; pid_serial : Z; pid_creation : Z }.

Record erlang_port := mk_port {
  port_node : bytes; port_id : Z; port_creation : Z }.

Record erlang_ref := mk_ref {
  ref_node : bytes; ref_len : Z; ref_n : list Z; ref_creation : Z }.

Record erlang_trace := mk_trace {
  tr_serial : Z; tr_prev : Z; tr_from : erlang_pid; tr_label : Z; tr_flags : Z }.

Record erlang_big := mk_big {
  big_arity : Z; big_is_neg : Z; big_digits : list Z }.

(** * putget.h: stores *)

Definition put8 (b : bytes) (s n : Z) : res (bytes * Z) :=
  b ← wr b s (Z.land n 255);
  Ok (b, s + 1).

Definition put16be (b : bytes) (s n : Z) : res (bytes * Z) :=
  b ← wr b s (Z.land (Z.shiftr n 8) 255);
  b ← wr b (s + 1) (Z.land n 255);
  Ok (b, s + 2).

Definition put32be (b : bytes) (s n : Z) : res (bytes * Z) :=
  b ← wr b s (Z.land (Z.shiftr n 24) 255);
  b ← wr b (s + 1) (Z.land (Z.shiftr n 16) 255);
  b ← wr b (s + 2) (Z.land (Z.shiftr n 8) 255);
  b ← wr b (s + 3) (Z.land n 255);
  Ok (b, s + 4).

Definition put64be (b : bytes) (s n : Z) : res (bytes * Z) :=
  b ← wr b s (Z.land (Z.shiftr n 56) 255);
  b ← wr b (s + 1) (Z.land (Z.shiftr n 48) 255);
  b ← wr b (s + 2) (Z.land (Z.shiftr n 40) 255);
  b ← wr b (s + 3) (Z.land (Z.shiftr n 32) 255);
  b ← wr b (s + 4) (Z.land (Z.shiftr n 24) 255);
  b ← wr b (s + 5) (Z.land (Z.shiftr n 16) 255);
  b ← wr b (s + 6) (Z.land (Z.shiftr n 8) 255);
  b ← wr b (s + 7) (Z.land n 255);
  Ok (b, s + 8).

(** * putget.h: loads

    [get32be] and [get32le] are computed in [int]; [get64be] in
    [EI_ULONGLONG]. *)

Definition get8 (b : bytes) (s : Z) : res (Z * Z) :=
  x ← rd b s;
  Ok (Z.land x 255, s + 1).

Definition get16be (b : bytes) (s : Z) : res (Z * Z) :=
  x0 ← rd b s;
  x1 ← rd b (s + 1);
  Ok (Z.land (Z.lor (Z.shiftl x0 8) x1) 65535, s + 2).

Definition get32le (b : bytes) (s : Z) : res (Z * Z) :=
  x0 ← rd b s;
  x1 ← rd b (s + 1);
  x2 ← rd b (s + 2);
  x3 ← rd b (s + 3);
  Ok (swrap 32 (Z.lor (Z.lor (Z.lor (Z.shiftl x3 24) (Z.shiftl x2 16))
                             (Z.shiftl x1 8)) x0), s + 4).

Definition get32be (b : bytes) (s : Z) : res (Z * Z) :=
  x0 ← rd b s;
  x1 ← rd b (s + 1);
  x2 ← rd b (s + 2);
  x3 ← rd b (s + 3);
  Ok (swrap 32 (Z.lor (Z.lor (Z.lor (Z.shiftl x0 24) (Z.shiftl x1 16))
                             (Z.shiftl x2 8)) x3), s + 4).

Definition get64be (b : bytes) (s : Z) : res (Z * Z) :=
  x0 ← rd b s;
  x1 ← rd b (s + 1);
  x2 ← rd b (s + 2);
  x3 ← rd b (s + 3);
  x4 ← rd b (s + 4);
  x5 ← rd b (s + 5);
  x6 ← rd b (s + 6);
  x7 ← rd b (s + 7);
  Ok (wrap 64
        (Z.lor (Z.lor (Z.lor (Z.lor (Z.lor (Z.lor (Z.lor
           (Z.shiftl x0 56) (Z.shiftl x1 48)) (Z.shiftl x2 40))
           (Z.shiftl x3 32)) (Z.shiftl x4 24)) (Z.shiftl x5 16))
           (Z.shiftl x6 8)) x7), s + 8).

(** * The bytes the stores write *)

Definition be16 (n : Z) : bytes := [Z.land (Z.shiftr n 8) 255; Z.land n 255].

Definition be32 (n : Z) : bytes :=
  [Z.land (Z.shiftr n 24) 255; Z.land (Z.shiftr n 16) 255;
   Z.land (Z.shiftr n 8) 255; Z.land n 255].

Definition be64 (n : Z) : bytes :=
  [Z.land (Z.shiftr n 56) 255; Z.land (Z.shiftr n 48) 255;
   Z.land (Z.shiftr n 40) 255; Z.land (Z.shiftr n 32) 255;
   Z.land (Z.shiftr n 24) 255; Z.land (Z.shiftr n 16) 255;
   Z.land (Z.shiftr n 8) 255; Z.land n 255].

Lemma zlen_be16 n : zlen (be16 n) = 2.
Proof. reflexivity. Qed.
Lemma zlen_be32 n : zlen (be32 n) = 4.
Proof. reflexivity. Qed.
Lemma zlen_be64 n : zlen (be64 n) = 8.
Proof. reflexivity. Qed.
#[export] Hint Rewrite zlen_be16 zlen_be32 zlen_be64 : cmem.

(** A step of pointer arithmetic in the tail of a chain of stores. *)
Ltac wr_chain :=
  repeat (apply bind_ext; intro); cbn [mbind res_bind]; do 2 f_equal; lia.

Lemma put8_wrs b s n : put8 b s n = wrs b s [Z.land n 255].
Proof. reflexivity. Qed.

Lemma put16be_wrs b s n : put16be b s n = wrs b s (be16 n).
Proof. unfold put16be, be16. simpl wrs. wr_chain. Qed.

Lemma put32be_wrs b s n : put32be b s n = wrs b s (be32 n).
Proof.
  unfold put32be, be32. simpl wrs.
  replace (s + 1 + 1) with (s + 2) by lia. replace (s + 2 + 1) with (s + 3) by lia.
  wr_chain.
Qed.

Lemma put64be_wrs b s n : put64be b s n = wrs b s (be64 n).
Proof.
  unfold put64be, be64. simpl wrs.
  replace (s + 1 + 1) with (s + 2) by lia. replace (s + 2 + 1) with (s + 3) by lia.
  replace (s + 3 + 1) with (s + 4) by lia. replace (s + 4 + 1) with (s + 5) by lia.
  replace (s + 5 + 1) with (s + 6) by lia. replace (s + 6 + 1) with (s + 7) by lia.
  wr_chain.
Qed.

(** * What the loads return *)

Lemma lor_bytes a x k :
  0 <= k → byte x → Z.lor (Z.shiftl a (k + 8)) (Z.shiftl x k) = Z.shiftl (a * 256 + x) k.
Proof.
  intros Hk Hx. unfold byte in Hx. rewrite (Z.add_comm k 8).
  rewrite <- Z.shiftl_shiftl, <- Z.shiftl_lor by lia.
  f_equal. by rewrite lor_shiftl_add by (simpl; lia).
Qed.

Lemma lor_byte_last a x : byte x → Z.lor (Z.shiftl a 8) x = a * 256 + x.
Proof. intros. unfold byte in *. by rewrite lor_shiftl_add by (simpl; lia). Qed.

Lemma be16_val n :
  Z.land (Z.lor (Z.shiftl (Z.land (Z.shiftr n 8) 255) 8) (Z.land n 255)) 65535
  = n mod 65536.
Proof.
  rewrite lor_byte_last by apply byte_land. rewrite !land_255, Z.shiftr_div_pow2 by lia.
  change 65535 with (Z.ones 16). rewrite Z.land_ones by lia.
  change (2 ^ 8) with 256. change (2 ^ 16) with 65536. dlia.
Qed.

Lemma be32_val n :
  Z.lor (Z.lor (Z.lor (Z.shiftl (Z.land (Z.shiftr n 24) 255) 24)
                      (Z.shiftl (Z.land (Z.shiftr n 16) 255) 16))
               (Z.shiftl (Z.land (Z.shiftr n 8) 255) 8)) (Z.land n 255)
  = wrap 32 n.
Proof.
  rewrite (lor_bytes _ _ 16), (lor_bytes _ _ 8), lor_byte_last by (apply byte_land || lia).
  rewrite !land_255, !Z.shiftr_div_pow2 by lia. unfold wrap.
  change (2 ^ 8) with 256. change (2 ^ 16) with 65536.
  change (2 ^ 24) with 16777216. change (2 ^ 32) with 4294967296. dlia.
Qed.

Lemma be64_val n :
  Z.lor (Z.lor (Z.lor (Z.lor (Z.lor (Z.lor (Z.lor
    (Z.shiftl (Z.land (Z.shiftr n 56) 255) 56) (Z.shiftl (Z.land (Z.shiftr n 48) 255) 48))
    (Z.shiftl (Z.land (Z.shiftr n 40) 255) 40)) (Z.shiftl (Z.land (Z.shiftr n 32) 255) 32))
    (Z.shiftl (Z.land (Z.shiftr n 24) 255) 24)) (Z.shiftl (Z.land (Z.shiftr n 16) 255) 16))
    (Z.shiftl (Z.land (Z.shiftr n 8) 255) 8)) (Z.land n 255)
  = wrap 64 n.
Proof.
  rewrite (lor_bytes _ _ 48), (lor_bytes _ _ 40), (lor_bytes _ _ 32), (lor_bytes _ _ 24),
    (lor_bytes _ _ 16), (lor_bytes _ _ 8), lor_byte_last by (apply byte_land || lia).
  rewrite !land_255, !Z.shiftr_div_pow2 by lia. unfold wrap.
  change (2 ^ 8) with 256. change (2 ^ 16) with 65536. change (2 ^ 24) with 16777216.
  change (2 ^ 32) with 4294967296. change (2 ^ 40) with 1099511627776.
  change (2 ^ 48) with 281474976710656. change (2 ^ 56) with 72057594037927936.
  change (2 ^ 64) with 18446744073709551616. dlia.
Qed.

Lemma get8_at b s x l :
  bytes_at b s (x :: l) → byte x → get8 b s = Ok (x, s + 1).
Proof.
  intros H Hx. unfold get8, byte in *. rewrite (rd_at _ _ _ _ H). simpl.
  rewrite land_255, Z.mod_small by lia. done.
Qed.

Lemma get8_at_land b s x l :
  bytes_at b s (Z.land x 255 :: l) → get8 b s = Ok (Z.land x 255, s + 1).
Proof. intros H. apply (get8_at _ _ _ _ H), byte_land. Qed.

Lemma get16be_at b s n l :
  bytes_at b s (be16 n ++ l) → get16be b s = Ok (n mod 65536, s + 2).
Proof.
  intros H. unfold get16be, be16 in *. simpl in H.
  rewrite (rd_at _ _ _ _ H). apply bytes_at_cons in H.
  rewrite (rd_at _ _ _ _ H). simpl. by rewrite be16_val.
Qed.

Lemma get32be_at b s n l :
  bytes_at b s (be32 n ++ l) → get32be b s = Ok (swrap 32 n, s + 4).
Proof.
  intros H. unfold get32be, be32 in *. simpl in H.
  rewrite (rd_at _ _ _ _ H). apply bytes_at_cons in H.
  rewrite (rd_at _ _ _ _ H). apply bytes_at_cons in H.
  replace (s + 1 + 1) with (s + 2) in H by lia.
  rewrite (rd_at _ _ _ _ H). apply bytes_at_cons in H.
  replace (s + 2 + 1) with (s + 3) in H by lia.
  rewrite (rd_at _ _ _ _ H). simpl.
  by rewrite be32_val, swrap_wrap by lia.
Qed.

Lemma get64be_at b s n l :
  bytes_at b s (be64 n ++ l) → get64be b s = Ok (wrap 64 n, s + 8).
Proof.
  intros H. unfold get64be, be64 in *. simpl in H.
  rewrite (rd_at _ _ _ _ H). apply bytes_at_cons in H.
  rewrite (rd_at _ _ _ _ H). apply bytes_at_cons in H.
  replace (s + 1 + 1) with (s + 2) in H by lia.
  rewrite (rd_at _ _ _ _ H). apply bytes_at_cons in H.
  replace (s + 2 + 1) with (s + 3) in H by lia.
  rewrite (rd_at _ _ _ _ H). apply bytes_at_cons in H.
  replace (s + 3 + 1) with (s + 4) in H by lia.
  rewrite (rd_at _ _ _ _ H). apply bytes_at_cons in H.
  replace (s + 4 + 1) with (s + 5) in H by lia.
  rewrite (rd_at _ _ _ _ H). apply bytes_at_cons in H.
  replace (s + 5 + 1) with (s + 6) in H by lia.
  rewrite (rd_at _ _ _ _ H). apply bytes_at_cons in H.
  replace (s + 6 + 1) with (s + 7) in H by lia.
  rewrite (rd_at _ _ _ _ H). simpl.
  rewrite be64_val. by rewrite (wrap_small 64 (wrap 64 n)) by (apply wrap_range; lia).
Qed.

(** * The encoder interface

    [Encodes f l]: called with a NULL buffer, [f] advances the index by the
    length of [l]; called with a buffer, it stores [l] at the index and advances
    it by the same amount.  This is what the two-pass use of the library (size
    pass, allocation, write pass) relies on. *)
Abbreviation encoder := (option bytes → Z → res (Z * option bytes * Z)).

Class Encodes (f : encoder) (l : bytes) : Prop := {
  enc_size : ∀ i, 0 <= i → i + zlen l <= INT_MAX →
    f None i = Ok (0, None, i + zlen l);
  enc_write : ∀ b i, 0 <= i → i + zlen l <= INT_MAX →
    f (Some b) i = ('(b', _) ← wrs b i l; Ok (0, Some b', i + zlen l)) }.

(** A write pass into a buffer that has room. *)
Lemma enc_fits f l `{!Encodes f l} b i :
  0 <= i → i + zlen l <= INT_MAX → i + zlen l <= zlen b →
  f (Some b) i = Ok (0, Some (splice b i l), i + zlen l).
Proof. intros. by rewrite enc_write, wrs_ok by lia. Qed.

(** The end of an encoder: [*index += s - s0; return 0]. *)
Definition enc_ret (buf : option bytes) (index s : Z) : res (Z * option bytes * Z) :=
  Ok (0, buf, to_int (index + (s - index))).

Lemma enc_ret_small buf i s :
  0 <= s <= INT_MAX → enc_ret buf i s = Ok (0, buf, s).
Proof.
  intros. unfold enc_ret. rewrite to_int_small; [|lia]. do 2 f_equal. lia.
Qed.

Lemma wrs_ret b i l :
  0 <= i → i + zlen l <= INT_MAX →
  ('(b', s) ← wrs b i l; enc_ret (Some b') i s) =
  ('(b', _) ← wrs b i l; Ok (0, Some b', i + zlen l)).
Proof.
  intros. destruct (decide (l = [] ∨ i + zlen l <= zlen b)) as [[->|]|Hno].
  - simpl. rewrite zlen_nil in *. rewrite enc_ret_small by lia. by rewrite Z.add_0_r.
  - rewrite wrs_ok by lia. simpl. apply enc_ret_small. pose proof (zlen_nonneg l). lia.
  - rewrite wrs_fault; [done|naive_solver|].
    right. destruct (decide (i + zlen l <= zlen b)); [naive_solver|lia].
Qed.

(** A run of stores followed by code that starts with a run of stores. *)
Lemma wrs_then {A} b s l1 l2 (f k : bytes → Z → res A) :
  (∀ b' s', f b' s' = ('(b'', s'') ← wrs b' s' l2; k b'' s'')) →
  ('(b', s') ← wrs b s l1; f b' s') = ('(b'', s'') ← wrs b s (l1 ++ l2); k b'' s'').
Proof.
  intros H. rewrite wrs_app, bind_assoc. apply bind_ext. intros []. apply H.
Qed.

(** The pointer after a run of stores. *)
Lemma wrs_ptr {A} b s l (f : bytes → Z → res A) :
  ('(b', s') ← wrs b s l; f b' s') = ('(b', _) ← wrs b s l; f b' (s + zlen l)).
Proof.
  revert b s. induction l as [|x l IH]; intros b s; simpl.
  { by rewrite zlen_nil, Z.add_0_r. }
  rewrite !bind_assoc. apply bind_ext. intros b'. rewrite IH.
  apply bind_ext. intros []. f_equal. rewrite zlen_cons. lia.
Qed.

Lemma wrs_cut {A} b s l1 l2 (k : bytes → res A) :
  ('(b', _) ← wrs b s (l1 ++ l2); k b') =
  ('(b1, _) ← wrs b s l1; '(b2, _) ← wrs b1 (s + zlen l1) l2; k b2).
Proof.
  rewrite <- (wrs_ptr b s l1 (λ b' s', '(b2, _) ← wrs b' s' l2; k b2)).
  rewrite wrs_app, bind_assoc. apply bind_ext. by intros [].
Qed.

(** Stores made out of order: the second part first. *)
Lemma wrs_swap_bind {A} b s l1 l2 (k : bytes → res A) :
  l1 ≠ [] →
  ('(b1, _) ← wrs b (s + zlen l1) l2; '(b2, _) ← wrs b1 s l1; k b2) =
  ('(b2, _) ← wrs b s (l1 ++ l2); k b2).
Proof.
  intros Hne. pose proof (f_equal (λ m, m ≫= k) (wrs_swap b s l1 l2 Hne)) as H.
  simpl in H. rewrite !bind_assoc in H.
  etransitivity; [|etransitivity; [exact H|]].
  - apply bind_ext. intros []. rewrite bind_assoc. apply bind_ext. by intros [].
  - apply bind_ext. by intros [].
Qed.

(** The same when the last stores are a block copy of [l] followed by
    [s += len]. *)
Lemma wrs_copy_ret b s l index len :
  len = zlen l →
  ('(b', _) ← wrs b s l; enc_ret (Some b') index (s + len)) =
  ('(b', s') ← wrs b s l; enc_ret (Some b') index s').
Proof.
  intros ->. symmetry. apply (wrs_ptr b s l (λ b' s', enc_ret (Some b') index s')).
Qed.

(** [enc_chain]: a sequence of stores followed by [enc_ret] is one run of
    stores. *)
Ltac to_wrs :=
  first [rewrite put8_wrs | rewrite put16be_wrs | rewrite put32be_wrs | rewrite put64be_wrs].

Ltac enc_merge :=
  etransitivity;
  [ eapply wrs_then; intros ? ?; cbv beta;
    first [ to_wrs; reflexivity | apply wrs_copy_ret; reflexivity ]
  | cbn [app] ].

Ltac enc_chain :=
  try to_wrs; repeat enc_merge;
  etransitivity; [apply wrs_ret|]; rewrite ?land_255_idem.

(** [enc_none]: the size pass. *)
Ltac enc_none := rewrite enc_ret_small by zl; do 2 f_equal; zl.

(** What [f] wrote is what a decoder then finds. *)
Lemma enc_bytes_at f l `{!Encodes f l} b i b' i' :
  0 <= i → i + zlen l <= INT_MAX → i + zlen l <= zlen b →
  f (Some b) i = Ok (0, Some b', i') → bytes_at b' i l ∧ i' = i + zlen l.
Proof.
  intros Hi HM Hb. rewrite (enc_fits f l) by done. intros [= <- <-].
  split; [by apply splice_bytes_at|done].
Qed.
