(* ===== verification/EiEncode.v ===== *)
(** The scalar and header encoders of [ei]: src/encode/encode_version.c,
    encode_char.c, encode_longlong.c, encode_ulonglong.c, encode_boolean.c,
    encode_binary.c, encode_string.c, encode_list_header.c,
    encode_tuple_header.c, encode_double.c and encode_big.c.

    The build is the 64-bit one ([EI_64BIT], [HAVE_ISFINITE]): [long] and
    [long long] have 64 bits and [ei_encode_long] is [ei_encode_longlong].
    Every encoder is shown to implement [Encodes] for the byte string its
    format prescribes. *)
From S2P Require Import Prelude EiBase.

(** [encode_version.c] *)
Definition ei_encode_version (buf : option bytes) (index : Z) :=
  match buf with
  | None => enc_ret None index (index + 1)
  | Some b =>
      '(b, s) ← put8 b index ERL_VERSION_MAGIC;
      enc_ret (Some b) index s
  end.

(** [encode_char.c] *)
Definition ei_encode_char (buf : option bytes) (index p : Z) :=
  match buf with
  | None => enc_ret None index (index + 2)
  | Some b =>
      '(b, s) ← put8 b index ERL_SMALL_INTEGER_EXT;
      '(b, s) ← put8 b s (Z.land p 255);
      enc_ret (Some b) index s
  end.

(** [while (up) { *s++ = up & 0xff; up >>= 8; arity++; }] *)
Fixpoint ll_store_loop (fuel : nat) (b : bytes) (s up arity : Z) : res (bytes * Z * Z) :=
  if up =? 0 then Ok (b, s, arity)
  else match fuel with
       | O => NoFuel
       | S fuel =>
           b ← wr b s (Z.land up 255);
           ll_store_loop fuel b (s + 1) (Z.shiftr up 8) (arity + 1)
       end.

(** [while (up) { s++; up >>= 8; }] *)
Fixpoint ll_skip_loop (fuel : nat) (s up : Z) : res Z :=
  if up =? 0 then Ok s
  else match fuel with
       | O => NoFuel
       | S fuel => ll_skip_loop fuel (s + 1) (Z.shiftr up 8)
       end.

(** [encode_longlong.c]; [EI_ULONGLONG up = abs(p)]. *)
Definition ei_encode_longlong (buf : option bytes) (index p : Z) :=
  if (p <? 256) && (p >=? 0) then
    match buf with
    | None => enc_ret None index (index + 2)
    | Some b =>
        '(b, s) ← put8 b index ERL_SMALL_INTEGER_EXT;
        '(b, s) ← put8 b s (Z.land p 255);
        enc_ret (Some b) index s
    end
  else if (p <=? ERL_MAX) && (p >=? ERL_MIN) then
    match buf with
    | None => enc_ret None index (index + 5)
    | Some b =>
        '(b, s) ← put8 b index ERL_INTEGER_EXT;
        '(b, s) ← put32be b s p;
        enc_ret (Some b) index s
    end
  else
    let up := wrap 64 (swrap 64 (if p <? 0 then - p else p)) in
    match buf with
    | Some b =>
        '(b, s) ← put8 b index ERL_SMALL_BIG_EXT;
        let arityp := s in
        let s := s + 1 in
        '(b, s) ← put8 b s (c_bool (p <? 0));
        '(b, s, arity) ← ll_store_loop 8 b s up 0;
        '(b, _) ← put8 b arityp arity;
        enc_ret (Some b) index s
    | None =>
        s ← ll_skip_loop 8 (index + 3) up;
        enc_ret None index s
    end.

Definition ei_encode_long := ei_encode_longlong.

(** [encode_ulonglong.c] *)
Definition ei_encode_ulonglong (buf : option bytes) (index p : Z) :=
  if p <? 256 then
    match buf with
    | None => enc_ret None index (index + 2)
    | Some b =>
        '(b, s) ← put8 b index ERL_SMALL_INTEGER_EXT;
        '(b, s) ← put8 b s (Z.land p 255);
        enc_ret (Some b) index s
    end
  else if p <=? ERL_MAX then
    match buf with
    | None => enc_ret None index (index + 5)
    | Some b =>
        '(b, s) ← put8 b index ERL_INTEGER_EXT;
        '(b, s) ← put32be b s p;
        enc_ret (Some b) index s
    end
  else
    match buf with
    | Some b =>
        '(b, s) ← put8 b index ERL_SMALL_BIG_EXT;
        let arityp := s in
        let s := s + 1 in
        '(b, s) ← put8 b s 0;
        '(b, s, arity) ← ll_store_loop 8 b s p 0;
        '(b, _) ← put8 b arityp arity;
        enc_ret (Some b) index s
    | None =>
        s ← ll_skip_loop 8 (index + 3) p;
        enc_ret None index s
    end.

Definition ei_encode_ulong := ei_encode_ulonglong.

(** [encode_boolean.c]: the atom [true] or [false] in the latin-1 format. *)
Definition str_true : bytes := [116; 114; 117; 101].
Definition str_false : bytes := [102; 97; 108; 115; 101].

Definition ei_encode_boolean (buf : option bytes) (index p : Z) :=
  let val := if p =? 0 then str_false else str_true in
  let len := zlen val in
  match buf with
  | None => enc_ret None index (index + 3 + len)
  | Some b =>
      '(b, s) ← put8 b index ERL_ATOM_EXT;
      '(b, s) ← put16be b s len;
      '(b, _) ← wrs b s val;
      enc_ret (Some b) index (s + len)
  end.

(** [encode_binary.c]; [p] is the object the data pointer points to. *)
Definition ei_encode_binary (buf : option bytes) (index : Z) (p : bytes) (len : Z) :=
  match buf with
  | None => enc_ret None index (index + 5 + len)
  | Some b =>
      '(b, s) ← put8 b index ERL_BINARY_EXT;
      '(b, s) ← put32be b s len;
      src ← rds p 0 len;
      '(b, _) ← wrs b s src;
      enc_ret (Some b) index (s + len)
  end.

(** [for (i=0; i<len; i++) { put8(s,ERL_SMALL_INTEGER_EXT); put8(s,p[i]); }] *)
Fixpoint string_list_loop (n : nat) (b : bytes) (s : Z) (p : bytes) (i : Z)
    : res (bytes * Z) :=
  match n with
  | O => Ok (b, s)
  | S n =>
      '(b, s) ← put8 b s ERL_SMALL_INTEGER_EXT;
      c ← rd p i;
      '(b, s) ← put8 b s c;
      string_list_loop n b s p (i + 1)
  end.

(** [encode_string.c] *)
Definition ei_encode_string_len (buf : option bytes) (index : Z) (p : bytes) (len : Z) :=
  if len =? 0 then
    match buf with
    | None => enc_ret None index (index + 1)
    | Some b =>
        '(b, s) ← put8 b index ERL_NIL_EXT;
        enc_ret (Some b) index s
    end
  else if len <=? 65535 then
    match buf with
    | None => enc_ret None index (index + 3 + len)
    | Some b =>
        '(b, s) ← put8 b index ERL_STRING_EXT;
        '(b, s) ← put16be b s len;
        src ← rds p 0 len;
        '(b, _) ← wrs b s src;
        enc_ret (Some b) index (s + len)
    end
  else
    match buf with
    | None => enc_ret None index (index + to_int (5 + to_int (2 * len) + 1))
    | Some b =>
        '(b, s) ← put8 b index ERL_LIST_EXT;
        '(b, s) ← put32be b s len;
        '(b, s) ← string_list_loop (Z.to_nat len) b s p 0;
        '(b, s) ← put8 b s ERL_NIL_EXT;
        enc_ret (Some b) index s
    end.

(** [strlen]: the offset of the first NUL of a C string object. *)
Fixpoint strlen_from (p : bytes) (k : Z) : res Z :=
  match p with
  | [] => Fault
  | c :: p => if c =? 0 then Ok k else strlen_from p (k + 1)
  end.

Definition strlen (p : bytes) : res Z := strlen_from p 0.

Definition ei_encode_string (buf : option bytes) (index : Z) (p : bytes) :=
  len ← strlen p;
  if len >=? INT_MAX then Ok (-1, buf, index)
  else ei_encode_string_len buf index p len.

(** [encode_list_header.c] *)
Definition ei_encode_list_header (buf : option bytes) (index arity : Z) :=
  if arity <? 0 then Ok (-1, buf, index)
  else if arity >? 0 then
    match buf with
    | None => enc_ret None index (index + 5)
    | Some b =>
        '(b, s) ← put8 b index ERL_LIST_EXT;
        '(b, s) ← put32be b s arity;
        enc_ret (Some b) index s
    end
  else
    match buf with
    | None => enc_ret None index (index + 1)
    | Some b =>
        '(b, s) ← put8 b index ERL_NIL_EXT;
        enc_ret (Some b) index s
    end.

Definition ei_encode_empty_list (buf : option bytes) (index : Z) :=
  ei_encode_list_header buf index 0.

(** [encode_tuple_header.c] *)
Definition ei_encode_tuple_header (buf : option bytes) (index arity : Z) :=
  if arity <? 0 then Ok (-1, buf, index)
  else if arity <=? 255 then
    match buf with
    | None => enc_ret None index (index + 2)
    | Some b =>
        '(b, s) ← put8 b index ERL_SMALL_TUPLE_EXT;
        '(b, s) ← put8 b s arity;
        enc_ret (Some b) index s
    end
  else
    match buf with
    | None => enc_ret None index (index + 5)
    | Some b =>
        '(b, s) ← put8 b index ERL_LARGE_TUPLE_EXT;
        '(b, s) ← put32be b s arity;
        enc_ret (Some b) index s
    end.

Definition ei_encode_map_header (buf : option bytes) (index arity : Z) :=
  if arity <? 0 then Ok (-1, buf, index)
  else
    match buf with
    | None => enc_ret None index (index + 5)
    | Some b =>
        '(b, s) ← put8 b index ERL_MAP_EXT;
        '(b, s) ← put32be b s arity;
        enc_ret (Some b) index s
    end.

(** [encode_double.c]; a [double] is given by its IEEE 754 bit pattern
    (the [val] member of [FloatExt]), and [isfinite] reads its exponent field. *)
Definition isfinite (val : Z) : bool :=
  negb (Z.land (Z.shiftr val 52) 2047 =? 2047).

Definition ei_encode_double (buf : option bytes) (index val : Z) :=
  if negb (isfinite val) then Ok (-1, buf, index)
  else
    match buf with
    | None => enc_ret None index (index + 9)
    | Some b =>
        '(b, s) ← put8 b index NEW_FLOAT_EXT;
        '(b, s) ← put64be b s val;
        enc_ret (Some b) index s
    end.

(** [encode_big.c]: the digit loop stores the low byte of every 16-bit digit,
    and the high byte unless it is past the last digit byte. *)
Fixpoint big_store_loop (k : nat) (i : Z) (b : bytes) (s : Z) (dt : list Z)
    (digit_bytes : Z) : res bytes :=
  match k with
  | O => Ok b
  | S k =>
      d ← rd dt i;
      let hi := Z.land (Z.shiftr d 8) 255 in
      let lo := Z.land d 255 in
      b ← wr b (s + i * 2) lo;
      b ← (if i * 2 + 1 <? digit_bytes then wr b (s + (i * 2 + 1)) hi else Ok b);
      big_store_loop k (i + 1) b s dt digit_bytes
  end.

Definition ei_encode_big (buf : option bytes) (index : Z) (big : erlang_big) :=
  let digit_bytes := big_arity big in
  let n := wrap 32 (digit_bytes + 1) / 2 in
  match buf with
  | Some b =>
      '(b, s) ← (if digit_bytes <? 256 then
                   '(b, s) ← put8 b index ERL_SMALL_BIG_EXT;
                   put8 b s digit_bytes
                 else
                   '(b, s) ← put8 b index ERL_LARGE_BIG_EXT;
                   put32be b s digit_bytes);
      '(b, s) ← put8 b s (big_is_neg big);
      b ← big_store_loop (Z.to_nat n) 0 b s (big_digits big) digit_bytes;
      enc_ret (Some b) index (s + digit_bytes)
  | None =>
      let s := if digit_bytes <? 256 then index + 2 else index + 5 in
      let s := s + 1 in
      enc_ret None index (s + digit_bytes)
  end.

(** * The formats *)

Definition fmt_int8 (p : Z) : bytes := [ERL_SMALL_INTEGER_EXT; Z.land p 255].

Definition fmt_tuple_header (arity : Z) : bytes :=
  if arity <=? 255 then [ERL_SMALL_TUPLE_EXT; Z.land arity 255]
  else ERL_LARGE_TUPLE_EXT :: be32 arity.

Definition fmt_list_header (arity : Z) : bytes :=
  if arity =? 0 then [ERL_NIL_EXT] else ERL_LIST_EXT :: be32 arity.

#[export] Instance ei_encode_version_enc : Encodes ei_encode_version [ERL_VERSION_MAGIC].
Proof.
  split; intros; unfold ei_encode_version.
  - enc_none.
  - enc_chain; done.
Qed.

#[export] Instance ei_encode_char_enc p :
  Encodes (λ b i, ei_encode_char b i p) (fmt_int8 p).
Proof.
  split; intros; unfold ei_encode_char, fmt_int8 in *.
  - enc_none.
  - enc_chain; done.
Qed.

(** The minimal little-endian bytes of [n] ([fuel] bytes at most). *)
Fixpoint le_min (fuel : nat) (n : Z) : bytes :=
  if n =? 0 then []
  else match fuel with
       | O => []
       | S fuel => Z.land n 255 :: le_min fuel (Z.shiftr n 8)
       end.

(** The external format of an integer whose absolute value has 64 bits. *)
Definition fmt_long (p : Z) : bytes :=
  if (p <? 256) && (p >=? 0) then [ERL_SMALL_INTEGER_EXT; Z.land p 255]
  else if (p <=? ERL_MAX) && (p >=? ERL_MIN) then ERL_INTEGER_EXT :: be32 p
  else let l := le_min 8 (Z.abs p) in
       ERL_SMALL_BIG_EXT :: zlen l :: c_bool (p <? 0) :: l.

Lemma shiftr8_bound n k : 0 <= k → 0 <= n < 2 ^ (8 * Z.succ k) → 0 <= Z.shiftr n 8 < 2 ^ (8 * k).
Proof.
  intros Hk Hn. rewrite Z.shiftr_div_pow2 by lia.
  replace (8 * Z.succ k) with (8 * k + 8) in Hn by lia.
  rewrite Z.pow_add_r in Hn by lia. 
  split; [apply Z.div_pos; lia|]. apply Z.div_lt_upper_bound; lia.
Qed.

Lemma le_min_length fuel n : (length (le_min fuel n) <= fuel)%nat.
Proof.
  revert n. induction fuel as [|fuel IH]; intros n; simpl; destruct (n =? 0); simpl; try lia.
  specialize (IH (Z.shiftr n 8)). lia.
Qed.

Lemma ll_store_loop_wrs fuel b s n a :
  0 <= n < 2 ^ (8 * Z.of_nat fuel) →
  ll_store_loop fuel b s n a =
  ('(b', s') ← wrs b s (le_min fuel n); Ok (b', s', a + zlen (le_min fuel n))).
Proof.
  revert b s n a. induction fuel as [|fuel IH]; intros b s n a Hn; simpl.
  { replace n with 0 by (simpl in Hn; lia). simpl. by rewrite zlen_nil, Z.add_0_r. }
  destruct (Z.eqb_spec n 0); simpl; [by rewrite zlen_nil, Z.add_0_r|].
  rewrite bind_assoc. apply bind_ext. intros b'. rewrite IH.
  - rewrite zlen_cons. apply bind_ext. intros []. do 2 f_equal. lia.
  - apply shiftr8_bound; lia.
Qed.

Lemma ll_skip_loop_ok fuel s n :
  0 <= n < 2 ^ (8 * Z.of_nat fuel) →
  ll_skip_loop fuel s n = Ok (s + zlen (le_min fuel n)).
Proof.
  revert s n. induction fuel as [|fuel IH]; intros s n Hn; simpl.
  { replace n with 0 by (simpl in Hn; lia). simpl. by rewrite zlen_nil, Z.add_0_r. }
  destruct (Z.eqb_spec n 0); simpl; [by rewrite zlen_nil, Z.add_0_r|].
  rewrite IH by (apply shiftr8_bound; lia). rewrite zlen_cons. f_equal. lia.
Qed.

(** The SMALL_BIG_EXT branch shared by the signed and unsigned encoders: the
    arity byte is stored last, before the bytes already written. *)
Lemma small_big_write b i sign n :
  0 <= i → i + (3 + zlen (le_min 8 n)) <= INT_MAX → 0 <= n < 2 ^ 64 → byte sign →
  ('(b, s) ← put8 b i ERL_SMALL_BIG_EXT;
   '(b, s') ← put8 b (s + 1) sign;
   '(b, s', arity) ← ll_store_loop 8 b s' n 0;
   '(b, _) ← put8 b s arity;
   enc_ret (Some b) i s') =
  ('(b', _) ← wrs b i (ERL_SMALL_BIG_EXT :: zlen (le_min 8 n) :: sign :: le_min 8 n);
   Ok (0, Some b', i + (3 + zlen (le_min 8 n)))).
Proof.
  intros Hi HM Hn Hsg. pose proof (le_min_length 8 n) as Hl.
  pose proof (λ b s, ll_store_loop_wrs 8 b s n 0 Hn) as Hloop.
  set (l := le_min 8 n) in *. clearbody l. pose proof (zlen_nonneg l).
  assert (Z.land sign 255 = sign) as Es by (unfold byte in *; rewrite land_255, Z.mod_small; lia).
  assert (Z.land (zlen l) 255 = zlen l) as El.
  { rewrite land_255, Z.mod_small; unfold zlen in *; lia. }
  rewrite put8_wrs, wrs_ptr. symmetry.
  etransitivity; [apply (wrs_cut b i [ERL_SMALL_BIG_EXT])|].
  apply bind_pair_ext. intros b1 _. change (zlen [_]) with 1.
  etransitivity.
  { symmetry. apply (wrs_swap_bind b1 (i + 1) [zlen l] (sign :: l)). done. }
  etransitivity; [apply (wrs_cut b1 _ [sign] l)|].
  symmetry. rewrite put8_wrs, Es, wrs_ptr.
  apply bind_pair_ext. intros b2 _. rewrite Hloop, bind_assoc.
  change (zlen [_]) with 1.
  pose (K := λ b3 s3, '(b4, _) ← put8 b3 (i + 1) (0 + zlen l); enc_ret (Some b4) i s3).
  transitivity ('(b3, s3) ← wrs b2 (i + 1 + 1 + 1) l; K b3 s3).
  { apply bind_ext. by intros []. }
  rewrite wrs_ptr. unfold K.
  apply bind_pair_ext. intros b3 _. rewrite Z.add_0_l, put8_wrs, El.
  apply bind_pair_ext. intros b4 _. rewrite enc_ret_small by lia. do 2 f_equal. lia.
Qed.

Lemma abs64 p : - 2 ^ 63 <= p < 2 ^ 63 →
  wrap 64 (swrap 64 (if p <? 0 then - p else p)) = Z.abs p.
Proof.
  intros Hp. rewrite wrap_swrap by lia. unfold wrap.
  destruct (Z.ltb_spec p 0); rewrite Z.mod_small; lia.
Qed.

#[export] Instance ei_encode_longlong_enc p :
  - 2 ^ 63 <= p < 2 ^ 63 → Encodes (λ b i, ei_encode_longlong b i p) (fmt_long p).
Proof.
  intros Hp. unfold ei_encode_longlong, fmt_long. rewrite abs64 by done.
  destruct (_ && _); [split; intros; [enc_none|enc_chain; done]|].
  destruct (_ && _); [split; intros; [enc_none|enc_chain; done]|].
  split; intros; rewrite ?zlen_cons, ?Z.add_assoc in *; cbn [Z.add Pos.add] in *.
  - rewrite ll_skip_loop_ok by (simpl; lia). rewrite bind_Ok.
    rewrite enc_ret_small by zl. do 2 f_equal. lia.
  - rewrite small_big_write; [|lia|lia|lia|by destruct (p <? 0); unfold byte; simpl; lia].
    apply bind_ext. intros []. do 2 f_equal. lia.
Qed.

#[export] Instance ei_encode_ulonglong_enc p :
  0 <= p < 2 ^ 64 → Encodes (λ b i, ei_encode_ulonglong b i p) (fmt_long p).
Proof.
  intros Hp. unfold ei_encode_ulonglong, fmt_long.
  replace (p >=? 0) with true by lia. replace (p >=? ERL_MIN) with true by (rewrite ERL_MIN_val; lia).
  replace (p <? 0) with false by lia. rewrite !andb_true_r, Z.abs_eq by lia.
  destruct (p <? 256); [split; intros; [enc_none|enc_chain; done]|].
  destruct (p <=? ERL_MAX); [split; intros; [enc_none|enc_chain; done]|].
  split; intros; rewrite ?zlen_cons, ?Z.add_assoc in *; cbn [Z.add Pos.add] in *.
  - rewrite ll_skip_loop_ok by (simpl; lia). rewrite bind_Ok.
    rewrite enc_ret_small by zl. do 2 f_equal. lia.
  - rewrite small_big_write; [|lia|lia|lia|unfold byte; lia].
    apply bind_ext. intros []. do 2 f_equal. lia.
Qed.

Definition fmt_atom_latin1 (l : bytes) : bytes := ERL_ATOM_EXT :: be16 (zlen l) ++ l.

#[export] Instance ei_encode_boolean_enc p :
  Encodes (λ b i, ei_encode_boolean b i p)
          (fmt_atom_latin1 (if p =? 0 then str_false else str_true)).
Proof.
  unfold ei_encode_boolean, fmt_atom_latin1. generalize (if p =? 0 then str_false else str_true).
  intros l. split; intros i **.
  - enc_none.
  - enc_chain; done.
Qed.

Definition fmt_binary (l : bytes) : bytes := ERL_BINARY_EXT :: be32 (zlen l) ++ l.

(** A copy from a source object that holds [l] at its start. *)
Lemma rds_src_bind {A} p l (k : bytes → res A) :
  bytes_at p 0 l → (src ← rds p 0 (zlen l); k src) = k l.
Proof. intros H. by rewrite (rds_at _ _ _ H). Qed.

#[export] Instance ei_encode_binary_enc p l :
  bytes_at p 0 l → Encodes (λ b i, ei_encode_binary b i p (zlen l)) (fmt_binary l).
Proof.
  intros Hp. unfold ei_encode_binary, fmt_binary. split; intros i **.
  - enc_none.
  - to_wrs. enc_merge. etransitivity.
    { eapply wrs_then. intros. rewrite rds_src_bind by done.
      apply wrs_copy_ret. reflexivity. }
    cbn [app]. etransitivity; [apply wrs_ret|]; done.
Qed.

Definition fmt_string (l : bytes) : bytes :=
  if zlen l =? 0 then [ERL_NIL_EXT]
  else if zlen l <=? 65535 then ERL_STRING_EXT :: be16 (zlen l) ++ l
  else ERL_LIST_EXT :: be32 (zlen l) ++ flat_map fmt_int8 l ++ [ERL_NIL_EXT].

Lemma zlen_flat_int8 l : zlen (flat_map fmt_int8 l) = 2 * zlen l.
Proof.
  induction l as [|x l IH]; [done|]. cbn [flat_map]. rewrite zlen_app, IH, zlen_cons.
  change (zlen (fmt_int8 x)) with 2. lia.
Qed.
#[export] Hint Rewrite zlen_flat_int8 : cmem.

Lemma string_list_loop_wrs b s p i l :
  bytes_at p i l →
  string_list_loop (length l) b s p i = wrs b s (flat_map fmt_int8 l).
Proof.
  revert b s i. induction l as [|x l IH]; intros b s i Hp; [done|].
  cbn [length string_list_loop flat_map]. rewrite wrs_app.
  change (fmt_int8 x) with ([ERL_SMALL_INTEGER_EXT] ++ [Z.land x 255]).
  rewrite put8_wrs, wrs_app, bind_assoc.
  apply bind_ext. intros [b1 s1]. rewrite (rd_at _ _ _ _ Hp), bind_Ok, put8_wrs.
  apply bind_ext. intros [b2 s2]. apply IH. by apply bytes_at_cons in Hp.
Qed.

#[export] Instance ei_encode_string_len_enc p l :
  bytes_at p 0 l → zlen l <= 1073741820 →
  Encodes (λ b i, ei_encode_string_len b i p (zlen l)) (fmt_string l).
Proof.
  intros Hp Hl. unfold ei_encode_string_len, fmt_string. pose proof (zlen_nonneg l).
  destruct (zlen l =? 0); [split; intros; [enc_none|enc_chain; done]|].
  destruct (zlen l <=? 65535); split; intros i **.
  - enc_none.
  - to_wrs. enc_merge. etransitivity.
    { eapply wrs_then. intros. rewrite rds_src_bind by done.
      apply wrs_copy_ret. reflexivity. }
    cbn [app]. etransitivity; [apply wrs_ret|]; done.
  - rewrite !to_int_small by (rewrite ?to_int_small; unfold INT_MAX; lia). enc_none.
  - to_wrs. enc_merge. etransitivity.
    { eapply wrs_then. intros. unfold zlen at 1. rewrite Nat2Z.id.
      rewrite (string_list_loop_wrs _ _ _ _ _ Hp). reflexivity. }
    enc_merge. rewrite <- ?app_assoc.
    etransitivity; [apply wrs_ret|]; done.
Qed.

#[export] Instance ei_encode_list_header_enc n :
  0 <= n → Encodes (λ b i, ei_encode_list_header b i n) (fmt_list_header n).
Proof.
  intros Hn. unfold ei_encode_list_header, fmt_list_header.
  replace (n <? 0) with false by lia.
  destruct (Z.eqb_spec n 0) as [->|]; [|replace (n >? 0) with true by lia];
    split; intros; cbn [Z.gtb Z.compare]; [enc_none|enc_chain; done|enc_none|enc_chain; done].
Qed.

#[export] Instance ei_encode_tuple_header_enc n :
  0 <= n → Encodes (λ b i, ei_encode_tuple_header b i n) (fmt_tuple_header n).
Proof.
  intros Hn. unfold ei_encode_tuple_header, fmt_tuple_header.
  replace (n <? 0) with false by lia.
  destruct (n <=? 255); split; intros; [enc_none|enc_chain; done|enc_none|enc_chain; done].
Qed.

#[export] Instance ei_encode_map_header_enc n :
  0 <= n → Encodes (λ b i, ei_encode_map_header b i n) (ERL_MAP_EXT :: be32 n).
Proof.
  intros Hn. unfold ei_encode_map_header. replace (n <? 0) with false by lia.
  split; intros; [enc_none|enc_chain; done].
Qed.

#[export] Instance ei_encode_double_enc val :
  isfinite val = true → Encodes (λ b i, ei_encode_double b i val) (NEW_FLOAT_EXT :: be64 val).
Proof.
  intros H. unfold ei_encode_double. rewrite H. cbn [negb].
  split; intros; [enc_none|enc_chain; done].
Qed.

(** The digit bytes of a bignum, low byte first. *)
Definition dbytes (d : Z) : bytes := [Z.land d 255; Z.land (Z.shiftr d 8) 255].
Definition le16s (dt : list Z) : bytes := flat_map dbytes dt.

Definition fmt_big (big : erlang_big) : bytes :=
  let n := big_arity big in
  (if n <? 256 then [ERL_SMALL_BIG_EXT; Z.land n 255] else ERL_LARGE_BIG_EXT :: be32 n) ++
  Z.land (big_is_neg big) 255 :: take (Z.to_nat n) (le16s (big_digits big)).

Lemma length_le16s dt : length (le16s dt) = (2 * length dt)%nat.
Proof. unfold le16s. induction dt as [|d dt IH]; simpl in *; lia. Qed.

Lemma big_store_loop_wrs k i b s dt1 dt2 n :
  zlen dt1 = i → length dt2 ≥ k → 2 * (i + Z.of_nat k) - 1 <= n <= 2 * (i + Z.of_nat k) →
  big_store_loop k i b s (dt1 ++ dt2) n =
  ('(b', _) ← wrs b (s + 2 * i) (take (Z.to_nat (n - 2 * i)) (le16s dt2)); Ok b').
Proof.
  revert i b dt1 dt2. induction k as [|k IH]; intros i b dt1 dt2 Hi Hd Hn.
  { simpl. replace (Z.to_nat (n - 2 * i)) with 0%nat by lia. done. }
  destruct dt2 as [|d dt2]; simpl in Hd; [lia|].
  cbn [big_store_loop]. rewrite (rd_at (dt1 ++ d :: dt2) i d dt2), bind_Ok
    by (rewrite <- Hi; exists dt1, []; by rewrite app_nil_r).
  replace (s + i * 2) with (s + 2 * i) by lia.
  destruct (Z.ltb_spec (i * 2 + 1) n).
  - replace (Z.to_nat (n - 2 * i)) with (S (S (Z.to_nat (n - 2 * (i + 1))))) by lia.
    unfold le16s. cbn [flat_map dbytes app take wrs]. rewrite !bind_assoc.
    apply bind_ext. intros b1. rewrite !bind_assoc.
    replace (s + 2 * i + 1) with (s + (i * 2 + 1)) by lia.
    apply bind_ext. intros b2.
    replace (dt1 ++ d :: dt2) with ((dt1 ++ [d]) ++ dt2) by (by rewrite <- app_assoc).
    rewrite IH; [|by rewrite zlen_app, Hi|lia|lia].
    by replace (s + (i * 2 + 1) + 1) with (s + 2 * (i + 1)) by lia.
  - assert (k = 0%nat) as -> by lia.
    replace (Z.to_nat (n - 2 * i)) with 1%nat by lia.
    unfold le16s. cbn [flat_map dbytes app take wrs big_store_loop].
    rewrite !bind_assoc. apply bind_ext. intros b1. done.
Qed.

(** An [erlang_big] whose digit array covers its arity. *)
Definition big_ok (big : erlang_big) : Prop :=
  0 <= big_arity big < 2 ^ 31 ∧ (big_arity big + 1) / 2 <= zlen (big_digits big).

#[export] Instance ei_encode_big_enc big :
  big_ok big → Encodes (λ b i, ei_encode_big b i big) (fmt_big big).
Proof.
  intros [Ha Hd]. destruct big as [n neg dt]. simpl in *.
  unfold ei_encode_big, fmt_big. simpl.
  assert (zlen (take (Z.to_nat n) (le16s dt)) = n) as Hlen.
  { unfold zlen in *. rewrite length_take, length_le16s. dlia. }
  rewrite wrap_small by lia.
  assert (Hloop : ∀ b s, big_store_loop (Z.to_nat ((n + 1) / 2)) 0 b s dt n =
    ('(b', _) ← wrs b s (take (Z.to_nat n) (le16s dt)); Ok b')).
  { intros b s. rewrite (big_store_loop_wrs _ 0 b s [] dt n); [|done|unfold zlen in *; dlia|dlia].
    by rewrite Z.mul_0_r, Z.add_0_r, Z.sub_0_r. }
  set (l := take (Z.to_nat n) (le16s dt)) in *.
  assert (Htail : ∀ b s i, 
    ('(b, s) ← put8 b s neg; b ← big_store_loop (Z.to_nat ((n + 1) / 2)) 0 b s dt n;
     enc_ret (Some b) i (s + n)) =
    ('(b, s) ← wrs b s (Z.land neg 255 :: l); enc_ret (Some b) i s)).
  { intros b s i. rewrite put8_wrs. apply (wrs_then b s [_] l). intros b' s'.
    rewrite Hloop, bind_assoc.
    rewrite <- (wrs_copy_ret b' s' l i n) by done. apply bind_ext. by intros []. }
  assert (Hhead : ∀ b i h,
    ('(b, s) ← wrs b i h; '(b, s) ← put8 b s neg;
     b ← big_store_loop (Z.to_nat ((n + 1) / 2)) 0 b s dt n; enc_ret (Some b) i (s + n)) =
    ('(b, s) ← wrs b i (h ++ Z.land neg 255 :: l); enc_ret (Some b) i s)).
  { intros b i h. apply wrs_then. intros. apply Htail. }
  destruct (n <? 256); split; intros b **.
  - enc_none.
  - rewrite <- wrs_ret, <- Hhead by done. apply bind_ext_eq; [|done].
    symmetry. apply (wrs_app b _ [ERL_SMALL_BIG_EXT] [Z.land n 255]).
  - enc_none.
  - rewrite <- wrs_ret, <- Hhead by done. apply bind_ext_eq; [|done].
    rewrite (wrs_app b _ [ERL_LARGE_BIG_EXT] (be32 n)). apply bind_ext.
    intros []. apply put32be_wrs.
Qed.
