(* ===== verification/EiDecode.v ===== *)
(** The scalar and header decoders of [ei]: src/decode/decode_version.c,
    decode_char.c, decode_longlong.c, decode_ulonglong.c, decode_list_header.c,
    decode_tuple_header.c, decode_binary.c, decode_string.c, decode_intlist.c,
    decode_double.c and decode_big.c (64-bit build).

    A decoder takes the message [buf], the index, and its output parameters; an
    output pointer is an [option]: [None] is NULL, [Some v] points to an object
    that holds [v].  The result is [(return value, output parameters, *index)].
    A read outside [buf] is a [Fault]: the functions are given no length. *)
From S2P Require Import Prelude EiBase EiEncode.

(** The end of a decoder: [*index += s - s0; return 0]. *)
Definition dec_ret {A} (out : A) (index s : Z) : res (Z * A * Z) :=
  Ok (0, out, to_int (index + (s - index))).

(** [*p = v] for a possibly NULL [p]. *)
Definition set_out {A} (p : option A) (v : A) : option A :=
  match p with Some _ => Some v | None => None end.

(** [decode_version.c] *)
Definition ei_decode_version (buf : bytes) (index : Z) (version : option Z) :=
  '(v, s) ← get8 buf index;
  let version := set_out version v in
  if negb (v =? ERL_VERSION_MAGIC) then Ok (-1, version, index)
  else dec_ret version index s.

(** [for (i = 1; i < arity; i++) if ( *(s++) != 0) return -1;] *)
Fixpoint zero_bytes_loop (n : nat) (b : bytes) (s : Z) : res (option Z) :=
  match n with
  | O => Ok (Some s)
  | S n =>
      x ← rd b s;
      if negb (x =? 0) then Ok None else zero_bytes_loop n b (s + 1)
  end.

(** [decode_char.c]; [*p] is a (signed) [char]. *)
Definition ei_decode_char (buf : bytes) (index : Z) (p : option Z) :=
  '(tag, s) ← get8 buf index;
  if tag =? ERL_SMALL_INTEGER_EXT then
    '(n, s) ← get8 buf s;
    dec_ret (set_out p (swrap 8 n)) index s
  else if tag =? ERL_INTEGER_EXT then
    '(n, s) ← get32be buf s;
    if (n <? 0) || (n >? 255) then Ok (-1, p, index)
    else dec_ret (set_out p (swrap 8 n)) index s
  else if (tag =? ERL_SMALL_BIG_EXT) || (tag =? ERL_LARGE_BIG_EXT) then
    '(arity, s) ← (if tag =? ERL_SMALL_BIG_EXT then get8 buf s else get32be buf s);
    '(sign, s) ← get8 buf s;
    if negb (sign =? 0) then Ok (-1, p, index)
    else
      '(n, s) ← get8 buf s;
      r ← zero_bytes_loop (Z.to_nat (arity - 1)) buf s;
      match r with
      | None => Ok (-1, p, index)
      | Some s => dec_ret (set_out p (swrap 8 n)) index s
      end
  else Ok (-1, p, index).

(** [for (i = 0; i < arity; i++) { if (i < 8) u |= get8(s) << (i*8);
    else if (get8(s) != 0) return -1; }] *)
Fixpoint dec_big_loop (n : nat) (i : Z) (b : bytes) (s u : Z) : res (option (Z * Z)) :=
  match n with
  | O => Ok (Some (u, s))
  | S n =>
      '(x, s) ← get8 b s;
      if i <? 8 then
        dec_big_loop n (i + 1) b s (Z.lor u (wrap 64 (Z.shiftl x (i * 8))))
      else if negb (x =? 0) then Ok None
      else dec_big_loop n (i + 1) b s u
  end.

Definition MAX_TO_NEGATE : Z := 9223372036854775808.
Definition MAX_TO_NOT_NEGATE : Z := 9223372036854775807.

(** [decode_longlong.c] *)
Definition ei_decode_longlong (buf : bytes) (index : Z) (p : option Z) :=
  '(tag, s) ← get8 buf index;
  if tag =? ERL_SMALL_INTEGER_EXT then
    '(n, s) ← get8 buf s;
    dec_ret (set_out p n) index s
  else if tag =? ERL_INTEGER_EXT then
    '(n, s) ← get32be buf s;
    dec_ret (set_out p n) index s
  else if (tag =? ERL_SMALL_BIG_EXT) || (tag =? ERL_LARGE_BIG_EXT) then
    '(arity, s) ← (if tag =? ERL_SMALL_BIG_EXT then get8 buf s else get32be buf s);
    '(sign, s) ← get8 buf s;
    r ← dec_big_loop (Z.to_nat arity) 0 buf s 0;
    match r with
    | None => Ok (-1, p, index)
    | Some (u, s) =>
        if negb (sign =? 0) then
          if u >? MAX_TO_NEGATE then Ok (-1, p, index)
          else dec_ret (set_out p (swrap 64 (- swrap 64 u))) index s
        else
          if u >? MAX_TO_NOT_NEGATE then Ok (-1, p, index)
          else dec_ret (set_out p (swrap 64 u)) index s
    end
  else Ok (-1, p, index).

Definition ei_decode_long := ei_decode_longlong.

(** [decode_ulonglong.c] *)
Definition ei_decode_ulonglong (buf : bytes) (index : Z) (p : option Z) :=
  '(tag, s) ← get8 buf index;
  if tag =? ERL_SMALL_INTEGER_EXT then
    '(n, s) ← get8 buf s;
    dec_ret (set_out p n) index s
  else if tag =? ERL_INTEGER_EXT then
    '(sn, s) ← get32be buf s;
    if sn <? 0 then Ok (-1, p, index)
    else dec_ret (set_out p sn) index s
  else if (tag =? ERL_SMALL_BIG_EXT) || (tag =? ERL_LARGE_BIG_EXT) then
    '(arity, s) ← (if tag =? ERL_SMALL_BIG_EXT then get8 buf s else get32be buf s);
    '(sign, s) ← get8 buf s;
    if negb (sign =? 0) then Ok (-1, p, index)
    else
      r ← dec_big_loop (Z.to_nat arity) 0 buf s 0;
      match r with
      | None => Ok (-1, p, index)
      | Some (u, s) => dec_ret (set_out p u) index s
      end
  else Ok (-1, p, index).

Definition ei_decode_ulong := ei_decode_ulonglong.

(** [if (arity) *arity = get32be(s); else s += 4;] *)
Definition get32be_opt (buf : bytes) (s : Z) (arity : option Z) : res (option Z * Z) :=
  match arity with
  | Some _ => '(n, s) ← get32be buf s; Ok (Some n, s)
  | None => Ok (None, s + 4)
  end.

(** [decode_list_header.c] *)
Definition ei_decode_list_header (buf : bytes) (index : Z) (arity : option Z) :=
  '(tag, s) ← get8 buf index;
  if tag =? ERL_NIL_EXT then dec_ret (set_out arity 0) index s
  else if tag =? ERL_LIST_EXT then
    '(arity, s) ← get32be_opt buf s arity;
    dec_ret arity index s
  else Ok (-1, arity, index).

(** [decode_tuple_header.c] *)
Definition ei_decode_tuple_header (buf : bytes) (index : Z) (arity : option Z) :=
  '(tag, s) ← get8 buf index;
  if tag =? ERL_SMALL_TUPLE_EXT then
    match arity with
    | Some _ => '(n, s) ← get8 buf s; dec_ret (Some n) index s
    | None => dec_ret None index (s + 1)
    end
  else if tag =? ERL_LARGE_TUPLE_EXT then
    '(arity, s) ← get32be_opt buf s arity;
    dec_ret arity index s
  else Ok (-1, arity, index).

Definition ei_decode_map_header (buf : bytes) (index : Z) (arity : option Z) :=
  '(tag, s) ← get8 buf index;
  if tag =? ERL_MAP_EXT then
    '(arity, s) ← get32be_opt buf s arity;
    dec_ret arity index s
  else Ok (-1, arity, index).

(** [decode_binary.c]: [len] is a [long] holding a 32-bit [int]. *)
Definition ei_decode_binary (buf : bytes) (index : Z) (p : option bytes) (lenp : option Z) :=
  '(tag, s) ← get8 buf index;
  if negb (tag =? ERL_BINARY_EXT) then Ok (-1, (p, lenp), index)
  else
    '(len, s) ← get32be buf s;
    p ← match p with
        | Some d => src ← rds buf s len; '(d, _) ← wrs d 0 src; Ok (Some d)
        | None => Ok None
        end;
    dec_ret (p, set_out lenp len) index (s + len).

(** The list form of a string, with a destination: stores the characters, or a
    NUL and failure at the first element that is not a character. *)
Fixpoint string_elems_store (n : nat) (i : Z) (buf : bytes) (s : Z) (d : bytes)
    : res (bool * bytes * Z) :=
  match n with
  | O => d ← wr d i 0; Ok (true, d, s)
  | S n =>
      '(etype, s) ← get8 buf s;
      if negb (etype =? ERL_SMALL_INTEGER_EXT) then
        d ← wr d i 0; Ok (false, d, s)
      else
        '(c, s) ← get8 buf s;
        d ← wr d i c;
        string_elems_store n (i + 1) buf s d
  end.

Fixpoint string_elems_skip (n : nat) (buf : bytes) (s : Z) : res (bool * Z) :=
  match n with
  | O => Ok (true, s)
  | S n =>
      '(etype, s) ← get8 buf s;
      if negb (etype =? ERL_SMALL_INTEGER_EXT) then Ok (false, s)
      else string_elems_skip n buf (s + 1)
  end.

(** [decode_string.c] *)
Definition ei_decode_string (buf : bytes) (index : Z) (p : option bytes) :=
  '(tag, s) ← get8 buf index;
  if tag =? ERL_STRING_EXT then
    '(len, s) ← get16be buf s;
    p ← match p with
        | Some d =>
            src ← rds buf s len;
            '(d, _) ← wrs d 0 src;
            d ← wr d len 0;
            Ok (Some d)
        | None => Ok None
        end;
    dec_ret p index (s + len)
  else if tag =? ERL_LIST_EXT then
    '(len, s) ← get32be buf s;
    '(good, p, s) ← match p with
        | Some d =>
            '(good, d, s) ← string_elems_store (Z.to_nat len) 0 buf s d;
            Ok (good, Some d, s)
        | None =>
            '(good, s) ← string_elems_skip (Z.to_nat len) buf s;
            Ok (good, None, s)
        end;
    if negb good then Ok (-1, p, index)
    else
      '(etype, s) ← get8 buf s;
      if negb (etype =? ERL_NIL_EXT) then Ok (-1, p, index)
      else dec_ret p index s
  else if tag =? ERL_NIL_EXT then
    p ← match p with Some d => d ← wr d 0 0; Ok (Some d) | None => Ok None end;
    dec_ret p index s
  else Ok (-1, p, index).

(** [decode_intlist.c] *)
Fixpoint copy_bytes_loop (n : nat) (i : Z) (buf : bytes) (s : Z) (a : list Z) : res (list Z) :=
  match n with
  | O => Ok a
  | S n =>
      x ← rd buf (s + i);
      a ← wr a i x;
      copy_bytes_loop n (i + 1) buf s a
  end.

(** The element loop; the result says at which element it failed, if it did.
    The callee's [idx] is relative to [s]; [at_] is the absolute position.  The
    cell [a[i]] is written only on success. *)
Fixpoint intlist_loop (n : nat) (i : Z) (buf : bytes) (at_ : Z) (a : option (list Z))
    : res (option Z * option (list Z) * Z) :=
  match n with
  | O => Ok (None, a, at_)
  | S n =>
      match a with
      | Some l =>
          '(rc, v, at_) ← ei_decode_long buf at_ (Some 0);
          if rc <? 0 then Ok (Some i, Some l, at_)
          else
            l ← wr l i (default 0 v);
            intlist_loop n (i + 1) buf at_ (Some l)
      | None =>
          '(rc, _, at_) ← ei_decode_long buf at_ None;
          if rc <? 0 then Ok (Some i, None, at_)
          else intlist_loop n (i + 1) buf at_ None
      end
  end.

Definition ei_decode_intlist (buf : bytes) (index : Z) (a : option (list Z)) (count : option Z) :=
  '(tag, s) ← get8 buf index;
  if tag =? ERL_STRING_EXT then
    '(len, s) ← get16be buf s;
    a ← match a with
        | Some l => l ← copy_bytes_loop (Z.to_nat len) 0 buf s l; Ok (Some l)
        | None => Ok None
        end;
    dec_ret (a, set_out count len) index (s + len)
  else if tag =? ERL_LIST_EXT then
    '(len, s) ← get32be buf s;
    '(failed, a, s) ← intlist_loop (Z.to_nat len) 0 buf s a;
    match failed with
    | Some i => Ok (-1, (a, set_out count i), index)
    | None => dec_ret (a, set_out count len) index s
    end
  else Ok (-1, (a, count), index).

(** [decode_double.c]: the text form ([ERL_FLOAT_EXT]) is scanned by [sscanf],
    a parameter; a [double] is its bit pattern. *)
Definition ei_decode_double (sscanf_lf : bytes → Z → option Z)
    (buf : bytes) (index : Z) (p : option Z) :=
  '(tag, s) ← get8 buf index;
  if tag =? ERL_FLOAT_EXT then
    match sscanf_lf buf s with
    | None => Ok (-1, p, index)
    | Some d => dec_ret (set_out p d) index (s + 31)
    end
  else if tag =? NEW_FLOAT_EXT then
    '(d, s) ← get64be buf s;
    dec_ret (set_out p d) index s
  else Ok (-1, p, index).

(** [decode_big.c] *)
Fixpoint big_load_loop (k : nat) (i : Z) (buf : bytes) (s digit_bytes : Z) (dt : list Z)
    : res (list Z) :=
  match k with
  | O => Ok dt
  | S k =>
      lo ← rd buf (s + i * 2);
      d ← (if i * 2 + 1 <? digit_bytes then
             hi ← rd buf (s + (i * 2 + 1));
             Ok (Z.lor lo (wrap 16 (Z.shiftl hi 8)))
           else Ok lo);
      dt ← wr dt i d;
      big_load_loop k (i + 1) buf s digit_bytes dt
  end.

Definition ei_decode_big (buf : bytes) (index : Z) (b : option erlang_big) :=
  '(tag, s) ← get8 buf index;
  if (tag =? ERL_SMALL_BIG_EXT) || (tag =? ERL_LARGE_BIG_EXT) then
    '(digit_bytes, s) ← (if tag =? ERL_SMALL_BIG_EXT then get8 buf s
                         else '(n, s) ← get32be buf s; Ok (wrap 32 n, s));
    match b with
    | Some big =>
        let n := wrap 32 (digit_bytes + 1) / 2 in
        if negb (digit_bytes =? big_arity big) then Ok (-1, b, index)
        else
          '(neg, s) ← get8 buf s;
          dt ← big_load_loop (Z.to_nat n) 0 buf s digit_bytes (big_digits big);
          dec_ret (Some (mk_big (big_arity big) neg dt)) index (s + digit_bytes)
    | None => dec_ret None index (s + 1 + digit_bytes)
    end
  else Ok (-1, b, index).

(** [I_comp] and [ei_big_comp] of decode_big.c: digits are compared from the
    most significant one. *)
Fixpoint I_comp_loop (xl : nat) (x y : list Z) : res Z :=
  match xl with
  | O => Ok 0
  | S xl =>
      a ← rd x (Z.of_nat xl);
      b ← rd y (Z.of_nat xl);
      if a =? b then I_comp_loop xl x y
      else Ok (if a <? b then -1 else 1)
  end.

Definition I_comp16 (x : list Z) (xl : Z) (y : list Z) (yl : Z) : res Z :=
  if xl <? yl then Ok (-1)
  else if xl >? yl then Ok 1
  else I_comp_loop (Z.to_nat xl) x y.

Definition ei_big_comp (x y : erlang_big) : res Z :=
  if big_is_neg x =? big_is_neg y then
    c ← I_comp16 (big_digits x) (wrap 32 (big_arity x + 1) / 2)
                 (big_digits y) (wrap 32 (big_arity y + 1) / 2);
    if negb (big_is_neg x =? 0) then Ok (- c) else Ok c
  else Ok (if negb (big_is_neg x =? 0) then -1 else 1).

(** [ei_small_to_big]: [DLOW] and [DHIGH] of the [int]. *)
Definition ei_small_to_big (s : Z) (b : erlang_big) : res (Z * erlang_big) :=
  let n := wrap 32 (big_arity b + 1) / 2 in
  if n <? 2 then Ok (-1, b)
  else
    d ← wr (big_digits b) 0 (wrap 16 (Z.land s 65535));
    d ← wr d 1 (wrap 16 (Z.shiftr s 16));
    Ok (0, mk_big (big_arity b) (c_bool (s <? 0)) d).

(** * Decoding what was encoded *)

(** [tag_simpl]: decide the tests on concrete tags. *)
Ltac tag_simpl :=
  repeat match goal with
  | |- context [?a =? ?b] =>
      let r := eval vm_compute in (a =? b) in
      match r with
      | true => change (a =? b) with true
      | false => change (a =? b) with false
      end
  end; cbn [orb andb negb]; cbv iota.

Lemma dec_ret_small {A} (out : A) i s :
  0 <= s <= INT_MAX → dec_ret out i s = Ok (0, out, s).
Proof. intros. unfold dec_ret. rewrite to_int_small; [|lia]. do 2 f_equal. lia. Qed.

(** A concrete tag byte. *)
Lemma get8_tag b s x l :
  bytes_at b s (x :: l) → (0 <=? x) && (x <? 256) = true → get8 b s = Ok (x, s + 1).
Proof. intros H Hx. apply (get8_at _ _ _ _ H). unfold byte. lia. Qed.

Ltac get_tag H := rewrite (get8_tag _ _ _ _ H) by reflexivity; rewrite bind_Ok;
  apply bytes_at_cons in H; tag_simpl.

Lemma dec_big_loop_le_min fuel i buf s acc n :
  0 <= i → i + Z.of_nat fuel <= 8 → 0 <= acc < 2 ^ (8 * i) →
  0 <= n < 2 ^ (8 * Z.of_nat fuel) → bytes_at buf s (le_min fuel n) →
  dec_big_loop (length (le_min fuel n)) i buf s acc =
  Ok (Some (acc + n * 2 ^ (8 * i), s + zlen (le_min fuel n))).
Proof.
  revert i s acc n. induction fuel as [|fuel IH]; intros i s acc n Hi Hf Hacc Hn Hb.
  { replace n with 0 by (simpl in Hn; lia). change (le_min 0 0) with (@nil Z).
    cbn [length dec_big_loop]. rewrite (@zlen_nil Z). do 3 f_equal; lia. }
  cbn [le_min] in *. destruct (Z.eqb_spec n 0) as [->|Hne].
  { cbn [length dec_big_loop]. rewrite (@zlen_nil Z). do 3 f_equal; lia. }
  cbn [length dec_big_loop]. rewrite (get8_at_land _ _ _ _ Hb), bind_Ok.
  replace (i <? 8) with true by lia. apply bytes_at_cons in Hb.
  pose proof (byte_land n) as Hbyte. unfold byte in Hbyte.
  assert (2 ^ (8 * (i + 1)) = 256 * 2 ^ (8 * i)) as Hp.
  { replace (8 * (i + 1)) with (8 + 8 * i) by lia. by rewrite Z.pow_add_r by lia. }
  assert (2 ^ (8 * (i + 1)) <= 2 ^ 64) as Hle by (apply Z.pow_le_mono_r; lia).
  rewrite (Z.mul_comm i 8), Z.lor_comm, wrap_small
    by (rewrite Z.shiftl_mul_pow2 by lia; nia).
  rewrite lor_shiftl_add by lia.
  rewrite IH; [|lia|lia|rewrite Hp; nia|apply shiftr8_bound; lia|done].
  rewrite zlen_cons, Hp. do 3 f_equal; [|lia].
  rewrite land_255, Z.shiftr_div_pow2 by lia. change (2 ^ 8) with 256.
  pose proof (Z.div_mod n 256). nia.
Qed.

Lemma fmt_long_len p : 2 <= zlen (fmt_long p) <= 11.
Proof.
  unfold fmt_long. pose proof (le_min_length 8 (Z.abs p)).
  destruct (_ && _); [|destruct (_ && _)]; unfold zlen; cbn [length be32]; lia.
Qed.

(** The bignum branch: sign byte, then the magnitude. *)
Lemma dec_big_loop_abs buf s p :
  - 2 ^ 64 < p < 2 ^ 64 → bytes_at buf s (le_min 8 (Z.abs p)) →
  dec_big_loop (Z.to_nat (zlen (le_min 8 (Z.abs p)))) 0 buf s 0 =
  Ok (Some (Z.abs p, s + zlen (le_min 8 (Z.abs p)))).
Proof.
  intros Hp Hb. unfold zlen at 1. rewrite Nat2Z.id.
  rewrite dec_big_loop_le_min by (done || lia). do 3 f_equal. lia.
Qed.

Lemma ei_decode_longlong_fmt buf i p q :
  - 2 ^ 63 <= p < 2 ^ 63 → i + zlen (fmt_long p) <= INT_MAX →
  bytes_at buf i (fmt_long p) →
  ei_decode_longlong buf i q = Ok (0, set_out q p, i + zlen (fmt_long p)).
Proof.
  intros Hp HM Hb. pose proof (bytes_at_nonneg _ _ _ Hb).
  unfold ei_decode_longlong. unfold fmt_long in *.
  destruct ((p <? 256) && (p >=? 0)) eqn:E1.
  { get_tag Hb. rewrite (get8_at_land _ _ _ _ Hb), bind_Ok, dec_ret_small by zl.
    rewrite land_255, Z.mod_small by lia. do 2 f_equal. zl. }
  destruct ((p <=? ERL_MAX) && (p >=? ERL_MIN)) eqn:E2.
  { get_tag Hb. rewrite <- (app_nil_r (be32 p)) in Hb.
    rewrite (get32be_at _ _ _ _ Hb), bind_Ok, dec_ret_small by zl.
    rewrite ERL_MAX_val, ERL_MIN_val in E2.
    rewrite swrap_small by (simpl; lia). do 2 f_equal. zl. }
  pose proof (le_min_length 8 (Z.abs p)) as Hl.
  pose proof (dec_big_loop_abs buf (i + 1 + 1 + 1) p ltac:(lia)) as Hloop.
  set (l := le_min 8 (Z.abs p)) in *. clearbody l.
  get_tag Hb. rewrite (get8_at _ _ _ _ Hb), bind_Ok by (unfold byte, zlen; lia).
  apply bytes_at_cons in Hb.
  rewrite (get8_at _ _ _ _ Hb), bind_Ok by (unfold byte; destruct (p <? 0); simpl; lia).
  apply bytes_at_cons in Hb. rewrite Hloop, bind_Ok by done.
  unfold MAX_TO_NEGATE, MAX_TO_NOT_NEGATE.
  destruct (Z.ltb_spec p 0); cbn [c_bool]; tag_simpl.
  - replace (Z.abs p >? _) with false by lia. rewrite dec_ret_small by zl.
    rewrite swrap_opp, Z.abs_neq, Z.opp_involutive, swrap_small by lia.
    do 2 f_equal. zl.
  - replace (Z.abs p >? _) with false by lia. rewrite dec_ret_small by zl.
    rewrite Z.abs_eq, swrap_small by lia. do 2 f_equal. zl.
Qed.

Lemma ei_decode_ulonglong_fmt buf i p q :
  0 <= p < 2 ^ 64 → i + zlen (fmt_long p) <= INT_MAX →
  bytes_at buf i (fmt_long p) →
  ei_decode_ulonglong buf i q = Ok (0, set_out q p, i + zlen (fmt_long p)).
Proof.
  intros Hp HM Hb. pose proof (bytes_at_nonneg _ _ _ Hb).
  unfold ei_decode_ulonglong. unfold fmt_long in *.
  destruct ((p <? 256) && (p >=? 0)) eqn:E1.
  { get_tag Hb. rewrite (get8_at_land _ _ _ _ Hb), bind_Ok, dec_ret_small by zl.
    rewrite land_255, Z.mod_small by lia. do 2 f_equal. zl. }
  destruct ((p <=? ERL_MAX) && (p >=? ERL_MIN)) eqn:E2.
  { get_tag Hb. rewrite <- (app_nil_r (be32 p)) in Hb.
    rewrite (get32be_at _ _ _ _ Hb), bind_Ok.
    rewrite ERL_MAX_val, ERL_MIN_val in E2.
    rewrite swrap_small by (simpl; lia). replace (p <? 0) with false by lia.
    rewrite dec_ret_small by zl. do 2 f_equal. zl. }
  pose proof (le_min_length 8 (Z.abs p)) as Hl.
  pose proof (dec_big_loop_abs buf (i + 1 + 1 + 1) p ltac:(lia)) as Hloop.
  set (l := le_min 8 (Z.abs p)) in *. clearbody l. replace (p <? 0) with false in * by lia.
  get_tag Hb. rewrite (get8_at _ _ _ _ Hb), bind_Ok by (unfold byte, zlen; lia).
  apply bytes_at_cons in Hb. cbn [c_bool] in Hb. get_tag Hb.
  rewrite Hloop, bind_Ok, dec_ret_small by (done || zl).
  rewrite Z.abs_eq by lia. do 2 f_equal. zl.
Qed.

Lemma ei_decode_version_fmt buf i v :
  i + 1 <= INT_MAX → bytes_at buf i [ERL_VERSION_MAGIC] →
  ei_decode_version buf i v = Ok (0, set_out v ERL_VERSION_MAGIC, i + 1).
Proof.
  intros HM Hb. pose proof (bytes_at_nonneg _ _ _ Hb). unfold ei_decode_version.
  get_tag Hb. by rewrite dec_ret_small by lia.
Qed.

Lemma ei_decode_char_fmt buf i p q :
  -128 <= p < 128 → i + 2 <= INT_MAX → bytes_at buf i (fmt_int8 p) →
  ei_decode_char buf i q = Ok (0, set_out q p, i + 2).
Proof.
  intros Hp HM Hb. pose proof (bytes_at_nonneg _ _ _ Hb).
  unfold ei_decode_char, fmt_int8 in *. get_tag Hb.
  rewrite (get8_at_land _ _ _ _ Hb), bind_Ok, dec_ret_small by lia.
  rewrite land_255. change (p mod 256) with (wrap 8 p).
  rewrite swrap_wrap, swrap_small by (simpl; lia). do 2 f_equal. lia.
Qed.

Lemma get32be_opt_at buf s n a :
  bytes_at buf s (be32 n) → - 2 ^ 31 <= n < 2 ^ 31 →
  get32be_opt buf s a = Ok (set_out a n, s + 4).
Proof.
  intros Hb Hn. destruct a; [|done]. unfold get32be_opt.
  rewrite <- (app_nil_r (be32 n)) in Hb.
  by rewrite (get32be_at _ _ _ _ Hb), bind_Ok, swrap_small by lia.
Qed.

Lemma ei_decode_list_header_fmt buf i n a :
  0 <= n < 2 ^ 31 → i + zlen (fmt_list_header n) <= INT_MAX →
  bytes_at buf i (fmt_list_header n) →
  ei_decode_list_header buf i a = Ok (0, set_out a n, i + zlen (fmt_list_header n)).
Proof.
  intros Hn HM Hb. pose proof (bytes_at_nonneg _ _ _ Hb).
  unfold ei_decode_list_header, fmt_list_header in *.
  destruct (Z.eqb_spec n 0) as [->|]; get_tag Hb.
  - rewrite dec_ret_small by zl. do 2 f_equal.
  - rewrite (get32be_opt_at _ _ _ _ Hb), bind_Ok, dec_ret_small by zl. do 2 f_equal. zl.
Qed.

Lemma ei_decode_tuple_header_fmt buf i n a :
  0 <= n < 2 ^ 31 → i + zlen (fmt_tuple_header n) <= INT_MAX →
  bytes_at buf i (fmt_tuple_header n) →
  ei_decode_tuple_header buf i a = Ok (0, set_out a n, i + zlen (fmt_tuple_header n)).
Proof.
  intros Hn HM Hb. pose proof (bytes_at_nonneg _ _ _ Hb).
  unfold ei_decode_tuple_header, fmt_tuple_header in *.
  destruct (Z.leb_spec n 255); get_tag Hb.
  - destruct a.
    + rewrite (get8_at_land _ _ _ _ Hb), bind_Ok, dec_ret_small by zl.
      rewrite land_255, Z.mod_small by lia. do 2 f_equal. zl.
    + rewrite dec_ret_small by zl. do 2 f_equal. zl.
  - rewrite (get32be_opt_at _ _ _ _ Hb), bind_Ok, dec_ret_small by zl. do 2 f_equal. zl.
Qed.

Lemma ei_decode_map_header_fmt buf i n a :
  0 <= n < 2 ^ 31 → i + 5 <= INT_MAX → bytes_at buf i (ERL_MAP_EXT :: be32 n) →
  ei_decode_map_header buf i a = Ok (0, set_out a n, i + 5).
Proof.
  intros Hn HM Hb. pose proof (bytes_at_nonneg _ _ _ Hb).
  unfold ei_decode_map_header. get_tag Hb.
  rewrite (get32be_opt_at _ _ _ _ Hb), bind_Ok, dec_ret_small by zl. do 2 f_equal. zl.
Qed.

Lemma ei_decode_binary_fmt buf i l p n :
  zlen l < 2 ^ 31 → i + zlen (fmt_binary l) <= INT_MAX → bytes_at buf i (fmt_binary l) →
  (∀ d, p = Some d → zlen l <= zlen d) →
  ei_decode_binary buf i p n =
  Ok (0, ((λ d, splice d 0 l) <$> p, set_out n (zlen l)), i + zlen (fmt_binary l)).
Proof.
  intros Hl HM Hb Hd. pose proof (bytes_at_nonneg _ _ _ Hb). pose proof (zlen_nonneg l).
  unfold ei_decode_binary, fmt_binary in *. get_tag Hb.
  rewrite (get32be_at _ _ _ _ Hb), bind_Ok, swrap_small by lia.
  apply bytes_at_app in Hb as [_ Hb]. change (zlen (be32 _)) with 4 in Hb.
  destruct p as [d|]; simpl.
  - rewrite (rds_at _ _ _ Hb), bind_Ok, wrs_ok by (specialize (Hd d eq_refl); lia). simpl.
    rewrite dec_ret_small by zl. do 2 f_equal. zl.
  - rewrite dec_ret_small by zl. do 2 f_equal. zl.
Qed.

Lemma ei_decode_double_fmt scan buf i val p :
  0 <= val < 2 ^ 64 → i + 9 <= INT_MAX → bytes_at buf i (NEW_FLOAT_EXT :: be64 val) →
  ei_decode_double scan buf i p = Ok (0, set_out p val, i + 9).
Proof.
  intros Hv HM Hb. pose proof (bytes_at_nonneg _ _ _ Hb). unfold ei_decode_double.
  get_tag Hb. rewrite <- (app_nil_r (be64 val)) in Hb.
  rewrite (get64be_at _ _ _ _ Hb), bind_Ok, dec_ret_small, wrap_small by lia.
  do 2 f_equal. lia.
Qed.

(** ** Strings in their three formats *)

Lemma string_elems_store_wrs l i buf s d rest :
  Forall byte l → bytes_at buf s (flat_map fmt_int8 l ++ rest) →
  string_elems_store (length l) i buf s d =
  ('(d', _) ← wrs d i (l ++ [0]); Ok (true, d', s + 2 * zlen l)).
Proof.
  revert i s d. induction l as [|x l IH]; intros i s d Hl Hb.
  { cbn [length string_elems_store app wrs]. rewrite bind_assoc. apply bind_ext.
    intros. rewrite (@zlen_nil Z). cbn. do 2 f_equal. lia. }
  apply Forall_cons in Hl as [Hx Hl]. cbn [flat_map app fmt_int8] in Hb.
  cbn [length string_elems_store]. get_tag Hb.
  rewrite (get8_at_land _ _ _ _ Hb), bind_Ok. apply bytes_at_cons in Hb.
  unfold byte in Hx. rewrite land_255, Z.mod_small by lia.
  cbn [app wrs]. rewrite bind_assoc. apply bind_ext. intros d1.
  rewrite IH by done. apply bind_ext. intros []. do 2 f_equal. rewrite zlen_cons. lia.
Qed.

Lemma string_elems_skip_ok l buf s rest :
  bytes_at buf s (flat_map fmt_int8 l ++ rest) →
  string_elems_skip (length l) buf s = Ok (true, s + 2 * zlen l).
Proof.
  revert s. induction l as [|x l IH]; intros s Hb.
  { cbn. rewrite (@zlen_nil Z). do 2 f_equal. lia. }
  cbn [flat_map app fmt_int8] in Hb. cbn [length string_elems_skip]. get_tag Hb.
  apply bytes_at_cons in Hb. rewrite IH by done. rewrite zlen_cons. do 2 f_equal. lia.
Qed.

Lemma ei_decode_string_fmt buf i l p :
  Forall byte l → zlen l < 2 ^ 31 → i + zlen (fmt_string l) <= INT_MAX →
  bytes_at buf i (fmt_string l) → (∀ d, p = Some d → zlen l < zlen d) →
  ei_decode_string buf i p =
  Ok (0, (λ d, splice d 0 (l ++ [0])) <$> p, i + zlen (fmt_string l)).
Proof.
  intros Hl Hlen HM Hb Hd. pose proof (bytes_at_nonneg _ _ _ Hb).
  pose proof (zlen_nonneg l). unfold ei_decode_string, fmt_string in *.
  destruct (Z.eqb_spec (zlen l) 0) as [E|E].
  { assert (l = []) as -> by (destruct l; [done|rewrite zlen_cons in E; pose proof (zlen_nonneg l); lia]).
    get_tag Hb. destruct p as [d|]; simpl.
    - rewrite wr_ok by (specialize (Hd d eq_refl); zl). simpl. rewrite dec_ret_small by zl. done.
    - rewrite dec_ret_small by zl. done. }
  destruct (Z.leb_spec (zlen l) 65535).
  - get_tag Hb. rewrite (get16be_at _ _ _ _ Hb), bind_Ok, Z.mod_small by lia.
    apply bytes_at_app in Hb as [_ Hb]. change (zlen (be16 _)) with 2 in Hb.
    destruct p as [d|]; simpl.
    + specialize (Hd d eq_refl). rewrite (rds_at _ _ _ Hb), bind_Ok, wrs_ok by lia. simpl.
      rewrite wr_ok by (rewrite zlen_splice; lia).
      simpl. pose proof (splice_app d 0 l [0]) as Hs. rewrite Z.add_0_l in Hs.
      rewrite Hs by zl.
      rewrite dec_ret_small by zl. do 2 f_equal. zl.
    + rewrite dec_ret_small by zl. do 2 f_equal. zl.
  - get_tag Hb. rewrite (get32be_at _ _ _ _ Hb), bind_Ok, swrap_small by lia.
    apply bytes_at_app in Hb as [_ Hb]. change (zlen (be32 _)) with 4 in Hb.
    replace (Z.to_nat (zlen l)) with (length l) by (unfold zlen; lia).
    assert (bytes_at buf (i + 1 + 4 + 2 * zlen l) [ERL_NIL_EXT]) as Hnil.
    { apply bytes_at_app in Hb as [_ Hb]. by rewrite zlen_flat_int8 in Hb. }
    destruct p as [d|]; simpl fmap.
    + specialize (Hd d eq_refl). rewrite (string_elems_store_wrs _ _ _ _ _ _ Hl Hb).
      rewrite wrs_ok by zl. simpl. get_tag Hnil. rewrite dec_ret_small by zl. do 2 f_equal. zl.
    + rewrite (string_elems_skip_ok _ _ _ _ Hb). simpl. get_tag Hnil.
      rewrite dec_ret_small by zl. do 2 f_equal. zl.
Qed.

(** ** Bignums *)

Lemma lor_dbytes d :
  0 <= d < 65536 →
  Z.lor (Z.land d 255) (wrap 16 (Z.shiftl (Z.land (Z.shiftr d 8) 255) 8)) = d.
Proof.
  intros Hd. rewrite !land_255, Z.shiftr_div_pow2 by lia. change (2 ^ 8) with 256.
  assert (0 <= d / 256 < 256) by dlia.
  rewrite (Z.mod_small (d / 256)) by lia.
  rewrite wrap_small by (rewrite Z.shiftl_mul_pow2 by lia; change (2 ^ 8) with 256; change (2 ^ 16) with 65536; lia).
  rewrite Z.lor_comm, lor_shiftl_add by (change (2 ^ 8) with 256; dlia).
  change (2 ^ 8) with 256. dlia.
Qed.

(** The high byte of the last digit of an odd number of digit bytes is zero. *)
Definition digits_fit (n : Z) (dt : list Z) : Prop :=
  Forall (λ d, 0 <= d < 65536) dt ∧ zlen dt = (n + 1) / 2 ∧
  (n mod 2 = 1 → ∀ d, last dt = Some d → d < 256).

Lemma big_load_loop_ok dt2 buf s n dt1 old :
  2 * (zlen dt1 + zlen dt2) - 1 <= n <= 2 * (zlen dt1 + zlen dt2) →
  Forall (λ d, 0 <= d < 65536) dt2 → length old = length dt2 →
  (n = 2 * (zlen dt1 + zlen dt2) - 1 → ∀ d, last dt2 = Some d → d < 256) →
  bytes_at buf (s + 2 * zlen dt1) (take (Z.to_nat (n - 2 * zlen dt1)) (le16s dt2)) →
  big_load_loop (length dt2) (zlen dt1) buf s n (dt1 ++ old) = Ok (dt1 ++ dt2).
Proof.
  revert dt1 old. induction dt2 as [|d dt2 IH]; intros dt1 old Hn Hr Ho Hlast Hb.
  { destruct old; [done|discriminate]. }
  destruct old as [|o old]; [discriminate|]. simpl in Ho.
  apply Forall_cons in Hr as [Hd Hr]. rewrite zlen_cons in *. pose proof (zlen_nonneg dt2).
  pose proof (zlen_nonneg dt1).
  assert (Hwr : wr (dt1 ++ o :: old) (zlen dt1) d = Ok ((dt1 ++ [d]) ++ old)).
  { rewrite wr_ok by zl. f_equal. unfold splice, zlen. rewrite Nat2Z.id, take_app_length.
    rewrite <- app_assoc. do 2 f_equal. rewrite drop_app_add. done. }
  cbn [length big_load_loop]. replace (zlen dt1 * 2) with (2 * zlen dt1) by lia.
  destruct (Z.ltb_spec (2 * zlen dt1 + 1) n).
  - replace (Z.to_nat (n - 2 * zlen dt1)) with (S (S (Z.to_nat (n - 2 * (zlen dt1 + 1))))) in Hb by lia.
    unfold le16s in Hb. cbn [flat_map dbytes app take] in Hb.
    rewrite (rd_at _ _ _ _ Hb), bind_Ok. apply bytes_at_cons in Hb.
    rewrite Z.add_assoc, (rd_at _ _ _ _ Hb). cbn [mbind res_bind].
    apply bytes_at_cons in Hb. rewrite lor_dbytes, Hwr by done. cbn [mbind res_bind].
    assert (zlen (dt1 ++ [d]) = zlen dt1 + 1) as Hz by zl.
    rewrite <- Hz, IH, <- app_assoc; rewrite ?Hz; [done|lia|done|lia| |].
    + intros Hodd d' Hd'. apply Hlast; [lia|]. destruct dt2; [done|exact Hd'].
    + by replace (s + 2 * (zlen dt1 + 1)) with (s + 2 * zlen dt1 + 1 + 1) by lia.
  - assert (dt2 = []) as ->.
    { destruct dt2; [done|]. rewrite zlen_cons in *. pose proof (zlen_nonneg dt2). lia. }
    destruct old; [|discriminate].
    replace (Z.to_nat (n - 2 * zlen dt1)) with 1%nat in Hb by lia.
    unfold le16s in Hb. cbn [flat_map dbytes app take] in Hb.
    rewrite (rd_at _ _ _ _ Hb). cbn [mbind res_bind].
    assert (d < 256) by (apply Hlast; [zl|done]).
    rewrite land_255, Z.mod_small, Hwr by lia. cbn. by rewrite app_nil_r.
Qed.

Lemma ei_decode_big_fmt buf i n neg dt neg0 dt0 :
  0 <= n < 2 ^ 31 → digits_fit n dt → length dt0 = length dt → byte neg →
  i + zlen (fmt_big (mk_big n neg dt)) <= INT_MAX →
  bytes_at buf i (fmt_big (mk_big n neg dt)) →
  ei_decode_big buf i (Some (mk_big n neg0 dt0)) =
  Ok (0, Some (mk_big n neg dt), i + zlen (fmt_big (mk_big n neg dt))).
Proof.
  intros Hn (Hr & Hz & Hlast) Hl0 Hneg HM Hb. pose proof (bytes_at_nonneg _ _ _ Hb).
  unfold byte in Hneg.
  assert (zlen (take (Z.to_nat n) (le16s dt)) = n) as Hlen.
  { unfold zlen in *. rewrite length_take, length_le16s. dlia. }
  assert (Hload : ∀ s, bytes_at buf s (take (Z.to_nat n) (le16s dt)) →
    big_load_loop (Z.to_nat ((n + 1) / 2)) 0 buf s n dt0 = Ok dt).
  { intros s Hs. pose proof (big_load_loop_ok dt buf s n [] dt0) as HL.
    rewrite (@zlen_nil Z), Z.mul_0_r, Z.add_0_r, Z.sub_0_r, Z.add_0_l in HL.
    rewrite <- Hz. unfold zlen at 1. rewrite Nat2Z.id. apply HL; [dlia|done|done| |done].
    intros Hodd. apply Hlast. dlia. }
  unfold ei_decode_big, fmt_big in *. cbn [big_arity big_is_neg big_digits] in *.
  set (l := take (Z.to_nat n) (le16s dt)) in *.
  destruct (Z.ltb_spec n 256); cbn [app] in Hb; get_tag Hb.
  - rewrite (get8_at_land _ _ _ _ Hb), bind_Ok. apply bytes_at_cons in Hb.
    rewrite (land_255 n), Z.mod_small, Z.eqb_refl, (wrap_small 32 (n + 1)) by lia. cbn [negb].
    rewrite (get8_at_land _ _ _ _ Hb), bind_Ok. apply bytes_at_cons in Hb.
    rewrite Hload, bind_Ok, dec_ret_small, land_255, Z.mod_small by (done || zl).
    do 2 f_equal. zl.
  - rewrite (get32be_at _ _ _ _ Hb). cbn [mbind res_bind].
    rewrite wrap_swrap, (wrap_small 32 n), Z.eqb_refl, (wrap_small 32 (n + 1)) by lia. cbn [negb].
    apply bytes_at_app in Hb as [_ Hb]. change (zlen (be32 _)) with 4 in Hb.
    rewrite (get8_at_land _ _ _ _ Hb), bind_Ok. apply bytes_at_cons in Hb.
    rewrite Hload, bind_Ok, dec_ret_small, land_255, Z.mod_small by (done || zl).
    do 2 f_equal. zl.
Qed.
