(* ===== verification/EiAtom.v ===== *)
(** Atoms in [ei]: src/encode/encode_atom.c, src/decode/decode_atom.c and
    src/decode/decode_boolean.c, with the conversions between latin-1 and UTF-8
    that both directions share.

    A destination pointer is [option (bytes * Z)]: the object and the offset the
    pointer has in it; the pointer difference [dst - dst_start] is kept as [k]. *)
From S2P Require Import Prelude EiBase EiEncode EiDecode.

(** [if (dst_start) *dst = v] *)
Definition st_opt (obj : option bytes) (pos v : Z) : res (option bytes) :=
  match obj with
  | Some b => b ← wr b pos v; Ok (Some b)
  | None => Ok None
  end.

(** [utf8_to_latin1] (decode_atom.c); result: return value, destination object,
    found_non_ascii. *)
Fixpoint utf8_to_latin1_loop (fuel : nat) (obj : option bytes) (base k destlen : Z)
    (src : bytes) (sp slen : Z) (non_ascii : bool) : res (Z * option bytes * bool) :=
  if slen <=? 0 then Ok (k, obj, non_ascii)
  else match fuel with
  | O => NoFuel
  | S fuel =>
      if k >=? destlen then Ok (-1, obj, non_ascii)
      else
        c0 ← rd src sp;
        if Z.land c0 128 =? 0 then
          obj ← st_opt obj (base + k) c0;
          utf8_to_latin1_loop fuel obj base (k + 1) destlen src (sp + 1) (slen - 1) non_ascii
        else if (slen >? 1) && (Z.land c0 254 =? 194) then
          c1 ← rd src (sp + 1);
          if Z.land c1 192 =? 128 then
            obj ← st_opt obj (base + k) (Z.land (Z.lor (Z.shiftl c0 6) (Z.land c1 63)) 255);
            utf8_to_latin1_loop fuel obj base (k + 1) destlen src (sp + 2) (slen - 2) true
          else Ok (-1, obj, non_ascii)
        else Ok (-1, obj, non_ascii)
  end.

Definition utf8_to_latin1 (obj : option bytes) (base : Z) (src : bytes) (sp slen destlen : Z)
    (res_encp : option Z) : res (Z * option bytes * option Z) :=
  '(k, obj, non_ascii) ←
    utf8_to_latin1_loop (Z.to_nat slen) obj base 0 destlen src sp slen false;
  if k =? -1 then Ok (-1, obj, res_encp)
  else Ok (k, obj, set_out res_encp (if (non_ascii : bool) then ERLANG_LATIN1 else ERLANG_ASCII)).

(** [latin1_to_utf8] (decode_atom.c) *)
Fixpoint latin1_to_utf8_loop (n : nat) (obj : option bytes) (base k destlen : Z)
    (src : bytes) (sp : Z) (non_ascii : bool) : res (Z * option bytes * bool) :=
  match n with
  | O => Ok (k, obj, non_ascii)
  | S n =>
      if k >=? destlen then Ok (-1, obj, non_ascii)
      else
        c ← rd src sp;
        if Z.land c 128 =? 0 then
          obj ← st_opt obj (base + k) c;
          latin1_to_utf8_loop n obj base (k + 1) destlen src (sp + 1) non_ascii
        else
          obj ← st_opt obj (base + k) (Z.lor 192 (Z.shiftr c 6));
          obj ← st_opt obj (base + k + 1) (Z.lor 128 (Z.land c 63));
          latin1_to_utf8_loop n obj base (k + 2) destlen src (sp + 1) true
  end.

Definition latin1_to_utf8 (obj : option bytes) (base : Z) (src : bytes) (sp slen destlen : Z)
    (res_encp : option Z) : res (Z * option bytes * option Z) :=
  '(k, obj, non_ascii) ←
    latin1_to_utf8_loop (Z.to_nat slen) obj base 0 destlen src sp false;
  if k =? -1 then Ok (-1, obj, res_encp)
  else Ok (k, obj, set_out res_encp (if (non_ascii : bool) then ERLANG_UTF8 else ERLANG_ASCII)).

(** [verify_ascii_atom] (encode_atom.c) *)
Fixpoint verify_ascii_loop (n : nat) (src : bytes) (sp : Z) : res Z :=
  match n with
  | O => Ok 0
  | S n =>
      c ← rd src sp;
      if negb (Z.land c 128 =? 0) then Ok (-1) else verify_ascii_loop n src (sp + 1)
  end.

Definition verify_ascii_atom (src : bytes) (slen : Z) : res Z :=
  verify_ascii_loop (Z.to_nat slen) src 0.

(** [(src[j] & 0xC0) == 0x80] for [j = 1 .. n] *)
Fixpoint continuation_bytes (n : nat) (src : bytes) (sp : Z) : res bool :=
  match n with
  | O => Ok true
  | S n =>
      c ← rd src sp;
      if negb (Z.land c 192 =? 128) then Ok false else continuation_bytes n src (sp + 1)
  end.

(** [verify_utf8_atom] (encode_atom.c) *)
Fixpoint verify_utf8_loop (fuel : nat) (num_chars : Z) (src : bytes) (sp slen : Z) : res Z :=
  if slen <=? 0 then Ok 0
  else match fuel with
  | O => NoFuel
  | S fuel =>
      if num_chars + 1 >=? MAXATOMLEN then Ok (-1)
      else
        c ← rd src sp;
        if negb (Z.land c 128 =? 0) then
          if Z.land c 224 =? 192 then
            if slen <? 2 then Ok (-1) else
            good ← continuation_bytes 1 src (sp + 1);
            if negb good then Ok (-1)
            else verify_utf8_loop fuel (num_chars + 1) src (sp + 2) (slen - 2)
          else if Z.land c 240 =? 224 then
            if slen <? 3 then Ok (-1) else
            good ← continuation_bytes 2 src (sp + 1);
            if negb good then Ok (-1)
            else verify_utf8_loop fuel (num_chars + 1) src (sp + 3) (slen - 3)
          else if Z.land c 248 =? 240 then
            if slen <? 4 then Ok (-1) else
            good ← continuation_bytes 3 src (sp + 1);
            if negb good then Ok (-1)
            else verify_utf8_loop fuel (num_chars + 1) src (sp + 4) (slen - 4)
          else Ok (-1)
        else verify_utf8_loop fuel (num_chars + 1) src (sp + 1) (slen - 1)
  end.

Definition verify_utf8_atom (src : bytes) (slen : Z) : res Z :=
  verify_utf8_loop (Z.to_nat slen) 0 src 0 slen.

(** [is_latin1_as_utf8] (encode_atom.c) *)
Fixpoint is_latin1_as_utf8_loop (n : nat) (p : bytes) (i : Z) : res Z :=
  match n with
  | O => Ok 1
  | S n =>
      c ← rd p i;
      if c >? 195 then Ok 0 else is_latin1_as_utf8_loop n p (i + 1)
  end.

Definition is_latin1_as_utf8 (p : bytes) (len : Z) : res Z :=
  is_latin1_as_utf8_loop (Z.to_nat len) p 0.

(** [memcpy(dst, p, len)] into the buffer. *)
Definition copy_in (b : bytes) (pos : Z) (p : bytes) (len : Z) : res bytes :=
  src ← rds p 0 len;
  '(b, _) ← wrs b pos src;
  Ok b.

(** [ei_encode_atom_len_as] (encode_atom.c), the part after [to_enc] has been
    chosen: [switch (to_enc) case ERLANG_LATIN1].  The result is the buffer and
    the length of the text, [None] for [return -1]. *)
Definition encode_atom_latin1 (buf : option bytes) (index : Z) (p : bytes) (len from_enc : Z)
    : res (option bytes * option (Z * Z)) :=
  match buf with
  | Some b =>
      '(b, s) ← put8 b index ERL_ATOM_EXT;
      '(buf, len) ←
        (if from_enc =? ERLANG_UTF8 then
           '(len, buf, _) ← utf8_to_latin1 (Some b) (s + 2) p 0 len (MAXATOMLEN - 1) None;
           Ok (buf, if len <? 0 then None else Some len)
         else if from_enc =? ERLANG_ASCII then
           rc ← verify_ascii_atom p len;
           if rc <? 0 then Ok (Some b, None)
           else b ← copy_in b (s + 2) p len; Ok (Some b, Some len)
         else if from_enc =? ERLANG_LATIN1 then
           b ← copy_in b (s + 2) p len; Ok (Some b, Some len)
         else Ok (Some b, None));
      match len, buf with
      | Some len, Some b => '(b, s) ← put16be b s len; Ok (Some b, Some (s, len))
      | _, _ => Ok (buf, None)
      end
  | None =>
      let s := index + 3 in
      if from_enc =? ERLANG_UTF8 then
        '(len, _, _) ← utf8_to_latin1 None 0 p 0 len (MAXATOMLEN - 1) None;
        Ok (None, if len <? 0 then None else Some (s, len))
      else if from_enc =? ERLANG_ASCII then
        rc ← verify_ascii_atom p len;
        Ok (None, if rc <? 0 then None else Some (s, len))
      else Ok (None, Some (s, len))
  end.

(** The same for [case ERLANG_UTF8]. *)
Definition encode_atom_utf8 (buf : option bytes) (index : Z) (p : bytes) (len from_enc : Z)
    : res (option bytes * option (Z * Z)) :=
  '(buf, r) ←
    (if from_enc =? ERLANG_LATIN1 then
       let offs := if len >=? 256 / 2 then 3 else 2 in
       '(len, buf, _) ← latin1_to_utf8 buf (index + offs) p 0 len (MAXATOMLEN_UTF8 - 1) None;
       Ok (buf, Some (offs, len))
     else if from_enc =? ERLANG_ASCII then
       rc ← verify_ascii_atom p len;
       if rc <? 0 then Ok (buf, None)
       else
         buf ← match buf with
               | Some b => b ← copy_in b (index + 2) p len; Ok (Some b)
               | None => Ok None
               end;
         Ok (buf, Some (2, len))
     else if from_enc =? ERLANG_UTF8 then
       let offs := if len >=? 256 then 3 else 2 in
       rc ← verify_utf8_atom p len;
       if rc <? 0 then Ok (buf, None)
       else
         buf ← match buf with
               | Some b => b ← copy_in b (index + offs) p len; Ok (Some b)
               | None => Ok None
               end;
         Ok (buf, Some (offs, len))
     else Ok (buf, None));
  match r with
  | None => Ok (buf, None)
  | Some (offs, len) =>
      match buf with
      | Some b =>
          if offs =? 2 then
            '(b, s) ← put8 b index ERL_SMALL_ATOM_UTF8_EXT;
            '(b, s) ← put8 b s len;
            Ok (Some b, Some (s, len))
          else
            '(b, s) ← put8 b index ERL_ATOM_UTF8_EXT;
            '(b, s) ← put16be b s len;
            Ok (Some b, Some (s, len))
      | None => Ok (None, Some (index + offs, len))
      end
  end.

Definition ei_encode_atom_len_as (buf : option bytes) (index : Z) (p : bytes)
    (len from_enc to_enc : Z) : res (Z * option bytes * Z) :=
  if (len >=? MAXATOMLEN) && negb (Z.land from_enc (Z.lor ERLANG_LATIN1 ERLANG_ASCII) =? 0)
  then Ok (-1, buf, index)
  else
    to_enc ← (if to_enc =? Z.lor ERLANG_LATIN1 ERLANG_UTF8 then
                if from_enc =? ERLANG_UTF8 then
                  r ← is_latin1_as_utf8 p len;
                  Ok (if negb (r =? 0) then ERLANG_LATIN1 else ERLANG_UTF8)
                else Ok from_enc
              else Ok to_enc);
    '(buf, r) ← (if to_enc =? ERLANG_LATIN1 then encode_atom_latin1 buf index p len from_enc
                 else if to_enc =? ERLANG_UTF8 then encode_atom_utf8 buf index p len from_enc
                 else Ok (buf, None));
    match r with
    | None => Ok (-1, buf, index)
    | Some (s, len) => enc_ret buf index (s + len)
    end.

Definition ei_encode_atom_len (buf : option bytes) (index : Z) (p : bytes) (len : Z) :=
  let len := if len >=? MAXATOMLEN then MAXATOMLEN - 1 else len in
  ei_encode_atom_len_as buf index p len ERLANG_LATIN1 ERLANG_LATIN1.

Definition ei_encode_atom (buf : option bytes) (index : Z) (p : bytes) :=
  len ← strlen p;
  let len := if len >=? MAXATOMLEN then MAXATOMLEN - 1 else len in
  ei_encode_atom_len_as buf index p len ERLANG_LATIN1 ERLANG_LATIN1.

Definition ei_encode_atom_as (buf : option bytes) (index : Z) (p : bytes) (from_enc to_enc : Z) :=
  len ← strlen p;
  ei_encode_atom_len_as buf index p (to_int len) from_enc to_enc.

(** The copy loop of [ei_decode_atom_as]. *)
Fixpoint atom_copy_loop (n : nat) (i : Z) (p : option bytes) (buf : bytes) (s : Z)
    (non_ascii : bool) : res (option bytes * bool) :=
  match n with
  | O => Ok (p, non_ascii)
  | S n =>
      c ← rd buf (s + i);
      p ← st_opt p i c;
      atom_copy_loop n (i + 1) p buf s (non_ascii || negb (Z.land c 128 =? 0))
  end.

(** [ei_decode_atom_as] (decode_atom.c); outputs [p], [*was_encp], [*res_encp]. *)
Definition ei_decode_atom_as (buf : bytes) (index : Z) (p : option bytes) (destlen want_enc : Z)
    (was_encp res_encp : option Z)
    : res (Z * (option bytes * option Z * option Z) * Z) :=
  '(tag, s) ← get8 buf index;
  '(r, s) ←
    (if tag =? ERL_ATOM_EXT then
       '(len, s) ← get16be buf s; Ok (Some (len, ERLANG_LATIN1), s)
     else if tag =? ERL_SMALL_ATOM_EXT then
       '(len, s) ← get8 buf s; Ok (Some (len, ERLANG_LATIN1), s)
     else if tag =? ERL_ATOM_UTF8_EXT then
       '(len, s) ← get16be buf s; Ok (Some (len, ERLANG_UTF8), s)
     else if tag =? ERL_SMALL_ATOM_UTF8_EXT then
       '(len, s) ← get8 buf s; Ok (Some (len, ERLANG_UTF8), s)
     else Ok (None, s));
  match r with
  | None => Ok (-1, (p, was_encp, res_encp), index)
  | Some (len, got_enc) =>
      if negb (Z.land want_enc got_enc =? 0) || (want_enc =? ERLANG_ASCII) then
        if len >=? destlen then Ok (-1, (p, was_encp, res_encp), index)
        else
          '(p, non_ascii) ← atom_copy_loop (Z.to_nat len) 0 p buf s false;
          p ← st_opt p len 0;
          if (want_enc =? ERLANG_ASCII) && non_ascii
          then Ok (-1, (p, was_encp, res_encp), index)
          else
            let res_encp := set_out res_encp (if (non_ascii : bool) then got_enc else ERLANG_ASCII) in
            dec_ret (p, set_out was_encp got_enc, res_encp) index (s + len)
      else
        '(plen, p, res_encp) ←
          (if got_enc =? ERLANG_LATIN1
           then latin1_to_utf8 p 0 buf s len (destlen - 1) res_encp
           else utf8_to_latin1 p 0 buf s len (destlen - 1) res_encp);
        if plen <? 0 then Ok (-1, (p, was_encp, res_encp), index)
        else
          p ← st_opt p plen 0;
          dec_ret (p, set_out was_encp got_enc, res_encp) index (s + len)
  end.

Definition ei_decode_atom (buf : bytes) (index : Z) (p : option bytes) :=
  '(rc, (p, _, _), index) ←
    ei_decode_atom_as buf index p MAXATOMLEN ERLANG_LATIN1 None None;
  Ok (rc, p, index).

(** [ei_internal_get_atom]: [s] is the pointer [*bufp]. *)
Definition get_atom (buf : bytes) (s : Z) (p : option bytes) (was_encp : option Z) :=
  '(rc, (p, was_encp, _), s') ←
    ei_decode_atom_as buf s p MAXATOMLEN_UTF8 ERLANG_UTF8 was_encp None;
  if rc <? 0 then Ok (-1, (p, was_encp), s) else Ok (0, (p, was_encp), s').

(** [ei_internal_put_atom] *)
Definition put_atom (buf : option bytes) (s : Z) (p : bytes) (slen to_enc : Z) :=
  '(rc, buf, s') ← ei_encode_atom_len_as buf s p slen ERLANG_UTF8 to_enc;
  if rc <? 0 then Ok (-1, buf, s) else Ok (0, buf, s').

(** [ei_decode_boolean] (decode_boolean.c): [tbuf] is a 6-byte array whose
    initial contents [tbuf0] are indeterminate.  [memcmp] compares the 5 (6)
    first bytes with the NUL-terminated literal. *)
Definition ei_decode_boolean (tbuf0 : bytes) (buf : bytes) (index : Z) (p : option Z) :=
  '(rc, (tbuf, _, _), index) ←
    ei_decode_atom_as buf index (Some tbuf0) 6 ERLANG_ASCII None None;
  if rc <? 0 then Ok (-1, p, index)
  else
    let tbuf := default [] tbuf in
    if bool_decide (take 5 tbuf = str_true ++ [0]) then Ok (0, set_out p 1, index)
    else if bool_decide (take 6 tbuf = str_false ++ [0]) then Ok (0, set_out p 0, index)
    else Ok (-1, p, index).

(** * Reference definitions of the conversions *)

Fixpoint l2u (l : bytes) : bytes :=
  match l with
  | [] => []
  | c :: l => if c <? 128 then c :: l2u l
              else Z.lor 192 (Z.shiftr c 6) :: Z.lor 128 (Z.land c 63) :: l2u l
  end.

Fixpoint u2l (l : bytes) : option bytes :=
  match l with
  | [] => Some []
  | c0 :: l0 =>
      if c0 <? 128 then cons c0 <$> u2l l0
      else match l0 with
           | c1 :: l1 =>
               if (Z.land c0 254 =? 194) && (Z.land c1 192 =? 128)
               then cons (Z.land (Z.lor (Z.shiftl c0 6) (Z.land c1 63)) 255) <$> u2l l1
               else None
           | [] => None
           end
  end.

Definition non_ascii (l : bytes) : bool := existsb (λ c, 128 <=? c) l.

(** Facts about single bytes, by enumeration. *)
Definition all_bytes : list Z := Z.of_nat <$> seq 0 256.

Lemma byte_in_all c : byte c → c ∈ all_bytes.
Proof.
  unfold byte, all_bytes. intros Hc. apply list_elem_of_fmap. exists (Z.to_nat c).
  split; [lia|]. apply elem_of_seq. lia.
Qed.

Lemma byte_cases (P : Z → bool) : forallb P all_bytes = true → ∀ c, byte c → P c = true.
Proof.
  intros H c Hc. rewrite forallb_forall in H. apply H.
  apply list_elem_of_In. by apply byte_in_all.
Qed.

Lemma byte_high c : byte c → (Z.land c 128 =? 0) = (c <? 128).
Proof.
  intros Hc. apply Bool.eqb_prop.
  by apply (byte_cases (λ c, Bool.eqb (Z.land c 128 =? 0) (c <? 128)) ltac:(reflexivity) c Hc).
Qed.

(** The two-byte sequence of a latin-1 character above 127. *)
Definition l2u_ok (c : Z) : bool :=
  let c0 := Z.lor 192 (Z.shiftr c 6) in
  let c1 := Z.lor 128 (Z.land c 63) in
  (c <? 128) ||
  ((0 <=? c0) && (c0 <? 256) && (0 <=? c1) && (c1 <? 256) && negb (c0 <? 128) &&
   (Z.land c0 254 =? 194) && (Z.land c1 192 =? 128) && negb (c0 =? 0) && negb (c1 =? 0) &&
   (Z.land (Z.lor (Z.shiftl c0 6) (Z.land c1 63)) 255 =? c)).

Lemma l2u_ok_all c : byte c → l2u_ok c = true.
Proof. apply byte_cases. reflexivity. Qed.

(** The character a two-byte sequence stands for. *)
Definition u2l_ok (c0 c1 : Z) : bool :=
  let c := Z.land (Z.lor (Z.shiftl c0 6) (Z.land c1 63)) 255 in
  negb ((Z.land c0 254 =? 194) && (Z.land c1 192 =? 128)) ||
  ((0 <=? c) && (c <? 256) && negb (c <? 128) &&
   (Z.lor 192 (Z.shiftr c 6) =? c0) && (Z.lor 128 (Z.land c 63) =? c1)).

Lemma u2l_ok_all c0 c1 : byte c0 → byte c1 → u2l_ok c0 c1 = true.
Proof.
  intros H0 H1.
  assert (forallb (λ c, forallb (u2l_ok c) all_bytes) all_bytes = true) as H
    by (vm_compute; reflexivity).
  pose proof (byte_cases _ H c0 H0) as H2. simpl in H2. by apply (byte_cases _ H2 c1).
Qed.

Lemma u2l_l2u l : Forall byte l → u2l (l2u l) = Some l.
Proof.
  induction 1 as [|c l Hc Hl IH]; [done|]. simpl.
  pose proof (l2u_ok_all c Hc) as Hok. unfold l2u_ok in Hok.
  destruct (c <? 128) eqn:E; simpl; [rewrite E, IH; done|].
  simpl in Hok. repeat (apply andb_prop in Hok as [Hok ?]).
  destruct (Z.lor 192 (Z.shiftr c 6) <? 128); [done|].
  rewrite H2, H3, IH. simpl. do 2 f_equal. lia.
Qed.


Lemma u2l_inv_aux n l l' :
  (length l <= n)%nat → Forall byte l → u2l l = Some l' → l2u l' = l ∧ Forall byte l'.
Proof.
  revert l l'. induction n as [|n IH]; intros l l' Hn Hl Hu.
  { destruct l; [|simpl in Hn; lia]. by injection Hu as <-. }
  destruct l as [|c0 l0]; [by injection Hu as <-|]. simpl in Hu, Hn.
  apply Forall_cons in Hl as [H0 Hl]. destruct (c0 <? 128) eqn:E0.
  - destruct (u2l l0) as [l1|] eqn:E1; simpl in Hu; [|done]. injection Hu as <-.
    destruct (IH l0 l1) as [Ha Hb]; [lia|done|done|]. simpl. rewrite E0, Ha. auto.
  - destruct l0 as [|c1 l1]; [done|]. apply Forall_cons in Hl as [Hb1 Hl].
    pose proof (u2l_ok_all c0 c1 H0 Hb1) as Hok. unfold u2l_ok in Hok.
    destruct (_ && _) eqn:E1; [|done]. simpl in Hok.
    destruct (u2l l1) as [l2|] eqn:E2; simpl in Hu; [|done]. injection Hu as <-.
    destruct (IH l1 l2) as [Ha Hb]; [simpl in Hn; lia|done|done|].
    repeat (apply andb_prop in Hok as [Hok ?]). simpl.
    rewrite Ha. repeat match goal with
    | H : (_ =? _) = true |- _ => apply Z.eqb_eq in H
    | H : (_ <=? _) = true |- _ => apply Z.leb_le in H
    | H : (_ <? _) = true |- _ => apply Z.ltb_lt in H
    | H : negb _ = true |- _ => apply negb_true_iff in H; rewrite H
    end.
    split; [by f_equal; [|f_equal]|].
    constructor; [done|done].
Qed.

Lemma u2l_inv l l' : Forall byte l → u2l l = Some l' → l2u l' = l ∧ Forall byte l'.
Proof. by apply (u2l_inv_aux (length l)). Qed.

Lemma l2u_length l : zlen l <= zlen (l2u l) <= 2 * zlen l.
Proof. induction l as [|c l IH]; simpl; [done|]. destruct (c <? 128); zl. Qed.

(** * The conversion loops compute the reference conversions *)

Definition wrs_opt (obj : option bytes) (pos : Z) (l : bytes) : res (option bytes) :=
  match obj with
  | Some b => '(b, _) ← wrs b pos l; Ok (Some b)
  | None => Ok None
  end.

Lemma st_opt_then {A} obj pos x l (k : option bytes → res A) :
  (obj' ← st_opt obj pos x; obj'' ← wrs_opt obj' (pos + 1) l; k obj'') =
  (obj'' ← wrs_opt obj pos (x :: l); k obj'').
Proof.
  destruct obj as [b|]; simpl; [|done]. rewrite !bind_assoc. apply bind_ext. intros b'.
  simpl. rewrite !bind_assoc. apply bind_ext. by intros [].
Qed.

Lemma wrs_opt_nil {A} obj pos (k : option bytes → res A) :
  (obj' ← wrs_opt obj pos []; k obj') = k obj.
Proof. by destruct obj. Qed.

Lemma bytes_at_tail b s x l : bytes_at b s (x :: l) → rd b s = Ok x ∧ bytes_at b (s + 1) l.
Proof. intros H. split; [by eapply rd_at|by eapply bytes_at_cons]. Qed.

Lemma non_ascii_cons c l : non_ascii (c :: l) = (128 <=? c) || non_ascii l.
Proof. reflexivity. Qed.

Lemma latin1_to_utf8_loop_spec l obj base k destlen src sp na :
  Forall byte l → bytes_at src sp l → k + zlen (l2u l) <= destlen →
  latin1_to_utf8_loop (length l) obj base k destlen src sp na =
  (obj ← wrs_opt obj (base + k) (l2u l);
   Ok (k + zlen (l2u l), obj, na || non_ascii l)).
Proof.
  intros Hl. revert obj k sp na. induction Hl as [|c l Hc Hl IH]; intros obj k sp na Hs Hd.
  { rewrite wrs_opt_nil. simpl. by rewrite zlen_nil, Z.add_0_r, orb_false_r. }
  apply bytes_at_tail in Hs as [Hr Hs]. simpl in *.
  destruct (Z.geb_spec k destlen). { destruct (c <? 128); zl. }
  rewrite Hr. cbn [mbind res_bind]. rewrite byte_high by done.
  destruct (Z.ltb_spec c 128), (Z.leb_spec 128 c); try lia.
  - rewrite <- st_opt_then. apply bind_ext. intros obj'.
    rewrite IH by (done || zl). replace (base + (k + 1)) with (base + k + 1) by lia.
    apply bind_ext. intros ?. rewrite zlen_cons. do 3 f_equal. lia.
  - rewrite <- st_opt_then. apply bind_ext. intros obj'.
    rewrite <- st_opt_then. apply bind_ext. intros obj''.
    rewrite IH by (done || zl). replace (base + (k + 2)) with (base + k + 1 + 1) by lia.
    apply bind_ext. intros ?. rewrite !zlen_cons, orb_true_r. do 3 f_equal. lia.
Qed.

Lemma latin1_to_utf8_spec l obj base src sp destlen enc :
  Forall byte l → bytes_at src sp l → zlen (l2u l) <= destlen →
  latin1_to_utf8 obj base src sp (zlen l) destlen enc =
  (obj ← wrs_opt obj base (l2u l);
   Ok (zlen (l2u l), obj, set_out enc (if non_ascii l then ERLANG_UTF8 else ERLANG_ASCII))).
Proof.
  intros Hl Hs Hd. unfold latin1_to_utf8. unfold zlen at 1. rewrite Nat2Z.id.
  rewrite latin1_to_utf8_loop_spec by done. rewrite Z.add_0_r, Z.add_0_l, bind_assoc.
  apply bind_ext. intros ?. cbn [mbind res_bind]. pose proof (zlen_nonneg (l2u l)).
  by destruct (Z.eqb_spec (zlen (l2u l)) (-1)); [lia|].
Qed.

Lemma u2l_non_ascii n l l' :
  (length l <= n)%nat → Forall byte l → u2l l = Some l' → non_ascii l' = non_ascii l.
Proof.
  revert l l'. induction n as [|n IH]; intros l l' Hn Hl Hu.
  { destruct l; [|simpl in Hn; lia]. by injection Hu as <-. }
  destruct l as [|c0 l0]; [by injection Hu as <-|]. simpl in Hu, Hn.
  apply Forall_cons in Hl as [H0 Hl]. destruct (Z.ltb_spec c0 128).
  - destruct (u2l l0) as [l1|] eqn:E1; simpl in Hu; [|done]. injection Hu as <-.
    rewrite !non_ascii_cons. f_equal. apply IH; [lia|done|done].
  - destruct l0 as [|c1 l1]; [done|]. apply Forall_cons in Hl as [Hb1 Hl].
    pose proof (u2l_ok_all c0 c1 H0 Hb1) as Hok. unfold u2l_ok in Hok.
    destruct (_ && _) eqn:E1; [|done]. simpl in Hok.
    destruct (u2l l1) as [l2|] eqn:E2; simpl in Hu; [|done]. injection Hu as <-.
    repeat (apply andb_prop in Hok as [Hok ?]). rewrite !non_ascii_cons.
    destruct (Z.leb_spec 128 c0); [|lia]. simpl.
    apply orb_true_iff. left. lia.
Qed.

Lemma utf8_to_latin1_loop_spec fuel l l' obj base k destlen src sp na :
  (length l <= fuel)%nat → Forall byte l → bytes_at src sp l →
  u2l l = Some l' → k + zlen l' <= destlen →
  utf8_to_latin1_loop fuel obj base k destlen src sp (zlen l) na =
  (obj ← wrs_opt obj (base + k) l'; Ok (k + zlen l', obj, na || non_ascii l)).
Proof.
  revert l l' obj k sp na.
  induction fuel as [|fuel IH]; intros l l' obj k sp na Hf Hl Hs Hu Hd.
  { destruct l; [|simpl in Hf; lia]. injection Hu as <-. rewrite wrs_opt_nil. simpl.
    by rewrite zlen_nil, Z.add_0_r, orb_false_r. }
  destruct l as [|c0 l0].
  { injection Hu as <-. rewrite wrs_opt_nil. simpl.
    by rewrite zlen_nil, Z.add_0_r, orb_false_r. }
  apply bytes_at_tail in Hs as [Hr Hs]. simpl in Hu, Hf |- *.
  apply Forall_cons in Hl as [H0 Hl]. rewrite zlen_cons. pose proof (zlen_nonneg l0).
  destruct (Z.leb_spec (1 + zlen l0) 0); [lia|]. rewrite Hr. cbn [mbind res_bind].
  rewrite byte_high by done. destruct (Z.ltb_spec c0 128).
  - destruct (u2l l0) as [l1|] eqn:E1; simpl in Hu; [|done]. injection Hu as <-.
    destruct (Z.geb_spec k destlen); [zl|].
    destruct (Z.leb_spec 128 c0); [lia|]. simpl orb.
    rewrite <- st_opt_then. apply bind_ext. intros obj'.
    replace (1 + zlen l0 - 1) with (zlen l0) by lia. rewrite (IH l0 l1) by (done || lia || zl).
    replace (base + (k + 1)) with (base + k + 1) by lia.
    apply bind_ext. intros ?. rewrite zlen_cons. do 3 f_equal. lia.
  - destruct l0 as [|c1 l1]; [done|]. apply Forall_cons in Hl as [Hb1 Hl].
    apply bytes_at_tail in Hs as [Hr1 Hs].
    destruct (_ && _) eqn:E1; [|done]. apply andb_prop in E1 as [E1 E2].
    destruct (u2l l1) as [l2|] eqn:E3; simpl in Hu; [|done]. injection Hu as <-.
    destruct (Z.geb_spec k destlen); [zl|]. rewrite E1, zlen_cons.
    pose proof (zlen_nonneg l1). destruct (Z.gtb_spec (1 + (1 + zlen l1)) 1); [|lia].
    simpl andb. cbn iota. rewrite Hr1. cbn [mbind res_bind]. rewrite E2.
    rewrite <- st_opt_then. apply bind_ext. intros obj'.
    replace (1 + (1 + zlen l1) - 2) with (zlen l1) by lia.
    replace (sp + 2) with (sp + 1 + 1) by lia. simpl in Hf.
    rewrite (IH l1 l2) by (done || lia || zl).
    replace (base + (k + 1)) with (base + k + 1) by lia.
    apply bind_ext. intros ?. rewrite zlen_cons. destruct (Z.leb_spec 128 c0); [|lia].
    simpl. rewrite orb_true_r. do 3 f_equal. lia.
Qed.

Lemma utf8_to_latin1_spec l l' obj base src sp destlen enc :
  Forall byte l → bytes_at src sp l → u2l l = Some l' → zlen l' <= destlen →
  utf8_to_latin1 obj base src sp (zlen l) destlen enc =
  (obj ← wrs_opt obj base l';
   Ok (zlen l', obj, set_out enc (if non_ascii l then ERLANG_LATIN1 else ERLANG_ASCII))).
Proof.
  intros Hl Hs Hu Hd. unfold utf8_to_latin1.
  rewrite (utf8_to_latin1_loop_spec _ l l') by (done || unfold zlen; lia).
  rewrite Z.add_0_r, Z.add_0_l, bind_assoc.
  apply bind_ext. intros ?. cbn [mbind res_bind]. pose proof (zlen_nonneg l').
  by destruct (Z.eqb_spec (zlen l') (-1)); [lia|].
Qed.

(** Text with no latin-1 equivalent is refused. *)
Lemma utf8_to_latin1_loop_bad fuel l base k destlen src sp na :
  (length l <= fuel)%nat → Forall byte l → bytes_at src sp l → u2l l = None →
  ∃ na', utf8_to_latin1_loop fuel None base k destlen src sp (zlen l) na = Ok (-1, None, na').
Proof.
  revert l k sp na. induction fuel as [|fuel IH]; intros l k sp na Hf Hl Hs Hu.
  { destruct l; [done|simpl in Hf; lia]. }
  destruct l as [|c0 l0]; [done|].
  apply bytes_at_tail in Hs as [Hr Hs]. simpl in Hu, Hf |- *.
  apply Forall_cons in Hl as [H0 Hl]. rewrite zlen_cons. pose proof (zlen_nonneg l0).
  destruct (Z.leb_spec (1 + zlen l0) 0); [lia|]. destruct (_ >=? _); [by eexists|].
  rewrite Hr. cbn [mbind res_bind]. rewrite byte_high by done. destruct (c0 <? 128).
  - destruct (u2l l0) eqn:E1; [done|]. simpl.
    replace (1 + zlen l0 - 1) with (zlen l0) by lia. apply IH; (done || lia).
  - destruct (_ && _) eqn:E2; [|by eexists]. apply andb_prop in E2 as [E2 E3].
    destruct l0 as [|c1 l1]; [discriminate E2|]. apply Forall_cons in Hl as [Hb1 Hl].
    apply bytes_at_tail in Hs as [Hr1 Hs]. rewrite Hr1. cbn [mbind res_bind].
    rewrite E3 in Hu. destruct (Z.land c1 192 =? 128); [|by eexists]. simpl in Hu |- *.
    destruct (u2l l1) eqn:E1; [done|]. rewrite zlen_cons.
    replace (1 + (1 + zlen l1) - 2) with (zlen l1) by lia.
    replace (sp + 2) with (sp + 1 + 1) by lia. simpl in Hf. apply IH; (done || lia).
Qed.

(** * What the encoder writes *)

Definition fmt_atom_utf8 (small : bool) (l : bytes) : bytes :=
  if small then ERL_SMALL_ATOM_UTF8_EXT :: Z.land (zlen l) 255 :: l
  else ERL_ATOM_UTF8_EXT :: be16 (zlen l) ++ l.

Definition cont (c : Z) : bool := Z.land c 192 =? 128.

(** Well-formed UTF-8 of fewer than [MAXATOMLEN - k] characters. *)
Fixpoint utf8_ok (k : Z) (l : bytes) : bool :=
  match l with
  | [] => true
  | c :: l =>
      negb (k + 1 >=? MAXATOMLEN) &&
      if Z.land c 128 =? 0 then utf8_ok (k + 1) l
      else if Z.land c 224 =? 192 then
        match l with c1 :: l => cont c1 && utf8_ok (k + 1) l | _ => false end
      else if Z.land c 240 =? 224 then
        match l with
        | c1 :: c2 :: l => cont c1 && (cont c2 && utf8_ok (k + 1) l) | _ => false end
      else if Z.land c 248 =? 240 then
        match l with
        | c1 :: c2 :: c3 :: l => cont c1 && (cont c2 && (cont c3 && utf8_ok (k + 1) l))
        | _ => false end
      else false
  end.

(** The target encoding: [ERLANG_LATIN1|ERLANG_UTF8] lets the encoder choose. *)
Definition atom_to (l : bytes) (from_enc to_enc : Z) : Z :=
  if to_enc =? Z.lor ERLANG_LATIN1 ERLANG_UTF8 then
    if from_enc =? ERLANG_UTF8
    then if forallb (λ c, c <=? 195) l then ERLANG_LATIN1 else ERLANG_UTF8
    else from_enc
  else to_enc.

(** The external format of the atom whose text in encoding [from_enc] is [l];
    [None] where the atom has no such encoding. *)
Definition atom_fmt (l : bytes) (from_enc to_enc : Z) : option bytes :=
  let to_enc := atom_to l from_enc to_enc in
  if to_enc =? ERLANG_LATIN1 then
    text ← (if from_enc =? ERLANG_UTF8 then u2l l
            else if from_enc =? ERLANG_ASCII then if non_ascii l then None else Some l
            else if from_enc =? ERLANG_LATIN1 then Some l else None);
    if zlen text <? MAXATOMLEN then Some (fmt_atom_latin1 text) else None
  else if to_enc =? ERLANG_UTF8 then
    if from_enc =? ERLANG_LATIN1 then
      if zlen l <? MAXATOMLEN then Some (fmt_atom_utf8 (zlen l <? 128) (l2u l)) else None
    else if from_enc =? ERLANG_ASCII then
      if (zlen l <? MAXATOMLEN) && negb (non_ascii l) then Some (fmt_atom_utf8 true l) else None
    else if from_enc =? ERLANG_UTF8 then
      if utf8_ok 0 l then Some (fmt_atom_utf8 (zlen l <? 256) l) else None
    else None
  else None.

Lemma verify_ascii_spec l src sp :
  Forall byte l → bytes_at src sp l →
  verify_ascii_loop (length l) src sp = Ok (if non_ascii l then -1 else 0).
Proof.
  intros Hl. revert sp. induction Hl as [|c l Hc Hl IH]; intros sp Hs; [done|].
  apply bytes_at_tail in Hs as [Hr Hs]. simpl. rewrite Hr. cbn [mbind res_bind].
  rewrite byte_high by done.
  destruct (Z.ltb_spec c 128), (Z.leb_spec 128 c); try lia; simpl; [by apply IH|done].
Qed.

Lemma verify_ascii_atom_spec l src :
  Forall byte l → bytes_at src 0 l →
  verify_ascii_atom src (zlen l) = Ok (if non_ascii l then -1 else 0).
Proof.
  intros. unfold verify_ascii_atom, zlen. rewrite Nat2Z.id. by apply verify_ascii_spec.
Qed.

Lemma is_latin1_as_utf8_spec l src sp :
  bytes_at src sp l →
  is_latin1_as_utf8_loop (length l) src sp = Ok (c_bool (forallb (λ c, c <=? 195) l)).
Proof.
  revert sp. induction l as [|c l IH]; intros sp Hs; [done|].
  apply bytes_at_tail in Hs as [Hr Hs]. simpl. rewrite Hr. cbn [mbind res_bind].
  destruct (Z.gtb_spec c 195), (Z.leb_spec c 195); try lia; simpl; [done|by apply IH].
Qed.

Lemma continuation_1 c1 l src sp :
  bytes_at src sp (c1 :: l) → continuation_bytes 1 src sp = Ok (cont c1).
Proof.
  intros Hs. simpl. rewrite (rd_at _ _ _ _ Hs). cbn [mbind res_bind]. unfold cont.
  by destruct (_ =? _).
Qed.

Lemma continuation_S n c1 l src sp b :
  bytes_at src sp (c1 :: l) → continuation_bytes n src (sp + 1) = Ok b →
  continuation_bytes (S n) src sp = Ok (cont c1 && b).
Proof.
  intros Hs Hn. cbn [continuation_bytes]. rewrite (rd_at _ _ _ _ Hs). cbn [mbind res_bind].
  unfold cont. destruct (_ =? _); simpl; [done|done].
Qed.

(** The loop decides [utf8_ok]. *)
Lemma verify_utf8_loop_spec fuel k l src sp :
  (length l <= fuel)%nat → bytes_at src sp l →
  verify_utf8_loop fuel k src sp (zlen l) = Ok (if utf8_ok k l then 0 else -1).
Proof.
  revert k l sp. induction fuel as [|fuel IH]; intros k l sp Hf Hs.
  { destruct l; [done|simpl in Hf; lia]. }
  destruct l as [|c l]; [done|]. pose proof (bytes_at_tail _ _ _ _ Hs) as [Hr H1].
  rewrite zlen_cons. pose proof (zlen_nonneg l). cbn [verify_utf8_loop utf8_ok] in *.
  destruct (Z.leb_spec (1 + zlen l) 0); [lia|]. simpl in Hf.
  destruct (k + 1 >=? MAXATOMLEN); [done|]. rewrite Hr. cbn [mbind res_bind negb andb].
  destruct (Z.land c 128 =? 0); cbn [negb].
  { replace (1 + zlen l - 1) with (zlen l) by lia. apply IH; [lia|done]. }
  destruct (Z.land c 224 =? 192).
  { destruct l as [|c1 l]; [done|]. pose proof (bytes_at_cons _ _ _ _ H1) as H2.
    rewrite zlen_cons. pose proof (zlen_nonneg l). destruct (Z.ltb_spec (1 + (1 + zlen l)) 2); [lia|].
    rewrite (continuation_1 c1 l) by done. cbn [mbind res_bind].
    destruct (cont c1); [|done]. simpl negb. simpl andb. cbn iota.
    replace (1 + (1 + zlen l) - 2) with (zlen l) by lia. simpl in Hf.
    replace (sp + 2) with (sp + 1 + 1) by lia. apply IH; [lia|done]. }
  destruct (Z.land c 240 =? 224).
  { destruct l as [|c1 [|c2 l]]; [done|done|].
    pose proof (bytes_at_cons _ _ _ _ H1) as H2. pose proof (bytes_at_cons _ _ _ _ H2) as H3.
    rewrite !zlen_cons. pose proof (zlen_nonneg l).
    destruct (Z.ltb_spec (1 + (1 + (1 + zlen l))) 3); [lia|].
    rewrite (continuation_S 1 c1 (c2 :: l) _ _ (cont c2)) by (done || by eapply continuation_1).
    cbn [mbind res_bind]. destruct (cont c1), (cont c2); try done. simpl negb. simpl andb. cbn iota.
    replace (1 + (1 + (1 + zlen l)) - 3) with (zlen l) by lia. simpl in Hf.
    replace (sp + 3) with (sp + 1 + 1 + 1) by lia. apply IH; [lia|done]. }
  destruct (Z.land c 248 =? 240); [|done].
  destruct l as [|c1 [|c2 [|c3 l]]]; [done|done|done|].
  pose proof (bytes_at_cons _ _ _ _ H1) as H2. pose proof (bytes_at_cons _ _ _ _ H2) as H3.
  pose proof (bytes_at_cons _ _ _ _ H3) as H4. rewrite !zlen_cons. pose proof (zlen_nonneg l).
  destruct (Z.ltb_spec (1 + (1 + (1 + (1 + zlen l)))) 4); [lia|].
  rewrite (continuation_S 2 c1 (c2 :: c3 :: l) _ _ (cont c2 && cont c3))
    by (done || by eapply continuation_S; [|by eapply continuation_1]).
  cbn [mbind res_bind]. destruct (cont c1), (cont c2), (cont c3); try done.
  simpl negb. simpl andb. cbn iota.
  replace (1 + (1 + (1 + (1 + zlen l))) - 4) with (zlen l) by lia. simpl in Hf.
  replace (sp + 4) with (sp + 1 + 1 + 1 + 1) by lia. apply IH; [lia|done].
Qed.

(** The text is stored before the header that precedes it. *)
Lemma latin1_stores {A} b i text (k : bytes → res A) :
  ('(b1, s) ← put8 b i ERL_ATOM_EXT; '(b2, _) ← wrs b1 (s + 2) text;
   '(b3, _) ← put16be b2 s (zlen text); k b3) =
  ('(b', _) ← wrs b i (fmt_atom_latin1 text); k b').
Proof.
  rewrite put8_wrs. rewrite (wrs_ptr b i [_] (λ b1 s, '(b2, _) ← wrs b1 (s + 2) text;
    '(b3, _) ← put16be b2 s (zlen text); k b3)).
  unfold fmt_atom_latin1.
  change (ERL_ATOM_EXT :: ?x) with ([Z.land ERL_ATOM_EXT 255] ++ x). rewrite wrs_cut.
  apply bind_pair_ext. intros b1 _.
  rewrite <- (wrs_swap_bind b1 _ (be16 (zlen text)) text k) by done.
  apply bind_pair_ext. intros b2 _. by rewrite put16be_wrs.
Qed.

Lemma utf8_stores {A} (b : bytes) i (small : bool) text (k : bytes → res A) :
  ('(b1, _) ← wrs b (i + if small then 2 else 3) text;
   if small then
     '(b2, s) ← put8 b1 i ERL_SMALL_ATOM_UTF8_EXT; '(b3, _) ← put8 b2 s (zlen text); k b3
   else
     '(b2, s) ← put8 b1 i ERL_ATOM_UTF8_EXT; '(b3, _) ← put16be b2 s (zlen text); k b3) =
  ('(b', _) ← wrs b i (fmt_atom_utf8 small text); k b').
Proof.
  unfold fmt_atom_utf8. destruct small.
  - etransitivity;
      [|by apply (wrs_swap_bind b i [ERL_SMALL_ATOM_UTF8_EXT; Z.land (zlen text) 255] text k)].
    apply bind_pair_ext. intros b1 _. rewrite put8_wrs. etransitivity.
    { apply wrs_then. intros. rewrite put8_wrs. reflexivity. }
    done.
  - etransitivity;
      [|by apply (wrs_swap_bind b i (ERL_ATOM_UTF8_EXT :: be16 (zlen text)) text k)].
    apply bind_pair_ext. intros b1 _. rewrite put8_wrs. etransitivity.
    { apply wrs_then. intros. rewrite put16be_wrs. reflexivity. }
    done.
Qed.

Lemma copy_in_spec b pos p l :
  bytes_at p 0 l → copy_in b pos p (zlen l) = ('(b', _) ← wrs b pos l; Ok b').
Proof. intros H. unfold copy_in. by rewrite rds_src_bind. Qed.

Lemma bind_res_assoc2 {A B C} (m : res (bytes * A)) (f : bytes → res B) (g : B → res C) :
  (('(b, _) ← m; f b) ≫= g) = ('(b, _) ← m; f b ≫= g).
Proof. destruct m as [[]| |]; done. Qed.

Section encode_atom.
Context (p l : bytes).
Hypothesis Hp : bytes_at p 0 l.
Hypothesis Hl : Forall byte l.

Lemma encode_atom_latin1_write b i from_enc text :
  (if from_enc =? ERLANG_UTF8 then u2l l
   else if from_enc =? ERLANG_ASCII then if non_ascii l then None else Some l
   else if from_enc =? ERLANG_LATIN1 then Some l else None) = Some text →
  zlen text < MAXATOMLEN →
  encode_atom_latin1 (Some b) i p (zlen l) from_enc =
  ('(b', _) ← wrs b i (fmt_atom_latin1 text); Ok (Some b', Some (i + 3, zlen text))).
Proof.
  intros Ht Hlen. rewrite <- latin1_stores. unfold encode_atom_latin1.
  rewrite !put8_wrs. cbn [wrs]. rewrite !bind_assoc. apply bind_ext. intros b1.
  rewrite !bind_Ok. pose proof (zlen_nonneg text).
  assert (∀ m, m = ('(b2, _) ← wrs b1 (i + 1 + 2) text; Ok (Some b2, Some (zlen text))) →
    ('(buf, len) ← m; match len, buf with
      | Some len, Some b => '(b, s) ← put16be b (i + 1) len; Ok (Some b, Some (s, len))
      | _, _ => Ok (buf, None) end) =
    ('(b2, _) ← wrs b1 (i + 1 + 2) text; '(b3, _) ← put16be b2 (i + 1) (zlen text);
      Ok (Some b3, Some (i + 3, zlen text)))) as K.
  { intros m ->. rewrite bind_assoc. apply bind_ext. intros [b2 ?]. rewrite bind_Ok.
    rewrite put16be_wrs. etransitivity; [apply wrs_ptr|].
    apply bind_pair_ext. intros b3 _. rewrite zlen_be16. do 4 f_equal. lia. }
  apply K. clear K. unfold MAXATOMLEN in Hlen.
  destruct (from_enc =? ERLANG_UTF8).
  { rewrite (utf8_to_latin1_spec l text) by (done || unfold MAXATOMLEN; lia).
    simpl wrs_opt. rewrite !bind_assoc. apply bind_ext. intros [b2 ?]. rewrite !bind_Ok.
    by destruct (Z.ltb_spec (zlen text) 0); [lia|]. }
  destruct (from_enc =? ERLANG_ASCII).
  { destruct (non_ascii l) eqn:E; [done|]. injection Ht as <-.
    rewrite verify_ascii_atom_spec, E by done.
    cbn [mbind res_bind]. change (0 <? 0) with false. cbn iota.
    rewrite copy_in_spec by done. by rewrite bind_res_assoc2. }
  destruct (from_enc =? ERLANG_LATIN1); [|done]. injection Ht as <-.
  rewrite copy_in_spec by done. by rewrite bind_res_assoc2.
Qed.

Lemma encode_atom_latin1_size i from_enc text :
  (if from_enc =? ERLANG_UTF8 then u2l l
   else if from_enc =? ERLANG_ASCII then if non_ascii l then None else Some l
   else if from_enc =? ERLANG_LATIN1 then Some l else None) = Some text →
  zlen text < MAXATOMLEN →
  encode_atom_latin1 None i p (zlen l) from_enc = Ok (None, Some (i + 3, zlen text)).
Proof.
  intros Ht Hlen. unfold encode_atom_latin1. pose proof (zlen_nonneg text).
  unfold MAXATOMLEN in Hlen. destruct (from_enc =? ERLANG_UTF8).
  { rewrite (utf8_to_latin1_spec l text) by (done || unfold MAXATOMLEN; lia).
    simpl wrs_opt. rewrite !bind_Ok. by destruct (Z.ltb_spec (zlen text) 0); [lia|]. }
  destruct (from_enc =? ERLANG_ASCII).
  { destruct (non_ascii l) eqn:E; [done|]. injection Ht as <-.
    by rewrite verify_ascii_atom_spec, E by done. }
  destruct (from_enc =? ERLANG_LATIN1); [|done]. by injection Ht as <-.
Qed.

(** The text and the offset [offs] the UTF-8 branch works with. *)
Definition utf8_text (from_enc : Z) : option (bool * bytes) :=
  if from_enc =? ERLANG_LATIN1 then
    if zlen l <? MAXATOMLEN then Some (zlen l <? 128, l2u l) else None
  else if from_enc =? ERLANG_ASCII then
    if (zlen l <? MAXATOMLEN) && negb (non_ascii l) then Some (true, l) else None
  else if from_enc =? ERLANG_UTF8 then
    if utf8_ok 0 l then Some (zlen l <? 256, l) else None
  else None.

Lemma encode_atom_utf8_spec buf i from_enc small text :
  utf8_text from_enc = Some (small, text) →
  encode_atom_utf8 buf i p (zlen l) from_enc =
  match buf with
  | Some b => '(b', _) ← wrs b i (fmt_atom_utf8 small text);
              Ok (Some b', Some (i + (if small then 2 else 3), zlen text))
  | None => Ok (None, Some (i + (if small then 2 else 3), zlen text))
  end.
Proof.
  intros Ht. unfold encode_atom_utf8.
  assert (∀ m, m = (buf ← wrs_opt buf (i + if small then 2 else 3) text;
                    Ok (buf, Some (if small then 2 else 3, zlen text))) →
    ('(buf, r) ← m; match r with
     | None => Ok (buf, None)
     | Some (offs, len) => match buf with
       | Some b => if offs =? 2 then
            '(b, s) ← put8 b i ERL_SMALL_ATOM_UTF8_EXT; '(b, s) ← put8 b s len; Ok (Some b, Some (s, len))
          else '(b, s) ← put8 b i ERL_ATOM_UTF8_EXT; '(b, s) ← put16be b s len; Ok (Some b, Some (s, len))
       | None => Ok (None, Some (i + offs, len)) end end) =
    match buf with
    | Some b => '(b', _) ← wrs b i (fmt_atom_utf8 small text);
                Ok (Some b', Some (i + (if small then 2 else 3), zlen text))
    | None => Ok (None, Some (i + (if small then 2 else 3), zlen text))
    end) as K.
  { intros m ->. destruct buf as [b|]; [|done]. rewrite <- utf8_stores. simpl wrs_opt.
    rewrite !bind_assoc. apply bind_ext. intros [b1 ?]. rewrite !bind_Ok.
    destruct small; tag_simpl; rewrite !put8_wrs; cbn [wrs]; rewrite !bind_assoc;
      apply bind_ext; intros b2; rewrite !bind_Ok; rewrite ?put8_wrs, ?put16be_wrs; cbn [wrs be16];
      rewrite !bind_assoc; apply bind_ext; intros b3; rewrite ?bind_assoc, ?bind_Ok.
    - do 4 f_equal. lia.
    - rewrite ?bind_assoc. apply bind_ext. intros b4. rewrite ?bind_Ok. do 4 f_equal. lia. }
  apply K. clear K. unfold utf8_text in Ht.
  destruct (from_enc =? ERLANG_LATIN1).
  { destruct (Z.ltb_spec (zlen l) MAXATOMLEN) as [HM|]; [|done]. injection Ht as <- <-.
    pose proof (l2u_length l). change (256 / 2) with 128. unfold MAXATOMLEN in HM.
    rewrite latin1_to_utf8_spec by (done || unfold MAXATOMLEN_UTF8; lia).
    rewrite bind_assoc.
    destruct (Z.geb_spec (zlen l) 128), (Z.ltb_spec (zlen l) 128); try lia;
      apply bind_ext; intros; by rewrite bind_Ok. }
  destruct (from_enc =? ERLANG_ASCII).
  { destruct (_ && _) eqn:E; [|done]. injection Ht as <- <-. apply andb_prop in E as [_ E].
    rewrite verify_ascii_atom_spec by done.
    destruct (non_ascii l); [done|]. cbn [mbind res_bind]. change (0 <? 0) with false. cbn iota.
    destruct buf as [b|]; [|done]. simpl wrs_opt. rewrite copy_in_spec by done.
    destruct (wrs b _ l) as [[]| |]; done. }
  destruct (from_enc =? ERLANG_UTF8); [|done].
  destruct (utf8_ok 0 l) eqn:E; [|done]. injection Ht as <- <-.
  unfold verify_utf8_atom. rewrite verify_utf8_loop_spec, E by (done || unfold zlen; lia).
  cbn [mbind res_bind]. change (0 <? 0) with false. cbn iota.
  destruct (Z.geb_spec (zlen l) 256), (Z.ltb_spec (zlen l) 256); try lia;
    (destruct buf as [b|]; [|done]; simpl wrs_opt; rewrite copy_in_spec by done;
     destruct (wrs b _ l) as [[]| |]; done).
Qed.
End encode_atom.

Lemma is_latin1_as_utf8_atom_spec l src :
  bytes_at src 0 l →
  is_latin1_as_utf8 src (zlen l) = Ok (c_bool (forallb (λ c, c <=? 195) l)).
Proof.
  intros. unfold is_latin1_as_utf8, zlen. rewrite Nat2Z.id. by apply is_latin1_as_utf8_spec.
Qed.

Lemma zlen_fmt_latin1 text : zlen (fmt_atom_latin1 text) = 3 + zlen text.
Proof. unfold fmt_atom_latin1. zl. Qed.

Lemma zlen_fmt_utf8 (small : bool) text :
  zlen (fmt_atom_utf8 small text) = (if small then 2 else 3) + zlen text.
Proof. unfold fmt_atom_utf8. destruct small; zl. Qed.

(** The two formats behind [atom_fmt]. *)
Lemma atom_fmt_cases l from_enc to_enc bs :
  atom_fmt l from_enc to_enc = Some bs →
  (zlen l < MAXATOMLEN ∨ from_enc = ERLANG_UTF8) ∧
  ((atom_to l from_enc to_enc = ERLANG_LATIN1 ∧ ∃ text,
     (if from_enc =? ERLANG_UTF8 then u2l l
      else if from_enc =? ERLANG_ASCII then if non_ascii l then None else Some l
      else if from_enc =? ERLANG_LATIN1 then Some l else None) = Some text ∧
     zlen text < MAXATOMLEN ∧ bs = fmt_atom_latin1 text) ∨
   (atom_to l from_enc to_enc = ERLANG_UTF8 ∧ ∃ small text,
     utf8_text l from_enc = Some (small, text) ∧ bs = fmt_atom_utf8 small text)).
Proof.
  unfold atom_fmt, utf8_text. destruct (Z.eqb_spec (atom_to l from_enc to_enc) ERLANG_LATIN1).
  - destruct (if from_enc =? ERLANG_UTF8 then _ else _) as [text|] eqn:E; [|done].
    cbn [mbind option_bind]. destruct (Z.ltb_spec (zlen text) MAXATOMLEN); [|done].
    intros [= <-]. split; [|left; eauto 6].
    destruct (Z.eqb_spec from_enc ERLANG_UTF8); [by right|left].
    destruct (from_enc =? ERLANG_ASCII); [destruct (non_ascii l); [done|]|
      destruct (from_enc =? ERLANG_LATIN1); [|done]]; by injection E as ->.
  - destruct (Z.eqb_spec (atom_to l from_enc to_enc) ERLANG_UTF8); [|done].
    destruct (from_enc =? ERLANG_LATIN1).
    { destruct (Z.ltb_spec (zlen l) MAXATOMLEN); [|done]. intros [= <-]. eauto 10. }
    destruct (from_enc =? ERLANG_ASCII).
    { destruct (Z.ltb_spec (zlen l) MAXATOMLEN); [|done].
      destruct (non_ascii l); [done|]. intros [= <-]. eauto 10. }
    destruct (Z.eqb_spec from_enc ERLANG_UTF8); [|done].
    destruct (utf8_ok 0 l); [|done]. intros [= <-]. eauto 10.
Qed.

#[export] Instance ei_encode_atom_len_as_enc p l from_enc to_enc bs :
  bytes_at p 0 l → Forall byte l → atom_fmt l from_enc to_enc = Some bs →
  Encodes (λ b i, ei_encode_atom_len_as b i p (zlen l) from_enc to_enc) bs.
Proof.
  intros Hp Hl Hfmt. apply atom_fmt_cases in Hfmt as [Hlen Hfmt].
  assert (((zlen l >=? MAXATOMLEN) &&
    negb (Z.land from_enc (Z.lor ERLANG_LATIN1 ERLANG_ASCII) =? 0)) = false) as Hg.
  { destruct Hlen as [Hlen| ->]; [|by rewrite andb_false_r].
    by destruct (Z.geb_spec (zlen l) MAXATOMLEN); [lia|]. }
  assert (∀ (k : Z → res (Z * option bytes * Z)),
    (to_enc ← (if to_enc =? Z.lor ERLANG_LATIN1 ERLANG_UTF8 then
                if from_enc =? ERLANG_UTF8 then
                  r ← is_latin1_as_utf8 p (zlen l);
                  Ok (if negb (r =? 0) then ERLANG_LATIN1 else ERLANG_UTF8)
                else Ok from_enc
              else Ok to_enc); k to_enc) = k (atom_to l from_enc to_enc)) as Hto.
  { intros k. unfold atom_to. destruct (_ =? Z.lor _ _); [|done].
    destruct (_ =? ERLANG_UTF8); [|done]. rewrite is_latin1_as_utf8_atom_spec by done.
    by destruct (forallb _ _). }
  unfold ei_encode_atom_len_as. rewrite Hg.
  destruct Hfmt as [(Ht & text & Htext & HM & ->)|(Ht & small & text & Htext & ->)].
  - pose proof (zlen_nonneg text). split; intros; rewrite Hto, Ht; tag_simpl; rewrite zlen_fmt_latin1 in *.
    + rewrite (encode_atom_latin1_size p l Hp Hl i from_enc text), bind_Ok by done.
      rewrite enc_ret_small by lia. do 2 f_equal. lia.
    + rewrite (encode_atom_latin1_write p l Hp Hl b i from_enc text) by done.
      rewrite bind_res_assoc2. apply bind_pair_ext. intros b' _. rewrite bind_Ok.
      rewrite enc_ret_small by lia. do 2 f_equal. lia.
  - pose proof (zlen_nonneg text).
    split; intros; rewrite Hto, Ht; tag_simpl; rewrite zlen_fmt_utf8 in *;
      rewrite (encode_atom_utf8_spec p l Hp Hl _ i from_enc small text) by done.
    + rewrite bind_Ok, enc_ret_small by (destruct small; lia). do 2 f_equal. lia.
    + rewrite bind_res_assoc2. apply bind_pair_ext. intros b' _. rewrite bind_Ok.
      rewrite enc_ret_small by (destruct small; lia). do 2 f_equal. lia.
Qed.

(** * What the decoder reads *)

(** The four atom formats of the external term format. *)
Definition fmt_atom (got_enc : Z) (small : bool) (text : bytes) : bytes :=
  (if got_enc =? ERLANG_LATIN1
   then if small then ERL_SMALL_ATOM_EXT else ERL_ATOM_EXT
   else if small then ERL_SMALL_ATOM_UTF8_EXT else ERL_ATOM_UTF8_EXT) ::
  (if small then [Z.land (zlen text) 255] else be16 (zlen text)) ++ text.

Lemma fmt_atom_latin1_eq text : fmt_atom_latin1 text = fmt_atom ERLANG_LATIN1 false text.
Proof. reflexivity. Qed.

Lemma fmt_atom_utf8_eq small text : fmt_atom_utf8 small text = fmt_atom ERLANG_UTF8 small text.
Proof. by destruct small. Qed.

Definition atom_len_ok (small : bool) (text : bytes) : Prop :=
  zlen text < if small then 256 else 65536.

(** The text as the caller wants it: unchanged when the encoding found is one of
    the wanted ones, otherwise converted. *)
Definition atom_view (got_enc want_enc : Z) (text : bytes) : option bytes :=
  if negb (Z.land want_enc got_enc =? 0) then Some text
  else if want_enc =? ERLANG_ASCII then if non_ascii text then None else Some text
  else if got_enc =? ERLANG_LATIN1 then Some (l2u text) else u2l text.

(** The encoding reported in [*res_encp]. *)
Definition atom_res_enc (got_enc want_enc : Z) (text : bytes) : Z :=
  if non_ascii text then
    if negb (Z.land want_enc got_enc =? 0) || (want_enc =? ERLANG_ASCII) then got_enc
    else if got_enc =? ERLANG_LATIN1 then ERLANG_UTF8 else ERLANG_LATIN1
  else ERLANG_ASCII.

Lemma wrs_opt_app {A} obj s l1 l2 (k : option bytes → res A) :
  (obj' ← wrs_opt obj s l1; obj'' ← wrs_opt obj' (s + zlen l1) l2; k obj'') =
  (obj'' ← wrs_opt obj s (l1 ++ l2); k obj'').
Proof.
  destruct obj as [b|]; [|done]. simpl wrs_opt. rewrite !bind_res_assoc2, wrs_cut.
  apply bind_pair_ext. intros b' _. rewrite bind_Ok. simpl wrs_opt. by rewrite bind_res_assoc2.
Qed.

Lemma wrs_opt_snoc {A} obj l x (k : option bytes → res A) :
  (obj' ← wrs_opt obj 0 l; obj'' ← st_opt obj' (zlen l) x; k obj'') =
  (obj'' ← wrs_opt obj 0 (l ++ [x]); k obj'').
Proof.
  rewrite <- wrs_opt_app, Z.add_0_l. apply bind_ext. intros obj'.
  destruct obj'; simpl; [|done]. rewrite !bind_assoc. by apply bind_ext.
Qed.

Lemma atom_copy_loop_spec l i p buf s na :
  Forall byte l → bytes_at buf (s + i) l →
  atom_copy_loop (length l) i p buf s na =
  (p ← wrs_opt p i l; Ok (p, na || non_ascii l)).
Proof.
  intros Hl. revert i p na. induction Hl as [|c l Hc Hl IH]; intros i p na Hs.
  { rewrite wrs_opt_nil. simpl. by rewrite orb_false_r. }
  apply bytes_at_tail in Hs as [Hr Hs]. cbn [length atom_copy_loop]. rewrite Hr, bind_Ok.
  rewrite <- st_opt_then. apply bind_ext. intros p'.
  rewrite IH by by rewrite Z.add_assoc. apply bind_ext. intros p''. do 2 f_equal.
  rewrite <- orb_assoc, non_ascii_cons, byte_high by done. do 2 f_equal.
  by destruct (Z.ltb_spec c 128), (Z.leb_spec 128 c); lia.
Qed.

Lemma get_atom_len_at buf s small text :
  atom_len_ok small text →
  bytes_at buf s ((if small : bool then [Z.land (zlen text) 255] else be16 (zlen text)) ++ text) →
  (if small then get8 buf s else get16be buf s) =
    Ok (zlen text, s + (if small then 1 else 2)) ∧
  bytes_at buf (s + (if small then 1 else 2)) text.
Proof.
  unfold atom_len_ok. intros Hlen H. pose proof (zlen_nonneg text). split.
  - destruct small.
    + rewrite (get8_at_land _ _ _ _ H), land_255, Z.mod_small by lia. done.
    + rewrite (get16be_at _ _ _ _ H), Z.mod_small by lia. done.
  - apply bytes_at_app in H as [_ H]. by destruct small.
Qed.

Lemma zlen_fmt_atom got small text :
  zlen (fmt_atom got small text) = 1 + (if small then 1 else 2) + zlen text.
Proof. unfold fmt_atom. destruct small; zl. Qed.

Section decode_atom.
Context (buf : bytes) (i : Z) (got_enc : Z) (small : bool) (text : bytes).
Hypothesis Hgot : got_enc = ERLANG_LATIN1 ∨ got_enc = ERLANG_UTF8.
Hypothesis Hlen : atom_len_ok small text.
Hypothesis Htext : Forall byte text.
Hypothesis Hbuf : bytes_at buf i (fmt_atom got_enc small text).
Hypothesis Hmax : zlen buf <= INT_MAX.

(** The header is read on every path. *)
Lemma decode_atom_header {A} (k : option (Z * Z) → Z → res A) :
  ('(tag, s) ← get8 buf i;
   '(r, s) ← (if tag =? ERL_ATOM_EXT then
       '(len, s) ← get16be buf s; Ok (Some (len, ERLANG_LATIN1), s)
     else if tag =? ERL_SMALL_ATOM_EXT then
       '(len, s) ← get8 buf s; Ok (Some (len, ERLANG_LATIN1), s)
     else if tag =? ERL_ATOM_UTF8_EXT then
       '(len, s) ← get16be buf s; Ok (Some (len, ERLANG_UTF8), s)
     else if tag =? ERL_SMALL_ATOM_UTF8_EXT then
       '(len, s) ← get8 buf s; Ok (Some (len, ERLANG_UTF8), s)
     else Ok (None, s)); k r s) =
  k (Some (zlen text, got_enc)) (i + 1 + (if small then 1 else 2)).
Proof.
  pose proof Hbuf as H. unfold fmt_atom in H.
  pose proof (get_atom_len_at _ _ _ _ Hlen (bytes_at_cons _ _ _ _ H)) as [HL _].
  destruct Hgot as [-> | ->], small; revert H; tag_simpl; intros H; get_tag H;
    rewrite HL; done.
Qed.

Lemma decode_atom_text : bytes_at buf (i + 1 + (if small then 1 else 2)) text.
Proof. by apply get_atom_len_at; [|by eapply bytes_at_cons]. Qed.

Lemma decode_atom_end {A} (out : A) :
  dec_ret out i (i + 1 + (if small then 1 else 2) + zlen text) =
  Ok (0, out, i + zlen (fmt_atom got_enc small text)).
Proof.
  pose proof (bytes_at_nonneg _ _ _ Hbuf). pose proof (bytes_at_bound _ _ _ Hbuf).
  rewrite zlen_fmt_atom in *. pose proof (zlen_nonneg text).
  rewrite dec_ret_small by (destruct small; lia). do 2 f_equal. lia.
Qed.

(** Decoding delivers the text in the wanted encoding, NUL terminated. *)
Lemma ei_decode_atom_as_fmt p destlen want_enc was res v :
  atom_view got_enc want_enc text = Some v → zlen v < destlen →
  ei_decode_atom_as buf i p destlen want_enc was res =
  (p ← wrs_opt p 0 (v ++ [0]);
   Ok (0, (p, set_out was got_enc, set_out res (atom_res_enc got_enc want_enc text)),
       i + zlen (fmt_atom got_enc small text))).
Proof.
  intros Hv Hd. unfold ei_decode_atom_as. rewrite decode_atom_header.
  pose proof decode_atom_text as Hs. unfold atom_view, atom_res_enc in *.
  pose proof (zlen_nonneg v).
  destruct (negb _ || _) eqn:E.
  - assert (v = text ∧ (want_enc =? ERLANG_ASCII) && non_ascii text = false) as [-> Hw].
    { destruct (Z.eqb_spec want_enc ERLANG_ASCII) as [->|].
      - destruct Hgot as [-> | ->]; revert Hv; tag_simpl; (destruct (non_ascii text); [done|]); by intros [= ->].
      - rewrite orb_false_r in E. rewrite E in Hv. by injection Hv as ->. }
    destruct (Z.geb_spec (zlen text) destlen); [lia|].
    rewrite to_nat_zlen, atom_copy_loop_spec by (done || by rewrite Z.add_0_r).
    rewrite bind_assoc, <- wrs_opt_snoc. apply bind_ext. intros p'. rewrite bind_Ok. simpl orb.
    apply bind_ext. intros p''. rewrite Hw, decode_atom_end.
    by destruct (non_ascii text).
  - apply orb_false_iff in E as [E1 E2]. rewrite E1, E2 in Hv.
    assert ((if got_enc =? ERLANG_LATIN1
             then latin1_to_utf8 p 0 buf (i + 1 + (if small then 1 else 2)) (zlen text) (destlen - 1) res
             else utf8_to_latin1 p 0 buf (i + 1 + (if small then 1 else 2)) (zlen text) (destlen - 1) res) =
      (p ← wrs_opt p 0 v; Ok (zlen v, p, set_out res (if non_ascii text then
        if got_enc =? ERLANG_LATIN1 then ERLANG_UTF8 else ERLANG_LATIN1 else ERLANG_ASCII)))) as ->.
    { destruct (got_enc =? ERLANG_LATIN1).
      - injection Hv as <-. by apply latin1_to_utf8_spec; [| |lia].
      - by apply utf8_to_latin1_spec; [| | |lia]. }
    rewrite bind_assoc, <- wrs_opt_snoc. apply bind_ext. intros p'. rewrite bind_Ok.
    destruct (Z.ltb_spec (zlen v) 0); [lia|]. apply bind_ext. intros p''.
    apply decode_atom_end.
Qed.
End decode_atom.
