(* ===== verification/EiTerm.v ===== *)
(** Pids, ports, references, funs and trace tokens of [ei], and the traversal of
    arbitrary external terms: src/encode/encode_{pid,port,ref,fun,trace}.c,
    src/decode/decode_{pid,port,ref,fun,trace,skip}.c, src/misc/get_type.c and
    src/misc/ei_decode_term.c.

    The code that decodes a fun works on the pointer [s] with an index [ix] that
    starts at 0; the model keeps the absolute offset [s + ix] in the buffer. *)
From S2P Require Import Prelude EiBase EiEncode EiDecode EiAtom.

(** [ERLANG_LATIN1|ERLANG_UTF8] *)
Definition LATIN1_OR_UTF8 : Z := Z.lor ERLANG_LATIN1 ERLANG_UTF8.

(** * Encoders *)

(** [put8] for the 2-bit creation of the old formats, [put32be] for the new. *)
Definition put_creation (old : bool) (b : bytes) (s creation : Z) : res (bytes * Z) :=
  if old then put8 b s (Z.land creation 3) else put32be b s creation.

Definition ei_encode_pid (buf : option bytes) (index : Z) (p : erlang_pid)
    : res (Z * option bytes * Z) :=
  let s := index in
  let tag := if pid_creation p >? 3 then ERL_NEW_PID_EXT else ERL_PID_EXT in
  let old := tag =? ERL_PID_EXT in
  len ← strlen (pid_node p);
  '(rc, buf, index) ← ei_encode_atom_len_as buf (index + 1) (pid_node p) (to_int len)
                        ERLANG_UTF8 LATIN1_OR_UTF8;
  if rc <? 0 then Ok (-1, buf, index)
  else
    buf ← match buf with
          | Some b =>
              '(b, _) ← put8 b s tag;
              '(b, s) ← put32be b index (Z.land (pid_num p) 32767);
              '(b, s) ← put32be b s (Z.land (pid_serial p) 8191);
              '(b, _) ← put_creation old b s (pid_creation p);
              Ok (Some b)
          | None => Ok None
          end;
    Ok (0, buf, to_int (index + (4 + 4 + (if old then 1 else 4)))).

Definition ei_encode_port (buf : option bytes) (index : Z) (p : erlang_port)
    : res (Z * option bytes * Z) :=
  let s := index in
  let tag := if port_creation p >? 3 then ERL_NEW_PORT_EXT else ERL_PORT_EXT in
  let old := tag =? ERL_PORT_EXT in
  len ← strlen (port_node p);
  '(rc, buf, index) ← ei_encode_atom_len_as buf (index + 1) (port_node p) (to_int len)
                        ERLANG_UTF8 LATIN1_OR_UTF8;
  if rc <? 0 then Ok (-1, buf, index)
  else
    buf ← match buf with
          | Some b =>
              '(b, _) ← put8 b s tag;
              '(b, s) ← put32be b index (Z.land (port_id p) 268435455);
              '(b, _) ← put_creation old b s (port_creation p);
              Ok (Some b)
          | None => Ok None
          end;
    Ok (0, buf, to_int (index + (4 + (if old then 1 else 4)))).

(** [for (i = 0; i < p->len; i++) put32be(s, p->n[i]);] *)
Fixpoint ref_store_loop (k : nat) (i : Z) (b : bytes) (s : Z) (n : list Z) : res (bytes * Z) :=
  match k with
  | O => Ok (b, s)
  | S k =>
      x ← rd n i;
      '(b, s) ← put32be b s x;
      ref_store_loop k (i + 1) b s n
  end.

Definition ei_encode_ref (buf : option bytes) (index : Z) (p : erlang_ref)
    : res (Z * option bytes * Z) :=
  let s := index in
  let tag := if ref_creation p >? 3 then ERL_NEWER_REFERENCE_EXT else ERL_NEW_REFERENCE_EXT in
  let old := tag =? ERL_NEW_REFERENCE_EXT in
  len ← strlen (ref_node p);
  '(rc, buf, index) ← ei_encode_atom_len_as buf (index + (1 + 2)) (ref_node p) (to_int len)
                        ERLANG_UTF8 LATIN1_OR_UTF8;
  if rc <? 0 then Ok (-1, buf, index)
  else
    buf ← match buf with
          | Some b =>
              '(b, s) ← put8 b s tag;
              '(b, _) ← put16be b s (ref_len p);
              '(b, s) ← put_creation old b index (ref_creation p);
              '(b, _) ← ref_store_loop (Z.to_nat (ref_len p)) 0 b s (ref_n p);
              Ok (Some b)
          | None => Ok None
          end;
    Ok (0, buf, to_int (index + (ref_len p * 4 + (if old then 1 else 4)))).

(** [erlang_fun] of ei.h; [free_vars] is the block it points to, [[]] for NULL. *)
Record erlang_fun := mk_fun {
  fun_arity : Z; fun_module : bytes; fun_module_org_enc : Z; fun_md5 : bytes;
  fun_index : Z; fun_old_index : Z; fun_uniq : Z; fun_n_free_vars : Z;
  fun_pid : erlang_pid; fun_free_var_len : Z; fun_free_vars : bytes }.

(** [if (f(buf, &ix, ..) < 0) return -1;] inside an encoder that leaves
    [*index] alone until the end. *)
Definition enc_seq (m : res (Z * option bytes * Z)) (index : Z)
    (k : option bytes → Z → res (Z * option bytes * Z)) : res (Z * option bytes * Z) :=
  '(rc, buf, ix) ← m;
  if rc <? 0 then Ok (-1, buf, index) else k buf ix.

(** [if (buf != NULL) memcpy(buf + ix, p->free_vars, p->free_var_len)] *)
Definition copy_free_vars (buf : option bytes) (ix : Z) (p : erlang_fun) : res (option bytes) :=
  match buf with
  | Some b => b ← copy_in b ix (fun_free_vars p) (fun_free_var_len p); Ok (Some b)
  | None => Ok None
  end.

Definition ei_encode_fun (buf : option bytes) (index : Z) (p : erlang_fun)
    : res (Z * option bytes * Z) :=
  let ix := index in
  if fun_arity p =? -1 then
    buf ← match buf with
          | Some b =>
              '(b, s) ← put8 b ix ERL_FUN_EXT;
              '(b, _) ← put32be b s (fun_n_free_vars p);
              Ok (Some b)
          | None => Ok None
          end;
    enc_seq (ei_encode_pid buf (ix + (1 + 4)) (fun_pid p)) index (λ buf ix,
    enc_seq (ei_encode_atom_as buf ix (fun_module p) ERLANG_UTF8 (fun_module_org_enc p)) index (λ buf ix,
    enc_seq (ei_encode_long buf ix (fun_index p)) index (λ buf ix,
    enc_seq (ei_encode_long buf ix (fun_uniq p)) index (λ buf ix,
      buf ← copy_free_vars buf ix p;
      Ok (0, buf, to_int (ix + fun_free_var_len p))))))
  else
    '(buf, size_p) ← match buf with
          | Some b =>
              '(b, s) ← put8 b ix ERL_NEW_FUN_EXT;
              let size_p := s in
              '(b, s) ← put8 b (s + 4) (fun_arity p);
              b ← copy_in b s (fun_md5 p) 16;
              '(b, s) ← put32be b (s + 16) (fun_index p);
              '(b, _) ← put32be b s (fun_n_free_vars p);
              Ok (Some b, Some size_p)
          | None => Ok (None, None)
          end;
    enc_seq (ei_encode_atom_as buf (ix + (1 + 4 + 1 + 16 + 4 + 4)) (fun_module p)
               ERLANG_UTF8 (fun_module_org_enc p)) index (λ buf ix,
    enc_seq (ei_encode_long buf ix (fun_old_index p)) index (λ buf ix,
    enc_seq (ei_encode_long buf ix (fun_uniq p)) index (λ buf ix,
    enc_seq (ei_encode_pid buf ix (fun_pid p)) index (λ buf ix,
      buf ← copy_free_vars buf ix p;
      let ix := to_int (ix + fun_free_var_len p) in
      buf ← match size_p, buf with
            | Some size_p, Some b => '(b, _) ← put32be b size_p (to_int (ix - size_p)); Ok (Some b)
            | _, _ => Ok buf
            end;
      Ok (0, buf, ix))))).

(** [encode_trace.c]: the results of the calls are ignored. *)
Definition ei_encode_trace (buf : option bytes) (index : Z) (p : erlang_trace)
    : res (Z * option bytes * Z) :=
  '(_, buf, index) ← ei_encode_tuple_header buf index 5;
  '(_, buf, index) ← ei_encode_long buf index (tr_flags p);
  '(_, buf, index) ← ei_encode_long buf index (tr_label p);
  '(_, buf, index) ← ei_encode_long buf index (tr_serial p);
  '(_, buf, index) ← ei_encode_pid buf index (tr_from p);
  '(_, buf, index) ← ei_encode_long buf index (tr_prev p);
  Ok (0, buf, index).

(** * Decoders *)

(** [p ? p->node : NULL] *)
Definition node_of {A} (node : A → bytes) (p : option A) : option bytes := node <$> p.

Definition get_creation (old : bool) (buf : bytes) (s : Z) : res (Z * Z) :=
  if old then '(c, s) ← get8 buf s; Ok (Z.land c 3, s)
  else '(c, s) ← get32be buf s; Ok (wrap 32 c, s).

Definition ei_decode_pid (buf : bytes) (index : Z) (p : option erlang_pid)
    : res (Z * option erlang_pid * Z) :=
  '(tag, s) ← get8 buf index;
  let old := tag =? ERL_PID_EXT in
  if negb old && negb (tag =? ERL_NEW_PID_EXT) then Ok (-1, p, index)
  else match p with
  | Some q =>
      '(rc, (node, _), s) ← get_atom buf s (Some (pid_node q)) None;
      let node := default [] node in
      if rc <? 0 then Ok (-1, Some (mk_pid node (pid_num q) (pid_serial q) (pid_creation q)), index)
      else
        '(num, s) ← get32be buf s;
        '(serial, s) ← get32be buf s;
        '(creation, s) ← get_creation old buf s;
        dec_ret (Some (mk_pid node (Z.land num 32767) (Z.land serial 8191) creation)) index s
  | None =>
      '(rc, _, s) ← get_atom buf s None None;
      if rc <? 0 then Ok (-1, p, index)
      else dec_ret None index (s + if old then 9 else 12)
  end.

Definition ei_decode_port (buf : bytes) (index : Z) (p : option erlang_port)
    : res (Z * option erlang_port * Z) :=
  '(tag, s) ← get8 buf index;
  let old := tag =? ERL_PORT_EXT in
  if negb old && negb (tag =? ERL_NEW_PORT_EXT) then Ok (-1, p, index)
  else match p with
  | Some q =>
      '(rc, (node, _), s) ← get_atom buf s (Some (port_node q)) None;
      let node := default [] node in
      if rc <? 0 then Ok (-1, Some (mk_port node (port_id q) (port_creation q)), index)
      else
        '(id, s) ← get32be buf s;
        '(creation, s) ← get_creation old buf s;
        dec_ret (Some (mk_port node (Z.land id 268435455) creation)) index s
  | None =>
      '(rc, _, s) ← get_atom buf s None None;
      if rc <? 0 then Ok (-1, p, index)
      else dec_ret None index (s + if old then 5 else 8)
  end.

(** [for (i = 0; (i<count) && (i<3); i++) p->n[i] = get32be(s);] *)
Fixpoint ref_load_loop (k : nat) (i : Z) (buf : bytes) (s : Z) (n : list Z) : res (list Z * Z) :=
  match k with
  | O => Ok (n, s)
  | S k =>
      '(x, s) ← get32be buf s;
      n ← wr n i (wrap 32 x);
      ref_load_loop k (i + 1) buf s n
  end.

Definition ei_decode_ref (buf : bytes) (index : Z) (p : option erlang_ref)
    : res (Z * option erlang_ref * Z) :=
  '(tag, s) ← get8 buf index;
  if tag =? ERL_REFERENCE_EXT then
    match p with
    | Some q =>
        '(rc, (node, _), s) ← get_atom buf s (Some (ref_node q)) None;
        let node := default [] node in
        if rc <? 0 then Ok (-1, Some (mk_ref node (ref_len q) (ref_n q) (ref_creation q)), index)
        else
          '(x, s) ← get32be buf s;
          n ← wr (ref_n q) 0 (wrap 32 x);
          '(c, s) ← get8 buf s;
          dec_ret (Some (mk_ref node 1 n (Z.land c 3))) index s
    | None =>
        '(rc, _, s) ← get_atom buf s None None;
        if rc <? 0 then Ok (-1, p, index) else dec_ret None index (s + 5)
    end
  else if (tag =? ERL_NEW_REFERENCE_EXT) || (tag =? ERL_NEWER_REFERENCE_EXT) then
    let old := tag =? ERL_NEW_REFERENCE_EXT in
    '(count, s) ← get16be buf s;
    match p with
    | Some q =>
        '(rc, (node, _), s) ← get_atom buf s (Some (ref_node q)) None;
        let node := default [] node in
        if rc <? 0 then Ok (-1, Some (mk_ref node count (ref_n q) (ref_creation q)), index)
        else
          '(creation, s) ← get_creation old buf s;
          '(n, s) ← ref_load_loop (Z.to_nat (Z.min count 3)) 0 buf s (ref_n q);
          dec_ret (Some (mk_ref node count n creation)) index s
    | None =>
        '(rc, _, s) ← get_atom buf s None None;
        if rc <? 0 then Ok (-1, p, index)
        else dec_ret None index (s + (if old then 1 else 4) + 4 * count)
    end
  else Ok (-1, p, index).

Definition ei_decode_trace (buf : bytes) (index : Z) (p : option erlang_trace)
    : res (Z * option erlang_trace * Z) :=
  '(rc, arity, tindex) ← ei_decode_tuple_header buf index (Some 0);
  if negb (rc =? 0) || negb (default 0 arity =? 5) then Ok (-1, p, index)
  else
    '(rc, flags, tindex) ← ei_decode_long buf tindex (tr_flags <$> p);
    let p := (λ q, mk_trace (tr_serial q) (tr_prev q) (tr_from q) (tr_label q)
                     (default 0 flags)) <$> p in
    if negb (rc =? 0) then Ok (-1, p, index)
    else
    '(rc, label, tindex) ← ei_decode_long buf tindex (tr_label <$> p);
    let p := (λ q, mk_trace (tr_serial q) (tr_prev q) (tr_from q) (default 0 label)
                     (tr_flags q)) <$> p in
    if negb (rc =? 0) then Ok (-1, p, index)
    else
    '(rc, serial, tindex) ← ei_decode_long buf tindex (tr_serial <$> p);
    let p := (λ q, mk_trace (default 0 serial) (tr_prev q) (tr_from q) (tr_label q)
                     (tr_flags q)) <$> p in
    if negb (rc =? 0) then Ok (-1, p, index)
    else
    '(rc, from, tindex) ← ei_decode_pid buf tindex (tr_from <$> p);
    let p := (λ q, mk_trace (tr_serial q) (tr_prev q) (default (tr_from q) from) (tr_label q)
                     (tr_flags q)) <$> p in
    if negb (rc =? 0) then Ok (-1, p, index)
    else
    '(rc, prev, tindex) ← ei_decode_long buf tindex (tr_prev <$> p);
    let p := (λ q, mk_trace (tr_serial q) (default 0 prev) (tr_from q) (tr_label q)
                     (tr_flags q)) <$> p in
    if negb (rc =? 0) then Ok (-1, p, index)
    else Ok (0, p, tindex).

(** [ei_get_type_internal] (get_type.c): [len] is the old value of [*len]. *)
Definition ei_get_type_internal (buf : bytes) (index len : Z) : res (Z * (Z * Z)) :=
  '(type, s) ← get8 buf index;
  if (type =? ERL_SMALL_ATOM_EXT) || (type =? ERL_SMALL_ATOM_UTF8_EXT) then
    '(len, _) ← get8 buf s; Ok (0, (ERL_ATOM_EXT, len))
  else if type =? ERL_SMALL_TUPLE_EXT then
    '(len, _) ← get8 buf s; Ok (0, (type, len))
  else if type =? ERL_ATOM_UTF8_EXT then
    '(len, _) ← get16be buf s; Ok (0, (ERL_ATOM_EXT, len))
  else if (type =? ERL_ATOM_EXT) || (type =? ERL_STRING_EXT) then
    '(len, _) ← get16be buf s; Ok (0, (type, len))
  else if (type =? ERL_FLOAT_EXT) || (type =? NEW_FLOAT_EXT) then
    Ok (0, (ERL_FLOAT_EXT, len))
  else if (type =? ERL_LARGE_TUPLE_EXT) || (type =? ERL_LIST_EXT) || (type =? ERL_BINARY_EXT) then
    '(len, _) ← get32be buf s; Ok (0, (type, len))
  else if type =? ERL_SMALL_BIG_EXT then
    '(len, _) ← get8 buf s; Ok (0, (type, len))
  else if type =? ERL_LARGE_BIG_EXT then
    '(len, _) ← get32be buf s; Ok (0, (type, len))
  else if type =? ERL_NEW_PID_EXT then Ok (0, (ERL_PID_EXT, len))
  else if type =? ERL_NEW_PORT_EXT then Ok (0, (ERL_PORT_EXT, len))
  else if type =? ERL_NEWER_REFERENCE_EXT then Ok (0, (ERL_NEW_REFERENCE_EXT, len))
  else Ok (0, (type, 0)).

Definition ei_get_type := ei_get_type_internal.

(** [for (i = 0; i < n; ++i) skip(buf, index);], the results ignored. *)
Fixpoint skip_loop (skip : bytes → Z → res (Z * Z)) (n : nat) (buf : bytes) (index : Z) : res Z :=
  match n with
  | O => Ok index
  | S n => '(_, index) ← skip buf index; skip_loop skip n buf index
  end.

(** The loop over the free variables in [ei_decode_fun]: [None] for [return -1]. *)
Fixpoint free_vars_loop (skip : bytes → Z → res (Z * Z)) (n : nat) (buf : bytes) (ix : Z)
    : res (option Z) :=
  match n with
  | O => Ok (Some ix)
  | S n =>
      '(rc, ix) ← skip buf ix;
      if rc <? 0 then Ok None else free_vars_loop skip n buf ix
  end.

Section fun_decoder.
(** [ei_skip_term], which [ei_decode_fun] calls back. *)
Context (skip : bytes → Z → res (Z * Z)).
(** The allocator: does [malloc(n)] succeed? *)
Context (malloc_ok : Z → bool).

(** Updates of the fields of [*p], where [p] is not NULL. *)
Definition upd_fun {A} (f : erlang_fun → A → erlang_fun) (p : option erlang_fun) (v : option A)
    : option erlang_fun :=
  match p, v with Some q, Some v => Some (f q v) | _, _ => p end.

Definition set_arity q v := mk_fun v (fun_module q) (fun_module_org_enc q) (fun_md5 q)
  (fun_index q) (fun_old_index q) (fun_uniq q) (fun_n_free_vars q) (fun_pid q)
  (fun_free_var_len q) (fun_free_vars q).
Definition set_module q '(v, e) := mk_fun (fun_arity q) v e (fun_md5 q)
  (fun_index q) (fun_old_index q) (fun_uniq q) (fun_n_free_vars q) (fun_pid q)
  (fun_free_var_len q) (fun_free_vars q).
Definition set_md5 q v := mk_fun (fun_arity q) (fun_module q) (fun_module_org_enc q) v
  (fun_index q) (fun_old_index q) (fun_uniq q) (fun_n_free_vars q) (fun_pid q)
  (fun_free_var_len q) (fun_free_vars q).
Definition set_index q v := mk_fun (fun_arity q) (fun_module q) (fun_module_org_enc q) (fun_md5 q)
  v (fun_old_index q) (fun_uniq q) (fun_n_free_vars q) (fun_pid q)
  (fun_free_var_len q) (fun_free_vars q).
Definition set_old_index q v := mk_fun (fun_arity q) (fun_module q) (fun_module_org_enc q) (fun_md5 q)
  (fun_index q) v (fun_uniq q) (fun_n_free_vars q) (fun_pid q)
  (fun_free_var_len q) (fun_free_vars q).
Definition set_uniq q v := mk_fun (fun_arity q) (fun_module q) (fun_module_org_enc q) (fun_md5 q)
  (fun_index q) (fun_old_index q) v (fun_n_free_vars q) (fun_pid q)
  (fun_free_var_len q) (fun_free_vars q).
Definition set_n_free_vars q v := mk_fun (fun_arity q) (fun_module q) (fun_module_org_enc q)
  (fun_md5 q) (fun_index q) (fun_old_index q) (fun_uniq q) v (fun_pid q)
  (fun_free_var_len q) (fun_free_vars q).
Definition set_pid q v := mk_fun (fun_arity q) (fun_module q) (fun_module_org_enc q)
  (fun_md5 q) (fun_index q) (fun_old_index q) (fun_uniq q) (fun_n_free_vars q) v
  (fun_free_var_len q) (fun_free_vars q).
Definition set_free_vars q '(n, v) := mk_fun (fun_arity q) (fun_module q) (fun_module_org_enc q)
  (fun_md5 q) (fun_index q) (fun_old_index q) (fun_uniq q) (fun_n_free_vars q) (fun_pid q) n v.

Abbreviation fun_result := (res (Z * option erlang_fun * Z)).

(** The decoding steps of the fields, [return -1] when one fails. *)
Definition fun_get_pid (buf : bytes) (ix : Z) (p : option erlang_fun) (index : Z)
    (k : option erlang_fun → Z → fun_result) : fun_result :=
  '(rc, pid, ix) ← ei_decode_pid buf ix (fun_pid <$> p);
  let p := upd_fun set_pid p pid in
  if rc <? 0 then Ok (-1, p, index) else k p ix.

Definition fun_get_module (buf : bytes) (ix : Z) (p : option erlang_fun) (index : Z)
    (k : option erlang_fun → Z → fun_result) : fun_result :=
  '(rc, (m, enc, _), ix) ← ei_decode_atom_as buf ix (fun_module <$> p) MAXATOMLEN_UTF8
                             ERLANG_UTF8 (fun_module_org_enc <$> p) None;
  let p := upd_fun set_module p (m ≫= λ m, (λ e, (m, e)) <$> enc) in
  if rc <? 0 then Ok (-1, p, index) else k p ix.

Definition fun_get_long (get : erlang_fun → Z) (set : erlang_fun → Z → erlang_fun)
    (buf : bytes) (ix : Z) (p : option erlang_fun) (index : Z)
    (k : option erlang_fun → Z → fun_result) : fun_result :=
  '(rc, v, ix) ← ei_decode_long buf ix (get <$> p);
  let p := upd_fun set p v in
  if rc <? 0 then Ok (-1, p, index) else k p ix.

Definition ei_decode_fun_with (buf : bytes) (index : Z) (p : option erlang_fun) : fun_result :=
  '(tag, s) ← get8 buf index;
  if tag =? ERL_FUN_EXT then
    let p := upd_fun set_arity p (Some (-1)) in
    '(n, s) ← get32be buf s;
    fun_get_pid buf s p index (λ p ix,
    fun_get_module buf ix p index (λ p ix,
    fun_get_long fun_index set_index buf ix p index (λ p ix,
    fun_get_long fun_uniq set_uniq buf ix p index (λ p ix0,
      r ← free_vars_loop skip (Z.to_nat n) buf ix0;
      match r with
      | None => Ok (-1, p, index)
      | Some ix =>
          match p with
          | Some q =>
              let q := set_free_vars (set_n_free_vars q n) (ix - ix0, []) in
              if negb (malloc_ok (ix - ix0)) then Ok (-1, Some q, index)
              else
                vars ← rds buf ix0 (ix - ix0);
                dec_ret (Some (set_free_vars q (ix - ix0, vars))) index ix
          | None => dec_ret None index ix
          end
      end))))
  else if tag =? ERL_NEW_FUN_EXT then
    '(n, s) ← get32be buf s;
    '(i, s) ← get8 buf s;
    let p := upd_fun set_arity p (Some i) in
    p ← match p with
        | Some q => md5 ← rds buf s 16; Ok (Some (set_md5 q md5))
        | None => Ok None
        end;
    '(i, s) ← get32be buf (s + 16);
    let p := upd_fun set_index p (Some i) in
    '(i, s) ← get32be buf s;
    let p := upd_fun set_n_free_vars p (Some i) in
    fun_get_module buf s p index (λ p ix,
    fun_get_long fun_old_index set_old_index buf ix p index (λ p ix,
    fun_get_long fun_uniq set_uniq buf ix p index (λ p ix,
    fun_get_pid buf ix p index (λ p s,
      let n := to_int (n - (s - index) + 1) in
      if n <? 0 then Ok (-1, p, index)
      else match p with
      | Some q =>
          let q := set_free_vars q (n, fun_free_vars q) in
          if n >? 0 then
            if negb (malloc_ok n) then Ok (-1, Some (set_free_vars q (n, [])), index)
            else
              vars ← rds buf s n;
              dec_ret (Some (set_free_vars q (n, vars))) index (s + n)
          else dec_ret (Some q) index (s + n)
      | None => dec_ret None index (s + n)
      end))))
  else Ok (-1, p, index).
End fun_decoder.

(** [ei_skip_term] (decode_skip.c); [fuel] bounds the depth of the recursion.
    With a NULL destination [ei_decode_fun] allocates nothing. *)
Fixpoint ei_skip_term (scan : bytes → Z → option Z) (fuel : nat) (buf : bytes) (index : Z)
    : res (Z * Z) :=
  match fuel with
  | O => NoFuel
  | S fuel =>
      let skip := ei_skip_term scan fuel in
      let drop_out {A} (m : res (Z * A * Z)) :=
        '(rc, _, index) ← m; Ok (if rc <? 0 then -1 else 0, index) in
      '(_, (ty, _)) ← ei_get_type_internal buf index 0;
      if ty =? ERL_ATOM_EXT then
        drop_out (ei_decode_atom_as buf index None MAXATOMLEN_UTF8 LATIN1_OR_UTF8 None None)
      else if (ty =? ERL_PID_EXT) || (ty =? ERL_NEW_PID_EXT) then
        drop_out (ei_decode_pid buf index None)
      else if (ty =? ERL_PORT_EXT) || (ty =? ERL_NEW_PORT_EXT) then
        drop_out (ei_decode_port buf index None)
      else if (ty =? ERL_NEW_REFERENCE_EXT) || (ty =? ERL_NEWER_REFERENCE_EXT)
              || (ty =? ERL_REFERENCE_EXT) then
        drop_out (ei_decode_ref buf index None)
      else if ty =? ERL_NIL_EXT then
        drop_out (ei_decode_list_header buf index (Some 0))
      else if ty =? ERL_LIST_EXT then
        '(rc, n, index) ← ei_decode_list_header buf index (Some 0);
        if rc <? 0 then Ok (-1, index)
        else
          index ← skip_loop skip (Z.to_nat (default 0 n)) buf index;
          '(rc, (ty, _)) ← ei_get_type_internal buf index 0;
          if rc <? 0 then Ok (-1, index)
          else if negb (ty =? ERL_NIL_EXT) then
            '(_, index) ← skip buf index; Ok (0, index)
          else drop_out (ei_decode_list_header buf index (Some 0))
      else if ty =? ERL_STRING_EXT then
        drop_out (ei_decode_string buf index None)
      else if (ty =? ERL_SMALL_TUPLE_EXT) || (ty =? ERL_LARGE_TUPLE_EXT) then
        '(rc, n, index) ← ei_decode_tuple_header buf index (Some 0);
        if rc <? 0 then Ok (-1, index)
        else
          index ← skip_loop skip (Z.to_nat (default 0 n)) buf index;
          Ok (0, index)
      else if ty =? ERL_MAP_EXT then
        '(rc, n, index) ← ei_decode_map_header buf index (Some 0);
        if rc <? 0 then Ok (-1, index)
        else
          index ← skip_loop skip (Z.to_nat (to_int (default 0 n * 2))) buf index;
          Ok (0, index)
      else if ty =? ERL_BINARY_EXT then
        drop_out (ei_decode_binary buf index None None)
      else if (ty =? ERL_SMALL_INTEGER_EXT) || (ty =? ERL_INTEGER_EXT) then
        drop_out (ei_decode_long buf index None)
      else if (ty =? ERL_SMALL_BIG_EXT) || (ty =? ERL_LARGE_BIG_EXT) then
        drop_out (ei_decode_big buf index None)
      else if (ty =? ERL_FLOAT_EXT) || (ty =? NEW_FLOAT_EXT) then
        drop_out (ei_decode_double scan buf index None)
      else if (ty =? ERL_FUN_EXT) || (ty =? ERL_NEW_FUN_EXT) then
        drop_out (ei_decode_fun_with skip (λ _, true) buf index None)
      else Ok (-1, index)
  end.

Definition ei_decode_fun (scan : bytes → Z → option Z) (malloc_ok : Z → bool) (fuel : nat)
    (buf : bytes) (index : Z) (p : option erlang_fun) :=
  ei_decode_fun_with (ei_skip_term scan fuel) malloc_ok buf index p.

(** [ei_term]; its [value] union is a sum of its members. *)
Inductive ei_value :=
| i_val (v : Z) | d_val (v : Z) | atom_name (v : bytes)
| v_pid (v : erlang_pid) | v_port (v : erlang_port) | v_ref (v : erlang_ref).

Record ei_term := mk_term { ei_type : Z; t_arity : Z; t_size : Z; t_value : ei_value }.

(** [ei_decode_ei_term] (ei_decode_term.c).  The object behind a union member
    that was not the last one stored is indeterminate: [fresh_*] stand for it. *)
Section decode_ei_term.
Context (scan : bytes → Z → option Z).
Context (fresh_atom : bytes) (fresh_pid : erlang_pid) (fresh_port : erlang_port)
        (fresh_ref : erlang_ref).

Definition as_value {A} (f : A → ei_value) (old : ei_value) (v : option A) : ei_value :=
  match v with Some v => f v | None => old end.

Definition ei_decode_ei_term (buf : bytes) (index : Z) (term : option ei_term)
    : res (Z * option ei_term * Z) :=
  match term with
  | None => Ok (-1, None, index)
  | Some t =>
      '(c, s) ← get8 buf index;
      let ty := swrap 8 c in
      let set_value v := Some (mk_term ty (t_arity t) (t_size t) v) in
      let set_arity a := Some (mk_term ty a (t_size t) (t_value t)) in
      let set_size n := Some (mk_term ty (t_arity t) n (t_value t)) in
      let call {A} (f : A → ei_value) (m : res (Z * option A * Z)) :=
        '(rc, v, index) ← m;
        Ok (if rc <? 0 then -1 else 1, set_value (as_value f (t_value t) v), index) in
      let fin (t : option ei_term) (s : Z) : res (Z * option ei_term * Z) :=
        Ok (1, t, to_int (index + (s - index))) in
      if ty =? ERL_SMALL_INTEGER_EXT then '(v, s) ← get8 buf s; fin (set_value (i_val v)) s
      else if ty =? ERL_INTEGER_EXT then '(v, s) ← get32be buf s; fin (set_value (i_val v)) s
      else if (ty =? ERL_FLOAT_EXT) || (ty =? NEW_FLOAT_EXT) then
        call d_val (ei_decode_double scan buf index (Some 0))
      else if (ty =? ERL_ATOM_EXT) || (ty =? ERL_ATOM_UTF8_EXT) || (ty =? ERL_SMALL_ATOM_EXT)
              || (ty =? ERL_SMALL_ATOM_UTF8_EXT) then
        call atom_name (ei_decode_atom buf index (Some fresh_atom))
      else if (ty =? ERL_REFERENCE_EXT) || (ty =? ERL_NEW_REFERENCE_EXT)
              || (ty =? ERL_NEWER_REFERENCE_EXT) then
        call v_ref (ei_decode_ref buf index (Some fresh_ref))
      else if (ty =? ERL_PORT_EXT) || (ty =? ERL_NEW_PORT_EXT) then
        call v_port (ei_decode_port buf index (Some fresh_port))
      else if (ty =? ERL_PID_EXT) || (ty =? ERL_NEW_PID_EXT) then
        call v_pid (ei_decode_pid buf index (Some fresh_pid))
      else if ty =? ERL_SMALL_TUPLE_EXT then '(n, s) ← get8 buf s; fin (set_arity n) s
      else if ty =? ERL_LARGE_TUPLE_EXT then '(n, s) ← get32be buf s; fin (set_arity n) s
      else if ty =? ERL_NIL_EXT then fin (set_arity 0) s
      else if ty =? ERL_STRING_EXT then '(n, _) ← get16be buf s; Ok (0, set_size n, index)
      else if (ty =? ERL_LIST_EXT) || (ty =? ERL_MAP_EXT) then
        '(n, s) ← get32be buf s; fin (set_arity n) s
      else if ty =? ERL_BINARY_EXT then '(n, _) ← get32be buf s; Ok (0, set_size n, index)
      else if ty =? ERL_SMALL_BIG_EXT then
        '(n, s) ← get8 buf s;
        let t' := set_arity n in
        if negb (n =? 4) then Ok (-1, t', index)
        else
          '(sign, s) ← get8 buf s;
          '(n, s) ← get32le buf s;
          if negb (sign =? 0) then
            if n - 1 <? 0 then Ok (-1, t', index) else fin t' s
          else if n <? 0 then Ok (-1, t', index) else fin t' s
      else if ty =? ERL_LARGE_BIG_EXT then Ok (0, set_value (t_value t), index)
      else if ty =? ERL_PASS_THROUGH then Ok (0, set_value (t_value t), index)
      else Ok (-1, set_value (t_value t), index)
  end.
End decode_ei_term.

(** * Formats and the encoders' correctness *)

(** A NUL-terminated string [l] in the object [obj]. *)
Definition cstr (obj l : bytes) : Prop :=
  (∃ rest, obj = l ++ 0 :: rest) ∧ Forall (λ c, c ≠ 0) l ∧ Forall byte l.

Lemma strlen_from_cstr l rest k :
  Forall (λ c, c ≠ 0) l → strlen_from (l ++ 0 :: rest) k = Ok (k + zlen l).
Proof.
  intros Hl. revert k. induction Hl as [|c l Hc Hl IH]; intros k; simpl.
  { by rewrite zlen_nil, Z.add_0_r. }
  destruct (Z.eqb_spec c 0); [done|]. rewrite IH, zlen_cons. f_equal. lia.
Qed.

Lemma strlen_cstr obj l : cstr obj l → strlen obj = Ok (zlen l) ∧ bytes_at obj 0 l.
Proof.
  intros ([rest ->] & Hz & _). split; [by apply (strlen_from_cstr _ _ 0)|].
  by exists [], (0 :: rest).
Qed.

(** The encoding of a node name, as [ei] chooses it. *)
Definition node_fmt (l : bytes) : option bytes := atom_fmt l ERLANG_UTF8 LATIN1_OR_UTF8.

Definition fmt_creation (old : bool) (c : Z) : bytes :=
  if old then [Z.land c 3] else be32 c.

Definition fmt_pid (nb : bytes) (num serial creation : Z) : bytes :=
  let old := negb (creation >? 3) in
  (if old then ERL_PID_EXT else ERL_NEW_PID_EXT) :: nb ++
  be32 (Z.land num 32767) ++ be32 (Z.land serial 8191) ++ fmt_creation old creation.

Definition fmt_port (nb : bytes) (id creation : Z) : bytes :=
  let old := negb (creation >? 3) in
  (if old then ERL_PORT_EXT else ERL_NEW_PORT_EXT) :: nb ++
  be32 (Z.land id 268435455) ++ fmt_creation old creation.

Definition fmt_ref (nb : bytes) (n : list Z) (creation : Z) : bytes :=
  let old := negb (creation >? 3) in
  (if old then ERL_NEW_REFERENCE_EXT else ERL_NEWER_REFERENCE_EXT) :: be16 (zlen n) ++ nb ++
  fmt_creation old creation ++ flat_map be32 n.

Lemma put_creation_wrs old b s c : put_creation old b s c = wrs b s (fmt_creation old c).
Proof.
  unfold put_creation, fmt_creation. destruct old; [|apply put32be_wrs].
  rewrite put8_wrs. do 2 f_equal. by rewrite <- Z.land_assoc.
Qed.

Lemma zlen_fmt_creation old c : zlen (fmt_creation old c) = if old then 1 else 4.
Proof. by destruct old. Qed.

Lemma zlen_flat_be32 n : zlen (flat_map be32 n) = 4 * zlen n.
Proof. induction n as [|x n IH]; [done|]. cbn [flat_map]. rewrite zlen_app, IH. zl. Qed.
#[export] Hint Rewrite zlen_fmt_creation zlen_flat_be32 : cmem.

(** The node name is stored first, then the header before it, then the rest. *)
Lemma patched_stores {A} b i hdr nb t (K : bytes → res A) :
  hdr ≠ [] →
  ('(b1, _) ← wrs b (i + zlen hdr) nb; '(b2, _) ← wrs b1 i hdr;
   '(b3, _) ← wrs b2 (i + zlen hdr + zlen nb) t; K b3) =
  ('(b', _) ← wrs b i (hdr ++ nb ++ t); K b').
Proof.
  intros Hne. rewrite app_assoc, wrs_cut, zlen_app, Z.add_assoc.
  by apply (wrs_swap_bind b i hdr nb (λ b2, '(b3, _) ← wrs b2 _ t; K b3)).
Qed.

Lemma Encodes_ext (f g : encoder) l :
  (∀ b i, f b i = g b i) → Encodes g l → Encodes f l.
Proof. intros H [H1 H2]. split; intros; rewrite H; auto. Qed.

(** Consecutive stores, the last pointer dropped. *)
Lemma wrs_then_drop {A} b s l1 l2 (K : bytes → res A) :
  ('(b', s') ← wrs b s l1; '(b'', _) ← wrs b' s' l2; K b'') =
  ('(b'', _) ← wrs b s (l1 ++ l2); K b'').
Proof. apply (wrs_then b s l1 l2 _ (λ b _, K b)). done. Qed.

Lemma ref_store_loop_wrs n2 n1 b s :
  ref_store_loop (length n2) (zlen n1) b s (n1 ++ n2) = wrs b s (flat_map be32 n2).
Proof.
  revert n1 b s. induction n2 as [|x n2 IH]; intros n1 b s; [done|].
  cbn [length ref_store_loop flat_map].
  rewrite (rd_at _ _ x n2) by (exists n1, []; by rewrite app_nil_r).
  rewrite bind_Ok, put32be_wrs, wrs_app. apply bind_ext. intros [b' s'].
  replace (zlen n1 + 1) with (zlen (n1 ++ [x])) by zl.
  replace (n1 ++ x :: n2) with ((n1 ++ [x]) ++ n2) by by rewrite <- app_assoc. apply IH.
Qed.

Section encode_terms.
Context (node l nb : bytes).
Hypothesis Hnode : cstr node l.
Hypothesis Hlen : zlen l <= INT_MAX.
Hypothesis Hnb : node_fmt l = Some nb.

#[local] Instance node_enc :
  Encodes (λ b i, ei_encode_atom_len_as b i node (zlen l) ERLANG_UTF8 LATIN1_OR_UTF8) nb.
Proof.
  apply ei_encode_atom_len_as_enc; [by apply strlen_cstr| |done]. by destruct Hnode as (_ & _ & ?).
Qed.

Lemma node_strlen : strlen node = Ok (zlen l).
Proof. by apply strlen_cstr. Qed.

Lemma node_len_int : to_int (zlen l) = zlen l.
Proof. pose proof (zlen_nonneg l). apply to_int_small. lia. Qed.

(** The common shape of the pid, port and reference encoders. *)
Lemma node_prefixed_enc hdr t n (W : Z → bytes → Z → res (option bytes)) :
  hdr ≠ [] → n = zlen t →
  (∀ i b ix, W i b ix = ('(b2, _) ← wrs b i hdr; '(b3, _) ← wrs b2 ix t; Ok (Some b3))) →
  Encodes (λ buf i,
    '(rc, buf, ix) ← ei_encode_atom_len_as buf (i + zlen hdr) node (zlen l)
                       ERLANG_UTF8 LATIN1_OR_UTF8;
    if rc <? 0 then Ok (-1, buf, ix)
    else
      buf ← match buf with Some b => W i b ix | None => Ok None end;
      Ok (0, buf, to_int (ix + n))) (hdr ++ nb ++ t).
Proof.
  intros Hne -> HW. pose proof (zlen_nonneg hdr). pose proof (zlen_nonneg t).
  pose proof (zlen_nonneg nb). split; intros; rewrite !zlen_app in *.
  - pose proof (enc_size (Encodes := node_enc) (i + zlen hdr)) as HE. cbv beta in HE.
    rewrite HE, bind_Ok by lia. change (0 <? 0) with false. cbn iota. rewrite bind_Ok.
    rewrite to_int_small by lia. do 2 f_equal. lia.
  - pose proof (enc_write (Encodes := node_enc) b (i + zlen hdr)) as HE. cbv beta in HE.
    rewrite HE, bind_res_assoc2 by lia. rewrite <- (patched_stores b i hdr nb t) by done.
    apply bind_pair_ext. intros b1 _. rewrite bind_Ok. change (0 <? 0) with false. cbn iota.
    rewrite HW, bind_res_assoc2. apply bind_pair_ext. intros b2 _.
    rewrite bind_res_assoc2. apply bind_pair_ext. intros b3 _. rewrite bind_Ok.
    rewrite to_int_small by lia. do 2 f_equal. lia.
Qed.

Lemma ei_encode_pid_enc num serial creation :
  Encodes (λ b i, ei_encode_pid b i (mk_pid node num serial creation))
          (fmt_pid nb num serial creation).
Proof.
  unfold ei_encode_pid. cbn [pid_node pid_num pid_serial pid_creation].
  eapply Encodes_ext.
  { intros b i. rewrite node_strlen, bind_Ok, node_len_int. reflexivity. }
  unfold fmt_pid.
  apply (node_prefixed_enc [if negb (creation >? 3) then ERL_PID_EXT else ERL_NEW_PID_EXT] _ _
    (λ i b ix, '(b, _) ← put8 b i _; '(b, s) ← put32be b ix _;
               '(b, s) ← put32be b s _; '(b, _) ← put_creation _ b s _; Ok (Some b))); [done| |].
  - destruct (creation >? 3); done.
  - intros. rewrite put8_wrs. destruct (creation >? 3); tag_simpl;
      (apply bind_pair_ext; intros b2 _; rewrite put32be_wrs; etransitivity;
       [eapply (wrs_then b2 ix _ (be32 _ ++ fmt_creation _ creation) _ (λ b _, Ok (Some b)));
        intros; rewrite put32be_wrs;
        etransitivity; [|apply wrs_then_drop]; apply bind_pair_ext; intros;
        by rewrite put_creation_wrs | done]).
Qed.

Lemma ei_encode_port_enc id creation :
  Encodes (λ b i, ei_encode_port b i (mk_port node id creation)) (fmt_port nb id creation).
Proof.
  unfold ei_encode_port. cbn [port_node port_id port_creation].
  eapply Encodes_ext.
  { intros b i. rewrite node_strlen, bind_Ok, node_len_int. reflexivity. }
  unfold fmt_port.
  apply (node_prefixed_enc [if negb (creation >? 3) then ERL_PORT_EXT else ERL_NEW_PORT_EXT] _ _
    (λ i b ix, '(b, _) ← put8 b i _; '(b, s) ← put32be b ix _;
               '(b, _) ← put_creation _ b s _; Ok (Some b))); [done| |].
  - destruct (creation >? 3); done.
  - intros. rewrite put8_wrs. destruct (creation >? 3); tag_simpl;
      (apply bind_pair_ext; intros b2 _; rewrite put32be_wrs;
       etransitivity; [|apply wrs_then_drop]; apply bind_pair_ext; intros;
       by rewrite put_creation_wrs).
Qed.

Lemma ei_encode_ref_enc n creation :
  zlen n <= 3 →
  Encodes (λ b i, ei_encode_ref b i (mk_ref node (zlen n) n creation)) (fmt_ref nb n creation).
Proof.
  intros Hn. unfold ei_encode_ref. cbn [ref_node ref_len ref_n ref_creation].
  eapply Encodes_ext.
  { intros b i. rewrite node_strlen, bind_Ok, node_len_int. reflexivity. }
  unfold fmt_ref.
  apply (node_prefixed_enc
    ((if negb (creation >? 3) then ERL_NEW_REFERENCE_EXT else ERL_NEWER_REFERENCE_EXT)
       :: be16 (zlen n)) _ _
    (λ i b ix, '(b, s) ← put8 b i _; '(b, _) ← put16be b s _;
               '(b, s) ← put_creation _ b ix _; '(b, _) ← ref_store_loop _ _ b s _;
               Ok (Some b))); [done| |].
  - destruct (creation >? 3); tag_simpl; zl.
  - intros. rewrite put8_wrs, to_nat_zlen.
    etransitivity;
      [apply (wrs_then b i _ (be16 (zlen n)) _ (λ b2 _, '(b3, _) ← wrs b2 ix
        (fmt_creation (negb (creation >? 3)) creation ++ flat_map be32 n); Ok (Some b3)))|].
    + intros. rewrite put16be_wrs. apply bind_pair_ext. intros b2 _.
      rewrite put_creation_wrs.
      etransitivity; [|etransitivity; [apply (wrs_then_drop b2 ix (fmt_creation
        (negb (creation >? 3)) creation) (flat_map be32 n))|done]].
      destruct (creation >? 3); tag_simpl; apply bind_pair_ext; intros b3 s3;
        by rewrite <- (ref_store_loop_wrs n [] b3 s3).
    + by destruct (creation >? 3).
Qed.
End encode_terms.

(** * The decoders' correctness *)

(** [nb] is an encoding of an atom whose UTF-8 text [l] fits [MAXATOMLEN_UTF8]. *)
Definition node_atom (nb l : bytes) : Prop :=
  ∃ got small text, nb = fmt_atom got small text ∧
    (got = ERLANG_LATIN1 ∨ got = ERLANG_UTF8) ∧ atom_len_ok small text ∧
    Forall byte text ∧ atom_view got ERLANG_UTF8 text = Some l ∧ zlen l < MAXATOMLEN_UTF8.

Lemma utf8_ok_length_aux n k l :
  (length l <= n)%nat → k <= 255 → utf8_ok k l = true → zlen l <= 4 * (255 - k).
Proof.
  revert k l. induction n as [|n IH]; intros k l Hn Hk; destruct l as [|c l];
    try (simpl in Hn; lia); try (rewrite (@zlen_nil Z); lia).
  cbn [utf8_ok length] in *. unfold MAXATOMLEN. destruct (Z.geb_spec (k + 1) (255 + 1)); [done|].
  cbn [negb andb]. intros Hok.
  assert (∀ l', (length l' <= n)%nat → utf8_ok (k + 1) l' = true →
    zlen l' <= 4 * (255 - (k + 1))) as IHk by (intros; apply IH; (done || lia)).
  destruct (Z.land c 128 =? 0); [specialize (IHk l ltac:(lia) Hok); zl|].
  destruct (Z.land c 224 =? 192).
  { destruct l as [|c1 l]; [done|]. apply andb_prop in Hok as [_ Hok].
    specialize (IHk l ltac:(simpl in *; lia) Hok). zl. }
  destruct (Z.land c 240 =? 224).
  { destruct l as [|c1 [|c2 l]]; [done|done|].
    apply andb_prop in Hok as [_ Hok]. apply andb_prop in Hok as [_ Hok].
    specialize (IHk l ltac:(simpl in *; lia) Hok). zl. }
  destruct (Z.land c 248 =? 240); [|done].
  destruct l as [|c1 [|c2 [|c3 l]]]; [done|done|done|].
  apply andb_prop in Hok as [_ Hok]. apply andb_prop in Hok as [_ Hok].
  apply andb_prop in Hok as [_ Hok].
  specialize (IHk l ltac:(simpl in *; lia) Hok). zl.
Qed.

Lemma utf8_ok_length l : utf8_ok 0 l = true → zlen l <= 1020.
Proof. intros H. apply (utf8_ok_length_aux (length l) 0 l) in H; lia. Qed.

Lemma node_fmt_atom l nb : Forall byte l → node_fmt l = Some nb → node_atom nb l.
Proof.
  intros Hl Hnb. unfold node_fmt in Hnb.
  apply atom_fmt_cases in Hnb as [_ [(_ & text & Ht & HM & ->)|(_ & small & text & Ht & ->)]].
  - revert Ht. tag_simpl. intros Ht. destruct (u2l_inv _ _ Hl Ht) as [Hu Hb].
    exists ERLANG_LATIN1, false, text. unfold MAXATOMLEN, MAXATOMLEN_UTF8, atom_len_ok in *.
    pose proof (l2u_length text). rewrite Hu in *.
    split_and!; [done|by left|lia|done| |lia]. unfold atom_view. tag_simpl. by rewrite Hu.
  - revert Ht. unfold utf8_text. tag_simpl. destruct (utf8_ok 0 l) eqn:E; [|done].
    intros [= <- <-]. apply utf8_ok_length in E.
    exists ERLANG_UTF8, (zlen l <? 256), l. unfold MAXATOMLEN_UTF8, atom_len_ok.
    split_and!; [apply fmt_atom_utf8_eq|by right| |done|done|lia].
    destruct (Z.ltb_spec (zlen l) 256); lia.
Qed.

Lemma fmt_atom_bound got small text :
  atom_len_ok small text → 2 <= zlen (fmt_atom got small text) <= 65538.
Proof.
  unfold atom_len_ok. rewrite zlen_fmt_atom. pose proof (zlen_nonneg text).
  destruct small; lia.
Qed.

Section decode_terms.
Context (buf nb l : bytes).
Hypothesis Hnb : node_atom nb l.
Hypothesis Hmax : zlen buf <= INT_MAX.

Lemma get_atom_fmt s rest p :
  bytes_at buf s (nb ++ rest) →
  get_atom buf s p None =
  (p ← wrs_opt p 0 (l ++ [0]); Ok (0, (p, None), s + zlen nb)).
Proof.
  intros H. apply bytes_at_app in H as [H _].
  destruct Hnb as (got & small & text & -> & Hgot & Hlen & Ht & Hv & Hl).
  unfold get_atom. rewrite (ei_decode_atom_as_fmt buf s got small text) with (v := l) by done.
  rewrite bind_assoc. by apply bind_ext.
Qed.

(** A destination array of [MAXATOMLEN_UTF8] bytes holds the name. *)
Lemma get_atom_node s rest node :
  zlen node = MAXATOMLEN_UTF8 → bytes_at buf s (nb ++ rest) →
  get_atom buf s (Some node) None =
  Ok (0, (Some (splice node 0 (l ++ [0])), None), s + zlen nb).
Proof.
  intros Hn H. rewrite (get_atom_fmt s rest) by done. simpl wrs_opt.
  destruct Hnb as (? & ? & ? & _ & _ & _ & _ & _ & Hl).
  by rewrite wrs_ok by zl.
Qed.

Lemma get_creation_fmt s creation rest :
  0 <= creation < 2 ^ 32 →
  bytes_at buf s (fmt_creation (negb (creation >? 3)) creation ++ rest) →
  get_creation (negb (creation >? 3)) buf s =
  Ok (creation, s + if negb (creation >? 3) then 1 else 4).
Proof.
  intros Hc H. unfold get_creation, fmt_creation in *.
  destruct (Z.gtb_spec creation 3); cbn [negb] in *.
  - rewrite (get32be_at _ _ _ _ H), bind_Ok, wrap_swrap, wrap_small by lia. done.
  - assert (Z.land creation 3 = creation) as E.
    { change 3 with (Z.ones 2). rewrite Z.land_ones, Z.mod_small by (simpl; lia). done. }
    rewrite E in H. by rewrite (get8_at _ _ _ _ H), bind_Ok, E by (unfold byte; lia).
Qed.

Lemma get32be_mask s x k rest :
  0 <= k <= 31 → bytes_at buf s (be32 (Z.land x (Z.ones k)) ++ rest) →
  ∃ v, get32be buf s = Ok (v, s + 4) ∧ Z.land v (Z.ones k) = Z.land x (Z.ones k).
Proof.
  intros Hk H. eexists. split; [by apply (get32be_at _ _ _ _ H)|].
  rewrite !Z.land_ones by lia. assert (2 ^ k <= 2 ^ 31) by (apply Z.pow_le_mono_r; lia).
  pose proof (Z.mod_pos_bound x (2 ^ k) ltac:(lia)).
  rewrite swrap_small by lia. by apply Z.mod_mod; lia.
Qed.

Lemma fmt_len_bound i bs : bytes_at buf i bs → 0 <= i ∧ i + zlen bs <= INT_MAX.
Proof.
  intros H. pose proof (bytes_at_nonneg _ _ _ H). pose proof (bytes_at_bound _ _ _ H). lia.
Qed.

Lemma ei_decode_pid_fmt i num serial creation q :
  zlen (pid_node q) = MAXATOMLEN_UTF8 → 0 <= creation < 2 ^ 32 →
  bytes_at buf i (fmt_pid nb num serial creation) →
  ei_decode_pid buf i (Some q) =
  Ok (0, Some (mk_pid (splice (pid_node q) 0 (l ++ [0])) (Z.land num 32767)
                      (Z.land serial 8191) creation),
      i + zlen (fmt_pid nb num serial creation)).
Proof.
  intros Hq Hc H. destruct (fmt_len_bound _ _ H) as [Hi HM]. unfold ei_decode_pid, fmt_pid in *.
  set (old := negb (creation >? 3)) in *.
  rewrite (get8_tag _ _ _ _ H), bind_Ok by by destruct old. apply bytes_at_cons in H.
  assert (((if old then ERL_PID_EXT else ERL_NEW_PID_EXT) =? ERL_PID_EXT) = old) as ->
    by by destruct old.
  replace (negb old && _) with false by by destruct old. cbn iota.
  rewrite (get_atom_node _ _ _ Hq H), bind_Ok. change (0 <? 0) with false. cbn iota.
  apply bytes_at_app in H as [_ H].
  destruct (get32be_mask _ num 15 _ ltac:(lia) H) as (v1 & -> & Hv1). rewrite bind_Ok.
  apply bytes_at_app in H as [_ H]. rewrite zlen_be32 in H.
  destruct (get32be_mask _ serial 13 _ ltac:(lia) H) as (v2 & -> & Hv2). rewrite bind_Ok.
  apply bytes_at_app in H as [_ H]. rewrite zlen_be32 in H.
  change (Z.ones 15) with 32767 in *. change (Z.ones 13) with 8191 in *. rewrite Hv1, Hv2.
  unfold old. rewrite (get_creation_fmt _ _ []), bind_Ok by (done || by rewrite app_nil_r).
  fold old. autorewrite with cmem in *. pose proof (zlen_nonneg nb).
  rewrite dec_ret_small by (destruct old; lia). do 2 f_equal. lia.
Qed.

Lemma ei_decode_pid_skip i num serial creation :
  bytes_at buf i (fmt_pid nb num serial creation) →
  ei_decode_pid buf i None = Ok (0, None, i + zlen (fmt_pid nb num serial creation)).
Proof.
  intros H. destruct (fmt_len_bound _ _ H) as [Hi HM]. unfold ei_decode_pid, fmt_pid in *.
  set (old := negb (creation >? 3)) in *.
  rewrite (get8_tag _ _ _ _ H), bind_Ok by by destruct old. apply bytes_at_cons in H.
  assert (((if old then ERL_PID_EXT else ERL_NEW_PID_EXT) =? ERL_PID_EXT) = old) as ->
    by by destruct old.
  replace (negb old && _) with false by by destruct old. cbn iota.
  rewrite (get_atom_fmt _ _ None H). simpl wrs_opt. rewrite !bind_Ok.
  change (0 <? 0) with false. cbn iota. autorewrite with cmem in *. pose proof (zlen_nonneg nb).
  rewrite dec_ret_small by (destruct old; lia). do 2 f_equal. destruct old; lia.
Qed.

Lemma ei_decode_port_fmt i id creation q :
  zlen (port_node q) = MAXATOMLEN_UTF8 → 0 <= creation < 2 ^ 32 →
  bytes_at buf i (fmt_port nb id creation) →
  ei_decode_port buf i (Some q) =
  Ok (0, Some (mk_port (splice (port_node q) 0 (l ++ [0])) (Z.land id 268435455) creation),
      i + zlen (fmt_port nb id creation)).
Proof.
  intros Hq Hc H. destruct (fmt_len_bound _ _ H) as [Hi HM]. unfold ei_decode_port, fmt_port in *.
  set (old := negb (creation >? 3)) in *.
  rewrite (get8_tag _ _ _ _ H), bind_Ok by by destruct old. apply bytes_at_cons in H.
  assert (((if old then ERL_PORT_EXT else ERL_NEW_PORT_EXT) =? ERL_PORT_EXT) = old) as ->
    by by destruct old.
  replace (negb old && _) with false by by destruct old. cbn iota.
  rewrite (get_atom_node _ _ _ Hq H), bind_Ok. change (0 <? 0) with false. cbn iota.
  apply bytes_at_app in H as [_ H].
  destruct (get32be_mask _ id 28 _ ltac:(lia) H) as (v1 & -> & Hv1). rewrite bind_Ok.
  apply bytes_at_app in H as [_ H]. rewrite zlen_be32 in H.
  change (Z.ones 28) with 268435455 in *. rewrite Hv1.
  unfold old. rewrite (get_creation_fmt _ _ []), bind_Ok by (done || by rewrite app_nil_r).
  fold old. autorewrite with cmem in *. pose proof (zlen_nonneg nb).
  rewrite dec_ret_small by (destruct old; lia). do 2 f_equal. lia.
Qed.

Lemma ei_decode_port_skip i id creation :
  bytes_at buf i (fmt_port nb id creation) →
  ei_decode_port buf i None = Ok (0, None, i + zlen (fmt_port nb id creation)).
Proof.
  intros H. destruct (fmt_len_bound _ _ H) as [Hi HM]. unfold ei_decode_port, fmt_port in *.
  set (old := negb (creation >? 3)) in *.
  rewrite (get8_tag _ _ _ _ H), bind_Ok by by destruct old. apply bytes_at_cons in H.
  assert (((if old then ERL_PORT_EXT else ERL_NEW_PORT_EXT) =? ERL_PORT_EXT) = old) as ->
    by by destruct old.
  replace (negb old && _) with false by by destruct old. cbn iota.
  rewrite (get_atom_fmt _ _ None H). simpl wrs_opt. rewrite !bind_Ok.
  change (0 <? 0) with false. cbn iota. autorewrite with cmem in *. pose proof (zlen_nonneg nb).
  rewrite dec_ret_small by (destruct old; lia). do 2 f_equal. destruct old; lia.
Qed.

Lemma ref_load_loop_ok n2 n1 old s rest :
  Forall (λ x, 0 <= x < 2 ^ 32) n2 → zlen n1 + zlen n2 <= zlen old →
  bytes_at buf s (flat_map be32 n2 ++ rest) →
  ref_load_loop (length n2) (zlen n1) buf s (splice old 0 n1) =
  Ok (splice old 0 (n1 ++ n2), s + 4 * zlen n2).
Proof.
  intros Hn. revert n1 s. induction Hn as [|x n2 Hx Hn IH]; intros n1 s Ho H.
  { rewrite app_nil_r. cbn [length ref_load_loop]. do 2 f_equal. zl. }
  cbn [length ref_load_loop flat_map] in *. rewrite <- app_assoc in H.
  rewrite (get32be_at _ _ _ _ H), bind_Ok, wrap_swrap, wrap_small by lia.
  rewrite zlen_cons in *. pose proof (zlen_nonneg n2). pose proof (zlen_nonneg n1).
  rewrite wr_ok by (rewrite zlen_splice; lia). rewrite bind_Ok.
  replace (zlen n1) with (0 + zlen n1) at 2 by lia. rewrite splice_app by zl.
  replace (zlen n1 + 1) with (zlen (n1 ++ [x])) by zl.
  apply bytes_at_app in H as [_ H]. rewrite IH; [|zl|by rewrite zlen_be32 in H].
  rewrite <- app_assoc. do 2 f_equal. lia.
Qed.

Lemma ei_decode_ref_fmt i n creation q :
  zlen (ref_node q) = MAXATOMLEN_UTF8 → zlen (ref_n q) = 3 → zlen n <= 3 →
  Forall (λ x, 0 <= x < 2 ^ 32) n → 0 <= creation < 2 ^ 32 →
  bytes_at buf i (fmt_ref nb n creation) →
  ei_decode_ref buf i (Some q) =
  Ok (0, Some (mk_ref (splice (ref_node q) 0 (l ++ [0])) (zlen n) (splice (ref_n q) 0 n) creation),
      i + zlen (fmt_ref nb n creation)).
Proof.
  intros Hq Hqn Hn Hr Hc H. destruct (fmt_len_bound _ _ H) as [Hi HM].
  pose proof (zlen_nonneg n).
  unfold ei_decode_ref, fmt_ref in *. set (old := negb (creation >? 3)) in *.
  rewrite (get8_tag _ _ _ _ H), bind_Ok by by destruct old. apply bytes_at_cons in H.
  assert (((if old then ERL_NEW_REFERENCE_EXT else ERL_NEWER_REFERENCE_EXT)
           =? ERL_NEW_REFERENCE_EXT) = old) as Hold by by destruct old.
  assert (((if old then ERL_NEW_REFERENCE_EXT else ERL_NEWER_REFERENCE_EXT)
           =? ERL_REFERENCE_EXT) = false) as -> by by destruct old.
  rewrite Hold. replace (old || _) with true by by destruct old. cbn iota.
  rewrite (get16be_at _ _ _ _ H), bind_Ok, Z.mod_small by lia.
  apply bytes_at_app in H as [_ H]. rewrite zlen_be16 in H.
  rewrite (get_atom_node _ _ _ Hq H), bind_Ok. change (0 <? 0) with false. cbn iota.
  apply bytes_at_app in H as [_ H].
  unfold old. rewrite (get_creation_fmt _ _ _ Hc H), bind_Ok. fold old.
  apply bytes_at_app in H as [_ H]. rewrite zlen_fmt_creation in H.
  rewrite Z.min_l, to_nat_zlen by lia.
  pose proof (λ s, ref_load_loop_ok n [] (ref_n q) s [] Hr) as HL.
  rewrite splice_nil, (@zlen_nil Z) in HL. rewrite HL, bind_Ok; [|lia|by rewrite app_nil_r].
  autorewrite with cmem in *. pose proof (zlen_nonneg nb).
  rewrite dec_ret_small by (destruct old; lia). cbn [app]. do 2 f_equal. lia.
Qed.

Lemma ei_decode_ref_skip i n creation :
  zlen n < 65536 → bytes_at buf i (fmt_ref nb n creation) →
  ei_decode_ref buf i None = Ok (0, None, i + zlen (fmt_ref nb n creation)).
Proof.
  intros Hn H. destruct (fmt_len_bound _ _ H) as [Hi HM]. pose proof (zlen_nonneg n).
  unfold ei_decode_ref, fmt_ref in *. set (old := negb (creation >? 3)) in *.
  rewrite (get8_tag _ _ _ _ H), bind_Ok by by destruct old. apply bytes_at_cons in H.
  assert (((if old then ERL_NEW_REFERENCE_EXT else ERL_NEWER_REFERENCE_EXT)
           =? ERL_NEW_REFERENCE_EXT) = old) as Hold by by destruct old.
  assert (((if old then ERL_NEW_REFERENCE_EXT else ERL_NEWER_REFERENCE_EXT)
           =? ERL_REFERENCE_EXT) = false) as -> by by destruct old.
  rewrite Hold. replace (old || _) with true by by destruct old. cbn iota.
  rewrite (get16be_at _ _ _ _ H), bind_Ok, Z.mod_small by lia.
  apply bytes_at_app in H as [_ H]. rewrite zlen_be16 in H.
  rewrite (get_atom_fmt _ _ None H). simpl wrs_opt. rewrite !bind_Ok.
  change (0 <? 0) with false. cbn iota. autorewrite with cmem in *. pose proof (zlen_nonneg nb).
  rewrite dec_ret_small by (destruct old; lia). do 2 f_equal. destruct old; lia.
Qed.
End decode_terms.

(** * External terms *)

(** An atom in one of the four formats. *)
Record eatom := mk_eatom { a_got : Z; a_small : bool; a_text : bytes }.

Definition eatom_fmt (a : eatom) : bytes := fmt_atom (a_got a) (a_small a) (a_text a).

Definition is_byte (c : Z) : bool := (0 <=? c) && (c <? 256).

(** The UTF-8 form fits [MAXATOMLEN_UTF8]. *)
Definition eatom_ok (a : eatom) : bool :=
  ((a_got a =? ERLANG_LATIN1) || (a_got a =? ERLANG_UTF8)) &&
  (zlen (a_text a) <? if a_small a then 256 else 65536) && forallb is_byte (a_text a) &&
  match atom_view (a_got a) ERLANG_UTF8 (a_text a) with
  | Some l => zlen l <? MAXATOMLEN_UTF8
  | None => false
  end.

(** A pid, as funs carry one. *)
Record epid := mk_epid { e_node : eatom; e_num : Z; e_serial : Z; e_creation : Z }.

Definition epid_fmt (p : epid) : bytes :=
  fmt_pid (eatom_fmt (e_node p)) (e_num p) (e_serial p) (e_creation p).

(** The terms a message may contain; a float is the bits of the IEEE double, and
    the environment of a fun in the new format is opaque. *)
#[local] Set Warnings "-register-all".
Inductive eterm :=
| t_int (v : Z)
| t_big (sign : Z) (digits : bytes)
| t_float (bits : Z)
| t_atom (a : eatom)
| t_pid (p : epid)
| t_port (node : eatom) (id creation : Z)
| t_ref (node : eatom) (n : list Z) (creation : Z)
| t_nil
| t_string (l : bytes)
| t_list (ts : list eterm) (tl : eterm)
| t_tuple (ts : list eterm)
| t_map (kvs : list (eterm * eterm))
| t_binary (l : bytes)
| t_fun (pid : epid) (module : eatom) (index uniq : Z) (free_vars : list eterm)
| t_new_fun (arity : Z) (md5 : bytes) (index n_free : Z) (module : eatom)
            (old_index uniq : Z) (pid : epid) (env : bytes).

Definition fmt_raw_big (sign : Z) (digits : bytes) : bytes :=
  (if zlen digits <? 256 then [ERL_SMALL_BIG_EXT; Z.land (zlen digits) 255]
   else ERL_LARGE_BIG_EXT :: be32 (zlen digits)) ++ Z.land sign 255 :: digits.

Definition fmt_new_fun (arity : Z) (md5 : bytes) (index n_free : Z) (module : eatom)
    (old_index uniq : Z) (pid : epid) (env : bytes) : bytes :=
  let rest := Z.land arity 255 :: md5 ++ be32 index ++ be32 n_free ++ eatom_fmt module ++
              fmt_long old_index ++ fmt_long uniq ++ epid_fmt pid ++ env in
  ERL_NEW_FUN_EXT :: be32 (4 + zlen rest) ++ rest.

Fixpoint fmt_term (t : eterm) : bytes :=
  match t with
  | t_int v => fmt_long v
  | t_big sign digits => fmt_raw_big sign digits
  | t_float bits => NEW_FLOAT_EXT :: be64 bits
  | t_atom a => eatom_fmt a
  | t_pid p => epid_fmt p
  | t_port node id creation => fmt_port (eatom_fmt node) id creation
  | t_ref node n creation => fmt_ref (eatom_fmt node) n creation
  | t_nil => [ERL_NIL_EXT]
  | t_string l => ERL_STRING_EXT :: be16 (zlen l) ++ l
  | t_list ts tl => (ERL_LIST_EXT :: be32 (zlen ts)) ++ flat_map fmt_term ts ++ fmt_term tl
  | t_tuple ts => fmt_tuple_header (zlen ts) ++ flat_map fmt_term ts
  | t_map kvs => (ERL_MAP_EXT :: be32 (zlen kvs)) ++
                 flat_map (λ kv, fmt_term kv.1 ++ fmt_term kv.2) kvs
  | t_binary l => fmt_binary l
  | t_fun pid module index uniq free_vars =>
      (ERL_FUN_EXT :: be32 (zlen free_vars)) ++ epid_fmt pid ++ eatom_fmt module ++
      fmt_long index ++ fmt_long uniq ++ flat_map fmt_term free_vars
  | t_new_fun arity md5 index n_free module old_index uniq pid env =>
      fmt_new_fun arity md5 index n_free module old_index uniq pid env
  end.

Definition is_long (v : Z) : bool := (- 2 ^ 63 <=? v) && (v <? 2 ^ 63).

Fixpoint term_ok (t : eterm) : bool :=
  match t with
  | t_int v => is_long v
  | t_big _ digits => zlen digits <? 2 ^ 31
  | t_float bits => (0 <=? bits) && (bits <? 2 ^ 64)
  | t_atom a => eatom_ok a
  | t_pid p => eatom_ok (e_node p)
  | t_port node _ _ => eatom_ok node
  | t_ref node n _ => eatom_ok node && (zlen n <? 65536)
  | t_nil => true
  | t_string l => zlen l <? 65536
  | t_list ts tl => (zlen ts <? 2 ^ 31) && forallb term_ok ts && term_ok tl
  | t_tuple ts => (zlen ts <? 2 ^ 31) && forallb term_ok ts
  | t_map kvs => (zlen kvs <? 2 ^ 30) && forallb (λ kv, term_ok kv.1 && term_ok kv.2) kvs
  | t_binary l => zlen l <? 2 ^ 31
  | t_fun pid module index uniq free_vars =>
      eatom_ok (e_node pid) && eatom_ok module && is_long index && is_long uniq &&
      (zlen free_vars <? 2 ^ 31) && forallb term_ok free_vars
  | t_new_fun _ md5 _ _ module old_index uniq pid env =>
      (zlen md5 =? 16) && eatom_ok module && is_long old_index && is_long uniq &&
      eatom_ok (e_node pid) && (zlen env <? 2 ^ 30)
  end.

Definition max_list (l : list nat) : nat := foldr Nat.max O l.

(** Nesting depth: the recursion depth of [ei_skip_term]. *)
Fixpoint depth (t : eterm) : nat :=
  match t with
  | t_list ts tl => S (Nat.max (max_list (map depth ts)) (depth tl))
  | t_tuple ts => S (max_list (map depth ts))
  | t_map kvs => S (max_list (map (λ kv, Nat.max (depth kv.1) (depth kv.2)) kvs))
  | t_fun _ _ _ _ free_vars => S (max_list (map depth free_vars))
  | _ => 1%nat
  end.

(** The type [ei_get_type] reports. *)
Definition type_of (t : eterm) : Z :=
  match t with
  | t_int v => if (v <? 256) && (v >=? 0) then ERL_SMALL_INTEGER_EXT
               else if (v <=? ERL_MAX) && (v >=? ERL_MIN) then ERL_INTEGER_EXT
               else ERL_SMALL_BIG_EXT
  | t_big _ digits => if zlen digits <? 256 then ERL_SMALL_BIG_EXT else ERL_LARGE_BIG_EXT
  | t_float _ => ERL_FLOAT_EXT
  | t_atom _ => ERL_ATOM_EXT
  | t_pid _ => ERL_PID_EXT
  | t_port _ _ _ => ERL_PORT_EXT
  | t_ref _ _ _ => ERL_NEW_REFERENCE_EXT
  | t_nil => ERL_NIL_EXT
  | t_string _ => ERL_STRING_EXT
  | t_list _ _ => ERL_LIST_EXT
  | t_tuple ts => if zlen ts <=? 255 then ERL_SMALL_TUPLE_EXT else ERL_LARGE_TUPLE_EXT
  | t_map _ => ERL_MAP_EXT
  | t_binary _ => ERL_BINARY_EXT
  | t_fun _ _ _ _ _ => ERL_FUN_EXT
  | t_new_fun _ _ _ _ _ _ _ _ _ => ERL_NEW_FUN_EXT
  end.

Lemma eatom_ok_node a : eatom_ok a = true → ∃ l, node_atom (eatom_fmt a) l.
Proof.
  destruct a as [got small text]. unfold eatom_ok, node_atom, eatom_fmt. cbn [a_got a_small a_text].
  intros H. repeat (apply andb_prop in H as [H ?]).
  destruct (atom_view got ERLANG_UTF8 text) as [l|] eqn:E; [|done].
  exists l, got, small, text. split_and!; try done.
  - apply orb_prop in H as [H|H]; [left|right]; lia.
  - unfold atom_len_ok. destruct small; lia.
  - apply Forall_forall. intros c Hc. unfold is_byte in *.
    rewrite forallb_forall in H1. specialize (H1 c ltac:(by apply list_elem_of_In)).
    unfold byte. lia.
  - lia.
Qed.

(** The length field behind the tag. *)
Ltac get_len H :=
  first [ rewrite (get8_at_land _ _ _ _ H) | rewrite (get16be_at _ _ _ _ H)
        | rewrite (get32be_at _ _ _ _ H) ].

Lemma le_min_small v : zlen (le_min 8 v) < 256.
Proof. pose proof (le_min_length 8 v). unfold zlen. lia. Qed.

Lemma get_type_term t buf i rest :
  bytes_at buf i (fmt_term t ++ rest) →
  ∃ len, ei_get_type_internal buf i 0 = Ok (0, (type_of t, len)).
Proof.
  intros H. unfold ei_get_type_internal.
  destruct t; cbn [fmt_term type_of] in *.
  - unfold fmt_long in H. destruct (_ && _); [get_tag H; by eexists|].
    destruct (_ && _); [get_tag H; by eexists|]. get_tag H.
    rewrite (get8_tag _ _ _ _ H); [by eexists|].
    pose proof (le_min_small (Z.abs v)). pose proof (zlen_nonneg (le_min 8 (Z.abs v))). lia.
  - unfold fmt_raw_big in H. rewrite <- app_assoc in H.
    destruct (_ <? _); get_tag H; get_len H; by eexists.
  - get_tag H. by eexists.
  - destruct a as [got small text]. unfold eatom_fmt, fmt_atom in H. cbn [a_got a_small a_text] in H.
    rewrite <- app_comm_cons, <- app_assoc in H.
    destruct (got =? ERLANG_LATIN1), small; get_tag H; get_len H; by eexists.
  - unfold epid_fmt, fmt_pid in H. destruct (negb _); get_tag H; by eexists.
  - unfold fmt_port in H. destruct (negb _); get_tag H; by eexists.
  - unfold fmt_ref in H. destruct (negb _); get_tag H; by eexists.
  - get_tag H; by eexists.
  - rewrite <- app_comm_cons, <- app_assoc in H. get_tag H; get_len H; by eexists.
  - rewrite <- app_assoc, <- app_comm_cons in H. get_tag H; get_len H; by eexists.
  - unfold fmt_tuple_header in H. rewrite <- app_assoc in H.
    destruct (_ <=? _); get_tag H; get_len H; by eexists.
  - get_tag H; by eexists.
  - unfold fmt_binary in H. rewrite <- app_comm_cons, <- app_assoc in H.
    get_tag H; get_len H; by eexists.
  - get_tag H; by eexists.
  - unfold fmt_new_fun in H. get_tag H; by eexists.
Qed.

Lemma fmt_raw_big_len sign digits :
  zlen (fmt_raw_big sign digits) = (if zlen digits <? 256 then 3 else 6) + zlen digits.
Proof. unfold fmt_raw_big. destruct (_ <? _); zl. Qed.

Lemma ei_decode_big_skip buf i sign digits :
  zlen digits < 2 ^ 31 → zlen buf <= INT_MAX → bytes_at buf i (fmt_raw_big sign digits) →
  ei_decode_big buf i None = Ok (0, None, i + zlen (fmt_raw_big sign digits)).
Proof.
  intros Hd HM H. destruct (fmt_len_bound buf HM _ _ H) as [Hi Hb].
  rewrite fmt_raw_big_len in *. pose proof (zlen_nonneg digits).
  unfold ei_decode_big, fmt_raw_big in *.
  destruct (Z.ltb_spec (zlen digits) 256); get_tag H.
  - get_len H. rewrite bind_Ok, land_255, Z.mod_small, dec_ret_small by lia. do 2 f_equal. lia.
  - get_len H. cbn [mbind res_bind]. rewrite wrap_swrap, wrap_small, dec_ret_small by lia.
    do 2 f_equal. lia.
Qed.

(** [fmt_long] of a number that needs more than 28 bits is a big. *)
Lemma fmt_long_big v :
  (v <? 256) && (v >=? 0) = false → (v <=? ERL_MAX) && (v >=? ERL_MIN) = false →
  fmt_long v = fmt_raw_big (c_bool (v <? 0)) (le_min 8 (Z.abs v)).
Proof.
  intros E1 E2. unfold fmt_long, fmt_raw_big. rewrite E1, E2.
  pose proof (le_min_small (Z.abs v)). pose proof (zlen_nonneg (le_min 8 (Z.abs v))).
  destruct (Z.ltb_spec (zlen (le_min 8 (Z.abs v))) 256); [|lia].
  rewrite land_255, Z.mod_small by lia. by destruct (v <? 0).
Qed.

Section skip.
Context (scan : bytes → Z → option Z) (buf : bytes).
Hypothesis Hmax : zlen buf <= INT_MAX.

(** [skip] moves the index exactly past [t]. *)
Definition skips (skip : bytes → Z → res (Z * Z)) (t : eterm) : Prop :=
  ∀ i rest, bytes_at buf i (fmt_term t ++ rest) → skip buf i = Ok (0, i + zlen (fmt_term t)).

Lemma skip_loop_terms skip ts i rest :
  Forall (skips skip) ts → bytes_at buf i (flat_map fmt_term ts ++ rest) →
  skip_loop skip (length ts) buf i = Ok (i + zlen (flat_map fmt_term ts)).
Proof.
  intros Hts. revert i. induction Hts as [|t ts Ht Hts IH]; intros i H; cbn [length skip_loop flat_map] in *.
  { by rewrite zlen_nil, Z.add_0_r. }
  rewrite <- app_assoc in H. rewrite (Ht i _ H), bind_Ok. apply bytes_at_app in H as [_ H].
  rewrite IH by done. rewrite zlen_app. f_equal. lia.
Qed.

Lemma free_vars_loop_terms skip ts i rest :
  Forall (skips skip) ts → bytes_at buf i (flat_map fmt_term ts ++ rest) →
  free_vars_loop skip (length ts) buf i = Ok (Some (i + zlen (flat_map fmt_term ts))).
Proof.
  intros Hts. revert i. induction Hts as [|t ts Ht Hts IH]; intros i H;
    cbn [length free_vars_loop flat_map] in *.
  { by rewrite zlen_nil, Z.add_0_r. }
  rewrite <- app_assoc in H. rewrite (Ht i _ H), bind_Ok. apply bytes_at_app in H as [_ H].
  change (0 <? 0) with false. cbn iota.
  rewrite IH by done. rewrite zlen_app. do 2 f_equal. lia.
Qed.

Lemma fun_get_module_skip a i rest index k :
  eatom_ok a = true → bytes_at buf i (eatom_fmt a ++ rest) →
  fun_get_module buf i None index k = k None (i + zlen (eatom_fmt a)).
Proof.
  intros Ha H. apply bytes_at_app in H as [H _].
  destruct (eatom_ok_node a Ha) as (l & got & small & text & E & Hgot & Hlen & Ht & Hv & Hl).
  rewrite E in *. unfold fun_get_module. cbn [fmap option_fmap option_map].
  rewrite (ei_decode_atom_as_fmt buf i got small text) with (v := l) by done.
  by rewrite bind_assoc.
Qed.

Lemma fun_get_pid_skip p i rest index k :
  eatom_ok (e_node p) = true → bytes_at buf i (epid_fmt p ++ rest) →
  fun_get_pid buf i None index k = k None (i + zlen (epid_fmt p)).
Proof.
  intros Ha H. apply bytes_at_app in H as [H _]. destruct (eatom_ok_node _ Ha) as [l Hl].
  unfold fun_get_pid, epid_fmt in *. cbn [fmap option_fmap option_map].
  by rewrite (ei_decode_pid_skip buf _ l Hl Hmax _ _ _ _ H).
Qed.

Lemma fun_get_long_skip get set v i rest index k :
  is_long v = true → bytes_at buf i (fmt_long v ++ rest) →
  fun_get_long get set buf i None index k = k None (i + zlen (fmt_long v)).
Proof.
  intros Hv H. apply bytes_at_app in H as [H _]. unfold is_long in Hv.
  unfold fun_get_long. cbn [fmap option_fmap option_map]. unfold ei_decode_long.
  destruct (fmt_len_bound buf Hmax _ _ H).
  by rewrite (ei_decode_longlong_fmt _ _ v) by (done || lia).
Qed.

Lemma ei_decode_fun_skip skip pid module index uniq vars i :
  term_ok (t_fun pid module index uniq vars) = true → Forall (skips skip) vars →
  bytes_at buf i (fmt_term (t_fun pid module index uniq vars)) →
  ei_decode_fun_with skip (λ _, true) buf i None =
  Ok (0, None, i + zlen (fmt_term (t_fun pid module index uniq vars))).
Proof.
  intros Hok Hvars H. cbn [term_ok] in Hok. rewrite !andb_true_iff in Hok. destruct_and! Hok.
  destruct (fmt_len_bound buf Hmax _ _ H) as [Hi HM]. cbn [fmt_term] in *.
  unfold ei_decode_fun_with. rewrite <- app_comm_cons in H. get_tag H.
  pose proof (zlen_nonneg vars).
  get_len H. rewrite bind_Ok, swrap_small by lia. apply bytes_at_app in H as [_ H].
  rewrite zlen_be32 in H. cbn [upd_fun].
  rewrite (fun_get_pid_skip pid _ _ _ _ ltac:(assumption) H). apply bytes_at_app in H as [_ H].
  rewrite (fun_get_module_skip module _ _ _ _ ltac:(assumption) H). apply bytes_at_app in H as [_ H].
  rewrite (fun_get_long_skip _ _ index _ _ _ _ ltac:(assumption) H). apply bytes_at_app in H as [_ H].
  rewrite (fun_get_long_skip _ _ uniq _ _ _ _ ltac:(assumption) H). apply bytes_at_app in H as [_ H].
  rewrite to_nat_zlen, (free_vars_loop_terms _ _ _ []) by (done || by rewrite app_nil_r).
  rewrite bind_Ok. rewrite dec_ret_small; [do 2 f_equal|]; zl.
Qed.

Lemma ei_decode_new_fun_skip skip arity md5 index n_free module old_index uniq pid env i :
  term_ok (t_new_fun arity md5 index n_free module old_index uniq pid env) = true →
  bytes_at buf i (fmt_new_fun arity md5 index n_free module old_index uniq pid env) →
  ei_decode_fun_with skip (λ _, true) buf i None =
  Ok (0, None, i + zlen (fmt_new_fun arity md5 index n_free module old_index uniq pid env)).
Proof.
  intros Hok H. cbn [term_ok] in Hok. rewrite !andb_true_iff in Hok. destruct_and! Hok.
  assert (zlen md5 = 16) as Hmd5 by lia.
  destruct (fmt_len_bound buf Hmax _ _ H) as [Hi HM]. unfold fmt_new_fun in *. cbv zeta in *.
  set (size := 4 + zlen _) in *.
  assert (0 <= size <= INT_MAX) as Hsize.
  { subst size. rewrite zlen_cons, zlen_app in HM. pose proof (zlen_nonneg (
      Z.land arity 255 :: md5 ++ be32 index ++ be32 n_free ++ eatom_fmt module ++
      fmt_long old_index ++ fmt_long uniq ++ epid_fmt pid ++ env)).
    rewrite zlen_be32 in HM. lia. }
  unfold ei_decode_fun_with, INT_MAX in *. get_tag H.
  get_len H. rewrite bind_Ok, swrap_small by lia. apply bytes_at_app in H as [_ H].
  rewrite zlen_be32 in H. get_len H. rewrite bind_Ok. apply bytes_at_cons in H. cbn [upd_fun].
  rewrite bind_Ok. apply bytes_at_app in H as [_ H]. rewrite Hmd5 in H.
  get_len H. rewrite bind_Ok. apply bytes_at_app in H as [_ H]. rewrite zlen_be32 in H.
  get_len H. rewrite bind_Ok. apply bytes_at_app in H as [_ H]. rewrite zlen_be32 in H.
  cbn [upd_fun].
  rewrite (fun_get_module_skip module _ _ _ _ ltac:(assumption) H). apply bytes_at_app in H as [_ H].
  rewrite (fun_get_long_skip _ _ old_index _ _ _ _ ltac:(assumption) H). apply bytes_at_app in H as [_ H].
  rewrite (fun_get_long_skip _ _ uniq _ _ _ _ ltac:(assumption) H). apply bytes_at_app in H as [_ H].
  rewrite (fun_get_pid_skip pid _ _ _ _ ltac:(assumption) H). apply bytes_at_app in H as [_ H].
  subst size. autorewrite with cmem in *. pose proof (zlen_nonneg env).
  rewrite to_int_small by (unfold INT_MAX; lia).
  match goal with |- context [?n <? 0] => destruct (Z.ltb_spec n 0); [lia|] end.
  rewrite dec_ret_small by (unfold INT_MAX; lia). do 2 f_equal. lia.
Qed.

Lemma max_list_in n ns : n ∈ ns → (n <= max_list ns)%nat.
Proof. induction 1; simpl; lia. Qed.

(** The subterms of a term that fits the fuel fit what is left of it. *)
Lemma subterms_skip (P : eterm → Prop) fuel ts :
  (∀ t, (depth t <= fuel)%nat → term_ok t = true → P t) →
  (max_list (map depth ts) <= fuel)%nat → forallb term_ok ts = true → Forall P ts.
Proof.
  intros HP Hd Hok. apply Forall_forall. intros t Ht. apply HP.
  - etransitivity; [|exact Hd]. apply max_list_in. apply list_elem_of_fmap. eauto.
  - rewrite forallb_forall in Hok. apply Hok. by apply list_elem_of_In.
Qed.

Definition kv_list (kvs : list (eterm * eterm)) : list eterm :=
  flat_map (λ kv, [kv.1; kv.2]) kvs.

Lemma kv_list_fmt kvs :
  flat_map (λ kv, fmt_term kv.1 ++ fmt_term kv.2) kvs = flat_map fmt_term (kv_list kvs).
Proof.
  induction kvs as [|[k v] kvs IH]; [done|]. unfold kv_list in *. simpl. by rewrite IH, app_assoc.
Qed.

Lemma kv_list_ok kvs :
  forallb (λ kv, term_ok kv.1 && term_ok kv.2) kvs = true → forallb term_ok (kv_list kvs) = true.
Proof.
  induction kvs as [|[k v] kvs IH]; [done|]. unfold kv_list in *. cbn [flat_map forallb app fst snd].
  rewrite !andb_true_iff. intros [[? ?] ?]. auto.
Qed.

Lemma kv_list_depth kvs :
  max_list (map depth (kv_list kvs)) =
  max_list (map (λ kv, Nat.max (depth kv.1) (depth kv.2)) kvs).
Proof.
  induction kvs as [|[k v] kvs IH]; [done|]. unfold kv_list in *. cbn [flat_map map app fst snd max_list foldr].
  unfold max_list in *. rewrite IH. lia.
Qed.

Lemma kv_list_length kvs : zlen (kv_list kvs) = 2 * zlen kvs.
Proof. induction kvs as [|[k v] kvs IH]; [done|]. unfold kv_list in *. simpl. zl. Qed.

Lemma type_of_nil t : type_of t = ERL_NIL_EXT → t = t_nil.
Proof. destruct t; cbn [type_of]; repeat case_match; done. Qed.

Lemma ei_decode_list_ext i n rest a :
  0 <= n < 2 ^ 31 → bytes_at buf i ((ERL_LIST_EXT :: be32 n) ++ rest) →
  ei_decode_list_header buf i a = Ok (0, set_out a n, i + 5).
Proof.
  intros Hn H. apply bytes_at_app in H as [H _]. destruct (fmt_len_bound buf Hmax _ _ H).
  unfold ei_decode_list_header. get_tag H.
  rewrite get32be_opt_at with (n := n), bind_Ok, dec_ret_small by (done || zl). do 2 f_equal. zl.
Qed.

Section step.
Context (fuel : nat).
Hypothesis IH :
  ∀ t, (depth t <= fuel)%nat → term_ok t = true → skips (ei_skip_term scan fuel) t.

Lemma skip_list ts tl :
  (depth (t_list ts tl) <= S fuel)%nat → term_ok (t_list ts tl) = true →
  skips (ei_skip_term scan (S fuel)) (t_list ts tl).
Proof.
  intros Hd Hok i rest H. destruct (get_type_term _ buf i rest H) as [len Hty].
  cbn [depth term_ok type_of fmt_term] in *. rewrite !andb_true_iff in Hok. destruct_and! Hok.
  pose proof (zlen_nonneg ts). rewrite <- !app_assoc in H.
  cbn [ei_skip_term]. rewrite Hty, bind_Ok. tag_simpl.
  rewrite (ei_decode_list_ext _ (zlen ts) _ _ ltac:(lia) H), bind_Ok. change (0 <? 0) with false.
  cbn [set_out]; change (default 0 (Some ?x)) with x. cbn iota. apply bytes_at_app in H as [_ H].
  rewrite zlen_cons, zlen_be32 in H. change (1 + 4) with 5 in H.
  assert (Forall (skips (ei_skip_term scan fuel)) ts) as Hts
    by (apply (subterms_skip _ fuel); [done|lia|done]).
  rewrite to_nat_zlen, (skip_loop_terms _ ts _ _ Hts H), bind_Ok.
  apply bytes_at_app in H as [_ H].
  destruct (get_type_term _ buf _ _ H) as [len' ->]. rewrite bind_Ok.
  change (0 <? 0) with false. cbn iota.
  destruct (Z.eqb_spec (type_of tl) ERL_NIL_EXT) as [Hn|Hn]; cbn [negb].
  - apply type_of_nil in Hn as ->. cbn [fmt_term] in *. apply bytes_at_app in H as [H _].
    destruct (fmt_len_bound buf Hmax _ _ H).
    rewrite (ei_decode_list_header_fmt _ _ 0) by (done || lia). rewrite bind_Ok.
    change (0 <? 0) with false. do 2 f_equal. change (fmt_list_header 0) with [ERL_NIL_EXT]. zl.
  - assert (depth tl <= fuel)%nat as Hdt by lia.
    rewrite (IH tl Hdt ltac:(assumption) _ _ H), bind_Ok. do 2 f_equal. zl.
Qed.

Lemma skip_tuple ts :
  (depth (t_tuple ts) <= S fuel)%nat → term_ok (t_tuple ts) = true →
  skips (ei_skip_term scan (S fuel)) (t_tuple ts).
Proof.
  intros Hd Hok i rest H. destruct (get_type_term _ buf i rest H) as [len Hty].
  cbn [depth term_ok type_of fmt_term] in *. rewrite !andb_true_iff in Hok. destruct_and! Hok.
  pose proof (zlen_nonneg ts). rewrite <- !app_assoc in H.
  cbn [ei_skip_term]. rewrite Hty, bind_Ok. pose proof H as H'. apply bytes_at_app in H' as [H' _].
  destruct (fmt_len_bound buf Hmax _ _ H').
  apply bytes_at_app in H as [_ H].
  assert (Forall (skips (ei_skip_term scan fuel)) ts) as Hts
    by (apply (subterms_skip _ fuel); [done|lia|done]).
  destruct (zlen ts <=? 255) eqn:E; tag_simpl;
    rewrite (ei_decode_tuple_header_fmt _ _ (zlen ts)), bind_Ok by (done || lia);
    change (0 <? 0) with false; cbn [set_out]; change (default 0 (Some ?x)) with x; cbn iota;
    rewrite to_nat_zlen, (skip_loop_terms _ ts _ _ Hts H), bind_Ok;
    do 2 f_equal; zl.
Qed.

Lemma skip_map kvs :
  (depth (t_map kvs) <= S fuel)%nat → term_ok (t_map kvs) = true →
  skips (ei_skip_term scan (S fuel)) (t_map kvs).
Proof.
  intros Hd Hok i rest H. destruct (get_type_term _ buf i rest H) as [len Hty].
  cbn [depth term_ok type_of fmt_term] in *. rewrite !andb_true_iff in Hok. destruct_and! Hok.
  pose proof (zlen_nonneg kvs). rewrite kv_list_fmt, <- kv_list_depth in *. rewrite <- !app_assoc in H.
  cbn [ei_skip_term]. rewrite Hty, bind_Ok. tag_simpl. pose proof H as H'.
  apply bytes_at_app in H' as [H' _]. destruct (fmt_len_bound buf Hmax _ _ H').
  apply bytes_at_app in H as [_ H]. rewrite zlen_cons, zlen_be32 in *. change (1 + 4) with 5 in *.
  rewrite (ei_decode_map_header_fmt _ _ (zlen kvs)), bind_Ok by (done || lia).
  change (0 <? 0) with false. cbn [set_out]; change (default 0 (Some ?x)) with x. cbn iota.
  rewrite to_int_small by (unfold INT_MAX; lia).
  replace (zlen kvs * 2) with (zlen (kv_list kvs)) by (rewrite kv_list_length; lia).
  assert (Forall (skips (ei_skip_term scan fuel)) (kv_list kvs)) as Hts
    by (apply (subterms_skip _ fuel); [done|lia|by apply kv_list_ok]).
  rewrite to_nat_zlen, (skip_loop_terms _ _ _ _ Hts H), bind_Ok.
  do 2 f_equal. zl.
Qed.

(** Terms without subterms, and funs. *)
Lemma skip_simple t :
  match t with t_list _ _ | t_tuple _ | t_map _ => False | _ => True end →
  (depth t <= S fuel)%nat → term_ok t = true →
  skips (ei_skip_term scan (S fuel)) t.
Proof.
  intros Hc Hd Hok i rest H. destruct (get_type_term t buf i rest H) as [len Hty].
  apply bytes_at_app in H as [H _]. destruct (fmt_len_bound buf Hmax _ _ H).
  cbn [ei_skip_term]. rewrite Hty, bind_Ok. clear Hty.
  destruct t; try done; cbn [type_of fmt_term term_ok] in *.
  - unfold is_long in Hok. destruct ((v <? 256) && (v >=? 0)) eqn:E1.
    { tag_simpl. unfold ei_decode_long. by rewrite (ei_decode_longlong_fmt _ _ v) by (done || lia). }
    destruct ((v <=? ERL_MAX) && (v >=? ERL_MIN)) eqn:E2.
    { tag_simpl. unfold ei_decode_long. by rewrite (ei_decode_longlong_fmt _ _ v) by (done || lia). }
    tag_simpl. rewrite (fmt_long_big v E1 E2) in *.
    assert (zlen (le_min 8 (Z.abs v)) < 2 ^ 31) as Hlt by (pose proof (le_min_small (Z.abs v)); lia).
    by rewrite (ei_decode_big_skip _ _ _ _ Hlt Hmax H).
  - assert (zlen digits < 2 ^ 31) as Hlt by lia. destruct (zlen digits <? 256); tag_simpl;
      by rewrite (ei_decode_big_skip _ _ _ _ Hlt Hmax H).
  - tag_simpl. rewrite zlen_cons, zlen_be64 in *.
    by rewrite (ei_decode_double_fmt _ _ _ bits) by (done || lia).
  - tag_simpl. destruct (eatom_ok_node a Hok) as (l & got & small & text & E & Hgot & Hlen & Ht & Hv & Hl).
    rewrite E in *.
    rewrite (ei_decode_atom_as_fmt buf i got small text) with (v := text); try done.
    + unfold atom_view. destruct Hgot as [-> | ->]; by tag_simpl.
    + unfold atom_view in Hv. destruct Hgot as [-> | ->]; revert Hv; tag_simpl; intros [= <-]; [|done].
      pose proof (l2u_length text). lia.
  - tag_simpl. destruct (eatom_ok_node _ Hok) as [l Hl]. unfold epid_fmt in *.
    by rewrite (ei_decode_pid_skip _ _ _ Hl Hmax _ _ _ _ H).
  - tag_simpl. destruct (eatom_ok_node _ Hok) as [l Hl].
    by rewrite (ei_decode_port_skip _ _ _ Hl Hmax _ _ _ H).
  - tag_simpl. rewrite andb_true_iff in Hok. destruct Hok as [Hok Hn].
    destruct (eatom_ok_node _ Hok) as [l Hl]. apply Z.ltb_lt in Hn.
    by rewrite (ei_decode_ref_skip _ _ _ Hl Hmax _ _ _ Hn H).
  - tag_simpl. by rewrite (ei_decode_list_header_fmt _ _ 0) by (done || lia).
  - tag_simpl. unfold ei_decode_string. get_tag H. pose proof (zlen_nonneg l).
    get_len H. rewrite Z.mod_small, bind_Ok by lia. rewrite bind_Ok.
    rewrite dec_ret_small by zl. cbn [mbind res_bind]. change (0 <? 0) with false. do 2 f_equal. zl.
  - tag_simpl. by rewrite (ei_decode_binary_fmt _ _ l) by (done || lia).
  - tag_simpl. rewrite (ei_decode_fun_skip _ pid module index uniq free_vars i Hok); [done| |done].
    cbn [depth] in Hd. rewrite !andb_true_iff in Hok. destruct_and! Hok.
    by apply (subterms_skip _ fuel); [|lia|].
  - tag_simpl. by rewrite (ei_decode_new_fun_skip _ _ _ _ _ _ _ _ _ _ _ Hok H).
Qed.
End step.

(** [ei_skip_term] returns 0 and moves the index exactly past any well-formed
    term that is in the buffer. *)
Lemma ei_skip_term_skips fuel t :
  (depth t <= fuel)%nat → term_ok t = true → skips (ei_skip_term scan fuel) t.
Proof.
  revert t. induction fuel as [|fuel IH]; intros t Hd Hok.
  { destruct t; simpl in Hd; lia. }
  destruct t; first [by apply skip_list | by apply skip_tuple | by apply skip_map
                    | by apply skip_simple].
Qed.
End skip.
