(* ===== verification/EiBuff.v ===== *)
(** The self-expanding buffer of [ei]: src/misc/ei_x_encode.c.

    Every [ei_x_encode_*] function runs its encoder twice, on a NULL buffer for
    the size and then on the grown buffer; they differ in the encoder only.  The
    proofs use what the encoders promise through [Encodes]. *)
From S2P Require Import Prelude EiBase EiEncode EiDecode EiAtom EiTerm.

(** [ei_x_buff]; [x_buff] is the block [buff] points to, [None] for NULL. *)
Record ei_x_buff := mk_x { x_buff : option bytes; x_buffsz : Z; x_index : Z }.

Definition ei_x_extra : Z := 100.

Section x_encode.
(** The C allocator. *)
Context (malloc : Z → option bytes) (realloc : option bytes → Z → option bytes).

Definition ei_x_new (x : ei_x_buff) : Z * ei_x_buff :=
  let x := mk_x (malloc ei_x_extra) ei_x_extra 0 in
  (if x_buff x is Some _ then 0 else -1, x).

(** The result of an encoder called with [x->buff] and [&x->index]. *)
Definition x_store (x : ei_x_buff) (m : res (Z * option bytes * Z)) : res (Z * ei_x_buff) :=
  '(rc, b, i) ← m; Ok (rc, mk_x b (x_buffsz x) i).

Definition ei_x_new_with_version (x : ei_x_buff) : res (Z * ei_x_buff) :=
  let '(rc, x) := ei_x_new x in
  if rc <? 0 then Ok (-1, x)
  else x_store x (ei_encode_version (x_buff x) (x_index x)).

Definition ei_x_free (x : ei_x_buff) : Z * ei_x_buff :=
  match x_buff x with
  | None => (-1, x)
  | Some _ => (0, mk_x None (x_buffsz x) (x_index x))
  end.

Definition x_fix_buff (x : ei_x_buff) (szneeded : Z) : bool * ei_x_buff :=
  let sz := to_int (szneeded + ei_x_extra) in
  let x := if sz >? x_buffsz x then
             let sz := to_int (sz + ei_x_extra) in mk_x (realloc (x_buff x) sz) sz (x_index x)
           else x in
  (if x_buff x is Some _ then true else false, x).

Definition ei_x_append_buf (x : ei_x_buff) (buf : bytes) (len : Z) : res (Z * ei_x_buff) :=
  let '(good, x) := x_fix_buff x (to_int (x_index x + len)) in
  if negb good then Ok (-1, x)
  else match x_buff x with
       | None => Fault
       | Some b =>
           b ← copy_in b (x_index x) buf len;
           Ok (0, mk_x (Some b) (x_buffsz x) (to_int (x_index x + len)))
       end.

(** [x2] is another buffer than [x]; an empty one may be NULL. *)
Definition ei_x_append (x x2 : ei_x_buff) : res (Z * ei_x_buff) :=
  ei_x_append_buf x (default [] (x_buff x2)) (x_index x2).

(** The body the [ei_x_encode_*] functions share, for the encoder [enc]. *)
Definition ei_x_encode (enc : encoder) (x : ei_x_buff) : res (Z * ei_x_buff) :=
  '(rc, _, i) ← enc None (x_index x);
  if rc =? -1 then Ok (-1, x)
  else
    let '(good, x) := x_fix_buff x i in
    if negb good then Ok (-1, x)
    else x_store x (enc (x_buff x) (x_index x)).

(** The variant whose size pass cannot fail (encode_longlong.c). *)
Definition ei_x_encode_nofail (enc : encoder) (x : ei_x_buff) : res (Z * ei_x_buff) :=
  '(_, _, i) ← enc None (x_index x);
  let '(good, x) := x_fix_buff x i in
  if negb good then Ok (-1, x)
  else x_store x (enc (x_buff x) (x_index x)).

Definition ei_x_encode_longlong x n := ei_x_encode_nofail (λ b i, ei_encode_longlong b i n) x.
Definition ei_x_encode_ulonglong x n := ei_x_encode_nofail (λ b i, ei_encode_ulonglong b i n) x.
Definition ei_x_encode_string_len x s len := ei_x_encode (λ b i, ei_encode_string_len b i s len) x.
Definition ei_x_encode_string x s := len ← strlen s; ei_x_encode_string_len x s (to_int len).
Definition ei_x_encode_binary x p len := ei_x_encode (λ b i, ei_encode_binary b i p len) x.
Definition ei_x_encode_long x n := ei_x_encode (λ b i, ei_encode_long b i n) x.
Definition ei_x_encode_ulong x n := ei_x_encode (λ b i, ei_encode_ulong b i n) x.
Definition ei_x_encode_char x p := ei_x_encode (λ b i, ei_encode_char b i p) x.
Definition ei_x_encode_boolean x p := ei_x_encode (λ b i, ei_encode_boolean b i p) x.
Definition ei_x_encode_double x d := ei_x_encode (λ b i, ei_encode_double b i d) x.
Definition ei_x_encode_list_header x n := ei_x_encode (λ b i, ei_encode_list_header b i n) x.
Definition ei_x_encode_empty_list x := ei_x_encode ei_encode_empty_list x.
Definition ei_x_encode_version x := ei_x_encode ei_encode_version x.
Definition ei_x_encode_tuple_header x n := ei_x_encode (λ b i, ei_encode_tuple_header b i n) x.
Definition ei_x_encode_map_header x n := ei_x_encode (λ b i, ei_encode_map_header b i n) x.
Definition ei_x_encode_atom_len_as x s len from_enc to_enc :=
  ei_x_encode (λ b i, ei_encode_atom_len_as b i s len from_enc to_enc) x.
Definition ei_x_encode_atom x s :=
  len ← strlen s; ei_x_encode_atom_len_as x s (to_int len) ERLANG_LATIN1 ERLANG_LATIN1.
Definition ei_x_encode_atom_len x s len :=
  ei_x_encode_atom_len_as x s len ERLANG_LATIN1 ERLANG_LATIN1.
Definition ei_x_encode_atom_as x s from_enc to_enc :=
  len ← strlen s; ei_x_encode_atom_len_as x s (to_int len) from_enc to_enc.
Definition ei_x_encode_pid x p := ei_x_encode (λ b i, ei_encode_pid b i p) x.
Definition ei_x_encode_fun x p := ei_x_encode (λ b i, ei_encode_fun b i p) x.
Definition ei_x_encode_ref x p := ei_x_encode (λ b i, ei_encode_ref b i p) x.
Definition ei_x_encode_port x p := ei_x_encode (λ b i, ei_encode_port b i p) x.
Definition ei_x_encode_trace x p := ei_x_encode (λ b i, ei_encode_trace b i p) x.

(** * Correctness *)

(** A live buffer: the block has the recorded size and holds the encoded bytes. *)
Definition x_ok (x : ei_x_buff) (c : bytes) : Prop :=
  ∃ b, x_buff x = Some b ∧ zlen b = x_buffsz x ∧ x_index x = zlen c ∧ bytes_at b 0 c.

(** What ISO C says of [malloc] and [realloc]. *)
Hypothesis malloc_size : ∀ n b, malloc n = Some b → zlen b = n.
Hypothesis realloc_size : ∀ o n b, realloc o n = Some b → zlen b = n.
Hypothesis realloc_keeps : ∀ b n b', realloc (Some b) n = Some b' →
  ∀ l, bytes_at b 0 l → zlen l <= n → bytes_at b' 0 l.

Lemma x_fix_buff_spec x c need good x' :
  x_ok x c → zlen c <= need → need + 2 * ei_x_extra <= INT_MAX →
  x_fix_buff x need = (good, x') →
  if good then x_ok x' c ∧ need <= x_buffsz x' else x_buff x' = None ∧ x_index x' = x_index x.
Proof.
  intros (b & Hb & Hsz & Hi & Hc) Hlen HM. unfold x_fix_buff, ei_x_extra in *.
  pose proof (zlen_nonneg c). rewrite to_int_small by lia.
  destruct (Z.gtb_spec (need + 100) (x_buffsz x)) as [Hg|Hg].
  - rewrite to_int_small by lia. cbn [x_buff]. rewrite Hb.
    destruct (realloc (Some b) _) as [b'|] eqn:E; intros [= <- <-]; [|done].
    pose proof (realloc_size _ _ _ E) as Hs. split; [|simpl; lia].
    exists b'. split_and!; [done|done|done|]. apply (realloc_keeps _ _ _ E); [done|lia].
  - rewrite Hb. intros [= <- <-]. split; [by exists b|lia].
Qed.

Lemma splice_end b c l :
  bytes_at b 0 c → zlen c + zlen l <= zlen b → bytes_at (splice b (zlen c) l) 0 (c ++ l).
Proof.
  intros (pre & post & -> & Hp) Hl. destruct pre; [|rewrite zlen_cons in Hp; pose proof (zlen_nonneg pre); lia].
  exists [], (drop (length c + length l) (c ++ post)). split; [|done].
  unfold splice. rewrite to_nat_zlen. cbn [app]. rewrite take_app_length. by rewrite <- app_assoc.
Qed.

(** Appending an encoding: the bytes of the term, and nothing else, are added,
    or the allocation failed. *)
Lemma ei_x_encode_spec enc l `{!Encodes enc l} x c :
  x_ok x c → zlen c + zlen l + 2 * ei_x_extra <= INT_MAX →
  ∃ rc x', ei_x_encode enc x = Ok (rc, x') ∧
    ((rc = 0 ∧ x_ok x' (c ++ l)) ∨ (rc = -1 ∧ x_buff x' = None ∧ x_index x' = x_index x)).
Proof.
  intros Hx HM. pose proof Hx as (b & Hb & Hsz & Hi & Hc). unfold ei_x_extra in *.
  pose proof (zlen_nonneg c). pose proof (zlen_nonneg l).
  unfold ei_x_encode. rewrite Hi, (enc_size (zlen c)) by lia. rewrite bind_Ok.
  change (0 =? -1) with false. cbn iota.
  destruct (x_fix_buff x (zlen c + zlen l)) as [good x'] eqn:E.
  eapply x_fix_buff_spec in E; [|done|lia|unfold ei_x_extra; lia].
  destruct good; cbn [negb].
  - destruct E as [(b' & Hb' & Hsz' & Hi' & Hc') Hn]. rewrite Hb', Hi'.
    rewrite (enc_fits enc l) by lia. eexists _, _. split; [reflexivity|]. left. split; [done|].
    eexists. cbn [x_buff x_buffsz x_index]. split_and!; [done| |by rewrite zlen_app|].
    + rewrite zlen_splice by lia. done.
    + apply splice_end; [done|lia].
  - destruct E as [E1 E2]. eexists _, _. split; [reflexivity|]. right. by rewrite <- Hi.
Qed.

(** An encoder that never fails makes the two variants the same. *)
Lemma ei_x_encode_nofail_eq enc l `{!Encodes enc l} x c :
  x_ok x c → zlen c + zlen l <= INT_MAX →
  ei_x_encode_nofail enc x = ei_x_encode enc x.
Proof.
  intros (b & Hb & Hsz & Hi & Hc) HM. pose proof (zlen_nonneg c).
  unfold ei_x_encode_nofail, ei_x_encode. by rewrite Hi, (enc_size (zlen c)) by lia.
Qed.

Lemma ei_x_append_buf_spec x c buf l :
  x_ok x c → bytes_at buf 0 l → zlen c + zlen l + 2 * ei_x_extra <= INT_MAX →
  ∃ rc x', ei_x_append_buf x buf (zlen l) = Ok (rc, x') ∧
    ((rc = 0 ∧ x_ok x' (c ++ l)) ∨ (rc = -1 ∧ x_buff x' = None ∧ x_index x' = x_index x)).
Proof.
  intros Hx Hl HM. pose proof Hx as (b & Hb & Hsz & Hi & Hc). unfold ei_x_extra in *.
  pose proof (zlen_nonneg c). pose proof (zlen_nonneg l).
  unfold ei_x_append_buf. rewrite Hi, to_int_small by lia.
  destruct (x_fix_buff x (zlen c + zlen l)) as [good x'] eqn:E.
  eapply x_fix_buff_spec in E; [|done|lia|unfold ei_x_extra; lia].
  destruct good; cbn [negb].
  - destruct E as [(b' & Hb' & Hsz' & Hi' & Hc') Hn]. rewrite Hb', Hi'.
    rewrite copy_in_spec, wrs_ok, to_int_small by (done || lia).
    eexists _, _. split; [reflexivity|]. left. split; [done|].
    eexists. cbn [x_buff x_buffsz x_index]. split_and!; [done| |by rewrite zlen_app|].
    + rewrite zlen_splice by lia. done.
    + apply splice_end; [done|lia].
  - destruct E as [E1 E2]. eexists _, _. split; [reflexivity|]. right. by rewrite <- Hi.
Qed.

Lemma ei_x_new_spec x :
  let '(rc, x') := ei_x_new x in
  (rc = 0 ∧ x_ok x' [] ∧ x_buffsz x' = ei_x_extra) ∨ (rc = -1 ∧ x_buff x' = None).
Proof.
  unfold ei_x_new. cbn [x_buff]. destruct (malloc ei_x_extra) as [b|] eqn:E; [left|by right].
  split; [done|]. split; [|done]. exists b. cbn [x_buff x_buffsz x_index].
  split_and!; [done|by apply malloc_size|done|]. by exists [], b.
Qed.

(** The version byte fits the initial block. *)
Lemma ei_x_new_with_version_spec x :
  ∃ rc x', ei_x_new_with_version x = Ok (rc, x') ∧
    ((rc = 0 ∧ x_ok x' [ERL_VERSION_MAGIC]) ∨ (rc = -1 ∧ x_buff x' = None)).
Proof.
  unfold ei_x_new_with_version. pose proof (ei_x_new_spec x) as Hx.
  destruct (ei_x_new x) as [rc x1].
  destruct Hx as [(-> & (b & Hb & Hsz & Hi & Hc) & He)|[-> Hx]].
  - change (0 <? 0) with false. cbn iota. rewrite Hb, Hi, (@zlen_nil Z).
    unfold ei_x_extra in He.
    rewrite (enc_fits ei_encode_version [ERL_VERSION_MAGIC]) by (unfold INT_MAX; zl).
    eexists _, _. split; [reflexivity|]. left. split; [done|].
    eexists. cbn [x_buff x_buffsz x_index]. split_and!; [done| |done|].
    + rewrite zlen_splice by zl. done.
    + change 0 with (zlen (@nil Z)). apply (splice_end b [] [ERL_VERSION_MAGIC]); [done|zl].
  - eexists _, _. split; [reflexivity|]. by right.
Qed.

(** A sequence of encodings into one buffer, stopping at the first failure. *)
Fixpoint ei_x_encode_seq (encs : list encoder) (x : ei_x_buff) : res (Z * ei_x_buff) :=
  match encs with
  | [] => Ok (0, x)
  | enc :: encs =>
      '(rc, x) ← ei_x_encode enc x;
      if rc <? 0 then Ok (-1, x) else ei_x_encode_seq encs x
  end.

Lemma ei_x_encode_seq_spec encs ls x c :
  Forall2 Encodes encs ls → x_ok x c → zlen c + zlen (concat ls) + 2 * ei_x_extra <= INT_MAX →
  ∃ rc x', ei_x_encode_seq encs x = Ok (rc, x') ∧
    ((rc = 0 ∧ x_ok x' (c ++ concat ls)) ∨ (rc = -1 ∧ x_buff x' = None)).
Proof.
  intros H. revert x c. induction H as [|enc l encs ls He H IH]; intros x c Hx HM.
  { eexists _, _. split; [reflexivity|]. left. by rewrite app_nil_r. }
  cbn [concat ei_x_encode_seq] in *. rewrite zlen_app in HM.
  pose proof (zlen_nonneg (concat ls)).
  destruct (ei_x_encode_spec enc l x c Hx) as (rc & x' & -> & [[-> Hx']|(-> & Hx' & _)]); [lia| |].
  - rewrite bind_Ok. change (0 <? 0) with false. cbn iota. rewrite app_assoc.
    apply IH; [done|rewrite zlen_app; lia].
  - rewrite bind_Ok. eexists _, _. split; [reflexivity|]. by right.
Qed.
End x_encode.
