(* ===== verification/EiProps.v ===== *)
(** What the [ei] library promises its users: every value that was encoded is
    decoded again, the traversal of a message stays in step with its terms, and
    the expanding buffer holds exactly what was put into it. *)
From S2P Require Import Prelude EiBase EiEncode EiDecode EiAtom EiTerm EiBuff.

(** There is room for [l] at index [i] of [b], and indices are [int]s. *)
Definition fits (b : bytes) (i : Z) (l : bytes) : Prop :=
  0 <= i ∧ i + zlen l <= zlen b ∧ zlen b <= INT_MAX.

(** Encoding into a buffer with room, and what the buffer then holds. *)
Lemma fits_encode f l `{!Encodes f l} b i :
  fits b i l →
  f (Some b) i = Ok (0, Some (splice b i l), i + zlen l) ∧
  bytes_at (splice b i l) i l ∧ zlen (splice b i l) <= INT_MAX ∧ i + zlen l <= INT_MAX.
Proof.
  intros (Hi & Hb & HM). split_and!; [|by apply splice_bytes_at|by rewrite zlen_splice|lia].
  apply (enc_fits f l); lia.
Qed.

(** * Roundtrips *)

(** Any [long] that [ei_encode_long] writes is read back by [ei_decode_long],
    which ends at the index the encoder ended at; the rest of the buffer is
    unchanged. *)
Lemma long_roundtrip b i p old :
  - 2 ^ 63 <= p < 2 ^ 63 → fits b i (fmt_long p) →
  ∃ b', b' = splice b i (fmt_long p) ∧
    ei_encode_long (Some b) i p = Ok (0, Some b', i + zlen (fmt_long p)) ∧
    ei_decode_long b' i (Some old) = Ok (0, Some p, i + zlen (fmt_long p)).
Proof.
  intros Hp Hf. pose proof (ei_encode_longlong_enc p Hp).
  destruct (fits_encode _ _ b i Hf) as (He & Hb & _ & HM).
  eexists. split; [done|]. split; [exact He|]. by apply (ei_decode_longlong_fmt _ _ p (Some old)).
Qed.

(** The same for [unsigned long], up to 2^64 - 1. *)
Lemma ulong_roundtrip b i p old :
  0 <= p < 2 ^ 64 → fits b i (fmt_long p) →
  ∃ b', b' = splice b i (fmt_long p) ∧
    ei_encode_ulong (Some b) i p = Ok (0, Some b', i + zlen (fmt_long p)) ∧
    ei_decode_ulong b' i (Some old) = Ok (0, Some p, i + zlen (fmt_long p)).
Proof.
  intros Hp Hf. pose proof (ei_encode_ulonglong_enc p Hp).
  destruct (fits_encode _ _ b i Hf) as (He & Hb & _ & HM).
  eexists. split; [done|]. split; [exact He|]. by apply (ei_decode_ulonglong_fmt _ _ p (Some old)).
Qed.

(** A character string, stored as STRING_EXT or, above 65535 characters, as a
    list, is read back NUL-terminated into any array that has room. *)
Lemma string_roundtrip b i src l d :
  bytes_at src 0 l → Forall byte l → zlen l <= 1073741820 → zlen l < zlen d →
  fits b i (fmt_string l) →
  ∃ b', b' = splice b i (fmt_string l) ∧
    ei_encode_string_len (Some b) i src (zlen l) = Ok (0, Some b', i + zlen (fmt_string l)) ∧
    ei_decode_string b' i (Some d) =
      Ok (0, Some (splice d 0 (l ++ [0])), i + zlen (fmt_string l)).
Proof.
  intros Hs Hl Hlen Hd Hf. pose proof (ei_encode_string_len_enc src l Hs Hlen).
  destruct (fits_encode _ _ b i Hf) as (He & Hb & _ & HM).
  eexists. split; [done|]. split; [exact He|].
  apply (ei_decode_string_fmt _ _ l (Some d)); [done|lia|done|done|]. by intros ? [= <-].
Qed.

(** A binary is read back byte for byte, with its length. *)
Lemma binary_roundtrip b i src l d n :
  bytes_at src 0 l → zlen l < 2 ^ 31 → zlen l <= zlen d → fits b i (fmt_binary l) →
  ∃ b', b' = splice b i (fmt_binary l) ∧
    ei_encode_binary (Some b) i src (zlen l) = Ok (0, Some b', i + zlen (fmt_binary l)) ∧
    ei_decode_binary b' i (Some d) (Some n) =
      Ok (0, (Some (splice d 0 l), Some (zlen l)), i + zlen (fmt_binary l)).
Proof.
  intros Hs Hl Hd Hf. pose proof (ei_encode_binary_enc src l Hs).
  destruct (fits_encode _ _ b i Hf) as (He & Hb & _ & HM).
  eexists. split; [done|]. split; [exact He|].
  apply (ei_decode_binary_fmt _ _ l (Some d) (Some n)); [done|done|done|]. by intros ? [= <-].
Qed.

(** A big integer of [n] digit bytes is read back into an [erlang_big]
    allocated for [n] digit bytes. *)
Lemma big_roundtrip b i n neg dt neg0 dt0 :
  0 <= n < 2 ^ 31 → digits_fit n dt → length dt0 = length dt → byte neg →
  fits b i (fmt_big (mk_big n neg dt)) →
  ∃ b', b' = splice b i (fmt_big (mk_big n neg dt)) ∧
    ei_encode_big (Some b) i (mk_big n neg dt) =
      Ok (0, Some b', i + zlen (fmt_big (mk_big n neg dt))) ∧
    ei_decode_big b' i (Some (mk_big n neg0 dt0)) =
      Ok (0, Some (mk_big n neg dt), i + zlen (fmt_big (mk_big n neg dt))).
Proof.
  intros Hn Hd H0 Hneg Hf.
  assert (big_ok (mk_big n neg dt)) as Hok by (destruct Hd as (_ & Hd & _); split; simpl; lia).
  pose proof (ei_encode_big_enc _ Hok).
  destruct (fits_encode _ _ b i Hf) as (He & Hb & _ & HM).
  eexists. split; [done|]. split; [exact He|]. by apply ei_decode_big_fmt.
Qed.

(** A finite double keeps its 64 bits. *)
Lemma double_roundtrip scan b i val old :
  0 <= val < 2 ^ 64 → isfinite val = true → fits b i (NEW_FLOAT_EXT :: be64 val) →
  ∃ b', b' = splice b i (NEW_FLOAT_EXT :: be64 val) ∧
    ei_encode_double (Some b) i val = Ok (0, Some b', i + 9) ∧
    ei_decode_double scan b' i (Some old) = Ok (0, Some val, i + 9).
Proof.
  intros Hv Hfin Hf. pose proof (ei_encode_double_enc val Hfin).
  destruct (fits_encode _ _ b i Hf) as (He & Hb & _ & HM).
  eexists. split; [done|]. split; [exact He|].
  apply (ei_decode_double_fmt scan _ i val (Some old)); [done| |done].
  by rewrite zlen_cons, zlen_be64 in HM.
Qed.

(** The header of a tuple, list or map, and the arity it carries. *)
Lemma header_roundtrip b i n old :
  0 <= n < 2 ^ 31 →
  (fits b i (fmt_tuple_header n) →
   ∃ b', ei_encode_tuple_header (Some b) i n = Ok (0, Some b', i + zlen (fmt_tuple_header n)) ∧
     ei_decode_tuple_header b' i (Some old) = Ok (0, Some n, i + zlen (fmt_tuple_header n))) ∧
  (fits b i (fmt_list_header n) →
   ∃ b', ei_encode_list_header (Some b) i n = Ok (0, Some b', i + zlen (fmt_list_header n)) ∧
     ei_decode_list_header b' i (Some old) = Ok (0, Some n, i + zlen (fmt_list_header n))) ∧
  (fits b i (ERL_MAP_EXT :: be32 n) →
   ∃ b', ei_encode_map_header (Some b) i n = Ok (0, Some b', i + 5) ∧
     ei_decode_map_header b' i (Some old) = Ok (0, Some n, i + 5)).
Proof.
  intros Hn. split_and!; intros Hf.
  - pose proof (ei_encode_tuple_header_enc n ltac:(lia)).
    destruct (fits_encode _ _ b i Hf) as (He & Hb & _ & HM).
    eexists. split; [exact He|]. by apply (ei_decode_tuple_header_fmt _ _ n (Some old)).
  - pose proof (ei_encode_list_header_enc n ltac:(lia)).
    destruct (fits_encode _ _ b i Hf) as (He & Hb & _ & HM).
    eexists. split; [exact He|]. by apply (ei_decode_list_header_fmt _ _ n (Some old)).
  - pose proof (ei_encode_map_header_enc n ltac:(lia)).
    destruct (fits_encode _ _ b i Hf) as (He & Hb & _ & HM).
    eexists. split; [exact He|]. rewrite zlen_cons, zlen_be32 in HM.
    apply (ei_decode_map_header_fmt _ _ n (Some old)); [done|lia|done].
Qed.

(** Integers: what [ei_encode_long], [ei_encode_ulong] and [ei_encode_big] store is
    read back by the decoders, over the whole 64-bit ranges and for big integers of any
    number of digit bytes; encoder and decoder leave the index at the end of the term. *)
Theorem integer_roundtrip b i :
  (∀ p old,
    - 2 ^ 63 <= p < 2 ^ 63 → fits b i (fmt_long p) →
    ∃ b', b' = splice b i (fmt_long p) ∧
      ei_encode_long (Some b) i p = Ok (0, Some b', i + zlen (fmt_long p)) ∧
      ei_decode_long b' i (Some old) = Ok (0, Some p, i + zlen (fmt_long p))) ∧
  (∀ p old,
    0 <= p < 2 ^ 64 → fits b i (fmt_long p) →
    ∃ b', b' = splice b i (fmt_long p) ∧
      ei_encode_ulong (Some b) i p = Ok (0, Some b', i + zlen (fmt_long p)) ∧
      ei_decode_ulong b' i (Some old) = Ok (0, Some p, i + zlen (fmt_long p))) ∧
  (∀ n neg dt neg0 dt0,
    0 <= n < 2 ^ 31 → digits_fit n dt → length dt0 = length dt → byte neg →
    fits b i (fmt_big (mk_big n neg dt)) →
    ∃ b', b' = splice b i (fmt_big (mk_big n neg dt)) ∧
      ei_encode_big (Some b) i (mk_big n neg dt) =
        Ok (0, Some b', i + zlen (fmt_big (mk_big n neg dt))) ∧
      ei_decode_big b' i (Some (mk_big n neg0 dt0)) =
        Ok (0, Some (mk_big n neg dt), i + zlen (fmt_big (mk_big n neg dt)))).
Proof.
  split_and!; intros.
  - by apply long_roundtrip.
  - by apply ulong_roundtrip.
  - by apply big_roundtrip.
Qed.

Lemma integer_roundtrip_witness :
  (∃ b', b' = splice (replicate 20 7) 3 (fmt_long (-300000000)) ∧
    ei_encode_long (Some (replicate 20 7)) 3 (-300000000) = Ok (0, Some b', 10) ∧
    ei_decode_long b' 3 (Some 0) = Ok (0, Some (-300000000), 10)) ∧
  (∃ b', b' = splice (replicate 20 7) 3 (fmt_long 18446744073709551615) ∧
    ei_encode_ulong (Some (replicate 20 7)) 3 18446744073709551615 = Ok (0, Some b', 14) ∧
    ei_decode_ulong b' 3 (Some 0) = Ok (0, Some 18446744073709551615, 14)) ∧
  (∃ b', b' = splice (replicate 10 0) 1 (fmt_big (mk_big 3 1 [513; 3])) ∧
    ei_encode_big (Some (replicate 10 0)) 1 (mk_big 3 1 [513; 3]) = Ok (0, Some b', 7) ∧
    ei_decode_big b' 1 (Some (mk_big 3 0 [0; 0])) = Ok (0, Some (mk_big 3 1 [513; 3]), 7)).
Proof.
  pose proof (integer_roundtrip (replicate 20 7) 3) as (Hl & Hu & _).
  pose proof (integer_roundtrip (replicate 10 0) 1) as (_ & _ & Hb). split_and!.
  - apply (Hl (-300000000) 0); [lia|]. vm_compute. split_and!; discriminate.
  - apply (Hu 18446744073709551615 0); [lia|]. vm_compute. split_and!; discriminate.
  - apply (Hb 3 1 [513; 3] 0 [0; 0]); [lia| |reflexivity|unfold byte; lia|].
    + split; [repeat constructor; lia|]. split; [reflexivity|]. intros _ d [= <-]. lia.
    + vm_compute. split_and!; discriminate.
Defined.

(** Data: strings (as STRING_EXT or, above 65535 characters, as a list), binaries,
    finite doubles, and the arities of tuple, list and map headers are read back as they
    were encoded. *)
Theorem data_roundtrip b i :
  (∀ src l d,
    bytes_at src 0 l → Forall byte l → zlen l <= 1073741820 → zlen l < zlen d →
    fits b i (fmt_string l) →
    ∃ b', b' = splice b i (fmt_string l) ∧
      ei_encode_string_len (Some b) i src (zlen l) = Ok (0, Some b', i + zlen (fmt_string l)) ∧
      ei_decode_string b' i (Some d) =
        Ok (0, Some (splice d 0 (l ++ [0])), i + zlen (fmt_string l))) ∧
  (∀ src l d n,
    bytes_at src 0 l → zlen l < 2 ^ 31 → zlen l <= zlen d → fits b i (fmt_binary l) →
    ∃ b', b' = splice b i (fmt_binary l) ∧
      ei_encode_binary (Some b) i src (zlen l) = Ok (0, Some b', i + zlen (fmt_binary l)) ∧
      ei_decode_binary b' i (Some d) (Some n) =
        Ok (0, (Some (splice d 0 l), Some (zlen l)), i + zlen (fmt_binary l))) ∧
  (∀ scan val old,
    0 <= val < 2 ^ 64 → isfinite val = true → fits b i (NEW_FLOAT_EXT :: be64 val) →
    ∃ b', b' = splice b i (NEW_FLOAT_EXT :: be64 val) ∧
      ei_encode_double (Some b) i val = Ok (0, Some b', i + 9) ∧
      ei_decode_double scan b' i (Some old) = Ok (0, Some val, i + 9)) ∧
  (∀ n old,
    0 <= n < 2 ^ 31 →
    (fits b i (fmt_tuple_header n) →
     ∃ b', ei_encode_tuple_header (Some b) i n = Ok (0, Some b', i + zlen (fmt_tuple_header n)) ∧
       ei_decode_tuple_header b' i (Some old) = Ok (0, Some n, i + zlen (fmt_tuple_header n))) ∧
    (fits b i (fmt_list_header n) →
     ∃ b', ei_encode_list_header (Some b) i n = Ok (0, Some b', i + zlen (fmt_list_header n)) ∧
       ei_decode_list_header b' i (Some old) = Ok (0, Some n, i + zlen (fmt_list_header n))) ∧
    (fits b i (ERL_MAP_EXT :: be32 n) →
     ∃ b', ei_encode_map_header (Some b) i n = Ok (0, Some b', i + 5) ∧
       ei_decode_map_header b' i (Some old) = Ok (0, Some n, i + 5))).
Proof.
  split_and!; intros.
  - by apply string_roundtrip.
  - by apply binary_roundtrip.
  - by apply double_roundtrip.
  - by apply header_roundtrip.
Qed.

Lemma data_roundtrip_witness :
  (∃ b', b' = splice (replicate 10 0) 1 (fmt_string [104; 105]) ∧
    ei_encode_string_len (Some (replicate 10 0)) 1 [104; 105; 0] 2 = Ok (0, Some b', 6) ∧
    ei_decode_string b' 1 (Some [9; 9; 9; 9]) = Ok (0, Some [104; 105; 0; 9], 6)) ∧
  (∃ b', b' = splice (replicate 10 0) 1 (fmt_binary [255; 0]) ∧
    ei_encode_binary (Some (replicate 10 0)) 1 [255; 0] 2 = Ok (0, Some b', 8) ∧
    ei_decode_binary b' 1 (Some [9; 9; 9]) (Some 0) = Ok (0, (Some [255; 0; 9], Some 2), 8)) ∧
  (∃ b', b' = splice (replicate 10 0) 1 (NEW_FLOAT_EXT :: be64 4607182418800017408) ∧
    ei_encode_double (Some (replicate 10 0)) 1 4607182418800017408 = Ok (0, Some b', 10) ∧
    ei_decode_double (λ _ _, None) b' 1 (Some 0) = Ok (0, Some 4607182418800017408, 10)) ∧
  (∃ b', ei_encode_tuple_header (Some (replicate 9 0)) 2 300 = Ok (0, Some b', 7) ∧
        ei_decode_tuple_header b' 2 (Some 0) = Ok (0, Some 300, 7)).
Proof.
  pose proof (data_roundtrip (replicate 10 0) 1) as (Hs & Hb & Hd & _).
  pose proof (data_roundtrip (replicate 9 0) 2) as (_ & _ & _ & Hh). split_and!.
  - apply (Hs [104; 105; 0] [104; 105] [9; 9; 9; 9]).
    + by exists [], [0].
    + repeat constructor; unfold byte; lia.
    + vm_compute. discriminate.
    + reflexivity.
    + vm_compute. split_and!; discriminate.
  - apply (Hb [255; 0] [255; 0] [9; 9; 9] 0).
    + by exists [], [].
    + reflexivity.
    + vm_compute. discriminate.
    + vm_compute. split_and!; discriminate.
  - apply (Hd (λ _ _, None) 4607182418800017408 0); [lia|reflexivity|].
    vm_compute. split_and!; discriminate.
  - apply (Hh 300 0); [lia|]. vm_compute. split_and!; discriminate.
Defined.

(** * Atoms and the terms that carry them *)

Lemma l2u_bytes l : Forall byte l → Forall byte (l2u l).
Proof.
  induction 1 as [|c l Hc Hl IH]; simpl; [done|].
  pose proof (l2u_ok_all c Hc) as Hok. unfold l2u_ok in Hok.
  destruct (c <? 128); [by constructor|]. rewrite !orb_false_l, !andb_true_iff in Hok.
  destruct_and! Hok. constructor; [unfold byte; lia|]. constructor; [unfold byte; lia|done].
Qed.

(** What [atom_fmt] writes can be viewed in the encoding it came from. *)
Lemma atom_fmt_view l from_enc to_enc bs :
  Forall byte l → atom_fmt l from_enc to_enc = Some bs →
  ∃ got small text, bs = fmt_atom got small text ∧
    (got = ERLANG_LATIN1 ∨ got = ERLANG_UTF8) ∧ atom_len_ok small text ∧
    Forall byte text ∧ atom_view got from_enc text = Some l.
Proof.
  intros Hl Hfmt. unfold atom_len_ok.
  apply atom_fmt_cases in Hfmt as [_ [(_ & text & Ht & HM & ->)|(_ & small & text & Ht & ->)]].
  - exists ERLANG_LATIN1, false, text. unfold MAXATOMLEN, atom_view in *.
    destruct (Z.eqb_spec from_enc ERLANG_UTF8) as [->|].
    { destruct (u2l_inv _ _ Hl Ht) as [Hu Hb]. split_and!; [done|by left|lia|done|].
      tag_simpl. by rewrite Hu. }
    destruct (Z.eqb_spec from_enc ERLANG_ASCII) as [->|].
    { destruct (non_ascii l) eqn:E; [done|]. injection Ht as <-.
      split_and!; [done|by left|lia|done|]. tag_simpl. by rewrite E. }
    destruct (Z.eqb_spec from_enc ERLANG_LATIN1) as [->|]; [|done]. injection Ht as <-.
    split_and!; [done|by left|lia|done|]. by tag_simpl.
  - exists ERLANG_UTF8, small, text. unfold utf8_text, atom_view in *.
    split; [apply fmt_atom_utf8_eq|]. split; [by right|].
    destruct (Z.eqb_spec from_enc ERLANG_LATIN1) as [->|].
    { unfold MAXATOMLEN in Ht. destruct (Z.ltb_spec (zlen l) (255 + 1)); [|done].
      injection Ht as <- <-. pose proof (l2u_length l).
      split_and!; [destruct (Z.ltb_spec (zlen l) 128); lia|by apply l2u_bytes|].
      tag_simpl. by apply u2l_l2u. }
    destruct (Z.eqb_spec from_enc ERLANG_ASCII) as [->|].
    { unfold MAXATOMLEN in Ht. destruct (Z.ltb_spec (zlen l) (255 + 1)); [|done].
      destruct (non_ascii l) eqn:E; [done|]. injection Ht as <- <-.
      split_and!; [lia|done|]. tag_simpl. by rewrite E. }
    destruct (Z.eqb_spec from_enc ERLANG_UTF8) as [->|]; [|done].
    destruct (utf8_ok 0 l) eqn:E; [|done]. injection Ht as <- <-. apply utf8_ok_length in E.
    split_and!; [destruct (Z.ltb_spec (zlen l) 256); lia|done|]. by tag_simpl.
Qed.

(** C37: an atom given in ASCII, latin-1 or UTF-8 and encoded in latin-1, UTF-8 or
    whichever [ei] chooses, decodes to the text it was given as; the decoder also
    ends at the encoder's index. *)
Theorem atom_roundtrip b i src l from_enc to_enc bs d destlen :
  bytes_at src 0 l → Forall byte l → atom_fmt l from_enc to_enc = Some bs →
  zlen l < destlen → zlen d = destlen → fits b i bs →
  ∃ b' was res, b' = splice b i bs ∧
    ei_encode_atom_len_as (Some b) i src (zlen l) from_enc to_enc =
      Ok (0, Some b', i + zlen bs) ∧
    ei_decode_atom_as b' i (Some d) destlen from_enc (Some 0) (Some 0) =
      Ok (0, (Some (splice d 0 (l ++ [0])), Some was, Some res), i + zlen bs).
Proof.
  intros Hs Hl Hfmt Hd1 Hd2 Hf.
  pose proof (ei_encode_atom_len_as_enc src l from_enc to_enc bs Hs Hl Hfmt).
  destruct (fits_encode _ _ b i Hf) as (He & Hb & Hm & HM).
  destruct (atom_fmt_view _ _ _ _ Hl Hfmt) as (got & small & text & -> & Hgot & Hlen & Ht & Hv).
  eexists _, _, _. split; [done|]. split; [exact He|].
  rewrite (ei_decode_atom_as_fmt _ i got small text) with (v := l) by done.
  simpl wrs_opt. by rewrite wrs_ok by zl.
Qed.

Lemma atom_roundtrip_witness :
  ∃ b' was res, b' = splice (replicate 9 0) 1 [ERL_SMALL_ATOM_UTF8_EXT; 3; 97; 195; 165] ∧
    ei_encode_atom_len_as (Some (replicate 9 0)) 1 [97; 229; 0] 2 ERLANG_LATIN1 ERLANG_UTF8 =
      Ok (0, Some b', 6) ∧
    ei_decode_atom_as b' 1 (Some [9; 9; 9]) 3 ERLANG_LATIN1 (Some 0) (Some 0) =
      Ok (0, (Some [97; 229; 0], Some was, Some res), 6).
Proof.
  apply (atom_roundtrip (replicate 9 0) 1 [97; 229; 0] [97; 229] ERLANG_LATIN1 ERLANG_UTF8
           [ERL_SMALL_ATOM_UTF8_EXT; 3; 97; 195; 165] [9; 9; 9] 3).
  - by exists [], [0].
  - repeat constructor; unfold byte; lia.
  - reflexivity.
  - reflexivity.
  - reflexivity.
  - vm_compute. split_and!; discriminate.
Defined.

Section node_terms.
Context (b : bytes) (i : Z) (node l nb : bytes).
Context (Hnode : cstr node l) (Hlen : zlen l <= INT_MAX) (Hnb : node_fmt l = Some nb).

Lemma node_is_atom : node_atom nb l.
Proof. destruct Hnode as (_ & _ & Hl). by apply node_fmt_atom. Qed.

(** Pids; the 15-bit number and 13-bit serial are masked, the creation is kept
    in the old (2-bit) or the new (32-bit) format, and the node name comes back as
    UTF-8 in the [MAXATOMLEN_UTF8]-byte array. *)
Lemma pid_roundtrip num serial creation q :
  zlen (pid_node q) = MAXATOMLEN_UTF8 → 0 <= creation < 2 ^ 32 →
  fits b i (fmt_pid nb num serial creation) →
  ∃ b', b' = splice b i (fmt_pid nb num serial creation) ∧
    ei_encode_pid (Some b) i (mk_pid node num serial creation) =
      Ok (0, Some b', i + zlen (fmt_pid nb num serial creation)) ∧
    ei_decode_pid b' i (Some q) =
      Ok (0, Some (mk_pid (splice (pid_node q) 0 (l ++ [0])) (Z.land num 32767)
                     (Z.land serial 8191) creation),
          i + zlen (fmt_pid nb num serial creation)).
Proof.
  intros Hq Hc Hf. pose proof (ei_encode_pid_enc node l nb Hnode Hlen Hnb num serial creation).
  destruct (fits_encode _ _ b i Hf) as (He & Hb & Hm & HM).
  eexists. split; [done|]. split; [exact He|].
  by apply (ei_decode_pid_fmt _ nb l node_is_atom).
Qed.

(** Ports, with their 28-bit number. *)
Lemma port_roundtrip id creation q :
  zlen (port_node q) = MAXATOMLEN_UTF8 → 0 <= creation < 2 ^ 32 →
  fits b i (fmt_port nb id creation) →
  ∃ b', b' = splice b i (fmt_port nb id creation) ∧
    ei_encode_port (Some b) i (mk_port node id creation) =
      Ok (0, Some b', i + zlen (fmt_port nb id creation)) ∧
    ei_decode_port b' i (Some q) =
      Ok (0, Some (mk_port (splice (port_node q) 0 (l ++ [0])) (Z.land id 268435455) creation),
          i + zlen (fmt_port nb id creation)).
Proof.
  intros Hq Hc Hf. pose proof (ei_encode_port_enc node l nb Hnode Hlen Hnb id creation).
  destruct (fits_encode _ _ b i Hf) as (He & Hb & Hm & HM).
  eexists. split; [done|]. split; [exact He|].
  by apply (ei_decode_port_fmt _ nb l node_is_atom).
Qed.

(** References of up to three words. *)
Lemma ref_roundtrip n creation q :
  zlen (ref_node q) = MAXATOMLEN_UTF8 → zlen (ref_n q) = 3 → zlen n <= 3 →
  Forall (λ x, 0 <= x < 2 ^ 32) n → 0 <= creation < 2 ^ 32 →
  fits b i (fmt_ref nb n creation) →
  ∃ b', b' = splice b i (fmt_ref nb n creation) ∧
    ei_encode_ref (Some b) i (mk_ref node (zlen n) n creation) =
      Ok (0, Some b', i + zlen (fmt_ref nb n creation)) ∧
    ei_decode_ref b' i (Some q) =
      Ok (0, Some (mk_ref (splice (ref_node q) 0 (l ++ [0])) (zlen n) (splice (ref_n q) 0 n)
                     creation), i + zlen (fmt_ref nb n creation)).
Proof.
  intros Hq Hqn Hn Hr Hc Hf. pose proof (ei_encode_ref_enc node l nb Hnode Hlen Hnb n creation Hn).
  destruct (fits_encode _ _ b i Hf) as (He & Hb & Hm & HM).
  eexists. split; [done|]. split; [exact He|].
  by apply (ei_decode_ref_fmt _ nb l node_is_atom).
Qed.
(** Identifiers: a pid, port or reference whose node name is an atom is read back with
    the node name, as UTF-8 in the array of [MAXATOMLEN_UTF8] bytes, and with its number,
    serial, words and creation; numbers and serials are masked to the 15, 13 and 28 bits
    of the format, and the creation is kept in the old (2-bit) or new (32-bit) form. *)
Theorem identifier_roundtrip :
  (∀ num serial creation q,
    zlen (pid_node q) = MAXATOMLEN_UTF8 → 0 <= creation < 2 ^ 32 →
    fits b i (fmt_pid nb num serial creation) →
    ∃ b', b' = splice b i (fmt_pid nb num serial creation) ∧
      ei_encode_pid (Some b) i (mk_pid node num serial creation) =
        Ok (0, Some b', i + zlen (fmt_pid nb num serial creation)) ∧
      ei_decode_pid b' i (Some q) =
        Ok (0, Some (mk_pid (splice (pid_node q) 0 (l ++ [0])) (Z.land num 32767)
                       (Z.land serial 8191) creation),
            i + zlen (fmt_pid nb num serial creation))) ∧
  (∀ id creation q,
    zlen (port_node q) = MAXATOMLEN_UTF8 → 0 <= creation < 2 ^ 32 →
    fits b i (fmt_port nb id creation) →
    ∃ b', b' = splice b i (fmt_port nb id creation) ∧
      ei_encode_port (Some b) i (mk_port node id creation) =
        Ok (0, Some b', i + zlen (fmt_port nb id creation)) ∧
      ei_decode_port b' i (Some q) =
        Ok (0, Some (mk_port (splice (port_node q) 0 (l ++ [0])) (Z.land id 268435455) creation),
            i + zlen (fmt_port nb id creation))) ∧
  (∀ n creation q,
    zlen (ref_node q) = MAXATOMLEN_UTF8 → zlen (ref_n q) = 3 → zlen n <= 3 →
    Forall (λ x, 0 <= x < 2 ^ 32) n → 0 <= creation < 2 ^ 32 →
    fits b i (fmt_ref nb n creation) →
    ∃ b', b' = splice b i (fmt_ref nb n creation) ∧
      ei_encode_ref (Some b) i (mk_ref node (zlen n) n creation) =
        Ok (0, Some b', i + zlen (fmt_ref nb n creation)) ∧
      ei_decode_ref b' i (Some q) =
        Ok (0, Some (mk_ref (splice (ref_node q) 0 (l ++ [0])) (zlen n) (splice (ref_n q) 0 n)
                       creation), i + zlen (fmt_ref nb n creation))).
Proof.
  split_and!; intros.
  - by apply pid_roundtrip.
  - by apply port_roundtrip.
  - by apply ref_roundtrip.
Qed.
End node_terms.

(** A node name and the arrays of the witnesses. *)
Definition w_node : bytes := [97; 64; 104].
Definition w_nodez : bytes := w_node ++ replicate 1018 0.
Definition w_nb : bytes := fmt_atom_latin1 w_node.

Lemma w_cstr : cstr w_nodez w_node.
Proof.
  split; [exists (replicate 1017 0); reflexivity|].
  split; repeat constructor; unfold byte; lia.
Defined.

Lemma identifier_roundtrip_witness :
  (∃ b', b' = splice (replicate 30 0) 1 (fmt_pid w_nb 40000 7 2) ∧
    ei_encode_pid (Some (replicate 30 0)) 1 (mk_pid w_nodez 40000 7 2) =
      Ok (0, Some b', 17) ∧
    ei_decode_pid b' 1 (Some (mk_pid (replicate 1021 9) 0 0 0)) =
      Ok (0, Some (mk_pid (splice (replicate 1021 9) 0 (w_node ++ [0])) 7232 7 2), 17)) ∧
  (∃ b', b' = splice (replicate 30 0) 1 (fmt_port w_nb 5 7) ∧
    ei_encode_port (Some (replicate 30 0)) 1 (mk_port w_nodez 5 7) = Ok (0, Some b', 16) ∧
    ei_decode_port b' 1 (Some (mk_port (replicate 1021 9) 0 0)) =
      Ok (0, Some (mk_port (splice (replicate 1021 9) 0 (w_node ++ [0])) 5 7), 16)) ∧
  (∃ b', b' = splice (replicate 30 0) 1 (fmt_ref w_nb [4294967295; 1] 3) ∧
    ei_encode_ref (Some (replicate 30 0)) 1 (mk_ref w_nodez 2 [4294967295; 1] 3) =
      Ok (0, Some b', 19) ∧
    ei_decode_ref b' 1 (Some (mk_ref (replicate 1021 9) 0 [0; 0; 0] 0)) =
      Ok (0, Some (mk_ref (splice (replicate 1021 9) 0 (w_node ++ [0])) 2 [4294967295; 1; 0] 3), 19)).
Proof.
  pose proof (identifier_roundtrip (replicate 30 0) 1 w_nodez w_node w_nb w_cstr
    ltac:(vm_compute; discriminate) ltac:(vm_compute; reflexivity)) as (Hp & Ho & Hr). split_and!.
  - apply (Hp 40000 7 2 (mk_pid (replicate 1021 9) 0 0 0)); [reflexivity|lia|].
    vm_compute. split_and!; discriminate.
  - apply (Ho 5 7 (mk_port (replicate 1021 9) 0 0)); [reflexivity|lia|].
    vm_compute. split_and!; discriminate.
  - apply (Hr [4294967295; 1] 3 (mk_ref (replicate 1021 9) 0 [0; 0; 0] 0)).
    + reflexivity.
    + reflexivity.
    + vm_compute. discriminate.
    + repeat constructor; lia.
    + lia.
    + vm_compute. split_and!; discriminate.
Defined.

(** * Traversing a message *)

(** C15: [ei_skip_term] returns 0 and moves the index exactly past a term that is encoded as
    by [fmt_term], with a recursion depth of at most the nesting depth of the term.  These
    are: integers in the format that fits, big integers, floats in the new format, atoms in
    any of the four formats, pids, ports and references in the formats with one or more
    numbers, strings, lists, tuples, maps, binaries, and funs in both formats, nested in any
    way, with counts below 2^31 and in a buffer below 2^31 bytes.  (The textual format of floats and
    the oldest one of references are not part of the claim; export funs and bit strings are
    refused, see [skip_term_refuses].) *)
Theorem skip_term_exact scan buf i t rest fuel :
  zlen buf <= INT_MAX → term_ok t = true → (depth t <= fuel)%nat →
  bytes_at buf i (fmt_term t ++ rest) →
  ei_skip_term scan fuel buf i = Ok (0, i + zlen (fmt_term t)).
Proof. intros HM Hok Hd H. by eapply (ei_skip_term_skips scan buf HM fuel t Hd Hok). Qed.

(** Two tags of the external term format are not known: export funs (EXPORT_EXT) and bit
    strings (BIT_BINARY_EXT). *)
Theorem skip_term_refuses scan buf i tag fuel :
  0 <= i → i + 1 <= INT_MAX → bytes_at buf i [tag] → tag = 113 ∨ tag = 77 →
  ei_skip_term scan (S fuel) buf i = Ok (-1, i).
Proof.
  intros Hi HM H Htag. cbn [ei_skip_term]. unfold ei_get_type_internal.
  rewrite (get8_tag _ _ _ _ H), !bind_Ok by (destruct Htag as [-> | ->]; lia).
  by destruct Htag as [-> | ->].
Qed.

(** A message with every kind of subterm. *)
Definition w_atom : eatom := mk_eatom ERLANG_UTF8 true [97; 195; 165].
Definition w_epid : epid := mk_epid w_atom 1 2 3.
Definition w_term : eterm :=
  t_tuple [t_list [t_int (-5); t_int 300000000000] (t_atom w_atom); t_nil; t_string [104; 105];
           t_map [(t_float 0, t_binary [1; 2; 3])]; t_pid w_epid; t_port w_atom 7 9;
           t_ref w_atom [1; 2] 1; t_big 1 [1; 2; 3; 4; 5; 6; 7; 8; 9];
           t_fun w_epid w_atom 1 2 [t_list [t_nil] t_nil];
           t_new_fun 2 (replicate 16 7) 0 1 w_atom 5 6 w_epid [97; 1]].

Lemma skip_term_exact_witness :
  ei_skip_term (λ _ _, None) 4 (0 :: fmt_term w_term ++ [106]) 1 =
  Ok (0, 1 + zlen (fmt_term w_term)).
Proof.
  apply (skip_term_exact (λ _ _, None) _ 1 w_term [106] 4).
  - vm_compute. discriminate.
  - vm_compute. reflexivity.
  - vm_compute. lia.
  - by exists [0], [].
Defined.

(** [ei_get_type] on a term reports its type (with the small, UTF-8 and new
    variants mapped to the basic tag) and leaves the index alone. *)
Theorem get_type_term_type t buf i rest :
  bytes_at buf i (fmt_term t ++ rest) →
  ∃ len, ei_get_type buf i 0 = Ok (0, (type_of t, len)).
Proof. apply get_type_term. Qed.

Lemma get_type_term_type_witness :
  ∃ len, ei_get_type (fmt_term (t_atom w_atom)) 0 0 = Ok (0, (ERL_ATOM_EXT, len)).
Proof. apply (get_type_term_type (t_atom w_atom) _ 0 []). by exists [], []. Defined.

(** A list of two elements whose first is a binary of length -10, which moves the
    index back to the list. *)
Definition evil_list : bytes :=
  [ERL_LIST_EXT; 0; 0; 0; 2; ERL_BINARY_EXT; 255; 255; 255; 246; 0].

Lemma evil_binary scan fuel : ei_skip_term scan (S fuel) evil_list 5 = Ok (0, 0).
Proof. reflexivity. Qed.

(** A binary with a negative length makes [ei_skip_term] recurse without
    bound on an 11-byte message: no recursion depth is enough. *)
Theorem skip_term_diverges scan fuel : ei_skip_term scan fuel evil_list 0 = NoFuel.
Proof.
  induction fuel as [|fuel IH]; [done|].
  change (ei_skip_term scan (S fuel) evil_list 0) with
    (index ← skip_loop (ei_skip_term scan fuel) 2 evil_list 5;
     '(rc, (ty, _)) ← ei_get_type_internal evil_list index 0;
     if rc <? 0 then Ok (-1, index)
     else if negb (ty =? ERL_NIL_EXT) then
       '(_, index) ← ei_skip_term scan fuel evil_list index; Ok (0, index)
     else '(rc, _, index) ← ei_decode_list_header evil_list index (Some 0);
          Ok (if rc <? 0 then -1 else 0, index)).
  destruct fuel as [|fuel]; [done|]. cbn [skip_loop].
  rewrite evil_binary, bind_Ok, IH. done.
Qed.

(** * The expanding buffer *)

(** C27: [ei_x_new_with_version] followed by any sequence of [ei_x_encode_*] calls whose
    arguments the encoders accept ([Encodes]: a refused argument returns -1) and whose
    encodings have at most INT_MAX - 201 bytes together (beyond that the [int] size in
    [x_fix_buff] overflows) never stores outside the block; when no allocation fails the
    buffer holds the version byte and the encodings of the terms, in order and nothing else,
    and otherwise the failed allocation is reported.  (malloc and realloc return blocks of
    the size asked for, and realloc keeps the contents.) *)
Theorem x_encode_exact malloc realloc encs ls x :
  (∀ n b, malloc n = Some b → zlen b = n) →
  (∀ o n b, realloc o n = Some b → zlen b = n) →
  (∀ b n b', realloc (Some b) n = Some b' →
     ∀ l, bytes_at b 0 l → zlen l <= n → bytes_at b' 0 l) →
  Forall2 Encodes encs ls → 1 + zlen (concat ls) + 2 * ei_x_extra <= INT_MAX →
  ∃ rc x', ('(rc, x1) ← ei_x_new_with_version malloc x;
            if rc <? 0 then Ok (-1, x1) else ei_x_encode_seq realloc encs x1) = Ok (rc, x') ∧
    ((rc = 0 ∧ x_ok x' (ERL_VERSION_MAGIC :: concat ls)) ∨ (rc = -1 ∧ x_buff x' = None)).
Proof.
  intros Hm Hrs Hrk He HM.
  destruct (ei_x_new_with_version_spec malloc Hm x) as (rc & x1 & -> & [[-> Hx]|[-> Hx]]);
    rewrite bind_Ok.
  - change (0 <? 0) with false. cbn iota.
    by apply (ei_x_encode_seq_spec realloc Hrs Hrk encs ls x1 [ERL_VERSION_MAGIC]).
  - eexists _, _. split; [reflexivity|]. by right.
Qed.

(** An allocator that always succeeds (a negative size is a huge [size_t]). *)
Definition w_malloc (n : Z) : option bytes :=
  if n <? 0 then None else Some (replicate (Z.to_nat n) 0).
Definition w_realloc (o : option bytes) (n : Z) : option bytes :=
  if n <? 0 then None else Some (take (Z.to_nat n) (default [] o ++ replicate (Z.to_nat n) 0)).

Lemma w_malloc_size n b : w_malloc n = Some b → zlen b = n.
Proof.
  unfold w_malloc. destruct (Z.ltb_spec n 0); intros [= <-].
  unfold zlen. rewrite length_replicate. lia.
Qed.

Lemma w_realloc_size o n b : w_realloc o n = Some b → zlen b = n.
Proof.
  unfold w_realloc. destruct (Z.ltb_spec n 0); intros [= <-].
  unfold zlen. rewrite length_take, length_app, length_replicate. lia.
Qed.

Lemma w_realloc_keeps b n b' : w_realloc (Some b) n = Some b' →
  ∀ l, bytes_at b 0 l → zlen l <= n → bytes_at b' 0 l.
Proof.
  unfold w_realloc. destruct (Z.ltb_spec n 0); intros [= <-] l (pre & post & -> & Hp) Hl.
  destruct pre; [|rewrite zlen_cons in Hp; pose proof (zlen_nonneg pre); lia].
  exists []. eexists. split; [|done]. cbn [app from_option]. change (id ?x) with x.
  rewrite <- app_assoc, take_app_ge by (unfold zlen in Hl; lia). reflexivity.
Qed.

Lemma x_encode_exact_witness :
  ∃ rc x', ('(rc, x1) ← ei_x_new_with_version w_malloc (mk_x None 0 0);
            if rc <? 0 then Ok (-1, x1)
            else ei_x_encode_seq w_realloc
                   [ (λ b i, ei_encode_tuple_header b i 2); (λ b i, ei_encode_long b i 5);
                     (λ b i, ei_encode_binary b i (replicate 200 7) 200) ] x1) = Ok (rc, x') ∧
    ((rc = 0 ∧ x_ok x' (ERL_VERSION_MAGIC ::
        fmt_tuple_header 2 ++ fmt_long 5 ++ fmt_binary (replicate 200 7) ++ [])) ∨
     (rc = -1 ∧ x_buff x' = None)).
Proof.
  apply (x_encode_exact w_malloc w_realloc _
           [fmt_tuple_header 2; fmt_long 5; fmt_binary (replicate 200 7)]).
  - apply w_malloc_size.
  - apply w_realloc_size.
  - apply w_realloc_keeps.
  - constructor; [apply ei_encode_tuple_header_enc; lia|].
    constructor; [apply ei_encode_longlong_enc; lia|].
    constructor; [|constructor].
    apply (ei_encode_binary_enc (replicate 200 7) (replicate 200 7)). by exists [], [].
  - vm_compute. discriminate.
Defined.

(** * Conversions that go wrong *)

Lemma latin1_loop_last t c obj base k destlen src sp na :
  Forall byte t → 128 <= c < 256 → bytes_at src sp (t ++ [c]) → k + zlen (l2u t) < destlen →
  latin1_to_utf8_loop (length (t ++ [c])) obj base k destlen src sp na =
  (obj ← wrs_opt obj (base + k) (l2u (t ++ [c]));
   Ok (k + zlen (l2u (t ++ [c])), obj, true)).
Proof.
  intros Ht Hc. revert obj k sp na. induction Ht as [|x t Hx Ht IH]; intros obj k sp na Hs Hd.
  - apply bytes_at_tail in Hs as [Hr _]. cbn [app length latin1_to_utf8_loop l2u] in *.
    rewrite (@zlen_nil Z) in Hd. destruct (Z.geb_spec k destlen); [lia|].
    rewrite Hr. cbn [mbind res_bind]. rewrite byte_high by (unfold byte; lia).
    destruct (Z.ltb_spec c 128); [lia|].
    rewrite <- st_opt_then. apply bind_ext. intros o1. rewrite <- st_opt_then.
    apply bind_ext. intros o2. by rewrite wrs_opt_nil.
  - apply bytes_at_tail in Hs as [Hr Hs]. cbn [app length latin1_to_utf8_loop l2u] in *.
    destruct (Z.geb_spec k destlen). { destruct (x <? 128); zl. }
    rewrite Hr. cbn [mbind res_bind]. rewrite byte_high by done.
    destruct (Z.ltb_spec x 128).
    + rewrite <- st_opt_then. apply bind_ext. intros o1.
      rewrite IH by (done || zl). replace (base + (k + 1)) with (base + k + 1) by lia.
      apply bind_ext. intros ?. rewrite zlen_cons. do 3 f_equal. lia.
    + rewrite <- st_opt_then. apply bind_ext. intros o1.
      rewrite <- st_opt_then. apply bind_ext. intros o2.
      rewrite IH by (done || zl). replace (base + (k + 2)) with (base + k + 1 + 1) by lia.
      apply bind_ext. intros ?. rewrite !zlen_cons. do 3 f_equal. lia.
Qed.

(** Decoding a latin-1 atom as UTF-8 checks for one free byte and stores two:
    when the UTF-8 text, ending in a two-byte character, has exactly [destlen]
    bytes, the terminating NUL is stored one past the end of a destination of
    [destlen] bytes.  ([ei_decode_pid] passes a [MAXATOMLEN_UTF8]-byte array.) *)
Theorem decode_atom_overflow buf i t c d destlen :
  Forall byte t → 128 <= c < 256 → zlen (l2u (t ++ [c])) = destlen → zlen d = destlen →
  zlen t < 65535 → bytes_at buf i (fmt_atom ERLANG_LATIN1 false (t ++ [c])) →
  ei_decode_atom_as buf i (Some d) destlen ERLANG_UTF8 None None = Fault.
Proof.
  intros Ht Hc Hd Hdl Hlen H.
  assert (Forall byte (t ++ [c])) as Htc.
  { apply Forall_app. split; [done|]. repeat constructor; lia. }
  assert (zlen (l2u (t ++ [c])) = zlen (l2u t) + 2) as Hl2.
  { clear -Hc. induction t as [|x t IH]; cbn [app l2u].
    - destruct (Z.ltb_spec c 128); [lia|]. zl.
    - destruct (x <? 128); rewrite !zlen_cons, IH; lia. }
  assert (atom_len_ok false (t ++ [c])) as Hok by (unfold atom_len_ok; zl).
  unfold ei_decode_atom_as.
  rewrite (decode_atom_header buf i ERLANG_LATIN1 false (t ++ [c])) by (auto || done).
  tag_simpl. unfold latin1_to_utf8. rewrite to_nat_zlen.
  rewrite latin1_loop_last; [|done|done| |lia];
    [|by apply (decode_atom_text buf i ERLANG_LATIN1 false)].
  simpl wrs_opt. rewrite wrs_ok by lia. cbn [mbind res_bind]. rewrite Z.add_0_l, Hd.
  pose proof (zlen_nonneg (l2u t)).
  destruct (Z.eqb_spec destlen (-1)); [lia|]. cbn [mbind res_bind].
  destruct (Z.ltb_spec destlen 0); [lia|]. simpl st_opt.
  unfold wr. rewrite zlen_splice by lia. rewrite Hdl.
  destruct (Z.ltb_spec destlen destlen); [lia|]. by rewrite andb_false_r.
Qed.

Lemma decode_atom_overflow_witness :
  ei_decode_atom_as [ERL_ATOM_EXT; 0; 1; 229] 0 (Some [9; 9]) 2 ERLANG_UTF8 None None = Fault.
Proof.
  apply (decode_atom_overflow _ 0 [] 229 [9; 9] 2).
  - constructor.
  - lia.
  - reflexivity.
  - reflexivity.
  - vm_compute. reflexivity.
  - by exists [], [].
Defined.

(** The value of an [erlang_big], 16-bit digits, least significant first. *)
Fixpoint digits_val (dt : list Z) : Z :=
  match dt with [] => 0 | d :: dt => d + 65536 * digits_val dt end.

Definition ei_big_val (b : erlang_big) : Z :=
  if big_is_neg b =? 0 then digits_val (big_digits b) else - digits_val (big_digits b).

(** [ei_small_to_big] represents a non-negative [int] exactly, and a negative
    one [s] by the value -(2^32 + s): the sign is set but the digits are those of
    the two's complement. *)
Theorem small_to_big_value s arity neg0 d0 d1 :
  - 2 ^ 31 <= s < 2 ^ 31 → 3 <= arity < 2 ^ 31 →
  ∃ b, ei_small_to_big s (mk_big arity neg0 [d0; d1]) = Ok (0, b) ∧
    ei_big_val b = if s <? 0 then - (2 ^ 32 + s) else s.
Proof.
  intros Hs Ha. unfold ei_small_to_big. cbn [big_arity big_digits].
  rewrite (wrap_small 32) by lia.
  destruct (Z.ltb_spec ((arity + 1) / 2) 2); [dlia|].
  change (wr [d0; d1] 0 ?x) with (Ok [x; d1]). rewrite bind_Ok.
  change (wr [?x; d1] 1 ?y) with (Ok [x; y]). rewrite bind_Ok.
  eexists. split; [reflexivity|]. unfold ei_big_val. cbn [big_is_neg big_digits digits_val].
  change 65535 with (Z.ones 16). rewrite Z.land_ones, Z.shiftr_div_pow2 by lia.
  unfold wrap. change (2 ^ 16) with 65536. change (2 ^ 32) with 4294967296.
  destruct (Z.ltb_spec s 0); cbn [c_bool Z.eqb]; dlia.
Qed.

Lemma small_to_big_value_witness :
  ∃ b, ei_small_to_big (-1) (mk_big 4 0 [0; 0]) = Ok (0, b) ∧ ei_big_val b = -4294967295.
Proof. apply (small_to_big_value (-1) 4 0 0 0); lia. Defined.
