(* ===== verification/BigDigits.v ===== *)
(** Digit arithmetic of the emulator's bignums: the macros and the digit-vector
    routines of erts/emulator/beam/big.c, for the 64-bit build (ErtsDigit is a
    64-bit word, there is no double digit and products go through half digits).

    A digit vector is the list of its digits, least significant first; the length
    argument of the C function is the length of the list.  A routine returns the
    digits it stored, the size it returns being the length of the result.  The
    routines read [x[i]] and [y[i]] before they store [r[i]], so that the in-place
    calls ([r == x]) are covered.  Reading past a vector is [Fault]. *)
From S2P Require Import Prelude.

(** * Digits *)

Definition D_EXP : Z := 64.
Abbreviation B := 18446744073709551616.
Definition D_MASK : Z := 18446744073709551615.
Definition H_EXP : Z := 32.
Abbreviation HB := 4294967296.
Definition LO_MASK : Z := 4294967295.
Definition HI_MASK : Z := 18446744069414584320.

(** [ErtsDigit] arithmetic wraps. *)
Definition dw (x : Z) : Z := wrap 64 x.
(** Conversion to [ErtsHalfDigit]. *)
Definition hw (x : Z) : Z := wrap 32 x.

Definition DSUMc (a b c : Z) : Z * Z :=
  let cr := c in
  let xr := dw (a + cr) in
  let yr := b in
  let cr := c_bool (xr <? cr) in
  let xr := dw (yr + xr) in
  let cr := cr + c_bool (xr <? yr) in
  (xr, cr).

Definition DSUM (a b : Z) : Z * Z :=
  let xr := a in
  let yr := b in
  let xr := dw (yr + xr) in
  (xr, c_bool (xr <? yr)).

Definition DSUBb (a b r : Z) : Z * Z :=
  let cr := r in
  let xr := a in
  let yr := dw (b + cr) in
  let cr := c_bool (yr <? cr) in
  let yr := dw (xr - yr) in
  let cr := cr + c_bool (yr >? xr) in
  (yr, cr).

Definition DSUB (a b : Z) : Z * Z :=
  let yr := dw (a - b) in
  (yr, c_bool (yr >? a)).

(** [a*b + d1]; result: the new [d1] and [d0]. *)
Definition DMULc (a b d1 : Z) : Z * Z :=
  let a0 := hw a in
  let a1 := hw (Z.shiftr a H_EXP) in
  let b0 := hw b in
  let b1 := hw (Z.shiftr b H_EXP) in
  let a0b0 := dw (a0 * b0) in
  let a0b1 := dw (a0 * b1) in
  let a1b0 := dw (a1 * b0) in
  let a1b1 := dw (a1 * b1) in
  let '(p0, c0) := DSUM a0b0 d1 in
  let '(p1, p2) := DSUM (dw (Z.shiftl c0 H_EXP)) (Z.shiftr p0 H_EXP) in
  let '(p1, c0) := DSUM p1 a0b1 in
  let p2 := dw (p2 + c0) in
  let '(p1, c0) := DSUM p1 a1b0 in
  let p2 := dw (p2 + c0) in
  let '(p1, c0) := DSUM p1 (dw (Z.shiftl a1b1 H_EXP)) in
  let p2 := dw (p2 + c0) in
  let '(p2, _) := DSUM a1b1 (dw (Z.shiftl p2 H_EXP)) in
  (Z.lor (Z.land p2 HI_MASK) (Z.shiftr p1 H_EXP),
   Z.lor (dw (Z.shiftl p1 H_EXP)) (Z.land p0 LO_MASK)).

Definition DMUL (a b : Z) : Z * Z := DMULc a b 0.

(** [D2PF]: how far [a] must be shifted for its top bit to be set. *)
Definition D2PF (a : Z) : Z :=
  let x := a in
  let s := 0 in
  let '(s, x) := if x <=? 4294967295 then (s + 32, dw (Z.shiftl x 32)) else (s, x) in
  let '(s, x) := if x <=? 281474976710655 then (s + 16, dw (Z.shiftl x 16)) else (s, x) in
  let '(s, x) := if x <=? 72057594037927935 then (s + 8, dw (Z.shiftl x 8)) else (s, x) in
  let '(s, x) := if x <=? 1152921504606846975 then (s + 4, dw (Z.shiftl x 4)) else (s, x) in
  let '(s, x) := if x <=? 4611686018427387903 then (s + 2, dw (Z.shiftl x 2)) else (s, x) in
  if x <=? 9223372036854775807 then s + 1 else s.

(** The correction loop of [DDIVREM]: at most two rounds ([q] is at most two too
    large); [fuel] 3 leaves one test. *)
Fixpoint ddiv_fix (fuel : nat) (q rh vn1 vn0 un : Z) : res Z :=
  if (q >=? HB) || (dw (q * vn0) >? dw (dw (Z.shiftl rh H_EXP) + un)) then
    match fuel with
    | O => NoFuel
    | S fuel =>
        let q := dw (q - 1) in
        let rh := dw (rh + vn1) in
        if rh >=? HB then Ok q else ddiv_fix fuel q rh vn1 vn0 un
    end
  else Ok q.

(** Quotient and remainder of [a1*B + a0] by [b], for [a1 < b]. *)
Definition DDIVREM (a1 a0 b : Z) : res (Z * Z) :=
  let s := D2PF b in
  let b := dw (Z.shiftl b s) in
  let vn1 := hw (Z.shiftr b H_EXP) in
  let vn0 := hw (Z.land b LO_MASK) in
  let un32 := if negb (s =? 0)
              then Z.lor (dw (Z.shiftl a1 s))
                     (Z.land (Z.shiftr a0 (D_EXP - s)) (dw (Z.shiftr (- s) (D_EXP - 1))))
              else a1 in
  let un10 := dw (Z.shiftl a0 s) in
  let un1 := hw (Z.shiftr un10 H_EXP) in
  let un0 := hw (Z.land un10 LO_MASK) in
  let q1 := un32 / vn1 in
  let rh := dw (un32 - dw (q1 * vn1)) in
  q1 ← ddiv_fix 3 q1 rh vn1 vn0 un1;
  let un21 := dw (dw (dw (Z.shiftl un32 H_EXP) + un1) - dw (q1 * b)) in
  let q0 := un21 / vn1 in
  let rh := dw (un21 - dw (q0 * vn1)) in
  q0 ← ddiv_fix 3 q0 rh vn1 vn0 un0;
  Ok (dw (dw (Z.shiftl q1 H_EXP) + q0),
      Z.shiftr (dw (dw (dw (Z.shiftl un21 H_EXP) + un0) - dw (q0 * b))) s).

Definition DDIV (a1 a0 b : Z) : res Z := '(q, _) ← DDIVREM a1 a0 b; Ok q.

Definition DREM (a1 a0 b : Z) : res Z := '(_, r) ← DDIVREM (a1 mod b) a0 b; Ok r.

(** * Digit vectors *)

Abbreviation digit d := (0 <= d < B).
Abbreviation digits := (Forall (λ d, 0 <= d < B)).

(** The number a vector stands for. *)
Fixpoint val (l : list Z) : Z :=
  match l with [] => 0 | d :: l => d + B * val l end.

(** [do r--; while ( *r == 0 && r != r0); return (r - r0) + 1]: the size of the
    vector of the first [k] digits without its leading zeros. *)
Fixpoint trim_size (r : list Z) (k : nat) : nat :=
  match k with
  | O => O
  | S k' => if bool_decide (r !! k' = Some 0) && negb (k' =? 0)%nat then trim_size r k' else k
  end.

Definition trim (r : list Z) : list Z := take (trim_size r (length r)) r.

(** The loop of [I_comp], from the most significant digit down. *)
Fixpoint I_comp_rev (x y : list Z) : Z :=
  match x, y with
  | xd :: x, yd :: y => if xd =? yd then I_comp_rev x y else if xd <? yd then -1 else 1
  | _, _ => 0
  end.

Definition I_comp (x y : list Z) : Z :=
  if (length x <? length y)%nat then -1
  else if (length y <? length x)%nat then 1
  else I_comp_rev (rev x) (rev y).

(** First loop of [I_add]; result: digits stored, rest of [x], carry. *)
Fixpoint add_loop (x y : list Z) (c : Z) {struct y} : res (list Z * list Z * Z) :=
  match y with
  | [] => Ok ([], x, c)
  | yd :: y =>
      match x with
      | [] => Fault
      | xd :: x =>
          let xr := dw (xd + c) in
          let yr := yd in
          let c := c_bool (xr <? c) in
          let xr := dw (yr + xr) in
          let c := c + c_bool (xr <? yr) in
          '(r, x, c) ← add_loop x y c;
          Ok (xr :: r, x, c)
      end
  end.

(** [while(xl--) { xr = *x++ + c; c = (xr < c); *r++ = xr; }] *)
Fixpoint carry_loop (x : list Z) (c : Z) : list Z * Z :=
  match x with
  | [] => ([], c)
  | xd :: x =>
      let xr := dw (xd + c) in
      let c := c_bool (xr <? c) in
      let '(r, c) := carry_loop x c in
      (xr :: r, c)
  end.

Definition I_add (x y : list Z) : res (list Z) :=
  match y with
  | [] => Fault
  | _ =>
      '(r1, x, c) ← add_loop x y 0;
      let '(r2, c) := carry_loop x c in
      Ok (r1 ++ r2 ++ if negb (c =? 0) then [1] else [])
  end.

Definition D_add (x : list Z) (c : Z) : list Z :=
  let '(r, c) := carry_loop x c in
  r ++ if negb (c =? 0) then [1] else [].

Fixpoint sub_loop (x y : list Z) (c : Z) {struct y} : res (list Z * list Z * Z) :=
  match y with
  | [] => Ok ([], x, c)
  | yd :: y =>
      match x with
      | [] => Fault
      | xd :: x =>
          let yr := dw (yd + c) in
          let xr := xd in
          let c := c_bool (yr <? c) in
          let yr := dw (xr - yr) in
          let c := c + c_bool (yr >? xr) in
          '(r, x, c) ← sub_loop x y c;
          Ok (yr :: r, x, c)
      end
  end.

Fixpoint borrow_loop (x : list Z) (c : Z) : list Z * Z :=
  match x with
  | [] => ([], c)
  | xd :: x =>
      let xr := xd in
      let yr := dw (xr - c) in
      let c := c_bool (yr >? xr) in
      let '(r, c) := borrow_loop x c in
      (yr :: r, c)
  end.

Definition I_sub (x y : list Z) : res (list Z) :=
  match y with
  | [] => Fault
  | _ =>
      '(r1, x, c) ← sub_loop x y 0;
      let '(r2, _) := borrow_loop x c in
      Ok (trim (r1 ++ r2))
  end.

Definition D_sub (x : list Z) (c : Z) : list Z :=
  let '(r, _) := borrow_loop x c in trim r.

Fixpoint zsub_loop (y : list Z) (c : Z) : list Z :=
  match y with
  | [] => []
  | yd :: y =>
      let yr := dw (yd + c) in
      let c := c_bool (yr <? c) in
      let yr := dw (0 - yr) in
      let c := c + c_bool (yr >? 0) in
      yr :: zsub_loop y c
  end.

Definition Z_sub (y : list Z) : list Z := trim (zsub_loop y 0).

(** * Multiplication *)

(** One row of [I_mul]: the digits stored over the first digits of [rt], and the
    two carries.  [m] is the [switch(d)] case (1, 2 or other). *)
Fixpoint mul_row (d : Z) (y rt : list Z) (c cp : Z) {struct y} : res (list Z * Z * Z) :=
  match y with
  | [] => Ok ([], c, cp)
  | yd :: y =>
      match rt with
      | [] => Fault
      | rd :: rt =>
          let '(p, c, cp) :=
            if d =? 1 then let '(p, c) := DSUMc yd rd c in (p, c, cp)
            else if d =? 2 then
              let '(p, cp) := DSUMc yd yd cp in
              let '(p, c) := DSUMc p rd c in (p, c, cp)
            else
              let '(cp, p) := DMULc d yd cp in
              let '(p, c) := DSUMc p rd c in (p, c, cp) in
          '(r, c, cp) ← mul_row d y rt c cp;
          Ok (p :: r, c, cp)
      end
  end.

(** [case 0] leaves the digits; every row ends with [*rt = c + cp]. *)
Definition mul_step (d : Z) (y r : list Z) : res (list Z) :=
  '(row, c, cp) ← (if d =? 0
                   then if (length r <? length y)%nat then Fault else Ok (take (length y) r, 0, 0)
                   else mul_row d y r 0 0);
  match drop (length y) r with
  | [] => Fault
  | _ :: rest => Ok (row ++ dw (c + cp) :: rest)
  end.

(** The rows; each starts one digit further up. *)
Fixpoint mul_rows (x y r : list Z) : res (list Z) :=
  match x with
  | [] => Ok r
  | d :: x =>
      r ← mul_step d y r;
      match x, r with
      | [], _ => Ok r
      | _, [] => Fault
      | _, h :: r => r ← mul_rows x y r; Ok (h :: r)
      end
  end.

(** [r] is the destination before the call.  [rt] ends at its digit number
    [xl - 1 + yl]. *)
Definition I_mul (x y r : list Z) : res (list Z) :=
  r ← mul_rows x y r;
  let k := (length x - 1 + length y)%nat in
  match r !! k with
  | None => Fault
  | Some d => if d =? 0 then Ok (take k r) else Ok (take (S k) r)
  end.

Fixpoint dmul2_loop (x : list Z) (c : Z) : list Z * Z :=
  match x with
  | [] => ([], c)
  | p :: x =>
      let '(p, c) := DSUMc p p c in
      let '(r, c) := dmul2_loop x c in (p :: r, c)
  end.

Fixpoint dmul_loop (x : list Z) (d c : Z) : list Z * Z :=
  match x with
  | [] => ([], c)
  | xd :: x =>
      let '(c, p) := DMULc d xd c in
      let '(r, c) := dmul_loop x d c in (p :: r, c)
  end.

Definition D_mul (x : list Z) (d : Z) : list Z :=
  if d =? 0 then [0]
  else if d =? 1 then x
  else
    let '(r, c) := if d =? 2 then dmul2_loop x 0 else dmul_loop x d 0 in
    if c =? 0 then r else r ++ [c].

(** [D_mulsub]: [x - d*y]; [None] for a borrow (the C function returns 0). *)
Fixpoint mulsub_loop (x y : list Z) (d c b : Z) {struct y} : res (list Z * list Z * Z * Z) :=
  match y with
  | [] => Ok ([], x, c, b)
  | yd :: y =>
      match x with
      | [] => Fault
      | xd :: x =>
          let '(c, c0) := DMULc d yd c in
          let '(s, b) := DSUBb xd c0 b in
          '(r, x, c, b) ← mulsub_loop x y d c b;
          Ok (s :: r, x, c, b)
      end
  end.

Definition D_mulsub (x : list Z) (d : Z) (y : list Z) : res (list Z * option (list Z)) :=
  '(r, x, c, b) ← mulsub_loop x y d 0 0;
  match x with
  | [] => if negb (c =? 0) || negb (b =? 0) then Ok (r, None) else Ok (r, Some (trim r))
  | xd :: _ =>
      let '(s, b) := DSUBb xd c b in
      let r := r ++ [s] in
      if negb (b =? 0) then Ok (r, None) else Ok (r, Some (trim r))
  end.

(** * Division by a digit *)

(** The loop of [D_div], on the digits still to be read (most significant
    first); the quotient digits come out most significant first. *)
Fixpoint ddiv_loop (fuel : nat) (xs : list Z) (a1 d : Z) : res (list Z * Z) :=
  match fuel with
  | O => NoFuel
  | S fuel =>
      '(a1, a0, xs) ← (if d >? a1 then
                         match xs with [] => Fault | a0 :: xs => Ok (a1, a0, xs) end
                       else Ok (0, a1, xs));
      q0 ← DDIV a1 a0 d;
      let '(_, b0) := DMUL d q0 in
      let '(a1, _) := DSUB a0 b0 in
      match xs with
      | [] => Ok ([q0], a1)
      | _ => '(q, r) ← ddiv_loop fuel xs a1 d; Ok (q0 :: q, r)
      end
  end.

(** Result: quotient digits and remainder. *)
Definition D_div (x : list Z) (d : Z) : res (list Z * Z) :=
  match rev x with
  | [] => Fault
  | a1 :: xs =>
      if (d >? a1) && (length x =? 1)%nat then Ok ([0], a1)
      else '(q, r) ← ddiv_loop (length x) xs a1 d; Ok (rev q, r)
  end.

(** [D_rem] *)
Fixpoint drem_loop (xs : list Z) (rem d : Z) : res Z :=
  match xs with
  | [] => Ok rem
  | xd :: xs =>
      rem ← (if negb (rem =? 0) then DREM rem xd d else DREM 0 xd d);
      drem_loop xs rem d
  end.

Definition D_rem (x : list Z) (d : Z) : res Z :=
  match x with [] => Fault | _ => drem_loop (rev x) 0 d end.

(** * The digit operations compute what they should *)

Lemma dw_mod x : dw x = x mod B.
Proof. reflexivity. Qed.

Lemma hw_mod x : hw x = x mod HB.
Proof. reflexivity. Qed.

Lemma dw_range x : 0 <= dw x < B.
Proof. rewrite dw_mod. apply Z.mod_pos_bound. lia. Qed.

(** [dw] of a sum or difference that wraps at most once. *)
Lemma dw_once x : - B <= x < 2 * B →
  dw x = if x <? 0 then x + B else if x <? B then x else x - B.
Proof.
  intros Hx. rewrite dw_mod. destruct (Z.ltb_spec x 0).
  - rewrite <- (Z.mod_add x 1), Z.mod_small; lia.
  - destruct (Z.ltb_spec x B); [apply Z.mod_small; lia|].
    rewrite <- (Z.mod_add x (-1)), Z.mod_small; lia.
Qed.

Ltac dsplit :=
  repeat match goal with
  | |- context [if ?b then _ else _] => let E := fresh "E" in destruct b eqn:E
  | |- context [c_bool ?b] => let E := fresh "E" in destruct b eqn:E; cbn [c_bool]
  end.

Lemma DSUM_spec a b s c :
  digit a → digit b → DSUM a b = (s, c) → s + B * c = a + b ∧ digit s ∧ 0 <= c <= 1.
Proof.
  unfold DSUM. intros Ha Hb [= <- <-]. rewrite dw_once by lia.
  dsplit; lia.
Qed.

Lemma DSUMc_spec a b c0 s c :
  digit a → digit b → 0 <= c0 <= 1 → DSUMc a b c0 = (s, c) →
  s + B * c = a + b + c0 ∧ digit s ∧ 0 <= c <= 1.
Proof.
  unfold DSUMc. intros Ha Hb Hc [= <- <-]. pose proof (dw_range (a + c0)).
  rewrite (dw_once (b + _)) by lia. rewrite (dw_once (a + c0)) by lia.
  dsplit; lia.
Qed.

Lemma DSUB_spec a b s c :
  digit a → digit b → DSUB a b = (s, c) → s - B * c = a - b ∧ digit s ∧ 0 <= c <= 1.
Proof.
  unfold DSUB. intros Ha Hb [= <- <-]. rewrite dw_once by lia. dsplit; lia.
Qed.

Lemma DSUBb_spec a b c0 s c :
  digit a → digit b → 0 <= c0 <= 1 → DSUBb a b c0 = (s, c) →
  s - B * c = a - b - c0 ∧ digit s ∧ 0 <= c <= 1.
Proof.
  unfold DSUBb. intros Ha Hb Hc [= <- <-]. pose proof (dw_range (b + c0)).
  rewrite (dw_once (a - _)) by lia. rewrite (dw_once (b + c0)) by lia.
  dsplit; lia.
Qed.

(** Half digits. *)
Lemma shr_half x : Z.shiftr x H_EXP = x / HB.
Proof. unfold H_EXP. by rewrite Z.shiftr_div_pow2 by lia. Qed.

Lemma shl_half x : Z.shiftl x H_EXP = x * HB.
Proof. unfold H_EXP. by rewrite Z.shiftl_mul_pow2 by lia. Qed.

Lemma land_lo x : Z.land x LO_MASK = x mod HB.
Proof. change LO_MASK with (Z.ones 32). by rewrite Z.land_ones by lia. Qed.

Lemma lor_half a b : 0 <= b < HB → Z.lor (a * HB) b = a * HB + b.
Proof.
  intros. transitivity (Z.lor (Z.shiftl a H_EXP) b); [by rewrite shl_half|].
  by rewrite lor_shiftl_add by (unfold H_EXP; lia).
Qed.

Lemma land_hi x : digit x → Z.land x HI_MASK = x / HB * HB.
Proof.
  intros Hx. assert (x = Z.lor (x / HB * HB) (x mod HB)) as E by (rewrite lor_half; dlia).
  rewrite E at 1. rewrite Z.land_lor_distr_l. change HI_MASK with (Z.shiftl (Z.ones 32) H_EXP).
  assert (0 <= x mod HB < 2 ^ H_EXP) as Hm by (unfold H_EXP; change (2 ^ 32) with HB; dlia).
  rewrite (Z.land_comm (x mod HB)), land_shiftl_low by (done || exact Hm).
  rewrite <- shl_half, <- Z.shiftl_land, Z.land_ones, shl_half, Z.lor_0_r by lia.
  change (2 ^ 32) with HB. rewrite shl_half. clear E Hm. rewrite Z.mod_small; dlia.
Qed.

Lemma mul_half a b : 0 <= a < HB → 0 <= b < HB → 0 <= a * b <= (HB - 1) * (HB - 1).
Proof. nia. Qed.

(** The product of two digits plus a carry, through half digits. *)
Lemma DMULc_spec a b d d1 d0 :
  digit a → digit b → digit d → DMULc a b d = (d1, d0) →
  d0 + B * d1 = a * b + d ∧ digit d1 ∧ digit d0.
Proof.
  intros Ha Hb Hd. unfold DMULc. rewrite !shr_half, !hw_mod.
  rewrite (Z.mod_small (a / HB)), (Z.mod_small (b / HB)) by dlia.
  set (a0 := a mod HB). set (a1 := a / HB). set (b0 := b mod HB). set (b1 := b / HB).
  assert (a = a1 * HB + a0 ∧ 0 <= a0 < HB ∧ 0 <= a1 < HB) as (Ea & Ha0 & Ha1) by (subst a0 a1; dlia).
  assert (b = b1 * HB + b0 ∧ 0 <= b0 < HB ∧ 0 <= b1 < HB) as (Eb & Hb0 & Hb1) by (subst b0 b1; dlia).
  clearbody a0 a1 b0 b1.
  assert (a * b + d <= (B - 1) * (B - 1) + B - 1) as Htot by nia.
  assert (a * b = a0 * b0 + HB * (a0 * b1 + a1 * b0) + B * (a1 * b1)) as Eab by (subst a b; ring).
  rewrite Eab in *. clear Ea Eb Eab Ha Hb a b.
  pose proof (mul_half a0 b0 Ha0 Hb0) as M00. pose proof (mul_half a0 b1 Ha0 Hb1) as M01.
  pose proof (mul_half a1 b0 Ha1 Hb0) as M10. pose proof (mul_half a1 b1 Ha1 Hb1) as M11.
  set (m00 := a0 * b0) in *. set (m01 := a0 * b1) in *. set (m10 := a1 * b0) in *.
  set (m11 := a1 * b1) in *. clearbody m00 m01 m10 m11. clear Ha0 Ha1 Hb0 Hb1 a0 a1 b0 b1.
  rewrite !(dw_mod m00), !(dw_mod m01), !(dw_mod m10), !(dw_mod m11).
  rewrite !(Z.mod_small m00), !(Z.mod_small m01), !(Z.mod_small m10), !(Z.mod_small m11) by lia.
  destruct (DSUM m00 d) as [p0 c0] eqn:E0. apply DSUM_spec in E0 as (E0 & Hp0 & Hc0); [|lia|lia].
  rewrite shl_half, shr_half, dw_mod, (Z.mod_small (c0 * HB)) by lia.
  destruct (DSUM (c0 * HB) (p0 / HB)) as [p1 p2] eqn:E1.
  apply DSUM_spec in E1 as (E1 & Hp1 & Hp2); [|lia|dlia].
  assert (p2 = 0) as -> by dlia. clear Hp2.
  destruct (DSUM p1 m01) as [p1' c1] eqn:E2. apply DSUM_spec in E2 as (E2 & Hp1' & Hc1); [|lia|lia].
  rewrite !(dw_mod (0 + c1)), (Z.mod_small (0 + c1)), Z.add_0_l by lia.
  destruct (DSUM p1' m10) as [p1'' c2] eqn:E3. apply DSUM_spec in E3 as (E3 & Hp1'' & Hc2); [|lia|lia].
  rewrite (dw_mod (c1 + c2)), (Z.mod_small (c1 + c2)), shl_half, dw_mod by lia.
  destruct (DSUM p1'' ((m11 * HB) mod B)) as [q1 c3] eqn:E4.
  apply DSUM_spec in E4 as (E4 & Hq1 & Hc3); [|lia|dlia].
  rewrite (dw_mod (c1 + c2 + c3)), (Z.mod_small (c1 + c2 + c3)), shl_half, dw_mod,
    (Z.mod_small ((c1 + c2 + c3) * HB)) by lia.
  assert (m11 mod HB + m11 / HB * HB = m11 ∧ 0 <= m11 mod HB < HB ∧ 0 <= m11 / HB < HB)
    as (Em11 & Hml & Hmh) by dlia.
  assert ((m11 * HB) mod B = m11 mod HB * HB) as Em.
  { change B with (HB * HB). by rewrite Z.mul_mod_distr_r by lia. }
  rewrite Em in E4. set (ml := m11 mod HB) in *. set (mh := m11 / HB) in *. clearbody ml mh.
  destruct (DSUM m11 ((c1 + c2 + c3) * HB)) as [q2 c4] eqn:E5.
  apply DSUM_spec in E5 as (E5 & Hq2 & Hc4); [|lia|lia].
  rewrite !shr_half, !shl_half, land_lo, land_hi, dw_mod by done. clear Em.
  assert (q1 / HB * HB + q1 mod HB = q1 ∧ 0 <= q1 mod HB < HB ∧ 0 <= q1 / HB < HB) as (Eq1 & Hq1l & Hq1h) by dlia.
  assert (p0 / HB * HB + p0 mod HB = p0 ∧ 0 <= p0 mod HB < HB) as (Ep0 & Hp0l) by dlia.
  assert (c4 = 0 ∧ q2 = (mh + c1 + c2 + c3) * HB + ml) as [-> Eq2] by lia.
  assert (q2 / HB = mh + c1 + c2 + c3) as -> by dlia.
  rewrite lor_half by lia. intros [= <- <-].
  assert ((q1 * HB) mod B = q1 mod HB * HB) as ->.
  { change B with (HB * HB). by rewrite Z.mul_mod_distr_r by lia. }
  rewrite lor_half by lia. lia.
Qed.

(** * Values of digit vectors *)

Definition Bp (n : nat) : Z := B ^ Z.of_nat n.

Lemma Bp_0 : Bp 0 = 1.
Proof. reflexivity. Qed.

Lemma Bp_S n : Bp (S n) = B * Bp n.
Proof. unfold Bp. rewrite Nat2Z.inj_succ, Z.pow_succ_r by lia. done. Qed.

Lemma Bp_pos n : 0 < Bp n.
Proof. unfold Bp. apply Z.pow_pos_nonneg; lia. Qed.

Lemma Bp_add n k : Bp (n + k) = Bp n * Bp k.
Proof. unfold Bp. rewrite Nat2Z.inj_add, Z.pow_add_r by lia. done. Qed.

Lemma val_app l k : val (l ++ k) = val l + Bp (length l) * val k.
Proof.
  induction l as [|d l IH]; cbn [app val length]; [rewrite Bp_0; lia|].
  rewrite IH, Bp_S. lia.
Qed.

Lemma val_bound l : digits l → 0 <= val l < Bp (length l).
Proof.
  induction 1 as [|d l Hd Hl IH]; cbn [val length]; [rewrite Bp_0; lia|].
  rewrite Bp_S. lia.
Qed.

Lemma val_take_drop n l : val l = val (take n l) + Bp (length (take n l)) * val (drop n l).
Proof. by rewrite <- val_app, take_drop. Qed.

(** Leading zeros do not count. *)
Lemma trim_size_le r k : (trim_size r k <= k)%nat.
Proof. induction k as [|k IH]; simpl; [lia|]. destruct (_ && _); lia. Qed.

Lemma trim_size_val r k : (k <= length r)%nat → val (take (trim_size r k) r) = val (take k r).
Proof.
  induction k as [|k IH]; intros Hk; cbn [trim_size]; [done|].
  destruct (bool_decide_reflect (r !! k = Some 0)) as [E|E]; [|done].
  destruct (Nat.eqb_spec k 0) as [->|]; [done|]. cbn [negb andb]. rewrite IH by lia.
  rewrite (take_S_r _ _ _ E), val_app. cbn [val]. lia.
Qed.

Lemma trim_val r : val (trim r) = val r.
Proof. unfold trim. rewrite trim_size_val by lia. by rewrite firstn_all. Qed.

Lemma trim_digits r : digits r → digits (trim r).
Proof. apply Forall_take. Qed.

(** A vector in normal form: at least one digit, no leading zero unless it is the
    only digit. *)
Definition normal (l : list Z) : Prop :=
  l ≠ [] ∧ (last l = Some 0 → length l = 1%nat).

Lemma trim_size_normal r k :
  (0 < k <= length r)%nat → normal (take (trim_size r k) r).
Proof.
  induction k as [|k IH]; intros Hk; cbn [trim_size]; [lia|].
  destruct (bool_decide_reflect (r !! k = Some 0)) as [E|E].
  - destruct (Nat.eqb_spec k 0) as [->|]; cbn [negb andb]; [|apply IH; lia].
    rewrite (take_S_r _ _ _ E). split; done.
  - cbn [andb]. destruct (r !! k) as [d|] eqn:Ed; [|apply lookup_ge_None in Ed; lia].
    rewrite (take_S_r _ _ _ Ed). split; [by destruct (take k r)|].
    rewrite last_snoc. intros [= ->]. done.
Qed.

Lemma trim_normal r : r ≠ [] → normal (trim r).
Proof. intros Hr. apply trim_size_normal. destruct r; [done|simpl; lia]. Qed.

(** * Comparison *)

Lemma I_comp_rev_spec x y :
  digits x → digits y → length x = length y →
  I_comp_rev x y = match val (rev x) ?= val (rev y) with Lt => -1 | Eq => 0 | Gt => 1 end.
Proof.
  intros Hx. revert y. induction Hx as [|xd x Hxd Hx IH]; intros y Hy Hlen;
    destruct y as [|yd y]; try done. cbn [I_comp_rev rev] in *.
  apply Forall_cons in Hy as [Hyd Hy]. injection Hlen as Hlen.
  rewrite !val_app, !length_rev, Hlen. cbn [val]. rewrite !Z.mul_0_r, !Z.add_0_r.
  pose proof (val_bound (rev x) ltac:(by apply Forall_rev)) as Bx.
  pose proof (val_bound (rev y) ltac:(by apply Forall_rev)) as By.
  rewrite !length_rev in *. rewrite Hlen in Bx. pose proof (Bp_pos (length y)).
  destruct (Z.eqb_spec xd yd) as [->|Hne].
  - rewrite IH by done. destruct (Z.compare_spec (val (rev x)) (val (rev y))),
      (Z.compare_spec (val (rev x) + Bp (length y) * yd) (val (rev y) + Bp (length y) * yd)); lia.
  - destruct (Z.ltb_spec xd yd),
      (Z.compare_spec (val (rev x) + Bp (length y) * xd) (val (rev y) + Bp (length y) * yd));
      try lia; nia.
Qed.

Lemma normal_lower l : normal l → digits l → val l ≠ 0 → Bp (length l - 1) <= val l.
Proof.
  intros [Hne Hn] Hd Hv. destruct l as [|d l _] using rev_ind; [done|].
  apply Forall_app in Hd as [Hl Hd]. apply Forall_cons in Hd as [Hd _].
  rewrite last_snoc in Hn. rewrite val_app, length_app in *. cbn [val length] in *.
  replace (length l + 1 - 1)%nat with (length l) by lia.
  pose proof (val_bound l Hl). pose proof (Bp_pos (length l)).
  destruct (decide (d = 0)) as [->|]; [|nia].
  specialize (Hn eq_refl). destruct l; [simpl in *; lia|simpl in Hn; lia].
Qed.

Lemma val_normal l : digits l → l ≠ [] → Bp (length l - 1) <= val l → normal l.
Proof.
  intros Hd Hne Hv. split; [done|]. intros Hlast. destruct l as [|d l _] using rev_ind; [done|].
  rewrite last_snoc in Hlast. injection Hlast as ->. apply Forall_app in Hd as [Hd _].
  pose proof (val_bound l Hd). rewrite val_app, length_app in *. cbn [val length] in *.
  replace (length l + 1 - 1)%nat with (length l) in Hv by lia. lia.
Qed.

Lemma normal_lower1 l : normal l → digits l → (1 < length l)%nat → Bp (length l - 1) <= val l.
Proof.
  intros Nl Hd Hl. apply normal_lower; [done..|]. intros E. destruct Nl as [_ Nl].
  destruct l as [|d l _] using rev_ind; [simpl in Hl; lia|]. rewrite last_snoc in Nl.
  apply Forall_app in Hd as [Hd0 Hd]. apply Forall_cons in Hd as [Hd _].
  rewrite val_app in E. cbn [val] in E. pose proof (val_bound l Hd0). pose proof (Bp_pos (length l)).
  assert (d = 0) as -> by nia. specialize (Nl eq_refl). lia.
Qed.

(** A vector of the length of a normal one, and no smaller, is normal. *)
Lemma normal_le r x :
  digits r → digits x → normal x → length r = length x → val x <= val r → normal r.
Proof.
  intros Hr Hx Nx Hl Hv. assert (0 < length x)%nat by (destruct Nx as [Nx _], x; [done|simpl; lia]).
  assert (r ≠ []) by (intros ->; simpl in Hl; lia).
  destruct (decide (1 < length x)%nat) as [Hl1|]; [|split; [done|lia]].
  apply val_normal; [done..|]. rewrite Hl. pose proof (normal_lower1 x Nx Hx Hl1). lia.
Qed.

Lemma Bp_mono n k : (n <= k)%nat → Bp n <= Bp k.
Proof. intros. unfold Bp. apply Z.pow_le_mono_r; lia. Qed.

(** For vectors in normal form, the comparison of [I_comp] is that of the
    numbers. *)
Lemma I_comp_spec x y :
  digits x → digits y → normal x → normal y →
  I_comp x y = match val x ?= val y with Lt => -1 | Eq => 0 | Gt => 1 end.
Proof.
  intros Hx Hy Nx Ny. unfold I_comp.
  pose proof (val_bound x Hx) as Bx. pose proof (val_bound y Hy) as By.
  pose proof (normal_lower1 x Nx Hx) as Lx. pose proof (normal_lower1 y Ny Hy) as Ly.
  assert (0 < length x ∧ 0 < length y)%nat by (destruct Nx, Ny, x, y; simpl; lia || done).
  destruct (Nat.ltb_spec (length x) (length y)) as [Hl|Hl].
  { pose proof (Bp_mono (length x) (length y - 1) ltac:(lia)).
    destruct (Z.compare_spec (val x) (val y)); lia. }
  destruct (Nat.ltb_spec (length y) (length x)) as [Hl'|Hl'].
  { pose proof (Bp_mono (length y) (length x - 1) ltac:(lia)).
    destruct (Z.compare_spec (val x) (val y)); lia. }
  rewrite I_comp_rev_spec, !rev_involutive; [done|by apply Forall_rev|by apply Forall_rev|].
  rewrite !length_rev. lia.
Qed.

(** * Addition and subtraction *)

Lemma add_loop_spec x y c :
  digits x → digits y → 0 <= c <= 1 → (length y <= length x)%nat →
  ∃ r c', add_loop x y c = Ok (r, drop (length y) x, c') ∧ digits r ∧
    0 <= c' <= 1 ∧ length r = length y ∧
    val r + Bp (length y) * c' = val (take (length y) x) + val y + c.
Proof.
  intros Hx Hy. revert x c Hx. induction Hy as [|yd y Hyd Hy IH]; intros x c Hx Hc Hl.
  { exists [], c. split_and!; [done|constructor|lia|lia|done|]. cbn [length]. rewrite take_0, Bp_0. cbn [val]. lia. }
  destruct x as [|xd x]; [simpl in Hl; lia|]. apply Forall_cons in Hx as [Hxd Hx].
  pose proof (DSUMc_spec xd yd c _ _ Hxd Hyd Hc eq_refl) as (Es & Hs & Hc').
  cbn [add_loop length skipn firstn val] in *.
  destruct (IH x _ Hx Hc' ltac:(lia)) as (r & c' & -> & Hr & Hc1 & Hlen & Hv).
  rewrite bind_Ok. eexists _, c'. split; [reflexivity|]. split_and!; [by constructor|lia|lia|by simpl; lia|].
  cbn [val]. rewrite Bp_S. lia.
Qed.

Lemma carry_loop_spec x c r c' :
  digits x → digit c → carry_loop x c = (r, c') →
  digits r ∧ digit c' ∧ length r = length x ∧ val r + Bp (length x) * c' = val x + c ∧
  (x ≠ [] → c' <= 1).
Proof.
  intros Hx. revert c r c'. induction Hx as [|xd x Hxd Hx IH]; intros c r c' Hc; cbn [carry_loop].
  { intros [= <- <-]. split_and!; [by apply Forall_nil|lia|lia|done|cbn [val length]; rewrite Bp_0; lia|done]. }
  destruct (carry_loop x _) as [r1 c1] eqn:E. intros [= <- <-].
  assert (dw (xd + c) + B * c_bool (dw (xd + c) <? c) = xd + c) as E1.
  { rewrite dw_once by lia. dsplit; lia. }
  pose proof (dw_range (xd + c)).
  apply IH in E as (Hr & Hc1 & Hlen & Hv & H1); [|dsplit; lia].
  cbn [val length]. rewrite Bp_S.
  split_and!; [by constructor|lia|lia|lia|lia|].
  intros _. destruct x; [|by apply H1]. destruct r1; [|done]. cbn [length val] in *. rewrite Bp_0 in Hv. revert Hv. dsplit; lia.
Qed.

Lemma last_app_ne {A} (l k : list A) : k ≠ [] → last (l ++ k) = last k.
Proof. intros. rewrite last_app. by destruct (last k) eqn:E; [|apply last_None in E]. Qed.

Lemma I_add_spec x y :
  digits x → digits y → y ≠ [] → (length y <= length x)%nat →
  ∃ r, I_add x y = Ok r ∧ digits r ∧ val r = val x + val y ∧
    (length x <= length r <= S (length x))%nat ∧ (normal x → normal r).
Proof.
  intros Hx Hy Hne Hl. unfold I_add. destruct y as [|yd y]; [done|].
  destruct (add_loop_spec x (yd :: y) 0 Hx Hy ltac:(lia) Hl) as (r & c & -> & Hr & Hc & Hlr & Hv).
  rewrite bind_Ok. set (k := length (yd :: y)) in *.
  destruct (carry_loop (drop k x) c) as [r2 c2] eqn:E.
  apply carry_loop_spec in E as (Hr2 & Hc2 & Hl2 & Hv2 & Hc2'); [|by apply Forall_drop|lia].
  assert (0 <= c2 <= 1).
  { destruct (decide (drop k x = [])) as [E0|E0]; [|specialize (Hc2' E0); lia].
    rewrite E0 in Hv2, Hl2. cbn [length val] in *. destruct r2; [|done]. rewrite Bp_0 in Hv2.
    cbn [val] in Hv2. lia. }
  eexists. split; [reflexivity|]. pose proof (val_take_drop k x) as Hvx.
  rewrite length_take in Hvx. replace (k `min` length x)%nat with k in Hvx by lia.
  assert (val (r2 ++ if negb (c2 =? 0) then [1] else []) = val (drop k x) + c) as Hv3.
  { rewrite val_app, Hl2. destruct (Z.eqb_spec c2 0) as [->|]; cbn [negb val].
    - lia.
    - replace c2 with 1 in Hv2 by lia. lia. }
  set (t := if negb (c2 =? 0) then [1] else []) in *.
  assert (digits (r ++ r2 ++ t)) as Hd.
  { apply Forall_app. split; [done|]. apply Forall_app. split; [done|].
    subst t. destruct (negb _); repeat constructor; lia. }
  assert (val (r ++ r2 ++ t) = val x + val (yd :: y)) as Hval by (rewrite val_app, Hv3, Hlr; lia).
  assert (length (r ++ r2 ++ t) = length x + length t)%nat as Hlen.
  { rewrite !length_app, Hl2, length_drop. lia. }
  split_and!; [done|done|lia|subst t; destruct (negb _); simpl in *; lia|].
  intros Nx. subst t. destruct (negb (c2 =? 0)).
  - split; [by destruct r, r2|]. rewrite app_assoc, last_snoc. done.
  - cbn [length] in Hlen. rewrite Nat.add_0_r in Hlen. pose proof (val_bound (yd :: y) Hy) as [By _].
    apply (normal_le _ x); (done || lia).
Qed.

Lemma D_add_spec x c :
  digits x → x ≠ [] → digit c →
  digits (D_add x c) ∧ val (D_add x c) = val x + c ∧ (length x <= length (D_add x c))%nat.
Proof.
  intros Hx Hne Hc. unfold D_add. destruct (carry_loop x c) as [r c2] eqn:E.
  apply carry_loop_spec in E as (Hr & Hc2 & Hl & Hv & H1); [|done|done]. specialize (H1 Hne).
  rewrite length_app, val_app, Hl. split_and!; [|destruct (Z.eqb_spec c2 0) as [->|]|lia].
  - apply Forall_app. split; [done|]. destruct (negb _); repeat constructor; lia.
  - cbn [negb val]. lia.
  - cbn [negb val]. replace c2 with 1 in Hv by lia. lia.
Qed.

Lemma sub_loop_spec x y c :
  digits x → digits y → 0 <= c <= 1 → (length y <= length x)%nat →
  ∃ r c', sub_loop x y c = Ok (r, drop (length y) x, c') ∧ digits r ∧
    0 <= c' <= 1 ∧ length r = length y ∧
    val r - Bp (length y) * c' = val (take (length y) x) - val y - c.
Proof.
  intros Hx Hy. revert x c Hx. induction Hy as [|yd y Hyd Hy IH]; intros x c Hx Hc Hl.
  { exists [], c. split_and!; [done|constructor|lia|lia|done|]. cbn [length]. rewrite take_0, Bp_0. cbn [val]. lia. }
  destruct x as [|xd x]; [simpl in Hl; lia|]. apply Forall_cons in Hx as [Hxd Hx].
  pose proof (DSUBb_spec xd yd c _ _ Hxd Hyd Hc eq_refl) as (Es & Hs & Hc').
  cbn [sub_loop length skipn firstn val] in *.
  destruct (IH x _ Hx Hc' ltac:(lia)) as (r & c' & -> & Hr & Hc1 & Hlen & Hv).
  rewrite bind_Ok. eexists _, c'. split; [reflexivity|]. split_and!; [by constructor|lia|lia|by simpl; lia|].
  cbn [val]. rewrite Bp_S. lia.
Qed.

Lemma borrow_loop_spec x c r c' :
  digits x → digit c → borrow_loop x c = (r, c') →
  digits r ∧ digit c' ∧ length r = length x ∧ val r - Bp (length x) * c' = val x - c.
Proof.
  intros Hx. revert c r c'. induction Hx as [|xd x Hxd Hx IH]; intros c r c' Hc; cbn [borrow_loop].
  { intros [= <- <-]. split_and!; [by apply Forall_nil|lia|lia|done|cbn [val length]; rewrite Bp_0; lia]. }
  destruct (borrow_loop x _) as [r1 c1] eqn:E. intros [= <- <-].
  assert (dw (xd - c) - B * c_bool (dw (xd - c) >? xd) = xd - c) as E1.
  { rewrite dw_once by lia. dsplit; lia. }
  pose proof (dw_range (xd - c)).
  apply IH in E as (Hr & Hc1 & Hlen & Hv); [|dsplit; lia].
  cbn [val length]. rewrite Bp_S.
  split_and!; [by constructor|lia|lia|lia|lia].
Qed.

(** No borrow is left when the subtrahend is not larger. *)
Lemma no_borrow v P c w : 0 <= v < P → 0 <= c → v - P * c = w → 0 <= w → c = 0 ∧ v = w.
Proof. intros. assert (c = 0) by nia. subst. lia. Qed.

Lemma I_sub_spec x y :
  digits x → digits y → y ≠ [] → (length y <= length x)%nat → val y <= val x →
  ∃ r, I_sub x y = Ok r ∧ digits r ∧ val r = val x - val y ∧ normal r.
Proof.
  intros Hx Hy Hne Hl Hle. unfold I_sub. destruct y as [|yd y]; [done|].
  destruct (sub_loop_spec x (yd :: y) 0 Hx Hy ltac:(lia) Hl) as (r & c & -> & Hr & Hc & Hlr & Hv).
  rewrite bind_Ok. set (k := length (yd :: y)) in *.
  destruct (borrow_loop (drop k x) c) as [r2 c2] eqn:E.
  apply borrow_loop_spec in E as (Hr2 & Hc2 & Hl2 & Hv2); [|by apply Forall_drop|lia].
  eexists. split; [reflexivity|]. pose proof (val_take_drop k x) as Hvx.
  rewrite length_take in Hvx. replace (k `min` length x)%nat with k in Hvx by lia.
  assert (digits (r ++ r2)) as Hrr by by apply Forall_app.
  assert (val (r ++ r2) - Bp (length (r ++ r2)) * c2 = val x - val (yd :: y)) as Hvv.
  { rewrite val_app, length_app, Bp_add, Hlr, Hl2. nia. }
  pose proof (val_bound _ Hrr) as Hb.
  destruct (no_borrow _ _ _ _ Hb (proj1 Hc2) Hvv ltac:(lia)) as [-> Hval].
  split_and!; [by apply trim_digits|by rewrite trim_val|apply trim_normal; by destruct r].
Qed.

Lemma D_sub_spec x c :
  digits x → x ≠ [] → digit c → c <= val x →
  digits (D_sub x c) ∧ val (D_sub x c) = val x - c ∧ normal (D_sub x c).
Proof.
  intros Hx Hne Hc Hle. unfold D_sub. destruct (borrow_loop x c) as [r c2] eqn:E.
  apply borrow_loop_spec in E as (Hr & Hc2 & Hl & Hv); [|done|done].
  pose proof (val_bound _ Hr) as Hb. rewrite Hl in Hb.
  destruct (no_borrow _ _ _ _ Hb (proj1 Hc2) Hv ltac:(lia)) as [-> Hval].
  split_and!; [by apply trim_digits|by rewrite trim_val|apply trim_normal].
  intros ->. by destruct x.
Qed.

(** [Z_sub]: the complement with respect to the next power of the base. *)
Lemma zsub_loop_spec y c :
  digits y → 0 <= c <= 1 →
  digits (zsub_loop y c) ∧ length (zsub_loop y c) = length y ∧
  ∃ c', 0 <= c' <= 1 ∧ val (zsub_loop y c) - Bp (length y) * c' = - (val y + c).
Proof.
  intros Hy. revert c. induction Hy as [|yd y Hyd Hy IH]; intros c Hc; cbn [zsub_loop].
  { split_and!; [by apply Forall_nil|done|]. exists c. cbn [val length]. rewrite Bp_0. lia. }
  assert (dw (0 - dw (yd + c)) -
    B * (c_bool (dw (yd + c) <? c) + c_bool (dw (0 - dw (yd + c)) >? 0)) = - (yd + c) ∧
    0 <= c_bool (dw (yd + c) <? c) + c_bool (dw (0 - dw (yd + c)) >? 0) <= 1) as [E1 E2].
  { pose proof (dw_range (yd + c)). rewrite (dw_once (0 - _)), (dw_once (yd + c)) by lia. dsplit; lia. }
  destruct (IH _ E2) as (Hd & Hl & c' & Hc' & Hv). pose proof (dw_range (0 - dw (yd + c))).
  cbn [length val]. rewrite Bp_S. split_and!; [by constructor|lia|]. exists c'. split; [lia|]. lia.
Qed.

Lemma Z_sub_spec y :
  digits y → y ≠ [] → val y ≠ 0 →
  digits (Z_sub y) ∧ val (Z_sub y) = Bp (length y) - val y ∧ normal (Z_sub y).
Proof.
  intros Hy Hne Hv. unfold Z_sub.
  destruct (zsub_loop_spec y 0 Hy ltac:(lia)) as (Hd & Hl & c' & Hc' & Hvv).
  pose proof (val_bound _ Hd) as Hb. pose proof (val_bound _ Hy) as Hby. rewrite Hl in Hb.
  split_and!; [by apply trim_digits| |apply trim_normal; intros E; rewrite E in Hl; by destruct y].
  rewrite trim_val. assert (c' = 1) as -> by nia. lia.
Qed.

(** * Multiplication *)

(** One position of a row: the product is spread over the digit and the two
    carries. *)
Lemma mul_row_spec d y rt c cp :
  digits y → digits rt → digit d → d ≠ 0 → 0 <= c <= 1 → digit cp → (d = 1 → cp = 0) →
  (d = 2 → 0 <= cp <= 1) → (length y <= length rt)%nat →
  ∃ r c' cp', mul_row d y rt c cp = Ok (r, c', cp') ∧ digits r ∧ length r = length y ∧
    0 <= c' <= 1 ∧ digit cp' ∧
    val r + Bp (length y) * (c' + cp') = val (take (length y) rt) + d * val y + c + cp.
Proof.
  intros Hy. revert rt c cp. induction Hy as [|yd y Hyd Hy IH]; intros rt c cp Hrt Hd Hd0 Hc Hcp H1 H2 Hl.
  { exists [], c, cp. split_and!; [done|by apply Forall_nil|done|lia|lia|lia|lia|].
    cbn [length]. rewrite take_0, Bp_0. cbn [val]. lia. }
  destruct rt as [|rd rt]; [simpl in Hl; lia|]. apply Forall_cons in Hrt as [Hrd Hrt].
  cbn [mul_row]. set (step := if d =? 1 then _ else _).
  assert (∃ p c1 cp1, step = (p, c1, cp1) ∧ digit p ∧ 0 <= c1 <= 1 ∧ digit cp1 ∧
    (d = 1 → cp1 = 0) ∧ (d = 2 → 0 <= cp1 <= 1) ∧
    p + B * (c1 + cp1) = rd + d * yd + c + cp) as (p & c1 & cp1 & -> & Hp & Hc1 & Hcp1 & H1' & H2' & E).
  { subst step. destruct (Z.eqb_spec d 1) as [->|N1].
    { destruct (DSUMc yd rd c) as [p c1] eqn:Es. apply DSUMc_spec in Es as (Es & ? & ?); [|done|done|done].
      rewrite (H1 eq_refl) in *. eexists _, _, _. split; [done|]. lia. }
    destruct (Z.eqb_spec d 2) as [->|N2].
    { specialize (H2 eq_refl).
      destruct (DSUMc yd yd cp) as [p cp1] eqn:Es. apply DSUMc_spec in Es as (Es & ? & ?); [|done|done|done].
      destruct (DSUMc p rd c) as [p' c1] eqn:Es'. apply DSUMc_spec in Es' as (Es' & ? & ?); [|done|done|done].
      eexists _, _, _. split; [done|]. lia. }
    destruct (DMULc d yd cp) as [cp1 p] eqn:Es. apply DMULc_spec in Es as (Es & ? & ?); [|done|done|done].
    destruct (DSUMc p rd c) as [p' c1] eqn:Es'. apply DSUMc_spec in Es' as (Es' & ? & ?); [|done|done|done].
    eexists _, _, _. split; [done|]. lia. }
  destruct (IH rt c1 cp1) as (r & c' & cp' & -> & Hr & Hlr & Hc' & Hcp' & Hv); try done; [simpl in Hl; lia|].
  rewrite bind_Ok. eexists _, _, _. split; [done|].
  cbn [length firstn val]. rewrite Bp_S. split_and!; [by constructor|lia|lia|lia|lia|lia|].
  lia.
Qed.

Lemma mul_le a b c d : 0 <= a <= c → 0 <= b <= d → a * b <= c * d.
Proof. intros. nia. Qed.

Lemma mul_step_spec d y r :
  digits y → digits r → digit d → (length y < length r)%nat →
  ∃ r', mul_step d y r = Ok r' ∧ length r' = length r ∧ digits r' ∧
    val (take (S (length y)) r') = val (take (length y) r) + d * val y.
Proof.
  intros Hy Hr Hd Hl. unfold mul_step.
  assert (∃ row c cp, (if d =? 0
     then if (length r <? length y)%nat then Fault else Ok (take (length y) r, 0, 0)
     else mul_row d y r 0 0) = Ok (row, c, cp) ∧ digits row ∧ length row = length y ∧
     0 <= c <= 1 ∧ digit cp ∧
     val row + Bp (length y) * (c + cp) = val (take (length y) r) + d * val y)
    as (row & c & cp & -> & Hrow & Hlr & Hc & Hcp & Hv).
  { destruct (Z.eqb_spec d 0) as [->|N].
    - destruct (Nat.ltb_spec (length r) (length y)); [lia|]. eexists _, _, _.
      split; [done|]. split_and!; [by apply Forall_take|rewrite length_take; lia|lia|lia|lia|lia|lia].
    - destruct (mul_row_spec d y r 0 0) as (row & c & cp & E & Hrow & Hlr & Hc & Hcp & Hv);
        try done; try lia. exists row, c, cp. split; [done|]. split_and!; (done || lia). }
  rewrite bind_Ok. pose proof (val_bound y Hy) as By. pose proof (val_bound row Hrow) as Brow.
  pose proof (val_bound (take (length y) r) ltac:(by apply Forall_take)) as Br.
  rewrite length_take, Nat.min_l in Br by lia. rewrite Hlr in Brow.
  pose proof (mul_le d (val y) (B - 1) (Bp (length y) - 1) ltac:(lia) ltac:(lia)) as Hdy.
  assert (c + cp < B) as Hcc by nia. rewrite dw_mod, Z.mod_small by lia.
  destruct (drop (length y) r) as [|e rest] eqn:E.
  { apply (f_equal length) in E. rewrite length_drop in E. simpl in E. lia. }
  eexists. split; [reflexivity|].
  assert (length r = length y + S (length rest))%nat as Hlen.
  { apply (f_equal length) in E. rewrite length_drop in E. simpl in E. lia. }
  split_and!.
  - rewrite length_app. simpl. lia.
  - apply Forall_app. split; [done|]. constructor; [lia|].
    pose proof (Forall_drop _ (length y) r Hr) as Hdr. rewrite E in Hdr. by apply Forall_cons in Hdr as [_ ?].
  - rewrite take_app_ge, Hlr by lia. replace (S (length y) - length y)%nat with 1%nat by lia.
    cbn [firstn]. rewrite take_0, val_app, Hlr. cbn [val]. lia.
Qed.

Lemma mul_rows_spec x y r :
  digits x → digits y → digits r → x ≠ [] → (length x + length y <= length r)%nat →
  ∃ r', mul_rows x y r = Ok r' ∧ length r' = length r ∧ digits r' ∧
    val (take (length x + length y) r') = val (take (length y) r) + val x * val y.
Proof.
  intros Hx Hy. revert r. induction Hx as [|d x Hd Hx IH]; intros r Hr Hne Hl; [done|].
  destruct (mul_step_spec d y r Hy Hr Hd) as (r1 & E1 & Hl1 & Hr1 & Hv1); [simpl in Hl; lia|].
  cbn [mul_rows]. rewrite E1, bind_Ok. destruct x as [|d' x].
  { exists r1. split_and!; [done|done|done|]. cbn [length val plus]. rewrite Hv1. lia. }
  destruct r1 as [|h t]; [simpl in *; lia|]. apply Forall_cons in Hr1 as [Hh Ht].
  destruct (IH t Ht ltac:(done)) as (r2 & E2 & Hl2 & Hr2 & Hv2); [simpl in *; lia|].
  rewrite E2, bind_Ok. exists (h :: r2). cbn [length] in *.
  split_and!; [done|lia|by constructor|].
  cbn [firstn val plus] in *. lia.
Qed.

Lemma zeros_val l : Forall (λ d, d = 0) l → val l = 0.
Proof. induction 1 as [|d l -> Hl IH]; cbn [val]; lia. Qed.

(** The product, in normal form when the factors are. *)
Lemma I_mul_spec x y r :
  digits x → digits y → digits r → x ≠ [] → y ≠ [] → (length x + length y <= length r)%nat →
  Forall (λ d, d = 0) (take (length y) r) →
  ∃ p, I_mul x y r = Ok p ∧ digits p ∧ val p = val x * val y ∧
    (normal x → normal y → val x ≠ 0 → val y ≠ 0 → normal p).
Proof.
  intros Hx Hy Hr Nx Ny Hl Hz. unfold I_mul.
  destruct (mul_rows_spec x y r Hx Hy Hr Nx Hl) as (r1 & -> & Hl1 & Hr1 & Hv1). rewrite bind_Ok.
  rewrite (zeros_val _ Hz), Z.add_0_l in Hv1.
  assert (0 < length x)%nat by (destruct x; [done|simpl; lia]).
  assert (0 < length y)%nat by (destruct y; [done|simpl; lia]).
  set (k := (length x - 1 + length y)%nat).
  replace (length x + length y)%nat with (S k) in * by lia.
  destruct (r1 !! k) as [d|] eqn:Ed; [|apply lookup_ge_None in Ed; lia].
  set (p := if d =? 0 then take k r1 else take (S k) r1).
  assert (digits p) as Hp by (subst p; destruct (d =? 0); by apply Forall_take).
  assert (val p = val x * val y) as Hvp.
  { subst p. destruct (Z.eqb_spec d 0) as [->|]; [|done].
    rewrite <- Hv1, (take_S_r _ _ _ Ed), val_app. cbn [val]. lia. }
  exists p. split; [subst p; by destruct (d =? 0)|]. split_and!; [done|done|].
  intros Nx' Ny' Zx Zy. pose proof (normal_lower x Nx' Hx Zx). pose proof (normal_lower y Ny' Hy Zy).
  assert (Bp (k - 1) <= val x * val y) as Hlow.
  { replace (k - 1)%nat with ((length x - 1) + (length y - 1))%nat by lia. rewrite Bp_add.
    pose proof (Bp_pos (length x - 1)). pose proof (Bp_pos (length y - 1)). nia. }
  subst p. destruct (Z.eqb_spec d 0) as [->|Hd0].
  - apply val_normal; [done|intros E; apply (f_equal length) in E; rewrite length_take in E; simpl in E; lia|].
    rewrite length_take, Nat.min_l by lia. by rewrite Hvp.
  - rewrite (take_S_r _ _ _ Ed). split; [by destruct (take k r1)|]. rewrite last_snoc. by intros [= ->].
Qed.

Lemma dmul2_loop_spec x c r c' :
  digits x → 0 <= c <= 1 → dmul2_loop x c = (r, c') →
  digits r ∧ length r = length x ∧ 0 <= c' <= 1 ∧ val r + Bp (length x) * c' = 2 * val x + c.
Proof.
  intros Hx. revert c r c'. induction Hx as [|xd x Hxd Hx IH]; intros c r c' Hc; cbn [dmul2_loop].
  { intros [= <- <-]. cbn [val length]. rewrite Bp_0. split_and!; [by apply Forall_nil|done|lia|lia|lia]. }
  destruct (DSUMc xd xd c) as [p c1] eqn:E. apply DSUMc_spec in E as (E & Hp & Hc1); [|done|done|done].
  destruct (dmul2_loop x c1) as [r1 c2] eqn:E1. intros [= <- <-].
  apply IH in E1 as (Hr & Hl & Hc2 & Hv); [|done]. cbn [val length]. rewrite Bp_S.
  split_and!; [by constructor|lia|lia|lia|lia].
Qed.

Lemma dmul_loop_spec x d c r c' :
  digits x → digit d → digit c → dmul_loop x d c = (r, c') →
  digits r ∧ length r = length x ∧ digit c' ∧ val r + Bp (length x) * c' = d * val x + c.
Proof.
  intros Hx Hd. revert c r c'. induction Hx as [|xd x Hxd Hx IH]; intros c r c' Hc; cbn [dmul_loop].
  { intros [= <- <-]. cbn [val length]. rewrite Bp_0. split_and!; [by apply Forall_nil|done|lia|lia|lia]. }
  destruct (DMULc d xd c) as [c1 p] eqn:E. apply DMULc_spec in E as (E & Hc1 & Hp); [|done|done|done].
  destruct (dmul_loop x d c1) as [r1 c2] eqn:E1. intros [= <- <-].
  apply IH in E1 as (Hr & Hl & Hc2 & Hv); [|done]. cbn [val length]. rewrite Bp_S.
  split_and!; [by constructor|lia|lia|lia|lia].
Qed.

Lemma D_mul_spec x d :
  digits x → x ≠ [] → digit d →
  digits (D_mul x d) ∧ val (D_mul x d) = d * val x ∧
  (normal x → normal (D_mul x d)).
Proof.
  intros Hx Hne Hd. unfold D_mul. destruct (Z.eqb_spec d 0) as [->|N0].
  { split_and!; [by repeat constructor|done|]. by intros; split. }
  destruct (Z.eqb_spec d 1) as [->|N1]. { split_and!; [done|lia|done]. }
  set (p := if d =? 2 then _ else _).
  assert (∃ r c, p = (r, c) ∧ digits r ∧ length r = length x ∧ digit c ∧
    val r + Bp (length x) * c = d * val x) as (r & c & -> & Hr & Hl & Hc & Hv).
  { subst p. destruct (Z.eqb_spec d 2) as [->|].
    - destruct (dmul2_loop x 0) as [r c] eqn:E. apply dmul2_loop_spec in E as (? & ? & ? & ?); [|done|lia].
      exists r, c. split; [done|]. split_and!; (done || lia).
    - destruct (dmul_loop x d 0) as [r c] eqn:E. apply dmul_loop_spec in E as (? & ? & ? & ?); [|done|done|lia].
      exists r, c. split; [done|]. split_and!; (done || lia). }
  destruct (Z.eqb_spec c 0) as [->|Nc].
  - split_and!; [done|lia|]. intros Nx. pose proof (val_bound x Hx). apply (normal_le _ x); (done || nia).
  - split_and!.
    + apply Forall_app. split; [done|]. by apply Forall_singleton.
    + rewrite val_app, Hl. cbn [val]. lia.
    + intros _. split; [by destruct r|]. rewrite last_snoc. by intros [= ->].
Qed.

(** * Division of two digits by one *)

(** One line of [D2PF]: the top [k] bits are tested and [x] is shifted by [k]. *)
Lemma D2PF_step b x s lim k :
  0 <= k <= 64 → lim = 2 ^ (64 - k) - 1 → 0 <= s → b * 2 ^ s = x →
  2 ^ (64 - 2 * k) <= x < B ∧ 0 < x →
  let '(s', x') := if x <=? lim then (s + k, dw (Z.shiftl x k)) else (s, x) in
  s <= s' <= s + k ∧ b * 2 ^ s' = x' ∧ 2 ^ (64 - k) <= x' < B.
Proof.
  intros Hk -> Hs E [Hx Hx0]. destruct (Z.leb_spec x (2 ^ (64 - k) - 1)); [|lia].
  pose proof (Z.pow_pos_nonneg 2 k ltac:(lia) ltac:(lia)).
  assert (x * 2 ^ k < B).
  { change B with (2 ^ 64). replace 64 with ((64 - k) + k) by lia. rewrite Z.pow_add_r by lia. nia. }
  rewrite Z.shiftl_mul_pow2, dw_mod, Z.mod_small by nia. split; [lia|].
  split; [rewrite Z.pow_add_r by lia; lia|]. split; [|done].
  destruct (Z.le_gt_cases (2 * k) 64).
  - replace (64 - k) with ((64 - 2 * k) + k) by lia. rewrite Z.pow_add_r by lia. nia.
  - assert (2 ^ (64 - k) <= 2 ^ k) by (apply Z.pow_le_mono_r; lia). nia.
Qed.

Lemma D2PF_spec b : 0 < b < B → 0 <= D2PF b <= 63 ∧ B / 2 <= b * 2 ^ D2PF b < B.
Proof.
  intros Hb. unfold D2PF. change (B / 2) with (2 ^ 63).
  pose proof (D2PF_step b b 0 4294967295 32 ltac:(lia) eq_refl ltac:(lia) ltac:(lia) ltac:(lia)) as H1.
  destruct (if b <=? _ then _ else _) as [s1 x1]. destruct H1 as (Hs1 & E1 & L1).
  pose proof (D2PF_step b x1 s1 281474976710655 16 ltac:(lia) eq_refl ltac:(lia) E1 ltac:(lia)) as H2.
  destruct (if x1 <=? _ then _ else _) as [s2 x2]. destruct H2 as (Hs2 & E2 & L2). clear L1 E1 x1.
  pose proof (D2PF_step b x2 s2 72057594037927935 8 ltac:(lia) eq_refl ltac:(lia) E2 ltac:(lia)) as H3.
  destruct (if x2 <=? _ then _ else _) as [s3 x3]. destruct H3 as (Hs3 & E3 & L3). clear L2 E2 x2.
  pose proof (D2PF_step b x3 s3 1152921504606846975 4 ltac:(lia) eq_refl ltac:(lia) E3 ltac:(lia)) as H4.
  destruct (if x3 <=? _ then _ else _) as [s4 x4]. destruct H4 as (Hs4 & E4 & L4). clear L3 E3 x3.
  pose proof (D2PF_step b x4 s4 4611686018427387903 2 ltac:(lia) eq_refl ltac:(lia) E4 ltac:(lia)) as H5.
  destruct (if x4 <=? _ then _ else _) as [s5 x5]. destruct H5 as (Hs5 & E5 & L5). clear L4 E4 x4.
  pose proof (D2PF_step b x5 s5 9223372036854775807 1 ltac:(lia) eq_refl ltac:(lia) E5 ltac:(lia)) as H6.
  destruct (x5 <=? 9223372036854775807); destruct H6 as (Hs6 & E6 & L6); rewrite E6; lia.
Qed.

Lemma quot_unique q t b n : 0 < b → q * b <= n < (t + 1) * b → t <= q → q = t.
Proof. intros Hb Hn Ht. assert (q < t + 1) by nia. lia. Qed.

Section ddiv_step.
(** A normalised divisor [b = vn1*HB + vn0] and a dividend [un*HB + u] with
    [un < b]. *)
Context (vn1 vn0 un u : Z).
Hypothesis Hvn1 : HB / 2 <= vn1 < HB.
Hypothesis Hvn0 : 0 <= vn0 < HB.
Hypothesis Hu : 0 <= u < HB.
Hypothesis Hun : 0 <= un < vn1 * HB + vn0.

Definition q_true : Z := (un * HB + u) / (vn1 * HB + vn0).

Lemma q_true_range : 0 <= q_true < HB ∧
  q_true * (vn1 * HB + vn0) <= un * HB + u < (q_true + 1) * (vn1 * HB + vn0).
Proof.
  unfold q_true. change (HB / 2) with 2147483648 in *.
  set (b := vn1 * HB + vn0) in *. set (n := un * HB + u).
  assert (0 < b) by lia.
  pose proof (Z.div_mod n b ltac:(lia)). pose proof (Z.mod_pos_bound n b ltac:(lia)).
  assert (0 <= n / b) by (apply Z.div_pos; lia).
  assert (n / b < HB) by (apply Z.div_lt_upper_bound; lia). nia.
Qed.

(** The estimate is at most two too large (Knuth). *)
Lemma q_hat_range : q_true <= un / vn1 <= q_true + 2.
Proof.
  pose proof q_true_range as [Hq [H1 H2]]. change (HB / 2) with 2147483648 in *.
  pose proof (Z.div_mod un vn1 ltac:(lia)). pose proof (Z.mod_pos_bound un vn1 ltac:(lia)).
  set (q := q_true) in *. set (qh := un / vn1) in *. set (m := un mod vn1) in *. clearbody q qh m.
  pose proof (Z.mul_nonneg_nonneg q vn0 ltac:(lia) ltac:(lia)).
  split.
  - apply Z.lt_succ_r, (Z.mul_lt_mono_pos_r vn1); lia.
  - pose proof (Z.mul_le_mono_nonneg_l vn0 HB (q + 1) ltac:(lia) ltac:(lia)).
    apply Z.lt_succ_r, (Z.mul_lt_mono_pos_r vn1); lia.
Qed.

Lemma ddiv_fix_cond q rh :
  un = q * vn1 + rh → 0 <= q < HB → 0 <= rh < HB →
  (dw (q * vn0) >? dw (dw (Z.shiftl rh H_EXP) + u)) = (un * HB + u <? q * (vn1 * HB + vn0)).
Proof.
  intros E Hq Hrh. pose proof (mul_half q vn0 Hq Hvn0).
  rewrite shl_half, !dw_mod, !(Z.mod_small (rh * HB)), (Z.mod_small (rh * HB + u)),
    (Z.mod_small (q * vn0)) by lia.
  destruct (Z.gtb_spec (q * vn0) (rh * HB + u)), (Z.ltb_spec (un * HB + u) (q * (vn1 * HB + vn0))); lia.
Qed.

Lemma ddiv_fix_spec fuel q rh :
  un = q * vn1 + rh → q_true <= q <= q_true + Z.of_nat fuel → q <= HB + 1 → 0 <= rh < HB →
  ddiv_fix fuel q rh vn1 vn0 u = Ok q_true.
Proof.
  pose proof q_true_range as [Hq [H1 H2]]. change (HB / 2) with 2147483648 in *.
  set (qt := q_true) in *. clearbody qt.
  revert q rh. induction fuel as [|fuel IH]; intros q rh E Hqr HqH Hrh; cbn [ddiv_fix].
  - assert (q = qt) by lia. subst q. rewrite ddiv_fix_cond by lia.
    by destruct (Z.geb_spec qt HB), (Z.ltb_spec (un * HB + u) (qt * (vn1 * HB + vn0))); [lia..|].
  - destruct (Z.geb_spec q HB) as [Hge|Hlt]; cbn [orb].
    + rewrite !dw_mod, (Z.mod_small (q - 1)), (Z.mod_small (rh + vn1)) by lia.
      destruct (Z.geb_spec (rh + vn1) HB); [|apply IH; lia].
      pose proof (mul_le (q - 1) vn0 HB (HB - 1) ltac:(lia) ltac:(lia)). f_equal.
      apply (quot_unique _ _ (vn1 * HB + vn0) (un * HB + u)); lia.
    + rewrite ddiv_fix_cond by lia.
      destruct (Z.ltb_spec (un * HB + u) (q * (vn1 * HB + vn0))) as [Hgt|Hle].
      * assert (qt < q) by (destruct (decide (q = qt)) as [->|]; lia).
        rewrite !dw_mod, (Z.mod_small (q - 1)), (Z.mod_small (rh + vn1)) by lia.
        destruct (Z.geb_spec (rh + vn1) HB); [|apply IH; lia].
        pose proof (mul_le (q - 1) vn0 HB (HB - 1) ltac:(lia) ltac:(lia)). f_equal.
        apply (quot_unique _ _ (vn1 * HB + vn0) (un * HB + u)); lia.
      * f_equal. apply (quot_unique _ _ (vn1 * HB + vn0) (un * HB + u)); lia.
Qed.
Lemma ddiv_step_spec :
  vn1 * HB + vn0 < B →
  ddiv_fix 3 (un / vn1) (dw (un - dw (un / vn1 * vn1))) vn1 vn0 u = Ok q_true.
Proof.
  intros Hb. pose proof q_hat_range. pose proof q_true_range as [Hq _].
  change (HB / 2) with 2147483648 in *.
  pose proof (Z.div_mod un vn1 ltac:(lia)). pose proof (Z.mod_pos_bound un vn1 ltac:(lia)).
  assert (0 <= un / vn1 * vn1)
    by (apply Z.mul_nonneg_nonneg; [apply Z.div_pos; lia|lia]).
  rewrite (dw_mod (un / vn1 * vn1)), (Z.mod_small (un / vn1 * vn1)), dw_mod by lia.
  rewrite (Z.mod_small (un - un / vn1 * vn1)) by lia.
  apply ddiv_fix_spec; lia.
Qed.
End ddiv_step.

Lemma dw_nest x y z w : x + y - z = w → 0 <= w < B → dw (dw (dw x + y) - dw z) = w.
Proof.
  intros <- Hw. rewrite !dw_mod, Zplus_mod_idemp_l, <- Zminus_mod. by apply Z.mod_small.
Qed.

(** The shifted dividend. *)
Lemma un32_spec a1 a0 s :
  0 <= s <= 63 → digit a1 → digit a0 → a1 * 2 ^ s < B →
  (if negb (s =? 0)
   then Z.lor (dw (Z.shiftl a1 s))
          (Z.land (Z.shiftr a0 (D_EXP - s)) (dw (Z.shiftr (- s) (D_EXP - 1))))
   else a1) * B + dw (Z.shiftl a0 s) = (a1 * B + a0) * 2 ^ s.
Proof.
  intros Hs Ha1 Ha0 Hlt. pose proof (Z.pow_pos_nonneg 2 s ltac:(lia) ltac:(lia)) as Hp.
  rewrite !Z.shiftl_mul_pow2 by lia. unfold D_EXP.
  destruct (Z.eqb_spec s 0) as [->|Hs0]; cbn [negb].
  { rewrite dw_mod, Z.pow_0_r, Z.mod_small by lia. lia. }
  assert (Z.shiftr (- s) (64 - 1) = -1) as ->.
  { rewrite Z.shiftr_div_pow2 by lia. symmetry. apply (Z.div_unique _ _ _ (2 ^ 63 - s)); lia. }
  change (dw (-1)) with (Z.ones 64). rewrite Z.land_ones by lia.
  rewrite (dw_mod (a1 * 2 ^ s)), (Z.mod_small (a1 * 2 ^ s)) by nia.
  rewrite Z.shiftr_div_pow2 by lia.
  assert (B = 2 ^ (64 - s) * 2 ^ s) as HBs.
  { rewrite <- Z.pow_add_r by lia. by replace (64 - s + s) with 64 by lia. }
  pose proof (Z.pow_pos_nonneg 2 (64 - s) ltac:(lia) ltac:(lia)) as Hp'.
  pose proof (Z.div_mod a0 (2 ^ (64 - s)) ltac:(lia)) as Hdm.
  pose proof (Z.mod_pos_bound a0 (2 ^ (64 - s)) ltac:(lia)) as Hmb.
  assert (0 <= a0 / 2 ^ (64 - s) < 2 ^ s) as Hq.
  { split; [apply Z.div_pos; lia|]. apply Z.div_lt_upper_bound; lia. }
  assert (2 ^ s <= 2 ^ 63) by (apply Z.pow_le_mono_r; lia).
  rewrite (Z.mod_small (a0 / 2 ^ (64 - s))) by lia.
  rewrite <- (Z.shiftl_mul_pow2 a1) by lia. rewrite lor_shiftl_add by lia.
  assert (dw (a0 * 2 ^ s) = a0 mod 2 ^ (64 - s) * 2 ^ s) as ->.
  { rewrite dw_mod. rewrite HBs. by rewrite Z.mul_mod_distr_r by lia. }
  set (m := a0 mod 2 ^ (64 - s)) in *. set (q := a0 / 2 ^ (64 - s)) in *. clearbody m q.
  set (P := 2 ^ s) in *. set (R := 2 ^ (64 - s)) in *. clearbody P R. subst a0. nia.
Qed.

(** [DDIVREM] divides the two-digit number [a1*B + a0] by [b]. *)
Lemma DDIVREM_spec a1 a0 b :
  digit a1 → digit a0 → 0 < b < B → a1 < b →
  ∃ q r, DDIVREM a1 a0 b = Ok (q, r) ∧ a1 * B + a0 = q * b + r ∧ 0 <= r < b ∧ digit q.
Proof.
  intros Ha1 Ha0 Hb Hlt. unfold DDIVREM. pose proof (D2PF_spec b Hb) as [Hs Hn].
  set (s := D2PF b) in *. clearbody s. pose proof (Z.pow_pos_nonneg 2 s ltac:(lia) ltac:(lia)) as Hp.
  rewrite (Z.shiftl_mul_pow2 b), (dw_mod (b * 2 ^ s)), (Z.mod_small (b * 2 ^ s)) by lia.
  set (nb := b * 2 ^ s) in *.
  assert (a1 * 2 ^ s < nb) as Hlt' by (subst nb; nia).
  pose proof (un32_spec a1 a0 s Hs Ha1 Ha0 ltac:(lia)) as HU.
  set (un32 := if negb (s =? 0) then _ else a1) in *. clearbody un32.
  pose proof (dw_range (Z.shiftl a0 s)) as Hun10. set (un10 := dw (Z.shiftl a0 s)) in *. clearbody un10.
  assert (0 <= un32 < nb) as Hun32.
  { assert ((a1 * B + a0) * 2 ^ s < nb * B) by (subst nb; nia). nia. }
  rewrite !land_lo, !shr_half, !hw_mod.
  change (B / 2) with 9223372036854775808 in Hn.
  assert (nb = nb / HB * HB + nb mod HB ∧ HB / 2 <= nb / HB < HB ∧ 0 <= nb mod HB < HB)
    as (Enb & Hv1 & Hv0) by (change (HB / 2) with 2147483648; dlia).
  assert (un10 = un10 / HB * HB + un10 mod HB ∧ 0 <= un10 / HB < HB ∧ 0 <= un10 mod HB < HB)
    as (Eun & Hu1 & Hu0) by dlia.
  rewrite (Z.mod_small (nb / HB)), (Z.mod_small (nb mod HB)), (Z.mod_small (un10 / HB)),
    (Z.mod_small (un10 mod HB)) by (change (HB / 2) with 2147483648 in *; lia).
  set (vn1 := nb / HB) in *. set (vn0 := nb mod HB) in *. set (un1 := un10 / HB) in *.
  set (un0 := un10 mod HB) in *. clearbody vn1 vn0 un1 un0.
  rewrite (ddiv_step_spec vn1 vn0 un32 un1) by lia. rewrite bind_Ok.
  pose proof (q_true_range vn1 vn0 un32 un1 Hv1 Hv0 Hu1 ltac:(lia)) as [Hq1 Hq1'].
  set (q1 := q_true vn1 vn0 un32 un1) in *. clearbody q1. rewrite <- Enb in Hq1'.
  rewrite (shl_half un32), (dw_nest (un32 * HB) un1 (q1 * nb) (un32 * HB + un1 - q1 * nb)) by lia.
  set (un21 := un32 * HB + un1 - q1 * nb) in *.
  assert (0 <= un21 < nb) as Hun21 by lia.
  rewrite (ddiv_step_spec vn1 vn0 un21 un0) by lia. rewrite bind_Ok.
  pose proof (q_true_range vn1 vn0 un21 un0 Hv1 Hv0 Hu0 ltac:(lia)) as [Hq0 Hq0'].
  set (q0 := q_true vn1 vn0 un21 un0) in *. clearbody q0. rewrite <- Enb in Hq0'.
  rewrite (shl_half un21), (shl_half q1), (dw_nest (un21 * HB) un0 (q0 * nb) (un21 * HB + un0 - q0 * nb)) by lia.
  rewrite (dw_mod (q1 * HB)), (Z.mod_small (q1 * HB)), dw_mod, (Z.mod_small (q1 * HB + q0)) by lia.
  set (r' := un21 * HB + un0 - q0 * nb).
  assert (r' = (a1 * B + a0 - (q1 * HB + q0) * b) * 2 ^ s) as Er.
  { subst r' un21 nb. lia. }
  assert (0 <= r' < nb) as Hr' by (subst r'; lia).
  eexists _, _. split; [reflexivity|].
  rewrite Z.shiftr_div_pow2, Er, Z.div_mul by lia.
  rewrite Er in Hr'. subst nb. split; [lia|]. split; [|lia].
  set (R := a1 * B + a0 - (q1 * HB + q0) * b) in *. clearbody R. clear -Hr' Hp. nia.
Qed.


(** * Division of a vector by a digit *)

Lemma val_rev_cons d l : val (rev (d :: l)) = val (rev l) + Bp (length l) * d.
Proof. cbn [rev]. rewrite val_app, length_rev. cbn [val]. lia. Qed.

(** One quotient digit and the remainder computed from it. *)
Lemma ddiv_digit a1 a0 d :
  digit a1 → digit a0 → 0 < d < B → a1 < d →
  ∃ q0 r, DDIV a1 a0 d = Ok q0 ∧ digit q0 ∧ 0 <= r < d ∧ a1 * B + a0 = q0 * d + r ∧
    (let '(_, b0) := DMUL d q0 in let '(r', _) := DSUB a0 b0 in r') = r.
Proof.
  intros Ha1 Ha0 Hd Hlt. destruct (DDIVREM_spec a1 a0 d Ha1 Ha0 Hd Hlt) as (q & r & E & Ev & Hr & Hq).
  exists q, r. unfold DDIV. rewrite E, bind_Ok. split_and!; try (done || lia).
  unfold DMUL. destruct (DMULc d q 0) as [b1 b0] eqn:Em.
  apply DMULc_spec in Em as (Em & Hb1 & Hb0); [|lia|lia|lia].
  destruct (DSUB a0 b0) as [r' c] eqn:Es. apply DSUB_spec in Es as (Es & Hr' & Hc); [|lia|lia].
  lia.
Qed.

Lemma ddiv_loop_spec fuel xs a1 d :
  digits xs → digit a1 → 0 < d < B → (a1 < d → xs ≠ []) →
  (length xs + (if d >? a1 then 0 else 1) <= fuel)%nat →
  ∃ q r, ddiv_loop fuel xs a1 d = Ok (q, r) ∧ digits q ∧ 0 <= r < d ∧
    length q = (length xs + (if d >? a1 then 0 else 1))%nat ∧
    val (rev q) * d + r = a1 * Bp (length xs) + val (rev xs) ∧
    (a1 ≠ 0 → head q ≠ Some 0).
Proof.
  revert xs a1. induction fuel as [|fuel IH]; intros xs a1 Hxs Ha1 Hd Hne Hf.
  { destruct (Z.gtb_spec d a1); [|lia]. destruct xs; [by destruct Hne|simpl in Hf; lia]. }
  cbn [ddiv_loop].
  assert (∃ a1' a0 xs', (if d >? a1 then match xs with [] => Fault | a0 :: xs => Ok (a1, a0, xs) end
      else Ok (0, a1, xs)) = Ok (a1', a0, xs') ∧ digit a1' ∧ digit a0 ∧ a1' < d ∧ digits xs' ∧
      (length xs' < S fuel)%nat ∧
      (length xs + (if d >? a1 then 0 else 1) = S (length xs'))%nat ∧
      (a1' * B + a0) * Bp (length xs') + val (rev xs') = a1 * Bp (length xs) + val (rev xs) ∧
      (a1 ≠ 0 → d <= a1' * B + a0))
    as (a1' & a0 & xs' & -> & Ha1' & Ha0 & Hlt & Hxs' & Hf' & Hlen & Hval & Hnz).
  { destruct (Z.gtb_spec d a1) as [Hg|Hg].
    - destruct xs as [|a0 xs]; [by destruct Hne|]. apply Forall_cons in Hxs as [Ha0 Hxs].
      exists a1, a0, xs. split; [done|]. rewrite val_rev_cons. cbn [length] in *. rewrite Bp_S.
      split_and!; (done || lia).
    - exists 0, a1, xs. split; [done|]. split_and!; (done || lia). }
  rewrite bind_Ok.
  destruct (ddiv_digit a1' a0 d Ha1' Ha0 Hd Hlt) as (q0 & r & -> & Hq0 & Hr & Ev & Er). rewrite bind_Ok.
  destruct (DMUL d q0) as [b1 b0]. destruct (DSUB a0 b0) as [r' c]. subst r'.
  assert (a1 ≠ 0 → q0 ≠ 0) as Hq0nz by (intros Hn ->; specialize (Hnz Hn); lia).
  destruct xs' as [|a0' xs'].
  - eexists _, _. split; [reflexivity|].
    cbn [rev app length val] in *. rewrite Bp_0 in Hval.
    split_and!; [by apply Forall_singleton|lia|lia|lia|lia|]. intros Hn [= E]. by apply Hq0nz.
  - destruct (IH (a0' :: xs') r Hxs' ltac:(lia) Hd ltac:(done)) as (q & r2 & -> & Hq & Hr2 & Hlq & Hv & _).
    { destruct (Z.gtb_spec d r); lia. }
    rewrite bind_Ok. eexists _, _. split; [reflexivity|]. rewrite val_rev_cons.
    destruct (Z.gtb_spec d r); [|lia]. cbn [length] in *.
    replace (length q) with (S (length xs')) by lia.
    split_and!; [by constructor|lia|lia|lia| |].
    + rewrite <- Hval, Ev. lia.
    + intros Hn [= E]. by apply Hq0nz.
Qed.

Lemma rev_inj_cons (x : list Z) a xs : rev x = a :: xs → x = rev xs ++ [a].
Proof. intros E. rewrite <- (rev_involutive x), E. done. Qed.

Lemma D_div_spec x d :
  digits x → x ≠ [] → 0 < d < B →
  ∃ q r, D_div x d = Ok (q, r) ∧ digits q ∧ val x = val q * d + r ∧ 0 <= r < d ∧
    (normal x → val x ≠ 0 → normal q).
Proof.
  intros Hx Hne Hd. unfold D_div. destruct (rev x) as [|a1 xs] eqn:E.
  { apply (f_equal (@rev Z)) in E. rewrite rev_involutive in E. done. }
  apply rev_inj_cons in E as ->. apply Forall_app in Hx as [Hxs Ha1].
  apply Forall_cons in Ha1 as [Ha1 _]. assert (digits xs) as Hxs'.
  { rewrite <- (rev_involutive xs). by apply Forall_rev. }
  rewrite length_app, length_rev. cbn [length].
  destruct (Z.gtb_spec d a1) as [Hg|Hg], (Nat.eqb_spec (length xs + 1) 1) as [Hl|Hl]; cbn [andb].
  { destruct xs; [|simpl in Hl; lia]. eexists _, _. split; [reflexivity|].
    cbn [rev app val]. split_and!; [by apply Forall_singleton|lia|lia|lia|]. by intros; split. }
  all: destruct (ddiv_loop_spec (length xs + 1) xs a1 d Hxs' Ha1 Hd) as (q & r & -> & Hq & Hr & Hlq & Hv & Hnz);
    [intros ? ->; simpl in *; lia|destruct (Z.gtb_spec d a1); lia|].
  all: rewrite bind_Ok; eexists _, _; split; [reflexivity|].
  all: rewrite val_app, length_rev; cbn [val]; rewrite Z.mul_0_r, Z.add_0_r.
  all: split_and!; [by apply Forall_rev|lia|lia|lia|].
  all: intros [_ Hn] Hv0; destruct q as [|q0 q]; [destruct (Z.gtb_spec d a1); simpl in Hlq; destruct xs; simpl in *; lia|].
  all: cbn [rev]; split; [by destruct (rev q)|]; rewrite last_snoc; intros [= ->].
  all: rewrite last_snoc, length_app, length_rev in Hn; cbn [length] in Hn.
  all: destruct (decide (a1 = 0)) as [->|Ha]; [|by destruct (Hnz Ha)].
  all: specialize (Hn eq_refl); destruct xs; simpl in Hn; [|lia]; simpl in *; lia.
Qed.

Lemma DREM_spec a1 a0 d :
  digit a1 → digit a0 → 0 < d < B → DREM a1 a0 d = Ok ((a1 * B + a0) mod d).
Proof.
  intros Ha1 Ha0 Hd. unfold DREM. pose proof (Z.mod_pos_bound a1 d ltac:(lia)).
  destruct (DDIVREM_spec (a1 mod d) a0 d ltac:(lia) Ha0 Hd ltac:(lia)) as (q & r & -> & E & Hr & _).
  rewrite bind_Ok. f_equal. pose proof (Z.div_mod a1 d ltac:(lia)).
  apply (Z.mod_unique_pos _ _ (q + a1 / d * B)); [done|]. nia.
Qed.

Lemma drem_loop_spec xs rem d :
  digits xs → digit rem → 0 < d < B →
  drem_loop xs rem d = Ok (if xs is [] then rem else (rem * Bp (length xs) + val (rev xs)) mod d).
Proof.
  intros Hxs. revert rem. induction Hxs as [|x xs Hx Hxs IH]; intros rem Hrem Hd; [done|].
  cbn [drem_loop].
  assert ((if negb (rem =? 0) then DREM rem x d else DREM 0 x d) = Ok ((rem * B + x) mod d)) as ->.
  { destruct (Z.eqb_spec rem 0) as [->|]; cbn [negb]; by rewrite DREM_spec. }
  rewrite bind_Ok. pose proof (Z.mod_pos_bound (rem * B + x) d ltac:(lia)) as Hb.
  rewrite IH by lia. f_equal. rewrite val_rev_cons. cbn [length]. rewrite Bp_S.
  destruct xs as [|x' xs].
  { cbn [rev val length]. rewrite Bp_0. f_equal. lia. }
  rewrite <- Zplus_mod_idemp_l, Zmult_mod_idemp_l, Zplus_mod_idemp_l. f_equal. lia.
Qed.

Lemma D_rem_spec x d :
  digits x → x ≠ [] → 0 < d < B → D_rem x d = Ok (val x mod d).
Proof.
  intros Hx Hne Hd. unfold D_rem. destruct x as [|x0 x]; [done|].
  rewrite drem_loop_spec by (done || lia || by apply Forall_rev). rewrite rev_involutive, Z.mul_0_l, Z.add_0_l.
  destruct (rev (x0 :: x)) eqn:E; [|done]. apply (f_equal length) in E. by rewrite length_rev in E.
Qed.
