(* ===== verification/BigShift.v ===== *)
(** Shifts and bitwise operations on digit vectors: [I_lshift], [I_btrail],
    [I_band], [I_bor], [I_bxor] and [I_bnot] of erts/emulator/beam/big.c. *)
From S2P Require Import Prelude BigDigits.

(** * Shifts *)

(** [while(xl--) { a0 = ( *x << sw) | a1; a1 = ( *x >> (D_EXP - sw)); .. }] *)
Fixpoint shl_loop (x : list Z) (sw a1 : Z) : list Z * Z :=
  match x with
  | [] => ([], a1)
  | xd :: x =>
      let a0 := Z.lor (dw (Z.shiftl xd sw)) a1 in
      let a1 := Z.shiftr xd (D_EXP - sw) in
      let '(r, a1) := shl_loop x sw a1 in
      (a0 :: r, a1)
  end.

(** The same to the right, from the most significant digit down. *)
Fixpoint shr_loop (xs : list Z) (sw a0 : Z) : list Z * Z :=
  match xs with
  | [] => ([], a0)
  | xd :: xs =>
      let a1 := Z.lor (Z.shiftr xd sw) a0 in
      let a0 := dw (Z.shiftl xd (D_EXP - sw)) in
      let '(r, a0) := shr_loop xs sw a0 in
      (a1 :: r, a0)
  end.

Definition I_lshift (x : list Z) (y : Z) (sign : bool) : list Z :=
  if y =? 0 then x
  else if bool_decide (x = [0]) then [0]
  else
    let ay := dw (if y <? 0 then - y else y) in
    let bw := Z.to_nat (ay / D_EXP) in
    let sw := ay mod D_EXP in
    if y >? 0 then
      let '(r, a1) := if negb (sw =? 0) then shl_loop x sw 0 else (x, 0) in
      replicate bw 0 ++ r ++ if a1 =? 0 then [] else [a1]
    else if (length x <=? bw)%nat then if sign then [1] else [0]
    else
      let low_nonzero := sign && existsb (λ d, negb (d =? 0)) (take bw x) in
      let '(r, a0) := if negb (sw =? 0) then shr_loop (rev (drop bw x)) sw 0
                      else (rev (drop bw x), 0) in
      let add_one := low_nonzero || (sign && negb (a0 =? 0)) in
      let rl := length r in
      (* r[rl] is the most significant digit stored *)
      if bool_decide (head r = Some 0) && (rl =? 1)%nat then if sign then [1] else rev r
      else
        let r := if bool_decide (head r = Some 0) then tail r else r in
        if add_one then D_add (rev r) 1 else rev r.

(** * Bitwise operations on signed vectors

    A negative operand is turned into its two's complement digit by digit, by
    subtracting 1 and complementing. *)

(** [~c] *)
Definition dnot (c : Z) : Z := dw (Z.lnot c).

(** [while((d & mask) == mask) ..] of [I_btrail]: the mask of the leading ones. *)
Fixpoint btrail_mask (fuel : nat) (d prev_mask mask : Z) : Z :=
  match fuel with
  | O => prev_mask
  | S fuel =>
      if Z.land d mask =? mask
      then btrail_mask fuel d mask (Z.lor (Z.shiftr mask 1) (Z.shiftl 1 (D_EXP - 1)))
      else prev_mask
  end.

(** [do r--; while((d = *r) == D_MASK && r != r0)] on the digits, most
    significant first. *)
Fixpoint drop_masks (rs : list Z) : list Z :=
  match rs with
  | [] => []
  | [d] => [d]
  | d :: rs => if d =? D_MASK then drop_masks rs else d :: rs
  end.

Definition I_btrail (r : list Z) (sign : bool) : list Z :=
  if sign then
    match drop_masks (rev r) with
    | [] => []
    | d :: low =>
        let top := if d =? D_MASK then 0
                   else Z.land (dnot d) (dnot (btrail_mask 64 d 0 (Z.shiftl 1 (D_EXP - 1)))) in
        D_add (rev (top :: map dnot low)) 1
    end
  else trim r.

(** The digits of [~(x - 1)] where the borrow [b] is still to be subtracted. *)
Fixpoint neg_loop (x : list Z) (b : Z) : list Z * Z :=
  match x with
  | [] => ([], b)
  | xd :: x =>
      let '(c, b) := DSUBb xd 0 b in
      let '(r, b) := neg_loop x b in
      (dnot c :: r, b)
  end.

(** The first digit is [DSUB( *x,1,b,c)], the following ones [DSUBb( *x,0,b,c)]. *)
Definition neg_digits (x : list Z) : list Z * Z :=
  match x with
  | [] => ([], 0)
  | xd :: x =>
      let '(c, b) := DSUB xd 1 in
      let '(r, b) := neg_loop x b in
      (dnot c :: r, b)
  end.

(** The low digits ([yl] of them) of an operand, complemented if negative, and
    its remaining digits as they are, with the borrow left over. *)
Definition operand (x : list Z) (yl : nat) (sgn : bool) : list Z * Z :=
  if sgn then neg_digits (take yl x) else (take yl x, 0).

(** Assumes [xl >= yl]. *)
Definition I_band (x : list Z) (xsgn : bool) (y : list Z) (ysgn : bool) : list Z :=
  let yl := length y in
  let '(xs, _) := operand x yl xsgn in
  let '(ys, _) := operand y yl ysgn in
  let low := zip_with Z.land xs ys in
  let high := drop yl x in
  I_btrail (low ++ (if negb xsgn then if ysgn then high else []
                    else if ysgn then map dnot high else [])) (xsgn && ysgn).

Definition I_bor (x : list Z) (xsgn : bool) (y : list Z) (ysgn : bool) : list Z :=
  let yl := length y in
  let '(xs, b) := operand x yl xsgn in
  let '(ys, _) := operand y yl ysgn in
  let low := zip_with Z.lor xs ys in
  let high := drop yl x in
  I_btrail (low ++ (if ysgn then [] else if xsgn then (neg_loop high b).1 else high))
           (xsgn || ysgn).

Definition I_bxor (x : list Z) (xsgn : bool) (y : list Z) (ysgn : bool) : list Z :=
  let yl := length y in
  let '(xs, _) := operand x yl xsgn in
  let '(ys, _) := operand y yl ysgn in
  let low := zip_with Z.lxor xs ys in
  let high := drop yl x in
  I_btrail (low ++ (if eqb xsgn ysgn then high else map dnot high)) (negb (eqb xsgn ysgn)).

Definition I_bnot (x : list Z) (xsgn : bool) : list Z :=
  if xsgn then D_add x 1 else D_sub x 1.

(** * Shifts are multiplication and (floor) division by a power of two *)

Lemma shl_loop_spec x sw a r a' :
  0 < sw < 64 → digits x → 0 <= a < 2 ^ sw → shl_loop x sw a = (r, a') →
  digits r ∧ length r = length x ∧ 0 <= a' < 2 ^ sw ∧
  val r + Bp (length x) * a' = val x * 2 ^ sw + a.
Proof.
  intros Hsw Hx. pose proof (Z.pow_pos_nonneg 2 sw ltac:(lia) ltac:(lia)) as Hp.
  assert (B = 2 ^ (64 - sw) * 2 ^ sw) as HBs.
  { rewrite <- Z.pow_add_r by lia. by replace (64 - sw + sw) with 64 by lia. }
  pose proof (Z.pow_pos_nonneg 2 (64 - sw) ltac:(lia) ltac:(lia)) as Hp'.
  revert a r a'. induction Hx as [|xd x Hxd Hx IH]; intros a r a' Ha; cbn [shl_loop].
  { intros [= <- <-]. cbn [length val]. rewrite Bp_0. split_and!; [by apply Forall_nil|done|lia|lia|lia]. }
  destruct (shl_loop x sw (Z.shiftr xd (D_EXP - sw))) as [r1 a1] eqn:E. intros [= <- <-].
  unfold D_EXP in *. rewrite Z.shiftr_div_pow2 in E by lia.
  pose proof (Z.div_mod xd (2 ^ (64 - sw)) ltac:(lia)) as Hdm.
  pose proof (Z.mod_pos_bound xd (2 ^ (64 - sw)) ltac:(lia)) as Hmb.
  assert (0 <= xd / 2 ^ (64 - sw) < 2 ^ sw) as Hq.
  { split; [apply Z.div_pos; lia|]. apply Z.div_lt_upper_bound; lia. }
  apply IH in E as (Hr & Hl & Ha1 & Hv); [|done].
  assert (Z.lor (dw (Z.shiftl xd sw)) a = xd mod 2 ^ (64 - sw) * 2 ^ sw + a) as ->.
  { rewrite Z.shiftl_mul_pow2, dw_mod by lia. rewrite HBs at 1.
    rewrite Z.mul_mod_distr_r by lia. rewrite <- Z.shiftl_mul_pow2 by lia.
    by rewrite lor_shiftl_add, Z.shiftl_mul_pow2 by lia. }
  cbn [length val]. rewrite Bp_S. set (m := xd mod 2 ^ (64 - sw)) in *. set (q := xd / 2 ^ (64 - sw)) in *.
  split_and!; [constructor; [nia|done]|lia|lia|lia|].
  set (P := 2 ^ sw) in *. set (R := 2 ^ (64 - sw)) in *. clearbody m q P R. subst xd. nia.
Qed.

Lemma shr_loop_spec xs sw c r a' :
  0 < sw < 64 → digits xs → 0 <= c < 2 ^ sw → shr_loop xs sw (c * 2 ^ (64 - sw)) = (r, a') →
  digits r ∧ length r = length xs ∧
  ∃ c', a' = c' * 2 ^ (64 - sw) ∧ 0 <= c' < 2 ^ sw ∧
  c * Bp (length xs) + val (rev xs) = val (rev r) * 2 ^ sw + c'.
Proof.
  intros Hsw Hx. pose proof (Z.pow_pos_nonneg 2 sw ltac:(lia) ltac:(lia)) as Hp.
  assert (B = 2 ^ (64 - sw) * 2 ^ sw) as HBs.
  { rewrite <- Z.pow_add_r by lia. by replace (64 - sw + sw) with 64 by lia. }
  pose proof (Z.pow_pos_nonneg 2 (64 - sw) ltac:(lia) ltac:(lia)) as Hp'.
  revert c r a'. induction Hx as [|xd x Hxd Hx IH]; intros c r a' Hc; cbn [shr_loop].
  { intros [= <- <-]. cbn [length rev val]. rewrite Bp_0. split_and!; [by apply Forall_nil|done|].
    exists c. split_and!; lia. }
  unfold D_EXP. rewrite (Z.shiftl_mul_pow2 xd), dw_mod by lia. rewrite HBs at 1.
  rewrite (Z.mul_comm (2 ^ (64 - sw)) (2 ^ sw)), Z.mul_mod_distr_r by lia.
  destruct (shr_loop x sw _) as [r1 a1] eqn:E. intros [= <- <-].
  pose proof (Z.div_mod xd (2 ^ sw) ltac:(lia)) as Hdm.
  pose proof (Z.mod_pos_bound xd (2 ^ sw) ltac:(lia)) as Hmb.
  assert (0 <= xd / 2 ^ sw < 2 ^ (64 - sw)) as Hq.
  { split; [apply Z.div_pos; lia|]. apply Z.div_lt_upper_bound; lia. }
  apply IH in E as (Hr & Hl & c' & -> & Hc' & Hv); [|done].
  rewrite Z.shiftr_div_pow2, Z.lor_comm, <- Z.shiftl_mul_pow2, lor_shiftl_add by lia.
  rewrite !val_rev_cons. cbn [length]. rewrite Bp_S, Hl.
  set (m := xd mod 2 ^ sw) in *. set (q := xd / 2 ^ sw) in *.
  split_and!; [constructor; [nia|done]|lia|]. exists c'. split_and!; [done|lia|lia|].
  set (P := 2 ^ sw) in *. set (R := 2 ^ (64 - sw)) in *. clearbody m q P R. subst xd.
  rewrite HBs. nia.
Qed.

Lemma pow_words ay : 0 <= ay → 2 ^ ay = Bp (Z.to_nat (ay / D_EXP)) * 2 ^ (ay mod D_EXP).
Proof.
  intros Hay. unfold Bp, D_EXP. change B with (2 ^ 64).
  rewrite <- Z.pow_mul_r, <- Z.pow_add_r by dlia. f_equal. dlia.
Qed.

Lemma val_zeros n l : val (replicate n 0 ++ l) = Bp n * val l.
Proof.
  rewrite val_app, length_replicate, zeros_val; [lia|]. by apply Forall_replicate.
Qed.

Lemma I_lshift_left x y sign :
  digits x → x ≠ [] → 0 <= y < 2 ^ 63 →
  digits (I_lshift x y sign) ∧ val (I_lshift x y sign) = val x * 2 ^ y ∧
  (normal x → val x ≠ 0 → normal (I_lshift x y sign)).
Proof.
  intros Hx Hne Hy. unfold I_lshift. destruct (Z.eqb_spec y 0) as [->|Hy0].
  { rewrite Z.pow_0_r. split_and!; [done|lia|done]. }
  destruct (bool_decide_reflect (x = [0])) as [->|Hx0].
  { split_and!; [done|cbn [val]; lia|]. by intros. }
  destruct (Z.ltb_spec y 0); [lia|]. destruct (Z.gtb_spec y 0); [|lia].
  rewrite (dw_mod y), (Z.mod_small y B) by lia. rewrite (pow_words y) by lia.
  set (bw := Z.to_nat (y / D_EXP)). set (sw := y mod D_EXP).
  assert (0 <= sw < 64) as Hsw by (subst sw; unfold D_EXP; dlia). clearbody bw sw.
  set (p := if negb (sw =? 0) then _ else _).
  assert (∃ r a, p = (r, a) ∧ digits r ∧ length r = length x ∧ digit a ∧
    val r + Bp (length x) * a = val x * 2 ^ sw) as (r & a & -> & Hr & Hl & Ha & Hv).
  { subst p. destruct (Z.eqb_spec sw 0) as [->|]; cbn [negb].
    - exists x, 0. rewrite Z.pow_0_r. split_and!; (done || lia).
    - destruct (shl_loop x sw 0) as [r a] eqn:E. pose proof (Z.pow_pos_nonneg 2 sw ltac:(lia) ltac:(lia)).
      apply shl_loop_spec in E as (? & ? & ? & ?); [|lia|done|lia].
      assert (2 ^ sw <= 2 ^ 63) by (apply Z.pow_le_mono_r; lia).
      exists r, a. split_and!; (done || lia). }
  assert (val (r ++ if a =? 0 then [] else [a]) = val x * 2 ^ sw) as Hv'.
  { rewrite val_app, Hl. destruct (Z.eqb_spec a 0) as [->|]; cbn [val]; lia. }
  split_and!.
  - apply Forall_app. split; [apply Forall_replicate; lia|]. apply Forall_app. split; [done|].
    destruct (a =? 0); [done|by apply Forall_singleton].
  - rewrite val_zeros, Hv'. lia.
  - intros Nx Zx. destruct (Z.eqb_spec a 0) as [->|Na].
    + rewrite app_nil_r in *. apply val_normal.
      * apply Forall_app. split; [apply Forall_replicate; lia|done].
      * intros E%app_nil. destruct E as [_ ->]. by destruct x.
      * rewrite val_zeros, length_app, length_replicate, Hl.
        assert (0 < length x)%nat by (destruct x; [done|simpl; lia]).
        replace (bw + length x - 1)%nat with (bw + (length x - 1))%nat by lia. rewrite Bp_add.
        pose proof (normal_lower x Nx Hx Zx). pose proof (Bp_pos bw).
        pose proof (Z.pow_pos_nonneg 2 sw ltac:(lia) ltac:(lia)).
        apply Z.mul_le_mono_nonneg_l; [lia|]. rewrite Hv'. pose proof (Bp_pos (length x - 1)). nia.
    + split; [by destruct (replicate bw 0), r|]. rewrite !app_assoc, last_snoc. by intros [= ->].
Qed.

Lemma existsb_zero l : digits l → existsb (λ d, negb (d =? 0)) l = negb (val l =? 0).
Proof.
  induction 1 as [|d l Hd Hl IH]; [done|]. cbn [existsb val]. rewrite IH.
  pose proof (val_bound l Hl) as [Hb _].
  destruct (Z.eqb_spec d 0), (Z.eqb_spec (val l) 0), (Z.eqb_spec (d + B * val l) 0); cbn [negb orb]; lia.
Qed.

Lemma D_add_normal x c : normal x → digits x → digit c → normal (D_add x c).
Proof.
  intros Nx Hx Hc. pose proof Nx as [Hne _].
  unfold D_add. destruct (carry_loop x c) as [r c2] eqn:E.
  apply carry_loop_spec in E as (Hr & Hc2 & Hl & Hv & H1); [|done|lia].
  destruct (Z.eqb_spec c2 0) as [->|]; cbn [negb].
  - rewrite app_nil_r. apply (normal_le _ x); (done || lia).
  - split; [by destruct r|]. by rewrite last_snoc.
Qed.

(** The quotient of a right shift, before rounding. *)
Lemma shr_quotient x bw sw r a0 :
  digits x → (bw < length x)%nat → 0 <= sw < 64 →
  (if negb (sw =? 0) then shr_loop (rev (drop bw x)) sw 0 else (rev (drop bw x), 0)) = (r, a0) →
  digits r ∧ length r = (length x - bw)%nat ∧
  ∃ c, 0 <= c < 2 ^ sw ∧ (a0 =? 0) = (c =? 0) ∧
    val x = Bp bw * (val (rev r) * 2 ^ sw + c) + val (take bw x).
Proof.
  intros Hx Hbw Hsw E.
  assert (val x = val (take bw x) + Bp bw * val (drop bw x)) as Hvx.
  { rewrite (val_take_drop bw x) at 1. by rewrite length_take, Nat.min_l by lia. }
  assert (digits (rev (drop bw x))) as Hd by by apply Forall_rev, Forall_drop.
  destruct (Z.eqb_spec sw 0) as [->|N]; cbn [negb] in E.
  - injection E as <- <-. split_and!; [done|by rewrite length_rev, length_drop|].
    exists 0. rewrite rev_involutive, Z.pow_0_r. split_and!; (done || lia).
  - pose proof (Z.pow_pos_nonneg 2 sw ltac:(lia) ltac:(lia)).
    pose proof (Z.pow_pos_nonneg 2 (64 - sw) ltac:(lia) ltac:(lia)).
    destruct (shr_loop_spec (rev (drop bw x)) sw 0 r a0) as (Hr & Hl & c & -> & Hc & Hv);
      [lia|done|lia|by rewrite Z.mul_0_l|].
    rewrite length_rev, length_drop in Hl. rewrite rev_involutive in Hv.
    split_and!; [done|done|]. exists c. split_and!; [lia|lia| |lia].
    destruct (Z.eqb_spec c 0) as [->|]; [done|]. destruct (Z.eqb_spec (c * 2 ^ (64 - sw)) 0); [nia|done].
Qed.

(** Floor and ceiling of [(P * (q * S + c) + l) / (P * S)]. *)
Lemma shr_floor P S q c l x :
  0 < P → 0 < S → 0 <= c < S → 0 <= l < P → x = P * (q * S + c) + l → x / (P * S) = q.
Proof.
  intros HP HS Hc Hl ->. symmetry. apply (Z.div_unique_pos _ _ _ (P * c + l)); nia.
Qed.

Lemma shr_ceil P S q c l x :
  0 < P → 0 < S → 0 <= c < S → 0 <= l < P → x = P * (q * S + c) + l →
  - ((- x) / (P * S)) = if (l =? 0) && (c =? 0) then q else q + 1.
Proof.
  intros HP HS Hc Hl ->. destruct (Z.eqb_spec l 0) as [->|]; cbn [andb].
  - destruct (Z.eqb_spec c 0) as [->|].
    + rewrite !Z.add_0_r. replace (- (P * (q * S))) with ((- q) * (P * S)) by ring.
      rewrite Z.div_mul by nia. lia.
    + assert (- (P * (q * S + c) + 0) / (P * S) = - q - 1) as ->; [|lia].
      symmetry. apply (Z.div_unique_pos _ _ _ (P * (S - c))); nia.
  - assert (- (P * (q * S + c) + l) / (P * S) = - q - 1) as ->; [|lia].
    symmetry. apply (Z.div_unique_pos _ _ _ (P * (S - c) - l)); nia.
Qed.

Lemma rev_tail_val (r : list Z) : head r = Some 0 → val (rev (tail r)) = val (rev r).
Proof. destruct r as [|d r]; [done|]. intros [= ->]. rewrite val_rev_cons. cbn [tail]. lia. Qed.

Lemma I_lshift_right x y (sign : bool) :
  digits x → normal x → val x ≠ 0 → - 2 ^ 63 <= y < 0 →
  digits (I_lshift x y sign) ∧ normal (I_lshift x y sign) ∧
  val (I_lshift x y sign) =
    if sign then - ((- val x) / 2 ^ (- y)) else val x / 2 ^ (- y).
Proof.
  intros Hx Nx Zx Hy. unfold I_lshift. destruct (Z.eqb_spec y 0); [lia|].
  destruct (bool_decide_reflect (x = [0])) as [->|_]; [done|].
  destruct (Z.ltb_spec y 0); [|lia]. destruct (Z.gtb_spec y 0); [lia|].
  rewrite (dw_mod (- y)), (Z.mod_small (- y) B) by lia. rewrite (pow_words (- y)) by lia.
  set (bw := Z.to_nat (- y / D_EXP)). set (sw := - y mod D_EXP).
  assert (0 <= sw < 64) as Hsw by (subst sw; unfold D_EXP; dlia). clearbody bw sw.
  pose proof (Z.pow_pos_nonneg 2 sw ltac:(lia) ltac:(lia)) as Hp. pose proof (Bp_pos bw) as HPb.
  pose proof (val_bound x Hx) as Bx.
  destruct (Nat.leb_spec (length x) bw) as [Hle|Hgt].
  { pose proof (Bp_mono _ _ Hle).
    pose proof (shr_floor (Bp bw) (2 ^ sw) 0 0 (val x) (val x) HPb Hp ltac:(lia) ltac:(lia) ltac:(lia)) as Ef.
    pose proof (shr_ceil (Bp bw) (2 ^ sw) 0 0 (val x) (val x) HPb Hp ltac:(lia) ltac:(lia) ltac:(lia)) as Ec.
    destruct (Z.eqb_spec (val x) 0); [done|]. cbn [andb] in Ec.
    destruct sign; rewrite ?Ef, ?Ec; split_and!; try done; by apply Forall_singleton. }
  destruct (if negb (sw =? 0) then _ else _) as [r a0] eqn:E.
  apply shr_quotient in E as (Hr & Hl & c & Hc & Ea & Hv); [|done|done|lia].
  pose proof (val_bound (take bw x) ltac:(by apply Forall_take)) as Bt.
  rewrite length_take, Nat.min_l in Bt by lia.
  pose proof (shr_floor _ _ _ _ _ _ HPb Hp Hc Bt Hv) as Ef.
  pose proof (shr_ceil _ _ _ _ _ _ HPb Hp Hc Bt Hv) as Ec.
  rewrite existsb_zero, Ea by by apply Forall_take.
  assert (∀ r', digits r' → normal (rev r') → val (rev r') = val (rev r) →
    let s := if sign && negb (val (take bw x) =? 0) || sign && negb (c =? 0)
             then D_add (rev r') 1 else rev r' in
    digits s ∧ normal s ∧ val s = if sign then - (- val x / (Bp bw * 2 ^ sw)) else val x / (Bp bw * 2 ^ sw)) as K.
  { intros r' Hr' Nr' Hvr' s. rewrite Ef, Ec. subst s. assert (digits (rev r')) by by apply Forall_rev.
    pose proof (D_add_spec (rev r') 1 ltac:(done) (proj1 Nr') ltac:(lia)) as (? & ? & _).
    pose proof (D_add_normal (rev r') 1 Nr' ltac:(done) ltac:(lia)).
    destruct sign, (Z.eqb_spec (val (take bw x)) 0), (Z.eqb_spec c 0); cbn [negb andb orb];
      split_and!; (done || lia). }
  pose proof (normal_lower x Nx Hx Zx) as Lx.
  destruct (bool_decide_reflect (head r = Some 0)) as [Hh|Hh]; cbn [andb].
  - destruct (Nat.eqb_spec (length r) 1) as [Hr1|Hr1].
    + destruct r as [|d [|]]; try done. injection Hh as ->. rewrite Ec, Ef. cbn [rev app val].
      change (0 + B * 0) with 0. destruct sign; split_and!; try done; try by apply Forall_singleton.
      cbn [rev app val] in Hv. change (0 + B * 0) with 0 in Hv. 
      destruct (Z.eqb_spec (val (take bw x)) 0), (Z.eqb_spec c 0); cbn [andb]; try done. subst. lia.
    + apply K; [by destruct r; [|apply Forall_cons in Hr as [_ ?]]| |by apply rev_tail_val].
      destruct r as [|d r]; [done|]. injection Hh as ->. cbn [tail length] in *.
      apply Forall_cons in Hr as [_ Hr]. rewrite val_rev_cons in Hv.
      apply val_normal; [by apply Forall_rev|intros E; apply (f_equal length) in E; rewrite length_rev in E; simpl in E; lia|].
      rewrite length_rev. rewrite Z.mul_0_r, Z.add_0_r in Hv.
      replace (length x - 1)%nat with (bw + length r)%nat in Lx by lia. rewrite Bp_add in Lx.
      replace (length r) with (S (length r - 1)) in Lx by lia. rewrite Bp_S in Lx.
      assert (2 ^ sw <= 2 ^ 63) by (apply Z.pow_le_mono_r; lia).
      pose proof (Bp_pos (length r - 1)). set (P := Bp bw) in *. set (Q := Bp (length r - 1)) in *.
      set (v := val (rev r)) in *. set (S2 := 2 ^ sw) in *. clearbody P Q v S2.
      assert (B * Q <= v * S2 + c) by nia. assert (B * Q < (v + 1) * S2) by lia.
      change (2 ^ 63) with 9223372036854775808 in *. nia.
  - apply K; [done| |done]. split; [destruct r; [simpl in Hl; lia|cbn [rev]; by destruct (rev r)]|].
    destruct r as [|d r]; [simpl in Hl; lia|]. cbn [rev]. rewrite last_snoc. intros [= ->]. done.
Qed.
