(* ===== verification/BigSqr.v ===== *)
(** Squaring of a digit vector: [I_sqr] of erts/emulator/beam/big.c, for a
    destination that does not overlap the source (the "inline" store
    [*x = 0] is for a caller that [big_times] is not). *)
From S2P Require Import Prelude BigDigits.

(** [while(y_l--) ..]: adds [2*d*y] to the digits at [s]; [z1] and the four
    carries [y_0] .. [y_3] are still to be added at the next digit. *)
Fixpoint sqr_row (d : Z) (y s : list Z) (z1 y_0 y_1 y_2 y_3 : Z) {struct y} :
    res (list Z * (Z * Z * Z * Z * Z)) :=
  match y with
  | [] => Ok ([], (z1, y_0, y_1, y_2, y_3))
  | yd :: y =>
      match s with
      | [] => Fault
      | sd :: s =>
          let '(b1, b0) := DMUL d yd in
          let '(z0, y_0) := DSUMc b0 b0 y_0 in
          let '(z2, y_2) := DSUMc z0 z1 y_2 in
          let '(t, y_3) := DSUMc sd z2 y_3 in
          let '(z1, y_1) := DSUMc b1 b1 y_1 in
          '(r, st) ← sqr_row d y s z1 y_0 y_1 y_2 y_3;
          Ok (t :: r, st)
      end
  end.

(** One round of the outer loop: [d] is the current digit, [x] the digits after
    it and [r] the destination from the current position on. *)
Definition sqr_step (d : Z) (x r : list Z) : res (list Z) :=
  match r with
  | [] => Fault
  | s0 :: s =>
      let '(b1, b0) := DMUL d d in
      let '(t0, y_3) := DSUMc s0 b0 0 in
      '(row, (z1, y_0, y_1, y_2, y_3)) ← sqr_row d x s b1 0 0 0 y_3;
      match drop (length x) s with
      | [] => Fault
      | sd :: rest =>
          let '(z2, y_2) := DSUMc y_0 z1 y_2 in
          let '(t, y_3) := DSUMc sd z2 y_3 in
          match x, rest with
          | [], _ => Ok (t0 :: row ++ t :: rest)
          | _, [] => Fault
          | _, _ :: rest => Ok (t0 :: row ++ t :: dw (y_1 + y_2 + y_3) :: rest)
          end
      end
  end.

(** The rounds; each starts two digits further up. *)
Fixpoint sqr_rows (x r : list Z) : res (list Z) :=
  match x with
  | [] => Ok r
  | d :: x =>
      r ← sqr_step d x r;
      match x, r with
      | [], _ => Ok r
      | _, h0 :: h1 :: r => r ← sqr_rows x r; Ok (h0 :: h1 :: r)
      | _, _ => Fault
      end
  end.

(** [r] is the destination before the call; [s] ends at its digit [2*xl - 1]. *)
Definition I_sqr (x r : list Z) : res (list Z) :=
  r ← sqr_rows x r;
  let k := (2 * length x - 1)%nat in
  match r !! k with
  | None => Fault
  | Some d => if d =? 0 then Ok (take k r) else Ok (take (S k) r)
  end.

(** * Correctness *)

Abbreviation cbit c := (0 <= c <= 1).

Lemma sqr_row_spec d y s z1 y0 y1 y2 y3 :
  digits y → digits s → digit d → digit z1 → cbit y0 → cbit y1 → cbit y2 → cbit y3 →
  (length y <= length s)%nat →
  ∃ r z1' y0' y1' y2' y3', sqr_row d y s z1 y0 y1 y2 y3 = Ok (r, (z1', y0', y1', y2', y3')) ∧
    digits r ∧ length r = length y ∧ digit z1' ∧ cbit y0' ∧ cbit y1' ∧ cbit y2' ∧ cbit y3' ∧
    val r + Bp (length y) * (z1' + y0' + y2' + y3' + B * y1') =
      val (take (length y) s) + 2 * d * val y + (z1 + y0 + y2 + y3 + B * y1).
Proof.
  intros Hy. revert s z1 y0 y1 y2 y3. induction Hy as [|yd y Hyd Hy IH];
    intros s z1 y0 y1 y2 y3 Hs Hd Hz1 H0 H1 H2 H3 Hl; cbn [sqr_row length].
  { exists [], z1, y0, y1, y2, y3. split_and!; try (done || lia). cbn [length val]. rewrite take_0, Bp_0. cbn [val]. lia. }
  destruct s as [|sd s]; [simpl in Hl; lia|]. apply Forall_cons in Hs as [Hsd Hs].
  unfold DMUL. destruct (DMULc d yd 0) as [b1 b0] eqn:E1.
  apply DMULc_spec in E1 as (E1 & Hb1 & Hb0); [|done|done|lia].
  destruct (DSUMc b0 b0 y0) as [z0 y0'] eqn:E2. apply DSUMc_spec in E2 as (E2 & Hz0 & ?); [|done..].
  destruct (DSUMc z0 z1 y2) as [z2 y2'] eqn:E3. apply DSUMc_spec in E3 as (E3 & Hz2 & ?); [|done..].
  destruct (DSUMc sd z2 y3) as [t y3'] eqn:E4. apply DSUMc_spec in E4 as (E4 & Ht & ?); [|done..].
  destruct (DSUMc b1 b1 y1) as [z1' y1'] eqn:E5. apply DSUMc_spec in E5 as (E5 & Hz1' & ?); [|done..].
  simpl in Hl. destruct (IH s z1' y0' y1' y2' y3') as (r & a & b & c & e & f & E & Hr & Hlr & ? & ? & ? & ? & ? & Hv);
    [done..|lia|]. rewrite E, bind_Ok. do 6 eexists. split; [done|].
  split_and!; [by constructor|simpl; lia|lia..|].
  cbn [take val]. rewrite Bp_S. nia.
Qed.

Lemma sqr_step_spec d x r :
  digit d → digits x → digits r →
  (length x + (if x is [] then 2 else 3) <= length r)%nat →
  (x = [] → val (take 2 r) + d * d < B * B) →
  let k := (length x + 2)%nat in
  let k' := if x is [] then 2%nat else S k in
  ∃ r', sqr_step d x r = Ok r' ∧ length r' = length r ∧ digits r' ∧
    drop k' r' = drop k' r ∧
    val (take k' r') = val (take k r) + d * d + 2 * d * B * val x.
Proof.
  intros Hd Hx Hr Hl Hb k k'. destruct r as [|s0 s]; [simpl in Hl; destruct x; simpl in Hl; lia|].
  apply Forall_cons in Hr as [Hs0 Hs]. unfold sqr_step, DMUL.
  destruct (DMULc d d 0) as [b1 b0] eqn:E1. apply DMULc_spec in E1 as (E1 & Hb1 & Hb0); [|done|done|lia].
  destruct (DSUMc s0 b0 0) as [t0 y3] eqn:E2. apply DSUMc_spec in E2 as (E2 & Ht0 & ?); [|done|done|lia].
  assert (length x < length s)%nat as Hls by (destruct x; simpl in *; lia).
  destruct (sqr_row_spec d x s b1 0 0 0 y3) as (row & z1 & y0 & y1 & y2 & y3' & E & Hrow & Hlrow & ? & ? & ? & ? & ? & Hv);
    [done..|lia|lia|lia|done|lia|].
  rewrite E, bind_Ok. clear E.
  destruct (drop (length x) s) as [|sd rest] eqn:Ed.
  { apply (f_equal length) in Ed. rewrite length_drop in Ed. simpl in Ed. lia. }
  assert (s = take (length x) s ++ sd :: rest) as Es by by rewrite <- Ed, take_drop.
  assert (digits (sd :: rest)) as Hdr by (rewrite <- Ed; by apply Forall_drop).
  apply Forall_cons in Hdr as [Hsd Hrest].
  destruct (DSUMc y0 z1 y2) as [z2 y2'] eqn:E3. apply DSUMc_spec in E3 as (E3 & Hz2 & ?); [|lia|done|done].
  destruct (DSUMc sd z2 y3') as [t y3''] eqn:E4. apply DSUMc_spec in E4 as (E4 & Ht & ?); [|done..].
  assert (val (take k (s0 :: s)) = s0 + B * (val (take (length x) s) + Bp (length x) * sd)) as Ek.
  { subst k. rewrite Es at 1. replace (length x + 2)%nat with (S (S (length x))) by lia.
    cbn [take val]. assert (length (take (length x) s) = length x) as Hlt by (rewrite length_take; lia).
    rewrite take_app, Hlt, (take_ge _ (S (length x))) by lia.
    replace (S (length x) - length x)%nat with 1%nat by lia. cbn [take].
    rewrite val_app, Hlt, take_0. cbn [val]. lia. }
  assert (length s = length x + S (length rest))%nat as Els.
  { rewrite Es at 1. rewrite length_app, length_take. simpl. lia. }
  destruct x as [|x0 x1] eqn:Ex.
  - cbn [sqr_row length val] in *. destruct row; [|done]. exists ([t0] ++ t :: rest).
    split_and!; [done|simpl; lia|by constructor; [|constructor]| |].
    + subst k'. cbn [app drop]. by rewrite Es, drop_0.
    + specialize (Hb eq_refl). subst k k'. cbn [length] in Ek. change (0 + 2)%nat with 2%nat in *.
      rewrite Ek in Hb |- *. cbn [app take val]. rewrite take_0. cbn [val]. rewrite Bp_0, take_0 in *. cbn [val] in *.
      assert (y1 + y2' + y3'' = 0) by nia. nia.
  - set (X := x0 :: x1) in *. assert (k' = S (S (S (length X)))) as -> by (subst k' k; simpl; lia).
    destruct rest as [|rd rest]; [simpl in *; lia|].
    apply Forall_cons in Hrest as [Hrd Hrest].
    rewrite (dw_mod (y1 + y2' + y3'')), (Z.mod_small (y1 + y2' + y3'') B) by lia.
    exists (t0 :: row ++ t :: (y1 + y2' + y3'') :: rest). split; [done|]. rewrite Ek.
    clear Hl k Ek. clearbody X. split_and!.
    + rewrite !length_cons, length_app, !length_cons, Hlrow. simpl in *. lia.
    + constructor; [done|]. apply Forall_app. split; [done|]. constructor; [done|]. by constructor; [lia|].
    + cbn [drop]. rewrite Es. rewrite !drop_app, Hlrow, length_take.
      rewrite !drop_ge by (rewrite ?length_take; lia). cbn [app].
      replace (S (S (length X)) - length X)%nat with 2%nat by lia.
      replace (S (S (length X)) - length X `min` length s)%nat with 2%nat by lia. by rewrite (drop_ge (take _ _)) by (rewrite length_take; lia).
    + cbn [take val]. rewrite take_app, Hlrow, (take_ge row) by lia.
      replace (S (S (length X)) - length X)%nat with 2%nat by lia. cbn [take]. rewrite take_0, val_app, Hlrow.
      cbn [val]. nia.
Qed.

Lemma sqr_rows_spec x r :
  digits x → digits r → x ≠ [] → (2 * length x <= length r)%nat →
  val (take (S (length x)) r) + val x * val x < Bp (2 * length x) →
  ∃ r', sqr_rows x r = Ok r' ∧ length r' = length r ∧ digits r' ∧
    val (take (2 * length x) r') = val (take (S (length x)) r) + val x * val x.
Proof.
  intros Hx. revert r. induction Hx as [|d x Hd Hx IH]; intros r Hr Hne Hl Hb; [done|].
  cbn [sqr_rows]. destruct (sqr_step_spec d x r) as (r1 & E & Hl1 & Hr1 & _ & Hv); [done..| | |].
  { destruct x; simpl in *; lia. }
  { intros ->. cbn [length val] in Hb. change (Bp (2 * 1)) with (B * B) in Hb. lia. }
  rewrite E, bind_Ok. clear E. destruct x as [|x0 x1].
  - exists r1. cbn [length val] in *. change (0 + 2)%nat with 2%nat in *. change (2 * 1)%nat with 2%nat in *.
    split_and!; [done..|]. lia.
  - set (X := x0 :: x1) in *. assert (length X = S (length x1)) as HX by done. clearbody X. clear x0.
    destruct r1 as [|h0 [|h1 r2]]; [simpl in *; lia..|].
    apply Forall_cons in Hr1 as [Hh0 Hr1]. apply Forall_cons in Hr1 as [Hh1 Hr2].
    replace (S (length X + 2)) with (S (S (S (length X)))) in Hv by lia.
    replace (length X + 2)%nat with (S (S (length X))) in Hv by lia.
    cbn [take val length] in *. 
    replace (2 * S (length X))%nat with (S (S (2 * length X))) in * by lia. rewrite !Bp_S in Hb.
    destruct (IH r2) as (r3 & E3 & Hl3 & Hr3 & Hv3); [done|by intros ->|lia|nia|].
    rewrite E3, bind_Ok. exists (h0 :: h1 :: r3).
    split_and!; [done|simpl; lia|by constructor; [|constructor]|]. cbn [take val]. nia.
Qed.

(** [I_sqr] computes the square when the destination starts with [xl+1] zeros. *)
Lemma I_sqr_spec x r :
  digits x → digits r → x ≠ [] → (2 * length x <= length r)%nat →
  Forall (λ d, d = 0) (take (S (length x)) r) →
  ∃ p, I_sqr x r = Ok p ∧ digits p ∧ val p = val x * val x ∧
    (normal x → val x ≠ 0 → normal p).
Proof.
  intros Hx Hr Hne Hl Hz. pose proof (zeros_val _ Hz) as Hz0. pose proof (val_bound x Hx) as Hb.
  assert (Bp (2 * length x) = Bp (length x) * Bp (length x)) as HBp.
  { rewrite <- Bp_add. f_equal. lia. }
  destruct (sqr_rows_spec x r) as (r' & E & Hl' & Hr' & Hv); [done..|rewrite Hz0, HBp; nia|].
  rewrite Hz0, Z.add_0_l in Hv. unfold I_sqr. rewrite E, bind_Ok. clear E.
  assert (0 < length x)%nat by (destruct x; [done|simpl; lia]).
  set (k := (2 * length x - 1)%nat). assert (2 * length x = S k)%nat as Hk by lia.
  rewrite Hk in Hv. clearbody k.
  destruct (lookup_lt_is_Some_2 r' k) as [d Hd]; [lia|]. rewrite Hd.
  assert (val (take (S k) r') = val (take k r') + Bp k * d) as Es.
  { rewrite (take_S_r _ _ _ Hd), val_app, length_take, Nat.min_l by lia. cbn [val]. lia. }
  assert (normal x → val x ≠ 0 → Bp (k - 1) <= val x * val x) as Hlow.
  { intros Nx Zx. pose proof (normal_lower x Nx Hx Zx). pose proof (Bp_pos (length x - 1)).
    replace (k - 1)%nat with ((length x - 1) + (length x - 1))%nat by lia. rewrite Bp_add. nia. }
  destruct (Z.eqb_spec d 0) as [->|Nd]; eexists; (split; [done|]; split; [by apply Forall_take|]; split; [lia|]); intros Nx Zx.
  - apply val_normal; [by apply Forall_take| |].
    + intros E. apply (f_equal length) in E. rewrite length_take in E. simpl in E.
      assert (k = 0%nat) by lia. lia.
    + rewrite length_take, Nat.min_l by lia. specialize (Hlow Nx Zx). lia.
  - split; [intros E; apply (f_equal length) in E; rewrite length_take in E; cbn [length] in E; lia|].
    rewrite (take_S_r _ _ _ Hd), last_snoc. by intros [= ->].
Qed.
