(* ===== verification/BigBits.v ===== *)
(** Correctness of the bitwise operations on signed digit vectors ([I_band],
    [I_bor], [I_bxor], [I_bnot], [I_btrail] of erts/emulator/beam/big.c): they
    are [Z.land], [Z.lor], [Z.lxor] of the two's complement integers, except
    that two of them lose the borrow of a negative operand into the digits above
    the shorter operand. *)
From S2P Require Import Prelude BigDigits BigShift.

(** * Bits of a number split at a power of two *)

Lemma testbit_split k a u i :
  0 <= k → 0 <= a < 2 ^ k → 0 <= i →
  Z.testbit (a + 2 ^ k * u) i = if i <? k then Z.testbit a i else Z.testbit u (i - k).
Proof.
  intros Hk Ha Hi. replace (a + 2 ^ k * u) with (u * 2 ^ k + a) by lia.
  rewrite <- lor_shiftl_add, Z.lor_spec, Z.shiftl_spec by lia.
  destruct (Z.ltb_spec i k).
  - by rewrite (Z.testbit_neg_r u) by lia.
  - by rewrite (testbit_high a k i), orb_false_r by lia.
Qed.

(** What the three operations have in common. *)
Class BitOp (op : Z → Z → Z) := {
  bitop_split k a b u v : 0 <= k → 0 <= a < 2 ^ k → 0 <= b < 2 ^ k →
    op (a + 2 ^ k * u) (b + 2 ^ k * v) = op a b + 2 ^ k * op u v;
  bitop_range k a b : 0 <= k → 0 <= a < 2 ^ k → 0 <= b < 2 ^ k → 0 <= op a b < 2 ^ k }.

Lemma low_bits_range k c : 0 <= k → 0 <= c → (∀ i, k <= i → Z.testbit c i = false) → 0 <= c < 2 ^ k.
Proof.
  intros Hk Hc H. split; [done|]. assert (c = c mod 2 ^ k) as ->; [|apply Z.mod_pos_bound; lia].
  apply Z.bits_inj'. intros i Hi. destruct (decide (i < k)).
  - by rewrite Z.mod_pow2_bits_low by lia.
  - rewrite Z.mod_pow2_bits_high by lia. apply H. lia.
Qed.

Lemma bitop_intro (op : Z → Z → Z) (f : bool → bool → bool) :
  (∀ a b i, Z.testbit (op a b) i = f (Z.testbit a i) (Z.testbit b i)) → f false false = false →
  (∀ a b, 0 <= a → 0 <= b → 0 <= op a b) → BitOp op.
Proof.
  intros Hop Hf Hn.
  assert (∀ k a b, 0 <= k → 0 <= a < 2 ^ k → 0 <= b < 2 ^ k → 0 <= op a b < 2 ^ k) as Hr.
  { intros k a b Hk Ha Hb. apply low_bits_range; [done|apply Hn; lia|]. intros i Hi.
    by rewrite Hop, (testbit_high a k i), (testbit_high b k i) by lia. }
  split; [|done]. intros k a b u v Hk Ha Hb. apply Z.bits_inj'. intros i Hi.
  rewrite Hop, !testbit_split by auto. destruct (i <? k); by rewrite Hop.
Qed.

#[export] Instance land_bitop : BitOp Z.land.
Proof. apply (bitop_intro _ andb); [apply Z.land_spec|done|]. intros a b Ha _. apply Z.land_nonneg. auto. Qed.
#[export] Instance lor_bitop : BitOp Z.lor.
Proof. apply (bitop_intro _ orb); [apply Z.lor_spec|done|]. intros a b Ha Hb. by apply Z.lor_nonneg. Qed.
#[export] Instance lxor_bitop : BitOp Z.lxor.
Proof. apply (bitop_intro _ xorb); [apply Z.lxor_spec|done|]. intros a b Ha Hb. by apply Z.lxor_nonneg. Qed.

Section bitop.
Context (op : Z → Z → Z) `{BitOp op}.

Lemma Bp_pow n : Bp n = 2 ^ (64 * Z.of_nat n).
Proof. unfold Bp. change B with (2 ^ 64). by rewrite <- Z.pow_mul_r by lia. Qed.

(** Digit by digit on vectors of the same length. *)
Lemma zip_bitop x y :
  digits x → digits y → length x = length y →
  digits (zip_with op x y) ∧ length (zip_with op x y) = length y ∧
  val (zip_with op x y) = op (val x) (val y).
Proof.
  assert (op 0 0 = 0) as H0 by (pose proof (bitop_range 0 0 0 ltac:(lia) ltac:(lia) ltac:(lia)); lia).
  intros Hx. revert y. induction Hx as [|a x Ha Hx IH]; intros [|b y] Hy Hl; try done; cbn [zip_with].
  apply Forall_cons in Hy as [Hb Hy]. destruct (IH y) as (Hd & Hl' & Hv); [done|by injection Hl|].
  split_and!; [|simpl; lia|]; cbn [val].
  - constructor; [apply (bitop_range 64); lia|done].
  - rewrite Hv. symmetry. apply (bitop_split 64); lia.
Qed.

Lemma op_split n a b u v :
  0 <= a < Bp n → 0 <= b < Bp n → op (a + Bp n * u) (b + Bp n * v) = op a b + Bp n * op u v.
Proof. rewrite Bp_pow. intros Ha Hb. apply bitop_split; lia. Qed.
End bitop.

(** * Complements *)

Lemma dnot_digit c : digit c → dnot c = B - 1 - c.
Proof.
  intros Hc. unfold dnot. rewrite dw_mod. unfold Z.lnot.
  symmetry. apply (Z.mod_unique_pos _ _ (-1)); lia.
Qed.

Lemma map_dnot x :
  digits x → digits (map dnot x) ∧ length (map dnot x) = length x ∧
  val (map dnot x) = Bp (length x) - 1 - val x.
Proof.
  induction 1 as [|d x Hd Hx (IHd & IHl & IHv)]; [by cbn [map length]; rewrite Bp_0|].
  cbn [map val length]. rewrite Bp_S, dnot_digit, IHv by done.
  split_and!; [constructor; [lia|done]|lia|lia].
Qed.

Lemma neg_loop_spec x b :
  digits x → 0 <= b <= 1 →
  digits (neg_loop x b).1 ∧ length (neg_loop x b).1 = length x ∧ 0 <= (neg_loop x b).2 <= 1 ∧
  val (neg_loop x b).1 = Bp (length x) - 1 - val x + b - Bp (length x) * (neg_loop x b).2.
Proof.
  intros Hx. revert b. induction Hx as [|d x Hd Hx IH]; intros b Hb; cbn [neg_loop].
  { cbn [fst snd length val]. rewrite Bp_0. split_and!; (done || lia). }
  destruct (DSUBb d 0 b) as [c b1] eqn:E. apply DSUBb_spec in E as (E & Hc & Hb1); [|done|lia|done].
  destruct (IH b1 Hb1) as (Hr & Hl & Hb2 & Hv). destruct (neg_loop x b1) as [r b2]. cbn [fst snd length val] in *.
  rewrite Bp_S, dnot_digit, Hv by done. split_and!; [constructor; [lia|done]|lia|lia|lia|lia].
Qed.

(** [neg_digits] is the two's complement; the borrow tells whether [x] is 0. *)
Lemma neg_digits_spec x :
  digits x → x ≠ [] →
  digits (neg_digits x).1 ∧ length (neg_digits x).1 = length x ∧
  (neg_digits x).2 = c_bool (val x =? 0) ∧
  val (neg_digits x).1 = Bp (length x) * (1 - (neg_digits x).2) - val x.
Proof.
  intros Hx Hne. destruct x as [|d x]; [done|]. apply Forall_cons in Hx as [Hd Hx]. cbn [neg_digits].
  destruct (DSUB d 1) as [c b1] eqn:E. apply DSUB_spec in E as (E & Hc & Hb1); [|done|lia].
  destruct (neg_loop_spec x b1 Hx Hb1) as (Hr & Hl & Hb2 & Hv).
  pose proof (val_bound _ Hr) as Br. pose proof (val_bound _ Hx) as Bx. rewrite Hl in Br.
  destruct (neg_loop x b1) as [r b2]. cbn [fst snd length val] in *.
  rewrite Bp_S, dnot_digit, Hv by done. set (P := Bp (length x)) in *.
  assert (b2 = c_bool (d + B * val x =? 0)) as Hb.
  { destruct (Z.eqb_spec (d + B * val x) 0); cbn [c_bool].
    - assert (d = 0 ∧ val x = 0 ∧ b1 = 1) as (Ed & Ex & E1) by lia. rewrite E1, Ex in *.
      assert (b2 = 0 ∨ b2 = 1) as [-> | ->] by lia; lia.
    - assert (b2 = 0 ∨ b2 = 1) as [-> | ->] by lia; lia. }
  split_and!; [constructor; [lia|done]|lia|done|]. lia.
Qed.

(** The low digits of an operand, in two's complement. *)
Lemma operand_spec x n (s : bool) :
  digits x → (0 < n <= length x)%nat →
  digits (operand x n s).1 ∧ length (operand x n s).1 = n ∧
  0 <= val (operand x n s).1 < Bp n ∧
  (if s then - val x else val x) =
    val (operand x n s).1 + Bp n * (if s then (operand x n s).2 - 1 - val (drop n x) else val (drop n x)) ∧
  (s = true → (operand x n s).2 = c_bool (val (take n x) =? 0)).
Proof.
  intros Hx Hn. assert (length (take n x) = n) as Hl by (rewrite length_take; lia).
  assert (digits (take n x)) as Ht by by apply Forall_take.
  assert (take n x ≠ []) as Hne by (intros E; rewrite E in Hl; simpl in Hl; lia).
  pose proof (val_take_drop n x) as Hv. rewrite Hl in Hv. unfold operand. destruct s; cbn [fst snd].
  - destruct (neg_digits_spec _ Ht Hne) as (Hd & Hl' & Hb & Hval). pose proof (val_bound _ Hd) as Bd.
    rewrite Hl in *. rewrite Hl' in Bd. split_and!; [done|lia|lia|lia| |by intros]. rewrite Hv, Hval. lia.
  - pose proof (val_bound _ Ht) as Bd. rewrite Hl in *. split_and!; [done|lia|lia|lia|lia|done].
Qed.

(** * The trailing step *)

Lemma btrail_mask_sub fuel d p m : Z.land d p = p → Z.land d (btrail_mask fuel d p m) = btrail_mask fuel d p m.
Proof.
  revert p m. induction fuel as [|fuel IH]; intros p m Hp; cbn [btrail_mask]; [done|].
  destruct (Z.eqb_spec (Z.land d m) m); [by apply IH|done].
Qed.

(** Masking out the leading ones does not change the complement. *)
Lemma btrail_top d m : digit d → Z.land d m = m → Z.land (dnot d) (dnot m) = dnot d.
Proof.
  intros Hd Hm. unfold dnot, dw, wrap. apply Z.bits_inj'. intros i Hi. rewrite Z.land_spec.
  destruct (decide (i < 64)).
  - rewrite !Z.mod_pow2_bits_low, !Z.lnot_spec by lia. rewrite <- Hm, Z.land_spec.
    by destruct (Z.testbit d i), (Z.testbit m i).
  - by rewrite !Z.mod_pow2_bits_high by lia.
Qed.

Lemma drop_masks_spec rs :
  digits rs → rs ≠ [] →
  ∃ d low, drop_masks rs = d :: low ∧ digits (d :: low) ∧ (d = D_MASK → low = []) ∧
    Bp (length (d :: low)) - val (rev (d :: low)) = Bp (length rs) - val (rev rs).
Proof.
  induction 1 as [|d rs Hd Hrs IH]; [done|]. intros _. cbn [drop_masks].
  destruct rs as [|e rs]; [exists d, []; split_and!; [done|by constructor|done|done]|].
  destruct (Z.eqb_spec d D_MASK) as [->|N].
  - destruct IH as (d' & low & -> & ? & ? & Hv); [done|]. exists d', low. split_and!; [done..|].
    rewrite Hv, (val_rev_cons D_MASK). cbn [length]. rewrite !Bp_S. unfold D_MASK. lia.
  - exists d, (e :: rs). split_and!; [done|by constructor|done|done].
Qed.

Lemma I_btrail_neg r :
  digits r → r ≠ [] →
  digits (I_btrail r true) ∧ normal (I_btrail r true) ∧
  val (I_btrail r true) = Bp (length r) - val r.
Proof.
  intros Hr Hne. unfold I_btrail. destruct (drop_masks_spec (rev r)) as (d & low & -> & Hdl & Hm & Hv).
  { by apply Forall_rev. } { intros E. apply Hne. rewrite <- (rev_involutive r), E. done. }
  rewrite rev_involutive, length_rev in Hv. apply Forall_cons in Hdl as [Hd Hlow].
  set (top := if d =? D_MASK then _ else _).
  assert (top = B - 1 - d) as ->.
  { subst top. destruct (Z.eqb_spec d D_MASK) as [->|]; [done|].
    rewrite btrail_top, dnot_digit; [done|done|done|]. apply btrail_mask_sub, Z.land_0_r. }
  destruct (map_dnot low Hlow) as (Hd' & Hl' & Hv').
  assert (val (rev (map dnot low)) = Bp (length low) - 1 - val (rev low)) as Hvr.
  { rewrite <- map_rev. destruct (map_dnot (rev low)) as (_ & _ & ->); [by apply Forall_rev|]. by rewrite length_rev. }
  set (x := rev (B - 1 - d :: map dnot low)).
  assert (digits x) as Hx by (apply Forall_rev; constructor; [lia|done]).
  assert (normal x) as Nx.
  { subst x. cbn [rev]. split; [by destruct (rev (map dnot low))|]. rewrite last_snoc. intros [= E].
    assert (d = D_MASK) by (unfold D_MASK; lia). by rewrite Hm by done. }
  destruct (D_add_spec x 1 Hx (proj1 Nx) ltac:(lia)) as (? & -> & _).
  split_and!; [done|by apply D_add_normal|]. rewrite <- Hv. subst x. rewrite !val_rev_cons, Hvr, Hl'.
  cbn [length]. rewrite Bp_S. lia.
Qed.

Lemma I_btrail_pos r :
  digits r → r ≠ [] →
  digits (I_btrail r false) ∧ normal (I_btrail r false) ∧ val (I_btrail r false) = val r.
Proof.
  intros Hr Hne. unfold I_btrail. split_and!; [by apply trim_digits|by apply trim_normal|apply trim_val].
Qed.

(** * The operations *)

(** The integer a sign and a magnitude stand for. *)
Definition sval (s : bool) (x : list Z) : Z := if s then - val x else val x.

Section signed.
Context (x y : list Z) (xsgn ysgn : bool).
Hypotheses (Hx : digits x) (Hy : digits y) (Ny : y ≠ []) (Zx : xsgn = true → val x ≠ 0)
  (Zy : ysgn = true → val y ≠ 0)
  (Hl : (length y <= length x)%nat).

Let n := length y.
Let xs := (operand x n xsgn).1.
Let ys := (operand y n ysgn).1.
Let b := (operand x n xsgn).2.
Let high := drop n x.

(** The signed value of the digits of [x] above the length of [y]. *)
Let xh := if xsgn then b - 1 - val high else val high.

Lemma n_pos : (0 < n)%nat.
Proof. unfold n. destruct y; [done|simpl; lia]. Qed.

Lemma signed_split op `{BitOp op} :
  op (sval xsgn x) (sval ysgn y) = op (val xs) (val ys) + Bp n * op xh (if ysgn then -1 else 0).
Proof.
  pose proof n_pos. destruct (operand_spec x n xsgn Hx ltac:(lia)) as (_ & _ & Rx & Ex & _).
  destruct (operand_spec y n ysgn Hy ltac:(lia)) as (_ & _ & Ry & Ey & By).
  unfold sval. rewrite Ex, Ey.
  assert ((if ysgn then (operand y n ysgn).2 - 1 - val (drop n y) else val (drop n y)) = if ysgn then -1 else 0) as ->.
  { rewrite drop_ge by done. destruct ysgn; [|done]. rewrite By by done. unfold n. rewrite firstn_all.
    destruct (Z.eqb_spec (val y) 0); [by destruct Zy|]. done. }
  rewrite op_split by done. done.
Qed.

Lemma low_digits op `{BitOp op} :
  digits (zip_with op xs ys) ∧ length (zip_with op xs ys) = n ∧ zip_with op xs ys ≠ [] ∧
  val (zip_with op xs ys) = op (val xs) (val ys).
Proof.
  pose proof n_pos. destruct (operand_spec x n xsgn Hx ltac:(lia)) as (Dx & Lx & _).
  destruct (operand_spec y n ysgn Hy ltac:(lia)) as (Dy & Ly & _).
  destruct (zip_bitop op xs ys) as (Hd & Hlen & Hv); [done|done|by transitivity n|].
  assert (length (zip_with op xs ys) = n) by (etransitivity; [apply Hlen|done]).
  split_and!; [done|done| |done]. intros E. rewrite E in *. simpl in *. lia.
Qed.

Lemma high_digits : digits high ∧ digits (map dnot high) ∧ length (map dnot high) = length high ∧
  val (map dnot high) = Bp (length high) - 1 - val high.
Proof.
  assert (digits high) as Hd by by apply Forall_drop. split; [done|]. by apply map_dnot.
Qed.

(** No borrow leaves the low digits of [x] if they are not all zero. *)
Lemma xh_no_borrow : high = [] ∨ val (take n x) ≠ 0 → xsgn = true → b = 0.
Proof.
  intros Hor Es. pose proof n_pos. destruct (operand_spec x n xsgn Hx ltac:(lia)) as (_ & _ & _ & _ & Hb).
  unfold b. rewrite (Hb Es). destruct (Z.eqb_spec (val (take n x)) 0) as [E|]; [|done].
  destruct Hor as [Eh|]; [|done]. unfold high in Eh. exfalso. apply (Zx Es). rewrite (val_take_drop n x), E, Eh. cbn [val]. lia.
Qed.

Lemma neg_high :
  xsgn = true → digits (neg_loop high b).1 ∧ length (neg_loop high b).1 = length high ∧
  val (neg_loop high b).1 = Bp (length high) + xh.
Proof.
  intros Es. pose proof n_pos. destruct (operand_spec x n xsgn Hx ltac:(lia)) as (_ & _ & _ & _ & Hb).
  specialize (Hb Es). fold b in Hb. assert (cbit : 0 <= b <= 1) by (rewrite Hb; by destruct (_ =? 0)).
  destruct high_digits as (Hd & _). destruct (neg_loop_spec high b Hd cbit) as (Hr & Hlr & Hb2 & Hv).
  split_and!; [done|done|]. unfold xh. rewrite Es, Hv.
  pose proof (val_bound _ Hr) as Br. pose proof (val_bound _ Hd) as Bh. rewrite Hlr in Br.
  assert ((neg_loop high b).2 = 0 ∨ (neg_loop high b).2 = 1) as [E|E] by lia; rewrite E in *; [lia|].
  assert (val high = 0 ∧ b = 1) as [E0 E1] by lia. rewrite E1 in Hb.
  destruct (Z.eqb_spec (val (take n x)) 0) as [Et|]; [|done].
  exfalso. apply (Zx Es). rewrite (val_take_drop n x), Et. unfold high in E0. lia.
Qed.
End signed.

Lemma I_btrail_app n low high (s : bool) v :
  length low = n → digits low → digits high → low ≠ [] → val high - (if s then Bp (length high) else 0) = v →
  digits (I_btrail (low ++ high) s) ∧ normal (I_btrail (low ++ high) s) ∧
  sval s (I_btrail (low ++ high) s) = val low + Bp n * v.
Proof.
  intros <- Hlow Hhigh Hne <-. assert (digits (low ++ high)) by (by apply Forall_app).
  assert (low ++ high ≠ []) by (by destruct low). unfold sval. destruct s.
  - destruct (I_btrail_neg (low ++ high)) as (? & ? & ->); [done..|]. split_and!; [done..|].
    rewrite val_app, length_app, Bp_add. lia.
  - destruct (I_btrail_pos (low ++ high)) as (? & ? & ->); [done..|]. split_and!; [done..|].
    rewrite val_app. lia.
Qed.

(** The sign and the digits of a bignum: normal form, no negative zero. *)
Definition snum (s : bool) (x : list Z) : Prop := digits x ∧ normal x ∧ (s = true → val x ≠ 0).

(** The case the code gets wrong: a negative [x] whose digits below the length of
    [y] are all zero lends to its digits above them. *)
Definition no_lend (x y : list Z) : Prop := drop (length y) x = [] ∨ val (take (length y) x) ≠ 0.

Ltac bitop_start :=
  intros (Hx & Nx & Zx) (Hy & Ny & Zy) Hl;
  pose proof (proj1 Ny) as Ney.

Lemma I_band_spec x xsgn y ysgn :
  snum xsgn x → snum ysgn y → (length y <= length x)%nat →
  (xsgn = true → ysgn = true → no_lend x y) →
  let r := I_band x xsgn y ysgn in
  digits r ∧ normal r ∧ sval (xsgn && ysgn) r = Z.land (sval xsgn x) (sval ysgn y).
Proof.
  bitop_start. intros Hb. unfold I_band.
  rewrite (signed_split x y xsgn ysgn Hx Hy Ney Zy Hl Z.land).
  destruct (low_digits x y xsgn ysgn Hx Hy Ney Zy Hl Z.land) as (Dl & Ll & Nl & Vl).
  destruct (high_digits x y Hx) as (Dh & Dh' & Lh & Vh).
  pose proof (xh_no_borrow x y xsgn ysgn Hx Hy Ney Zx Zy Hl) as Eb.
  destruct (operand x (length y) xsgn) as [xs b], (operand y (length y) ysgn) as [ys b'].
  cbn [fst snd] in *. rewrite <- Vl.
  apply I_btrail_app; [done|done| |done|]; destruct xsgn, ysgn; cbn [negb andb]; try done;
    rewrite ?Z.land_0_r, ?Z.land_m1_r, ?Vh, ?Lh; cbn [val length]; try lia.
  rewrite Eb by (auto; by apply Hb). lia.
Qed.

Lemma I_bor_spec x xsgn y ysgn :
  snum xsgn x → snum ysgn y → (length y <= length x)%nat →
  let r := I_bor x xsgn y ysgn in
  digits r ∧ normal r ∧ sval (xsgn || ysgn) r = Z.lor (sval xsgn x) (sval ysgn y).
Proof.
  bitop_start. unfold I_bor.
  rewrite (signed_split x y xsgn ysgn Hx Hy Ney Zy Hl Z.lor).
  destruct (low_digits x y xsgn ysgn Hx Hy Ney Zy Hl Z.lor) as (Dl & Ll & Nl & Vl).
  destruct (high_digits x y Hx) as (Dh & _).
  pose proof (neg_high x y xsgn ysgn Hx Hy Ney Zx Zy Hl) as Eb.
  destruct (operand x (length y) xsgn) as [xs b], (operand y (length y) ysgn) as [ys b'].
  cbn [fst snd] in *. rewrite <- Vl.
  apply I_btrail_app; [done|done| |done|]; destruct xsgn, ysgn; cbn [orb]; try done;
    rewrite ?Z.lor_0_r, ?Z.lor_m1_r; cbn [val length]; try done; try lia;
    (destruct Eb as (Dn & Ln & Vn); [done|]); rewrite ?Ln, ?Vn; (done || lia).
Qed.

Lemma I_bxor_spec x xsgn y ysgn :
  snum xsgn x → snum ysgn y → (length y <= length x)%nat →
  (xsgn = true → no_lend x y) →
  let r := I_bxor x xsgn y ysgn in
  digits r ∧ normal r ∧ sval (negb (eqb xsgn ysgn)) r = Z.lxor (sval xsgn x) (sval ysgn y).
Proof.
  bitop_start. intros Hb. unfold I_bxor.
  rewrite (signed_split x y xsgn ysgn Hx Hy Ney Zy Hl Z.lxor).
  destruct (low_digits x y xsgn ysgn Hx Hy Ney Zy Hl Z.lxor) as (Dl & Ll & Nl & Vl).
  destruct (high_digits x y Hx) as (Dh & Dh' & Lh & Vh).
  pose proof (xh_no_borrow x y xsgn ysgn Hx Hy Ney Zx Zy Hl) as Eb.
  destruct (operand x (length y) xsgn) as [xs b], (operand y (length y) ysgn) as [ys b'].
  cbn [fst snd] in *. rewrite <- Vl.
  apply I_btrail_app; [done|done| |done|]; destruct xsgn, ysgn; cbn [eqb negb]; try done;
    rewrite ?Z.lxor_0_r, ?Z.lxor_m1_r, ?Vh, ?Lh; unfold Z.lnot; try lia;
    (rewrite Eb by (auto; by apply Hb)); lia.
Qed.

Lemma I_bnot_spec x (s : bool) :
  snum (negb s) x →
  digits (I_bnot x s) ∧ normal (I_bnot x s) ∧ sval s (I_bnot x s) = Z.lnot (sval (negb s) x).
Proof.
  intros (Hx & Nx & Zx). unfold I_bnot, sval, Z.lnot. pose proof (val_bound x Hx) as Bx. destruct s; cbn [negb].
  - destruct (D_add_spec x 1 Hx (proj1 Nx) ltac:(lia)) as (? & -> & _).
    split_and!; [done|by apply D_add_normal|lia].
  - specialize (Zx eq_refl). destruct (D_sub_spec x 1 Hx (proj1 Nx) ltac:(lia) ltac:(lia)) as (? & -> & ?). split_and!; [done..|lia].
Qed.
