(* ===== verification/Big.v ===== *)
(** Integers as terms: small integers, bignums and the operations on bignum terms
    of erts/emulator/beam/big.c (64-bit build).

    A bignum on the heap, its header word and its digits, is [Big sign v]; a
    routine that builds its result at [r] returns the term.  [NIL] is what
    [big_norm] returns for a number with too many digits.  The memory at [r] that
    a routine reads before it has written it is an argument of the model. *)
From S2P Require Import Prelude BigDigits BigShift BigSqr BigBits.

(** * Terms *)

Definition SMALL_BITS : Z := 60.
Definition MAX_SMALL : Z := 576460752303423487.
Definition MIN_SMALL : Z := -576460752303423488.
Definition BIG_ARITY_MAX : Z := 524287.

Inductive Eterm : Type :=
| Small (i : Z)
| Big (sign : bool) (v : list Z)
| NIL
| THE_NON_VALUE.

#[export] Instance Eterm_eq_dec : EqDecision Eterm.
Proof. solve_decision. Defined.

(** The tag leaves [SMALL_BITS] bits of the integer. *)
Definition make_small (x : Z) : Eterm := Small (swrap SMALL_BITS x).

Definition is_small (t : Eterm) : bool := if t is Small _ then true else false.

Definition signed_val (t : Eterm) : res Z := if t is Small i then Ok i else Fault.

Definition IS_USMALL (sgn : bool) (x : Z) : bool :=
  if sgn then x <=? MAX_SMALL + 1 else x <=? MAX_SMALL.

Definition IS_SSMALL (x : Z) : bool := (x >=? MIN_SMALL) && (x <=? MAX_SMALL).

(** The thing a bignum term points to. *)
Definition big_val (t : Eterm) : res (bool * list Z) :=
  match t with Big s v => Ok (s, v) | _ => Fault end.

Definition big_size (t : Eterm) : nat := if t is Big _ v then length v else 0%nat.

Definition big_norm (x : list Z) (sign : bool) : Eterm :=
  match (if (zlen x =? 1) then head x else None) with
  | Some y =>
      if IS_USMALL sign y
      then if sign then make_small (- swrap 64 y) else make_small y
      else if zlen x >? BIG_ARITY_MAX then NIL else Big sign x
  | None => if zlen x >? BIG_ARITY_MAX then NIL else Big sign x
  end.

(** * Conversions to and from machine words *)

Definition uint_to_big (x : Z) : Eterm := Big false [x].

Definition uword_to_big (x : Z) : Eterm := Big false [x].

Definition small_to_big (x : Z) : Eterm :=
  if x >=? 0 then Big false [dw x] else Big true [dw (- dw x)].

Definition erts_make_integer (x : Z) : Eterm :=
  if IS_USMALL false x then make_small x else uint_to_big x.

Definition erts_make_integer_from_uword (x : Z) : Eterm :=
  if IS_USMALL false x then make_small x else uword_to_big x.

Definition erts_uint64_to_big (x : Z) : Eterm := Big false [x].

Definition erts_sint64_to_big (x : Z) : Eterm :=
  let '(neg, ux) := if x >=? 0 then (false, dw x) else (true, dw (- dw x)) in
  Big neg [ux].

(** The loop of [erts_uint64_array_to_big]: [digits] is one more than the index
    of the last word that is not 0. *)
Fixpoint array_digits (array : list Z) (pot_digits digits : nat) : nat :=
  match array with
  | [] => digits
  | v :: array =>
      let pot_digits := S pot_digits in
      array_digits array pot_digits (if negb (v =? 0) then pot_digits else digits)
  end.

Definition erts_uint64_array_to_big (neg : bool) (array : list Z) : Eterm :=
  Big neg (take (array_digits array 0 0) array).

Inductive conv : Type := Conv (u : Z) | BADARG | SYSTEM_LIMIT.

(** [while (xl-- > 0) { uval |= ((Uint)( *xr++)) << n; n += D_EXP; }] *)
Fixpoint uval_loop (xr : list Z) (n uval : Z) : Z :=
  match xr with
  | [] => uval
  | d :: xr => uval_loop xr (n + D_EXP) (Z.lor uval (dw (Z.shiftl d n)))
  end.

Definition term_to_Uint (term : Eterm) : conv :=
  match term with
  | Small i => if i <? 0 then BADARG else Conv (dw i)
  | Big sign xr =>
      if sign then BADARG
      else if zlen xr * D_EXP >? 8 * 8 then SYSTEM_LIMIT
      else Conv (uval_loop xr 0 0)
  | _ => BADARG
  end.

Definition term_to_UWord (term : Eterm) : conv := term_to_Uint term.

Definition term_to_Uint64 (term : Eterm) : conv := term_to_UWord term.

Definition term_to_Uint_mask (term : Eterm) : res conv :=
  match term with
  | Small i => if i <? 0 then Ok BADARG else Ok (Conv (dw i))
  | Big false xr => match xr with [] => Fault | d :: _ => Ok (Conv d) end
  | _ => Ok BADARG
  end.

Definition term_to_Sint (term : Eterm) : option Z :=
  match term with
  | Small i => Some i
  | Big sign xr =>
      if zlen xr * D_EXP >? 8 * 8 then None
      else
        let uval := uval_loop xr 0 0 in
        if sign then
          let uval := dw (- uval) in
          if swrap 64 uval >? 0 then None else Some (swrap 64 uval)
        else if swrap 64 uval <? 0 then None else Some (swrap 64 uval)
  | _ => None
  end.

Definition term_to_Sint64 (term : Eterm) : option Z := term_to_Sint term.

Definition big_to_uint32 (b : Eterm) : Z :=
  match term_to_Uint b with Conv u => wrap 32 u | _ => 0 end.

Definition term_equals_2pow32 (x : Eterm) : bool :=
  match term_to_Uint x with
  | Conv u => (Z.land u 4294967295 =? 0) && (Z.shiftr (Z.shiftr u 16) 16 =? 1)
  | _ => false
  end.

(** * Comparison *)

Definition big_comp (x y : Eterm) : res Z :=
  '(xs, xv) ← big_val x;
  '(ys, yv) ← big_val y;
  if eqb xs ys then
    let c := I_comp xv yv in
    Ok (if xs then - c else c)
  else Ok (if xs then -1 else 1).

Definition big_ucomp (x y : Eterm) : res Z :=
  '(_, xv) ← big_val x;
  '(_, yv) ← big_val y;
  Ok (I_comp xv yv).

(** * Bytes *)

(** [while (d != 0) { ++sz; d >>= 8; }]; a digit has 8 bytes. *)
Fixpoint byte_count (fuel : nat) (d sz : Z) : res Z :=
  if d =? 0 then Ok sz
  else match fuel with
       | O => NoFuel
       | S fuel => byte_count fuel (Z.shiftr d 8) (sz + 1)
       end.

Definition big_bytes (x : Eterm) : res Z :=
  '(_, xv) ← big_val x;
  match last xv with
  | None => Fault
  | Some d => byte_count 8 d ((zlen xv - 1) * 8)
  end.

(** [d = 0; for(i = n; --i >= 0;) d = (d << 8) | xp[i];] *)
Definition load_digit (xp : bytes) : Z :=
  foldr (λ b d, Z.lor (dw (Z.shiftl d 8)) b) 0 xp.

(** [while(xsz > sizeof(ErtsDigit)) ..]; result: the digits stored, and the bytes
    left. *)
Fixpoint load_digits (xp : bytes) : list Z * bytes :=
  match xp with
  | b0 :: b1 :: b2 :: b3 :: b4 :: b5 :: b6 :: b7 :: ((_ :: _) as rest) =>
      let '(ds, tl) := load_digits rest in
      (load_digit [b0; b1; b2; b3; b4; b5; b6; b7] :: ds, tl)
  | _ => ([], xp)
  end.

Definition bytes_to_big (xp : bytes) (xsgn : bool) : Eterm :=
  let '(ds, tl) := load_digits xp in
  let finish r :=
    if zlen r >? BIG_ARITY_MAX then NIL else Big xsgn r in
  match tl with
  | [] => finish ds
  | _ =>
      let d := load_digit tl in
      if (zlen ds + 1 =? 1) && IS_USMALL xsgn d
      then make_small (if xsgn then dw (- d) else d)
      else finish (ds ++ [d])
  end.

(** [for(i = 0; i < sizeof(ErtsDigit); ++i) { p[i] = d & 0xff; d >>= 8; }] *)
Fixpoint store_digit (n : nat) (d : Z) : bytes :=
  match n with
  | O => []
  | S n => Z.land d 255 :: store_digit n (Z.shiftr d 8)
  end.

(** [do { *p++ = d & 0xff; d >>= 8; } while (d != 0);] *)
Fixpoint store_top (fuel : nat) (d : Z) : res bytes :=
  match fuel with
  | O => NoFuel
  | S fuel =>
      let b := Z.land d 255 in
      let d := Z.shiftr d 8 in
      if negb (d =? 0) then l ← store_top fuel d; Ok (b :: l) else Ok [b]
  end.

Fixpoint store_digits (xr : list Z) : res bytes :=
  match xr with
  | [] => Fault
  | [d] => store_top 8 d
  | d :: xr => l ← store_digits xr; Ok (store_digit 8 d ++ l)
  end.

(** The bytes stored at [p]. *)
Definition big_to_bytes (x : Eterm) : res bytes :=
  '(_, xv) ← big_val x;
  store_digits xv.

(** * Arithmetic *)

Definition B_plus_minus (x : list Z) (xsgn : bool) (y : list Z) (ysgn : bool) : res Eterm :=
  if eqb xsgn ysgn then
    if (length y <? length x)%nat
    then r ← I_add x y; Ok (big_norm r xsgn)
    else r ← I_add y x; Ok (big_norm r xsgn)
  else
    let comp := I_comp x y in
    if comp =? 0 then Ok (make_small 0)
    else if comp >? 0 then r ← I_sub x y; Ok (big_norm r xsgn)
    else r ← I_sub y x; Ok (big_norm r ysgn).

Definition big_plus (x y : Eterm) : res Eterm :=
  '(xs, xv) ← big_val x;
  '(ys, yv) ← big_val y;
  B_plus_minus xv xs yv ys.

Definition big_minus (x y : Eterm) : res Eterm :=
  '(xs, xv) ← big_val x;
  '(ys, yv) ← big_val y;
  B_plus_minus xv xs yv (negb ys).

Definition big_minus_small (x : Eterm) (y : Z) : res Eterm :=
  '(xs, xv) ← big_val x;
  if (xs : bool) then Ok (big_norm (D_add xv y) xs) else Ok (big_norm (D_sub xv y) xs).

Definition small_times (x y : Z) : Eterm :=
  let sign := xorb (x <? 0) (y <? 0) in
  let xu := dw (if x >? 0 then x else - x) in
  let yu := dw (if y >? 0 then y else - y) in
  let '(d1, d0) := DMULc xu yu 0 in
  if (d1 =? 0) && IS_USMALL sign d0
  then if sign then make_small (- swrap 64 d0) else make_small d0
  else if d1 =? 0 then Big sign [d0] else Big sign [d0; d1].

(** [ZERO_DIGITS] *)
Definition zero_digits (r : list Z) (n : nat) : list Z := replicate n 0 ++ drop n r.

(** [same]: the two terms are one object; [r]: the digits at the destination. *)
Definition big_times (same : bool) (x y : Eterm) (r : list Z) : res Eterm :=
  '(xs, xv) ← big_val x;
  '(ys, yv) ← big_val y;
  let sign := xorb xs ys in
  let xsz := length xv in
  let ysz := length yv in
  rv ← (if (ysz =? 1)%nat then
          match yv with d :: _ => Ok (D_mul xv d) | [] => Fault end
        else if (xsz =? 1)%nat then
          match xv with d :: _ => Ok (D_mul yv d) | [] => Fault end
        else if same then I_sqr xv (zero_digits r (xsz + 1))
        else if (ysz <=? xsz)%nat then I_mul xv yv (zero_digits r xsz)
        else I_mul yv xv (zero_digits r ysz));
  Ok (big_norm rv sign).

Definition big_neg (x : Eterm) : res Eterm :=
  '(xs, xv) ← big_val x;
  Ok (big_norm xv (negb xs)).

Definition big_band (x y : Eterm) : res Eterm :=
  '(xs, xv) ← big_val x;
  '(ys, yv) ← big_val y;
  let sign := xs && ys in
  if (length yv <=? length xv)%nat
  then Ok (big_norm (I_band xv xs yv ys) sign)
  else Ok (big_norm (I_band yv ys xv xs) sign).

Definition big_bor (x y : Eterm) : res Eterm :=
  '(xs, xv) ← big_val x;
  '(ys, yv) ← big_val y;
  let sign := xs || ys in
  if (length yv <=? length xv)%nat
  then Ok (big_norm (I_bor xv xs yv ys) sign)
  else Ok (big_norm (I_bor yv ys xv xs) sign).

Definition big_bxor (x y : Eterm) : res Eterm :=
  '(xs, xv) ← big_val x;
  '(ys, yv) ← big_val y;
  let sign := negb (eqb xs ys) in
  if (length yv <=? length xv)%nat
  then Ok (big_norm (I_bxor xv xs yv ys) sign)
  else Ok (big_norm (I_bxor yv ys xv xs) sign).

Definition big_bnot (x : Eterm) : res Eterm :=
  '(xs, xv) ← big_val x;
  let sign := negb xs in
  Ok (big_norm (I_bnot xv sign) sign).

Definition big_lshift (x : Eterm) (y : Z) : res Eterm :=
  '(xs, xv) ← big_val x;
  Ok (big_norm (I_lshift xv y xs) xs).

Definition big_plus_small (x : Eterm) (y : Z) : res Eterm :=
  '(xs, xv) ← big_val x;
  if (xs : bool) then Ok (big_norm (D_sub xv y) xs) else Ok (big_norm (D_add xv y) xs).

Definition big_times_small (x : Eterm) (y : Z) : res Eterm :=
  '(xs, xv) ← big_val x;
  Ok (big_norm (D_mul xv y) xs).
