(* ===== verification/BigSpec.v ===== *)
(** What the term operations of Big.v compute: the abstract integer of a term, the
    one canonical term of an integer, and the correctness of every operation
    against integer arithmetic. *)
From S2P Require Import Prelude BigDigits BigShift BigSqr BigBits Big.

(** * Integers and their terms *)

(** [bignum t z]: [t] is a bignum operand standing for [z].  Its digits are in
    normal form; it need not be too large for a small integer, since operands are
    made with [small_to_big]. *)
Definition bignum (t : Eterm) (z : Z) : Prop :=
  ∃ s v, t = Big s v ∧ snum s v ∧ sval s v = z.

(** [repr z t]: [t] is the result term for the integer [z]. *)
Inductive repr : Z → Eterm → Prop :=
| repr_small z : MIN_SMALL <= z <= MAX_SMALL → repr z (Small z)
| repr_big s v :
    snum s v → ¬ (MIN_SMALL <= sval s v <= MAX_SMALL) → zlen v <= BIG_ARITY_MAX →
    repr (sval s v) (Big s v)
| repr_limit s v :
    snum s v → zlen v > BIG_ARITY_MAX → repr (sval s v) NIL.

Lemma val_inj_length x y :
  digits x → digits y → length x = length y → val x = val y → x = y.
Proof.
  intros Hx. revert y. induction Hx as [|a x Ha Hx IH]; intros [|b y] Hy Hl Hv; try done.
  apply Forall_cons in Hy as [Hb Hy]. cbn [val] in Hv.
  assert (a = b) as -> by lia. f_equal. apply IH; [done|by injection Hl|lia].
Qed.

Lemma val_length x y :
  digits x → digits y → normal x → normal y → val x <= val y → (length x <= length y)%nat.
Proof.
  intros Hx Hy Nx Ny Hv. destruct (decide (length y < length x)%nat) as [Hl|]; [|lia].
  assert (0 < length y)%nat by (destruct Ny, y; [done|simpl; lia]).
  pose proof (normal_lower1 x Nx Hx ltac:(lia)). pose proof (val_bound y Hy).
  pose proof (Bp_mono (length y) (length x - 1) ltac:(lia)). lia.
Qed.

Lemma val_inj x y :
  digits x → digits y → normal x → normal y → val x = val y → x = y.
Proof.
  intros Hx Hy Nx Ny Hv. apply val_inj_length; try done.
  apply Nat.le_antisymm; apply val_length; (done || lia).
Qed.

Lemma sval_inj s v s' v' : snum s v → snum s' v' → sval s v = sval s' v' → s = s' ∧ v = v'.
Proof.
  intros (Hd & Hn & Hz) (Hd' & Hn' & Hz'). unfold sval.
  pose proof (val_bound v Hd). pose proof (val_bound v' Hd').
  destruct s, s'; intros E; try (specialize (Hz eq_refl)); try (specialize (Hz' eq_refl)); try lia;
    (split; [done|]); apply val_inj; (done || lia).
Qed.

Lemma big_not_small s v : snum s v → zlen v > BIG_ARITY_MAX → ¬ (MIN_SMALL <= sval s v <= MAX_SMALL).
Proof.
  intros (Hd & Hn & _) Hl. unfold zlen, BIG_ARITY_MAX in Hl.
  pose proof (normal_lower1 v Hn Hd ltac:(lia)). pose proof (Bp_mono 1 (length v - 1) ltac:(lia)) as Hb.
  rewrite Bp_S, Bp_0 in Hb. unfold sval, MIN_SMALL, MAX_SMALL. destruct s; lia.
Qed.

Lemma repr_inv z t :
  repr z t →
  (MIN_SMALL <= z <= MAX_SMALL ∧ t = Small z) ∨
  (¬ (MIN_SMALL <= z <= MAX_SMALL) ∧ ∃ s v, snum s v ∧ sval s v = z ∧
     t = if zlen v >? BIG_ARITY_MAX then NIL else Big s v).
Proof.
  intros [z' Hz|s v Hs Hn Hl|s v Hs Hl]; [by left|right..].
  - split; [done|]. exists s, v. split_and!; [done..|]. by destruct (Z.gtb_spec (zlen v) BIG_ARITY_MAX); [lia|].
  - split; [by apply big_not_small|]. exists s, v. split_and!; [done..|].
    by destruct (Z.gtb_spec (zlen v) BIG_ARITY_MAX); [|lia].
Qed.

Lemma repr_functional z t t' : repr z t → repr z t' → t = t'.
Proof.
  intros [[? ->]|(N & s & v & Hs & Ev & ->)]%repr_inv [[? ->]|(N' & s' & v' & Hs' & Ev' & ->)]%repr_inv;
    try done.
  by destruct (sval_inj s v s' v' Hs Hs') as [-> ->]; [congruence|].
Qed.

(** * [big_norm] *)

Lemma make_small_id x : MIN_SMALL <= x <= MAX_SMALL → make_small x = Small x.
Proof. intros Hx. unfold make_small. rewrite swrap_small; [done..|]. unfold MIN_SMALL, MAX_SMALL, SMALL_BITS in *. lia. Qed.

Lemma swrap64_id x : 0 <= x < 2 ^ 63 → swrap 64 x = x.
Proof. intros Hx. rewrite swrap_small; lia. Qed.

Lemma small_word (s : bool) d :
  0 <= d → IS_USMALL s d = true →
  (if s then make_small (- swrap 64 d) else make_small d) = Small (if s then - d else d) ∧
  MIN_SMALL <= (if s then - d else d) <= MAX_SMALL.
Proof.
  intros Hd. unfold IS_USMALL. destruct s; intros E%Z.leb_le; unfold MAX_SMALL, MIN_SMALL in *.
  - rewrite swrap64_id by lia. rewrite make_small_id by (unfold MAX_SMALL, MIN_SMALL; lia). split; [done|lia].
  - rewrite make_small_id by (unfold MAX_SMALL, MIN_SMALL; lia). split; [done|lia].
Qed.

Lemma not_small_word (s : bool) d :
  IS_USMALL s d = false → d > 0 ∧ ¬ (MIN_SMALL <= (if s then - d else d) <= MAX_SMALL).
Proof. unfold IS_USMALL. destruct s; intros E%Z.leb_gt; unfold MAX_SMALL, MIN_SMALL in *; lia. Qed.

Lemma big_norm_repr s v : digits v → normal v → repr (sval s v) (big_norm v s).
Proof.
  intros Hd Hn. unfold big_norm. destruct (Z.eqb_spec (zlen v) 1) as [E|E].
  - destruct v as [|d [|e v]]; [done| |rewrite !zlen_cons in E; pose proof (zlen_nonneg v); lia].
    cbn [head]. apply Forall_cons in Hd as [Hd _].
    assert (sval s [d] = if s then - d else d) as Es by (unfold sval; cbn [val]; destruct s; lia).
    destruct (IS_USMALL s d) eqn:Eu.
    + destruct (small_word s d) as [-> ?]; [lia|done|]. rewrite Es. by apply repr_small.
    + apply not_small_word in Eu as [Hpos Hns].
      apply repr_big; [split_and!; [by apply Forall_singleton|done|cbn [val]; lia]|by rewrite Es|done].
  - assert (1 < length v)%nat as Hl by (destruct Hn as [Hn _], v as [|? [|]]; [done|done|simpl; lia]).
    pose proof (normal_lower1 v Hn Hd Hl) as Hlow. pose proof (Bp_mono 1 (length v - 1) ltac:(lia)) as Hb.
    rewrite Bp_S, Bp_0 in Hb. assert (snum s v) as Hs by (split_and!; [done..|intros; lia]).
    destruct (Z.gtb_spec (zlen v) BIG_ARITY_MAX); [by apply repr_limit; [|lia]|].
    apply repr_big; [done| |lia]. unfold sval, MIN_SMALL, MAX_SMALL. destruct s; lia.
Qed.

Lemma norm_repr z s v : digits v → normal v → sval s v = z → repr z (big_norm v s).
Proof. intros ? ? <-. by apply big_norm_repr. Qed.

(** * Operations *)

(** [computes m z]: the operation returns the term of [z]. *)
Definition computes (m : res Eterm) (z : Z) : Prop := ∃ t, m = Ok t ∧ repr z t.

Lemma computes_norm z s v : digits v → normal v → sval s v = z → computes (Ok (big_norm v s)) z.
Proof. intros. eexists. split; [done|]. by apply norm_repr. Qed.

Create HintDb big.
#[export] Hint Resolve computes_norm : big.

Lemma snum_digits s v : snum s v → digits v. Proof. by intros (? & _). Qed.
Lemma snum_normal s v : snum s v → normal v. Proof. by intros (_ & ? & _). Qed.
Lemma snum_ne s v : snum s v → v ≠ []. Proof. by intros (_ & [? _] & _). Qed.
#[export] Hint Resolve snum_digits snum_normal snum_ne : big.

Lemma sval_negb s v : sval (negb s) v = - sval s v.
Proof. unfold sval. destruct s; cbn [negb]; lia. Qed.

(** The bignum arguments of an operation, opened. *)
Ltac open_bignums :=
  repeat match goal with
  | H : bignum ?t ?z |- _ =>
      let s := fresh "s" in let v := fresh "v" in let Hs := fresh "Hs" in
      destruct H as (s & v & -> & Hs & <-)
  end.

Lemma B_plus_minus_spec x xsgn y ysgn :
  digits x → normal x → digits y → normal y →
  computes (B_plus_minus x xsgn y ysgn) (sval xsgn x + sval ysgn y).
Proof.
  intros Hx Nx Hy Ny. unfold B_plus_minus. destruct (eqb_spec xsgn ysgn) as [->|Hs].
  - destruct (Nat.ltb_spec (length y) (length x)).
    + destruct (I_add_spec x y Hx Hy (proj1 Ny) ltac:(lia)) as (r & -> & Hr & Hv & _ & Nr).
      apply computes_norm; [done|auto|]. unfold sval. rewrite Hv. destruct ysgn; lia.
    + destruct (I_add_spec y x Hy Hx (proj1 Nx) ltac:(lia)) as (r & -> & Hr & Hv & _ & Nr).
      apply computes_norm; [done|auto|]. unfold sval. rewrite Hv. destruct ysgn; lia.
  - rewrite I_comp_spec by done.
    pose proof (val_bound x Hx). pose proof (val_bound y Hy).
    destruct (Z.compare_spec (val x) (val y)) as [E|E|E]; cbn [Z.eqb Z.gtb Z.compare].
    + rewrite make_small_id by (unfold MIN_SMALL, MAX_SMALL; lia). eexists. split; [done|].
      replace (sval xsgn x + sval ysgn y) with 0 by (unfold sval; destruct xsgn, ysgn; (done || lia)).
      apply repr_small. unfold MIN_SMALL, MAX_SMALL; lia.
    + destruct (I_sub_spec y x Hy Hx (proj1 Nx)) as (r & -> & Hr & Hv & Nr);
        [by apply val_length; (done || lia)|lia|].
      apply computes_norm; [done..|]. unfold sval. rewrite Hv. destruct xsgn, ysgn; (done || lia).
    + destruct (I_sub_spec x y Hx Hy (proj1 Ny)) as (r & -> & Hr & Hv & Nr);
        [by apply val_length; (done || lia)|lia|].
      apply computes_norm; [done..|]. unfold sval. rewrite Hv. destruct xsgn, ysgn; (done || lia).
Qed.

Lemma big_plus_spec x y a b : bignum x a → bignum y b → computes (big_plus x y) (a + b).
Proof. intros. open_bignums. apply B_plus_minus_spec; eauto with big. Qed.

Lemma big_minus_spec x y a b : bignum x a → bignum y b → computes (big_minus x y) (a - b).
Proof.
  intros (s & v & -> & Hs & <-) (s' & v' & -> & Hs' & <-).
  replace (sval s v - sval s' v') with (sval s v + sval (negb s') v') by (rewrite sval_negb; lia).
  apply B_plus_minus_spec; eauto with big.
Qed.

(** Adding or subtracting a word goes through [D_add] or [D_sub]; the latter needs
    a magnitude at least as large as the word. *)
Lemma D_add_computes s v y : snum s v → digit y → computes (Ok (big_norm (D_add v y) s)) (sval s v + if s then - y else y).
Proof.
  intros (Hd & Hn & _) Hy. destruct (D_add_spec v y Hd (proj1 Hn) Hy) as (Hr & Hv & _).
  apply computes_norm; [done|by apply D_add_normal|]. unfold sval. rewrite Hv. destruct s; lia.
Qed.

Lemma D_sub_computes s v y :
  snum s v → digit y → y <= val v → computes (Ok (big_norm (D_sub v y) s)) (sval s v - if s then - y else y).
Proof.
  intros (Hd & Hn & _) Hy Hle. destruct (D_sub_spec v y Hd (proj1 Hn) Hy Hle) as (Hr & Hv & Nr).
  apply computes_norm; [done..|]. unfold sval. rewrite Hv. destruct s; lia.
Qed.

Lemma big_plus_small_spec x a y :
  bignum x a → 0 <= y < B → (a < 0 → y <= - a) → computes (big_plus_small x y) (a + y).
Proof.
  intros (s & v & -> & Hs & <-) Hy Hle. cbn. pose proof (val_bound v (snum_digits _ _ Hs)).
  destruct s.
  - replace (sval true v + y) with (sval true v - - y) by lia. apply D_sub_computes; [done..|].
    destruct Hs as (_ & _ & Hz). specialize (Hz eq_refl). unfold sval in Hle. lia.
  - by apply D_add_computes.
Qed.

Lemma big_minus_small_spec x a y :
  bignum x a → 0 <= y < B → (0 <= a → y <= a) → computes (big_minus_small x y) (a - y).
Proof.
  intros (s & v & -> & Hs & <-) Hy Hle. cbn. pose proof (val_bound v (snum_digits _ _ Hs)).
  destruct s.
  - replace (sval true v - y) with (sval true v + - y) by lia. by apply D_add_computes.
  - apply D_sub_computes; [done..|]. unfold sval in Hle. lia.
Qed.

Lemma D_mul_computes s s' v y :
  snum s v → digit y → computes (Ok (big_norm (D_mul v y) s')) (if xorb s s' then - (sval s v * y) else sval s v * y).
Proof.
  intros (Hd & Hn & Hz) Hy. destruct (D_mul_spec v y Hd (proj1 Hn) Hy) as (Hr & Hv & Nr).
  apply computes_norm; [done|auto|]. unfold sval. rewrite Hv. destruct s, s'; cbn [xorb]; lia.
Qed.

Lemma big_times_small_spec x a y : bignum x a → 0 <= y < B → computes (big_times_small x y) (a * y).
Proof.
  intros (s & v & -> & Hs & <-) Hy. pose proof (D_mul_computes s s v y Hs Hy) as H.
  by rewrite xorb_nilpotent in H.
Qed.

Lemma sval_xorb s s' x y r : val r = val x * val y → sval (xorb s s') r = sval s x * sval s' y.
Proof. unfold sval. intros ->. destruct s, s'; cbn [xorb]; lia. Qed.

Lemma snum_long s v : snum s v → length v ≠ 1%nat → val v ≠ 0.
Proof.
  intros (Hd & Hn & _) Hl. pose proof (snum_ne false v) as Hne.
  assert (1 < length v)%nat as Hl1 by (destruct Hn as [Hn _], v as [|? [|]]; [done|done|simpl; lia]).
  pose proof (normal_lower1 v Hn Hd Hl1). pose proof (Bp_pos (length v - 1)). lia.
Qed.

Lemma zero_digits_ok r n : digits r → (n <= length r)%nat →
  digits (zero_digits r n) ∧ length (zero_digits r n) = length r ∧
  ∀ k, (k <= n)%nat → Forall (λ d, d = 0) (take k (zero_digits r n)).
Proof.
  intros Hr Hl. unfold zero_digits. split_and!.
  - apply Forall_app. split; [apply Forall_replicate; lia|by apply Forall_drop].
  - rewrite length_app, length_replicate, length_drop. lia.
  - intros k Hk. rewrite take_app_le by (rewrite length_replicate; lia). rewrite take_replicate.
    by apply Forall_replicate.
Qed.

Lemma big_times_spec same x y a b r :
  bignum x a → bignum y b → (same = true → x = y) → digits r →
  (big_size x + big_size y <= length r)%nat →
  computes (big_times same x y r) (a * b).
Proof.
  intros (s & v & -> & Hs & <-) (s' & v' & -> & Hs' & <-) Hsame Hr Hlen. cbn [big_size] in *.
  unfold big_times. cbn [big_val]. rewrite !bind_Ok. cbv beta iota zeta. pose proof Hs as (Hd & Hn & _). pose proof Hs' as (Hd' & Hn' & _).
  pose proof (snum_ne _ _ Hs) as Hne. pose proof (snum_ne _ _ Hs') as Hne'.
  destruct (Nat.eqb_spec (length v') 1) as [E1|E1].
  { destruct v' as [|d [|]]; [done| |done]. rewrite bind_Ok. apply Forall_cons in Hd' as [Hd' _].
    destruct (D_mul_spec v d Hd Hne Hd') as (? & Hv & ?). apply computes_norm; [done|auto|].
    apply sval_xorb. rewrite Hv. cbn [val]. lia. }
  destruct (Nat.eqb_spec (length v) 1) as [E2|E2].
  { destruct v as [|d [|]]; [done| |done]. rewrite bind_Ok. apply Forall_cons in Hd as [Hd _].
    destruct (D_mul_spec v' d Hd' Hne' Hd) as (? & Hv & ?). apply computes_norm; [done|auto|].
    apply sval_xorb. rewrite Hv. cbn [val]. lia. }
  assert (1 < length v ∧ 1 < length v')%nat as [L1 L2].
  { destruct v as [|? [|]], v' as [|? [|]]; try done. simpl. lia. }
  pose proof (snum_long _ _ Hs E2) as Hz. pose proof (snum_long _ _ Hs' E1) as Hz'. destruct same.
  - specialize (Hsame eq_refl). injection Hsame as <- <-.
    destruct (zero_digits_ok r (length v + 1)) as (Zd & Zl & Zz); [done|lia|].
    destruct (I_sqr_spec v (zero_digits r (length v + 1))) as (p & -> & Hp & Hv & Np); [done..|lia|apply Zz; lia|].
    rewrite bind_Ok. apply computes_norm; [done|auto|]. by apply sval_xorb.
  - destruct (Nat.leb_spec (length v') (length v)).
    + destruct (zero_digits_ok r (length v)) as (Zd & Zl & Zz); [done|lia|].
      destruct (I_mul_spec v v' (zero_digits r (length v))) as (p & -> & Hp & Hv & Np); [done..|lia|apply Zz; lia|].
      rewrite bind_Ok. apply computes_norm; [done|auto|]. by apply sval_xorb.
    + destruct (zero_digits_ok r (length v')) as (Zd & Zl & Zz); [done|lia|].
      destruct (I_mul_spec v' v (zero_digits r (length v'))) as (p & -> & Hp & Hv & Np); [done..|lia|apply Zz; lia|].
      rewrite bind_Ok. apply computes_norm; [done|auto|]. apply sval_xorb. lia.
Qed.

Lemma small_times_spec x y :
  MIN_SMALL <= x <= MAX_SMALL → MIN_SMALL <= y <= MAX_SMALL → repr (x * y) (small_times x y).
Proof.
  unfold MIN_SMALL, MAX_SMALL. intros Hx Hy. unfold small_times.
  assert (∀ z, -576460752303423488 <= z <= 576460752303423487 → dw (if z >? 0 then z else - z) = Z.abs z) as Hab.
  { intros z Hz. rewrite dw_mod. destruct (Z.gtb_spec z 0); rewrite Z.mod_small; lia. }
  rewrite !Hab by done. destruct (DMULc (Z.abs x) (Z.abs y) 0) as [d1 d0] eqn:E.
  apply DMULc_spec in E as (E & H1 & H0); [|lia..].
  set (s := xorb (x <? 0) (y <? 0)).
  assert (x * y = if s then - (d0 + B * d1) else d0 + B * d1) as ->.
  { rewrite E, Z.add_0_r. subst s. destruct (Z.ltb_spec x 0), (Z.ltb_spec y 0); cbn [xorb]; nia. }
  clear E. clearbody s. destruct (Z.eqb_spec d1 0) as [->|N1]; cbn [andb].
  - rewrite Z.mul_0_r, Z.add_0_r. destruct (IS_USMALL s d0) eqn:Eu.
    + destruct (small_word s d0) as [-> ?]; [lia|done|]. by apply repr_small.
    + apply not_small_word in Eu as [Hp Hn]. replace (if s then - d0 else d0) with (sval s [d0]) in *
        by (unfold sval; cbn [val]; destruct s; lia).
      apply repr_big; [split_and!; [by apply Forall_singleton|done|cbn [val]; lia]|done|done].
  - replace (if s then _ else _) with (sval s [d0; d1]) by (unfold sval; cbn [val]; destruct s; lia).
    apply repr_big; [|unfold sval, MIN_SMALL, MAX_SMALL; cbn [val]; destruct s; lia|done].
    split_and!; [by constructor; [|apply Forall_singleton]|split; [done|by intros [= ->]]|cbn [val]; lia].
Qed.

Lemma big_neg_spec x a : bignum x a → computes (big_neg x) (- a).
Proof.
  intros (s & v & -> & Hs & <-). cbn. apply computes_norm; eauto with big. by rewrite sval_negb.
Qed.

(** ** Bitwise operations and shifts *)

(** The operands for which the borrow of the two's complement is not lost: if the
    longer one is negative, its digits below the length of the other one are not
    all zero. *)
Definition no_lost_borrow (x y : Eterm) : Prop :=
  match x, y with
  | Big s v, Big s' v' =>
      if (length v' <=? length v)%nat then s = true → no_lend v v' else s' = true → no_lend v' v
  | _, _ => False
  end.

Lemma big_band_spec x y a b :
  bignum x a → bignum y b → (a < 0 → b < 0 → no_lost_borrow x y) →
  computes (big_band x y) (Z.land a b).
Proof.
  intros (s & v & -> & Hs & <-) (s' & v' & -> & Hs' & <-) Hb. cbn in Hb |- *.
  assert (∀ s v, snum s v → s = true → sval s v < 0) as Hneg.
  { intros s0 v0 (Hd & _ & Hz) ->. specialize (Hz eq_refl). pose proof (val_bound v0 Hd). unfold sval. lia. }
  pose proof (Hneg _ _ Hs). pose proof (Hneg _ _ Hs').
  destruct (Nat.leb_spec (length v') (length v)).
  - destruct (I_band_spec v s v' s') as (? & ? & ?); [done..|by intros; apply Hb; auto|]. by apply computes_norm.
  - destruct (I_band_spec v' s' v s) as (? & ? & Hv); [done|done|lia|by intros; apply Hb; auto|].
    apply computes_norm; [done..|]. by rewrite andb_comm, Hv, Z.land_comm.
Qed.

Lemma big_bor_spec x y a b :
  bignum x a → bignum y b → computes (big_bor x y) (Z.lor a b).
Proof.
  intros (s & v & -> & Hs & <-) (s' & v' & -> & Hs' & <-). cbn.
  destruct (Nat.leb_spec (length v') (length v)).
  - destruct (I_bor_spec v s v' s') as (? & ? & ?); [done..|]. by apply computes_norm.
  - destruct (I_bor_spec v' s' v s) as (? & ? & Hv); [done|done|lia|].
    apply computes_norm; [done..|]. by rewrite orb_comm, Hv, Z.lor_comm.
Qed.

Lemma big_bxor_spec x y a b :
  bignum x a → bignum y b → no_lost_borrow x y → computes (big_bxor x y) (Z.lxor a b).
Proof.
  intros (s & v & -> & Hs & <-) (s' & v' & -> & Hs' & <-) Hb. cbn in Hb |- *.
  destruct (Nat.leb_spec (length v') (length v)).
  - destruct (I_bxor_spec v s v' s') as (? & ? & ?); [done..|]. by apply computes_norm.
  - destruct (I_bxor_spec v' s' v s) as (? & ? & Hv); [done|done|lia|done|].
    apply computes_norm; [done..|]. rewrite Z.lxor_comm, <- Hv. by destruct s, s'.
Qed.

Lemma big_bnot_spec x a : bignum x a → computes (big_bnot x) (Z.lnot a).
Proof.
  intros (s & v & -> & Hs & <-). cbn. rewrite <- (negb_involutive s) in Hs.
  destruct (I_bnot_spec v (negb s) Hs) as (? & ? & Hv).
  rewrite negb_involutive in Hv. by apply computes_norm.
Qed.

(** Arithmetic shift: [y > 0] to the left, [y < 0] to the right with rounding
    towards minus infinity. *)
Lemma big_lshift_spec x a y :
  bignum x a → - 2 ^ 63 <= y < 2 ^ 63 → computes (big_lshift x y) (Z.shiftl a y).
Proof.
  intros (s & v & -> & Hs & <-) Hy. cbn. pose proof Hs as (Hd & Hn & Hz).
  destruct (decide (0 <= y)) as [Hp|Hp].
  - destruct (I_lshift_left v y s) as (Hr & Hv & Nr); [done|exact (snum_ne _ _ Hs)|lia|].
    apply computes_norm; [done| |rewrite Z.shiftl_mul_pow2 by lia; unfold sval; rewrite Hv; destruct s; lia].
    destruct (decide (val v = 0)) as [E|]; [|auto].
    assert (v = [0]) as -> by (apply val_inj; (done || by apply Forall_singleton)).
    unfold I_lshift. by destruct (y =? 0).
  - destruct (decide (val v = 0)) as [E|].
    + assert (v = [0]) as -> by (apply val_inj; (done || by apply Forall_singleton)).
      assert (I_lshift [0] y s = [0]) as -> by (unfold I_lshift; by destruct (y =? 0)).
      apply computes_norm; [done..|]. destruct s; [by specialize (Hz eq_refl)|].
      change (sval false [0]) with 0. by rewrite Z.shiftl_0_l.
    + destruct (I_lshift_right v y s) as (Hr & Nr & Hv); [done..|lia|].
      apply computes_norm; [done..|]. rewrite <- Z.shiftr_opp_r, Z.shiftr_div_pow2 by lia.
      unfold sval. rewrite Hv. destruct s; lia.
Qed.

(** ** Comparison *)

Definition cmp (c : comparison) : Z := match c with Lt => -1 | Eq => 0 | Gt => 1 end.

Lemma big_comp_spec x y a b : bignum x a → bignum y b → big_comp x y = Ok (cmp (a ?= b)).
Proof.
  intros (s & v & -> & Hs & <-) (s' & v' & -> & Hs' & <-). cbn. pose proof Hs as (Hd & Hn & Hz).
  pose proof Hs' as (Hd' & Hn' & Hz'). rewrite I_comp_spec by done. unfold sval.
  pose proof (val_bound v Hd). pose proof (val_bound v' Hd').
  destruct s, s'; cbn [eqb]; f_equal; try (specialize (Hz eq_refl)); try (specialize (Hz' eq_refl)).
  - destruct (Z.compare_spec (- val v) (- val v')), (Z.compare_spec (val v) (val v')); (done || lia).
  - by destruct (Z.compare_spec (- val v) (val v')); try lia.
  - by destruct (Z.compare_spec (val v) (- val v')); try lia.
Qed.

Lemma big_ucomp_spec x y a b :
  bignum x a → bignum y b → big_ucomp x y = Ok (cmp (Z.abs a ?= Z.abs b)).
Proof.
  intros (s & v & -> & (Hd & Hn & _) & <-) (s' & v' & -> & (Hd' & Hn' & _) & <-). cbn.
  rewrite I_comp_spec by done. pose proof (val_bound v Hd). pose proof (val_bound v' Hd').
  assert (∀ s v, 0 <= val v → Z.abs (sval s v) = val v) as E by (intros [] ?; unfold sval; lia).
  by rewrite !E by lia.
Qed.

(** ** Conversions *)

Lemma snum_digit s d : digit d → (s = true → d ≠ 0) → snum s [d].
Proof. intros Hd Hz. split_and!; [by apply Forall_singleton|done|]. intros E. cbn [val]. specialize (Hz E). lia. Qed.

Lemma sval_digit (s : bool) d : sval s [d] = if s then - d else d.
Proof. unfold sval. cbn [val]. destruct s; lia. Qed.

Lemma small_to_big_spec x : - 2 ^ 63 <= x < 2 ^ 63 → bignum (small_to_big x) x.
Proof.
  intros Hx. unfold small_to_big. destruct (Z.geb_spec x 0).
  - exists false, [dw x]. rewrite sval_digit, dw_mod, Z.mod_small by lia.
    split_and!; [done|by apply snum_digit; [lia|]|done].
  - exists true, [dw (- dw x)]. rewrite sval_digit, !dw_mod.
    assert (x mod B = x + B) as -> by (symmetry; apply (Z.mod_unique_pos _ _ (-1)); lia).
    assert ((- (x + B)) mod B = - x) as -> by (symmetry; apply (Z.mod_unique_pos _ _ (-1)); lia).
    split_and!; [done|apply snum_digit; lia|lia].
Qed.

Lemma erts_sint64_to_big_eq x : erts_sint64_to_big x = small_to_big x.
Proof. unfold erts_sint64_to_big, small_to_big. by destruct (x >=? 0). Qed.

Lemma erts_make_integer_spec x : 0 <= x < B → repr x (erts_make_integer x).
Proof.
  intros Hx. unfold erts_make_integer, uint_to_big. destruct (IS_USMALL false x) eqn:E.
  - destruct (small_word false x) as [-> ?]; [lia|done|]. by apply repr_small.
  - apply not_small_word in E as [Hp Hn]. rewrite <- (sval_digit false x) in Hn |- * at 1.
    apply repr_big; [by apply snum_digit|done|done].
Qed.

(** An integer term of either kind. *)
Definition int_term (t : Eterm) (z : Z) : Prop :=
  (t = Small z ∧ MIN_SMALL <= z <= MAX_SMALL) ∨ bignum t z.

Lemma one_word s v : snum s v → (zlen v * D_EXP >? 8 * 8) = negb (val v <? B).
Proof.
  intros (Hd & Hn & _). unfold zlen, D_EXP. pose proof (val_bound v Hd) as Hb.
  destruct (decide (1 < length v)%nat) as [Hl|Hl].
  - pose proof (normal_lower1 v Hn Hd Hl). pose proof (Bp_mono 1 (length v - 1) ltac:(lia)) as Hm.
    rewrite Bp_S, Bp_0 in Hm. destruct (Z.gtb_spec (Z.of_nat (length v) * 64) (8 * 8)), (Z.ltb_spec (val v) B); try done; lia.
  - assert (length v = 1%nat) as El by (destruct Hn as [Hn _], v; [done|simpl in *; lia]). rewrite El in *.
    change (Bp 1) with B in Hb. destruct (Z.ltb_spec (val v) B); try done; lia.
Qed.

Lemma uval_loop_one s v : snum s v → val v < B → uval_loop v 0 0 = val v.
Proof.
  intros Hs Hb. pose proof (one_word s v Hs) as E. rewrite (proj2 (Z.ltb_lt _ _) Hb) in E.
  destruct Hs as (Hd & [Hn _] & _). destruct v as [|d [|e v]]; [done| |].
  - apply Forall_cons in Hd as [Hd _]. cbn [uval_loop val]. rewrite Z.shiftl_0_r, Z.lor_0_l, dw_mod, Z.mod_small; lia.
  - exfalso. revert E. unfold zlen, D_EXP. cbn [length]. destruct (Z.gtb_spec (Z.of_nat (S (S (length v))) * 64) (8 * 8)); [done|lia].
Qed.

Lemma term_to_Uint_spec t z :
  int_term t z →
  term_to_Uint t = if z <? 0 then BADARG else if z <? B then Conv z else SYSTEM_LIMIT.
Proof.
  intros [[-> Hz]|(s & v & -> & Hs & <-)]; cbn [term_to_Uint].
  - unfold MIN_SMALL, MAX_SMALL in Hz. destruct (Z.ltb_spec z 0); [done|].
    rewrite dw_mod, Z.mod_small by lia. by destruct (Z.ltb_spec z B); [|lia].
  - pose proof Hs as (Hd & _ & Hz). pose proof (val_bound v Hd). unfold sval. destruct s.
    + specialize (Hz eq_refl). by destruct (Z.ltb_spec (- val v) 0); [|lia].
    + destruct (Z.ltb_spec (val v) 0); [lia|]. rewrite (one_word _ _ Hs).
      destruct (Z.ltb_spec (val v) B); cbn [negb]; [|done]. by rewrite (uval_loop_one _ _ Hs).
Qed.

Lemma term_to_Sint_spec t z :
  int_term t z →
  term_to_Sint t = if (- 2 ^ 63 <=? z) && (z <? 2 ^ 63) then Some z else None.
Proof.
  intros [[-> Hz]|(s & v & -> & Hs & <-)]; cbn [term_to_Sint].
  - unfold MIN_SMALL, MAX_SMALL in Hz.
    destruct (Z.leb_spec (- 2 ^ 63) z), (Z.ltb_spec z (2 ^ 63)); cbn [andb]; (done || lia).
  - pose proof Hs as (Hd & _ & Hz). pose proof (val_bound v Hd) as [Hv0 _]. rewrite (one_word _ _ Hs).
    unfold sval. destruct (Z.ltb_spec (val v) B) as [Hb|Hb]; cbn [negb].
    + rewrite (uval_loop_one _ _ Hs Hb). set (u := val v) in *. clearbody u. unfold swrap. destruct s.
      * specialize (Hz eq_refl).
        assert (dw (- u) mod 2 ^ 64 = B - u) as ->.
        { rewrite dw_mod. change (2 ^ 64) with B. rewrite Z.mod_mod by done.
          symmetry. apply (Z.mod_unique_pos _ _ (-1)); lia. }
        destruct (Z.ltb_spec (B - u) (2 ^ (64 - 1))), (Z.leb_spec (- 2 ^ 63) (- u)), (Z.ltb_spec (- u) (2 ^ 63)); cbn [andb];
          try lia; destruct (Z.gtb_spec (B - u) 0), (Z.gtb_spec (B - u - 2 ^ 64) 0); try done; try lia; f_equal; lia.
      * rewrite Z.mod_small by lia.
        destruct (Z.ltb_spec u (2 ^ (64 - 1))), (Z.leb_spec (- 2 ^ 63) u), (Z.ltb_spec u (2 ^ 63)); cbn [andb];
          try lia; destruct (Z.ltb_spec u 0), (Z.ltb_spec (u - 2 ^ 64) 0); done || lia.
    + destruct s.
      * destruct (Z.leb_spec (- 2 ^ 63) (- val v)); cbn [andb]; [lia|done].
      * destruct (Z.leb_spec (- 2 ^ 63) (val v)), (Z.ltb_spec (val v) (2 ^ 63)); cbn [andb]; (done || lia).
Qed.

(** ** Bytes *)

(** The number a little-endian byte string stands for. *)
Definition bval (l : bytes) : Z := foldr (λ b v, b + 256 * v) 0 l.

Lemma bval_app l k : bval (l ++ k) = bval l + 2 ^ (8 * zlen l) * bval k.
Proof.
  induction l as [|b l IH]; cbn [app]; [change (bval k = 0 + 1 * bval k); lia|]. cbn [bval foldr].
  fold (bval (l ++ k)) (bval l). rewrite IH, zlen_cons. pose proof (zlen_nonneg l).
  replace (8 * (1 + zlen l)) with (8 + 8 * zlen l) by lia. rewrite Z.pow_add_r by lia. lia.
Qed.

Lemma bval_range l : Forall byte l → 0 <= bval l < 2 ^ (8 * zlen l).
Proof.
  induction 1 as [|b l Hb Hl IH]; [done|]. cbn [bval foldr]. fold (bval l). unfold byte in Hb.
  pose proof (zlen_nonneg l). rewrite zlen_cons.
  replace (8 * (1 + zlen l)) with (8 + 8 * zlen l) by lia. rewrite Z.pow_add_r by lia. lia.
Qed.

Lemma load_digit_bval l : Forall byte l → zlen l <= 8 → load_digit l = bval l ∧ digit (bval l).
Proof.
  intros Hl Hz. assert (digit (bval l)) as Hd.
  { pose proof (bval_range l Hl). assert (2 ^ (8 * zlen l) <= 2 ^ 64) by (apply Z.pow_le_mono_r; lia). lia. }
  split; [|done]. clear Hd. induction Hl as [|b l Hb Hl IH]; [done|]. unfold byte in Hb.
  rewrite zlen_cons in Hz. cbn [load_digit bval foldr]. fold (load_digit l) (bval l). rewrite IH by lia.
  pose proof (bval_range l Hl) as Hr. pose proof (zlen_nonneg l).
  assert (2 ^ (8 * zlen l) <= 2 ^ 56) by (apply Z.pow_le_mono_r; lia).
  rewrite dw_mod, Z.mod_small by (rewrite Z.shiftl_mul_pow2 by lia; lia).
  rewrite lor_shiftl_add by lia. lia.
Qed.

Lemma load_digits_spec xp ds tl :
  Forall byte xp → load_digits xp = (ds, tl) →
  digits ds ∧ Forall byte tl ∧ (xp ≠ [] → tl ≠ [] ∧ last tl = last xp) ∧ zlen tl <= 8 ∧
  bval xp = val ds + Bp (length ds) * bval tl.
Proof.
  remember (length xp) as n eqn:En. revert xp ds tl En.
  induction n as [n IH] using lt_wf_ind. intros xp ds tl -> Hxp E.
  assert (zlen xp <= 8 → digits [] ∧ Forall byte xp ∧ (xp ≠ [] → xp ≠ [] ∧ last xp = last xp) ∧
    zlen xp <= 8 ∧ bval xp = val [] + Bp (length (@nil Z)) * bval xp) as Hshort.
  { intros Hl. split_and!; [constructor|done|done|done|]. cbn [length val]. rewrite Bp_0. lia. }
  destruct xp as [|b0 [|b1 [|b2 [|b3 [|b4 [|b5 [|b6 [|b7 [|b8 xp]]]]]]]]];
    try (injection E as <- <-; apply Hshort; unfold zlen; cbn [length]; lia).
  change (load_digits _) with
    (let '(ds, tl) := load_digits (b8 :: xp) in (load_digit [b0; b1; b2; b3; b4; b5; b6; b7] :: ds, tl)) in E.
  destruct (load_digits (b8 :: xp)) as [ds' tl'] eqn:E'. remember (load_digit _) as d0 eqn:Ed0 in E.
  injection E as <- <-. subst d0.
  change (b0 :: b1 :: b2 :: b3 :: b4 :: b5 :: b6 :: b7 :: b8 :: xp)
    with ([b0; b1; b2; b3; b4; b5; b6; b7] ++ b8 :: xp) in *.
  set (w := [b0; b1; b2; b3; b4; b5; b6; b7]) in *. apply Forall_app in Hxp as [Hw Hx].
  destruct (load_digit_bval w Hw) as [-> Hd]; [done|].
  destruct (IH (length (b8 :: xp))) with (xp := b8 :: xp) (ds := ds') (tl := tl')
    as (Hds & Htl & Hne & Hl8 & Hv); [rewrite length_app; simpl; lia|done..|].
  destruct (Hne ltac:(done)) as [Hne1 Hlast].
  split_and!; [by constructor|done| |done|].
  - intros _. split; [done|]. by rewrite Hlast, last_app_ne.
  - rewrite bval_app, Hv. change (2 ^ (8 * zlen w)) with B. cbn [val length]. rewrite Bp_S. lia.
Qed.

(** Loading a byte string without leading zeros gives the term of its value. *)
Lemma bytes_to_big_spec xp (s : bool) :
  Forall byte xp → xp ≠ [] → last xp ≠ Some 0 →
  repr (if s then - bval xp else bval xp) (bytes_to_big xp s).
Proof.
  intros Hxp Hne Hlast. unfold bytes_to_big. destruct (load_digits xp) as [ds tl] eqn:E.
  apply load_digits_spec in E as (Hds & Htl & Hnt & Hl & Hv); [|done]. destruct (Hnt Hne) as [Hne' El].
  destruct (load_digit_bval tl Htl Hl) as [Ed Hd]. rewrite Ed. rewrite <- El in Hlast.
  assert (bval tl ≠ 0) as Hz.
  { destruct tl as [|b tl _] using rev_ind; [done|]. rewrite last_snoc in Hlast. apply Forall_app in Htl as [Ht Hb].
    apply Forall_cons in Hb as [Hb _]. unfold byte in Hb. rewrite bval_app. cbn [bval foldr].
    pose proof (bval_range tl Ht) as Hr. pose proof (zlen_nonneg tl).
    assert (b ≠ 0) by congruence. fold (bval tl). nia. }
  assert (val (ds ++ [bval tl]) = bval xp) as Ev by (rewrite val_app, Hv; cbn [val]; lia).
  assert (snum s (ds ++ [bval tl])) as Hs.
  { pose proof (val_bound ds Hds). pose proof (Bp_pos (length ds)).
    split_and!; [by apply Forall_app; split; [|apply Forall_singleton]| |intros; rewrite Ev, Hv; nia].
    split; [by destruct ds|]. rewrite last_snoc. congruence. }
  pose proof (big_norm_repr s _ (snum_digits _ _ Hs) (snum_normal _ _ Hs)) as Hn.
  unfold sval in Hn. rewrite Ev in Hn. destruct tl as [|t0 tl0]; [done|]. set (d := bval (t0 :: tl0)) in *.
  destruct ds as [|d1 ds].
  - change (zlen [] + 1 =? 1) with true. cbn [andb app] in *. unfold big_norm in Hn.
    change (zlen [d] =? 1) with true in Hn. cbn [head] in Hn. destruct (IS_USMALL s d) eqn:Eu; [|done].
    destruct s; [|done]. unfold IS_USMALL in Eu. apply Z.leb_le in Eu. unfold MAX_SMALL in Eu.
    rewrite swrap64_id in Hn by lia. unfold make_small, SMALL_BITS in *.
    assert (swrap 60 (dw (- d)) = swrap 60 (- d)) as ->; [|done].
    unfold swrap. rewrite dw_mod. by rewrite (Z.mod_mod_divide (- d) B (2 ^ 60)) by by exists 16.
  - assert ((zlen (d1 :: ds) + 1 =? 1) = false) as -> by (rewrite zlen_cons; pose proof (zlen_nonneg ds); lia).
    cbn [andb]. unfold big_norm in Hn.
    destruct (zlen ((d1 :: ds) ++ [d]) =? 1) eqn:E1; [|done].
    apply Z.eqb_eq in E1. rewrite zlen_app, zlen_cons in E1. change (zlen [d]) with 1 in E1.
    pose proof (zlen_nonneg ds). lia.
Qed.

Lemma shr8 d : 0 <= d → d = Z.land d 255 + 256 * Z.shiftr d 8 ∧ byte (Z.land d 255) ∧ 0 <= Z.shiftr d 8.
Proof.
  intros Hd. rewrite land_255, Z.shiftr_div_pow2 by lia. change (2 ^ 8) with 256. unfold byte.
  split_and!; dlia.
Qed.

Lemma store_digit_spec n d :
  0 <= d < 2 ^ (8 * Z.of_nat n) →
  Forall byte (store_digit n d) ∧ length (store_digit n d) = n ∧ bval (store_digit n d) = d.
Proof.
  revert d. induction n as [|n IH]; intros d Hd; cbn [store_digit].
  { change (2 ^ (8 * Z.of_nat 0)) with 1 in Hd. split_and!; [constructor|done|]. cbn. lia. }
  destruct (shr8 d) as (E & Hb & Hs); [lia|]. pose proof Hb as Hb'. unfold byte in Hb'.
  destruct (IH (Z.shiftr d 8)) as (Hf & Hl & Hv).
  { replace (8 * Z.of_nat (S n)) with (8 + 8 * Z.of_nat n) in Hd by lia.
    rewrite Z.pow_add_r in Hd by lia. lia. }
  split_and!; [by constructor|simpl; lia|]. cbn [bval foldr]. fold (bval (store_digit n (Z.shiftr d 8))). lia.
Qed.

Lemma store_top_spec n d :
  0 <= d < 2 ^ (8 * Z.of_nat n) → (0 < n)%nat →
  ∃ l, store_top n d = Ok l ∧ Forall byte l ∧ l ≠ [] ∧ (length l <= n)%nat ∧ bval l = d ∧ (d ≠ 0 → last l ≠ Some 0) ∧
    ∀ sz, byte_count n d sz = Ok (sz + if d =? 0 then 0 else zlen l).
Proof.
  revert d. induction n as [|n IH]; intros d Hd Hn; [lia|]. cbn [store_top byte_count].
  destruct (shr8 d) as (E & Hb & Hs); [lia|]. pose proof Hb as Hb'. unfold byte in Hb'.
  assert (0 <= Z.shiftr d 8 < 2 ^ (8 * Z.of_nat n)) as Hsr.
  { replace (8 * Z.of_nat (S n)) with (8 + 8 * Z.of_nat n) in Hd by lia. rewrite Z.pow_add_r in Hd by lia. lia. }
  set (d' := Z.shiftr d 8) in *. set (b := Z.land d 255) in *. clearbody d' b.
  destruct (Z.eqb_spec d' 0) as [->|N]; cbn [negb].
  - exists [b]. split_and!; [done|by apply Forall_singleton|done|simpl; lia|cbn; lia|cbn; intros ? [= ->]; lia|].
    intros sz. destruct (Z.eqb_spec d 0); [f_equal; lia|]. by destruct n.
  - assert (0 < n)%nat as Hn' by (destruct n; [change (2 ^ (8 * Z.of_nat 0)) with 1 in Hsr; lia|lia]).
    destruct (IH d' Hsr Hn') as (l & -> & Hf & Hne & Hl & Hv & Hlast & Hc). rewrite bind_Ok. exists (b :: l).
    split_and!; [done|by constructor|done|simpl; lia| | |].
    + cbn [bval foldr]. fold (bval l). lia.
    + intros _. destruct l; [done|]. by apply Hlast.
    + intros sz. destruct (Z.eqb_spec d 0); [lia|]. rewrite Hc. destruct (Z.eqb_spec d' 0); [done|].
      rewrite zlen_cons. f_equal. lia.
Qed.

Lemma store_digits_spec v :
  digits v → v ≠ [] →
  ∃ l d, store_digits v = Ok l ∧ last v = Some d ∧ Forall byte l ∧ l ≠ [] ∧ bval l = val v ∧
    (d ≠ 0 → last l ≠ Some 0) ∧
    (d ≠ 0 → byte_count 8 d ((zlen v - 1) * 8) = Ok (zlen l)).
Proof.
  induction 1 as [|d v Hd Hv IH]; [done|]. intros _. destruct v as [|e v].
  - destruct (store_top_spec 8 d) as (l & E & Hf & Hne & Hl & Hbv & Hlast & Hc); [done|lia|].
    exists l, d. split_and!; [done|done|done|done|cbn [val]; lia|done|].
    intros N. rewrite Hc. by destruct (Z.eqb_spec d 0).
  - destruct IH as (l & dl & E & El & Hf & Hne & Hbv & Hlast & Hc); [done|].
    destruct (store_digit_spec 8 d Hd) as (Hf8 & Hl8 & Hv8).
    exists (store_digit 8 d ++ l), dl. split_and!.
    + change (store_digits (d :: e :: v)) with (l ← store_digits (e :: v); Ok (store_digit 8 d ++ l)).
      by rewrite E.
    + done.
    + by apply Forall_app.
    + by destruct (store_digit 8 d).
    + rewrite bval_app. unfold zlen. rewrite Hl8, Hv8, Hbv. change (2 ^ (8 * Z.of_nat 8)) with B. cbn [val]. lia.
    + intros N. rewrite last_app_ne by done. auto.
    + intros N. specialize (Hc N).
      assert (∀ fuel d sz k, byte_count fuel d (sz + k) = (r ← byte_count fuel d sz; Ok (r + k))) as Hshift.
      { induction fuel as [|fuel IHf]; intros d0 sz k; cbn [byte_count]; destruct (d0 =? 0); try done.
        replace (sz + k + 1) with (sz + 1 + k) by lia. apply IHf. }
      rewrite zlen_cons, zlen_app. replace ((1 + zlen (e :: v) - 1) * 8) with ((zlen (e :: v) - 1) * 8 + 8) by lia.
      rewrite Hshift, Hc, bind_Ok. unfold zlen. rewrite Hl8. f_equal. lia.
Qed.

Lemma normal_last v d : normal v → digits v → val v ≠ 0 → last v = Some d → d ≠ 0.
Proof.
  intros [Hn Hl] Hd Hz El ->. specialize (Hl El). destruct v as [|e [|]]; [done| |done].
  injection El as ->. done.
Qed.

(** The bytes of a bignum: its magnitude, little endian, without leading zeros, as
    many as [big_bytes] says. *)
Lemma big_to_bytes_spec x z :
  bignum x z → z ≠ 0 →
  ∃ l, big_to_bytes x = Ok l ∧ big_bytes x = Ok (zlen l) ∧ Forall byte l ∧ l ≠ [] ∧
    bval l = Z.abs z ∧ last l ≠ Some 0.
Proof.
  intros (s & v & -> & (Hd & Hn & _) & <-) Hz. pose proof (val_bound v Hd).
  assert (val v ≠ 0) as Hz' by (unfold sval in Hz; destruct s; lia).
  destruct (store_digits_spec v Hd (proj1 Hn)) as (l & d & E & El & Hf & Hne & Hv & Hlast & Hc).
  pose proof (normal_last _ _ Hn Hd Hz' El) as Nd.
  exists l. split_and!; [done| |done|done|unfold sval; destruct s; lia|auto].
  unfold big_bytes. cbn [big_val]. rewrite bind_Ok, El. auto.
Qed.
