(* ===== verification/BigDiv.v ===== *)
(** Division of bignums by several digits: the two-digit division D2DIVREM and the
    routines I_div and I_rem of erts/emulator/beam/big.c (64-bit build without a double
    digit), big_div and big_rem.

    The quotient digits are estimated from the two leading digits.  An estimate may be
    too large: then the remainder has become negative, it is negated, [r_signed] is
    flipped, and from there on the estimates are subtracted from the quotient.  The
    vectors [r] and [q] are updated in place; a pointer into one of them is its offset,
    which may run below 0 when the loop ends.  [dsize_t] counts are integers, proved to
    stay in range. *)
From S2P Require Import Prelude BigDigits BigShift BigBits Big BigSpec.

(** * Two digits *)

Definition D2GT (a1 a0 b1 b0 : Z) : bool := (a1 >? b1) || ((a1 =? b1) && (a0 >? b0)).
Definition D2LT (a1 a0 b1 b0 : Z) : bool := D2GT b1 b0 a1 a0.
Definition D2GTE (a1 a0 b1 b0 : Z) : bool := negb (D2LT a1 a0 b1 b0).

Definition D2SUB (a1 a0 b1 b0 : Z) : Z * Z :=
  let '(c0, bi) := DSUB a0 b0 in
  let '(c1, _) := DSUBb a1 b1 bi in
  (c1, c0).

(** [a*(b1*B + b0) + d2]: the new [d2], [d1] and [d0]. *)
Definition D2MULc (a b1 b0 d2 : Z) : Z * Z * Z :=
  let '(d2, d0) := DMULc a b0 d2 in
  let '(d2, d1) := DMULc a b1 d2 in
  (d2, d1, d0).

Definition QUOT_LIM : Z := 9223372036854775807.

(** [a / b] on digits. *)
Definition dquot (a b : Z) : res Z := if b =? 0 then Fault else Ok (a / b).

(** The estimate [_q1] in the loop of [D2DIVREM]. *)
Definition d2_quot (a1 b1 : Z) : res Z :=
  if (b1 =? 1) && (a1 >? 1) then dquot a1 2
  else if (a1 >? QUOT_LIM) && (b1 <? a1) then dquot a1 (dw (b1 + 1))
  else dquot a1 b1.

(** [while(D2GTE(_a1,_a0,_b1,_b0))]; every round leaves at most three quarters. *)
Fixpoint d2_loop (fuel : nat) (a1 a0 b1 b0 q as_ : Z) : res (Z * Z * Z * Z) :=
  if D2GTE a1 a0 b1 b0 then
    match fuel with
    | O => NoFuel
    | S fuel =>
        q1 ← d2_quot a1 b1;
        let q := if as_ <? 0 then dw (q - q1) else dw (q + q1) in
        let '(_, t1, t0) := D2MULc q1 b1 b0 0 in
        if D2GT t1 t0 a1 a0
        then let '(a1, a0) := D2SUB t1 t0 a1 a0 in d2_loop fuel a1 a0 b1 b0 q (- as_)
        else let '(a1, a0) := D2SUB a1 a0 t1 t0 in d2_loop fuel a1 a0 b1 b0 q as_
    end
  else Ok (a1, a0, q, as_).

Definition D2DIVREM (a1 a0 b1 b0 : Z) : res (Z * Z * Z) :=
  '(a1, a0, q, as_) ← d2_loop 160 a1 a0 b1 b0 0 1;
  if as_ <? 0
  then let '(a1, a0) := D2SUB b1 b0 a1 a0 in Ok (dw (q - 1), a1, a0)
  else Ok (q, a1, a0).

Definition DDIV2 (a1 a0 b1 b0 : Z) : res Z := '(q, _, _) ← D2DIVREM a1 a0 b1 b0; Ok q.

(** * I_div and I_rem *)

(** The estimate [q0] from the leading digits of the remainder and of [y]; the boolean
    says that one more digit of the remainder is used ([nsz++; rp--]). *)
Definition div_estimate (a1 a2 b1 b2 : Z) : res (Z * bool) :=
  if b1 <? a1 then q0 ← DDIV2 a1 a2 b1 b2; Ok (q0, false)
  else if b1 >? a1 then q0 ← DDIV a1 a2 b1; Ok (q0, true)
  else if b2 <=? a2 then Ok (1, false)
  else Ok (D_MASK, true).

(** From [D_mulsub] to [nnsz = 0]: the remainder, [nnsz] and [r_signed]. *)
Definition div_reduce (y r : list Z) (rp rl nsz q0 : Z) (r_signed : bool) :
    res (list Z * Z * bool) :=
  x ← rds r rp nsz;
  '(s, o) ← D_mulsub x q0 y;
  '(r, _) ← wrs r rp s;
  '(r, nnsz, r_signed) ←
    match o with
    | Some t => Ok (r, zlen t, r_signed)
    | None =>
        x ← rds r 0 rl;
        '(r, _) ← wrs r 0 (zsub_loop x 0);
        let nnsz := zlen (Z_sub x) in
        Ok (r, if nsz >? rl - nnsz then nsz - (rl - nnsz) else 1, negb r_signed)
    end;
  zero ← (if nnsz =? 1 then d ← rd r rp; Ok (d =? 0) else Ok false);
  Ok (r, if zero : bool then 0 else nnsz, r_signed).

(** The leading digits and the estimate: [q0] and [nsz - yl]. *)
Definition div_lead (y r : list Z) (rp : Z) : res (Z * Z) :=
  let yl := zlen y in
  b1 ← rd y (yl - 1);
  b2 ← rd y (yl - 2);
  a1 ← rd r (rp + yl - 1);
  a2 ← rd r (rp + yl - 2);
  '(q0, more) ← div_estimate a1 a2 b1 b2;
  Ok (q0, if more : bool then 1 else 0).

(** The variables of the loop of [I_rem]: [r], [rp], [rl] and [r_signed]. *)
Record rem_state := mk_rem { rm_r : list Z; rm_rp : Z; rm_rl : Z; rm_signed : bool }.

(** The body of the loop of [I_rem] for the estimate [q0]. *)
Definition rem_step (y : list Z) (st : rem_state) (q0 more : Z) : res (rem_state * Z) :=
  let yl := zlen y in
  let nsz := yl + more in
  let rp := rm_rp st - more in
  '(r, nnsz, r_signed) ← div_reduce y (rm_r st) rp (rm_rl st) nsz q0 (rm_signed st);
  Ok (mk_rem r (rp - (yl - nnsz)) (rm_rl st - (nsz - nnsz)) r_signed, nnsz).

(** [I_comp(r, rl, y, yl) >= 0] *)
Definition rem_more (y : list Z) (st : rem_state) : res bool :=
  x ← rds (rm_r st) 0 (rm_rl st);
  Ok (I_comp x y >=? 0).

Fixpoint rem_loop (fuel : nat) (y : list Z) (st : rem_state) : res rem_state :=
  match fuel with
  | O => NoFuel
  | S fuel =>
      '(q0, more) ← div_lead y (rm_r st) (rm_rp st);
      '(st, _) ← rem_step y st q0 more;
      again ← rem_more y st;
      if again : bool then rem_loop fuel y st else Ok st
  end.

(** The remainder without its leading zeros. *)
Definition rem_digits (st : rem_state) : res (list Z) :=
  let rl := if rm_rl st =? 0 then 1 else rm_rl st in
  rds (rm_r st) 0 (Z.of_nat (trim_size (rm_r st) (Z.to_nat rl))).

(** [r_signed && (rl > 1 || *r != 0)] *)
Definition rem_negative (st : rem_state) (r : list Z) : res bool :=
  if negb (rm_signed st) then Ok false
  else if zlen r >? 1 then Ok true
  else d ← rd r 0; Ok (negb (d =? 0)).

(** Rounds that are enough for [xl] digits. *)
Definition div_fuel (x : list Z) : nat := 2 * length x + 1.

Definition I_rem (x y : list Z) : res (list Z) :=
  st ← rem_loop (div_fuel x) y (mk_rem x (zlen x - zlen y) (zlen x) false);
  r ← rem_digits st;
  neg ← rem_negative st r;
  if neg : bool then I_sub y r else Ok r.

(** [I_div] has the variables of [I_rem] and [q], [qp] and [ql]. *)
Record quo_state := mk_quo { qt_q : list Z; qt_qp : Z; qt_ql : Z }.

(** [ql = D_sub(qp, ql, q0, qp)] or [ql = D_add(qp, ql, q0, qp)] *)
Definition quo_step (st : quo_state) (q0 : Z) (r_signed : bool) : res quo_state :=
  x ← rds (qt_q st) (qt_qp st) (qt_ql st);
  let stored := if r_signed then (borrow_loop x q0).1 else D_add x q0 in
  let ql := if r_signed then zlen (D_sub x q0) else zlen (D_add x q0) in
  '(q, _) ← wrs (qt_q st) (qt_qp st) stored;
  Ok (mk_quo q (qt_qp st) ql).

Fixpoint div_loop (fuel : nat) (y : list Z) (st : rem_state) (qs : quo_state) :
    res (rem_state * quo_state) :=
  match fuel with
  | O => NoFuel
  | S fuel =>
      '(q0, more) ← div_lead y (rm_r st) (rm_rp st);
      qs ← quo_step (mk_quo (qt_q qs) (qt_qp qs - more) (qt_ql qs + more)) q0 (rm_signed st);
      '(st, nnsz) ← rem_step y st q0 more;
      let qs := mk_quo (qt_q qs) (qt_qp qs - (zlen y - nnsz)) (qt_ql qs + (zlen y - nnsz)) in
      again ← rem_more y st;
      if again : bool then div_loop fuel y st qs else Ok (st, qs)
  end.

(** Adjust length: [ql] before the loop. *)
Definition div_ql (x y : list Z) : res Z :=
  b1 ← rd y (zlen y - 1);
  b2 ← rd y (zlen y - 2);
  a1 ← rd x (zlen x - 1);
  a2 ← rd x (zlen x - 2);
  Ok (if (b1 <? a1) || ((b1 =? a1) && (b2 <=? a2)) then 1 else 0).

(** The digits of the quotient and of the remainder. *)
Definition I_div (x y : list Z) : res (list Z * list Z) :=
  let d := zlen x - zlen y in
  ql ← div_ql x y;
  '(st, qs) ← div_loop (div_fuel x) y (mk_rem x d (zlen x) false)
    (mk_quo (replicate (Z.to_nat (d + 1)) 0) d ql);
  q ← rds (qt_q qs) 0 (qt_ql qs + qt_qp qs);
  r ← rem_digits st;
  neg ← rem_negative st r;
  if neg : bool then r ← I_sub y r; Ok (D_sub q 1, r) else Ok (q, r).

(** * Terms *)

Definition big_div (x y : Eterm) : res Eterm :=
  '(xs, xv) ← big_val x;
  '(ys, yv) ← big_val y;
  let sign := negb (eqb xs ys) in
  match yv with
  | [d] => '(q, _) ← D_div xv d; Ok (big_norm q sign)
  | _ => '(q, _) ← I_div xv yv; Ok (big_norm q sign)
  end.

Definition big_rem (x y : Eterm) : res Eterm :=
  '(sign, xv) ← big_val x;
  '(_, yv) ← big_val y;
  match yv with
  | [d] =>
      rem ← D_rem xv d;
      Ok (if IS_USMALL sign rem
          then make_small (if sign then - swrap 64 rem else rem)
          else Big sign [rem])
  | _ => r ← I_rem xv yv; Ok (big_norm r sign)
  end.

(** * Two digits: correctness *)

Lemma D2GT_spec a1 a0 b1 b0 :
  digit a0 → digit b0 → D2GT a1 a0 b1 b0 = (b1 * B + b0 <? a1 * B + a0).
Proof.
  intros Ha Hb. unfold D2GT.
  destruct (Z.gtb_spec a1 b1), (Z.eqb_spec a1 b1), (Z.gtb_spec a0 b0), (Z.ltb_spec (b1 * B + b0) (a1 * B + a0));
    simpl; lia || done.
Qed.

Lemma D2SUB_spec a1 a0 b1 b0 :
  digit a1 → digit a0 → digit b1 → digit b0 → b1 * B + b0 <= a1 * B + a0 →
  ∃ c1 c0, D2SUB a1 a0 b1 b0 = (c1, c0) ∧ digit c1 ∧ digit c0 ∧
    c1 * B + c0 = a1 * B + a0 - (b1 * B + b0).
Proof.
  intros H1 H0 G1 G0 Hle. unfold D2SUB.
  destruct (DSUB a0 b0) as [c0 bi] eqn:E0. apply DSUB_spec in E0 as (E0 & Hc0 & Hbi); [|done..].
  destruct (DSUBb a1 b1 bi) as [c1 b2] eqn:E1. apply DSUBb_spec in E1 as (E1 & Hc1 & Hb2); [|done..].
  exists c1, c0. split; [done|]. assert (b2 = 0) as -> by lia. lia.
Qed.

Lemma D2MULc_spec a b1 b0 :
  digit a → digit b1 → digit b0 → a * (b1 * B + b0) < B * B →
  ∃ t1 t0, D2MULc a b1 b0 0 = (0, t1, t0) ∧ digit t1 ∧ digit t0 ∧ t1 * B + t0 = a * (b1 * B + b0).
Proof.
  intros Ha H1 H0 Hlt. unfold D2MULc.
  destruct (DMULc a b0 0) as [d2 d0] eqn:E0. apply DMULc_spec in E0 as (E0 & Hd2 & Hd0); [|lia..].
  destruct (DMULc a b1 d2) as [d3 d1] eqn:E1. apply DMULc_spec in E1 as (E1 & Hd3 & Hd1); [|lia..].
  assert (d3 = 0) as -> by nia. exists d1, d0. split_and!; [done|lia..].
Qed.

(** One round: the product fits in two digits, and what is left is at most three
    quarters, or the last round has been done. *)
Lemma d2_quot_spec a1 a0 b1 b0 :
  digit a1 → digit a0 → digit b1 → digit b0 → 1 <= b1 → b1 * B + b0 <= a1 * B + a0 →
  ∃ q1, d2_quot a1 b1 = Ok q1 ∧ digit q1 ∧ q1 * (b1 * B + b0) < B * B ∧
    (4 * Z.abs (a1 * B + a0 - q1 * (b1 * B + b0)) <= 3 * (a1 * B + a0) ∨
     0 <= a1 * B + a0 - q1 * (b1 * B + b0) < b1 * B + b0).
Proof.
  intros Ha1 Ha0 Hb1 Hb0 Hpos Hge. unfold d2_quot, dquot, QUOT_LIM. rewrite !Z.gtb_ltb.
  assert (b1 <= a1) as Hle by nia.
  destruct (Z.eqb_spec b1 1) as [->|Hb]; simpl.
  { destruct (Z.ltb_spec 1 a1).
    - exists (a1 / 2). split; [done|]. assert (0 < a1 / 2 ∧ 2 * (a1 / 2) <= a1 <= 2 * (a1 / 2) + 1) by dlia.
      set (h := a1 / 2) in *. clearbody h. split; [lia|]. split; [nia|]. left. nia.
    - replace a1 with 1 in * by lia. rewrite andb_false_r by lia. exists 1. split; [done|].
      split; [lia|]. split; [lia|]. right. lia. }
  destruct (Z.ltb_spec 9223372036854775807 a1), (Z.ltb_spec b1 a1); simpl.
  2-4: destruct (Z.eqb_spec b1 0); [lia|]; eexists; (split; [done|]);
    pose proof (Z.div_mod a1 b1 ltac:(lia)) as E; pose proof (Z.mod_pos_bound a1 b1 ltac:(lia)) as Hm;
    set (q := a1 / b1) in *; set (m := a1 mod b1) in *; clearbody q m;
    assert (1 <= q) by nia; assert (2 * q <= b1 * q) by nia; assert (b1 <= b1 * q) by nia;
    assert (0 <= q * b0 <= q * (B - 1)) by nia;
    replace (q * (b1 * B + b0)) with (b1 * q * B + q * b0) by lia;
    set (S := b1 * q) in *; set (U := q * b0) in *.
  - rewrite dw_mod, Z.mod_small by lia. destruct (Z.eqb_spec (b1 + 1) 0); [lia|]. eexists. split; [done|].
    pose proof (Z.div_mod a1 (b1 + 1) ltac:(lia)) as E. pose proof (Z.mod_pos_bound a1 (b1 + 1) ltac:(lia)) as Hm.
    set (q := a1 / (b1 + 1)) in *. set (m := a1 mod (b1 + 1)) in *. clearbody q m.
    assert (1 <= q) by nia. assert (2 * q <= b1 * q) by nia. assert (b1 <= b1 * q) by nia.
    assert (0 <= q * b0 <= q * (B - 1)) by nia.
    replace (q * (b1 * B + b0)) with (b1 * q * B + q * b0) by lia.
    replace ((b1 + 1) * q) with (b1 * q + q) in E by lia.
    set (S := b1 * q) in *. set (U := q * b0) in *. clearbody S U. split; [lia|]. split; [lia|]. left. lia.
  - assert (q = 1) by nia. clearbody S U. split; [lia|]. split; [lia|].
    destruct (Z.le_gt_cases (S * B + U) (a1 * B + a0)); [right|left]; lia.
  - clearbody S U. split; [lia|]. split; [lia|]. destruct (Z.le_gt_cases (S * B + U) (a1 * B + a0)); [right|left]; lia.
  - clearbody S U. split; [lia|]. split; [lia|]. destruct (Z.le_gt_cases (S * B + U) (a1 * B + a0)); [right|left]; lia.
Qed.

(** The signed remainder [as_ * (a1*B + a0)] and the quotient [q], modulo the base. *)
Lemma d2_loop_spec fuel a1 a0 b1 b0 q as_ A :
  digit a1 → digit a0 → digit b1 → digit b0 → 1 <= b1 → digit q → as_ = 1 ∨ as_ = -1 →
  3 ^ Z.of_nat fuel * (a1 * B + a0) < 4 ^ Z.of_nat fuel * (b1 * B + b0) →
  (∃ k, A = (q + k * B) * (b1 * B + b0) + as_ * (a1 * B + a0)) →
  ∃ a1' a0' q' as', d2_loop fuel a1 a0 b1 b0 q as_ = Ok (a1', a0', q', as') ∧
    digit a1' ∧ digit a0' ∧ digit q' ∧ (as' = 1 ∨ as' = -1) ∧ a1' * B + a0' < b1 * B + b0 ∧
    ∃ k, A = (q' + k * B) * (b1 * B + b0) + as' * (a1' * B + a0').
Proof.
  intros Ha1 Ha0 Hb1 Hb0 Hpos. revert a1 a0 q as_ Ha1 Ha0.
  induction fuel as [|fuel IH]; intros a1 a0 q as_ Ha1 Ha0 Hq Has Hf [k EA]; cbn [d2_loop];
    unfold D2GTE, D2LT; rewrite D2GT_spec by done;
    destruct (Z.ltb_spec (a1 * B + a0) (b1 * B + b0)) as [Hlt|Hge]; cbn [negb].
  1,3: by eexists _, _, _, _; split_and!; eauto; lia.
  { change (Z.of_nat 0) with 0 in Hf. rewrite !Z.pow_0_r in Hf. lia. }
  destruct (d2_quot_spec a1 a0 b1 b0) as (q1 & -> & Hq1 & Hfit & Hleft); [done..|].
  rewrite bind_Ok. destruct (D2MULc_spec q1 b1 b0) as (t1 & t0 & -> & Ht1 & Ht0 & Et); [done..|].
  assert (∃ q' k', (if as_ <? 0 then dw (q - q1) else dw (q + q1)) = q' ∧
    digit q' ∧ q' + k' * B = q + k * B + as_ * q1) as (q' & k' & -> & Hq' & Eq).
  { destruct Has as [-> | ->]; cbn [Z.ltb Z.compare]; rewrite dw_mod; eexists; [exists (k + (q + q1) / B)|exists (k + (q - q1) / B)];
      (split; [done|]); (split; [apply Z.mod_pos_bound; lia|]); dlia. }
  rewrite D2GT_spec by done. set (V := b1 * B + b0) in *. clearbody V.
  rewrite Nat2Z.inj_succ, !Z.pow_succ_r in Hf by lia.
  pose proof (Z.pow_pos_nonneg 3 (Z.of_nat fuel) ltac:(lia) ltac:(lia)).
  pose proof (Z.pow_pos_nonneg 4 (Z.of_nat fuel) ltac:(lia) ltac:(lia)).
  pose proof (Z.pow_le_mono_l 3 4 (Z.of_nat fuel) ltac:(lia)).
  set (p3 := 3 ^ Z.of_nat fuel) in *. set (p4 := 4 ^ Z.of_nat fuel) in *. clearbody p3 p4.
  destruct (Z.ltb_spec (a1 * B + a0) (t1 * B + t0)) as [Ht|Ht].
  - destruct (D2SUB_spec t1 t0 a1 a0) as (c1 & c0 & -> & Hc1 & Hc0 & Ec); [done || lia..|].
    apply IH; [done|done|done|lia| |].
    + rewrite Ec. rewrite Et in *. destruct Hleft as [Hl|Hl]; [nia|lia].
    + exists k'. rewrite Ec, Et, Eq, EA. lia.
  - destruct (D2SUB_spec a1 a0 t1 t0) as (c1 & c0 & -> & Hc1 & Hc0 & Ec); [done || lia..|].
    apply IH; [done|done|done|lia| |].
    + rewrite Ec. rewrite Et in *. destruct Hleft as [Hl|Hl]; [nia|nia].
    + exists k'. rewrite Ec, Et, Eq, EA. lia.
Qed.

(** [D2DIVREM] divides, except that the quotient may be one too small and the remainder
    the divisor, see [d2divrem_inexact]. *)
Lemma D2DIVREM_spec a1 a0 b1 b0 :
  digit a1 → digit a0 → digit b1 → digit b0 → 1 <= b1 → b1 * B + b0 <= a1 * B + a0 →
  ∃ q r1 r0, D2DIVREM a1 a0 b1 b0 = Ok (q, r1, r0) ∧ digit q ∧ digit r1 ∧ digit r0 ∧
    a1 * B + a0 = q * (b1 * B + b0) + (r1 * B + r0) ∧ r1 * B + r0 <= b1 * B + b0.
Proof.
  intros Ha1 Ha0 Hb1 Hb0 Hpos Hge. unfold D2DIVREM.
  destruct (d2_loop_spec 160 a1 a0 b1 b0 0 1 (a1 * B + a0))
    as (c1 & c0 & q & as_ & -> & Hc1 & Hc0 & Hq & Has & Hlt & k & E); try done; [by left| |exists 0; lia|].
  { assert (3 ^ Z.of_nat 160 * (B * B) < 4 ^ Z.of_nat 160 * B) by (vm_compute; done).
    assert (0 < 3 ^ Z.of_nat 160) by (vm_compute; done). assert (0 < 4 ^ Z.of_nat 160) by (vm_compute; done).
    set (p3 := 3 ^ Z.of_nat 160) in *. set (p4 := 4 ^ Z.of_nat 160) in *. clearbody p3 p4. nia. }
  rewrite bind_Ok. destruct Has as [-> | ->]; cbn [Z.ltb Z.compare].
  - exists q, c1, c0. split; [done|]. assert (k = 0) as -> by nia. lia.
  - destruct (D2SUB_spec b1 b0 c1 c0) as (r1 & r0 & -> & Hr1 & Hr0 & Er); [done || lia..|].
    eexists _, _, _. split; [done|]. rewrite dw_mod. pose proof (Z.mod_pos_bound (q - 1) B ltac:(lia)) as Hm.
    split; [done|]. split; [lia|]. split; [lia|]. split; [|lia].
    assert (q - 1 + k * B = (q - 1) mod B + (k + (q - 1) / B) * B) as Ek by dlia.
    set (m := (q - 1) mod B) in *. set (k2 := k + (q - 1) / B) in *. clearbody m k2.
    assert (k2 = 0) as -> by nia. nia.
Qed.

Lemma d2divrem_inexact : D2DIVREM 14 (B - 5) 2 (B - 1) = Ok (4, 2, B - 1).
Proof. vm_compute. reflexivity. Qed.

(** * Subtracting a multiple *)

Lemma mulsub_loop_spec x y d c b :
  digits x → digits y → digit d → digit c → 0 <= b <= 1 → (length y <= length x)%nat →
  ∃ r c' b', mulsub_loop x y d c b = Ok (r, drop (length y) x, c', b') ∧ digits r ∧
    length r = length y ∧ digit c' ∧ 0 <= b' <= 1 ∧
    val r - Bp (length y) * (c' + b') = val (take (length y) x) - d * val y - c - b.
Proof.
  intros Hx Hy Hd. revert x c b Hx. induction Hy as [|yd y Hyd Hy IH]; intros x c b Hx Hc Hb Hl.
  { exists [], c, b. split_and!; [done|constructor|done|lia..|]. cbn [length]. rewrite take_0, Bp_0. cbn [val]. lia. }
  destruct x as [|xd x]; [simpl in Hl; lia|]. apply Forall_cons in Hx as [Hxd Hx]. cbn [mulsub_loop].
  destruct (DMULc d yd c) as [c1 c0] eqn:Em. apply DMULc_spec in Em as (Em & Hc1 & Hc0); [|done..].
  destruct (DSUBb xd c0 b) as [s b1] eqn:Es. apply DSUBb_spec in Es as (Es & Hs & Hb1); [|done..].
  destruct (IH x c1 b1 Hx Hc1 Hb1 ltac:(simpl in Hl; lia)) as (r & c' & b' & -> & Hr & Hlr & Hc' & Hb' & Hv).
  rewrite bind_Ok. eexists _, _, _. split; [reflexivity|].
  split_and!; [by constructor|simpl; lia|lia..|]. cbn [length firstn val]. rewrite Bp_S. lia.
Qed.

(** The digits stored are those of [x - d*y], modulo the base to the length of [x]. *)
Lemma D_mulsub_spec x d y :
  digits x → digits y → digit d → length x = length y ∨ length x = S (length y) →
  d * val y < val x + Bp (length x) →
  ∃ r, digits r ∧ length r = length x ∧
    ((d * val y <= val x ∧ D_mulsub x d y = Ok (r, Some (trim r)) ∧ val r = val x - d * val y) ∨
     (val x < d * val y ∧ D_mulsub x d y = Ok (r, None) ∧ val r = val x - d * val y + Bp (length x))).
Proof.
  intros Hx Hy Hd Hl Hfit. unfold D_mulsub.
  destruct (mulsub_loop_spec x y d 0 0 Hx Hy Hd ltac:(lia) ltac:(lia) ltac:(lia))
    as (r & c & b & -> & Hr & Hlr & Hc & Hb & Hv). rewrite bind_Ok.
  pose proof (val_take_drop (length y) x) as Hvx. rewrite length_take in Hvx.
  replace (length y `min` length x)%nat with (length y) in Hvx by lia.
  pose proof (val_bound r Hr) as Hbr. rewrite Hlr in Hbr. pose proof (Bp_pos (length y)).
  destruct Hl as [Hl|Hl].
  - rewrite drop_ge in * by lia. cbn [val] in Hvx. exists r. split; [done|]. split; [lia|]. rewrite Hl in *.
    set (P := Bp (length y)) in *. clearbody P. assert (c + b <= 1) by nia.
    destruct (Z.eqb_spec c 0), (Z.eqb_spec b 0); cbn [negb orb]; [left|right..];
      try (assert (c + b = 1) as E1 by lia; rewrite E1 in Hv); try (replace (c + b) with 0 in Hv by lia);
      (split; [lia|]); (split; [done|]); lia.
  - destruct (drop (length y) x) as [|xd [|? ?]] eqn:Ed; apply (f_equal length) in Ed as Ed';
      rewrite length_drop in Ed'; cbn [length] in Ed'; try lia. clear Ed'.
    assert (digit xd) as Hxd.
    { assert (digits (drop (length y) x)) as Hdx by by apply Forall_drop. rewrite Ed in Hdx. by inversion Hdx. }
    destruct (DSUBb xd c b) as [s b2] eqn:Es. apply DSUBb_spec in Es as (Es & Hs & Hb2); [|done..].
    exists (r ++ [s]). assert (digits (r ++ [s])) as Hrs by (apply Forall_app; split; [done|by apply Forall_singleton]).
    pose proof (val_bound _ Hrs) as Hbs. rewrite val_app, length_app, Hlr in *. cbn [val length] in *.
    replace (length y + 1)%nat with (S (length y)) in * by lia. rewrite Hl in *. rewrite Bp_S in *.
    split; [done|]. split; [done|]. set (P := Bp (length y)) in *. clearbody P.
    assert (val r + P * (s + B * 0) - B * P * b2 = val x - d * val y) as E2 by nia.
    destruct (Z.eqb_spec b2 0); cbn [negb]; [left|right; replace b2 with 1 in E2 by lia];
      (split; [nia|]); (split; [done|]); nia.
Qed.

(** * Parts of vectors *)

Lemma rds_nat l k n : (k + n <= length l)%nat → rds l (Z.of_nat k) (Z.of_nat n) = Ok (take n (drop k l)).
Proof.
  intros Hl. unfold rds, zlen. destruct (Z.eqb_spec (Z.of_nat n) 0) as [E|E].
  { by replace n with 0%nat by lia. }
  destruct (Z.ltb_spec 0 (Z.of_nat n)); [|lia]. destruct (Z.leb_spec 0 (Z.of_nat k)); [|lia].
  destruct (Z.leb_spec (Z.of_nat k + Z.of_nat n) (Z.of_nat (length l))); [|lia]. by rewrite !Nat2Z.id.
Qed.

Lemma rds0_nat l n : (n <= length l)%nat → rds l 0 (Z.of_nat n) = Ok (take n l).
Proof. intros. change 0 with (Z.of_nat 0). by rewrite rds_nat, drop_0 by lia. Qed.

Lemma wrs_nat l k s : (k + length s <= length l)%nat →
  ∃ z, wrs l (Z.of_nat k) s = Ok (take k l ++ s ++ drop (k + length s) l, z).
Proof.
  intros Hl. rewrite wrs_ok by (unfold zlen; lia). unfold splice. rewrite Nat2Z.id. by eexists.
Qed.

Lemma rd_nat l k : (k < length l)%nat → ∃ d, l !! k = Some d ∧ rd l (Z.of_nat k) = Ok d.
Proof.
  intros Hk. destruct (lookup_lt_is_Some_2 l k Hk) as [d E]. exists d. split; [done|].
  unfold rd. destruct (Z.ltb_spec (Z.of_nat k) 0); [lia|]. by rewrite Nat2Z.id, E.
Qed.

Lemma val_take_S l k d : l !! k = Some d → val (take (S k) l) = val (take k l) + Bp k * d.
Proof.
  intros E. rewrite (take_S_r _ _ _ E), val_app, length_take. apply lookup_lt_Some in E.
  replace (k `min` length l)%nat with k by lia. cbn [val]. lia.
Qed.

Lemma val_take_bound l k : digits l → 0 <= val (take k l) < Bp k.
Proof.
  intros Hl. pose proof (val_bound (take k l) ltac:(by apply Forall_take)).
  pose proof (Bp_mono (length (take k l)) k ltac:(rewrite length_take; lia)). lia.
Qed.

(** A small value is in the low digits. *)
Lemma val_take_small l n : digits l → val l < Bp n → val (take n l) = val l.
Proof.
  intros Hl Hv. destruct (decide (length l <= n)%nat) as [Hn|Hn]; [by rewrite take_ge|].
  pose proof (val_take_drop n l) as E. rewrite length_take in E.
  replace (n `min` length l)%nat with n in E by lia. pose proof (Bp_pos n).
  pose proof (val_bound (drop n l) ltac:(by apply Forall_drop)) as [Hd _].
  pose proof (val_take_bound l n Hl) as [Ht _]. assert (val (drop n l) = 0) as E0 by nia. rewrite E0 in E. lia.
Qed.

(** The number of digits from position [k] on that a value needs. *)
Definition needs (k m : nat) (v : Z) : Prop :=
  (m = 0%nat ∧ v < Bp k) ∨ ((0 < m)%nat ∧ Bp (k + m - 1) <= v < Bp (k + m)).

(** The test that turns [nnsz = 1] into 0. *)
Lemma nnsz_spec r k l n :
  digits r → (k < l <= length r)%nat → (0 < n)%nat → val (take l r) < Bp (k + n) →
  n = 1%nat ∨ Bp (k + n - 1) <= val (take l r) →
  ∃ zero m, (if Z.of_nat n =? 1 then d ← rd r (Z.of_nat k); Ok (d =? 0) else Ok false) = Ok zero ∧
    (if zero : bool then 0 else Z.of_nat n) = Z.of_nat m ∧ (m <= n)%nat ∧ needs k m (val (take l r)).
Proof.
  intros Hr Hk Hn Hv Hlow. destruct (Z.eqb_spec (Z.of_nat n) 1) as [E|E].
  - replace n with 1%nat in * by lia. destruct (rd_nat r k ltac:(lia)) as (d & Ed & ->). rewrite bind_Ok.
    exists (d =? 0), (if d =? 0 then 0%nat else 1%nat).
    assert (val (take l r) = val (take k r) + Bp k * d) as Ev.
    { rewrite <- val_take_S by done. replace (S k) with (k + 1)%nat by lia.
      rewrite <- (val_take_small (take l r) (k + 1)) by (done || by apply Forall_take).
      rewrite take_take. do 2 f_equal. lia. }
    pose proof (val_take_bound r k Hr). assert (digit d) by (by eapply Forall_lookup_1 in Ed; [|done]).
    pose proof (Bp_pos k). unfold needs. split; [done|].
    destruct (Z.eqb_spec d 0) as [->|]; (split; [done|]); (split; [lia|]); [left; lia|right].
    replace (k + 1 - 1)%nat with k by lia. split; [lia|]. split; [nia|done].
  - exists false, n. split; [done|]. split; [done|]. split; [lia|]. right. lia.
Qed.

Lemma take_splice (r s : list Z) k n :
  length s = n → (k + n <= length r)%nat →
  take (k + n) (take k r ++ s ++ drop (k + n) r) = take k r ++ s.
Proof.
  intros <- Hl. rewrite app_assoc, take_app_le by (rewrite length_app, length_take; lia).
  apply take_ge. rewrite length_app, length_take. lia.
Qed.

Lemma splice_digits (r s : list Z) k n :
  digits r → digits s → digits (take k r ++ s ++ drop n r).
Proof. intros. apply Forall_app. split; [by apply Forall_take|]. apply Forall_app. split; [done|by apply Forall_drop]. Qed.

Lemma val_segment r k n : (k + n <= length r)%nat →
  val (take (k + n) r) = val (take k r) + Bp k * val (take n (drop k r)).
Proof.
  intros Hl. rewrite <- take_take_drop, val_app, length_take. by replace (k `min` length r)%nat with k by lia.
Qed.

(** A size [n1] of the part from [k] on that is exact unless it is 1. *)
Definition sized (k n1 n : nat) (v : Z) : Prop :=
  (0 < n1 <= n)%nat ∧ v < Bp (k + n1) ∧ (n1 = 1%nat ∨ Bp (k + n1 - 1) <= v).

(** After [D_mulsub] without a borrow. *)
Lemma trim_sized low s k n :
  digits s → length s = n → (0 < n)%nat → 0 <= low < Bp k → sized k (length (trim s)) n (low + Bp k * val s).
Proof.
  intros Hs Hls Hn Hlow. pose proof (Bp_pos k).
  pose proof (trim_normal s ltac:(intros ->; simpl in *; lia)) as Ns. pose proof (trim_digits s Hs) as Ds.
  pose proof (val_bound _ Ds) as Bt. rewrite trim_val in Bt.
  assert (length (trim s) <= n)%nat by (unfold trim; rewrite length_take; lia).
  assert (0 < length (trim s))%nat by (destruct Ns as [Ns _], (trim s); [done|simpl; lia]).
  split; [lia|]. split; [rewrite Bp_add; nia|].
  destruct (decide (length (trim s) = 1%nat)); [by left|right].
  pose proof (normal_lower1 _ Ns Ds ltac:(lia)) as Hl1. rewrite trim_val in Hl1.
  replace (k + length (trim s) - 1)%nat with (k + (length (trim s) - 1))%nat by lia. rewrite Bp_add. nia.
Qed.

(** After a borrow: [Z_sub] over the whole remainder. *)
Lemma div_negate_spec r k n (sg : bool) :
  digits r → (0 < n)%nat → (k + n <= length r)%nat → val (take (k + n) r) ≠ 0 →
  ∃ r' n1, (x ← rds r 0 (Z.of_nat (k + n));
    '(r, _) ← wrs r 0 (zsub_loop x 0);
    Ok (r, if Z.of_nat n >? Z.of_nat (k + n) - zlen (Z_sub x)
           then Z.of_nat n - (Z.of_nat (k + n) - zlen (Z_sub x)) else 1, negb sg)) = Ok (r', Z.of_nat n1, negb sg) ∧ digits r' ∧ length r' = length r ∧
    val (take (k + n) r') = Bp (k + n) - val (take (k + n) r) ∧ sized k n1 n (val (take (k + n) r')).
Proof.
  intros Hr Hn Hl Hv. rewrite rds0_nat, bind_Ok by lia. set (x := take (k + n) r) in *.
  assert (length x = (k + n)%nat) as Hlx by (subst x; rewrite length_take; lia).
  assert (digits x) as Hx by by apply Forall_take.
  destruct (zsub_loop_spec x 0 Hx ltac:(lia)) as (Hz & Hlz & _).
  destruct (Z_sub_spec x Hx) as (Dz & Vz & Nz); [intros E; rewrite E in Hlx; simpl in Hlx; lia|done|].
  destruct (wrs_nat r 0 (zsub_loop x 0) ltac:(lia)) as [z Ez]. change (Z.of_nat 0) with 0 in Ez.
  rewrite Ez, bind_Ok, take_0, Hlz, Hlx. cbn [app Nat.add]. clear z Ez.
  set (t := Z_sub x) in *. pose proof (val_bound t Dz) as Bt. pose proof (val_bound x Hx) as Bx.
  assert (val t ≠ 0) as Nt by (rewrite Vz; lia). pose proof (normal_lower t Nz Dz Nt) as Lt.
  assert (0 < length t)%nat by (destruct Nz as [Nz _], t; [done|simpl; lia]).
  assert (length t <= k + n)%nat by (subst t; unfold Z_sub, trim; rewrite length_take; lia).
  assert (val (take (k + n) (zsub_loop x 0 ++ drop (k + n) r)) = val t) as E.
  { rewrite take_app_le, take_ge by lia. subst t. unfold Z_sub. by rewrite trim_val. }
  eexists _, (if (k <? length t)%nat then length t - k else 1)%nat. rewrite E. split_and!.
  - do 2 f_equal. f_equal. unfold zlen. rewrite Z.gtb_ltb.
    destruct (Nat.ltb_spec k (length t)), (Z.ltb_spec (Z.of_nat (k + n) - Z.of_nat (length t)) (Z.of_nat n)); lia.
  - apply Forall_app. split; [done|by apply Forall_drop].
  - rewrite length_app, length_drop. lia.
  - by rewrite Vz, Hlx.
  - unfold sized. destruct (Nat.ltb_spec k (length t)).
    + replace (k + (length t - k))%nat with (length t) by lia. split; [lia|]. split; [lia|by right].
    + pose proof (Bp_mono (length t) (k + 1) ltac:(lia)). split; [lia|]. split; [lia|by left].
Qed.

(** Reducing the remainder: its value becomes that of |R - q0 * y * B^k|, and the sign
    flips when the estimate was too large. *)
Lemma div_reduce_spec y r k n q0 sg :
  digits y → digits r → digit q0 → n = length y ∨ n = S (length y) → (0 < n)%nat →
  (k + n <= length r)%nat → q0 * val y < val (take n (drop k r)) + Bp n →
  ∃ r' m, div_reduce y r (Z.of_nat k) (Z.of_nat (k + n)) (Z.of_nat n) q0 sg =
      Ok (r', Z.of_nat m, if q0 * val y <=? val (take n (drop k r)) then sg else negb sg) ∧
    digits r' ∧ length r' = length r ∧ (m <= n)%nat ∧
    val (take (k + n) r') = Z.abs (val (take (k + n) r) - q0 * val y * Bp k) ∧
    needs k m (val (take (k + n) r')).
Proof.
  intros Hy Hr Hq Hn Hn0 Hl Hfit. unfold div_reduce. rewrite rds_nat, bind_Ok by done.
  pose proof (val_segment r k n Hl) as ER. set (x := take n (drop k r)) in *.
  assert (length x = n) as Hlx by (subst x; rewrite length_take, length_drop; lia).
  assert (digits x) as Hx by (by apply Forall_take, Forall_drop).
  destruct (D_mulsub_spec x q0 y Hx Hy Hq ltac:(lia) ltac:(by rewrite Hlx)) as (s & Hs & Hls & Hcase).
  rewrite Hlx in *. pose proof (val_take_bound r k Hr) as Blow. pose proof (Bp_pos k) as Bk.
  destruct (wrs_nat r k s ltac:(lia)) as [z Ew]. rewrite Hls in Ew.
  pose proof (splice_digits r s k (k + n) Hr Hs) as Hr1. pose proof (take_splice r s k n Hls Hl) as Et1.
  set (r1 := take k r ++ s ++ drop (k + n) r) in *.
  assert (length r1 = length r) as Hlr1 by (subst r1; rewrite !length_app, length_take, length_drop; lia).
  assert (val (take (k + n) r1) = val (take k r) + Bp k * val s) as Ev1.
  { rewrite Et1, val_app, length_take. by replace (k `min` length r)%nat with k by lia. }
  set (R := val (take (k + n) r)) in *. clearbody R. pose proof (Bp_pos n).
  destruct Hcase as [(Hle & -> & Ev)|(Hlt & -> & Ev)]; rewrite bind_Ok, Ew, bind_Ok; cbn match.
  - destruct (Z.leb_spec (q0 * val y) (val x)); [|lia]. rewrite bind_Ok. unfold zlen.
    destruct (trim_sized (val (take k r)) s k n) as (? & ? & ?); [done..|]. rewrite <- Ev1 in *.
    destruct (nnsz_spec r1 k (k + n) (length (trim s))) as (zero & m & -> & Em & Hm & Hneed); [done|lia|lia|done..|].
    rewrite bind_Ok, Em. exists r1, m. split_and!; [done|done|done|lia| |done].
    rewrite Ev1, Ev, ER, Z.abs_eq by nia. lia.
  - destruct (Z.leb_spec (q0 * val y) (val x)); [lia|].
    destruct (div_negate_spec r1 k n sg) as (r2 & n1 & -> & Hr2 & Hlr2 & EV & Hn1 & Hup & Hlow); [done|done|lia|nia|].
    destruct (nnsz_spec r2 k (k + n) n1) as (zero & m & Ez & Em & Hm & Hneed); [done|lia|lia|done..|].
    rewrite bind_Ok, Ez, bind_Ok, Em. exists r2, m. split_and!; [done|done|lia|lia| |done].
    rewrite EV, Ev1, Ev, ER, Bp_add, Z.abs_neq by nia. lia.
Qed.

(** * Estimates *)

(** The estimate does not exceed the quotient by the leading digit, and how much it
    leaves. *)
Lemma div_estimate_spec a1 a2 b1 b2 :
  digit a1 → digit a2 → digit b1 → digit b2 → 1 <= b1 →
  ∃ q0 more, div_estimate a1 a2 b1 b2 = Ok (q0, more) ∧ digit q0 ∧
    (more = false ↔ b1 * B + b2 <= a1 * B + a2) ∧ (1 <= a1 → 1 <= q0) ∧
    if more : bool then
      a1 < b1 ∧ q0 * b1 <= a1 * B + a2 < q0 * b1 + b1 ∨ a1 = b1 ∧ a2 < b2 ∧ q0 = B - 1
    else 1 <= q0 ∧ q0 * (b1 * B + b2) <= a1 * B + a2 ∧
      (a1 = b1 ∧ q0 = 1 ∨ b1 < a1 ∧ a1 * B + a2 - q0 * (b1 * B + b2) <= b1 * B + b2).
Proof.
  intros Ha1 Ha2 Hb1 Hb2 Hpos. unfold div_estimate. rewrite Z.gtb_ltb.
  destruct (Z.ltb_spec b1 a1) as [Hlt|Hle].
  { unfold DDIV2. destruct (D2DIVREM_spec a1 a2 b1 b2) as (q & r1 & r0 & -> & Hq & Hr1 & Hr0 & E & Hr); [done..|lia|].
    rewrite !bind_Ok. exists q, false. split; [done|]. split; [done|]. split; [split; [lia|done]|].
    assert (1 <= q) by nia. lia. }
  destruct (Z.ltb_spec a1 b1) as [Hlt'|Hge].
  { unfold DDIV. destruct (DDIVREM_spec a1 a2 b1) as (q & r & -> & E & Hr & Hq); [done|done|lia|lia|].
    rewrite !bind_Ok. exists q, true. split; [done|]. split; [done|]. split; [split; [done|lia]|].
    split; [intros; nia|]. left. nia. }
  assert (a1 = b1) as -> by lia. destruct (Z.leb_spec b2 a2).
  - exists 1, false. split; [done|]. split; [lia|]. split; [split; [lia|done]|]. split; [lia|]. split; [lia|].
    split; [lia|]. by left.
  - exists D_MASK, true. unfold D_MASK. split; [done|]. split; [lia|]. split; [split; [done|lia]|]. split; [lia|].
    by right.
Qed.

(** The two leading digits of a vector. *)
Lemma two_leading (l : list Z) : (2 <= length l)%nat → ∃ m d2 d1, l = m ++ [d2; d1].
Proof.
  intros Hl. destruct l as [|d1 l _] using rev_ind; [simpl in Hl; lia|].
  destruct l as [|d2 m _] using rev_ind; [simpl in Hl; lia|]. exists m, d2, d1. by rewrite <- app_assoc.
Qed.

Lemma rd_take (r l : list Z) i : take (length l) r = l → (i < length l)%nat → rd r (Z.of_nat i) = rd l (Z.of_nat i).
Proof.
  intros E Hi. unfold rd. destruct (_ <? 0); [done|]. rewrite Nat2Z.id. rewrite <- E, lookup_take_lt by done. done.
Qed.

Lemma rd_leading m d2 d1 :
  rd (m ++ [d2; d1]) (Z.of_nat (length m + 1)) = Ok d1 ∧ rd (m ++ [d2; d1]) (Z.of_nat (length m)) = Ok d2.
Proof.
  unfold rd. destruct (Z.ltb_spec (Z.of_nat (length m + 1)) 0); [lia|]. destruct (Z.ltb_spec (Z.of_nat (length m)) 0); [lia|].
  rewrite !Nat2Z.id, !lookup_app_r by lia. replace (length m + 1 - length m)%nat with 1%nat by lia.
  by rewrite Nat.sub_diag.
Qed.

Lemma val_leading m d2 d1 : val (m ++ [d2; d1]) = val m + Bp (length m) * (d1 * B + d2).
Proof. rewrite val_app. cbn [val]. lia. Qed.

(** What the estimate leaves, for a divisor [Y] with the leading digits [b1] and [b2] and
    a part [P] of the remainder with the leading digits [a1] and [a2]. *)
Lemma estimate_bounds a1 a2 b1 b2 q0 (more : bool) W ylow plow :
  digit a1 → digit a2 → digit b1 → digit b2 → 1 <= b1 → digit q0 → 0 < W → 0 <= ylow < W →
  0 <= plow < (if more then B * W else W) →
  (if more then a1 < b1 ∧ q0 * b1 <= a1 * B + a2 < q0 * b1 + b1 ∨ a1 = b1 ∧ a2 < b2 ∧ q0 = B - 1
   else 1 <= q0 ∧ q0 * (b1 * B + b2) <= a1 * B + a2 ∧
     (a1 = b1 ∧ q0 = 1 ∨ b1 < a1 ∧ a1 * B + a2 - q0 * (b1 * B + b2) <= b1 * B + b2)) →
  let Y := ylow + W * (b1 * B + b2) in
  let P := plow + (if more then B * W else W) * (a1 * B + a2) in
  q0 * b1 * (B * W) <= P ∧
  if more then Z.abs (P - q0 * Y) < B * (B * W)
  else 1 <= q0 ∧ (Z.abs (P - q0 * Y) < B * W ∨
    ((b1 + 1) * (B * W) <= P ∧ Z.abs (P - q0 * Y) < (b1 + 1) * (B * W))).
Proof.
  intros Ha1 Ha2 Hb1 Hb2 Hpos Hq HW Hyl Hpl Hest. cbn zeta.
  assert (∀ u v, u <= v → W * u <= W * v) as HM by (intros; apply Z.mul_le_mono_nonneg_l; lia).
  pose proof (Z.mul_nonneg_nonneg q0 ylow ltac:(lia) ltac:(lia)).
  assert (q0 * ylow < B * W) by nia.
  assert (W * (q0 * b2) <= W * (B * (B - 1) - q0)) by (apply HM; nia).
  assert (q0 * ylow <= q0 * W) by nia.
  pose proof (Z.mul_nonneg_nonneg W (q0 * b2) ltac:(lia) ltac:(apply Z.mul_nonneg_nonneg; lia)). destruct more.
  - destruct Hest as [(Hlt & Hle & Hup)|(-> & Hlt & ->)].
    + pose proof (HM _ _ Hle). pose proof (HM (a1 * B + a2 + 1) (q0 * b1 + b1) ltac:(lia)).
      pose proof (HM b1 (B - 1) ltac:(lia)). split; lia.
    + pose proof (HM (a2 + 1) b2 ltac:(lia)). pose proof (HM b1 (B - 1) ltac:(lia)). pose proof (HM 0 b1 ltac:(lia)).
      pose proof (HM 0 a2 ltac:(lia)). pose proof (HM b2 (B - 1) ltac:(lia)). split; lia.
  - destruct Hest as (Hq1 & Hle & Hcase). pose proof (HM _ _ Hle). split; [lia|]. split; [done|].
    destruct Hcase as [[-> ->]|[Hlt Hr]]; [left|right].
    + pose proof (HM a2 (B - 1) ltac:(lia)). lia.
    + pose proof (HM (b1 + 1) a1 ltac:(lia)). pose proof (HM 0 a2 ltac:(lia)). pose proof (HM _ _ Hr).
      pose proof (HM (b2 + 1) B ltac:(lia)). split; lia.
Qed.

Lemma segment_leading (r rm : list Z) k n a2 a1 :
  take (k + n) r = rm ++ [a2; a1] → (k <= length rm)%nat → take n (drop k r) = drop k rm ++ [a2; a1].
Proof.
  intros E Hk. rewrite <- drop_app_le, <- E by done. rewrite skipn_firstn_comm. f_equal. lia.
Qed.

(** * The quotient in place *)

Lemma val_drop_0 (l : list Z) n k : digits l → (n <= k)%nat → val (drop n l) = 0 → val (drop k l) = 0.
Proof.
  intros Hl Hn E. replace (drop k l) with (drop (k - n) (drop n l)) by (rewrite drop_drop; f_equal; lia).
  assert (digits (drop n l)) as Hd by by apply Forall_drop. set (m := drop n l) in *. clearbody m. clear Hl.
  pose proof (val_take_drop (k - n) m) as Hv. pose proof (val_bound (take (k - n) m) ltac:(by apply Forall_take)).
  pose proof (val_bound (drop (k - n) m) ltac:(by apply Forall_drop)). pose proof (Bp_pos (length (take (k - n) m))). nia.
Qed.

Lemma val_take_0 (l : list Z) n k : digits l → (k <= n)%nat → val (take n l) = 0 → val (take k l) = 0.
Proof.
  intros Hl Hn E. replace (take k l) with (take k (take n l)) by (rewrite take_take; f_equal; lia).
  assert (digits (take n l)) as Hd by by apply Forall_take. set (m := take n l) in *. clearbody m. clear Hl.
  pose proof (val_take_drop k m) as Hv. pose proof (val_bound (take k m) ltac:(by apply Forall_take)).
  pose proof (val_bound (drop k m) ltac:(by apply Forall_drop)). pose proof (Bp_pos (length (take k m))). nia.
Qed.

(** The quotient so far: the digits from [k] to [top], in normal form; all others are 0. *)
Definition quo_at (q : list Z) (k top : nat) : Prop :=
  digits q ∧ (k < top <= length q)%nat ∧ val (take k q) = 0 ∧ val (drop top q) = 0 ∧
  normal (take (top - k) (drop k q)).

Lemma quo_at_val q k top : quo_at q k top → val q = Bp k * val (take (top - k) (drop k q)).
Proof.
  intros (_ & Hk & Hlow & Hup & _). rewrite (val_take_drop top q), Hup.
  replace top with (k + (top - k))%nat at 1 by lia. rewrite val_segment by lia. lia.
Qed.

(** With a nonzero quotient, more low digits may be counted. *)
Lemma quo_at_lower q k j top : quo_at q k top → (j <= k)%nat → val q ≠ 0 → quo_at q j top.
Proof.
  intros Hq Hj Hne. pose proof (quo_at_val _ _ _ Hq) as Ev. destruct Hq as (Hd & Hk & Hlow & Hup & Hn).
  split_and!; [done|lia|lia|by apply (val_take_0 _ k)|done|].
  assert (digits (take (top - k) (drop k q))) as Hs by by apply Forall_take, Forall_drop.
  pose proof (normal_lower _ Hn Hs ltac:(intros E; rewrite E in Ev; lia)) as Hl.
  assert (take (top - j) (drop j q) = take (k - j) (drop j q) ++ take (top - k) (drop k q)) as ->.
  { rewrite <- (take_drop (k - j) (drop j q)) at 1. rewrite drop_drop.
    replace (j + (k - j))%nat with k by lia. rewrite take_app_ge by (rewrite length_take; lia).
    do 2 f_equal. rewrite length_take, length_drop. lia. }
  destruct Hn as [Hne' Hn]. split; [by destruct (take (k - j) (drop j q))|].
  rewrite last_app_ne by done. intros E0. specialize (Hn E0).
  destruct (take (top - k) (drop k q)) as [|d [|? ?]] eqn:Et; simpl in Hn; try lia. simpl in E0. injection E0 as ->.
  exfalso. apply Hne. rewrite Ev. cbn [val]. lia.
Qed.

(** Storing the digits [s], of which the first [t] count, over the quotient. *)
Lemma quo_write q k top s t :
  quo_at q k top → digits s → (top - k <= length s)%nat → (k + length s <= length q)%nat →
  (0 < t <= length s)%nat → val (take t s) = val s → normal (take t s) →
  let q' := take k q ++ s ++ drop (k + length s) q in
  quo_at q' k (k + t) ∧ length q' = length q ∧ val q' = Bp k * val s.
Proof.
  intros (Hd & Hk & Hlow & Hup & _) Hs Hl1 Hl2 Ht Ev Hn q'.
  assert (length (take k q) = k) as Hlk by (rewrite length_take; lia).
  assert (length q' = length q) as Hlq by (subst q'; rewrite !length_app, Hlk, length_drop; lia).
  assert (drop k q' = s ++ drop (k + length s) q) as Ek by (subst q'; by rewrite drop_app_length').
  assert (val (drop (k + length s) q) = 0) as Hz by (apply (val_drop_0 q top); [done|lia|done]).
  assert (val (drop t s) = 0) as Hts.
  { pose proof (val_take_drop t s) as E. rewrite Ev in E. pose proof (Bp_pos (length (take t s))). nia. }
  assert (quo_at q' k (k + t)) as HQ.
  { split_and!; [by apply splice_digits|lia|lia| | |].
    - subst q'. by rewrite take_app_length'.
    - rewrite <- drop_drop, Ek, drop_app_le, val_app by lia. rewrite Hts, Hz. lia.
    - rewrite Ek. replace (k + t - k)%nat with t by lia. by rewrite take_app_le by lia. }
  split; [done|]. split; [done|]. rewrite (quo_at_val _ _ _ HQ), Ek. replace (k + t - k)%nat with t by lia.
  by rewrite take_app_le, Ev by lia.
Qed.

(** The value with the sign of [r_signed]. *)
Definition signed (sg : bool) (v : Z) : Z := if sg then - v else v.

Lemma quo_step_spec q k top q0 (sg : bool) :
  quo_at q k top → digit q0 →
  (if sg then q0 * Bp k <= val q else val q + q0 * Bp k < Bp (length q)) →
  ∃ q' top', quo_step (mk_quo q (Z.of_nat k) (Z.of_nat (top - k))) q0 sg =
      Ok (mk_quo q' (Z.of_nat k) (Z.of_nat (top' - k))) ∧
    quo_at q' k top' ∧ length q' = length q ∧ val q' = val q + signed sg q0 * Bp k.
Proof.
  intros HQ Hq0 Hb. pose proof (quo_at_val _ _ _ HQ) as Ev. pose proof HQ as (Hd & Hk & Hlow & Hup & Hn).
  unfold quo_step. cbn [qt_q qt_qp qt_ql]. rewrite rds_nat, bind_Ok by lia.
  set (x := take (top - k) (drop k q)) in *. assert (digits x) as Hx by by apply Forall_take, Forall_drop.
  assert (length x = top - k)%nat as Hlx by (subst x; rewrite length_take, length_drop; lia).
  pose proof (Bp_pos k) as Bk. destruct sg; cbn [signed].
  - assert (q0 <= val x) as Hle by (rewrite Ev in Hb; nia).
    destruct (D_sub_spec x q0 Hx (proj1 Hn) Hq0 Hle) as (_ & Vs & Ns). unfold D_sub in *.
    destruct (borrow_loop x q0) as [s c] eqn:E. apply borrow_loop_spec in E as (Hs & _ & Hls & _); [|done|done].
    cbn [fst]. destruct (wrs_nat q k s ltac:(lia)) as [z ->]. rewrite bind_Ok. rewrite trim_val in Vs.
    assert (0 < length (trim s) <= length s)%nat as Hlt.
    { destruct Ns as [Ns _]. split; [destruct (trim s); [done|simpl; lia]|unfold trim; rewrite length_take; lia]. }
    assert (take (length (trim s)) s = trim s) as Et.
    { unfold trim. rewrite length_take. f_equal. pose proof (trim_size_le s (length s)). lia. }
    destruct (quo_write q k top s (length (trim s)) HQ Hs) as (HQ' & Hl' & Hv'); [lia|lia|done|by rewrite Et, trim_val|by rewrite Et|].
    eexists _, (k + length (trim s))%nat. split; [|split; [exact HQ'|]].
    + do 2 f_equal. unfold zlen. lia.
    + split; [done|]. rewrite Hv', Vs, Ev. lia.
  - destruct (D_add_spec x q0 Hx (proj1 Hn) Hq0) as (Hs & Vs & Hls). pose proof (D_add_normal x q0 Hn Hx Hq0) as Ns.
    set (s := D_add x q0) in *.
    assert (k + length s <= length q)%nat as Hfit.
    { destruct (decide (k + length s <= length q)%nat); [done|]. exfalso.
      assert (1 < length s)%nat by lia. pose proof (normal_lower1 s Ns Hs ltac:(lia)) as Hlow'.
      assert (Bp (length q) <= Bp (k + (length s - 1))) by (apply Bp_mono; lia). rewrite Bp_add in *. nia. }
    destruct (wrs_nat q k s ltac:(lia)) as [z ->]. rewrite bind_Ok.
    destruct (quo_write q k top s (length s) HQ Hs) as (HQ' & Hl' & Hv'); [lia|lia|lia|by rewrite take_ge|by rewrite take_ge|].
    eexists _, (k + length s)%nat. split; [|split; [exact HQ'|]].
    + do 2 f_equal. unfold zlen. lia.
    + split; [done|]. rewrite Hv', Vs, Ev. lia.
Qed.

Section Division.
(** The divisor, with its two leading digits. *)
Context (ym : list Z) (b2 b1 : Z).
Abbreviation y := (ym ++ [b2; b1]).
Abbreviation yl := (length ym + 2)%nat.
Abbreviation Y := (val (ym ++ [b2; b1])).
(** [Bp (yl - 2)] *)
Abbreviation W := (Bp (length ym)).
Context (Hy : digits y) (Hb1 : 1 <= b1).

Lemma y_facts : digit b1 ∧ digit b2 ∧ length y = yl ∧ 0 < W ∧ Y = val ym + W * (b1 * B + b2) ∧ 0 <= val ym < W.
Proof.
  pose proof Hy as H. apply Forall_app in H as [Hm H]. apply Forall_cons in H as [H2 H]. apply Forall_cons in H as [H1 _].
  pose proof (val_bound ym Hm). pose proof (Bp_pos (length ym)). rewrite val_leading, length_app. cbn [length]. lia.
Qed.

Lemma Bp_yl : Bp (yl - 1) = B * W ∧ Bp yl = B * (B * W).
Proof. replace (yl - 1)%nat with (S (length ym)) by lia. replace yl with (S (S (length ym))) by lia. by rewrite !Bp_S. Qed.

Lemma Y_bounds : B * W <= Y < (b1 + 1) * (B * W) ∧ b1 * (B * W) <= Y.
Proof. destruct y_facts as (? & ? & _ & ? & -> & ?). nia. Qed.

(** What the estimate promises of the part [P] of the remainder. *)
Definition good_estimate (q0 : Z) (more : nat) (P : Z) : Prop :=
  q0 * b1 * (B * W) <= P ∧
  if (more =? 1)%nat then Z.abs (P - q0 * Y) < B * (B * W)
  else 1 <= q0 ∧ (Z.abs (P - q0 * Y) < B * W ∨
    ((b1 + 1) * (B * W) <= P ∧ Z.abs (P - q0 * Y) < (b1 + 1) * (B * W))).

Lemma lead_spec r rl :
  digits r → (yl <= rl <= length r)%nat → (rl = yl → Y <= val (take rl r)) →
  ∃ q0 more, div_lead y r (Z.of_nat (rl - yl)) = Ok (q0, Z.of_nat more) ∧ digit q0 ∧ (more <= 1)%nat ∧
    (yl + more <= rl)%nat ∧ (Bp (rl - 1) <= val (take rl r) → 1 <= q0) ∧
    (rl = length r → div_ql r y = Ok (1 - Z.of_nat more)) ∧
    good_estimate q0 more (val (take (yl + more) (drop (rl - yl - more) r))).
Proof.
  intros Hr Hrl Hge. destruct y_facts as (D1 & D2 & Hly & HW & EY & Hym).
  assert (length (take rl r) = rl) as Hlt by (rewrite length_take; lia).
  destruct (two_leading (take rl r)) as (rm & a2 & a1 & Er); [lia|].
  assert (length rm = rl - 2)%nat as Hlm by (rewrite Er, length_app in Hlt; simpl in Hlt; lia).
  assert (digits (rm ++ [a2; a1])) as Hd by (rewrite <- Er; by apply Forall_take).
  apply Forall_app in Hd as [Hdm Hd]. apply Forall_cons in Hd as [A2 Hd]. apply Forall_cons in Hd as [A1 _].
  pose proof (rd_leading ym b2 b1) as [Ey1 Ey2]. pose proof (rd_leading rm a2 a1) as [Er1 Er2].
  rewrite Hlm in Er1, Er2. rewrite <- Er in Er1, Er2.
  rewrite <- (rd_take r (take rl r)) in Er1, Er2 by (rewrite Hlt; done || lia).
  destruct (div_estimate_spec a1 a2 b1 b2) as (q0 & more & Eest & Hq & Hmore & Hq1 & Hest); [lia..|].
  pose proof (val_bound rm Hdm) as Brm. rewrite Hlm in Brm.
  assert (val (take rl r) = val rm + Bp (rl - 2) * (a1 * B + a2)) as ER by (rewrite Er, val_leading, Hlm; done).
  assert (yl + (if more then 1 else 0) <= rl)%nat as Hmr.
  { destruct more; [|lia]. destruct (decide (rl = yl)) as [->|]; [|lia]. specialize (Hge eq_refl).
    rewrite ER, EY in Hge. replace (yl - 2)%nat with (length ym) in * by lia.
    assert (b1 * B + b2 <= a1 * B + a2) as Hc%Hmore by nia. done. }
  exists q0, (if more then 1 else 0)%nat. split_and!; [|lia|lia|destruct more; lia|done| | |].
  - unfold div_lead. unfold zlen. rewrite Hly.
    replace (Z.of_nat yl - 1) with (Z.of_nat (length ym + 1)) by lia. replace (Z.of_nat yl - 2) with (Z.of_nat (length ym)) by lia.
    rewrite Ey1, Ey2, !bind_Ok.
    replace (Z.of_nat (rl - yl) + Z.of_nat yl - 1) with (Z.of_nat (rl - 2 + 1)) by lia.
    replace (Z.of_nat (rl - yl) + Z.of_nat yl - 2) with (Z.of_nat (rl - 2)) by lia.
    rewrite Er1, Er2, !bind_Ok, Eest, bind_Ok. by destruct more.
  - intros Hlow. apply Hq1. rewrite ER in Hlow. replace (rl - 1)%nat with (S (rl - 2)) in Hlow by lia. rewrite Bp_S in Hlow. nia.
  - intros ->. unfold div_ql, zlen. rewrite Hly.
    replace (Z.of_nat yl - 1) with (Z.of_nat (length ym + 1)) by lia. replace (Z.of_nat yl - 2) with (Z.of_nat (length ym)) by lia.
    replace (Z.of_nat (length r) - 1) with (Z.of_nat (length r - 2 + 1)) by lia.
    replace (Z.of_nat (length r) - 2) with (Z.of_nat (length r - 2)) by lia.
    rewrite Ey1, Ey2, Er1, Er2, !bind_Ok. f_equal.
    destruct (Z.ltb_spec b1 a1), (Z.eqb_spec b1 a1), (Z.leb_spec b2 a2), more; simpl; try done; exfalso;
      destruct Hmore as [M1 M2]; first [specialize (M1 eq_refl); lia | specialize (M2 ltac:(lia)); done].
  - rewrite (segment_leading r rm _ _ a2 a1) by (rewrite <- ?Er; try f_equal; destruct more; lia).
    set (k := (rl - yl - (if more then 1 else 0))%nat). rewrite val_leading, length_drop, Hlm.
    pose proof (val_bound (drop k rm) ltac:(by apply Forall_drop)) as Bk. rewrite length_drop, Hlm in Bk.
    assert (Bp (rl - 2 - k) = if more then B * W else W) as EBk.
    { subst k. destruct more; [rewrite <- Bp_S|]; f_equal; lia. }
    rewrite EBk in *. unfold good_estimate. rewrite EY.
    pose proof (estimate_bounds a1 a2 b1 b2 q0 more W (val ym) (val (drop k rm)) A1 A2 D1 D2 Hb1 Hq HW Hym Bk Hest) as HE.
    by destruct more.
Qed.

(** Rounds left: two per digit of the remainder, and one more while its leading digit is
    above that of the divisor. *)
Definition rounds (rl : nat) (R : Z) : nat :=
  if (b1 + 1) * Bp (rl - 1) <=? R then (2 * rl + 1)%nat else (2 * rl)%nat.

Lemma needs_le k m n v : needs k m v → v < Bp (k + n) → (m <= n)%nat.
Proof.
  intros [[-> _]|(Hm & Hlow & _)] Hv; [lia|]. destruct (decide (m <= n)%nat); [done|].
  pose proof (Bp_mono (k + n) (k + m - 1) ltac:(lia)). lia.
Qed.

Lemma rounds_decrease q0 more k m P R R' rl :
  good_estimate q0 more P → (more <= 1)%nat → rl = (k + (yl + more))%nat → needs k m R' →
  Bp k * P <= R → (∀ E, Z.abs (P - q0 * Y) < E → R' < Bp k * E) →
  (m <= yl)%nat ∧ (k + m <= rl)%nat ∧ (rounds (k + m) R' < rounds rl R)%nat.
Proof.
  intros [_ Hgood] Hmore -> Hneed HR HR'. destruct y_facts as (D1 & _ & _ & HW & _). pose proof (Bp_pos k) as Bk.
  destruct Bp_yl as [E1 E2]. destruct (Nat.eqb_spec more 1) as [->|Hm0].
  { apply HR' in Hgood. rewrite <- E2, <- Bp_add in Hgood. pose proof (needs_le _ _ _ _ Hneed Hgood).
    split_and!; [lia..|]. unfold rounds. repeat case_match; lia. }
  replace more with 0%nat by lia. rewrite Nat.add_0_r. destruct Hgood as [_ [Hgood|[Hbig Hgood]]].
  - apply HR' in Hgood. rewrite <- E1, <- Bp_add in Hgood. pose proof (needs_le _ _ _ _ Hneed Hgood).
    split_and!; [lia..|]. unfold rounds. repeat case_match; lia.
  - apply HR' in Hgood. assert (R' < Bp (k + yl)) as Hup.
    { rewrite Bp_add, E2. assert ((b1 + 1) * (B * W) <= B * (B * W)) by nia. nia. }
    pose proof (needs_le _ _ _ _ Hneed Hup). split_and!; [lia..|]. unfold rounds.
    destruct (decide (m = yl)) as [->|]; [|repeat case_match; lia].
    replace (k + yl - 1)%nat with (k + (yl - 1))%nat by lia. rewrite Bp_add, E1.
    destruct (Z.leb_spec ((b1 + 1) * (Bp k * (B * W))) R'); [lia|].
    destruct (Z.leb_spec ((b1 + 1) * (Bp k * (B * W))) R); [lia|nia].
Qed.

Lemma good_estimate_bounds q0 more P :
  good_estimate q0 more P → digit q0 →
  Z.abs (P - q0 * Y) < Bp yl ∧ 0 <= q0 * Y <= 2 * P ∧ (1 <= q0 → 1 <= q0 * Y < 2 * P).
Proof.
  intros [Hbase Hgood] Hq. destruct Bp_yl as [_ ->]. destruct y_facts as (D1 & _ & _ & HW & _).
  pose proof Y_bounds as [[BY1 BY2] BY3]. set (V := B * W) in *. assert (0 < V) as HV by lia. clearbody V.
  assert (q0 * (b1 * V) <= q0 * Y <= q0 * (b1 * V + V)) as [Y1 Y2] by (split; apply Z.mul_le_mono_nonneg_l; lia).
  assert (q0 * V <= q0 * (b1 * V)) by (apply Z.mul_le_mono_nonneg_l; nia).
  assert ((b1 + 1) * V <= B * V) by (apply Z.mul_le_mono_nonneg_r; lia).
  split; [|split; [|intros Hq1; split]].
  - destruct (more =? 1)%nat; [done|]. lia.
  - nia.
  - nia.
  - assert (q0 * Y < q0 * ((b1 + 1) * V)) by (apply Z.mul_lt_mono_pos_l; lia). lia.
Qed.

(** An empty remainder leaves a zero digit behind. *)
Definition low_zero (r : list Z) (rl : nat) : Prop := rl = 0%nat → val (take 1 r) = 0.

(** One round of the loops on the remainder. *)
Lemma rem_step_spec r rl sg q0 more :
  let k := (rl - yl - more)%nat in
  let R := val (take rl r) in
  digits r → (yl + more <= rl <= length r)%nat → (more <= 1)%nat → digit q0 →
  good_estimate q0 more (val (take (yl + more) (drop k r))) →
  ∃ r' m sg', let R' := val (take (k + m) r') in
    rem_step y (mk_rem r (Z.of_nat rl - Z.of_nat yl) (Z.of_nat rl) sg) q0 (Z.of_nat more) =
      Ok (mk_rem r' (Z.of_nat (k + m) - Z.of_nat yl) (Z.of_nat (k + m)) sg', Z.of_nat m) ∧
    digits r' ∧ length r' = length r ∧ (m <= yl)%nat ∧ (k + m <= rl)%nat ∧
    signed sg R = signed sg q0 * Bp k * Y + signed sg' R' ∧
    q0 * Bp k * (b1 * (B * W)) <= R ∧ R' <= R ∧ (1 <= q0 → R' < R) ∧
    (rounds (k + m) R' < rounds rl R)%nat ∧ low_zero r' (k + m).
Proof.
  intros k R Hr Hrl Hm Hq Hgood. destruct y_facts as (_ & _ & Hly & _). pose proof Hgood as [Hbase _].
  pose proof (val_segment r k (yl + more) ltac:(lia)) as ER. pose proof (val_take_bound r k Hr) as Blow.
  replace (k + (yl + more))%nat with rl in ER by lia. fold R in ER.
  set (P := val (take (yl + more) (drop k r))) in *. pose proof (Bp_pos k) as Bk.
  assert (∀ u v, u <= v → Bp k * u <= Bp k * v) as HM by (intros; apply Z.mul_le_mono_nonneg_l; lia).
  destruct (good_estimate_bounds q0 more P Hgood Hq) as (Hfit & [T0 T2] & T3). set (T := q0 * Y) in *.
  assert (Bp yl <= Bp (yl + more)) by (apply Bp_mono; lia).
  destruct (div_reduce_spec y r k (yl + more) q0 sg) as (r' & m & E & Hr' & Hl' & _ & EV & Hneed);
    [done|done|lia|rewrite Hly; lia|lia|lia|fold P T; lia|].
  fold P T in E, EV. replace (k + (yl + more))%nat with rl in E, EV, Hneed by lia. fold R in EV.
  pose proof (HM _ _ T2). pose proof (HM _ _ T0). pose proof (HM _ _ Hbase).
  assert ((T <= P → Bp k * T <= Bp k * P) ∧ (P < T → Bp k * P + Bp k <= Bp k * T)) as [Hpos Hneg].
  { split; intros; [by apply HM|]. pose proof (HM (P + 1) T ltac:(lia)). lia. }
  destruct (rounds_decrease q0 more k m P R (val (take rl r')) rl) as (Hmy & Hmr & Hrounds); [done|done|lia|done|lia| |].
  { intros X HX. fold T in HX. rewrite EV, ER. pose proof (HM (P - T + 1) X ltac:(lia)). pose proof (HM (T - P + 1) X ltac:(lia)). lia. }
  assert (val (take (k + m) r') = val (take rl r')) as ET.
  { rewrite <- (val_take_small (take rl r') (k + m)); [rewrite take_take; do 2 f_equal; lia|by apply Forall_take|].
    destruct Hneed as [[-> Hn]|Hn]; [by rewrite Nat.add_0_r|lia]. }
  exists r', m, (if T <=? P then sg else negb sg). rewrite ET. cbn zeta. split_and!; try done.
  - unfold rem_step. cbn [rm_r rm_rp rm_rl rm_signed]. unfold zlen. rewrite Hly.
    replace (Z.of_nat rl - Z.of_nat yl - Z.of_nat more) with (Z.of_nat k) by lia.
    replace (Z.of_nat yl + Z.of_nat more) with (Z.of_nat (yl + more)) by lia.
    rewrite E, bind_Ok. do 3 f_equal; lia.
  - assert (∀ s, signed s q0 * Bp k * Y = signed s (Bp k * T)) as -> by (intros []; unfold signed; subst T; lia).
    rewrite EV, ER. unfold signed. destruct (Z.leb_spec T P), sg; cbn [negb]; lia.
  - lia.
  - rewrite EV. lia.
  - intros Hq1. destruct (T3 Hq1) as [T4 T5]. rewrite EV. pose proof (HM _ _ T4). pose proof (HM (T + 1) (2 * P) ltac:(lia)). lia.
  - intros E0. rewrite E0, take_0 in ET. apply (val_take_0 r' rl); [done|lia|done].
Qed.

(** * The loops *)

Lemma rem_more_spec r rl rp sg :
  digits r → (rl <= length r)%nat →
  rem_more y (mk_rem r rp (Z.of_nat rl) sg) =
  Ok (bool_decide ((yl < rl)%nat ∨ rl = yl ∧ Y <= val (take rl r))).
Proof.
  intros Hr Hl. destruct y_facts as (_ & _ & Hly & _). unfold rem_more. cbn [rm_r rm_rl].
  rewrite rds0_nat, bind_Ok by done. f_equal. unfold I_comp. rewrite length_take, Hly.
  replace (rl `min` length r)%nat with rl by lia. rewrite Z.geb_leb.
  destruct (Nat.ltb_spec rl yl); [rewrite bool_decide_false by lia; done|].
  destruct (Nat.ltb_spec yl rl); [rewrite bool_decide_true by lia; done|].
  rewrite I_comp_rev_spec, !rev_involutive; [|by apply Forall_rev, Forall_take|by apply Forall_rev|rewrite !length_rev, length_take; lia].
  destruct (Z.compare_spec (val (take rl r)) Y); case_bool_decide; done || lia.
Qed.

(** The loop runs while the remainder is at least the divisor. *)
Definition at_head (r : list Z) (rl : nat) : Prop :=
  (yl <= rl <= length r)%nat ∧ (rl = yl → Y <= val (take rl r)).

Lemma rem_more_cases r rl rp sg :
  digits r → (rl <= length r)%nat →
  rem_more y (mk_rem r rp (Z.of_nat rl) sg) = Ok true ∧ at_head r rl ∨
  rem_more y (mk_rem r rp (Z.of_nat rl) sg) = Ok false ∧ (rl <= yl)%nat ∧ val (take rl r) < Y.
Proof.
  intros Hr Hl. rewrite rem_more_spec by done. case_bool_decide as Hc; [left|right]; (split; [done|]).
  - split; [lia|]. lia.
  - split; [lia|]. destruct (decide (rl = yl)); [lia|]. pose proof (val_take_bound r rl Hr).
    pose proof (Bp_mono rl (yl - 1) ltac:(lia)). destruct Bp_yl as [E _]. pose proof Y_bounds. lia.
Qed.

Lemma rem_loop_spec fuel r rl sg :
  digits r → at_head r rl → (rounds rl (val (take rl r)) <= fuel)%nat →
  ∃ r' rl' sg' q, rem_loop fuel y (mk_rem r (Z.of_nat rl - Z.of_nat yl) (Z.of_nat rl) sg) =
      Ok (mk_rem r' (Z.of_nat rl' - Z.of_nat yl) (Z.of_nat rl') sg') ∧
    digits r' ∧ (rl' <= yl)%nat ∧ (rl' <= length r')%nat ∧ length r' = length r ∧ val (take rl' r') < Y ∧ low_zero r' rl' ∧
    signed sg (val (take rl r)) = q * Y + signed sg' (val (take rl' r')).
Proof.
  revert r rl sg. induction fuel as [|fuel IH]; intros r rl sg Hr [Hrl Hge] Hf.
  { unfold rounds in Hf. destruct (_ <=? _); lia. }
  cbn [rem_loop rm_r rm_rp]. destruct (lead_spec r rl Hr Hrl Hge) as (q0 & more & El & Hq & Hm & Hmr & _ & _ & Hgood).
  replace (Z.of_nat (rl - yl)) with (Z.of_nat rl - Z.of_nat yl) in El by lia. rewrite El, bind_Ok.
  destruct (rem_step_spec r rl sg q0 more Hr ltac:(lia) Hm Hq Hgood)
    as (r' & m & sg' & E & Hr' & Hl' & Hmy & Hk & Hval & _ & _ & _ & Hrd & Hlz).
  rewrite E, bind_Ok. set (rl' := (rl - yl - more + m)%nat) in *.
  destruct (rem_more_cases r' rl' (Z.of_nat rl' - Z.of_nat yl) sg' Hr' ltac:(lia)) as [[-> Hh]|(-> & Hle & Hlt)]; rewrite bind_Ok.
  - destruct (IH r' rl' sg' Hr' Hh ltac:(lia)) as (r2 & rl2 & sg2 & q & -> & Hr2 & Hle2 & Hl2 & Hl2' & Hlt2 & Hlz2 & Hv2).
    exists r2, rl2, sg2, (signed sg q0 * Bp (rl - yl - more) + q). split_and!; [done|done|lia|lia|lia|done|done|].
    rewrite Hval, Hv2. lia.
  - exists r', rl', sg', (signed sg q0 * Bp (rl - yl - more)). split_and!; done || lia.
Qed.

(** What the loop of [I_div] keeps: dividend, quotient and remainder, and that the
    quotient does not outgrow its vector. *)
Definition div_inv (X Q R : Z) (sg : bool) : Prop :=
  X = Q * Y + signed sg R ∧ Q * (b1 * (B * W)) <= X.

Lemma div_iter r rl sg q top X q0 more :
  let k := (rl - yl - more)%nat in
  let R := val (take rl r) in
  digits r → (yl + more <= rl <= length r)%nat → (more <= 1)%nat → digit q0 →
  good_estimate q0 more (val (take (yl + more) (drop k r))) →
  quo_at q k top → 0 < X < Bp (length q) * (B * W) → div_inv X (val q) R sg → R < X ∨ R = X ∧ 1 <= q0 →
  ∃ r' m sg' q' top', let R' := val (take (k + m) r') in
    quo_step (mk_quo q (Z.of_nat k) (Z.of_nat (top - k))) q0 sg =
      Ok (mk_quo q' (Z.of_nat k) (Z.of_nat (top' - k))) ∧
    rem_step y (mk_rem r (Z.of_nat rl - Z.of_nat yl) (Z.of_nat rl) sg) q0 (Z.of_nat more) =
      Ok (mk_rem r' (Z.of_nat (k + m) - Z.of_nat yl) (Z.of_nat (k + m)) sg', Z.of_nat m) ∧
    digits r' ∧ length r' = length r ∧ length q' = length q ∧ (m <= yl)%nat ∧ (k + m <= rl)%nat ∧
    quo_at q' k top' ∧ val q' ≠ 0 ∧ div_inv X (val q') R' sg' ∧ R' < X ∧
    (rounds (k + m) R' < rounds rl R)%nat ∧ low_zero r' (k + m).
Proof.
  intros k R Hr Hrl Hm Hq Hgood HQ HX [HI Hcap] HR. pose proof Y_bounds as [[BY1 _] _].
  destruct y_facts as (_ & _ & _ & HW & _).
  destruct (rem_step_spec r rl sg q0 more Hr Hrl Hm Hq Hgood)
    as (r' & m & sg' & E & Hr' & Hl' & Hmy & Hk & Hval & Hbase & Hle & Hlt & Hrd & Hlz).
  fold k R in E, Hr', Hk, Hval, Hbase, Hle, Hlt, Hrd. set (R' := val (take (k + m) r')) in *.
  assert (0 <= R' ∧ 0 <= R) as [HR0 HR1] by (split; apply val_take_bound; done).
  assert (R' < X) as HRX by (destruct HR as [|[-> Hq1]]; [lia|by apply Hlt]).
  pose proof (Bp_pos k) as Bk. set (c := q0 * Bp k) in *. assert (0 <= c) as Hc by (subst c; nia).
  replace (signed sg q0 * Bp k) with (signed sg c) in Hval by (subst c; unfold signed; destruct sg; lia).
  set (V := B * W) in *. assert (X = (val q + signed sg c) * Y + signed sg' R') as HI' by lia.
  pose proof (val_bound q ltac:(apply HQ)) as [Hq0 _]. assert (V <= b1 * V <= Y) as [BV1 BV2] by (pose proof Y_bounds; nia).
  assert ((val q + signed sg c) * (b1 * V) <= X) as Hcap'.
  { pose proof (Z.mul_nonneg_nonneg c (b1 * V) Hc ltac:(lia)). destruct sg; cbn [signed] in *; [lia|].
    pose proof (Z.mul_le_mono_nonneg_l _ _ (val q) Hq0 BV2). lia. }
  destruct (quo_step_spec q k top q0 sg HQ Hq) as (q' & top' & Eq & HQ' & Hlq & Hvq).
  { fold c. destruct sg; cbn [signed] in *.
    - apply (Zmult_le_reg_r _ _ Y); [lia|]. destruct sg'; cbn [signed] in *; lia.
    - pose proof (Z.mul_le_mono_nonneg_l _ _ (val q + c) ltac:(lia) BV1).
      apply (Zmult_lt_reg_r _ _ V); [lia|]. lia. }
  replace (signed sg q0 * Bp k) with (signed sg c) in Hvq by (subst c; unfold signed; destruct sg; lia).
  exists r', m, sg', q', top'. cbn zeta. fold R'. rewrite Hvq. split_and!; try done.
  intros E0. rewrite E0 in HI'. destruct sg'; cbn [signed] in HI'; lia.
Qed.

Lemma div_loop_spec fuel r rl sg q top X :
  digits r → at_head r rl → (rounds rl (val (take rl r)) <= fuel)%nat →
  (∀ q0 more, div_lead y r (Z.of_nat (rl - yl)) = Ok (q0, Z.of_nat more) → (yl + more <= rl)%nat →
     quo_at q (rl - yl - more) top) →
  0 < X < Bp (length q) * (B * W) → div_inv X (val q) (val (take rl r)) sg →
  val (take rl r) < X ∨ val (take rl r) = X ∧ Bp (rl - 1) <= X →
  ∃ r' rl' sg' q' top', let R' := val (take rl' r') in
    div_loop fuel y (mk_rem r (Z.of_nat rl - Z.of_nat yl) (Z.of_nat rl) sg)
      (mk_quo q (Z.of_nat rl - Z.of_nat yl) (Z.of_nat top - (Z.of_nat rl - Z.of_nat yl))) =
    Ok (mk_rem r' (Z.of_nat rl' - Z.of_nat yl) (Z.of_nat rl') sg',
        mk_quo q' (Z.of_nat rl' - Z.of_nat yl) (Z.of_nat top' - (Z.of_nat rl' - Z.of_nat yl))) ∧
    digits r' ∧ (rl' <= yl)%nat ∧ (rl' <= length r')%nat ∧ length r' = length r ∧ R' < Y ∧ R' < X ∧
    low_zero r' rl' ∧ quo_at q' 0 top' ∧ X = val q' * Y + signed sg' R'.
Proof.
  revert r rl sg q top. induction fuel as [|fuel IH]; intros r rl sg q top Hr [Hrl Hge] Hf HQ HX HI HR.
  { unfold rounds in Hf. destruct (_ <=? _); lia. }
  cbn [div_loop rm_r rm_rp rm_signed qt_q qt_qp qt_ql].
  destruct (lead_spec r rl Hr Hrl Hge) as (q0 & more & El & Hq & Hm & Hmr & Hq1 & _ & Hgood).
  specialize (HQ q0 more El Hmr). pose proof HQ as (_ & Hk & _).
  destruct (div_iter r rl sg q top X q0 more Hr ltac:(lia) Hm Hq Hgood HQ HX HI)
    as (r' & m & sg' & q' & top' & Eq & Er & Hr' & Hl' & Hlq & Hmy & Hkm & HQ' & Hne & HI' & HRX & Hrd & Hlz).
  { destruct HR as [|[E ?]]; [by left|right]. split; [done|]. apply Hq1. by rewrite E. }
  replace (Z.of_nat (rl - yl)) with (Z.of_nat rl - Z.of_nat yl) in El by lia. rewrite El, bind_Ok.
  replace (Z.of_nat rl - Z.of_nat yl - Z.of_nat more) with (Z.of_nat (rl - yl - more)) by lia.
  replace (Z.of_nat top - (Z.of_nat rl - Z.of_nat yl) + Z.of_nat more) with (Z.of_nat (top - (rl - yl - more))) by lia.
  rewrite Eq, bind_Ok, Er, bind_Ok. cbn [qt_q qt_qp qt_ql]. set (k := (rl - yl - more)%nat) in *.
  destruct y_facts as (_ & _ & Hly & _). unfold zlen. rewrite Hly. pose proof HQ' as (_ & Hk' & _).
  replace (Z.of_nat k - (Z.of_nat yl - Z.of_nat m)) with (Z.of_nat (k + m) - Z.of_nat yl) by lia.
  replace (Z.of_nat (top' - k) + (Z.of_nat yl - Z.of_nat m)) with (Z.of_nat top' - (Z.of_nat (k + m) - Z.of_nat yl)) by lia.
  destruct (rem_more_cases r' (k + m) (Z.of_nat (k + m) - Z.of_nat yl) sg' Hr' ltac:(lia)) as [[-> Hh]|(-> & Hle & Hlt)]; rewrite bind_Ok.
  - destruct (IH r' (k + m)%nat sg' q' top' Hr' Hh ltac:(lia)) as (r2 & rl2 & sg2 & q2 & top2 & H2); [|by rewrite Hlq|done|by left|].
    { intros q1 more1 _ Hm1. apply (quo_at_lower _ k); [done|lia|done]. }
    exists r2, rl2, sg2, q2, top2. rewrite <- Hl'. exact H2.
  - exists r', (k + m)%nat, sg', q', top'. cbn zeta. split_and!; try done; [lia|by apply (quo_at_lower _ k); [|lia|]|apply HI'].
Qed.

End Division.

(** * Remainder and quotient of the whole division *)

Lemma rem_digits_spec r rl rp sg :
  digits r → r ≠ [] → (rl <= length r)%nat → low_zero r rl →
  ∃ t, rem_digits (mk_rem r rp (Z.of_nat rl) sg) = Ok t ∧ digits t ∧ normal t ∧
    val t = val (take rl r) ∧ (length t <= Nat.max 1 rl)%nat.
Proof.
  intros Hr Hne Hl Hz. unfold rem_digits. cbn [rm_r rm_rl]. set (n := Nat.max 1 rl).
  assert ((if Z.of_nat rl =? 0 then 1 else Z.of_nat rl) = Z.of_nat n) as ->.
  { subst n. destruct (Z.eqb_spec (Z.of_nat rl) 0); lia. }
  rewrite Nat2Z.id. pose proof (trim_size_le r n) as Ht.
  assert (0 < length r)%nat by (destruct r; [done|simpl; lia]).
  rewrite rds0_nat by lia. eexists. split; [done|]. split; [by apply Forall_take|].
  split; [apply trim_size_normal; lia|]. rewrite trim_size_val, length_take by lia. split; [|lia].
  subst n. destruct (decide (rl = 0)%nat) as [->|]; [exact (Hz eq_refl)|]. by rewrite Nat.max_r by lia.
Qed.

Lemma rem_negative_spec r rp rl sg t :
  digits t → normal t → rem_negative (mk_rem r rp rl sg) t = Ok (sg && negb (val t =? 0)).
Proof.
  intros Ht [Hne Hn]. unfold rem_negative. cbn [rm_signed]. destruct sg; [|done]. cbn [negb andb].
  rewrite Z.gtb_ltb. destruct t as [|d [|d2 t]]; [done| |].
  - change (zlen [d]) with 1. change (rd [d] 0) with (Ok d). cbn [val]. by rewrite Z.mul_0_r, Z.add_0_r.
  - destruct (Z.ltb_spec 1 (zlen (d :: d2 :: t))); [|unfold zlen in *; simpl in *; lia].
    pose proof (normal_lower1 (d :: d2 :: t) (conj Hne Hn) Ht ltac:(simpl; lia)) as Hlow.
    pose proof (Bp_pos (length (d :: d2 :: t) - 1)). destruct (Z.eqb_spec (val (d :: d2 :: t)) 0); [lia|done].
Qed.

(** A divisor of at least two digits, in normal form. *)
Lemma divisor_split y :
  digits y → normal y → (2 <= length y)%nat → ∃ ym b2 b1, y = ym ++ [b2; b1] ∧ 1 <= b1.
Proof.
  intros Hd [_ Hn] Hl. destruct (two_leading y Hl) as (ym & b2 & b1 & ->). exists ym, b2, b1. split; [done|].
  apply Forall_app in Hd as [_ Hd]. apply Forall_cons in Hd as [_ Hd]. apply Forall_cons in Hd as [Hd _].
  change [b2; b1] with ([b2] ++ [b1]) in Hn. rewrite app_assoc, last_snoc in Hn. destruct (decide (b1 = 0)) as [->|]; [|lia].
  specialize (Hn eq_refl). rewrite !length_app in Hn. simpl in Hn. lia.
Qed.

Lemma dividend_length x y :
  digits x → digits y → normal y → (2 <= length y)%nat → val y <= val x → (length y <= length x)%nat.
Proof.
  intros Hx Hy Ny Hl Hle. pose proof (normal_lower1 y Ny Hy ltac:(lia)). pose proof (val_bound x Hx).
  destruct (decide (length y <= length x)%nat); [done|]. pose proof (Bp_mono (length x) (length y - 1) ltac:(lia)). lia.
Qed.

(** The last correction: a negative remainder is subtracted from the divisor. *)
Lemma div_correct X Q Y R (sg : bool) :
  0 <= R < Y → X = Q * Y + signed sg R →
  let neg := sg && negb (R =? 0) in
  X / Y = (if neg then Q - 1 else Q) ∧ X mod Y = (if neg then Y - R else R).
Proof.
  intros HR E neg. set (q := if neg then Q - 1 else Q). set (r := if neg then Y - R else R).
  assert (0 <= r < Y ∧ X = Y * q + r) as [Hr E2].
  { subst q r neg. destruct sg, (Z.eqb_spec R 0); cbn [signed andb negb] in *; lia. }
  split; symmetry; [by apply (Z.div_unique_pos _ _ _ r)|by apply (Z.mod_unique_pos _ _ q)].
Qed.

(** [I_rem] returns the remainder, in normal form. *)
Lemma I_rem_spec x y :
  digits x → digits y → normal y → (2 <= length y)%nat → val y <= val x →
  ∃ r, I_rem x y = Ok r ∧ digits r ∧ normal r ∧ val r = val x mod val y.
Proof.
  intros Hx Hy Ny Hl Hle. pose proof (dividend_length x y Hx Hy Ny Hl Hle) as Hlx. unfold I_rem.
  destruct (divisor_split y Hy Ny Hl) as (ym & b2 & b1 & -> & Hb1).
  destruct (y_facts ym b2 b1 Hy Hb1) as (_ & _ & Hly & _). rewrite Hly in Hl, Hlx.
  destruct (rem_loop_spec ym b2 b1 Hy Hb1 (div_fuel x) x (length x) false Hx) as (r & rl & sg & q & E & Hr & Hrl & Hrl' & Hlr & Hlt & Hlz & Ev).
  { split; [lia|]. intros _. by rewrite take_ge by lia. }
  { unfold rounds, div_fuel. destruct (_ <=? _); lia. }
  rewrite take_ge in Ev by lia. unfold zlen at 1 2 3. rewrite Hly, E, bind_Ok.
  destruct (rem_digits_spec r rl (Z.of_nat rl - Z.of_nat (length ym + 2)) sg) as (t & -> & Ht & Nt & Vt & Lt);
    [done|intros ->; simpl in *; lia|lia|done|].
  rewrite bind_Ok, rem_negative_spec, bind_Ok by done. rewrite <- Vt in Hlt, Ev. pose proof (val_bound t Ht).
  destruct (div_correct (val x) q (val (ym ++ [b2; b1])) (val t) sg ltac:(lia) Ev) as [_ ->].
  destruct (sg && negb (val t =? 0)).
  - destruct (I_sub_spec (ym ++ [b2; b1]) t Hy Ht (proj1 Nt) ltac:(lia) ltac:(lia)) as (r2 & -> & ? & ? & ?). eauto 10.
  - eauto 10.
Qed.

(** The quotient before the first round. *)
Lemma quo_at_zeros n k : (k < n)%nat → quo_at (replicate n 0) k (k + 1).
Proof.
  intros Hk. assert (∀ m, val (replicate m 0) = 0) as Hz by (intros; apply zeros_val, Forall_replicate; done).
  split_and!.
  - apply Forall_replicate. lia.
  - lia.
  - rewrite length_replicate. lia.
  - by rewrite take_replicate.
  - by rewrite drop_replicate.
  - rewrite drop_replicate, take_replicate. by replace ((k + 1 - k) `min` (n - k))%nat with 1%nat by lia.
Qed.

(** [I_div] returns quotient and remainder, both in normal form. *)
Lemma I_div_spec x y :
  digits x → normal x → digits y → normal y → (2 <= length y)%nat → val y <= val x →
  ∃ q r, I_div x y = Ok (q, r) ∧ digits q ∧ normal q ∧ digits r ∧ normal r ∧
    val q = val x / val y ∧ val r = val x mod val y.
Proof.
  intros Hx Nx Hy Ny Hl Hle. pose proof (dividend_length x y Hx Hy Ny Hl Hle) as Hlx. unfold I_div.
  destruct (divisor_split y Hy Ny Hl) as (ym & b2 & b1 & -> & Hb1).
  destruct (y_facts ym b2 b1 Hy Hb1) as (_ & _ & Hly & HW & _). rewrite Hly in Hl, Hlx. set (yl := (length ym + 2)%nat) in *.
  assert (at_head ym b2 b1 x (length x)) as Hh by (split; [lia|]; intros _; by rewrite take_ge by lia).
  destruct (lead_spec ym b2 b1 Hy Hb1 x (length x) Hx ltac:(lia) (proj2 Hh)) as (q0 & more & El & _ & Hm & Hmr & _ & Eql & _).
  rewrite (Eql eq_refl), bind_Ok. unfold zlen. rewrite Hly. fold yl. fold yl in El, Hmr.
  set (k := (length x - yl - more)%nat). set (n := Z.to_nat (Z.of_nat (length x) - Z.of_nat yl + 1)).
  assert (n = length x - yl + 1)%nat as En by lia. pose proof (val_bound x Hx) as Bx.
  assert (val (replicate n 0) = 0) as Hz by (apply zeros_val, Forall_replicate; done).
  replace (1 - Z.of_nat more) with (Z.of_nat (k + 1) - (Z.of_nat (length x) - Z.of_nat yl)) by lia.
  pose proof (Y_bounds ym b2 b1 Hy Hb1) as [[BY _] _].
  destruct (div_loop_spec ym b2 b1 Hy Hb1 (div_fuel x) x (length x) false (replicate n 0) (k + 1)%nat (val x) Hx Hh)
    as (r & rl & sg & q & top & E & Hr & Hrl & Hrl' & Hlr & Hlt & HltX & Hlz & HQ & Ev).
  { unfold rounds, div_fuel. destruct (_ <=? _); lia. }
  { intros q1 more1 E1 _. fold yl in E1. rewrite El in E1. injection E1 as _ E1. replace more1 with more by lia.
    apply quo_at_zeros. lia. }
  { rewrite length_replicate. split; [lia|]. destruct (Bp_yl ym) as [<- _]. rewrite <- Bp_add.
    replace (n + (length ym + 2 - 1))%nat with (length x) by lia. lia. }
  { rewrite take_ge by lia. rewrite Hz. split; cbn [signed]; lia. }
  { right. rewrite take_ge by lia. split; [done|]. apply normal_lower1; [done..|lia]. }
  fold yl in E. rewrite E, bind_Ok. cbn [qt_q qt_qp qt_ql].
  replace (Z.of_nat top - (Z.of_nat rl - Z.of_nat yl) + (Z.of_nat rl - Z.of_nat yl)) with (Z.of_nat top) by lia.
  pose proof (quo_at_val _ _ _ HQ) as EQ. destruct HQ as (Hq & Htop & _ & _ & Nq).
  rewrite Nat.sub_0_r, drop_0, Bp_0, Z.mul_1_l in *. rewrite rds0_nat, bind_Ok by lia. rewrite EQ in Ev.
  assert (digits (take top q)) as Hq' by by apply Forall_take. set (t := take top q) in *.
  destruct (rem_digits_spec r rl (Z.of_nat rl - Z.of_nat yl) sg) as (rt & -> & Ht & Nt & Vt & Lt);
    [done|intros ->; simpl in *; lia|lia|done|].
  rewrite bind_Ok, rem_negative_spec, bind_Ok by done. rewrite <- Vt in Hlt, HltX, Ev. pose proof (val_bound rt Ht).
  pose proof (val_bound t Hq'). destruct (div_correct (val x) (val t) (val (ym ++ [b2; b1])) (val rt) sg ltac:(lia) Ev) as [-> ->].
  destruct (sg && negb (val rt =? 0)) eqn:Eneg.
  - destruct (I_sub_spec (ym ++ [b2; b1]) rt Hy Ht (proj1 Nt) ltac:(lia) ltac:(lia)) as (r2 & -> & ? & ? & ?).
    rewrite bind_Ok. destruct (D_sub_spec t 1 Hq' (proj1 Nq) ltac:(lia)) as (? & ? & ?); [|eauto 12].
    assert (sg = true) as -> by (by destruct sg). cbn [signed] in Ev. nia.
  - eauto 12.
Qed.

(** * Terms *)

Lemma sval_quot s s' x y q :
  0 <= val x → 0 < val y → val q = val x / val y →
  sval (negb (eqb s s')) q = Z.quot (sval s x) (sval s' y).
Proof.
  intros Hx Hy E. unfold sval. rewrite <- Z.quot_div_nonneg in E by lia. rewrite E.
  destruct s, s'; cbn [eqb negb]; rewrite ?Z.quot_opp_opp, ?Z.quot_opp_l, ?Z.quot_opp_r by lia; done.
Qed.

Lemma sval_rem s s' x y r :
  0 <= val x → 0 < val y → val r = val x mod val y → sval s r = Z.rem (sval s x) (sval s' y).
Proof.
  intros Hx Hy E. unfold sval. rewrite <- Z.rem_mod_nonneg in E by lia. rewrite E.
  destruct s, s'; rewrite ?Z.rem_opp_opp, ?Z.rem_opp_l, ?Z.rem_opp_r by lia; done.
Qed.

Lemma sval_abs s v : digits v → Z.abs (sval s v) = val v.
Proof. intros Hv. pose proof (val_bound v Hv). unfold sval. destruct s; lia. Qed.

Lemma singleton_or_two (v : list Z) : v ≠ [] → (∃ d, v = [d]) ∨ (2 <= length v)%nat.
Proof. destruct v as [|d [|]]; [done|left; by exists d|right; simpl; lia]. Qed.

(** [big_div] and [big_rem] divide truncating towards zero. *)
Lemma big_div_spec x y a b :
  bignum x a → bignum y b → b ≠ 0 → Z.abs b <= Z.abs a → computes (big_div x y) (Z.quot a b).
Proof.
  intros (s & v & -> & (Hd & Hn & _) & <-) (s' & w & -> & (Hd' & Hn' & _) & <-). rewrite !sval_abs by done.
  intros Hb Hle. assert (0 < val w) as Hw by (pose proof (val_bound w Hd'); unfold sval in Hb; destruct s'; lia).
  unfold big_div. cbn [big_val]. rewrite !bind_Ok. destruct (singleton_or_two w (proj1 Hn')) as [[d ->]|Hl].
  - assert (0 < d < B) as Hdd by (apply Forall_cons in Hd' as [Hd' _]; cbn [val] in Hw; lia).
    destruct (D_div_spec v d Hd (proj1 Hn) Hdd) as (q & r & -> & Hq & Ev & Hr & Nq). rewrite bind_Ok.
    apply computes_norm; [done|apply Nq; [done|lia]|]. apply sval_quot; [lia|done|].
    cbn [val]. apply (Z.div_unique_pos _ _ _ r); lia.
  - destruct (I_div_spec v w) as (q & r & E & Hq & Nq & _ & _ & Vq & _); [done..|].
    destruct w as [|d [|d' w]]; [simpl in Hl; lia..|]. rewrite E, bind_Ok.
    apply computes_norm; [done..|]. by apply sval_quot; [lia|..].
Qed.

Lemma big_rem_spec x y a b :
  bignum x a → bignum y b → b ≠ 0 → Z.abs b <= Z.abs a → computes (big_rem x y) (Z.rem a b).
Proof.
  intros (s & v & -> & (Hd & Hn & _) & <-) (s' & w & -> & (Hd' & Hn' & _) & <-). rewrite !sval_abs by done.
  intros Hb Hle. assert (0 < val w) as Hw by (pose proof (val_bound w Hd'); unfold sval in Hb; destruct s'; lia).
  unfold big_rem. cbn [big_val]. rewrite !bind_Ok. destruct (singleton_or_two w (proj1 Hn')) as [[d ->]|Hl].
  - assert (0 < d < B) as Hdd by (apply Forall_cons in Hd' as [Hd' _]; cbn [val] in Hw; lia).
    rewrite D_rem_spec, bind_Ok by (done || apply Hn). pose proof (Z.mod_pos_bound (val v) d ltac:(lia)) as Hm.
    assert (sval s [val v mod d] = Z.rem (sval s v) (sval s' [d])) as <-.
    { apply sval_rem; [lia|done|]. cbn [val]. rewrite !Z.mul_0_r, !Z.add_0_r. done. }
    eexists. split; [done|]. destruct (IS_USMALL s (val v mod d)) eqn:Eu.
    + destruct (small_word s (val v mod d)) as [E ?]; [lia|done|]. rewrite sval_digit in *.
      destruct s; rewrite E; by apply repr_small.
    + apply not_small_word in Eu as [Hp Hns]. apply repr_big; [apply snum_digit; lia|by rewrite sval_digit|done].
  - destruct (I_rem_spec v w) as (r & E & Hr & Nr & Vr); [done..|].
    destruct w as [|d [|d' w]]; [simpl in Hl; lia..|]. rewrite E, bind_Ok.
    apply computes_norm; [done..|]. by apply sval_rem; [lia|..].
Qed.
