(* ===== verification/BigText.v ===== *)
(** Integers as text: [write_big] (bignum to decimal characters) and
    [erts_chars_to_integer] (characters in a base to a term) of
    erts/emulator/beam/big.c, with the tables they use (64-bit entries). *)
From S2P Require Import Prelude BigDigits BigShift BigSqr BigBits Big BigSpec.

(** * Tables, indexed by [base - 2] *)

Definition digits_per_sint_lookup : list Z :=
  [62; 38; 30; 26; 23; 21; 20; 18; 17; 17; 16; 16; 15; 15; 14; 14; 14; 13; 13;
   13; 13; 12; 12; 12; 12; 12; 12; 11; 11; 11; 11; 11; 11; 11; 11].

Definition digits_per_small_lookup : list Z :=
  [59; 37; 29; 25; 22; 21; 19; 18; 17; 17; 16; 15; 15; 15; 14; 14; 14; 13; 13;
   13; 13; 13; 12; 12; 12; 12; 12; 12; 12; 11; 11; 11; 11; 11; 11].

Definition largest_power_of_base_lookup : list Z :=
  [4611686018427387904; 1350851717672992089; 1152921504606846976;
   1490116119384765625; 789730223053602816; 558545864083284007;
   1152921504606846976; 150094635296999121; 100000000000000000;
   505447028499293771; 184884258895036416; 665416609183179841;
   155568095557812224; 437893890380859375; 72057594037927936;
   168377826559400929; 374813367582081024; 42052983462257059;
   81920000000000000; 154472377739119461; 282810057883082752;
   21914624432020321; 36520347436056576; 59604644775390625;
   95428956661682176; 150094635296999121; 232218265089212416;
   12200509765705829; 17714700000000000; 25408476896404831;
   36028797018963968; 50542106513726817; 70188843638032384;
   96549157373046875; 131621703842267136].

Definition table (t : list Z) (base : Z) : res Z :=
  match (if base <? 2 then None else t !! Z.to_nat (base - 2)) with Some v => Ok v | None => Fault end.

Definition get_digits_per_signed_int (base : Z) : res Z := table digits_per_sint_lookup base.
Definition get_digits_per_small (base : Z) : res Z := table digits_per_small_lookup base.
Definition get_largest_power_of_base (base : Z) : res Z := table largest_power_of_base_lookup base.

(** * Bignum to decimal *)

(** [while(rem) { write (rem % 10) + '0'; rem /= 10; }]: a digit has at most 20
    decimals. *)
Fixpoint write_rem (fuel : nat) (rem : Z) : res bytes :=
  if rem =? 0 then Ok []
  else match fuel with
       | O => NoFuel
       | S fuel => l ← write_rem fuel (rem / 10); Ok (rem mod 10 + 48 :: l)
       end.

(** [while(i--) { write (rem % 10) + '0'; rem /= 10; }] *)
Fixpoint write_block (i : nat) (rem : Z) : bytes :=
  match i with
  | O => []
  | S i => rem mod 10 + 48 :: write_block i (rem / 10)
  end.

(** The [while(1)] loop; a round divides by [10^17], so that two rounds take off
    at least a digit. *)
Fixpoint write_loop (fuel : nat) (digits_per_Sint largest_pow_of_base : Z) (tmp : list Z) : res bytes :=
  match fuel with
  | O => NoFuel
  | S fuel =>
      '(tmp, rem) ← D_div tmp largest_pow_of_base;
      if bool_decide (tmp = [0]) then write_rem 20 rem
      else
        l ← write_loop fuel digits_per_Sint largest_pow_of_base tmp;
        Ok (write_block (Z.to_nat digits_per_Sint) rem ++ l)
  end.

(** The characters passed to [write_func], in the order of the calls (the last
    character of the number first); the number of calls is returned. *)
Definition write_big (x : Eterm) : res (bytes * Z) :=
  '(sign, dx) ← big_val x;
  digits_per_Sint ← get_digits_per_signed_int 10;
  largest_pow_of_base ← get_largest_power_of_base 10;
  l ← (match (if (length dx =? 1)%nat then head dx else None) with
       | Some d =>
           if d <? largest_pow_of_base
           then if d =? 0 then Ok [48] else write_rem 20 d
           else write_loop (2 * length dx) digits_per_Sint largest_pow_of_base dx
       | None => write_loop (2 * length dx) digits_per_Sint largest_pow_of_base dx
       end);
  let l := if (sign : bool) then l ++ [45] else l in
  Ok (l, zlen l).

(** [write_list] conses: the list of characters, first character first. *)
Definition erts_big_to_list (x : Eterm) : res (list Z) :=
  '(l, _) ← write_big x; Ok (rev l).

(** [write_string] stores downwards from [buf + buf_sz - 1], where the
    terminating 0 is: the string that starts at the pointer returned. *)
Definition erts_big_to_string (x : Eterm) (buf_sz : Z) : res bytes :=
  '(l, n) ← write_big x;
  if n <=? buf_sz - 1 then Ok (rev l ++ [0]) else Fault.

(** The same downwards from [buf + buf_sz], without a 0: the bytes at the end of
    the buffer, and their number. *)
Definition erts_big_to_binary_bytes (x : Eterm) (buf_sz : Z) : res (bytes * Z) :=
  '(l, n) ← write_big x;
  if n <=? buf_sz then Ok (rev l, n) else Fault.

(** [I_lg] counts the bits of the top digit. *)
Fixpoint lg_loop (fuel : nat) (d sz : Z) : res Z :=
  if d =? 0 then Ok sz
  else match fuel with
       | O => NoFuel
       | S fuel => lg_loop fuel (Z.shiftr d 1) (sz + 1)
       end.

Definition I_lg (x : list Z) : res Z :=
  match last x with
  | None => Fault
  | Some d => sz ← lg_loop 64 d ((zlen x - 1) * D_EXP); Ok (to_int (sz - 1))
  end.

Definition big_decimal_estimate (x : Eterm) : res Z :=
  '(sign, xv) ← big_val x;
  lg ← I_lg xv;
  let lg10 := to_int (Z.quot (to_int (to_int (lg + 1) * 28)) 93 + 1) in
  let lg10 := if (sign : bool) then lg10 + 1 else lg10 in
  Ok (lg10 + 1).

(** * Characters to integer *)

Definition c2int_is_invalid_char (ch base : Z) : bool :=
  (ch <? 48)
  || ((ch >? 48 + base - 1)
      && negb ((base >? 10)
               && (((ch >=? 97) && (ch <? 97 + base - 10))
                   || ((ch >=? 65) && (ch <? 65 + base - 10))))).

Definition c2int_digit_from_base (ch : Z) : Z :=
  wrap 8 (if ch <=? 57 then ch - 48 else 10 + (if ch <=? 90 then ch - 65 else ch - 97)).

(** [while ( *bytes == '0') ..]; [None]: all zero. *)
Fixpoint trim_zeros (l : bytes) : option bytes :=
  match l with
  | 48 :: l => match l with [] => None | _ => trim_zeros l end
  | _ => Some l
  end.

(** The loop for [base <= 10]; [None]: an invalid character. *)
Fixpoint dec_loop (base : Z) (l : bytes) (i : Z) : option Z :=
  match l with
  | [] => Some i
  | b :: l =>
      if (b <? 48) || (b >? 48 + base - 1) then None
      else dec_loop base l (swrap 64 (i * base + b - 48))
  end.

(** [m = base * m + c2int_digit_from_base(b)] over the characters [l]. *)
Fixpoint num_loop (base : Z) (l : bytes) (m : Z) : option Z :=
  match l with
  | [] => Some m
  | b :: l =>
      if c2int_is_invalid_char b base then None
      else num_loop base l (swrap 64 (base * m + c2int_digit_from_base b))
  end.

(** [if (is_small(res)) res = small_to_big(signed_val(res), hp);] *)
Definition to_big (res : Eterm) : Eterm := if res is Small i then small_to_big i else res.

(** [while (n) ..]: a round reads [digits_per_Sint] characters. *)
Fixpoint chunk_loop (fuel : nat) (base digits_per_Sint largest_pow_of_base : Z)
    (l : bytes) (n : Z) (res : Eterm) : Prelude.res (option Eterm) :=
  if n =? 0 then Ok (Some res)
  else match fuel with
       | O => NoFuel
       | S fuel =>
           let n := n - digits_per_Sint in
           let k := Z.to_nat digits_per_Sint in
           if (length l <? k)%nat then Fault
           else match num_loop base (take k l) 0 with
                | None => Ok None
                | Some m =>
                    res ← big_times_small (to_big res) (dw largest_pow_of_base);
                    res ← big_plus_small (to_big res) (dw m);
                    chunk_loop fuel base digits_per_Sint largest_pow_of_base (drop k l) n res
                end
       end.

(** The part from "Start calculating bignum" on. *)
Definition chars_to_big (l : bytes) (neg : bool) (base digits_per_Sint largest_pow_of_base : Z) : res Eterm :=
  let i := zlen l mod digits_per_Sint in
  let i := if i =? 0 then digits_per_Sint else i in
  let n := to_int (zlen l - i) in
  match num_loop base (take (Z.to_nat i) l) 0 with
  | None => Ok THE_NON_VALUE
  | Some m =>
      r ← chunk_loop (length l) base digits_per_Sint largest_pow_of_base
            (drop (Z.to_nat i) l) n (small_to_big m);
      match r with
      | None => Ok THE_NON_VALUE
      | Some t =>
          t ← (if neg then
                 match t with
                 | Small i => Ok (make_small (- i))
                 | Big _ v => Ok (Big true v)
                 | _ => Fault
                 end
               else Ok t);
          if is_small t then Ok t else big_plus_small t 0
      end
  end.

(** The part from "Trim leading zeroes" on. *)
Definition chars_unsigned (l : bytes) (neg : bool)
    (base digits_per_small digits_per_Sint largest_pow_of_base : Z) : res Eterm :=
  match (match l with [] => Some [] | _ => trim_zeros l end) with
  | None => Ok (make_small 0)
  | Some [] => Ok THE_NON_VALUE
  | Some l =>
      if zlen l <? digits_per_small then
        match (if base <=? 10 then dec_loop base l 0 else num_loop base l 0) with
        | None => Ok THE_NON_VALUE
        | Some i => Ok (make_small (if neg then - i else i))
        end
      else chars_to_big l neg base digits_per_Sint largest_pow_of_base
  end.

(** [THE_NON_VALUE] is the error return.  The heap that [HAlloc] reserves is not
    part of the model. *)
Definition erts_chars_to_integer (l : bytes) (base : Z) : res Eterm :=
  digits_per_small ← get_digits_per_small base;
  digits_per_Sint ← get_digits_per_signed_int base;
  largest_pow_of_base ← get_largest_power_of_base base;
  match l with
  | [] => Ok THE_NON_VALUE
  | b :: tl =>
      let '(neg, l) := if b =? 45 then (true, tl) else if b =? 43 then (false, tl) else (false, l) in
      chars_unsigned l neg base digits_per_small digits_per_Sint largest_pow_of_base
  end.

(** * Characters written *)

(** The value of decimal characters, the last character of the number first. *)
Definition dval (l : bytes) : Z := foldr (λ c v, (c - 48) + 10 * v) 0 l.

Definition dec_char (c : Z) : Prop := 48 <= c <= 57.

Lemma dval_app l k : dval (l ++ k) = dval l + 10 ^ zlen l * dval k.
Proof.
  induction l as [|c l IH]; cbn [app]; [change (dval k = 0 + 1 * dval k); lia|]. cbn [dval foldr].
  fold (dval (l ++ k)) (dval l). rewrite IH, zlen_cons. pose proof (zlen_nonneg l).
  rewrite Z.pow_add_r by lia. change (10 ^ 1) with 10. lia.
Qed.

Lemma dval_lower l : Forall dec_char l → l ≠ [] → last l ≠ Some 48 → 10 ^ (zlen l - 1) <= dval l.
Proof.
  induction 1 as [|c l Hc Hl IH]; [done|]. intros _ Hlast. cbn [dval foldr]. fold (dval l). unfold dec_char in Hc.
  destruct l as [|c' l].
  - cbn [dval foldr]. cbn in Hlast. change (zlen [c] - 1) with 0. assert (c ≠ 48) by congruence. lia.
  - specialize (IH ltac:(done) Hlast). rewrite !zlen_cons in *. pose proof (zlen_nonneg l).
    replace (1 + (1 + zlen l) - 1) with (1 + (1 + zlen l - 1)) by lia. rewrite Z.pow_add_r by lia. lia.
Qed.

Lemma mod10 d : 0 <= d → d = d mod 10 + 10 * (d / 10) ∧ dec_char (d mod 10 + 48) ∧ 0 <= d / 10.
Proof. intros Hd. unfold dec_char. split_and!; dlia. Qed.

Lemma write_block_spec n d :
  0 <= d < 10 ^ Z.of_nat n →
  Forall dec_char (write_block n d) ∧ length (write_block n d) = n ∧ dval (write_block n d) = d.
Proof.
  revert d. induction n as [|n IH]; intros d Hd; cbn [write_block].
  { change (10 ^ Z.of_nat 0) with 1 in Hd. split_and!; [constructor|done|]. cbn. lia. }
  destruct (mod10 d) as (E & Hb & Hs); [lia|].
  destruct (IH (d / 10)) as (Hf & Hl & Hv).
  { replace (Z.of_nat (S n)) with (1 + Z.of_nat n) in Hd by lia. rewrite Z.pow_add_r in Hd by lia. dlia. }
  split_and!; [by constructor|simpl; lia|]. cbn [dval foldr]. fold (dval (write_block n (d / 10))). lia.
Qed.

(** Decimal characters of [d], without leading zeros. *)
Definition decimal (l : bytes) (d : Z) : Prop :=
  Forall dec_char l ∧ dval l = d ∧ (if d =? 0 then l = [] else l ≠ [] ∧ last l ≠ Some 48).

Lemma write_rem_spec n d : 0 <= d < 10 ^ Z.of_nat n → ∃ l, write_rem n d = Ok l ∧ decimal l d.
Proof.
  unfold decimal. revert d. induction n as [|n IH]; intros d Hd; cbn [write_rem].
  { change (10 ^ Z.of_nat 0) with 1 in Hd. assert (d = 0) as -> by lia. exists []. by split_and!. }
  destruct (Z.eqb_spec d 0) as [->|N]. { exists []. by split_and!. }
  destruct (mod10 d) as (E & Hb & Hs); [lia|].
  destruct (IH (d / 10)) as (l & -> & Hf & Hv & Hlast).
  { replace (Z.of_nat (S n)) with (1 + Z.of_nat n) in Hd by lia. rewrite Z.pow_add_r in Hd by lia. dlia. }
  rewrite bind_Ok. eexists. split; [done|]. split_and!; [by constructor|cbn [dval foldr]; fold (dval l); lia|done|].
  destruct (Z.eqb_spec (d / 10) 0) as [E0|E0].
  - subst l. cbn. intros [= ?]. lia.
  - destruct Hlast as [Hne Hlast], l; [done|]. by apply Hlast.
Qed.

Lemma write_loop_spec fuel k L tmp :
  L = 10 ^ k → 0 < k <= 17 → digits tmp → normal tmp → val tmp ≠ 0 → val tmp < L ^ Z.of_nat fuel →
  ∃ l, write_loop fuel k L tmp = Ok l ∧ decimal l (val tmp).
Proof.
  intros HL Hk. assert (1 < L <= 10 ^ 17) as HLr.
  { rewrite HL. split; [apply Z.pow_gt_1; lia|apply Z.pow_le_mono_r; lia]. }
  revert tmp. induction fuel as [|fuel IH]; intros tmp Hd Hn Hz Hb.
  { change (L ^ Z.of_nat 0) with 1 in Hb. pose proof (val_bound tmp Hd). lia. }
  cbn [write_loop]. pose proof (val_bound tmp Hd) as [Hv0 _].
  destruct (D_div_spec tmp L Hd (proj1 Hn) ltac:(lia)) as (q & r & -> & Hq & Hv & Hr & Nq). specialize (Nq Hn Hz).
  rewrite bind_Ok. cbv beta iota. destruct (bool_decide_reflect (q = [0])) as [->|Nq0].
  - cbn [val] in Hv. replace (val tmp) with r by lia. apply write_rem_spec. lia.
  - assert (val q ≠ 0) as Zq.
    { intros E. apply Nq0. apply val_inj; (done || by apply Forall_singleton). }
    pose proof (val_bound q Hq) as [Hq0 _].
    destruct (IH q) as (l & -> & Hf & Hvl & Hlast); [done..| |].
    { replace (Z.of_nat (S fuel)) with (1 + Z.of_nat fuel) in Hb by lia.
      rewrite Z.pow_add_r, Z.pow_1_r in Hb by lia. nia. }
    rewrite bind_Ok. destruct (write_block_spec (Z.to_nat k) r) as (Hfb & Hlb & Hvb); [rewrite Z2Nat.id by lia; lia|].
    destruct (Z.eqb_spec (val q) 0); [done|]. destruct Hlast as [Hne Hlast].
    eexists. split; [done|]. unfold decimal. destruct (Z.eqb_spec (val tmp) 0); [done|].
    split_and!; [by apply Forall_app| |by destruct (write_block _ r)|by rewrite last_app_ne].
    rewrite dval_app, Hvb, Hvl. unfold zlen. rewrite Hlb, Z2Nat.id by lia. lia.
Qed.

(** What [write_big] writes: the sign last, before it the decimals of the
    magnitude ("0" for zero). *)
Lemma write_big_spec x z :
  bignum x z →
  ∃ l, write_big x = Ok (l ++ (if z <? 0 then [45] else []), zlen l + (if z <? 0 then 1 else 0)) ∧
    (if z =? 0 then l = [48] else decimal l (Z.abs z)).
Proof.
  intros (s & v & -> & Hs & <-). pose proof Hs as (Hd & Hn & Hz). pose proof (val_bound v Hd) as Hb.
  assert ((sval s v =? 0) = (val v =? 0)) as ->.
  { unfold sval. destruct s; [|done]. destruct (Z.eqb_spec (- val v) 0), (Z.eqb_spec (val v) 0); (done || lia). }
  assert ((sval s v <? 0) = s) as ->.
  { unfold sval. destruct s; [specialize (Hz eq_refl)|].
    - destruct (Z.ltb_spec (- val v) 0); (done || lia).
    - destruct (Z.ltb_spec (val v) 0); (done || lia). }
  assert (Z.abs (sval s v) = val v) as -> by (unfold sval; destruct s; lia).
  unfold write_big. cbn [big_val]. rewrite bind_Ok. cbv beta iota.
  change (get_digits_per_signed_int 10) with (Ok 17). change (get_largest_power_of_base 10) with (Ok (10 ^ 17)).
  rewrite !bind_Ok. set (m := match _ with Some _ => _ | None => _ end).
  assert (∃ l, m = Ok l ∧ if val v =? 0 then l = [48] else decimal l (val v)) as (l & -> & Hl).
  { assert (val v ≠ 0 → ∃ l, write_loop (2 * length v) 17 (10 ^ 17) v = Ok l ∧
              if val v =? 0 then l = [48] else decimal l (val v)) as Hloop.
    { intros Zv. destruct (Z.eqb_spec (val v) 0); [done|]. apply write_loop_spec; [done|lia|done..|].
      eapply Z.lt_le_trans; [apply Hb|]. rewrite Nat2Z.inj_mul, Z.pow_mul_r by lia. unfold Bp.
      apply Z.pow_le_mono_l. lia. }
    subst m. destruct (Nat.eqb_spec (length v) 1) as [E|E]; [|apply Hloop, (snum_long _ _ Hs E)].
    destruct v as [|d [|]]; [done| |done]. cbn [head].
    destruct (Z.ltb_spec d (10 ^ 17)); [|apply Hloop; cbn [val]; lia].
    assert (val [d] = d) as Ed by (cbn [val]; lia). rewrite Ed in *. destruct (Z.eqb_spec d 0); [by exists [48]|].
    apply write_rem_spec. lia. }
  rewrite bind_Ok. exists l. split; [|done]. destruct s; cbn [app]; [|by rewrite app_nil_r, Z.add_0_r].
  by rewrite zlen_app.
Qed.

(** * The size of the buffer *)

Lemma lg_loop_spec n d sz :
  0 <= d < 2 ^ Z.of_nat n → lg_loop n d sz = Ok (sz + if d =? 0 then 0 else Z.log2 d + 1).
Proof.
  revert d sz. induction n as [|n IH]; intros d sz Hd; cbn [lg_loop].
  { change (2 ^ Z.of_nat 0) with 1 in Hd. assert (d = 0) as -> by lia. cbn. f_equal. lia. }
  destruct (Z.eqb_spec d 0) as [->|N]; [f_equal; lia|].
  replace (Z.of_nat (S n)) with (1 + Z.of_nat n) in Hd by lia. rewrite Z.pow_add_r in Hd by lia.
  assert (Z.shiftr d 1 = d / 2) as Es by (by rewrite Z.shiftr_div_pow2 by lia).
  rewrite IH by (rewrite Es; dlia). f_equal. destruct (Z.eqb_spec (Z.shiftr d 1) 0) as [E|E].
  - assert (d = 1) as -> by (rewrite Es in E; dlia). cbn. lia.
  - rewrite Z.log2_shiftr by lia. assert (1 <= Z.log2 d).
    { apply (Z.log2_le_mono 2). rewrite Es in E. dlia. }
    lia.
Qed.

Lemma I_lg_spec v :
  digits v → normal v → val v ≠ 0 → zlen v <= BIG_ARITY_MAX →
  I_lg v = Ok (Z.log2 (val v)) ∧ 0 <= Z.log2 (val v) < 64 * BIG_ARITY_MAX.
Proof.
  intros Hd Hn Hz Hl. unfold I_lg. destruct (last v) as [d|] eqn:El; [|by apply last_None in El; destruct Hn].
  pose proof (normal_last _ _ Hn Hd Hz El) as Nd.
  destruct v as [|d' v _] using rev_ind; [done|]. rewrite last_snoc in El. injection El as ->.
  apply Forall_app in Hd as [Hv Hd]. apply Forall_cons in Hd as [Hd _].
  rewrite lg_loop_spec by done. destruct (Z.eqb_spec d 0); [done|]. rewrite bind_Ok.
  rewrite zlen_app in *. change (zlen [d]) with 1 in *. unfold D_EXP.
  pose proof (zlen_nonneg v). pose proof (Z.log2_nonneg d). pose proof (Z.log2_spec d ltac:(lia)) as Hlg.
  assert (Z.log2 d < 64) by (apply Z.log2_lt_pow2; lia).
  assert (Z.log2 (val (v ++ [d])) = 64 * zlen v + Z.log2 d) as ->.
  { pose proof (val_bound v Hv) as Hb. rewrite val_app. cbn [val]. rewrite Bp_pow in *. fold (zlen v) in *.
    apply Z.log2_unique; [lia|]. rewrite <- Z.add_succ_r, !Z.pow_add_r by lia.
    set (P := 2 ^ (64 * zlen v)) in *. set (Q := 2 ^ Z.log2 d) in *. 
    rewrite Z.pow_succ_r in * by lia. fold Q in Hlg |- *. nia. }
  unfold BIG_ARITY_MAX in *. rewrite to_int_small by (unfold INT_MAX; lia). split; [f_equal; lia|lia].
Qed.

Lemma decimal_length l d bits :
  decimal l d → 0 < d < 2 ^ bits → 0 <= bits → zlen l <= bits * 28 / 93 + 1.
Proof.
  intros (Hf & Hv & Hl) Hd Hb. destruct (Z.eqb_spec d 0); [lia|]. destruct Hl as [Hne Hlast].
  pose proof (dval_lower l Hf Hne Hlast) as Hlow. rewrite Hv in Hlow.
  assert (0 < zlen l) by (destruct l; [done|rewrite zlen_cons; pose proof (zlen_nonneg l); lia]).
  assert (93 * (zlen l - 1) < 28 * bits); [|dlia].
  apply (Z.pow_lt_mono_r_iff 10); [lia..|]. rewrite (Z.mul_comm 93), (Z.pow_mul_r 10 (zlen l - 1)), (Z.pow_mul_r 10 28) by lia.
  apply (Z.lt_le_trans _ ((2 ^ bits) ^ 93)).
  - apply Z.pow_lt_mono_l; [lia|]. split; [apply Z.pow_nonneg; lia|lia].
  - rewrite <- Z.pow_mul_r, (Z.mul_comm bits), Z.pow_mul_r by lia. apply Z.pow_le_mono_l. lia.
Qed.

Lemma big_decimal_estimate_spec x z :
  bignum x z → z ≠ 0 → Z.of_nat (big_size x) <= BIG_ARITY_MAX →
  ∃ n, big_decimal_estimate x = Ok n ∧
    ∀ l, decimal l (Z.abs z) → zlen l + (if z <? 0 then 1 else 0) + 1 <= n.
Proof.
  intros (s & v & -> & Hs & <-) Hz Hl. pose proof Hs as (Hd & Hn & Hz'). pose proof (val_bound v Hd) as [Hv0 _].
  assert (Z.abs (sval s v) = val v) as Ea by (unfold sval; destruct s; lia).
  assert (val v ≠ 0) as Nz by lia. rewrite Ea.
  destruct (I_lg_spec v Hd Hn Nz Hl) as [El Hlg]. unfold big_decimal_estimate. cbn [big_val]. rewrite bind_Ok.
  cbv beta iota. rewrite El, bind_Ok. unfold BIG_ARITY_MAX in *. set (lg := Z.log2 (val v)) in *.
  pose proof (Z.log2_spec (val v) ltac:(lia)) as Hspec. fold lg in Hspec. clearbody lg.
  rewrite (to_int_small (lg + 1)), (to_int_small ((lg + 1) * 28)) by (unfold INT_MAX; lia).
  rewrite Z.quot_div_nonneg by lia. rewrite to_int_small by (unfold INT_MAX; dlia).
  eexists. split; [done|]. intros l Hdec.
  assert (zlen l <= (lg + 1) * 28 / 93 + 1) by (apply (decimal_length l (val v)); [done|lia|lia]).
  unfold sval. destruct s; [destruct (Z.ltb_spec (- val v) 0)|destruct (Z.ltb_spec (val v) 0)]; lia.
Qed.

(** The estimate is large enough for [erts_big_to_string]. *)
Lemma erts_big_to_string_spec x z :
  bignum x z → z ≠ 0 → Z.of_nat (big_size x) <= BIG_ARITY_MAX →
  ∃ n l, big_decimal_estimate x = Ok n ∧ decimal l (Z.abs z) ∧
    erts_big_to_string x n = Ok ((if z <? 0 then [45] else []) ++ rev l ++ [0]).
Proof.
  intros Hx Hz Hl. destruct (big_decimal_estimate_spec x z Hx Hz Hl) as (n & -> & Hn).
  destruct (write_big_spec x z Hx) as (l & E & Hdec). destruct (Z.eqb_spec z 0); [done|].
  specialize (Hn l Hdec). exists n, l. split_and!; [done..|].
  unfold erts_big_to_string. rewrite E, bind_Ok. cbv beta iota.
  destruct (Z.leb_spec (zlen l + (if z <? 0 then 1 else 0)) (n - 1)); [|lia].
  rewrite rev_app_distr, <- app_assoc. by destruct (z <? 0).
Qed.

(** * Characters read *)

(** The value of a digit character. *)
Definition digit_of (c : Z) : option Z :=
  if (48 <=? c) && (c <=? 57) then Some (c - 48)
  else if (97 <=? c) && (c <=? 122) then Some (c - 87)
  else if (65 <=? c) && (c <=? 90) then Some (c - 55)
  else None.

(** [numeral base l a = Some z]: [l] is a string of digits of [base], and [z] is
    the number written by the digits of [a] followed by [l]. *)
Fixpoint numeral (base : Z) (l : bytes) (a : Z) : option Z :=
  match l with
  | [] => Some a
  | c :: l =>
      match digit_of c with
      | Some d => if d <? base then numeral base l (base * a + d) else None
      | None => None
      end
  end.

Lemma numeral_app base l k a :
  numeral base (l ++ k) a = match numeral base l a with Some b => numeral base k b | None => None end.
Proof.
  revert a. induction l as [|c l IH]; intros a; cbn [app numeral]; [done|].
  destruct (digit_of c); [|done]. destruct (_ <? base); [apply IH|done].
Qed.

Lemma digit_of_range c d : digit_of c = Some d → 0 <= d.
Proof.
  unfold digit_of. destruct (Z.leb_spec 48 c), (Z.leb_spec c 57), (Z.leb_spec 97 c), (Z.leb_spec c 122),
    (Z.leb_spec 65 c), (Z.leb_spec c 90); cbn [andb]; intros [= <-]; lia.
Qed.

Lemma numeral_bounds base l a z :
  2 <= base → 0 <= a → numeral base l a = Some z →
  a * base ^ zlen l <= z < (a + 1) * base ^ zlen l.
Proof.
  intros Hb. revert a. induction l as [|c l IH]; intros a Ha; cbn [numeral].
  { intros [= <-]. change (base ^ zlen []) with 1. lia. }
  destruct (digit_of c) as [d|] eqn:Ed; [|done]. apply digit_of_range in Ed.
  destruct (Z.ltb_spec d base); [|done]. assert (0 <= base * a) by (apply Z.mul_nonneg_nonneg; lia).
  intros E. apply IH in E; [|lia].
  rewrite zlen_cons. pose proof (zlen_nonneg l). rewrite Z.pow_add_r, Z.pow_1_r by lia.
  pose proof (Z.pow_pos_nonneg base (zlen l) ltac:(lia) ltac:(lia)). nia.
Qed.

(** The digits before a string scale by its length. *)
Lemma numeral_shift base l a z :
  numeral base l a = Some z → ∃ w, numeral base l 0 = Some w ∧ z = a * base ^ zlen l + w.
Proof.
  revert a z. assert (∀ a b z, numeral base l a = Some z →
    ∃ w, numeral base l b = Some w ∧ z - w = (a - b) * base ^ zlen l) as H.
  { induction l as [|c l IH]; intros a b z; cbn [numeral].
    { intros [= <-]. exists b. change (base ^ zlen []) with 1. split; [done|lia]. }
    destruct (digit_of c) as [d|]; [|done]. destruct (d <? base); [|done].
    intros (w & Hw & E)%(IH _ (base * b + d)). exists w. split; [done|]. rewrite E, zlen_cons.
    pose proof (zlen_nonneg l). rewrite Z.pow_add_r, Z.pow_1_r by lia. lia. }
  intros a z (w & Hw & E)%(H a 0). exists w. split; [done|lia].
Qed.

Lemma digit_char_ok base c d :
  2 <= base <= 36 → digit_of c = Some d → d < base →
  c2int_is_invalid_char c base = false ∧ c2int_digit_from_base c = d.
Proof.
  intros Hb Hd Hlt. revert Hd. unfold digit_of, c2int_is_invalid_char, c2int_digit_from_base, wrap.
  destruct (Z.leb_spec 48 c), (Z.leb_spec c 57), (Z.leb_spec 97 c), (Z.leb_spec c 122),
    (Z.leb_spec 65 c), (Z.leb_spec c 90); cbn [andb]; intros [= <-]; try lia;
  destruct (Z.ltb_spec c 48), (Z.gtb_spec c (48 + base - 1)), (Z.gtb_spec base 10), (Z.geb_spec c 97),
    (Z.ltb_spec c (97 + base - 10)), (Z.geb_spec c 65), (Z.ltb_spec c (65 + base - 10));
    cbn [andb orb negb]; try lia; (split; [done|]); rewrite Z.mod_small; lia.
Qed.

Lemma num_loop_numeral base l a z :
  2 <= base <= 36 → 0 <= a → numeral base l a = Some z → z < 2 ^ 63 → num_loop base l a = Some z.
Proof.
  intros Hb. revert a. induction l as [|c l IH]; intros a Ha; cbn [numeral num_loop]; [done|].
  destruct (digit_of c) as [d|] eqn:Ed; [|done]. destruct (Z.ltb_spec d base); [|done]. intros E Hz.
  destruct (digit_char_ok base c d Hb Ed) as [-> ->]; [done|]. apply digit_of_range in Ed.
  assert (0 <= base * a) by (apply Z.mul_nonneg_nonneg; lia).
  pose proof (numeral_bounds base l (base * a + d) z ltac:(lia) ltac:(lia) E) as Hbd.
  pose proof (Z.pow_pos_nonneg base (zlen l) ltac:(lia) (zlen_nonneg l)).
  rewrite swrap_small by nia. apply IH; [lia|done|done].
Qed.

Lemma dec_loop_numeral base l a z :
  2 <= base <= 10 → 0 <= a → numeral base l a = Some z → z < 2 ^ 63 → dec_loop base l a = Some z.
Proof.
  intros Hb. revert a. induction l as [|c l IH]; intros a Ha; cbn [numeral dec_loop]; [done|].
  destruct (digit_of c) as [d|] eqn:Ed; [|done]. destruct (Z.ltb_spec d base); [|done]. intros E Hz.
  pose proof (digit_of_range _ _ Ed) as Hd0.
  assert (0 <= base * a) by (apply Z.mul_nonneg_nonneg; lia).
  pose proof (numeral_bounds base l (base * a + d) z ltac:(lia) ltac:(lia) E) as Hbd.
  pose proof (Z.pow_pos_nonneg base (zlen l) ltac:(lia) (zlen_nonneg l)).
  assert (d = c - 48) as ->.
  { revert Ed. unfold digit_of. destruct (Z.leb_spec 48 c), (Z.leb_spec c 57), (Z.leb_spec 97 c), (Z.leb_spec c 122),
      (Z.leb_spec 65 c), (Z.leb_spec c 90); cbn [andb]; intros [= <-]; lia. }
  destruct (Z.ltb_spec c 48); [lia|]. destruct (Z.gtb_spec c (48 + base - 1)); [lia|]. cbn [orb].
  replace (a * base + c - 48) with (base * a + (c - 48)) by lia.
  rewrite swrap_small by nia. apply IH; [lia|done|done].
Qed.

(** * The tables *)

(** What the code relies on of the entries for a base. *)
Definition table_ok (base : Z) : bool :=
  match get_digits_per_small base, get_digits_per_signed_int base, get_largest_power_of_base base with
  | Ok ds, Ok dps, Ok L =>
      (0 <? ds) && (base ^ (ds - 1) <=? 2 ^ 59) && (0 <? dps) && (L =? base ^ dps) && (L <? 2 ^ 63)
  | _, _, _ => false
  end.

Lemma tables_ok : forallb table_ok (seqZ 2 35) = true.
Proof. vm_compute. reflexivity. Qed.

Lemma table_entries base :
  2 <= base <= 36 →
  ∃ ds dps, get_digits_per_small base = Ok ds ∧ get_digits_per_signed_int base = Ok dps ∧
    get_largest_power_of_base base = Ok (base ^ dps) ∧
    0 < ds ∧ base ^ (ds - 1) <= 2 ^ 59 ∧ 0 < dps ∧ base ^ dps < 2 ^ 63.
Proof.
  intros Hb. pose proof (proj1 (forallb_forall table_ok _) tables_ok base) as H.
  specialize (H ltac:(apply list_elem_of_In, elem_of_seqZ; lia)). unfold table_ok in H.
  destruct (get_digits_per_small base) as [ds| |], (get_digits_per_signed_int base) as [dps| |],
    (get_largest_power_of_base base) as [L| |]; try done.
  rewrite !andb_true_iff, !Z.ltb_lt, Z.leb_le, Z.eqb_eq in H. destruct H as ((((? & ?) & ?) & ->) & ?).
  exists ds, dps. split_and!; done.
Qed.

(** * The bignum path *)

(** Numbers whose digits fit a bignum. *)
Definition fits_big (z : Z) : Prop := ∃ n, Z.of_nat n <= BIG_ARITY_MAX ∧ Z.abs z < Bp n.

Lemma fits_big_le z z' : fits_big z → 0 <= z' <= z → fits_big z'.
Proof. intros (n & Hn & Hz) Hle. exists n. split; [done|lia]. Qed.

Lemma repr_int z t : repr z t → fits_big z → int_term t z.
Proof.
  intros [z' Hz|s v Hs Hn Hl|s v Hs Hl] (n & Hlim & Hb); [by left|right; by exists s, v|].
  exfalso. destruct Hs as (Hd & Hn & _). pose proof (val_bound v Hd) as [Hv0 _].
  assert (Z.abs (sval s v) = val v) as E by (unfold sval; destruct s; lia). rewrite E in Hb.
  unfold zlen in Hl. assert (1 < length v)%nat as Hl1 by (unfold BIG_ARITY_MAX in Hl; lia).
  pose proof (normal_lower1 v Hn Hd Hl1). pose proof (Bp_mono n (length v - 1) ltac:(lia)). lia.
Qed.

Lemma to_big_spec t z : int_term t z → bignum (to_big t) z.
Proof.
  intros [[-> Hz]|(s & v & -> & ?)]; cbn [to_big].
  - apply small_to_big_spec. unfold MIN_SMALL, MAX_SMALL in Hz. lia.
  - by exists s, v.
Qed.

Lemma take_zlen (l : bytes) k : 0 <= k <= zlen l → zlen (take (Z.to_nat k) l) = k.
Proof. intros Hk. unfold zlen in *. rewrite length_take. lia. Qed.

Section chunks.
Context (base dps : Z) (Hb : 2 <= base <= 36) (Hdps : 0 < dps) (HL : base ^ dps < 2 ^ 63).

(** One round: [dps] more digits. *)
Lemma chunk_round t a l z w :
  int_term t a → 0 <= a → zlen l = dps → numeral base l a = Some z → fits_big z →
  num_loop base l 0 = Some w →
  ∃ t1 t2, big_times_small (to_big t) (dw (base ^ dps)) = Ok t1 ∧
    big_plus_small (to_big t1) (dw w) = Ok t2 ∧ int_term t2 z.
Proof.
  intros Ht Ha Hl Hz Hlim Hw. apply numeral_shift in Hz as (w' & Hw' & ->). rewrite Hl in *.
  pose proof (numeral_bounds base l 0 w' ltac:(lia) ltac:(lia) Hw') as Hbd. rewrite Hl in Hbd.
  rewrite (num_loop_numeral base l 0 w' Hb) in Hw by (done || lia). injection Hw as <-.
  assert (0 < base ^ dps) as HL0 by (apply Z.pow_pos_nonneg; lia). set (L := base ^ dps) in *.
  rewrite !dw_mod, !Z.mod_small by lia. assert (0 <= a * L) by (apply Z.mul_nonneg_nonneg; lia).
  destruct (big_times_small_spec (to_big t) a L) as (t1 & E1 & R1); [by apply to_big_spec|lia|].
  apply repr_int in R1; [|apply (fits_big_le _ _ Hlim); lia].
  destruct (big_plus_small_spec (to_big t1) (a * L) w') as (t2 & E2 & R2); [by apply to_big_spec|lia|lia|].
  apply repr_int in R2; [|done]. by exists t1, t2.
Qed.

Lemma chunk_loop_spec fuel l t a z :
  int_term t a → 0 <= a → (dps | zlen l) → (length l <= fuel)%nat →
  numeral base l a = Some z → fits_big z →
  ∃ t', chunk_loop fuel base dps (base ^ dps) l (zlen l) t = Ok (Some t') ∧ int_term t' z.
Proof.
  revert l t a. induction fuel as [|fuel IH]; intros l t a Ht Ha Hdiv Hf Hz Hlim; cbn [chunk_loop].
  { destruct l; [|simpl in Hf; lia]. injection Hz as <-. change (zlen [] =? 0) with true. by exists t. }
  destruct (Z.eqb_spec (zlen l) 0) as [E0|E0].
  { destruct l; [|rewrite zlen_cons in E0; pose proof (zlen_nonneg l); lia]. injection Hz as <-. by exists t. }
  pose proof (zlen_nonneg l). assert (dps <= zlen l) as Hle by (apply Z.divide_pos_le; [lia|done]).
  destruct (Nat.ltb_spec (length l) (Z.to_nat dps)); [unfold zlen in Hle; lia|].
  rewrite <- (take_drop (Z.to_nat dps) l), numeral_app in Hz.
  destruct (numeral base (take (Z.to_nat dps) l) a) as [b|] eqn:Eb; [|done].
  pose proof (take_zlen l dps ltac:(lia)) as Hl1.
  pose proof (numeral_bounds base _ a b ltac:(lia) Ha Eb) as Hbb. rewrite Hl1 in Hbb.
  assert (0 < base ^ dps) by (apply Z.pow_pos_nonneg; lia). assert (0 <= a * base ^ dps) by (apply Z.mul_nonneg_nonneg; lia).
  pose proof (numeral_bounds base _ b z ltac:(lia) ltac:(lia) Hz) as Hbz.
  pose proof (Z.pow_pos_nonneg base (zlen (drop (Z.to_nat dps) l)) ltac:(lia) (zlen_nonneg _)).
  destruct (numeral_shift _ _ _ _ Eb) as (w & Hw & _).
  pose proof (numeral_bounds base _ 0 w ltac:(lia) ltac:(lia) Hw) as Hbw. rewrite Hl1 in Hbw.
  rewrite (num_loop_numeral base _ 0 w Hb ltac:(lia) Hw) by lia.
  destruct (chunk_round t a (take (Z.to_nat dps) l) b w) as (t1 & t2 & -> & E2 & Ht2); [done..|apply (fits_big_le _ _ Hlim); nia|by apply num_loop_numeral; [done|lia|done|lia]|].
  rewrite bind_Ok, E2, bind_Ok.
  assert (zlen l - dps = zlen (drop (Z.to_nat dps) l)) as Hzl by (unfold zlen in *; rewrite length_drop; lia).
  rewrite Hzl. apply (IH _ _ b); [done|lia| |rewrite length_drop; lia|done|done].
  rewrite <- Hzl. apply Z.divide_sub_r; [done|apply Z.divide_refl].
Qed.
End chunks.

(** The last steps: the sign, and normalisation. *)
Lemma chars_finish (neg : bool) t z :
  int_term t z → 0 < z →
  computes
    (t ← (if neg then
            match t with
            | Small i => Ok (make_small (- i))
            | Big _ v => Ok (Big true v)
            | _ => Fault
            end
          else Ok t);
     if is_small t then Ok t else big_plus_small t 0) (if neg then - z else z).
Proof.
  intros [[-> Hz]|(s & v & -> & (Hd & Hn & Hnz) & Hv)] Hpos.
  - unfold MIN_SMALL, MAX_SMALL in Hz. destruct neg; rewrite bind_Ok.
    + rewrite make_small_id by (unfold MIN_SMALL, MAX_SMALL; lia). eexists. split; [done|].
      apply repr_small. unfold MIN_SMALL, MAX_SMALL. lia.
    + eexists. split; [done|]. apply repr_small. unfold MIN_SMALL, MAX_SMALL. lia.
  - pose proof (val_bound v Hd) as [Hv0 _]. assert (s = false ∧ val v = z) as [-> Ev] by (unfold sval in Hv; destruct s; [lia|done]).
    destruct neg; rewrite bind_Ok; cbn [is_small].
    + rewrite <- (Z.add_0_r (- z)). apply big_plus_small_spec; [|lia|lia]. exists true, v. split_and!; [done| |].
      * split_and!; [done..|intros; lia].
      * unfold sval. lia.
    + rewrite <- (Z.add_0_r z) at 1. apply big_plus_small_spec; [|lia|lia]. by exists false, v.
Qed.

Lemma chars_to_big_spec base dps l (neg : bool) z :
  2 <= base <= 36 → 0 < dps → base ^ dps < 2 ^ 63 →
  l ≠ [] → zlen l < 2 ^ 31 → numeral base l 0 = Some z → 0 < z → fits_big z →
  computes (chars_to_big l neg base dps (base ^ dps)) (if neg then - z else z).
Proof.
  intros Hb Hdps HL Hne Hlen Hnum Hpos Hfit. unfold chars_to_big.
  assert (0 < zlen l) by (destruct l; [done|rewrite zlen_cons; pose proof (zlen_nonneg l); lia]).
  pose proof (Z.mod_pos_bound (zlen l) dps Hdps) as Hm. pose proof (Z.div_mod (zlen l) dps ltac:(lia)) as Hdm.
  set (i := if zlen l mod dps =? 0 then dps else zlen l mod dps).
  assert (0 < i <= dps ∧ i <= zlen l ∧ (dps | zlen l - i)) as (Hi & Hil & Hdiv).
  { subst i. destruct (Z.eqb_spec (zlen l mod dps) 0) as [E|E].
    - assert (dps | zlen l) as Hd by (by apply Z.mod_divide; [lia|]). split_and!; [lia|lia| |].
      + by apply Z.divide_pos_le.
      + apply Z.divide_sub_r; [done|apply Z.divide_refl].
    - split_and!; [lia|lia| |]. { apply Z.mod_le; lia. }
      exists (zlen l / dps). lia. }
  clearbody i. rewrite to_int_small by (unfold INT_MAX; lia).
  rewrite <- (take_drop (Z.to_nat i) l), numeral_app in Hnum.
  destruct (numeral base (take (Z.to_nat i) l) 0) as [m|] eqn:Em; [|done].
  pose proof (numeral_bounds base _ 0 m ltac:(lia) ltac:(lia) Em) as Hmb.
  rewrite take_zlen in Hmb by lia.
  assert (base ^ i <= base ^ dps) by (apply Z.pow_le_mono_r; lia).
  rewrite (num_loop_numeral base _ 0 m Hb ltac:(lia) Em) by lia.
  assert (zlen l - i = zlen (drop (Z.to_nat i) l)) as Hzl by (unfold zlen in *; rewrite length_drop; lia).
  rewrite Hzl in *.
  destruct (chunk_loop_spec base dps Hb Hdps HL (length l) (drop (Z.to_nat i) l) (small_to_big m) m z)
    as (t & -> & Ht); [right; apply small_to_big_spec; lia|lia|done|rewrite length_drop; lia|done|done|].
  rewrite bind_Ok. by apply chars_finish.
Qed.

Lemma trim_zeros_spec base l z :
  2 <= base → l ≠ [] → numeral base l 0 = Some z →
  match trim_zeros l with
  | None => z = 0
  | Some l' => l' ≠ [] ∧ numeral base l' 0 = Some z ∧ 0 < z ∧ zlen l' <= zlen l
  end.
Proof.
  intros Hb. induction l as [|c l IH]; intros Hne Hz; [done|].
  assert (trim_zeros (c :: l) = if c =? 48 then match l with [] => None | _ => trim_zeros l end else Some (c :: l)) as ->.
  { cbn [trim_zeros]. destruct (Z.eqb_spec c 48) as [->|N]; [done|].
    repeat (match goal with |- context [match ?x with _ => _ end] => is_var x; destruct x end; try done). }
  destruct (Z.eqb_spec c 48) as [->|N].
  - cbn [numeral] in Hz. change (digit_of 48) with (Some 0) in Hz. cbv beta iota in Hz.
    rewrite (proj2 (Z.ltb_lt 0 base)) in Hz by lia.
    rewrite Z.mul_0_r, Z.add_0_r in Hz. destruct l as [|c l]; [cbn [numeral] in Hz; by injection Hz|].
    specialize (IH ltac:(done) Hz). destruct (trim_zeros (c :: l)); [|done].
    rewrite (zlen_cons 48). destruct IH as (? & ? & ? & ?). split_and!; (done || lia).
  - split_and!; [done|done| |lia]. cbn [numeral] in Hz. destruct (digit_of c) as [d|] eqn:Ed; [|done].
    destruct (d <? base); [|done]. pose proof (digit_of_range _ _ Ed).
    apply numeral_bounds in Hz; [|lia..]. pose proof (Z.pow_pos_nonneg base (zlen l) ltac:(lia) (zlen_nonneg l)).
    assert (d ≠ 0); [|nia]. intros ->. apply N. revert Ed. unfold digit_of.
    destruct (Z.leb_spec 48 c), (Z.leb_spec c 57), (Z.leb_spec 97 c), (Z.leb_spec c 122),
      (Z.leb_spec 65 c), (Z.leb_spec c 90); cbn [andb]; intros Ed;
      first [discriminate | assert (∀ a b : Z, Some a = Some b → a = b) as Hi by congruence; apply Hi in Ed; lia].
Qed.

(** The optional sign character. *)
Inductive sign_char : bytes → bool → Prop :=
| sign_none : sign_char [] false
| sign_plus : sign_char [43] false
| sign_minus : sign_char [45] true.

Lemma erts_chars_to_integer_spec base sg neg l z :
  2 <= base <= 36 → sign_char sg neg → l ≠ [] → zlen l < 2 ^ 31 → numeral base l 0 = Some z → fits_big z →
  computes (erts_chars_to_integer (sg ++ l) base) (if neg then - z else z).
Proof.
  intros Hb Hsg Hne Hlen Hnum Hfit. unfold erts_chars_to_integer.
  destruct (table_entries base Hb) as (ds & dps & -> & -> & -> & Hds & Hsmall & Hdps & HL). rewrite !bind_Ok.
  set (m := match sg ++ l with [] => _ | _ :: _ => _ end).
  assert (m = chars_unsigned l neg base ds dps (base ^ dps)) as ->.
  { subst m. destruct Hsg; cbn [app]; [|done..]. destruct l as [|c l]; [done|]. cbn [numeral] in Hnum.
    destruct (Z.eqb_spec c 45) as [->|]; [done|]. by destruct (Z.eqb_spec c 43) as [->|]. }
  clear Hsg sg. unfold chars_unsigned.
  pose proof (trim_zeros_spec base l z ltac:(lia) Hne Hnum) as Htrim.
  destruct l as [|c0 l0]; [done|]. destruct (trim_zeros (c0 :: l0)) as [l|].
  - destruct Htrim as (Hne' & Hnum' & Hpos & Hle). destruct l as [|c l]; [done|]. set (L := c :: l) in *.
    destruct (Z.ltb_spec (zlen L) ds) as [Hs|Hs].
    + pose proof (numeral_bounds base L 0 z ltac:(lia) ltac:(lia) Hnum') as Hbd.
      assert (base ^ zlen L <= base ^ (ds - 1)) by (apply Z.pow_le_mono_r; lia).
      assert ((if base <=? 10 then dec_loop base L 0 else num_loop base L 0) = Some z) as ->.
      { destruct (Z.leb_spec base 10); [apply dec_loop_numeral|apply num_loop_numeral]; (done || lia). }
      assert (MIN_SMALL <= (if neg then - z else z) <= MAX_SMALL) by (unfold MIN_SMALL, MAX_SMALL; destruct neg; lia).
      eexists. split; [done|]. rewrite make_small_id by done. by apply repr_small.
    + apply chars_to_big_spec; (done || lia).
  - subst z. eexists. split; [done|]. replace (if neg then - 0 else 0) with 0 by by destruct neg.
    change (make_small 0) with (Small 0). apply repr_small. unfold MIN_SMALL, MAX_SMALL. lia.
Qed.
