(* ===== verification/BigProps.v ===== *)
(** What the emulator's integer arithmetic promises: every operation on bignum
    terms returns the one canonical term of the exact integer result, and integers
    survive their byte and text representations. *)
From S2P Require Import Prelude BigDigits BigShift BigSqr BigBits Big BigSpec BigText.

(** * Operands for the witnesses *)

(** A term with digits in normal form is an operand for its value. *)
Lemma bignum_intro s v z : snum s v → sval s v = z → bignum (Big s v) z.
Proof. intros ? ?. by exists s, v. Qed.

(** Decides [snum] on concrete digits. *)
Definition snumb (s : bool) (v : list Z) : bool :=
  forallb (λ d, (0 <=? d) && (d <? B)) v && negb (bool_decide (v = [])) &&
  (negb (bool_decide (last v = Some 0)) || ((length v =? 1)%nat && negb s)).

Lemma snumb_ok s v : snumb s v = true → snum s v.
Proof.
  unfold snumb. rewrite !andb_true_iff, !negb_true_iff, bool_decide_eq_false, orb_true_iff. intros [[Hd Hne] Hl].
  assert (digits v) as Hdv.
  { apply List.Forall_forall. rewrite forallb_forall in Hd. intros d Hin.
    specialize (Hd d Hin). rewrite andb_true_iff, Z.leb_le, Z.ltb_lt in Hd. lia. }
  rewrite negb_true_iff, bool_decide_eq_false, andb_true_iff, Nat.eqb_eq, negb_true_iff in Hl.
  destruct Hl as [Hl|[Hl ->]].
  - split_and!; [done|by split|]. intros _ E. destruct v as [|d v _] using rev_ind; [done|].
    rewrite last_snoc in Hl. apply Forall_app in Hdv as [Hv Hd']. apply Forall_cons in Hd' as [Hd' _].
    rewrite val_app in E. cbn [val] in E. pose proof (val_bound v Hv). pose proof (Bp_pos (length v)).
    assert (d ≠ 0) by congruence. nia.
  - by split_and!.
Qed.

(** Evaluates the side conditions of a theorem at concrete operands. *)
Ltac concrete_bignum := apply bignum_intro; [apply snumb_ok; vm_compute; reflexivity | vm_compute; reflexivity].

(** * Results *)

(** Addition and subtraction of any two bignum operands, of any signs and
    sizes, return the canonical term of the sum and of the difference. *)
Theorem plus_minus_correct x y a b :
  bignum x a → bignum y b →
  computes (big_plus x y) (a + b) ∧ computes (big_minus x y) (a - b).
Proof. intros Hx Hy. split; [by apply big_plus_spec|by apply big_minus_spec]. Qed.

Lemma plus_minus_correct_witness :
  computes (big_plus (Big false [18446744073709551615; 7]) (Big true [1; 8])) 
    (147573952589676412927 + -147573952589676412929)
  ∧ computes (big_minus (Big false [18446744073709551615; 7]) (Big true [1; 8]))
      (147573952589676412927 - -147573952589676412929).
Proof.
  apply (plus_minus_correct (Big false [18446744073709551615; 7]) (Big true [1; 8])
    147573952589676412927 (-147573952589676412929)); concrete_bignum.
Defined.

(** C25: multiplication of any two bignum operands returns the canonical term of
    the product, through the one-digit, squaring and general routines, whatever
    the destination held before; [same] is the case that both operands are one
    object. *)
Theorem times_correct same x y a b r :
  bignum x a → bignum y b → (same = true → x = y) → digits r →
  (big_size x + big_size y <= length r)%nat →
  computes (big_times same x y r) (a * b).
Proof. apply big_times_spec. Qed.

Lemma times_correct_witness :
  computes (big_times true (Big true [3; 1]) (Big true [3; 1]) [9; 9; 9; 9])
    ((-18446744073709551619) * (-18446744073709551619)).
Proof.
  apply (times_correct true (Big true [3; 1]) (Big true [3; 1]) (-18446744073709551619) (-18446744073709551619) [9; 9; 9; 9]);
    [concrete_bignum|concrete_bignum|done| |cbn; lia].
  by repeat (apply Forall_cons; split; [lia|]).
Defined.

(** The product of two small integers, which may need one or two digits, is
    exact and canonical. *)
Theorem small_times_correct x y :
  MIN_SMALL <= x <= MAX_SMALL → MIN_SMALL <= y <= MAX_SMALL → repr (x * y) (small_times x y).
Proof. apply small_times_spec. Qed.

Lemma small_times_correct_witness :
  repr ((-576460752303423488) * 576460752303423487) (small_times (-576460752303423488) 576460752303423487).
Proof. apply (small_times_correct (-576460752303423488) 576460752303423487); split; vm_compute; discriminate. Defined.

(** Adding an unsigned word to a bignum, subtracting one from it and
    multiplying it by one are exact, provided the result does not change sign. *)
Theorem word_arith_correct x a y :
  bignum x a → 0 <= y < B →
  ((a < 0 → y <= - a) → computes (big_plus_small x y) (a + y)) ∧
  ((0 <= a → y <= a) → computes (big_minus_small x y) (a - y)) ∧
  computes (big_times_small x y) (a * y).
Proof.
  intros Hx Hy. split_and!; [by apply big_plus_small_spec|by apply big_minus_small_spec|by apply big_times_small_spec].
Qed.

Lemma word_arith_correct_witness :
  ((-18446744073709551616 < 0 → 5 <= 18446744073709551616) →
     computes (big_plus_small (Big true [0; 1]) 5) (-18446744073709551616 + 5)) ∧
  ((0 <= -18446744073709551616 → 5 <= -18446744073709551616) →
     computes (big_minus_small (Big true [0; 1]) 5) (-18446744073709551616 - 5)) ∧
  computes (big_times_small (Big true [0; 1]) 5) (-18446744073709551616 * 5).
Proof. apply (word_arith_correct (Big true [0; 1]) (-18446744073709551616) 5); [concrete_bignum|lia]. Defined.

(** Negation and bitwise not. *)
Theorem neg_bnot_correct x a :
  bignum x a → computes (big_neg x) (- a) ∧ computes (big_bnot x) (Z.lnot a).
Proof. intros Hx. split; [by apply big_neg_spec|by apply big_bnot_spec]. Qed.

Lemma neg_bnot_correct_witness :
  computes (big_neg (Big false [576460752303423488])) (-576460752303423488) ∧
  computes (big_bnot (Big false [576460752303423488])) (Z.lnot 576460752303423488).
Proof. apply (neg_bnot_correct (Big false [576460752303423488]) 576460752303423488). concrete_bignum. Defined.

(** C31: the arithmetic shift, to the left for positive and to the right (rounding
    towards minus infinity, in two's complement) for negative distances, is exact. *)
Theorem lshift_correct x a y :
  bignum x a → - 2 ^ 63 <= y < 2 ^ 63 → computes (big_lshift x y) (Z.shiftl a y).
Proof. apply big_lshift_spec. Qed.

Lemma lshift_correct_witness :
  computes (big_lshift (Big true [1; 0; 1]) (-70)) (Z.shiftl (-340282366920938463463374607431768211457) (-70)).
Proof.
  apply (lshift_correct (Big true [1; 0; 1]) (-340282366920938463463374607431768211457) (-70)); [concrete_bignum|lia].
Defined.

(** Bitwise or of any two operands is exact on two's complement integers. *)
Theorem bor_correct x y a b : bignum x a → bignum y b → computes (big_bor x y) (Z.lor a b).
Proof. apply big_bor_spec. Qed.

Lemma bor_correct_witness :
  computes (big_bor (Big true [0; 0; 1]) (Big false [5])) (Z.lor (-340282366920938463463374607431768211456) 5).
Proof. apply bor_correct; concrete_bignum. Defined.

(** C38: bitwise and is exact, and so is bitwise xor, unless the longer operand is
    negative with only zero digits below the length of the other one (for and,
    only if the other one is negative too). *)
Theorem band_bxor_correct x y a b :
  bignum x a → bignum y b →
  ((a < 0 → b < 0 → no_lost_borrow x y) → computes (big_band x y) (Z.land a b)) ∧
  (no_lost_borrow x y → computes (big_bxor x y) (Z.lxor a b)).
Proof. intros Hx Hy. split; [by apply big_band_spec|by apply big_bxor_spec]. Qed.

Lemma band_bxor_correct_witness :
  computes (big_band (Big true [0; 7; 1]) (Big true [0; 3]))
    (Z.land (-340282366920938463592501815947735072768) (-55340232221128654848)) ∧
  computes (big_bxor (Big true [0; 7; 1]) (Big true [0; 3]))
    (Z.lxor (-340282366920938463592501815947735072768) (-55340232221128654848)).
Proof.
  assert (no_lost_borrow (Big true [0; 7; 1]) (Big true [0; 3])) as Hn by (intros _; right; vm_compute; discriminate).
  destruct (band_bxor_correct (Big true [0; 7; 1]) (Big true [0; 3])
    (-340282366920938463592501815947735072768) (-55340232221128654848)) as [H1 H2];
    [concrete_bignum|concrete_bignum|]. split; [apply H1; intros; exact Hn|exact (H2 Hn)].
Defined.

(** The excluded case is real: for -2^128 and -2^64 the code computes -2^129
    for their bitwise and (it is -2^128), and 2^129 - 2^64 for their bitwise xor
    (it is 2^128 - 2^64), the borrow of the complement being lost between the digits. *)
Theorem band_bxor_lost_borrow :
  big_band (Big true [0; 0; 1]) (Big true [0; 1]) = Ok (Big true [0; 0; 2]) ∧
  Z.land (sval true [0; 0; 1]) (sval true [0; 1]) = sval true [0; 0; 1] ∧
  big_bxor (Big true [0; 0; 1]) (Big true [0; 1]) = Ok (Big false [0; 18446744073709551615; 1]) ∧
  Z.lxor (sval true [0; 0; 1]) (sval true [0; 1]) = sval false [0; 18446744073709551615].
Proof. vm_compute. split_and!; reflexivity. Qed.

(** [big_comp] orders bignums by value and [big_ucomp] by magnitude. *)
Theorem comp_correct x y a b :
  bignum x a → bignum y b →
  big_comp x y = Ok (cmp (a ?= b)) ∧ big_ucomp x y = Ok (cmp (Z.abs a ?= Z.abs b)).
Proof. intros Hx Hy. split; [by apply big_comp_spec|by apply big_ucomp_spec]. Qed.

Lemma comp_correct_witness :
  big_comp (Big true [0; 1]) (Big true [0; 2]) = Ok (cmp (-18446744073709551616 ?= -36893488147419103232)) ∧
  big_ucomp (Big true [0; 1]) (Big true [0; 2]) = Ok (cmp (18446744073709551616 ?= 36893488147419103232)).
Proof. apply (comp_correct _ _ (-18446744073709551616) (-36893488147419103232)); concrete_bignum. Defined.

(** Conversion of an integer term to a machine word: [term_to_Uint] accepts
    exactly 0 .. 2^64-1 (a negative number is BADARG, a larger one SYSTEM_LIMIT)
    and [term_to_Sint] exactly -2^63 .. 2^63-1, and the word is the integer. *)
Theorem word_conversion_exact t z :
  int_term t z →
  term_to_Uint t = (if z <? 0 then BADARG else if z <? B then Conv z else SYSTEM_LIMIT) ∧
  term_to_Sint t = (if (- 2 ^ 63 <=? z) && (z <? 2 ^ 63) then Some z else None).
Proof. intros Ht. split; [by apply term_to_Uint_spec|by apply term_to_Sint_spec]. Qed.

Lemma word_conversion_exact_witness :
  term_to_Uint (Big true [9223372036854775808]) = BADARG ∧
  term_to_Sint (Big true [9223372036854775808]) = Some (-9223372036854775808).
Proof.
  apply (word_conversion_exact (Big true [9223372036854775808]) (-9223372036854775808)). right. concrete_bignum.
Defined.

(** The bytes [big_to_bytes] stores for a bignum (as many as [big_bytes] says)
    are read back by [bytes_to_big] as the canonical term of the same integer. *)
Theorem bytes_roundtrip x z :
  bignum x z → z ≠ 0 →
  ∃ l, big_to_bytes x = Ok l ∧ big_bytes x = Ok (zlen l) ∧ repr z (bytes_to_big l (z <? 0)).
Proof.
  intros Hx Hz. destruct (big_to_bytes_spec x z Hx Hz) as (l & E & Eb & Hf & Hne & Hv & Hlast).
  exists l. split_and!; [done..|]. pose proof (bytes_to_big_spec l (z <? 0) Hf Hne Hlast) as H.
  rewrite Hv in H. assert ((if z <? 0 then - Z.abs z else Z.abs z) = z) as Ez by (destruct (Z.ltb_spec z 0); lia).
  by rewrite Ez in H.
Qed.

Lemma bytes_roundtrip_witness :
  ∃ l, big_to_bytes (Big true [513; 3]) = Ok l ∧ big_bytes (Big true [513; 3]) = Ok (zlen l) ∧
    repr (-55340232221128655361) (bytes_to_big l true).
Proof. apply (bytes_roundtrip (Big true [513; 3]) (-55340232221128655361)); [concrete_bignum|lia]. Defined.

(** C29: an optional sign followed by digits of the base (2 to 36, letters of either
    case) is read as the canonical term of the number it denotes, leading zeros and
    any length below 2^31 characters included, as long as its digits fit a bignum. *)
Theorem chars_to_integer_correct base sg neg l z :
  2 <= base <= 36 → sign_char sg neg → l ≠ [] → zlen l < 2 ^ 31 → numeral base l 0 = Some z → fits_big z →
  computes (erts_chars_to_integer (sg ++ l) base) (if neg then - z else z).
Proof. apply erts_chars_to_integer_spec. Qed.

Lemma chars_to_integer_correct_witness :
  computes (erts_chars_to_integer ([45] ++ [48; 102; 70; 102; 102; 70; 70; 70; 70; 70; 70; 70; 70; 70; 70; 70; 70; 70; 97]) 16)
    (- 4722366482869645213690).
Proof.
  apply (chars_to_integer_correct 16 [45] true [48; 102; 70; 102; 102; 70; 70; 70; 70; 70; 70; 70; 70; 70; 70; 70; 70; 70; 97]
    4722366482869645213690); [lia|constructor|done|done|vm_compute; reflexivity|].
  exists 2%nat. split; [unfold BIG_ARITY_MAX; lia|vm_compute; reflexivity].
Defined.

(** Characters of a number, the last first, as a numeral. *)
Lemma numeral_rev_dval l : Forall dec_char l → numeral 10 (rev l) 0 = Some (dval l).
Proof.
  induction 1 as [|c l Hc Hl IH]; [done|]. cbn [rev dval foldr]. fold (dval l). unfold dec_char in Hc.
  rewrite numeral_app, IH. cbn [numeral]. unfold digit_of.
  destruct (Z.leb_spec 48 c), (Z.leb_spec c 57); try lia. cbn [andb].
  destruct (Z.ltb_spec (c - 48) 10); [|lia]. f_equal. lia.
Qed.

(** C28: the decimal text of a bignum reads back as the canonical term of the same
    integer. *)
Theorem text_roundtrip x z :
  bignum x z → z ≠ 0 → Z.of_nat (big_size x) <= BIG_ARITY_MAX →
  ∃ l, erts_big_to_list x = Ok l ∧ computes (erts_chars_to_integer l 10) z.
Proof.
  intros Hx Hz Hl. destruct (write_big_spec x z Hx) as (l & E & Hdec). destruct (Z.eqb_spec z 0) as [|_]; [done|].
  exists (rev (l ++ if z <? 0 then [45] else [])). split; [unfold erts_big_to_list; by rewrite E|].
  assert (fits_big (Z.abs z)) as Hfit.
  { destruct Hx as (s & v & -> & (Hd & _) & <-). exists (length v). split; [exact Hl|].
    pose proof (val_bound v Hd). unfold sval. destruct s; lia. }
  assert (zlen l < 2 ^ 31) as Hlen.
  { destruct Hfit as (n & Hn & Hb). rewrite Z.abs_eq in Hb by lia. rewrite Bp_pow in Hb.
    pose proof (decimal_length l (Z.abs z) (64 * Z.of_nat n) Hdec ltac:(lia) ltac:(lia)).
    unfold BIG_ARITY_MAX in Hn. dlia. }
  rewrite rev_app_distr. replace z with (if z <? 0 then - Z.abs z else Z.abs z) at 2 by (destruct (Z.ltb_spec z 0); lia).
  destruct Hdec as (Hf & Hv & Hne). destruct (Z.eqb_spec (Z.abs z) 0); [lia|].
  apply erts_chars_to_integer_spec; [lia|destruct (z <? 0); constructor| |unfold zlen in *; by rewrite length_rev| |done].
  - intros E0. apply (proj1 Hne). rewrite <- (rev_involutive l), E0. done.
  - rewrite <- Hv. by apply numeral_rev_dval.
Qed.

Lemma text_roundtrip_witness :
  ∃ l, erts_big_to_list (Big true [123456789; 98765]) = Ok l ∧
    computes (erts_chars_to_integer l 10) (-1821892678439923988811029).
Proof.
  apply (text_roundtrip (Big true [123456789; 98765]) (-1821892678439923988811029)); [concrete_bignum|lia|].
  vm_compute. discriminate.
Defined.

(** In a base above 10 the reader also accepts the characters between '9' and
    the letters that are below '0' + base: ":" is 3 and "1?" is 24 in base 16. *)
Theorem chars_accepts_punctuation :
  digit_of 58 = None ∧ erts_chars_to_integer [58] 16 = Ok (Small 3) ∧
  digit_of 63 = None ∧ erts_chars_to_integer [49; 63] 16 = Ok (Small 24).
Proof. vm_compute. split_and!; reflexivity. Qed.

(** The special squaring routine gives the digits of the general
    multiplication of the vector with itself. *)
Theorem sqr_is_mul x r r' :
  digits x → normal x → val x ≠ 0 → digits r → digits r' →
  (2 * length x <= length r)%nat → (2 * length x <= length r')%nat →
  ∃ p, I_sqr x (zero_digits r (S (length x))) = Ok p ∧ I_mul x x (zero_digits r' (length x)) = Ok p.
Proof.
  intros Hx Nx Zx Hr Hr' Hl Hl'. pose proof (proj1 Nx) as Hne.
  assert (0 < length x)%nat by (destruct x; [done|simpl; lia]).
  destruct (zero_digits_ok r (S (length x))) as (Zd & Zl & Zz); [done|lia|].
  destruct (zero_digits_ok r' (length x)) as (Zd' & Zl' & Zz'); [done|lia|].
  destruct (I_sqr_spec x (zero_digits r (S (length x)))) as (p & E & Hp & Hv & Np); [done..|lia|apply Zz; lia|].
  destruct (I_mul_spec x x (zero_digits r' (length x))) as (q & E' & Hq & Hv' & Nq); [done..|lia|apply Zz'; lia|].
  exists p. split; [done|]. rewrite E'. f_equal. apply val_inj; (auto || lia).
Qed.

Lemma sqr_is_mul_witness :
  ∃ p, I_sqr [5; 18446744073709551615] (zero_digits [1; 1; 1; 1] 3) = Ok p ∧
    I_mul [5; 18446744073709551615] [5; 18446744073709551615] (zero_digits [2; 2; 2; 2] 2) = Ok p.
Proof.
  apply (sqr_is_mul [5; 18446744073709551615] [1; 1; 1; 1] [2; 2; 2; 2]);
    [by repeat (apply Forall_cons; split; [lia|])|by split|vm_compute; discriminate|
     by repeat (apply Forall_cons; split; [lia|])|by repeat (apply Forall_cons; split; [lia|])|simpl; lia|simpl; lia].
Defined.

(** Long division by a digit: [D_div] returns quotient and remainder of the
    Euclidean division, the quotient in normal form, and [D_rem] the same
    remainder. *)
Theorem digit_division_correct x d :
  digits x → normal x → val x ≠ 0 → 0 < d < B →
  ∃ q r, D_div x d = Ok (q, r) ∧ D_rem x d = Ok r ∧ digits q ∧ normal q ∧
    val q = val x / d ∧ r = val x mod d.
Proof.
  intros Hx Nx Zx Hd. destruct (D_div_spec x d Hx (proj1 Nx) Hd) as (q & r & E & Hq & Hv & Hr & Nq).
  exists q, r. rewrite (D_rem_spec x d Hx (proj1 Nx) Hd).
  assert (r = val x mod d) as Er by (apply (Z.mod_unique_pos _ _ (val q)); lia).
  split_and!; [done|by rewrite Er|done|auto| |done].
  apply (Z.div_unique_pos _ _ _ r); lia.
Qed.

Lemma digit_division_correct_witness :
  ∃ q r, D_div [7; 0; 9] 10 = Ok (q, r) ∧ D_rem [7; 0; 9] 10 = Ok r ∧ digits q ∧ normal q ∧
    val q = val [7; 0; 9] / 10 ∧ r = val [7; 0; 9] mod 10.
Proof.
  apply (digit_division_correct [7; 0; 9] 10);
    [by repeat (apply Forall_cons; split; [lia|])|by split|vm_compute; discriminate|lia].
Defined.
