(* ===== verification/Arith.v ===== *)
(** Arithmetic on terms (erts/emulator/beam/erl_arith.c): the BIFs, and the functions
    that the interpreter calls when an operation on small integers overflows or has
    other operands.

    A term is an integer term of Big.v, a float or something else.  Floats are a
    parameter with the operations used.  Of the process the model has [freason], the
    heap top and the sizes of the heap fragments; storing more words than were allocated is [Fault].  The two families of
    functions differ in how they allocate: [HAlloc], or a garbage collection with the
    operands in registers; [allocator] is that difference, and the collector is the class
    [Collector].  The contents of fresh heap memory and the identity of heap objects
    (which [big_times] looks at) are parameters. *)
From S2P Require Import Prelude BigDigits BigBits Big BigSpec BigDiv.

(** * Terms and the process *)

Inductive reason := BADARITH | SYSTEM_LIMIT.

(** A heap fragment, without its memory. *)
Record ErlHeapFragment := mk_frag { alloc_size : Z; used_size : Z }.

(** [p->htop] and [p->stop] as word offsets; [MBUF(p)] with its [next] pointers as a
    list, and [p->mbuf_sz]. *)
Record Process := mk_process {
  p_freason : option reason; p_htop : Z; p_stop : Z; p_mbuf : list ErlHeapFragment; p_mbuf_sz : Z }.

Definition set_htop (p : Process) (htop : Z) : Process :=
  mk_process (p_freason p) htop (p_stop p) (p_mbuf p) (p_mbuf_sz p).
Definition set_freason (p : Process) (r : reason) : Process :=
  mk_process (Some r) (p_htop p) (p_stop p) (p_mbuf p) (p_mbuf_sz p).
Definition set_mbuf (p : Process) (mbuf : list ErlHeapFragment) (sz : Z) : Process :=
  mk_process (p_freason p) (p_htop p) (p_stop p) mbuf sz.

(** The floats: conversion, [big_to_double] (negative when it does not fit), the
    operations, and the test of ERTS_FP_ERROR. *)
Class FloatOps (flo : Type) := {
  f_of_int : Z → flo;
  big_to_double : Eterm → option flo;
  f_add : flo → flo → flo;
  f_sub : flo → flo → flo;
  f_mul : flo → flo → flo;
  f_div : flo → flo → flo;
  f_error : flo → bool }.

Inductive term (flo : Type) :=
| T (t : Eterm)
| Flo (f : flo)
| Other.
Arguments T {flo} _.
Arguments Flo {flo} _.
Arguments Other {flo}.

Definition MY_IS_SSMALL (x : Z) : bool := wrap 64 (Z.shiftr x (SMALL_BITS - 1) + 1) <? 2.
Definition BIG_NEED_SIZE (x : Z) : Z := x + 1.
Definition FLOAT_SIZE_OBJECT : Z := 2.
Definition SMALL_ZERO : Eterm := make_small 0.
Definition SMALL_ONE : Eterm := make_small 1.
Definition SMALL_MINUS_ONE : Eterm := make_small (-1).

(** [_TAG_IMMED1_SMALL] in the low four bits. *)
Definition tagged (i : Z) : Z := Z.lor (Z.shiftl i 4) 15.
Definition untagged (w : Z) : Z := Z.shiftr w 4.

(** Words a term has on the heap, and [big_size] as a number of digits. *)
Definition words (t : Eterm) : Z := if t is Big _ v then BIG_NEED_SIZE (zlen v) else 0.
Definition bsize (t : Eterm) : Z := Z.of_nat (big_size t).
Definition is_immed (t : Eterm) : bool := if t is Big _ _ then false else true.

(** * Allocation *)

(** An address: a word of the heap, or of the memory of the first fragment. *)
Inductive addr :=
| InHeap (off : Z)
| InFrag (off : Z).

Definition addr_add (a : addr) (n : Z) : addr :=
  match a with InHeap off => InHeap (off + n) | InFrag off => InFrag (off + n) end.

(** The room left in the first fragment, or a new one. *)
Definition erts_heap_alloc (p : Process) (need xtra : Z) : Process * addr :=
  let n := need + xtra in
  let fresh_frag := (set_mbuf p (mk_frag n need :: p_mbuf p) (p_mbuf_sz p + need), InFrag 0) in
  match p_mbuf p with
  | bp :: next =>
      if need <=? alloc_size bp - used_size bp
      then (set_mbuf p (mk_frag (alloc_size bp) (used_size bp + need) :: next) (p_mbuf_sz p + need), InFrag (used_size bp))
      else fresh_frag
  | [] => fresh_frag
  end.

(** On the heap, or in a heap fragment when the heap is full: the process and [hp]. *)
Definition HAlloc (p : Process) (need : Z) : Process * addr :=
  if p_stop p - p_htop p <? need then erts_heap_alloc p need 0
  else (set_htop p (p_htop p + need), InHeap (p_htop p)).

Definition erts_heap_frag_shrink (p : Process) (hp : addr) : res Process :=
  match p_mbuf p, hp with
  | hf :: next, InFrag sz =>
      Ok (set_mbuf p (mk_frag (alloc_size hf) sz :: next) (p_mbuf_sz p - (used_size hf - sz)))
  | _, _ => Fault
  end.

(** [p->heap <= hp && hp < p->htop] *)
Definition on_heap (p : Process) (hp : addr) : bool :=
  match hp with InHeap off => off <? p_htop p | InFrag _ => false end.

(** [p->htop = new], or the same for a fragment; [hp] is where the memory begins. *)
Definition shrink_to (p : Process) (hp new : addr) : res Process :=
  if on_heap p hp then (match new with InHeap off => Ok (set_htop p off) | InFrag _ => Fault end)
  else erts_heap_frag_shrink p new.

Definition maybe_shrink (p : Process) (hp : addr) (t : Eterm) (alloc : Z) : res Process :=
  if is_immed t then shrink_to p hp hp
  else if words t <? alloc then shrink_to p hp (addr_add hp (words t)) else Ok p.

Definition trim_heap (p : Process) (hp : Z) (t : Eterm) : Process :=
  if is_immed t then set_htop p hp else set_htop p (hp + words t).

(** How a function gets memory: for a result alone, or while it holds operands, of
    which the ones in temporary memory ([tmp1], [tmp2]) do not move; and how it gives
    back what it does not use. *)
Record allocator := {
  al_plain : Process → Z → res (Process * addr);
  al_args : Process → Z → bool → bool → Eterm → Eterm → res (Process * addr * Eterm * Eterm);
  al_shrink : Process → addr → Eterm → Z → res Process }.

Definition heap_alloc : allocator := {|
  al_plain p need := Ok (HAlloc p need);
  al_args p need _ _ arg1 arg2 := let '(p, hp) := HAlloc p need in Ok (p, hp, arg1, arg2);
  al_shrink := maybe_shrink |}.

Section Arith.
Context {flo : Type} `{FloatOps flo}.
(** The digits in [n] words of fresh heap, and whether two terms are one object. *)
Context (fresh : nat → list Z) (same : Eterm → Eterm → bool).
Abbreviation term := (term flo).
Abbreviation outcome := (res (Process * term)).

Definition ret (p : Process) (t : Eterm) : outcome := Ok (p, T t).
Definition fail (p : Process) (r : reason) : outcome := Ok (set_freason p r, T THE_NON_VALUE).
Abbreviation badarith p := (fail p BADARITH).

(** An operation on bignums with [need] words for its result; NIL is a result that is
    too large. *)
Definition big_op (al : allocator) (p : Process) (need : Z) (tmp1 tmp2 : bool) (arg1 arg2 : Eterm)
    (op : Eterm → Eterm → res Eterm) : outcome :=
  '(p, hp, arg1, arg2) ← al_args al p need tmp1 tmp2 arg1 arg2;
  t ← op arg1 arg2;
  if words t >? need then Fault
  else
    p ← al_shrink al p hp t need;
    if t is NIL then fail p SYSTEM_LIMIT else ret p t.

(** A small result that has overflowed, as a bignum. *)
Definition small_result (al : allocator) (p : Process) (ires : Z) : outcome :=
  if MY_IS_SSMALL ires then ret p (make_small ires)
  else '(p, _) ← al_plain al p 2; ret p (small_to_big ires).

(** The label [do_float]. *)
Definition do_float (al : allocator) (p : Process) (op : flo → flo → flo) (f1 f2 : flo) : outcome :=
  let f := op f1 f2 in
  if f_error f then badarith p
  else '(p, _) ← al_plain al p FLOAT_SIZE_OBJECT; Ok (p, Flo f).

(** [if (big_to_double(..) < 0) goto badarith] *)
Definition with_double (p : Process) (t : Eterm) (k : flo → outcome) : outcome :=
  match big_to_double t with Some f => k f | None => badarith p end.

(** The cases with a float operand, the same in all functions. *)
Definition float_cases (al : allocator) (p : Process) (op : flo → flo → flo) (arg1 arg2 : term) : outcome :=
  match arg1, arg2 with
  | T (Small i), Flo f2 => do_float al p op (f_of_int i) f2
  | T (Big s v), Flo f2 => with_double p (Big s v) (λ f1, do_float al p op f1 f2)
  | Flo f1, T (Small j) => do_float al p op f1 (f_of_int j)
  | Flo f1, T (Big s v) => with_double p (Big s v) (λ f2, do_float al p op f1 f2)
  | Flo f1, Flo f2 => do_float al p op f1 f2
  | _, _ => badarith p
  end.

(** * Addition, subtraction, multiplication, division *)

(** The label [do_big] of plus and minus. *)
Definition plus_need (arg1 arg2 : Eterm) : Z := BIG_NEED_SIZE (Z.max (bsize arg1) (bsize arg2) + 1).

Definition mixed_plus (al : allocator) (p : Process) (arg1 arg2 : term) : outcome :=
  match arg1, arg2 with
  | T (Small i), T (Small j) => small_result al p (i + j)
  | T (Small i), T (Big s v) =>
      if i =? 0 then ret p (Big s v)
      else let arg1 := small_to_big i in
           big_op al p (plus_need arg1 (Big s v)) true false arg1 (Big s v) big_plus
  | T (Big s v), T (Small j) =>
      if j =? 0 then ret p (Big s v)
      else let arg2 := small_to_big j in
           big_op al p (plus_need (Big s v) arg2) false true (Big s v) arg2 big_plus
  | T (Big s v), T (Big s' v') =>
      big_op al p (plus_need (Big s v) (Big s' v')) false false (Big s v) (Big s' v') big_plus
  | _, _ => float_cases al p f_add arg1 arg2
  end.

Definition mixed_minus (al : allocator) (p : Process) (arg1 arg2 : term) : outcome :=
  match arg1, arg2 with
  | T (Small i), T (Small j) => small_result al p (i - j)
  | T (Small i), T (Big s v) =>
      let arg1 := small_to_big i in
      big_op al p (plus_need arg1 (Big s v)) true false arg1 (Big s v) big_minus
  | T (Big s v), T (Small j) =>
      if j =? 0 then ret p (Big s v)
      else let arg2 := small_to_big j in
           big_op al p (plus_need (Big s v) arg2) false true (Big s v) arg2 big_minus
  | T (Big s v), T (Big s' v') =>
      big_op al p (plus_need (Big s v) (Big s' v')) false false (Big s v) (Big s' v') big_minus
  | _, _ => float_cases al p f_sub arg1 arg2
  end.

(** The label [do_big] of times, with [sz] digits. *)
Definition times_big (al : allocator) (p : Process) (sz : Z) (tmp1 tmp2 : bool) (arg1 arg2 : Eterm) : outcome :=
  big_op al p (BIG_NEED_SIZE sz) tmp1 tmp2 arg1 arg2
    (λ x y, big_times (same x y) x y (fresh (Z.to_nat sz))).

Definition mixed_times (al : allocator) (p : Process) (arg1 arg2 : term) : outcome :=
  match arg1, arg2 with
  | T (Small i), T (Small j) =>
      if (i =? 0) || (j =? 0) then ret p SMALL_ZERO
      else if i =? 1 then ret p (Small j)
      else if j =? 1 then ret p (Small i)
      else
        let t := small_times i j in
        if is_small t then ret p t
        else '(p, _) ← al_plain al p (words t); ret p t
  | T (Small i), T (Big s v) =>
      if i =? 0 then ret p SMALL_ZERO
      else if i =? 1 then ret p (Big s v)
      else times_big al p (2 + bsize (Big s v)) true false (small_to_big i) (Big s v)
  | T (Big s v), T (Small j) =>
      if j =? 0 then ret p SMALL_ZERO
      else if j =? 1 then ret p (Big s v)
      else times_big al p (2 + bsize (Big s v)) false true (Big s v) (small_to_big j)
  | T (Big s v), T (Big s' v') =>
      times_big al p (bsize (Big s v) + bsize (Big s' v')) false false (Big s v) (Big s' v')
  | _, _ => float_cases al p f_mul arg1 arg2
  end.

Definition mixed_div (al : allocator) (p : Process) (arg1 arg2 : term) : outcome :=
  match arg1, arg2 with
  | T (Small i), T (Small j) => do_float al p f_div (f_of_int i) (f_of_int j)
  | T (Small i), T (Big s v) =>
      with_double p (Big s v) (λ f2, do_float al p f_div (f_of_int i) f2)
  | T (Big s v), T (Small j) =>
      with_double p (Big s v) (λ f1, do_float al p f_div f1 (f_of_int j))
  | T (Big s v), T (Big s' v') =>
      with_double p (Big s v) (λ f1, with_double p (Big s' v') (λ f2, do_float al p f_div f1 f2))
  | _, _ => float_cases al p f_div arg1 arg2
  end.

(** * Integer division *)

(** The label [L_big_div]. *)
Definition L_big_div (al : allocator) (p : Process) (tmp1 tmp2 : bool) (arg1 arg2 : Eterm) : outcome :=
  ires ← big_ucomp arg1 arg2;
  if ires <? 0 then ret p SMALL_ZERO
  else if ires =? 0 then
    '(s1, _) ← big_val arg1;
    '(s2, _) ← big_val arg2;
    ret p (if eqb s1 s2 then SMALL_ONE else SMALL_MINUS_ONE)
  else
    let need := BIG_NEED_SIZE (bsize arg1 - bsize arg2 + 1) + BIG_NEED_SIZE (bsize arg1) in
    big_op al p need tmp1 tmp2 arg1 arg2 big_div.

Definition int_div (al : allocator) (p : Process) (arg1 arg2 : term) : outcome :=
  match arg1, arg2 with
  | T (Small i), T (Small j) => L_big_div al p true true (small_to_big i) (small_to_big j)
  | T (Big s v), T (Small j) => L_big_div al p false true (Big s v) (small_to_big j)
  | T (Small i), T (Big s v) =>
      if negb (i =? MIN_SMALL) then ret p SMALL_ZERO
      else L_big_div al p true false (small_to_big i) (Big s v)
  | T (Big s v), T (Big s' v') => L_big_div al p false false (Big s v) (Big s' v')
  | _, _ => badarith p
  end.

(** The label [L_big_rem]. *)
Definition L_big_rem (al : allocator) (p : Process) (tmp2 : bool) (arg1 arg2 : Eterm) : outcome :=
  ires ← big_ucomp arg1 arg2;
  if ires =? 0 then ret p SMALL_ZERO
  else if ires >? 0 then big_op al p (BIG_NEED_SIZE (bsize arg1)) false tmp2 arg1 arg2 big_rem
  else ret p arg1.

Definition int_rem (al : allocator) (p : Process) (arg1 arg2 : term) : outcome :=
  match arg1, arg2 with
  | T (Big s v), T (Small j) => L_big_rem al p true (Big s v) (small_to_big j)
  | T (Small i), T (Big s v) =>
      if negb (i =? MIN_SMALL) then ret p (Small i)
      else
        ires ← big_ucomp (small_to_big i) (Big s v);
        if ires =? 0 then ret p SMALL_ZERO else ret p (Small i)
  | T (Big s v), T (Big s' v') => L_big_rem al p false (Big s v) (Big s' v')
  | _, _ => badarith p
  end.

(** * Bitwise operations *)

(** No test for NIL here: the result is asserted not to be too large. *)
Definition logic_op (al : allocator) (p : Process) (need : Z) (tmp1 tmp2 : bool) (arg1 arg2 : Eterm)
    (op : Eterm → Eterm → res Eterm) : outcome :=
  '(p, hp, arg1, arg2) ← al_args al p need tmp1 tmp2 arg1 arg2;
  t ← op arg1 arg2;
  if words t >? need then Fault else p ← al_shrink al p hp t need; ret p t.

(** [erts_band], [erts_bor] and [erts_bxor] *)
Definition erts_logic (op : Eterm → Eterm → res Eterm) (p : Process) (arg1 arg2 : term) : outcome :=
  let big arg1 arg2 := logic_op heap_alloc p (plus_need arg1 arg2) false false arg1 arg2 op in
  match arg1, arg2 with
  | T (Small i), T (Big s v) => big (small_to_big i) (Big s v)
  | T (Big s v), T (Small j) => big (Big s v) (small_to_big j)
  | T (Big s v), T (Big s' v') => big (Big s v) (Big s' v')
  | _, _ => badarith p
  end.

(** [bnot] of a bignum, with [NIL] for an error. *)
Definition bnot_big (p : Process) (arg : Eterm) (err : Eterm) : outcome :=
  let need := BIG_NEED_SIZE (bsize arg + 1) in
  let '(p, hp) := HAlloc p need in
  t ← big_bnot arg;
  if words t >? need then Fault
  else
    p ← maybe_shrink p hp t need;
    if t is NIL then Ok (set_freason p SYSTEM_LIMIT, T err) else ret p t.

Definition erts_bnot (p : Process) (arg : term) : outcome :=
  match arg with
  | T (Big s v) => bnot_big p (Big s v) NIL
  | _ => Ok (set_freason p BADARITH, T NIL)
  end.

(** * Shifts *)

(** The label [big_shift]. *)
Definition big_shift (p : Process) (arg1 : Eterm) (i : Z) : outcome :=
  let ires :=
    if i >? 0 then bsize arg1 + i / D_EXP
    else if bsize arg1 <=? - i / D_EXP then 3 else bsize arg1 - - i / D_EXP in
  if ires - 8 >? BIG_ARITY_MAX then fail p SYSTEM_LIMIT
  else big_op heap_alloc p (BIG_NEED_SIZE (ires + 1)) false false arg1 arg1 (λ x _, big_lshift x i).

(** [((~(Uint)0 << ((SMALL_BITS-1)-i)) & x) == 0] *)
Definition high_bits_clear (i x : Z) : bool :=
  Z.land (wrap 64 (Z.shiftl (wrap 64 (Z.lnot 0)) (SMALL_BITS - 1 - i))) (wrap 64 x) =? 0.

(** The label [small_shift], for [arg1] with the value [ires]. *)
Definition small_shift (p : Process) (ires i : Z) : outcome :=
  if (i =? 0) || (ires =? 0) then ret p (Small ires)
  else if i <? 0 then
    let i := - i in
    if i >=? SMALL_BITS - 1 then ret p (if ires <? 0 then SMALL_MINUS_ONE else SMALL_ZERO)
    else ret p (make_small (Z.shiftr ires i))
  else if (i <? SMALL_BITS - 1) &&
          ((ires >? 0) && high_bits_clear i ires || high_bits_clear i (Z.lnot ires))
  then ret p (make_small (Z.shiftl ires i))
  else big_shift p (small_to_big ires) i.

(** A shift by a small integer; [i] is the distance to the left. *)
Definition shift_small (p : Process) (arg1 : term) (i : Z) : outcome :=
  match arg1 with
  | T (Small ires) => small_shift p ires i
  | T (Big s v) => if i =? 0 then ret p (Big s v) else big_shift p (Big s v) i
  | _ => badarith p
  end.

Definition shift (p : Process) (arg1 arg2 : term) (right : bool) : outcome :=
  if right then
    match arg2 with
    | T (Small j) => shift_small p arg1 (- j)
    | T (Big neg _) => shift_small p arg1 (if neg then MAX_SMALL else MIN_SMALL)
    | _ => badarith p
    end
  else
    match arg2 with
    | T (Small j) => shift_small p arg1 j
    | T (Big neg _) =>
        if neg then shift_small p arg1 MIN_SMALL
        else match arg1 with
        | T (Small _) | T (Big _ _) => fail p SYSTEM_LIMIT
        | _ => badarith p
        end
    | _ => badarith p
    end.

(** * The BIFs *)

Definition erts_mixed_plus := mixed_plus heap_alloc.
Definition erts_mixed_minus := mixed_minus heap_alloc.
Definition erts_mixed_times := mixed_times heap_alloc.
Definition erts_mixed_div := mixed_div heap_alloc.
Definition erts_int_div := int_div heap_alloc.
Definition erts_int_rem := int_rem heap_alloc.

Definition splus_1 (p : Process) (arg1 : term) : outcome :=
  match arg1 with
  | T (Small _) | T (Big _ _) | Flo _ => Ok (p, arg1)
  | _ => badarith p
  end.

Definition splus_2 := erts_mixed_plus.
Definition sminus_1 (p : Process) (arg1 : term) : outcome := erts_mixed_minus p (T (make_small 0)) arg1.
Definition sminus_2 := erts_mixed_minus.
Definition stimes_2 := erts_mixed_times.
Definition div_2 := erts_mixed_div.

(** [BIF_ARG_2 == SMALL_ZERO] *)
Definition is_small_zero (arg : term) : bool :=
  match arg with T (Small j) => j =? 0 | _ => false end.

Definition intdiv_2 (p : Process) (arg1 arg2 : term) : outcome :=
  if is_small_zero arg2 then badarith p
  else match arg1, arg2 with
  | T (Small i), T (Small j) =>
      let ires := Z.quot i j in
      if MY_IS_SSMALL ires then ret p (make_small ires) else erts_int_div p arg1 arg2
  | _, _ => erts_int_div p arg1 arg2
  end.

Definition rem_2 (p : Process) (arg1 arg2 : term) : outcome :=
  if is_small_zero arg2 then badarith p
  else match arg1, arg2 with
  | T (Small i), T (Small j) => ret p (make_small (Z.rem i j))
  | _, _ => erts_int_rem p arg1 arg2
  end.

(** The tagged words are combined directly. *)
Definition band_2 (p : Process) (arg1 arg2 : term) : outcome :=
  match arg1, arg2 with
  | T (Small i), T (Small j) => ret p (Small (untagged (Z.land (tagged i) (tagged j))))
  | _, _ => erts_logic big_band p arg1 arg2
  end.

Definition bor_2 (p : Process) (arg1 arg2 : term) : outcome :=
  match arg1, arg2 with
  | T (Small i), T (Small j) => ret p (Small (untagged (Z.lor (tagged i) (tagged j))))
  | _, _ => erts_logic big_bor p arg1 arg2
  end.

Definition bxor_2 (p : Process) (arg1 arg2 : term) : outcome :=
  match arg1, arg2 with
  | T (Small i), T (Small j) => ret p (make_small (Z.lxor i j))
  | _, _ => erts_logic big_bxor p arg1 arg2
  end.

Definition bsl_2 (p : Process) (arg1 arg2 : term) : outcome := shift p arg1 arg2 false.
Definition bsr_2 (p : Process) (arg1 arg2 : term) : outcome := shift p arg1 arg2 true.

Definition bnot_1 (p : Process) (arg1 : term) : outcome :=
  match arg1 with
  | T (Small i) => ret p (make_small (Z.lnot i))
  | T (Big s v) => bnot_big p (Big s v) THE_NON_VALUE
  | _ => badarith p
  end.

(** * With the operands in registers *)

(** [erts_garbage_collect(p, need, reg, n)]: the process and the registers afterwards. *)
Class Collector := gc : Process → Z → list term → nat → Process * list term.

(** The first [n] registers keep their values, and there is room for [need] words. *)
Class CollectorLaws `{Collector} := {
  gc_keeps p need reg n i : (i < n)%nat → (gc p need reg n).2 !! i = reg !! i;
  gc_room p need reg n : p_htop (gc p need reg n).1 + need <= p_stop (gc p need reg n).1;
  gc_freason p need reg n : p_freason (gc p need reg n).1 = p_freason p }.

Context `{Collector}.

Definition ERTS_NEED_GC (p : Process) (need : Z) : bool := p_stop p - p_htop p <=? need.

(** [reg[i]] *)
Definition reg_at (reg : list term) (i : nat) : res term :=
  match reg !! i with Some t => Ok t | None => Fault end.

(** A register that holds an integer term. *)
Definition reg_int (reg : list term) (i : nat) : res Eterm :=
  t ← reg_at reg i; match t with T t => Ok t | _ => Fault end.

(** [hp = p->htop; p->htop += need] *)
Definition heap_bump (p : Process) (need : Z) : Process * Z := (set_htop p (p_htop p + need), p_htop p).

Definition gc_alloc (reg : list term) (live : nat) : allocator := {|
  al_plain p need :=
    let p := if ERTS_NEED_GC p need then (gc p need reg live).1 else p in
    let '(p, hp) := heap_bump p need in Ok (p, InHeap hp);
  al_args p need tmp1 tmp2 arg1 arg2 :=
    '(p, arg1, arg2) ←
      (if ERTS_NEED_GC p need then
         let '(p, reg) := gc p need reg (live + 2) in
         arg1 ← (if tmp1 then Ok arg1 else reg_int reg live);
         arg2 ← (if tmp2 then Ok arg2 else reg_int reg (live + 1));
         Ok (p, arg1, arg2)
       else Ok (p, arg1, arg2));
    let '(p, hp) := heap_bump p need in Ok (p, InHeap hp, arg1, arg2);
  al_shrink p hp t _ := match hp with InHeap hp => Ok (trim_heap p hp t) | InFrag _ => Fault end |}.

(** A function called with the operands in [reg[live]] and [reg[live+1]]. *)
Definition with_regs (f : allocator → Process → term → term → outcome) (p : Process)
    (reg : list term) (live : nat) : outcome :=
  arg1 ← reg_at reg live;
  arg2 ← reg_at reg (live + 1);
  f (gc_alloc reg live) p arg1 arg2.

Definition erts_gc_mixed_plus := with_regs mixed_plus.
Definition erts_gc_mixed_minus := with_regs mixed_minus.
Definition erts_gc_mixed_times := with_regs mixed_times.
Definition erts_gc_mixed_div := with_regs mixed_div.
Definition erts_gc_int_div := with_regs int_div.
Definition erts_gc_int_rem := with_regs int_rem.

(** DEFINE_GC_LOGIC_FUNC *)
Definition gc_logic (op : Eterm → Eterm → res Eterm) (p : Process) (reg : list term) (live : nat) : outcome :=
  arg1 ← reg_at reg live;
  arg2 ← reg_at reg (live + 1);
  match arg1, arg2 with
  | T (Small i), T (Big s v) =>
      logic_op (gc_alloc reg live) p (BIG_NEED_SIZE (bsize (Big s v) + 1)) true false
        (small_to_big i) (Big s v) op
  | T (Big s v), T (Small j) =>
      logic_op (gc_alloc reg live) p (BIG_NEED_SIZE (bsize (Big s v) + 1)) false true
        (Big s v) (small_to_big j) op
  | T (Big s v), T (Big s' v') =>
      logic_op (gc_alloc reg live) p (plus_need (Big s v) (Big s' v')) false false
        (Big s v) (Big s' v') op
  | _, _ => badarith p
  end.

Definition erts_gc_bnot (p : Process) (reg : list term) (live : nat) : outcome :=
  arg ← reg_at reg live;
  match arg with
  | T (Big s v) =>
      let need := BIG_NEED_SIZE (bsize (Big s v) + 1) in
      '(p, arg) ← (if ERTS_NEED_GC p need
                   then let '(p, reg) := gc p need reg (live + 1) in
                        arg ← reg_int reg live; Ok (p, arg)
                   else Ok (p, Big s v));
      let '(p, hp) := heap_bump p need in
      t ← big_bnot arg;
      if words t >? need then Fault
      else
        let p := trim_heap p hp t in
        if t is NIL then Ok (set_freason p SYSTEM_LIMIT, T NIL) else ret p t
  | _ => Ok (set_freason p BADARITH, T NIL)
  end.

End Arith.
