(* ===== verification/ArithSpec.v ===== *)
(** Correctness of erl_arith.c (Arith.v) on integers: every operation returns the one
    canonical term of the exact result, or SYSTEM_LIMIT when it has more digits than a
    bignum can have, within the words it allocated. *)
From S2P Require Import Prelude BigDigits BigBits Big BigSpec BigDiv Arith.

(** * Integer terms *)

(** [integer t z]: the canonical term of [z], as it occurs in a running program. *)
Definition integer (t : Eterm) (z : Z) : Prop := repr z t ∧ t ≠ NIL.

(** The first number that does not fit in a bignum; sealed, since it has ten million
    decimals. *)
Definition LIMIT_aux : seal (B ^ BIG_ARITY_MAX).
Proof. by eexists. Qed.
Definition LIMIT : Z := unseal LIMIT_aux.
Lemma LIMIT_eq : LIMIT = B ^ BIG_ARITY_MAX.
Proof. unfold LIMIT. apply (seal_eq LIMIT_aux). Qed.

Lemma integer_inv t z :
  integer t z →
  (t = Small z ∧ MIN_SMALL <= z <= MAX_SMALL) ∨
  (∃ s v, t = Big s v ∧ snum s v ∧ sval s v = z ∧ ¬ (MIN_SMALL <= z <= MAX_SMALL) ∧ zlen v <= BIG_ARITY_MAX).
Proof.
  intros [[z' Hz|s v Hs Hn Hl|s v Hs Hl] Hne]; [by left|right|done]. exists s, v. done.
Qed.

Lemma integer_small z : MIN_SMALL <= z <= MAX_SMALL → integer (Small z) z.
Proof. intros Hz. split; [by apply repr_small|done]. Qed.

Lemma integer_small_inv i z : integer (Small i) z → i = z.
Proof. intros [[[= ->] _]|(s & v & [=] & _)]%integer_inv. done. Qed.

Lemma integer_make_small z : MIN_SMALL <= z <= MAX_SMALL → integer (make_small z) z.
Proof. intros Hz. rewrite make_small_id by done. by apply integer_small. Qed.

Lemma bignum_bound t z : bignum t z → Z.abs z < Bp (big_size t).
Proof. intros (s & v & -> & (Hd & _) & <-). rewrite sval_abs by done. apply val_bound. done. Qed.

Lemma LIMIT_Bp n : Z.of_nat n <= BIG_ARITY_MAX → Bp n <= LIMIT.
Proof. intros Hn. rewrite LIMIT_eq. unfold Bp. apply Z.pow_le_mono_r; lia. Qed.

Lemma Bp_LIMIT n : BIG_ARITY_MAX <= Z.of_nat n → LIMIT <= Bp n.
Proof. intros Hn. rewrite LIMIT_eq. unfold Bp. apply Z.pow_le_mono_r; lia. Qed.

Lemma LIMIT_word : B <= LIMIT.
Proof.
  rewrite LIMIT_eq. assert (1 <= BIG_ARITY_MAX) as Hm by done. set (m := BIG_ARITY_MAX) in *. clearbody m.
  rewrite <- (Z.pow_1_r B) at 1. by apply Z.pow_le_mono_r.
Qed.

Lemma repr_limit_iff z t : repr z t → (t = NIL ↔ LIMIT <= Z.abs z).
Proof.
  pose proof LIMIT_word. intros [z' Hz|s v (Hd & Hn & _) _ Hl|s v (Hd & Hn & _) Hl].
  - unfold MIN_SMALL, MAX_SMALL in Hz. split; [done|lia].
  - rewrite sval_abs by done. pose proof (val_bound v Hd). pose proof (LIMIT_Bp (length v) Hl). split; [done|lia].
  - rewrite sval_abs by done. split; [intros _|done]. unfold zlen in Hl.
    pose proof (normal_lower1 v Hn Hd ltac:(unfold BIG_ARITY_MAX in Hl; lia)).
    pose proof (Bp_LIMIT (length v - 1) ltac:(lia)). lia.
Qed.

(** A result of bounded size needs a bounded number of words. *)
Lemma repr_words z t n : repr z t → Z.abs z < Bp n → words t <= Z.of_nat n + 1.
Proof.
  intros [z' Hz|s v (Hd & Hn & _) Hns Hl|s v Hs Hl] Hb; cbn [words]; [lia| |lia].
  rewrite sval_abs in Hb by done. unfold BIG_NEED_SIZE, zlen.
  assert (val v ≠ 0) as Hv by (intros E; apply Hns; unfold sval; rewrite E; unfold MIN_SMALL, MAX_SMALL; destruct s; lia).
  pose proof (normal_lower v Hn Hd Hv). destruct (decide (length v <= n)%nat); [lia|].
  pose proof (Bp_mono n (length v - 1) ltac:(lia)). lia.
Qed.

Lemma MY_IS_SSMALL_spec x : - 2 ^ 62 <= x <= 2 ^ 62 → MY_IS_SSMALL x = bool_decide (MIN_SMALL <= x <= MAX_SMALL).
Proof.
  intros Hx. unfold MY_IS_SSMALL, SMALL_BITS. rewrite Z.shiftr_div_pow2 by lia.
  change (2 ^ (60 - 1)) with 576460752303423488. change (2 ^ 62) with 4611686018427387904 in Hx. unfold MIN_SMALL, MAX_SMALL, wrap.
  change (2 ^ 64) with B. assert (-8 <= x / 576460752303423488 <= 8) by dlia.
  destruct (Z.ltb_spec ((x / 576460752303423488 + 1) mod B) 2); symmetry; [apply bool_decide_eq_true|apply bool_decide_eq_false]; dlia.
Qed.

(** * Allocators *)

(** An allocator that keeps the operands [a1] and [a2]; [Used p p' w] says that from [p]
    to [p'] [w] words of heap were used. *)
Record good_alloc {flo} (al : allocator) (a1 a2 : term flo) (Used : Process → Process → Z → Prop) : Prop := {
  ga_refl p : Used p p 0;
  ga_plain p need : 0 <= need → ∃ p' hp, al_plain al p need = Ok (p', hp) ∧ Used p p' need;
  ga_args p need tmp1 tmp2 x1 x2 :
    0 < need → tmp1 = true ∨ a1 = T x1 → tmp2 = true ∨ a2 = T x2 →
    ∃ p' hp, al_args al p need tmp1 tmp2 x1 x2 = Ok (p', hp, x1, x2) ∧
      ∀ t, words t <= need → ∃ p'', al_shrink al p' hp t need = Ok p'' ∧ Used p p'' (words t) }.

Section Spec.
Context {flo : Type} `{FloatOps flo} (fresh : nat → list Z) (same : Eterm → Eterm → bool).
Context (fresh_ok : ∀ n, length (fresh n) = n ∧ digits (fresh n)).
Context (same_ok : ∀ x y, same x y = true → x = y).

(** [m], run in [p], returns the integer [z]. *)
Definition returns (Used : Process → Process → Z → Prop) (p : Process) (m : res (Process * term flo)) (z : Z) : Prop :=
  (Z.abs z < LIMIT → ∃ p' t w, m = Ok (p', T t) ∧ integer t z ∧ Used p p' w ∧ (w = 0 ∨ w = words t)) ∧
  (LIMIT <= Z.abs z → ∃ p', m = Ok (set_freason p' SYSTEM_LIMIT, T THE_NON_VALUE) ∧ Used p p' 0).

Section Generic.
Context (al : allocator) (a1 a2 : term flo) (Used : Process → Process → Z → Prop).
Context (Hal : good_alloc al a1 a2 Used).

Lemma returns_ret p t z : integer t z → returns Used p (ret p t) z.
Proof.
  intros [Hr Hne]. split.
  - intros _. exists p, t, 0. split_and!; [done|done|by eapply ga_refl|by left].
  - intros Hl. apply (repr_limit_iff _ _ Hr) in Hl. done.
Qed.

Lemma returns_small p z : MIN_SMALL <= z <= MAX_SMALL → returns Used p (ret p (make_small z)) z.
Proof. intros. by apply returns_ret, integer_make_small. Qed.

Lemma big_op_returns p n need tmp1 tmp2 x1 x2 op z :
  computes (op x1 x2) z → Z.abs z < Bp n → Z.of_nat n + 1 <= need →
  tmp1 = true ∨ a1 = T x1 → tmp2 = true ∨ a2 = T x2 →
  returns Used p (big_op al p need tmp1 tmp2 x1 x2 op) z.
Proof.
  intros (t & Et & Hr) Hz Hn H1 H2. unfold big_op.
  destruct (ga_args _ _ _ _ Hal p need tmp1 tmp2 x1 x2) as (p' & hp & -> & Hs); [lia|done|done|].
  rewrite bind_Ok, Et, bind_Ok. pose proof (repr_words z t n Hr Hz) as Hw.
  rewrite Z.gtb_ltb. destruct (Z.ltb_spec need (words t)); [lia|]. destruct (Hs t ltac:(lia)) as (p'' & -> & Hu). rewrite bind_Ok.
  pose proof (repr_limit_iff z t Hr) as Hlim. split.
  - intros Hsz. assert (t ≠ NIL) as Hne by (rewrite Hlim; lia).
    exists p'', t, (words t). split_and!; [by destruct t|done|done|by right].
  - intros Hl%Hlim. subst t. by exists p''.
Qed.

Lemma small_result_returns p z : - 2 ^ 62 <= z <= 2 ^ 62 → returns Used p (small_result al p z) z.
Proof.
  intros Hz. unfold small_result. rewrite MY_IS_SSMALL_spec by done. case_bool_decide as Hs; [by apply returns_small|].
  destruct (ga_plain _ _ _ _ Hal p 2) as (p' & hp & -> & Hu); [lia|]. rewrite bind_Ok.
  destruct (small_to_big_spec z) as (s & v & E & Hsn & Ev); [lia|]. rewrite E.
  assert (zlen v = 1) as Hv by (unfold small_to_big in E; destruct (z >=? 0); injection E as <- <-; done).
  assert (integer (Big s v) z) as Hi by (split; [rewrite <- Ev in *; apply repr_big; [done|done|rewrite Hv; done]|done]).
  split.
  - intros _. exists p', (Big s v), (words (Big s v)). split_and!; [done|done| |by right].
    unfold words. rewrite Hv. done.
  - intros Hl. apply (repr_limit_iff z (Big s v)) in Hl; [done|apply Hi].
Qed.

(** The operands of a case with bignums: at least one is a bignum, a small one has been
    made a bignum in temporary memory. *)
Lemma small_bignum i : MIN_SMALL <= i <= MAX_SMALL → bignum (small_to_big i) i ∧ big_size (small_to_big i) = 1%nat.
Proof.
  intros Hi. split; [apply small_to_big_spec; unfold MIN_SMALL, MAX_SMALL in Hi; lia|].
  unfold small_to_big. by destruct (i >=? 0).
Qed.

Lemma big_bignum s v z : snum s v → sval s v = z → bignum (Big s v) z.
Proof. intros. by exists s, v. Qed.

End Generic.

(** * Sizes of results *)

Lemma Bp_double n : 2 * Bp n <= Bp (n + 1).
Proof. rewrite Bp_add. change (Bp 1) with B. pose proof (Bp_pos n). lia. Qed.

Lemma sum_size x y a b :
  bignum x a → bignum y b → Z.abs a + Z.abs b < Bp (Nat.max (big_size x) (big_size y) + 1).
Proof.
  intros Ha%bignum_bound Hb%bignum_bound. pose proof (Bp_double (Nat.max (big_size x) (big_size y))).
  pose proof (Bp_mono (big_size x) (Nat.max (big_size x) (big_size y)) ltac:(lia)).
  pose proof (Bp_mono (big_size y) (Nat.max (big_size x) (big_size y)) ltac:(lia)). lia.
Qed.

Lemma plus_need_nat x y : plus_need x y = Z.of_nat (Nat.max (big_size x) (big_size y) + 1) + 1.
Proof. unfold plus_need, BIG_NEED_SIZE, bsize. lia. Qed.

Section Ops.
Context (Used : Process → Process → Z → Prop) (al : allocator) (p : Process) (t1 t2 : Eterm) (a b : Z).
Context (Hal : good_alloc (flo := flo) al (T t1) (T t2) Used) (H1 : integer t1 a) (H2 : integer t2 b).

Lemma plus_op_returns op x y tmp1 tmp2 z :
  bignum x a → bignum y b → computes (op x y) z → Z.abs z <= Z.abs a + Z.abs b →
  tmp1 = true ∨ t1 = x → tmp2 = true ∨ t2 = y →
  returns Used p (big_op (flo := flo) al p (plus_need x y) tmp1 tmp2 x y op) z.
Proof.
  intros Hx Hy Hop Hz E1 E2. eapply big_op_returns; [done|done| |rewrite plus_need_nat; reflexivity|..].
  - pose proof (sum_size x y a b Hx Hy). lia.
  - destruct E1; [by left|right; congruence].
  - destruct E2; [by left|right; congruence].
Qed.

(** The four combinations of small integers and bignums. *)
Ltac int_cases :=
  destruct (integer_inv _ _ H1) as [[E1 R1]|(s & v & E1 & S1 & V1 & N1 & L1)];
  destruct (integer_inv _ _ H2) as [[E2 R2]|(s' & v' & E2 & S2 & V2 & N2 & L2)];
  try (pose proof (big_bignum _ _ _ S1 V1) as Ba); try (pose proof (big_bignum _ _ _ S2 V2) as Bb);
  try (destruct (small_bignum a R1) as [Sa Za]); try (destruct (small_bignum b R2) as [Sb Zb]);
  rewrite E1, E2.

(** The result is an operand. *)
Lemma returns_arg1 z : z = a → returns Used p (ret p t1) z.
Proof. intros ->. by eapply returns_ret. Qed.

Lemma returns_arg2 z : z = b → returns Used p (ret p t2) z.
Proof. intros ->. by eapply returns_ret. Qed.

Lemma mixed_plus_returns : returns Used p (mixed_plus al p (T t1) (T t2)) (a + b).
Proof.
  int_cases; cbn [mixed_plus].
  - eapply small_result_returns; [done|]. unfold MIN_SMALL, MAX_SMALL in *. lia.
  - destruct (Z.eqb_spec a 0); [rewrite <- E2; apply returns_arg2; lia|].
    apply plus_op_returns; [done|done|by apply big_plus_spec|lia|by left|by right].
  - destruct (Z.eqb_spec b 0); [rewrite <- E1; apply returns_arg1; lia|].
    apply plus_op_returns; [done|done|by apply big_plus_spec|lia|by right|by left].
  - apply plus_op_returns; [done|done|by apply big_plus_spec|lia|by right..].
Qed.

Lemma mixed_minus_returns : returns Used p (mixed_minus al p (T t1) (T t2)) (a - b).
Proof.
  int_cases; cbn [mixed_minus].
  - eapply small_result_returns; [done|]. unfold MIN_SMALL, MAX_SMALL in *. lia.
  - apply plus_op_returns; [done|done|by apply big_minus_spec|lia|by left|by right].
  - destruct (Z.eqb_spec b 0); [rewrite <- E1; apply returns_arg1; lia|].
    apply plus_op_returns; [done|done|by apply big_minus_spec|lia|by right|by left].
  - apply plus_op_returns; [done|done|by apply big_minus_spec|lia|by right..].
Qed.

(** ** Multiplication *)

Lemma small_times_not_nil x y : small_times x y ≠ NIL.
Proof.
  unfold small_times. destruct (DMULc _ _ _) as [d1 d0]. unfold make_small.
  by destruct (_ && _), (xorb _ _), (d1 =? 0).
Qed.

Lemma words_nonneg t : 0 <= words t.
Proof. destruct t; cbn [words]; unfold BIG_NEED_SIZE; try lia. pose proof (zlen_nonneg v). lia. Qed.

Lemma times_big_returns sz x y tmp1 tmp2 :
  bignum x a → bignum y b → Z.of_nat (big_size x + big_size y) <= sz →
  tmp1 = true ∨ t1 = x → tmp2 = true ∨ t2 = y →
  returns Used p (times_big fresh same al p sz tmp1 tmp2 x y) (a * b).
Proof.
  intros Hx Hy Hsz E1 E2. destruct (fresh_ok (Z.to_nat sz)) as [Fl Fd].
  eapply (big_op_returns _ _ _ _ Hal _ (big_size x + big_size y)).
  - apply big_times_spec; [done|done|apply same_ok|done|lia].
  - rewrite Z.abs_mul, Bp_add. pose proof (bignum_bound _ _ Hx). pose proof (bignum_bound _ _ Hy).
    apply Z.mul_lt_mono_nonneg; lia.
  - unfold BIG_NEED_SIZE. lia.
  - destruct E1; [by left|right; congruence].
  - destruct E2; [by left|right; congruence].
Qed.

Lemma mixed_times_returns : returns Used p (mixed_times fresh same al p (T t1) (T t2)) (a * b).
Proof.
  assert (∀ z, z = 0 → returns Used p (ret p SMALL_ZERO) z) as H0.
  { intros z ->. eapply returns_small; [done|]. unfold MIN_SMALL, MAX_SMALL. lia. }
  int_cases; cbn [mixed_times]; unfold bsize; cbn [big_size].
  - destruct (Z.eqb_spec a 0), (Z.eqb_spec b 0); cbn [orb]; try (apply H0; lia).
    destruct (Z.eqb_spec a 1); [rewrite <- E2; apply returns_arg2; lia|].
    destruct (Z.eqb_spec b 1); [rewrite <- E1; apply returns_arg1; lia|].
    pose proof (small_times_spec a b R1 R2) as Hr. set (t := small_times a b) in *.
    assert (integer t (a * b)) as Hi by (split; [done|apply small_times_not_nil]).
    destruct (is_small t) eqn:Es; [by eapply returns_ret|].
    destruct (ga_plain _ _ _ _ Hal p (words t)) as (p' & hp & -> & Hu); [by apply words_nonneg|]. rewrite bind_Ok. split.
    + intros _. exists p', t, (words t). split_and!; [done|apply Hi..|done|by right].
    + intros Hl%(repr_limit_iff _ _ Hr). by destruct (small_times_not_nil a b).
  - destruct (Z.eqb_spec a 0); [apply H0; lia|]. destruct (Z.eqb_spec a 1); [rewrite <- E2; apply returns_arg2; lia|].
    apply times_big_returns; [done|done|rewrite Za; simpl; lia|by left|by right].
  - destruct (Z.eqb_spec b 0); [apply H0; lia|]. destruct (Z.eqb_spec b 1); [rewrite <- E1; apply returns_arg1; lia|].
    apply times_big_returns; [done|done|rewrite Zb; simpl; lia|by right|by left].
  - apply times_big_returns; [done|done|simpl; lia|by right..].
Qed.

(** ** Division *)

Lemma bignum_size_le x y c d : bignum x c → bignum y d → Z.abs d <= Z.abs c → (big_size y <= big_size x)%nat.
Proof.
  intros (s & v & -> & (Hv & Nv & _) & <-) (s' & w & -> & (Hw & Nw & _) & <-). rewrite !sval_abs by done.
  intros. by apply val_length.
Qed.

Lemma quot_bound c d : d ≠ 0 → Z.abs (Z.quot c d) <= Z.abs c.
Proof.
  intros Hd. rewrite <- Z.quot_abs, Z.quot_div_nonneg by lia. apply Z.div_le_upper_bound; nia.
Qed.

(** Equal magnitudes: the signs decide. *)
Lemma quot_signs s v s' w :
  snum s v → snum s' w → sval s' w ≠ 0 → Z.abs (sval s v) = Z.abs (sval s' w) →
  Z.quot (sval s v) (sval s' w) = if eqb s s' then 1 else -1.
Proof.
  intros (Hv & _ & Zv) (Hw & _ & Zw) Hne. rewrite !sval_abs by done. intros E.
  pose proof (val_bound w Hw). unfold sval in *. rewrite E.
  destruct s, s'; cbn [eqb]; rewrite ?Z.quot_opp_opp, ?Z.quot_opp_l, ?Z.quot_opp_r, Z.quot_same by lia; done.
Qed.

Lemma L_big_div_returns x y tmp1 tmp2 :
  bignum x a → bignum y b → b ≠ 0 → tmp1 = true ∨ t1 = x → tmp2 = true ∨ t2 = y →
  returns Used p (L_big_div al p tmp1 tmp2 x y) (Z.quot a b).
Proof.
  intros Hx Hy Hb E1 E2. unfold L_big_div. rewrite (big_ucomp_spec x y a b), bind_Ok by done.
  destruct (Z.compare_spec (Z.abs a) (Z.abs b)) as [E|Hlt|Hgt]; cbn [cmp Z.ltb Z.eqb Z.compare].
  - destruct Hx as (s & v & -> & Hs & Ea), Hy as (s' & w & -> & Hs' & Eb).
    cbn [big_val]. rewrite !bind_Ok. subst. rewrite quot_signs by done.
    destruct (eqb s s'); (eapply returns_small; [done|]); unfold MIN_SMALL, MAX_SMALL; lia.
  - replace (Z.quot a b) with 0 by (symmetry; by apply Z.quot_small_iff).
    eapply returns_small; [done|]. unfold MIN_SMALL, MAX_SMALL. lia.
  - pose proof (bignum_size_le x y a b Hx Hy ltac:(lia)). eapply (big_op_returns _ _ _ _ Hal _ (big_size x)).
    + apply big_div_spec; [done|done|done|lia].
    + pose proof (quot_bound a b Hb). pose proof (bignum_bound _ _ Hx). lia.
    + unfold BIG_NEED_SIZE, bsize. lia.
    + destruct E1; [by left|right; congruence].
    + destruct E2; [by left|right; congruence].
Qed.

Lemma int_div_returns : b ≠ 0 → returns Used p (int_div al p (T t1) (T t2)) (Z.quot a b).
Proof.
  intros Hb. int_cases; cbn [int_div].
  - by apply L_big_div_returns; [..|left|left].
  - destruct (Z.eqb_spec a MIN_SMALL); cbn [negb]; [by apply L_big_div_returns; [..|left|right]|].
    replace (Z.quot a b) with 0 by (symmetry; apply Z.quot_small_iff; unfold MIN_SMALL, MAX_SMALL in *; lia).
    eapply returns_small; [done|]. unfold MIN_SMALL, MAX_SMALL. lia.
  - by apply L_big_div_returns; [..|right|left].
  - by apply L_big_div_returns; [..|right|right].
Qed.

Lemma L_big_rem_returns y tmp2 :
  bignum t1 a → bignum y b → b ≠ 0 → tmp2 = true ∨ t2 = y →
  returns Used p (L_big_rem al p tmp2 t1 y) (Z.rem a b).
Proof.
  intros Hx Hy Hb E2. unfold L_big_rem. rewrite (big_ucomp_spec t1 y a b), bind_Ok by done.
  destruct (Z.compare_spec (Z.abs a) (Z.abs b)) as [E|Hlt|Hgt]; cbn [cmp Z.gtb Z.eqb Z.compare].
  - replace (Z.rem a b) with 0 by (symmetry; apply Z.rem_divide; [done|]; apply Z.abs_eq_cases in E as [-> | ->]; [|apply Z.divide_opp_r]; reflexivity).
    eapply returns_small; [done|]. unfold MIN_SMALL, MAX_SMALL. lia.
  - apply returns_arg1. by apply Z.rem_small_iff.
  - eapply (big_op_returns _ _ _ _ Hal _ (big_size t1)).
    + apply big_rem_spec; [done|done|done|lia].
    + pose proof (Z.rem_bound_abs a b Hb). pose proof (bignum_bound _ _ Hx). lia.
    + unfold BIG_NEED_SIZE, bsize. lia.
    + by right.
    + destruct E2; [by left|right; congruence].
Qed.

Lemma int_rem_returns : b ≠ 0 → is_small t1 && is_small t2 = false → returns Used p (int_rem al p (T t1) (T t2)) (Z.rem a b).
Proof.
  intros Hb Hns. int_cases; cbn [int_rem].
  - by rewrite E1, E2 in Hns.
  - assert (Z.abs a < Z.abs b ∨ a = MIN_SMALL ∧ b = - MIN_SMALL) as Hab by (unfold MIN_SMALL, MAX_SMALL in *; lia).
    destruct (Z.eqb_spec a MIN_SMALL) as [Em|]; cbn [negb].
    + rewrite (big_ucomp_spec _ _ a b), bind_Ok by done. destruct (Z.compare_spec (Z.abs a) (Z.abs b)); cbn [cmp Z.eqb].
      * replace (Z.rem a b) with 0.
        { eapply returns_small; [done|]. unfold MIN_SMALL, MAX_SMALL. lia. }
        destruct Hab as [|[-> ->]]; [lia|done].
      * rewrite <- E1. apply returns_arg1. by apply Z.rem_small_iff.
      * unfold MIN_SMALL, MAX_SMALL in *. lia.
    + rewrite <- E1. apply returns_arg1. apply Z.rem_small_iff; [done|]. unfold MIN_SMALL, MAX_SMALL in *. lia.
  - rewrite <- E1. apply L_big_rem_returns; [by rewrite E1|done..|by left].
  - rewrite <- E1. apply L_big_rem_returns; [by rewrite E1|done..|by right].
Qed.

(** ** Bitwise operations *)

Lemma logic_op_returns n need tmp1 tmp2 x y op z :
  computes (op x y) z → Z.abs z < Bp n → Z.of_nat n + 1 <= need → Z.abs z < LIMIT →
  tmp1 = true ∨ t1 = x → tmp2 = true ∨ t2 = y →
  returns Used p (logic_op al p need tmp1 tmp2 x y op) z.
Proof.
  intros (t & Et & Hr) Hz Hn Hlim E1 E2. unfold logic_op.
  destruct (ga_args _ _ _ _ Hal p need tmp1 tmp2 x y) as (p' & hp & -> & Hs);
    [lia|destruct E1; [by left|right; congruence]|destruct E2; [by left|right; congruence]|].
  rewrite bind_Ok, Et, bind_Ok. pose proof (repr_words z t n Hr Hz) as Hw.
  rewrite Z.gtb_ltb. destruct (Z.ltb_spec need (words t)); [lia|].
  destruct (Hs t ltac:(lia)) as (p'' & -> & Hu). rewrite bind_Ok. split; [|lia].
  intros _. exists p'', t, (words t). split_and!; [done|split; [done|]|done|by right].
  intros E. apply (repr_limit_iff _ _ Hr) in E. lia.
Qed.

(** The same without the test for NIL: a result that is too large is returned as NIL. *)
Lemma logic_op_nil need tmp1 tmp2 x y op z :
  computes (op x y) z → LIMIT <= Z.abs z → 0 < need →
  tmp1 = true ∨ t1 = x → tmp2 = true ∨ t2 = y →
  ∃ p', logic_op (flo := flo) al p need tmp1 tmp2 x y op = Ok (p', T NIL).
Proof.
  intros (t & Et & Hr) Hlim Hn E1 E2. unfold logic_op. apply (repr_limit_iff _ _ Hr) in Hlim as ->.
  destruct (ga_args _ _ _ _ Hal p need tmp1 tmp2 x y) as (p' & hp & -> & Hs);
    [lia|destruct E1; [by left|right; congruence]|destruct E2; [by left|right; congruence]|].
  rewrite bind_Ok, Et, bind_Ok. cbn [words]. rewrite Z.gtb_ltb. destruct (Z.ltb_spec need 0); [lia|].
  destruct (Hs NIL ltac:(cbn; lia)) as (p'' & -> & _). rewrite bind_Ok. by exists p''.
Qed.

End Ops.

(** A bitwise operation stays in the range of its operands. *)
Lemma bits_range n (c : Z) : 0 <= n → (- 2 ^ n <= c < 2 ^ n ↔ Z.shiftr c n = 0 ∨ Z.shiftr c n = -1).
Proof.
  intros Hn. rewrite Z.shiftr_div_pow2 by done. pose proof (Z.pow_pos_nonneg 2 n ltac:(lia) Hn).
  set (P := 2 ^ n) in *. clearbody P. pose proof (Z.div_mod c P ltac:(lia)). pose proof (Z.mod_pos_bound c P ltac:(lia)). split; nia.
Qed.

Lemma bitwise_range n (c d : Z) :
  0 <= n → - 2 ^ n <= c < 2 ^ n → - 2 ^ n <= d < 2 ^ n →
  (- 2 ^ n <= Z.land c d < 2 ^ n) ∧ (- 2 ^ n <= Z.lor c d < 2 ^ n) ∧ (- 2 ^ n <= Z.lxor c d < 2 ^ n).
Proof.
  intros Hn. rewrite !bits_range by done. rewrite Z.shiftr_land, Z.shiftr_lor, Z.shiftr_lxor.
  intros [-> | ->] [-> | ->]; auto.
Qed.

Lemma Bp_pow2 n : Bp n = 2 ^ (64 * Z.of_nat n).
Proof. unfold Bp. change B with (2 ^ 64). by rewrite <- Z.pow_mul_r by lia. Qed.

Lemma bitwise_size x y a b z :
  bignum x a → bignum y b → z = Z.land a b ∨ z = Z.lor a b ∨ z = Z.lxor a b →
  Z.abs z < Bp (Nat.max (big_size x) (big_size y) + 1).
Proof.
  intros Ha%bignum_bound Hb%bignum_bound Hz. set (n := Nat.max (big_size x) (big_size y)).
  pose proof (Bp_mono (big_size x) n ltac:(lia)). pose proof (Bp_mono (big_size y) n ltac:(lia)).
  pose proof (Bp_double n). pose proof (Bp_pos n). rewrite (Bp_pow2 n) in *.
  destruct (bitwise_range (64 * Z.of_nat n) a b) as (? & ? & ?); [lia..|].
  destruct Hz as [-> |[-> | ->]]; lia.
Qed.

Lemma LIMIT_pow2 : ∃ m, 0 <= m ∧ LIMIT = 2 ^ m ∧ m <= MAX_SMALL.
Proof.
  rewrite LIMIT_eq. assert (0 <= BIG_ARITY_MAX ∧ 64 * BIG_ARITY_MAX <= MAX_SMALL) as [Hm Hx] by done.
  generalize dependent BIG_ARITY_MAX. intros m Hm Hx.
  exists (64 * m). split; [lia|]. split; [|done]. change B with (2 ^ 64). by rewrite <- Z.pow_mul_r by lia.
Qed.

(** A disjunction is not below both operands. *)
Lemma lor_limit a b : Z.abs a < LIMIT → Z.abs b < LIMIT → Z.abs (Z.lor a b) < LIMIT.
Proof.
  intros Ha Hb. destruct LIMIT_pow2 as (m & Hm & E & _).
  assert (Z.lor a b < LIMIT) as Hup.
  { rewrite E in *. destruct (bitwise_range m a b) as (_ & ? & _); [done|lia..]. }
  assert (- LIMIT < Z.lor a b); [|lia].
  destruct (Z.le_gt_cases 0 (Z.lor a b)); [lia|].
  assert (Z.lor a b < 0) as Hneg%Z.lor_neg by done.
  pose proof (Z.sub_lor_l_same_l b a) as Ea. pose proof (Z.sub_lor_l_same_r a b) as Eb.
  destruct Hneg as [Hn|Hn].
  - assert (0 <= Z.land b (Z.lnot a)) by (apply Z.land_nonneg; right; unfold Z.lnot; lia). lia.
  - assert (0 <= Z.land a (Z.lnot b)) by (apply Z.land_nonneg; right; unfold Z.lnot; lia). lia.
Qed.

Lemma land_nonneg_limit a b :
  Z.abs a < LIMIT → Z.abs b < LIMIT → ¬ (a < 0 ∧ b < 0) → Z.abs (Z.land a b) < LIMIT.
Proof.
  intros Ha Hb Hn. destruct LIMIT_pow2 as (m & Hm & E & _). rewrite E in *.
  assert (0 <= Z.land a b) by (apply Z.land_nonneg; lia). destruct (bitwise_range m a b) as (? & _); lia.
Qed.

(** * With [HAlloc] *)

(** The words in use, and the heap fragments: none is overfull, and [mbuf_sz] is their
    sum. *)
Definition total (p : Process) : Z := p_htop p + p_mbuf_sz p.
Definition frag_sum (l : list ErlHeapFragment) : Z := foldr (λ f n, used_size f + n) 0 l.
Definition frags_ok (p : Process) : Prop :=
  Forall (λ f, 0 <= used_size f <= alloc_size f) (p_mbuf p) ∧ p_mbuf_sz p = frag_sum (p_mbuf p).

(** From [p] to [p'] [w] more words are in use, the heap does not run into the stack and
    the heap fragments stay in order. *)
Record heap_used (p p' : Process) (w : Z) : Prop := {
  hu_freason : p_freason p' = p_freason p;
  hu_stop : p_stop p' = p_stop p;
  hu_total : total p' = total p + w;
  hu_room : p_htop p <= p_stop p → p_htop p <= p_htop p' <= p_stop p';
  hu_frags : frags_ok p → frags_ok p' }.

(** [need] words allocated and all but [w] given back. *)
Definition allocated (p : Process) (need w : Z) : Process :=
  if p_stop p - p_htop p <? need then
    match p_mbuf p with
    | bp :: next =>
        if need <=? alloc_size bp - used_size bp
        then set_mbuf p (mk_frag (alloc_size bp) (used_size bp + w) :: next) (p_mbuf_sz p + w)
        else set_mbuf p (mk_frag need w :: p_mbuf p) (p_mbuf_sz p + w)
    | [] => set_mbuf p [mk_frag need w] (p_mbuf_sz p + w)
    end
  else set_htop p (p_htop p + w).

Lemma allocated_used p need w : 0 <= w <= need → heap_used p (allocated p need w) w.
Proof.
  intros Hw. unfold allocated, total, frags_ok. destruct p as [f h st mb sz]; cbn.
  destruct (Z.ltb_spec (st - h) need); [|by split; unfold total, frags_ok; cbn; lia || auto with lia].
  destruct mb as [|bp next]; [|destruct (Z.leb_spec need (alloc_size bp - used_size bp))];
    (split; unfold total, frags_ok, set_mbuf; cbn; [done|done|lia|lia|]).
  all: rewrite ?Forall_cons; cbn; intros [Hf Hs]; split; [|lia].
  all: (by split_and!; [lia|lia|apply Hf]) || (split; [lia|apply Hf]) || (repeat constructor; cbn; lia).
Qed.

Lemma HAlloc_eq p need : 0 <= need → (HAlloc p need).1 = allocated p need need.
Proof.
  intros Hn. unfold HAlloc, allocated, erts_heap_alloc. destruct (_ <? _); [|done].
  rewrite Z.add_0_r. destruct (p_mbuf p) as [|bp next]; [done|]. by destruct (_ <=? _).
Qed.

Lemma maybe_shrink_eq p need t :
  0 <= words t <= need → 0 < need →
  maybe_shrink (HAlloc p need).1 (HAlloc p need).2 t need = Ok (allocated p need (words t)).
Proof.
  intros Hw Hn. assert (shrink_to (HAlloc p need).1 (HAlloc p need).2 (addr_add (HAlloc p need).2 (words t)) =
    Ok (allocated p need (words t))) as Hs.
  { unfold HAlloc, allocated, erts_heap_alloc, shrink_to, erts_heap_frag_shrink. destruct (_ <? _).
    - destruct p as [f h st [|bp next] sz]; cbn; [|destruct (_ <=? _); cbn]; unfold set_mbuf; cbn; repeat f_equal; lia.
    - cbn. rewrite (proj2 (Z.ltb_lt _ _)) by lia. done. }
  unfold maybe_shrink. destruct (is_immed t) eqn:E.
  - rewrite <- Hs. f_equal. destruct t; try done; cbn [words]; destruct (HAlloc p need).2; cbn; by rewrite Z.add_0_r.
  - destruct (Z.ltb_spec (words t) need); [done|]. rewrite HAlloc_eq by lia. by replace (words t) with need by lia.
Qed.

Lemma heap_used_refl p : heap_used p p 0.
Proof. split; done || (unfold total; lia). Qed.

Lemma heap_good a1 a2 : good_alloc (flo := flo) heap_alloc a1 a2 heap_used.
Proof.
  split.
  - apply heap_used_refl.
  - intros p need Hn. exists (HAlloc p need).1, (HAlloc p need).2. cbn [al_plain heap_alloc].
    rewrite <- surjective_pairing, HAlloc_eq by done. split; [done|]. apply allocated_used. lia.
  - intros p need tmp1 tmp2 x1 x2 Hn _ _. exists (HAlloc p need).1, (HAlloc p need).2. cbn [al_args al_shrink heap_alloc].
    split; [by destruct (HAlloc p need)|]. intros t Ht. pose proof (words_nonneg t).
    rewrite maybe_shrink_eq by lia. eexists. split; [done|]. apply allocated_used. lia.
Qed.

Abbreviation returns_heap := (returns heap_used).

(** ** Bitwise operations *)

(** An integer term as the bignum the bitwise operations work on. *)
Definition as_big (t : Eterm) : Eterm := if t is Small i then small_to_big i else t.

Lemma as_big_bignum t z : integer t z → bignum (as_big t) z.
Proof.
  intros Ht. destruct (integer_inv _ _ Ht) as [[-> R]|(s & v & -> & S & V & _)];
    [by apply small_bignum|by apply big_bignum].
Qed.

(** With a bignum operand all cases are one. *)
Lemma erts_logic_big op p t1 t2 a b :
  integer t1 a → integer t2 b → is_small t1 && is_small t2 = false →
  erts_logic (flo := flo) op p (T t1) (T t2) =
    logic_op heap_alloc p (plus_need (as_big t1) (as_big t2)) false false (as_big t1) (as_big t2) op.
Proof.
  intros H1 H2 Hns. destruct (integer_inv _ _ H1) as [[-> _]|(s & v & -> & _)];
    destruct (integer_inv _ _ H2) as [[-> _]|(s' & v' & -> & _)]; done.
Qed.

Lemma erts_logic_returns op p t1 t2 a b z :
  integer t1 a → integer t2 b → is_small t1 && is_small t2 = false →
  computes (op (as_big t1) (as_big t2)) z →
  z = Z.land a b ∨ z = Z.lor a b ∨ z = Z.lxor a b → Z.abs z < LIMIT →
  returns_heap p (erts_logic op p (T t1) (T t2)) z.
Proof.
  intros H1 H2 Hns Hop Hz Hlim. erewrite erts_logic_big by done.
  pose proof (as_big_bignum _ _ H1) as Hx. pose proof (as_big_bignum _ _ H2) as Hy.
  eapply (logic_op_returns _ _ _ (as_big t1) (as_big t2) (heap_good _ _));
    [done|by eapply (bitwise_size (as_big t1) (as_big t2) a b)|rewrite plus_need_nat; reflexivity|done|by right..].
Qed.

Lemma erts_logic_nil op p t1 t2 a b z :
  integer t1 a → integer t2 b → is_small t1 && is_small t2 = false →
  computes (op (as_big t1) (as_big t2)) z → LIMIT <= Z.abs z →
  ∃ p', erts_logic (flo := flo) op p (T t1) (T t2) = Ok (p', T NIL).
Proof.
  intros H1 H2 Hns Hop Hlim. erewrite erts_logic_big by done.
  eapply (logic_op_nil _ _ _ (as_big t1) (as_big t2) (heap_good _ _)); [done|done|rewrite plus_need_nat; lia|by right..].
Qed.

(** ** Shifts *)

Lemma high_mask m w : 0 <= m < 64 → 0 <= w < B →
  (Z.land (wrap 64 (Z.shiftl (wrap 64 (Z.lnot 0)) m)) w =? 0) = (w <? 2 ^ m).
Proof.
  intros Hm Hw. assert (wrap 64 (Z.shiftl (wrap 64 (Z.lnot 0)) m) = Z.shiftl (Z.ones (64 - m)) m) as ->.
  { unfold wrap. rewrite Z.ones_equiv, !Z.shiftl_mul_pow2 by lia. change (Z.lnot 0 mod 2 ^ 64) with (2 ^ 64 - 1).
    assert (2 ^ 64 = 2 ^ (64 - m) * 2 ^ m) as E by (rewrite <- Z.pow_add_r by lia; f_equal; lia).
    pose proof (Z.pow_pos_nonneg 2 m ltac:(lia) ltac:(lia)). pose proof (Z.pow_pos_nonneg 2 (64 - m) ltac:(lia) ltac:(lia)).
    rewrite E. set (P := 2 ^ m) in *. set (Q := 2 ^ (64 - m)) in *. clearbody P Q.
    symmetry. apply (Z.mod_unique_pos _ _ (P - 1)); nia. }
  assert (Z.land (Z.shiftl (Z.ones (64 - m)) m) w = Z.shiftl (Z.shiftr w m) m) as ->.
  { apply Z.bits_inj'. intros n Hn. rewrite Z.land_spec, !Z.shiftl_spec by done.
    destruct (Z.ltb_spec n m) as [|Hnm]; [by rewrite !(Z.testbit_neg_r _ (n - m)) by lia|].
    rewrite Z.shiftr_spec by lia. replace (n - m + m) with n by lia.
    destruct (Z.ltb_spec n 64) as [|Hn64]; [rewrite Z.ones_spec_low by lia; done|].
    rewrite Z.ones_spec_high by lia. symmetry. rewrite <- (Z.mod_small w (2 ^ 64)) by done.
    by apply Z.mod_pow2_bits_high. }
  rewrite Z.shiftl_mul_pow2, Z.shiftr_div_pow2 by lia. pose proof (Z.pow_pos_nonneg 2 m ltac:(lia) ltac:(lia)).
  set (P := 2 ^ m) in *. clearbody P. pose proof (Z.div_mod w P ltac:(lia)). pose proof (Z.mod_pos_bound w P ltac:(lia)).
  destruct (Z.ltb_spec w P); [by rewrite Z.div_small, Z.mul_0_l by lia|]. apply Z.eqb_neq. assert (1 <= w / P) by nia. nia.
Qed.

Lemma high_bits_clear_spec i x :
  0 < i < 59 → - 2 ^ 60 <= x <= 2 ^ 60 → high_bits_clear i x = (0 <=? x) && (x <? 2 ^ (59 - i)).
Proof.
  intros Hi Hx. unfold high_bits_clear. change (SMALL_BITS - 1) with 59.
  rewrite high_mask by (try apply wrap_range; lia).
  assert (2 ^ (59 - i) <= 2 ^ 59) as Hp by (apply Z.pow_le_mono_r; lia). change (2 ^ 59) with 576460752303423488 in Hp.
  change (2 ^ 60) with 1152921504606846976 in Hx. set (P := 2 ^ (59 - i)) in *. clearbody P. unfold wrap. change (2 ^ 64) with B.
  destruct (Z.leb_spec 0 x); cbn [andb]; [by rewrite Z.mod_small by lia|].
  replace (x mod B) with (x + B) by (apply (Z.mod_unique_pos _ _ (-1)); lia). apply Z.ltb_ge. lia.
Qed.

(** What is allocated for a shift is enough, and what is refused is too large. *)
Lemma shift_left_size n c i : 0 <= i → Z.abs c < Bp n → Z.abs (Z.shiftl c i) < Bp (n + Z.to_nat (i / 64) + 1).
Proof.
  intros Hi Hc. rewrite Z.shiftl_mul_pow2, Z.abs_mul, !Bp_add by done. change (Bp 1) with B.
  rewrite (Z.abs_eq (2 ^ i)) by (apply Z.pow_nonneg; lia).
  assert (2 ^ i = Bp (Z.to_nat (i / 64)) * 2 ^ (i mod 64)) as ->.
  { rewrite Bp_pow2, Z2Nat.id, <- Z.pow_add_r by dlia. f_equal. dlia. }
  pose proof (Z.pow_lt_mono_r 2 (i mod 64) 64 ltac:(lia) ltac:(lia) ltac:(dlia)) as Hm.
  pose proof (Z.pow_pos_nonneg 2 (i mod 64) ltac:(lia) ltac:(dlia)). change (2 ^ 64) with B in Hm.
  pose proof (Bp_pos (Z.to_nat (i / 64))) as HP. set (P := Bp (Z.to_nat (i / 64))) in *. set (Q := 2 ^ (i mod 64)) in *.
  clearbody P Q. assert (P * Q < P * B) by nia. nia.
Qed.

Lemma shift_left_limit n c i :
  0 <= i → Bp n <= Z.abs c → BIG_ARITY_MAX <= Z.of_nat n + i / 64 → LIMIT <= Z.abs (Z.shiftl c i).
Proof.
  intros Hi Hc Hn. rewrite Z.shiftl_mul_pow2, Z.abs_mul by done. rewrite (Z.abs_eq (2 ^ i)) by (apply Z.pow_nonneg; lia).
  pose proof (Bp_LIMIT (n + Z.to_nat (i / 64)) ltac:(dlia)) as HL. rewrite Bp_add in HL.
  assert (Bp (Z.to_nat (i / 64)) <= 2 ^ i) by (rewrite Bp_pow2; apply Z.pow_le_mono_r; dlia).
  pose proof (Bp_pos n). pose proof (Bp_pos (Z.to_nat (i / 64))). nia.
Qed.

Lemma shift_right_size n c i :
  0 < i → Z.abs c < Bp n →
  Z.abs (Z.shiftl c (- i)) < Bp (if Z.of_nat n <=? i / 64 then 4 else n - Z.to_nat (i / 64) + 1).
Proof.
  intros Hi Hc. rewrite Z.shiftl_opp_r, Z.shiftr_div_pow2 by lia.
  pose proof (Z.pow_pos_nonneg 2 i ltac:(lia) ltac:(lia)) as HP.
  assert (Z.abs (c / 2 ^ i) <= Z.abs c / 2 ^ i + 1) as Hd.
  { set (P := 2 ^ i) in *. clearbody P. pose proof (Z.div_mod c P ltac:(lia)). pose proof (Z.mod_pos_bound c P ltac:(lia)).
    pose proof (Z.div_mod (Z.abs c) P ltac:(lia)). pose proof (Z.mod_pos_bound (Z.abs c) P ltac:(lia)). nia. }
  assert (Bp (Z.to_nat (i / 64)) <= 2 ^ i) as Hp by (rewrite Bp_pow2; apply Z.pow_le_mono_r; dlia).
  destruct (Z.leb_spec (Z.of_nat n) (i / 64)).
  - pose proof (Bp_mono n (Z.to_nat (i / 64)) ltac:(lia)). rewrite (Z.div_small (Z.abs c)) in Hd by lia.
    change (Bp 4) with (B * B * B * B). lia.
  - set (k := Z.to_nat (i / 64)) in *. assert (n = k + (n - k))%nat as En by lia. rewrite En, Bp_add in Hc.
    pose proof (Bp_double (n - k)). pose proof (Bp_pos (n - k)). pose proof (Bp_pos k).
    assert (Z.abs c / 2 ^ i < Bp (n - k)) by (apply Z.div_lt_upper_bound; nia). lia.
Qed.

Lemma big_shift_returns p x c i :
  bignum x c → c ≠ 0 → Z.of_nat (big_size x) <= BIG_ARITY_MAX → i ≠ 0 → - 2 ^ 63 <= i < 2 ^ 63 →
  returns_heap p (big_shift p x i) (Z.shiftl c i).
Proof.
  intros Hx Hc Hsz Hi Hr. unfold big_shift, bsize. change D_EXP with 64. rewrite !Z.gtb_ltb.
  pose proof (bignum_bound _ _ Hx) as Hb. destruct (Z.ltb_spec 0 i) as [Hp|Hp].
  - destruct (Z.ltb_spec BIG_ARITY_MAX (Z.of_nat (big_size x) + i / 64 - 8)) as [Hg|Hg].
    + assert (LIMIT <= Z.abs (Z.shiftl c i)) as HL.
      { destruct Hx as (s & v & -> & (Hd & Hn & _) & <-). cbn [big_size] in *. rewrite sval_abs in * by done.
        apply (shift_left_limit (length v - 1)); [lia| |unfold BIG_ARITY_MAX in *; lia].
        rewrite sval_abs by done. apply normal_lower; [done..|]. unfold sval in Hc. destruct s; lia. }
      split; [lia|]. intros _. exists p. split; [done|]. destruct (heap_good (T x) (T x)) as [Hrefl _ _]. apply Hrefl.
    + eapply (big_op_returns _ _ _ _ (heap_good (T x) (T x)) _ (big_size x + Z.to_nat (i / 64) + 1)).
      * by apply big_lshift_spec.
      * apply shift_left_size; [lia|done].
      * unfold BIG_NEED_SIZE. dlia.
      * by right.
      * by right.
  - set (ires := if Z.of_nat (big_size x) <=? - i / 64 then 3 else _).
    assert (ires = Z.of_nat (if Z.of_nat (big_size x) <=? - i / 64 then 4 else big_size x - Z.to_nat (- i / 64) + 1) - 1 ∧
      ires <= BIG_ARITY_MAX + 8) as [Ei Hle].
    { subst ires. unfold BIG_ARITY_MAX in *. destruct (Z.leb_spec (Z.of_nat (big_size x)) (- i / 64)); dlia. }
    destruct (Z.ltb_spec BIG_ARITY_MAX (ires - 8)); [lia|]. rewrite Ei.
    eapply (big_op_returns _ _ _ _ (heap_good (T x) (T x)) _).
    + by apply big_lshift_spec.
    + replace i with (- - i) at 1 by lia. apply (shift_right_size (big_size x)); [lia|done].
    + unfold BIG_NEED_SIZE. lia.
    + by right.
    + by right.
Qed.

Lemma heap_ret p t z : integer t z → returns_heap p (ret p t) z.
Proof. apply (returns_ret _ _ _ _ (heap_good (T t) (T t))). Qed.

Lemma small_shift_left i x : 0 < i < 59 → 0 <= x < 2 ^ (59 - i) → 0 <= x * 2 ^ i /\ x * 2 ^ i + 2 ^ i <= 2 ^ 59.
Proof.
  intros Hi Hx. assert (2 ^ 59 = 2 ^ (59 - i) * 2 ^ i) as -> by (rewrite <- Z.pow_add_r by lia; f_equal; lia).
  pose proof (Z.pow_pos_nonneg 2 i ltac:(lia) ltac:(lia)). nia.
Qed.

Lemma small_shiftr c i : MIN_SMALL <= c <= MAX_SMALL → 0 < i → MIN_SMALL <= Z.shiftr c i <= MAX_SMALL.
Proof.
  intros Hc Hi. rewrite Z.shiftr_div_pow2 by lia. pose proof (Z.pow_pos_nonneg 2 i ltac:(lia) ltac:(lia)) as HP.
  set (P := 2 ^ i) in *. clearbody P. pose proof (Z.div_mod c P ltac:(lia)). pose proof (Z.mod_pos_bound c P ltac:(lia)).
  unfold MIN_SMALL, MAX_SMALL in *. nia.
Qed.

(** Every bit shifted out leaves the sign. *)
Lemma shiftr_far m n c : 0 <= m <= n → - 2 ^ m <= c < 2 ^ m → Z.shiftr c n = if c <? 0 then -1 else 0.
Proof.
  intros Hm Hc. pose proof (Z.pow_le_mono_r 2 m n ltac:(lia) ltac:(lia)). rewrite Z.shiftr_div_pow2 by lia.
  set (P := 2 ^ n) in *. clearbody P. destruct (Z.ltb_spec c 0); [|apply Z.div_small; lia].
  symmetry. apply (Z.div_unique_pos _ _ _ (c + P)); lia.
Qed.

Lemma small_shift_returns p c i :
  MIN_SMALL <= c <= MAX_SMALL → - 2 ^ 63 <= i < 2 ^ 63 → returns_heap p (small_shift p c i) (Z.shiftl c i).
Proof.
  intros Hc Hr. unfold small_shift. change (SMALL_BITS - 1) with 59. rewrite !Z.gtb_ltb.
  destruct (Z.eqb_spec i 0) as [-> |Hi]; [by apply heap_ret, integer_small|].
  destruct (Z.eqb_spec c 0) as [-> |Hc0]; [rewrite Z.shiftl_0_l; by apply heap_ret, integer_small|]. cbn [orb].
  destruct (Z.ltb_spec i 0).
  - replace i with (- - i) at 3 by lia. rewrite Z.shiftl_opp_r, Z.geb_leb. destruct (Z.leb_spec 59 (- i)).
    + rewrite (shiftr_far 59) by (unfold MIN_SMALL, MAX_SMALL in Hc; lia).
      destruct (c <? 0); apply heap_ret, integer_make_small; done.
    + apply heap_ret, integer_make_small. apply small_shiftr; [done|lia].
  - case_match eqn:Hg.
    + apply heap_ret, integer_make_small. apply andb_prop in Hg as [Hi59%Z.ltb_lt Hg].
      pose proof (small_shift_left i). rewrite Z.shiftl_mul_pow2 by lia. change (2 ^ 59) with 576460752303423488 in *.
      pose proof (Z.pow_pos_nonneg 2 i ltac:(lia) ltac:(lia)).
      rewrite !high_bits_clear_spec in Hg by (unfold MIN_SMALL, MAX_SMALL, Z.lnot in *; lia).
      unfold MIN_SMALL, MAX_SMALL, Z.lnot in *. destruct (Z.leb_spec 0 c).
      * specialize (H1 c). rewrite (proj2 (Z.leb_gt 0 _)) in Hg by lia. cbn [andb] in Hg. rewrite orb_false_r in Hg.
        apply andb_prop in Hg as [_ Hg%Z.ltb_lt]. lia.
      * specialize (H1 (Z.pred (- c))). rewrite andb_false_l, andb_false_r, orb_false_l in Hg.
        apply andb_prop in Hg as [Hg1%Z.leb_le Hg%Z.ltb_lt]. nia.
    + destruct (small_bignum c Hc) as [Hb Hs]. apply big_shift_returns; [done|done|rewrite Hs; done|lia|lia].
Qed.

Lemma integer_limit t z : integer t z → Z.abs z < LIMIT.
Proof. intros [Hr Hn]. pose proof (repr_limit_iff z t Hr) as E. destruct (Z.lt_ge_cases (Z.abs z) LIMIT); [done|by apply E in H0]. Qed.

Lemma shift_small_returns p t c i :
  integer t c → - 2 ^ 63 <= i < 2 ^ 63 → returns_heap p (shift_small p (T t) i) (Z.shiftl c i).
Proof.
  intros Ht Hi. destruct (integer_inv _ _ Ht) as [[-> R]|(s & v & -> & S & V & R & L)]; cbn [shift_small].
  - by apply small_shift_returns.
  - destruct (Z.eqb_spec i 0) as [-> |]; [by apply heap_ret|].
    apply big_shift_returns; [by apply big_bignum| |done|done|done]. intros ->. apply R. done.
Qed.

(** A distance that is itself a bignum. *)
Lemma shift_far_right n c : Z.abs c < LIMIT → MAX_SMALL <= n → Z.shiftr c n = if c <? 0 then -1 else 0.
Proof.
  intros Hc Hn. destruct LIMIT_pow2 as (m & Hm & E & Hle). rewrite E in Hc. apply (shiftr_far m); lia.
Qed.

Lemma shift_far_left n c : c ≠ 0 → MAX_SMALL <= n → LIMIT <= Z.abs (Z.shiftl c n).
Proof.
  intros Hc Hn. destruct LIMIT_pow2 as (m & Hm & E & Hle). rewrite E.
  rewrite Z.shiftl_mul_pow2, Z.abs_mul, (Z.abs_eq (2 ^ n)) by (try apply Z.pow_nonneg; unfold MAX_SMALL in *; lia).
  pose proof (Z.pow_le_mono_r 2 m n ltac:(lia) ltac:(lia)). pose proof (Z.pow_pos_nonneg 2 m ltac:(lia) Hm). nia.
Qed.

Lemma returns_limit Used p m z z' : LIMIT <= Z.abs z → LIMIT <= Z.abs z' → returns Used p m z → returns Used p m z'.
Proof. intros ?? [_ Hl]. split; [lia|auto]. Qed.

Lemma bsr_returns p t1 t2 a b :
  integer t1 a → integer t2 b → returns_heap p (bsr_2 p (T t1) (T t2)) (Z.shiftr a b).
Proof.
  intros H1 H2. unfold bsr_2, shift. pose proof (integer_limit _ _ H1).
  destruct (integer_inv _ _ H2) as [[-> R]|(s & v & -> & S & V & R & L)].
  - rewrite <- Z.shiftl_opp_r. apply shift_small_returns; [done|unfold MIN_SMALL, MAX_SMALL in R; lia].
  - assert (0 <= val v) by (apply val_bound, S). destruct s; cbn [sval] in V.
    + pose proof (shift_small_returns p t1 a MAX_SMALL H1 ltac:(done)) as Hs.
      rewrite <- Z.shiftl_opp_r. destruct (decide (a = 0)) as [-> |]; [by rewrite !Z.shiftl_0_l in *|].
      eapply returns_limit; [| |exact Hs]; apply shift_far_left; unfold MIN_SMALL, MAX_SMALL in *; lia.
    + pose proof (shift_small_returns p t1 a MIN_SMALL H1 ltac:(done)) as Hs. change MIN_SMALL with (- (MAX_SMALL + 1)) in Hs at 2.
      rewrite Z.shiftl_opp_r, (shift_far_right _ a) in Hs by (done || lia).
      by rewrite shift_far_right by (unfold MIN_SMALL, MAX_SMALL in *; lia).
Qed.

Lemma bsl_returns p t1 t2 a b :
  integer t1 a → integer t2 b → a ≠ 0 ∨ b <= MAX_SMALL → returns_heap p (bsl_2 p (T t1) (T t2)) (Z.shiftl a b).
Proof.
  intros H1 H2 Hex. unfold bsl_2, shift. pose proof (integer_limit _ _ H1).
  destruct (integer_inv _ _ H2) as [[-> R]|(s & v & -> & S & V & R & L)].
  - apply shift_small_returns; [done|unfold MIN_SMALL, MAX_SMALL in R; lia].
  - assert (0 <= val v) by (apply val_bound, S). destruct s; cbn [sval] in V.
    + pose proof (shift_small_returns p t1 a MIN_SMALL H1 ltac:(done)) as Hs. change MIN_SMALL with (- (MAX_SMALL + 1)) in Hs at 2.
      rewrite Z.shiftl_opp_r, (shift_far_right _ a) in Hs by (done || lia).
      rewrite <- (Z.opp_involutive b), Z.shiftl_opp_r. by rewrite shift_far_right by (unfold MIN_SMALL, MAX_SMALL in *; lia).
    + unfold MIN_SMALL, MAX_SMALL in *. pose proof (shift_far_left b a ltac:(lia) ltac:(unfold MAX_SMALL; lia)).
      destruct (integer_inv _ _ H1) as [[-> _]|(? & ? & -> & _)]; (split; [lia|intros _; exists p; split; [done|apply (ga_refl _ _ _ _ (heap_good Other Other))]]).
Qed.

(** [0 bsl N] for a positive bignum N is refused, though its value is 0. *)
Lemma bsl_zero_refused p v : bsl_2 (flo := flo) p (T (Small 0)) (T (Big false v)) = Ok (set_freason p SYSTEM_LIMIT, T THE_NON_VALUE).
Proof. done. Qed.

(** ** The other BIFs *)

Lemma tagged_untagged i : untagged (tagged i) = i.
Proof.
  unfold untagged, tagged. rewrite Z.shiftr_lor, Z.shiftr_shiftl_l by done. change (Z.shiftr 15 4) with 0.
  by rewrite Z.lor_0_r, Z.shiftl_0_r.
Qed.

Lemma small_bitwise i j :
  MIN_SMALL <= i <= MAX_SMALL → MIN_SMALL <= j <= MAX_SMALL →
  (MIN_SMALL <= Z.land i j <= MAX_SMALL) ∧ (MIN_SMALL <= Z.lor i j <= MAX_SMALL) ∧ (MIN_SMALL <= Z.lxor i j <= MAX_SMALL).
Proof. intros Hi Hj. pose proof (bitwise_range 59 i j). unfold MIN_SMALL, MAX_SMALL in *. lia. Qed.

(** Division: the interpreter's quotient of two small integers overflows once, for
    [MIN_SMALL div -1]. *)
Lemma intdiv_returns p t1 t2 a b :
  integer t1 a → integer t2 b → b ≠ 0 → returns_heap p (intdiv_2 p (T t1) (T t2)) (Z.quot a b).
Proof.
  intros H1 H2 Hb. unfold intdiv_2.
  pose proof (int_div_returns heap_used heap_alloc p t1 t2 a b (heap_good _ _) H1 H2 Hb) as Hd.
  destruct (integer_inv _ _ H2) as [[-> R2]|(s & v & -> & _)]; cbn [is_small_zero];
    [rewrite (proj2 (Z.eqb_neq _ _) Hb)|]; (destruct (integer_inv _ _ H1) as [[-> R1]|(s' & v' & -> & _)]; [|done]); [|done].
  pose proof (quot_bound a b Hb). rewrite MY_IS_SSMALL_spec by (unfold MIN_SMALL, MAX_SMALL in *; lia).
  case_bool_decide; [by apply heap_ret, integer_make_small|done].
Qed.

Lemma rem_returns p t1 t2 a b :
  integer t1 a → integer t2 b → b ≠ 0 → returns_heap p (rem_2 p (T t1) (T t2)) (Z.rem a b).
Proof.
  intros H1 H2 Hb. unfold rem_2.
  pose proof (int_rem_returns heap_used heap_alloc p t1 t2 a b (heap_good _ _) H1 H2 Hb) as Hd.
  destruct (integer_inv _ _ H2) as [[-> R2]|(s & v & -> & _)]; cbn [is_small_zero];
    [rewrite (proj2 (Z.eqb_neq _ _) Hb)|]; (destruct (integer_inv _ _ H1) as [[-> R1]|(s' & v' & -> & _)]; [|by apply Hd]); [|by apply Hd].
  apply heap_ret, integer_make_small. pose proof (Z.rem_bound_abs a b Hb). unfold MIN_SMALL, MAX_SMALL in *. lia.
Qed.

Lemma untagged_land i j : untagged (Z.land (tagged i) (tagged j)) = Z.land i j.
Proof. unfold untagged. rewrite Z.shiftr_land. f_equal; apply tagged_untagged. Qed.

Lemma untagged_lor i j : untagged (Z.lor (tagged i) (tagged j)) = Z.lor i j.
Proof. unfold untagged. rewrite Z.shiftr_lor. f_equal; apply tagged_untagged. Qed.

(** Conjunction and exclusive or are exact unless the borrow is lost, or the result is
    -LIMIT, which has one digit more than the operands can have. *)
Definition logic_exact (t1 t2 : Eterm) (z : Z) : Prop :=
  is_small t1 && is_small t2 = false → no_lost_borrow (as_big t1) (as_big t2) ∧ Z.abs z < LIMIT.

(** What the bitwise operations compute with at least one bignum. *)
Definition logic_ok (op : Eterm → Eterm → res Eterm) (t1 t2 : Eterm) (z : Z) : Prop :=
  is_small t1 && is_small t2 = false → computes (op (as_big t1) (as_big t2)) z ∧ Z.abs z < LIMIT.

Section Logic.
Context (t1 t2 : Eterm) (a b : Z) (I1 : integer t1 a) (I2 : integer t2 b).

Lemma bor_ok : logic_ok big_bor t1 t2 (Z.lor a b).
Proof.
  intros _. split; [by apply big_bor_spec; apply as_big_bignum|].
  apply lor_limit; by eapply integer_limit.
Qed.

Lemma band_ok : (a < 0 → b < 0 → logic_exact t1 t2 (Z.land a b)) → logic_ok big_band t1 t2 (Z.land a b).
Proof.
  intros Hex E. split.
  - apply big_band_spec; [by apply as_big_bignum..|]. intros. by apply Hex.
  - destruct (decide (a < 0 ∧ b < 0)) as [[Ha Hb]|Hn]; [by apply Hex|].
    apply land_nonneg_limit; [by eapply integer_limit..|done].
Qed.

Lemma bxor_ok : logic_exact t1 t2 (Z.lxor a b) → logic_ok big_bxor t1 t2 (Z.lxor a b).
Proof. intros Hex E. destruct (Hex E). split; [|done]. apply big_bxor_spec; [by apply as_big_bignum..|done]. Qed.

(** A BIF that treats two small integers apart. *)
Lemma logic_bif_returns op p z m :
  z = Z.land a b ∨ z = Z.lor a b ∨ z = Z.lxor a b → logic_ok op t1 t2 z →
  (is_small t1 && is_small t2 = false → m = erts_logic op p (T t1) (T t2)) →
  (∀ i j, t1 = Small i → t2 = Small j → m = ret p (Small z)) → returns_heap p m z.
Proof.
  intros Hz Hok Hbig Hsmall. destruct (is_small t1 && is_small t2) eqn:E.
  - destruct (integer_inv _ _ I1) as [[E1 R1]|(? & ? & -> & _)]; [|done].
    destruct (integer_inv _ _ I2) as [[E2 R2]|(? & ? & -> & _)]; [|by rewrite andb_false_r in E].
    rewrite (Hsmall _ _ E1 E2). apply heap_ret, integer_small. pose proof (small_bitwise a b R1 R2) as Hb.
    destruct Hz as [-> |[-> | ->]]; apply Hb.
  - rewrite Hbig by done. by eapply erts_logic_returns; [..|apply Hok|done|apply Hok].
Qed.

Ltac logic_bif := intros; (eapply logic_bif_returns; [eauto|eauto using bor_ok, band_ok, bxor_ok|destruct t1, t2; done|intros i j -> ->]).

Lemma bor_returns p : returns_heap p (bor_2 p (T t1) (T t2)) (Z.lor a b).
Proof.
  logic_bif. cbn [bor_2]. rewrite untagged_lor. by apply integer_small_inv in I1 as ->, I2 as ->.
Qed.

Lemma band_returns p :
  (a < 0 → b < 0 → logic_exact t1 t2 (Z.land a b)) → returns_heap p (band_2 p (T t1) (T t2)) (Z.land a b).
Proof.
  logic_bif. cbn [band_2]. rewrite untagged_land. by apply integer_small_inv in I1 as ->, I2 as ->.
Qed.

Lemma bxor_returns p :
  logic_exact t1 t2 (Z.lxor a b) → returns_heap p (bxor_2 p (T t1) (T t2)) (Z.lxor a b).
Proof.
  intros Hx. assert (∀ i j, t1 = Small i → t2 = Small j → MIN_SMALL <= Z.lxor a b <= MAX_SMALL) as Hr.
  { intros i j E1 E2. destruct (integer_inv _ _ I1) as [[_ R1]|(? & ? & ? & _)]; [|congruence].
    destruct (integer_inv _ _ I2) as [[_ R2]|(? & ? & ? & _)]; [|congruence]. by apply small_bitwise. }
  logic_bif. cbn [bxor_2]. specialize (Hr i j eq_refl eq_refl). apply integer_small_inv in I1 as ->, I2 as ->.
  by rewrite make_small_id.
Qed.

End Logic.

Lemma bnot_big_eq p x :
  bnot_big (flo := flo) p x THE_NON_VALUE =
    big_op heap_alloc p (BIG_NEED_SIZE (bsize x + 1)) false false x x (λ x _, big_bnot x).
Proof. unfold bnot_big, big_op. cbn [al_args heap_alloc]. by destruct (HAlloc _ _). Qed.

Lemma bnot_returns p t a : integer t a → returns_heap p (bnot_1 p (T t)) (Z.lnot a).
Proof.
  intros Ht. destruct (integer_inv _ _ Ht) as [[-> R]|(s & v & -> & S & V & _)]; cbn [bnot_1].
  - apply heap_ret, integer_make_small. unfold Z.lnot, MIN_SMALL, MAX_SMALL in *. lia.
  - pose proof (big_bignum _ _ _ S V) as Hb. unfold Z.lnot.
    rewrite bnot_big_eq. eapply (big_op_returns heap_alloc (T (Big s v)) (T (Big s v)) _ (heap_good _ _) p (length v + 1)
      (BIG_NEED_SIZE (bsize (Big s v) + 1)) false false (Big s v) (Big s v) (λ x _, big_bnot x));
      [by apply big_bnot_spec| |unfold BIG_NEED_SIZE, bsize; cbn [big_size]; lia|by right..].
    pose proof (bignum_bound _ _ Hb) as Hsz. cbn [big_size] in Hsz. pose proof (Bp_double (length v)). pose proof (Bp_pos (length v)). lia.
Qed.

Lemma sminus_1_returns p t a : integer t a → returns_heap p (sminus_1 p (T t)) (- a).
Proof.
  intros Ht. apply (mixed_minus_returns heap_used heap_alloc p (make_small 0) t 0 a); [apply heap_good|by apply integer_make_small|done].
Qed.

(** * With the operands in registers *)

Section Registers.
Context `{CollectorLaws flo}.

(** From [p] to [p'] no error is set, and the heap does not run into the stack. *)
Definition gc_used (p p' : Process) (_ : Z) : Prop :=
  p_freason p' = p_freason p ∧ (p_htop p <= p_stop p → p_htop p' <= p_stop p').

Lemma need_gc_false p need : ERTS_NEED_GC p need = false → p_htop p + need < p_stop p.
Proof. unfold ERTS_NEED_GC. intros ?%Z.leb_gt. lia. Qed.

Lemma trim_used p p' t need :
  p_freason p' = p_freason p → p_htop p' + need <= p_stop p' → 0 <= need → words t <= need →
  gc_used p (trim_heap (set_htop p' (p_htop p' + need)) (p_htop p') t) (words t).
Proof. intros ????. unfold trim_heap. split; destruct t; cbn in *; lia || done. Qed.

Context (reg : list (term flo)) (live : nat) (a1 a2 : term flo).
Context (R1 : reg !! live = Some a1) (R2 : reg !! (live + 1)%nat = Some a2).

Lemma gc_good : good_alloc (gc_alloc reg live) a1 a2 gc_used.
Proof.
  split.
  - done.
  - intros p need Hn. cbn [al_plain gc_alloc heap_bump]. eexists _, _. split; [done|].
    destruct (ERTS_NEED_GC p need) eqn:E; unfold gc_used; cbn.
    + split; [apply gc_freason|]. intros _. apply gc_room.
    + apply need_gc_false in E. split; [done|lia].
  - intros p need tmp1 tmp2 x1 x2 Hn E1 E2. cbn [al_args al_shrink gc_alloc].
    destruct (ERTS_NEED_GC p need) eqn:E.
    + pose proof (gc_keeps p need reg (live + 2) live ltac:(lia)) as K1. pose proof (gc_keeps p need reg (live + 2) (live + 1) ltac:(lia)) as K2.
      pose proof (gc_room p need reg (live + 2)) as Hr. pose proof (gc_freason p need reg (live + 2)) as Hf.
      destruct (gc p need reg (live + 2)) as [p1 reg1]. cbn [fst snd] in *. rewrite R1 in K1. rewrite R2 in K2.
      assert ((if tmp1 then Ok x1 else reg_int reg1 live) = Ok x1) as ->.
      { destruct tmp1; [done|]. destruct E1 as [|E1]; [done|]. unfold reg_int, reg_at. by rewrite K1, E1. }
      assert ((if tmp2 then Ok x2 else reg_int reg1 (live + 1)) = Ok x2) as ->.
      { destruct tmp2; [done|]. destruct E2 as [|E2]; [done|]. unfold reg_int, reg_at. by rewrite K2, E2. }
      rewrite !bind_Ok. eexists _, _. split; [done|]. intros t Ht. eexists. split; [done|]. by apply trim_used; [..|lia|].
    + apply need_gc_false in E. rewrite bind_Ok. eexists _, _. split; [done|]. intros t Ht. eexists. split; [done|].
      apply trim_used; [done|lia..].
Qed.

Lemma with_regs_eq (f : allocator → Process → term flo → term flo → res (Process * term flo)) p :
  with_regs f p reg live = f (gc_alloc reg live) p a1 a2.
Proof. unfold with_regs, reg_at. by rewrite R1, bind_Ok, R2, bind_Ok. Qed.

Lemma gc_logic_returns op p t1 t2 a b z :
  a1 = T t1 → a2 = T t2 → integer t1 a → integer t2 b → is_small t1 && is_small t2 = false →
  computes (op (as_big t1) (as_big t2)) z →
  z = Z.land a b ∨ z = Z.lor a b ∨ z = Z.lxor a b → Z.abs z < LIMIT →
  returns gc_used p (gc_logic op p reg live) z.
Proof.
  intros E1 E2 I1 I2 Hns Hop Hz Hlim. unfold gc_logic, reg_at. rewrite R1, bind_Ok, R2, bind_Ok, E1, E2.
  pose proof (as_big_bignum _ _ I1) as Hx. pose proof (as_big_bignum _ _ I2) as Hy.
  pose proof (bitwise_size (as_big t1) (as_big t2) a b z Hx Hy Hz) as Hsz.
  pose proof gc_good as Hal. rewrite E1, E2 in Hal.
  destruct (integer_inv _ _ I1) as [[-> Q1]|(s & v & -> & S1 & V1 & _)];
    destruct (integer_inv _ _ I2) as [[-> Q2]|(s' & v' & -> & S2 & V2 & _)]; cbn [as_big] in *; try done;
    repeat match goal with HS : snum _ ?v |- _ => apply snum_ne in HS; destruct v; [done|] end;
    (eapply (logic_op_returns _ _ _ _ _ Hal); [done|done| |done|by (left + right)..]);
    unfold plus_need, bsize, BIG_NEED_SIZE in *; cbn [big_size length];
    rewrite ?(proj2 (small_bignum a Q1)), ?(proj2 (small_bignum b Q2)); lia.
Qed.

(** [erts_gc_bnot] returns NIL for an error, so only a result is described. *)
Lemma gc_bnot_returns p s v a :
  a1 = T (Big s v) → integer (Big s v) a → Z.abs (Z.lnot a) < LIMIT →
  ∃ p' t, erts_gc_bnot p reg live = Ok (p', T t) ∧ integer t (Z.lnot a) ∧ gc_used p p' (words t).
Proof.
  intros E1 Ht Hlim. unfold erts_gc_bnot, reg_at. rewrite R1, bind_Ok, E1.
  pose proof (as_big_bignum _ _ Ht) as Hb. cbn [as_big] in Hb.
  set (need := BIG_NEED_SIZE _). destruct (big_bnot_spec _ _ Hb) as (t & Et & Hr).
  assert (words t <= need) as Hw.
  { pose proof (bignum_bound _ _ Hb) as Hsz. pose proof (Bp_double (big_size (Big s v))).
    subst need. unfold BIG_NEED_SIZE, bsize. etrans; [apply (repr_words _ _ (big_size (Big s v) + 1) Hr); unfold Z.lnot; lia|lia]. }
  pose proof (words_nonneg t).
  assert (∃ p1, (if ERTS_NEED_GC p need then let '(p, reg) := gc p need reg (live + 1) in arg ← reg_int reg live; Ok (p, arg)
      else Ok (p, Big s v)) = Ok (p1, Big s v) ∧ p_freason p1 = p_freason p ∧ p_htop p1 + need <= p_stop p1) as (p1 & -> & Hf & Hroom).
  { destruct (ERTS_NEED_GC p need) eqn:E.
    - pose proof (gc_keeps p need reg (live + 1) live ltac:(lia)) as K. pose proof (gc_room p need reg (live + 1)).
      pose proof (gc_freason p need reg (live + 1)). destruct (gc p need reg (live + 1)) as [p1 reg1]. cbn [fst snd] in *.
      exists p1. unfold reg_int, reg_at. by rewrite K, R1, E1.
    - exists p. apply need_gc_false in E. split_and!; [done|done|lia]. }
  rewrite bind_Ok. cbn [heap_bump]. rewrite Et, bind_Ok, Z.gtb_ltb. destruct (Z.ltb_spec need (words t)); [lia|].
  assert (t ≠ NIL) as Hne by (intros E; apply (repr_limit_iff _ _ Hr) in E; lia).
  eexists _, t. split; [by destruct t|]. split; [done|]. apply trim_used; [done|done|lia|done].
Qed.

End Registers.

End Spec.
