(* ===== verification/ArithProps.v ===== *)
(** The properties of integer division (BigDiv.v) and of erl_arith.c (Arith.v). *)
From S2P Require Import Prelude BigDigits BigBits Big BigSpec BigProps BigDiv Arith ArithSpec.

(** * The operations *)

Inductive binop := OPlus | OMinus | OTimes | ODiv | ORem | OBand | OBor | OBxor | OBsl | OBsr.

(** What the operation means on integers; [None] for a division by zero. *)
Definition exact (op : binop) (a b : Z) : option Z :=
  match op with
  | OPlus => Some (a + b) | OMinus => Some (a - b) | OTimes => Some (a * b)
  | ODiv => if b =? 0 then None else Some (Z.quot a b)
  | ORem => if b =? 0 then None else Some (Z.rem a b)
  | OBand => Some (Z.land a b) | OBor => Some (Z.lor a b) | OBxor => Some (Z.lxor a b)
  | OBsl => Some (Z.shiftl a b) | OBsr => Some (Z.shiftr a b)
  end.

(** The borrow of the two's complement is not lost: for an exclusive or, and a conjunction
    of two negative numbers, of which one is a bignum. *)
Definition borrow_kept (op : binop) (t1 t2 : Eterm) (a b : Z) : Prop :=
  match op with
  | OBand => a < 0 → b < 0 → is_small t1 && is_small t2 = false → no_lost_borrow (as_big t1) (as_big t2)
  | OBxor => is_small t1 && is_small t2 = false → no_lost_borrow (as_big t1) (as_big t2)
  | _ => True
  end.

(** A conjunction or an exclusive or that needs one digit more than a bignum can have. *)
Definition gives_nil (op : binop) (t1 t2 : Eterm) (a b : Z) : Prop :=
  (op = OBand ∨ op = OBxor) ∧ is_small t1 && is_small t2 = false ∧
  ∃ z, exact op a b = Some z ∧ LIMIT <= Z.abs z.

(** [0 bsl N] with a positive bignum. *)
Definition refused (op : binop) (a b : Z) : Prop := op = OBsl ∧ a = 0 ∧ MAX_SMALL < b.

(** The operands on which the code is exact: all, but for a conjunction of two negative
    numbers or an exclusive or that loses a borrow or is -LIMIT, and [0 bsl N] with a
    bignum N. *)
Definition covered (op : binop) (t1 t2 : Eterm) (a b : Z) : Prop :=
  match op with
  | OBand => a < 0 → b < 0 → logic_exact t1 t2 (Z.land a b)
  | OBxor => logic_exact t1 t2 (Z.lxor a b)
  | OBsl => a ≠ 0 ∨ b <= MAX_SMALL
  | _ => True
  end.

Lemma covered_cases op t1 t2 a b :
  borrow_kept op t1 t2 a b → covered op t1 t2 a b ∨ gives_nil op t1 t2 a b ∨ refused op a b.
Proof.
  intros Hb. destruct op; cbn [covered borrow_kept] in *; try (by left).
  - destruct (is_small t1 && is_small t2) eqn:Es; [left; intros _ _ E; congruence|].
    destruct (Z.lt_ge_cases (Z.abs (Z.land a b)) LIMIT); [left|right; left; split_and!; eauto]. intros ? ? _. auto.
  - destruct (is_small t1 && is_small t2) eqn:Es; [left; intros E; congruence|].
    destruct (Z.lt_ge_cases (Z.abs (Z.lxor a b)) LIMIT); [left|right; left; split_and!; eauto]. intros _. auto.
  - destruct (decide (a = 0)); [|by left; left]. destruct (Z.le_gt_cases b MAX_SMALL); [by left; right|by right; right].
Qed.

Lemma covered_plain op t1 t2 a b :
  integer t1 a → integer t2 b → covered op t1 t2 a b → ¬ gives_nil op t1 t2 a b ∧ ¬ refused op a b.
Proof.
  intros I1 I2 Hc. split; [intros ([-> | ->] & Hs & z & [= <-] & Hz)|intros (-> & -> & ?)]; cbn [covered] in Hc.
  - destruct (band_ok t1 t2 a b I1 I2 Hc Hs). lia.
  - destruct (bxor_ok t1 t2 a b I1 I2 Hc Hs). lia.
  - destruct Hc; [done|lia].
Qed.

Section Props.
Context {flo : Type} `{FloatOps flo} (fresh : nat → list Z) (same : Eterm → Eterm → bool).
Abbreviation outcome := (res (Process * term flo)).

Definition bif (op : binop) : Process → term flo → term flo → outcome :=
  match op with
  | OPlus => splus_2 | OMinus => sminus_2 | OTimes => stimes_2 fresh same
  | ODiv => intdiv_2 | ORem => rem_2 | OBand => band_2 | OBor => bor_2 | OBxor => bxor_2
  | OBsl => bsl_2 | OBsr => bsr_2
  end.

Context (fresh_ok : ∀ n, length (fresh n) = n ∧ digits (fresh n)).
Context (same_ok : ∀ x y, same x y = true → x = y).

Lemma bif_returns op p t1 t2 a b z :
  integer t1 a → integer t2 b → covered op t1 t2 a b → exact op a b = Some z →
  returns heap_used p (bif op p (T t1) (T t2)) z.
Proof.
  intros I1 I2 Hc Hz. destruct op; cbn [exact covered bif] in *;
    try (destruct (Z.eqb_spec b 0); [done|]); injection Hz as <-.
  - eapply mixed_plus_returns; [apply heap_good|done..].
  - eapply mixed_minus_returns; [apply heap_good|done..].
  - eapply mixed_times_returns; [done|done|apply heap_good|done..].
  - by apply intdiv_returns.
  - by apply rem_returns.
  - by apply band_returns.
  - by apply bor_returns.
  - by apply bxor_returns.
  - by apply bsl_returns.
  - by apply bsr_returns.
Qed.

Lemma bif_nil op p t1 t2 a b :
  integer t1 a → integer t2 b → borrow_kept op t1 t2 a b → gives_nil op t1 t2 a b →
  ∃ p', bif op p (T t1) (T t2) = Ok (p', T NIL).
Proof.
  intros I1 I2 Hb ([-> | ->] & Hs & z & [= <-] & Hz); cbn [bif borrow_kept] in *.
  - assert (band_2 (flo := flo) p (T t1) (T t2) = erts_logic big_band p (T t1) (T t2)) as -> by (by destruct t1, t2).
    eapply erts_logic_nil; try done. apply big_band_spec; [by apply as_big_bignum..|]. auto.
  - assert (bxor_2 (flo := flo) p (T t1) (T t2) = erts_logic big_bxor p (T t1) (T t2)) as -> by (by destruct t1, t2).
    eapply erts_logic_nil; try done. apply big_bxor_spec; [by apply as_big_bignum..|]. auto.
Qed.

Lemma bif_refused op p t1 t2 a b :
  integer t1 a → integer t2 b → refused op a b →
  bif op p (T t1) (T t2) = Ok (set_freason p SYSTEM_LIMIT, T THE_NON_VALUE).
Proof.
  intros I1 I2 (-> & -> & Hb). destruct (integer_inv _ _ I1) as [[-> _]|(s & v & _ & _ & _ & [] & _)]; [|done].
  destruct (integer_inv _ _ I2) as [[_ R]|(s & v & -> & S & V & _)]; [lia|].
  destruct s; [|done]. cbn [sval] in V. pose proof (val_bound v (proj1 S)). unfold MAX_SMALL in Hb. lia.
Qed.

Lemma bif_zero op p (x : term flo) a b :
  exact op a b = None → bif op p x (T (Small b)) = Ok (set_freason p BADARITH, T THE_NON_VALUE).
Proof. destruct op; cbn [exact]; try done; destruct (Z.eqb_spec b 0) as [-> |]; done. Qed.

Lemma exact_none op a b : exact op a b = None → b = 0.
Proof. destruct op; cbn [exact]; try done; destruct (Z.eqb_spec b 0); done. Qed.

(** ** Types *)

Definition is_float (x : term flo) : bool := if x is Flo _ then true else false.

(** The terms of a running program: integers are canonical. *)
Definition well_formed (x : term flo) : Prop := if x is T t then ∃ z, integer t z else True.

(** The operands an operation takes. *)
Definition accepts (op : binop) (x : term flo) : bool :=
  match x, op with
  | T _, _ | Flo _, (OPlus | OMinus | OTimes) => true
  | _, _ => false
  end.

(** [m] ends with a number, a float when an operand is one, or with an error. *)
Definition answers (x y : term flo) (p : Process) (m : outcome) : Prop :=
  ∃ p' t, m = Ok (p', t) ∧
    (p_freason p' = p_freason p ∧ is_float t = is_float x || is_float y ∧ t ≠ Other ∧ well_formed t ∨
     is_Some (p_freason p') ∧ t = T THE_NON_VALUE).

Lemma answers_error x y p r : answers x y p (fail p r).
Proof. eexists _, _. split; [done|]. right. eauto. Qed.

Lemma answers_float x y p (g : flo → flo → flo) f1 f2 :
  is_float x || is_float y = true → answers x y p (do_float heap_alloc p g f1 f2).
Proof.
  intros Hf. unfold do_float. destruct (f_error _); [apply answers_error|].
  destruct (ga_plain _ _ _ _ (heap_good x y) p FLOAT_SIZE_OBJECT) as (p' & hp & -> & Hu); [done|].
  eexists _, _. split; [done|]. left. rewrite Hf. by split_and!; [apply (hu_freason _ _ _ Hu)|..].
Qed.

Lemma answers_double x y p t k : (∀ f, answers x y p (k f)) → answers x y p (with_double p t k).
Proof. intros Hk. unfold with_double. destruct (big_to_double t); [done|apply answers_error]. Qed.

Lemma answers_returns t1 t2 p m z : returns heap_used p m z → answers (T t1) (T t2) p m.
Proof.
  intros [H1 H2]. destruct (Z.lt_ge_cases (Z.abs z) LIMIT) as [Hz|Hz].
  - destruct (H1 Hz) as (p' & t & w & -> & Hi & Hu & _). exists p', (T t). split; [done|]. left. split_and!; [by eapply hu_freason|done..|by exists z].
  - destruct (H2 Hz) as (p' & -> & _). eexists _, _. split; [done|]. right. eauto.
Qed.

(** With a float operand. *)
Lemma float_cases_answers p g (x y : term flo) :
  well_formed x → well_formed y → is_float x || is_float y = true →
  answers x y p (float_cases heap_alloc p g x y) ∧
  (x = Other ∨ y = Other → float_cases heap_alloc p g x y = Ok (set_freason p BADARITH, T THE_NON_VALUE)).
Proof.
  intros Hx Hy Hf. split; [|by intros [-> | ->]; [|destruct x as [[]| |]]].
  destruct x as [[]| |], y as [[]| |]; try done; cbn [float_cases];
    (by apply answers_float) || (by apply answers_double; intros; apply answers_float) || apply answers_error.
Qed.

Lemma integer_zero t : integer t 0 → t = Small 0.
Proof. intros [[-> _]|(s & v & _ & _ & _ & [] & _)]%integer_inv; [done|done]. Qed.

Lemma well_formed_cases (x : term flo) :
  well_formed x → (∃ i, x = T (Small i)) ∨ (∃ s v, x = T (Big s v)) ∨ (∃ f, x = Flo f) ∨ x = Other.
Proof.
  destruct x as [t|f|]; [|eauto..]. intros [z [[-> _]|(s & v & -> & _)]%integer_inv]; eauto.
Qed.

Lemma bif_float op p x y :
  well_formed x → well_formed y → is_float x || is_float y = true → accepts op x && accepts op y = true →
  answers x y p (bif op p x y).
Proof.
  intros Hx Hy Hf Ha. pose proof (float_cases_answers p f_add x y Hx Hy Hf) as [Hp _].
  pose proof (float_cases_answers p f_sub x y Hx Hy Hf) as [Hm _]. pose proof (float_cases_answers p f_mul x y Hx Hy Hf) as [Ht _].
  destruct (well_formed_cases x Hx) as [(? & ->)|[(? & ? & ->)|[(? & ->)| ->]]];
    destruct (well_formed_cases y Hy) as [(? & ->)|[(? & ? & ->)|[(? & ->)| ->]]]; destruct op; done.
Qed.

Lemma bif_rejects op p x y :
  well_formed x → well_formed y → accepts op x && accepts op y = false →
  bif op p x y = Ok (set_freason p BADARITH, T THE_NON_VALUE).
Proof.
  intros Hx Hy Ha.
  destruct (well_formed_cases x Hx) as [(? & ->)|[(? & ? & ->)|[(? & ->)| ->]]];
    destruct (well_formed_cases y Hy) as [(? & ->)|[([] & ? & ->)|[(? & ->)| ->]]]; destruct op; try done;
    unfold bif, intdiv_2, rem_2; case_match; done.
Qed.

(** ** The operands in registers *)

Context `{CollectorLaws flo}.

Definition gc_bif (op : binop) : option (Process → list (term flo) → nat → outcome) :=
  match op with
  | OPlus => Some erts_gc_mixed_plus | OMinus => Some erts_gc_mixed_minus
  | OTimes => Some (erts_gc_mixed_times fresh same)
  | ODiv => Some erts_gc_int_div | ORem => Some erts_gc_int_rem
  | OBand => Some (gc_logic big_band) | OBor => Some (gc_logic big_bor) | OBxor => Some (gc_logic big_bxor)
  | OBsl | OBsr => None
  end.

(** Two small integers come here only from an operation that can overflow. *)
Definition overflows (op : binop) : bool :=
  match op with OPlus | OMinus | OTimes | ODiv => true | _ => false end.

Lemma gc_bif_returns op g p reg live t1 t2 a b z :
  gc_bif op = Some g → reg !! live = Some (T t1) → reg !! (live + 1)%nat = Some (T t2) →
  integer t1 a → integer t2 b → overflows op || negb (is_small t1 && is_small t2) = true →
  covered op t1 t2 a b → exact op a b = Some z → returns gc_used p (g p reg live) z.
Proof.
  intros Hg R1 R2 I1 I2 Hs Hc Hz. pose proof (gc_good reg live _ _ R1 R2) as Hal.
  destruct op; cbn [gc_bif exact covered overflows orb] in *; try done; injection Hg as <-;
    try (destruct (Z.eqb_spec b 0); [done|]); injection Hz as <-; try apply negb_true_iff in Hs;
    unfold erts_gc_mixed_plus, erts_gc_mixed_minus, erts_gc_mixed_times, erts_gc_int_div, erts_gc_int_rem;
    try (erewrite with_regs_eq by done).
  - by eapply mixed_plus_returns.
  - by eapply mixed_minus_returns.
  - by eapply mixed_times_returns.
  - by eapply int_div_returns.
  - by eapply int_rem_returns.
  - destruct (band_ok t1 t2 a b I1 I2 Hc Hs). by eapply gc_logic_returns; eauto.
  - destruct (bor_ok t1 t2 a b I1 I2 Hs). by eapply gc_logic_returns; eauto.
  - destruct (bxor_ok t1 t2 a b I1 I2 Hc Hs). by eapply gc_logic_returns; eauto.
Qed.

End Props.

(** * Properties *)

(** C14: division and remainder of bignums truncate towards zero: the quotient and the
    remainder of any two operands, the divisor not zero and not the larger one, are the
    canonical terms of [Z.quot] and [Z.rem], whatever the estimates of the quotient
    digits that had to be corrected on the way. *)
Theorem division_correct x y a b :
  bignum x a → bignum y b → b ≠ 0 → Z.abs b <= Z.abs a →
  computes (big_div x y) (Z.quot a b) ∧ computes (big_rem x y) (Z.rem a b).
Proof. intros. split; [by apply big_div_spec|by apply big_rem_spec]. Qed.

Lemma division_correct_witness :
  computes (big_div (Big true [5; 0; 3]) (Big false [7; 2])) (Z.quot (sval true [5; 0; 3]) (sval false [7; 2])) ∧
  computes (big_rem (Big true [5; 0; 3]) (Big false [7; 2])) (Z.rem (sval true [5; 0; 3]) (sval false [7; 2])).
Proof.
  apply (division_correct (Big true [5; 0; 3]) (Big false [7; 2])); [concrete_bignum|concrete_bignum|done|done].
Defined.

Section Claims.
Context {flo : Type} `{FloatOps flo} (fresh : nat → list Z) (same : Eterm → Eterm → bool).

(** C13: the arithmetic BIFs are exact: for two integers, small or not, [+], [-], [*],
    [div], [rem], [band], [bor], [bxor], [bsl] and [bsr] return the canonical term of the
    exact result, use at most the words it has, keep the heap below the stack and the
    heap fragments in order; they set SYSTEM_LIMIT when the result
    has more digits than a bignum can have, and BADARITH for a division by zero.  There are
    three exceptions: [0 bsl N] with a bignum [N] is refused with SYSTEM_LIMIT; [band] and
    [bxor] return NIL when the result is -LIMIT, which has one digit too many; and nothing is
    claimed ([borrow_kept]) for [bxor], and [band] of two negative numbers, with a bignum
    operand, when the longer operand is negative with only zero digits below the length of
    the other one: there a borrow is lost and the result is wrong. *)
Theorem arithmetic_exact op p t1 t2 a b :
  (∀ n, length (fresh n) = n ∧ digits (fresh n)) → (∀ x y, same x y = true → x = y) →
  integer t1 a → integer t2 b → borrow_kept op t1 t2 a b →
  (gives_nil op t1 t2 a b ∧ ∃ p', bif fresh same op p (T t1) (T t2) = Ok (p', T (flo := flo) NIL)) ∨
  (refused op a b ∧ bif fresh same op p (T t1) (T t2) = Ok (set_freason p SYSTEM_LIMIT, T THE_NON_VALUE)) ∨
  (¬ gives_nil op t1 t2 a b ∧ ¬ refused op a b ∧
   match exact op a b with
   | Some z => returns (flo := flo) heap_used p (bif fresh same op p (T t1) (T t2)) z
   | None => bif fresh same op p (T t1) (T t2) = Ok (set_freason p BADARITH, T THE_NON_VALUE)
   end).
Proof.
  intros Hf Hs I1 I2 Hb. destruct (covered_cases _ _ _ _ _ Hb) as [Hc|[Hn|Hr]];
    [right; right|left; split; [done|by eapply bif_nil]|right; left; split; [done|by eapply bif_refused]].
  destruct (covered_plain op t1 t2 a b I1 I2 Hc). split; [done|]. split; [done|]. destruct (exact op a b) as [z|] eqn:E; [by eapply bif_returns|].
  pose proof (exact_none _ _ _ E) as ->. rewrite (integer_zero t2) by done. by eapply bif_zero.
Qed.

(** C32: the arithmetic BIFs are type safe: with operands an operation takes, it ends
    with a number (a float if an operand is a float, otherwise an integer in canonical
    form) or with an error and no value; with any other operand it sets BADARITH.  The
    exception is [band] or [bxor] with the result -LIMIT, for which NIL is returned as if it
    were a number.  Integer operands are canonical, and nothing is claimed ([borrow_kept])
    for [bxor], and [band] of two negative numbers, when a borrow is lost between the
    digits. *)
Theorem arithmetic_typed op p (x y : term flo) :
  (∀ n, length (fresh n) = n ∧ digits (fresh n)) → (∀ x y, same x y = true → x = y) →
  well_formed x → well_formed y →
  (∀ t1 t2 a b, x = T t1 → y = T t2 → integer t1 a → integer t2 b → borrow_kept op t1 t2 a b) →
  if accepts op x && accepts op y then
    answers x y p (bif fresh same op p x y) ∨
    (∃ t1 t2 a b p', x = T t1 ∧ y = T t2 ∧ integer t1 a ∧ integer t2 b ∧ gives_nil op t1 t2 a b ∧
       bif fresh same op p x y = Ok (p', T NIL))
  else bif fresh same op p x y = Ok (set_freason p BADARITH, T THE_NON_VALUE).
Proof.
  intros Hf Hs Hx Hy Hc. destruct (accepts op x && accepts op y) eqn:Ha; [|by apply bif_rejects].
  destruct (is_float x || is_float y) eqn:Ef; [left; by apply bif_float|].
  destruct x as [t1| |], y as [t2| |]; try done. destruct Hx as [a I1], Hy as [b I2].
  specialize (Hc t1 t2 a b eq_refl eq_refl I1 I2). destruct (covered_cases _ _ _ _ _ Hc) as [Hc'|[Hn|Hr]].
  2:{ right. destruct (bif_nil fresh same op p t1 t2 a b I1 I2 Hc Hn) as [p' E]. by exists t1, t2, a, b, p'. }
  2:{ left. rewrite (bif_refused fresh same op p t1 t2 a b I1 I2 Hr). apply answers_error. }
  left. destruct (exact op a b) as [z|] eqn:E.
  - eapply answers_returns. by eapply bif_returns.
  - pose proof (exact_none _ _ _ E) as ->. rewrite (integer_zero t2) by done.
    erewrite bif_zero by done. apply answers_error.
Qed.

(** C21: with two integer operands, of which not both are small when the operation cannot
    overflow, the functions that the interpreter calls with the operands in registers
    ([+], [-], [*], [div], [rem], [band], [bor], [bxor]) return
    what the BIFs return, also when a garbage collection moves the operands in between
    (under [CollectorLaws]), and leave the heap below the stack.  Floats, division by zero
    and the operands on which the bitwise operations are not exact ([covered]: a lost
    borrow, a result of -LIMIT) are not part of the claim. *)
Theorem registers_equivalent `{CollectorLaws flo} op g p reg live t1 t2 a b z :
  (∀ n, length (fresh n) = n ∧ digits (fresh n)) → (∀ x y, same x y = true → x = y) →
  gc_bif fresh same op = Some g → reg !! live = Some (T t1) → reg !! (live + 1)%nat = Some (T t2) →
  integer t1 a → integer t2 b → overflows op || negb (is_small t1 && is_small t2) = true →
  covered op t1 t2 a b → exact op a b = Some z → p_htop p <= p_stop p →
  ∃ p1 p2 t, bif fresh same op p (T t1) (T t2) = Ok (p1, T t) ∧ g p reg live = Ok (p2, T t) ∧
    p_freason p1 = p_freason p2 ∧ p_htop p2 <= p_stop p2.
Proof.
  intros Hf Hs Hg R1 R2 I1 I2 Hsm Hc Hz Hh.
  assert (returns heap_used p (bif fresh same op p (T t1) (T t2)) z) as [A1 A2] by by eapply bif_returns.
  assert (returns gc_used p (g p reg live) z) as [B1 B2] by by eapply gc_bif_returns.
  destruct (Z.lt_ge_cases (Z.abs z) LIMIT) as [Hl|Hl].
  - destruct (A1 Hl) as (p1 & t & w & -> & [Ht _] & Hu & _), (B1 Hl) as (p2 & t' & w' & -> & [Ht' _] & [Hf2 Hst] & _).
    exists p1, p2, t. rewrite (repr_functional z t' t) by done.
    split_and!; [done|done|by rewrite Hf2, (hu_freason _ _ _ Hu)|by apply Hst].
  - destruct (A2 Hl) as (p1 & -> & _), (B2 Hl) as (p2 & -> & [_ Hst]).
    eexists _, _, _. split_and!; [done|done|done|by apply Hst].
Qed.

End Claims.

(** ** Witnesses *)

(** One float, memory of zeros, no two operands the same object, and a collector that
    leaves nothing but the registers. *)
Definition one_float : FloatOps unit := {|
  f_of_int _ := tt; big_to_double _ := Some tt; f_add _ _ := tt; f_sub _ _ := tt; f_mul _ _ := tt;
  f_div _ _ := tt; f_error _ := false |}.
Definition zeros (n : nat) : list Z := repeat 0 n.
Definition distinct (_ _ : Eterm) : bool := false.
Definition compact : Collector (flo := unit) := λ p need reg _, (mk_process (p_freason p) 0 need [] 0, reg).

Lemma zeros_ok n : length (zeros n) = n ∧ digits (zeros n).
Proof. split; [apply repeat_length|]. by apply Forall_forall; intros x ->%list_elem_of_In%repeat_spec. Qed.

Lemma compact_laws : CollectorLaws (H0 := compact).
Proof. split; intros; cbn; done || lia. Qed.

Lemma integer_big s v :
  snumb s v = true → bool_decide (MIN_SMALL <= sval s v <= MAX_SMALL) = false → zlen v <= BIG_ARITY_MAX →
  integer (Big s v) (sval s v).
Proof. intros Hs Hn%bool_decide_eq_false Hl. split; [|done]. by apply repr_big; [apply snumb_ok|..]. Qed.

Lemma arithmetic_exact_witness :
  returns heap_used (mk_process None 10 20 [] 0)
    (bif (H := one_float) zeros distinct ODiv (mk_process None 10 20 [] 0) (T (Big true [0; 7])) (T (Small 3)))
    (Z.quot (sval true [0; 7]) 3).
Proof.
  destruct (arithmetic_exact (H := one_float) zeros distinct ODiv (mk_process None 10 20 [] 0) (Big true [0; 7]) (Small 3) (sval true [0; 7]) 3)
    as [[[[] _] _]|[[[] _]|(_ & _ & Hr)]];
    [apply zeros_ok|done|by apply integer_big|by apply integer_small|done|discriminate|discriminate|discriminate|exact Hr].
Defined.

Lemma arithmetic_typed_witness :
  answers (Flo tt) (T (Small 3)) (mk_process None 10 20 [] 0)
    (bif (H := one_float) zeros distinct OPlus (mk_process None 10 20 [] 0) (Flo tt) (T (Small 3))).
Proof.
  pose proof (arithmetic_typed (H := one_float) zeros distinct OPlus (mk_process None 10 20 [] 0) (Flo tt) (T (Small 3))) as Ht.
  cbn [accepts andb] in Ht. destruct Ht as [Ha|(t1 & t2 & a & b & p' & E & _)];
    [apply zeros_ok|done|done|exists 3; by apply integer_small|done|exact Ha|discriminate].
Defined.

Lemma registers_equivalent_witness :
  ∃ p1 p2 t, bif (H := one_float) zeros distinct OMinus (mk_process None 10 11 [] 0) (T (Small 5)) (T (Big false [0; 7])) = Ok (p1, T t) ∧
    erts_gc_mixed_minus (H := one_float) (H0 := compact) (mk_process None 10 11 [] 0) [Other; T (Small 5); T (Big false [0; 7])] 1 = Ok (p2, T t) ∧
    p_freason p1 = p_freason p2 ∧ p_htop p2 <= p_stop p2.
Proof.
  apply (registers_equivalent (H := one_float) (H0 := compact) (H1 := compact_laws) zeros distinct OMinus _ (mk_process None 10 11 [] 0)
    [Other; T (Small 5); T (Big false [0; 7])] 1 (Small 5) (Big false [0; 7]) 5 (sval false [0; 7]) (5 - sval false [0; 7]));
    [apply zeros_ok|done|done|done|done|by apply integer_small|by apply integer_big|done|done|done|cbn; lia].
Defined.
