(* ===== verification/Scan.v ===== *)
(** Scanning of byte buffers: the character classes of <ctype.h>, [memchr], [memcmp],
    [strncmp] and [strncasecmp] of the C library, and the loops
    [while (n && p( *ptr )) { ptr++; n--; }] that the protocol parsers are made of.

    A position is an offset into the buffer; reading outside it is [Fault].  The
    fuel of every loop is one more than the length of the buffer: each round
    advances the position by one, so a loop leaves the buffer before it runs out
    of fuel. *)
From S2P Require Import Prelude.
From Stdlib Require Ascii String.

(** The bytes of a string literal (without the terminating NUL). *)
Definition str (s : string) : bytes :=
  map (λ c, Z.of_N (Ascii.N_of_ascii c)) (String.list_ascii_of_string s).

(** * <ctype.h> in the C locale *)

Definition isdigit (c : Z) : bool := (48 <=? c) && (c <=? 57).
Definition isupper (c : Z) : bool := (65 <=? c) && (c <=? 90).
Definition islower (c : Z) : bool := (97 <=? c) && (c <=? 122).
Definition toupper (c : Z) : Z := if islower c then c - 32 else c.
Definition tolower (c : Z) : Z := if isupper c then c + 32 else c.

(** * The C library *)

(** Loops run at most this often. *)
Definition loop_fuel (b : bytes) : nat := S (length b).

(** [memchr(b + s, c, n)]: the offset of the first [c], [None] for NULL. *)
Fixpoint memchr_loop (fuel : nat) (b : bytes) (s c n : Z) : res (option Z) :=
  if n =? 0 then Ok None
  else match fuel with
  | O => NoFuel
  | S fuel =>
      x ← rd b s;
      if x =? c then Ok (Some s) else memchr_loop fuel b (s + 1) c (n - 1)
  end.
Definition memchr (b : bytes) (s c n : Z) : res (option Z) :=
  memchr_loop (loop_fuel b) b s c n.

(** [strncmp(b + s, lit, strlen(lit)) == 0], for a literal: the comparison stops
    at the first difference. *)
Fixpoint strncmp_eq (b : bytes) (s : Z) (lit : bytes) : res bool :=
  match lit with
  | [] => Ok true
  | x :: lit =>
      c ← rd b s;
      if c =? x then strncmp_eq b (s + 1) lit else Ok false
  end.

(** [strncasecmp(b + s, lit, strlen(lit)) == 0]. *)
Fixpoint strncasecmp_eq (b : bytes) (s : Z) (lit : bytes) : res bool :=
  match lit with
  | [] => Ok true
  | x :: lit =>
      c ← rd b s;
      if tolower c =? tolower x then strncasecmp_eq b (s + 1) lit else Ok false
  end.

(** * Loops over a position and a count *)

(** [while (n && p( *ptr )) { ptr++; n--; }] *)
Fixpoint skip_while_loop (fuel : nat) (p : Z → bool) (b : bytes) (ptr n : Z) : res (Z * Z) :=
  if n =? 0 then Ok (ptr, n)
  else match fuel with
  | O => NoFuel
  | S fuel =>
      c ← rd b ptr;
      if p c then skip_while_loop fuel p b (ptr + 1) (n - 1) else Ok (ptr, n)
  end.
Definition skip_while (p : Z → bool) (b : bytes) (ptr n : Z) : res (Z * Z) :=
  skip_while_loop (loop_fuel b) p b ptr n.

(** The same loop with an accumulator [acc = f(acc, *ptr)] in its body. *)
Fixpoint fold_loop (fuel : nat) (p : Z → bool) (f : Z → Z → Z) (b : bytes)
    (acc ptr n : Z) : res (Z * Z * Z) :=
  if n =? 0 then Ok (acc, ptr, n)
  else match fuel with
  | O => NoFuel
  | S fuel =>
      c ← rd b ptr;
      if p c then fold_loop fuel p f b (f acc c) (ptr + 1) (n - 1)
      else Ok (acc, ptr, n)
  end.
Definition fold_while p f (b : bytes) (acc ptr n : Z) : res (Z * Z * Z) :=
  fold_loop (loop_fuel b) p f b acc ptr n.

(** * Lemmas *)

Lemma rd_lookup b s c : rd b s = Ok c ↔ 0 <= s ∧ b !! Z.to_nat s = Some c.
Proof.
  unfold rd. destruct (Z.ltb_spec s 0).
  - split; [done|lia].
  - split.
    + destruct (b !! Z.to_nat s); [by intros [= ->]|done].
    + by intros [_ ->].
Qed.

Lemma rd_in b s : 0 <= s < zlen b → ∃ c, rd b s = Ok c.
Proof.
  intros Hs. destruct (lookup_lt_is_Some_2 b (Z.to_nat s)) as [c Hc].
  { unfold zlen in Hs. lia. }
  exists c. apply rd_lookup. split; [lia|done].
Qed.

Lemma rd_byte b s c : Forall byte b → rd b s = Ok c → byte c.
Proof. intros Hb [_ H]%rd_lookup. by eapply Forall_lookup_1. Qed.

Lemma rd_app_l b e s : 0 <= s < zlen b → rd (b ++ e) s = rd b s.
Proof.
  intros Hs. unfold rd. destruct (s <? 0); [done|].
  rewrite lookup_app_l; [done|]. unfold zlen in Hs. lia.
Qed.

Lemma rd_app_r b e s : 0 <= s → rd (b ++ e) (zlen b + s) = rd e s.
Proof.
  intros Hs. unfold rd, zlen.
  destruct (Z.ltb_spec (Z.of_nat (length b) + s) 0), (Z.ltb_spec s 0); try lia.
  rewrite lookup_app_r by lia.
  by replace (Z.to_nat (Z.of_nat (length b) + s) - length b)%nat with (Z.to_nat s) by lia.
Qed.

Lemma rd_app_hd b x e : rd (b ++ x :: e) (zlen b) = Ok x.
Proof. by rewrite <- (Z.add_0_r (zlen b)), rd_app_r. Qed.

(** The part of [b] that a loop at [ptr] with count [n] can see. *)
Definition window (b : bytes) (ptr n : Z) : Prop := 0 <= ptr ∧ 0 <= n ∧ ptr + n <= zlen b.

Lemma memchr_loop_spec fuel b s c n :
  window b s n → (Z.to_nat n < fuel)%nat →
  (memchr_loop fuel b s c n = Ok None ∧ ∀ i, s <= i < s + n → rd b i ≠ Ok c) ∨
  (∃ i, memchr_loop fuel b s c n = Ok (Some i) ∧ s <= i < s + n ∧ rd b i = Ok c ∧
        ∀ j, s <= j < i → rd b j ≠ Ok c).
Proof.
  revert s n. induction fuel as [|fuel IH]; intros s n (Hs & Hn & Hb) Hf; [lia|].
  cbn [memchr_loop]. destruct (Z.eqb_spec n 0) as [->|Hn0]; [left; split; [done|lia]|].
  destruct (rd_in b s) as [x Hx]; [lia|]. rewrite Hx. simpl.
  destruct (Z.eqb_spec x c) as [->|Hxc].
  { right. exists s. repeat split; auto; try lia. }
  destruct (IH (s + 1) (n - 1)) as [[-> Hno]|(i & -> & Hi & Hrd & Hj)];
    [repeat split; lia|lia| |].
  - left. split; [done|]. intros i Hi. destruct (decide (i = s)) as [->|].
    + rewrite Hx. congruence.
    + apply Hno. lia.
  - right. exists i. repeat split; auto; try lia.
    intros j Hj'. destruct (decide (j = s)) as [->|]; [rewrite Hx; congruence|].
    apply Hj. lia.
Qed.

Lemma window_fuel b s n : window b s n → (Z.to_nat n < loop_fuel b)%nat.
Proof. unfold window, loop_fuel, zlen. lia. Qed.

Lemma memchr_spec b s c n :
  window b s n →
  (memchr b s c n = Ok None ∧ ∀ i, s <= i < s + n → rd b i ≠ Ok c) ∨
  (∃ i, memchr b s c n = Ok (Some i) ∧ s <= i < s + n ∧ rd b i = Ok c ∧
        ∀ j, s <= j < i → rd b j ≠ Ok c).
Proof. intros H. apply memchr_loop_spec; [done|]. by apply window_fuel with s. Qed.

(** What a scanning loop leaves behind. *)
Lemma fold_loop_spec fuel p f b acc ptr n :
  window b ptr n → (Z.to_nat n < fuel)%nat →
  ∃ acc' ptr' n', fold_loop fuel p f b acc ptr n = Ok (acc', ptr', n') ∧
    window b ptr' n' ∧ ptr' + n' = ptr + n ∧ ptr <= ptr' ∧
    (∀ i c, ptr <= i < ptr' → rd b i = Ok c → p c = true) ∧
    (0 < n' → ∃ c, rd b ptr' = Ok c ∧ p c = false).
Proof.
  revert acc ptr n. induction fuel as [|fuel IH]; intros acc ptr n (Hs & Hn & Hb) Hf; [lia|].
  cbn [fold_loop]. destruct (Z.eqb_spec n 0) as [->|Hn0].
  { exists acc, ptr, 0. repeat split; auto; lia. }
  destruct (rd_in b ptr) as [x Hx]; [lia|]. rewrite Hx. simpl.
  destruct (p x) eqn:Hp.
  - destruct (IH (f acc x) (ptr + 1) (n - 1)) as (a & q & m & E & Hw & Hsum & Hle & Hall & Hend);
      [repeat split; lia|lia|].
    exists a, q, m. split_and!; auto; try lia.
    intros i c Hi Hc. destruct (decide (i = ptr)) as [->|]; [congruence|].
    apply (Hall i); [lia|done].
  - exists acc, ptr, n. split_and!; auto; try lia. repeat split; lia. eauto.
Qed.

Lemma skip_fold_loop fuel p b ptr n :
  skip_while_loop fuel p b ptr n =
  ('(_, ptr', n') ← fold_loop fuel p (λ a _, a) b 0 ptr n; Ok (ptr', n')).
Proof.
  assert (∀ a : Z, skip_while_loop fuel p b ptr n =
    ('(_, ptr', n') ← fold_loop fuel p (λ a _, a) b a ptr n; Ok (ptr', n'))); [|done].
  revert ptr n. induction fuel as [|fuel IH]; intros ptr n a; simpl;
    destruct (n =? 0); try done.
  destruct (rd b ptr); simpl; [|done|done]. destruct (p _); [apply IH|done].
Qed.

Lemma fold_while_spec p f b acc ptr n :
  window b ptr n →
  ∃ acc' ptr' n', fold_while p f b acc ptr n = Ok (acc', ptr', n') ∧
    window b ptr' n' ∧ ptr' + n' = ptr + n ∧ ptr <= ptr' ∧
    (∀ i c, ptr <= i < ptr' → rd b i = Ok c → p c = true) ∧
    (0 < n' → ∃ c, rd b ptr' = Ok c ∧ p c = false).
Proof. intros H. apply fold_loop_spec; [done|]. by apply window_fuel with ptr. Qed.

Lemma skip_while_spec p b ptr n :
  window b ptr n →
  ∃ ptr' n', skip_while p b ptr n = Ok (ptr', n') ∧
    window b ptr' n' ∧ ptr' + n' = ptr + n ∧ ptr <= ptr' ∧
    (∀ i c, ptr <= i < ptr' → rd b i = Ok c → p c = true) ∧
    (0 < n' → ∃ c, rd b ptr' = Ok c ∧ p c = false).
Proof.
  intros H. unfold skip_while. rewrite skip_fold_loop.
  destruct (fold_while_spec p (λ a _, a) b 0 ptr n H) as (a & q & m & E & Hrest).
  unfold fold_while in E. rewrite E. simpl. eauto.
Qed.

(** A loop over a known run [l] of accepted characters, ended by the count or by a
    character that is not accepted. *)
Lemma fold_loop_run fuel p f pre l post acc m :
  Forall (λ c, p c = true) l → (length l < fuel)%nat →
  0 <= m → (m = 0 ∨ ∃ c post', post = c :: post' ∧ p c = false) →
  fold_loop fuel p f (pre ++ l ++ post) acc (zlen pre) (zlen l + m) =
  Ok (foldl f acc l, zlen pre + zlen l, m).
Proof.
  revert fuel pre acc. induction l as [|x l IH]; intros fuel pre acc Hl Hf Hm Hend.
  - destruct fuel as [|fuel]; [simpl in Hf; lia|]. cbn [fold_loop foldl app].
    rewrite zlen_nil, !Z.add_0_l, Z.add_0_r.
    destruct (Z.eqb_spec m 0) as [->|Hm0]; [done|].
    destruct Hend as [|(c & post' & -> & Hc)]; [done|].
    rewrite rd_app_hd. simpl. by rewrite Hc.
  - apply Forall_cons in Hl as [Hx Hl]. destruct fuel as [|fuel]; [simpl in Hf; lia|].
    cbn [fold_loop foldl]. rewrite zlen_cons. pose proof (zlen_nonneg l).
    destruct (Z.eqb_spec (1 + zlen l + m) 0); [lia|].
    rewrite <- app_comm_cons, rd_app_hd. simpl. rewrite Hx.
    replace (pre ++ x :: l ++ post) with ((pre ++ [x]) ++ l ++ post) by (by rewrite <- app_assoc).
    replace (zlen pre + 1) with (zlen (pre ++ [x])) by zl.
    replace (1 + zlen l + m - 1) with (zlen l + m) by lia.
    rewrite IH; auto; [|simpl in Hf; lia]. do 2 f_equal. f_equal. zl.
Qed.

Lemma fold_while_run p f pre l post acc m :
  Forall (λ c, p c = true) l →
  0 <= m → (m = 0 ∨ ∃ c post', post = c :: post' ∧ p c = false) →
  fold_while p f (pre ++ l ++ post) acc (zlen pre) (zlen l + m) =
  Ok (foldl f acc l, zlen pre + zlen l, m).
Proof.
  intros. apply fold_loop_run; auto. unfold loop_fuel. rewrite !length_app. lia.
Qed.

Lemma skip_while_run p pre l post m :
  Forall (λ c, p c = true) l →
  0 <= m → (m = 0 ∨ ∃ c post', post = c :: post' ∧ p c = false) →
  skip_while p (pre ++ l ++ post) (zlen pre) (zlen l + m) =
  Ok (zlen pre + zlen l, m).
Proof.
  intros. unfold skip_while. rewrite skip_fold_loop, fold_loop_run; auto.
  unfold loop_fuel. rewrite !length_app. lia.
Qed.

Lemma strncmp_eq_app pre l post : strncmp_eq (pre ++ l ++ post) (zlen pre) l = Ok true.
Proof.
  revert pre. induction l as [|x l IH]; intros pre; [done|]. cbn [strncmp_eq].
  rewrite <- app_comm_cons, rd_app_hd. simpl. rewrite Z.eqb_refl.
  replace (pre ++ x :: l ++ post) with ((pre ++ [x]) ++ l ++ post) by (by rewrite <- app_assoc).
  replace (zlen pre + 1) with (zlen (pre ++ [x])) by zl. apply IH.
Qed.

(** The comparisons stay inside a window at least as long as the literal. *)
Lemma strncmp_eq_total b s lit :
  0 <= s → s + zlen lit <= zlen b → ∃ r, strncmp_eq b s lit = Ok r.
Proof.
  revert s. induction lit as [|x lit IH]; intros s Hs Hb; simpl; [by eauto|].
  rewrite zlen_cons in Hb. pose proof (zlen_nonneg lit).
  destruct (rd_in b s) as [c ->]; [lia|]. simpl.
  destruct (c =? x); [apply IH; lia|eauto].
Qed.

Lemma strncasecmp_eq_total b s lit :
  0 <= s → s + zlen lit <= zlen b → ∃ r, strncasecmp_eq b s lit = Ok r.
Proof.
  revert s. induction lit as [|x lit IH]; intros s Hs Hb; simpl; [by eauto|].
  rewrite zlen_cons in Hb. pose proof (zlen_nonneg lit).
  destruct (rd_in b s) as [c ->]; [lia|]. simpl.
  destruct (_ =? _); [apply IH; lia|eauto].
Qed.

(** * [memcmp] *)

(** [memcmp] of two byte strings of the same length; the sign of the result is what counts. *)
Fixpoint memcmp (a b : bytes) : Z :=
  match a, b with
  | x :: a, y :: b => if x =? y then memcmp a b else x - y
  | [], [] => 0
  | [], _ :: _ => -1
  | _ :: _, [] => 1
  end.

Lemma memcmp_eq a b : memcmp a b = 0 ↔ a = b.
Proof.
  revert b. induction a as [|x a IH]; intros [|y b]; cbn [memcmp]; try done.
  destruct (Z.eqb_spec x y) as [->|N]; [rewrite IH; split; congruence|]. split; [lia|congruence].
Qed.

Lemma memcmp_sym a b : memcmp a b < 0 ↔ memcmp b a > 0.
Proof.
  revert b. induction a as [|x a IH]; intros [|y b]; cbn [memcmp]; try lia.
  destruct (Z.eqb_spec x y), (Z.eqb_spec y x); try lia. apply IH.
Qed.

Lemma memcmp_trans a b c : memcmp a b < 0 → memcmp b c < 0 → memcmp a c < 0.
Proof.
  revert b c. induction a as [|x a IH]; intros [|y b] [|z c]; cbn [memcmp]; try lia.
  destruct (Z.eqb_spec x y), (Z.eqb_spec y z), (Z.eqb_spec x z); try lia. apply IH.
Qed.
