(* ===== verification/Avl.v ===== *)
(** The balanced trees of erts/emulator/beam/erl_monitors.c, shared by monitors,
    links and suspend monitors: search with an explicit stack, insertion and
    deletion with rebalancing on the way back up, and the sweep over all nodes.

    A node's [left], [right] and [balance] fields and its other contents are a
    [Node]; an entry of [tstack] (the slot of a node on the way down) with the
    direction of the same entry of [dstack] is a frame, the node with a hole in
    place of the child that was entered.  The stacks have room for [STACK_NEED]
    entries; an entry more is [Fault], and so is a NULL node dereferenced. *)
From S2P Require Import Prelude.
From stdpp Require Import sorting.
#[local] Open Scope Z_scope.

Definition STACK_NEED : nat := 50.

Inductive tree (A : Type) : Type :=
| Null
| Node (left : tree A) (balance : Z) (d : A) (right : tree A).
Arguments Null {A}.
Arguments Node {A} _ _ _ _.

#[export] Instance tree_eq_dec {A} `{EqDecision A} : EqDecision (tree A).
Proof. solve_decision. Defined.

(** [DIR_LEFT] and [DIR_RIGHT]. *)
Inductive frame (A : Type) : Type :=
| InLeft (balance : Z) (d : A) (right : tree A)
| InRight (left : tree A) (balance : Z) (d : A).
Arguments InLeft {A} _ _ _.
Arguments InRight {A} _ _ _.

Section tree.
Context {A : Type}.
Implicit Types (t p : tree A) (stk : list (frame A)).

(** The node whose slot is on the stack, with [t] as the child entered. *)
Definition plug (f : frame A) t : tree A :=
  match f with
  | InLeft b d r => Node t b d r
  | InRight l b d => Node l b d t
  end.

Definition push (f : frame A) stk : res (list (frame A)) :=
  if (length stk <? STACK_NEED)%nat then Ok (f :: stk) else Fault.

(** The search loop: [c d] is [CMP(key, d->key)].  It ends at a NULL slot or at
    the node with the key. *)
Fixpoint descend (c : A → Z) t stk : res (tree A * list (frame A)) :=
  match t with
  | Null => Ok (t, stk)
  | Node l b d r =>
      if c d <? 0 then stk ← push (InLeft b d r) stk; descend c l stk
      else if c d >? 0 then stk ← push (InRight l b d) stk; descend c r stk
      else Ok (t, stk)
  end.

(** ** Insertion *)

(** The [DIR_LEFT] part of the loop body of [insertion_rotation]; result: the
    node in the slot and the new [state]. *)
Definition ins_left p : res (tree A * bool) :=
  match p with
  | Null => Fault
  | Node l b d r =>
      if b =? 1 then Ok (Node l 0 d r, false)
      else if b =? 0 then Ok (Node l (-1) d r, true)
      else if b =? -1 then
        match l with
        | Null => Fault
        | Node l1 b1 d1 r1 =>
            if b1 =? -1 then (* single LL rotation *)
              Ok (Node l1 0 d1 (Node r1 0 d r), false)
            else
              match r1 with
              | Null => Fault
              | Node l2 b2 d2 r2 =>
                  Ok (Node (Node l1 (if b2 =? 1 then -1 else 0) d1 l2) 0 d2
                           (Node r2 (if b2 =? -1 then 1 else 0) d r), false)
              end
        end
      else Ok (p, true)
  end.

(** The [DIR_RIGHT] part. *)
Definition ins_right p : res (tree A * bool) :=
  match p with
  | Null => Fault
  | Node l b d r =>
      if b =? -1 then Ok (Node l 0 d r, false)
      else if b =? 0 then Ok (Node l 1 d r, true)
      else if b =? 1 then
        match r with
        | Null => Fault
        | Node l1 b1 d1 r1 =>
            if b1 =? 1 then (* single RR rotation *)
              Ok (Node (Node l 0 d l1) 0 d1 r1, false)
            else
              match l1 with
              | Null => Fault
              | Node l2 b2 d2 r2 =>
                  Ok (Node (Node l (if b2 =? 1 then -1 else 0) d l2) 0 d2
                           (Node r2 (if b2 =? -1 then 1 else 0) d1 r1), false)
              end
        end
      else Ok (p, true)
  end.

(** [t] is in the slot below the top of the stack; when [state] is 0 the slots
    above are left as they are. *)
Fixpoint insertion_rotation stk t (state : bool) : res (tree A) :=
  match stk with
  | [] => Ok t
  | f :: stk =>
      if state then
        '(p, state) ← (match f with
                       | InLeft _ _ _ => ins_left (plug f t)
                       | InRight _ _ _ => ins_right (plug f t)
                       end);
        insertion_rotation stk p state
      else insertion_rotation stk (plug f t) false
  end.

(** The common part of the functions that add an entry: [inl] is the node found
    with the key, [inr] the new tree with [create ()] in it. *)
Definition tree_add (c : A → Z) (new : A) (root : tree A) : res (A + tree A) :=
  '(t, stk) ← descend c root [];
  match t with
  | Null => t ← insertion_rotation stk (Node Null 0 new Null) true; Ok (inr t)
  | Node _ _ d _ => Ok (inl d)
  end.

(** ** Deletion *)

(** Result: the node in the slot, and [h]: the subtree got lower. *)
Definition balance_left p : res (tree A * bool) :=
  match p with
  | Null => Fault
  | Node l b d r =>
      if b =? -1 then Ok (Node l 0 d r, true)
      else if b =? 0 then Ok (Node l 1 d r, false)
      else if b =? 1 then
        match r with
        | Null => Fault
        | Node l1 b1 d1 r1 =>
            if b1 >=? 0 then
              if b1 =? 0 then Ok (Node (Node l 1 d l1) (-1) d1 r1, false)
              else Ok (Node (Node l 0 d l1) 0 d1 r1, true)
            else
              match l1 with
              | Null => Fault
              | Node l2 b2 d2 r2 =>
                  Ok (Node (Node l (if b2 =? 1 then -1 else 0) d l2) 0 d2
                           (Node r2 (if b2 =? -1 then 1 else 0) d1 r1), true)
              end
        end
      else Ok (p, true)
  end.

Definition balance_right p : res (tree A * bool) :=
  match p with
  | Null => Fault
  | Node l b d r =>
      if b =? 1 then Ok (Node l 0 d r, true)
      else if b =? 0 then Ok (Node l (-1) d r, false)
      else if b =? -1 then
        match l with
        | Null => Fault
        | Node l1 b1 d1 r1 =>
            if b1 <=? 0 then
              if b1 =? 0 then Ok (Node l1 1 d1 (Node r1 (-1) d r), false)
              else Ok (Node l1 0 d1 (Node r1 0 d r), true)
            else
              match r1 with
              | Null => Fault
              | Node l2 b2 d2 r2 =>
                  Ok (Node (Node l1 (if b2 =? 1 then -1 else 0) d1 l2) 0 d2
                           (Node r2 (if b2 =? -1 then 1 else 0) d r), true)
              end
        end
      else Ok (p, true)
  end.

(** [while (( *r)->right != NULL) { tstack[tpos++] = r; r = &(( *r)->right); }]:
    the last node to the right, and the slots passed. *)
Fixpoint rightmost t stk : res (tree A * list (frame A)) :=
  match t with
  | Null => Fault
  | Node l b d r =>
      match r with
      | Null => Ok (t, stk)
      | Node _ _ _ _ => stk ← push (InRight l b d) stk; rightmost r stk
      end
  end.

(** [while (tpos && h) { r = tstack[--tpos]; h = balance_right(r); }] *)
Fixpoint delsub_up stk t (h : bool) : res (tree A * bool) :=
  match stk with
  | [] => Ok (t, h)
  | f :: stk =>
      if h then '(p, h) ← balance_right (plug f t); delsub_up stk p h
      else delsub_up stk (plug f t) false
  end.

(** The node with the largest key of the left subtree takes the place of [p]. *)
Definition delsub p : res (tree A * bool) :=
  match p with
  | Null => Fault
  | Node l b _ r =>
      '(m, stk) ← rightmost l [];
      match m with
      | Null => Fault
      | Node ml _ md _ =>
          '(l, h) ← delsub_up stk ml true;
          Ok (Node l b md r, h)
      end
  end.

(** The last loop of the functions that remove an entry. *)
Fixpoint remove_up stk t (state : bool) : res (tree A) :=
  match stk with
  | [] => Ok t
  | f :: stk =>
      if state then
        '(p, state) ← (match f with
                       | InLeft _ _ _ => balance_left (plug f t)
                       | InRight _ _ _ => balance_right (plug f t)
                       end);
        remove_up stk p state
      else remove_up stk (plug f t) false
  end.

(** [None]: no node with the key; otherwise the node taken out and the new tree.
    The slot of a node with two children goes on the stack with [DIR_LEFT]. *)
Definition tree_remove (c : A → Z) (root : tree A) : res (option (A * tree A)) :=
  '(t, stk) ← descend c root [];
  match t with
  | Null => Ok None
  | Node l b q r =>
      match r with
      | Null => t ← remove_up stk l true; Ok (Some (q, t))
      | Node _ _ _ _ =>
          match l with
          | Null => t ← remove_up stk r true; Ok (Some (q, t))
          | Node _ _ _ _ =>
              _ ← push (InLeft b q r) stk;
              '(t, state) ← delsub t;
              '(t, state) ← (if (state : bool) then balance_left t else Ok (t, false));
              t ← remove_up stk t state;
              Ok (Some (q, t))
          end
      end
  end.

(** ** Lookup and sweep *)

Fixpoint tree_lookup (c : A → Z) (root : tree A) : option A :=
  match root with
  | Null => None
  | Node l _ d r =>
      if c d =? 0 then Some d else if c d <? 0 then tree_lookup c l else tree_lookup c r
  end.

(** A stack entry of the sweep: the node and the direction taken in it. *)
Inductive dir : Type := DIR_LEFT | DIR_RIGHT.

(** The sweep: the nodes passed to [doit], in order.  Every node takes three
    rounds of the loop and every NULL child none of its own. *)
Fixpoint sweep (fuel : nat) (root : tree A) (stk : list (dir * tree A)) : res (list A) :=
  match fuel with
  | O => NoFuel
  | S fuel =>
      match root with
      | Null =>
          match stk with
          | [] => Ok []
          | (DIR_LEFT, n) :: stk =>
              match n with
              | Null => Fault
              | Node _ _ _ r => sweep fuel r ((DIR_RIGHT, n) :: stk)
              end
          | (DIR_RIGHT, n) :: stk =>
              match n with
              | Null => Fault
              | Node _ _ d _ => l ← sweep fuel Null stk; Ok (d :: l)
              end
          end
      | Node l _ _ _ =>
          if (length stk <? STACK_NEED)%nat
          then sweep fuel l ((DIR_LEFT, root) :: stk) else Fault
      end
  end.
End tree.

(** * Contents and shape *)

Fixpoint elements {A} (t : tree A) : list A :=
  match t with Null => [] | Node l _ d r => elements l ++ d :: elements r end.

Fixpoint height {A} (t : tree A) : Z :=
  match t with Null => 0 | Node l _ _ r => 1 + Z.max (height l) (height r) end.

(** Every [balance] field is the difference of the heights, and at most one. *)
Fixpoint avl {A} (t : tree A) : Prop :=
  match t with
  | Null => True
  | Node l b _ r => b = height r - height l ∧ -1 <= b <= 1 ∧ avl l ∧ avl r
  end.

(** The contents to the left and to the right of the hole of a stack. *)
Fixpoint before {A} (stk : list (frame A)) : list A :=
  match stk with
  | [] => []
  | InLeft _ _ _ :: stk => before stk
  | InRight l _ d :: stk => before stk ++ elements l ++ [d]
  end.

Fixpoint after {A} (stk : list (frame A)) : list A :=
  match stk with
  | [] => []
  | InLeft _ d r :: stk => d :: elements r ++ after stk
  | InRight _ _ _ :: stk => after stk
  end.

(** [avl_ctx stk h]: the nodes of the stack are balanced with a subtree of height
    [h] in the hole. *)
Fixpoint avl_ctx {A} (stk : list (frame A)) (h : Z) : Prop :=
  match stk with
  | [] => True
  | InLeft b _ r :: stk =>
      avl r ∧ b = height r - h ∧ -1 <= b <= 1 ∧ avl_ctx stk (1 + Z.max h (height r))
  | InRight l b _ :: stk =>
      avl l ∧ b = h - height l ∧ -1 <= b <= 1 ∧ avl_ctx stk (1 + Z.max (height l) h)
  end.

Section shape.
Context {A : Type}.
Implicit Types (t p : tree A) (stk : list (frame A)).

Lemma height_nonneg t : 0 <= height t.
Proof. induction t; cbn [height]; lia. Qed.

Lemma height_0 t : height t = 0 → t = Null.
Proof. destruct t; cbn [height]; [done|]. pose proof (height_nonneg t1). lia. Qed.

(** A subtree that has grown: its root is new or leans to one side. *)
Definition grown t : Prop :=
  match t with Null => False | Node l b _ r => b ≠ 0 ∨ (l = Null ∧ r = Null) end.

Ltac heights :=
  repeat match goal with
  | t : tree A |- _ =>
      lazymatch goal with H : 0 <= height t |- _ => fail | _ => pose proof (height_nonneg t) end
  end.

Ltac avl_case :=
  repeat match goal with
  | |- context [Z.eqb ?a ?b] => destruct (Z.eqb_spec a b)
  | |- context [Z.geb ?a ?b] => destruct (Z.geb_spec a b)
  | |- context [Z.leb ?a ?b] => destruct (Z.leb_spec a b)
  end; try lia.

(** After the left subtree has grown from height [h] to [h + 1]. *)
Lemma ins_left_spec t b d r h :
  avl t → height t = h + 1 → grown t → avl r → b = height r - h → -1 <= b <= 1 →
  ∃ p state, ins_left (Node t b d r) = Ok (p, state) ∧ avl p ∧
    elements p = elements t ++ d :: elements r ∧
    height p = (1 + Z.max h (height r)) + (if state then 1 else 0) ∧ (state = true → grown p).
Proof.
  intros Ht Hh Hg Hr Hb Hbb. heights. unfold ins_left.
  destruct (Z.eqb_spec b 1); [eexists _, false; split; [done|]; cbn; split_and!; (done || lia)|].
  destruct (Z.eqb_spec b 0).
  { eexists _, true. split; [done|]. cbn. split_and!; (done || lia || by left). }
  destruct (Z.eqb_spec b (-1)); [|lia].
  destruct t as [|l1 b1 d1 r1]; [done|]. cbn [avl height grown] in *. destruct Ht as (E1 & B1 & Hl1 & Hr1).
  heights. destruct Hg as [Hg|[-> ->]]; [|cbn [height] in *; lia].
  destruct (Z.eqb_spec b1 (-1)).
  { eexists _, false. split; [done|]. cbn. rewrite <- app_assoc. split_and!; (done || lia). }
  destruct r1 as [|l2 b2 d2 r2]; [cbn [height] in *; lia|]. cbn [avl height] in *.
  destruct Hr1 as (E2 & B2 & Hl2 & Hr2). heights. eexists _, false. split; [done|].
  cbn [avl height elements]. rewrite <- ?app_assoc. cbn [app]. rewrite <- ?app_assoc. cbn [app].
  avl_case; split_and!; (done || lia).
Qed.

Lemma ins_right_spec t b d l h :
  avl t → height t = h + 1 → grown t → avl l → b = h - height l → -1 <= b <= 1 →
  ∃ p state, ins_right (Node l b d t) = Ok (p, state) ∧ avl p ∧
    elements p = elements l ++ d :: elements t ∧
    height p = (1 + Z.max (height l) h) + (if state then 1 else 0) ∧ (state = true → grown p).
Proof.
  intros Ht Hh Hg Hl Hb Hbb. heights. unfold ins_right.
  destruct (Z.eqb_spec b (-1)); [eexists _, false; split; [done|]; cbn; split_and!; (done || lia)|].
  destruct (Z.eqb_spec b 0).
  { eexists _, true. split; [done|]. cbn. split_and!; (done || lia || by left). }
  destruct (Z.eqb_spec b 1); [|lia].
  destruct t as [|l1 b1 d1 r1]; [done|]. cbn [avl height grown] in *. destruct Ht as (E1 & B1 & Hl1 & Hr1).
  heights. destruct Hg as [Hg|[-> ->]]; [|cbn [height] in *; lia].
  destruct (Z.eqb_spec b1 1).
  { eexists _, false. split; [done|]. cbn. rewrite <- app_assoc. split_and!; (done || lia). }
  destruct l1 as [|l2 b2 d2 r2]; [cbn [height] in *; lia|]. cbn [avl height] in *.
  destruct Hl1 as (E2 & B2 & Hl2 & Hr2). heights. eexists _, false. split; [done|].
  cbn [avl height elements]. rewrite <- ?app_assoc. cbn [app]. rewrite <- ?app_assoc. cbn [app].
  avl_case; split_and!; (done || lia).
Qed.

(** After the left subtree has shrunk from height [h] to [h - 1]. *)
Lemma balance_left_spec t b d r h :
  avl t → height t = h - 1 → avl r → b = height r - h → -1 <= b <= 1 →
  ∃ p lower, balance_left (Node t b d r) = Ok (p, lower) ∧ avl p ∧
    elements p = elements t ++ d :: elements r ∧
    height p = (1 + Z.max h (height r)) - (if lower then 1 else 0).
Proof.
  intros Ht Hh Hr Hb Hbb. heights. unfold balance_left.
  destruct (Z.eqb_spec b (-1)); [eexists _, true; split; [done|]; cbn; split_and!; (done || lia)|].
  destruct (Z.eqb_spec b 0); [eexists _, false; split; [done|]; cbn; split_and!; (done || lia)|].
  destruct (Z.eqb_spec b 1); [|lia].
  destruct r as [|l1 b1 d1 r1]; [cbn [height] in *; lia|]. cbn [avl height] in *.
  destruct Hr as (E1 & B1 & Hl1 & Hr1). heights. destruct (Z.geb_spec b1 0).
  - destruct (Z.eqb_spec b1 0); eexists _, _; (split; [done|]); cbn [avl height elements]; rewrite <- ?app_assoc; cbn [app]; split_and!; (done || lia).
  - destruct l1 as [|l2 b2 d2 r2]; [cbn [height] in *; lia|]. cbn [avl height] in *.
    destruct Hl1 as (E2 & B2 & Hl2 & Hr2). heights. eexists _, _. split; [done|].
    cbn [avl height elements]. rewrite <- ?app_assoc. cbn [app]. rewrite <- ?app_assoc. cbn [app].
    avl_case; split_and!; (done || lia).
Qed.

Lemma balance_right_spec t b d l h :
  avl t → height t = h - 1 → avl l → b = h - height l → -1 <= b <= 1 →
  ∃ p lower, balance_right (Node l b d t) = Ok (p, lower) ∧ avl p ∧
    elements p = elements l ++ d :: elements t ∧
    height p = (1 + Z.max (height l) h) - (if lower then 1 else 0).
Proof.
  intros Ht Hh Hl Hb Hbb. heights. unfold balance_right.
  destruct (Z.eqb_spec b 1); [eexists _, true; split; [done|]; cbn; split_and!; (done || lia)|].
  destruct (Z.eqb_spec b 0); [eexists _, false; split; [done|]; cbn; split_and!; (done || lia)|].
  destruct (Z.eqb_spec b (-1)); [|lia].
  destruct l as [|l1 b1 d1 r1]; [cbn [height] in *; lia|]. cbn [avl height] in *.
  destruct Hl as (E1 & B1 & Hl1 & Hr1). heights. destruct (Z.leb_spec b1 0).
  - destruct (Z.eqb_spec b1 0); eexists _, _; (split; [done|]); cbn [avl height elements]; rewrite <- ?app_assoc; cbn [app]; split_and!; (done || lia).
  - destruct r1 as [|l2 b2 d2 r2]; [cbn [height] in *; lia|]. cbn [avl height] in *.
    destruct Hr1 as (E2 & B2 & Hl2 & Hr2). heights. eexists _, _. split; [done|].
    cbn [avl height elements]. rewrite <- ?app_assoc. cbn [app]. rewrite <- ?app_assoc. cbn [app].
    avl_case; split_and!; (done || lia).
Qed.

(** * Going back up *)

Lemma insertion_rotation_spec stk t h (state : bool) :
  avl_ctx stk h → avl t → height t = h + (if state then 1 else 0) → (state = true → grown t) →
  ∃ t', insertion_rotation stk t state = Ok t' ∧ avl t' ∧
    elements t' = before stk ++ elements t ++ after stk.
Proof.
  revert t h state. induction stk as [|[b d r|l b d] stk IH]; intros t h state Hc Ht Hh Hg; cbn [insertion_rotation before after].
  - exists t. by rewrite app_nil_r.
  - destruct Hc as (Hr & Eb & Hb & Hc). destruct state; cbn [plug].
    + destruct (ins_left_spec t b d r h) as (p & s & -> & Hp & Ep & Hhp & Hgp); [by auto..|]. rewrite bind_Ok.
      destruct (IH p _ s Hc Hp Hhp Hgp) as (t' & E & ? & Ee). exists t'. split_and!; [done..|].
      rewrite Ee, Ep, <- !app_assoc. done.
    + destruct (IH (Node t b d r) (1 + Z.max h (height r)) false) as (t' & E & ? & Ee);
        [done|cbn; split_and!; (done || lia)|cbn; lia|done|].
      exists t'. split_and!; [done..|]. rewrite Ee. cbn [elements]. by rewrite <- !app_assoc.
  - destruct Hc as (Hl & Eb & Hb & Hc). destruct state; cbn [plug].
    + destruct (ins_right_spec t b d l h) as (p & s & -> & Hp & Ep & Hhp & Hgp); [by auto..|]. rewrite bind_Ok.
      destruct (IH p _ s Hc Hp Hhp Hgp) as (t' & E & ? & Ee). exists t'. split_and!; [done..|].
      rewrite Ee, Ep, <- !app_assoc. done.
    + destruct (IH (Node l b d t) (1 + Z.max (height l) h) false) as (t' & E & ? & Ee);
        [done|cbn; split_and!; (done || lia)|cbn; lia|done|].
      exists t'. split_and!; [done..|]. rewrite Ee. cbn [elements]. by rewrite <- !app_assoc.
Qed.

Lemma remove_up_spec stk t h (state : bool) :
  avl_ctx stk h → avl t → height t = h - (if state then 1 else 0) →
  ∃ t', remove_up stk t state = Ok t' ∧ avl t' ∧ elements t' = before stk ++ elements t ++ after stk.
Proof.
  revert t h state. induction stk as [|[b d r|l b d] stk IH]; intros t h state Hc Ht Hh; cbn [remove_up before after].
  - exists t. by rewrite app_nil_r.
  - destruct Hc as (Hr & Eb & Hb & Hc). destruct state; cbn [plug].
    + destruct (balance_left_spec t b d r h) as (p & s & -> & Hp & Ep & Hhp); [by auto..|]. rewrite bind_Ok.
      destruct (IH p _ s Hc Hp Hhp) as (t' & E & ? & Ee). exists t'. split_and!; [done..|].
      rewrite Ee, Ep, <- !app_assoc. done.
    + destruct (IH (Node t b d r) (1 + Z.max h (height r)) false) as (t' & E & ? & Ee);
        [done|cbn; split_and!; (done || lia)|cbn; lia|].
      exists t'. split_and!; [done..|]. rewrite Ee. cbn [elements]. by rewrite <- !app_assoc.
  - destruct Hc as (Hl & Eb & Hb & Hc). destruct state; cbn [plug].
    + destruct (balance_right_spec t b d l h) as (p & s & -> & Hp & Ep & Hhp); [by auto..|]. rewrite bind_Ok.
      destruct (IH p _ s Hc Hp Hhp) as (t' & E & ? & Ee). exists t'. split_and!; [done..|].
      rewrite Ee, Ep, <- !app_assoc. done.
    + destruct (IH (Node l b d t) (1 + Z.max (height l) h) false) as (t' & E & ? & Ee);
        [done|cbn; split_and!; (done || lia)|cbn; lia|].
      exists t'. split_and!; [done..|]. rewrite Ee. cbn [elements]. by rewrite <- !app_assoc.
Qed.

(** ** The node that replaces a deleted one *)

(** The height of the whole tree with a subtree of height [h] in the hole. *)
Fixpoint ctx_height stk (h : Z) : Z :=
  match stk with
  | [] => h
  | InLeft _ _ r :: stk => ctx_height stk (1 + Z.max h (height r))
  | InRight l _ _ :: stk => ctx_height stk (1 + Z.max (height l) h)
  end.

Definition all_right stk : Prop := Forall (λ f, if f is InRight _ _ _ then True else False) stk.

Lemma push_ok f stk : (length stk < STACK_NEED)%nat → push f stk = Ok (f :: stk).
Proof. intros H. unfold push. by rewrite (proj2 (Nat.ltb_lt _ _) H). Qed.

Lemma rightmost_spec t stk :
  t ≠ Null → avl t → avl_ctx stk (height t) → all_right stk →
  Z.of_nat (length stk) + height t <= Z.of_nat STACK_NEED →
  ∃ ml b md stk', rightmost t stk = Ok (Node ml b md Null, stk') ∧ avl ml ∧ all_right stk' ∧
    avl_ctx stk' (1 + height ml) ∧ ctx_height stk' (1 + height ml) = ctx_height stk (height t) ∧
    before stk' ++ elements ml ++ [md] = before stk ++ elements t.
Proof.
  revert stk. induction t as [|l IHl b d r IHr]; intros stk Hne Ht Hc Har Hl; [done|].
  pose proof Ht as (Eb & Hb & Hal & Har'). pose proof (height_nonneg l).
  destruct r as [|l' b' d' r'].
  - exists l, b, d, stk. cbn [rightmost]. cbn [height] in *.
    replace (1 + height l) with (1 + Z.max (height l) 0) by lia. by split_and!.
  - set (r := Node l' b' d' r') in *. pose proof (height_nonneg r) as Hr.
    change (rightmost (Node l b d r) stk) with (stk ← push (InRight l b d) stk; rightmost r stk).
    assert (1 <= height r) by (subst r; cbn [height]; pose proof (height_nonneg l'); lia).
    cbn [height] in Hl, Hc |- *. rewrite push_ok by lia. rewrite bind_Ok.
    destruct (IHr (InRight l b d :: stk)) as (ml & bm & md & stk' & E & Hm & Har2 & Hc2 & Hch & Hel);
      [done|done|by cbn|by constructor|cbn [length]; lia|].
    exists ml, bm, md, stk'. split_and!; [done..|]. rewrite Hel. cbn [before elements]. by rewrite <- !app_assoc.
Qed.

Lemma delsub_up_spec stk t h (s : bool) :
  all_right stk → avl_ctx stk h → avl t → height t = h - (if s then 1 else 0) →
  ∃ t' s', delsub_up stk t s = Ok (t', s') ∧ avl t' ∧ elements t' = before stk ++ elements t ∧
    height t' = ctx_height stk h - (if s' then 1 else 0).
Proof.
  intros Har. revert t h s. induction Har as [|[b d r|l b d] stk Hf Har IH]; intros t h s Hc Ht Hh; cbn [delsub_up before ctx_height].
  - by exists t, s.
  - done.
  - destruct Hc as (Hl & Eb & Hb & Hc). destruct s; cbn [plug].
    + destruct (balance_right_spec t b d l h) as (p & s & -> & Hp & Ep & Hhp); [by auto..|]. rewrite bind_Ok.
      destruct (IH p _ s Hc Hp Hhp) as (t' & s' & E & ? & Ee & ?). exists t', s'. split_and!; [done..| |done].
      rewrite Ee, Ep, <- !app_assoc. done.
    + destruct (IH (Node l b d t) (1 + Z.max (height l) h) false) as (t' & s' & E & ? & Ee & ?);
        [done|cbn; split_and!; (done || lia)|cbn; lia|].
      exists t', s'. split_and!; [done..| |done]. rewrite Ee. cbn [elements]. by rewrite <- !app_assoc.
Qed.

Lemma delsub_spec (l : tree A) b q r :
  l ≠ Null → avl l → height l <= Z.of_nat STACK_NEED →
  ∃ l' md (lower : bool), delsub (Node l b q r) = Ok (Node l' b md r, lower) ∧ avl l' ∧
    height l' = height l - (if lower then 1 else 0) ∧ elements l = elements l' ++ [md].
Proof.
  intros Hne Hl Hh. unfold delsub.
  destruct (rightmost_spec l []) as (ml & bm & md & stk & -> & Hm & Har & Hc & Hch & Hel);
    [done|done|done|constructor|cbn [length]; lia|].
  rewrite bind_Ok. destruct (delsub_up_spec stk ml (1 + height ml) true) as (l' & s & -> & Hl' & Ee & Hh'); [done..|lia|].
  rewrite bind_Ok. exists l', md, s. rewrite Hch in Hh'. cbn [ctx_height] in Hh'. split_and!; [done..|].
  rewrite Ee, <- app_assoc, Hel. done.
Qed.

End shape.

(** * Size *)

(** The least number of nodes of a balanced tree of height [n], and of [n + 1]. *)
Fixpoint min_size (n : nat) : Z * Z :=
  match n with
  | O => (0, 1)
  | S n => let '(a, b) := min_size n in (b, a + b + 1)
  end.

Lemma min_size_snd n : (min_size n).2 = (min_size (S n)).1.
Proof. cbn [min_size]. by destruct (min_size n). Qed.

Lemma min_size_SS n : (min_size (S (S n))).1 = (min_size n).1 + (min_size (S n)).1 + 1.
Proof. rewrite <- min_size_snd. cbn [min_size]. by destruct (min_size n). Qed.

Lemma min_size_step n : 0 <= (min_size n).1 <= (min_size (S n)).1.
Proof.
  induction n as [|n IH]; [by vm_compute|]. rewrite min_size_SS. lia.
Qed.

Lemma min_size_mono n k : (n <= k)%nat → (min_size n).1 <= (min_size k).1.
Proof. induction 1 as [|k _ IH]; [done|]. pose proof (min_size_step k). lia. Qed.

Lemma avl_min_size {A} (t : tree A) : avl t → (min_size (Z.to_nat (height t))).1 <= zlen (elements t).
Proof.
  induction t as [|l IHl b d r IHr]; intros Ht; [done|].
  destruct Ht as (Eb & Hb & Hl & Hr). specialize (IHl Hl). specialize (IHr Hr).
  cbn [height elements]. rewrite zlen_app, zlen_cons.
  pose proof (height_nonneg l). pose proof (height_nonneg r). pose proof (zlen_nonneg (elements l)).
  pose proof (zlen_nonneg (elements r)).
  set (a := Z.to_nat (height l)) in *. set (c := Z.to_nat (height r)) in *.
  assert (Z.to_nat (1 + Z.max (height l) (height r)) = S (Nat.max a c)) as -> by lia.
  assert (a <= S c ∧ c <= S a)%nat as [Hac Hca] by lia.
  destruct (Nat.max_spec a c) as [[Hlt ->]|[Hle ->]].
  - assert (c = S a) as -> by lia. rewrite min_size_SS. lia.
  - destruct a as [|a]; [change (min_size 1).1 with 1; lia|]. rewrite min_size_SS.
    pose proof (min_size_mono a c ltac:(lia)). lia.
Qed.

(** Fewer than 2^32 nodes need no more than 45 levels. *)
Lemma avl_height {A} (t : tree A) : avl t → zlen (elements t) < 2 ^ 32 → height t <= 45.
Proof.
  intros Ht Hs. apply avl_min_size in Ht. destruct (Z.le_gt_cases (height t) 45) as [|Hgt]; [done|].
  pose proof (min_size_mono 46 (Z.to_nat (height t)) ltac:(lia)) as Hm.
  change (min_size 46).1 with 4807526975 in Hm. lia.
Qed.

(** * Keys *)

(** What the trees rely on of the comparison: a total order on the keys. *)
Class KeyCmp (K : Type) (kcmp : K → K → Z) : Prop := {
  kcmp_eq a b : kcmp a b = 0 ↔ a = b;
  kcmp_sym a b : kcmp a b < 0 ↔ kcmp b a > 0;
  kcmp_trans a b c : kcmp a b < 0 → kcmp b c < 0 → kcmp a c < 0 }.

Section keys.
Context {A K : Type} (kcmp : K → K → Z) `{!KeyCmp K kcmp} (key : A → K).
Implicit Types (t : tree A) (stk : list (frame A)).

(** [CMP(k, d->key)] *)
Definition at_key (k : K) (d : A) : Z := kcmp k (key d).

Definition sorted (l : list A) : Prop := StronglySorted (λ a b, kcmp (key a) (key b) < 0) l.

Definition valid t : Prop := avl t ∧ sorted (elements t).

Lemma kcmp_refl a : kcmp a a = 0.
Proof. by apply kcmp_eq. Qed.

Lemma sorted_app l k :
  sorted (l ++ k) ↔ sorted l ∧ sorted k ∧ Forall (λ a, Forall (λ b, kcmp (key a) (key b) < 0) k) l.
Proof.
  unfold sorted. induction l as [|a l IH]; cbn [app]; [split; [intros; split_and!; [constructor|done|constructor]|by intros (_ & ? & _)]|].
  rewrite !StronglySorted_cons, IH, Forall_app, Forall_cons. tauto.
Qed.

Lemma descend_spec k t stk :
  avl t → sorted (elements t) → avl_ctx stk (height t) →
  Z.of_nat (length stk) + height t <= Z.of_nat STACK_NEED →
  ∃ t' stk' lo hi, descend (at_key k) t stk = Ok (t', stk') ∧ avl t' ∧ avl_ctx stk' (height t') ∧
    before stk' = before stk ++ lo ∧ after stk' = hi ++ after stk ∧
    elements t = lo ++ elements t' ++ hi ∧
    Forall (λ d, at_key k d > 0) lo ∧ Forall (λ d, at_key k d < 0) hi ∧
    (if t' is Node _ _ d _ then key d = k else True) ∧
    Z.of_nat (length stk') + height t' <= Z.of_nat (length stk) + height t.
Proof.
  revert stk. induction t as [|l IHl b d r IHr]; intros stk Ht Hs Hc Hl; cbn [descend].
  { exists Null, stk, [], []. rewrite app_nil_r. by split_and!. }
  destruct Ht as (Eb & Hb & Hal & Har). cbn [elements] in Hs. apply sorted_app in Hs as (Hsl & Hsr & Hlr).
  apply StronglySorted_cons in Hsr as [Hdr Hsr]. pose proof (height_nonneg l). pose proof (height_nonneg r).
  cbn [height] in Hl, Hc.
  destruct (Z.ltb_spec (at_key k d) 0) as [Hlt|Hge].
  - rewrite push_ok by lia. rewrite bind_Ok.
    destruct (IHl (InLeft b d r :: stk)) as (t' & stk' & lo & hi & E & Ht' & Hc' & Eb' & Ea' & Ee & Hlo & Hhi & Hk & Hlen);
      [done|done|cbn; split_and!; (done || lia)|cbn [length]; lia|].
    exists t', stk', lo, (hi ++ d :: elements r). cbn [before after] in Eb', Ea'. cbn [elements height length] in *.
    split_and!; try done; [by rewrite Ea', <- app_assoc|by rewrite Ee, <- !app_assoc| |lia].
    apply Forall_app. split; [done|]. apply Forall_cons. split; [done|].
    eapply Forall_impl; [exact Hdr|]. intros d' Hd'. unfold at_key in *. by apply (kcmp_trans _ (key d)).
  - destruct (Z.gtb_spec (at_key k d) 0) as [Hgt|Hle].
    + rewrite push_ok by lia. rewrite bind_Ok.
      destruct (IHr (InRight l b d :: stk)) as (t' & stk' & lo & hi & E & Ht' & Hc' & Eb' & Ea' & Ee & Hlo & Hhi & Hk & Hlen);
        [done|done|cbn; split_and!; (done || lia)|cbn [length]; lia|].
      exists t', stk', (elements l ++ d :: lo), hi. cbn [before after] in Eb', Ea'. cbn [elements height length] in *.
      split_and!; try done; [by rewrite Eb', <- !app_assoc|by rewrite Ee, <- !app_assoc| |lia].
      apply Forall_app. split; [|apply Forall_cons; split; [lia|done]].
      eapply Forall_impl; [exact Hlr|]. intros d' [Hd' _]%Forall_cons. unfold at_key in *.
      apply kcmp_sym. apply (kcmp_trans _ (key d)); [done|]. apply kcmp_sym. lia.
    + exists (Node l b d r), stk, [], []. rewrite !app_nil_r. split_and!; try done.
      symmetry. apply (kcmp_eq k). unfold at_key in *. lia.
Qed.

(** ** What is found *)

Fixpoint find_key (k : K) (l : list A) : option A :=
  match l with
  | [] => None
  | d :: l => if at_key k d =? 0 then Some d else find_key k l
  end.

Lemma find_key_app k l m :
  find_key k (l ++ m) = match find_key k l with Some d => Some d | None => find_key k m end.
Proof. induction l as [|d l IH]; cbn [app find_key]; [done|]. by destruct (at_key k d =? 0). Qed.

Lemma find_key_none k l : Forall (λ d, at_key k d ≠ 0) l → find_key k l = None.
Proof.
  induction 1 as [|d l Hd Hl IH]; cbn [find_key]; [done|]. by destruct (Z.eqb_spec (at_key k d) 0).
Qed.

Lemma find_key_gt k l : Forall (λ d, at_key k d > 0) l → find_key k l = None.
Proof. intros H. apply find_key_none. eapply Forall_impl; [exact H|]. cbn. lia. Qed.

Lemma find_key_lt k l : Forall (λ d, at_key k d < 0) l → find_key k l = None.
Proof. intros H. apply find_key_none. eapply Forall_impl; [exact H|]. cbn. lia. Qed.

(** The entries around a node, seen from a key. *)
Lemma sorted_around k l d r :
  sorted (l ++ d :: r) →
  (at_key k d <= 0 → Forall (λ d', at_key k d' < 0) r) ∧ (at_key k d >= 0 → Forall (λ d', at_key k d' > 0) l).
Proof.
  intros (Hsl & Hsr & Hlr)%sorted_app. apply StronglySorted_cons in Hsr as [Hdr _]. unfold at_key. split; intros Hd.
  - eapply Forall_impl; [exact Hdr|]. intros d' Hd'. cbn in Hd'. destruct (Z.eq_dec (kcmp k (key d)) 0) as [->%kcmp_eq|]; [done|].
    apply (kcmp_trans _ (key d)); [lia|done].
  - eapply Forall_impl; [exact Hlr|]. intros d' [Hd' _]%Forall_cons. apply kcmp_sym.
    destruct (Z.eq_dec (kcmp k (key d)) 0) as [->%kcmp_eq|]; [done|].
    apply (kcmp_trans _ (key d)); [done|]. apply kcmp_sym. lia.
Qed.

Lemma tree_lookup_find k t : sorted (elements t) → tree_lookup (at_key k) t = find_key k (elements t).
Proof.
  induction t as [|l IHl b d r IHr]; intros Hs; [done|]. cbn [tree_lookup elements] in *.
  destruct (sorted_around k _ _ _ Hs) as [Hr Hl]. apply sorted_app in Hs as (Hsl & Hsr & _).
  apply StronglySorted_cons in Hsr as [_ Hsr]. rewrite find_key_app. cbn [find_key].
  destruct (Z.eqb_spec (at_key k d) 0) as [E|E].
  - by rewrite (find_key_gt k (elements l)) by (apply Hl; lia).
  - destruct (Z.ltb_spec (at_key k d) 0).
    + rewrite IHl, (find_key_lt k (elements r)) by (done || apply Hr; lia). by destruct (find_key k (elements l)).
    + rewrite IHr, (find_key_gt k (elements l)) by (done || apply Hl; lia). done.
Qed.

(** ** Adding and removing *)

Lemma sorted_insert l x m :
  sorted (l ++ m) → Forall (λ d, at_key (key x) d > 0) l → Forall (λ d, at_key (key x) d < 0) m →
  sorted (l ++ x :: m).
Proof.
  intros (Hl & Hm & Hlm)%sorted_app Hx Hy. apply sorted_app. split_and!; [done|by apply StronglySorted_cons|].
  eapply Forall_impl; [apply Forall_and; split; [exact Hlm|exact Hx]|]. intros d [Hd1 Hd2].
  apply Forall_cons. split; [|done]. by apply kcmp_sym.
Qed.

Lemma sorted_delete l x m : sorted (l ++ x :: m) → sorted (l ++ m).
Proof.
  intros (Hl & Hm & Hlm)%sorted_app. apply StronglySorted_cons in Hm as [_ Hm].
  apply sorted_app. split_and!; [done..|]. eapply Forall_impl; [exact Hlm|]. by intros d [_ ?]%Forall_cons.
Qed.

Lemma tree_add_spec new t :
  valid t → zlen (elements t) < 2 ^ 32 →
  ∃ r, tree_add (at_key (key new)) new t = Ok r ∧
    match find_key (key new) (elements t) with
    | Some d => r = inl d
    | None => ∃ t' lo hi, r = inr t' ∧ valid t' ∧ elements t = lo ++ hi ∧ elements t' = lo ++ new :: hi ∧
                Forall (λ d, at_key (key new) d > 0) lo ∧ Forall (λ d, at_key (key new) d < 0) hi
    end.
Proof.
  intros [Ht Hs] Hsz. pose proof (avl_height t Ht Hsz) as Hh. unfold tree_add.
  destruct (descend_spec (key new) t []) as (t' & stk & lo & hi & -> & Ht' & Hc & Eb & Ea & Ee & Hlo & Hhi & Hk & Hl);
    [done|done|done|unfold STACK_NEED; cbn [length]; lia|].
  rewrite bind_Ok. cbn [before after app] in Eb, Ea. rewrite app_nil_r in Ea. subst lo hi. rewrite Ee in Hs |- *.
  destruct t' as [|l b d r].
  - destruct (insertion_rotation_spec stk (Node Null 0 new Null) 0 true) as (t' & -> & Ht1 & Ee1);
      [done|cbn; split_and!; (done || lia)|done|by right|].
    rewrite bind_Ok. eexists. split; [done|]. cbn [elements app] in *.
    rewrite find_key_app, (find_key_gt _ _ Hlo), (find_key_lt _ _ Hhi).
    exists t', (before stk), (after stk). split_and!; [done| |done|done|done|done].
    split; [done|]. rewrite Ee1. by apply sorted_insert.
  - eexists. split; [done|]. cbn [elements] in *. rewrite find_key_app, (find_key_gt _ _ Hlo).
    rewrite <- app_assoc, find_key_app. apply sorted_app in Hs as (_ & Hs & _). rewrite <- app_assoc in Hs.
    destruct (sorted_around (key new) _ _ _ Hs) as [_ Hl0]. unfold at_key in Hl0 at 1. rewrite Hk, kcmp_refl in Hl0.
    rewrite find_key_gt by (apply Hl0; lia). cbn [find_key app]. unfold at_key at 1. by rewrite Hk, kcmp_refl.
Qed.

(** The node at the end of the search taken out of its subtree: the subtree that
    takes its place. *)
Lemma remove_node_spec stk l b q r :
  avl (Node l b q r) → avl_ctx stk (height (Node l b q r)) →
  Z.of_nat (length stk) + height (Node l b q r) <= 45 →
  ∃ t', (match r with
         | Null => t ← remove_up stk l true; Ok (Some (q, t))
         | Node _ _ _ _ =>
             match l with
             | Null => t ← remove_up stk r true; Ok (Some (q, t))
             | Node _ _ _ _ =>
                 _ ← push (InLeft b q r) stk;
                 '(t, state) ← delsub (Node l b q r);
                 '(t, state) ← (if (state : bool) then balance_left t else Ok (t, false));
                 t ← remove_up stk t state;
                 Ok (Some (q, t))
             end
         end) = Ok (Some (q, t')) ∧ avl t' ∧
    elements t' = before stk ++ (elements l ++ elements r) ++ after stk.
Proof.
  intros (Eb & Hb & Hl & Hr) Hc Hlen. cbn [height] in Hc, Hlen.
  pose proof (height_nonneg l). pose proof (height_nonneg r).
  assert (r = Null ∨ r ≠ Null) as [->|Nr] by (destruct r; [by left|by right]).
  { destruct (remove_up_spec stk l _ true Hc Hl) as (t' & -> & ? & Ee); [cbn [height]; lia|]. exists t'.
    cbn [elements]. rewrite app_nil_r. by split_and!. }
  assert (l = Null ∨ l ≠ Null) as [->|Nl] by (destruct l; [by left|by right]).
  { destruct (remove_up_spec stk r _ true Hc Hr) as (t' & E & ? & Ee); [cbn [height]; lia|]. exists t'.
    rewrite E. destruct r; [done|]. by split_and!. }
  set (m := match r with Null => _ | Node _ _ _ _ => _ end).
  assert (m = (_ ← push (InLeft b q r) stk;
               '(t, state) ← delsub (Node l b q r);
               '(t, state) ← (if (state : bool) then balance_left t else Ok (t, false));
               t ← remove_up stk t state;
               Ok (Some (q, t)))) as -> by (subst m; by destruct r, l).
  rewrite push_ok by (unfold STACK_NEED; lia). rewrite bind_Ok.
  destruct (delsub_spec l b q r Nl Hl) as (l' & md & lower & -> & Hl' & Hh' & Eel); [unfold STACK_NEED; lia|].
  rewrite bind_Ok.
  assert (∃ p (s : bool), (if lower then balance_left (Node l' b md r) else Ok (Node l' b md r, false)) = Ok (p, s) ∧
    avl p ∧ elements p = elements l' ++ md :: elements r ∧
    height p = 1 + Z.max (height l) (height r) - (if s then 1 else 0)) as (p & s & E & Hp & Ep & Hhp).
  { destruct lower; [by apply balance_left_spec|].
    eexists _, false. split; [done|]. cbn. split_and!; (done || lia). }
  cbv beta iota. rewrite E, bind_Ok. destruct (remove_up_spec stk p _ s Hc Hp Hhp) as (t' & -> & ? & Ee).
  exists t'. split_and!; [done..|]. rewrite Ee, Ep, Eel. by rewrite <- !app_assoc.
Qed.

Lemma tree_remove_spec k t :
  valid t → zlen (elements t) < 2 ^ 32 →
  ∃ r, tree_remove (at_key k) t = Ok r ∧
    match find_key k (elements t) with
    | None => r = None
    | Some d => ∃ t' lo hi, r = Some (d, t') ∧ valid t' ∧ elements t = lo ++ d :: hi ∧ elements t' = lo ++ hi ∧
                Forall (λ d', at_key k d' > 0) lo ∧ Forall (λ d', at_key k d' < 0) hi
    end.
Proof.
  intros [Ht Hs] Hsz. pose proof (avl_height t Ht Hsz) as Hh. unfold tree_remove.
  destruct (descend_spec k t []) as (t' & stk & lo & hi & -> & Ht' & Hc & Eb & Ea & Ee & Hlo & Hhi & Hk & Hl);
    [done|done|done|unfold STACK_NEED; cbn [length]; lia|].
  rewrite bind_Ok. cbn [before after app] in Eb, Ea. rewrite app_nil_r in Ea. subst lo hi. rewrite Ee in Hs |- *.
  destruct t' as [|l b q r].
  { eexists. split; [done|]. cbn [elements app]. by rewrite find_key_app, (find_key_gt _ _ Hlo), (find_key_lt _ _ Hhi). }
  destruct (remove_node_spec stk l b q r Ht' Hc) as (t' & E & Ht1 & Ee1); [cbn [length] in Hl; lia|].
  cbv beta iota. rewrite E. eexists. split; [done|]. cbn [elements] in *.
  assert (before stk ++ (elements l ++ q :: elements r) ++ after stk =
          (before stk ++ elements l) ++ q :: (elements r ++ after stk)) as Eq by (by rewrite <- !app_assoc).
  rewrite Eq in Hs |- *. destruct (sorted_around k _ _ _ Hs) as [Hgt Hlt].
  assert (at_key k q = 0) as E0 by (unfold at_key; rewrite Hk; apply kcmp_refl).
  specialize (Hgt ltac:(lia)). specialize (Hlt ltac:(lia)).
  rewrite find_key_app, (find_key_gt _ _ Hlt). cbn [find_key]. rewrite E0. cbn [Z.eqb].
  exists t', (before stk ++ elements l), (elements r ++ after stk).
  assert (elements t' = (before stk ++ elements l) ++ elements r ++ after stk) as Et by (rewrite Ee1; by rewrite <- !app_assoc).
  split_and!; [done| |done|done|done|done]. split; [done|]. rewrite Et. by apply (sorted_delete _ q).
Qed.
(** What is found afterwards. *)
Lemma find_key_insert k lo x hi :
  Forall (λ d, at_key (key x) d > 0) lo → Forall (λ d, at_key (key x) d < 0) hi →
  find_key k (lo ++ x :: hi) = if kcmp k (key x) =? 0 then Some x else find_key k (lo ++ hi).
Proof.
  intros Hlo Hhi. rewrite !find_key_app. cbn [find_key].
  change (at_key k x) with (kcmp k (key x)). destruct (Z.eqb_spec (kcmp k (key x)) 0) as [->%kcmp_eq|]; [|done].
  by rewrite (find_key_gt _ _ Hlo).
Qed.

Lemma find_key_delete k lo x hi :
  Forall (λ d, at_key (key x) d > 0) lo → Forall (λ d, at_key (key x) d < 0) hi →
  find_key k (lo ++ hi) = if kcmp k (key x) =? 0 then None else find_key k (lo ++ x :: hi).
Proof.
  intros Hlo Hhi. rewrite !find_key_app. cbn [find_key].
  change (at_key k x) with (kcmp k (key x)). destruct (Z.eqb_spec (kcmp k (key x)) 0) as [->%kcmp_eq|]; [|done].
  by rewrite (find_key_gt _ _ Hlo), (find_key_lt _ _ Hhi).
Qed.

Lemma find_key_key k l d : find_key k l = Some d → key d = k.
Proof.
  induction l as [|d' l IH]; cbn [find_key]; [done|]. destruct (Z.eqb_spec (at_key k d') 0) as [E|]; [|done].
  intros [= <-]. symmetry. by apply (kcmp_eq k).
Qed.
End keys.

(** * The sweep *)

(** Children before their parent, left before right. *)
Fixpoint postorder {A} (t : tree A) : list A :=
  match t with Null => [] | Node l _ d r => postorder l ++ postorder r ++ [d] end.

Lemma postorder_elements {A} (t : tree A) : postorder t ≡ₚ elements t.
Proof.
  induction t as [|l IHl b d r IHr]; cbn [postorder elements]; [done|].
  rewrite IHl, IHr. apply Permutation_app_head. by rewrite Permutation_app_comm.
Qed.

Lemma sweep_spec {A} (t : tree A) stk n k l :
  Z.of_nat (length stk) + height t <= Z.of_nat STACK_NEED →
  sweep n Null stk = Ok l → k = (n + 3 * length (elements t))%nat → sweep k t stk = Ok (postorder t ++ l).
Proof.
  revert stk n k l. induction t as [|tl IHl b d tr IHr]; intros stk n k l Hh Hn ->; cbn [elements length postorder app].
  { by replace (n + 3 * 0)%nat with n by lia. }
  pose proof (height_nonneg tl). pose proof (height_nonneg tr). cbn [height] in Hh. set (t := Node tl b d tr).
  rewrite length_app. cbn [length].
  replace (n + 3 * (length (elements tl) + S (length (elements tr))))%nat
    with (S (S (S n + 3 * length (elements tr)) + 3 * length (elements tl)))%nat by lia.
  cbn [sweep]. rewrite (proj2 (Nat.ltb_lt _ _)) by (unfold STACK_NEED in *; lia).
  rewrite <- !app_assoc. eapply IHl; [cbn [length]; lia| |reflexivity]. cbn [sweep].
  eapply IHr; [cbn [length]; lia| |reflexivity]. cbn [sweep]. by rewrite Hn.
Qed.
