(* ===== verification/Monitors.v ===== *)
(** Monitors, links and suspend monitors of a process, port or distribution entry
    (erts/emulator/beam/erl_monitors.c): the operations on top of the trees of
    Avl.v, and the accounting of the large nodes.

    Terms are a parameter, with the term comparison [CMP] (erts_cmp of utils.c),
    [IS_CONST] and the heap size [NC_HEAP_SIZE] of a boxed identifier.  The
    reference counts of external identifiers' node entries are not part of the
    model. *)
From S2P Require Import Prelude Avl Scan.
Set Warnings "-register-all".

(** Sizes in words on a 64-bit machine. *)
Definition REF_THING_SIZE : Z := 3.
Definition ERTS_MONITOR_SIZE : Z := 6.
Definition ERTS_MONITOR_SH_SIZE : Z := ERTS_MONITOR_SIZE + REF_THING_SIZE.
Definition ERTS_LINK_SIZE : Z := 5.
Definition ERTS_LINK_SH_SIZE : Z := ERTS_LINK_SIZE.
Definition LINK_PID : Z := 1.
Definition LINK_NODE : Z := 3.

Section terms.
Context {Term : Type} (CMP : Term → Term → Z) (IS_CONST : Term → bool) (NC_HEAP_SIZE : Term → Z).

(** A reference: a local one (a boxed [RefThing], with the bytes of its
    [ERTS_REF_WORDS] words) or an external one. *)
Inductive Ref : Type :=
| LocalRef (data : bytes)
| ExternalRef (t : Term).

Definition cmp_mon_ref (ref1 ref2 : Ref) : Z :=
  match ref1, ref2 with
  | LocalRef b1, LocalRef b2 => memcmp b1 b2
  | LocalRef _, ExternalRef _ => -1
  | ExternalRef _, LocalRef _ => 1
  | ExternalRef t1, ExternalRef t2 => CMP t1 t2
  end.

Definition ref_heap_size (ref : Ref) : Z :=
  match ref with LocalRef _ => REF_THING_SIZE | ExternalRef t => NC_HEAP_SIZE t end.

(** ** Nodes *)

Record ErtsMonitor : Type := mkMonitor {
  mon_type : Z;
  mon_ref : Ref;
  mon_pid : Term;
  mon_name : Term }.

(** [shared]: [inl] the reference count of a node link, [inr] the root of the
    links of a distribution entry's link. *)
Inductive ErtsLink : Type := mkLink {
  lnk_type : Z;
  lnk_pid : Term;
  lnk_shared : Z + tree ErtsLink }.

Record ErtsSuspendMonitor : Type := mkSuspendMonitor {
  smon_pending : Z;
  smon_active : Z;
  smon_pid : Term }.

Definition mon_size (ref : Ref) (pid : Term) : Z :=
  let mon_size := ERTS_MONITOR_SIZE + ref_heap_size ref in
  if negb (IS_CONST pid) then mon_size + NC_HEAP_SIZE pid else mon_size.

(** [lh]: the counter [tot_link_lh_size], in bytes. *)
Definition create_monitor (lh type : Z) (ref : Ref) (pid name : Term) : ErtsMonitor * Z :=
  let sz := mon_size ref pid in
  (mkMonitor (wrap 16 type) ref pid name,
   if sz <=? ERTS_MONITOR_SH_SIZE then lh else lh + sz * 8).

Definition erts_destroy_monitor (lh : Z) (mon : ErtsMonitor) : Z :=
  let sz := mon_size (mon_ref mon) (mon_pid mon) in
  if sz <=? ERTS_MONITOR_SH_SIZE then lh else lh - sz * 8.

Definition lnk_size (pid : Term) : Z :=
  if negb (IS_CONST pid) then ERTS_LINK_SIZE + NC_HEAP_SIZE pid else ERTS_LINK_SIZE.

Definition create_link (lh type : Z) (pid : Term) : ErtsLink * Z :=
  let sz := lnk_size pid in
  (mkLink (wrap 16 type) pid (if wrap 16 type =? LINK_NODE then inl 0 else inr Null),
   if sz <=? ERTS_LINK_SH_SIZE then lh else lh + sz * 8).

Definition erts_destroy_link (lh : Z) (lnk : ErtsLink) : Z :=
  let sz := lnk_size (lnk_pid lnk) in
  if sz <=? ERTS_LINK_SH_SIZE then lh else lh - sz * 8.

Definition create_suspend_monitor (pid : Term) : ErtsSuspendMonitor := mkSuspendMonitor 0 0 pid.

(** ** Monitors *)

Definition mon_at := at_key cmp_mon_ref mon_ref.

(** [None]: [erts_exit], a monitor with the reference is already there. *)
Definition erts_add_monitor (lh : Z) (root : tree ErtsMonitor) (type : Z) (ref : Ref) (pid name : Term)
    : res (option (tree ErtsMonitor * Z)) :=
  let '(n, lh) := create_monitor lh type ref pid name in
  r ← tree_add (mon_at ref) n root;
  match r with
  | inl _ => Ok None
  | inr t => Ok (Some (t, lh))
  end.

(** [None]: NULL. *)
Definition erts_remove_monitor (root : tree ErtsMonitor) (ref : Ref)
    : res (option ErtsMonitor * tree ErtsMonitor) :=
  r ← tree_remove (mon_at ref) root;
  match r with
  | None => Ok (None, root)
  | Some (q, t) => Ok (Some q, t)
  end.

Definition erts_lookup_monitor (root : tree ErtsMonitor) (ref : Ref) : option ErtsMonitor :=
  tree_lookup (mon_at ref) root.

Definition erts_sweep_monitors (root : tree ErtsMonitor) : res (list ErtsMonitor) :=
  sweep (S (3 * length (elements root))) root [].

(** ** Links *)

Definition lnk_at := at_key CMP lnk_pid.

(** Returns 0, or -1 if there is a link already. *)
Definition erts_add_link (lh : Z) (root : tree ErtsLink) (type : Z) (pid : Term)
    : res (Z * tree ErtsLink * Z) :=
  let '(n, lh') := create_link lh type pid in
  r ← tree_add (lnk_at pid) n root;
  match r with
  | inl _ => Ok (-1, root, lh)
  | inr t => Ok (0, t, lh')
  end.

(** Returns the new or the old link. *)
Definition erts_add_or_lookup_link (lh : Z) (root : tree ErtsLink) (type : Z) (pid : Term)
    : res (ErtsLink * tree ErtsLink * Z) :=
  let '(n, lh') := create_link lh type pid in
  r ← tree_add (lnk_at pid) n root;
  match r with
  | inl d => Ok (d, root, lh)
  | inr t => Ok (n, t, lh')
  end.

Definition erts_remove_link (root : tree ErtsLink) (pid : Term) : res (option ErtsLink * tree ErtsLink) :=
  r ← tree_remove (lnk_at pid) root;
  match r with
  | None => Ok (None, root)
  | Some (q, t) => Ok (Some q, t)
  end.

Definition erts_lookup_link (root : tree ErtsLink) (pid : Term) : option ErtsLink :=
  tree_lookup (lnk_at pid) root.

Definition erts_sweep_links (root : tree ErtsLink) : res (list ErtsLink) :=
  sweep (S (3 * length (elements root))) root [].

(** ** Suspend monitors *)

Definition smon_at := at_key CMP smon_pid.

Definition erts_add_or_lookup_suspend_monitor (root : tree ErtsSuspendMonitor) (pid : Term)
    : res (ErtsSuspendMonitor * tree ErtsSuspendMonitor) :=
  let res := create_suspend_monitor pid in
  r ← tree_add (smon_at pid) res root;
  match r with
  | inl d => Ok (d, root)
  | inr t => Ok (res, t)
  end.

Definition erts_delete_suspend_monitor (root : tree ErtsSuspendMonitor) (pid : Term)
    : res (tree ErtsSuspendMonitor) :=
  r ← tree_remove (smon_at pid) root;
  match r with
  | None => Ok root
  | Some (_, t) => Ok t
  end.

Definition erts_lookup_suspend_monitor (root : tree ErtsSuspendMonitor) (pid : Term) : option ErtsSuspendMonitor :=
  tree_lookup (smon_at pid) root.

Definition erts_sweep_suspend_monitors (root : tree ErtsSuspendMonitor) : res (list ErtsSuspendMonitor) :=
  sweep (S (3 * length (elements root))) root [].

(** * The order of references *)

#[export] Instance cmp_mon_ref_order `{!KeyCmp Term CMP} : KeyCmp Ref cmp_mon_ref.
Proof.
  split.
  - intros [a|s] [b|t]; cbn [cmp_mon_ref]; try (split; (lia || congruence)).
    + rewrite memcmp_eq. split; congruence.
    + rewrite kcmp_eq. split; congruence.
  - intros [a|s] [b|t]; cbn [cmp_mon_ref]; try lia; [apply memcmp_sym|apply kcmp_sym].
  - intros [a|s] [b|t] [c|u]; cbn [cmp_mon_ref]; try lia; [apply memcmp_trans|apply kcmp_trans].
Qed.

(** * Histories of a monitor tree

    The operations a process performs on its monitors: add one, remove and destroy
    one, look one up. *)
Inductive mon_op : Type :=
| AddMon (type : Z) (ref : Ref) (pid name : Term)
| DelMon (ref : Ref)
| GetMon (ref : Ref).

(** The tree and the counter; the reply is the monitor removed or found.
    [None]: the emulator exits. *)
Definition mon_step (st : tree ErtsMonitor * Z) (op : mon_op)
    : res (option ((tree ErtsMonitor * Z) * option ErtsMonitor)) :=
  let '(root, lh) := st in
  match op with
  | AddMon type ref pid name =>
      r ← erts_add_monitor lh root type ref pid name;
      match r with
      | None => Ok None
      | Some st => Ok (Some (st, None))
      end
  | DelMon ref =>
      '(q, root) ← erts_remove_monitor root ref;
      match q with
      | None => Ok (Some ((root, lh), None))
      | Some m => Ok (Some ((root, erts_destroy_monitor lh m), Some m))
      end
  | GetMon ref => Ok (Some (st, erts_lookup_monitor root ref))
  end.

(** The specification: a partial function from references to monitors. *)
Definition mon_map : Type := Ref → option ErtsMonitor.

Definition spec_step (m : mon_map) (op : mon_op) : option (mon_map * option ErtsMonitor) :=
  match op with
  | AddMon type ref pid name =>
      match m ref with
      | Some _ => None
      | None => Some (λ k, if cmp_mon_ref k ref =? 0 then Some (mkMonitor (wrap 16 type) ref pid name) else m k, None)
      end
  | DelMon ref => Some (λ k, if cmp_mon_ref k ref =? 0 then None else m k, m ref)
  | GetMon ref => Some (m, m ref)
  end.

(** Replies up to the end of the history, or to the exit ([false]). *)
Fixpoint mon_run (st : tree ErtsMonitor * Z) (ops : list mon_op)
    : res ((tree ErtsMonitor * Z) * list (option ErtsMonitor) * bool) :=
  match ops with
  | [] => Ok (st, [], true)
  | op :: ops =>
      r ← mon_step st op;
      match r with
      | None => Ok (st, [], false)
      | Some (st, reply) => '(st, l, ok) ← mon_run st ops; Ok (st, reply :: l, ok)
      end
  end.

Fixpoint spec_run (m : mon_map) (ops : list mon_op) : mon_map * list (option ErtsMonitor) * bool :=
  match ops with
  | [] => (m, [], true)
  | op :: ops =>
      match spec_step m op with
      | None => (m, [], false)
      | Some (m, reply) => let '(m, l, ok) := spec_run m ops in (m, reply :: l, ok)
      end
  end.

(** The bytes of a monitor that the counter counts. *)
Definition lh_bytes (mon : ErtsMonitor) : Z :=
  let sz := mon_size (mon_ref mon) (mon_pid mon) in if sz <=? ERTS_MONITOR_SH_SIZE then 0 else sz * 8.

Definition sum_lh (l : list ErtsMonitor) : Z := foldr (λ mon a, lh_bytes mon + a) 0 l.

Lemma sum_lh_app l k : sum_lh (l ++ k) = sum_lh l + sum_lh k.
Proof.
  induction l as [|m l IH]; [done|]. cbn [app sum_lh foldr]. fold (sum_lh (l ++ k)) (sum_lh l). rewrite IH. lia.
Qed.

(** The tree stands for the map, and the counter for the large nodes in it. *)
Definition mon_rel (st : tree ErtsMonitor * Z) (m : mon_map) : Prop :=
  valid cmp_mon_ref mon_ref st.1 ∧ st.2 = sum_lh (elements st.1) ∧
  ∀ k, find_key cmp_mon_ref mon_ref k (elements st.1) = m k.
End terms.
