(* ===== verification/MonProps.v ===== *)
(** What the monitor and link trees promise their users: they behave as maps, for
    histories of fewer than 2^32 entries they stay inside their fixed stacks, and
    a sweep sees every entry once. *)
From S2P Require Import Prelude Avl Monitors.

Section props.
Context {Term : Type} (CMP : Term → Term → Z) (IS_CONST : Term → bool) (NC_HEAP_SIZE : Term → Z).
Context `{!KeyCmp Term CMP}.

(** One operation refines the operation on maps. *)
Lemma mon_step_refines st m op :
  mon_rel CMP IS_CONST NC_HEAP_SIZE st m → zlen (elements st.1) < 2 ^ 32 →
  match spec_step CMP m op with
  | None => mon_step CMP IS_CONST NC_HEAP_SIZE st op = Ok None
  | Some (m', reply) =>
      ∃ st', mon_step CMP IS_CONST NC_HEAP_SIZE st op = Ok (Some (st', reply)) ∧
        mon_rel CMP IS_CONST NC_HEAP_SIZE st' m' ∧ zlen (elements st'.1) <= zlen (elements st.1) + 1
  end.
Proof.
  destruct st as [root lh]. intros (Hv & Hlh & Hm) Hsz. cbn [fst snd] in *. destruct op as [type ref pid name|ref|ref]; cbn [spec_step mon_step].
  - unfold erts_add_monitor, create_monitor. set (n := mkMonitor _ _ _ _).
    destruct (tree_add_spec (cmp_mon_ref CMP) mon_ref n root Hv Hsz) as (r & E & Hr).
    unfold mon_at. change (mon_ref n) with ref in E, Hr. rewrite Hm in Hr. rewrite E, bind_Ok.
    destruct (m ref) as [d|]; [by rewrite Hr|]. destruct Hr as (t' & lo & hi & -> & Hv' & Ee & Ee' & Hlo & Hhi).
    eexists. split; [done|]. split.
    + split_and!; [done| |].
      * cbn [fst snd]. rewrite Ee', Hlh, Ee, !sum_lh_app. cbn [sum_lh foldr]. fold (sum_lh IS_CONST NC_HEAP_SIZE hi).
        unfold lh_bytes. cbn [mon_ref mon_pid n]. destruct (_ <=? _); lia.
      * intros k. cbn [fst]. rewrite Ee', (find_key_insert (cmp_mon_ref CMP) mon_ref k lo n hi) by done.
        rewrite <- Ee, Hm. done.
    + cbn [fst]. rewrite Ee, Ee', !zlen_app, zlen_cons. lia.
  - destruct (tree_remove_spec (cmp_mon_ref CMP) mon_ref ref root Hv Hsz) as (r & E & Hr).
    unfold erts_remove_monitor, mon_at. rewrite Hm in Hr. rewrite E, bind_Ok.
    destruct (m ref) as [d|] eqn:Ed.
    + destruct Hr as (t' & lo & hi & -> & Hv' & Ee & Ee' & Hlo & Hhi). rewrite bind_Ok. eexists. split; [done|].
      pose proof (find_key_key (cmp_mon_ref CMP) mon_ref ref (elements root) d) as Hk. rewrite Hm in Hk. specialize (Hk Ed). subst ref.
      split.
      * split_and!; [done| |].
        -- cbn [fst snd]. rewrite Ee', Hlh, Ee, !sum_lh_app. cbn [sum_lh foldr]. fold (sum_lh IS_CONST NC_HEAP_SIZE hi).
           unfold lh_bytes, erts_destroy_monitor. destruct (_ <=? _); lia.
        -- intros k. cbn [fst]. rewrite Ee', (find_key_delete (cmp_mon_ref CMP) mon_ref k lo d hi) by done.
           by rewrite <- Ee, Hm.
      * cbn [fst]. rewrite Ee, Ee', !zlen_app, zlen_cons. lia.
    + subst r. rewrite bind_Ok. eexists. split; [done|]. split; [|cbn [fst]; lia]. split_and!; [done..|].
      intros k. cbn [fst]. rewrite Hm. destruct (Z.eqb_spec (cmp_mon_ref CMP k ref) 0) as [->%kcmp_eq|]; done.
  - exists (root, lh). split; [|split; [by split_and!|cbn [fst]; lia]].
    unfold erts_lookup_monitor, mon_at. destruct Hv as [_ Hs]. by rewrite (tree_lookup_find (cmp_mon_ref CMP) mon_ref ref root Hs), Hm.
Qed.

(** C1: refinement: from an empty tree, any history of fewer than 2^32
    operations gives the replies of a map from references to monitors, exits
    exactly when a present reference is added, never overruns the stacks, keeps the
    tree balanced and ordered, and leaves the counter of large nodes at the bytes of
    the large monitors in the tree. *)
Theorem monitors_refine_map ops :
  Z.of_nat (length ops) < 2 ^ 32 →
  ∃ st m l ok, mon_run CMP IS_CONST NC_HEAP_SIZE (Null, 0) ops = Ok (st, l, ok) ∧
    spec_run CMP (λ _, None) ops = (m, l, ok) ∧ mon_rel CMP IS_CONST NC_HEAP_SIZE st m.
Proof.
  intros Hlen.
  assert (∀ st m, mon_rel CMP IS_CONST NC_HEAP_SIZE st m → zlen (elements st.1) + Z.of_nat (length ops) < 2 ^ 32 →
    ∃ st' m' l ok, mon_run CMP IS_CONST NC_HEAP_SIZE st ops = Ok (st', l, ok) ∧
      spec_run CMP m ops = (m', l, ok) ∧ mon_rel CMP IS_CONST NC_HEAP_SIZE st' m') as H.
  { clear Hlen. induction ops as [|op ops IH]; intros st m Hr Hl; cbn [mon_run spec_run length] in *.
    - by exists st, m, [], true.
    - pose proof (mon_step_refines st m op Hr ltac:(lia)) as Hs. destruct (spec_step CMP m op) as [[m1 reply]|].
      + destruct Hs as (st1 & -> & Hr1 & Hz). rewrite bind_Ok.
        destruct (IH st1 m1 Hr1 ltac:(lia)) as (st' & m' & l & ok & -> & -> & Hr'). rewrite bind_Ok.
        by exists st', m', (reply :: l), ok.
      + rewrite Hs, bind_Ok. by exists st, m, [], false. }
  apply H; [|change (0 + Z.of_nat (length ops) < 2 ^ 32); lia]. split_and!; [split; [done|constructor]|done|done].
Qed.

(** C39: links: in a balanced and ordered tree of fewer than 2^32 links, adding a
    link to a pid that has one returns -1 (or the link) and changes nothing, adding
    a new one and removing one give balanced and ordered trees in which exactly that
    pid changed, and removing an absent one changes nothing. *)
Theorem links_behave_as_map lh root type pid :
  valid CMP lnk_pid root → zlen (elements root) < 2 ^ 32 →
  match erts_lookup_link CMP root pid with
  | Some d =>
      erts_add_link CMP IS_CONST NC_HEAP_SIZE lh root type pid = Ok (-1, root, lh) ∧
      erts_add_or_lookup_link CMP IS_CONST NC_HEAP_SIZE lh root type pid = Ok (d, root, lh) ∧
      ∃ t', erts_remove_link CMP root pid = Ok (Some d, t') ∧ valid CMP lnk_pid t' ∧
        ∀ p, erts_lookup_link CMP t' p = if CMP p pid =? 0 then None else erts_lookup_link CMP root p
  | None =>
      erts_remove_link CMP root pid = Ok (None, root) ∧
      ∃ t', let '(n, lh') := create_link IS_CONST NC_HEAP_SIZE lh type pid in
        erts_add_link CMP IS_CONST NC_HEAP_SIZE lh root type pid = Ok (0, t', lh') ∧
        erts_add_or_lookup_link CMP IS_CONST NC_HEAP_SIZE lh root type pid = Ok (n, t', lh') ∧
        valid CMP lnk_pid t' ∧
        ∀ p, erts_lookup_link CMP t' p = if CMP p pid =? 0 then Some n else erts_lookup_link CMP root p
  end.
Proof.
  intros Hv Hsz. pose proof Hv as [_ Hs]. unfold erts_lookup_link, lnk_at.
  rewrite (tree_lookup_find CMP lnk_pid pid root Hs).
  unfold erts_add_link, erts_add_or_lookup_link, erts_remove_link, lnk_at.
  set (n := (create_link IS_CONST NC_HEAP_SIZE lh type pid).1).
  assert (create_link IS_CONST NC_HEAP_SIZE lh type pid = (n, (create_link IS_CONST NC_HEAP_SIZE lh type pid).2)) as -> by done.
  destruct (tree_add_spec CMP lnk_pid n root Hv Hsz) as (ra & Ea & Ha).
  destruct (tree_remove_spec CMP lnk_pid pid root Hv Hsz) as (rr & Er & Hr).
  change (lnk_pid n) with pid in *. rewrite Ea, Er, !bind_Ok.
  destruct (find_key CMP lnk_pid pid (elements root)) as [d|] eqn:Ed.
  - subst ra. destruct Hr as (t' & lo & hi & -> & Hv' & Ee & Ee' & Hlo & Hhi).
    apply find_key_key in Ed; [|done]. subst pid. split_and!; [done..|]. exists t'. split_and!; [done..|]. intros p.
    rewrite (tree_lookup_find CMP lnk_pid p t' (proj2 Hv')), (tree_lookup_find CMP lnk_pid p root Hs), Ee, Ee'.
    by apply find_key_delete.
  - subst rr. destruct Ha as (t' & lo & hi & -> & Hv' & Ee & Ee' & Hlo & Hhi). split; [done|].
    exists t'. split_and!; [done..|]. intros p.
    rewrite (tree_lookup_find CMP lnk_pid p t' (proj2 Hv')), (tree_lookup_find CMP lnk_pid p root Hs), Ee, Ee'.
    by apply (find_key_insert CMP lnk_pid p lo n hi).
Qed.

(** C40: a sweep over a balanced tree of fewer than 2^32 entries ends, stays
    inside its stack and calls the function once for every entry, an entry after the
    entries below it, so that the function may free it. *)
Theorem sweep_visits_once root :
  valid (cmp_mon_ref CMP) mon_ref root → zlen (elements root) < 2 ^ 32 →
  ∃ l, erts_sweep_monitors root = Ok l ∧ l ≡ₚ elements root ∧ l = postorder root.
Proof.
  intros [Ha _] Hsz. pose proof (avl_height root Ha Hsz). exists (postorder root).
  split_and!; [|apply postorder_elements|done]. rewrite <- (app_nil_r (postorder root)).
  unfold erts_sweep_monitors. apply (sweep_spec root [] 1); [unfold STACK_NEED; cbn [length]; lia|done|lia].
Qed.
End props.

(** * Terms for the witnesses: integers with their order *)

#[export] Instance Z_order : KeyCmp Z Z.sub.
Proof. split; lia. Qed.

Lemma monitors_refine_map_witness :
  ∃ st m l ok,
    mon_run Z.sub (λ _, false) (λ _, 4) (Null, 0)
      [AddMon 1 (ExternalRef 7) 1 0; AddMon 1 (LocalRef [1; 2]) 2 0; AddMon 3 (LocalRef [1; 1]) 3 0;
       GetMon (ExternalRef 7); DelMon (LocalRef [1; 2]); GetMon (LocalRef [1; 2])] = Ok (st, l, ok) ∧
    spec_run Z.sub (λ _, None)
      [AddMon 1 (ExternalRef 7) 1 0; AddMon 1 (LocalRef [1; 2]) 2 0; AddMon 3 (LocalRef [1; 1]) 3 0;
       GetMon (ExternalRef 7); DelMon (LocalRef [1; 2]); GetMon (LocalRef [1; 2])] = (m, l, ok) ∧
    mon_rel Z.sub (λ _, false) (λ _, 4) st m.
Proof. apply (monitors_refine_map Z.sub (λ _, false) (λ _, 4)). vm_compute. reflexivity. Defined.

(** A tree of two links. *)
Definition two_links : tree (ErtsLink (Term := Z)) :=
  Node Null 1 (mkLink 1 10 (inr Null)) (Node Null 0 (mkLink 1 20 (inr Null)) Null).

Lemma two_links_valid : valid Z.sub lnk_pid two_links.
Proof. split; [vm_compute; split_and!; (done || discriminate)|repeat constructor]. Qed.

Lemma links_behave_as_map_witness :
  match erts_lookup_link Z.sub two_links 15 with
  | Some d => False
  | None =>
      erts_remove_link Z.sub two_links 15 = Ok (None, two_links) ∧
      ∃ t', let '(n, lh') := create_link (λ _, true) (λ _, 0) 0 1 15 in
        erts_add_link Z.sub (λ _, true) (λ _, 0) 0 two_links 1 15 = Ok (0, t', lh') ∧
        erts_add_or_lookup_link Z.sub (λ _, true) (λ _, 0) 0 two_links 1 15 = Ok (n, t', lh') ∧
        valid Z.sub lnk_pid t' ∧
        ∀ p, erts_lookup_link Z.sub t' p = if p - 15 =? 0 then Some n else erts_lookup_link Z.sub two_links p
  end.
Proof.
  exact (links_behave_as_map Z.sub (λ _, true) (λ _, 0) 0 two_links 1 15 two_links_valid ltac:(vm_compute; reflexivity)).
Defined.

Lemma sweep_visits_once_witness :
  ∃ l, erts_sweep_monitors
    (Node (Node Null 0 (mkMonitor 1 (LocalRef [1]) 5 0) Null) (-1) (mkMonitor 1 (LocalRef [2]) 6 0) Null) = Ok l ∧
    l ≡ₚ [mkMonitor 1 (LocalRef [1]) 5 0; mkMonitor 1 (LocalRef [2]) 6 0] ∧
    l = [mkMonitor 1 (LocalRef [1]) 5 0; mkMonitor 1 (LocalRef [2]) 6 0].
Proof.
  apply (sweep_visits_once Z.sub (Node (Node Null 0 (mkMonitor 1 (LocalRef [1]) 5 0) Null) (-1) (mkMonitor 1 (LocalRef [2]) 6 0) Null)).
  - split; [vm_compute; split_and!; (done || discriminate)|repeat constructor].
  - vm_compute. reflexivity.
Defined.
