(* ===== verification/Packet.v ===== *)
(** The packet parser of the emulator (erts/emulator/beam/packet_parser.c and
    packet_parser.h), used by the inet driver and by erlang:decode_packet/3.

    [packet_get_length] finds the length of the first packet in a buffer,
    [packet_get_body] strips its header, [packet_parse] parses HTTP lines and
    TLS records and hands the parts to callbacks.  A [char *] is an offset into the
    buffer; a string handed to a callback is the list of its bytes.  A [goto] of
    [packet_get_length] to one of the labels at its end is a value of [target].
    Signed overflow of the decimal numbers wraps, as the compilers in use do. *)
From S2P Require Import Prelude Scan.

(** * packet_parser.h *)

Inductive PacketParseType :=
| TCP_PB_RAW | TCP_PB_1 | TCP_PB_2 | TCP_PB_4 | TCP_PB_ASN1 | TCP_PB_RM
| TCP_PB_CDR | TCP_PB_FCGI | TCP_PB_LINE_LF | TCP_PB_TPKT | TCP_PB_HTTP
| TCP_PB_HTTPH | TCP_PB_SSL_TLS | TCP_PB_HTTP_BIN | TCP_PB_HTTPH_BIN.

#[export] Instance PacketParseType_eq_dec : EqDecision PacketParseType.
Proof. solve_decision. Defined.

(** [next] is the rest of the bucket's list; [atom] is determined by [name]. *)
Record http_atom_t := mk_http_atom {
  ha_h : Z; ha_name : bytes; ha_len : Z; ha_index : Z }.

Inductive uri_type :=
| URI_STAR | URI_STRING | URI_ABS_PATH | URI_SCHEME | URI_HTTP | URI_HTTPS.

Record PacketHttpURI := mk_uri {
  uri_ty : uri_type; uri_s1 : bytes; uri_s2 : bytes; uri_port : Z }.

(** The callbacks, on a state [A] that they update ([void *arg]). *)
Record PacketCallbacks (A : Type) := {
  http_response : A → Z → Z → Z → bytes → Z * A;
  http_request : A → option http_atom_t → bytes → PacketHttpURI → Z → Z → Z * A;
  http_eoh : A → Z * A;
  http_header : A → option http_atom_t → bytes → bytes → Z * A;
  http_error : A → bytes → Z * A;
  ssl_tls : A → Z → Z → Z → bytes → bytes → Z * A }.
Arguments http_response {A} _.
Arguments http_request {A} _.
Arguments http_eoh {A} _.
Arguments http_header {A} _.
Arguments http_error {A} _.
Arguments ssl_tls {A} _.

(** [b + s] with [n] characters, as an argument of a callback. *)
Definition slice (b : bytes) (s n : Z) : bytes := take (Z.to_nat n) (drop (Z.to_nat s) b).

(** * Integers in network order (sys.h, packet_parser.c) *)

Definition get_int8 (b : bytes) (s : Z) : res Z := rd b s.
Definition get_int16 (b : bytes) (s : Z) : res Z :=
  b0 ← rd b s; b1 ← rd b (s + 1); Ok (Z.lor (Z.shiftl b0 8) b1).
Definition get_int24 (b : bytes) (s : Z) : res Z :=
  b0 ← rd b s; b1 ← rd b (s + 1); b2 ← rd b (s + 2);
  Ok (Z.lor (Z.lor (Z.shiftl b0 16) (Z.shiftl b1 8)) b2).
Definition get_int32 (b : bytes) (s : Z) : res Z :=
  b0 ← rd b s; b1 ← rd b (s + 1); b2 ← rd b (s + 2); b3 ← rd b (s + 3);
  Ok (to_int (Z.lor (Z.lor (Z.lor (Z.shiftl b0 24) (Z.shiftl b1 16)) (Z.shiftl b2 8)) b3)).
Definition get_little_int32 (b : bytes) (s : Z) : res Z :=
  b3 ← rd b (s + 3); b2 ← rd b (s + 2); b1 ← rd b (s + 1); b0 ← rd b s;
  Ok (to_int (Z.lor (Z.lor (Z.lor (Z.shiftl b3 24) (Z.shiftl b2 16)) (Z.shiftl b1 8)) b0)).
(** [put_int24(i, s)] *)
Definition put_int24 (i : Z) : bytes :=
  [Z.land (Z.shiftr i 16) 255; Z.land (Z.shiftr i 8) 255; Z.land i 255].

(** Conversion to [unsigned]. *)
Abbreviation to_uint := (wrap 32).

(** * packet_get_length *)

(** Where the [switch] of [packet_get_length] ends. *)
Inductive target :=
| t_more
| t_remain (hlen plen : Z)
| t_done (plen : Z)
| t_error
| t_return (v : Z).

Definition FCGI_VERSION_1 : Z := 1.
Definition TPKT_VRSN : Z := 3.
Definition CDR_MAGIC : bytes := str "GIOP".
Definition sizeof_cdr_head : Z := 12.
Definition sizeof_fcgi_head : Z := 8.
Definition sizeof_tpkt_head : Z := 4.

Definition CHAR_NL : Z := 10.
Definition CHAR_CR : Z := 13.
Definition SP_char (c : Z) : bool := (c =? 32) || (c =? 9).

Definition NL (b : bytes) (s : Z) : res bool := c ← rd b s; Ok (c =? CHAR_NL).
Definition CRNL (b : bytes) (s : Z) : res bool :=
  c ← rd b s;
  if c =? CHAR_CR then d ← rd b (s + 1); Ok (d =? CHAR_NL) else Ok false.
Definition SP (b : bytes) (s : Z) : res bool := c ← rd b s; Ok (SP_char c).

(** case TCP_PB_1, TCP_PB_2, TCP_PB_4, TCP_PB_RM *)
Definition prefix_case (get : bytes → Z → res Z) (mask : Z → Z) (hlen : Z)
    (b : bytes) (n : Z) : res target :=
  if n <? hlen then Ok t_more
  else plen ← get b 0; Ok (t_remain hlen (to_uint (mask plen))).

(** case TCP_PB_LINE_LF *)
Definition line_case (b : bytes) (n max_plen trunc_len delimiter : Z) : res target :=
  ptr2 ← memchr b 0 delimiter n;
  match ptr2 with
  | None =>
      if (n >? max_plen) && negb (max_plen =? 0) then Ok t_error
      else if (n >=? trunc_len) && negb (trunc_len =? 0) then Ok (t_return (to_int trunc_len))
      else Ok t_more
  | Some p =>
      let len := to_int (p + 1) in
      if (to_uint len >? max_plen) && negb (max_plen =? 0) then Ok t_error
      else if (to_uint len >? trunc_len) && negb (trunc_len =? 0)
      then Ok (t_return (to_int trunc_len))
      else Ok (t_return len)
  end.

(** The tag in case TCP_PB_ASN1: [while (nn && (( *tptr & 0x80) == 0x80)) ..]. *)
Definition asn1_more_tag (c : Z) : bool := Z.land c 128 =? 128.

(** case TCP_PB_ASN1, from the length field on. *)
Definition asn1_length (b : bytes) (tptr nn : Z) : res target :=
  c ← rd b tptr;
  let length := Z.land c 127 in
  if Z.land c 128 =? 128 then
    let tptr := tptr + 1 in
    let nn := nn - 1 in
    if nn <? length then Ok t_more
    else if length =? 0 then Ok (t_remain tptr 0)
    else if length =? 1 then plen ← get_int8 b tptr; Ok (t_remain (tptr + 1) (to_uint plen))
    else if length =? 2 then plen ← get_int16 b tptr; Ok (t_remain (tptr + 2) (to_uint plen))
    else if length =? 3 then plen ← get_int24 b tptr; Ok (t_remain (tptr + 3) (to_uint plen))
    else if length =? 4 then plen ← get_int32 b tptr; Ok (t_remain (tptr + 4) (to_uint plen))
    else Ok t_error
  else Ok (t_remain (tptr + 1) length).

Definition asn1_case (b : bytes) (n : Z) : res target :=
  let nn := to_int n in
  if n <? 2 then Ok t_more
  else
    let nn := nn - 1 in
    c ← rd b 0;
    if Z.land c 31 =? 31 then
      '(tptr, nn) ← skip_while asn1_more_tag b 1 nn;
      if nn <? 2 then Ok t_more else asn1_length b (tptr + 1) (nn - 1)
    else asn1_length b 1 nn.

(** case TCP_PB_CDR *)
Definition cdr_case (b : bytes) (n : Z) : res target :=
  let hlen := sizeof_cdr_head in
  if n <? hlen then Ok t_more
  else
    magic ← rds b 0 4;
    if negb (bool_decide (magic = CDR_MAGIC)) then Ok t_error
    else
      flags ← rd b 6;
      plen ← (if negb (Z.land flags 1 =? 0) then get_little_int32 b 8 else get_int32 b 8);
      Ok (t_remain hlen (to_uint plen)).

(** case TCP_PB_FCGI *)
Definition fcgi_case (b : bytes) (n : Z) : res target :=
  let hlen := sizeof_fcgi_head in
  if n <? hlen then Ok t_more
  else
    version ← rd b 0;
    if negb (version =? FCGI_VERSION_1) then Ok t_error
    else
      b1 ← rd b 4; b0 ← rd b 5; pad ← rd b 6;
      Ok (t_remain hlen (to_uint (Z.lor (Z.shiftl b1 8) b0 + pad))).

(** The [while (1)] of case TCP_PB_HTTP. *)
Fixpoint http_loop (fuel : nat) (b : bytes) (n max_plen st ptr1 len : Z) : res target :=
  match fuel with
  | O => NoFuel
  | S fuel =>
      ptr2 ← memchr b ptr1 CHAR_NL len;
      match ptr2 with
      | None =>
          if negb (max_plen =? 0) && (n >=? max_plen) then Ok t_error else Ok t_more
      | Some p =>
          let plen := to_uint (p + 1) in
          let too_long := negb (max_plen =? 0) && (plen >? max_plen) in
          if st =? 0 then Ok (if too_long then t_error else t_done plen)
          else if plen <? n then
            sp ← SP b (p + 1);
            if sp && (plen >? 2) then
              http_loop fuel b n max_plen st (p + 1) (to_int (to_uint (n - plen)))
            else Ok (if too_long then t_error else t_done plen)
          else Ok (if too_long then t_error else t_more)
      end
  end.

(** case TCP_PB_HTTP and the three cases that share its code. *)
Definition http_case (b : bytes) (n max_plen trunc_len st : Z) : res target :=
  nl ← (if n =? 1 then NL b 0 else Ok false);
  crnl ← (if nl then Ok false else if n =? 2 then CRNL b 0 else Ok false);
  if nl || crnl then Ok (t_done n)
  else
    let max_plen := if max_plen =? 0 then trunc_len else max_plen in
    http_loop (loop_fuel b) b n max_plen st 0 (to_int n).

(** case TCP_PB_TPKT *)
Definition tpkt_case (b : bytes) (n : Z) : res target :=
  let hlen := sizeof_tpkt_head in
  if n <? hlen then Ok t_more
  else
    vrsn ← rd b 0;
    if vrsn =? TPKT_VRSN then
      l ← get_int16 b 2; Ok (t_remain hlen (to_uint (l - hlen)))
    else Ok t_error.

(** case TCP_PB_SSL_TLS *)
Definition ssl_case (b : bytes) (n : Z) : res target :=
  let hlen := 5 in
  if n <? hlen then Ok t_more
  else
    c0 ← rd b 0; c2 ← rd b 2;
    if negb (Z.land c0 128 =? 0) && (c2 =? 1) then
      l ← get_int16 b 0; Ok (t_remain hlen (to_uint (Z.land l 32767 - 3)))
    else l ← get_int16 b 3; Ok (t_remain hlen (to_uint l)).

(** The labels [more], [remain], [done] and [error]. *)
Definition finish (max_plen : Z) (t : target) : Z :=
  match t with
  | t_more => 0
  | t_remain hlen plen =>
      let tlen := to_int (to_uint (hlen + plen)) in
      if (negb (max_plen =? 0) && (plen >? max_plen)) || (tlen <? to_int hlen)
      then -1 else tlen
  | t_done plen => to_int plen
  | t_error => -1
  | t_return v => v
  end.

Definition packet_switch (htype : PacketParseType) (b : bytes)
    (n max_plen trunc_len delimiter st : Z) : res target :=
  match htype with
  | TCP_PB_RAW => if n =? 0 then Ok t_more else Ok (t_return (to_int n))
  | TCP_PB_1 => prefix_case get_int8 id 1 b n
  | TCP_PB_2 => prefix_case get_int16 id 2 b n
  | TCP_PB_4 => prefix_case get_int32 id 4 b n
  | TCP_PB_RM => prefix_case get_int32 (λ x, Z.land x 2147483647) 4 b n
  | TCP_PB_LINE_LF => line_case b n max_plen trunc_len delimiter
  | TCP_PB_ASN1 => asn1_case b n
  | TCP_PB_CDR => cdr_case b n
  | TCP_PB_FCGI => fcgi_case b n
  | TCP_PB_HTTPH | TCP_PB_HTTPH_BIN | TCP_PB_HTTP | TCP_PB_HTTP_BIN =>
      http_case b n max_plen trunc_len st
  | TCP_PB_TPKT => tpkt_case b n
  | TCP_PB_SSL_TLS => ssl_case b n
  end.

(** [*statep] as the [switch] leaves it: httph sets it. *)
Definition packet_state (htype : PacketParseType) (st : Z) : Z :=
  match htype with TCP_PB_HTTPH | TCP_PB_HTTPH_BIN => 1 | _ => st end.

(** The result and [*statep]. *)
Definition packet_get_length (htype : PacketParseType) (b : bytes)
    (n max_plen trunc_len delimiter st : Z) : res (Z * Z) :=
  let st := packet_state htype st in
  t ← packet_switch htype b n max_plen trunc_len delimiter st;
  Ok (finish max_plen t, st).

(** [packet_get_body]: offset and length of the body. *)
Definition packet_get_body (htype : PacketParseType) (b : bytes) (bufp lenp : Z) :
    res (Z * Z) :=
  match htype with
  | TCP_PB_1 => Ok (bufp + 1, lenp - 1)
  | TCP_PB_2 => Ok (bufp + 2, lenp - 2)
  | TCP_PB_4 => Ok (bufp + 4, lenp - 4)
  | TCP_PB_FCGI => pad ← rd b (bufp + 6); Ok (bufp, lenp - pad)
  | _ => Ok (bufp, lenp)
  end.

(** * Reading more data does not change a decision *)

(** The buffer sizes the theorems are about: [n] bytes read, of an [int]'s size. *)
Definition received (b : bytes) (n : Z) : Prop := n = zlen b ∧ n <= INT_MAX.

Lemma get_int16_app b e s :
  0 <= s → s + 2 <= zlen b → get_int16 (b ++ e) s = get_int16 b s.
Proof. intros. unfold get_int16. by rewrite !rd_app_l by lia. Qed.
Lemma get_int24_app b e s :
  0 <= s → s + 3 <= zlen b → get_int24 (b ++ e) s = get_int24 b s.
Proof. intros. unfold get_int24. by rewrite !rd_app_l by lia. Qed.
Lemma get_int32_app b e s :
  0 <= s → s + 4 <= zlen b → get_int32 (b ++ e) s = get_int32 b s.
Proof. intros. unfold get_int32. by rewrite !rd_app_l by lia. Qed.
Lemma get_little_int32_app b e s :
  0 <= s → s + 4 <= zlen b → get_little_int32 (b ++ e) s = get_little_int32 b s.
Proof. intros. unfold get_little_int32. by rewrite !rd_app_l by lia. Qed.
Lemma rds_app b e s n :
  0 <= s → 0 < n → s + n <= zlen b → rds (b ++ e) s n = rds b s n.
Proof.
  intros Hs Hn Hb. unfold rds. rewrite zlen_app. pose proof (zlen_nonneg e).
  destruct (Z.eqb_spec n 0); [done|].
  destruct (Z.leb_spec (s + n) (zlen b + zlen e)), (Z.leb_spec (s + n) (zlen b)); try lia.
  destruct ((0 <? n) && (0 <=? s)); [|done]. simpl. f_equal. unfold zlen in *.
  rewrite drop_app_le, take_app_le; [done|rewrite length_drop; lia|lia].
Qed.

(** [rwapp]: drop an extension of the buffer from every read. *)
Ltac rwapp :=
  repeat first [rewrite rd_app_l by lia | rewrite get_int16_app by lia
               | rewrite get_int24_app by lia | rewrite get_int32_app by lia
               | rewrite get_little_int32_app by lia | rewrite rds_app by lia].

(** [ifs]: case analysis on the integer tests in the goal. *)
Ltac ifs :=
  repeat match goal with
  | |- context [?a <? ?b] => destruct (Z.ltb_spec a b); try lia
  | |- context [?a <=? ?b] => destruct (Z.leb_spec a b); try lia
  | |- context [?a =? ?b] => destruct (Z.eqb_spec a b); try lia
  end.

Lemma memchr_app b e s c n :
  window b s n → 
  ∀ i, memchr b s c n = Ok (Some i) → memchr (b ++ e) s c (n + zlen e) = Ok (Some i).
Proof.
  intros Hw i Hi. pose proof Hw as (Hs & Hn & Hb). pose proof (zlen_nonneg e).
  destruct (memchr_spec b s c n Hw) as [[E _]|(i' & E & Hi' & Hrd & Hj)]; [congruence|].
  assert (i' = i) as -> by congruence.
  destruct (memchr_spec (b ++ e) s c (n + zlen e)) as [[E' Hno]|(k & E' & Hk & Hrd' & Hj')].
  { repeat split; try lia. rewrite zlen_app. lia. }
  - exfalso. apply (Hno i); [lia|]. rewrite rd_app_l by lia. done.
  - rewrite E'. do 2 f_equal. destruct (Z.lt_trichotomy k i) as [|[|]]; [|done|].
    + exfalso. apply (Hj k); [lia|]. rewrite <- (rd_app_l b e) by lia. done.
    + exfalso. apply (Hj' i); [lia|]. rewrite rd_app_l by lia. done.
Qed.

Lemma memchr_app_None b e s c n :
  window b s n → memchr b s c n = Ok None →
  memchr (b ++ e) s c (n + zlen e) = Ok None ∨
  ∃ i, memchr (b ++ e) s c (n + zlen e) = Ok (Some i) ∧ s + n <= i < s + n + zlen e.
Proof.
  intros Hw Hi. pose proof Hw as (Hs & Hn & Hb). pose proof (zlen_nonneg e).
  destruct (memchr_spec b s c n Hw) as [[E Hno]|(i' & E & _)]; [|congruence].
  destruct (memchr_spec (b ++ e) s c (n + zlen e)) as [[E' _]|(k & E' & Hk & Hrd' & _)].
  { repeat split; try lia. rewrite zlen_app. lia. }
  - by left.
  - right. exists k. split; [done|]. split; [|lia].
    destruct (Z.lt_ge_cases k (s + n)); [|lia]. exfalso. apply (Hno k); [lia|].
    rewrite <- (rd_app_l b e) by lia. done.
Qed.

(** What the loop over HTTP lines can return: a line ends in NL. *)
Definition http_target (b : bytes) (n : Z) (t : target) : Prop :=
  match t with
  | t_done plen => 1 <= plen <= n ∧ rd b (plen - 1) = Ok CHAR_NL
  | t_more | t_error => True
  | _ => False
  end.

Lemma to_uint_small x : 0 <= x <= INT_MAX → to_uint x = x.
Proof. unfold INT_MAX. intros. apply wrap_small. lia. Qed.

Lemma http_loop_total fuel b n mp st ptr1 len :
  received b n → window b ptr1 len → ptr1 + len = n → (Z.to_nat len < fuel)%nat →
  ∃ t, http_loop fuel b n mp st ptr1 len = Ok t ∧ http_target b n t.
Proof.
  intros [Hn Hmax]. revert ptr1 len.
  induction fuel as [|fuel IH]; intros ptr1 len Hw Hsum Hf; [lia|]. cbn [http_loop].
  destruct (memchr_spec b ptr1 CHAR_NL len Hw) as [[-> _]|(p & -> & Hp & Hrd & _)]; simpl.
  { destruct (_ && _); eexists; (split; [done|exact I]). }
  rewrite to_uint_small by (destruct Hw; lia).
  assert (http_target b n (t_done (p + 1))) as Hd.
  { simpl. destruct Hw. replace (p + 1 - 1) with p by lia. split; [lia|done]. }
  set (tl := negb (mp =? 0) && (p + 1 >? mp)).
  assert (∀ t, http_target b n t → http_target b n (if tl then t_error else t)) as Htl.
  { by destruct tl. }
  destruct (st =? 0); [eauto|].
  destruct (Z.ltb_spec (p + 1) n).
  - unfold SP. destruct (rd_in b (p + 1)) as [c ->]; [destruct Hw; lia|]. simpl.
    destruct (SP_char c && _); [|eauto].
    rewrite to_uint_small, to_int_small by (destruct Hw; lia).
    apply IH; [|lia|lia]. destruct Hw. repeat split; lia.
  - eexists. split; [done|]. by apply Htl.
Qed.

(** Once the line is known to be too long, more data keeps it too long. *)
Lemma http_loop_over fuel b n mp st ptr1 len :
  received b n → window b ptr1 len → ptr1 + len = n → (Z.to_nat len < fuel)%nat →
  0 < mp <= n → (∀ i, ptr1 <= i < mp → rd b i ≠ Ok CHAR_NL) →
  http_loop fuel b n mp st ptr1 len = Ok t_error.
Proof.
  intros [Hn Hmax]. revert ptr1 len.
  induction fuel as [|fuel IH]; intros ptr1 len Hw Hsum Hf Hmp Hno; [lia|]. cbn [http_loop].
  destruct (memchr_spec b ptr1 CHAR_NL len Hw) as [[-> _]|(p & -> & Hp & Hrd & _)]; simpl.
  { ifs. by rewrite Z.geb_leb; ifs. }
  rewrite to_uint_small by (destruct Hw; lia).
  assert (mp <= p). { destruct (Z.lt_ge_cases p mp); [|done]. by destruct (Hno p); [lia|]. }
  rewrite !Z.gtb_ltb. replace (negb (mp =? 0) && (mp <? p + 1)) with true by (ifs; done).
  destruct (st =? 0); [done|].
  destruct (Z.ltb_spec (p + 1) n); [|done].
  unfold SP. destruct (rd_in b (p + 1)) as [c ->]; [destruct Hw; lia|]. simpl.
  destruct (SP_char c && _); [|done].
  rewrite to_uint_small, to_int_small by (destruct Hw; lia).
  apply IH; try lia. destruct Hw. repeat split; lia.
Qed.

Lemma http_loop_stable fuel fuel' b e n mp st ptr1 len t :
  received b n → n + zlen e <= INT_MAX → window b ptr1 len → ptr1 + len = n →
  (Z.to_nat len < fuel)%nat → (Z.to_nat (len + zlen e) < fuel')%nat → 0 <= mp →
  http_loop fuel b n mp st ptr1 len = Ok t → t ≠ t_more →
  http_loop fuel' (b ++ e) (n + zlen e) mp st ptr1 (len + zlen e) = Ok t.
Proof.
  intros [Hn Hmax] Hmax'. pose proof (zlen_nonneg e). revert fuel' ptr1 len.
  assert (received (b ++ e) (n + zlen e)) as Hrec' by (split; [rewrite zlen_app; lia|done]).
  induction fuel as [|fuel IH]; intros fuel' ptr1 len Hw Hsum Hf Hf' Hmp Heq Hne; [lia|].
  pose proof Hw as (Hs & Hl & Hb).
  assert (window (b ++ e) ptr1 (len + zlen e)) as Hw'.
  { repeat split; try lia. rewrite zlen_app. lia. }
  cbn [http_loop] in Heq.
  destruct (memchr_spec b ptr1 CHAR_NL len Hw) as [[E Hno]|(p & E & Hp & Hrd & Hfst)];
    rewrite E in Heq; simpl in Heq.
  - destruct (negb (mp =? 0) && (n >=? mp)) eqn:Hc; [|congruence].
    assert (t = t_error) as -> by congruence. rewrite Z.geb_leb in Hc.
    destruct (Z.eqb_spec mp 0), (Z.leb_spec mp n); try discriminate.
    apply http_loop_over; auto; try lia.
    intros i Hi. rewrite rd_app_l by lia. apply Hno. lia.
  - rewrite to_uint_small in Heq by lia.
    destruct fuel' as [|fuel']; [lia|]. cbn [http_loop].
    rewrite (memchr_app _ _ _ _ _ Hw _ E). simpl. rewrite to_uint_small by lia.
    destruct (st =? 0); [done|].
    destruct (Z.ltb_spec (p + 1) n), (Z.ltb_spec (p + 1) (n + zlen e)); try lia.
    + unfold SP in *. rewrite rd_app_l by lia. destruct (rd_in b (p + 1)) as [c Hc]; [lia|].
      rewrite Hc in *. simpl in *. destruct (SP_char c && _); [|done].
      rewrite to_uint_small, to_int_small in * by lia.
      replace (n + zlen e - (p + 1)) with (n - (p + 1) + zlen e) by lia.
      apply IH; auto; try lia. repeat split; lia.
    + destruct (negb (mp =? 0) && (p + 1 >? mp)) eqn:Htl; [|congruence].
      assert (t = t_error) as -> by congruence.
      unfold SP. destruct (rd_in (b ++ e) (p + 1)) as [c Hc].
      { rewrite zlen_app. lia. }
      rewrite Hc. simpl. destruct (SP_char c && _); [|done].
      rewrite to_uint_small, to_int_small in * by lia.
      rewrite Z.gtb_ltb in Htl. destruct (Z.eqb_spec mp 0), (Z.ltb_spec mp (p + 1)); try discriminate.
      apply http_loop_over; auto; try lia. repeat split; try lia. rewrite zlen_app. lia.
    + done.
Qed.

(** The part of a header that every packet of a type has. *)
Definition min_hlen (htype : PacketParseType) : Z :=
  match htype with
  | TCP_PB_FCGI => sizeof_fcgi_head | TCP_PB_SSL_TLS => 5 | _ => 1
  end.

Definition is_http (htype : PacketParseType) : bool :=
  match htype with
  | TCP_PB_HTTP | TCP_PB_HTTPH | TCP_PB_HTTP_BIN | TCP_PB_HTTPH_BIN => true
  | _ => false
  end.

(** What the [switch] can end in. *)
Definition target_ok (htype : PacketParseType) (b : bytes) (n : Z) (t : target) : Prop :=
  if is_http htype then http_target b n t
  else match t with
  | t_remain hlen plen => min_hlen htype <= hlen <= n ∧ 0 <= plen < 2 ^ 32
  | t_return v =>
      (htype = TCP_PB_RAW ∨ htype = TCP_PB_LINE_LF) ∧ - 2 ^ 31 <= v < 2 ^ 31
  | t_done _ => False
  | _ => True
  end.

Lemma to_uint_range x : 0 <= to_uint x < 2 ^ 32.
Proof. by apply wrap_range. Qed.
Lemma to_int_range x : - 2 ^ 31 <= to_int x < 2 ^ 31.
Proof. apply (swrap_range 32). lia. Qed.

#[export] Hint Resolve to_uint_range to_int_range : cmem.

(** [rdok]: every read in the goal succeeds. *)
Ltac rdok :=
  repeat match goal with
  | |- context [rd ?b ?s] =>
      let c := fresh "c" in let H := fresh "Hc" in
      destruct (rd_in b s) as [c H]; [lia|rewrite H; clear H; simpl]
  end.

Lemma asn1_length_total b n tptr nn :
  received b n → 0 < nn → 1 <= tptr → tptr + nn = n →
  ∃ t, asn1_length b tptr nn = Ok t ∧ target_ok TCP_PB_ASN1 b n t.
Proof.
  intros [Hn Hmax] Hnn Htp Hsum. unfold asn1_length.
  destruct (rd_in b tptr) as [c ->]; [lia|]. simpl.
  assert (Hl : 0 <= Z.land c 127 < 2 ^ 32).
  { change 127 with (Z.ones 7). rewrite Z.land_ones by lia. dlia. }
  set (l := Z.land c 127) in *. clearbody l. unfold get_int8, get_int16, get_int24, get_int32.
  ifs; rdok; (eexists; split; [done|]); unfold target_ok; simpl; try done;
    (split; [lia|first [lia|auto with cmem]]).
Qed.

(** A lone NL or CRNL is a line; otherwise the loop decides. *)
Definition empty_line (b : bytes) : Prop := b = [CHAR_NL] ∨ b = [CHAR_CR; CHAR_NL].

Lemma http_case_split b n mp tl st :
  received b n →
  (empty_line b ∧ http_case b n mp tl st = Ok (t_done n)) ∨
  (¬ empty_line b ∧ http_case b n mp tl st =
     http_loop (loop_fuel b) b n (if mp =? 0 then tl else mp) st 0 n).
Proof.
  intros [Hn Hmax]. pose proof (zlen_nonneg b).
  unfold http_case, empty_line. rewrite to_int_small by (unfold INT_MAX in *; lia).
  unfold NL, CRNL.
  destruct (Z.eqb_spec n 1) as [->|H1]; [|destruct (Z.eqb_spec n 2) as [->|H2]].
  - destruct b as [|c [|d b]]; try (unfold zlen in *; simpl in *; lia).
    change (rd [c] 0) with (Ok c). rewrite !bind_Ok.
    destruct (Z.eqb_spec c CHAR_NL) as [->|]; [by auto|]. right.
    by split; [intros [[= ->]|?]|].
  - destruct b as [|c [|d [|e b]]]; try (unfold zlen in *; simpl in *; lia).
    change (rd [c; d] 0) with (Ok c). change (rd [c; d] (0 + 1)) with (Ok d).
    rewrite !bind_Ok.
    destruct (Z.eqb_spec c CHAR_CR) as [->|]; [|right; by split; [intros [?|[= -> ->]]|]].
    destruct (Z.eqb_spec d CHAR_NL) as [->|]; [by auto|].
    right. by split; [intros [?|[= ->]]|].
  - right. split; [|done]. intros [->| ->]; unfold zlen in *; simpl in *; lia.
Qed.

Lemma http_case_total b n mp tl st :
  received b n → ∃ t, http_case b n mp tl st = Ok t ∧ http_target b n t.
Proof.
  intros Hr. pose proof Hr as [Hn Hmax].
  destruct (http_case_split b n mp tl st Hr) as [[Hb ->]|[_ ->]].
  - eexists. split; [done|]. subst n. by destruct Hb as [->| ->].
  - apply http_loop_total; auto; unfold window, loop_fuel, zlen in *; lia.
Qed.

Lemma packet_switch_total htype b n mp tl d st :
  received b n → ∃ t, packet_switch htype b n mp tl d st = Ok t ∧ target_ok htype b n t.
Proof.
  intros [Hn Hmax]. pose proof (zlen_nonneg b).
  destruct htype; cbn [packet_switch]; try (by apply http_case_total); unfold target_ok; simpl.
  - destruct (n =? 0); eexists; (split; [done|]); [done|]. split; [by left|auto with cmem].
  - unfold prefix_case, get_int8. ifs; [by eexists|]. rdok. eexists. split; [done|].
    split; [lia|auto with cmem].
  - unfold prefix_case, get_int16. ifs; [by eexists|]. rdok. eexists. split; [done|].
    split; [lia|auto with cmem].
  - unfold prefix_case, get_int32. ifs; [by eexists|]. rdok. eexists. split; [done|].
    split; [lia|auto with cmem].
  - unfold asn1_case. rewrite to_int_small by (unfold INT_MAX in *; lia).
    ifs; [by eexists|]. rdok. destruct (_ =? 31).
    + destruct (skip_while_spec asn1_more_tag b 1 (n - 1)) as (q & m & -> & Hw & Hs & Hle & _).
      { repeat split; lia. }
      simpl. ifs; [by eexists|]. apply asn1_length_total; try done; lia.
    + apply asn1_length_total; try done; lia.
  - unfold prefix_case, get_int32. ifs; [by eexists|]. rdok. eexists. split; [done|].
    split; [lia|auto with cmem].
  - unfold cdr_case, sizeof_cdr_head, get_little_int32, get_int32. ifs; [by eexists|].
    unfold rds. ifs. simpl. destruct (negb _); [by eexists|].
    rdok. destruct (negb _); rdok; (eexists; split; [done|]);
      (split; [lia|auto with cmem]).
  - unfold fcgi_case, sizeof_fcgi_head. ifs; [by eexists|]. rdok.
    destruct (negb _); [by eexists|]. rdok. eexists. split; [done|].
    split; [unfold sizeof_fcgi_head; lia|auto with cmem].
  - unfold line_case.
    destruct (memchr_spec b 0 d n) as [[-> _]|(p & -> & _)]; [repeat split; lia| |]; simpl;
      repeat match goal with |- context [if ?c then _ else _] => destruct c end;
      (eexists; split; [done|]); simpl; auto with cmem.
  - unfold tpkt_case, sizeof_tpkt_head, get_int16. ifs; [by eexists|]. rdok.
    destruct (_ =? TPKT_VRSN); [|by eexists]. rdok. eexists. split; [done|].
    split; [lia|auto with cmem].
  - unfold ssl_case, get_int16. ifs; [by eexists|]. rdok.
    destruct (_ && _); rdok; (eexists; split; [done|]); (split; [lia|auto with cmem]).
Qed.

(** When a decision is final.  A raw packet is whatever has been received; a line
    can be truncated before it turns out to be longer than the maximum; a lone
    CRNL is accepted before it is compared with a maximum of 1. *)
Definition decision_final (htype : PacketParseType) (mp tl : Z) : Prop :=
  match htype with
  | TCP_PB_RAW => False
  | TCP_PB_LINE_LF => mp = 0 ∨ tl = 0
  | TCP_PB_HTTP | TCP_PB_HTTPH | TCP_PB_HTTP_BIN | TCP_PB_HTTPH_BIN =>
      (if mp =? 0 then tl else mp) ≠ 1
  | _ => True
  end.

Lemma http_loop_first fuel l e n mp st :
  received (l ++ CHAR_NL :: e) n → CHAR_NL ∉ l → (zlen l < 2 ∧ e ≠ [] ∨ st = 0) →
  (mp = 0 ∨ zlen l < mp) →
  http_loop (S fuel) (l ++ CHAR_NL :: e) n mp st 0 n = Ok (t_done (zlen l + 1)).
Proof.
  intros [Hn Hmax] Hl Hst Hmp. rewrite zlen_app, zlen_cons in Hn. cbn [http_loop].
  pose proof (zlen_nonneg l). pose proof (zlen_nonneg e).
  assert (∀ i, 0 <= i < zlen l → rd (l ++ CHAR_NL :: e) i ≠ Ok CHAR_NL) as Hno.
  { intros i Hi Hrd. rewrite rd_app_l in Hrd by done.
    apply Hl. apply rd_lookup in Hrd as [_ Hrd]. by eapply list_elem_of_lookup_2. }
  destruct (memchr_spec (l ++ CHAR_NL :: e) 0 CHAR_NL n) as [[-> Hn0]|(p & -> & Hp & Hrd & Hj)].
  { unfold window. rewrite zlen_app, zlen_cons. lia. }
  { exfalso. apply (Hn0 (zlen l)); [lia|]. apply rd_app_hd. }
  assert (p = zlen l) as ->.
  { destruct (Z.lt_trichotomy p (zlen l)) as [|[|]]; [|done|].
    - exfalso. apply (Hno p); [lia|done].
    - exfalso. apply (Hj (zlen l)); [lia|]. apply rd_app_hd. }
  simpl. rewrite to_uint_small by lia.
  replace (negb (mp =? 0) && (zlen l + 1 >? mp)) with false
    by (rewrite Z.gtb_ltb; ifs; done).
  destruct Hst as [[Hl2 He]| ->]; [|done]. destruct (st =? 0); [done|].
  assert (0 < zlen e) by (destruct e; [done|zl]).
  destruct (Z.ltb_spec (zlen l + 1) n); [|lia]. unfold SP.
  destruct (rd_in (l ++ CHAR_NL :: e) (zlen l + 1)) as [c ->].
  { rewrite zlen_app, zlen_cons. lia. }
  simpl. rewrite Z.gtb_ltb. destruct (Z.ltb_spec 2 (zlen l + 1)); [lia|].
  by rewrite andb_false_r.
Qed.

Lemma http_loop_no_nl fuel b n mp st :
  received b n → CHAR_NL ∉ b →
  http_loop (S fuel) b n mp st 0 n =
  Ok (if negb (mp =? 0) && (n >=? mp) then t_error else t_more).
Proof.
  intros [Hn Hmax] Hl. cbn [http_loop].
  destruct (memchr_spec b 0 CHAR_NL n) as [[-> _]|(p & -> & Hp & Hrd & Hj)].
  { unfold window. pose proof (zlen_nonneg b). lia. }
  - simpl. by destruct (_ && _).
  - exfalso. apply Hl. apply rd_lookup in Hrd as [_ Hrd]. by eapply list_elem_of_lookup_2.
Qed.

Lemma http_case_stable b e n mp tl st t :
  received b n → n + zlen e <= INT_MAX → 0 <= mp → 0 <= tl →
  (if mp =? 0 then tl else mp) ≠ 1 →
  http_case b n mp tl st = Ok t → t ≠ t_more →
  http_case (b ++ e) (n + zlen e) mp tl st = Ok t.
Proof.
  intros Hr Hmax' Hmp Htl Hlim Ht Hne. pose proof Hr as [Hn Hmax].
  set (m := if mp =? 0 then tl else mp) in *.
  assert (0 <= m) by (unfold m; destruct (mp =? 0); done).
  assert (received (b ++ e) (n + zlen e)) as Hr' by (split; [rewrite zlen_app; lia|done]).
  destruct (http_case_split b n mp tl st Hr) as [[Hb E]|[Hb E]]; rewrite E in Ht.
  - destruct e as [|x e]; [rewrite app_nil_r, zlen_nil, Z.add_0_r; congruence|].
    destruct (http_case_split _ _ mp tl st Hr') as [[Hb' _]|[_ ->]].
    { by destruct Hb as [->| ->], Hb' as [[=]|[=]]. }
    fold m. assert (t = t_done n) as -> by congruence. subst n.
    destruct Hb as [->| ->].
    + apply (http_loop_first _ [] (x :: e)); try done; [set_solver|left|zl]. done.
    + apply (http_loop_first _ [CHAR_CR] (x :: e)); try done; [set_solver|left|]; [done|].
      change (zlen [CHAR_CR]) with 1. lia.
  - destruct (http_case_split _ _ mp tl st Hr') as [[Hb' _]|[_ ->]].
    + exfalso. apply Hne. fold m in Ht.
      assert (b = [] ∨ b = [CHAR_CR]) as Hb2.
      { unfold empty_line in Hb.
        destruct Hb' as [Hb'|Hb'], b as [|x [|y [|z b]]]; simplify_eq/=; auto; by destruct Hb; auto. }
      unfold loop_fuel in Ht. rewrite http_loop_no_nl in Ht; auto;
        [|destruct Hb2 as [->| ->]; set_solver].
      assert (n <= 1) by (subst n; by destruct Hb2 as [->| ->]).
      rewrite Z.geb_leb in Ht.
      destruct (Z.eqb_spec m 0), (Z.leb_spec m n); simpl in Ht; try congruence; lia.
    + eapply (http_loop_stable _ _ _ _ _ _ _ 0 n); try done; unfold window, loop_fuel, zlen in *;
        rewrite ?length_app; lia.
Qed.

Lemma line_case_stable b e n mp tl d t :
  received b n → n + zlen e <= INT_MAX → mp = 0 ∨ tl = 0 →
  line_case b n mp tl d = Ok t → t ≠ t_more →
  line_case (b ++ e) (n + zlen e) mp tl d = Ok t.
Proof.
  intros [Hn Hmax] Hmax' Hlim Ht Hne. pose proof (zlen_nonneg e). pose proof (zlen_nonneg b).
  assert (window b 0 n) as Hw by (repeat split; lia).
  unfold line_case in *.
  destruct (memchr_spec b 0 d n Hw) as [[E _]|(p & E & _)]; rewrite E in Ht; simpl in Ht.
  - destruct (memchr_app_None b e 0 d n Hw E) as [->|(i & -> & Hi)]; simpl;
      rewrite ?(to_int_small (i + 1)), ?to_uint_small by (unfold INT_MAX in *; lia);
      rewrite ?Z.gtb_ltb, ?Z.geb_leb in *; revert Ht; ifs; simpl; intros [= <-]; congruence || done.
  - rewrite (memchr_app _ _ _ _ _ Hw _ E). done.
Qed.

Lemma asn1_length_stable b e n tptr nn t :
  received b n → 0 < nn → 1 <= tptr → tptr + nn = n →
  asn1_length b tptr nn = Ok t → t ≠ t_more →
  asn1_length (b ++ e) tptr (nn + zlen e) = Ok t.
Proof.
  intros [Hn Hmax] Hnn Htp Hsum Ht Hne. pose proof (zlen_nonneg e).
  unfold asn1_length, get_int8 in *. rewrite (rd_app_l b e tptr) by lia.
  destruct (rd b tptr) as [c| |]; simpl in *; [|done|done].
  assert (Hl : 0 <= Z.land c 127).
  { change 127 with (Z.ones 7). rewrite Z.land_ones by lia. dlia. }
  set (l := Z.land c 127) in *. clearbody l. revert Ht. ifs; rwapp; congruence.
Qed.

Lemma asn1_case_stable b e n t :
  received b n → n + zlen e <= INT_MAX →
  asn1_case b n = Ok t → t ≠ t_more → asn1_case (b ++ e) (n + zlen e) = Ok t.
Proof.
  intros Hr Hmax' Ht Hne. pose proof Hr as [Hn Hmax].
  pose proof (zlen_nonneg e). pose proof (zlen_nonneg b).
  unfold asn1_case in *. rewrite to_int_small in * by (unfold INT_MAX in *; lia).
  revert Ht. ifs; try congruence. rwapp. destruct (rd b 0) as [c| |]; simpl; [|done|done].
  replace (n + zlen e - 1) with (n - 1 + zlen e) by lia.
  destruct (_ =? 31); [|intros; apply asn1_length_stable with n; done || lia].
  destruct (skip_while_spec asn1_more_tag b 1 (n - 1)) as (q & m & E & Hw & Hs & Hle & Hall & Hend).
  { repeat split; lia. }
  rewrite E. simpl. ifs; try congruence. intros Ht.
  destruct (skip_while_spec asn1_more_tag (b ++ e) 1 (n - 1 + zlen e))
    as (q' & m' & E' & Hw' & Hs' & Hle' & Hall' & Hend').
  { repeat split; try lia. rewrite zlen_app. lia. }
  assert (q' = q) as ->.
  { destruct (Hend ltac:(lia)) as (x & Hx & Hxf).
    destruct Hw as (? & ? & ?), Hw' as (? & ? & ?).
    destruct (Z.lt_trichotomy q' q) as [|[|]]; [|done|].
    - destruct Hend' as (y & Hy & Hyf); [lia|]. rewrite rd_app_l in Hy by lia.
      rewrite (Hall q' y) in Hyf; done || lia.
    - rewrite (Hall' q x) in Hxf; [done|lia|]. by rewrite rd_app_l by lia. }
  rewrite E'. simpl. assert (m' = m + zlen e) as -> by lia. ifs.
  replace (m + zlen e - 1) with (m - 1 + zlen e) by lia.
  apply asn1_length_stable with n; try done; lia.
Qed.

Lemma packet_switch_stable htype b e n mp tl d st t :
  received b n → n + zlen e <= INT_MAX → 0 <= mp → 0 <= tl →
  decision_final htype mp tl →
  packet_switch htype b n mp tl d st = Ok t → t ≠ t_more →
  packet_switch htype (b ++ e) (n + zlen e) mp tl d st = Ok t.
Proof.
  intros Hr Hmax' Hmp Htl Hfin Ht Hne. pose proof Hr as [Hn Hmax].
  pose proof (zlen_nonneg e). pose proof (zlen_nonneg b).
  destruct htype; cbn [packet_switch decision_final] in *;
    try (by apply http_case_stable); try done.
  - unfold prefix_case, get_int8 in *. revert Ht. ifs; try congruence. by rwapp.
  - unfold prefix_case in *. revert Ht. ifs; try congruence. by rwapp.
  - unfold prefix_case in *. revert Ht. ifs; try congruence. by rwapp.
  - by apply asn1_case_stable.
  - unfold prefix_case in *. revert Ht. ifs; try congruence. by rwapp.
  - unfold cdr_case, sizeof_cdr_head in *. revert Ht. ifs; try congruence. by rwapp.
  - unfold fcgi_case, sizeof_fcgi_head in *. revert Ht. ifs; try congruence. by rwapp.
  - by apply line_case_stable.
  - unfold tpkt_case, sizeof_tpkt_head in *. revert Ht. ifs; try congruence. by rwapp.
  - unfold ssl_case in *. revert Ht. ifs; try congruence. by rwapp.
Qed.

(** The outcome of the function itself. *)
Lemma packet_get_length_eq htype b n mp tl d st :
  received b n →
  ∃ t, packet_get_length htype b n mp tl d st = Ok (finish mp t, packet_state htype st) ∧
    packet_switch htype b n mp tl d (packet_state htype st) = Ok t ∧ target_ok htype b n t.
Proof.
  intros Hr. destruct (packet_switch_total htype b n mp tl d (packet_state htype st) Hr)
    as (t & E & Ht).
  exists t. split; [|done]. unfold packet_get_length. by rewrite E.
Qed.

(** A length found: the packet is at least its header, and an HTTP line ends in NL. *)
Lemma finish_pos htype b n mp t :
  received b n → target_ok htype b n t → 0 < finish mp t →
  (min_hlen htype <= finish mp t) ∧
  (is_http htype = true → finish mp t <= n ∧ rd b (finish mp t - 1) = Ok CHAR_NL).
Proof.
  intros [Hn Hmax] Ht Hpos. unfold target_ok in Ht.
  destruct (is_http htype) eqn:Hh.
  - destruct t; simpl in *; try lia; try done. destruct Ht as [Hr Hnl].
    rewrite to_int_small in * by (unfold INT_MAX in *; lia).
    split; [destruct htype; simpl in *; try done; lia|]. intros _. split; [lia|done].
  - split; [|done]. destruct t; simpl in *; try lia.
    + destruct (_ || _) eqn:E; [lia|]. apply orb_false_iff in E as [_ E].
      apply Z.ltb_ge in E. rewrite (to_int_small hlen) in E by (unfold INT_MAX in *;
        destruct htype; unfold min_hlen, sizeof_fcgi_head in *; lia). lia.
    + destruct Ht as [[->| ->] _]; simpl; lia.
Qed.
