(* ===== verification/PacketFrame.v ===== *)
(** The packet formats that [packet_get_length] recognises, as a sender writes them,
    and that the parser finds each of them exactly. *)
From S2P Require Import Prelude Scan Packet.

(** * Formats *)

Definition u16be (x : Z) : bytes := [x / 256; x mod 256].
Definition u24be (x : Z) : bytes := [x / 65536; x / 256 mod 256; x mod 256].
Definition u32be (x : Z) : bytes := [x / 16777216; x / 65536 mod 256; x / 256 mod 256; x mod 256].
Definition le32 (x : Z) : bytes := [x mod 256; x / 256 mod 256; x / 65536 mod 256; x / 16777216].

(** ASN.1 tags: one byte, or 31 in the low bits and bytes above 127 up to a last one. *)
Inductive asn1_tag : bytes → Prop :=
| tag_short t : byte t → Z.land t 31 ≠ 31 → asn1_tag [t]
| tag_long t ts u : byte t → Z.land t 31 = 31 →
    Forall (λ c, asn1_more_tag c = true) ts → asn1_more_tag u = false →
    asn1_tag (t :: ts ++ [u]).

(** ASN.1 lengths: one byte, or the number of length bytes and these. *)
Inductive asn1_len (x : Z) : bytes → Prop :=
| len_short : 0 <= x < 128 → asn1_len x [x]
| len_1 : 0 <= x < 256 → asn1_len x [129; x]
| len_2 : 0 <= x < 2 ^ 16 → asn1_len x (130 :: u16be x)
| len_3 : 0 <= x < 2 ^ 24 → asn1_len x (131 :: u24be x)
| len_4 : 0 <= x < 2 ^ 31 → asn1_len x (132 :: u32be x).

(** [framed d st htype p]: [p] is one packet of type [htype], for a line delimiter
    [d] and a parser state [st]. *)
Inductive framed (d st : Z) : PacketParseType → bytes → Prop :=
| framed_1 body : zlen body < 256 → framed d st TCP_PB_1 (zlen body :: body)
| framed_2 body : zlen body < 2 ^ 16 → framed d st TCP_PB_2 (u16be (zlen body) ++ body)
| framed_4 body : zlen body < 2 ^ 31 → framed d st TCP_PB_4 (u32be (zlen body) ++ body)
| framed_rm (last : bool) body : zlen body < 2 ^ 31 →
    framed d st TCP_PB_RM (u32be (zlen body + if last then 2 ^ 31 else 0) ++ body)
| framed_cdr_be major minor flags ty body : zlen body < 2 ^ 31 → Z.land flags 1 = 0 →
    framed d st TCP_PB_CDR
      (CDR_MAGIC ++ [major; minor; flags; ty] ++ u32be (zlen body) ++ body)
| framed_cdr_le major minor flags ty body : zlen body < 2 ^ 31 → Z.land flags 1 ≠ 0 →
    framed d st TCP_PB_CDR
      (CDR_MAGIC ++ [major; minor; flags; ty] ++ le32 (zlen body) ++ body)
| framed_fcgi ty id1 id0 reserved content padding :
    zlen content < 2 ^ 16 → zlen padding < 256 →
    framed d st TCP_PB_FCGI
      ([FCGI_VERSION_1; ty; id1; id0] ++ u16be (zlen content) ++ [zlen padding; reserved]
       ++ content ++ padding)
| framed_tpkt reserved body : zlen body + 4 < 2 ^ 16 →
    framed d st TCP_PB_TPKT ([TPKT_VRSN; reserved] ++ u16be (zlen body + 4) ++ body)
| framed_tls ty major minor body : zlen body < 2 ^ 16 → Z.land ty 128 = 0 ∨ minor ≠ 1 →
    framed d st TCP_PB_SSL_TLS ([ty; major; minor] ++ u16be (zlen body) ++ body)
| framed_ssl2 body : 2 <= zlen body → zlen body + 1 < 2 ^ 15 →
    framed d st TCP_PB_SSL_TLS (u16be (2 ^ 15 + (zlen body + 1)) ++ [1] ++ body)
| framed_asn1 tag len body : asn1_tag tag → asn1_len (zlen body) len →
    framed d st TCP_PB_ASN1 (tag ++ len ++ body)
| framed_line l : d ∉ l → framed d st TCP_PB_LINE_LF (l ++ [d])
| framed_http l : CHAR_NL ∉ l → st = 0 → framed d st TCP_PB_HTTP (l ++ [CHAR_NL])
| framed_http_bin l : CHAR_NL ∉ l → st = 0 → framed d st TCP_PB_HTTP_BIN (l ++ [CHAR_NL]).

(** * Lemmas *)

Lemma lor_bytes16 x : 0 <= x < 2 ^ 16 → Z.lor (Z.shiftl (x / 256) 8) (x mod 256) = x.
Proof. intros. rewrite lor_shiftl_add by dlia. change (2 ^ 8) with 256. dlia. Qed.

Lemma lor_bytes24 x :
  0 <= x < 2 ^ 24 →
  Z.lor (Z.lor (Z.shiftl (x / 65536) 16) (Z.shiftl (x / 256 mod 256) 8)) (x mod 256) = x.
Proof.
  intros. rewrite <- Z.lor_assoc, (lor_shiftl_add _ (x mod 256) 8) by dlia.
  rewrite lor_shiftl_add; [|done|]; change (2 ^ 8) with 256; change (2 ^ 16) with 65536; dlia.
Qed.

Lemma lor_bytes32 x :
  0 <= x < 2 ^ 32 →
  Z.lor (Z.lor (Z.lor (Z.shiftl (x / 16777216) 24) (Z.shiftl (x / 65536 mod 256) 16))
    (Z.shiftl (x / 256 mod 256) 8)) (x mod 256) = x.
Proof.
  intros. rewrite <- !Z.lor_assoc.
  rewrite (lor_shiftl_add (x / 256 mod 256)), (lor_shiftl_add (x / 65536 mod 256)),
    lor_shiftl_add; change (2 ^ 8) with 256; change (2 ^ 16) with 65536;
    change (2 ^ 24) with 16777216; dlia.
Qed.

Lemma get_int16_be pre x post :
  0 <= x < 2 ^ 16 → get_int16 (pre ++ u16be x ++ post) (zlen pre) = Ok x.
Proof.
  intros Hx. unfold get_int16. simpl. rewrite rd_app_hd, rd_app_r by lia. simpl.
  f_equal. by apply lor_bytes16.
Qed.

Lemma get_int24_be pre x post :
  0 <= x < 2 ^ 24 → get_int24 (pre ++ u24be x ++ post) (zlen pre) = Ok x.
Proof.
  intros Hx. unfold get_int24. simpl. rewrite rd_app_hd, !rd_app_r by lia. simpl.
  f_equal. by apply lor_bytes24.
Qed.

Lemma get_int32_be pre x post :
  0 <= x < 2 ^ 32 → get_int32 (pre ++ u32be x ++ post) (zlen pre) = Ok (to_int x).
Proof.
  intros Hx. unfold get_int32. simpl. rewrite rd_app_hd, !rd_app_r by lia. simpl.
  do 2 f_equal. by apply lor_bytes32.
Qed.

Lemma get_little_int32_le pre x post :
  0 <= x < 2 ^ 32 → get_little_int32 (pre ++ le32 x ++ post) (zlen pre) = Ok (to_int x).
Proof.
  intros Hx. unfold get_little_int32. simpl. rewrite rd_app_hd, !rd_app_r by lia. simpl.
  do 2 f_equal. by apply lor_bytes32.
Qed.

Lemma get_int16_be0 x post : 0 <= x < 2 ^ 16 → get_int16 (u16be x ++ post) 0 = Ok x.
Proof. apply (get_int16_be []). Qed.
Lemma get_int32_be0 x post : 0 <= x < 2 ^ 32 → get_int32 (u32be x ++ post) 0 = Ok (to_int x).
Proof. apply (get_int32_be []). Qed.

Lemma finish_remain mp hlen plen :
  1 <= hlen → 0 <= plen → hlen + plen <= INT_MAX → mp = 0 ∨ plen <= mp →
  finish mp (t_remain hlen plen) = hlen + plen.
Proof.
  intros Hh Hp Hi Hmp. simpl.
  rewrite to_uint_small, (to_int_small (hlen + plen)), to_int_small by (unfold INT_MAX in *; lia).
  rewrite Z.gtb_ltb. destruct (Z.eqb_spec mp 0), (Z.ltb_spec mp plen); try lia; simpl;
    (destruct (Z.ltb_spec (hlen + plen) hlen); [lia|done]).
Qed.

(** The switch on a packet followed by anything. *)
Definition finds (htype : PacketParseType) (st d mp tl : Z) (p rest : bytes) : Prop :=
  ∃ t, packet_switch htype (p ++ rest) (zlen (p ++ rest)) mp tl d st = Ok t ∧
    finish mp t = zlen p.

Lemma finds_remain htype st d mp tl p rest hlen plen :
  packet_switch htype (p ++ rest) (zlen (p ++ rest)) mp tl d st = Ok (t_remain hlen plen) →
  zlen p = hlen + plen → 1 <= hlen → 0 <= plen → zlen (p ++ rest) <= INT_MAX →
  mp = 0 ∨ zlen p <= mp →
  finds htype st d mp tl p rest.
Proof.
  intros E Hl Hh Hp Hi Hmp. eexists. split; [done|]. pose proof (zlen_nonneg rest).
  rewrite zlen_app in Hi. rewrite finish_remain; lia.
Qed.

(** [fsz]: lengths of literal headers. *)
Ltac fsz :=
  unfold u16be, u24be, u32be, le32; change (zlen CDR_MAGIC) with 4;
  repeat first [rewrite zlen_app | rewrite zlen_cons | rewrite zlen_nil
               | progress change (zlen CDR_MAGIC) with 4].

Lemma land_127_128 x : 0 <= x < 128 → Z.land x 127 = x ∧ Z.land x 128 = 0.
Proof.
  intros Hx. split.
  - change 127 with (Z.ones 7). rewrite Z.land_ones by lia. by apply Z.mod_small.
  - rewrite Z.land_comm. apply (land_shiftl_low 1 x 7); lia.
Qed.

Lemma asn1_length_finds x len pre post nn :
  asn1_len x len → zlen len <= nn →
  asn1_length (pre ++ len ++ post) (zlen pre) nn = Ok (t_remain (zlen pre + zlen len) x).
Proof.
  intros Hlen Hnn. unfold asn1_length.
  assert (∀ y l, (pre ++ y :: l ++ post) = (pre ++ [y]) ++ l ++ post) as Hcut
    by (intros; by rewrite <- app_assoc).
  assert (∀ y, zlen pre + 1 = zlen (pre ++ [y])) as Hone by (intros; fsz; lia).
  destruct Hlen as [Hx|Hx|Hx|Hx|Hx]; rewrite <- ?app_comm_cons; cbn [app];
    rewrite rd_app_hd, bind_Ok.
  - destruct (land_127_128 x) as [-> ->]; [done|]. done.
  - change (2 <= nn) in Hnn. change (Z.land 129 127) with 1. change (Z.land 129 128 =? 128) with true.
    cbv iota. destruct (Z.ltb_spec (nn - 1) 1); [lia|]. unfold get_int8.
    rewrite rd_app_r by lia. simpl. rewrite wrap_small by lia.
    change (zlen [129; x]) with 2. do 2 f_equal. lia.
  - change (3 <= nn) in Hnn. change (Z.land 130 127) with 2. change (Z.land 130 128 =? 128) with true.
    cbv iota. destruct (Z.ltb_spec (nn - 1) 2); [lia|]. rewrite (Hone 130), Hcut, get_int16_be by lia.
    simpl. rewrite ?to_int_small, wrap_small by (unfold INT_MAX; lia).
    rewrite <- Hone. change (zlen (130 :: u16be x)) with 3. do 2 f_equal. lia.
  - change (4 <= nn) in Hnn. change (Z.land 131 127) with 3. change (Z.land 131 128 =? 128) with true.
    cbv iota. destruct (Z.ltb_spec (nn - 1) 3); [lia|]. rewrite (Hone 131), Hcut, get_int24_be by lia.
    simpl. rewrite ?to_int_small, wrap_small by (unfold INT_MAX; lia).
    rewrite <- Hone. change (zlen (131 :: u24be x)) with 4. do 2 f_equal. lia.
  - change (5 <= nn) in Hnn. change (Z.land 132 127) with 4. change (Z.land 132 128 =? 128) with true.
    cbv iota. destruct (Z.ltb_spec (nn - 1) 4); [lia|]. rewrite (Hone 132), Hcut, get_int32_be by lia.
    simpl. rewrite ?to_int_small, wrap_small by (unfold INT_MAX; lia).
    rewrite <- Hone. change (zlen (132 :: u32be x)) with 5. do 2 f_equal. lia.
Qed.

Section Find.
Context (st d mp tl : Z).

Lemma finds_asn1 tag len body rest :
  asn1_tag tag → asn1_len (zlen body) len →
  let p := tag ++ len ++ body in
  zlen (p ++ rest) <= INT_MAX → mp = 0 ∨ zlen p <= mp →
  finds TCP_PB_ASN1 st d mp tl p rest.
Proof.
  intros Htag Hlen p Hi Hmp.
  pose proof (zlen_nonneg body). pose proof (zlen_nonneg rest).
  assert (∃ x l, len = x :: l) as (x & l & El) by (destruct Hlen; eauto).
  assert (HL : asn1_length (p ++ rest) (zlen tag) (zlen (p ++ rest) - zlen tag) =
    Ok (t_remain (zlen tag + zlen len) (zlen body))).
  { subst p. rewrite <- !app_assoc. apply asn1_length_finds; [done|].
    rewrite !zlen_app. lia. }
  assert (1 <= zlen tag) by (destruct Htag; fsz; zl).
  assert (0 <= zlen l) by apply zlen_nonneg.
  eapply (finds_remain _ _ _ _ _ _ _ (zlen tag + zlen len) (zlen body)); auto;
    [|subst p; rewrite !zlen_app; lia|subst len; rewrite zlen_cons; lia].
  cbn [packet_switch]. unfold asn1_case.
  rewrite to_int_small by (pose proof (zlen_nonneg (p ++ rest)); unfold INT_MAX in *; lia).
  assert (zlen (p ++ rest) = zlen tag + (1 + zlen l + zlen body) + zlen rest) as Hz
    by (subst p len; fsz; lia).
  destruct (Z.ltb_spec (zlen (p ++ rest)) 2); [lia|].
  rewrite <- HL. clear HL Hi Hmp. set (z := zlen (p ++ rest)) in *. clearbody z. subst p.
  rewrite <- app_assoc. destruct Htag as [t _ Ht|t ts u _ Ht Hts Hu].
  - change (rd ([t] ++ (len ++ body) ++ rest) 0) with (Ok t). rewrite bind_Ok.
    destruct (Z.eqb_spec (Z.land t 31) 31); [done|]. done.
  - assert (zlen (t :: ts ++ [u]) = zlen ts + 2) as Htl by (fsz; lia). rewrite Htl in *.
    replace ((t :: ts ++ [u]) ++ (len ++ body) ++ rest)
      with ([t] ++ ts ++ u :: (len ++ body) ++ rest) by (simpl; by rewrite <- !app_assoc).
    change (rd ([t] ++ _) 0) with (Ok t). rewrite bind_Ok.
    destruct (Z.eqb_spec (Z.land t 31) 31); [|done].
    change 1 with (zlen [t]) at 1.
    replace (z - 1) with (zlen ts + (2 + zlen l + zlen body + zlen rest)) by lia.
    rewrite skip_while_run; [|done|pose proof (zlen_nonneg ts); lia|eauto]. rewrite bind_Ok.
    destruct (Z.ltb_spec (2 + zlen l + zlen body + zlen rest) 2); [lia|].
    f_equal; [|lia]. change (zlen [t]) with 1. lia.
Qed.

Lemma finds_line l rest :
  d ∉ l → zlen ((l ++ [d]) ++ rest) <= INT_MAX →
  mp = 0 ∨ zlen (l ++ [d]) <= mp → tl = 0 ∨ zlen (l ++ [d]) <= tl →
  finds TCP_PB_LINE_LF st d mp tl (l ++ [d]) rest.
Proof.
  intros Hd Hi Hmp Htl. rewrite <- app_assoc in Hi. cbn [app] in Hi.
  pose proof (zlen_nonneg l). pose proof (zlen_nonneg rest).
  assert (zlen (l ++ d :: rest) = zlen l + (1 + zlen rest)) as Hz by (rewrite zlen_app; zl).
  rewrite (zlen_app l [d]) in *. change (zlen [d]) with 1 in *.
  unfold finds. rewrite <- app_assoc. cbn [packet_switch app]. unfold line_case.
  destruct (memchr_spec (l ++ d :: rest) 0 d (zlen (l ++ d :: rest)))
    as [[-> Hno]|(q & -> & Hq & Hrd & Hj)]; [unfold window; lia| |].
  { exfalso. apply (Hno (zlen l)); [lia|]. apply rd_app_hd. }
  assert (q = zlen l) as ->.
  { destruct (Z.lt_trichotomy q (zlen l)) as [|[|]]; [|done|].
    - exfalso. apply Hd. rewrite rd_app_l in Hrd by lia.
      apply rd_lookup in Hrd as [_ Hrd]. by eapply list_elem_of_lookup_2.
    - exfalso. apply (Hj (zlen l)); [lia|]. apply rd_app_hd. }
  rewrite bind_Ok, to_int_small, to_uint_small by (unfold INT_MAX in *; lia).
  rewrite !Z.gtb_ltb.
  replace ((mp <? zlen l + 1) && negb (mp =? 0)) with false by (ifs; done).
  replace ((tl <? zlen l + 1) && negb (tl =? 0)) with false by (ifs; done).
  eexists. split; [done|]. rewrite zlen_app. done.
Qed.

Lemma finds_http htype l rest :
  htype = TCP_PB_HTTP ∨ htype = TCP_PB_HTTP_BIN →
  CHAR_NL ∉ l → st = 0 → zlen ((l ++ [CHAR_NL]) ++ rest) <= INT_MAX →
  mp = 0 ∨ zlen (l ++ [CHAR_NL]) <= mp → tl = 0 ∨ zlen (l ++ [CHAR_NL]) <= tl →
  finds htype st d mp tl (l ++ [CHAR_NL]) rest.
Proof.
  intros Hty Hl -> Hi Hmp Htl. unfold finds.
  set (b := (l ++ [CHAR_NL]) ++ rest) in *.
  assert (received b (zlen b)) as Hr by (by split).
  assert (∀ t, http_case b (zlen b) mp tl 0 = Ok t → finish mp t = zlen (l ++ [CHAR_NL]) →
    ∃ t, packet_switch htype b (zlen b) mp tl d 0 = Ok t ∧ finish mp t = zlen (l ++ [CHAR_NL]))
    as Hgo by (intros t; destruct Hty as [->| ->]; eauto).
  clear Hty. destruct (http_case_split b (zlen b) mp tl 0 Hr) as [[He E]|[_ E]].
  - assert (zlen b = zlen (l ++ [CHAR_NL])) as Hz.
    { subst b. unfold empty_line in He. rewrite <- app_assoc in He |- *. cbn [app] in *.
      destruct l as [|x [|y [|z l]]]; destruct He as [He|He]; simplify_eq/=; set_solver. }
    apply (Hgo _ E). simpl. rewrite to_int_small, Hz; [done|].
    pose proof (zlen_nonneg b). unfold INT_MAX in *. lia.
  - eapply Hgo.
    + rewrite E. subst b. revert Hr. rewrite <- app_assoc. cbn [app]. intros Hr.
      unfold loop_fuel. apply http_loop_first; [done|done|by right|].
      rewrite zlen_app in Hmp, Htl. change (zlen [CHAR_NL]) with 1 in *.
      destruct (Z.eqb_spec mp 0); lia.
    + simpl. rewrite zlen_app. change (zlen [CHAR_NL]) with 1.
      subst b. rewrite !zlen_app in Hi. change (zlen [CHAR_NL]) with 1 in Hi.
      pose proof (zlen_nonneg l). pose proof (zlen_nonneg rest).
      apply to_int_small. unfold INT_MAX in *. lia.
Qed.

(** The packet [p] is found, whatever follows it. *)
Definition found (htype : PacketParseType) (p : bytes) : Prop :=
  ∀ rest, zlen (p ++ rest) <= INT_MAX → mp = 0 ∨ zlen p <= mp → tl = 0 ∨ zlen p <= tl →
  finds htype st d mp tl p rest.

(** [remain h l]: a header of [h] bytes that announces [l] more. *)
Ltac remain h l :=
  let rest := fresh "rest" in
  intros rest ? ? ?; pose proof (zlen_nonneg rest);
  eapply (finds_remain _ _ _ _ _ _ _ h l);
  [cbn [packet_switch]|fsz; lia|lia|lia|done|done].

(** [hdr_in]: the header has been received. *)
Ltac hdr_in :=
  match goal with
  | |- context [?x <? ?k] =>
      let Hs := fresh "Hs" in
      destruct (Z.ltb_spec x k) as [Hs|_]; [exfalso; revert Hs; fsz; lia|]
  end.

Lemma finds_1 body :
  zlen body < 256 →
  found TCP_PB_1 (zlen body :: body).
Proof.
  intros H0. pose proof (zlen_nonneg body). remain 1 (zlen body).
  unfold prefix_case, get_int8. hdr_in.
  change (rd _ 0) with (Ok (zlen body)). rewrite bind_Ok. unfold id. by rewrite wrap_small by lia.
Qed.

Lemma finds_2 body :
  zlen body < 2 ^ 16 →
  found TCP_PB_2 (u16be (zlen body) ++ body).
Proof.
  intros H0. pose proof (zlen_nonneg body). remain 2 (zlen body).
  unfold prefix_case. hdr_in.
  rewrite <- app_assoc, get_int16_be0, bind_Ok by lia. unfold id. by rewrite wrap_small by lia.
Qed.

Lemma finds_4 body :
  zlen body < 2 ^ 31 →
  found TCP_PB_4 (u32be (zlen body) ++ body).
Proof.
  intros H0. pose proof (zlen_nonneg body). remain 4 (zlen body).
  unfold prefix_case. hdr_in.
  rewrite <- app_assoc, get_int32_be0, bind_Ok by lia. unfold id.
  by rewrite to_int_small, wrap_small by (unfold INT_MAX; lia).
Qed.

Lemma finds_rm (last : bool) body :
  zlen body < 2 ^ 31 →
  found TCP_PB_RM (u32be (zlen body + if last then 2 ^ 31 else 0) ++ body).
Proof.
  intros H0. pose proof (zlen_nonneg body). remain 4 (zlen body).
  unfold prefix_case. hdr_in.
  rewrite <- app_assoc, get_int32_be0, bind_Ok by (destruct last; lia).
  change 2147483647 with (Z.ones 31). rewrite Z.land_ones by lia.
  assert (to_int (zlen body + (if last then 2 ^ 31 else 0)) mod 2 ^ 31 = zlen body) as ->.
  { unfold to_int, swrap. rewrite (Z.mod_small _ (2 ^ 32)) by (destruct last; lia).
    destruct last; ifs; dlia. }
  by rewrite wrap_small by lia.
Qed.

Lemma finds_cdr_be ma mi fl ty body :
  zlen body < 2 ^ 31 → Z.land fl 1 = 0 →
  found TCP_PB_CDR (CDR_MAGIC ++ [ma; mi; fl; ty] ++ u32be (zlen body) ++ body).
Proof.
  intros H0 H1. pose proof (zlen_nonneg body). remain 12 (zlen body).
  unfold cdr_case, sizeof_cdr_head.
  hdr_in.
  rewrite <- !app_assoc. rewrite (rds_at _ 0 CDR_MAGIC) by apply (bytes_at_intro []).
  change (rd _ 6) with (Ok fl). rewrite !bind_Ok, bool_decide_eq_true_2 by done. cbn [negb].
  destruct (Z.eqb_spec (Z.land fl 1) 0); [|done]. cbn [negb].
  change 8 with (zlen (CDR_MAGIC ++ [ma; mi; fl; ty])). rewrite (app_assoc CDR_MAGIC).
  rewrite get_int32_be, bind_Ok by lia. by rewrite to_int_small, wrap_small by (unfold INT_MAX; lia).
Qed.

Lemma finds_cdr_le ma mi fl ty body :
  zlen body < 2 ^ 31 → Z.land fl 1 ≠ 0 →
  found TCP_PB_CDR (CDR_MAGIC ++ [ma; mi; fl; ty] ++ le32 (zlen body) ++ body).
Proof.
  intros H0 H1. pose proof (zlen_nonneg body). remain 12 (zlen body).
  unfold cdr_case, sizeof_cdr_head.
  hdr_in.
  rewrite <- !app_assoc. rewrite (rds_at _ 0 CDR_MAGIC) by apply (bytes_at_intro []).
  change (rd _ 6) with (Ok fl). rewrite !bind_Ok, bool_decide_eq_true_2 by done. cbn [negb].
  destruct (Z.eqb_spec (Z.land fl 1) 0); [done|]. cbn [negb].
  change 8 with (zlen (CDR_MAGIC ++ [ma; mi; fl; ty])). rewrite (app_assoc CDR_MAGIC).
  rewrite get_little_int32_le, bind_Ok by lia.
  by rewrite to_int_small, wrap_small by (unfold INT_MAX; lia).
Qed.

Lemma finds_fcgi ty i1 i0 rs content padding :
  zlen content < 2 ^ 16 → zlen padding < 256 →
  found TCP_PB_FCGI ([FCGI_VERSION_1; ty; i1; i0] ++ u16be (zlen content) ++ [zlen padding; rs] ++ content ++ padding).
Proof.
  intros H0 H1. pose proof (zlen_nonneg content). pose proof (zlen_nonneg padding). remain 8 (zlen content + zlen padding).
  unfold fcgi_case, sizeof_fcgi_head.
  hdr_in.
  change (rd _ 0) with (Ok FCGI_VERSION_1). change (rd _ 4) with (Ok (zlen content / 256)).
  change (rd _ 5) with (Ok (zlen content mod 256)). change (rd _ 6) with (Ok (zlen padding)).
  rewrite !bind_Ok, lor_bytes16, wrap_small by lia. done.
Qed.

Lemma finds_tpkt rs body :
  zlen body + 4 < 2 ^ 16 →
  found TCP_PB_TPKT ([TPKT_VRSN; rs] ++ u16be (zlen body + 4) ++ body).
Proof.
  intros H0. pose proof (zlen_nonneg body). remain 4 (zlen body).
  unfold tpkt_case, sizeof_tpkt_head.
  hdr_in.
  change (rd _ 0) with (Ok TPKT_VRSN). rewrite bind_Ok. rewrite <- !app_assoc.
  change 2 with (zlen [TPKT_VRSN; rs]). rewrite (get_int16_be [TPKT_VRSN; rs]), bind_Ok by lia. cbn -[wrap].
  rewrite wrap_small by lia. do 2 f_equal. lia.
Qed.

Lemma finds_tls ty ma mi body :
  zlen body < 2 ^ 16 → Z.land ty 128 = 0 ∨ mi ≠ 1 →
  found TCP_PB_SSL_TLS ([ty; ma; mi] ++ u16be (zlen body) ++ body).
Proof.
  intros H0 H1. pose proof (zlen_nonneg body). remain 5 (zlen body).
  unfold ssl_case.
  hdr_in.
  change (rd _ 0) with (Ok ty). change (rd _ 2) with (Ok mi). rewrite !bind_Ok.
  replace (negb (Z.land ty 128 =? 0) && (mi =? 1)) with false
    by (symmetry; apply andb_false_iff; rewrite negb_false_iff, Z.eqb_eq, Z.eqb_neq; done).
  change 3 with (zlen [ty; ma; mi]). rewrite <- !app_assoc, (get_int16_be [ty; ma; mi]), bind_Ok by lia.
  by rewrite wrap_small by lia.
Qed.

Lemma finds_ssl2 body :
  2 <= zlen body → zlen body + 1 < 2 ^ 15 →
  found TCP_PB_SSL_TLS (u16be (2 ^ 15 + (zlen body + 1)) ++ [1] ++ body).
Proof.
  intros H0 H1. pose proof (zlen_nonneg body). remain 5 (zlen body - 2).
  unfold ssl_case.
  hdr_in.
  set (x := 2 ^ 15 + (zlen body + 1)).
  change (rd _ 0) with (Ok (x / 256)). change (rd _ 2) with (Ok 1). rewrite !bind_Ok.
  assert (128 <= x / 256 < 256) as Hx by (subst x; dlia).
  assert (Z.land (x / 256) 128 ≠ 0) as Hb.
  { intros Hz%(f_equal (λ y, Z.testbit y 7)). rewrite Z.land_spec, Z.bits_0 in Hz.
    change (Z.testbit 128 7) with true in Hz. rewrite andb_true_r in Hz.
    rewrite Z.testbit_eqb in Hz by lia. change (2 ^ 7) with 128 in Hz.
    apply Z.eqb_neq in Hz. dlia. }
  apply Z.eqb_neq in Hb. rewrite Hb. cbn [negb andb]. change (1 =? 1) with true. cbv iota.
  rewrite <- !app_assoc, get_int16_be0, bind_Ok by (subst x; lia).
  change 32767 with (Z.ones 15). rewrite Z.land_ones by lia.
  assert (x mod 2 ^ 15 = zlen body + 1) as ->.
  { subst x. change (2 ^ 15) with 32768 in *. dlia. }
  rewrite wrap_small by lia. do 2 f_equal. lia.
Qed.

Lemma framed_finds htype p : framed d st htype p → found htype p.
Proof.
  destruct 1; auto using finds_1, finds_2, finds_4, finds_rm, finds_cdr_be, finds_cdr_le,
    finds_fcgi, finds_tpkt, finds_tls, finds_ssl2.
  - intros rest Hi Hmp _. by apply finds_asn1.
  - intros rest Hi Hmp Htl. by apply finds_line.
  - intros rest Hi Hmp Htl. by apply finds_http; auto.
  - intros rest Hi Hmp Htl. by apply finds_http; auto.
Qed.
End Find.

(** * Header lines *)

(** Every further line of a header begins with a space or a tab. *)
Definition continues (l : bytes) : Prop := ∃ c r, l = c :: r ∧ SP_char c = true ∧ CHAR_NL ∉ l.

Definition folded (l : bytes) (conts : list bytes) : bytes :=
  l ++ CHAR_NL :: concat (map (λ c, c ++ [CHAR_NL]) conts).

(** [framed_at d st rest htype p]: [p] is one packet of type [htype] before [rest]: a format
    that does not depend on [rest], everything received if there is no format, the empty
    line after the headers, or a header, which ends where the next line does not continue
    it. *)
Inductive framed_at (d st : Z) (rest : bytes) : PacketParseType → bytes → Prop :=
| framed_always htype p : framed d st htype p → framed_at d st rest htype p
| framed_raw p : p ≠ [] → rest = [] → framed_at d st rest TCP_PB_RAW p
| framed_eoh htype l :
    is_http htype = true → packet_state htype st ≠ 0 → l = [] ∨ l = [CHAR_CR] →
    framed_at d st rest htype (l ++ [CHAR_NL])
| framed_header htype l conts c r :
    is_http htype = true → packet_state htype st ≠ 0 → 2 <= zlen l → CHAR_NL ∉ l →
    Forall continues conts → rest = c :: r → SP_char c = false →
    framed_at d st rest htype (folded l conts).

Lemma memchr_line pre l e :
  CHAR_NL ∉ l →
  memchr (pre ++ l ++ CHAR_NL :: e) (zlen pre) CHAR_NL (zlen l + 1 + zlen e) = Ok (Some (zlen pre + zlen l)).
Proof.
  intros Hl. pose proof (zlen_nonneg pre). pose proof (zlen_nonneg l). pose proof (zlen_nonneg e).
  assert (rd (pre ++ l ++ CHAR_NL :: e) (zlen pre + zlen l) = Ok CHAR_NL) as Hat.
  { rewrite app_assoc, <- zlen_app. apply rd_app_hd. }
  assert (∀ i, zlen pre <= i < zlen pre + zlen l → rd (pre ++ l ++ CHAR_NL :: e) i ≠ Ok CHAR_NL) as Hno.
  { intros i Hi Hrd. replace i with (zlen pre + (i - zlen pre)) in Hrd by lia.
    rewrite rd_app_r, rd_app_l in Hrd by lia. apply Hl. apply rd_lookup in Hrd as [_ Hrd].
    by eapply list_elem_of_lookup_2. }
  destruct (memchr_spec (pre ++ l ++ CHAR_NL :: e) (zlen pre) CHAR_NL (zlen l + 1 + zlen e))
    as [[_ Hn0]|(p & -> & Hp & Hrd & Hj)].
  { unfold window. rewrite !zlen_app, zlen_cons. lia. }
  { exfalso. by apply (Hn0 (zlen pre + zlen l)); [lia|]. }
  do 2 f_equal. destruct (Z.lt_trichotomy p (zlen pre + zlen l)) as [|[|]]; [|done|].
  - exfalso. apply (Hno p); [lia|done].
  - exfalso. by apply (Hj (zlen pre + zlen l)); [lia|].
Qed.

(** The loop over the lines of a header. *)
Lemma http_loop_folded fuel pre l conts c r mp st :
  CHAR_NL ∉ l → Forall continues conts → SP_char c = false → st ≠ 0 → (length conts < fuel)%nat →
  2 <= zlen pre + zlen l → zlen (pre ++ folded l conts ++ c :: r) <= INT_MAX →
  mp = 0 ∨ zlen (pre ++ folded l conts) <= mp →
  http_loop fuel (pre ++ folded l conts ++ c :: r) (zlen (pre ++ folded l conts ++ c :: r)) mp st
    (zlen pre) (zlen (folded l conts ++ c :: r)) = Ok (t_done (zlen (pre ++ folded l conts))).
Proof.
  intros Hl Hc Hsp Hst. revert fuel pre l Hl.
  induction Hc as [|l' conts (c' & r' & El' & Hc' & Hl') _ IH]; intros fuel pre l Hl Hfuel Htwo Hi Hmp;
    (destruct fuel as [|fuel]; [simpl in Hfuel; lia|]); cbn [http_loop].
  - unfold folded in *. cbn [map concat] in *. rewrite <- app_assoc in *. cbn [app] in *.
    assert (zlen (l ++ CHAR_NL :: c :: r) = zlen l + 1 + zlen (c :: r)) as -> by (rewrite zlen_app, zlen_cons; lia).
    rewrite memchr_line, bind_Ok by done. rewrite !zlen_app, !zlen_cons in *.
    pose proof (zlen_nonneg pre). pose proof (zlen_nonneg l). pose proof (zlen_nonneg r). change (zlen (@nil Z)) with 0 in *.
    rewrite to_uint_small by (unfold INT_MAX in *; lia).
    destruct (Z.eqb_spec st 0); [done|]. rewrite (proj2 (Z.ltb_lt _ _)) by lia.
    assert (SP (pre ++ l ++ CHAR_NL :: c :: r) (zlen pre + zlen l + 1) = Ok false) as ->.
    { unfold SP. replace (pre ++ l ++ CHAR_NL :: c :: r) with ((pre ++ l ++ [CHAR_NL]) ++ c :: r)
        by (rewrite <- !app_assoc; done).
      replace (zlen pre + zlen l + 1) with (zlen (pre ++ l ++ [CHAR_NL])) by (rewrite !zlen_app; change (zlen [CHAR_NL]) with 1; lia).
      by rewrite rd_app_hd, bind_Ok, Hsp. }
    rewrite bind_Ok. cbn [andb].
    replace (negb (mp =? 0) && (zlen pre + zlen l + 1 >? mp)) with false by (rewrite Z.gtb_ltb; ifs; done).
    do 2 f_equal. lia.
  - set (b := pre ++ folded l (l' :: conts) ++ c :: r) in *.
    assert (folded l (l' :: conts) = l ++ CHAR_NL :: folded l' conts) as Ef.
    { unfold folded. cbn [map concat]. by rewrite <- app_assoc. }
    assert (b = pre ++ l ++ CHAR_NL :: folded l' conts ++ c :: r) as Eb by (unfold b; by rewrite Ef, <- app_assoc).
    assert (b = (pre ++ l ++ [CHAR_NL]) ++ folded l' conts ++ c :: r) as Eb2 by (rewrite Eb, <- !app_assoc; done).
    assert (zlen (pre ++ l ++ [CHAR_NL]) = zlen pre + zlen l + 1) as Ep by (rewrite !zlen_app; change (zlen [CHAR_NL]) with 1; lia).
    assert (pre ++ folded l (l' :: conts) = (pre ++ l ++ [CHAR_NL]) ++ folded l' conts) as Ep2 by (rewrite Ef, <- !app_assoc; done).
    assert (zlen (folded l (l' :: conts) ++ c :: r) = zlen l + 1 + zlen (folded l' conts ++ c :: r)) as ->
      by (rewrite Ef, <- app_assoc; cbn [app]; rewrite (zlen_app l), zlen_cons; lia).
    assert (zlen b = zlen pre + zlen l + 1 + zlen (folded l' conts ++ c :: r)) as Hb by (rewrite Eb2, zlen_app, Ep; done).
    rewrite Eb at 1. rewrite memchr_line, bind_Ok by done.
    pose proof (zlen_nonneg pre). pose proof (zlen_nonneg l). pose proof (zlen_nonneg (folded l' conts ++ c :: r)).
    assert (1 <= zlen (folded l' conts ++ c :: r)) by (rewrite zlen_app, zlen_cons; pose proof (zlen_nonneg r); pose proof (zlen_nonneg (folded l' conts)); lia).
    rewrite to_uint_small by (unfold INT_MAX in *; lia).
    destruct (Z.eqb_spec st 0); [done|]. rewrite (proj2 (Z.ltb_lt _ _)) by lia.
    assert (SP b (zlen pre + zlen l + 1) = Ok true) as ->.
    { rewrite Eb2, <- Ep. unfold SP, folded. rewrite El'. cbn [app]. by rewrite rd_app_hd, bind_Ok, Hc'. }
    rewrite bind_Ok, Z.gtb_ltb, (proj2 (Z.ltb_lt _ _)) by lia. cbn [andb].
    replace (to_int (to_uint (zlen b - (zlen pre + zlen l + 1)))) with (zlen (folded l' conts ++ c :: r))
      by (rewrite to_uint_small, to_int_small by (unfold INT_MAX in *; lia); lia).
    rewrite Ep2, <- Ep, Eb2. apply IH; [done|simpl in Hfuel; lia| |by rewrite <- Eb2|by rewrite <- Ep2].
    rewrite Ep. pose proof (zlen_nonneg l'). lia.
Qed.

Lemma folded_length l conts : zlen l + 1 + zlen conts <= zlen (folded l conts).
Proof.
  unfold folded. rewrite zlen_app, zlen_cons.
  assert (zlen conts <= zlen (concat (map (λ c, c ++ [CHAR_NL]) conts))); [|lia].
  induction conts as [|c conts IH]; [done|]. cbn [map concat]. rewrite zlen_cons, !zlen_app.
  change (zlen [CHAR_NL]) with 1. pose proof (zlen_nonneg c). lia.
Qed.

Section FindAt.
Context (st d mp tl : Z).

Lemma http_switch htype b n : is_http htype = true → packet_switch htype b n mp tl d st = http_case b n mp tl st.
Proof. by destruct htype. Qed.

Lemma done_finds htype p rest :
  is_http htype = true → zlen (p ++ rest) <= INT_MAX →
  http_case (p ++ rest) (zlen (p ++ rest)) mp tl st = Ok (t_done (zlen p)) → finds htype st d mp tl p rest.
Proof.
  intros Hh Hi E. exists (t_done (zlen p)). rewrite http_switch by done. split; [done|]. cbn [finish].
  rewrite zlen_app in Hi. pose proof (zlen_nonneg rest). pose proof (zlen_nonneg p).
  apply to_int_small. unfold INT_MAX in *. lia.
Qed.

Lemma finds_eoh htype l rest :
  is_http htype = true → l = [] ∨ l = [CHAR_CR] → zlen ((l ++ [CHAR_NL]) ++ rest) <= INT_MAX →
  mp = 0 ∨ zlen (l ++ [CHAR_NL]) <= mp → tl = 0 ∨ zlen (l ++ [CHAR_NL]) <= tl →
  finds htype st d mp tl (l ++ [CHAR_NL]) rest.
Proof.
  intros Hh Hl Hi Hmp Htl. apply done_finds; [done|done|].
  assert (received ((l ++ [CHAR_NL]) ++ rest) (zlen ((l ++ [CHAR_NL]) ++ rest))) as Hr by (by split).
  destruct (http_case_split _ _ mp tl st Hr) as [[He ->]|[He ->]].
  - do 2 f_equal. by destruct Hl as [-> | ->], He as [He|He], rest; simplify_eq/=.
  - destruct rest as [|x rest]; [destruct He; unfold empty_line; destruct Hl as [-> | ->]; auto|].
    revert Hr Hi. rewrite <- !app_assoc. cbn [app]. intros Hr Hi. unfold loop_fuel.
    replace (zlen (l ++ [CHAR_NL])) with (zlen l + 1) by (rewrite zlen_app; done). rewrite zlen_app in Hmp, Htl. change (zlen [CHAR_NL]) with 1 in *.
    apply http_loop_first; [done|destruct Hl as [-> | ->]; set_solver|left|destruct (Z.eqb_spec mp 0); lia].
    split; [by destruct Hl as [-> | ->]|done].
Qed.

Lemma finds_header htype l conts c r :
  is_http htype = true → st ≠ 0 → 2 <= zlen l → CHAR_NL ∉ l → Forall continues conts → SP_char c = false →
  zlen (folded l conts ++ c :: r) <= INT_MAX →
  mp = 0 ∨ zlen (folded l conts) <= mp → tl = 0 ∨ zlen (folded l conts) <= tl →
  finds htype st d mp tl (folded l conts) (c :: r).
Proof.
  intros Hh Hst Htwo Hl Hc Hsp Hi Hmp Htl. apply done_finds; [done|done|].
  pose proof (folded_length l conts) as Hf. pose proof (zlen_nonneg conts). pose proof (zlen_nonneg r).
  destruct (http_case_split (folded l conts ++ c :: r) _ mp tl st (conj eq_refl Hi)) as [[He _]|[_ ->]].
  - exfalso. assert (zlen (folded l conts ++ c :: r) <= 2) as Hz by (by destruct He as [-> | ->]).
    rewrite zlen_app, zlen_cons in Hz. lia.
  - apply (http_loop_folded _ [] l conts c r); try done.
    + unfold loop_fuel, zlen in *. rewrite length_app. lia.
    + destruct (Z.eqb_spec mp 0); cbn [app]; lia.
Qed.
End FindAt.

Lemma framed_at_finds d st mp tl htype p rest :
  framed_at d st rest htype p → zlen (p ++ rest) <= INT_MAX →
  mp = 0 ∨ zlen p <= mp → tl = 0 ∨ zlen p <= tl → finds htype (packet_state htype st) d mp tl p rest.
Proof.
  destruct 1 as [htype p Hf|p Hne ->|htype l Hh Hst Hl|htype l conts c r Hh Hst Htwo Hl Hc -> Hsp]; intros Hi Hmp Htl.
  - assert (packet_state htype st = st) as -> by (by destruct Hf). by apply framed_finds.
  - exists (t_return (to_int (zlen p))). rewrite app_nil_r in *. cbn [packet_switch finish].
    destruct (Z.eqb_spec (zlen p) 0) as [E|_]; [by destruct p|]. split; [done|].
    pose proof (zlen_nonneg p). apply to_int_small. unfold INT_MAX in *. lia.
  - by apply finds_eoh.
  - by apply finds_header.
Qed.
