(* ===== verification/Http.v ===== *)
(** HTTP lines and TLS records: [packet_parse_http], [packet_parse_ssl],
    [packet_parse] and the tables of [http_init] (packet_parser.c), and the part of
    erlang:decode_packet/3 that calls them (erl_bif_port.c). *)
From S2P Require Import Prelude Scan Packet.

(** * Tables *)

Definition HTTP_HDR_HASH_SIZE : Z := 53.
Definition HTTP_METH_HASH_SIZE : Z := 13.
Definition HTTP_MAX_NAME_LEN : Z := 50.

Definition http_hdr_strings : list bytes := map str
  ["Cache-Control"; "Connection"; "Date"; "Pragma"; "Transfer-Encoding"; "Upgrade";
   "Via"; "Accept"; "Accept-Charset"; "Accept-Encoding"; "Accept-Language";
   "Authorization"; "From"; "Host"; "If-Modified-Since"; "If-Match"; "If-None-Match";
   "If-Range"; "If-Unmodified-Since"; "Max-Forwards"; "Proxy-Authorization"; "Range";
   "Referer"; "User-Agent"; "Age"; "Location"; "Proxy-Authenticate"; "Public";
   "Retry-After"; "Server"; "Vary"; "Warning"; "Www-Authenticate"; "Allow";
   "Content-Base"; "Content-Encoding"; "Content-Language"; "Content-Length";
   "Content-Location"; "Content-Md5"; "Content-Range"; "Content-Type"; "Etag";
   "Expires"; "Last-Modified"; "Accept-Ranges"; "Set-Cookie"; "Set-Cookie2";
   "X-Forwarded-For"; "Cookie"; "Keep-Alive"; "Proxy-Connection"]%string.

Definition http_meth_strings : list bytes := map str
  ["OPTIONS"; "GET"; "HEAD"; "POST"; "PUT"; "DELETE"; "TRACE"]%string.

(** [hash_update(h, c)] on an [unsigned long]. *)
Definition hash_update (h c : Z) : Z :=
  let h := wrap 64 (wrap 64 (Z.shiftl h 4) + c) in
  let g := Z.land h 4026531840 in
  if negb (g =? 0) then Z.lxor (Z.lxor h (Z.shiftr g 24)) g else h.

Definition http_hash_table := list (list http_atom_t).

Definition http_hash_insert (name : bytes) (index : Z) (hash : http_hash_table) (hsize : Z) :
    http_hash_table :=
  let h := foldl hash_update 0 name in
  let ix := Z.to_nat (h mod hsize) in
  let entry := mk_http_atom h name (zlen name) index in
  <[ix := entry :: default [] (hash !! ix)]> hash.

(** The loops of [http_init] over a table of names. *)
Fixpoint http_init_table (i : Z) (names : list bytes) (hsize : Z) (hash : http_hash_table) :
    http_hash_table :=
  match names with
  | [] => hash
  | s :: names => http_init_table (i + 1) names hsize (http_hash_insert s i hash hsize)
  end.

Definition http_hdr_hash : http_hash_table :=
  http_init_table 0 http_hdr_strings HTTP_HDR_HASH_SIZE
    (replicate (Z.to_nat HTTP_HDR_HASH_SIZE) []).
Definition http_meth_hash : http_hash_table :=
  http_init_table 0 http_meth_strings HTTP_METH_HASH_SIZE
    (replicate (Z.to_nat HTTP_METH_HASH_SIZE) []).

(** The separators that [http_init] marks, a space and a tab among them. *)
Definition tspecial_chars : bytes := str "()<>@,;:\/[]?={} " ++ [34; 9].

(** [tspecial] after [http_init]; the static array is zero initially. *)
Definition tspecial : list Z :=
  foldl (λ t c, <[Z.to_nat c := 1]> t)
    (replicate 33 1 ++ replicate 94 0 ++ replicate 1 0) tspecial_chars.

Definition is_tspecial (x : Z) : bool :=
  if (x >? 32) && (x <? 128) then negb (default 0 (tspecial !! Z.to_nat x) =? 0) else true.

Fixpoint bucket_lookup (name : bytes) (len h : Z) (l : list http_atom_t) :
    option http_atom_t :=
  match l with
  | [] => None
  | ap :: l =>
      if (ha_h ap =? h) && (ha_len ap =? len)
         && bool_decide (take (Z.to_nat len) (ha_name ap) = take (Z.to_nat len) name)
      then Some ap else bucket_lookup name len h l
  end.

Definition http_hash_lookup (name : bytes) (len h : Z) (hash : http_hash_table) (hsize : Z) :
    option http_atom_t :=
  bucket_lookup name len h (default [] (hash !! Z.to_nat (h mod hsize))).

(** * Request URIs *)

(** [b[s] == c] *)
Definition rd_is (b : bytes) (s c : Z) : res bool := x ← rd b s; Ok (x =? c).

(** [port = port*10 + ( *p - '0')] *)
Definition add_digit (acc c : Z) : Z := to_int (10 * acc + (c - 48)).

Definition http_parse_absoluteURI (ty : uri_type) (b : bytes) (uri_ptr uri_len : Z) :
    res PacketHttpURI :=
  p ← memchr b uri_ptr 47 uri_len;
  let '(s2, uri_len) := match p with
    | None => ([47], uri_len)
    | Some p => (slice b p (uri_len - (p - uri_ptr)), p - uri_ptr)
    end in
  p ← memchr b uri_ptr 58 uri_len;
  match p with
  | None => Ok (mk_uri ty (slice b uri_ptr uri_len) s2 0)
  | Some p =>
      let n := p - uri_ptr in
      '(port, _, n') ← fold_while isdigit add_digit b 0 (p + 1) (uri_len - (n + 1));
      Ok (mk_uri ty (slice b uri_ptr n) s2
            (if (n' =? 0) && negb (port =? 0) then port else 0))
  end.

Definition http_parse_uri (b : bytes) (uri_ptr uri_len : Z) : res PacketHttpURI :=
  star ← (if uri_len =? 1 then rd_is b uri_ptr 42 else Ok false);
  if (star : bool) then Ok (mk_uri URI_STAR [] [] 0)
  else
    abs ← (if uri_len <=? 1 then Ok true else rd_is b uri_ptr 47);
    if (abs : bool) then Ok (mk_uri URI_ABS_PATH (slice b uri_ptr uri_len) [] 0)
    else
      http ← (if uri_len >=? 7 then strncasecmp_eq b uri_ptr (str "http://") else Ok false);
      if (http : bool) then http_parse_absoluteURI URI_HTTP b (uri_ptr + 7) (uri_len - 7)
      else
        https ← (if uri_len >=? 8 then strncasecmp_eq b uri_ptr (str "https://")
                 else Ok false);
        if (https : bool) then http_parse_absoluteURI URI_HTTPS b (uri_ptr + 8) (uri_len - 8)
        else
          p ← memchr b uri_ptr 58 uri_len;
          Ok match p with
             | None => mk_uri URI_STRING (slice b uri_ptr uri_len) [] 0
             | Some p =>
                 let slen := p - uri_ptr in
                 mk_uri URI_SCHEME (slice b uri_ptr slen)
                   (slice b (uri_ptr + (slen + 1)) (uri_len - (slen + 1))) 0
             end.

(** * packet_parse_http *)

Section Parse.
Context {A : Type} (pcb : PacketCallbacks A).

(** A function that returns -1 without calling back. *)
Definition http_fail (st : Z) (arg : A) : res (Z * Z * A) := Ok (-1, st, arg).

(** [HTTP-Version]: digits, a dot, digits; [None] for [return -1]. *)
Definition http_version (b : bytes) (ptr n : Z) : res (option (Z * Z * Z * Z)) :=
  let p0 := ptr in
  '(major, ptr, n) ← fold_while isdigit add_digit b 0 ptr n;
  if (ptr =? p0) || (n =? 0) then Ok None
  else
    c ← rd b ptr;
    if negb (c =? 46) then Ok None
    else
      let p0 := ptr + 1 in
      '(minor, ptr, n) ← fold_while isdigit add_digit b 0 (ptr + 1) (n - 1);
      if ptr =? p0 then Ok None else Ok (Some (major, minor, ptr, n)).

(** [Status-Line], after "HTTP/". *)
Definition http_status_line (b : bytes) (ptr n st : Z) (arg : A) : res (Z * Z * A) :=
  v ← http_version b ptr n;
  match v with
  | None => http_fail st arg
  | Some (major, minor, ptr, n) =>
      let p0 := ptr in
      '(ptr, n) ← skip_while SP_char b ptr n;
      if ptr =? p0 then http_fail st arg
      else
        '(status, ptr, n) ← fold_while isdigit add_digit b 0 ptr n;
        let p0 := ptr in
        '(ptr, n) ← skip_while SP_char b ptr n;
        if (ptr =? p0) && (n >? 0) then http_fail st arg
        else
          let '(r, arg) := http_response pcb arg major minor status (slice b ptr n) in
          Ok (r, 1, arg)
  end.

(** [Request-Line], after the request URI at [uri_ptr]. *)
Definition http_request_version (b : bytes) (meth : option http_atom_t) (meth_str : bytes)
    (uri_ptr uri_len ptr n st : Z) (arg : A) : res (Z * Z * A) :=
  '(ptr, n) ← skip_while SP_char b ptr n;
  if n =? 0 then
    uri ← http_parse_uri b uri_ptr uri_len;
    let '(r, arg) := http_request pcb arg meth meth_str uri 0 9 in
    Ok (r, 1, arg)
  else if n <? 8 then http_fail st arg
  else
    ok ← strncmp_eq b ptr (str "HTTP/");
    if negb ok then http_fail st arg
    else
      v ← http_version b (ptr + 5) (n - 5);
      match v with
      | None => http_fail st arg
      | Some (major, minor, _, _) =>
          uri ← http_parse_uri b uri_ptr uri_len;
          let '(r, arg) := http_request pcb arg meth meth_str uri major minor in
          Ok (r, 1, arg)
      end.

(** [Request-Line] *)
Definition http_request_line (b : bytes) (ptr n st : Z) (arg : A) : res (Z * Z * A) :=
  let meth_ptr := ptr in
  '(h, ptr, n) ← fold_while (λ c, negb (is_tspecial c)) hash_update b 0 ptr n;
  let meth_len := ptr - meth_ptr in
  if (n =? 0) || (meth_len =? 0) then http_fail st arg
  else
    sp ← SP b ptr;
    if negb sp then http_fail st arg
    else
      let meth_str := slice b meth_ptr meth_len in
      let meth := http_hash_lookup meth_str meth_len h http_meth_hash HTTP_METH_HASH_SIZE in
      '(ptr, n) ← skip_while SP_char b ptr n;
      let uri_ptr := ptr in
      '(ptr, n) ← skip_while (λ c, negb (SP_char c)) b ptr n;
      let uri_len := ptr - uri_ptr in
      if uri_len =? 0 then http_fail st arg
      else http_request_version b meth meth_str uri_ptr uri_len ptr n st arg.

(** One character of a header name: the character stored and the new [up]. *)
Definition name_char (up : bool) (c : Z) : Z * bool :=
  if up then (if islower c then toupper c else c, false)
  else if isupper c then (tolower c, false)
  else (c, c =? 45).

(** The state of the loop over a header name. *)
Record name_st := mk_name_st {
  ns_up : bool; ns_buf : bytes (* the part of name_buf written *); ns_h : Z; ns_len : Z }.

Definition name_step (s : name_st) (c : Z) : name_st :=
  if ns_len s <? HTTP_MAX_NAME_LEN then
    let '(c', up) := name_char (ns_up s) c in
    mk_name_st up (ns_buf s ++ [c']) (hash_update (ns_h s) c') (ns_len s + 1)
  else mk_name_st (ns_up s) (ns_buf s) (ns_h s) (ns_len s + 1).

(** [while (!is_tspecial( *ptr )) {..; if (--n == 0) return -1; }]; [None] for
    [return -1]. *)
Fixpoint name_loop (fuel : nat) (b : bytes) (ptr n : Z) (s : name_st) :
    res (option (name_st * Z * Z)) :=
  match fuel with
  | O => NoFuel
  | S fuel =>
      c ← rd b ptr;
      if is_tspecial c then Ok (Some (s, ptr, n))
      else if n - 1 =? 0 then Ok None
      else name_loop fuel b (ptr + 1) (n - 1) (name_step s c)
  end.

Definition http_header_line (b : bytes) (ptr n st : Z) (arg : A) : res (Z * Z * A) :=
  if n =? 0 then let '(r, arg) := http_eoh pcb arg in Ok (r, 0, arg)
  else
    v ← name_loop (loop_fuel b) b ptr n (mk_name_st true [] 0 0);
    match v with
    | None => http_fail st arg
    | Some (s, ptr, n) =>
        '(ptr, n) ← skip_while SP_char b ptr n;
        c ← rd b ptr;
        if negb (c =? 58) then http_fail st arg
        else
          let '(name, name_str) :=
            if ns_len s <=? HTTP_MAX_NAME_LEN then
              (http_hash_lookup (ns_buf s) (ns_len s) (ns_h s)
                 http_hdr_hash HTTP_HDR_HASH_SIZE,
               slice (ns_buf s) 0 (ns_len s))
            else (None, slice b 0 (ns_len s)) in
          '(ptr, n) ← skip_while SP_char b (ptr + 1) (n - 1);
          let '(r, arg) := http_header pcb arg name name_str (slice b ptr n) in
          Ok (r, st, arg)
    end.

(** The trailing CRNL or NL is cut off. *)
Definition http_trim (b : bytes) (len : Z) : res Z :=
  cr ← (if len >=? 2 then rd_is b (len - 2) CHAR_CR else Ok false);
  if (cr : bool) then Ok (len - 2)
  else
    nl ← (if len >=? 1 then rd_is b (len - 1) CHAR_NL else Ok false);
    Ok (if (nl : bool) then len - 1 else len).

(** The return value, [*statep] and the callbacks' state. *)
Definition packet_parse_http (b : bytes) (len st : Z) (arg : A) : res (Z * Z * A) :=
  n ← http_trim b len;
  if st =? 0 then
    http ← (if n >=? 5 then strncmp_eq b 0 (str "HTTP/") else Ok false);
    if (http : bool) then http_status_line b 5 (n - 5) st arg
    else http_request_line b 0 n st arg
  else http_header_line b 0 n st arg.

Definition packet_parse_ssl (b : bytes) (len : Z) (arg : A) : res (Z * A) :=
  c0 ← rd b 0;
  v2 ← (if negb (Z.land c0 128 =? 0) then rd_is b 2 1 else Ok false);
  if (v2 : bool) then
    major ← rd b 3; minor ← rd b 4;
    Ok (ssl_tls pcb arg 22 major minor (slice b 3 (len - 3)) (1 :: put_int24 (len - 3)))
  else
    major ← rd b 1; minor ← rd b 2;
    Ok (ssl_tls pcb arg c0 major minor (slice b 5 (len - 5)) []).

Definition packet_parse (htype : PacketParseType) (b : bytes) (len st : Z) (arg : A) :
    res (Z * Z * A) :=
  match htype with
  | TCP_PB_HTTP | TCP_PB_HTTPH | TCP_PB_HTTP_BIN | TCP_PB_HTTPH_BIN =>
      '(r, st, arg) ← packet_parse_http b len st arg;
      let arg := if r <? 0 then snd (http_error pcb arg (slice b 0 len)) else arg in
      Ok (1, st, arg)
  | TCP_PB_SSL_TLS => '(r, arg) ← packet_parse_ssl b len arg; Ok (r, st, arg)
  | _ => Ok (0, st, arg)
  end.

(** What erlang:decode_packet/3 returns: [{error,invalid}], [{more,Len}],
    [{ok,Binary,Rest}], or [{ok,Term,Rest}] with the term the callbacks built. *)
Inductive decode_result :=
| D_error
| D_more (plen : option Z)
| D_binary (body rest : bytes)
| D_parsed (arg : A) (rest : bytes).

(** The body of [decode_packet_3] on the bytes of the binary, after its options. *)
Definition decode_packet (htype : PacketParseType) (b : bytes)
    (max_plen trunc_len delimiter : Z) (arg : A) : res decode_result :=
  let bin_sz := zlen b in
  '(packet_sz, http_state) ←
    packet_get_length htype b (to_uint bin_sz) max_plen trunc_len delimiter 0;
  if negb ((packet_sz >? 0) && (packet_sz <=? bin_sz)) then
    Ok (if packet_sz <? 0 then D_error
        else D_more (if packet_sz =? 0 then None else Some packet_sz))
  else
    '(body_ptr, body_sz) ← packet_get_body htype b 0 packet_sz;
    '(code, _, arg) ← packet_parse htype b packet_sz http_state arg;
    let rest := slice b packet_sz (bin_sz - packet_sz) in
    Ok (if code =? 0 then D_binary (slice b body_ptr body_sz) rest
        else if code >? 0 then D_parsed arg rest
        else D_error).

End Parse.
Arguments D_error {A}.
Arguments D_more {A} _.
Arguments D_binary {A} _ _.
Arguments D_parsed {A} _ _.

(** * Parsing stays inside the packet *)

Lemma memchr_total b s c n :
  window b s n →
  ∃ r, memchr b s c n = Ok r ∧ (∀ i, r = Some i → s <= i < s + n).
Proof.
  intros Hw. destruct (memchr_spec b s c n Hw) as [[-> _]|(i & -> & Hi & _)].
  - by exists None.
  - exists (Some i). split; [done|]. by intros ? [= <-].
Qed.

Lemma http_parse_absoluteURI_total ty b s n :
  window b s n → is_Ok (http_parse_absoluteURI ty b s n).
Proof.
  intros Hw. unfold http_parse_absoluteURI, is_Ok.
  destruct (memchr_total b s 47 n Hw) as (r & -> & Hr). rewrite bind_Ok.
  set (m := match r with None => n | Some p => p - s end).
  assert (window b s m) as Hm.
  { subst m. destruct r as [p|]; [|done]. specialize (Hr p eq_refl).
    destruct Hw as (? & ? & ?). repeat split; lia. }
  assert (∃ s2, match r with None => ([47], n) | Some p => (slice b p (n - (p - s)), p - s) end
    = (s2, m)) as [s2 ->] by (subst m; destruct r; eauto).
  destruct (memchr_total b s 58 m Hm) as (r2 & -> & Hr2). rewrite bind_Ok.
  destruct r2 as [p|]; [|eauto]. specialize (Hr2 p eq_refl).
  destruct (fold_while_spec isdigit add_digit b 0 (p + 1) (m - (p - s + 1)))
    as (? & ? & ? & -> & _); [destruct Hm as (? & ? & ?); repeat split; lia|].
  simpl. eauto.
Qed.

Lemma guarded_strncasecmp b s n lit :
  window b s n →
  ∃ x, (if zlen lit <=? n then strncasecmp_eq b s lit else Ok false) = Ok x
    ∧ (x = true → zlen lit <= n).
Proof.
  intros (? & ? & ?). destruct (Z.leb_spec (zlen lit) n); [|by exists false].
  destruct (strncasecmp_eq_total b s lit) as [x ->]; [lia|lia|]. by exists x.
Qed.

Lemma http_parse_uri_total b s n :
  window b s n → 0 < n → is_Ok (http_parse_uri b s n).
Proof.
  intros Hw Hn. pose proof Hw as (Hs & _ & Hb). unfold http_parse_uri, rd_is.
  destruct (rd_in b s) as [c ->]; [lia|]. rewrite !bind_Ok.
  assert (∃ x, (if n =? 1 then Ok (c =? 42) else Ok false) = Ok x) as [x ->]
    by (destruct (n =? 1); eauto).
  rewrite bind_Ok. destruct x; [by eexists|].
  assert (∃ x, (if n <=? 1 then Ok true else Ok (c =? 47)) = Ok x) as [x ->]
    by (destruct (n <=? 1); eauto).
  rewrite bind_Ok. destruct x; [by eexists|]. rewrite !Z.geb_leb.
  change (7 <=? n) with (zlen (str "http://") <=? n).
  destruct (guarded_strncasecmp b s n (str "http://") Hw) as (x & -> & Hx).
  rewrite bind_Ok. change (zlen (str "http://")) with 7 in Hx.
  destruct x; [apply http_parse_absoluteURI_total; repeat split; lia|].
  change (8 <=? n) with (zlen (str "https://") <=? n).
  destruct (guarded_strncasecmp b s n (str "https://") Hw) as (y & -> & Hy).
  rewrite bind_Ok. change (zlen (str "https://")) with 8 in Hy.
  destruct y; [apply http_parse_absoluteURI_total; repeat split; lia|].
  destruct (memchr_total b s 58 n Hw) as (r & -> & _). by eexists.
Qed.

Section Safe.
Context {A : Type} (pcb : PacketCallbacks A).

Lemma http_version_total b ptr n :
  window b ptr n →
  ∃ v, http_version b ptr n = Ok v ∧
    match v with
    | None => True
    | Some (_, _, ptr', n') => window b ptr' n' ∧ ptr' + n' = ptr + n
    end.
Proof.
  intros Hw. unfold http_version.
  destruct (fold_while_spec isdigit add_digit b 0 ptr n Hw) as (ma & q & m & -> & Hq & Hs & _).
  rewrite bind_Ok. destruct ((q =? ptr) || (m =? 0)) eqn:E; [by exists None|].
  apply orb_false_iff in E as [_ Hm%Z.eqb_neq]. destruct Hq as (? & ? & ?).
  destruct (rd_in b q) as [c ->]; [lia|]. rewrite bind_Ok.
  destruct (negb (c =? 46)); [by exists None|].
  destruct (fold_while_spec isdigit add_digit b 0 (q + 1) (m - 1))
    as (mi & q2 & m2 & -> & Hq2 & Hs2 & _); [repeat split; lia|].
  rewrite bind_Ok. destruct (q2 =? q + 1); [by exists None|].
  eexists. split; [done|]. split; [done|lia].
Qed.

(** [rw_skip]: a scanning loop of the goal ends inside the window. *)
Ltac rw_skip :=
  match goal with
  | |- context [skip_while ?p ?b ?ptr ?n] =>
      let Hw := fresh "Hw" in
      destruct (skip_while_spec p b ptr n) as (? & ? & -> & Hw & ? & ? & _);
      [unfold window in *; repeat split; lia|rewrite bind_Ok]
  | |- context [fold_while ?p ?f ?b ?a ?ptr ?n] =>
      let Hw := fresh "Hw" in
      destruct (fold_while_spec p f b a ptr n) as (? & ? & ? & -> & Hw & ? & ? & _);
      [unfold window in *; repeat split; lia|rewrite bind_Ok]
  end.

Lemma http_fail_Ok st (arg : A) : is_Ok (http_fail st arg).
Proof. by eexists. Qed.
#[local] Hint Resolve http_fail_Ok : core.

Lemma http_status_line_total b ptr n st arg :
  window b ptr n → is_Ok (http_status_line pcb b ptr n st arg).
Proof.
  intros Hw0. unfold http_status_line.
  destruct (http_version_total b ptr n Hw0) as (v & -> & Hv). rewrite bind_Ok.
  destruct v as [[[[ma mi] q] m]|]; [|done]. destruct Hv as [Hw1 _].
  rw_skip. destruct (_ =? _); [done|]. rw_skip. rw_skip.
  destruct (_ && _); [done|]. destruct (http_response _ _ _ _ _ _). by eexists.
Qed.

Lemma http_request_version_total b meth ms uri_ptr uri_len ptr n st arg :
  window b uri_ptr uri_len → 0 < uri_len → window b ptr n →
  is_Ok (http_request_version pcb b meth ms uri_ptr uri_len ptr n st arg).
Proof.
  intros Hu Hu0 Hw0. unfold http_request_version.
  destruct (http_parse_uri_total b uri_ptr uri_len Hu Hu0) as [uri ->].
  rw_skip. destruct (_ =? 0).
  { rewrite bind_Ok. destruct (http_request _ _ _ _ _ _ _). by eexists. }
  match goal with |- context [if ?c <? 8 then _ else _] => destruct (Z.ltb_spec c 8) end; [done|].
  match goal with |- context [strncmp_eq b ?q ?l] =>
    destruct (strncmp_eq_total b q l) as [ok ->] end; [unfold window in *; lia| |].
  { change (zlen (str "HTTP/")) with 5. unfold window in *. lia. }
  rewrite bind_Ok. destruct (negb ok); [done|].
  match goal with |- context [http_version b ?q ?l] =>
    destruct (http_version_total b q l) as (v & -> & Hv) end;
    [unfold window in *; repeat split; lia|].
  rewrite bind_Ok. destruct v as [[[[ma mi] q] m]|]; [|done].
  rewrite bind_Ok. destruct (http_request _ _ _ _ _ _ _). by eexists.
Qed.

Lemma http_request_line_total b ptr n st arg :
  window b ptr n → is_Ok (http_request_line pcb b ptr n st arg).
Proof.
  intros Hw0. unfold http_request_line. rw_skip.
  destruct (_ || _) eqn:E; [done|]. apply orb_false_iff in E as [Hn%Z.eqb_neq _].
  unfold SP. destruct (rd_in b x0) as [c ->]; [unfold window in *; lia|]. rewrite !bind_Ok.
  destruct (negb _); [done|]. rw_skip. rw_skip.
  match goal with |- context [if ?c =? 0 then _ else _] => destruct (Z.eqb_spec c 0) end; [done|].
  apply http_request_version_total; unfold window in *; try (repeat split); lia.
Qed.

Lemma name_loop_total fuel b ptr n s :
  window b ptr n → 0 < n → (Z.to_nat n <= fuel)%nat →
  ∃ v, name_loop fuel b ptr n s = Ok v ∧
    match v with
    | None => True
    | Some (_, ptr', n') => window b ptr' n' ∧ 0 < n' ∧ ptr' + n' = ptr + n
    end.
Proof.
  revert ptr n s. induction fuel as [|fuel IH]; intros ptr n s Hw Hn Hf; [lia|].
  cbn [name_loop]. destruct Hw as (? & ? & ?).
  destruct (rd_in b ptr) as [c ->]; [lia|]. rewrite bind_Ok.
  destruct (is_tspecial c). { eexists. split; [done|]. repeat split; lia. }
  destruct (Z.eqb_spec (n - 1) 0); [by exists None|].
  destruct (IH (ptr + 1) (n - 1) (name_step s c)) as (v & -> & Hv); [repeat split; lia|lia|lia|].
  exists v. split; [done|]. destruct v as [[[? ?] ?]|]; [|done].
  destruct Hv as (? & ? & ?). split; [done|lia].
Qed.

Lemma http_header_line_total b n st arg :
  0 <= n < zlen b → rd b n ≠ Ok 58 → is_Ok (http_header_line pcb b 0 n st arg).
Proof.
  intros Hn Hcolon. unfold http_header_line.
  destruct (Z.eqb_spec n 0). { destruct (http_eoh pcb arg). by eexists. }
  destruct (name_loop_total (loop_fuel b) b 0 n (mk_name_st true [] 0 0)) as (v & -> & Hv);
    [repeat split; lia|lia|unfold loop_fuel, zlen in *; lia|].
  rewrite bind_Ok. destruct v as [[[s q] m]|]; [|done]. destruct Hv as (Hw1 & Hm & Hs).
  destruct (skip_while_spec SP_char b q m Hw1) as (q' & m' & -> & Hw2 & Hs2 & ? & Hall & Hend).
  rewrite bind_Ok. destruct Hw2 as (? & ? & ?).
  destruct (rd_in b q') as [c Hc]; [lia|]. rewrite Hc, bind_Ok.
  destruct (Z.eqb_spec c 58) as [->|]; cbn [negb]; [|done].
  assert (0 < m').
  { destruct (decide (m' = 0)) as [->|]; [|lia]. exfalso. apply Hcolon.
    by replace n with q' by lia. }
  match goal with |- context [let '(name, name_str) := ?x in _] => destruct x end.
  rw_skip. destruct (http_header _ _ _ _ _). by eexists.
Qed.

Lemma packet_parse_http_total b len st arg :
  0 < len <= zlen b → rd b (len - 1) = Ok CHAR_NL →
  is_Ok (packet_parse_http pcb b len st arg).
Proof.
  intros Hlen Hnl. unfold packet_parse_http.
  assert (∃ n, http_trim b len = Ok n ∧ 0 <= n < len ∧ rd b n ≠ Ok 58) as (n & -> & Hn & Hc).
  { unfold http_trim, rd_is. rewrite !Z.geb_leb, Hnl, bind_Ok.
    destruct (Z.leb_spec 1 len); [|lia].
    assert (∃ x, (if 2 <=? len then x ← rd b (len - 2); Ok (x =? CHAR_CR) else Ok false) = Ok x
      ∧ (x = true → 2 <= len ∧ rd b (len - 2) = Ok CHAR_CR)) as (x & -> & Hx).
    { destruct (Z.leb_spec 2 len); [|by exists false].
      destruct (rd_in b (len - 2)) as [c Hc]; [lia|]. rewrite Hc. eexists. split; [done|].
      by intros ->%Z.eqb_eq. }
    rewrite bind_Ok. destruct x; eexists; (split; [done|]).
    - destruct Hx as [? ->]; [done|]. split; [lia|done].
    - simpl. rewrite Hnl. split; [lia|done]. }
  rewrite bind_Ok. destruct (st =? 0); [|apply http_header_line_total; [lia|done]].
  rewrite Z.geb_leb.
  assert (∃ x, (if 5 <=? n then strncmp_eq b 0 (str "HTTP/") else Ok false) = Ok x
    ∧ (x = true → 5 <= n)) as (x & -> & Hx).
  { destruct (Z.leb_spec 5 n); [|by exists false].
    destruct (strncmp_eq_total b 0 (str "HTTP/")) as [x ->]; [lia| |by exists x].
    change (zlen (str "HTTP/")) with 5. lia. }
  rewrite bind_Ok. destruct x.
  - apply http_status_line_total. repeat split; lia.
  - apply http_request_line_total. repeat split; lia.
Qed.

Lemma decode_packet_total htype b max_plen trunc_len delimiter arg :
  zlen b <= INT_MAX → is_Ok (decode_packet pcb htype b max_plen trunc_len delimiter arg).
Proof.
  intros Hb. pose proof (zlen_nonneg b). unfold decode_packet.
  rewrite to_uint_small by lia. assert (received b (zlen b)) as Hr by done.
  destruct (packet_get_length_eq htype b (zlen b) max_plen trunc_len delimiter 0 Hr)
    as (t & -> & _ & Ht). rewrite bind_Ok.
  destruct ((finish max_plen t >? 0) && (finish max_plen t <=? zlen b)) eqn:E; [|by eexists].
  apply andb_true_iff in E as [E1 E2%Z.leb_le]. rewrite Z.gtb_ltb in E1. apply Z.ltb_lt in E1.
  destruct (finish_pos htype b (zlen b) max_plen t Hr Ht E1) as [Hmin Hnl].
  set (sz := finish max_plen t) in *. clearbody sz. cbn [negb].
  assert (is_Ok (packet_get_body htype b 0 sz)) as [[q m] ->].
  { destruct htype; try by eexists. unfold min_hlen, sizeof_fcgi_head in Hmin.
    unfold packet_get_body. destruct (rd_in b (0 + 6)) as [c ->]; [lia|]. by eexists. }
  rewrite bind_Ok.
  assert (∀ st, is_Ok (packet_parse pcb htype b sz st arg)) as Hp; [|].
  { intros st. unfold packet_parse.
    destruct htype; try (by eexists); simpl in Hmin, Hnl;
      try (destruct (packet_parse_http_total b sz st arg) as [[[r st'] arg'] ->];
           [lia|by apply Hnl|]; by eexists).
    unfold packet_parse_ssl, rd_is.
    destruct (rd_in b 0) as [c0 ->]; [lia|]. destruct (rd_in b 1) as [c1 ->]; [lia|].
    destruct (rd_in b 2) as [c2 ->]; [lia|]. destruct (rd_in b 3) as [c3 ->]; [lia|].
    destruct (rd_in b 4) as [c4 ->]; [lia|]. rewrite ?bind_Ok.
    destruct (negb (Z.land c0 128 =? 0)); rewrite ?bind_Ok; [destruct (c2 =? 1)|];
      rewrite ?bind_Ok; destruct (ssl_tls _ _ _ _ _ _ _); by eexists. }
  destruct (Hp (packet_state htype 0)) as [[[r st'] arg'] ->]. by eexists.
Qed.
End Safe.
