(* ===== verification/HttpSpec.v ===== *)
(** What the HTTP parser makes of well-formed lines: header names in any letter
    case, request lines, and the forms of request URIs. *)
From S2P Require Import Prelude Scan Packet Http.

(** * Header names *)

(** The spelling under which a name is looked up: capitals after hyphens. *)
Fixpoint canon (up : bool) (l : bytes) : bytes :=
  match l with
  | [] => []
  | c :: l => let '(c', up') := name_char up c in c' :: canon up' l
  end.

Definition same_name (a b : bytes) : Prop := map tolower a = map tolower b.

(** [ctype]: case analysis on the character classes in the goal. *)
Ltac ctype :=
  unfold name_char, tolower, toupper, islower, isupper in *;
  repeat match goal with
  | |- context [?a <=? ?b] => destruct (Z.leb_spec a b); simpl in *; try lia
  | |- context [?a =? ?b] => destruct (Z.eqb_spec a b); simpl in *; try lia
  end.

Lemma name_char_lower up c : name_char up (tolower c) = name_char up c.
Proof. destruct up; ctype; try done; f_equal; lia. Qed.

Lemma canon_lower up l : canon up (map tolower l) = canon up l.
Proof.
  revert up. induction l as [|c l IH]; intros up; simpl; [done|].
  rewrite name_char_lower. destruct (name_char up c). by rewrite IH.
Qed.

(** Two spellings of a name have the same canonical one. *)
Lemma canon_same a b : same_name a b → canon true a = canon true b.
Proof. intros H. by rewrite <- (canon_lower true a), H, canon_lower. Qed.

Lemma canon_length up l : length (canon up l) = length l.
Proof.
  revert up. induction l as [|c l IH]; intros up; simpl; [done|].
  destruct (name_char up c). simpl. by rewrite IH.
Qed.

(** * The tables *)

Definition lookup_hdr (nm : bytes) : option http_atom_t :=
  http_hash_lookup nm (zlen nm) (foldl hash_update 0 nm) http_hdr_hash HTTP_HDR_HASH_SIZE.
Definition lookup_meth (nm : bytes) : option http_atom_t :=
  http_hash_lookup nm (zlen nm) (foldl hash_update 0 nm) http_meth_hash HTTP_METH_HASH_SIZE.

Definition entry (nm : bytes) (i : Z) : http_atom_t :=
  mk_http_atom (foldl hash_update 0 nm) nm (zlen nm) i.

#[export] Instance http_atom_eq_dec : EqDecision http_atom_t.
Proof. solve_decision. Defined.

(** Every name of the tables is found, at its index, and is spelled canonically. *)
Definition names_table_ok (lookup : bytes → option http_atom_t) (names : list bytes) : bool :=
  forallb (λ '(i, nm), bool_decide (lookup nm = Some (entry nm (Z.of_nat i))))
    (imap (λ i nm, (i, nm)) names).

Lemma table_ok_lookup lookup names i nm :
  names_table_ok lookup names = true → names !! i = Some nm →
  lookup nm = Some (entry nm (Z.of_nat i)).
Proof.
  unfold names_table_ok. rewrite forallb_forall. intros Hall Hi.
  apply (bool_decide_eq_true_1 (lookup nm = _)).
  apply (Hall (i, nm)). apply list_elem_of_In. apply elem_of_lookup_imap. eauto.
Qed.

Lemma hdr_table_ok : names_table_ok lookup_hdr http_hdr_strings = true.
Proof. vm_compute. reflexivity. Qed.
Lemma meth_table_ok : names_table_ok lookup_meth http_meth_strings = true.
Proof. vm_compute. reflexivity. Qed.

Lemma hdr_canonical : Forall (λ nm, canon true nm = nm ∧ zlen nm <= HTTP_MAX_NAME_LEN
  ∧ Forall (λ c, is_tspecial c = false) nm ∧ nm ≠ []) http_hdr_strings.
Proof. repeat constructor; vm_compute; done. Qed.

(** An entry that is found has the name looked up. *)
Lemma bucket_lookup_name nm h l e :
  bucket_lookup nm (zlen nm) h l = Some e → Forall (λ e, zlen (ha_name e) = ha_len e) l →
  ha_name e = nm ∧ e ∈ l.
Proof.
  induction l as [|a l IH]; simpl; [done|]. intros H [Ha Hl]%Forall_cons.
  destruct (_ && _) eqn:E.
  - injection H as ->. rewrite !andb_true_iff in E. destruct E as [[_ E2%Z.eqb_eq] E3].
    apply bool_decide_eq_true in E3. rewrite to_nat_zlen in E3.
    rewrite (take_ge nm), take_ge in E3; [split; [done|by left]| |done].
    unfold zlen in *. lia.
  - destruct (IH H Hl). split; [done|by right].
Qed.

(** * Header lines *)

Lemma name_step_run name up buf h len :
  len + zlen name <= HTTP_MAX_NAME_LEN →
  ∃ up', foldl name_step (mk_name_st up buf h len) name =
    mk_name_st up' (buf ++ canon up name) (foldl hash_update h (canon up name)) (len + zlen name).
Proof.
  revert up buf h len. induction name as [|c name IH]; intros up buf h len Hl; simpl.
  { exists up. rewrite app_nil_r, zlen_nil, Z.add_0_r. done. }
  rewrite zlen_cons in *. pose proof (zlen_nonneg name). unfold name_step at 2. simpl.
  destruct (Z.ltb_spec len HTTP_MAX_NAME_LEN); [|lia].
  destruct (name_char up c) as [c' up'].
  destruct (IH up' (buf ++ [c']) (hash_update h c') (len + 1)) as [up'' ->]; [lia|].
  exists up''. rewrite <- app_assoc. simpl. f_equal. lia.
Qed.

Lemma name_step_len name s : ns_len (foldl name_step s name) = ns_len s + zlen name.
Proof.
  revert s. induction name as [|c name IH]; intros s; simpl; [rewrite zlen_nil; lia|].
  rewrite IH, zlen_cons. unfold name_step.
  destruct (_ <? _); [destruct (name_char _ _)|]; simpl; lia.
Qed.

Lemma name_loop_run fuel pre name c post m s :
  Forall (λ c, is_tspecial c = false) name → is_tspecial c = true → 0 < m →
  (length name < fuel)%nat →
  name_loop fuel (pre ++ name ++ c :: post) (zlen pre) (zlen name + m) s =
  Ok (Some (foldl name_step s name, zlen pre + zlen name, m)).
Proof.
  intros Hn Hc Hm. revert fuel pre s Hn. induction name as [|x name IH];
    intros fuel pre s Hn Hf; (destruct fuel as [|fuel]; [simpl in Hf; lia|]); cbn [name_loop].
  - cbn [app]. rewrite rd_app_hd, bind_Ok, Hc, zlen_nil. simpl. do 4 f_equal. lia.
  - apply Forall_cons in Hn as [Hx Hn]. rewrite <- app_comm_cons, rd_app_hd, bind_Ok, Hx.
    pose proof (zlen_nonneg name). rewrite zlen_cons.
    destruct (Z.eqb_spec (1 + zlen name + m - 1) 0); [lia|].
    replace (pre ++ x :: name ++ c :: post) with ((pre ++ [x]) ++ name ++ c :: post)
      by (by rewrite <- app_assoc).
    replace (zlen pre + 1) with (zlen (pre ++ [x])) by zl.
    replace (1 + zlen name + m - 1) with (zlen name + m) by lia.
    rewrite IH; [|done|simpl in Hf; lia]. simpl. do 4 f_equal. zl.
Qed.

(** Blanks, and text that does not start with one. *)
Definition blanks (w : bytes) : Prop := Forall (λ c, SP_char c = true) w.
Definition no_blank_first (v : bytes) : Prop :=
  match v with [] => True | c :: _ => SP_char c = false end.

Lemma skip_blanks pre w v post :
  blanks w → no_blank_first v →
  skip_while SP_char (pre ++ w ++ v ++ post) (zlen pre) (zlen w + zlen v) =
  Ok (zlen pre + zlen w, zlen v).
Proof.
  intros Hw Hv. apply skip_while_run; [done|apply zlen_nonneg|].
  destruct v as [|c v]; [by left|]. right. simpl. eauto.
Qed.

Lemma slice_app pre l post : slice (pre ++ l ++ post) (zlen pre) (zlen l) = l.
Proof.
  unfold slice. rewrite !to_nat_zlen, drop_app_length. by rewrite take_app_length.
Qed.

Lemma slice_0 l post : slice (l ++ post) 0 (zlen l) = l.
Proof. apply (slice_app []). Qed.

(** The separator that ends a header name. *)
Lemma sep_special w : blanks w → ∃ c post, w ++ [58] = c :: post ∧ is_tspecial c = true.
Proof.
  destruct w as [|c w]; [exists 58; eexists; split; [done|]; by vm_compute|].
  intros [Hc _]%Forall_cons. exists c, (w ++ [58]). split; [done|].
  unfold SP_char in Hc. apply orb_true_iff in Hc as [->%Z.eqb_eq| ->%Z.eqb_eq]; by vm_compute.
Qed.

Lemma http_trim_crnl l rest : http_trim ((l ++ [CHAR_CR; CHAR_NL]) ++ rest)
  (zlen (l ++ [CHAR_CR; CHAR_NL])) = Ok (zlen l).
Proof.
  unfold http_trim, rd_is. rewrite zlen_app. change (zlen [CHAR_CR; CHAR_NL]) with 2.
  pose proof (zlen_nonneg l). rewrite !Z.geb_leb. destruct (Z.leb_spec 2 (zlen l + 2)); [|lia].
  replace (zlen l + 2 - 2) with (zlen l) by lia. rewrite <- app_assoc. simpl.
  rewrite rd_app_hd. simpl. done.
Qed.

Definition header_name (name : bytes) : bytes :=
  if zlen name <=? HTTP_MAX_NAME_LEN then canon true name else name.
Definition header_atom (name : bytes) : option http_atom_t :=
  if zlen name <=? HTTP_MAX_NAME_LEN then lookup_hdr (canon true name) else None.

Section Header.
Context {A : Type} (pcb : PacketCallbacks A).

Lemma header_line_parsed name w1 w2 v rest st arg :
  name ≠ [] → Forall (λ c, is_tspecial c = false) name →
  blanks w1 → blanks w2 → no_blank_first v → st ≠ 0 →
  let l := name ++ w1 ++ [58] ++ w2 ++ v in
  packet_parse_http pcb ((l ++ [CHAR_CR; CHAR_NL]) ++ rest) (zlen (l ++ [CHAR_CR; CHAR_NL])) st arg
  = Ok (let '(r, arg) := http_header pcb arg (header_atom name) (header_name name) v in
        (r, st, arg)).
Proof.
  intros Hne Hn Hw1 Hw2 Hv Hst l. unfold packet_parse_http.
  rewrite http_trim_crnl, bind_Ok. apply Z.eqb_neq in Hst as ->.
  rewrite <- app_assoc. set (tl := [CHAR_CR; CHAR_NL] ++ rest). clearbody tl.
  pose proof (zlen_nonneg w1). pose proof (zlen_nonneg w2). pose proof (zlen_nonneg v).
  assert (0 < zlen name) by (destruct name; [done|zl]).
  assert (zlen l = zlen name + (zlen w1 + (1 + (zlen w2 + zlen v)))) as Hl.
  { subst l. rewrite !zlen_app. change (zlen [58]) with 1. lia. }
  unfold http_header_line. destruct (Z.eqb_spec (zlen l) 0); [lia|].
  destruct (sep_special w1 Hw1) as (c & post & Ec & Hc).
  assert (l ++ tl = [] ++ name ++ (c :: post) ++ w2 ++ v ++ tl) as E1.
  { subst l. rewrite <- Ec, <- !app_assoc. done. }
  assert (name_loop (loop_fuel (l ++ tl)) (l ++ tl) 0 (zlen l) (mk_name_st true [] 0 0) =
    Ok (Some (foldl name_step (mk_name_st true [] 0 0) name, zlen name,
              zlen w1 + (1 + (zlen w2 + zlen v))))) as ->.
  { rewrite Hl, E1, <- app_comm_cons.
    apply (name_loop_run _ []); [done|done|lia|].
    unfold loop_fuel. rewrite !length_app. lia. }
  rewrite bind_Ok.
  assert (l ++ tl = name ++ w1 ++ ([58] ++ w2 ++ v) ++ tl) as E2 by (subst l; by rewrite <- !app_assoc).
  assert (skip_while SP_char (l ++ tl) (zlen name) (zlen w1 + (1 + (zlen w2 + zlen v))) =
    Ok (zlen name + zlen w1, 1 + (zlen w2 + zlen v))) as ->.
  { rewrite E2. replace (1 + (zlen w2 + zlen v)) with (zlen ([58] ++ w2 ++ v))
      by (rewrite !zlen_app; done). by apply skip_blanks. }
  rewrite bind_Ok.
  assert (l ++ tl = (name ++ w1) ++ 58 :: (w2 ++ v ++ tl)) as E3
    by (subst l; by rewrite <- !app_assoc).
  assert (rd (l ++ tl) (zlen name + zlen w1) = Ok 58) as ->
    by (rewrite E3, <- zlen_app; apply rd_app_hd).
  rewrite bind_Ok. cbn [negb Z.eqb Pos.eqb].
  assert (l ++ tl = (name ++ w1 ++ [58]) ++ w2 ++ v ++ tl) as E4
    by (subst l; by rewrite <- !app_assoc).
  assert (skip_while SP_char (l ++ tl) (zlen name + zlen w1 + 1) (1 + (zlen w2 + zlen v) - 1) =
    Ok (zlen name + zlen w1 + 1 + zlen w2, zlen v)) as ->.
  { rewrite E4. replace (zlen name + zlen w1 + 1) with (zlen (name ++ w1 ++ [58])) by zl.
    replace (1 + (zlen w2 + zlen v) - 1) with (zlen w2 + zlen v) by lia. by apply skip_blanks. }
  assert (slice (l ++ tl) (zlen name + zlen w1 + 1 + zlen w2) (zlen v) = v) as Es.
  { rewrite E4, (app_assoc _ w2). replace (zlen name + zlen w1 + 1 + zlen w2)
      with (zlen ((name ++ w1 ++ [58]) ++ w2)) by zl. apply slice_app. }
  unfold header_atom, header_name. rewrite name_step_len. cbn [ns_len]. rewrite Z.add_0_l.
  destruct (Z.leb_spec (zlen name) HTTP_MAX_NAME_LEN).
  - destruct (name_step_run name true [] 0 0) as [up' ->]; [lia|]. cbn [ns_buf ns_h app].
    assert (zlen (canon true name) = zlen name) as Hcl by (unfold zlen; by rewrite canon_length).
    rewrite bind_Ok, Es. rewrite <- (app_nil_r (canon true name)) at 3.
    rewrite <- Hcl at 2. rewrite slice_0. unfold lookup_hdr. rewrite Hcl.
    by destruct (http_header _ _ _ _ _).
  - rewrite bind_Ok, Es. replace (slice (l ++ tl) 0 (zlen name)) with name.
    + by destruct (http_header _ _ _ _ _).
    + rewrite E2. by rewrite slice_0.
Qed.
End Header.

(** * Request lines *)

(** Decimal digits and the number they spell, for numbers that fit in an [int]. *)
Definition dec_digits (l : bytes) : Prop := l ≠ [] ∧ Forall (λ c, isdigit c = true) l.
Definition dec_value (l : bytes) : Z := foldl add_digit 0 l.

(** The forms of a request URI. *)
Inductive uri_denotes : bytes → PacketHttpURI → Prop :=
| ud_star : uri_denotes [42] (mk_uri URI_STAR [] [] 0)
| ud_abs_path p : uri_denotes (47 :: p) (mk_uri URI_ABS_PATH (47 :: p) [] 0)
| ud_absolute (tls : bool) scheme host port path :
    same_name scheme (if tls then str "https://" else str "http://") →
    47 ∉ host → 58 ∉ host →
    (port = [] ∨ ∃ l, port = 58 :: l ∧ dec_digits l) →
    (path = [] ∨ ∃ p, path = 47 :: p) →
    uri_denotes (scheme ++ host ++ port ++ path)
      (mk_uri (if tls then URI_HTTPS else URI_HTTP) host
         (match path with [] => [47] | _ => path end) (dec_value (tail port))).

(** [memchr] on a known text: the character is not in [l]. *)
Lemma memchr_skip pre l c post :
  c ∉ l → memchr (pre ++ l ++ post) (zlen pre) c (zlen l) = Ok None.
Proof.
  intros Hc. pose proof (zlen_nonneg l). pose proof (zlen_nonneg pre). pose proof (zlen_nonneg post).
  destruct (memchr_spec (pre ++ l ++ post) (zlen pre) c (zlen l)) as [[-> _]|(i & _ & Hi & Hrd & _)];
    [unfold window; rewrite !zlen_app; lia|done|].
  exfalso. apply Hc. replace i with (zlen pre + (i - zlen pre)) in Hrd by lia.
  rewrite rd_app_r, rd_app_l in Hrd by lia. apply rd_lookup in Hrd as [_ Hrd].
  by eapply list_elem_of_lookup_2.
Qed.

Lemma memchr_first pre l c post n :
  c ∉ l → zlen l < n → zlen pre + n <= zlen (pre ++ l ++ c :: post) →
  memchr (pre ++ l ++ c :: post) (zlen pre) c n = Ok (Some (zlen pre + zlen l)).
Proof.
  intros Hc Hn Hb. pose proof (zlen_nonneg l). pose proof (zlen_nonneg pre).
  assert (rd (pre ++ l ++ c :: post) (zlen pre + zlen l) = Ok c) as Hrd
    by (rewrite app_assoc, <- zlen_app; apply rd_app_hd).
  destruct (memchr_spec (pre ++ l ++ c :: post) (zlen pre) c n)
    as [[_ Hno]|(i & -> & Hi & Hrd' & Hj)]; [unfold window; lia| |].
  { by destruct (Hno (zlen pre + zlen l)); [lia|]. }
  do 2 f_equal. destruct (Z.lt_trichotomy i (zlen pre + zlen l)) as [|[|]]; [|done|].
  - exfalso. apply Hc. replace i with (zlen pre + (i - zlen pre)) in Hrd' by lia.
    rewrite rd_app_r, rd_app_l in Hrd' by lia. apply rd_lookup in Hrd' as [_ Hrd'].
    by eapply list_elem_of_lookup_2.
  - by destruct (Hj (zlen pre + zlen l)); [lia|].
Qed.

Lemma digits_no_slash l : Forall (λ c, isdigit c = true) l → 47 ∉ l.
Proof.
  intros Hl Hin. apply (proj1 (Forall_forall _ _) Hl) in Hin. by vm_compute in Hin.
Qed.

Lemma absoluteURI_parsed ty pre host port path post :
  47 ∉ host → 58 ∉ host →
  (port = [] ∨ ∃ l, port = 58 :: l ∧ dec_digits l) →
  (path = [] ∨ ∃ p, path = 47 :: p) →
  http_parse_absoluteURI ty (pre ++ (host ++ port ++ path) ++ post) (zlen pre)
    (zlen (host ++ port ++ path)) =
  Ok (mk_uri ty host (match path with [] => [47] | _ => path end) (dec_value (tail port))).
Proof.
  intros Hs Hc Hport Hpath. unfold http_parse_absoluteURI.
  assert (47 ∉ host ++ port) as Hsl.
  { rewrite elem_of_app. intros [?|Hin]; [done|]. destruct Hport as [->|(l & -> & _ & Hl)]; [set_solver|].
    apply elem_of_cons in Hin as [|Hin]; [done|]. by apply digits_no_slash in Hin. }
  pose proof (zlen_nonneg host). pose proof (zlen_nonneg port).
  pose proof (zlen_nonneg path). pose proof (zlen_nonneg post).
  set (b := pre ++ (host ++ port ++ path) ++ post).
  assert (b = pre ++ (host ++ port) ++ path ++ post) as Eb by (subst b; by rewrite <- !app_assoc).
  assert (Hsplit : (p ← memchr b (zlen pre) 47 (zlen (host ++ port ++ path));
    Ok match p with
    | None => ([47], zlen (host ++ port ++ path))
    | Some p => (slice b p (zlen (host ++ port ++ path) - (p - zlen pre)), p - zlen pre)
    end) = Ok (match path with [] => [47] | _ => path end, zlen (host ++ port))).
  { destruct Hpath as [->|[p ->]].
    - rewrite app_nil_r. rewrite Eb. by rewrite memchr_skip.
    - rewrite Eb, <- app_comm_cons, memchr_first; [|done|rewrite !zlen_app, zlen_cons; zl|
        rewrite !zlen_app, !zlen_cons; zl]. rewrite bind_Ok.
      f_equal. f_equal; [|lia]. rewrite app_assoc, <- zlen_app, app_comm_cons.
      replace (zlen (host ++ port ++ 47 :: p) - (zlen (pre ++ host ++ port) - zlen pre))
        with (zlen (47 :: p)) by (rewrite !zlen_app; lia). apply slice_app. }
  destruct (memchr b (zlen pre) 47 (zlen (host ++ port ++ path))) as [r| |];
    [|discriminate|discriminate]. rewrite bind_Ok.
  simpl in Hsplit. injection Hsplit as Hsplit. rewrite Hsplit. rewrite Eb.
  destruct Hport as [->|(l & -> & Hl0 & Hl)].
  - rewrite app_nil_r, memchr_skip, bind_Ok by done. by rewrite slice_app.
  - replace ((host ++ 58 :: l) ++ path ++ post) with (host ++ 58 :: (l ++ path ++ post))
      by (by rewrite <- app_assoc).
    rewrite memchr_first; [|done|rewrite zlen_app, zlen_cons; zl
      |rewrite !zlen_app, !zlen_cons, !zlen_app; zl].
    rewrite bind_Ok. replace (zlen pre + zlen host - zlen pre) with (zlen host) by lia.
    replace (pre ++ host ++ 58 :: l ++ path ++ post)
      with ((pre ++ host ++ [58]) ++ l ++ path ++ post) by (by rewrite <- !app_assoc).
    replace (zlen pre + zlen host + 1) with (zlen (pre ++ host ++ [58])) by zl.
    replace (zlen (host ++ 58 :: l) - (zlen host + 1)) with (zlen l + 0)
      by (rewrite zlen_app, zlen_cons; lia).
    rewrite fold_while_run; [|done|lia|by left]. rewrite bind_Ok.
    fold (dec_value l). cbn [tail Z.eqb andb].
    replace ((pre ++ host ++ [58]) ++ l ++ path ++ post)
      with (pre ++ host ++ 58 :: l ++ path ++ post) by (by rewrite <- !app_assoc).
    rewrite slice_app. by destruct (Z.eqb_spec (dec_value l) 0) as [->|].
Qed.

Lemma strncasecmp_app pre l lit post :
  length l = length lit →
  strncasecmp_eq (pre ++ l ++ post) (zlen pre) lit =
  Ok (bool_decide (map tolower l = map tolower lit)).
Proof.
  revert pre lit. induction l as [|x l IH]; intros pre [|y lit] Hlen; try discriminate; [done|].
  cbn [strncasecmp_eq]. rewrite <- app_comm_cons, rd_app_hd, bind_Ok.
  destruct (Z.eqb_spec (tolower x) (tolower y)) as [E|E].
  - replace (pre ++ x :: l ++ post) with ((pre ++ [x]) ++ l ++ post) by (by rewrite <- app_assoc).
    replace (zlen pre + 1) with (zlen (pre ++ [x])) by zl. rewrite IH by (simpl in Hlen; lia).
    f_equal. simpl. rewrite E. apply bool_decide_ext. split; [congruence|]. by intros [= ->].
  - f_equal. symmetry. apply bool_decide_eq_false. simpl. congruence.
Qed.

Lemma same_name_length a b : same_name a b → length a = length b.
Proof. intros H%(f_equal length). by rewrite !length_map in H. Qed.

(** The scheme test on a text that starts with a scheme. *)
Lemma scheme_test tls pre scheme l post :
  same_name scheme (if tls : bool then str "https://" else str "http://") →
  let uri := scheme ++ l in
  let b := pre ++ uri ++ post in
  let n := zlen uri in
  (if n >=? 7 then strncasecmp_eq b (zlen pre) (str "http://") else Ok false) = Ok (negb tls) ∧
  (tls = true → (if n >=? 8 then strncasecmp_eq b (zlen pre) (str "https://") else Ok false)
     = Ok true).
Proof.
  intros Hs uri b n. pose proof (same_name_length _ _ Hs) as Hlen.
  pose proof (zlen_nonneg l). rewrite !Z.geb_leb.
  assert (zlen scheme = if tls then 8 else 7) as Hz
    by (unfold zlen; rewrite Hlen; by destruct tls).
  assert (n = zlen scheme + zlen l) as -> by apply zlen_app.
  destruct (Z.leb_spec 7 (zlen scheme + zlen l)); [|destruct tls; lia].
  subst b uri. rewrite <- app_assoc. destruct tls; simpl in Hlen.
  - split; [|intros _].
    + destruct scheme as [|s0 [|s1 [|s2 [|s3 [|s4 [|s5 [|s6 [|s7 [|]]]]]]]]]; try discriminate.
      change ([s0; s1; s2; s3; s4; s5; s6; s7] ++ l ++ post)
        with ([s0; s1; s2; s3; s4; s5; s6] ++ s7 :: l ++ post).
      rewrite strncasecmp_app by done. f_equal. apply bool_decide_eq_false.
      intros H7. unfold same_name in Hs. simpl in Hs, H7.
      injection Hs as E0 E1 E2 E3 E4 _. injection H7 as F0 F1 F2 F3 F4.
      rewrite E4 in F4. by vm_compute in F4.
    + destruct (Z.leb_spec 8 (zlen scheme + zlen l)); [|lia].
      rewrite strncasecmp_app by done. f_equal. by apply bool_decide_eq_true.
  - split; [|done]. rewrite strncasecmp_app by done. f_equal. by apply bool_decide_eq_true.
Qed.

Lemma uri_parsed pre uri u post :
  uri_denotes uri u → http_parse_uri (pre ++ uri ++ post) (zlen pre) (zlen uri) = Ok u.
Proof.
  intros Hu. unfold http_parse_uri, rd_is. destruct Hu as [|p|tls scheme host port path Hs Hs1 Hs2 Hp Hq].
  - simpl. by rewrite rd_app_hd.
  - rewrite <- app_comm_cons, rd_app_hd, !bind_Ok. change (47 =? 42) with false.
    change (47 =? 47) with true. replace (if zlen (47 :: p) =? 1 then Ok false else Ok false)
      with (Ok false) by (by destruct (_ =? 1)).
    rewrite bind_Ok. replace (if zlen (47 :: p) <=? 1 then Ok true else Ok true)
      with (Ok true) by (by destruct (_ <=? 1)).
    rewrite bind_Ok. by rewrite app_comm_cons, slice_app.
  - pose proof (scheme_test tls pre scheme (host ++ port ++ path) post Hs) as [H7 H8].
    pose proof (same_name_length _ _ Hs) as Hlen.
    destruct scheme as [|s0 scheme]; [by destruct tls|].
    assert (tolower s0 = 104) as Hs0.
    { destruct tls; unfold same_name in Hs; simpl in Hs; by injection Hs. }
    assert (s0 ≠ 47) by (by intros ->). assert (s0 ≠ 42) by (by intros ->).
    set (uri := (s0 :: scheme) ++ host ++ port ++ path) in *.
    assert (rd (pre ++ uri ++ post) (zlen pre) = Ok s0) as -> by apply rd_app_hd.
    rewrite !bind_Ok. destruct (Z.eqb_spec s0 42), (Z.eqb_spec s0 47); try done.
    assert (1 < zlen uri).
    { subst uri. rewrite zlen_app. pose proof (zlen_nonneg (host ++ port ++ path)).
      unfold zlen at 1. rewrite Hlen. destruct tls; simpl; lia. }
    destruct (Z.eqb_spec (zlen uri) 1), (Z.leb_spec (zlen uri) 1); try lia.
    rewrite !bind_Ok, H7, bind_Ok.
    assert (zlen (s0 :: scheme) = if tls then 8 else 7) as Hz
      by (unfold zlen; rewrite Hlen; by destruct tls).
    assert (Hgo : http_parse_absoluteURI (if tls then URI_HTTPS else URI_HTTP)
      (pre ++ uri ++ post) (zlen pre + zlen (s0 :: scheme)) (zlen uri - zlen (s0 :: scheme)) =
      Ok (mk_uri (if tls then URI_HTTPS else URI_HTTP) host
            (match path with [] => [47] | _ => path end) (dec_value (tail port)))).
    { subst uri. replace (pre ++ ((s0 :: scheme) ++ host ++ port ++ path) ++ post)
        with ((pre ++ s0 :: scheme) ++ (host ++ port ++ path) ++ post) by (by rewrite <- !app_assoc).
      rewrite <- zlen_app, (zlen_app (s0 :: scheme)).
      replace (zlen (s0 :: scheme) + zlen (host ++ port ++ path) - zlen (s0 :: scheme))
        with (zlen (host ++ port ++ path)) by lia. by apply absoluteURI_parsed. }
    destruct tls; cbn [negb].
    + rewrite H8, bind_Ok by done. rewrite <- Hz. exact Hgo.
    + rewrite <- Hz. exact Hgo.
Qed.

(** [HTTP/Major.Minor] *)
Lemma http_version_parsed pre ma mi post m :
  dec_digits ma → dec_digits mi → 0 <= m →
  (m = 0 ∨ ∃ c post', post = c :: post' ∧ isdigit c = false) →
  http_version (pre ++ (ma ++ [46] ++ mi) ++ post) (zlen pre) (zlen (ma ++ [46] ++ mi) + m) =
  Ok (Some (dec_value ma, dec_value mi, zlen pre + zlen (ma ++ [46] ++ mi), m)).
Proof.
  intros [Hma0 Hma] [Hmi0 Hmi] Hm Hpost. unfold http_version.
  assert (0 < zlen ma) by (destruct ma; [done|zl]).
  assert (0 < zlen mi) by (destruct mi; [done|zl]).
  assert (zlen (ma ++ [46] ++ mi) = zlen ma + (1 + zlen mi)) as Hz by (rewrite !zlen_app; done).
  rewrite Hz. replace (zlen ma + (1 + zlen mi) + m) with (zlen ma + (1 + zlen mi + m)) by lia.
  replace (pre ++ (ma ++ [46] ++ mi) ++ post) with (pre ++ ma ++ ([46] ++ mi ++ post))
    by (by rewrite <- !app_assoc).
  rewrite fold_while_run; [|done|lia|right; eexists _, _; split; [done|done]].
  rewrite bind_Ok. destruct (Z.eqb_spec (zlen pre + zlen ma) (zlen pre)); [lia|].
  destruct (Z.eqb_spec (1 + zlen mi + m) 0); [lia|]. cbn [orb].
  assert (rd (pre ++ ma ++ [46] ++ mi ++ post) (zlen pre + zlen ma) = Ok 46) as ->
    by (rewrite app_assoc, <- zlen_app; apply rd_app_hd).
  rewrite bind_Ok. cbn [negb Z.eqb Pos.eqb].
  replace (pre ++ ma ++ [46] ++ mi ++ post) with ((pre ++ ma ++ [46]) ++ mi ++ post)
    by (by rewrite <- !app_assoc).
  replace (zlen pre + zlen ma + 1) with (zlen (pre ++ ma ++ [46])) by zl.
  replace (1 + zlen mi + m - 1) with (zlen mi + m) by lia.
  rewrite fold_while_run by done. rewrite bind_Ok.
  destruct (Z.eqb_spec (zlen (pre ++ ma ++ [46]) + zlen mi) (zlen (pre ++ ma ++ [46]))); [lia|].
  do 3 f_equal. f_equal. rewrite !zlen_app. change (zlen [46]) with 1. lia.
Qed.

Lemma strncmp_eq_true b s lit i c :
  strncmp_eq b s lit = Ok true → lit !! i = Some c → rd b (s + Z.of_nat i) = Ok c.
Proof.
  revert s i. induction lit as [|x lit IH]; intros s i H Hi; [done|]. cbn [strncmp_eq] in H.
  destruct (rd b s) as [y| |] eqn:E; simpl in H; try discriminate.
  destruct (Z.eqb_spec y x) as [->|]; [|discriminate].
  destruct i as [|i]; simpl in Hi; [injection Hi as <-; by rewrite Z.add_0_r|].
  rewrite <- (IH _ _ H Hi). f_equal. lia.
Qed.

(** A method is followed by a blank, so the line does not start with "HTTP/". *)
Lemma method_not_version meth w post :
  Forall (λ c, is_tspecial c = false) meth → w ≠ [] → blanks w →
  5 <= zlen (meth ++ w ++ post) →
  strncmp_eq (meth ++ w ++ post) 0 (str "HTTP/") = Ok false.
Proof.
  intros Hm Hw0 Hw Hl.
  destruct (strncmp_eq_total (meth ++ w ++ post) 0 (str "HTTP/")) as [[] E]; [lia|exact Hl| |done].
  exfalso. destruct w as [|x w]; [done|]. apply Forall_cons in Hw as [Hx _].
  destruct (decide (length meth < 5)%nat) as [Hlt|Hge].
  - destruct (lookup_lt_is_Some_2 (str "HTTP/") (length meth)) as [c Hc]; [done|].
    pose proof (strncmp_eq_true _ _ _ _ _ E Hc) as Hrd.
    rewrite Z.add_0_l in Hrd. fold (zlen meth) in Hrd. rewrite <- app_comm_cons, rd_app_hd in Hrd.
    injection Hrd as ->. apply list_elem_of_lookup_2 in Hc.
    assert (Forall (λ c, SP_char c = false) (str "HTTP/")) as Hno by (by repeat constructor).
    apply (proj1 (Forall_forall _ _) Hno) in Hc. congruence.
  - pose proof (strncmp_eq_true _ _ _ 4 47 E eq_refl) as Hrd.
    rewrite rd_app_l in Hrd by (unfold zlen; lia).
    apply rd_lookup in Hrd as [_ Hrd%list_elem_of_lookup_2].
    apply (proj1 (Forall_forall _ _) Hm) in Hrd. by vm_compute in Hrd.
Qed.

Lemma blank_special c : SP_char c = true → is_tspecial c = true.
Proof.
  unfold SP_char. intros [->%Z.eqb_eq| ->%Z.eqb_eq]%orb_true_iff; by vm_compute.
Qed.

Lemma uri_denotes_ne uri u : uri_denotes uri u → 0 < zlen uri.
Proof.
  intros [|p|tls scheme host port path Hs]; [done|zl|].
  apply same_name_length in Hs. destruct scheme; [by destruct tls|zl].
Qed.

Lemma ne_zlen {A} (l : list A) : l ≠ [] → 0 < zlen l.
Proof. destruct l; [done|zl]. Qed.

(** A blank or a version follows a run of other characters. *)
Lemma blanks_first w post : w ≠ [] → blanks w →
  ∃ c post', w ++ post = c :: post' ∧ SP_char c = true.
Proof. intros Hw0 Hw. destruct w as [|c w]; [done|]. apply Forall_cons in Hw as [? _]. by eexists _, _. Qed.

Section Request.
Context {A : Type} (pcb : PacketCallbacks A).

Lemma request_version_parsed pre uri u w ma mi rest meth ms st arg :
  uri_denotes uri u → blanks w → dec_digits ma → dec_digits mi →
  let v := str "HTTP/" ++ ma ++ [46] ++ mi in
  http_request_version pcb (pre ++ uri ++ w ++ v ++ rest) meth ms (zlen pre) (zlen uri)
    (zlen pre + zlen uri) (zlen w + zlen v) st arg
  = Ok (let '(r, arg) := http_request pcb arg meth ms u (dec_value ma) (dec_value mi) in
        (r, 1, arg)).
Proof.
  intros Hu Hw Hma Hmi v. unfold http_request_version.
  rewrite uri_parsed with (u := u) by done.
  assert (8 <= zlen v) as Hv.
  { pose proof (ne_zlen ma (proj1 Hma)). pose proof (ne_zlen mi (proj1 Hmi)).
    subst v. rewrite !zlen_app. change (zlen (str "HTTP/")) with 5. change (zlen [46]) with 1. lia. }
  set (b := pre ++ uri ++ w ++ v ++ rest).
  assert (b = (pre ++ uri) ++ w ++ v ++ rest) as E1 by (subst b; by rewrite <- !app_assoc).
  assert (skip_while SP_char b (zlen pre + zlen uri) (zlen w + zlen v) =
    Ok (zlen pre + zlen uri + zlen w, zlen v)) as ->
    by (rewrite E1, <- zlen_app; by apply skip_blanks).
  rewrite bind_Ok. destruct (Z.eqb_spec (zlen v) 0), (Z.ltb_spec (zlen v) 8); try lia.
  set (q := zlen pre + zlen uri + zlen w). set (pre' := pre ++ uri ++ w).
  assert (q = zlen pre') as -> by (subst q pre'; rewrite !zlen_app; lia).
  assert (b = pre' ++ str "HTTP/" ++ (ma ++ [46] ++ mi) ++ rest) as E2
    by (subst b v pre'; by rewrite <- !app_assoc).
  rewrite E2, strncmp_eq_app, bind_Ok. cbn [negb].
  rewrite (app_assoc pre'). change 5 with (zlen (str "HTTP/")). rewrite <- zlen_app.
  replace (zlen v - zlen (str "HTTP/")) with (zlen (ma ++ [46] ++ mi) + 0)
    by (subst v; rewrite (zlen_app (str "HTTP/")); lia).
  rewrite http_version_parsed; [|done|done|done|by left]. rewrite !bind_Ok.
  by destruct (http_request _ _ _ _ _ _ _).
Qed.

(** The method and the URI are found. *)
Lemma request_method_parsed meth w1 uri w2 post n st arg :
  meth ≠ [] → Forall (λ c, is_tspecial c = false) meth →
  w1 ≠ [] → blanks w1 → w2 ≠ [] → blanks w2 →
  uri ≠ [] → Forall (λ c, SP_char c = false) uri → 0 < n →
  http_request_line pcb (meth ++ w1 ++ uri ++ w2 ++ post) 0
    (zlen meth + (zlen w1 + (zlen uri + n))) st arg =
  http_request_version pcb (meth ++ w1 ++ uri ++ w2 ++ post) (lookup_meth meth) meth
    (zlen meth + zlen w1) (zlen uri) (zlen meth + zlen w1 + zlen uri) n st arg.
Proof.
  intros Hm0 Hm Hw10 Hw1 Hw20 Hw2 Hu0 Huri Hn. unfold http_request_line.
  pose proof (ne_zlen _ Hm0). pose proof (ne_zlen _ Hw10). pose proof (ne_zlen _ Hu0).
  set (b := meth ++ w1 ++ uri ++ w2 ++ post).
  destruct (blanks_first w1 (uri ++ w2 ++ post) Hw10 Hw1) as (c & t & Ec & Hc).
  assert (b = [] ++ meth ++ c :: t) as E1 by (subst b; by rewrite Ec).
  assert (fold_while (λ c, negb (is_tspecial c)) hash_update b 0 0
      (zlen meth + (zlen w1 + (zlen uri + n))) =
    Ok (foldl hash_update 0 meth, zlen meth, zlen w1 + (zlen uri + n))) as ->.
  { rewrite E1. apply (fold_while_run _ _ []); [|lia|].
    - eapply Forall_impl; [done|]. by intros ? ->.
    - right. eexists _, _. split; [done|]. by rewrite (blank_special c Hc). }
  rewrite bind_Ok, Z.sub_0_r.
  destruct (Z.eqb_spec (zlen w1 + (zlen uri + n)) 0), (Z.eqb_spec (zlen meth) 0); try lia. cbn [orb].
  assert (SP b (zlen meth) = Ok true) as ->
    by (rewrite E1; unfold SP; cbn [app]; rewrite rd_app_hd; simpl; by rewrite Hc).
  rewrite bind_Ok. cbn [negb].
  assert (slice b 0 (zlen meth) = meth) as -> by apply slice_0.
  assert (skip_while SP_char b (zlen meth) (zlen w1 + (zlen uri + n)) =
    Ok (zlen meth + zlen w1, zlen uri + n)) as ->.
  { apply skip_while_run; [done|lia|]. right. destruct uri as [|x uri]; [done|].
    apply Forall_cons in Huri as [Hx _]. by eexists _, _. }
  rewrite bind_Ok.
  assert (b = (meth ++ w1) ++ uri ++ w2 ++ post) as E2 by (subst b; by rewrite <- !app_assoc).
  assert (skip_while (λ c, negb (SP_char c)) b (zlen meth + zlen w1) (zlen uri + n) =
    Ok (zlen meth + zlen w1 + zlen uri, n)) as ->.
  { rewrite E2, <- zlen_app. apply skip_while_run; [|lia|].
    - eapply Forall_impl; [done|]. by intros ? ->.
    - right. destruct (blanks_first w2 post Hw20 Hw2) as (x & t' & -> & Hx).
      eexists _, _. split; [done|]. by rewrite Hx. }
  rewrite bind_Ok.
  replace (zlen meth + zlen w1 + zlen uri - (zlen meth + zlen w1)) with (zlen uri) by lia.
  by destruct (Z.eqb_spec (zlen uri) 0); [lia|].
Qed.

Lemma request_line_parsed meth w1 uri u w2 ma mi rest arg :
  meth ≠ [] → Forall (λ c, is_tspecial c = false) meth →
  w1 ≠ [] → blanks w1 → w2 ≠ [] → blanks w2 →
  Forall (λ c, SP_char c = false) uri → uri_denotes uri u →
  dec_digits ma → dec_digits mi →
  let l := meth ++ w1 ++ uri ++ w2 ++ str "HTTP/" ++ ma ++ [46] ++ mi in
  packet_parse_http pcb ((l ++ [CHAR_CR; CHAR_NL]) ++ rest) (zlen (l ++ [CHAR_CR; CHAR_NL])) 0 arg
  = Ok (let '(r, arg) :=
          http_request pcb arg (lookup_meth meth) meth u (dec_value ma) (dec_value mi) in
        (r, 1, arg)).
Proof.
  intros Hm0 Hm Hw10 Hw1 Hw20 Hw2 Huri Hu Hma Hmi l. unfold packet_parse_http.
  rewrite http_trim_crnl, bind_Ok, Z.eqb_refl.
  rewrite <- app_assoc. set (tl := [CHAR_CR; CHAR_NL] ++ rest). clearbody tl.
  pose proof (uri_denotes_ne _ _ Hu). set (v := str "HTTP/" ++ ma ++ [46] ++ mi) in *.
  assert (zlen l = zlen meth + (zlen w1 + (zlen uri + (zlen w2 + zlen v)))) as Hl
    by (subst l; by rewrite !zlen_app).
  assert (5 <= zlen v) by (subst v; rewrite zlen_app; change (zlen (str "HTTP/")) with 5; zl).
  assert (l ++ tl = meth ++ w1 ++ uri ++ w2 ++ v ++ tl) as E by (subst l; by rewrite <- !app_assoc).
  pose proof (zlen_nonneg meth). pose proof (zlen_nonneg w1). pose proof (zlen_nonneg w2).
  pose proof (zlen_nonneg tl).
  rewrite Z.geb_leb. destruct (Z.leb_spec 5 (zlen l)); [|lia].
  rewrite E, method_not_version; [|done|done|done|rewrite !zlen_app; lia].
  rewrite bind_Ok, Hl, request_method_parsed; auto; [|by intros ->|lia].
  rewrite app_assoc, <- zlen_app. by apply request_version_parsed.
Qed.
End Request.
