(* ===== verification/PacketProps.v ===== *)
(** Properties of the packet parser: what it finds and returns, and that it stays
    inside the bytes it was given. *)
From S2P Require Import Prelude Scan Packet PacketFrame Http HttpSpec.

(** Callbacks that record what they were given, for the examples. *)
Inductive http_event :=
| E_response (major minor status : Z) (phrase : bytes)
| E_request (meth : option Z) (meth_str : bytes) (uri : PacketHttpURI) (major minor : Z)
| E_eoh
| E_header (name : option Z) (name_str value : bytes)
| E_error (line : bytes)
| E_ssl (ty major minor : Z) (data prefix : bytes).

Definition recorder : PacketCallbacks (list http_event) := {|
  http_response arg ma mi s ph := (1, arg ++ [E_response ma mi s ph]);
  http_request arg m ms u ma mi := (1, arg ++ [E_request (ha_index <$> m) ms u ma mi]);
  http_eoh arg := (1, arg ++ [E_eoh]);
  http_header arg n ns v := (1, arg ++ [E_header (ha_index <$> n) ns v]);
  http_error arg l := (1, arg ++ [E_error l]);
  ssl_tls arg ty ma mi d p := (1, arg ++ [E_ssl ty ma mi d p]) |}.

(** C22: A packet at the start of the received bytes is found with exactly its length, as
    long as it respects the configured limits and fewer than 2^31 bytes have been received.
    Packets ([framed_at]) are: 1, 2 and 4 byte lengths, Sun RPC records, CDR, FastCGI, TPKT,
    SSL/TLS records and SSL 2 hellos, ASN.1 values, lines, HTTP request and status lines,
    whatever follows them; for raw, all that has been received; for HTTP headers (after a
    first line, and httph), the empty line, and a header with its continuation lines when at
    least one byte of the next line has come, that is not a space or a tab (the first line
    of the header has at least two bytes before its newline). *)
Theorem framing_exact htype p rest max_plen trunc_len delimiter st :
  framed_at delimiter st rest htype p → zlen (p ++ rest) <= INT_MAX →
  max_plen = 0 ∨ zlen p <= max_plen → trunc_len = 0 ∨ zlen p <= trunc_len →
  packet_get_length htype (p ++ rest) (zlen (p ++ rest)) max_plen trunc_len delimiter st =
  Ok (zlen p, packet_state htype st).
Proof.
  intros Hf Hi Hmp Htl. unfold packet_get_length.
  destruct (framed_at_finds _ _ max_plen trunc_len _ _ _ Hf Hi Hmp Htl) as (t & -> & Ht). simpl. by rewrite Ht.
Qed.

(** An ASN.1 value, and a header of two lines before the line that starts with [B]. *)
Lemma framing_exact_witness :
  packet_get_length TCP_PB_ASN1 ([63; 129; 5; 130; 0; 3; 7; 8; 9] ++ [1; 2]) 11 20 0 10 0 = Ok (9, 0) ∧
  packet_get_length TCP_PB_HTTPH ([65; 58; 10; 32; 49; 10] ++ [66]) 7 0 0 10 0 = Ok (6, 1).
Proof.
  split.
  2:{ apply (framing_exact TCP_PB_HTTPH [65; 58; 10; 32; 49; 10] [66] 0 0 10 0); [|done|by left|by left].
      apply (framed_header 10 0 [66] TCP_PB_HTTPH [65; 58] [[32; 49]] 66 []); try done; [set_solver|].
      apply Forall_singleton. exists 32, [49]. split_and!; [done|done|set_solver]. }
  apply (framing_exact TCP_PB_ASN1 [63; 129; 5; 130; 0; 3; 7; 8; 9] [1; 2] 20 0 10 0);
    [|done|by right|by left].
  apply framed_always, (framed_asn1 10 0 [63; 129; 5] [130; 0; 3] [7; 8; 9]).
  - apply (tag_long 63 [129] 5); [done|done|by constructor|done].
  - apply (len_2 3). done.
Defined.

(** C23: A decision is final: once a packet length or an error has been returned for the
    bytes received so far, receiving more bytes does not change it.  This holds
    ([decision_final]) for every type but raw, for lines when only one of the two limits is
    set, for HTTP when the limit is not 1, and for fewer than 2^31 bytes. *)
Theorem framing_stable htype b e max_plen trunc_len delimiter st r st' :
  zlen b + zlen e <= INT_MAX → 0 <= max_plen → 0 <= trunc_len →
  decision_final htype max_plen trunc_len →
  packet_get_length htype b (zlen b) max_plen trunc_len delimiter st = Ok (r, st') → r ≠ 0 →
  packet_get_length htype (b ++ e) (zlen (b ++ e)) max_plen trunc_len delimiter st = Ok (r, st').
Proof.
  intros Hi Hmp Htl Hfin Hr Hne. pose proof (zlen_nonneg e).
  assert (received b (zlen b)) as Hrec by (split; [done|lia]).
  destruct (packet_get_length_eq htype b (zlen b) max_plen trunc_len delimiter st Hrec)
    as (t & E & Esw & _). rewrite E in Hr. injection Hr as <- <-.
  unfold packet_get_length. rewrite zlen_app.
  rewrite (packet_switch_stable htype b e (zlen b) _ _ _ _ t); auto. by intros ->.
Qed.

Lemma framing_stable_witness :
  packet_get_length TCP_PB_4 ([0; 0; 0; 9; 1] ++ [2; 3]) 7 0 0 10 0 = Ok (13, 0).
Proof. by apply (framing_stable TCP_PB_4 [0; 0; 0; 9; 1] [2; 3] 0 0 10 0 13 0). Defined.

(** C24: erlang:decode_packet/3 reads only the bytes of its binary, for every packet type,
    option and input below 2^31 bytes, and makes progress: it returns a non-empty packet
    and the bytes after it, or asks for more than it was given, or an error. *)
Theorem decode_packet_safe {A} (pcb : PacketCallbacks A) htype b max_plen trunc_len delimiter arg :
  zlen b <= INT_MAX →
  ∃ r, decode_packet pcb htype b max_plen trunc_len delimiter arg = Ok r ∧
    match r with
    | D_binary _ rest | D_parsed _ rest => ∃ pkt, b = pkt ++ rest ∧ 0 < zlen pkt
    | D_more (Some plen) => zlen b < plen
    | D_more None | D_error => True
    end.
Proof.
  intros Hb. destruct (decode_packet_total pcb htype b max_plen trunc_len delimiter arg Hb)
    as [r Hr]. exists r. split; [done|]. revert Hr. unfold decode_packet.
  destruct (packet_get_length _ _ _ _ _ _ _) as [[sz st]| |]; [|done|done]. rewrite bind_Ok.
  rewrite Z.gtb_ltb. destruct (Z.ltb_spec 0 sz), (Z.leb_spec sz (zlen b)); cbn [andb negb].
  - assert (∃ pkt, b = pkt ++ slice b sz (zlen b - sz) ∧ 0 < zlen pkt) as Hcut.
    { exists (take (Z.to_nat sz) b). unfold slice, zlen in *.
      rewrite (take_ge (drop _ b)) by (rewrite length_drop; lia).
      rewrite take_drop, length_take. split; [done|lia]. }
    destruct (packet_get_body _ _ _ _) as [[q m]| |]; [|done|done]. rewrite bind_Ok.
    destruct (packet_parse _ _ _ _ _ _) as [[[code st'] arg']| |]; [|done|done].
    rewrite bind_Ok. intros [= <-]. by destruct (code =? 0); [|destruct (code >? 0)].
  - intros [= <-]. destruct (Z.ltb_spec sz 0); [lia|]. destruct (Z.eqb_spec sz 0); [lia|]. lia.
  - intros [= <-]. destruct (Z.ltb_spec sz 0); [done|]. by destruct (Z.eqb_spec sz 0); [|lia].
  - intros [= <-]. destruct (Z.ltb_spec sz 0); [done|]. by destruct (Z.eqb_spec sz 0); [|lia].
Qed.

Lemma decode_packet_safe_witness :
  ∃ r, decode_packet recorder TCP_PB_HTTPH (str "Host : x" ++ [13; 10; 65]) 0 0 10 [] = Ok r ∧
    match r with
    | D_binary _ rest | D_parsed _ rest =>
        ∃ pkt, str "Host : x" ++ [13; 10; 65] = pkt ++ rest ∧ 0 < zlen pkt
    | D_more (Some plen) => zlen (str "Host : x" ++ [13; 10; 65]) < plen
    | D_more None | D_error => True
    end.
Proof. by apply (decode_packet_safe recorder TCP_PB_HTTPH (str "Host : x" ++ [13; 10; 65])). Defined.

(** C35: A header line whose name is any spelling of a known header (letter case does not
    matter), with blanks around the colon, is handed over with the known header's table
    entry, its canonical spelling, and the value without leading blanks and line end. *)
Theorem header_known {A} (pcb : PacketCallbacks A) i nm name w1 w2 v rest st arg :
  http_hdr_strings !! i = Some nm → same_name name nm →
  Forall (λ c, is_tspecial c = false) name →
  blanks w1 → blanks w2 → no_blank_first v → st ≠ 0 →
  let l := (name ++ w1 ++ [58] ++ w2 ++ v) ++ [CHAR_CR; CHAR_NL] in
  packet_parse_http pcb (l ++ rest) (zlen l) st arg =
  Ok (let '(r, arg) := http_header pcb arg (Some (entry nm (Z.of_nat i))) nm v in (r, st, arg)).
Proof.
  intros Hi Hs Hn Hw1 Hw2 Hv Hst l.
  destruct (proj1 (Forall_forall _ _) hdr_canonical nm) as (Hc & Hl & _ & Hne);
    [by eapply list_elem_of_lookup_2|].
  assert (zlen name = zlen nm) as Hz by (unfold zlen; by rewrite (same_name_length _ _ Hs)).
  subst l. rewrite header_line_parsed; auto.
  - unfold header_atom, header_name. rewrite Hz.
    destruct (Z.leb_spec (zlen nm) HTTP_MAX_NAME_LEN); [|lia].
    by rewrite (canon_same _ _ Hs), Hc, (table_ok_lookup _ _ i nm hdr_table_ok Hi).
  - intros ->. destruct nm; [done|]. unfold zlen in Hz. simpl in Hz. lia.
Qed.

Lemma header_known_witness :
  packet_parse_http recorder ((str "cONTENT-length" ++ [32] ++ [58] ++ [9; 32] ++ str "42")
    ++ [CHAR_CR; CHAR_NL] ++ [65]) 22 1 [] = Ok (1, 1, [E_header (Some 37) (str "Content-Length") (str "42")]).
Proof.
  rewrite app_assoc.
  apply (header_known recorder 37 (str "Content-Length") (str "cONTENT-length") [32] [9; 32]
    (str "42") [65] 1 []); try done; repeat constructor.
Defined.

(** C34: A request line, a method, a request URI and a version separated by blanks, is handed
    over with the method (and its table entry when it is known), the parts of the URI
    (path, or scheme, host, port and path) and the version, and the parser then expects
    headers. *)
Theorem request_line_correct {A} (pcb : PacketCallbacks A) meth w1 uri u w2 ma mi rest arg :
  meth ≠ [] → Forall (λ c, is_tspecial c = false) meth →
  w1 ≠ [] → blanks w1 → w2 ≠ [] → blanks w2 →
  Forall (λ c, SP_char c = false) uri → uri_denotes uri u →
  dec_digits ma → dec_digits mi →
  let l := (meth ++ w1 ++ uri ++ w2 ++ str "HTTP/" ++ ma ++ [46] ++ mi) ++ [CHAR_CR; CHAR_NL] in
  ∃ m, packet_parse_http pcb (l ++ rest) (zlen l) 0 arg =
    Ok (let '(r, arg) := http_request pcb arg m meth u (dec_value ma) (dec_value mi) in
        (r, 1, arg)) ∧
    (∀ i, http_meth_strings !! i = Some meth → m = Some (entry meth (Z.of_nat i))).
Proof.
  intros Hm0 Hm Hw10 Hw1 Hw20 Hw2 Huri Hu Hma Hmi l. exists (lookup_meth meth). split.
  - by apply request_line_parsed.
  - intros i. apply (table_ok_lookup _ _ i meth meth_table_ok).
Qed.

Lemma request_line_correct_witness :
  ∃ m, packet_parse_http recorder (((str "GET" ++ [32] ++ str "HTTP://a.b:8080/x" ++ [32; 32]
      ++ str "HTTP/" ++ str "1" ++ [46] ++ str "1") ++ [CHAR_CR; CHAR_NL]) ++ [65]) 33 0 [] =
    Ok (let '(r, arg) := http_request recorder [] m (str "GET")
          (mk_uri URI_HTTP (str "a.b") (str "/x") 8080) 1 1 in (r, 1, arg)) ∧
    (∀ i, http_meth_strings !! i = Some (str "GET") → m = Some (entry (str "GET") (Z.of_nat i))).
Proof.
  apply (request_line_correct recorder (str "GET") [32] (str "HTTP://a.b:8080/x")
    (mk_uri URI_HTTP (str "a.b") (str "/x") 8080) [32; 32] (str "1") (str "1") [65] []);
    try done; try (by repeat constructor).
  apply (ud_absolute false (str "HTTP://") (str "a.b") (str ":8080") (str "/x")); try done.
  - change (str "a.b") with [97; 46; 98]. set_solver by lia.
  - change (str "a.b") with [97; 46; 98]. set_solver by lia.
  - right. exists (str "8080"). split; [done|]. split; [done|]. by repeat constructor.
  - right. by exists (str "x").
Defined.
