(* ===== verification/Tcp.v ===== *)
(** Receiving on a TCP socket (erts/emulator/drivers/common/inet_drv.c): the input
    buffer of a socket, the stack of free buffers, and how received bytes become the
    messages of the packets in them, on top of the packet parser.

    A pointer into the input buffer is an offset from its [orig_bytes].  Whoever gets a
    binary may keep a reference to it: the driver must not write to it any more, and a
    write to a binary with another owner is [Fault] here, as is a write outside it.  The
    packet parser is given the bytes from the start of the packet to [i_ptr].  The
    socket is the list of the segments that will arrive; what is sent to the owner is
    recorded packet by packet in [t_out], other effects on the port in [t_eff].  The
    memory allocator and the reception of messages are parameters. *)
From S2P Require Import Prelude Scan Packet Http.

Definition INET_DELIVER_PORT : Z := 0.
Definition INET_DELIVER_TERM : Z := 1.
Definition INET_PASSIVE : Z := 0.
Definition INET_ACTIVE : Z := 1.
Definition INET_ONCE : Z := 2.
Definition INET_MULTI : Z := 3.
Definition TCP_MAX_PACKET_SIZE : Z := 67108864.
Definition BUFFER_STACK_SIZE : Z := 14.
Definition BUFFER_STACK_MAX_MEM_SIZE : Z := 1048576.

Inductive errno := EINVAL | EALREADY | ENOMEM | EMSGSIZE | ECONNRESET | ERRNO_BLOCK | E_other (e : Z).

#[export] Instance errno_eq_dec : EqDecision errno.
Proof. solve_decision. Defined.

(** * Data *)

(** [b_shared]: somebody else has a reference too. *)
Record ErlDrvBinary := mk_bin { orig_bytes : bytes; b_shared : bool }.
Definition orig_size (b : ErlDrvBinary) : Z := zlen (orig_bytes b).

(** The stack of free buffers, the top first. *)
Record InetDrvBufStk := mk_bufstk { bs_mem_size : Z; bs_stk : list ErlDrvBinary }.

(** What the owner of the socket receives; [binary]: with a reference to the buffer. *)
Inductive message :=
| M_port_data (binary : bool) (body : bytes)
| M_tcp_message (binary : bool) (body : bytes)
| M_async_data (binary : bool) (body : bytes)
| M_http_response (major minor status : Z) (phrase : bytes)
| M_http_request (meth : option http_atom_t) (meth_str : bytes) (uri : PacketHttpURI) (major minor : Z)
| M_http_eoh
| M_http_header (name : option http_atom_t) (name_str value : bytes)
| M_http_error (line : bytes)
| M_ssl_tls (ty major minor : Z) (data prefix : bytes).

(** A packet and the messages sent for it. *)
Record delivery := mk_delivery { dv_packet : bytes; dv_messages : list message }.

Inductive effect :=
| E_input_count (len : Z)
| E_cancel_timer
| E_select_read (on : bool)
| E_set_timer (ms : Z)
| E_async_timeout
| E_passive_message
| E_clear_output
| E_clear_busy
| E_reply_closed
| E_desc_close
| E_desc_close_read
| E_async_closed
| E_async_error (err : errno)
| E_error_message (err : errno)
| E_closed_message
| E_driver_exit (err : option errno).

(** The part of [inet_descriptor] and [tcp_descriptor] that options set. *)
Record inet_options := mk_options {
  o_htype : PacketParseType; o_psize : Z; o_delimiter : Z; o_bufsz : Z; o_deliver : Z;
  o_exitf : bool; o_show_econnreset : bool }.

(** [i_bufsz], [i_buf], [i_ptr_start], [i_ptr] and [i_remain]. *)
Record input := mk_input {
  i_bufsz : Z; i_buf : option ErlDrvBinary; i_ptr_start : Z; i_ptr : Z; i_remain : Z }.

(** What the socket will give: a segment, or an error of recv. *)
Inductive sock_event :=
| Segment (l : bytes)
| Sock_error (err : errno)
| Sock_eof.

Record tcp := mk_tcp {
  t_opt : inet_options;
  t_in : input;
  t_http_state : Z;
  t_active : Z;
  t_active_count : Z;
  t_busy : bool;
  t_busy_on_send : bool;
  t_sock : list sock_event;
  t_bufstk : option InetDrvBufStk;
  t_out : list delivery;
  t_eff : list effect }.

Definition set_opt (t : tcp) (o : inet_options) : tcp :=
  mk_tcp o (t_in t) (t_http_state t) (t_active t) (t_active_count t) (t_busy t) (t_busy_on_send t)
    (t_sock t) (t_bufstk t) (t_out t) (t_eff t).
Definition set_in (t : tcp) (i : input) : tcp :=
  mk_tcp (t_opt t) i (t_http_state t) (t_active t) (t_active_count t) (t_busy t) (t_busy_on_send t)
    (t_sock t) (t_bufstk t) (t_out t) (t_eff t).
Definition set_http_state (t : tcp) (st : Z) : tcp :=
  mk_tcp (t_opt t) (t_in t) st (t_active t) (t_active_count t) (t_busy t) (t_busy_on_send t)
    (t_sock t) (t_bufstk t) (t_out t) (t_eff t).
Definition set_active (t : tcp) (active count : Z) : tcp :=
  mk_tcp (t_opt t) (t_in t) (t_http_state t) active count (t_busy t) (t_busy_on_send t)
    (t_sock t) (t_bufstk t) (t_out t) (t_eff t).
Definition set_busy (t : tcp) (busy on_send : bool) : tcp :=
  mk_tcp (t_opt t) (t_in t) (t_http_state t) (t_active t) (t_active_count t) busy on_send
    (t_sock t) (t_bufstk t) (t_out t) (t_eff t).
Definition set_sock (t : tcp) (s : list sock_event) : tcp :=
  mk_tcp (t_opt t) (t_in t) (t_http_state t) (t_active t) (t_active_count t) (t_busy t) (t_busy_on_send t)
    s (t_bufstk t) (t_out t) (t_eff t).
Definition set_bufstk (t : tcp) (bs : option InetDrvBufStk) : tcp :=
  mk_tcp (t_opt t) (t_in t) (t_http_state t) (t_active t) (t_active_count t) (t_busy t) (t_busy_on_send t)
    (t_sock t) bs (t_out t) (t_eff t).
Definition add_out (t : tcp) (d : delivery) : tcp :=
  mk_tcp (t_opt t) (t_in t) (t_http_state t) (t_active t) (t_active_count t) (t_busy t) (t_busy_on_send t)
    (t_sock t) (t_bufstk t) (t_out t ++ [d]) (t_eff t).
Definition add_eff (t : tcp) (e : effect) : tcp :=
  mk_tcp (t_opt t) (t_in t) (t_http_state t) (t_active t) (t_active_count t) (t_busy t) (t_busy_on_send t)
    (t_sock t) (t_bufstk t) (t_out t) (t_eff t ++ [e]).

Definition set_remain (i : input) (n : Z) : input :=
  mk_input (i_bufsz i) (i_buf i) (i_ptr_start i) (i_ptr i) n.

(** * Parameters *)

Class DriverMemory := {
  driver_alloc_binary : Z → option bytes;
  driver_realloc_binary : bytes → Z → option bytes }.

(** What sending a message returns after the deliveries so far, and whether the receiver
    has a reference to the binary when the driver goes on. *)
Class Receiver := {
  send_code : list delivery → message → Z;
  send_keeps : list delivery → message → bool }.

Section Tcp.
Context `{DriverMemory} `{Receiver}.

(** * Buffers *)

Definition driver_alloc (minsz : Z) : option ErlDrvBinary :=
  (λ b, mk_bin b false) <$> driver_alloc_binary minsz.

Definition alloc_buffer (bs : option InetDrvBufStk) (minsz : Z) : option ErlDrvBinary * option InetDrvBufStk :=
  match bs with
  | Some (mk_bufstk mem_size (buf :: stk)) =>
      let size := orig_size buf in
      let bs := Some (mk_bufstk (mem_size - size) stk) in
      if size >=? minsz then (Some buf, bs) else (driver_alloc minsz, bs)
  | _ => (driver_alloc minsz, bs)
  end.

Definition release_buffer (bs : option InetDrvBufStk) (buf : ErlDrvBinary) : option InetDrvBufStk :=
  let size := orig_size buf in
  if size >? BUFFER_STACK_MAX_MEM_SIZE then bs
  else match bs with
  | None => None
  | Some (mk_bufstk mem_size stk) =>
      if (mem_size + size >? BUFFER_STACK_MAX_MEM_SIZE) || (zlen stk >=? BUFFER_STACK_SIZE) then bs
      else Some (mk_bufstk (mem_size + size) (buf :: stk))
  end.

(** [driver_binary_get_refc(buf) == 1] *)
Definition free_buffer (bs : option InetDrvBufStk) (buf : ErlDrvBinary) : option InetDrvBufStk :=
  if negb (b_shared buf) then release_buffer bs buf else bs.

Definition alloc_in (t : tcp) (minsz : Z) : option ErlDrvBinary * tcp :=
  let '(b, bs) := alloc_buffer (t_bufstk t) minsz in (b, set_bufstk t bs).

(** A write of [l] at [off]. *)
Definition bin_write (b : ErlDrvBinary) (off : Z) (l : bytes) : res ErlDrvBinary :=
  if b_shared b && negb (zlen l =? 0) then Fault
  else '(l', _) ← wrs (orig_bytes b) off l; Ok (mk_bin l' (b_shared b)).

(** [desc->i_buf->..] *)
Definition the_buf (i : input) : res ErlDrvBinary :=
  match i_buf i with Some b => Ok b | None => Fault end.

(** The bytes from [i_ptr_start] to [i_ptr]. *)
Definition pending (i : input) : bytes :=
  match i_buf i with
  | Some b => slice (orig_bytes b) (i_ptr_start i) (i_ptr i - i_ptr_start i)
  | None => []
  end.

Definition tcp_expand_buffer (t : tcp) (len : Z) : res (Z * tcp) :=
  let i := t_in t in
  b ← the_buf i;
  let ulen := to_int (i_ptr_start i + len) in
  if i_bufsz i >=? ulen then Ok (0, t)
  else if orig_size b >=? ulen then
    Ok (0, set_in t (mk_input ulen (i_buf i) (i_ptr_start i) (i_ptr i) (i_remain i)))
  else if b_shared b then Fault
  else match driver_realloc_binary (orig_bytes b) ulen with
  | None => Ok (-1, t)
  | Some l =>
      Ok (0, set_in t (mk_input ulen (Some (mk_bin l false)) (i_ptr_start i) (i_ptr i) (i_remain i)))
  end.

Definition tcp_push_buffer (t : tcp) (buf : bytes) : res tcp :=
  let i := t_in t in
  let len := zlen buf in
  match i_buf i with
  | None =>
      let '(bin, t) := alloc_in t len in
      match bin with
      | None => Fault
      | Some bin => bin ← bin_write bin 0 buf; Ok (set_in t (mk_input len (Some bin) 0 len 0))
      end
  | Some b =>
      let sz_before := i_ptr_start i in
      let sz_filled := i_ptr i - i_ptr_start i in
      if len <=? sz_before then
        b ← bin_write b (i_ptr_start i - len) buf;
        Ok (set_in t (mk_input (i_bufsz i) (Some b) (i_ptr_start i - len) (i_ptr i) 0))
      else
        let '(bin, t) := alloc_in t (to_int (i_bufsz i + len)) in
        match bin with
        | None => Fault
        | Some bin =>
            bin ← bin_write bin 0 buf;
            data ← rds (orig_bytes b) (i_ptr_start i) sz_filled;
            bin ← bin_write bin len data;
            let t := set_bufstk t (free_buffer (t_bufstk t) b) in
            Ok (set_in t (mk_input (to_int (i_bufsz i + len)) (Some bin) 0 (sz_filled + len) 0))
        end
  end.

Definition tcp_clear_input (t : tcp) : tcp :=
  let t := match i_buf (t_in t) with
           | Some b => set_bufstk t (free_buffer (t_bufstk t) b)
           | None => t
           end in
  set_in t (mk_input 0 None 0 0 0).

Definition tcp_restart_input (t : tcp) : res tcp :=
  let i := t_in t in
  b ← the_buf i;
  if negb (i_ptr_start i =? 0) then
    let n := i_ptr i - i_ptr_start i in
    data ← rds (orig_bytes b) (i_ptr_start i) n;
    b ← bin_write b 0 data;
    Ok (set_in t (mk_input (i_bufsz i) (Some b) 0 n (i_remain i)))
  else Ok t.

(** * Delivery *)

(** INET_CHECK_ACTIVE_TO_PASSIVE *)
Definition check_active_to_passive (t : tcp) : tcp :=
  if t_active t =? INET_ONCE then set_active t INET_PASSIVE (t_active_count t)
  else if t_active t =? INET_MULTI then
    let count := swrap 16 (t_active_count t - 1) in
    if count =? 0 then add_eff (set_active t INET_PASSIVE count) E_passive_message
    else set_active t (t_active t) count
  else t.

(** A callback that sends one message; the messages so far are its argument. *)
Definition sends (out : list delivery) (ms : list message) (m : message) : Z * list message :=
  (send_code out m, ms ++ [m]).

Definition packet_callbacks (out : list delivery) : PacketCallbacks (list message) := {|
  http_response ms major minor status phrase := sends out ms (M_http_response major minor status phrase);
  http_request ms meth meth_str uri major minor := sends out ms (M_http_request meth meth_str uri major minor);
  http_eoh ms := sends out ms M_http_eoh;
  http_header ms name name_str value := sends out ms (M_http_header name name_str value);
  http_error ms line := sends out ms (M_http_error line);
  ssl_tls ms ty major minor data prefix := sends out ms (M_ssl_tls ty major minor data prefix) |}.

(** [tcp_reply_data] and [tcp_reply_binary_data] of the packet of [len] bytes at the
    beginning of [b]: the code, whether the binary is shared afterwards, and the socket. *)
Definition tcp_reply (binary : bool) (t : tcp) (b : bytes) (len : Z) : res (Z * bool * tcp) :=
  let htype := o_htype (t_opt t) in
  let out := t_out t in
  let delivered code ms t := if code <? 0 then t else add_out t (mk_delivery (take (Z.to_nat len) b) ms) in
  '(body, bodylen) ← packet_get_body htype b 0 len;
  if o_deliver (t_opt t) =? INET_DELIVER_PORT then
    data ← rds b body bodylen;
    let m := M_port_data binary data in
    let code := send_code out m in
    let t := delivered code [m] t in
    Ok (code, binary && send_keeps out m, if code <? 0 then t else check_active_to_passive t)
  else
    '(code, st, ms) ← packet_parse (packet_callbacks out) htype b len (t_http_state t) [];
    let t := set_http_state t st in
    if code =? 0 then
      data ← rds b body bodylen;
      if t_active t =? INET_PASSIVE then
        let m := M_async_data binary data in
        let code := send_code out m in
        Ok (code, binary && send_keeps out m, delivered code [m] t)
      else
        let m := M_tcp_message binary data in
        let code := send_code out m in
        let t := delivered code [m] t in
        Ok (code, binary && send_keeps out m, if code <? 0 then t else check_active_to_passive t)
    else
      let t := delivered code ms t in
      Ok (code, false, if code <? 0 then t else check_active_to_passive t).

Definition tcp_reply_data := tcp_reply false.
Definition tcp_reply_binary_data := tcp_reply true.

(** The result, [*len] and the socket. *)
Definition tcp_remain (t : tcp) : res (Z * Z * tcp) :=
  let i := t_in t in
  b ← the_buf i;
  let o := t_opt t in
  let nfill := i_ptr i in
  let nsz := i_bufsz i - nfill in
  let n := i_ptr i - i_ptr_start i in
  '(tlen, st) ← packet_get_length (o_htype o) (pending i) n (o_psize o) (i_bufsz i) (o_delimiter o) (t_http_state t);
  let t := set_http_state t st in
  if tlen >? 0 then
    if tlen <=? n then Ok (0, tlen, t)
    else
      '(r, t) ← tcp_expand_buffer t tlen;
      if r <? 0 then Ok (-1, 0, t) else Ok (tlen - n, tlen - n, t)
  else if tlen =? 0 then
    if nsz =? 0 then
      if nfill =? n then
        if negb (o_psize o =? 0) && (o_psize o >? nfill) then
          '(r, t) ← tcp_expand_buffer t (o_psize o);
          if r <? 0 then Ok (-1, 0, t) else Ok (to_int (o_psize o), 0, t)
        else Ok (-1, 0, t)
      else Ok (nfill - n, 0, t)
    else Ok (nsz, 0, t)
  else Ok (-1, 0, t).

(** One packet of [len] bytes is delivered: the code and the socket. *)
Definition deliver_one (t : tcp) (len : Z) : res (Z * tcp) :=
  let t := add_eff t (E_input_count len) in
  let i := t_in t in
  b ← the_buf i;
  if to_int (len * 4) >=? orig_size b * 3 then
    '(code, shared, t) ← tcp_reply_binary_data t (pending i) len;
    if code <? 0 then Ok (code, t)
    else
      let b := mk_bin (orig_bytes b) (b_shared b || shared) in
      let t := set_in t (mk_input (i_bufsz i) (Some b) (i_ptr_start i) (i_ptr i) (i_remain i)) in
      if i_ptr_start i + len =? i_ptr i then Ok (code, tcp_clear_input t)
      else
        let '(bin, t) := alloc_in t (i_bufsz i) in
        match bin with
        | None => Fault
        | Some bin =>
            let ptr_end := i_ptr_start i + len in
            let sz := i_ptr i - ptr_end in
            data ← rds (orig_bytes b) ptr_end sz;
            bin ← bin_write bin 0 data;
            let t := set_bufstk t (free_buffer (t_bufstk t) b) in
            Ok (code, set_in t (mk_input (i_bufsz i) (Some bin) 0 sz 0))
        end
  else
    '(code, _, t) ← tcp_reply_data t (pending i) len;
    if code <? 0 then Ok (code, t)
    else
      let start := i_ptr_start i + len in
      let t := set_in t (mk_input (i_bufsz i) (i_buf i) start (i_ptr i) (i_remain i)) in
      if start =? i_ptr i then Ok (code, tcp_clear_input t)
      else Ok (code, set_in t (set_remain (t_in t) 0)).

(** After a packet: the rest of the loop's body; a result ends the function with it,
    otherwise the loop goes on with [len]. *)
Definition deliver_next (t : tcp) : res (option Z * Z * tcp) :=
  if t_active t =? INET_PASSIVE then
    let t := if negb (t_busy_on_send t) then add_eff t E_cancel_timer else t in
    let t := add_eff t (E_select_read false) in
    match i_buf (t_in t) with
    | Some _ => t ← tcp_restart_input t; Ok (None, 0, t)
    | None => Ok (None, 0, t)
    end
  else match i_buf (t_in t) with
  | None => Ok (None, 0, t)
  | Some _ =>
      '(n, len, t) ← tcp_remain t;
      if negb (n =? 0) then
        if n <? 0 then Ok (Some n, 0, t)
        else
          t ← tcp_restart_input t;
          let t := if len >? 0 then set_in t (set_remain (t_in t) len) else t in
          Ok (None, 0, t)
      else Ok (None, len, t)
  end.

(** [while (len > 0)]; every round delivers at least a byte. *)
Fixpoint deliver_loop (fuel : nat) (t : tcp) (len count : Z) : res (Z * tcp) :=
  if len >? 0 then
    match fuel with
    | O => NoFuel
    | S fuel =>
        '(code, t) ← deliver_one t len;
        if code <? 0 then Ok (code, t)
        else
          '(r, len, t) ← deliver_next t;
          match r with
          | Some n => Ok (n, t)
          | None => deliver_loop fuel t len (count + 1)
          end
    end
  else Ok (count, t).

Definition deliver_fuel (t : tcp) : nat := S (length (pending (t_in t))).

Definition tcp_deliver (t : tcp) (len : Z) : res (Z * tcp) :=
  if len =? 0 then
    match i_buf (t_in t) with
    | None => Ok (0, t)
    | Some _ =>
        if i_remain (t_in t) >? 0 then Ok (0, t)
        else
          '(n, len, t) ← tcp_remain t;
          if negb (n =? 0) then
            if n <? 0 then Ok (n, t)
            else Ok (0, if len >? 0 then set_in t (set_remain (t_in t) len) else t)
          else deliver_loop (deliver_fuel t) t len 0
    end
  else deliver_loop (deliver_fuel t) t len 0.

(** * Errors *)

Definition add_effs (t : tcp) (es : list effect) : tcp := foldl add_eff t es.

(** A send that is blocked fails with [closed]. *)
Definition abort_send (t : tcp) : tcp :=
  if t_busy t then
    let t := add_eff t E_clear_output in
    let t := if t_busy_on_send t then set_busy (add_eff t E_cancel_timer) (t_busy t) false else t in
    add_effs (set_busy t false (t_busy_on_send t)) [E_clear_busy; E_reply_closed]
  else t.

Definition tcp_recv_closed (t : tcp) : Z * tcp :=
  let t := abort_send t in
  if t_active t =? INET_PASSIVE then
    let t := tcp_clear_input (add_eff t E_cancel_timer) in
    let t := if o_exitf (t_opt t) then add_effs t [E_clear_output; E_desc_close] else add_eff t E_desc_close_read in
    (-1, add_eff t E_async_closed)
  else
    let t := add_eff (tcp_clear_input t) E_closed_message in
    (-1, add_eff t (if o_exitf (t_opt t) then E_driver_exit None else E_desc_close_read)).

Definition tcp_recv_error (t : tcp) (err : errno) : Z * tcp :=
  if negb (bool_decide (err = ERRNO_BLOCK)) then
    let t := abort_send t in
    if t_active t =? INET_PASSIVE then
      let t := tcp_clear_input (add_eff t E_cancel_timer) in
      let t := add_eff t (if o_exitf (t_opt t) then E_desc_close else E_desc_close_read) in
      (-1, add_eff t (E_async_error err))
    else
      let t := add_effs (tcp_clear_input t) [E_error_message err; E_closed_message] in
      (-1, add_eff t (if o_exitf (t_opt t) then E_driver_exit (Some err) else E_desc_close_read))
  else (0, t).

(** * Receiving *)

(** [recv] of at most [nread] bytes from the first segment; an empty list is a socket
    that has nothing to read yet. *)
Inductive recv_result :=
| R_data (l : bytes)
| R_error (err : errno).

Definition sock_recv (s : list sock_event) (nread : Z) : recv_result * list sock_event :=
  match s with
  | [] => (R_error ERRNO_BLOCK, [])
  | Segment l :: s =>
      if zlen l <=? nread then (R_data l, s)
      else (R_data (take (Z.to_nat nread) l), Segment (drop (Z.to_nat nread) l) :: s)
  | Sock_error err :: s => (R_error err, s)
  | Sock_eof :: s => (R_data [], Sock_eof :: s)
  end.

(** The result of a poll with [tcp_remain]: deliver, report the error or go on. *)
Definition polled (t : tcp) (k : Z → tcp → res (Z * tcp)) : res (Z * tcp) :=
  '(nread, len, t) ← tcp_remain t;
  if nread <? 0 then Ok (tcp_recv_error t EMSGSIZE)
  else if nread =? 0 then tcp_deliver t len
  else k nread (if len >? 0 then set_in t (set_remain (t_in t) len) else t).

(** From [sock_recv] on. *)
Definition recv_into (nread : Z) (t : tcp) : res (Z * tcp) :=
  let '(r, s) := sock_recv (t_sock t) nread in
  let t := set_sock t s in
  match r with
  | R_error err =>
      Ok (if bool_decide (err = ECONNRESET)
          then if o_show_econnreset (t_opt t) then tcp_recv_error t err else tcp_recv_closed t
          else if bool_decide (err = ERRNO_BLOCK) then (0, t)
          else tcp_recv_error t err)
  | R_data [] => Ok (tcp_recv_closed t)
  | R_data l =>
      let i := t_in t in
      b ← the_buf i;
      b ← bin_write b (i_ptr i) l;
      let t := set_in t (mk_input (i_bufsz i) (Some b) (i_ptr_start i) (i_ptr i + zlen l) (i_remain i)) in
      if i_remain i >? 0 then
        let t := set_in t (set_remain (t_in t) (i_remain i - zlen l)) in
        if i_remain (t_in t) =? 0 then tcp_deliver t (i_ptr (t_in t) - i_ptr_start (t_in t)) else Ok (0, t)
      else polled t (λ _ t, Ok (0, t))
  end.

Definition tcp_recv (t : tcp) (request_len : Z) : res (Z * tcp) :=
  let i := t_in t in
  match i_buf i with
  | None =>
      let sz := if request_len >? 0 then request_len else o_bufsz (t_opt t) in
      let '(bin, t) := alloc_in t sz in
      match bin with
      | None => Ok (-1, t)
      | Some bin =>
          recv_into sz (set_in t (mk_input sz (Some bin) 0 0 (if request_len >? 0 then request_len else 0)))
      end
  | Some _ =>
      if request_len >? 0 then
        let n := i_ptr i - i_ptr_start i in
        if n >=? request_len then tcp_deliver t request_len
        else
          '(r, t) ← tcp_expand_buffer t request_len;
          if r <? 0 then Ok (tcp_recv_error t ENOMEM)
          else recv_into (request_len - n) (set_in t (set_remain (t_in t) (request_len - n)))
      else if i_remain i =? 0 then polled t recv_into
      else recv_into (i_remain i) t
  end.

(** * Events and requests *)

(** A connected socket has input. *)
Definition tcp_inet_input (t : tcp) : res (Z * tcp) := tcp_recv t 0.

(** The option [active] ([inet_set_opts]); for a count [nval] is added to the old one. *)
Definition opt_active (t : tcp) (ival nval : Z) : Z * tcp :=
  if ival =? INET_MULTI then
    let ac := t_active_count t + nval in
    if (ac >? 32767) || (ac <? -32768) then (-1, set_active t ival (t_active_count t))
    else
      let count := if ac <? 0 then 0 else ac in
      (0, if count =? 0 then add_eff (set_active t INET_PASSIVE count) E_passive_message
          else set_active t ival count)
  else (0, set_active t ival 0).

(** INET_REQ_SETOPTS on a connected socket, for the options in [o] and [active]. *)
Definition tcp_setopts (t : tcp) (o : inet_options) (ival nval : Z) : res (Z * tcp) :=
  let old_htype := o_htype (t_opt t) in
  let old_active := t_active t in
  let '(r, t) := opt_active (set_opt t o) ival nval in
  if r <? 0 then Ok (-1, t)
  else
    let t := if negb (t_active t =? old_active) then add_eff t (E_select_read (t_active t >? 0)) else t in
    if negb (t_active t =? INET_PASSIVE) &&
       ((old_active =? INET_PASSIVE) || negb (bool_decide (o_htype o = old_htype)))
    then
      '(_, t) ← (if bool_decide (o_htype o = old_htype) && ((t_active t =? INET_ONCE) || (t_active t =? INET_MULTI))
                 then tcp_recv t 0 else tcp_deliver t 0);
      Ok (0, t)
    else Ok (0, t).

(** TCP_REQ_RECV on a connected socket; [queued]: there is room for the request. *)
Definition tcp_req_recv (t : tcp) (timeout : option Z) (n : Z) (queued : bool) : res (option errno * tcp) :=
  if negb (t_active t =? INET_PASSIVE) then Ok (Some EINVAL, t)
  else if negb (bool_decide (o_htype (t_opt t) = TCP_PB_RAW)) && negb (n =? 0) then Ok (Some EINVAL, t)
  else if n >? TCP_MAX_PACKET_SIZE then Ok (Some ENOMEM, t)
  else if negb queued then Ok (Some EALREADY, t)
  else
    '(r, t) ← tcp_recv t n;
    Ok (None,
        if r =? 0 then
          match timeout with
          | Some 0 => add_eff t E_async_timeout
          | Some ms => add_effs t [E_set_timer ms; E_select_read true]
          | None => add_eff t (E_select_read true)
          end
        else t).

(** TCP_REQ_UNRECV *)
Definition tcp_req_unrecv (t : tcp) (buf : bytes) : res tcp :=
  t ← tcp_push_buffer t buf;
  if negb (t_active t =? INET_PASSIVE) then '(_, t) ← tcp_deliver t 0; Ok t else Ok t.

(** A receive request has timed out ([tcp_inet_timeout]). *)
Definition tcp_recv_timeout (t : tcp) : tcp :=
  let t := add_eff t (E_select_read false) in
  add_eff (set_in t (set_remain (t_in t) 0)) E_async_timeout.

End Tcp.
