(* ===== verification/TcpSpec.v ===== *)
(** Receiving on a TCP socket (Tcp.v): the invariant of the input buffer, and that every
    operation keeps it, stays inside its memory and loses no byte.

    The lemmas are proved for received data with a property [fine] that is kept when a
    packet is taken off; the properties use them for arbitrary bytes and for streams of
    well-formed packets. *)
From S2P Require Import Prelude Scan Packet PacketFrame Http Tcp.

(** * Decisions of the packet parser *)

(** What the delivery of a packet of [len] bytes at the beginning of [b] relies on. *)
Definition good_len (htype : PacketParseType) (b : bytes) (len : Z) : Prop :=
  match htype with
  | TCP_PB_2 => 2 <= len
  | TCP_PB_4 => 4 <= len
  | TCP_PB_FCGI => 8 <= len ∧ ∃ pad, rd b 6 = Ok pad ∧ 0 <= pad <= len
  | TCP_PB_SSL_TLS => 5 <= len
  | TCP_PB_HTTP | TCP_PB_HTTPH | TCP_PB_HTTP_BIN | TCP_PB_HTTPH_BIN =>
      0 < len <= zlen b ∧ rd b (len - 1) = Ok CHAR_NL
  | _ => 0 < len
  end.

Lemma good_len_app htype b e len : good_len htype b len → good_len htype (b ++ e) len.
Proof.
  pose proof (zlen_nonneg e). destruct htype; cbn [good_len]; rewrite ?zlen_app; try done.
  1: intros (? & pad & Hr & ?); split; [done|]; exists pad; split; [|done].
  1: rewrite rd_app_l; [done|]; apply rd_lookup in Hr as [? Hl%lookup_lt_Some]; unfold zlen; lia.
  all: intros [? Hr]; (split; [lia|]); rewrite rd_app_l by lia; done.
Qed.

Lemma finish_remain_pos mp hlen plen :
  0 <= hlen <= INT_MAX → 0 <= plen < 2 ^ 32 → 0 < finish mp (t_remain hlen plen) →
  hlen <= finish mp (t_remain hlen plen) ∧ finish mp (t_remain hlen plen) <= hlen + plen ∧
  (mp ≠ 0 → plen <= mp) ∧ (plen <= INT_MAX - hlen → finish mp (t_remain hlen plen) = hlen + plen).
Proof.
  intros Hh Hp. unfold INT_MAX in *. cbn [finish]. rewrite (to_int_small hlen) by (unfold INT_MAX; lia).
  destruct (_ || _) eqn:E; [lia|]. apply orb_false_iff in E as [E1 E2%Z.ltb_ge]. intros Hpos.
  split; [done|]. split.
  - pose proof (Z.mod_le (hlen + plen) (2 ^ 32) ltac:(lia) ltac:(lia)) as Hle.
    pose proof (wrap_range 32 (hlen + plen) ltac:(lia)) as Hw. unfold wrap in *. unfold to_int, swrap in *. cbv zeta in *.
    rewrite Z.mod_mod in * by lia. destruct (_ <? _); lia.
  - split.
    + intros Hm. rewrite (proj2 (Z.eqb_neq _ _) Hm) in E1. cbn in E1. rewrite Z.gtb_ltb in E1. apply Z.ltb_ge in E1. lia.
    + intros. rewrite wrap_small, to_int_small by (unfold INT_MAX; lia). done.
Qed.

Section Decision.
Context (htype : PacketParseType) (b : bytes) (mp tl d st len st' : Z).
Context (Hb : zlen b <= INT_MAX) (Hlen : 0 < len).
Context (Hd : packet_get_length htype b (zlen b) mp tl d st = Ok (len, st')).

Lemma decided_target :
  ∃ t, packet_switch htype b (zlen b) mp tl d st' = Ok t ∧ target_ok htype b (zlen b) t ∧ len = finish mp t ∧
    st' = packet_state htype st.
Proof.
  destruct (packet_get_length_eq htype b (zlen b) mp tl d st) as (t & E & Hs & Ht); [done|].
  rewrite Hd in E. injection E as -> ->. by exists t.
Qed.

(** A packet is announced with at most [mp] bytes after the header. *)
Lemma decided_bound : mp ≠ 0 → 0 <= mp → 0 <= tl <= INT_MAX → len <= zlen b + mp.
Proof.
  intros Hmp Hmp0 Htl. destruct decided_target as (t & Hs & Ht & -> & _). unfold target_ok in Ht.
  pose proof (zlen_nonneg b). destruct (is_http htype) eqn:Hh.
  - destruct t; cbn [http_target finish] in *; try done; try lia. rewrite to_int_small; lia.
  - destruct t as [|hlen plen|plen| |v]; try done; try (cbn in *; lia).
    + destruct Ht as [Hhl Hpl]. assert (1 <= min_hlen htype) by (destruct htype; done).
      pose proof (finish_remain_pos mp hlen plen) as Hf. lia.
    + destruct Ht as [[-> | ->] _]; cbn [finish packet_switch] in *.
      * destruct (zlen b =? 0); [done|]. injection Hs as <-. rewrite to_int_small; lia.
      * unfold line_case in Hs. destruct (memchr_spec b 0 d (zlen b)) as [[E _]|(p & E & Hp & _)]; [repeat split; lia| |];
          rewrite E in Hs; cbn [mbind res_bind] in Hs.
        -- destruct (_ && _); [done|]. destruct (_ && _) eqn:Et; [|done]. injection Hs as <-.
           apply andb_prop in Et as [Et _]. rewrite Z.geb_leb in Et. apply Z.leb_le in Et. rewrite to_int_small; lia.
        -- rewrite to_int_small, to_uint_small in Hs by lia. destruct (_ && _); [done|]. destruct (_ && _) eqn:Et; injection Hs as <-; [|lia].
           apply andb_prop in Et as [Et _]. rewrite Z.gtb_ltb in Et. apply Z.ltb_lt in Et. rewrite to_int_small; lia.
Qed.

Lemma prefix_case_good get mask hlen t :
  0 <= hlen <= INT_MAX → prefix_case get mask hlen b (zlen b) = Ok t → 0 < finish mp t → hlen <= finish mp t.
Proof.
  intros Hh. unfold prefix_case. destruct (_ <? _); [by intros [= <-]|].
  intros (p & _ & [= <-])%bind_Ok_inv Hpos. apply finish_remain_pos in Hpos; [lia|done|apply wrap_range; lia].
Qed.

Lemma decided_good : Forall byte b → good_len htype b len.
Proof.
  intros HB. destruct decided_target as (t & Hs & Ht & E & _). pose proof (zlen_nonneg b). rewrite E in Hlen.
  destruct (is_http htype) eqn:Hh.
  { destruct (finish_pos htype b (zlen b) mp t) as [_ Hf]; [done|done|done|]. rewrite E.
    destruct htype; try done; cbn [good_len]; (split; [split; [done|]|]); by apply Hf. }
  destruct htype; try done; cbn [good_len packet_switch] in *; rewrite E; try done.
  - by eapply prefix_case_good in Hs.
  - by eapply prefix_case_good in Hs.
  - unfold fcgi_case, sizeof_fcgi_head in Hs. destruct (Z.ltb_spec (zlen b) 8); [injection Hs as <-; done|].
    destruct (rd_in b 0) as [c Hc]; [lia|]. rewrite Hc, bind_Ok in Hs. destruct (negb _); [injection Hs as <-; done|].
    destruct (rd_in b 4) as [b1 R1]; [lia|]. destruct (rd_in b 5) as [b0 R0]; [lia|]. destruct (rd_in b 6) as [pad Hp]; [lia|].
    rewrite R1, R0, Hp, !bind_Ok in Hs. injection Hs as <-.
    pose proof (rd_byte _ _ _ HB R1). pose proof (rd_byte _ _ _ HB R0). pose proof (rd_byte _ _ _ HB Hp). unfold byte in *.
    assert (0 <= Z.lor (Z.shiftl b1 8) b0 < 2 ^ 16) as Hl by (rewrite lor_shiftl_add by lia; change (2 ^ 8) with 256; lia).
    rewrite to_uint_small in * by (unfold INT_MAX; lia).
    destruct (finish_remain_pos mp 8 (Z.lor (Z.shiftl b1 8) b0 + pad)) as (? & ? & _ & Hf); [unfold INT_MAX; lia|lia|done|].
    split; [done|]. exists pad. split; [done|]. rewrite Hf by (unfold INT_MAX; lia). lia.
  - unfold ssl_case in Hs. destruct (Z.ltb_spec (zlen b) 5); [injection Hs as <-; done|].
    destruct (rd_in b 0) as [c0 R0]; [lia|]. destruct (rd_in b 2) as [c2 R2]; [lia|]. rewrite R0, R2, !bind_Ok in Hs.
    destruct (_ && _); apply bind_Ok_inv in Hs as (l & _ & [= <-]);
      (eapply finish_remain_pos in Hlen; [lia|unfold INT_MAX; lia|apply wrap_range; lia]).
Qed.

End Decision.

(** * Parameters *)

(** Memory is available: [driver_alloc_binary] and [driver_realloc_binary] do not return
    NULL, have the size asked for and keep the contents. *)
Class MemoryLaws `{DriverMemory} : Prop := {
  alloc_law n : 0 <= n → ∃ b, driver_alloc_binary n = Some b ∧ zlen b = n;
  realloc_law b n : zlen b <= n → ∃ b', driver_realloc_binary b n = Some b' ∧ zlen b' = n ∧ take (length b) b' = b }.

(** Sending is not an error: [driver_output2] and [driver_output_binary] return 0, and
    [erl_drv_send_term] returns 1, or 0 when the receiver does not exist any more. *)
Class ReceiverLaws `{Receiver} : Prop := { send_law out m : 0 <= send_code out m }.

(** * Lists *)

Lemma slice_spec (b : bytes) s n : 0 <= s → 0 <= n → s + n <= zlen b → zlen (slice b s n) = n.
Proof. intros. unfold slice, zlen in *. rewrite length_take, length_drop. lia. Qed.

Lemma slice_split (b : bytes) s n m :
  0 <= s → 0 <= n → 0 <= m → slice b s (n + m) = slice b s n ++ slice b (s + n) m.
Proof.
  intros. unfold slice. rewrite !Z2Nat.inj_add by done. rewrite <- drop_drop.
  rewrite <- (take_drop (Z.to_nat n) (take (Z.to_nat n + Z.to_nat m) _)) at 1.
  rewrite take_take, Nat.min_l, skipn_firstn_comm by lia. do 2 f_equal. lia.
Qed.

Lemma slice_splice (b l : bytes) s : 0 <= s → s + zlen l <= zlen b → slice (splice b s l) s (zlen l) = l.
Proof.
  intros Hs Hl. unfold slice, splice, zlen in *. rewrite drop_app_length' by (rewrite length_take; lia).
  rewrite Nat2Z.id. by rewrite take_app_length.
Qed.

Lemma slice_splice_before (b l : bytes) s n m :
  0 <= s → 0 <= n → s + n <= m → m + zlen l <= zlen b → slice (splice b m l) s n = slice b s n.
Proof.
  intros. unfold slice, splice, zlen in *. rewrite drop_app_le by (rewrite length_take; lia).
  rewrite take_app_le by (rewrite length_drop, length_take; lia).
  rewrite skipn_firstn_comm, take_take. f_equal. lia.
Qed.

Lemma rds_slice b s n : 0 <= s → 0 <= n → s + n <= zlen b → rds b s n = Ok (slice b s n).
Proof.
  intros. unfold rds. destruct (Z.eqb_spec n 0) as [-> |]; [done|].
  destruct (Z.ltb_spec 0 n), (Z.leb_spec 0 s), (Z.leb_spec (s + n) (zlen b)); try lia. done.
Qed.

(** * Buffers *)

Definition sizes (l : list ErlDrvBinary) : Z := foldr (λ b n, orig_size b + n) 0 l.

(** The free buffers belong to the driver alone and are within the limits. *)
Definition stk_ok (bs : option InetDrvBufStk) : Prop :=
  match bs with
  | None => True
  | Some (mk_bufstk mem_size stk) =>
      Forall (λ b, b_shared b = false) stk ∧ mem_size = sizes stk ∧
      mem_size <= BUFFER_STACK_MAX_MEM_SIZE ∧ zlen stk <= BUFFER_STACK_SIZE
  end.

Lemma free_buffer_ok bs b : stk_ok bs → stk_ok (free_buffer bs b).
Proof.
  intros Hs. unfold free_buffer. destruct (b_shared b) eqn:E; cbn [negb]; [done|]. unfold release_buffer.
  destruct (_ >? _); [done|]. destruct bs as [[mem stk]|]; [|done]. rewrite Z.gtb_ltb, Z.geb_leb.
  destruct Hs as (Hf & Hm & Hle & Hn). destruct (Z.ltb_spec BUFFER_STACK_MAX_MEM_SIZE (mem + orig_size b)),
    (Z.leb_spec BUFFER_STACK_SIZE (zlen stk)); cbn [orb]; try done.
  split_and!; [by constructor|cbn [sizes foldr]; fold (sizes stk); lia|done|rewrite zlen_cons; lia].
Qed.

(** [i] holds the unshared buffer [b], with its pointers in order. *)
Record holds (i : input) (b : ErlDrvBinary) : Prop := {
  h_buf : i_buf i = Some b;
  h_own : b_shared b = false;
  h_start : 0 <= i_ptr_start i <= i_ptr i;
  h_size : i_ptr i <= i_bufsz i <= orig_size b }.

Lemma holds_pending i b : holds i b → pending i = slice (orig_bytes b) (i_ptr_start i) (i_ptr i - i_ptr_start i).
Proof. intros [E _ _ _]. unfold pending. by rewrite E. Qed.

Lemma holds_length i b : holds i b → zlen (pending i) = i_ptr i - i_ptr_start i.
Proof. intros Hh. rewrite (holds_pending i b Hh). destruct Hh as [_ _ ? ?]. unfold orig_size in *. apply slice_spec; lia. Qed.

Lemma the_buf_ok i b : holds i b → the_buf i = Ok b.
Proof. intros [E _ _ _]. unfold the_buf. by rewrite E. Qed.

Lemma bin_write_ok b off l :
  b_shared b = false → 0 <= off → off + zlen l <= orig_size b →
  bin_write b off l = Ok (mk_bin (splice (orig_bytes b) off l) false).
Proof. intros Hs Ho Hl. unfold bin_write. rewrite Hs. cbn [andb]. by rewrite wrs_ok. Qed.

Section Spec.
Context `{MemoryLaws} `{ReceiverLaws}.

Lemma driver_alloc_ok n : 0 <= n → ∃ b, driver_alloc n = Some b ∧ b_shared b = false ∧ orig_size b = n.
Proof. intros Hn. destruct (alloc_law n Hn) as (l & E & Hl). exists (mk_bin l false). unfold driver_alloc. by rewrite E. Qed.

Lemma alloc_in_ok t n :
  stk_ok (t_bufstk t) → 0 <= n →
  ∃ b bs, alloc_in t n = (Some b, set_bufstk t bs) ∧ stk_ok bs ∧ b_shared b = false ∧ n <= orig_size b.
Proof.
  intros Hs Hn. unfold alloc_in, alloc_buffer. destruct (driver_alloc_ok n Hn) as (b & E & Hb & Hsz).
  destruct (t_bufstk t) as [[mem [|buf stk]]|]; [| |]; rewrite ?E; [by exists b, (Some (mk_bufstk mem [])); split_and!; [..|lia]| |by exists b, None; split_and!; [..|lia]].
  destruct Hs as ([Hf1 Hf2]%Forall_cons & Hm & Hle & Hl). rewrite zlen_cons in Hl. cbn [sizes foldr] in Hm.
  pose proof (zlen_nonneg (orig_bytes buf)). assert (stk_ok (Some (mk_bufstk (mem - orig_size buf) stk))) as Hok.
  { split_and!; [done|unfold sizes; lia|unfold orig_size in *; lia|lia]. }
  rewrite Z.geb_leb. destruct (Z.leb_spec n (orig_size buf)); [by exists buf, (Some (mk_bufstk (mem - orig_size buf) stk))|].
  exists b, (Some (mk_bufstk (mem - orig_size buf) stk)). by split_and!; [..|lia].
Qed.

Lemma tcp_expand_buffer_ok t b len :
  holds (t_in t) b → 0 <= len → i_ptr_start (t_in t) + len <= INT_MAX →
  ∃ i b', tcp_expand_buffer t len = Ok (0, set_in t i) ∧ holds i b' ∧ pending i = pending (t_in t) ∧
    i_ptr_start i = i_ptr_start (t_in t) ∧ i_ptr i = i_ptr (t_in t) ∧ i_remain i = i_remain (t_in t) ∧
    i_bufsz i = Z.max (i_bufsz (t_in t)) (i_ptr_start (t_in t) + len).
Proof.
  intros Hh Hlen Hint. unfold tcp_expand_buffer. rewrite (the_buf_ok _ _ Hh), bind_Ok.
  pose proof Hh as [Eb Hown Hst Hsz]. rewrite to_int_small by lia. rewrite !Z.geb_leb.
  set (i := t_in t) in *. set (ulen := i_ptr_start i + len) in *.
  destruct (Z.leb_spec ulen (i_bufsz i)).
  { exists i, b. split_and!; [|done..|lia]. unfold set_in. by destruct t. }
  destruct (Z.leb_spec ulen (orig_size b)).
  { eexists _, b. split; [done|]. split; [by split; cbn; [..|lia]|]. cbn. split_and!; [done..|lia]. }
  rewrite Hown. destruct (realloc_law (orig_bytes b) ulen) as (l & -> & Hl & Hpre); [unfold orig_size in *; lia|].
  eexists _, (mk_bin l false). split; [done|]. split; [split; cbn; [done|done|lia|unfold orig_size in *; cbn; lia]|]. cbn.
  split_and!; [|done..|lia]. rewrite (holds_pending i b) by done. unfold pending. cbn. rewrite <- Hpre.
  unfold slice, orig_size, zlen in *. rewrite skipn_firstn_comm, take_take. f_equal. lia.
Qed.

(** * A socket with fixed options *)

Context (o : inet_options) (cap lim : Z) (fine : bytes → Prop).

(** The parser finds a packet of [tlen] bytes (0: not yet; negative: an error) at the
    beginning of [b], with a buffer of [tl] bytes. *)
Definition decides (b : bytes) (tl tlen : Z) : Prop :=
  ∃ st st', packet_get_length (o_htype o) b (zlen b) (o_psize o) tl (o_delimiter o) st = Ok (tlen, st').

(** The sizes of buffers the parser is told. *)
Definition good_tl (tl : Z) : Prop := 0 <= tl <= INT_MAX ∧ (o_bufsz o <= tl ∨ o_htype o = TCP_PB_RAW).

Context (o_ok : 0 < o_bufsz o <= cap ∧ 0 <= o_psize o <= cap).
Context (cap_ok : 0 <= lim ∧ cap + lim <= INT_MAX).
Context (fine_nil : fine []).
Context (fine_byte : ∀ b, fine b → Forall byte b).
Context (fine_bound : ∀ b tl tlen, fine b → zlen b <= INT_MAX → good_tl tl → decides b tl tlen → tlen <= zlen b + lim).
Context (fine_drop : ∀ b tl len, fine b → zlen b <= INT_MAX → good_tl tl → decides b tl len → 0 < len <= zlen b → fine (drop (Z.to_nat len) b)).
Context (fine_raw : ∀ b n, o_htype o = TCP_PB_RAW → fine b → fine (drop n b)).

(** The socket has data, in a buffer of at most [c] bytes. *)
Record mid_at (c : Z) (t : tcp) (b : ErlDrvBinary) : Prop := {
  m_opt : t_opt t = o;
  m_stk : stk_ok (t_bufstk t);
  m_holds : holds (t_in t) b;
  m_cap : i_bufsz (t_in t) <= c;
  m_tl : o_bufsz o <= i_bufsz (t_in t) ∨ o_htype o = TCP_PB_RAW;
  m_fine : fine (pending (t_in t)) }.
Abbreviation mid := (mid_at cap).

Lemma mid_tl t b : mid t b → good_tl (i_bufsz (t_in t)).
Proof. intros [_ _ [_ _ ? ?] ? ? _]. split; [unfold INT_MAX in *; lia|done]. Qed.

Lemma decides_raw b tl len : o_htype o = TCP_PB_RAW → zlen b <= INT_MAX → decides b tl len → len = zlen b.
Proof.
  intros E Hi (st & st' & Hd). rewrite E in Hd. unfold packet_get_length in Hd. cbn in Hd. pose proof (zlen_nonneg b).
  destruct (Z.eqb_spec (zlen b) 0) as [E0|]; cbn in Hd; injection Hd as <- _; [lia|]. apply to_int_small. lia.
Qed.

Lemma mid_length t b : mid t b → zlen (pending (t_in t)) = i_ptr (t_in t) - i_ptr_start (t_in t) ∧ zlen (pending (t_in t)) <= INT_MAX.
Proof. intros [_ _ Hh Hc _ _]. rewrite (holds_length _ _ Hh). destruct Hh as [_ _ ? ?]. unfold INT_MAX in *. lia. Qed.

(** What [tcp_remain] can return. *)
Inductive remain_to (t : tcp) : Z → Z → tcp → Prop :=
| rt_packet tlen st :
    decides (pending (t_in t)) (i_bufsz (t_in t)) tlen → 0 < tlen <= zlen (pending (t_in t)) →
    remain_to t 0 tlen (set_http_state t st)
| rt_exact tlen st i b n :
    decides (pending (t_in t)) (i_bufsz (t_in t)) tlen → zlen (pending (t_in t)) < tlen → n = tlen - zlen (pending (t_in t)) →
    holds i b → pending i = pending (t_in t) → i_ptr_start i = i_ptr_start (t_in t) → i_ptr i = i_ptr (t_in t) →
    i_bufsz i = Z.max (i_bufsz (t_in t)) (i_ptr_start (t_in t) + tlen) →
    remain_to t n n (set_in (set_http_state t st) i)
| rt_room n st :
    decides (pending (t_in t)) (i_bufsz (t_in t)) 0 → i_ptr (t_in t) < i_bufsz (t_in t) → n = i_bufsz (t_in t) - i_ptr (t_in t) →
    remain_to t n 0 (set_http_state t st)
| rt_restart n st :
    decides (pending (t_in t)) (i_bufsz (t_in t)) 0 → i_ptr (t_in t) = i_bufsz (t_in t) → 0 < n → n = i_ptr_start (t_in t) →
    remain_to t n 0 (set_http_state t st)
| rt_expand n st i b :
    decides (pending (t_in t)) (i_bufsz (t_in t)) 0 → i_ptr_start (t_in t) = 0 → i_ptr (t_in t) = i_bufsz (t_in t) →
    n = o_psize o → i_ptr (t_in t) < n →
    holds i b → pending i = pending (t_in t) → i_ptr_start i = 0 → i_ptr i = i_ptr (t_in t) → i_bufsz i = n →
    i_remain i = i_remain (t_in t) → remain_to t n 0 (set_in (set_http_state t st) i)
| rt_full st :
    decides (pending (t_in t)) (i_bufsz (t_in t)) 0 → i_ptr_start (t_in t) = 0 → i_ptr (t_in t) = i_bufsz (t_in t) →
    remain_to t (-1) 0 (set_http_state t st)
| rt_error tlen st :
    packet_get_length (o_htype o) (pending (t_in t)) (zlen (pending (t_in t))) (o_psize o) (i_bufsz (t_in t))
      (o_delimiter o) (t_http_state t) = Ok (tlen, st) → tlen < 0 →
    remain_to t (-1) 0 (set_http_state t st).

Lemma tcp_remain_ok t b : mid t b → ∃ n len t', tcp_remain t = Ok (n, len, t') ∧ remain_to t n len t'.
Proof.
  intros Hm. destruct (mid_length t b Hm) as [Hlen Hint]. pose proof (mid_tl _ _ Hm) as Htl.
  pose proof Hm as [Eo Hs Hh Hc Ht Hf]. pose proof Hh as [_ _ Hst Hsz].
  unfold tcp_remain. rewrite (the_buf_ok _ _ Hh), bind_Ok, Eo, <- Hlen.
  destruct (packet_get_length_eq (o_htype o) (pending (t_in t)) (zlen (pending (t_in t))) (o_psize o) (i_bufsz (t_in t))
    (o_delimiter o) (t_http_state t)) as (tg & E & _ & _); [done|].
  set (tlen := finish _ tg) in *. set (st := packet_state _ _) in *. rewrite E, bind_Ok.
  assert (decides (pending (t_in t)) (i_bufsz (t_in t)) tlen) as Hd by (by eexists _, _).
  pose proof (fine_bound _ _ _ Hf Hint Htl Hd) as Hb. rewrite Z.gtb_ltb. destruct (Z.ltb_spec 0 tlen).
  - destruct (Z.leb_spec tlen (zlen (pending (t_in t)))); [eexists _, _, _; split; [done|by constructor]|].
    destruct (tcp_expand_buffer_ok (set_http_state t st) b tlen) as (i & b' & -> & Hi & Hp & K1 & K2 & K3 & K4); [done|lia|cbn; lia|].
    rewrite bind_Ok. cbn [Z.ltb Z.compare]. eexists _, _, _. split; [done|]. by eapply rt_exact.
  - destruct (Z.eqb_spec tlen 0) as [E0|]; [|eexists _, _, _; split; [done|]; eapply rt_error; [done|lia]].
    rewrite E0 in Hd. destruct (Z.eqb_spec (i_bufsz (t_in t) - i_ptr (t_in t)) 0) as [Ez|];
      [|eexists _, _, _; split; [done|]; apply rt_room; [done|lia|done]].
    destruct (Z.eqb_spec (i_ptr (t_in t)) (zlen (pending (t_in t)))) as [Ef|];
      [|eexists _, _, _; split; [done|]; apply rt_restart; [done|lia..]].
    rewrite Z.gtb_ltb. destruct (Z.eqb_spec (o_psize o) 0), (Z.ltb_spec (i_ptr (t_in t)) (o_psize o)); cbn [negb andb];
      try (eexists _, _, _; split; [done|]; apply rt_full; [done|lia|lia]).
    destruct (tcp_expand_buffer_ok (set_http_state t st) b (o_psize o)) as (i & b' & -> & Hi & Hp & K1 & K2 & K3 & K4); [done|lia|cbn; lia|].
    rewrite bind_Ok. cbn [Z.ltb Z.compare]. rewrite to_int_small by lia. eexists _, _, _. split; [done|].
    cbn in *. eapply rt_expand; try done; lia.
Qed.

(** ** Delivery of a packet *)

(** The socket after sending [ms] for the packet [p]. *)
Record replied (t t' : tcp) (p : bytes) (ms : list message) : Prop := {
  rp_in : t_in t' = t_in t;
  rp_stk : t_bufstk t' = t_bufstk t;
  rp_sock : t_sock t' = t_sock t;
  rp_opt : t_opt t' = t_opt t;
  rp_out : t_out t' = t_out t ++ [mk_delivery p ms];
  rp_active : t_active t = INET_ACTIVE → t_active t' = INET_ACTIVE }.

Lemma check_active_replied t p ms :
  replied t (add_out t (mk_delivery p ms)) p ms → replied t (check_active_to_passive (add_out t (mk_delivery p ms))) p ms.
Proof.
  intros Hr. unfold check_active_to_passive. destruct (Z.eqb_spec (t_active (add_out t (mk_delivery p ms))) INET_ONCE) as [E|].
  - cbn in E. by split; cbn; [..|rewrite E].
  - destruct (Z.eqb_spec (t_active (add_out t (mk_delivery p ms))) INET_MULTI) as [E|]; [|done]. cbn in E.
    destruct (_ =? 0); by split; cbn; [..|rewrite E].
Qed.

Lemma add_out_replied t p ms : replied t (add_out t (mk_delivery p ms)) p ms.
Proof. by split. Qed.

Lemma replied_http t st t' p ms : replied (set_http_state t st) t' p ms → replied t t' p ms.
Proof. intros [? ? ? ? ? ?]. by split. Qed.

Lemma packet_get_body_ok htype b len :
  good_len htype b len → 0 < len <= zlen b →
  ∃ body n, packet_get_body htype b 0 len = Ok (body, n) ∧ 0 <= body ∧ 0 <= n ∧ body + n <= zlen b.
Proof.
  intros Hg Hl. destruct htype; cbn [packet_get_body good_len] in *;
    try (eexists _, _; split; [done|]; split_and!; lia).
  destruct Hg as (? & pad & Hr & ?). change (0 + 6) with 6. rewrite Hr, bind_Ok. eexists _, _. split; [done|]. lia.
Qed.

Lemma packet_parse_ok out htype b len st :
  good_len htype b len → 0 < len <= zlen b →
  ∃ code st' ms, packet_parse (packet_callbacks out) htype b len st [] = Ok (code, st', ms) ∧ 0 <= code.
Proof.
  intros Hg Hl. destruct htype; cbn [packet_parse good_len] in *; try (by eexists _, _, _);
    try (destruct Hg as [_ Hnl];
      destruct (packet_parse_http_total (packet_callbacks out) b len st [] Hl Hnl) as [[[r st1] ms] ->];
      rewrite bind_Ok; by eexists _, _, _).
  unfold packet_parse_ssl, rd_is.
  destruct (rd_in b 0) as [c0 R0]; [lia|]. destruct (rd_in b 1) as [c1 R1]; [lia|]. destruct (rd_in b 2) as [c2 R2]; [lia|].
  destruct (rd_in b 3) as [c3 R3]; [lia|]. destruct (rd_in b 4) as [c4 R4]; [lia|].
  rewrite R0, bind_Ok. destruct (negb _); rewrite ?R2, ?bind_Ok; [destruct (c2 =? 1)|];
    rewrite ?R1, ?R2, ?R3, ?R4, !bind_Ok; (eexists _, _, _; split; [done|]); cbn; apply send_law.
Qed.

Lemma tcp_reply_ok binary t b len :
  good_len (o_htype (t_opt t)) b len → 0 < len <= zlen b →
  ∃ code shared t' ms, tcp_reply binary t b len = Ok (code, shared, t') ∧ 0 <= code ∧
    replied t t' (take (Z.to_nat len) b) ms.
Proof.
  intros Hg Hl. unfold tcp_reply.
  destruct (packet_get_body_ok _ _ _ Hg Hl) as (body & n & -> & Hb & Hn & Hbn). rewrite bind_Ok.
  assert (rds b body n = Ok (slice b body n)) as Hr by by apply rds_slice. pose proof (send_law (t_out t)) as Hs.
  assert (∀ m, (send_code (t_out t) m <? 0) = false) as Hs0 by (intros m; specialize (Hs m); apply Z.ltb_ge; lia).
  destruct (o_deliver (t_opt t) =? INET_DELIVER_PORT).
  { rewrite Hr, bind_Ok, Hs0. eexists _, _, _, _. split; [done|]. split; [done|]. apply check_active_replied, add_out_replied. }
  destruct (packet_parse_ok (t_out t) _ _ _ (t_http_state t) Hg Hl) as (code & st & ms & -> & Hc). rewrite bind_Ok.
  destruct (Z.eqb_spec code 0).
  - rewrite Hr, bind_Ok, !Hs0. destruct (t_active _ =? INET_PASSIVE); (eexists _, _, _, _; split; [done|]; split; [done|]).
    + eapply replied_http, add_out_replied.
    + eapply replied_http, check_active_replied, add_out_replied.
  - destruct (Z.ltb_spec code 0); [lia|]. eexists _, _, _, _. split; [done|]. split; [lia|].
    eapply replied_http, check_active_replied, add_out_replied.
Qed.

Lemma slice_drop (b : bytes) s n k : 0 <= s → 0 <= k <= n → slice b (s + k) (n - k) = drop (Z.to_nat k) (slice b s n).
Proof.
  intros. unfold slice. rewrite skipn_firstn_comm, drop_drop, Z2Nat.inj_add by lia. f_equal. lia.
Qed.

Lemma pending_front l d x s r :
  zlen d <= zlen l → pending (mk_input x (Some (mk_bin (splice l 0 d) s)) 0 (zlen d) r) = d.
Proof. intros. unfold pending. cbn [i_buf i_ptr i_ptr_start orig_bytes]. rewrite Z.sub_0_r. by apply slice_splice. Qed.

Definition no_input : input := mk_input 0 None 0 0 0.

(** After the delivery of the first [len] bytes: the buffer is gone or has room. *)
Record after_packet (c : Z) (t t' : tcp) (len : Z) : Prop := {
  ap_opt : t_opt t' = o;
  ap_sock : t_sock t' = t_sock t;
  ap_active : t_active t = INET_ACTIVE → t_active t' = INET_ACTIVE;
  ap_out : ∃ ms, t_out t' = t_out t ++ [mk_delivery (take (Z.to_nat len) (pending (t_in t))) ms];
  ap_pending : pending (t_in t') = drop (Z.to_nat len) (pending (t_in t));
  ap_in : (t_in t' = no_input ∧ stk_ok (t_bufstk t')) ∨
    ∃ b, mid_at c t' b ∧ i_remain (t_in t') = 0 ∧ 0 < zlen (pending (t_in t')) < i_bufsz (t_in t') }.

Lemma deliver_one_ok c t b len :
  mid_at c t b → good_len (o_htype o) (pending (t_in t)) len → 0 < len <= zlen (pending (t_in t)) →
  fine (drop (Z.to_nat len) (pending (t_in t))) →
  ∃ code t', deliver_one t len = Ok (code, t') ∧ 0 <= code ∧ after_packet c t t' len.
Proof.
  intros Hm Hg Hl Hfd. pose proof Hm as [Eo Hstk Hh Hc Ht Hf]. pose proof Hh as [Eb Hown Hst Hsz].
  pose proof (holds_length _ _ Hh) as Hlen. unfold deliver_one. cbn [add_eff t_in].
  rewrite (the_buf_ok _ _ Hh), bind_Ok.
  destruct (tcp_reply_ok (to_int (len * 4) >=? orig_size b * 3) (add_eff t (E_input_count len)) (pending (t_in t)) len)
    as (code & shared & t1 & ms & Er & Hcode & [Ri Rs Rk Ro Rout Ra]); [cbn [add_eff t_opt]; by rewrite Eo|done|].
  cbn [add_eff t_in t_bufstk t_sock t_opt t_out t_active] in Ri, Rs, Rk, Ro, Rout, Ra.
  unfold tcp_reply_binary_data, tcp_reply_data.
  assert (slice (orig_bytes b) (i_ptr_start (t_in t) + len) (i_ptr (t_in t) - (i_ptr_start (t_in t) + len)) =
    drop (Z.to_nat len) (pending (t_in t))) as Hdrop.
  { rewrite (holds_pending _ _ Hh), <- slice_drop by lia. f_equal; lia. }
  assert (i_ptr_start (t_in t) + len = i_ptr (t_in t) → drop (Z.to_nat len) (pending (t_in t)) = []) as Hnil.
  { intros. apply drop_ge. unfold zlen in *. lia. }
  destruct (to_int (len * 4) >=? orig_size b * 3); rewrite Er, bind_Ok;
    (rewrite (proj2 (Z.ltb_ge code 0)) by lia); destruct (Z.eqb_spec (i_ptr_start (t_in t) + len) (i_ptr (t_in t))) as [Ee|Ne].
  - eexists _, _. split; [done|]. split; [done|]. unfold tcp_clear_input. cbn.
    split; cbn; [by rewrite Ro|done|done|by eexists|by rewrite Hnil|]. left. split; [done|]. rewrite Rs. by apply free_buffer_ok.
  - unfold alloc_in at 1. destruct (alloc_in_ok (set_in t1 (mk_input (i_bufsz (t_in t)) (Some (mk_bin (orig_bytes b) (b_shared b || shared)))
      (i_ptr_start (t_in t)) (i_ptr (t_in t)) (i_remain (t_in t)))) (i_bufsz (t_in t))) as (bin & bs & Ea & Hbs & Hbo & Hbsz); [cbn; by rewrite Rs|lia|].
    unfold alloc_in in Ea. rewrite Ea. cbn [orig_bytes].
    rewrite rds_slice, bind_Ok, Hdrop by (unfold orig_size in *; lia).
    assert (zlen (drop (Z.to_nat len) (pending (t_in t))) = i_ptr (t_in t) - (i_ptr_start (t_in t) + len)) as Hdl.
    { rewrite <- Hdrop. apply slice_spec; unfold orig_size in *; lia. }
    rewrite bin_write_ok, bind_Ok by (done || lia). eexists _, _. split; [done|]. split; [done|].
    assert (∀ x, pending (mk_input x (Some (mk_bin (splice (orig_bytes bin) 0 (drop (Z.to_nat len) (pending (t_in t)))) false)) 0
      (i_ptr (t_in t) - (i_ptr_start (t_in t) + len)) 0) = drop (Z.to_nat len) (pending (t_in t))) as Hp.
    { intros x. rewrite <- Hdl. apply pending_front. unfold orig_size in *. lia. }
    split; cbn [set_in set_bufstk t_opt t_sock t_active t_out t_in]; [by rewrite Ro|done|done|by eexists|done|]. right.
    eexists (mk_bin _ false). split; [split|].
    + by rewrite <- Eo, <- Ro.
    + cbn. by apply free_buffer_ok.
    + split; cbn; [done|done|lia|]. unfold orig_size in *. cbn. rewrite zlen_splice by lia. lia.
    + done.
    + done.
    + cbn [t_in set_in set_bufstk]. by rewrite Hp.
    + cbn [t_in set_in set_bufstk]. rewrite Hp. cbn. lia.
  - eexists _, _. split; [done|]. split; [done|]. unfold tcp_clear_input. cbn. rewrite Eb. cbn.
    split; cbn; [by rewrite Ro|done|done|by eexists|by rewrite Hnil|]. left. split; [done|]. rewrite Rs. by apply free_buffer_ok.
  - eexists _, _. split; [done|]. split; [done|].
    assert (∀ x r, pending (mk_input x (i_buf (t_in t)) (i_ptr_start (t_in t) + len) (i_ptr (t_in t)) r) = drop (Z.to_nat len) (pending (t_in t))) as Hp.
    { intros x r. rewrite <- Hdrop. unfold pending. cbn. by rewrite Eb. }
    split; [cbn; by rewrite Ro|done|done|by eexists|apply Hp|]. right.
    exists b. split; [split|].
    + by rewrite <- Eo, <- Ro.
    + cbn. by rewrite Rs.
    + split; cbn; [done|done|lia|lia].
    + done.
    + done.
    + unfold set_remain. cbn [t_in set_in i_bufsz i_buf i_ptr_start i_ptr]. by rewrite Hp.
    + split; [done|]. unfold set_remain. cbn [t_in set_in i_bufsz i_buf i_ptr_start i_ptr]. rewrite Hp. unfold zlen in *. rewrite length_drop. lia.
Qed.

(** ** Between packets *)

(** A packet of [len] bytes begins with [b] and has been asked for. *)
Definition awaited (b : bytes) (len : Z) : Prop :=
  o_htype o = TCP_PB_RAW ∨ ∃ b0 tl, b0 `prefix_of` b ∧ zlen b0 <= INT_MAX ∧ good_tl tl ∧ decides b0 tl len.

Lemma decides_awaited b tl len : zlen b <= INT_MAX → good_tl tl → decides b tl len → awaited b len.
Proof. intros. right. by exists b, tl. Qed.

(** The input buffer between calls: the data at its beginning, and room for what is
    awaited. *)
Record ready (t : tcp) (b : ErlDrvBinary) : Prop := {
  r_holds : holds (t_in t) b;
  r_start : i_ptr_start (t_in t) = 0;
  r_cap : i_bufsz (t_in t) <= cap + lim;
  r_raw : o_htype o = TCP_PB_RAW → i_bufsz (t_in t) <= cap;
  r_tl : o_bufsz o <= i_bufsz (t_in t) ∨ o_htype o = TCP_PB_RAW;
  r_room : 0 <= i_remain (t_in t) ∧ i_ptr (t_in t) + i_remain (t_in t) <= i_bufsz (t_in t);
  r_poll : i_remain (t_in t) = 0 → i_ptr (t_in t) < i_bufsz (t_in t) <= cap;
  r_awaited : 0 < i_remain (t_in t) → awaited (pending (t_in t)) (zlen (pending (t_in t)) + i_remain (t_in t));
  r_fine : fine (pending (t_in t)) }.

Record in_ok (t : tcp) : Prop := {
  io_opt : t_opt t = o;
  io_stk : stk_ok (t_bufstk t);
  io_in : t_in t = no_input ∨ ∃ b, ready t b }.

(** A packet error that has not been reported yet: the next call will. *)
Definition broken (t : tcp) : Prop :=
  ∃ b tlen, mid t b ∧ i_remain (t_in t) = 0 ∧ tlen < 0 ∧
    packet_get_length (o_htype o) (pending (t_in t)) (zlen (pending (t_in t))) (o_psize o) (i_bufsz (t_in t))
      (o_delimiter o) (t_http_state t) = Ok (tlen, t_http_state t).

(** When it is not known how many bytes complete the next packet, there is none. *)
Definition settled (b : bytes) (r : Z) : Prop :=
  r = 0 → b = [] ∨ ∃ tl, good_tl tl ∧ decides b tl 0.

Lemma tcp_restart_input_ok t b :
  holds (t_in t) b →
  ∃ i b', tcp_restart_input t = Ok (set_in t i) ∧ holds i b' ∧ pending i = pending (t_in t) ∧ i_ptr_start i = 0 ∧
    i_ptr i = zlen (pending (t_in t)) ∧ i_bufsz i = i_bufsz (t_in t) ∧ i_remain i = i_remain (t_in t).
Proof.
  intros Hh. pose proof (holds_length _ _ Hh) as Hl. pose proof Hh as [Eb Hown Hst Hsz]. unfold tcp_restart_input.
  rewrite (the_buf_ok _ _ Hh), bind_Ok. destruct (Z.eqb_spec (i_ptr_start (t_in t)) 0); cbn [negb].
  { exists (t_in t), b. split; [by destruct t|]. split_and!; [done..|lia|done|done]. }
  rewrite rds_slice, bind_Ok, <- (holds_pending _ _ Hh) by (unfold orig_size in *; lia).
  rewrite bin_write_ok, bind_Ok, <- Hl by (done || lia). eexists _, _. split; [done|].
  split; [split; cbn; [done|done|lia|unfold orig_size in *; cbn; rewrite zlen_splice by lia; lia]|].
  split_and!; [|done..]. apply pending_front. unfold orig_size in *. lia.
Qed.

(** What the end of a round leaves. *)
Inductive next_to (t : tcp) : option Z → Z → tcp → Prop :=
| nt_packet len st :
    decides (pending (t_in t)) (i_bufsz (t_in t)) len → 0 < len <= zlen (pending (t_in t)) →
    next_to t None len (set_http_state t st)
| nt_rest t' :
    in_ok t' → t_out t' = t_out t → t_sock t' = t_sock t → t_active t' = t_active t →
    pending (t_in t') = pending (t_in t) →
    (t_active t' ≠ INET_PASSIVE → settled (pending (t_in t')) (i_remain (t_in t'))) →
    next_to t None 0 t'
| nt_error n st :
    n < 0 → broken (set_http_state t st) → next_to t (Some n) 0 (set_http_state t st).

Lemma pgl_state htype b n mp tl d st r st' :
  packet_get_length htype b n mp tl d st = Ok (r, st') → packet_get_length htype b n mp tl d st' = Ok (r, st').
Proof.
  unfold packet_get_length. intros (tg & E & [= <- <-])%bind_Ok_inv.
  assert (packet_state htype (packet_state htype st) = packet_state htype st) as -> by by destruct htype.
  by rewrite E.
Qed.

Lemma ready_at t i b r :
  holds i b → i_ptr_start i = 0 → i_bufsz i <= cap + lim → (o_htype o = TCP_PB_RAW → i_bufsz i <= cap) →
  o_bufsz o <= i_bufsz i ∨ o_htype o = TCP_PB_RAW → fine (pending i) → 0 <= r → zlen (pending i) + r <= i_bufsz i →
  (r = 0 → zlen (pending i) < i_bufsz i <= cap) → (0 < r → awaited (pending i) (zlen (pending i) + r)) →
  ready (set_in t (set_remain i r)) b.
Proof.
  intros Hi Es Hc Hraw Ht Hf Hr Hroom Hpoll Haw. pose proof (holds_length _ _ Hi). destruct Hi as [? ? ? ?].
  assert (pending (set_remain i r) = pending i) as Ep by done.
  split; cbn [t_in set_in]; rewrite ?Ep; cbn; try done; try lia.
Qed.

(** The data is moved to the beginning of the buffer, and [r] bytes are awaited. *)
Lemma restarted t b r :
  t_opt t = o → stk_ok (t_bufstk t) → holds (t_in t) b → i_bufsz (t_in t) <= cap + lim →
  (o_htype o = TCP_PB_RAW → i_bufsz (t_in t) <= cap) →
  o_bufsz o <= i_bufsz (t_in t) ∨ o_htype o = TCP_PB_RAW → fine (pending (t_in t)) →
  0 <= r → zlen (pending (t_in t)) + r <= i_bufsz (t_in t) →
  (r = 0 → zlen (pending (t_in t)) < i_bufsz (t_in t) <= cap) →
  (0 < r → awaited (pending (t_in t)) (zlen (pending (t_in t)) + r)) →
  ∃ i, tcp_restart_input t = Ok (set_in t i) ∧ pending i = pending (t_in t) ∧ i_remain i = i_remain (t_in t) ∧
    in_ok (set_in t (set_remain i r)).
Proof.
  intros Eo Es Hh Hc Hraw Ht Hf Hr Hroom Hpoll Haw.
  destruct (tcp_restart_input_ok t b Hh) as (i & b' & E & Hi & Pi & Si & Ti & Bi & Ri).
  exists i. split_and!; [done|done|done|]. split; cbn; [done|done|]. right. exists b'.
  rewrite <- Pi in *. rewrite <- Bi in *. by apply ready_at.
Qed.

Lemma set_remain_id i r : i_remain i = r → set_remain i r = i.
Proof. intros <-. by destruct i. Qed.

Lemma set_in_in t i j : set_in (set_in t i) j = set_in t j. Proof. done. Qed.

(** It is not known yet how long the next packet is. *)
Lemma next_rest t b st :
  mid t b → i_remain (t_in t) = 0 → zlen (pending (t_in t)) < i_bufsz (t_in t) →
  decides (pending (t_in t)) (i_bufsz (t_in t)) 0 →
  ∃ t', (t ← tcp_restart_input (set_http_state t st); Ok (None, 0, t)) = Ok (None (A := Z), 0, t') ∧ next_to t None 0 t'.
Proof.
  intros Hm Hrem Hlt Hd. pose proof Hm as [Eo Hstk Hh Hc Ht Hf]. pose proof (zlen_nonneg (pending (t_in t))).
  destruct (restarted (set_http_state t st) b 0) as (j & E & Pj & Rj & Hok); try done; cbn [t_in set_http_state]; try lia.
  rewrite E, bind_Ok. eexists _. split; [done|]. cbn [t_in set_http_state] in Pj, Rj.
  rewrite set_remain_id in Hok by congruence. apply nt_rest; [done|done|done|done|exact Pj|]. intros _ _. right.
  exists (i_bufsz (t_in t)). split; [by eapply mid_tl|]. change (pending (t_in _)) with (pending j). by rewrite Pj.
Qed.

Lemma deliver_next_ok t b :
  mid t b → i_remain (t_in t) = 0 → zlen (pending (t_in t)) < i_bufsz (t_in t) →
  ∃ r len t', deliver_next t = Ok (r, len, t') ∧ next_to t r len t'.
Proof.
  intros Hm Hrem Hlt. pose proof Hm as [Eo Hstk Hh Hc Ht Hf]. pose proof (h_buf _ _ Hh) as Eb.
  pose proof (mid_tl _ _ Hm) as Htl. unfold deliver_next. pose proof (zlen_nonneg (pending (t_in t))).
  destruct (Z.eqb_spec (t_active t) INET_PASSIVE) as [Ep|Np].
  - set (t1 := add_eff (if negb (t_busy_on_send t) then add_eff t E_cancel_timer else t) (E_select_read false)).
    assert (t_in t1 = t_in t ∧ t_opt t1 = o ∧ t_bufstk t1 = t_bufstk t ∧ t_active t1 = t_active t ∧ t_out t1 = t_out t ∧ t_sock t1 = t_sock t)
      as (Fi & Fo & Fs & Fa & Fu & Fk) by (subst t1; destruct (t_busy_on_send t); done).
    rewrite Fi, Eb. destruct (restarted t1 b 0) as (i & E & Pi & Ri & Hok); rewrite ?Fi, ?Fs; try done; try lia.
    rewrite E, bind_Ok. eexists _, _, _. split; [done|]. rewrite Fi in *. rewrite set_remain_id in Hok by congruence.
    apply nt_rest; [done|done|done|done|done|]. intros Hp. destruct Hp. exact (eq_trans Fa Ep).
  - rewrite Eb. destruct (tcp_remain_ok t b Hm) as (n & len & t' & -> & Hr). rewrite bind_Ok.
    destruct Hr as [tlen st Hd Hl|tlen st i b' n Hd Hl -> Hi Pi Si Ti Bi|n st Hd Hl ->|n st Hd Hl Hn ->|n st i b' Hd Hs Hl|st Hd Hs Hl|tlen st Hd Hl].
    + cbn [Z.eqb negb]. eexists _, _, _. split; [done|]. by apply nt_packet.
    + set (n := tlen - zlen (pending (t_in t))) in *. destruct (Z.eqb_spec n 0), (Z.ltb_spec n 0); try lia. cbn [negb].
      pose proof (fine_bound _ _ _ Hf (proj2 (mid_length _ _ Hm)) Htl Hd). pose proof Hh as [_ _ ? ?]. pose proof (holds_length _ _ Hh).
      destruct (restarted (set_in (set_http_state t st) i) b' n) as (j & E & Pj & Rj & Hok); cbn [t_in set_in]; rewrite ?Pi; try done; try lia.
      { intros Er. apply (decides_raw _ _ _ Er) in Hd; [lia|]. by destruct (mid_length _ _ Hm). }
      { destruct Ht; [left; lia|by right]. }
      { intros _. replace (zlen _ + n) with tlen by lia. eapply decides_awaited; [by destruct (mid_length _ _ Hm)|done|done]. }
      rewrite E, bind_Ok, Z.gtb_ltb. destruct (Z.ltb_spec 0 n); [|lia]. eexists _, _, _. split; [done|].
      cbn [t_in set_in] in Pj. rewrite Pi in Pj. apply nt_rest; [done|done|done|done|exact Pj|].
      intros _ Hz. cbn in Hz. lia.
    + destruct (Z.eqb_spec (i_bufsz (t_in t) - i_ptr (t_in t)) 0), (Z.ltb_spec (i_bufsz (t_in t) - i_ptr (t_in t)) 0); try lia. cbn [negb].
      destruct (next_rest t b st Hm Hrem Hlt Hd) as (t' & E & Hn). by exists None, 0, t'.
    + destruct (Z.eqb_spec (i_ptr_start (t_in t)) 0), (Z.ltb_spec (i_ptr_start (t_in t)) 0); try lia. cbn [negb].
      destruct (next_rest t b st Hm Hrem Hlt Hd) as (t' & E & Hn'). by exists None, 0, t'.
    + pose proof (holds_length _ _ Hh). lia.
    + pose proof (holds_length _ _ Hh). lia.
    + cbn [Z.eqb Z.ltb Z.compare negb]. eexists _, _, _. split; [done|]. apply nt_error; [done|]. exists b, tlen.
      split; [by split|]. split; [done|]. split; [done|]. cbn. by eapply pgl_state.
Qed.

(** The packets [ps] are taken off [b], which leaves [r]. *)
Inductive cut : bytes → list bytes → bytes → Prop :=
| cut_nil b : cut b [] b
| cut_cons b len ps r :
    awaited b len → 0 < len <= zlen b → cut (drop (Z.to_nat len) b) ps r →
    cut b (take (Z.to_nat len) b :: ps) r.

Lemma cut_concat b ps r : cut b ps r → b = concat ps ++ r.
Proof. induction 1 as [|b len ps r _ _ _ IH]; [done|]. cbn. rewrite <- app_assoc, <- IH. by rewrite take_drop. Qed.

Definition packets (t : tcp) : list bytes := map dv_packet (t_out t).

(** A call of [tcp_deliver] returned [c]: all is well, or a packet error is pending. *)
Record delivered (t t' : tcp) (c : Z) (ps : list bytes) : Prop := {
  d_sock : t_sock t' = t_sock t;
  d_active : t_active t = INET_ACTIVE → t_active t' = INET_ACTIVE;
  d_out : packets t' = packets t ++ ps;
  d_in : (0 <= c ∧ in_ok t' ∧ (t_active t' ≠ INET_PASSIVE → settled (pending (t_in t')) (i_remain (t_in t')))) ∨
    (c < 0 ∧ broken t') }.

Lemma deliver_loop_0 fuel t count : deliver_loop fuel t 0 count = Ok (count, t).
Proof. by destruct fuel. Qed.

Lemma after_nothing k t t1 len count fuel :
  after_packet k t t1 len → t_in t1 = no_input → stk_ok (t_bufstk t1) → 0 <= count →
  ∃ c t', ('(r, len, t) ← deliver_next t1; match r with Some n => Ok (n, t) | None => deliver_loop fuel t len count end) = Ok (c, t') ∧
    t_in t' = no_input ∧ delivered t t' c [take (Z.to_nat len) (pending (t_in t))].
Proof.
  intros [Fo Fk Fa (ms & Fu) Fp _] Ei Hs Hc. unfold deliver_next. rewrite Ei. cbn [i_buf no_input].
  assert (∀ t', t_in t' = no_input → t_opt t' = t_opt t1 → t_sock t' = t_sock t1 → t_active t' = t_active t1 → t_out t' = t_out t1 → t_bufstk t' = t_bufstk t1 →
    delivered t t' count [take (Z.to_nat len) (pending (t_in t))]) as Hd.
  { intros t' Gi Go Gk Ga Gu Gs. split; [by rewrite Gk|intros; rewrite Ga; auto|unfold packets; rewrite Gu, Fu; by rewrite map_app|].
    left. split; [done|]. split; [split; [by rewrite Go|by rewrite Gs|by left]|]. intros _ _. left. by rewrite Gi. }
  destruct (t_active t1 =? INET_PASSIVE).
  - set (t2 := add_eff (if negb (t_busy_on_send t1) then add_eff t1 E_cancel_timer else t1) (E_select_read false)).
    assert (t_in t2 = no_input ∧ t_opt t2 = t_opt t1 ∧ t_sock t2 = t_sock t1 ∧ t_active t2 = t_active t1 ∧ t_out t2 = t_out t1 ∧ t_bufstk t2 = t_bufstk t1)
      as (Gi & Go & Gk & Ga & Gu & Gs) by (subst t2; destruct (t_busy_on_send t1); done).
    rewrite Gi. cbn [i_buf no_input]. rewrite bind_Ok, deliver_loop_0. exists count, t2. split; [done|]. split; [done|]. by apply Hd.
  - rewrite bind_Ok, deliver_loop_0. exists count, t1. split; [done|]. split; [done|]. by apply Hd.
Qed.

Lemma deliver_loop_ok fuel t b len count :
  mid t b → good_len (o_htype o) (pending (t_in t)) len → 0 < len <= zlen (pending (t_in t)) →
  fine (drop (Z.to_nat len) (pending (t_in t))) → (length (pending (t_in t)) <= fuel)%nat → 0 <= count →
  ∃ c t' ps, deliver_loop fuel t len count = Ok (c, t') ∧ delivered t t' c (take (Z.to_nat len) (pending (t_in t)) :: ps) ∧
    cut (drop (Z.to_nat len) (pending (t_in t))) ps (pending (t_in t')).
Proof.
  revert t b len count. induction fuel as [|fuel IH]; intros t b len count Hm Hg Hl Hf Hfuel Hc; [unfold zlen in *; lia|].
  cbn [deliver_loop]. rewrite Z.gtb_ltb, (proj2 (Z.ltb_lt 0 len)) by lia.
  destruct (deliver_one_ok cap t b len Hm Hg Hl Hf) as (code & t1 & -> & Hcode & Ha). rewrite bind_Ok.
  rewrite (proj2 (Z.ltb_ge code 0)) by lia. pose proof Ha as [Fo Fk Fa (ms & Fu) Fp [[Ei Hs]|(b1 & Hm1 & Hr1 & _ & Hlt)]].
  { destruct (after_nothing cap t t1 len (count + 1) fuel Ha Ei Hs ltac:(lia)) as (c & t' & E & Ei' & Hd).
    exists c, t', []. split; [exact E|]. split; [done|]. rewrite Ei'. rewrite <- Fp, Ei. constructor. }
  destruct (deliver_next_ok t1 b1 Hm1 Hr1 Hlt) as (r & len' & t2 & -> & Hn). rewrite bind_Ok.
  destruct Hn as [len' st Hd Hl'|t2 Hok Gu Gk Ga Gp Hset|n st Hn Hbr].
  - pose proof (mid_tl _ _ Hm1) as Htl. pose proof Hm1 as [Eo1 Hs1 Hh1 Hc1 Ht1 Hf1].
    destruct (mid_length _ _ Hm1) as [_ Hint].
    destruct (IH (set_http_state t1 st) b1 len' (count + 1)) as (c & t' & ps & E & [Dk Da Du Di] & Hcut).
    + by split.
    + destruct Hd as (s1 & s2 & Hd). eapply decided_good; [done| |done|by apply fine_byte]. lia.
    + done.
    + by eapply fine_drop.
    + cbn. rewrite Fp, length_drop. unfold zlen in *. lia.
    + lia.
    + exists c, t'. eexists. split; [exact E|]. split; [|rewrite <- Fp; econstructor; [by eapply decides_awaited; [lia|..]|done|exact Hcut]].
      split; [by rewrite Dk|intros; by apply Da, Fa| |done]. rewrite Du. unfold packets. cbn. rewrite Fu, map_app. cbn.
      rewrite <- app_assoc. done.
  - rewrite deliver_loop_0. exists (count + 1), t2, []. split; [done|]. split; [|rewrite Gp, Fp; constructor].
    split; [by rewrite Gk|intros; rewrite Ga; auto|unfold packets; rewrite Gu, Fu; by rewrite map_app|]. left. split; [lia|done].
  - eexists _, _, []. split; [done|]. split; [|cbn; rewrite Fp; constructor].
    split; [done|done|unfold packets; cbn; rewrite Fu; by rewrite map_app|]. by right.
Qed.

Lemma tcp_deliver_ok t b len :
  mid t b → awaited (pending (t_in t)) len → good_len (o_htype o) (pending (t_in t)) len → 0 < len <= zlen (pending (t_in t)) →
  fine (drop (Z.to_nat len) (pending (t_in t))) →
  ∃ c t' ps, tcp_deliver t len = Ok (c, t') ∧ ps ≠ [] ∧ delivered t t' c ps ∧ cut (pending (t_in t)) ps (pending (t_in t')).
Proof.
  intros Hm Haw Hg Hl Hf. unfold tcp_deliver. rewrite (proj2 (Z.eqb_neq len 0)) by lia.
  destruct (deliver_loop_ok (deliver_fuel t) t b len 0 Hm Hg Hl Hf) as (c & t' & ps & -> & Hd & Hcut); [unfold deliver_fuel; lia|done|].
  eexists c, t', _. split; [done|]. split; [|split; [exact Hd|by apply cut_cons]]. done.
Qed.

Lemma decides_good t b len :
  mid t b → decides (pending (t_in t)) (i_bufsz (t_in t)) len → 0 < len → good_len (o_htype o) (pending (t_in t)) len.
Proof.
  intros Hm (st & st' & Hd) Hl. destruct (mid_length _ _ Hm) as [_ Hi]. eapply decided_good; [exact Hi|done|exact Hd|].
  apply fine_byte. by apply (m_fine _ _ _ Hm).
Qed.

(** The packets that [tcp_remain] has found are delivered. *)
Lemma deliver_found t b len st :
  mid t b → decides (pending (t_in t)) (i_bufsz (t_in t)) len → 0 < len <= zlen (pending (t_in t)) →
  ∃ c t' ps, tcp_deliver (set_http_state t st) len = Ok (c, t') ∧ ps ≠ [] ∧ delivered t t' c ps ∧
    cut (pending (t_in t)) ps (pending (t_in t')).
Proof.
  intros Hm Hd Hl. pose proof (mid_tl _ _ Hm) as Htl. pose proof Hm as [Eo Hs Hh Hc Ht Hf].
  destruct (tcp_deliver_ok (set_http_state t st) b len) as (c & t' & ps & E & Hne & [? ? ? ?] & Hcut); cbn [t_in set_http_state].
  - by split.
  - eapply decides_awaited; [by destruct (mid_length _ _ Hm)|done|done].
  - eapply decides_good; [done|done|lia].
  - done.
  - eapply fine_drop; [done|by destruct (mid_length _ _ Hm)|done..].
  - exists c, t', ps. split; [done|]. split; [done|]. by split; [split|].
Qed.

(** A packet that was awaited is complete. *)
Lemma deliver_whole t b :
  mid_at (cap + lim) t b → awaited (pending (t_in t)) (zlen (pending (t_in t))) → 0 < zlen (pending (t_in t)) →
  ∃ c t', tcp_deliver t (zlen (pending (t_in t))) = Ok (c, t') ∧ delivered t t' c [pending (t_in t)] ∧
    cut (pending (t_in t)) [pending (t_in t)] (pending (t_in t')).
Proof.
  intros Hm Haw Hl. pose proof Hm as [Eo Hs Hh Hc Ht Hf]. set (p := pending (t_in t)) in *.
  assert (take (Z.to_nat (zlen p)) p = p) as Et by (unfold zlen; rewrite Nat2Z.id; by apply take_ge).
  assert (drop (Z.to_nat (zlen p)) p = []) as Ed by (unfold zlen; rewrite Nat2Z.id; by apply drop_ge).
  assert (good_len (o_htype o) p (zlen p)) as Hg.
  { destruct Haw as [->|(b0 & tl & [e Ee] & Hi & Htl & st & st' & Hd)]; [done|]. rewrite Ee at 1. apply good_len_app.
    eapply decided_good; [exact Hi|done|exact Hd|].
    apply fine_byte in Hf. fold p in Hf. rewrite Ee in Hf. by apply Forall_app in Hf as [? _]. }
  unfold tcp_deliver. rewrite (proj2 (Z.eqb_neq (zlen p) 0)) by lia. unfold deliver_fuel. cbn [deliver_loop].
  rewrite Z.gtb_ltb, (proj2 (Z.ltb_lt 0 (zlen p))) by lia.
  destruct (deliver_one_ok (cap + lim) t b (zlen p) Hm Hg) as (code & t1 & -> & Hcode & Ha); [fold p; lia|fold p; rewrite Ed; apply fine_nil|].
  rewrite bind_Ok, (proj2 (Z.ltb_ge code 0)) by lia. pose proof Ha as [_ _ _ _ Fp [[Ei Hs1]|(b1 & _ & _ & Hlt & _)]].
  2: { fold p in Fp. by rewrite Fp, Ed in Hlt. }
  destruct (after_nothing _ t t1 (zlen p) (0 + 1) (length p) Ha Ei Hs1 ltac:(lia)) as (c & t' & E & Ei' & Hd).
  fold p in Hd. rewrite Et in Hd. exists c, t'. split; [exact E|]. split; [done|]. rewrite Ei'.
  rewrite <- Et at 2. apply cut_cons; [done|lia|]. rewrite Ed. constructor.
Qed.

(** ** Errors *)

(** The input is gone. *)
Record shut (t t' : tcp) : Prop := {
  sh_opt : t_opt t' = t_opt t;
  sh_sock : t_sock t' = t_sock t;
  sh_out : t_out t' = t_out t;
  sh_stk : stk_ok (t_bufstk t) → stk_ok (t_bufstk t');
  sh_in : t_in t' = no_input }.

Lemma clear_input_shut t : shut t (tcp_clear_input t).
Proof. unfold tcp_clear_input. destruct (i_buf (t_in t)); split; try done; cbn; auto using free_buffer_ok. Qed.

Lemma shut_abort t t' : shut (abort_send t) t' → shut t t'.
Proof. unfold abort_send. cbn. destruct (t_busy t), (t_busy_on_send t); intros [? ? ? ? ?]; by split. Qed.

Lemma shut_eff t t' e : shut (add_eff t e) t' → shut t t'. Proof. intros [? ? ? ? ?]; by split. Qed.
Lemma eff_shut t t' e : shut t t' → shut t (add_eff t' e). Proof. intros [? ? ? ? ?]; by split. Qed.
#[local] Create HintDb shut.
#[local] Hint Resolve clear_input_shut shut_eff eff_shut : shut.

Lemma tcp_recv_closed_ok t : ∃ t', tcp_recv_closed t = (-1, t') ∧ shut t t'.
Proof.
  unfold tcp_recv_closed. destruct (_ =? _), (o_exitf _); (eexists; split; [done|]); apply shut_abort; cbn [add_effs foldl]; eauto 6 with shut.
Qed.

Lemma tcp_recv_error_ok t err : err ≠ ERRNO_BLOCK → ∃ t', tcp_recv_error t err = (-1, t') ∧ shut t t'.
Proof.
  intros Hne. unfold tcp_recv_error. rewrite bool_decide_false by done. cbn [negb].
  destruct (_ =? _), (o_exitf _); (eexists; split; [done|]); apply shut_abort; cbn [add_effs foldl]; eauto 6 with shut.
Qed.

(** ** Receiving *)

(** [l] is read from the socket. *)
Inductive consume : list sock_event → bytes → list sock_event → Prop :=
| cs_none s : consume s [] s
| cs_block s : consume (Sock_error ERRNO_BLOCK :: s) [] s
| cs_all l s : consume (Segment l :: s) l s
| cs_part l l' s : l' ≠ [] → consume (Segment (l ++ l') :: s) l (Segment l' :: s).

(** There is nothing to read yet. *)
Definition idle (s : list sock_event) : Prop :=
  match s with [] | Sock_error ERRNO_BLOCK :: _ => True | _ => False end.

(** The connection has failed or is closed. *)
Inductive lost : list sock_event → list sock_event → Prop :=
| lost_eof s : lost (Sock_eof :: s) (Sock_eof :: s)
| lost_end s : lost (Segment [] :: s) s
| lost_error err s : err ≠ ERRNO_BLOCK → lost (Sock_error err :: s) s.

(** No packet can come of [b]: its beginning is wrong, or the buffer is full. *)
Definition undeliverable (b : bytes) : Prop :=
  ∃ tl tlen, zlen b <= INT_MAX ∧ good_tl tl ∧ decides b tl tlen ∧ (tlen < 0 ∨ tlen = 0 ∧ zlen b = tl).

(** A call that read [l] and delivered [ps] has returned [c]. *)
Inductive outcome (t : tcp) (l : bytes) (ps : list bytes) : Z → tcp → Prop :=
| oc_open c t' :
    consume (t_sock t) l (t_sock t') → packets t' = packets t ++ ps →
    (t_active t = INET_ACTIVE → t_active t' = INET_ACTIVE) →
    cut (pending (t_in t) ++ l) ps (pending (t_in t')) → ps ≠ [] ∨ l ≠ [] ∨ idle (t_sock t) →
    (0 <= c ∧ in_ok t' ∧ (t_active t' ≠ INET_PASSIVE → settled (pending (t_in t')) (i_remain (t_in t')))) ∨ (c < 0 ∧ broken t') →
    outcome t l ps c t'
| oc_closed t' :
    ps = [] → shut t (set_sock t' (t_sock t)) → stk_ok (t_bufstk t') →
    (consume (t_sock t) l (t_sock t') ∧ undeliverable (pending (t_in t) ++ l)) ∨ lost (t_sock t) (t_sock t') →
    outcome t l ps (-1) t'.

Lemma delivered_outcome t t' c ps :
  delivered t t' c ps → cut (pending (t_in t)) ps (pending (t_in t')) → ps ≠ [] → outcome t [] ps c t'.
Proof.
  intros [Hk Ha Ho Hi] Hcut Hne. apply oc_open; [rewrite Hk; constructor|done|done|by rewrite app_nil_r|by left|done].
Qed.

(** The number of bytes that may be read into the buffer. *)
Definition wanted (i : input) (n : Z) : Prop :=
  if i_remain i =? 0 then 0 < n <= i_bufsz i - i_ptr i else n = i_remain i.

(** What [tcp_remain] and the note of the awaited bytes lead to. *)
Inductive probed (t : tcp) : Z → Z → tcp → Prop :=
| pb_packet len st :
    decides (pending (t_in t)) (i_bufsz (t_in t)) len → 0 < len <= zlen (pending (t_in t)) → probed t 0 len (set_http_state t st)
| pb_error st :
    undeliverable (pending (t_in t)) → (i_ptr (t_in t) < i_bufsz (t_in t) → broken (set_http_state t st)) →
    probed t (-1) 0 (set_http_state t st)
| pb_read n len t1 st i b :
    0 < n → (if len >? 0 then set_in t1 (set_remain (t_in t1) len) else t1) = set_in (set_http_state t st) i →
    pending i = pending (t_in t) → ready (set_in (set_http_state t st) i) b → settled (pending i) (i_remain i) →
    (i_ptr (t_in t) < i_bufsz (t_in t) → wanted i n) → probed t n len t1.

Lemma probe_ok t b :
  mid t b → i_remain (t_in t) = 0 → i_ptr_start (t_in t) = 0 → 0 < i_bufsz (t_in t) →
  ∃ n len t1, tcp_remain t = Ok (n, len, t1) ∧ probed t n len t1.
Proof.
  intros Hm Hrem Hst Hpos. pose proof (mid_tl _ _ Hm) as Htl. pose proof Hm as [Eo Hs Hh Hc Ht Hf].
  destruct (tcp_remain_ok t b Hm) as (n & len & t1 & -> & Hr). exists n, len, t1. split; [done|].
  pose proof (holds_length _ _ Hh) as Hpl. pose proof (h_size _ _ Hh). pose proof (zlen_nonneg (pending (t_in t))).
  destruct Hr as [tlen st Hd Hl|tlen st i b' n Hd Hl -> Hi Pi Si Ti Bi|n st Hd Hl ->|n st Hd Hl Hn ->|n st i b' Hd Hs0 Hl -> Hlt Hi Pi Si Ti Bi Ri|st Hd Hs0 Hl|tlen st Hd Hl].
  - by apply pb_packet.
  - set (n := tlen - zlen (pending (t_in t))) in *. pose proof (fine_bound _ _ _ Hf (proj2 (mid_length _ _ Hm)) Htl Hd).
    eapply (pb_read t n n _ st (set_remain i n) b'); [lia| |done| |intros Hz; cbn in Hz; lia|].
    + rewrite Z.gtb_ltb. destruct (Z.ltb_spec 0 n); [done|lia].
    + apply ready_at; rewrite ?Pi; try done; try lia.
      * intros Er. apply (decides_raw _ _ _ Er) in Hd; [lia|]. by destruct (mid_length _ _ Hm).
      * destruct Ht; [left; lia|by right].
      * intros _. replace (zlen _ + n) with tlen by lia. eapply decides_awaited; [by destruct (mid_length _ _ Hm)|done|done].
    + intros _. unfold wanted. cbn. by destruct (Z.eqb_spec n 0); [lia|].
  - eapply (pb_read t _ 0 _ st (t_in t) b); [lia|done|done| | |intros _; unfold wanted; rewrite Hrem; cbn; lia].
    + rewrite <- (set_remain_id (t_in t) 0) by done. apply ready_at; try done; lia.
    + intros _. right. by eexists.
  - lia.
  - pose proof (h_start _ _ Hh).
    eapply (pb_read t _ 0 _ st i b'); [lia|done|done| |intros _; right; rewrite Pi; by eexists|lia].
    rewrite <- (set_remain_id i 0) by congruence. apply ready_at; rewrite ?Pi; try done; try lia. left. destruct Ht; [lia|].
    exfalso. apply decides_raw in Hd; [|done|]; [|by destruct (mid_length _ _ Hm)]. pose proof (h_start _ _ Hi). lia.
  - apply pb_error; [|lia]. exists (i_bufsz (t_in t)), 0. split_and!; [by destruct (mid_length _ _ Hm)|done|done|]. right. lia.
  - apply pb_error; [exists (i_bufsz (t_in t)), tlen; split_and!; [by destruct (mid_length _ _ Hm)|done|by eexists _, _|by left]|]. intros _.
    exists b, tlen. split; [by split|]. split; [done|]. split; [done|]. cbn. by eapply pgl_state.
Qed.

(** What a poll leads to. *)
Inductive polled_to (t : tcp) (k : Z → tcp → res (Z * tcp)) : res (Z * tcp) → Prop :=
| pt_packets c t' ps :
    ps ≠ [] → delivered t t' c ps → cut (pending (t_in t)) ps (pending (t_in t')) → polled_to t k (Ok (c, t'))
| pt_error t' : shut t t' → undeliverable (pending (t_in t)) → polled_to t k (Ok (-1, t'))
| pt_read n st i b :
    pending i = pending (t_in t) → ready (set_in (set_http_state t st) i) b → settled (pending i) (i_remain i) →
    (i_ptr (t_in t) < i_bufsz (t_in t) → wanted i n) → polled_to t k (k n (set_in (set_http_state t st) i)).

Lemma shut_http t st t' : shut (set_http_state t st) t' → shut t t'. Proof. intros [? ? ? ? ?]; by split. Qed.

Lemma polled_ok t b k :
  mid t b → i_remain (t_in t) = 0 → i_ptr_start (t_in t) = 0 → 0 < i_bufsz (t_in t) → polled_to t k (polled t k).
Proof.
  intros Hm Hrem Hst Hpos. unfold polled. destruct (probe_ok t b Hm Hrem Hst Hpos) as (n & len & t1 & -> & Hp). rewrite bind_Ok.
  destruct Hp as [len st Hd Hl|st Hun _|n len t1 st i b1 Hn E Pi Hr Hs Hw].
  - destruct (deliver_found t b len st Hm Hd Hl) as (c & t' & ps & E & Hne & Hdl & Hcut). cbn [Z.ltb Z.eqb Z.compare]. rewrite E.
    by eapply pt_packets.
  - cbn [Z.ltb Z.compare]. destruct (tcp_recv_error_ok (set_http_state t st) EMSGSIZE) as (t1 & -> & Hsh); [done|].
    apply pt_error; [by eapply shut_http|done].
  - rewrite (proj2 (Z.ltb_ge n 0)), (proj2 (Z.eqb_neq n 0)), E by lia. by eapply pt_read.
Qed.

(** Between two calls. *)
Definition valid (t : tcp) : Prop := in_ok t ∨ broken t.

(** Packets were delivered, and nothing was read. *)
Definition quiet (t t' : tcp) : Prop :=
  ∃ ps, t_sock t' = t_sock t ∧ packets t' = packets t ++ ps ∧ cut (pending (t_in t)) ps (pending (t_in t')) ∧ valid t'.

Lemma quiet_same t t' :
  t_sock t' = t_sock t → t_out t' = t_out t → pending (t_in t') = pending (t_in t) → valid t' → quiet t t'.
Proof. intros Ek Eu Ep Hv. exists []. unfold packets. rewrite Eu, app_nil_r, Ep. split_and!; [done|done|constructor|done]. Qed.

(** Delivery of what is there, outside a read. *)
Lemma tcp_deliver_0_ok t : valid t → ∃ c t', tcp_deliver t 0 = Ok (c, t') ∧ quiet t t'.
Proof.
  intros Hv. pose proof Hv as Hv0. unfold tcp_deliver. cbn [Z.eqb].
  destruct Hv as [Hok|Hbr].
  - pose proof Hok as [Eo Hs [Ei|(b & Hr)]]; [rewrite Ei; eexists _, _; split; [done|]; by apply quiet_same|].
    pose proof Hr as [Hh Hst Hc Hraw Ht Hroom Hpoll Haw Hf]. rewrite (h_buf _ _ Hh), Z.gtb_ltb.
    destruct (Z.ltb_spec 0 (i_remain (t_in t))); [eexists _, _; split; [done|]; by apply quiet_same|]. assert (i_remain (t_in t) = 0) as Hrem by lia. specialize (Hpoll Hrem).
    pose proof (h_start _ _ Hh). assert (mid t b) as Hm by (split; [done|done|done|lia|done|done]).
    destruct (probe_ok t b Hm Hrem Hst ltac:(lia)) as (n & len & t1 & -> & Hp). rewrite bind_Ok.
    destruct Hp as [len st Hd Hl|st Hun Hbr|n len t1 st i b1 Hn E Pi Hr1 Hs1 Hw].
    + destruct (deliver_found t b len st Hm Hd Hl) as (c & t' & ps & E & Hne & [Dk Da Du Di] & Hcut). cbn [Z.ltb Z.eqb Z.compare negb].
      unfold tcp_deliver in E. rewrite (proj2 (Z.eqb_neq len 0)) in E by lia. exists c, t'. split; [done|].
      exists ps. split_and!; [done..|]. destruct Di as [(_ & ? & _)|[_ ?]]; [by left|by right].
    + cbn [Z.eqb negb Z.ltb Z.compare]. eexists _, _. split; [done|]. apply quiet_same; [done..|]. right. apply Hbr. lia.
    + rewrite (proj2 (Z.ltb_ge n 0)), (proj2 (Z.eqb_neq n 0)), E by lia. cbn [negb]. eexists _, _. split; [done|]. apply quiet_same; [done|done|exact Pi|].
      left. split; [done|done|]. right. by exists b1.
  - pose proof Hbr as (b & tlen & Hm & Hr & Hneg & E). pose proof (m_holds _ _ _ Hm) as Hh. rewrite (h_buf _ _ Hh), Hr. cbn [Z.gtb Z.compare].
    unfold tcp_remain. rewrite (the_buf_ok _ _ Hh), bind_Ok, (m_opt _ _ _ Hm), <- (holds_length _ _ Hh), E, bind_Ok.
    rewrite Z.gtb_ltb, (proj2 (Z.ltb_ge 0 tlen)) by lia. rewrite (proj2 (Z.eqb_neq tlen 0)), bind_Ok by lia. cbn [Z.eqb Z.ltb Z.compare negb].
    eexists _, _. split; [done|]. apply quiet_same; [done..|]. right. by destruct t.
Qed.

Lemma fill_ok i b l :
  holds i b → i_ptr i + zlen l <= i_bufsz i →
  ∃ b', bin_write b (i_ptr i) l = Ok b' ∧
    ∀ r, holds (mk_input (i_bufsz i) (Some b') (i_ptr_start i) (i_ptr i + zlen l) r) b' ∧
      pending (mk_input (i_bufsz i) (Some b') (i_ptr_start i) (i_ptr i + zlen l) r) = pending i ++ l.
Proof.
  intros Hh Hl. pose proof (zlen_nonneg l). rewrite (holds_pending _ _ Hh). pose proof Hh as [_ Hown Hst Hsz].
  rewrite bin_write_ok by (done || lia). eexists. split; [done|]. intros r. unfold orig_size in *.
  split; [split; cbn; [done|done|lia|unfold orig_size; cbn; rewrite zlen_splice; lia]|].
  unfold pending. cbn [i_buf i_ptr i_ptr_start orig_bytes].
  replace (i_ptr i + zlen l - i_ptr_start i) with ((i_ptr i - i_ptr_start i) + zlen l) by lia.
  rewrite slice_split by lia. replace (i_ptr_start i + (i_ptr i - i_ptr_start i)) with (i_ptr i) by lia.
  rewrite slice_splice, slice_splice_before by lia. done.
Qed.

(** The segment that is read next. *)
Definition next_bytes (s : list sock_event) : bytes := match s with Segment l :: _ => l | _ => [] end.

Inductive read_to (s : list sock_event) (n : Z) : recv_result * list sock_event → Prop :=
| rd_bytes l s' : l ≠ [] → zlen l <= n → l `prefix_of` next_bytes s → consume s l s' → read_to s n (R_data l, s')
| rd_end s' : lost s s' → read_to s n (R_data [], s')
| rd_block s' : idle s → consume s [] s' → read_to s n (R_error ERRNO_BLOCK, s')
| rd_error err s' : err ≠ ERRNO_BLOCK → lost s s' → read_to s n (R_error err, s').

Lemma sock_recv_ok s n : 0 < n → read_to s n (sock_recv s n).
Proof.
  intros Hn. destruct s as [|[l|err|] s]; cbn [sock_recv].
  - by constructor; [|constructor].
  - destruct l as [|x l]; [rewrite (proj2 (Z.leb_le (zlen []) n)) by (change (zlen []) with 0; lia); by constructor; constructor|].
    destruct (Z.leb_spec (zlen (x :: l)) n) as [|Hlt]; [by constructor; [..|constructor]|].
    set (k := Z.to_nat n). rewrite <- (take_drop k (x :: l)) at 1. unfold zlen in Hlt.
    apply rd_bytes; [|unfold zlen; rewrite length_take; lia|by exists (drop k (x :: l))|].
    + intros E%(f_equal length). rewrite length_take in E. cbn in E. lia.
    + apply cs_part. intros E%(f_equal length). rewrite length_drop in E. cbn [length] in *. lia.
  - destruct (decide (err = ERRNO_BLOCK)) as [->|]; [by constructor; [|constructor]|by constructor; [|constructor]].
  - apply rd_end. constructor.
Qed.

Lemma shut_sock t s t' : shut (set_sock t s) t' → shut t (set_sock t' (t_sock t)).
Proof. intros [? ? ? ? ?]; by split. Qed.

Lemma lost_outcome t s t' l : stk_ok (t_bufstk t) → lost (t_sock t) s → shut (set_sock t s) t' → outcome t l [] (-1) t'.
Proof.
  intros Hs Hl Hsh. apply oc_closed; [done|by eapply shut_sock|by apply (sh_stk _ _ Hsh)|right].
  by rewrite (sh_sock _ _ Hsh).
Qed.

(** The awaited bytes [l] have come. *)
Lemma fill_awaited t b l s :
  t_opt t = o → stk_ok (t_bufstk t) → ready t b → 0 < i_remain (t_in t) → l ≠ [] → zlen l <= i_remain (t_in t) →
  consume (t_sock t) l s → fine (pending (t_in t) ++ l) →
  ∀ b', (∀ r, holds (mk_input (i_bufsz (t_in t)) (Some b') (i_ptr_start (t_in t)) (i_ptr (t_in t) + zlen l) r) b' ∧
      pending (mk_input (i_bufsz (t_in t)) (Some b') (i_ptr_start (t_in t)) (i_ptr (t_in t) + zlen l) r) = pending (t_in t) ++ l) →
  let i := mk_input (i_bufsz (t_in t)) (Some b') (i_ptr_start (t_in t)) (i_ptr (t_in t) + zlen l) (i_remain (t_in t) - zlen l) in
  ∃ c t' ps, (if i_remain (t_in t) - zlen l =? 0 then tcp_deliver (set_in (set_sock t s) i) (i_ptr i - i_ptr_start i)
    else Ok (0, set_in (set_sock t s) i)) = Ok (c, t') ∧ outcome t l ps c t'.
Proof.
  intros Eo Hs [Hh Hst Hc Hraw Ht Hroom Hpoll Haw Hf] Hr Hl Hle Hk Hfl b' Hb' i.
  destruct (Hb' (i_remain (t_in t) - zlen l)) as [Hi Hp]. fold i in Hi, Hp. pose proof (holds_length _ _ Hi) as Hpl.
  pose proof (holds_length _ _ Hh) as Hpl0.
  assert (∀ m, awaited (pending (t_in t)) m → awaited (pending i) m) as Haw'.
  { intros m [?|(b0 & tl & Hpre & Hd)]; [by left|right]. exists b0, tl. split; [|done]. rewrite Hp. by apply prefix_app_r. }
  assert (zlen (pending i) = zlen (pending (t_in t)) + zlen l) as Hsum by (by rewrite Hp, zlen_app).
  destruct (Z.eqb_spec (i_remain (t_in t) - zlen l) 0).
  - rewrite <- Hpl. destruct (deliver_whole (set_in (set_sock t s) i) b') as (c & t' & E & [Dk Da Du Di] & Hcut).
    + split; [done|done|done|cbn; lia|done|cbn [t_in set_in]; by rewrite Hp].
    + cbn [t_in set_in]. apply Haw'. rewrite Hsum. replace (zlen l) with (i_remain (t_in t)) by lia. auto.
    + cbn [t_in set_in]. pose proof (zlen_nonneg (pending (t_in t))). lia.
    + exists c, t', [pending i]. split; [exact E|]. cbn [t_in set_in] in Hcut. rewrite Hp in Hcut at 1.
      apply oc_open; [by rewrite Dk|done|done|done|by left|done].
  - eexists 0, _, []. split; [done|].
    apply oc_open; [done|by rewrite app_nil_r|done|cbn; rewrite <- Hp; constructor|by right; left|]. left.
    split; [done|]. split; [|intros _ Hz; cbn in Hz; lia]. split; [done|done|]. right. exists b'.
    change i with (set_remain i (i_remain (t_in t) - zlen l)). apply ready_at; try done; try lia.
    + by rewrite Hp.
    + rewrite Hpl. cbn [i i_ptr i_ptr_start i_bufsz]. lia.
    + intros _. apply Haw'. rewrite Hsum. replace (_ + _ + _) with (zlen (pending (t_in t)) + i_remain (t_in t)) by lia. auto.
Qed.

(** What [recv_into] does about an error of recv. *)
Definition recv_failed (t : tcp) (s : list sock_event) (err : errno) : Z * tcp :=
  if bool_decide (err = ECONNRESET)
  then if o_show_econnreset (t_opt (set_sock t s)) then tcp_recv_error (set_sock t s) err else tcp_recv_closed (set_sock t s)
  else if bool_decide (err = ERRNO_BLOCK) then (0, set_sock t s) else tcp_recv_error (set_sock t s) err.

Lemma recv_into_ok t b n :
  t_opt t = o → stk_ok (t_bufstk t) → ready t b → settled (pending (t_in t)) (i_remain (t_in t)) → wanted (t_in t) n →
  (∀ l, l `prefix_of` next_bytes (t_sock t) → fine (pending (t_in t) ++ l)) →
  ∃ c t' l ps, recv_into n t = Ok (c, t') ∧ outcome t l ps c t'.
Proof.
  intros Eo Hs Hr Hset Hw Hfine. pose proof Hr as [Hh Hst Hc Hraw Ht Hroom Hpoll Haw Hf].
  unfold recv_into. destruct (sock_recv_ok (t_sock t) n) as [l s Hl Hle Hpre Hk|s Hlost|s Hidle Hk|err s Hne Hlost].
  { unfold wanted in Hw. destruct (Z.eqb_spec (i_remain (t_in t)) 0); lia. }
  - assert (i_ptr (t_in t) + zlen l <= i_bufsz (t_in t)) as Hfit.
    { unfold wanted in Hw. destruct (Z.eqb_spec (i_remain (t_in t)) 0); lia. }
    destruct (fill_ok (t_in t) b l Hh Hfit) as (b' & Eb & Hb'). destruct l as [|x l0]; [done|]. set (l := x :: l0) in *.
    cbn [t_in set_sock]. rewrite (the_buf_ok _ _ Hh), bind_Ok, Eb, bind_Ok, Z.gtb_ltb.
    assert (0 < zlen l) by (unfold l; rewrite zlen_cons; pose proof (zlen_nonneg l0); lia).
    unfold wanted in Hw. destruct (Z.eqb_spec (i_remain (t_in t)) 0) as [E0|].
    + specialize (Hpoll E0). rewrite E0. cbn [Z.ltb Z.compare]. destruct (Hb' 0) as [Hi Hp].
      set (t1 := set_in (set_sock t s) _). assert (mid t1 b') as Hm1.
      { split; [done|done|done|cbn; lia|done|]. cbn [t_in t1 set_in]. rewrite Hp. auto. }
      pose proof (polled_ok t1 b' (λ _ t, Ok (0, t)) Hm1) as Hpo. cbn [t1 t_in set_in i_remain i_ptr_start i_bufsz] in Hpo. fold t1 in Hpo.
      pose proof (h_start _ _ Hh).
      destruct (Hpo eq_refl Hst ltac:(lia)) as [c t' ps Hne [Dk Da Du Di] Hcut|t' Hsh Hun|n' st i b2 Pi Hr2 Hs2 _].
      * exists c, t', l, ps. split; [done|]. cbn [t1 t_in set_in] in Hcut. rewrite Hp in Hcut at 1.
        apply oc_open; [by rewrite Dk|done|done|done|by left|done].
      * exists (-1), t', l, []. split; [done|]. cbn [t1 t_in set_in] in Hun. rewrite Hp in Hun. destruct Hsh as [? Fk ? ? ?].
        apply oc_closed; [done|by split|auto|]. left. by rewrite Fk.
      * exists 0. eexists _, l, []. split; [done|]. cbn [t1 t_in set_in] in Pi. rewrite Hp in Pi.
        apply oc_open; [done|by rewrite app_nil_r|done|cbn; rewrite <- Pi; constructor|by right; left|]. left.
        split; [done|]. split; [split; [done|done|right; by exists b2]|]. done.
    + rewrite (proj2 (Z.ltb_lt 0 (i_remain (t_in t)))) by lia. cbn [t_in set_in set_remain i_remain i_ptr i_ptr_start].
      rewrite set_in_in. unfold set_remain. cbn [i_bufsz i_buf i_ptr_start i_ptr].
      destruct (fill_awaited t b l s Eo Hs Hr ltac:(lia) Hl ltac:(lia) Hk (Hfine _ Hpre) b' Hb') as (c & t' & ps & E & Ho).
      exists c, t', l, ps. split; [exact E|done].
  - destruct (tcp_recv_closed_ok (set_sock t s)) as (t' & -> & Hsh). exists (-1), t', [], []. split; [done|]. by eapply lost_outcome.
  - rewrite bool_decide_false by done. rewrite bool_decide_true by done. exists 0. eexists _, [], []. split; [done|].
    apply oc_open; [done|by rewrite app_nil_r|done|rewrite app_nil_r; constructor|by right; right|]. left.
    split; [done|]. split; [|done]. split; [done|done|]. right. exists b. by split.
  - assert (∃ t', shut (set_sock t s) t' ∧ recv_failed t s err = (-1, t')) as (t' & Hsh & E).
    { unfold recv_failed. destruct (bool_decide (err = ECONNRESET)); [destruct (o_show_econnreset _)|rewrite bool_decide_false by done].
      all: try (destruct (tcp_recv_error_ok (set_sock t s) err Hne) as (t' & -> & Hsh); by exists t').
      destruct (tcp_recv_closed_ok (set_sock t s)) as (t' & -> & Hsh). by exists t'. }
    exists (-1), t', [], []. split; [unfold recv_failed in E; by rewrite E|]. by eapply lost_outcome.
Qed.

(** The input buffer may have been prepared first. *)
Lemma outcome_from t t1 l ps c t' :
  t_opt t1 = t_opt t → t_sock t1 = t_sock t → t_out t1 = t_out t → t_active t1 = t_active t → pending (t_in t1) = pending (t_in t) →
  outcome t1 l ps c t' → outcome t l ps c t'.
Proof.
  intros Eo Ek Eu Ea Ep. destruct 1 as [c t' Hk Hu Ha Hcut Hpr Hi|t' Hps [So Sk Su Ss Si] Hs Hwhy].
  - rewrite Ek, Ep, Ea in *. unfold packets in *. rewrite Eu in Hu. by apply oc_open.
  - rewrite Ek, Ep in *. apply oc_closed; [done| |done|done]. cbn in *. split; cbn; [congruence|done|congruence|done|done].
Qed.

Lemma broken_polled t k : broken t → ∃ t', polled t k = Ok (-1, t') ∧ shut t t' ∧ undeliverable (pending (t_in t)).
Proof.
  intros (b & tlen & Hm & Hr & Hneg & E). unfold polled, tcp_remain. pose proof (m_holds _ _ _ Hm) as Hh.
  rewrite (the_buf_ok _ _ Hh), bind_Ok, (m_opt _ _ _ Hm), <- (holds_length _ _ Hh), E, bind_Ok.
  rewrite Z.gtb_ltb, (proj2 (Z.ltb_ge 0 tlen)) by lia. rewrite (proj2 (Z.eqb_neq tlen 0)), bind_Ok by lia. cbn [Z.ltb Z.compare].
  destruct (tcp_recv_error_ok (set_http_state t (t_http_state t)) EMSGSIZE) as (t' & -> & Hsh); [done|].
  exists t'. split_and!; [done|by eapply shut_http|]. exists (i_bufsz (t_in t)), tlen.
  split_and!; [by destruct (mid_length _ _ Hm)|by eapply mid_tl|by eexists _, _|by left].
Qed.

(** The input of the next call. *)
Definition feeds (t : tcp) : Prop := ∀ l, l `prefix_of` next_bytes (t_sock t) → fine (pending (t_in t) ++ l).

(** A poll, and reading when no packet is complete. *)
Lemma poll_read t b :
  t_opt t = o → stk_ok (t_bufstk t) → ready t b → i_remain (t_in t) = 0 → feeds t →
  ∃ c t' l ps, polled t recv_into = Ok (c, t') ∧ outcome t l ps c t'.
Proof.
  intros Eo Hs Hr Hrem Hfeed. pose proof Hr as [Hh Hst Hc Hraw Ht Hroom Hpoll Haw Hf]. specialize (Hpoll Hrem).
  pose proof (h_start _ _ Hh). assert (mid t b) as Hm by (split; [done|done|done|lia|done|done]).
  destruct (polled_ok t b recv_into Hm Hrem Hst ltac:(lia)) as [c t' ps Hne Hd Hcut|t' Hsh Hun|n st i b2 Pi Hr2 Hs2 Hw].
  - exists c, t', [], ps. split; [done|]. by eapply delivered_outcome.
  - exists (-1), t', [], []. split; [done|]. pose proof Hsh as [? Fk ? Hstk ?]. apply oc_closed; [done|by split|auto|].
    left. rewrite Fk, app_nil_r. split; [constructor|done].
  - destruct (recv_into_ok (set_in (set_http_state t st) i) b2 n) as (c & t' & l & ps & E & Ho); [done|done|done|done|apply Hw; lia| |].
    + cbn [t_in set_in]. rewrite Pi. exact Hfeed.
    + exists c, t', l, ps. split; [done|]. revert Ho. by apply outcome_from.
Qed.

(** A request for [n] bytes. *)
Definition request_ok (n : Z) : Prop := n = 0 ∨ o_htype o = TCP_PB_RAW ∧ 0 < n <= cap.

(** A call on a socket without input. *)
Lemma tcp_recv_fresh t n :
  t_opt t = o → stk_ok (t_bufstk t) → t_in t = no_input → request_ok n → feeds t →
  ∃ c t' l ps, tcp_recv t n = Ok (c, t') ∧ outcome t l ps c t'.
Proof.
  intros Eo Hs Ei Hn Hfeed. unfold tcp_recv. rewrite Ei. cbn [i_buf no_input]. rewrite Z.gtb_ltb, Eo.
  set (sz := if 0 <? n then n else o_bufsz o).
  assert (0 < sz <= cap ∧ (o_bufsz o <= sz ∨ o_htype o = TCP_PB_RAW)) as [Hsz Htl].
  { subst sz. destruct (Z.ltb_spec 0 n), Hn as [->|[? ?]]; auto with lia. }
  destruct (alloc_in_ok t sz Hs ltac:(lia)) as (b & bs & -> & Hbs & Hown & Hos).
  set (r := if 0 <? n then n else 0). set (i := mk_input sz (Some b) 0 0 0).
  assert (pending i = []) as Ep by done. change (mk_input sz (Some b) 0 0 r) with (set_remain i r).
  assert (zlen (pending i) = 0) as Ez by by rewrite Ep.
  destruct (recv_into_ok (set_in (set_bufstk t bs) (set_remain i r)) b sz) as (c & t' & l & ps & E & Ho); [done|done| | | | |].
  - apply ready_at; rewrite ?Ez, ?Ep; try done; try (cbn; lia).
    + split; cbn; [done|done|lia|lia].
    + subst r. destruct (Z.ltb_spec 0 n); lia.
    + subst r sz. cbn. destruct (Z.ltb_spec 0 n); lia.
    + subst r. intros ?. left. destruct (Z.ltb_spec 0 n), Hn as [->|[? ?]]; auto with lia.
  - intros _. by left.
  - unfold wanted. cbn [t_in set_in set_remain i_remain i_bufsz i_ptr i]. subst r sz.
    destruct (Z.ltb_spec 0 n); [by destruct (Z.eqb_spec n 0); [lia|]|]. cbn [Z.eqb]. lia.
  - cbn [t_in set_in]. intros l Hl. specialize (Hfeed l Hl). by rewrite Ei in Hfeed.
  - exists c, t', l, ps. split; [done|]. revert Ho. apply outcome_from; [done..|]. by rewrite Ei.
Qed.

(** A request for [n] bytes when there is input. *)
Lemma tcp_recv_request t b n :
  t_opt t = o → stk_ok (t_bufstk t) → ready t b → o_htype o = TCP_PB_RAW → 0 < n <= cap → feeds t →
  ∃ c t' l ps, tcp_recv t n = Ok (c, t') ∧ outcome t l ps c t'.
Proof.
  intros Eo Hs Hr Eraw Hn Hfeed. pose proof Hr as [Hh Hst Hc Hraw Ht Hroom Hpoll Haw Hf]. unfold tcp_recv.
  rewrite (h_buf _ _ Hh), Z.gtb_ltb. pose proof (holds_length _ _ Hh) as Hpl. rewrite (proj2 (Z.ltb_lt 0 n)) by lia.
  rewrite Z.geb_leb, <- Hpl. destruct (Z.leb_spec n (zlen (pending (t_in t)))).
  - destruct (tcp_deliver_ok t b n) as (c & t' & ps & E & Hne & Hd & Hcut); [split; auto|by left|rewrite Eraw; cbn; lia|lia|by apply fine_raw|].
    exists c, t', [], ps. split; [done|]. by eapply delivered_outcome.
  - destruct (tcp_expand_buffer_ok t b n Hh) as (i & b' & -> & Hi & Pi & Si & Ti & Ri & Bi); [lia|lia|]. rewrite bind_Ok.
    cbn [Z.ltb Z.compare t_in set_in]. rewrite set_in_in. specialize (Hraw Eraw). set (r := n - zlen (pending (t_in t))).
    destruct (recv_into_ok (set_in t (set_remain i r)) b' r) as (c & t' & l & ps & E & Ho); [done|done| | | | |].
    + apply ready_at; rewrite ?Pi; try done; try lia; [by right|]. intros _. by left.
    + intros Hz. cbn in Hz. lia.
    + unfold wanted. cbn. destruct (Z.eqb_spec r 0); [lia|done].
    + intros l Hl. change (pending (t_in _)) with (pending i). rewrite Pi. by apply Hfeed.
    + exists c, t', l, ps. split; [done|]. revert Ho. by apply outcome_from.
Qed.

Lemma tcp_recv_ok t n :
  valid t → request_ok n → feeds t →
  ∃ c t' l ps, tcp_recv t n = Ok (c, t') ∧ outcome t l ps c t'.
Proof.
  intros [[Eo Hs [Ei|(b & Hr)]]|Hbr] Hn Hfeed.
  - by apply tcp_recv_fresh.
  - destruct Hn as [->|[Eraw Hn]]; [|by apply (tcp_recv_request t b)]. unfold tcp_recv.
    rewrite (h_buf _ _ (r_holds _ _ Hr)). cbn [Z.gtb Z.compare].
    destruct (Z.eqb_spec (i_remain (t_in t)) 0); [by apply (poll_read t b)|].
    apply (recv_into_ok t b); [done|done|done|by intros ?| |done]. unfold wanted. by destruct (Z.eqb_spec (i_remain (t_in t)) 0).
  - pose proof Hbr as (b & tlen & Hm & Hr & Hneg & E). pose proof (m_holds _ _ _ Hm) as Hh.
    destruct Hn as [->|[Eraw Hn]].
    + unfold tcp_recv. rewrite (h_buf _ _ Hh), Hr. cbn [Z.gtb Z.eqb Z.compare].
      destruct (broken_polled t recv_into Hbr) as (t' & -> & Hsh & Hun). exists (-1), t', [], []. split; [done|].
      pose proof Hsh as [? Fk ? Hstk ?]. apply oc_closed; [done|by split|apply Hstk, (m_stk _ _ _ Hm)|].
      left. rewrite Fk, app_nil_r. split; [constructor|done].
    + exfalso. destruct (mid_length _ _ Hm) as [_ Hi]. apply (decides_raw (pending (t_in t)) (i_bufsz (t_in t)) tlen) in Eraw;
        [pose proof (zlen_nonneg (pending (t_in t))); lia|done|by eexists _, _].
Qed.

End Spec.
