(* ===== verification/TcpProps.v ===== *)
(** Properties of receiving on a TCP socket (Tcp.v): whatever arrives, the buffers stay
    in order and no byte is lost or duplicated before an error; the packets of a
    well-formed stream are delivered exactly, in order and at once, however the network
    has cut it, as long as memory can be allocated and sending reports no error; and the
    two overflows of the input buffer. *)
From S2P Require Import Prelude Scan Packet PacketFrame Http Tcp TcpSpec.

(** * Requests and events *)

Inductive command :=
| C_input
| C_recv (timeout : option Z) (n : Z) (queued : bool)
| C_active (ival nval : Z).

Section Run.
Context `{DriverMemory} `{Receiver}.

Definition run_command (t : tcp) (c : command) : res tcp :=
  match c with
  | C_input => '(_, t) ← tcp_inet_input t; Ok t
  | C_recv timeout n queued => '(_, t) ← tcp_req_recv t timeout n queued; Ok t
  | C_active ival nval => '(_, t) ← tcp_setopts t (t_opt t) ival nval; Ok t
  end.

Fixpoint run (t : tcp) (cs : list command) : res tcp :=
  match cs with
  | [] => Ok t
  | c :: cs => t ← run_command t c; run t cs
  end.

Lemma run_app t cs cs' : run t (cs ++ cs') = (t ← run t cs; run t cs').
Proof. revert t. induction cs as [|c cs IH]; intros t; [done|]. cbn [app run]. by destruct (run_command t c); cbn; rewrite ?IH. Qed.

End Run.

(** The bytes that are still to be read. *)
Definition avail (s : list sock_event) : bytes :=
  concat (map (λ e, match e with Segment l => l | _ => [] end) s).

(** All bytes of the connection: delivered, received, and still to be read. *)
Definition stream (t : tcp) : bytes := concat (packets t) ++ pending (t_in t) ++ avail (t_sock t).

Definition event_bytes (e : sock_event) : Prop := match e with Segment l => Forall byte l | _ => True end.

(** A connected socket that has received nothing. *)
Record fresh (t : tcp) : Prop := { fr_in : t_in t = no_input; fr_stk : stk_ok (t_bufstk t) }.

(** Sizes for which no [int] can overflow. *)
Definition buf_max : Z := 2 ^ 30 - 1.
Definition packet_max : Z := 2 ^ 30.
Record limits_ok (o : inet_options) : Prop := {
  lo_bufsz : 0 < o_bufsz o <= buf_max;
  lo_psize : 0 < o_psize o <= buf_max }.

Lemma consume_avail s l s' : consume s l s' → avail s = l ++ avail s'.
Proof. destruct 1; unfold avail; cbn; try done. by rewrite app_assoc. Qed.

Lemma consume_events (P : sock_event → Prop) s l s' :
  (∀ l1 l2, l2 ≠ [] → P (Segment (l1 ++ l2)) → P (Segment l2)) → consume s l s' → Forall P s → Forall P s'.
Proof. intros HP. destruct 1; intros Hf; try (by inversion Hf); try done. inversion Hf. constructor; eauto. Qed.

Lemma lost_events (P : sock_event → Prop) s s' : lost s s' → Forall P s → Forall P s'.
Proof. destruct 1; intros Hf; by inversion Hf. Qed.

(** * Arbitrary data *)

Section Hostile.
Context `{MemoryLaws} `{ReceiverLaws} (o : inet_options) (Ho : limits_ok o).

Abbreviation hostile := (Forall byte).
Abbreviation sound := (valid o buf_max packet_max hostile).

(** The input was thrown away: nothing could be made of it, or the connection is lost. *)
Definition dropped (t t' : tcp) : Prop :=
  t_in t' = no_input ∧ packets t' = packets t ∧
  ∃ l, (consume (t_sock t) l (t_sock t') ∧ undeliverable o (pending (t_in t) ++ l)) ∨ lost (t_sock t) (t_sock t').

Definition kept (t t' : tcp) : Prop := stream t' = stream t ∨ dropped t t'.

Lemma hostile_bound b tl tlen :
  hostile b → zlen b <= INT_MAX → good_tl o tl → decides o b tl tlen → tlen <= zlen b + packet_max.
Proof.
  intros Hf Hi [Htl _] (st & st' & Hd). destruct Ho as [_ Hp]. unfold buf_max, packet_max in *. pose proof (zlen_nonneg b).
  destruct (Z.le_gt_cases tlen 0); [lia|].
  assert (tlen <= zlen b + o_psize o); [|lia]. eapply decided_bound; [exact Hi|done|exact Hd|lia|lia|done].
Qed.

Lemma sound_fine t : sound t → hostile (pending (t_in t)).
Proof.
  intros [[_ _ [E|(b & Hr)]]|(b & tlen & Hm & _)]; [by rewrite E|by apply (r_fine _ _ _ _ _ _ Hr)|by apply (m_fine _ _ _ _ _ Hm)].
Qed.

Lemma sound_feeds t : sound t → Forall event_bytes (t_sock t) → feeds hostile t.
Proof.
  intros Hv Hs l [e El]. apply Forall_app. split; [by apply sound_fine|]. destruct (t_sock t) as [|[l'|err|] s]; cbn [next_bytes] in El;
    try (symmetry in El; apply app_eq_nil in El as [-> _]; done). subst. apply Forall_inv in Hs. by apply Forall_app in Hs as [? _].
Qed.

Lemma outcome_sound t l ps c t' :
  outcome o buf_max packet_max hostile t l ps c t' → t_opt t = o → Forall event_bytes (t_sock t) →
  sound t' ∧ Forall event_bytes (t_sock t') ∧ kept t t'.
Proof.
  assert (∀ l1 l2, l2 ≠ [] → event_bytes (Segment (l1 ++ l2)) → event_bytes (Segment l2)) as Hseg by by intros ? ? _ [_ ?]%Forall_app.
  intros Hoc Eo Hs. destruct Hoc as [c t' Hk Hu Ha Hcut _ Hi|t' -> [So Sk Su Ss Si] Hstk Hwhy].
  - split_and!; [destruct Hi as [(_ & ? & _)|[_ ?]]; [by left|by right]|by eapply consume_events|]. left. unfold stream.
    rewrite Hu, concat_app, (consume_avail _ _ _ Hk). apply cut_concat in Hcut. rewrite (app_assoc (pending (t_in t))), Hcut. by rewrite !app_assoc.
  - cbn in *. split_and!; [left; split; [congruence|done|by left]| |].
    + destruct Hwhy as [[Hk _]|Hl]; [by eapply consume_events|by eapply lost_events].
    + right. split_and!; [done|unfold packets; by rewrite Su|]. by exists l.
Qed.

Lemma sound_opt t : sound t → t_opt t = o.
Proof. intros [[E _ _]|(b & tlen & Hm & _)]; [done|by apply (m_opt _ _ _ _ _ Hm)]. Qed.

Lemma hostile_recv t n :
  sound t → Forall event_bytes (t_sock t) → request_ok o buf_max n →
  ∃ c t', tcp_recv t n = Ok (c, t') ∧ sound t' ∧ Forall event_bytes (t_sock t') ∧ kept t t'.
Proof.
  intros Hv Hs Hn. destruct (tcp_recv_ok o buf_max packet_max hostile) with (t := t) (n := n) as (c & t' & l & ps & E & Hoc);
    try done.
  - destruct Ho. unfold buf_max in *. lia.
  - apply hostile_bound.
  - intros b tl len Hf _ _ _ _. by apply Forall_drop.
  - intros b m _ Hf. by apply Forall_drop.
  - by apply sound_feeds.
  - exists c, t'. split; [done|]. eapply outcome_sound; [done|by apply sound_opt|done].
Qed.

Lemma hostile_deliver t :
  sound t → Forall event_bytes (t_sock t) →
  ∃ c t', tcp_deliver t 0 = Ok (c, t') ∧ sound t' ∧ Forall event_bytes (t_sock t') ∧ kept t t'.
Proof.
  intros Hv Hs. destruct (tcp_deliver_0_ok o buf_max packet_max hostile) with (t := t) as (c & t' & E & ps & Ek & Eu & Hcut & Hv');
    try done.
  - destruct Ho. unfold buf_max in *. lia.
  - apply hostile_bound.
  - intros b tl len Hf _ _ _ _. by apply Forall_drop.
  - exists c, t'. split_and!; [done|done|by rewrite Ek|]. left. unfold stream. rewrite Eu, Ek, concat_app.
    apply cut_concat in Hcut. rewrite Hcut. by rewrite !app_assoc.
Qed.

(** Only the mode of the socket and the effects on the port differ. *)
Record framed_by (t t1 : tcp) : Prop := {
  fb_opt : t_opt t1 = t_opt t; fb_in : t_in t1 = t_in t; fb_stk : t_bufstk t1 = t_bufstk t;
  fb_http : t_http_state t1 = t_http_state t; fb_sock : t_sock t1 = t_sock t; fb_out : t_out t1 = t_out t }.

Lemma eff_framed t t1 e : framed_by t t1 → framed_by t (add_eff t1 e).
Proof. intros [? ? ? ? ? ?]. by split. Qed.

Lemma frame_sound t t1 : framed_by t t1 → sound t → sound t1.
Proof.
  intros [Eo Ei Es Eh Ek Eu] [[Ho' Hs Hi]|(b & tlen & [? ? ? ? ? ?] & Hr & Hneg & E)].
  - left. split; [congruence|by rewrite Es|]. rewrite Ei. destruct Hi as [?|(b & Hr)]; [by left|right]. exists b.
    destruct Hr. by split; rewrite Ei.
  - right. exists b, tlen. split; [split; rewrite ?Eo, ?Ei, ?Es; done|]. by rewrite Ei, Eh.
Qed.

(** A command returns a sound socket and keeps the stream. *)
Definition command_ok (t : tcp) (r : res tcp) : Prop :=
  ∃ t', r = Ok t' ∧ sound t' ∧ Forall event_bytes (t_sock t') ∧ kept t t'.

Lemma frame_before t t1 r : framed_by t t1 → command_ok t1 r → command_ok t r.
Proof.
  intros [Eo Ei Es Eh Ek Eu] (t' & -> & Hv & Hs & Hk). exists t'. split_and!; [done..|].
  unfold kept, stream, dropped, packets in *. by rewrite Ei, Ek, Eu in Hk.
Qed.

Lemma frame_after t t1 t' :
  sound t1 → Forall event_bytes (t_sock t1) → kept t t1 → framed_by t1 t' → command_ok t (Ok t').
Proof.
  intros Hv Hs Hk Hfr. exists t'. split; [done|]. split; [by eapply frame_sound|]. destruct Hfr as [Eo Ei Es Eh Ek Eu].
  unfold kept, stream, dropped, packets in *. by rewrite Ei, Ek, Eu.
Qed.

Lemma kept_refl t : kept t t. Proof. by left. Qed.

Lemma opt_active_framed t ival nval : framed_by t (opt_active t ival nval).2.
Proof.
  unfold opt_active. destruct (_ =? INET_MULTI); [|by split]. destruct (_ || _); [by split|].
  cbn [snd]. destruct (_ <? 0); destruct (_ =? 0); by split.
Qed.

Lemma tcp_recv_nonpos t n : n <= 0 → tcp_recv t n = tcp_recv t 0.
Proof. intros Hn. unfold tcp_recv. by rewrite !Z.gtb_ltb, (proj2 (Z.ltb_ge 0 n)) by lia. Qed.

Lemma tcp_setopts_ok t ival nval :
  sound t → Forall event_bytes (t_sock t) → command_ok t ('(_, t) ← tcp_setopts t (t_opt t) ival nval; Ok t).
Proof.
  intros Hv Hs. unfold tcp_setopts. replace (set_opt t (t_opt t)) with t by by destruct t.
  pose proof (opt_active_framed t ival nval) as Hfr. destruct (opt_active t ival nval) as [r t1]. cbn [snd] in Hfr.
  destruct (r <? 0); [cbn; eapply frame_after; [exact Hv|done|apply kept_refl|done]|].
  set (t2 := if negb (t_active t1 =? t_active t) then _ else _).
  assert (framed_by t t2) as Hfr2 by (subst t2; destruct (negb _); [by apply eff_framed|done]). clearbody t2.
  destruct (_ && _); [|cbn; eapply frame_after; [exact Hv|done|apply kept_refl|done]]. apply (frame_before t t2); [done|].
  assert (Forall event_bytes (t_sock t2)) as Hs2 by (by rewrite (fb_sock _ _ Hfr2)). eapply frame_sound in Hfr2; [|done].
  destruct (_ && _).
  - destruct (hostile_recv t2 0) as (c & t' & -> & ? & ? & ?); [done|done|by left|]. by exists t'.
  - destruct (hostile_deliver t2) as (c & t' & -> & ? & ? & ?); [done|done|]. by exists t'.
Qed.

Lemma run_command_ok t c : sound t → Forall event_bytes (t_sock t) → command_ok t (run_command t c).
Proof.
  intros Hv Hs. destruct c as [|timeout n queued|ival nval]; cbn [run_command]; [| |by apply tcp_setopts_ok].
  - unfold tcp_inet_input. destruct (hostile_recv t 0) as (c & t' & -> & ? & ? & ?); [done|done|by left|]. by exists t'.
  - assert (∀ e, command_ok t ('(_, t) ← Ok (Some (e : errno), t); Ok t)) as Hno by (intros; exists t; split_and!; [done..|apply kept_refl]).
    unfold tcp_req_recv. destruct (negb (_ =? INET_PASSIVE)); [done|].
    destruct (negb (bool_decide _) && negb (n =? 0)) eqn:Eg; [done|]. rewrite Z.gtb_ltb.
    destruct (Z.ltb_spec TCP_MAX_PACKET_SIZE n); [done|]. destruct (negb queued); [done|].
    assert (∃ m, tcp_recv t n = tcp_recv t m ∧ request_ok o buf_max m) as (m & -> & Hm).
    { destruct (Z.le_gt_cases n 0); [exists 0; split; [by apply tcp_recv_nonpos|by left]|]. exists n. split; [done|]. right.
      rewrite (sound_opt _ Hv) in Eg. destruct (bool_decide (o_htype o = TCP_PB_RAW)) eqn:Er; [apply bool_decide_eq_true in Er|].
      - split; [done|]. unfold TCP_MAX_PACKET_SIZE, buf_max in *. lia.
      - destruct (Z.eqb_spec n 0); [lia|done]. }
    destruct (hostile_recv t m) as (c & t' & -> & Hv' & Hs' & Hk); [done|done|done|]. rewrite !bind_Ok. eapply frame_after; try done.
    destruct (c =? 0); [|done]. by destruct timeout as [[| |]|].
Qed.

Lemma run_ok t cs : sound t → Forall event_bytes (t_sock t) → ∃ t', run t cs = Ok t' ∧ sound t' ∧ Forall event_bytes (t_sock t').
Proof.
  revert t. induction cs as [|c cs IH]; intros t Hv Hs; cbn [run]; [by exists t|].
  destruct (run_command_ok t c Hv Hs) as (t' & -> & Hv' & Hs' & _). rewrite bind_Ok. auto.
Qed.

End Hostile.

(** * Streams of packets *)

(** Packets delivered by a reader that has received [m] bytes of a stream of packets. *)
Fixpoint complete (ps : list bytes) (m : Z) : list bytes :=
  match ps with
  | p :: ps => if zlen p <=? m then p :: complete ps (m - zlen p) else []
  | [] => []
  end.

(** Packet types with a fixed header, and lines and ASN.1 that fit into a buffer. *)
Record stream_options (o : inet_options) : Prop := {
  so_htype : is_http (o_htype o) = false ∧ o_htype o ≠ TCP_PB_RAW;
  so_bufsz : 16 <= o_bufsz o <= buf_max;
  so_psize : 0 <= o_psize o <= buf_max;
  so_line : o_htype o = TCP_PB_LINE_LF → o_psize o = 0 }.

Record good_packet (o : inet_options) (p : bytes) : Prop := {
  gp_framed : framed (o_delimiter o) 0 (o_htype o) p;
  gp_bytes : Forall byte p;
  gp_size : 0 < zlen p <= packet_max;
  gp_limit : o_psize o = 0 ∨ zlen p <= o_psize o;
  gp_fits : o_htype o = TCP_PB_LINE_LF ∨ o_htype o = TCP_PB_ASN1 → zlen p <= o_bufsz o }.

Lemma framed_any d st st' htype p : is_http htype = false → framed d st htype p → framed d st' htype p.
Proof. intros Hh. destruct 1; try done; by econstructor. Qed.

Lemma packet_switch_tl htype b n mp tl tl' d st :
  is_http htype = false → htype ≠ TCP_PB_LINE_LF → packet_switch htype b n mp tl d st = packet_switch htype b n mp tl' d st.
Proof. by destruct htype. Qed.

(** Only a header that is not complete leaves the length open. *)
Lemma more_header htype b n mp tl d st :
  is_http htype = false → htype ≠ TCP_PB_RAW → htype ≠ TCP_PB_LINE_LF → htype ≠ TCP_PB_ASN1 →
  packet_switch htype b n mp tl d st = Ok t_more → n < 16.
Proof.
  intros Hh Hraw Hl Ha E. destruct (Z.lt_ge_cases n 16) as [|Hn]; [done|]. exfalso.
  destruct htype; try done; cbn [packet_switch] in E;
    unfold prefix_case, cdr_case, fcgi_case, tpkt_case, ssl_case, sizeof_cdr_head, sizeof_fcgi_head, sizeof_tpkt_head in E;
    match type of E with context [n <? ?k] => destruct (Z.ltb_spec n k); [lia|] end;
    repeat (first [apply bind_Ok_inv in E as (? & _ & E) | match type of E with (if ?c then _ else _) = _ => destruct c end]; try done).
Qed.

Lemma prefix_app_cases (b p rest : bytes) :
  b `prefix_of` p ++ rest → b `prefix_of` p ∨ ∃ r, b = p ++ r ∧ r `prefix_of` rest.
Proof.
  intros [e Ee]. symmetry in Ee. apply app_eq_inv in Ee as [(k & -> & ->)|(k & -> & _)]; [right|left; by exists k].
  exists k. split; [done|by exists e].
Qed.

Section Stream.
Context `{MemoryLaws} `{ReceiverLaws} (o : inet_options) (Ho : stream_options o).

Lemma good_found p rest tl st :
  good_packet o p → zlen (p ++ rest) <= INT_MAX → good_tl o tl →
  finds (o_htype o) st (o_delimiter o) (o_psize o) tl p rest.
Proof.
  intros [Hf _ Hs Hl Hfit] Hi [_ Htl]. destruct Ho as [[Hh Hraw] _ _ _]. apply (framed_any _ _ st) in Hf; [|done].
  destruct (decide (o_htype o = TCP_PB_LINE_LF)) as [El|Nl].
  - apply framed_finds; [done|done|done|]. right. specialize (Hfit (or_introl El)). destruct Htl; [lia|done].
  - unfold finds. rewrite (packet_switch_tl _ _ _ _ tl 0) by done. by apply framed_finds; [..|left].
Qed.

(** The parser on what has come of a stream that begins with the packet [p]. *)
Lemma stream_decides p rest b tl len :
  good_packet o p → b `prefix_of` p ++ rest → zlen b <= INT_MAX → good_tl o tl → decides o b tl len →
  len = zlen p ∨ len = 0 ∧ zlen b < zlen p ∧ zlen b < o_bufsz o.
Proof.
  intros Hp Hpre Hi Htl (st & st' & Hd). pose proof Ho as [[Hh Hraw] Hb Hps Hline]. pose proof Hp as [_ _ Hsz _ Hfit].
  destruct (packet_get_length_eq (o_htype o) b (zlen b) (o_psize o) tl (o_delimiter o) st) as (t & E & Hs & _); [done|].
  rewrite Hd in E. injection E as -> ->. set (st1 := packet_state _ _) in *.
  destruct (prefix_app_cases _ _ _ Hpre) as [[e Ee]|(r & -> & _)].
  2: { left. destruct (good_found p r tl st1 Hp Hi Htl) as (t' & Es & Hf). rewrite Es in Hs. by injection Hs as <-. }
  assert (zlen p = zlen b + zlen e) as Hpl by by rewrite Ee, zlen_app. pose proof (zlen_nonneg e) as He0.
  assert (zlen p <= INT_MAX) as Hpi by (unfold packet_max, INT_MAX in *; lia).
  destruct (good_found p [] tl st1 Hp) as (t' & Es & Hf); [by rewrite app_nil_r|done|]. rewrite app_nil_r in Es.
  assert (t = t_more ∨ t ≠ t_more) as [->|Hne] by (destruct t; (by left) || (by right)).
  - right. assert (zlen e ≠ 0) as He.
    { intros E0. destruct e as [|? ?]; [|rewrite zlen_cons in E0; pose proof (zlen_nonneg e); lia]. rewrite app_nil_r in Ee. subst p. rewrite Es in Hs. injection Hs as ->. cbn in Hf. lia. }
    split_and!; [done|lia|]. destruct (decide (o_htype o = TCP_PB_LINE_LF ∨ o_htype o = TCP_PB_ASN1)) as [Hd1|Hd1]; [specialize (Hfit Hd1); lia|].
    apply more_header in Hs; [lia|done|done|tauto|tauto].
  - left. eapply (packet_switch_stable _ _ e) in Hs; try done; try lia.
    + rewrite <- Ee, <- Hpl, Es in Hs. by injection Hs as ->.
    + destruct Htl as [? _]; lia.
    + unfold decision_final. destruct (o_htype o) eqn:Eh; try done. left. by apply Hline.
Qed.

(** Data that has come of a stream of packets. *)
Definition flowing (b : bytes) : Prop := ∃ ps, Forall (good_packet o) ps ∧ b `prefix_of` concat ps.

Lemma flowing_byte b : flowing b → Forall byte b.
Proof.
  intros (ps & Hps & e & E). apply (Forall_app _ b e). rewrite <- E. clear E. induction Hps as [|p ps Hp _ IH]; cbn; [done|].
  apply Forall_app. split; [by apply (gp_bytes _ _ Hp)|done].
Qed.

Lemma decides_nil tl len : good_tl o tl → decides o [] tl len → len = 0.
Proof.
  intros [_ Htl] (st & st' & E). destruct Ho as [[Hh Hraw] Hb _ Hline]. unfold packet_get_length in E.
  destruct (o_htype o) eqn:Eh; try done; cbn in E; try by injection E as <- _.
  rewrite (Hline eq_refl) in E. change (zlen []) with 0 in E. unfold line_case in E.
  change (memchr [] 0 (o_delimiter o) 0) with (Ok (A := option Z) None) in E. cbn in E. rewrite Z.geb_leb in E. destruct Htl as [Htl|]; [|done].
  destruct (Z.leb_spec tl 0); [lia|]. cbn in E. by injection E as <- _.
Qed.

Lemma flowing_bound b tl len :
  flowing b → zlen b <= INT_MAX → good_tl o tl → decides o b tl len → len <= zlen b + packet_max.
Proof.
  intros ([|p ps] & Hps & Hpre) Hi Htl Hd.
  - apply prefix_nil_inv in Hpre. subst. apply decides_nil in Hd; [|done]. subst. done.
  - apply Forall_cons in Hps as [Hp _]. pose proof (zlen_nonneg b). destruct (gp_size _ _ Hp).
    destruct (stream_decides _ _ _ _ _ Hp Hpre Hi Htl Hd); lia.
Qed.

Lemma flowing_error b tl len : flowing b → zlen b <= INT_MAX → good_tl o tl → decides o b tl len → 0 <= len.
Proof.
  intros ([|p ps] & Hps & Hpre) Hi Htl Hd.
  - apply prefix_nil_inv in Hpre. subst. apply decides_nil in Hd; [|done]. by subst.
  - apply Forall_cons in Hps as [Hp _]. destruct (gp_size _ _ Hp). destruct (stream_decides _ _ _ _ _ Hp Hpre Hi Htl Hd); lia.
Qed.

(** The first packet of a stream that has come is cut off. *)
Lemma cut_first (p rest b : bytes) :
  b `prefix_of` p ++ rest → zlen p <= zlen b →
  take (Z.to_nat (zlen p)) b = p ∧ drop (Z.to_nat (zlen p)) b `prefix_of` rest.
Proof.
  intros Hpre Hl. unfold zlen. rewrite Nat2Z.id.
  assert (∃ r, b = p ++ r ∧ r `prefix_of` rest) as (r & -> & Hr).
  { destruct (prefix_app_cases _ _ _ Hpre) as [[e ->]|?]; [|done]. exists []. rewrite zlen_app in Hl.
    assert (zlen e = 0) by (pose proof (zlen_nonneg e); lia). destruct e; [by rewrite !app_nil_r; split; [|apply prefix_nil]|].
    rewrite zlen_cons in *. pose proof (zlen_nonneg e). lia. }
  by rewrite take_app_length, drop_app_length.
Qed.

Lemma flowing_drop b tl len :
  flowing b → zlen b <= INT_MAX → good_tl o tl → decides o b tl len → 0 < len <= zlen b → flowing (drop (Z.to_nat len) b).
Proof.
  intros ([|p ps] & Hps & Hpre) Hi Htl Hd Hl; [apply prefix_nil_inv in Hpre; subst; change (zlen []) with 0 in Hl; lia|].
  apply Forall_cons in Hps as [Hp Hps]. destruct (stream_decides _ _ _ _ _ Hp Hpre Hi Htl Hd) as [->|]; [|lia].
  exists ps. split; [done|]. destruct (cut_first p (concat ps) b Hpre); [lia|done].
Qed.

Lemma cut_stream b qs r : cut o b qs r → ∀ ps, Forall (good_packet o) ps → b `prefix_of` concat ps →
  ∃ ps', ps = qs ++ ps' ∧ r `prefix_of` concat ps'.
Proof.
  induction 1 as [b|b len qs r Haw Hl _ IH]; intros ps Hps Hpre; [by exists ps|].
  destruct ps as [|p ps]; [apply prefix_nil_inv in Hpre; subst; change (zlen []) with 0 in Hl; lia|]. cbn [concat] in Hpre.
  apply Forall_cons in Hps as [Hp Hps]. destruct Haw as [Hraw|(b0 & tl & Hb0 & Hi & Htl & Hd)]; [by destruct Ho as [[? ?] _ _ _]|].
  assert (b0 `prefix_of` p ++ concat ps) as Hpre0 by by transitivity b.
  destruct (stream_decides _ _ _ _ _ Hp Hpre0 Hi Htl Hd) as [->|]; [|lia].
  destruct (cut_first p (concat ps) b Hpre) as [-> Hdr]; [lia|]. destruct (IH ps Hps Hdr) as (ps' & -> & Hr). by exists ps'.
Qed.

(** ** A connection that carries a stream *)

Definition segment (e : sock_event) : Prop := match e with Segment [] => False | Segment _ => True | _ => False end.

(** The packets [todo] and the beginning [rest] of another packet are still to come. *)
Record carrying (t : tcp) (todo : list bytes) (rest : bytes) : Prop := {
  ca_in : in_ok o buf_max packet_max flowing t;
  ca_active : t_active t = INET_ACTIVE;
  ca_settled : settled o (pending (t_in t)) (i_remain (t_in t));
  ca_sock : Forall segment (t_sock t);
  ca_data : pending (t_in t) ++ avail (t_sock t) = concat todo ++ rest }.

Context (q rest : bytes) (Hq : rest `prefix_of` q ∧ rest ≠ q).

Lemma next_avail s l : l `prefix_of` next_bytes s → l `prefix_of` avail s.
Proof.
  destruct s as [|[l'|err|] s]; cbn [next_bytes]; try (intros ->%prefix_nil_inv; apply prefix_nil).
  intros Hl. transitivity l'; [done|]. unfold avail. cbn. by apply prefix_app_r.
Qed.

Lemma prefix_rest todo b : b `prefix_of` concat todo ++ rest → b `prefix_of` concat (todo ++ [q]).
Proof.
  intros Hb. transitivity (concat todo ++ rest); [done|]. rewrite concat_app. cbn. rewrite app_nil_r. by apply prefix_app, Hq.
Qed.

Lemma carrying_feeds t todo : carrying t todo rest → Forall (good_packet o) (todo ++ [q]) → feeds flowing t.
Proof.
  intros [_ _ _ _ Hd] Hg l Hl. exists (todo ++ [q]). split; [done|]. apply prefix_rest. rewrite <- Hd.
  by apply prefix_app, next_avail.
Qed.

(** The last packet is not complete. *)
Lemma not_all todo ds b todo' :
  concat ds ++ b `prefix_of` concat todo ++ rest → todo ++ [q] = ds ++ todo' → ∃ todo1, todo = ds ++ todo1 ∧ todo' = todo1 ++ [q].
Proof.
  intros Hpre E. destruct todo' as [|x todo' _] using rev_ind.
  - exfalso. rewrite app_nil_r in E. subst ds. destruct Hq as [[e ->] Hne].
    destruct Hpre as [e' He']. rewrite concat_app in He'. cbn in He'. rewrite app_nil_r, <- !app_assoc in He'.
    apply app_inv_head in He'. apply Hne. apply (f_equal length) in He'. rewrite !length_app in He'.
    destruct e; [by rewrite app_nil_r|]. cbn in He'. lia.
  - rewrite app_assoc in E. apply app_inj_tail in E as [-> ->]. by exists todo'.
Qed.

Definition measure (t : tcp) : Z := 2 * zlen (avail (t_sock t)) + zlen (pending (t_in t)).

(** The call reads and delivers; it meets no error. *)
Lemma carrying_outcome t todo l ds c t' :
  carrying t todo rest → Forall (good_packet o) (todo ++ [q]) → feeds flowing t →
  outcome o buf_max packet_max flowing t l ds c t' →
  consume (t_sock t) l (t_sock t') ∧ packets t' = packets t ++ ds ∧ t_active t' = INET_ACTIVE ∧
  cut o (pending (t_in t) ++ l) ds (pending (t_in t')) ∧ (ds ≠ [] ∨ l ≠ [] ∨ t_sock t = []) ∧
  in_ok o buf_max packet_max flowing t' ∧ settled o (pending (t_in t')) (i_remain (t_in t')).
Proof.
  intros [Hok Hact Hset Hsock Hdata] Hg Hfeed Hoc. destruct Hoc as [c t' Hk Hu Ha Hcut Hpr Hi|t' -> Hsh Hstk Hwhy].
  - specialize (Ha Hact). assert (ds ≠ [] ∨ l ≠ [] ∨ t_sock t = []) as Hpr'.
    { destruct Hpr as [?|[?|Hidle]]; auto. destruct (t_sock t) as [|[?|[]|] ?]; auto; try done. by apply Forall_cons in Hsock as [? _]. }
    destruct Hi as [(_ & Hin & Hs)|[_ (b & tlen & Hm & _ & Hneg & Hd)]].
    + rewrite Ha in Hs. split_and!; try done. by apply Hs.
    + exfalso. assert (0 <= tlen); [|lia]. eapply flowing_error; [exact (m_fine _ _ _ _ _ Hm)| | |by eexists _, _].
      * eapply mid_length; [|exact Hm]. done.
      * eapply mid_tl; [|exact Hm]. done.
  - exfalso. destruct Hwhy as [[Hk (tl & tlen & Hi & Htl & Hd & Hbad)]|Hl].
    + assert (pending (t_in t) ++ l `prefix_of` concat (todo ++ [q])) as Hpre.
      { apply prefix_rest. rewrite <- Hdata, (consume_avail _ _ _ Hk). by apply prefix_app, prefix_app_r. }
      destruct (todo ++ [q]) as [|p ps] eqn:Ep; [by destruct todo|]. apply Forall_cons in Hg as [Hp _].
      destruct (gp_size _ _ Hp). pose proof (proj2 (so_htype _ Ho)). destruct (proj2 Htl); [|done].
      destruct (stream_decides _ _ _ _ _ Hp Hpre Hi Htl Hd); lia.
    + inversion Hl as [s E|s E|err s ? E]; rewrite <- E in Hsock; by apply Forall_cons in Hsock as [? _].
Qed.

(** One input event. *)
Lemma carrying_input t todo :
  carrying t todo rest → Forall (good_packet o) (todo ++ [q]) →
  ∃ t' ds todo', run_command t C_input = Ok t' ∧ todo = ds ++ todo' ∧ packets t' = packets t ++ ds ∧ carrying t' todo' rest ∧
    (t_sock t ≠ [] → measure t' < measure t) ∧ (t_sock t = [] → t_sock t' = []).
Proof.
  intros Hca Hg. pose proof (carrying_feeds _ _ Hca Hg) as Hfeed.
  destruct (tcp_recv_ok o buf_max packet_max flowing) with (t := t) (n := 0) as (c & t' & l & ds & E & Hoc); try done.
  { destruct Ho as [_ ? ? _]. unfold buf_max in *. lia. }
  { exists []. split; [done|apply prefix_nil]. }
  { apply flowing_byte. }
  { apply flowing_bound. }
  { apply flowing_drop. }
  { intros b n Er. by destruct (so_htype _ Ho). }
  { left. apply Hca. }
  { by left. }
  destruct (carrying_outcome _ _ _ _ _ _ Hca Hg Hfeed Hoc) as (Hk & Hu & Ha & Hcut & Hpr & Hin & Hset).
  pose proof Hca as [_ _ _ Hsock Hdata]. pose proof (consume_avail _ _ _ Hk) as Hav.
  pose proof (cut_concat _ _ _ _ Hcut) as Hcc.
  assert (pending (t_in t) ++ l `prefix_of` concat todo ++ rest) as Hpre.
  { rewrite <- Hdata, Hav. by apply prefix_app, prefix_app_r. }
  destruct (cut_stream _ _ _ Hcut (todo ++ [q]) Hg) as (todo' & Etodo & Hr); [by apply prefix_rest|].
  destruct (not_all todo ds (pending (t_in t')) todo') as (todo1 & -> & ->); [by rewrite <- Hcc|done|].
  exists t', ds, todo1. split; [cbn; unfold tcp_inet_input; by rewrite E|]. split_and!; [done|done| | |intros E0; rewrite E0 in Hk; by inversion Hk].
  - split; [done|done|done| |].
    + eapply consume_events; [|exact Hk|done]. intros l1 [|x l2]; done.
    + rewrite Hav, app_assoc, Hcc, concat_app, <- !app_assoc in Hdata. by apply app_inv_head in Hdata.
  - intros Hne. unfold measure. apply (f_equal zlen) in Hcc, Hav. rewrite zlen_app, (zlen_app (concat ds)) in Hcc. rewrite zlen_app in Hav.
    pose proof (zlen_nonneg l). pose proof (zlen_nonneg (concat ds)).
    assert (0 < zlen l + zlen (concat ds)); [|lia]. destruct Hpr as [Hd|[Hl|?]]; [| |done].
    + destruct ds as [|d ds]; [done|]. cbn [concat]. rewrite zlen_app. apply Forall_cons in Hg as [Hd1 _]. destruct (gp_size _ _ Hd1).
      pose proof (zlen_nonneg (concat ds)). lia.
    + destruct l; [done|]. rewrite zlen_cons. pose proof (zlen_nonneg l). lia.
Qed.

Lemma carrying_run n t todo :
  carrying t todo rest → Forall (good_packet o) (todo ++ [q]) →
  ∃ t' ds todo', run t (replicate n C_input) = Ok t' ∧ todo = ds ++ todo' ∧ packets t' = packets t ++ ds ∧ carrying t' todo' rest ∧
    (t_sock t' = [] ∨ measure t' + Z.of_nat n <= measure t) ∧ (t_sock t = [] → t_sock t' = []).
Proof.
  revert t todo. induction n as [|n IH]; intros t todo Hca Hg.
  { exists t, [], todo. split_and!; [done|done|by rewrite app_nil_r|done| |done]. right. lia. }
  destruct (carrying_input t todo Hca Hg) as (t1 & ds1 & todo1 & E1 & -> & Hu1 & Hca1 & Hm1 & Hz1). cbn [replicate run]. rewrite E1, bind_Ok.
  destruct (IH t1 todo1 Hca1) as (t' & ds & todo' & E & -> & Hu & Hca' & Hm & Hz).
  { rewrite <- app_assoc in Hg. by apply Forall_app in Hg as [_ ?]. }
  exists t', (ds1 ++ ds), todo'. split_and!; [done|by rewrite app_assoc|by rewrite Hu, Hu1, app_assoc|done| |by auto].
  destruct Hm as [?|Hm]; [by left|]. destruct (decide (t_sock t = [])) as [E0|Hne]; [left; auto|right; specialize (Hm1 Hne); lia].
Qed.

(** A packet that is complete is not waiting. *)
Lemma carrying_prompt t p todo :
  carrying t (p :: todo) rest → good_packet o p → zlen (pending (t_in t)) < zlen p.
Proof.
  intros [[_ _ Hin] _ Hset _ Hdata] Hp. destruct (gp_size _ _ Hp). destruct Hin as [->|(b & Hr)]; [done|].
  pose proof Hr as [Hh Hst Hc _ _ Hroom _ Haw _]. pose proof (holds_length _ _ Hh) as Hpl. destruct (h_size _ _ Hh).
  assert (pending (t_in t) `prefix_of` p ++ concat todo ++ rest) as Hpre.
  { cbn [concat] in Hdata. rewrite <- app_assoc in Hdata. rewrite <- Hdata. by apply prefix_app_r. }
  assert (zlen (pending (t_in t)) <= INT_MAX) by (unfold buf_max, packet_max, INT_MAX in *; lia).
  destruct (Z.eq_dec (i_remain (t_in t)) 0) as [E0|Hne].
  - destruct (Hset E0) as [->|(tl & Htl & Hd)]; [done|]. destruct (stream_decides _ _ _ _ _ Hp Hpre ltac:(done) Htl Hd); lia.
  - destruct (Haw ltac:(lia)) as [?|(b0 & tl & Hb0 & Hi & Htl & Hd)]; [by destruct (so_htype _ Ho)|].
    assert (b0 `prefix_of` p ++ concat todo ++ rest) as Hpre0 by by transitivity (pending (t_in t)).
    pose proof (zlen_nonneg (pending (t_in t))). destruct (stream_decides _ _ _ _ _ Hp Hpre0 Hi Htl Hd); lia.
Qed.

End Stream.

Lemma complete_app ds todo m : 0 <= m → complete (ds ++ todo) (zlen (concat ds) + m) = ds ++ complete todo m.
Proof.
  intros Hm. induction ds as [|d ds IH]; [done|]. cbn [app complete concat]. rewrite zlen_app. pose proof (zlen_nonneg (concat ds)).
  rewrite (proj2 (Z.leb_le _ _)) by lia. f_equal. rewrite <- IH. f_equal. lia.
Qed.

(** * Examples *)

(** An allocator that fills with zeros, and an owner that keeps every binary. *)
Definition zero_memory : DriverMemory := {|
  driver_alloc_binary n := Some (replicate (Z.to_nat n) 0);
  driver_realloc_binary b n := Some (take (Z.to_nat n) b ++ replicate (Z.to_nat n - length b) 0) |}.
Definition keeping_owner : Receiver := {| send_code _ _ := 1; send_keeps _ _ := true |}.

Lemma zero_memory_laws : @MemoryLaws zero_memory.
Proof.
  split.
  - intros n Hn. eexists. split; [done|]. unfold zlen. rewrite length_replicate. lia.
  - intros b n Hn. eexists. split; [done|]. unfold zlen in *. rewrite take_ge by lia. split.
    + rewrite length_app, length_replicate. lia.
    + apply take_app_length.
Qed.

Lemma keeping_owner_laws : @ReceiverLaws keeping_owner.
Proof. by split. Qed.

Definition example_socket (htype : PacketParseType) (psize bufsz active : Z) (s : list sock_event) : tcp :=
  mk_tcp (mk_options htype psize 10 bufsz INET_DELIVER_TERM true false) no_input 0 active 0 false false s
    (Some (mk_bufstk 0 [])) [] [].

Lemma example_fresh htype psize bufsz active s : fresh (example_socket htype psize bufsz active s).
Proof. split; [done|]. split_and!; [constructor|done|done|done]. Qed.

(** Two packets and the first byte of a third, in three segments. *)
Definition example_stream : tcp :=
  example_socket TCP_PB_2 0 16 INET_ACTIVE (map Segment [[0; 1]; [7; 0]; [2; 8; 9; 0]]).

Lemma example_good body : Forall byte body → zlen body <= 10 → good_packet (t_opt example_stream) (u16be (zlen body) ++ body).
Proof.
  intros Hb Hl. pose proof (zlen_nonneg body). split.
  - apply framed_2. lia.
  - apply Forall_app. split; [|done]. constructor; [|constructor; [|constructor]]; unfold byte; [rewrite Z.div_small|rewrite Z.mod_small]; lia.
  - rewrite zlen_app. change (zlen (u16be _)) with 2. unfold packet_max. lia.
  - by left.
  - by intros [|].
Qed.

Lemma example_good_all : Forall (good_packet (t_opt example_stream)) ([[0; 1; 7]; [0; 2; 8; 9]] ++ [[0; 0]]).
Proof.
  cbn [app]. apply Forall_cons; split; [apply (example_good [7]); [by repeat constructor|done]|].
  apply Forall_cons; split; [apply (example_good [8; 9]); [by repeat constructor|done]|].
  apply Forall_singleton, (example_good []); done.
Qed.

Lemma example_rest : [0] `prefix_of` [0; 0] ∧ [0] ≠ [0; 0].
Proof. split; [by exists [0]|done]. Qed.

Lemma example_options : stream_options (t_opt example_stream).
Proof. by split. Qed.

Lemma example_limits psize bufsz htype active s :
  0 < bufsz <= buf_max → 0 < psize <= buf_max → limits_ok (t_opt (example_socket htype psize bufsz active s)).
Proof. by split. Qed.

(** * The theorems *)

(** C12: As long as memory can be allocated ([MemoryLaws]) and sending to the owner reports
    no error ([ReceiverLaws]), and with a packet size limit and a buffer size below 2^30:
    whatever bytes, errors and ends of stream arrive, and whatever receive requests
    and changes of the active mode the owner makes, receiving never reads or writes outside a buffer, never writes to a buffer the owner may hold,
    and always returns; the pointers into the input buffer stay in order. *)
Theorem tcp_receive_safe `{MemoryLaws} `{ReceiverLaws} t cs :
  limits_ok (t_opt t) → fresh t → Forall event_bytes (t_sock t) →
  ∃ t', run t cs = Ok t' ∧ stk_ok (t_bufstk t') ∧ (t_in t' = no_input ∨ ∃ b, holds (t_in t') b).
Proof.
  intros Hl [Hi Hs] He. destruct (run_ok (t_opt t) Hl t cs) as (t' & E & Hv & _); [left; by split; [..|left]|done|].
  exists t'. split; [done|]. destruct Hv as [[_ Hs' [?|(b & Hr)]]|(b & tlen & Hm & _)].
  - auto.
  - split; [done|]. right. exists b. apply Hr.
  - split; [apply Hm|]. right. exists b. apply Hm.
Qed.

Lemma tcp_receive_safe_witness :
  let t := example_socket TCP_PB_4 100 20 INET_ACTIVE [Segment [0; 0; 0; 1; 7; 127; 255; 255; 251]; Sock_eof] in
  ∃ t', @run zero_memory keeping_owner t [C_input; C_active INET_ONCE 0; C_input] = Ok t' ∧
    stk_ok (t_bufstk t') ∧ (t_in t' = no_input ∨ ∃ b, holds (t_in t') b).
Proof.
  intros t. apply (@tcp_receive_safe zero_memory zero_memory_laws keeping_owner keeping_owner_laws t).
  - apply example_limits; done.
  - apply example_fresh.
  - by repeat constructor.
Defined.

(** C17: Under the same conditions (memory can be allocated, sending reports no error, sizes
    below 2^30), no byte of the connection is lost, duplicated or reordered: after any input
    events, receive requests and changes of the active mode,
    a further command leaves the packets delivered, the bytes received and the bytes
    still to be read together the same, unless it drops the input because no packet can
    come of it or the connection has failed. *)
Theorem tcp_receive_conserves `{MemoryLaws} `{ReceiverLaws} t cs c t1 :
  limits_ok (t_opt t) → fresh t → Forall event_bytes (t_sock t) → run t cs = Ok t1 →
  ∃ t2, run_command t1 c = Ok t2 ∧ (stream t2 = stream t1 ∨ dropped (t_opt t) t1 t2).
Proof.
  intros Hl [Hi Hs] He E. destruct (run_ok (t_opt t) Hl t cs) as (t' & E' & Hv & He'); [left; by split; [..|left]|done|].
  rewrite E in E'. injection E' as <-. destruct (run_command_ok (t_opt t) Hl t1 c Hv He') as (t2 & E2 & _ & _ & Hk). by exists t2.
Qed.

Lemma tcp_receive_conserves_witness :
  let t := example_socket TCP_PB_4 100 20 INET_ACTIVE [Segment [0; 0; 0; 2; 7]; Segment [8; 0]] in
  ∃ t1 t2, @run zero_memory keeping_owner t [C_input] = Ok t1 ∧ @run_command zero_memory keeping_owner t1 C_input = Ok t2 ∧
    (stream t2 = stream t1 ∨ dropped (t_opt t) t1 t2).
Proof.
  intros t. eexists. destruct (@tcp_receive_conserves zero_memory zero_memory_laws keeping_owner keeping_owner_laws t [C_input] C_input
    (match @run zero_memory keeping_owner t [C_input] with Ok t1 => t1 | _ => t end)) as (t2 & E & Hk).
  - apply example_limits; done.
  - apply example_fresh.
  - by repeat constructor.
  - vm_compute. reflexivity.
  - exists t2. split; [|split; [exact E|exact Hk]]. vm_compute. reflexivity.
Defined.

Section Streams.
Context `{MemoryLaws} `{ReceiverLaws} (t : tcp) (segs ps : list bytes) (q rest : bytes) (n : nat).
Context (Ho : stream_options (t_opt t)) (Hfresh : fresh t) (Hact : t_active t = INET_ACTIVE).
Context (Hsock : t_sock t = map Segment segs) (Hsegs : Forall (λ l, l ≠ []) segs).
Context (Hgood : Forall (good_packet (t_opt t)) (ps ++ [q])) (Hrest : rest `prefix_of` q ∧ rest ≠ q).
Context (Hdata : concat segs = concat ps ++ rest).

Lemma avail_segments (l : list bytes) : avail (map Segment l) = concat l.
Proof. induction l as [|x l IH]; [done|]. unfold avail in *. cbn. by rewrite IH. Qed.

Lemma carrying_start : carrying (t_opt t) t ps rest.
Proof.
  destruct Hfresh as [Hi Hs]. split; [by split; [..|left]|done|intros _; left; by rewrite Hi| |].
  - rewrite Hsock. apply Forall_map. eapply Forall_impl; [exact Hsegs|]. by intros [].
  - rewrite Hi, Hsock, avail_segments. done.
Qed.

Lemma stream_run :
  ∃ t' ds todo', run t (replicate n C_input) = Ok t' ∧ ps = ds ++ todo' ∧ packets t' = packets t ++ ds ∧
    carrying (t_opt t) t' todo' rest ∧ complete todo' (zlen (pending (t_in t'))) = [] ∧
    (t_sock t' = [] ∨ measure t' + Z.of_nat n <= measure t).
Proof.
  destruct (carrying_run (t_opt t) Ho q rest Hrest n t ps carrying_start Hgood) as (t' & ds & todo & E & Eps & Hu & Hca & Hm & _).
  exists t', ds, todo. split_and!; try done. destruct todo as [|p todo]; [done|]. cbn [complete].
  assert (good_packet (t_opt t) p) as Hp.
  { rewrite Eps, <- app_assoc in Hgood. apply Forall_app in Hgood as [_ Hg]. by apply Forall_cons in Hg as [? _]. }
  rewrite (proj2 (Z.leb_gt _ _)); [done|]. by eapply carrying_prompt.
Qed.

(** C11: As long as memory can be allocated ([MemoryLaws]) and sending to the owner reports
    no error ([ReceiverLaws]), an active socket delivers the packets of a well-formed stream exactly, in order
    and at once, however the network cuts the stream into segments: after any number of
    input events the packets delivered are those contained in the bytes read so far.  The
    packet type is one of those with a fixed header, lines or ASN.1 (not raw and not HTTP);
    packets are within the packet size limit and 2^30 bytes, lines and ASN.1 values within
    the buffer. *)
Theorem stream_delivered :
  ∃ t', run t (replicate n C_input) = Ok t' ∧
    packets t' = packets t ++ complete ps (zlen (concat segs) - zlen (avail (t_sock t'))).
Proof.
  destruct stream_run as (t' & ds & todo & E & Eps & Hu & Hca & Hc & _). exists t'. split; [done|]. rewrite Hu. f_equal.
  pose proof (ca_data _ _ _ _ Hca) as Hd. rewrite Hdata, Eps, concat_app, <- app_assoc, <- Hd, !zlen_app.
  replace (_ - _) with (zlen (concat ds) + zlen (pending (t_in t'))) by lia.
  rewrite complete_app, Hc, app_nil_r by apply zlen_nonneg. done.
Qed.

(** C18: Under the same conditions a well-formed stream is read to its end: twice as many input events as it has
    bytes are enough, after which every complete packet has been delivered and the bytes
    of an incomplete last one are kept. *)
Theorem stream_drained :
  2 * zlen (concat segs) < Z.of_nat n →
  ∃ t', run t (replicate n C_input) = Ok t' ∧ t_sock t' = [] ∧ packets t' = packets t ++ ps ∧ pending (t_in t') = rest.
Proof.
  intros Hn. destruct stream_run as (t' & ds & todo & E & Eps & Hu & Hca & Hc & Hm). exists t'. split; [done|].
  assert (t_sock t' = []) as Ek.
  { destruct Hm as [?|Hm]; [done|]. unfold measure in Hm. rewrite Hsock, avail_segments, (fr_in _ Hfresh) in Hm.
    change (zlen (pending no_input)) with 0 in Hm. pose proof (zlen_nonneg (avail (t_sock t'))). pose proof (zlen_nonneg (pending (t_in t'))). lia. }
  pose proof (ca_data _ _ _ _ Hca) as Hd. rewrite Ek in Hd. change (avail []) with (@nil Z) in Hd. rewrite app_nil_r in Hd.
  destruct todo as [|p todo].
  - rewrite app_nil_r in Eps. subst ds. split_and!; done.
  - exfalso. rewrite Hd in Hc. cbn [concat complete] in Hc. rewrite <- app_assoc, !zlen_app in Hc.
    pose proof (zlen_nonneg (concat todo)). pose proof (zlen_nonneg rest). by rewrite (proj2 (Z.leb_le _ _)) in Hc by lia.
Qed.

End Streams.

Lemma stream_delivered_witness :
  ∃ t', @run zero_memory keeping_owner example_stream (replicate 2 C_input) = Ok t' ∧
    packets t' = [] ++ complete [[0; 1; 7]; [0; 2; 8; 9]] (8 - zlen (avail (t_sock t'))).
Proof.
  apply (@stream_delivered zero_memory zero_memory_laws keeping_owner keeping_owner_laws example_stream
    [[0; 1]; [7; 0]; [2; 8; 9; 0]] [[0; 1; 7]; [0; 2; 8; 9]] [0; 0] [0] 2).
  - apply example_options.
  - apply example_fresh.
  - done.
  - done.
  - by repeat constructor.
  - apply example_good_all.
  - apply example_rest.
  - done.
Defined.

Lemma stream_drained_witness :
  ∃ t', @run zero_memory keeping_owner example_stream (replicate 17 C_input) = Ok t' ∧ t_sock t' = [] ∧
    packets t' = [] ++ [[0; 1; 7]; [0; 2; 8; 9]] ∧ pending (t_in t') = [0].
Proof.
  apply (@stream_drained zero_memory zero_memory_laws keeping_owner keeping_owner_laws example_stream
    [[0; 1]; [7; 0]; [2; 8; 9; 0]] [[0; 1; 7]; [0; 2; 8; 9]] [0; 0] [0] 17).
  - apply example_options.
  - apply example_fresh.
  - done.
  - done.
  - by repeat constructor.
  - apply example_good_all.
  - apply example_rest.
  - done.
  - done.
Defined.

(** * Overflows *)

(** Without a packet size limit the sum in [tcp_expand_buffer] overflows: a packet of
    2^31 - 5 bytes announced behind another one leaves the buffer as it is, and the next
    bytes are written past its end. *)
Theorem expand_buffer_overflow :
  @run zero_memory keeping_owner
    (example_socket TCP_PB_4 0 20 INET_ACTIVE
       [Segment [0; 0; 0; 1; 7; 127; 255; 255; 251]; Segment (replicate 30 65)]) [C_input; C_input] = Fault.
Proof. vm_compute. reflexivity. Qed.

(** With [unrecv] the buffer can be full; [tcp_remain] then expands it to the packet size
    limit but returns that limit as the room that is left. *)
Theorem unrecv_overflow :
  (let t := example_socket TCP_PB_HTTP 20 20 INET_PASSIVE [Segment (replicate 30 65)] in
   t ← @tcp_req_unrecv zero_memory keeping_owner t [71; 69; 84];
   @tcp_req_recv zero_memory keeping_owner t None 0 true) = Fault.
Proof. vm_compute. reflexivity. Qed.

(** A part of a header that was put back is an error, although nothing is wrong with it. *)
Theorem unrecv_header_refused :
  ∃ t', (let t := example_socket TCP_PB_4 0 20 INET_PASSIVE [Segment [0; 1; 65]] in
   t ← @tcp_req_unrecv zero_memory keeping_owner t [0; 0];
   @tcp_req_recv zero_memory keeping_owner t None 0 true) = Ok (None, t') ∧ E_async_error EMSGSIZE ∈ t_eff t'.
Proof. eexists. split; [vm_compute; reflexivity|]. set_solver. Qed.
