(* ===== verification/Hash.v ===== *)
(** The generic hash tables of the emulator (erts/emulator/beam/hash.c, hash.h):
    chained buckets that grow at 160% load and shrink at 20%.

    Objects live in a store, a map from addresses to objects; a bucket is the list of
    its entries, the stored hash value and the address of the object (in C the
    bucket header is the first field of the object).  The callbacks that a table is
    created with ([HashFunctions]) are the class [HashFun], and [HashLaws] is what
    the tables rely on: comparison is equality of a key, and the hash value depends on
    the key only.  The memory allocator is a parameter that returns an unused address. *)
From S2P Require Import Prelude.

(** * Callbacks *)

(** [hash], [cmp] and [alloc] of [HashFunctions]; [hf_alloc t] is the object that
    [alloc] builds from the template [t].  [hash] reads memory and may fault. *)
Class HashFun (T : Type) := {
  hf_hash : T → res Z;
  hf_cmp : T → T → Z;
  hf_alloc : T → T }.

(** [hok t]: an object or template on which [hash] is defined. *)
Class HashLaws (T K : Type) `{HashFun T} := {
  hkey : T → K;
  hok : T → Prop;
  hf_hash_ok t : hok t → ∃ v, hf_hash t = Ok v ∧ 0 <= v;
  hf_hash_key a b : hok a → hok b → hkey a = hkey b → hf_hash a = hf_hash b;
  hf_cmp_key a b : hf_cmp a b = 0 ↔ hkey a = hkey b;
  hf_alloc_key t : hkey (hf_alloc t) = hkey t;
  hf_alloc_ok t : hok t → hok (hf_alloc t) }.

(** * Data *)

Definition h_size_table : list Z :=
  [2; 5; 11; 23; 47; 97; 197; 397; 797; 1201; 1597; 2411; 3203; 4813; 6421; 9643; 12853;
   19289; 25717; 51437; 102877; 205759; 411527; 823117; 1646237; 3292489; 6584983;
   13169977; 26339969; 52679969; -1].

Record HashBucket := mk_bucket { hb_hvalue : Z; hb_ptr : Z }.

(** [struct hash], without the callbacks and the allocation bookkeeping. *)
Record Hash := mk_hash {
  h_size : Z; h_shrink_threshold : Z; h_grow_threshold : Z;
  h_size_ix : Z; h_min_size_ix : Z; h_nobjs : Z;
  h_bucket : list (list HashBucket) }.

Record HashInfo := mk_info { hi_size : Z; hi_used : Z; hi_objs : Z; hi_depth : Z }.

(** [h_size_table[ix]] *)
Definition size_at (ix : Z) : Z := default (-1) (h_size_table !! Z.to_nat ix).

Definition set_thresholds (h : Hash) : Hash :=
  mk_hash (h_size h)
    (if h_size_ix h >? h_min_size_ix h then h_size h / 5 else -1)
    (8 * h_size h / 5)
    (h_size_ix h) (h_min_size_ix h) (h_nobjs h) (h_bucket h).

(** [while (h_size_table[ix] != -1 && h_size_table[ix] < size) ix++] *)
Fixpoint size_index (tab : list Z) (ix size : Z) : Z :=
  match tab with
  | [] => ix
  | s :: tab => if negb (s =? -1) && (s <? size) then size_index tab (ix + 1) size else ix
  end.

(** [None]: the table cannot be that large and NULL is returned. *)
Definition hash_init (size : Z) : option Hash :=
  let ix := size_index h_size_table 0 size in
  if size_at ix =? -1 then None
  else
    let size := size_at ix in
    Some (set_thresholds (mk_hash size 0 0 ix ix 0 (replicate (Z.to_nat size) []))).

(** * Rehashing *)

(** One entry onto the front of its new bucket. *)
Definition rehash_push (size : Z) (nb : list (list HashBucket)) (b : HashBucket) :
    list (list HashBucket) :=
  let ix := Z.to_nat (hb_hvalue b mod size) in
  <[ix := b :: default [] (nb !! ix)]> nb.

Definition rehash (h : Hash) (grow : bool) : Hash :=
  let new_ix := if grow then h_size_ix h + 1 else h_size_ix h - 1 in
  if (if grow then size_at new_ix =? -1 else h_size_ix h =? 0) then h
  else
    let size := size_at new_ix in
    let nb := foldl (foldl (rehash_push size)) (replicate (Z.to_nat size) []) (h_bucket h) in
    set_thresholds (mk_hash size (h_shrink_threshold h) (h_grow_threshold h)
      new_ix (h_min_size_ix h) (h_nobjs h) nb).

Definition set_bucket (h : Hash) (ix : nat) (l : list HashBucket) (nobjs : Z) : Hash :=
  mk_hash (h_size h) (h_shrink_threshold h) (h_grow_threshold h)
    (h_size_ix h) (h_min_size_ix h) nobjs (<[ix := l]> (h_bucket h)).

(** * Operations *)

Section Ops.
Context {T : Type} `{HashFun T}.
Abbreviation store := (gmap Z T).
Context (malloc : store → Z).

(** The walk along a bucket shared by all operations: the entries before the one that
    matches, that entry, and the ones after it; [None] when the list ends. *)
Fixpoint bucket_find (st : store) (tmpl : T) (hval : Z) (prev l : list HashBucket) :
    res (option (list HashBucket * HashBucket * list HashBucket)) :=
  match l with
  | [] => Ok None
  | b :: l =>
      match st !! hb_ptr b with
      | None => Fault
      | Some obj =>
          if (hb_hvalue b =? hval) && (hf_cmp tmpl obj =? 0) then Ok (Some (prev, b, l))
          else bucket_find st tmpl hval (prev ++ [b]) l
      end
  end.

Definition bucket_ix (h : Hash) (hval : Z) : nat := Z.to_nat (hval mod h_size h).
Definition bucket_at (h : Hash) (hval : Z) : list HashBucket :=
  default [] (h_bucket h !! bucket_ix h hval).

(** The address of the object found, [None] for NULL. *)
Definition hash_get (st : store) (h : Hash) (tmpl : T) : res (option Z) :=
  hval ← hf_hash tmpl;
  r ← bucket_find st tmpl hval [] (bucket_at h hval);
  Ok (match r with Some (_, b, _) => Some (hb_ptr b) | None => None end).

(** The table, the store and the address of the object found or inserted. *)
Definition hash_put (st : store) (h : Hash) (tmpl : T) : res (store * Hash * Z) :=
  hval ← hf_hash tmpl;
  r ← bucket_find st tmpl hval [] (bucket_at h hval);
  match r with
  | Some (_, b, _) => Ok (st, h, hb_ptr b)
  | None =>
      let p := malloc st in
      let st := <[p := hf_alloc tmpl]> st in
      let nobjs := to_int (h_nobjs h + 1) in
      let h := set_bucket h (bucket_ix h hval) (mk_bucket hval p :: bucket_at h hval) nobjs in
      Ok (st, if nobjs >? h_grow_threshold h then rehash h true else h, p)
  end.

(** The address of the entry taken out, [None] when there is none. *)
Definition hash_remove (st : store) (h : Hash) (tmpl : T) : res (Hash * option Z) :=
  hval ← hf_hash tmpl;
  r ← bucket_find st tmpl hval [] (bucket_at h hval);
  match r with
  | None => Ok (h, None)
  | Some (prev, b, next) =>
      let nobjs := to_int (h_nobjs h - 1) in
      let h := set_bucket h (bucket_ix h hval) (prev ++ next) nobjs in
      Ok (if nobjs <? h_shrink_threshold h then rehash h false else h, Some (hb_ptr b))
  end.

(** [hash_erase] also frees the object; the result is whether it was there. *)
Definition hash_erase (st : store) (h : Hash) (tmpl : T) : res (store * Hash * bool) :=
  hval ← hf_hash tmpl;
  r ← bucket_find st tmpl hval [] (bucket_at h hval);
  match r with
  | None => Ok (st, h, false)
  | Some (prev, b, next) =>
      let nobjs := to_int (h_nobjs h - 1) in
      let h := set_bucket h (bucket_ix h hval) (prev ++ next) nobjs in
      let st := delete (hb_ptr b) st in
      Ok (st, if nobjs <? h_shrink_threshold h then rehash h false else h, true)
  end.

(** The addresses in the order in which [hash_foreach] calls [func]. *)
Definition hash_foreach (h : Hash) : list Z := hb_ptr <$> concat (h_bucket h).

(** [hash_delete] frees every object. *)
Definition hash_delete (st : store) (h : Hash) : store :=
  foldl (λ st l, foldl (λ st b, delete (hb_ptr b) st) st l) st (h_bucket h).

End Ops.

(** The loop of [hash_get_info] over the buckets. *)
Fixpoint info_loop (bs : list (list HashBucket)) (used max_depth : Z) : Z * Z :=
  match bs with
  | [] => (used, max_depth)
  | l :: bs =>
      let depth := zlen l in
      if negb (depth =? 0) then
        info_loop bs (used + 1) (if depth >? max_depth then depth else max_depth)
      else info_loop bs used max_depth
  end.

Definition hash_get_info (h : Hash) : HashInfo :=
  let '(used, depth) := info_loop (h_bucket h) 0 0 in
  mk_info (h_size h) used (h_nobjs h) depth.

(** * The table as a map *)

(** The entries of a table. *)
Definition nodes (h : Hash) : list HashBucket := concat (h_bucket h).

(** Every entry is in the bucket of its hash value. *)
Definition placed (size : Z) (bs : list (list HashBucket)) : Prop :=
  ∀ i l, bs !! i = Some l → Forall (λ b, Z.to_nat (hb_hvalue b mod size) = i) l.

(** The shape of a table: a size of the size table, the thresholds that go with it,
    the number of entries. *)
Record shape (h : Hash) : Prop := {
  sh_ix : h_min_size_ix h <= h_size_ix h;
  sh_min : 0 <= h_min_size_ix h;
  sh_size : h_size h = size_at (h_size_ix h);
  sh_pos : 0 < h_size h;
  sh_len : length (h_bucket h) = Z.to_nat (h_size h);
  sh_placed : placed (h_size h) (h_bucket h);
  sh_shrink : h_shrink_threshold h =
    if h_size_ix h >? h_min_size_ix h then h_size h / 5 else -1;
  sh_grow : h_grow_threshold h = 8 * h_size h / 5;
  sh_nobjs : h_nobjs h = zlen (nodes h);
  sh_int : h_nobjs h <= INT_MAX }.

(** The load stays below the grow threshold, unless the table is the largest one. *)
Definition load_ok (h : Hash) : Prop :=
  h_nobjs h <= h_grow_threshold h ∨ size_at (h_size_ix h + 1) = -1.

Section Rep.
Context {T K : Type} `{HashLaws T K} `{Countable K}.

(** [entry_ok st b]: the object of an entry is there, with the hash value stored. *)
Definition entry_ok (st : gmap Z T) (b : HashBucket) : Prop :=
  ∃ t, st !! hb_ptr b = Some t ∧ hok t ∧ hf_hash t = Ok (hb_hvalue b).

(** [entries_rep st ns m]: the entries [ns] map the keys of their objects to the
    addresses of these. *)
Record entries_rep (st : gmap Z T) (ns : list HashBucket) (m : gmap K Z) : Prop := {
  er_ok : Forall (entry_ok st) ns;
  er_nodup : NoDup (hb_ptr <$> ns);
  er_map k p : m !! k = Some p ↔ p ∈ hb_ptr <$> ns ∧ ∃ t, st !! p = Some t ∧ hkey t = k }.

(** [hash_rep st h m]: table [h] represents the map [m]. *)
Definition hash_rep (st : gmap Z T) (h : Hash) (m : gmap K Z) : Prop :=
  shape h ∧ entries_rep st (nodes h) m.
End Rep.

(** * Buckets and permutations *)

Lemma elem_of_concat {A} (x : A) ls : x ∈ concat ls ↔ ∃ l, x ∈ l ∧ l ∈ ls.
Proof.
  induction ls as [|l ls IH]; simpl.
  - split; [by intros ?%elem_of_nil|]. by intros (? & _ & ?%elem_of_nil).
  - rewrite elem_of_app, IH. setoid_rewrite elem_of_cons. split.
    + intros [?|(l' & ? & ?)]; eauto.
    + intros (l' & ? & [->|?]); eauto.
Qed.

(** Replacing one bucket. *)
Lemma concat_insert {A} (l : list (list A)) i x y :
  l !! i = Some x → concat (<[i := y]> l) ++ x ≡ₚ concat l ++ y.
Proof.
  intros Hi. rewrite <- (take_drop_middle l i x Hi) at 2.
  rewrite insert_take_drop by (by eapply lookup_lt_Some).
  rewrite !concat_app. simpl. rewrite <- !app_assoc. apply Permutation_app_head.
  rewrite (Permutation_app_comm y), (Permutation_app_comm (concat _) x). by rewrite <- app_assoc.
Qed.

Lemma concat_push {A} (l : list (list A)) i x b :
  l !! i = Some x → concat (<[i := b :: x]> l) ≡ₚ b :: concat l.
Proof.
  intros Hi. apply (Permutation_app_inv_r x). rewrite (concat_insert l i x (b :: x)) by done.
  simpl. symmetry. apply Permutation_middle.
Qed.

Lemma concat_replicate_nil {A} n : concat (replicate n (@nil A)) = [].
Proof. induction n; simpl; auto. Qed.

Lemma bucket_ix_lt size h : 0 < size → (Z.to_nat (h mod size) < Z.to_nat size)%nat.
Proof. intros. pose proof (Z.mod_pos_bound h size). lia. Qed.

Lemma placed_insert size bs i l :
  placed size bs → Forall (λ b, Z.to_nat (hb_hvalue b mod size) = i) l →
  placed size (<[i := l]> bs).
Proof.
  intros Hp Hl j l' Hj. destruct (decide (i = j)) as [->|Hne].
  - destruct (decide (j < length bs)%nat).
    + rewrite list_lookup_insert_eq in Hj by done. by injection Hj as <-.
    + rewrite list_insert_ge in Hj by lia. by apply Hp.
  - rewrite list_lookup_insert_ne in Hj by done. by apply Hp.
Qed.

Lemma placed_replicate size n : placed size (replicate n []).
Proof. intros i l [-> _]%lookup_replicate_1. constructor. Qed.

(** Pushing entries keeps the buckets placed and adds exactly them. *)
Lemma rehash_push_all size bs l :
  0 < size → length bs = Z.to_nat size → placed size bs →
  let nb := foldl (rehash_push size) bs l in
  length nb = Z.to_nat size ∧ placed size nb ∧ concat nb ≡ₚ l ++ concat bs.
Proof.
  intros Hs. revert bs. induction l as [|b l IH]; intros bs Hlen Hp; simpl; [done|].
  destruct (lookup_lt_is_Some_2 bs (Z.to_nat (hb_hvalue b mod size))) as [x Hx].
  { rewrite Hlen. by apply bucket_ix_lt. }
  destruct (IH (rehash_push size bs b)) as (H1 & H2 & H3).
  - unfold rehash_push. by rewrite length_insert.
  - unfold rehash_push. rewrite Hx. apply placed_insert; [done|].
    constructor; [done|]. by apply Hp.
  - split_and!; [done..|]. rewrite H3. unfold rehash_push. rewrite Hx.
    rewrite (concat_push bs _ x b Hx). symmetry. apply Permutation_middle.
Qed.

Lemma rehash_buckets size bs nb :
  0 < size → length nb = Z.to_nat size → placed size nb →
  let nb' := foldl (foldl (rehash_push size)) nb bs in
  length nb' = Z.to_nat size ∧ placed size nb' ∧ concat nb' ≡ₚ concat bs ++ concat nb.
Proof.
  intros Hs. revert nb. induction bs as [|l bs IH]; intros nb Hlen Hp; simpl; [done|].
  destruct (rehash_push_all size nb l) as (H1 & H2 & H3); auto.
  destruct (IH _ H1 H2) as (H4 & H5 & H6). split_and!; [done..|].
  rewrite H6, H3, <- app_assoc, (app_assoc l), (Permutation_app_comm l (concat bs)).
  by rewrite <- app_assoc.
Qed.

(** * Rehashing keeps the entries *)

(** The size table: 30 sizes, then -1. *)
Lemma size_at_spec ix :
  0 <= ix → (ix < 30 ∧ 0 < size_at ix < 2 ^ 26) ∨ (30 <= ix ∧ size_at ix = -1).
Proof.
  intros Hix. unfold size_at. destruct (decide (ix < 30)).
  - left. split; [done|].
    assert (Forall (λ s, 0 < s < 2 ^ 26) (take 30 h_size_table)) as Hall
      by (by repeat constructor).
    destruct (lookup_lt_is_Some_2 (take 30 h_size_table) (Z.to_nat ix)) as [s Hs].
    { rewrite length_take. simpl. lia. }
    pose proof (Forall_lookup_1 _ _ _ _ Hall Hs) as Hpos.
    rewrite lookup_take_Some in Hs. destruct Hs as [-> _]. done.
  - right. split; [lia|]. destruct (decide (ix = 30)) as [->|]; [done|].
    by rewrite lookup_ge_None_2 by (simpl; lia).
Qed.

Lemma set_thresholds_shape h :
  h_min_size_ix h <= h_size_ix h → 0 <= h_min_size_ix h → h_size h = size_at (h_size_ix h) →
  0 < h_size h → length (h_bucket h) = Z.to_nat (h_size h) →
  placed (h_size h) (h_bucket h) → h_nobjs h = zlen (nodes h) → h_nobjs h <= INT_MAX →
  shape (set_thresholds h).
Proof. intros. by constructor. Qed.

Lemma rehash_shape h grow :
  shape h → (grow = false → h_min_size_ix h < h_size_ix h) →
  shape (rehash h grow) ∧ nodes (rehash h grow) ≡ₚ nodes h.
Proof.
  intros Hh Hg. unfold rehash. set (ix := if grow then h_size_ix h + 1 else h_size_ix h - 1).
  pose proof (sh_ix h Hh). pose proof (sh_min h Hh). pose proof (sh_pos h Hh) as Hpos.
  rewrite (sh_size h Hh) in Hpos.
  assert (h_min_size_ix h <= ix) as Hix.
  { subst ix. destruct grow; [lia|]. specialize (Hg eq_refl). lia. }
  destruct (if grow then size_at ix =? -1 else h_size_ix h =? 0) eqn:E; [done|].
  assert (0 < size_at ix) as Hsz.
  { destruct (size_at_spec ix) as [[_ ?]|[Hge Hm]]; [lia|lia|].
    destruct grow; [by rewrite Hm in E|]. exfalso.
    destruct (size_at_spec (h_size_ix h)); lia. }
  destruct (rehash_buckets (size_at ix) (h_bucket h) (replicate (Z.to_nat (size_at ix)) []))
    as (H1 & H2 & H3); [done|apply length_replicate|apply placed_replicate|].
  rewrite concat_replicate_nil, app_nil_r in H3.
  split; [|exact H3]. apply set_thresholds_shape; simpl; auto.
  - rewrite (sh_nobjs h Hh). unfold nodes, zlen. simpl. by rewrite H3.
  - apply (sh_int h Hh).
Qed.

(** A change of one bucket. *)
Lemma set_bucket_shape h ix l x :
  shape h → h_bucket h !! ix = Some x →
  Forall (λ b, Z.to_nat (hb_hvalue b mod h_size h) = ix) l →
  h_nobjs h + (zlen l - zlen x) <= INT_MAX →
  let h' := set_bucket h ix l (h_nobjs h + (zlen l - zlen x)) in
  shape h' ∧ nodes h' ++ x ≡ₚ nodes h ++ l.
Proof.
  intros Hh Hx Hl Hmax h'. pose proof (concat_insert (h_bucket h) ix x l Hx) as Hp.
  split; [|exact Hp]. pose proof Hh as [? ? ? ? Hlen Hpl ? ? Hn ?]. constructor; simpl; auto.
  - by rewrite length_insert.
  - by apply placed_insert.
  - apply Permutation_length in Hp. rewrite Hn. unfold nodes, zlen in *. simpl.
    rewrite !length_app in Hp. lia.
Qed.

(** * The load factor *)

(** Neighbouring sizes: growing makes room, shrinking leaves room. *)
Lemma neighbour_sizes ix :
  0 <= ix < 29 → size_at ix < size_at (ix + 1) ∧ size_at (ix + 1) / 5 <= 8 * size_at ix / 5.
Proof.
  intros Hix.
  assert (forallb (λ n, (size_at (Z.of_nat n) <? size_at (Z.of_nat n + 1)) &&
    (size_at (Z.of_nat n + 1) / 5 <=? 8 * size_at (Z.of_nat n) / 5)) (seq 0 29) = true) as Hall
    by (by vm_compute).
  rewrite forallb_forall in Hall. specialize (Hall (Z.to_nat ix)).
  rewrite Z2Nat.id, andb_true_iff, Z.ltb_lt, Z.leb_le in Hall by lia. apply Hall.
  apply in_seq. lia.
Qed.

Lemma rehash_grow_load h :
  shape h → h_nobjs h <= h_grow_threshold h + 1 ∨ size_at (h_size_ix h + 1) = -1 →
  load_ok (rehash h true).
Proof.
  intros Hh Hn. unfold rehash, load_ok. pose proof (sh_min h Hh). pose proof (sh_ix h Hh).
  destruct (Z.eqb_spec (size_at (h_size_ix h + 1)) (-1)) as [|Hne]; [by right|]. left. simpl.
  destruct Hn as [Hn|]; [|done]. rewrite (sh_grow h Hh), (sh_size h Hh) in Hn.
  destruct (size_at_spec (h_size_ix h + 1)) as [[Hlt _]|[_ ?]]; [lia| |lia].
  destruct (neighbour_sizes (h_size_ix h)) as [Hs _]; [lia|]. dlia.
Qed.

Lemma rehash_shrink_load h :
  shape h → load_ok h → h_nobjs h < h_shrink_threshold h → load_ok (rehash h false).
Proof.
  intros Hh Hl Hn. unfold rehash. destruct (Z.eqb_spec (h_size_ix h) 0); [done|]. left. simpl.
  pose proof (sh_min h Hh). pose proof (sh_ix h Hh). pose proof (sh_pos h Hh) as Hp.
  rewrite (sh_shrink h Hh), (sh_size h Hh) in Hn. rewrite (sh_size h Hh) in Hp.
  destruct (size_at_spec (h_size_ix h)) as [[Hlt _]|[_ ?]]; [lia| |lia].
  destruct (neighbour_sizes (h_size_ix h - 1)) as [_ Hs]; [lia|].
  replace (h_size_ix h - 1 + 1) with (h_size_ix h) in Hs by lia.
  destruct (h_size_ix h >? h_min_size_ix h); [lia|].
  assert (0 <= size_at (h_size_ix h) / 5) by dlia. lia.
Qed.

(** * The operations on the map *)

Section Spec.
Context {T K : Type} `{HashLaws T K} `{Countable K}.

#[export] Instance entries_rep_proper st :
  Proper ((≡ₚ) ==> eq ==> iff) (entries_rep (K := K) st).
Proof.
  assert (∀ ns ns' m, ns ≡ₚ ns' → entries_rep (K := K) st ns m → entries_rep st ns' m) as Hgo.
  { intros ns ns' m Hp [Hok Hnd Hm]. constructor.
    - by rewrite <- Hp.
    - by rewrite <- Hp.
    - intros k p. rewrite Hm. by rewrite Hp. }
  intros ns ns' Hp m ? <-. split; eauto using Permutation_sym.
Qed.

Lemma entries_rep_nil st : entries_rep st [] (∅ : gmap K Z).
Proof.
  constructor; [constructor..|]. intros k p. rewrite lookup_empty. simpl.
  split; [done|]. by intros [?%elem_of_nil _].
Qed.

Lemma entries_rep_ptr st ns (m : gmap K Z) b :
  entries_rep st ns m → b ∈ ns → ∃ t, st !! hb_ptr b = Some t ∧ hok t ∧
    hf_hash t = Ok (hb_hvalue b) ∧ m !! hkey t = Some (hb_ptr b).
Proof.
  intros [Hok Hnd Hm] Hb. destruct (proj1 (Forall_forall _ _) Hok b Hb) as (t & Ht & Hk & Hh).
  exists t. split_and!; auto. apply Hm. split; [by apply list_elem_of_fmap_2|eauto].
Qed.

(** An entry for a new object. *)
Lemma entries_rep_cons st ns (m : gmap K Z) p o hv :
  entries_rep st ns m → st !! p = None → hok o → hf_hash o = Ok hv → m !! hkey o = None →
  entries_rep (<[p := o]> st) (mk_bucket hv p :: ns) (<[hkey o := p]> m).
Proof.
  intros Hr Hp Ho Hh Hk. pose proof Hr as [Hok Hnd Hm].
  assert (p ∉ hb_ptr <$> ns) as Hpn.
  { intros (b & -> & Hb)%list_elem_of_fmap_1.
    destruct (entries_rep_ptr _ _ _ _ Hr Hb) as (t & Ht & _). congruence. }
  constructor.
  - constructor; [exists o; simpl; by rewrite lookup_insert_eq|].
    eapply Forall_impl; [exact Hok|]. intros b (t & Ht & Hrest). exists t.
    split; [|done]. rewrite lookup_insert_ne; [done|]. intros ->. congruence.
  - simpl. by constructor.
  - intros k q. simpl. rewrite elem_of_cons.
    destruct (decide (hkey o = k)) as [<-|Hne].
    + rewrite lookup_insert_eq. split.
      * intros [= <-]. split; [by left|]. exists o. by rewrite lookup_insert_eq.
      * intros [[->|Hq] (t & Ht & E)]; [done|]. exfalso.
        rewrite lookup_insert_ne in Ht by (by intros ->).
        assert (m !! hkey o = Some q) by (apply Hm; eauto). congruence.
    + rewrite lookup_insert_ne by done. rewrite Hm. split.
      * intros [Hq (t & Ht & E)]. split; [by right|]. exists t.
        rewrite lookup_insert_ne; [done|]. by intros ->.
      * intros [[->|Hq] (t & Ht & E)].
        -- rewrite lookup_insert_eq in Ht. injection Ht as <-. done.
        -- split; [done|]. exists t. rewrite lookup_insert_ne in Ht; [done|]. by intros ->.
Qed.

(** Taking an entry out; its object may be freed. *)
Lemma entries_rep_uncons st ns (m : gmap K Z) b t :
  entries_rep st (b :: ns) m → st !! hb_ptr b = Some t →
  entries_rep st ns (delete (hkey t) m) ∧
  entries_rep (delete (hb_ptr b) st) ns (delete (hkey t) m).
Proof.
  intros Hr Ht. pose proof Hr as [Hok Hnd Hm]. simpl in Hnd.
  apply NoDup_cons in Hnd as [Hb Hnd]. apply Forall_cons in Hok as [_ Hok].
  assert (entries_rep st ns (delete (hkey t) m)) as Hr1.
  { constructor; [done..|]. intros k p.
    rewrite lookup_delete_Some, Hm. simpl. rewrite elem_of_cons. split.
    - intros (Hne & [->|Hp] & t' & Ht' & <-); [|by eauto].
      rewrite Ht in Ht'. by injection Ht' as <-.
    - intros (Hp & t' & Ht' & <-). split_and!; eauto. intros E.
      assert (m !! hkey t' = Some p) as E1 by (apply Hm; simpl; rewrite elem_of_cons; eauto).
      assert (m !! hkey t = Some (hb_ptr b)) as E2
        by (apply Hm; simpl; rewrite elem_of_cons; eauto).
      rewrite E, E1 in E2. by injection E2 as ->. }
  split; [done|]. destruct Hr1 as [_ _ Hm1].
  assert (∀ p, p ∈ hb_ptr <$> ns → delete (hb_ptr b) st !! p = st !! p) as Hdel.
  { intros p Hp. apply lookup_delete_ne. by intros <-. }
  constructor; [|done|].
  - apply Forall_forall. intros b' Hb'. destruct (proj1 (Forall_forall _ _) Hok b' Hb') as (t' & Ht' & ?).
    exists t'. split; [|done]. rewrite Hdel; [done|]. by apply list_elem_of_fmap_2.
  - intros k p. rewrite Hm1. split; intros (Hp & t' & Ht' & <-); split; auto; exists t';
      by rewrite Hdel in *.
Qed.

Lemma bucket_find_spec st tmpl hval prev l :
  Forall (entry_ok st) l → hok tmpl → hf_hash tmpl = Ok hval →
  (bucket_find st tmpl hval prev l = Ok None ∧
   ∀ b t, b ∈ l → st !! hb_ptr b = Some t → hkey t ≠ hkey tmpl) ∨
  (∃ l1 b l2 t, bucket_find st tmpl hval prev l = Ok (Some (prev ++ l1, b, l2)) ∧
     l = l1 ++ b :: l2 ∧ st !! hb_ptr b = Some t ∧ hkey t = hkey tmpl).
Proof.
  intros Hl Ht Hh. revert prev. induction Hl as [|b l (t & Hb & Hk & Hv) Hl IH]; intros prev; simpl.
  { left. split; [done|]. by intros b t ?%elem_of_nil. }
  rewrite Hb. destruct (decide (hkey t = hkey tmpl)) as [E|E].
  - right. exists [], b, l, t. rewrite app_nil_r.
    assert (hf_cmp tmpl t = 0) as -> by (by apply hf_cmp_key).
    assert (hb_hvalue b = hval) as ->.
    { rewrite (hf_hash_key t tmpl) in Hv by done. congruence. }
    by rewrite Z.eqb_refl.
  - assert ((hf_cmp tmpl t =? 0) = false) as ->.
    { apply Z.eqb_neq. intros Hc%hf_cmp_key. by rewrite Hc in E. }
    rewrite andb_false_r. destruct (IH (prev ++ [b])) as [[-> Hno]|(l1 & b' & l2 & t' & -> & -> & ?)].
    + left. split; [done|]. intros b' t' [->|Hb']%elem_of_cons Ht'; [|by eapply Hno].
      rewrite Hb in Ht'. by injection Ht' as <-.
    + right. exists (b :: l1), b', l2, t'. by rewrite <- app_assoc.
Qed.

Lemma bucket_at_lookup h hv :
  shape h → h_bucket h !! bucket_ix h hv = Some (bucket_at h hv).
Proof.
  intros Hh. unfold bucket_at. destruct (lookup_lt_is_Some_2 (h_bucket h) (bucket_ix h hv)) as [l ->].
  - rewrite (sh_len h Hh). apply bucket_ix_lt. by destruct Hh.
  - done.
Qed.

Lemma bucket_at_nodes h hv b : shape h → b ∈ bucket_at h hv → b ∈ nodes h.
Proof.
  intros Hh Hb. apply elem_of_concat.
  exists (bucket_at h hv). split; [done|]. eapply list_elem_of_lookup_2. by apply bucket_at_lookup.
Qed.

(** An entry is in the bucket of its hash value. *)
Lemma nodes_bucket_at h b : shape h → b ∈ nodes h → b ∈ bucket_at h (hb_hvalue b).
Proof.
  intros Hh (l & Hb & [i Hi]%list_elem_of_lookup_1)%elem_of_concat.
  pose proof (sh_placed h Hh i l Hi) as Hp.
  pose proof (proj1 (Forall_forall _ _) Hp b Hb) as Hix. simpl in Hix.
  unfold bucket_at, bucket_ix. by rewrite Hix, Hi.
Qed.

(** The walk along the bucket of the template's hash value decides the map. *)
Lemma hash_find st h (m : gmap K Z) tmpl :
  hash_rep st h m → hok tmpl →
  ∃ hval, hf_hash tmpl = Ok hval ∧ 0 <= hval ∧
    ((bucket_find st tmpl hval [] (bucket_at h hval) = Ok None ∧ m !! hkey tmpl = None) ∨
     (∃ l1 b l2 t, bucket_find st tmpl hval [] (bucket_at h hval) = Ok (Some (l1, b, l2)) ∧
        bucket_at h hval = l1 ++ b :: l2 ∧ st !! hb_ptr b = Some t ∧
        hkey t = hkey tmpl ∧ m !! hkey tmpl = Some (hb_ptr b))).
Proof.
  intros [Hsh Hr] Ht. destruct (hf_hash_ok tmpl Ht) as (hval & Hh & Hp).
  exists hval. split_and!; auto.
  assert (Forall (entry_ok st) (bucket_at h hval)) as Hok.
  { apply Forall_forall. intros b Hb. eapply (proj1 (Forall_forall _ _) (er_ok _ _ _ Hr)).
    by eapply bucket_at_nodes. }
  destruct (bucket_find_spec st tmpl hval [] (bucket_at h hval) Hok Ht Hh)
    as [[E Hno]|(l1 & b & l2 & t & E & El & Hb & Hk)].
  - left. split; [done|]. destruct (m !! hkey tmpl) as [p|] eqn:Em; [|done]. exfalso.
    apply (er_map _ _ _ Hr) in Em as [(b & -> & Hb)%list_elem_of_fmap_1 (t & Ht' & Hkt)].
    destruct (entries_rep_ptr _ _ _ _ Hr Hb) as (t' & Ht'' & Hok' & Hh' & _).
    assert (t' = t) as -> by congruence.
    rewrite (hf_hash_key t tmpl Hok' Ht Hkt), Hh in Hh'. injection Hh' as ->.
    apply (Hno b t); auto. by apply nodes_bucket_at.
  - right. exists l1, b, l2, t. split_and!; auto.
    rewrite <- Hk. destruct (entries_rep_ptr _ _ _ b Hr) as (t' & Ht'' & _ & _ & Em).
    { apply bucket_at_nodes with hval; [done|]. rewrite El. set_solver. }
    assert (t' = t) as -> by congruence. done.
Qed.

Lemma hash_get_spec st h (m : gmap K Z) tmpl :
  hash_rep st h m → hok tmpl → hash_get st h tmpl = Ok (m !! hkey tmpl).
Proof.
  intros Hr Ht. destruct (hash_find st h m tmpl Hr Ht) as (hval & Hh & _ & Hf).
  unfold hash_get. rewrite Hh, bind_Ok.
  destruct Hf as [[-> ->]|(l1 & b & l2 & t & -> & _ & _ & _ & ->)]; done.
Qed.

Lemma hash_put_spec malloc st h (m : gmap K Z) tmpl :
  hash_rep st h m → hok tmpl → st !! malloc st = None → h_nobjs h < INT_MAX →
  ∃ st' h' p, hash_put malloc st h tmpl = Ok (st', h', p) ∧
    hash_rep st' h' (<[hkey tmpl := p]> m) ∧ (load_ok h → load_ok h') ∧
    match m !! hkey tmpl with
    | Some q => p = q ∧ st' = st ∧ h' = h
    | None => p = malloc st ∧ st' = <[p := hf_alloc tmpl]> st
    end.
Proof.
  intros Hrep Ht Hfresh Hmax. pose proof Hrep as [Hsh Hr].
  destruct (hash_find st h m tmpl Hrep Ht) as (hval & Hh & Hpos & Hf).
  unfold hash_put. rewrite Hh, bind_Ok.
  destruct Hf as [[-> Hm]|(l1 & b & l2 & t & -> & _ & _ & _ & Hm)]; rewrite bind_Ok, Hm; cbv iota.
  2:{ exists st, h, (hb_ptr b). split_and!; auto. by rewrite insert_id. }
  pose proof (sh_nobjs h Hsh). pose proof (zlen_nonneg (nodes h)).
  rewrite (to_int_small (h_nobjs h + 1)) by lia.
  set (p := malloc st) in *. set (nb := mk_bucket hval p).
  destruct (set_bucket_shape h (bucket_ix h hval) (nb :: bucket_at h hval) (bucket_at h hval) Hsh)
    as [Hsh' Hp'].
  { by apply bucket_at_lookup. }
  { constructor; [done|]. apply (sh_placed h Hsh). by apply bucket_at_lookup. }
  { zl. }
  replace (h_nobjs h + (zlen (nb :: bucket_at h hval) - zlen (bucket_at h hval)))
    with (h_nobjs h + 1) in * by zl.
  set (h1 := set_bucket h (bucket_ix h hval) (nb :: bucket_at h hval) (h_nobjs h + 1)) in *.
  assert (nodes h1 ≡ₚ nb :: nodes h) as Hn.
  { apply (Permutation_app_inv_r (bucket_at h hval)). rewrite Hp'. symmetry. apply Permutation_middle. }
  assert (entries_rep (<[p := hf_alloc tmpl]> st) (nodes h1) (<[hkey tmpl := p]> m)) as Hr1.
  { rewrite Hn, <- (hf_alloc_key tmpl). apply entries_rep_cons; auto using hf_alloc_ok.
    - rewrite <- Hh. apply hf_hash_key; auto using hf_alloc_ok, hf_alloc_key.
    - by rewrite hf_alloc_key. }
  eexists _, _, p. split; [done|]. rewrite Z.gtb_ltb.
  destruct (Z.ltb_spec (h_grow_threshold h1) (h_nobjs h + 1)) as [Hgr|Hgr]; split_and!; try done.
  - destruct (rehash_shape h1 true Hsh') as [? Hp2]; [done|]. split; [done|]. by rewrite Hp2.
  - intros Hl. apply rehash_grow_load; [done|]. simpl. destruct Hl; [left; lia|by right].
  - intros _. by left.
Qed.

(** Taking the entry [b] out of its bucket, and shrinking the table. *)
Lemma take_out_rep st h (m : gmap K Z) hval l1 b l2 t :
  hash_rep st h m → bucket_at h hval = l1 ++ b :: l2 → st !! hb_ptr b = Some t →
  let h1 := set_bucket h (bucket_ix h hval) (l1 ++ l2) (to_int (h_nobjs h - 1)) in
  let h2 := if to_int (h_nobjs h - 1) <? h_shrink_threshold h1 then rehash h1 false else h1 in
  hash_rep st h2 (delete (hkey t) m) ∧
  hash_rep (delete (hb_ptr b) st) h2 (delete (hkey t) m) ∧ (load_ok h → load_ok h2).
Proof.
  intros [Hsh Hr] El Hb. pose proof (sh_int h Hsh) as Hmax. pose proof (sh_nobjs h Hsh) as Hcount. pose proof (zlen_nonneg (nodes h)).
  rewrite (to_int_small (h_nobjs h - 1)) by (unfold INT_MAX in *; lia). intros h1 h2.
  destruct (set_bucket_shape h (bucket_ix h hval) (l1 ++ l2) (bucket_at h hval) Hsh)
    as [Hsh' Hp'].
  { by apply bucket_at_lookup. }
  { pose proof (sh_placed h Hsh _ _ (bucket_at_lookup h hval Hsh)) as Hpl. rewrite El in Hpl.
    rewrite Forall_app, Forall_cons in Hpl. rewrite Forall_app. naive_solver. }
  { rewrite El, !zlen_app, zlen_cons. lia. }
  replace (h_nobjs h + (zlen (l1 ++ l2) - zlen (bucket_at h hval)))
    with (h_nobjs h - 1) in * by (rewrite El, !zlen_app, zlen_cons; lia).
  fold h1 in Hsh', Hp'.
  assert (nodes h ≡ₚ b :: nodes h1) as Hn.
  { apply (Permutation_app_inv_r (l1 ++ l2)). rewrite <- Hp', El.
    rewrite <- app_comm_cons. rewrite <- !Permutation_middle. done. }
  rewrite Hn in Hr. destruct (entries_rep_uncons _ _ _ _ _ Hr Hb) as [Hr1 Hr2].
  assert (shape h2 ∧ nodes h2 ≡ₚ nodes h1) as [Hsh2 Hp2].
  { subst h2. destruct (Z.ltb_spec (h_nobjs h - 1) (h_shrink_threshold h1)) as [Hlt|]; [|done].
    apply rehash_shape; [done|]. intros _. pose proof (sh_shrink h1 Hsh') as Hthr.
    rewrite Z.gtb_ltb in Hthr. destruct (Z.ltb_spec (h_min_size_ix h1) (h_size_ix h1)); [done|].
    pose proof (sh_nobjs h1 Hsh') as Hnobj. simpl in Hnobj. pose proof (zlen_nonneg (nodes h1)). lia. }
  split_and!; [by split; [|rewrite Hp2]..|]. intros Hl.
  assert (load_ok h1) by (destruct Hl; [left; simpl; lia|by right]).
  subst h2. destruct (Z.ltb_spec (h_nobjs h - 1) (h_shrink_threshold h1)); [|done].
  by apply rehash_shrink_load.
Qed.

Lemma hash_remove_spec st h (m : gmap K Z) tmpl :
  hash_rep st h m → hok tmpl →
  ∃ h', hash_remove st h tmpl = Ok (h', m !! hkey tmpl) ∧
    hash_rep st h' (delete (hkey tmpl) m) ∧ (load_ok h → load_ok h').
Proof.
  intros Hrep Ht. destruct (hash_find st h m tmpl Hrep Ht) as (hval & Hh & _ & Hf).
  unfold hash_remove. rewrite Hh, bind_Ok.
  destruct Hf as [[-> Hm]|(l1 & b & l2 & t & -> & El & Hb & Hk & Hm)]; rewrite bind_Ok, Hm.
  - exists h. split; [done|]. by rewrite delete_id.
  - eexists. split; [done|]. rewrite <- Hk.
    destruct (take_out_rep st h m hval l1 b l2 t Hrep El Hb) as (? & _ & ?). done.
Qed.

Lemma hash_erase_spec st h (m : gmap K Z) tmpl :
  hash_rep st h m → hok tmpl →
  ∃ st' h', hash_erase st h tmpl = Ok (st', h', bool_decide (is_Some (m !! hkey tmpl))) ∧
    hash_rep st' h' (delete (hkey tmpl) m) ∧ (load_ok h → load_ok h') ∧
    st' = match m !! hkey tmpl with Some p => delete p st | None => st end.
Proof.
  intros Hrep Ht. destruct (hash_find st h m tmpl Hrep Ht) as (hval & Hh & _ & Hf).
  unfold hash_erase. rewrite Hh, bind_Ok.
  destruct Hf as [[-> Hm]|(l1 & b & l2 & t & -> & El & Hb & Hk & Hm)]; rewrite bind_Ok, Hm.
  - exists st, h. split; [done|]. by rewrite delete_id.
  - eexists _, _. split; [done|]. rewrite <- Hk.
    destruct (take_out_rep st h m hval l1 b l2 t Hrep El Hb) as (_ & ? & ?). done.
Qed.

Lemma hash_init_spec size h (st : gmap Z T) :
  hash_init size = Some h → size <= h_size h ∧ load_ok h ∧ hash_rep st h (∅ : gmap K Z).
Proof.
  unfold hash_init. set (ix := size_index h_size_table 0 size).
  destruct (Z.eqb_spec (size_at ix) (-1)) as [|Hne]; [done|]. intros [= <-]. simpl.
  assert (Hgen : ∀ tab i, let j := size_index tab i size in
    i <= j ∧ (match tab !! Z.to_nat (j - i) with Some s => s = -1 ∨ size <= s | None => True end)).
  { induction tab as [|s tab IH]; intros i; simpl; [lia|].
    destruct (negb (s =? -1) && (s <? size)) eqn:E.
    - destruct (IH (i + 1)) as [Hle Hm]. split; [lia|].
      replace (size_index tab (i + 1) size - i) with (size_index tab (i + 1) size - (i + 1) + 1) by lia.
      rewrite Z2Nat.inj_add by lia. change (Z.to_nat 1) with 1%nat. by rewrite Nat.add_1_r.
    - split; [lia|]. rewrite Z.sub_diag. simpl.
      destruct (Z.eqb_spec s (-1)); [by left|]. right. simpl in E. by apply Z.ltb_ge in E. }
  destruct (Hgen h_size_table 0) as [Hle Hm]. fold ix in Hle, Hm. rewrite Z.sub_0_r in Hm.
  unfold size_at in *. destruct (h_size_table !! Z.to_nat ix) as [s|] eqn:Es; [|done]. simpl in *.
  assert (0 < s) as Hs.
  { destruct (size_at_spec ix Hle) as [[_ Hp]|[_ Hp]]; unfold size_at in Hp; rewrite Es in Hp;
      simpl in Hp; lia. }
  split; [naive_solver|]. split; [left; simpl; apply Z.div_pos; lia|]. split.
  - apply set_thresholds_shape; simpl; auto; [lia|..].
    + unfold size_at. by rewrite Es.
    + apply length_replicate.
    + apply placed_replicate.
    + unfold nodes. simpl. by rewrite concat_replicate_nil.
    + done.
  - unfold nodes. simpl. rewrite concat_replicate_nil. apply entries_rep_nil.
Qed.

(** What [hash_foreach] visits: every object of the map, once. *)
Lemma hash_foreach_spec st h (m : gmap K Z) :
  hash_rep st h m →
  NoDup (hash_foreach h) ∧ ∀ p, p ∈ hash_foreach h ↔ ∃ k, m !! k = Some p.
Proof.
  intros [Hsh Hr]. unfold hash_foreach. fold (nodes h). split; [by destruct Hr|].
  intros p. setoid_rewrite (er_map _ _ _ Hr). split; [|by intros (k & ? & _)].
  intros Hp. pose proof Hp as (b & -> & Hb)%list_elem_of_fmap_1.
  destruct (entries_rep_ptr _ _ _ _ Hr Hb) as (t & Ht & _). eauto.
Qed.

Lemma hash_rep_size st h (m : gmap K Z) :
  hash_rep st h m → h_nobjs h = Z.of_nat (size m).
Proof.
  intros Hrep. pose proof Hrep as [Hsh Hr]. rewrite (sh_nobjs h Hsh). unfold zlen. f_equal.
  destruct (hash_foreach_spec st h m Hrep) as [Hnd Hin]. unfold hash_foreach in *. fold (nodes h) in *.
  rewrite <- (length_fmap hb_ptr). rewrite <- length_map_to_list, <- (length_fmap snd).
  apply Permutation_length, NoDup_Permutation; [done| |].
  - apply NoDup_fmap_2_strong; [|apply NoDup_map_to_list].
    intros [k1 p1] [k2 p2] Hm1%elem_of_map_to_list Hm2%elem_of_map_to_list Heq. simpl in Heq. subst p2.
    apply (er_map _ _ _ Hr) in Hm1 as (_ & t1 & Ht1 & <-).
    apply (er_map _ _ _ Hr) in Hm2 as (_ & t2 & Ht2 & <-). by simplify_eq.
  - intros p. rewrite Hin, list_elem_of_fmap. split.
    + intros [k Hk]. exists (k, p). by rewrite elem_of_map_to_list.
    + intros ([k q] & -> & Hk%elem_of_map_to_list). eauto.
Qed.
End Spec.
