(* ===== verification/Index.v ===== *)
(** Index tables (erts/emulator/beam/index.c, index.h): a hash table whose objects are
    numbered in the order of their insertion, with a two-level vector from the numbers
    back to the objects.  The atom, module and export tables are index tables.

    [seg_table] is a list of pages of 1024 cells; a page that has not been allocated and
    a cell that has not been written are [None].  [erts_exit] is the outcome [None] of an
    operation. *)
From S2P Require Import Prelude Hash.

Definition INDEX_PAGE_SHIFT : Z := 10.
Definition INDEX_PAGE_SIZE : Z := Z.shiftl 1 INDEX_PAGE_SHIFT.
Definition INDEX_PAGE_MASK : Z := Z.shiftl 1 INDEX_PAGE_SHIFT - 1.

(** The [index] field of the objects ([IndexSlot]). *)
Class IndexFun (T : Type) := {
  slot_index : T → Z;
  set_slot_index : Z → T → T }.

(** The index is not part of the key, and [alloc] sets it to -1. *)
Class IndexLaws (T K : Type) `{HashLaws T K} `{IndexFun T} := {
  slot_set i t : slot_index (set_slot_index i t) = i;
  set_slot_key i t : hkey (set_slot_index i t) = hkey t;
  set_slot_ok i t : hok t → hok (set_slot_index i t);
  alloc_slot t : slot_index (hf_alloc t) = -1 }.

Abbreviation page := (list (option Z)).

Record IndexTable := mk_index {
  t_htable : Hash; t_size : Z; t_limit : Z; t_entries : Z;
  t_seg_table : list (option page) }.

(** The number of pages of a table with a limit, computed in [int]. *)
Definition index_pages (limit : Z) : Z := Z.quot (to_int (to_int (limit + INDEX_PAGE_SIZE) - 1)) INDEX_PAGE_SIZE.

(** [seg_table[ix>>INDEX_PAGE_SHIFT][ix&INDEX_PAGE_MASK]] *)
Definition erts_index_lookup (t : IndexTable) (ix : Z) : res Z :=
  match t_seg_table t !! Z.to_nat (Z.shiftr ix INDEX_PAGE_SHIFT) with
  | Some (Some pg) =>
      match pg !! Z.to_nat (Z.land ix INDEX_PAGE_MASK) with
      | Some (Some p) => Ok p
      | _ => Fault
      end
  | _ => Fault
  end.

(** The same cell, written. *)
Definition seg_set (seg : list (option page)) (ix p : Z) : res (list (option page)) :=
  match seg !! Z.to_nat (Z.shiftr ix INDEX_PAGE_SHIFT) with
  | Some (Some pg) =>
      match pg !! Z.to_nat (Z.land ix INDEX_PAGE_MASK) with
      | Some _ => Ok (<[Z.to_nat (Z.shiftr ix INDEX_PAGE_SHIFT) :=
                        Some (<[Z.to_nat (Z.land ix INDEX_PAGE_MASK) := Some p]> pg)]> seg)
      | None => Fault
      end
  | _ => Fault
  end.

(** [seg_table[ix>>INDEX_PAGE_SHIFT] = erts_alloc(..)] *)
Definition seg_alloc (seg : list (option page)) (ix : Z) : res (list (option page)) :=
  let j := Z.to_nat (Z.shiftr ix INDEX_PAGE_SHIFT) in
  match seg !! j with
  | Some _ => Ok (<[j := Some (replicate (Z.to_nat INDEX_PAGE_SIZE) None)]> seg)
  | None => Fault
  end.

(** [hash_init] returns NULL for a size beyond the size table, which
    [erts_index_init] does not check. *)
Definition erts_index_init (size limit : Z) : option IndexTable :=
  match hash_init (Z.quot (to_int (3 * size)) 4) with
  | None => None
  | Some h => Some (mk_index h 0 limit 0 (replicate (Z.to_nat (index_pages limit)) None))
  end.

Section Ops.
Context {T : Type} `{HashFun T} `{IndexFun T}.
Abbreviation store := (gmap Z T).
Context (malloc : store → Z).

Definition deref (st : store) (p : Z) : res T :=
  match st !! p with Some o => Ok o | None => Fault end.

(** The store, the table and the address of the object; [None] for [erts_exit]. *)
Definition index_put_entry (st : store) (t : IndexTable) (tmpl : T) :
    res (option (store * IndexTable * Z)) :=
  '(st, h, p) ← hash_put malloc st (t_htable t) tmpl;
  o ← deref st p;
  if slot_index o >=? 0 then
    Ok (Some (st, mk_index h (t_size t) (t_limit t) (t_entries t) (t_seg_table t), p))
  else
    let ix := t_entries t in
    if (ix >=? t_size t) && (ix >=? t_limit t) then Ok None
    else
      seg ← (if ix >=? t_size t then seg_alloc (t_seg_table t) ix else Ok (t_seg_table t));
      let size := if ix >=? t_size t then to_int (t_size t + INDEX_PAGE_SIZE) else t_size t in
      let st := <[p := set_slot_index ix o]> st in
      seg ← seg_set seg ix p;
      Ok (Some (st, mk_index h size (t_limit t) (to_int (ix + 1)) seg, p)).

Definition index_put (st : store) (t : IndexTable) (tmpl : T) :
    res (option (store * IndexTable * Z)) :=
  r ← index_put_entry st t tmpl;
  match r with
  | None => Ok None
  | Some (st, t, p) => o ← deref st p; Ok (Some (st, t, slot_index o))
  end.

Definition index_get (st : store) (t : IndexTable) (tmpl : T) : res Z :=
  p ← hash_get st (t_htable t) tmpl;
  match p with
  | Some p => o ← deref st p; Ok (slot_index o)
  | None => Ok (-1)
  end.

(** [for (ix = from_ix; ix < entries; ix++)]: [n] rounds. *)
Fixpoint erase_loop (n : nat) (st : store) (t : IndexTable) (h : Hash) (ix : Z) :
    res (store * Hash) :=
  match n with
  | O => Ok (st, h)
  | S n =>
      p ← erts_index_lookup t ix;
      o ← deref st p;
      '(st, h, _) ← hash_erase st h o;
      erase_loop n st t h (ix + 1)
  end.

Definition index_erase_latest_from (st : store) (t : IndexTable) (from_ix : Z) :
    res (store * IndexTable) :=
  if from_ix <? t_entries t then
    '(st, h) ← erase_loop (Z.to_nat (t_entries t - from_ix)) st t (t_htable t) from_ix;
    Ok (st, mk_index h (t_size t) (t_limit t) from_ix (t_seg_table t))
  else Ok (st, t).

End Ops.

(** * Pages *)

Lemma page_ix ix : Z.shiftr ix INDEX_PAGE_SHIFT = ix / 1024.
Proof. unfold INDEX_PAGE_SHIFT. by rewrite Z.shiftr_div_pow2. Qed.

Lemma page_off ix : Z.land ix INDEX_PAGE_MASK = ix mod 1024.
Proof. change INDEX_PAGE_MASK with (Z.ones 10). by rewrite Z.land_ones. Qed.

(** [cells_ok n seg]: the first [n] cells are on pages that have been allocated. *)
Definition pages_ok (seg : list (option page)) (npages : Z) : Prop :=
  ∀ j, 0 <= j < npages → ∃ pg, seg !! Z.to_nat j = Some (Some pg) ∧ length pg = 1024%nat.

(** The cell at an index, when it has been written. *)
Definition cell (seg : list (option page)) (ix : Z) : option Z :=
  match seg !! Z.to_nat (ix / 1024) with
  | Some (Some pg) => mjoin (pg !! Z.to_nat (ix mod 1024))
  | _ => None
  end.

Lemma lookup_cell t ix p : erts_index_lookup t ix = Ok p ↔ cell (t_seg_table t) ix = Some p.
Proof.
  unfold erts_index_lookup, cell. rewrite page_ix, page_off.
  destruct (_ !! _) as [[pg|]|]; try (split; congruence).
  destruct (pg !! _) as [[q|]|]; simpl; split; congruence.
Qed.

Lemma seg_set_spec seg npages ix p :
  pages_ok seg npages → 0 <= ix < npages * 1024 →
  ∃ seg', seg_set seg ix p = Ok seg' ∧ length seg' = length seg ∧ pages_ok seg' npages ∧
    cell seg' ix = Some p ∧ ∀ i, 0 <= i → i ≠ ix → cell seg' i = cell seg i.
Proof.
  intros Hpg Hix. unfold seg_set. rewrite page_ix, page_off.
  assert (0 <= ix / 1024 < npages) as Hj by dlia.
  assert (0 <= ix mod 1024 < 1024) as Ho by dlia.
  destruct (Hpg _ Hj) as (pg & Hpg1 & Hlen). rewrite Hpg1.
  destruct (lookup_lt_is_Some_2 pg (Z.to_nat (ix mod 1024))) as [c Hc]; [lia|]. rewrite Hc.
  pose proof (lookup_lt_Some _ _ _ Hpg1) as Hlt.
  eexists. split; [done|]. split; [apply length_insert|]. split_and!.
  - intros j Hj'. destruct (decide (j = ix / 1024)) as [->|Hne].
    + rewrite list_lookup_insert_eq by done. eexists. split; [done|]. by rewrite length_insert.
    + rewrite list_lookup_insert_ne by lia. by apply Hpg.
  - unfold cell. rewrite list_lookup_insert_eq by done.
    rewrite list_lookup_insert_eq by lia. done.
  - intros i Hi Hne. unfold cell. destruct (decide (i / 1024 = ix / 1024)) as [E|E].
    + rewrite E, list_lookup_insert_eq by done. rewrite Hpg1.
      rewrite list_lookup_insert_ne; [done|]. dlia.
    + rewrite list_lookup_insert_ne by dlia. done.
Qed.

Lemma seg_alloc_spec seg npages ix :
  pages_ok seg npages → ix = npages * 1024 → 0 <= npages → npages < Z.of_nat (length seg) →
  ∃ seg', seg_alloc seg ix = Ok seg' ∧ length seg' = length seg ∧ pages_ok seg' (npages + 1) ∧
    ∀ i, 0 <= i < ix → cell seg' i = cell seg i.
Proof.
  intros Hpg -> Hn Hlen. unfold seg_alloc. rewrite page_ix, Z.div_mul by lia.
  destruct (lookup_lt_is_Some_2 seg (Z.to_nat npages)) as [c ->]; [lia|].
  eexists. split; [done|]. split; [apply length_insert|]. split.
  - intros j Hj. destruct (decide (j = npages)) as [->|].
    + rewrite list_lookup_insert_eq by lia. eexists. split; [done|]. apply length_replicate.
    + rewrite list_lookup_insert_ne by lia. apply Hpg. lia.
  - intros i Hi. unfold cell. rewrite list_lookup_insert_ne by dlia. done.
Qed.

(** * The table as a list of keys *)

(** The number of objects a table can hold: its limit, rounded up to whole pages. *)
Definition index_capacity (limit : Z) : Z := index_pages limit * INDEX_PAGE_SIZE.

(** The largest limit for which the number of pages is computed without an overflow. *)
Definition max_limit : Z := INT_MAX - INDEX_PAGE_SIZE.

Lemma index_pages_eq limit : 0 <= limit <= max_limit → index_pages limit = (limit + 1023) / 1024.
Proof.
  unfold index_pages, max_limit, INT_MAX. change INDEX_PAGE_SIZE with 1024. intros Hl.
  rewrite (to_int_small (limit + 1024)), to_int_small by (unfold INT_MAX; lia).
  rewrite Z.quot_div_nonneg by lia. f_equal. lia.
Qed.

Lemma index_pages_bound limit : 0 <= limit <= max_limit → 0 <= index_pages limit ∧ index_pages limit * 1024 < INT_MAX.
Proof. intros Hl. rewrite index_pages_eq by done. unfold max_limit, INT_MAX in *. change INDEX_PAGE_SIZE with 1024 in *. split; dlia. Qed.

Section Rep.
Context {T K : Type} `{IndexLaws T K} `{Countable K}.

(** [index_rep st t m ks]: [ks] are the keys of the table in the order of their
    indices, and [m] their objects. *)
Record index_rep (st : gmap Z T) (t : IndexTable) (m : gmap K Z) (ks : list K) : Prop := {
  ir_hash : hash_rep st (t_htable t) m;
  ir_entries : t_entries t = zlen ks;
  ir_nodup : NoDup ks;
  ir_dom k : is_Some (m !! k) ↔ k ∈ ks;
  ir_obj i k : ks !! i = Some k → ∃ p o, m !! k = Some p ∧ st !! p = Some o ∧
    slot_index o = Z.of_nat i ∧ cell (t_seg_table t) (Z.of_nat i) = Some p;
  ir_pages : ∃ np, 0 <= np <= index_pages (t_limit t) ∧ t_size t = np * 1024 ∧
    pages_ok (t_seg_table t) np ∧ zlen ks <= np * 1024;
  ir_len : length (t_seg_table t) = Z.to_nat (index_pages (t_limit t));
  ir_limit : 0 <= t_limit t <= max_limit }.

Lemma deref_Some (st : gmap Z T) p o : st !! p = Some o → deref st p = Ok o.
Proof. unfold deref. by intros ->. Qed.

(** Objects may be changed as long as their keys stay. *)
Lemma hash_rep_update st h (m : gmap K Z) p o o' :
  hash_rep st h m → st !! p = Some o → hkey o' = hkey o → (hok o → hok o') →
  hash_rep (<[p := o']> st) h m.
Proof.
  intros [Hsh [Hok Hnd Hm]] Hp Hk Ho. split; [done|]. constructor; [|done|].
  - eapply Forall_impl; [exact Hok|]. intros b (t & Ht & Hokt & Hh).
    destruct (decide (hb_ptr b = p)) as [<-|Hne].
    + assert (t = o) as -> by congruence. exists o'. rewrite lookup_insert_eq.
      split_and!; auto. rewrite <- Hh. by apply hf_hash_key; auto.
    + exists t. by rewrite lookup_insert_ne.
  - intros k q. rewrite Hm. split; intros [Hq (t & Ht & <-)]; (split; [done|]);
      (destruct (decide (p = q)) as [<-|Hne];
       [|exists t; rewrite lookup_insert_ne in *; done]).
    + exists o'. rewrite lookup_insert_eq. split; [done|]. congruence.
    + rewrite lookup_insert_eq in Ht. injection Ht as <-. eauto.
Qed.

Lemma ir_ptr st t (m : gmap K Z) ks k p :
  index_rep st t m ks → m !! k = Some p → ∃ i o, ks !! i = Some k ∧ st !! p = Some o ∧
    hkey o = k ∧ slot_index o = Z.of_nat i ∧ cell (t_seg_table t) (Z.of_nat i) = Some p.
Proof.
  intros Hr Hp. assert (k ∈ ks) as [i Hi]%list_elem_of_lookup_1 by (apply (ir_dom _ _ _ _ Hr); eauto).
  destruct (ir_obj _ _ _ _ Hr i k Hi) as (q & o & Hq & Ho & Hs & Hc).
  assert (q = p) as -> by congruence. exists i, o. split_and!; auto.
  destruct (ir_hash _ _ _ _ Hr) as [_ [_ _ Hm]]. apply Hm in Hp as (_ & o' & Ho' & Hk). congruence.
Qed.

Lemma index_get_spec st t (m : gmap K Z) ks tmpl :
  index_rep st t m ks → hok tmpl →
  ∃ r, index_get st t tmpl = Ok r ∧
    (∀ i, ks !! i = Some (hkey tmpl) → r = Z.of_nat i) ∧ (hkey tmpl ∉ ks → r = -1).
Proof.
  intros Hr Ht. unfold index_get. rewrite (hash_get_spec st (t_htable t) m tmpl); [|by destruct Hr|done].
  rewrite bind_Ok. destruct (m !! hkey tmpl) as [p|] eqn:E.
  - destruct (ir_ptr _ _ _ _ _ _ Hr E) as (i & o & Hi & Ho & _ & Hs & _).
    unfold deref. rewrite Ho, bind_Ok. eexists. split; [done|]. split.
    + intros j Hj. assert (j = i) as ->; [|done].
      by apply (NoDup_lookup ks j i (hkey tmpl) (ir_nodup _ _ _ _ Hr)).
    + intros Hno. destruct Hno. by eapply list_elem_of_lookup_2.
  - eexists. split; [done|]. split; [|done]. intros i Hi%list_elem_of_lookup_2.
    apply (ir_dom _ _ _ _ Hr) in Hi as [p Hp]. congruence.
Qed.

Lemma index_lookup_spec st t (m : gmap K Z) ks i k :
  index_rep st t m ks → ks !! i = Some k →
  ∃ p o, erts_index_lookup t (Z.of_nat i) = Ok p ∧ st !! p = Some o ∧ hkey o = k ∧
    slot_index o = Z.of_nat i.
Proof.
  intros Hr Hi. destruct (ir_obj _ _ _ _ Hr i k Hi) as (p & o & Hm & Ho & Hs & Hc).
  exists p, o. split_and!; auto; [by apply lookup_cell|].
  destruct (ir_ptr _ _ _ _ _ _ Hr Hm) as (j & o' & _ & Ho' & Hk & _). congruence.
Qed.

Lemma index_rep_init size limit t :
  erts_index_init size limit = Some t → 0 <= limit <= max_limit → index_rep ∅ t (∅ : gmap K Z) [].
Proof.
  unfold erts_index_init. destruct (hash_init (Z.quot (to_int (3 * size)) 4)) as [h|] eqn:E; [|done].
  intros [= <-] Hl. destruct (hash_init_spec (K := K) _ h ∅ E) as (_ & _ & Hrep).
  constructor; simpl; auto.
  - constructor.
  - intros k. rewrite lookup_empty. split; [by intros [? ?]|by intros ?%elem_of_nil].
  - intros i k Hi. by rewrite lookup_nil in Hi.
  - exists 0. unfold zlen. simpl. split_and!; try lia.
    + by apply index_pages_bound.
    + intros j Hj. lia.
  - apply length_replicate.
Qed.

(** A new object at the end. *)
Lemma index_rep_push st t (m : gmap K Z) ks h' st' p o seg size :
  index_rep st t m ks →
  hash_rep st' h' (<[hkey o := p]> m) → m !! hkey o = None → st !! p = None → st' = <[p := o]> st →
  (∃ np, 0 <= np <= index_pages (t_limit t) ∧ size = np * 1024 ∧ pages_ok seg np ∧
     zlen ks + 1 <= np * 1024) →
  length seg = length (t_seg_table t) → cell seg (zlen ks) = Some p →
  (∀ i, 0 <= i < zlen ks → cell seg i = cell (t_seg_table t) i) →
  index_rep (<[p := set_slot_index (zlen ks) o]> st')
    (mk_index h' size (t_limit t) (zlen ks + 1) seg) (<[hkey o := p]> m) (ks ++ [hkey o]).
Proof.
  intros Hr Hh Hm Hp -> Hnp Hlen Hc Hcs. pose proof Hr as [_ He Hnd Hd Ho _ Hl Hlim].
  assert (hkey o ∉ ks) as Hnin by (rewrite <- Hd, Hm; by intros [? ?]).
  constructor; simpl; auto.
  - eapply hash_rep_update; [done|by rewrite lookup_insert_eq|apply set_slot_key|apply set_slot_ok].
  - rewrite zlen_app. done.
  - apply NoDup_app. split_and!; [done| |apply NoDup_singleton].
    intros k Hk ->%list_elem_of_singleton. done.
  - intros k. rewrite elem_of_app, list_elem_of_singleton, lookup_insert_is_Some', Hd. split; (intros [?|?]; [right|left]; congruence || done).
  - intros i k [Hi|[Hi Hk]]%lookup_app_Some.
    + destruct (Ho i k Hi) as (q & o' & Hq & Hqo & Hs & Hcq). exists q, o'.
      assert (k ≠ hkey o) by (intros ->; apply Hnin; by eapply list_elem_of_lookup_2).
      assert (p ≠ q) by congruence. rewrite !lookup_insert_ne by done.
      split_and!; auto. rewrite Hcs; [done|]. apply lookup_lt_Some in Hi. unfold zlen. lia.
    + apply list_lookup_singleton_Some in Hk as [Hi0 <-].
      assert (Z.of_nat i = zlen ks) as Ei by (unfold zlen; lia).
      exists p, (set_slot_index (zlen ks) o). rewrite !lookup_insert_eq, slot_set, Ei. done.
  - destruct Hnp as (np & ? & ? & ? & ?). exists np. rewrite zlen_app. done.
  - by rewrite Hlen.
Qed.

(** The hash table counts the keys. *)
Lemma index_nobjs st t (m : gmap K Z) ks : index_rep st t m ks → h_nobjs (t_htable t) = zlen ks.
Proof.
  intros Hr. rewrite (hash_rep_size st _ m (ir_hash _ _ _ _ Hr)). unfold zlen. f_equal.
  rewrite <- size_dom. assert (dom m = list_to_set (C := gset K) ks) as ->.
  { apply set_eq. intros k. by rewrite elem_of_dom, elem_of_list_to_set, (ir_dom _ _ _ _ Hr). }
  apply size_list_to_set, (ir_nodup _ _ _ _ Hr).
Qed.

Lemma index_put_spec malloc st t (m : gmap K Z) ks tmpl :
  index_rep st t m ks → hok tmpl → st !! malloc st = None →
  match list_find (λ k, k = hkey tmpl) ks with
  | Some (i, _) => ∃ st' t', index_put malloc st t tmpl = Ok (Some (st', t', Z.of_nat i)) ∧
      index_rep st' t' m ks ∧ st' = st ∧ t_limit t' = t_limit t
  | None =>
      if zlen ks =? index_capacity (t_limit t) then index_put malloc st t tmpl = Ok None
      else ∃ st' t' m' p, index_put malloc st t tmpl = Ok (Some (st', t', zlen ks)) ∧
        index_rep st' t' m' (ks ++ [hkey tmpl]) ∧ t_limit t' = t_limit t ∧
        erts_index_lookup t' (zlen ks) = Ok p ∧
        st' !! p = Some (set_slot_index (zlen ks) (hf_alloc tmpl))
  end.
Proof.
  intros Hr Ht Hfresh. pose proof Hr as [Hh He Hnd Hd Ho (np & Hnp & Hsz & Hpg & Hks) Hl Hlim].
  unfold index_put, index_put_entry. destruct (index_pages_bound (t_limit t) Hlim) as [Hpn Hpb].
  assert (h_nobjs (t_htable t) < INT_MAX) as Hmax by (rewrite (index_nobjs st t m ks Hr); lia).
  destruct (hash_put_spec malloc st (t_htable t) m tmpl Hh Ht Hfresh Hmax)
    as (st' & h' & p & -> & Hh' & _ & Hcase). rewrite bind_Ok.
  destruct (list_find (λ k, k = hkey tmpl) ks) as [[i k]|] eqn:Ef.
  - apply list_find_Some in Ef as (Hi & -> & _).
    destruct (Ho i (hkey tmpl) Hi) as (q & o & Hq & Hqo & Hs & Hc). rewrite Hq in Hcase.
    destruct Hcase as (-> & -> & ->). unfold deref. rewrite Hqo, !bind_Ok, Hs, Z.geb_leb.
    destruct (Z.leb_spec 0 (Z.of_nat i)); [|lia]. rewrite bind_Ok, Hqo, bind_Ok, Hs.
    eexists _, _. split; [done|]. split; [|done].
    rewrite insert_id in Hh' by done. constructor; simpl; eauto.
  - assert (hkey tmpl ∉ ks) as Hnin.
    { intros Hin. apply list_find_None in Ef. by apply (proj1 (Forall_forall _ _) Ef _ Hin). }
    assert (m !! hkey tmpl = None) as Hm.
    { destruct (m !! hkey tmpl) as [q|] eqn:E; [|done]. destruct Hnin. apply Hd. eauto. }
    rewrite Hm in Hcase. destruct Hcase as [-> ->]. set (p := malloc st) in *.
    rewrite (deref_Some _ p (hf_alloc tmpl)), bind_Ok, alloc_slot by apply lookup_insert_eq.
    cbn [Z.geb Z.compare].
    rewrite He, !Z.geb_leb, Hsz. unfold index_capacity. change INDEX_PAGE_SIZE with 1024.
    pose proof (index_pages_eq (t_limit t) Hlim) as Hpe. pose proof (zlen_nonneg ks). rewrite (to_int_small (zlen ks + 1)) by lia. set (P := index_pages (t_limit t)) in *.
    destruct (Z.leb_spec (np * 1024) (zlen ks)) as [Hfull|Hroom]; cbn [andb].
    + destruct (Z.leb_spec (t_limit t) (zlen ks)), (Z.eqb_spec (zlen ks) (P * 1024)); try done;
        try (exfalso; dlia).
      rewrite (to_int_small (np * 1024 + 1024)) by (split; dlia).
      destruct (seg_alloc_spec (t_seg_table t) np (zlen ks)) as (seg & -> & Hl1 & Hp1 & Hc1);
        [done|lia|lia|rewrite Hl; dlia|]. rewrite bind_Ok.
      destruct (seg_set_spec seg (np + 1) (zlen ks) p) as (seg2 & -> & Hl2 & Hp2 & Hc2 & Hc3);
        [done|lia|]. rewrite !bind_Ok. unfold deref. rewrite lookup_insert_eq, bind_Ok, slot_set.
      eexists _, _, _, p. split; [done|].
      split; [|split_and!; [done|by apply lookup_cell|apply lookup_insert_eq]].
      rewrite <- (hf_alloc_key tmpl) in *.
      apply (index_rep_push st t m ks h' _ p (hf_alloc tmpl)); auto; [|congruence|].
      * exists (np + 1). split_and!; [dlia|dlia|lia|done|lia].
      * intros i Hi. rewrite Hc3 by lia. apply Hc1. lia.
    + destruct (Z.eqb_spec (zlen ks) (P * 1024)); [exfalso; dlia|]. rewrite bind_Ok.
      destruct (seg_set_spec (t_seg_table t) np (zlen ks) p) as (seg2 & -> & Hl2 & Hp2 & Hc2 & Hc3);
        [done|pose proof (zlen_nonneg ks); lia|]. rewrite !bind_Ok. unfold deref.
      rewrite lookup_insert_eq, bind_Ok, slot_set.
      eexists _, _, _, p. split; [done|].
      split; [|split_and!; [done|by apply lookup_cell|apply lookup_insert_eq]].
      rewrite <- (hf_alloc_key tmpl) in *.
      apply (index_rep_push st t m ks h' _ p (hf_alloc tmpl)); auto.
      * exists np. split_and!; [lia|lia|lia|done|lia].
      * intros i Hi. apply Hc3; lia.
Qed.

Lemma hash_rep_obj st h (m : gmap K Z) k p :
  hash_rep st h m → m !! k = Some p → ∃ o, st !! p = Some o ∧ hkey o = k ∧ hok o.
Proof.
  intros [_ Hr] Hm. pose proof Hm as [Hp (o & Ho & <-)]%(er_map _ _ _ Hr).
  exists o. split_and!; auto. apply list_elem_of_fmap_1 in Hp as (b & -> & Hb).
  destruct (entries_rep_ptr _ _ _ _ Hr Hb) as (o' & Ho' & Hok & _). congruence.
Qed.

(** [cut m st m' st' l]: the keys [l] and their objects are gone, nothing else changed. *)
Definition cut (m : gmap K Z) (st : gmap Z T) (m' : gmap K Z) (st' : gmap Z T) (l : list K) : Prop :=
  ∀ k, if decide (k ∈ l) then m' !! k = None
       else m' !! k = m !! k ∧ ∀ p, m !! k = Some p → st' !! p = st !! p.

Lemma erase_loop_spec t ks n st h (m : gmap K Z) ix :
  hash_rep st h m → NoDup ks → (ix + n = length ks)%nat →
  (∀ i k, (ix <= i)%nat → ks !! i = Some k →
     ∃ p, m !! k = Some p ∧ cell (t_seg_table t) (Z.of_nat i) = Some p) →
  ∃ st' h' m', erase_loop n st t h (Z.of_nat ix) = Ok (st', h') ∧ hash_rep st' h' m' ∧
    cut m st m' st' (drop ix ks).
Proof.
  intros Hr Hnd. revert st h m ix Hr. induction n as [|n IH]; intros st h m ix Hr Hlen Hks; simpl.
  { exists st, h, m. split_and!; auto. intros k. rewrite drop_ge by lia.
    destruct (decide _) as [[]%elem_of_nil|]; done. }
  destruct (lookup_lt_is_Some_2 ks ix) as [k Hk]; [lia|].
  destruct (Hks ix k) as (p & Hp & Hc); [lia|done|]. apply lookup_cell in Hc. rewrite Hc, bind_Ok.
  destruct (hash_rep_obj st h m k p Hr Hp) as (o & Ho & Hok & Hokk).
  rewrite (deref_Some _ p o Ho), bind_Ok.
  destruct (hash_erase_spec st h m o Hr Hokk) as (st1 & h1 & -> & Hr1 & _ & Hst1).
  rewrite bind_Ok. rewrite Hok in *. rewrite Hp in Hst1. subst st1.
  replace (Z.of_nat ix + 1) with (Z.of_nat (S ix)) by lia.
  destruct (IH _ h1 (delete k m) (S ix) Hr1) as (st' & h' & m' & -> & Hr' & Hcut).
  { lia. }
  { intros i k' Hi Hk'. destruct (Hks i k') as (q & Hq & Hcq); [lia|done|].
    exists q. split; [|done]. rewrite lookup_delete_ne; [done|]. intros ->.
    assert (i = ix); [|lia]. by eapply (NoDup_lookup ks). }
  exists st', h', m'. split_and!; auto. rewrite (drop_S ks k ix Hk). intros k'.
  specialize (Hcut k'). destruct (decide (k' ∈ drop (S ix) ks)) as [Hin|Hin].
  { rewrite decide_True; [done|]. by right. }
  destruct (decide (k = k')) as [<-|Hne].
  - rewrite decide_True by (by left). rewrite (proj1 Hcut). apply lookup_delete_eq.
  - rewrite decide_False by (rewrite elem_of_cons; naive_solver).
    rewrite lookup_delete_ne in Hcut by done. destruct Hcut as [-> Hst]. split; [done|].
    intros q Hq. rewrite Hst by done. rewrite lookup_delete_ne; [done|]. intros ->.
    destruct (hash_rep_obj st h m k' q Hr Hq) as (o' & Ho' & Hk' & _). congruence.
Qed.

Lemma index_erase_spec st t (m : gmap K Z) ks from :
  index_rep st t m ks → (from <= length ks)%nat →
  ∃ st' t' m', index_erase_latest_from st t (Z.of_nat from) = Ok (st', t') ∧
    index_rep st' t' m' (take from ks) ∧ t_limit t' = t_limit t.
Proof.
  intros Hr Hf. pose proof Hr as [Hh He Hnd Hd Ho (np & Hnp & Hsz & Hpg & Hks) Hl Hlim].
  unfold index_erase_latest_from. rewrite He. unfold zlen.
  destruct (Z.ltb_spec (Z.of_nat from) (Z.of_nat (length ks))) as [Hlt|Hge].
  2:{ exists st, t, m. rewrite take_ge by lia. done. }
  replace (Z.to_nat (Z.of_nat (length ks) - Z.of_nat from)) with (length ks - from)%nat by lia.
  destruct (erase_loop_spec t ks (length ks - from) st (t_htable t) m from Hh Hnd)
    as (st' & h' & m' & -> & Hr' & Hcut); [lia| |].
  { intros i k _ Hi. destruct (Ho i k Hi) as (p & o & Hp & _ & _ & Hc). eauto. }
  rewrite bind_Ok. eexists _, _, m'. split; [done|]. split; [|done].
  assert (∀ k, k ∈ take from ks → k ∉ drop from ks) as Hdisj.
  { rewrite <- (take_drop from ks) in Hnd. apply NoDup_app in Hnd as (_ & Hdj & _). exact Hdj. }
  constructor; simpl; auto.
  - unfold zlen. rewrite length_take. lia.
  - rewrite <- (take_drop from ks) in Hnd. by apply NoDup_app in Hnd as (? & _ & _).
  - intros k. specialize (Hcut k). destruct (decide (k ∈ drop from ks)) as [Hin|Hin].
    + rewrite Hcut. split; [by intros [? ?]|]. intros Hk. by destruct (Hdisj k Hk).
    + rewrite (proj1 Hcut), Hd. rewrite <- (take_drop from ks) at 1. rewrite elem_of_app. tauto.
  - intros i k Hi. pose proof (list_elem_of_lookup_2 _ _ _ Hi) as Hin.
    apply lookup_take_Some in Hi as [Hi Hlt']. destruct (Ho i k Hi) as (p & o & Hp & Hpo & Hs & Hc).
    specialize (Hcut k). rewrite decide_False in Hcut by (by apply Hdisj).
    destruct Hcut as [Hm Hst]. exists p, o. rewrite Hm, (Hst p Hp). done.
  - exists np. split_and!; auto; try lia. unfold zlen in *. rewrite length_take. lia.
Qed.
End Rep.
