(* ===== verification/Utf8.v ===== *)
(** UTF-8 validation (erts/emulator/beam/erl_unicode.c, [analyze_utf8]) against the
    definition of UTF-8: the encodings of Unicode scalar values. *)
From S2P Require Import Prelude Scan.

Definition ERTS_UTF8_OK : Z := 0.
Definition ERTS_UTF8_INCOMPLETE : Z := 1.
Definition ERTS_UTF8_ERROR : Z := 2.
Definition ERTS_UTF8_ANALYZE_MORE : Z := 3.
Definition ERTS_UTF8_OK_MAX_CHARS : Z := 4.

(** * The code *)

(** What the chain of tests makes of one character. *)
Inductive utf8_char :=
| UC_ok (n : Z) (latin1 : bool)
| UC_incomplete
| UC_error.

Definition is_cont (c : Z) : bool := Z.land c 192 =? 128.

Definition utf8_next (b : bytes) (source size : Z) : res utf8_char :=
  c ← rd b source;
  if Z.land c 128 =? 0 then Ok (UC_ok 1 true)
  else if Z.land c 224 =? 192 then
    if size <? 2 then Ok UC_incomplete
    else
      c1 ← rd b (source + 1);
      Ok (if negb (is_cont c1) || (c <? 194) then UC_error
          else UC_ok 2 (Z.land c 252 =? 192))
  else if Z.land c 240 =? 224 then
    if size <? 3 then Ok UC_incomplete
    else
      c1 ← rd b (source + 1); c2 ← rd b (source + 2);
      Ok (if negb (is_cont c1) || negb (is_cont c2) || ((c =? 224) && (c1 <? 160)) then UC_error
          else if (Z.land c 15 =? 13) && negb (Z.land c1 32 =? 0) then UC_error
          else UC_ok 3 false)
  else if Z.land c 248 =? 240 then
    if size <? 4 then Ok UC_incomplete
    else
      c1 ← rd b (source + 1); c2 ← rd b (source + 2); c3 ← rd b (source + 3);
      Ok (if negb (is_cont c1) || negb (is_cont c2) || negb (is_cont c3)
             || ((c =? 240) && (c1 <? 144)) then UC_error
          else if (Z.land c 7 >? 4) || ((Z.land c 7 =? 4) && (Z.land c1 63 >? 15)) then UC_error
          else UC_ok 4 false)
  else Ok UC_error.

(** The result, [*err_pos], [*num_chars], [*num_latin1_chars] when it is written, and
    [*left]. *)
Record utf8_result := mk_utf8 {
  ur_code : Z; ur_err_pos : Z; ur_num_chars : Z; ur_latin1 : option Z; ur_left : option Z }.

(** [while (size) ..]; [latin1] is [Some (latin1_count, is_latin1)] when
    [num_latin1_chars] is not NULL. *)
Fixpoint analyze_loop (fuel : nat) (b : bytes) (source size num_chars : Z)
    (latin1 : option (Z * bool)) (left : option Z) (max_chars : Z) : res utf8_result :=
  if size =? 0 then
    Ok (mk_utf8 ERTS_UTF8_OK source num_chars
          ((λ '(n, l), if l : bool then n else -1) <$> latin1) left)
  else match fuel with
  | O => NoFuel
  | S fuel =>
      u ← utf8_next b source size;
      match u with
      | UC_incomplete => Ok (mk_utf8 ERTS_UTF8_INCOMPLETE source num_chars None left)
      | UC_error => Ok (mk_utf8 ERTS_UTF8_ERROR source num_chars None left)
      | UC_ok n l =>
          let source := source + n in
          let size := size - n in
          let latin1 := (λ '(cnt, lat), (if n <=? 2 then cnt + 1 else cnt, lat && l)) <$> latin1 in
          let num_chars := num_chars + 1 in
          if negb (max_chars =? 0) && (size >? 0) && (num_chars =? max_chars) then
            Ok (mk_utf8 ERTS_UTF8_OK_MAX_CHARS source num_chars None left)
          else
            let left := Z.pred <$> left in
            if (match left with Some k => (k <=? 0) && negb (size =? 0) | None => false end) then
              Ok (mk_utf8 ERTS_UTF8_ANALYZE_MORE source num_chars None left)
            else analyze_loop fuel b source size num_chars latin1 left max_chars
      end
  end.

Definition analyze_utf8 (b : bytes) (source size : Z) (left : option Z)
    (num_latin1_chars : bool) (max_chars : Z) : res utf8_result :=
  analyze_loop (Z.to_nat size) b source size 0
    (if num_latin1_chars then Some (0, true) else None) left max_chars.

Definition erts_analyze_utf8 (b : bytes) (source size : Z) (left : option Z) : res utf8_result :=
  analyze_utf8 b source size left false 0.
Definition erts_analyze_utf8_x (b : bytes) (source size : Z) (left : option Z) (max_chars : Z) :
    res utf8_result :=
  analyze_utf8 b source size left true max_chars.

(** * UTF-8 *)

(** Unicode scalar values: the code points that are not surrogates. *)
Definition scalar (cp : Z) : Prop := 0 <= cp < 1114112 ∧ ¬ (55296 <= cp < 57344).

Definition utf8_encode (cp : Z) : bytes :=
  if cp <? 128 then [cp]
  else if cp <? 2048 then [192 + cp / 64; 128 + cp mod 64]
  else if cp <? 65536 then [224 + cp / 4096; 128 + cp / 64 mod 64; 128 + cp mod 64]
  else [240 + cp / 262144; 128 + cp / 4096 mod 64; 128 + cp / 64 mod 64; 128 + cp mod 64].

Definition utf8 (cps : list Z) : bytes := concat (map utf8_encode cps).

(** * Characters *)

(** A test on bytes is settled by trying the 256 of them. *)
Lemma byte_check (P : Z → bool) :
  forallb (λ n, P (Z.of_nat n)) (seq 0 256) = true → ∀ c, byte c → P c = true.
Proof.
  rewrite forallb_forall. intros Hall c [Hc1 Hc2]. specialize (Hall (Z.to_nat c)).
  rewrite Z2Nat.id in Hall by done. apply Hall. apply in_seq. lia.
Qed.

Lemma byte_tests c : byte c →
  (Z.land c 128 =? 0) = (c <? 128) ∧
  (Z.land c 224 =? 192) = (192 <=? c) && (c <? 224) ∧
  (Z.land c 240 =? 224) = (224 <=? c) && (c <? 240) ∧
  (Z.land c 248 =? 240) = (240 <=? c) && (c <? 248) ∧
  is_cont c = (128 <=? c) && (c <? 192) ∧
  (Z.land c 252 =? 192) = (192 <=? c) && (c <? 196) ∧
  Z.land c 15 = c mod 16 ∧ Z.land c 7 = c mod 8 ∧ Z.land c 63 = c mod 64 ∧
  (Z.land c 32 =? 0) = (c mod 64 <? 32).
Proof.
  intros Hc. change 15 with (Z.ones 4). change 7 with (Z.ones 3). change 63 with (Z.ones 6).
  rewrite !Z.land_ones by lia.
  pose proof (byte_check (λ c, Bool.eqb (Z.land c 128 =? 0) (c <? 128) &&
    Bool.eqb (Z.land c 224 =? 192) ((192 <=? c) && (c <? 224)) &&
    Bool.eqb (Z.land c 240 =? 224) ((224 <=? c) && (c <? 240)) &&
    Bool.eqb (Z.land c 248 =? 240) ((240 <=? c) && (c <? 248)) &&
    Bool.eqb (is_cont c) ((128 <=? c) && (c <? 192)) &&
    Bool.eqb (Z.land c 252 =? 192) ((192 <=? c) && (c <? 196)) &&
    Bool.eqb (Z.land c 32 =? 0) (c mod 64 <? 32)) eq_refl c Hc) as Hall.
  rewrite !andb_true_iff, !Bool.eqb_true_iff in Hall. tauto.
Qed.

(** [cases]: rewrite the byte tests and split on the comparisons. *)
Ltac byte_facts c Hc :=
  destruct (byte_tests c Hc) as (-> & -> & -> & -> & _ & -> & -> & -> & _ & _).

Ltac bcase :=
  repeat match goal with
  | |- context [?a <? ?b] => destruct (Z.ltb_spec a b); try lia
  | |- context [?a <=? ?b] => destruct (Z.leb_spec a b); try lia
  | |- context [?a =? ?b] => destruct (Z.eqb_spec a b); try lia
  end; simpl; try done.

Lemma cont_byte x : 0 <= x < 64 → byte (128 + x) ∧ is_cont (128 + x) = true.
Proof.
  intros Hx. assert (byte (128 + x)) as Hb by (unfold byte; lia). split; [done|].
  destruct (byte_tests _ Hb) as (_ & _ & _ & _ & -> & _). bcase.
Qed.

Lemma is_cont_inv c : byte c → is_cont c = true → 128 <= c < 192.
Proof.
  intros Hc. destruct (byte_tests c Hc) as (_ & _ & _ & _ & -> & _). bcase.
Qed.

Lemma utf8_encode_bytes cp : scalar cp → Forall byte (utf8_encode cp).
Proof.
  intros [Hr _]. unfold utf8_encode, byte. bcase; repeat constructor; dlia.
Qed.

Lemma rd_1 x y l : rd (x :: y :: l) 1 = Ok y.
Proof. done. Qed.
Lemma rd_2 x y z l : rd (x :: y :: z :: l) 2 = Ok z.
Proof. done. Qed.
Lemma rd_3 x y z w l : rd (x :: y :: z :: w :: l) 3 = Ok w.
Proof. done. Qed.

(** The first bytes of the rest of the text. *)
Ltac rd_head := rewrite ?rd_app_hd, ?rd_app_r, ?rd_1, ?rd_2, ?rd_3 by lia; rewrite ?bind_Ok.

Lemma mod_of_add a b m : 0 <= b < m → (a * m + b) mod m = b.
Proof. intros. rewrite Z.add_comm, Z.mod_add by lia. by apply Z.mod_small. Qed.

(** The encoding of a scalar value is accepted. *)
Lemma utf8_next_encode pre cp post size :
  scalar cp → zlen (utf8_encode cp) <= size →
  utf8_next (pre ++ utf8_encode cp ++ post) (zlen pre) size =
  Ok (UC_ok (zlen (utf8_encode cp)) (cp <? 256)).
Proof.
  intros Hs Hsz. pose proof (utf8_encode_bytes cp Hs) as Hb. destruct Hs as [Hr Hsur].
  unfold utf8_next. unfold utf8_encode in *.
  destruct (Z.ltb_spec cp 128); [|destruct (Z.ltb_spec cp 2048);
    [|destruct (Z.ltb_spec cp 65536)]]; cbn [app]; rd_head;
    apply Forall_cons in Hb as [Hb _];
    destruct (byte_tests _ Hb) as (-> & -> & -> & -> & _ & -> & -> & -> & _ & _).
  - bcase.
  - change (zlen [_; _]) with 2 in *.
    destruct (cont_byte (cp mod 64)) as [_ ->]; [dlia|].
    destruct (Z.ltb_spec (192 + cp / 64) 128), (Z.leb_spec 192 (192 + cp / 64)),
      (Z.ltb_spec (192 + cp / 64) 224), (Z.ltb_spec size 2), (Z.ltb_spec (192 + cp / 64) 194),
      (Z.ltb_spec (192 + cp / 64) 196), (Z.ltb_spec cp 256); try dlia; done.
  - change (zlen [_; _; _]) with 3 in *. 
    assert (0 <= cp / 64 mod 64 < 64) as Hx by dlia.
    destruct (cont_byte (cp mod 64)) as [_ ->]; [dlia|].
    destruct (cont_byte (cp / 64 mod 64)) as [Hb1 ->]; [done|].
    destruct (byte_tests _ Hb1) as (_ & _ & _ & _ & _ & _ & _ & _ & _ & ->).
    replace ((128 + cp / 64 mod 64) mod 64) with (cp / 64 mod 64) by dlia.
    replace ((224 + cp / 4096) mod 16) with (cp / 4096) by dlia.
    set (x := cp / 64 mod 64) in *. set (h := cp / 4096).
    assert (cp = h * 4096 + x * 64 + cp mod 64) as Ecp by (subst x h; dlia).
    assert (0 <= cp mod 64 < 64) by dlia. set (z := cp mod 64) in *.
    clear Hb Hb1. clearbody x h z. subst cp. cbn [negb orb].
    destruct (Z.ltb_spec (224 + h) 128), (Z.leb_spec 192 (224 + h)), (Z.ltb_spec (224 + h) 224),
      (Z.leb_spec 224 (224 + h)), (Z.ltb_spec (224 + h) 240), (Z.ltb_spec size 3); try lia.
    cbn [andb]. destruct (Z.eqb_spec (224 + h) 224), (Z.ltb_spec (128 + x) 160),
      (Z.eqb_spec h 13), (Z.ltb_spec x 32), (Z.ltb_spec (h * 4096 + x * 64 + z) 256); try lia; done.
  - change (zlen [_; _; _; _]) with 4 in *.
    assert (0 <= cp / 4096 mod 64 < 64) as Hx by dlia.
    destruct (cont_byte (cp mod 64)) as [_ ->]; [dlia|].
    destruct (cont_byte (cp / 64 mod 64)) as [_ ->]; [dlia|].
    destruct (cont_byte (cp / 4096 mod 64)) as [Hb1 ->]; [done|].
    destruct (byte_tests _ Hb1) as (_ & _ & _ & _ & _ & _ & _ & _ & -> & _).
    replace ((128 + cp / 4096 mod 64) mod 64) with (cp / 4096 mod 64) by dlia.
    replace ((240 + cp / 262144) mod 8) with (cp / 262144) by dlia.
    set (x := cp / 4096 mod 64) in *. set (h := cp / 262144).
    assert (cp = h * 262144 + x * 4096 + cp mod 4096) as Ecp by (subst x h; dlia).
    assert (0 <= cp mod 4096 < 4096) by dlia.
    set (z := cp mod 4096) in *. clear Hb Hb1. clearbody x h z. subst cp. cbn [negb orb].
    destruct (Z.ltb_spec (240 + h) 128), (Z.leb_spec 192 (240 + h)), (Z.ltb_spec (240 + h) 224),
      (Z.leb_spec 224 (240 + h)), (Z.ltb_spec (240 + h) 240), (Z.leb_spec 240 (240 + h)),
      (Z.ltb_spec (240 + h) 248), (Z.ltb_spec size 4); try lia.
    cbn [andb]. rewrite !Z.gtb_ltb.
    destruct (Z.eqb_spec (240 + h) 240), (Z.ltb_spec (128 + x) 144), (Z.ltb_spec 4 h),
      (Z.eqb_spec h 4), (Z.ltb_spec 15 x), (Z.ltb_spec (h * 262144 + x * 4096 + z) 256); try lia; done.
Qed.

(** [tests c]: the comparisons that the byte tests on [c] amount to. *)
Ltac tests c :=
  match goal with Hc : byte c |- _ =>
    destruct (byte_tests c Hc) as (-> & -> & -> & -> & _ & -> & -> & -> & _ & _) end.

(** What is accepted is the encoding of a scalar value. *)
Lemma utf8_next_accepts pre l ext u :
  Forall byte l → l ≠ [] → utf8_next (pre ++ l ++ ext) (zlen pre) (zlen l) = Ok u →
  match u with
  | UC_ok n lat => ∃ cp l', scalar cp ∧ l = utf8_encode cp ++ l' ∧
      n = zlen (utf8_encode cp) ∧ lat = (cp <? 256)
  | _ => True
  end.
Proof.
  intros Hl Hne Hu. destruct u as [n lat| |]; [|done|done]. destruct l as [|c l]; [done|].
  apply Forall_cons in Hl as [Hc Hl]. unfold utf8_next in Hu. cbn [app] in Hu.
  rewrite rd_app_hd, bind_Ok in Hu. revert Hu. pose proof Hc as [Hc0 Hc1]. tests c.
  destruct (Z.ltb_spec c 128).
  { intros [= <- <-]. exists c, l. unfold scalar, utf8_encode. bcase. split_and!; done || lia. }
  destruct (Z.leb_spec 192 c); [|bcase].
  destruct (Z.ltb_spec c 224); cbn [andb].
  { rewrite zlen_cons. destruct (Z.ltb_spec (1 + zlen l) 2); [done|].
    destruct l as [|c1 l]; [unfold zlen in *; simpl in *; lia|]. cbn [app]. rd_head.
    apply Forall_cons in Hl as [Hc1' _].
    destruct (is_cont c1) eqn:Ec1; [|done]. apply is_cont_inv in Ec1; [|done].
    destruct (Z.ltb_spec c 194); [done|]. cbn [negb orb]. intros [= <- <-].
    exists ((c - 192) * 64 + (c1 - 128)), l. unfold scalar, utf8_encode. bcase; split_and!; try done; try dlia;
      cbn [app]; repeat f_equal; dlia. }
  destruct (Z.leb_spec 224 c); [|lia]. destruct (Z.ltb_spec c 240); cbn [andb].
  { rewrite zlen_cons. destruct (Z.ltb_spec (1 + zlen l) 3); [done|].
    destruct l as [|c1 [|c2 l]]; try (unfold zlen in *; simpl in *; lia). cbn [app]. rd_head.
    apply Forall_cons in Hl as [Hc1' [Hc2' _]%Forall_cons].
    destruct (is_cont c1) eqn:Ec1; [|done]. apply is_cont_inv in Ec1; [|done].
    destruct (is_cont c2) eqn:Ec2; [|done]. apply is_cont_inv in Ec2; [|done].
    destruct (byte_tests c1 Hc1') as (_ & _ & _ & _ & _ & _ & _ & _ & _ & ->). cbn [negb orb].
    destruct ((c =? 224) && (c1 <? 160)) eqn:E1; [done|].
    destruct ((c mod 16 =? 13) && negb (c1 mod 64 <? 32)) eqn:E2; [done|]. intros [= <- <-].
    exists ((c - 224) * 4096 + (c1 - 128) * 64 + (c2 - 128)), l.
    assert (¬ (c = 224 ∧ c1 < 160)) as Hov.
    { intros [-> ?]. revert E1. bcase. }
    assert (¬ (c = 237 ∧ 160 <= c1)) as Hsu.
    { intros [-> ?]. revert E2. change (237 mod 16) with 13. cbn [Z.eqb Pos.eqb andb].
      destruct (Z.ltb_spec (c1 mod 64) 32); [dlia|done]. }
    clear E1 E2. unfold scalar, utf8_encode. bcase; split_and!; try done; try dlia;
      cbn [app]; repeat f_equal; dlia. }
  destruct (Z.leb_spec 240 c); [|lia]. destruct (Z.ltb_spec c 248); cbn [andb]; [|done].
  rewrite zlen_cons. destruct (Z.ltb_spec (1 + zlen l) 4); [done|].
  destruct l as [|c1 [|c2 [|c3 l]]]; try (unfold zlen in *; simpl in *; lia). cbn [app]. rd_head.
  apply Forall_cons in Hl as [Hc1' [Hc2' [Hc3' _]%Forall_cons]%Forall_cons].
  destruct (is_cont c1) eqn:Ec1; [|done]. apply is_cont_inv in Ec1; [|done].
  destruct (is_cont c2) eqn:Ec2; [|done]. apply is_cont_inv in Ec2; [|done].
  destruct (is_cont c3) eqn:Ec3; [|done]. apply is_cont_inv in Ec3; [|done].
  destruct (byte_tests c1 Hc1') as (_ & _ & _ & _ & _ & _ & _ & _ & -> & _). cbn [negb orb].
  destruct ((c =? 240) && (c1 <? 144)) eqn:E1; [done|].
  destruct ((c mod 8 >? 4) || ((c mod 8 =? 4) && (c1 mod 64 >? 15))) eqn:E2; [done|].
  intros [= <- <-].
  exists ((c - 240) * 262144 + (c1 - 128) * 4096 + (c2 - 128) * 64 + (c3 - 128)), l.
  assert (¬ (c = 240 ∧ c1 < 144)) as Hov.
  { intros [-> ?]. revert E1. bcase. }
  assert (c < 244 ∨ (c = 244 ∧ c1 < 144)) as Hsu.
  { apply orb_false_iff in E2 as [E2 E3]. rewrite Z.gtb_ltb in *. apply Z.ltb_ge in E2.
    destruct (Z.eqb_spec (c mod 8) 4); [|dlia]. right. cbn [andb] in E3.
    apply Z.ltb_ge in E3. dlia. }
  clear E1 E2. unfold scalar, utf8_encode. bcase; split_and!; try done; try dlia;
    cbn [app]; repeat f_equal; dlia.
Qed.

Lemma utf8_next_total b source size :
  0 <= source → 0 < size → source + size <= zlen b → is_Ok (utf8_next b source size).
Proof.
  intros. unfold utf8_next.
  destruct (rd_in b source) as [c ->]; [lia|]. rewrite bind_Ok.
  destruct (_ =? 0); [by eexists|]. destruct (_ =? 192).
  { destruct (Z.ltb_spec size 2); [by eexists|].
    destruct (rd_in b (source + 1)) as [c1 ->]; [lia|]. by eexists. }
  destruct (_ =? 224).
  { destruct (Z.ltb_spec size 3); [by eexists|].
    destruct (rd_in b (source + 1)) as [c1 ->]; [lia|].
    destruct (rd_in b (source + 2)) as [c2 ->]; [lia|]. by eexists. }
  destruct (_ =? 240); [|by eexists].
  destruct (Z.ltb_spec size 4); [by eexists|].
  destruct (rd_in b (source + 1)) as [c1 ->]; [lia|].
  destruct (rd_in b (source + 2)) as [c2 ->]; [lia|].
  destruct (rd_in b (source + 3)) as [c3 ->]; [lia|]. by eexists.
Qed.

(** * Texts *)

Definition all_latin1 (cps : list Z) : bool := forallb (λ cp, cp <? 256) cps.

(** [analysis mx l nc lat r pos]: what the analysis of the text [l] must return, after
    [nc] characters and [lat] latin-1 ones: the longest valid prefix [utf8 cps], and
    why it ends there. *)
Definition analysis (mx : Z) (l : bytes) (nc : Z) (lat : option (Z * bool)) (pos : Z)
    (r : utf8_result) : Prop :=
  ∃ cps rest, l = utf8 cps ++ rest ∧ Forall scalar cps ∧
    ur_err_pos r = pos + zlen (utf8 cps) ∧ ur_num_chars r = nc + zlen cps ∧ ur_left r = None ∧
    ((ur_code r = ERTS_UTF8_OK ∧ rest = [] ∧ (mx = 0 ∨ nc + zlen cps <= mx) ∧
      ur_latin1 r =
        ((λ '(cnt, is_lat), if is_lat && all_latin1 cps then cnt + zlen cps else -1) <$> lat)) ∨
     ((ur_code r = ERTS_UTF8_ERROR ∨ ur_code r = ERTS_UTF8_INCOMPLETE) ∧ rest ≠ [] ∧
      ∀ cp rest', scalar cp → rest ≠ utf8_encode cp ++ rest') ∨
     (ur_code r = ERTS_UTF8_OK_MAX_CHARS ∧ rest ≠ [] ∧ mx ≠ 0 ∧ nc + zlen cps = mx)).

Lemma utf8_encode_len cp : 1 <= zlen (utf8_encode cp) <= 4.
Proof. unfold utf8_encode. bcase. Qed.

Lemma utf8_encode_latin1 cp : 0 <= cp < 256 → zlen (utf8_encode cp) <= 2.
Proof. intros. unfold utf8_encode. bcase. Qed.

Lemma analysis_cons mx cp l nc lat pos r :
  scalar cp →
  analysis mx l (nc + 1)
    ((λ '(cnt, is_lat), (if zlen (utf8_encode cp) <=? 2 then cnt + 1 else cnt,
                         is_lat && (cp <? 256))) <$> lat) (pos + zlen (utf8_encode cp)) r →
  analysis mx (utf8_encode cp ++ l) nc lat pos r.
Proof.
  intros Hs (cps & rest & -> & Hc & He & Hn & Hlf & Hcase).
  exists (cp :: cps), rest. unfold utf8 in *. simpl. rewrite <- app_assoc, zlen_cons, zlen_app.
  split_and!; auto; try lia.
  destruct Hcase as [(? & ? & ? & Hlat)|[?|(? & ? & ? & ?)]]; [|by right; left|].
  - left. split_and!; auto; [lia|]. rewrite Hlat. destruct lat as [[cnt isl]|]; [|done]. simpl. f_equal.
    destruct (Z.ltb_spec cp 256); simpl; [|by rewrite !andb_false_r].
    rewrite andb_true_r. destruct (isl && all_latin1 cps); [|done].
    pose proof (utf8_encode_latin1 cp ltac:(destruct Hs; lia)).
    destruct (Z.leb_spec (zlen (utf8_encode cp)) 2); lia.
  - right. right. split_and!; auto. lia.
Qed.

(** The analysis stops at once. *)
Lemma analysis_stop mx l nc lat pos code lat1 :
  (code = ERTS_UTF8_OK ∧ l = [] ∧ (mx = 0 ∨ nc <= mx) ∧
     lat1 = ((λ '(cnt, is_lat), if is_lat : bool then cnt else -1) <$> lat)) ∨
  ((code = ERTS_UTF8_ERROR ∨ code = ERTS_UTF8_INCOMPLETE) ∧ l ≠ [] ∧
     ∀ cp rest', scalar cp → l ≠ utf8_encode cp ++ rest') →
  analysis mx l nc lat pos (mk_utf8 code pos nc lat1 None).
Proof.
  intros Hcase. exists [], l. simpl. change (utf8 []) with (@nil Z). rewrite zlen_nil, !Z.add_0_r.
  split_and!; try done. destruct Hcase as [(? & ? & ? & ->)|?]; [left|by right; left].
  split_and!; auto. destruct lat as [[cnt []]|]; simpl; by rewrite ?zlen_nil, ?Z.add_0_r.
Qed.

Lemma analyze_loop_spec l pre ext nc lat mx fuel :
  Forall byte l → (length l <= fuel)%nat → 0 <= nc → (mx = 0 ∨ nc < mx ∨ (l = [] ∧ nc <= mx)) →
  ∃ r, analyze_loop fuel (pre ++ l ++ ext) (zlen pre) (zlen l) nc lat None mx = Ok r ∧
    analysis mx l nc lat (zlen pre) r.
Proof.
  remember (length l) as k eqn:Hk. revert l pre nc lat fuel Hk.
  induction (lt_wf k) as [k _ IH]; intros l pre nc lat fuel -> Hl Hf Hnc Hmx.
  destruct l as [|c l].
  { destruct fuel; (eexists; split; [done|]); apply analysis_stop; left; (split_and!; [done|done|lia|]);
      by destruct lat as [[cnt []]|]. }
  set (l0 := c :: l) in *. destruct fuel as [|fuel]; [simpl in Hf; lia|]. cbn [analyze_loop].
  pose proof (zlen_nonneg pre). pose proof (zlen_nonneg ext). pose proof (zlen_nonneg l).
  assert (zlen l0 = 1 + zlen l) as Hz by apply zlen_cons.
  assert (l0 ≠ []) as Hne0 by done. clearbody l0.
  destruct (Z.eqb_spec (zlen l0) 0); [lia|].
  destruct (utf8_next_total (pre ++ l0 ++ ext) (zlen pre) (zlen l0)) as [u Hu];
    [lia|lia|rewrite !zlen_app; lia|].
  rewrite Hu, bind_Ok. pose proof (utf8_next_accepts pre l0 ext u Hl Hne0 Hu) as Hacc.
  assert (∀ cp rest', scalar cp → l0 = utf8_encode cp ++ rest' → ∃ n l, u = UC_ok n l) as Hrej.
  { intros cp rest' Hs E. rewrite E, <- app_assoc, utf8_next_encode in Hu; eauto.
    - injection Hu as <-. eauto.
    - rewrite zlen_app. pose proof (zlen_nonneg rest'). lia. }
  destruct u as [un lt| |].
  - destruct Hacc as (cp & l' & Hs & El & -> & ->). pose proof (utf8_encode_len cp) as Hlen.
    assert (zlen l0 = zlen (utf8_encode cp) + zlen l') as Hz' by (rewrite El; apply zlen_app).
    rewrite Z.gtb_ltb. pose proof (zlen_nonneg l').
    destruct (negb (mx =? 0) && (0 <? zlen l0 - zlen (utf8_encode cp)) && (nc + 1 =? mx)) eqn:Emx.
    + rewrite !andb_true_iff in Emx. destruct Emx as [[Emx Hlt%Z.ltb_lt] E%Z.eqb_eq].
      apply negb_true_iff, Z.eqb_neq in Emx. eexists. split; [done|]. rewrite El.
      exists [cp], l'. unfold utf8. simpl. rewrite app_nil_r. split_and!; auto; try done.
      right. right. split_and!; [done| |done|exact E]. intros ->. rewrite zlen_nil in *. lia.
    + cbv zeta. cbn [fmap option_fmap option_map]. rewrite <- zlen_app.
      replace (pre ++ l0 ++ ext) with ((pre ++ utf8_encode cp) ++ l' ++ ext)
        by (rewrite El; by rewrite <- !app_assoc).
      replace (zlen l0 - zlen (utf8_encode cp)) with (zlen l') by lia.
      assert (length l' < length l0)%nat as Hlt by (unfold zlen in *; lia).
      destruct (IH (length l') Hlt l' (pre ++ utf8_encode cp) (nc + 1)
        ((λ '(cnt, lat0), (if zlen (utf8_encode cp) <=? 2 then cnt + 1 else cnt,
            lat0 && (cp <? 256))) <$> lat) fuel) as (r & -> & Hr).
      * done.
      * rewrite El in Hl. by apply Forall_app in Hl as [_ ?].
      * simpl in Hf, Hlt. lia.
      * lia.
      * destruct (decide (l' = [])) as [|Hne]; [destruct Hmx as [|[|[]]]; [by left|right; right; split; [done|lia]|done]|].
        assert (0 < zlen l') by (destruct l'; [done|rewrite zlen_cons; pose proof (zlen_nonneg l'); lia]).
        destruct (Z.eqb_spec mx 0); [by left|]. right. left.
        destruct (Z.ltb_spec 0 (zlen l0 - zlen (utf8_encode cp))), (Z.eqb_spec (nc + 1) mx);
          try discriminate; try lia. destruct Hmx as [|[|[]]]; done || lia.
      * exists r. split; [done|]. rewrite El. apply analysis_cons; [done|]. by rewrite <- zlen_app.
  - eexists. split; [done|]. apply analysis_stop. right. split_and!; [by right|done|].
    intros cp rest' Hs E. destruct (Hrej cp rest' Hs E) as (? & ? & [=]).
  - eexists. split; [done|]. apply analysis_stop. right. split_and!; [by left|done|].
    intros cp rest' Hs E. destruct (Hrej cp rest' Hs E) as (? & ? & [=]).
Qed.

(** The analysis of a text of [size] bytes at the start of a buffer. *)
Lemma analyze_utf8_spec l ext lat mx :
  Forall byte l → 0 <= mx →
  ∃ r, analyze_utf8 (l ++ ext) 0 (zlen l) None lat mx = Ok r ∧
    analysis mx l 0 (if lat then Some (0, true) else None) 0 r.
Proof.
  intros Hl Hmx. unfold analyze_utf8. rewrite to_nat_zlen.
  apply (analyze_loop_spec l [] ext 0); auto; lia.
Qed.

(** * Decoding is unique *)

Lemma utf8_encode_inj c c' r r' :
  scalar c → scalar c' → utf8_encode c ++ r = utf8_encode c' ++ r' → c = c' ∧ r = r'.
Proof.
  intros [Hc _] [Hc' _]. unfold utf8_encode.
  destruct (Z.ltb_spec c 128), (Z.ltb_spec c' 128), (Z.ltb_spec c 2048), (Z.ltb_spec c' 2048),
    (Z.ltb_spec c 65536), (Z.ltb_spec c' 65536); try lia;
    cbn [app]; intros E; injection E; intros; subst; split; try done; dlia.
Qed.

Lemma utf8_prefix cps cps' rest :
  Forall scalar cps → Forall scalar cps' → utf8 cps = utf8 cps' ++ rest →
  ∃ cps2, cps = cps' ++ cps2 ∧ rest = utf8 cps2 ∧ Forall scalar cps2.
Proof.
  intros Hs Hs'. revert cps Hs. induction Hs' as [|c' cps' Hc' _ IH]; intros cps Hs E.
  { exists cps. unfold utf8 in *. simpl in E. by subst rest. }
  destruct Hs as [|c cps Hc Hs].
  { exfalso. apply (f_equal zlen) in E. unfold utf8 in E. simpl in E. rewrite !zlen_app in E.
    pose proof (utf8_encode_len c'). pose proof (zlen_nonneg rest).
    pose proof (zlen_nonneg (concat (map utf8_encode cps'))). change (zlen (@nil Z)) with 0 in E. lia. }
  unfold utf8 in E. simpl in E. rewrite <- app_assoc in E.
  apply utf8_encode_inj in E as [<- E]; [|done..].
  destruct (IH cps Hs E) as (cps2 & -> & -> & Hc2). exists cps2. done.
Qed.

(** The analysis accepts a text with at most [mx] characters. *)
Lemma analysis_valid mx cps nc lat pos r :
  Forall scalar cps → nc + zlen cps <= mx → analysis mx (utf8 cps) nc lat pos r →
  ur_code r = ERTS_UTF8_OK ∧ ur_num_chars r = nc + zlen cps ∧
  ur_latin1 r = ((λ '(cnt, is_lat), if is_lat && all_latin1 cps then cnt + zlen cps else -1) <$> lat).
Proof.
  intros Hs Hmx (cps' & rest & E & Hs' & He & Hn & _ & Hcase).
  apply utf8_prefix in E as (cps2 & -> & -> & Hs2); [|done..].
  rewrite zlen_app in *. destruct cps2 as [|c2 cps2].
  { rewrite app_nil_r, (@zlen_nil Z), Z.add_0_r. destruct Hcase as [(? & _ & _ & ?)|[(_ & [] & _)|(_ & [] & _)]]; done. }
  rewrite zlen_cons in *. pose proof (zlen_nonneg cps2). apply Forall_cons in Hs2 as [Hc2 _].
  unfold utf8 in Hcase. simpl in Hcase. destruct Hcase as [(_ & E & _)|[(_ & _ & Hno)|(_ & _ & _ & ?)]]; [|by destruct (Hno c2 _ Hc2 eq_refl)|lia].
  apply (f_equal zlen) in E. rewrite zlen_app, zlen_nil in E.
  pose proof (utf8_encode_len c2). pose proof (zlen_nonneg (concat (map utf8_encode cps2))). lia.
Qed.
