(* ===== verification/AtomTab.v ===== *)
(** The atom table (erts/emulator/beam/atom.c, atom.h): the callbacks that make it an
    index table, [erts_atom_put] and [erts_atom_get] with their three encodings, and the
    comparison of atoms (utils.c, [erts_cmp_atoms]).

    [name] is the memory from the [name] pointer on, of which the first [len] bytes are
    the atom's text.  The table's locks, the text segments that hold the names, and the
    tag bits of an atom term are not modelled: an atom is its index. *)
From S2P Require Import Prelude Scan Utf8 Hash Index.

Definition MAX_ATOM_CHARACTERS : Z := 255.
Definition MAX_ATOM_SZ_FROM_LATIN1 : Z := 2 * MAX_ATOM_CHARACTERS.
Definition MAX_ATOM_SZ_LIMIT : Z := 4 * MAX_ATOM_CHARACTERS.

Inductive ErtsAtomEncoding :=
| ERTS_ATOM_ENC_7BIT_ASCII
| ERTS_ATOM_ENC_LATIN1
| ERTS_ATOM_ENC_UTF8.

Record Atom := mk_atom {
  a_index : Z; a_len : Z; a_latin1_chars : Z; a_ord0 : Z; a_name : bytes }.

(** * Callbacks of the table *)

(** hashpjw on an [unsigned long], for one character. *)
Definition hashpjw (h v : Z) : Z :=
  let h := wrap 64 (wrap 64 (Z.shiftl h 4) + v) in
  let g := Z.land h 4026531840 in
  if negb (g =? 0) then Z.lxor (Z.lxor h (Z.shiftr g 24)) g else h.

(** [while (len--) ..] *)
Fixpoint atom_hash_loop (fuel : nat) (b : bytes) (p len h : Z) : res Z :=
  if len =? 0 then Ok h
  else match fuel with
  | O => NoFuel
  | S fuel =>
      let len := len - 1 in
      v ← rd b p;
      let p := p + 1 in
      if Z.land v 254 =? 194 then
        x ← rd b p;
        if Z.land x 192 =? 128 then
          let v := wrap 8 (Z.lor (Z.shiftl v 6) (Z.land x 63)) in
          atom_hash_loop fuel b (p + 1) (len - 1) (hashpjw h v)
        else atom_hash_loop fuel b p len (hashpjw h v)
      else atom_hash_loop fuel b p len (hashpjw h v)
  end.

Definition atom_hash (a : Atom) : res Z :=
  atom_hash_loop (loop_fuel (a_name a)) (a_name a) 0 (a_len a) 0.

Definition atom_text (a : Atom) : bytes := take (Z.to_nat (a_len a)) (a_name a).

Definition atom_cmp (tmpl obj : Atom) : Z :=
  if (a_len tmpl =? a_len obj) && bool_decide (atom_text tmpl = atom_text obj) then 0 else 1.

(** [c[i]] of [atom_alloc]: the first four bytes, padded with NUL. *)
Definition ord_byte (text : bytes) (i : nat) : Z := default 0 (text !! i).

Definition atom_ord0 (text : bytes) : Z :=
  Z.shiftl (ord_byte text 0) 23 + Z.shiftl (ord_byte text 1) 15 +
  Z.shiftl (ord_byte text 2) 7 + Z.shiftr (ord_byte text 3) 1.

Definition atom_alloc (tmpl : Atom) : Atom :=
  mk_atom (-1) (a_len tmpl) (a_latin1_chars tmpl) (atom_ord0 (atom_text tmpl)) (atom_text tmpl).

#[export] Instance atom_hash_fun : HashFun Atom := {|
  hf_hash := atom_hash; hf_cmp := atom_cmp; hf_alloc := atom_alloc |}.

#[export] Instance atom_index_fun : IndexFun Atom := {|
  slot_index := a_index;
  set_slot_index i a := mk_atom i (a_len a) (a_latin1_chars a) (a_ord0 a) (a_name a) |}.

(** * Operations *)

(** [dst] loop of [latin1_to_utf8], from position [i]. *)
Fixpoint conv_loop (src : bytes) (conv_buf : bytes) (dst : Z) : res (bytes * Z) :=
  match src with
  | [] => Ok (conv_buf, dst)
  | chr :: src =>
      if Z.land chr 128 =? 0 then
        conv_buf ← wr conv_buf dst chr;
        conv_loop src conv_buf (dst + 1)
      else
        conv_buf ← wr conv_buf dst (Z.lor 192 (Z.shiftr chr 6));
        conv_buf ← wr conv_buf (dst + 1) (Z.lor 128 (Z.land chr 63));
        conv_loop src conv_buf (dst + 2)
  end.

(** The position of the first byte above 127, [None] when there is none. *)
Fixpoint first_high (src : bytes) (i : nat) : option nat :=
  match src with
  | [] => None
  | c :: src => if negb (Z.land c 128 =? 0) then Some i else first_high src (S i)
  end.

(** [*srcp] and [*lenp]; the conversion buffer has 510 bytes. *)
Definition latin1_to_utf8_buf (src : bytes) (len : Z) : res (bytes * Z) :=
  text ← rds src 0 len;
  match first_high text 0 with
  | None => Ok (src, len)
  | Some i =>
      '(buf, dst) ← wrs (replicate (Z.to_nat MAX_ATOM_SZ_FROM_LATIN1) 0) 0 (take i text);
      conv_loop (drop i text) buf dst
  end.

Inductive atom_result :=
| A_exit
| A_non_value
| A_atom (st : gmap Z Atom) (t : IndexTable) (ix : Z).

Section Ops.
Context (malloc : gmap Z Atom → Z).

(** A template on the stack; only [len], [name] and [latin1_chars] are set. *)
Definition template (len : Z) (text : bytes) (latin1_chars : Z) : Atom :=
  mk_atom 0 (swrap 16 len) (swrap 16 latin1_chars) 0 text.

Definition atom_table_put (st : gmap Z Atom) (t : IndexTable) (a : Atom) : res atom_result :=
  r ← index_put malloc st t a;
  Ok (match r with None => A_exit | Some (st, t, aix) => A_atom st t aix end).

(** After the length checks: lookup, verification of UTF-8, insertion.  [nlat] is
    [no_latin1_chars]; [uninit] is its value where the code has not set it. *)
Definition atom_put_text (st : gmap Z Atom) (t : IndexTable) (text : bytes) (tlen : Z)
    (is_utf8 : bool) (nlat : Z) (trunc : bool) (uninit : Z) : res atom_result :=
  aix ← index_get st t (template tlen text 0);
  if aix >=? 0 then Ok (A_atom st t aix)
  else if is_utf8 then
    r ← erts_analyze_utf8_x text 0 tlen None MAX_ATOM_CHARACTERS;
    if ur_code r =? ERTS_UTF8_OK then
      atom_table_put st t (template tlen text (default uninit (ur_latin1 r)))
    else if ur_code r =? ERTS_UTF8_OK_MAX_CHARS then
      if trunc then atom_table_put st t (template (ur_err_pos r) text (default uninit (ur_latin1 r)))
      else Ok A_non_value
    else Ok A_non_value
  else atom_table_put st t (template tlen text nlat).

Definition erts_atom_put (st : gmap Z Atom) (t : IndexTable) (name : bytes) (len : Z)
    (enc : ErtsAtomEncoding) (trunc : bool) (uninit : Z) : res atom_result :=
  if (len <? 0) && negb trunc then Ok A_non_value
  else
    let tlen := if len <? 0 then 0 else len in
    match enc with
    | ERTS_ATOM_ENC_7BIT_ASCII =>
        if (tlen >? MAX_ATOM_CHARACTERS) && negb trunc then Ok A_non_value
        else
          let tlen := if tlen >? MAX_ATOM_CHARACTERS then MAX_ATOM_CHARACTERS else tlen in
          atom_put_text st t name tlen false tlen trunc uninit
    | ERTS_ATOM_ENC_LATIN1 =>
        if (tlen >? MAX_ATOM_CHARACTERS) && negb trunc then Ok A_non_value
        else
          let no_latin1_chars := if tlen >? MAX_ATOM_CHARACTERS then MAX_ATOM_CHARACTERS else tlen in
          '(text, tlen) ← latin1_to_utf8_buf name no_latin1_chars;
          atom_put_text st t text tlen false no_latin1_chars trunc uninit
    | ERTS_ATOM_ENC_UTF8 =>
        if (tlen >? MAX_ATOM_SZ_LIMIT) && negb trunc then Ok A_non_value
        else atom_put_text st t name tlen true 0 trunc uninit
    end.

Definition am_atom_put (st : gmap Z Atom) (t : IndexTable) (name : bytes) (len uninit : Z) :
    res atom_result :=
  erts_atom_put st t name len ERTS_ATOM_ENC_7BIT_ASCII true uninit.

(** The atom, [None] for a result of 0. *)
Definition erts_atom_get (st : gmap Z Atom) (t : IndexTable) (name : bytes) (len : Z)
    (enc : ErtsAtomEncoding) : res (option Z) :=
  '(text, len) ← match enc with
    | ERTS_ATOM_ENC_LATIN1 => latin1_to_utf8_buf name len
    | _ => Ok (name, len)
    end;
  i ← index_get st t (template len text 0);
  Ok (if i <? 0 then None else Some i).

End Ops.

(** [atom_tab(i)] *)
Definition atom_tab (st : gmap Z Atom) (t : IndexTable) (i : Z) : res Atom :=
  p ← erts_index_lookup t i; deref st p.

(** [cmpbytes] on two arrays with [int] lengths, which may be negative. *)
Fixpoint cmpbytes (s1 s2 : bytes) (l1 l2 : Z) : Z :=
  match s1, s2 with
  | c1 :: s1, c2 :: s2 =>
      if c1 <? c2 then -1 else if c1 >? c2 then 1 else cmpbytes s1 s2 l1 l2
  | _, _ => if l1 <? l2 then -1 else if l1 >? l2 then 1 else 0
  end.

Definition erts_cmp_atoms (aa bb : Atom) : Z :=
  let diff := to_int (a_ord0 aa - a_ord0 bb) in
  if negb (diff =? 0) then diff
  else cmpbytes (drop 3 (atom_text aa)) (drop 3 (atom_text bb)) (a_len aa - 3) (a_len bb - 3).

(** * The callbacks satisfy the laws of the tables *)

Lemma hashpjw_nonneg h v : 0 <= hashpjw h v.
Proof.
  unfold hashpjw. set (x := wrap 64 _). assert (0 <= x) by (subst x; apply wrap_range; lia).
  assert (0 <= Z.land x 4026531840) by (apply Z.land_nonneg; lia).
  destruct (negb _); [|done]. apply Z.lxor_nonneg. split; intros _; [done|].
  apply Z.lxor_nonneg. split; intros _; [|done]. by apply Z.shiftr_nonneg.
Qed.

(** A text whose last byte does not announce another one: hashing stays inside. *)
Definition hash_safe (l : bytes) : Prop :=
  ∀ v, last l = Some v → (Z.land v 254 =? 194) = false.

Lemma atom_hash_loop_ok l p len h :
  hash_safe l → 0 <= p → 0 <= len → p + len = zlen l → 0 <= h →
  ∃ r, 0 <= r ∧ ∀ ext fuel, (Z.to_nat len <= fuel)%nat →
    atom_hash_loop fuel (l ++ ext) p len h = Ok r.
Proof.
  intros Hs. remember (Z.to_nat len) as n eqn:En. revert p len h En.
  induction (lt_wf n) as [n _ IH]; intros p len h -> Hp Hlen Hsum Hh.
  destruct (Z.eqb_spec len 0) as [->|Hne].
  { exists h. split; [done|]. intros ext [|fuel] _; done. }
  destruct (rd_in l p) as [v Hv]; [lia|].
  assert (∀ ext, rd (l ++ ext) p = Ok v) as Hv' by (intros; by rewrite rd_app_l by lia).
  destruct (Z.land v 254 =? 194) eqn:Elead.
  - assert (1 < len) as Hlt.
    { destruct (decide (len = 1)) as [->|]; [|lia]. exfalso.
      apply rd_lookup in Hv as [_ Hv]. rewrite (Hs v) in Elead; [done|].
      rewrite last_lookup. unfold zlen in Hsum. replace (pred (length l)) with (Z.to_nat p) by lia. done. }
    destruct (rd_in l (p + 1)) as [x Hx]; [lia|].
    destruct (Z.land x 192 =? 128) eqn:Econt.
    + destruct (IH (Z.to_nat (len - 1 - 1)) ltac:(lia) (p + 1 + 1) (len - 1 - 1)
        (hashpjw h (wrap 8 (Z.lor (Z.shiftl v 6) (Z.land x 63))))) as (r & Hr & Hall);
        [done|lia|lia|lia|apply hashpjw_nonneg|].
      exists r. split; [done|]. intros ext [|fuel] Hf; [lia|]. cbn [atom_hash_loop].
      destruct (Z.eqb_spec len 0); [lia|]. rewrite Hv', bind_Ok, Elead.
      rewrite rd_app_l, Hx, bind_Ok, Econt by lia. apply Hall. lia.
    + destruct (IH (Z.to_nat (len - 1)) ltac:(lia) (p + 1) (len - 1) (hashpjw h v)) as (r & Hr & Hall);
        [done|lia|lia|lia|apply hashpjw_nonneg|].
      exists r. split; [done|]. intros ext [|fuel] Hf; [lia|]. cbn [atom_hash_loop].
      destruct (Z.eqb_spec len 0); [lia|]. rewrite Hv', bind_Ok, Elead.
      rewrite rd_app_l, Hx, bind_Ok, Econt by lia. apply Hall. lia.
  - destruct (IH (Z.to_nat (len - 1)) ltac:(lia) (p + 1) (len - 1) (hashpjw h v)) as (r & Hr & Hall);
      [done|lia|lia|lia|apply hashpjw_nonneg|].
    exists r. split; [done|]. intros ext [|fuel] Hf; [lia|]. cbn [atom_hash_loop].
    destruct (Z.eqb_spec len 0); [lia|]. rewrite Hv', bind_Ok, Elead. apply Hall. lia.
Qed.

(** An object or template with its text inside its memory, safe to hash. *)
Definition atom_ok (a : Atom) : Prop :=
  0 <= a_len a <= zlen (a_name a) ∧ hash_safe (atom_text a).

Lemma atom_text_len a : 0 <= a_len a <= zlen (a_name a) → zlen (atom_text a) = a_len a.
Proof. intros. unfold atom_text, zlen in *. rewrite length_take. lia. Qed.

Lemma atom_hash_text a : atom_ok a →
  ∃ r, 0 <= r ∧ atom_hash a = Ok r ∧
    ∀ a', atom_ok a' → a_len a' = a_len a → atom_text a' = atom_text a → atom_hash a' = Ok r.
Proof.
  intros [Hl Hs]. pose proof (atom_text_len a Hl) as Ht.
  destruct (atom_hash_loop_ok (atom_text a) 0 (a_len a) 0) as (r & Hr & Hall); [done|lia..|].
  assert (∀ a', atom_ok a' → a_len a' = a_len a → atom_text a' = atom_text a → atom_hash a' = Ok r)
    as Hgo; [|exists r; split_and!; auto; by apply Hgo].
  intros a' [Hl' _] El Et. unfold atom_hash.
  rewrite <- (take_drop (Z.to_nat (a_len a')) (a_name a')) at 2. fold (atom_text a').
  rewrite El, Et. apply Hall. unfold loop_fuel, zlen in *. lia.
Qed.

Lemma atom_alloc_text a : atom_text (atom_alloc a) = atom_text a.
Proof. unfold atom_text. simpl. unfold atom_text. by rewrite take_take, Nat.min_id. Qed.

#[export] Program Instance atom_hash_laws : HashLaws Atom (Z * bytes) := {|
  hkey a := (a_len a, atom_text a);
  hok := atom_ok |}.
Next Obligation.
  intros a Ha. destruct (atom_hash_text a Ha) as (r & ? & ? & _). eauto.
Qed.
Next Obligation.
  intros a b Ha Hb [= El Et]. destruct (atom_hash_text a Ha) as (r & _ & E & Hall).
  simpl. rewrite E. symmetry. by apply Hall.
Qed.
Next Obligation.
  intros a b. simpl. unfold atom_cmp.
  destruct (Z.eqb_spec (a_len a) (a_len b)), (bool_decide_reflect (atom_text a = atom_text b));
    simpl; split; congruence.
Qed.
Next Obligation.
  intros a. simpl. by rewrite atom_alloc_text.
Qed.
Next Obligation.
  intros a [Hl Hs]. pose proof (atom_text_len a Hl). split; [simpl; lia|].
  change (hash_safe (atom_text (atom_alloc a))). by rewrite atom_alloc_text.
Qed.

#[export] Program Instance atom_index_laws : IndexLaws Atom (Z * bytes).
Next Obligation. done. Qed.
Next Obligation. done. Qed.
Next Obligation. done. Qed.
Next Obligation. done. Qed.

(** * Texts of atoms *)

(** [encoded enc cps l]: [l] spells the characters [cps] in the encoding [enc]. *)
Definition encoded (enc : ErtsAtomEncoding) (cps : list Z) (l : bytes) : Prop :=
  match enc with
  | ERTS_ATOM_ENC_7BIT_ASCII => l = cps ∧ Forall (λ c, 0 <= c < 128) cps
  | ERTS_ATOM_ENC_LATIN1 => l = cps ∧ Forall byte cps
  | ERTS_ATOM_ENC_UTF8 => l = utf8 cps ∧ Forall scalar cps
  end.

Lemma utf8_cons c cps : utf8 (c :: cps) = utf8_encode c ++ utf8 cps.
Proof. done. Qed.

Lemma utf8_ascii cps : Forall (λ c, 0 <= c < 128) cps → utf8 cps = cps.
Proof.
  induction 1 as [|c cps Hc _ IH]; [done|]. rewrite utf8_cons, IH. unfold utf8_encode.
  by destruct (Z.ltb_spec c 128); [|lia].
Qed.

Lemma utf8_len cps : zlen cps <= zlen (utf8 cps) <= 4 * zlen cps.
Proof.
  induction cps as [|c cps IH]; [done|]. rewrite utf8_cons, zlen_app, zlen_cons.
  pose proof (utf8_encode_len c). lia.
Qed.

Lemma utf8_latin1_len cps : Forall byte cps → zlen (utf8 cps) <= 2 * zlen cps.
Proof.
  induction 1 as [|c cps [Hc0 Hc1] _ IH]; [done|]. rewrite utf8_cons, zlen_app, zlen_cons.
  pose proof (utf8_encode_latin1 c ltac:(lia)). lia.
Qed.

Lemma utf8_bytes cps : Forall scalar cps → Forall byte (utf8 cps).
Proof.
  induction 1 as [|c cps Hc _ IH]; [constructor|]. rewrite utf8_cons. apply Forall_app.
  split; [by apply utf8_encode_bytes|done].
Qed.

Lemma byte_scalar cps : Forall byte cps → Forall scalar cps.
Proof. intros H. eapply Forall_impl; [done|]. unfold byte, scalar. intros x Hx. lia. Qed.

(** The last byte of UTF-8 text is an ASCII character or a continuation. *)
Lemma utf8_hash_safe cps : Forall scalar cps → hash_safe (utf8 cps).
Proof.
  intros Hs v Hv.
  assert (byte v ∧ (v < 192)) as [Hb Hlt].
  { destruct cps as [|c cps _] using rev_ind; [done|].
    apply Forall_app in Hs as [_ Hc]. rewrite Forall_singleton in Hc.
    unfold utf8 in Hv. rewrite map_app, concat_app in Hv. simpl in Hv.
    rewrite app_nil_r in Hv. pose proof (utf8_encode_bytes c Hc) as Hb.
    assert (∃ w, last (utf8_encode c) = Some w ∧ w < 192) as (w & Hw & Hw2).
    { unfold utf8_encode. destruct (Z.ltb_spec c 128), (Z.ltb_spec c 2048), (Z.ltb_spec c 65536);
        try lia; (eexists; split; [done|]); dlia. }
    rewrite last_app, Hw in Hv. injection Hv as <-. split; [|done].
    eapply (proj1 (Forall_forall _ _) Hb). by apply last_Some_elem_of in Hw. }
  destruct (Z.land v 254 =? 194) eqn:E; [|done]. exfalso.
  assert (negb (Z.land v 254 =? 194) || (192 <=? v) = true) as Hc
    by (apply (byte_check (λ v, negb (Z.land v 254 =? 194) || (192 <=? v))); [by vm_compute|done]).
  rewrite E in Hc. simpl in Hc. apply Z.leb_le in Hc. lia.
Qed.

Lemma utf8_encode_high c : 128 <= c < 256 →
  utf8_encode c = [Z.lor 192 (Z.shiftr c 6); Z.lor 128 (Z.land c 63)].
Proof.
  intros Hc. unfold utf8_encode.
  destruct (Z.ltb_spec c 128), (Z.ltb_spec c 2048); try lia.
  assert ((c <? 128) || ((192 + c / 64 =? Z.lor 192 (Z.shiftr c 6)) &&
    (128 + c mod 64 =? Z.lor 128 (Z.land c 63))) = true) as Hb.
  { apply (byte_check (λ c, (c <? 128) || ((192 + c / 64 =? Z.lor 192 (Z.shiftr c 6)) &&
      (128 + c mod 64 =? Z.lor 128 (Z.land c 63))))); [by vm_compute|]. unfold byte. lia. }
  destruct (Z.ltb_spec c 128); [lia|]. cbn [orb] in Hb.
  apply andb_true_iff in Hb as [->%Z.eqb_eq ->%Z.eqb_eq]. done.
Qed.

Lemma conv_loop_spec src buf dst :
  Forall byte src → 0 <= dst → dst + zlen (utf8 src) <= zlen buf →
  conv_loop src buf dst = Ok (splice buf dst (utf8 src), dst + zlen (utf8 src)).
Proof.
  intros Hsrc. revert buf dst. induction Hsrc as [|c src Hc Hsrc IH]; intros buf dst Hd Hb.
  { simpl. rewrite splice_nil. do 2 f_equal. change (utf8 []) with (@nil Z). rewrite zlen_nil. lia. }
  rewrite utf8_cons, zlen_app in *. cbn [conv_loop]. pose proof (zlen_nonneg (utf8 src)).
  destruct (byte_tests c Hc) as (-> & _). destruct Hc as [Hc0 Hc1]. destruct (Z.ltb_spec c 128).
  - assert (utf8_encode c = [c]) as E by (unfold utf8_encode; by destruct (Z.ltb_spec c 128); [|lia]).
    rewrite E in *. change (zlen [c]) with 1 in *. rewrite wr_ok by lia. rewrite bind_Ok.
    rewrite IH by (rewrite ?zlen_splice; change (zlen [c]) with 1; lia).
    change (dst + 1) with (dst + zlen [c]). rewrite splice_app by (change (zlen [c]) with 1; lia).
    do 2 f_equal. change (zlen [c]) with 1. lia.
  - rewrite utf8_encode_high in * by lia. set (x := Z.lor 192 _) in *. set (y := Z.lor 128 _) in *.
    change (zlen [x; y]) with 2 in *. rewrite wr_ok, bind_Ok by lia.
    rewrite wr_ok by (rewrite zlen_splice; change (zlen [x]) with 1; lia). rewrite bind_Ok.
    change (dst + 1) with (dst + zlen [x]). rewrite splice_app by (change (zlen [x]) with 1; change (zlen [y]) with 1; lia).
    cbn [app]. rewrite IH by (rewrite ?zlen_splice; change (zlen [x; y]) with 2; lia).
    change (dst + 2) with (dst + zlen [x; y]). rewrite splice_app by (change (zlen [x; y]) with 2; lia).
    do 2 f_equal. change (zlen [x; y]) with 2. lia.
Qed.

Lemma first_high_spec l i :
  Forall byte l →
  match first_high l i with
  | None => Forall (λ c, 0 <= c < 128) l
  | Some j => ∃ k, j = (i + k)%nat ∧ Forall (λ c, 0 <= c < 128) (take k l) ∧ (k <= length l)%nat
  end.
Proof.
  intros Hl. revert i. induction Hl as [|c l Hc Hl IH]; intros i; simpl; [constructor|].
  destruct (byte_tests c Hc) as (-> & _). destruct Hc as [Hc0 Hc1].
  destruct (Z.ltb_spec c 128); simpl.
  - specialize (IH (S i)). destruct (first_high l (S i)) as [j|].
    + destruct IH as (k & -> & Hk & Hlen). exists (S k). simpl. split_and!; [lia| |lia].
      by constructor.
    + by constructor.
  - exists 0%nat. simpl. split_and!; [lia|constructor|lia].
Qed.

(** The converted text: UTF-8, in the buffer or in place. *)
Lemma latin1_to_utf8_buf_spec cps ext :
  Forall byte cps → zlen cps <= MAX_ATOM_CHARACTERS →
  ∃ text, latin1_to_utf8_buf (cps ++ ext) (zlen cps) = Ok (text, zlen (utf8 cps)) ∧
    ∃ rest, text = utf8 cps ++ rest.
Proof.
  intros Hc Hl. unfold latin1_to_utf8_buf. rewrite (rds_at _ 0 cps) by apply (bytes_at_intro []).
  rewrite bind_Ok. pose proof (first_high_spec cps 0 Hc) as Hf.
  destruct (first_high cps 0) as [j|].
  - destruct Hf as (k & -> & Hk & Hlen). simpl (0 + k)%nat.
    pose proof (utf8_latin1_len cps Hc) as Hsz. unfold MAX_ATOM_CHARACTERS in Hl.
    assert (utf8 cps = take k cps ++ utf8 (drop k cps)) as Eu.
    { rewrite <- (take_drop k cps) at 1. unfold utf8. rewrite map_app, concat_app. f_equal.
      by apply utf8_ascii. }
    set (buf := replicate (Z.to_nat MAX_ATOM_SZ_FROM_LATIN1) 0).
    assert (zlen buf = 510) as Hbuf by done.
    assert (zlen (utf8 cps) = zlen (take k cps) + zlen (utf8 (drop k cps))) as Ez by (rewrite Eu; apply zlen_app).
    pose proof (zlen_nonneg (utf8 (drop k cps))). pose proof (zlen_nonneg (take k cps)).
    rewrite wrs_ok, bind_Ok by lia.
    rewrite conv_loop_spec; [|by apply Forall_drop|lia|rewrite zlen_splice; lia].
    rewrite Z.add_0_l, <- Ez. eexists. split; [done|].
    pose proof (splice_app buf 0 (take k cps) (utf8 (drop k cps))) as Hsp.
    rewrite Z.add_0_l in Hsp. rewrite Hsp by lia. rewrite <- Eu.
    unfold splice. simpl. eauto.
  - rewrite (utf8_ascii cps) by done. eexists. split; [done|]. eauto.
Qed.

(** * The table as a list of names *)

Definition atom_key (tx : bytes) : Z * bytes := (zlen tx, tx).

(** A text of at most 255 characters. *)
Definition valid_text (tx : bytes) : Prop :=
  ∃ cps, tx = utf8 cps ∧ Forall scalar cps ∧ zlen cps <= MAX_ATOM_CHARACTERS.

(** [atoms_rep st t names]: the table holds the atoms [names], in this order. *)
Definition atoms_rep (st : gmap Z Atom) (t : IndexTable) (names : list bytes) : Prop :=
  (∃ m, index_rep st t m (atom_key <$> names)) ∧ Forall valid_text names.

Lemma valid_text_len tx : valid_text tx → zlen tx <= MAX_ATOM_SZ_LIMIT.
Proof.
  intros (cps & -> & _ & Hl). pose proof (utf8_len cps).
  unfold MAX_ATOM_SZ_LIMIT, MAX_ATOM_CHARACTERS in *. lia.
Qed.

Lemma valid_text_safe tx : valid_text tx → hash_safe tx.
Proof. intros (cps & -> & Hs & _). by apply utf8_hash_safe. Qed.

Lemma template_key tx rest n :
  zlen tx <= MAX_ATOM_SZ_LIMIT → hash_safe tx →
  hkey (template (zlen tx) (tx ++ rest) n) = atom_key tx ∧
  hok (template (zlen tx) (tx ++ rest) n).
Proof.
  intros Hl Hs. change (zlen tx <= 1020) in Hl. pose proof (zlen_nonneg tx).
  assert (swrap 16 (zlen tx) = zlen tx) as Hw by (apply swrap_small; lia).
  assert (atom_text (template (zlen tx) (tx ++ rest) n) = tx) as Ht.
  { unfold atom_text, template. simpl. by rewrite Hw, to_nat_zlen, take_app_length. }
  split; [|split].
  - simpl. rewrite Ht, Hw. done.
  - simpl. rewrite Hw, zlen_app. pose proof (zlen_nonneg rest). lia.
  - by rewrite Ht.
Qed.

Lemma atom_key_lookup (names : list bytes) (i : nat) (tx : bytes) :
  (atom_key <$> names) !! i = Some (atom_key tx) ↔ names !! i = Some tx.
Proof.
  rewrite list_lookup_fmap. destruct (names !! i) as [nm|]; simpl; [|done].
  unfold atom_key. split; congruence.
Qed.

Lemma atom_key_elem (names : list bytes) (tx : bytes) : atom_key tx ∈ atom_key <$> names ↔ tx ∈ names.
Proof.
  split.
  - by intros (nm & [= _ ->] & Hnm)%list_elem_of_fmap_1.
  - apply list_elem_of_fmap_2.
Qed.

(** Looking up a text. *)
Lemma atoms_get st t names tx rest :
  atoms_rep st t names → zlen tx <= MAX_ATOM_SZ_LIMIT → hash_safe tx →
  ∃ r, index_get st t (template (zlen tx) (tx ++ rest) 0) = Ok r ∧
    (∀ i, names !! i = Some tx → r = Z.of_nat i) ∧ (tx ∉ names → r = -1).
Proof.
  intros [[m Hr] _] Hl Hs. destruct (template_key tx rest 0 Hl Hs) as [Hk Ho].
  destruct (index_get_spec st t m _ _ Hr Ho) as (r & -> & Hin & Hout). exists r.
  rewrite Hk in *. split_and!; [done| |].
  - intros i Hi. apply Hin. by apply atom_key_lookup.
  - intros Hno. apply Hout. by rewrite atom_key_elem.
Qed.

Section Put.
Context (malloc : gmap Z Atom → Z).

(** Adding a new text: the next index, unless the table is full. *)
Definition atom_added (st : gmap Z Atom) (t : IndexTable) (names : list bytes) (tx : bytes)
    (nlat : Z) (r : res atom_result) : Prop :=
  if zlen names =? index_capacity (t_limit t) then r = Ok A_exit
  else ∃ st' t', r = Ok (A_atom st' t' (zlen names)) ∧ atoms_rep st' t' (names ++ [tx]) ∧
    t_limit t' = t_limit t ∧
    atom_tab st' t' (zlen names) = Ok (mk_atom (zlen names) (zlen tx) nlat (atom_ord0 tx) tx).

Lemma atoms_put st t names tx rest nlat :
  atoms_rep st t names → valid_text tx → tx ∉ names → st !! malloc st = None →
  - 2 ^ 15 <= nlat < 2 ^ 15 →
  atom_added st t names tx nlat (atom_table_put malloc st t (template (zlen tx) (tx ++ rest) nlat)).
Proof.
  intros [[m Hr] Hv] Htx Hno Hfresh Hnl. unfold atom_added, atom_table_put.
  pose proof (valid_text_len tx Htx) as Hl.
  destruct (template_key tx rest nlat Hl (valid_text_safe tx Htx)) as [Hk Ho].
  pose proof (index_put_spec malloc st t m _ _ Hr Ho Hfresh) as Hput. rewrite Hk in Hput.
  destruct (list_find (λ k, k = atom_key tx) (atom_key <$> names)) as [[i k]|] eqn:Ef.
  { exfalso. apply list_find_Some in Ef as (Hi & -> & _). apply Hno.
    apply atom_key_lookup in Hi. by eapply list_elem_of_lookup_2. }
  replace (zlen (atom_key <$> names)) with (zlen names) in Hput by (symmetry; apply zlen_map).
  destruct (Z.eqb_spec (zlen names) (index_capacity (t_limit t))).
  { rewrite Hput. done. }
  destruct Hput as (st' & t' & m' & p & -> & Hr' & Hlim & Hix & Hp). rewrite bind_Ok.
  exists st', t'. split_and!; auto.
  - split; [exists m'; by rewrite fmap_app|]. apply Forall_app. split; [done|]. by constructor.
  - unfold atom_tab. rewrite Hix, bind_Ok, (deref_Some _ _ _ Hp). f_equal.
    assert (swrap 16 (zlen tx) = zlen tx) as Hw.
    { change (zlen tx <= 1020) in Hl. pose proof (zlen_nonneg tx). apply swrap_small; lia. }
    assert (atom_text (template (zlen tx) (tx ++ rest) nlat) = tx) as Ht.
    { unfold atom_text, template. simpl. by rewrite Hw, to_nat_zlen, take_app_length. }
    simpl. rewrite Ht, Hw, swrap_small by lia. done.
Qed.

(** The part of [erts_atom_put] after the length checks, for a valid text. *)
Lemma atom_put_text_spec st t names cps rest is_utf8 nlat trunc uninit :
  atoms_rep st t names → Forall scalar cps → zlen cps <= MAX_ATOM_CHARACTERS →
  st !! malloc st = None → (is_utf8 = false → nlat = zlen cps) →
  let tx := utf8 cps in
  let r := atom_put_text malloc st t (tx ++ rest) (zlen tx) is_utf8 nlat trunc uninit in
  (∀ i, names !! i = Some tx → r = Ok (A_atom st t (Z.of_nat i))) ∧
  (tx ∉ names → atom_added st t names tx
     (if is_utf8 then if all_latin1 cps then zlen cps else -1 else zlen cps) r).
Proof.
  intros Hr Hs Hl Hfresh Hnl tx r.
  assert (valid_text tx) as Hv by (by exists cps).
  destruct (atoms_get st t names tx rest Hr (valid_text_len tx Hv) (valid_text_safe tx Hv))
    as (aix & Hget & Hin & Hout).
  subst r. unfold atom_put_text. rewrite Hget, bind_Ok, Z.geb_leb. split.
  - intros i Hi. rewrite (Hin i Hi). by destruct (Z.leb_spec 0 (Z.of_nat i)); [|lia].
  - intros Hno. rewrite (Hout Hno). cbn [Z.leb Z.compare].
    pose proof (zlen_nonneg cps). unfold MAX_ATOM_CHARACTERS in Hl.
    destruct is_utf8.
    + destruct (analyze_utf8_spec tx rest true MAX_ATOM_CHARACTERS) as (u & Hu & Han);
        [by apply utf8_bytes|done|].
      unfold erts_analyze_utf8_x. rewrite Hu, bind_Ok.
      assert (ur_code u = ERTS_UTF8_OK ∧ ur_latin1 u = Some (if all_latin1 cps then zlen cps else -1))
        as [-> ->]; [|simpl; apply atoms_put; auto; destruct (all_latin1 cps); lia].
      destruct (analysis_valid MAX_ATOM_CHARACTERS cps 0 _ _ _ Hs ltac:(unfold MAX_ATOM_CHARACTERS; lia) Han) as (? & _ & El).
      split; [done|]. rewrite El. simpl. by destruct (all_latin1 cps).
    + rewrite (Hnl eq_refl). apply atoms_put; auto. lia.
Qed.

Lemma all_latin1_bytes cps : Forall byte cps → all_latin1 cps = true.
Proof.
  induction 1 as [|c cps [Hc0 Hc1] _ IH]; [done|]. simpl. rewrite IH.
  by destruct (Z.ltb_spec c 256); [|lia].
Qed.

Lemma ascii_bytes cps : Forall (λ c, 0 <= c < 128) cps → Forall byte cps.
Proof. intros H. eapply Forall_impl; [done|]. unfold byte. intros x Hx. lia. Qed.

Lemma encoded_scalar enc cps l : encoded enc cps l → Forall scalar cps.
Proof.
  destruct enc; intros [_ H]; [|by apply byte_scalar|done].
  by apply byte_scalar, ascii_bytes.
Qed.

Lemma encoded_len enc cps l : encoded enc cps l → zlen cps <= zlen l.
Proof.
  destruct enc; intros [-> H]; [done|done|]. apply utf8_len.
Qed.

(** The number of characters when all of them are latin-1, otherwise -1. *)
Definition latin1_count (cps : list Z) : Z := if all_latin1 cps then zlen cps else -1.

(** [erts_atom_put] on a name of at most 255 characters, in any encoding. *)
Lemma erts_atom_put_spec st t names enc cps l rest trunc uninit :
  atoms_rep st t names → encoded enc cps l → zlen cps <= MAX_ATOM_CHARACTERS →
  st !! malloc st = None →
  let r := erts_atom_put malloc st t (l ++ rest) (zlen l) enc trunc uninit in
  (∀ i, names !! i = Some (utf8 cps) → r = Ok (A_atom st t (Z.of_nat i))) ∧
  (utf8 cps ∉ names → atom_added st t names (utf8 cps) (latin1_count cps) r).
Proof.
  intros Hr Henc Hl Hfresh r. subst r. pose proof (encoded_scalar _ _ _ Henc) as Hs.
  pose proof (zlen_nonneg l). unfold erts_atom_put. rewrite !Z.gtb_ltb.
  destruct (Z.ltb_spec (zlen l) 0); [lia|]. cbn [andb]. destruct enc; destruct Henc as [-> Hc].
  - destruct (Z.ltb_spec MAX_ATOM_CHARACTERS (zlen cps)); [lia|]. cbn [andb].
    pose proof (atom_put_text_spec st t names cps rest false (zlen cps) trunc uninit) as Hp.
    unfold latin1_count. rewrite all_latin1_bytes by by apply ascii_bytes.
    rewrite utf8_ascii in * by done. by apply Hp.
  - destruct (Z.ltb_spec MAX_ATOM_CHARACTERS (zlen cps)); [lia|]. cbn [andb].
    destruct (latin1_to_utf8_buf_spec cps rest Hc Hl) as (text & -> & rest' & ->). rewrite bind_Ok.
    unfold latin1_count. rewrite all_latin1_bytes by done.
    by apply (atom_put_text_spec st t names cps rest' false (zlen cps) trunc uninit).
  - pose proof (valid_text_len (utf8 cps) ltac:(by exists cps)).
    destruct (Z.ltb_spec MAX_ATOM_SZ_LIMIT (zlen (utf8 cps))); [lia|]. cbn [andb].
    by apply (atom_put_text_spec st t names cps rest true 0 trunc uninit).
Qed.

Lemma erts_atom_get_spec st t names enc cps l rest :
  atoms_rep st t names → encoded enc cps l → zlen cps <= MAX_ATOM_CHARACTERS →
  ∃ r, erts_atom_get st t (l ++ rest) (zlen l) enc = Ok r ∧
    (∀ i, names !! i = Some (utf8 cps) → r = Some (Z.of_nat i)) ∧ (utf8 cps ∉ names → r = None).
Proof.
  intros Hr Henc Hl. pose proof (encoded_scalar _ _ _ Henc) as Hs.
  assert (∃ rest', (match enc with
    | ERTS_ATOM_ENC_LATIN1 => latin1_to_utf8_buf (l ++ rest) (zlen l)
    | _ => Ok (l ++ rest, zlen l) end) = Ok (utf8 cps ++ rest', zlen (utf8 cps))) as [rest' Hmid].
  { destruct enc; destruct Henc as [-> Hc].
    - exists rest. by rewrite utf8_ascii.
    - destruct (latin1_to_utf8_buf_spec cps rest Hc Hl) as (text & -> & rest' & ->). by exists rest'.
    - by exists rest. }
  assert (valid_text (utf8 cps)) as Hv by (by exists cps).
  destruct (atoms_get st t names (utf8 cps) rest' Hr (valid_text_len _ Hv) (valid_text_safe _ Hv))
    as (i & Hget & Hin & Hout).
  unfold erts_atom_get. rewrite Hmid, bind_Ok, Hget, bind_Ok. eexists. split; [done|]. split.
  - intros j Hj. rewrite (Hin j Hj). by destruct (Z.ltb_spec (Z.of_nat j) 0); [lia|].
  - intros Hno. by rewrite (Hout Hno).
Qed.

(** Names that are refused: too long, or not UTF-8. *)
Lemma erts_atom_put_long st t name len enc uninit :
  len < 0 ∨ MAX_ATOM_SZ_LIMIT < len ∨ (enc ≠ ERTS_ATOM_ENC_UTF8 ∧ MAX_ATOM_CHARACTERS < len) →
  erts_atom_put malloc st t name len enc false uninit = Ok A_non_value.
Proof.
  unfold erts_atom_put, MAX_ATOM_SZ_LIMIT, MAX_ATOM_CHARACTERS. intros Hc.
  destruct (Z.ltb_spec len 0); [done|]. cbn [andb].
  destruct enc; rewrite Z.gtb_ltb; [destruct (Z.ltb_spec 255 len)..|destruct (Z.ltb_spec (4 * 255) len)];
    try done; destruct Hc as [|[|[]]]; try lia; done.
Qed.

Lemma erts_atom_put_bad_utf8 st t names l rest uninit :
  atoms_rep st t names → Forall byte l → hash_safe l → ¬ valid_text l →
  erts_atom_put malloc st t (l ++ rest) (zlen l) ERTS_ATOM_ENC_UTF8 false uninit = Ok A_non_value.
Proof.
  intros Hr Hb Hs Hv. destruct (Z.ltb_spec MAX_ATOM_SZ_LIMIT (zlen l)).
  { apply erts_atom_put_long. auto. }
  pose proof (zlen_nonneg l). unfold erts_atom_put. rewrite Z.gtb_ltb.
  destruct (Z.ltb_spec (zlen l) 0); [lia|]. destruct (Z.ltb_spec MAX_ATOM_SZ_LIMIT (zlen l)); [lia|].
  cbn [andb]. unfold atom_put_text.
  destruct (atoms_get st t names l rest Hr) as (aix & -> & _ & Hout); [done|done|].
  rewrite Hout, bind_Ok; cbn [Z.geb Z.compare].
  2:{ intros Hin. destruct Hr as [_ Hall]. rewrite Forall_forall in Hall. auto. }
  unfold erts_analyze_utf8_x.
  destruct (analyze_utf8_spec l rest true MAX_ATOM_CHARACTERS) as (u & -> & Han); [done|done|].
  rewrite bind_Ok. destruct Han as (cps & tail & -> & Hsc & _ & _ & _ & Hcase).
  destruct Hcase as [(-> & -> & Hmx & _)|[([-> | ->] & _)|(-> & _)]]; [|done..].
  exfalso. apply Hv. rewrite app_nil_r. exists cps. split_and!; [done|done|].
  by destruct Hmx.
Qed.

End Put.
