(* ===== verification/AtomCmp.v ===== *)
(** The order of atoms (utils.c, [erts_cmp_atoms]): that of their texts, byte by byte, in
    spite of the shortcut through the first 31 bits that every atom keeps. *)
From S2P Require Import Prelude Scan Utf8 Hash Index AtomTab.

(** Lexicographic comparison of texts. *)
Fixpoint lex (s1 s2 : bytes) : comparison :=
  match s1, s2 with
  | [], [] => Eq
  | [], _ :: _ => Lt
  | _ :: _, [] => Gt
  | c1 :: s1, c2 :: s2 => match Z.compare c1 c2 with Eq => lex s1 s2 | c => c end
  end.

Lemma cmpbytes_lex s1 s2 : (cmpbytes s1 s2 (zlen s1) (zlen s2) ?= 0) = lex s1 s2.
Proof.
  assert (∀ l1 l2, l1 - zlen s1 = l2 - zlen s2 → (cmpbytes s1 s2 l1 l2 ?= 0) = lex s1 s2) as Hgo;
    [|apply Hgo; lia].
  revert s2. induction s1 as [|c1 s1 IH]; intros [|c2 s2] l1 l2; rewrite ?zlen_cons, ?zlen_nil; intros Hl;
    simpl; rewrite !Z.gtb_ltb.
  - destruct (Z.ltb_spec l1 l2), (Z.ltb_spec l2 l1); lia || done.
  - pose proof (zlen_nonneg s2). destruct (Z.ltb_spec l1 l2); [done|lia].
  - pose proof (zlen_nonneg s1). destruct (Z.ltb_spec l1 l2), (Z.ltb_spec l2 l1); lia || done.
  - destruct (Z.compare_spec c1 c2), (Z.ltb_spec c1 c2), (Z.ltb_spec c2 c1); try lia; try done.
    apply IH. lia.
Qed.

(** The bytes that [ord0] holds, as four digits. *)
Lemma atom_ord0_value s :
  Forall byte s → atom_ord0 s = ord_byte s 0 * 2 ^ 23 + ord_byte s 1 * 2 ^ 15 +
    ord_byte s 2 * 2 ^ 7 + ord_byte s 3 / 2 ∧ ∀ i, byte (ord_byte s i).
Proof.
  intros Hs. assert (∀ i, byte (ord_byte s i)) as Hb.
  { intros i. unfold ord_byte. destruct (s !! i) as [c|] eqn:E; simpl; [|unfold byte; lia].
    by eapply Forall_lookup_1. }
  split; [|done]. unfold atom_ord0. rewrite !Z.shiftl_mul_pow2, Z.shiftr_div_pow2 by lia. done.
Qed.

(** Comparing what [ord0] holds of the first byte, then the rest. *)
Definition ord_step (d1 d2 : Z) (c : comparison) : comparison :=
  match Z.compare d1 d2 with Eq => c | c => c end.

Lemma ord_step_digit x y a b M r s c :
  0 <= r < M → 0 <= s < M → x = a * M + r → y = b * M + s →
  ord_step x y c = ord_step a b (ord_step r s c).
Proof.
  intros Hr Hs -> ->. unfold ord_step.
  destruct (Z.compare_spec a b), (Z.compare_spec (a * M + r) (b * M + s)), (Z.compare_spec r s);
    try done; exfalso; nia.
Qed.

(** Comparing [n] bytes from position [i], absent ones being 0, then [c]. *)
Fixpoint pads (n i : nat) (s1 s2 : bytes) (c : comparison) : comparison :=
  match n with
  | O => c
  | S n => ord_step (ord_byte s1 i) (ord_byte s2 i) (pads n (S i) s1 s2 c)
  end.

Lemma pads_cons n i x y s1 s2 c : pads n (S i) (x :: s1) (y :: s2) c = pads n i s1 s2 c.
Proof. revert i. induction n as [|n IH]; intros i; simpl; [done|]. by rewrite IH. Qed.

Lemma ord_byte_byte s i : Forall byte s → byte (ord_byte s i).
Proof. intros Hs. by apply atom_ord0_value. Qed.

Lemma pads_nil_l n i s : Forall byte s → pads n i [] s Lt = Lt.
Proof.
  intros Hs. revert i. induction n as [|n IH]; intros i; simpl; [done|]. rewrite IH. unfold ord_step.
  pose proof (ord_byte_byte s i Hs) as [? ?]. change (ord_byte [] i) with 0.
  by destruct (Z.compare_spec 0 (ord_byte s i)); [| |lia].
Qed.

Lemma pads_nil_r n i s : Forall byte s → pads n i s [] Gt = Gt.
Proof.
  intros Hs. revert i. induction n as [|n IH]; intros i; simpl; [done|]. rewrite IH. unfold ord_step.
  pose proof (ord_byte_byte s i Hs) as [? ?]. change (ord_byte [] i) with 0.
  by destruct (Z.compare_spec (ord_byte s i) 0); [|lia|].
Qed.

(** What is left to compare after [n] bytes. *)
Definition cmp_after (n : nat) (s1 s2 : bytes) : comparison :=
  if bool_decide (n <= length s1 ∧ n <= length s2)%nat then lex (drop n s1) (drop n s2)
  else zlen s1 ?= zlen s2.

Lemma cmp_after_nil n s1 s2 : (length s1 = 0 ∨ length s2 = 0)%nat → cmp_after n s1 s2 = (zlen s1 ?= zlen s2).
Proof.
  intros Hl. unfold cmp_after. destruct (bool_decide_reflect (n <= length s1 ∧ n <= length s2)%nat) as [Hn|]; [|done].
  assert (n = 0%nat) as -> by lia. rewrite !drop_0.
  destruct s1, s2; simpl in Hl; try lia; rewrite ?zlen_cons, ?zlen_nil; cbn [lex]; symmetry.
  - done.
  - apply Z.compare_lt_iff. pose proof (zlen_nonneg s2). lia.
  - apply Z.compare_gt_iff. pose proof (zlen_nonneg s1). lia.
Qed.

Lemma lex_pads n s1 s2 :
  Forall byte s1 → Forall byte s2 → lex s1 s2 = pads n 0 s1 s2 (cmp_after n s1 s2).
Proof.
  revert s1 s2. induction n as [|n IH]; intros s1 s2 H1 H2.
  { unfold cmp_after. rewrite bool_decide_true by lia. by rewrite !drop_0. }
  destruct H1 as [|x s1 Hx H1], H2 as [|y s2 Hy H2].
  - rewrite cmp_after_nil by (simpl; lia). change (zlen [] ?= zlen []) with Eq.
    generalize 0%nat. generalize (S n). intros k. induction k as [|k IHk]; intros i; [done|]. simpl.
    by rewrite <- IHk.
  - rewrite cmp_after_nil by (simpl; lia). replace (zlen (@nil Z) ?= zlen (y :: s2)) with Lt.
    + symmetry. apply pads_nil_l. by constructor.
    + symmetry. apply Z.compare_lt_iff. rewrite zlen_cons, zlen_nil. pose proof (zlen_nonneg s2). lia.
  - rewrite cmp_after_nil by (simpl; lia). replace (zlen (x :: s1) ?= zlen (@nil Z)) with Gt.
    + symmetry. apply pads_nil_r. by constructor.
    + symmetry. apply Z.compare_gt_iff. rewrite zlen_cons, zlen_nil. pose proof (zlen_nonneg s1). lia.
  - cbn [lex pads]. rewrite pads_cons, IH by done. unfold ord_step.
    change (ord_byte (x :: s1) 0) with x. change (ord_byte (y :: s2) 0) with y.
    replace (cmp_after (S n) (x :: s1) (y :: s2)) with (cmp_after n s1 s2); [done|].
    unfold cmp_after. rewrite !zlen_cons. cbn [length drop].
    replace (1 + zlen s1 ?= 1 + zlen s2) with (zlen s1 ?= zlen s2)
      by (destruct (Z.compare_spec (zlen s1) (zlen s2)), (Z.compare_spec (1 + zlen s1) (1 + zlen s2)); lia || done).
    by rewrite (bool_decide_ext (S n <= S (length s1) ∧ S n <= S (length s2))%nat
      (n <= length s1 ∧ n <= length s2)%nat) by lia.
Qed.

(** The top seven bits of the next byte decide nothing that the rest does not. *)
Lemma cmp_after_half s1 s2 :
  Forall byte s1 → Forall byte s2 →
  ord_step (ord_byte s1 3 / 2) (ord_byte s2 3 / 2) (cmp_after 3 s1 s2) = cmp_after 3 s1 s2.
Proof.
  intros H1 H2. unfold cmp_after.
  destruct (bool_decide_reflect (3 <= length s1 ∧ 3 <= length s2)%nat) as [Hn|Hn].
  - replace (ord_byte s1 3) with (ord_byte (drop 3 s1) 0) by (unfold ord_byte; by rewrite lookup_drop).
    replace (ord_byte s2 3) with (ord_byte (drop 3 s2) 0) by (unfold ord_byte; by rewrite lookup_drop).
    rewrite (lex_pads 1 (drop 3 s1) (drop 3 s2)) by (by apply Forall_drop). cbn [pads].
    generalize (cmp_after 1 (drop 3 s1) (drop 3 s2)) (ord_byte (drop 3 s1) 0) (ord_byte (drop 3 s2) 0).
    intros c a b. unfold ord_step.
    destruct (Z.compare_spec (a / 2) (b / 2)); [done|..]; destruct (Z.compare_spec a b); done || dlia.
  - unfold ord_step, zlen. pose proof (ord_byte_byte s1 3 H1) as [? ?]. pose proof (ord_byte_byte s2 3 H2) as [? ?].
    assert (∀ s, (length s <= 3)%nat → ord_byte s 3 = 0) as Hz.
    { intros s Hs. unfold ord_byte. by rewrite lookup_ge_None_2. }
    destruct (Z.compare_spec (ord_byte s1 3 / 2) (ord_byte s2 3 / 2)); [done|..];
      destruct (decide (length s1 <= 3)%nat) as [E1|E1], (decide (length s2 <= 3)%nat) as [E2|E2];
      try rewrite (Hz s1 E1) in *; try rewrite (Hz s2 E2) in *; try dlia; symmetry;
      (apply Z.compare_lt_iff || apply Z.compare_gt_iff); lia.
Qed.

Lemma cmp_after_cmpbytes s1 s2 :
  (cmpbytes (drop 3 s1) (drop 3 s2) (zlen s1 - 3) (zlen s2 - 3) ?= 0) = cmp_after 3 s1 s2.
Proof.
  unfold cmp_after. destruct (bool_decide_reflect (3 <= length s1 ∧ 3 <= length s2)%nat) as [Hn|Hn].
  - replace (zlen s1 - 3) with (zlen (drop 3 s1)) by (unfold zlen; rewrite length_drop; lia).
    replace (zlen s2 - 3) with (zlen (drop 3 s2)) by (unfold zlen; rewrite length_drop; lia).
    apply cmpbytes_lex.
  - assert (drop 3 s1 = [] ∨ drop 3 s2 = []) as Hd.
    { destruct (decide (3 <= length s1)%nat); [right|left]; apply drop_ge; lia. }
    replace (cmpbytes (drop 3 s1) (drop 3 s2) (zlen s1 - 3) (zlen s2 - 3)) with
      (if zlen s1 - 3 <? zlen s2 - 3 then -1 else if zlen s1 - 3 >? zlen s2 - 3 then 1 else 0).
    + rewrite Z.gtb_ltb. destruct (Z.ltb_spec (zlen s1 - 3) (zlen s2 - 3)), (Z.ltb_spec (zlen s2 - 3) (zlen s1 - 3)),
        (Z.compare_spec (zlen s1) (zlen s2)); lia || done.
    + destruct Hd as [-> | ->]; [done|]. by destruct (drop 3 s1).
Qed.

(** The comparison of [ord0] and of the names from the fourth byte on. *)
Lemma lex_ord s1 s2 :
  Forall byte s1 → Forall byte s2 →
  lex s1 s2 = ord_step (atom_ord0 s1) (atom_ord0 s2)
    (cmpbytes (drop 3 s1) (drop 3 s2) (zlen s1 - 3) (zlen s2 - 3) ?= 0).
Proof.
  intros H1 H2. destruct (atom_ord0_value s1 H1) as [-> Hb1], (atom_ord0_value s2 H2) as [-> Hb2].
  pose proof (Hb1 1%nat). pose proof (Hb1 2%nat). pose proof (Hb1 3%nat).
  pose proof (Hb2 1%nat). pose proof (Hb2 2%nat). pose proof (Hb2 3%nat).
  unfold byte in *.
  assert (0 <= ord_byte s1 3 / 2 < 128) by dlia. assert (0 <= ord_byte s2 3 / 2 < 128) by dlia.
  rewrite (ord_step_digit _ _ (ord_byte s1 0) (ord_byte s2 0) 8388608
    (ord_byte s1 1 * 32768 + ord_byte s1 2 * 128 + ord_byte s1 3 / 2)
    (ord_byte s2 1 * 32768 + ord_byte s2 2 * 128 + ord_byte s2 3 / 2)) by lia.
  rewrite (ord_step_digit (ord_byte s1 1 * 32768 + _ + _) _ (ord_byte s1 1) (ord_byte s2 1) 32768
    (ord_byte s1 2 * 128 + ord_byte s1 3 / 2) (ord_byte s2 2 * 128 + ord_byte s2 3 / 2)) by lia.
  rewrite (ord_step_digit (ord_byte s1 2 * 128 + _) _ (ord_byte s1 2) (ord_byte s2 2) 128
    (ord_byte s1 3 / 2) (ord_byte s2 3 / 2)) by lia.
  rewrite cmp_after_cmpbytes, cmp_after_half by done. by apply (lex_pads 3).
Qed.

Lemma erts_cmp_atoms_lex a b :
  atom_ok a → atom_ok b → Forall byte (a_name a) → Forall byte (a_name b) →
  a_ord0 a = atom_ord0 (atom_text a) → a_ord0 b = atom_ord0 (atom_text b) →
  (erts_cmp_atoms a b ?= 0) = lex (atom_text a) (atom_text b).
Proof.
  intros [Hla _] [Hlb _] Ha Hb Hoa Hob.
  assert (Forall byte (atom_text a)) as Hba by (by apply Forall_take).
  assert (Forall byte (atom_text b)) as Hbb by (by apply Forall_take).
  rewrite lex_ord by done. unfold erts_cmp_atoms.
  rewrite Hoa, Hob, <- (atom_text_len a Hla), <- (atom_text_len b Hlb).
  destruct (atom_ord0_value _ Hba) as [-> H1], (atom_ord0_value _ Hbb) as [-> H2].
  pose proof (H1 0%nat) as [? ?]. pose proof (H1 1%nat) as [? ?].
  pose proof (H1 2%nat) as [? ?]. pose proof (H1 3%nat) as [? ?].
  pose proof (H2 0%nat) as [? ?]. pose proof (H2 1%nat) as [? ?].
  pose proof (H2 2%nat) as [? ?]. pose proof (H2 3%nat) as [? ?].
  set (x := _ * 2 ^ 23 + _ + _ + _). set (y := _ * 2 ^ 23 + _ + _ + _).
  assert (0 <= x < 2 ^ 31) by (subst x; dlia). assert (0 <= y < 2 ^ 31) by (subst y; dlia).
  unfold to_int. rewrite swrap_small by lia. unfold ord_step.
  destruct (Z.eqb_spec (x - y) 0); simpl.
  - by replace y with x by lia; rewrite Z.compare_refl.
  - destruct (Z.compare_spec x y); [lia|..]; [apply Z.compare_lt_iff|apply Z.compare_gt_iff]; lia.
Qed.
