(* ===== verification/TableProps.v ===== *)
(** Properties of the tables of the runtime system: the growing hash table against a
    finite map, the atom table against a list of names, the analysis of UTF-8 text and
    the order of atoms. *)
From S2P Require Import Prelude Scan Utf8 Hash Index AtomTab AtomCmp.

(** * The hash table *)

(** Calls of the table; [HRemove] leaves the object to the caller. *)
Inductive hash_op (T : Type) :=
| HGet (tmpl : T)
| HPut (tmpl : T)
| HRemove (tmpl : T)
| HErase (tmpl : T).
Arguments HGet {T} tmpl.
Arguments HPut {T} tmpl.
Arguments HRemove {T} tmpl.
Arguments HErase {T} tmpl.

Definition op_tmpl {T} (op : hash_op T) : T :=
  match op with HGet t | HPut t | HRemove t | HErase t => t end.

Section HashRun.
Context {T K : Type} `{HashLaws T K} `{Countable K}.
Context (malloc : gmap Z T → Z).

(** One call, and the object its result points to; for [hash_erase], the object that
    is gone is not returned. *)
Definition hash_call (st : gmap Z T) (h : Hash) (op : hash_op T) :
    res (gmap Z T * Hash * option T) :=
  match op with
  | HGet t =>
      r ← hash_get st h t;
      Ok (st, h, r ≫= λ p, st !! p)
  | HPut t =>
      '(st, h, p) ← hash_put malloc st h t;
      Ok (st, h, st !! p)
  | HRemove t =>
      '(h, r) ← hash_remove st h t;
      Ok (st, h, r ≫= λ p, st !! p)
  | HErase t =>
      '(st, h, _) ← hash_erase st h t;
      Ok (st, h, None)
  end.

Fixpoint hash_calls (st : gmap Z T) (h : Hash) (ops : list (hash_op T)) :
    res (gmap Z T * Hash * list (option T)) :=
  match ops with
  | [] => Ok (st, h, [])
  | op :: ops =>
      '(st, h, r) ← hash_call st h op;
      '(st, h, rs) ← hash_calls st h ops;
      Ok (st, h, r :: rs)
  end.

(** The same calls on a finite map from keys to objects. *)
Definition map_call (m : gmap K T) (op : hash_op T) : gmap K T * option T :=
  match op with
  | HGet t => (m, m !! hkey t)
  | HPut t =>
      match m !! hkey t with
      | Some o => (m, Some o)
      | None => (<[hkey t := hf_alloc t]> m, Some (hf_alloc t))
      end
  | HRemove t => (delete (hkey t) m, m !! hkey t)
  | HErase t => (delete (hkey t) m, None)
  end.

Fixpoint map_calls (m : gmap K T) (ops : list (hash_op T)) : gmap K T * list (option T) :=
  match ops with
  | [] => (m, [])
  | op :: ops =>
      let '(m, r) := map_call m op in
      let '(m, rs) := map_calls m ops in (m, r :: rs)
  end.

(** The map that a table and its objects stand for. *)
Definition hash_map (st : gmap Z T) (h : Hash) (mo : gmap K T) : Prop :=
  load_ok h ∧ ∃ m, hash_rep st h m ∧ ∀ k, mo !! k = m !! k ≫= λ p, st !! p.

Lemma hash_map_lookup st h (m : gmap K Z) p k :
  hash_rep st h m → m !! k = Some p → ∃ o, st !! p = Some o ∧ hkey o = k.
Proof. intros [_ Hr] Hm. apply (er_map _ _ _ Hr) in Hm as (_ & o & ? & ?). eauto. Qed.

Lemma hash_call_sim st h mo op :
  hash_map st h mo → hok (op_tmpl op) → st !! malloc st = None → h_nobjs h < INT_MAX →
  ∃ st' h', hash_call st h op = Ok (st', h', (map_call mo op).2) ∧
    hash_map st' h' (map_call mo op).1.
Proof.
  intros (Hl & m & Hr & Hm) Ht Hf Hmax. destruct op as [t|t|t|t]; simpl in *.
  - rewrite (hash_get_spec st h m t Hr Ht), bind_Ok. exists st, h. rewrite <- Hm.
    split; [done|]. split; [done|]. by exists m.
  - destruct (hash_put_spec malloc st h m t Hr Ht Hf Hmax) as (st' & h' & p & -> & Hr' & Hl' & Hc).
    rewrite bind_Ok. exists st', h'. rewrite Hm. destruct (m !! hkey t) as [q|] eqn:Eq.
    + destruct Hc as (-> & -> & ->). simpl. rewrite insert_id in Hr' by done.
      destruct (hash_map_lookup _ _ _ _ _ Hr Eq) as (o & -> & _).
      split; [done|]. split; [done|]. exists m. by split.
    + destruct Hc as [-> ->]. simpl. rewrite lookup_insert_eq.
      split; [done|]. split; [auto|]. eexists. split; [exact Hr'|]. intros k.
      destruct (decide (k = hkey t)) as [->|Hne].
      * rewrite !lookup_insert_eq. simpl. by rewrite lookup_insert_eq.
      * rewrite !lookup_insert_ne, Hm by done. destruct (m !! k) as [q|] eqn:Ek; [|done]. simpl.
        destruct (hash_map_lookup _ _ _ _ _ Hr Ek) as (o & Ho & _).
        rewrite lookup_insert_ne; [done|]. congruence.
  - destruct (hash_remove_spec st h m t Hr Ht) as (h' & -> & Hr' & Hl'). rewrite bind_Ok.
    exists st, h'. rewrite <- Hm. split; [done|]. split; [auto|]. eexists. split; [exact Hr'|].
    intros k. destruct (decide (k = hkey t)) as [->|Hne]; [by rewrite !lookup_delete_eq|].
    by rewrite !lookup_delete_ne.
  - destruct (hash_erase_spec st h m t Hr Ht) as (st' & h' & -> & Hr' & Hl' & ->). rewrite bind_Ok.
    eexists _, _. split; [done|]. split; [auto|]. eexists. split; [exact Hr'|].
    intros k. destruct (decide (k = hkey t)) as [->|Hne]; [by rewrite !lookup_delete_eq|].
    rewrite !lookup_delete_ne, Hm by done. destruct (m !! k) as [q|] eqn:Ek; [|done]. simpl.
    destruct (m !! hkey t) as [p|] eqn:Et; [|done].
    rewrite lookup_delete_ne; [done|]. intros <-.
    destruct (hash_map_lookup _ _ _ _ _ Hr Ek) as (o & Ho & Hk).
    destruct (hash_map_lookup _ _ _ _ _ Hr Et) as (o' & Ho' & Hk'). congruence.
Qed.

(** The number of objects is that of the keys. *)
Lemma hash_map_nobjs st h mo : hash_map st h mo → h_nobjs h = Z.of_nat (base.size mo).
Proof.
  intros (_ & m & Hr & Hm). rewrite (hash_rep_size st h m Hr). f_equal.
  assert (dom mo = dom m) as Hd; [|by rewrite <- !size_dom, Hd].
  apply set_eq. intros k. rewrite !elem_of_dom, Hm. destruct (m !! k) as [p|] eqn:Ek; simpl; [|by split; intros [? [=]]].
  destruct (hash_map_lookup _ _ _ _ _ Hr Ek) as (o & -> & _). split; intros _; by eexists.
Qed.

Lemma map_call_size (mo : gmap K T) op : (base.size (map_call mo op).1 <= S (base.size mo))%nat.
Proof.
  assert (∀ k, base.size (delete k mo) <= S (base.size mo))%nat as Hdel.
  { intros k. destruct (mo !! k) eqn:E; [rewrite map_size_delete_Some by done|rewrite map_size_delete_None by done]; lia. }
  destruct op as [t|t|t|t]; simpl; [lia| |apply Hdel|apply Hdel].
  destruct (mo !! hkey t) as [o|] eqn:E; simpl; [lia|]. by rewrite map_size_insert_None.
Qed.

Lemma hash_calls_sim st h mo ops :
  hash_map st h mo → Forall (λ op, hok (op_tmpl op)) ops → (∀ st, st !! malloc st = None) →
  Z.of_nat (base.size mo) + zlen ops <= INT_MAX →
  ∃ st' h', hash_calls st h ops = Ok (st', h', (map_calls mo ops).2) ∧ hash_map st' h' (map_calls mo ops).1.
Proof.
  intros Hm Hops Hf. revert st h mo Hm. induction Hops as [|op ops Hop _ IH]; intros st h mo Hm Hmax; [by exists st, h|]. simpl.
  rewrite zlen_cons in Hmax. pose proof (zlen_nonneg ops). pose proof (map_call_size mo op).
  destruct (hash_call_sim st h mo op Hm Hop (Hf st)) as (st1 & h1 & -> & Hm1); [rewrite (hash_map_nobjs _ _ _ Hm); lia|]. rewrite bind_Ok.
  destruct (map_call mo op) as [mo1 r]. simpl in *.
  destruct (IH st1 h1 mo1 Hm1 ltac:(lia)) as (st2 & h2 & -> & Hm2). rewrite bind_Ok.
  destruct (map_calls mo1 ops) as [mo2 rs]. simpl in *. eauto.
Qed.

(** C9: The hash table implements a finite map.  Every sequence of at most INT_MAX calls of
    [hash_get], [hash_put], [hash_remove] and [hash_erase] on a table created by [hash_init]
    runs to its end, through every growth and shrinking of the table, and gives the results
    of the same calls on a map from keys to objects; the table then represents that map,
    counts its entries, and is not loaded beyond 8/5 unless it has its largest size.
    INT_MAX bounds the counter of the objects, which is an [int].  The callbacks obey the
    laws of [HashLaws] and [malloc] returns unused addresses. *)
Theorem hash_refines_map size h st ops :
  hash_init size = Some h → Forall (λ op, hok (op_tmpl op)) ops → zlen ops <= INT_MAX →
  (∀ st, st !! malloc st = None) →
  ∃ st' h', hash_calls st h ops = Ok (st', h', (map_calls ∅ ops).2) ∧
    hash_map st' h' (map_calls ∅ ops).1 ∧
    h_nobjs h' = Z.of_nat (base.size (map_calls ∅ ops).1).
Proof.
  intros Hi Hops Hmax Hf. assert (hash_map st h ∅) as Hm.
  { destruct (hash_init_spec (K := K) size h st Hi) as (_ & Hl & Hr). split; [done|].
    exists ∅. split; [done|]. intros k. by rewrite !lookup_empty. }
  destruct (hash_calls_sim st h ∅ ops Hm Hops Hf) as (st' & h' & E & Hm'); [rewrite map_size_empty; lia|].
  exists st', h'. split_and!; [done|done|by apply (hash_map_nobjs st')].
Qed.
End HashRun.

(** An allocator that returns unused addresses. *)
Definition next_free {T} (st : gmap Z T) : Z := fresh (dom st).

Lemma next_free_fresh {T} (st : gmap Z T) : st !! next_free st = None.
Proof. apply not_elem_of_dom. apply is_fresh. Qed.

Definition template_ab : Atom := template 2 [97; 98] 2.
Definition template_e : Atom := template 2 [195; 169] 1.

Lemma hash_refines_map_witness :
  let ops := [HPut template_ab; HPut template_e; HGet template_ab; HErase template_ab;
              HGet template_ab; HRemove template_e] in
  ∃ h, hash_init 1 = Some h ∧
    ∃ st' h', hash_calls next_free ∅ h ops =
        Ok (st', h', [Some (atom_alloc template_ab); Some (atom_alloc template_e);
                      Some (atom_alloc template_ab); None; None; Some (atom_alloc template_e)]) ∧
      h_nobjs h' = 0.
Proof.
  eexists. split; [reflexivity|].
  destruct (hash_refines_map (K := Z * bytes) next_free 1 _ ∅
    [HPut template_ab; HPut template_e; HGet template_ab; HErase template_ab;
     HGet template_ab; HRemove template_e] eq_refl) as (st' & h' & E & _ & Hn).
  - assert (hok template_ab) by (split; [done|]; by intros v [= <-]).
    assert (hok template_e) by (split; [done|]; by intros v [= <-]).
    repeat (constructor; [done|]). constructor.
  - done.
  - apply next_free_fresh.
  - exists st', h'. split; [rewrite E; reflexivity|]. rewrite Hn. reflexivity.
Defined.

(** * The index table *)

Inductive index_op (T : Type) :=
| IPut (tmpl : T)
| IGet (tmpl : T)
| IErase (from_ix : Z).
Arguments IPut {T} tmpl.
Arguments IGet {T} tmpl.
Arguments IErase {T} from_ix.

Section IndexRun.
Context {T K : Type} `{IndexLaws T K} `{Countable K}.
Context (malloc : gmap Z T → Z).

(** The indices returned; [None] when the table was full and the program exited. *)
Fixpoint index_calls (st : gmap Z T) (t : IndexTable) (ops : list (index_op T)) :
    res (option (gmap Z T * IndexTable * list Z)) :=
  match ops with
  | [] => Ok (Some (st, t, []))
  | op :: ops =>
      r ← match op with
        | IPut tmpl => index_put malloc st t tmpl
        | IGet tmpl => i ← index_get st t tmpl; Ok (Some (st, t, i))
        | IErase from_ix =>
            '(st, t) ← index_erase_latest_from st t from_ix; Ok (Some (st, t, 0))
        end;
      match r with
      | None => Ok None
      | Some (st, t, i) =>
          r ← index_calls st t ops;
          Ok (match r with None => None | Some (st, t, ixs) => Some (st, t, i :: ixs) end)
      end
  end.

(** The position of a key in the list. *)
Definition position (ks : list K) (k : K) : option nat := fst <$> list_find (λ x, x = k) ks.

(** The same calls on the list of the keys, of which there are at most [cap]. *)
Fixpoint list_calls (cap : Z) (ks : list K) (ops : list (index_op T)) : option (list K * list Z) :=
  match ops with
  | [] => Some (ks, [])
  | op :: ops =>
      '(ks, i) ← match op with
        | IPut tmpl =>
            match position ks (hkey tmpl) with
            | Some i => Some (ks, Z.of_nat i)
            | None => if zlen ks =? cap then None else Some (ks ++ [hkey tmpl], zlen ks)
            end
        | IGet tmpl =>
            Some (ks, match position ks (hkey tmpl) with Some i => Z.of_nat i | None => -1 end)
        | IErase from_ix => Some (take (Z.to_nat from_ix) ks, 0)
        end;
      '(ks, ixs) ← list_calls cap ks ops;
      Some (ks, i :: ixs)
  end.

Definition index_op_ok (op : index_op T) : Prop :=
  match op with IPut t | IGet t => hok t | IErase from_ix => 0 <= from_ix end.

Lemma position_Some ks (k : K) i : position ks k = Some i → ks !! i = Some k.
Proof.
  unfold position. destruct (list_find _ ks) as [[j x]|] eqn:E; [|done]. intros [= <-].
  by apply list_find_Some in E as (? & -> & _).
Qed.

Lemma position_None ks (k : K) : position ks k = None → k ∉ ks.
Proof.
  unfold position. destruct (list_find _ ks) as [[j x]|] eqn:E; [done|]. intros _ Hin.
  apply list_find_None in E. by eapply (proj1 (Forall_forall _ _) E k).
Qed.

Lemma index_erase_any st t (m : gmap K Z) ks from :
  index_rep st t m ks → 0 <= from →
  ∃ st' t' m', index_erase_latest_from st t from = Ok (st', t') ∧
    index_rep st' t' m' (take (Z.to_nat from) ks) ∧ t_limit t' = t_limit t.
Proof.
  intros Hr Hf. destruct (decide (Z.to_nat from <= length ks)%nat).
  - pose proof (index_erase_spec st t m ks (Z.to_nat from) Hr) as He.
    rewrite Z2Nat.id in He by done. by apply He.
  - exists st, t, m. rewrite take_ge by lia. split_and!; [|done|done].
    unfold index_erase_latest_from. rewrite (ir_entries _ _ _ _ Hr). unfold zlen.
    by destruct (Z.ltb_spec from (Z.of_nat (length ks))); [lia|].
Qed.

Lemma index_calls_sim st t (m : gmap K Z) ks ops :
  index_rep st t m ks → Forall index_op_ok ops → (∀ st, st !! malloc st = None) →
  match list_calls (index_capacity (t_limit t)) ks ops with
  | None => index_calls st t ops = Ok None
  | Some (ks', ixs) => ∃ st' t' m', index_calls st t ops = Ok (Some (st', t', ixs)) ∧
      index_rep st' t' m' ks' ∧ t_limit t' = t_limit t
  end.
Proof.
  intros Hr Hops Hf. revert st t m ks Hr.
  induction Hops as [|op ops Hop _ IH]; intros st t m ks Hr; [by exists st, t, m|].
  assert (Hnext : ∀ st' t' m' ks' i, index_rep st' t' m' ks' → t_limit t' = t_limit t →
    match ('(ks, ixs) ← list_calls (index_capacity (t_limit t)) ks' ops; Some (ks, i :: ixs)) with
    | None => (r ← index_calls st' t' ops;
        Ok (match r with None => None | Some (st, t, ixs) => Some (st, t, i :: ixs) end)) = Ok None
    | Some (ks', ixs) => ∃ st2 t2 m2, (r ← index_calls st' t' ops;
          Ok (match r with None => None | Some (st, t, ixs) => Some (st, t, i :: ixs) end)) =
            Ok (Some (st2, t2, ixs)) ∧ index_rep st2 t2 m2 ks' ∧ t_limit t2 = t_limit t
    end).
  { intros st' t' m' ks' i Hr' Hl. specialize (IH st' t' m' ks' Hr'). rewrite Hl in IH.
    destruct (list_calls _ ks' ops) as [[ks2 ixs]|]; simpl.
    - destruct IH as (st2 & t2 & m2 & -> & ? & ?). by exists st2, t2, m2.
    - by rewrite IH. }
  destruct op as [tmpl|tmpl|from]; cbn [list_calls index_calls index_op_ok] in *.
  - pose proof (index_put_spec malloc st t m ks tmpl Hr Hop (Hf st)) as Hp. unfold position.
    destruct (list_find _ ks) as [[i k]|]; simpl.
    + destruct Hp as (st' & t' & -> & Hr' & _ & Hl). by eapply (Hnext st' t' m ks (Z.of_nat i)).
    + destruct (zlen ks =? index_capacity (t_limit t)); simpl; [by rewrite Hp|].
      destruct Hp as (st' & t' & m' & p & -> & Hr' & Hl & _). by eapply Hnext.
  - destruct (index_get_spec st t m ks tmpl Hr Hop) as (r & -> & Hin & Hout). simpl.
    replace r with (match position ks (hkey tmpl) with Some i => Z.of_nat i | None => -1 end);
      [by eapply Hnext|].
    destruct (position ks (hkey tmpl)) as [i|] eqn:E; symmetry.
    + by apply Hin, position_Some.
    + by apply Hout, position_None.
  - destruct (index_erase_any st t m ks from Hr Hop) as (st' & t' & m' & -> & Hr' & Hl). simpl.
    by eapply Hnext.
Qed.

(** C26: The index table implements a list of keys.  Every sequence of [index_put],
    [index_get] and [index_erase_latest_from] on a table created by [erts_index_init]
    runs to its end and returns the positions of the keys in the list that the same
    calls build: a known key keeps its position, a new one is appended, erasing cuts the
    list.  [erts_index_lookup] then finds the object of every position.  The program
    exits exactly when a key is added to a list of [limit] keys rounded up to whole
    pages of 1024.  The limit is at most INT_MAX - 1024, so that [erts_index_init] computes
    the number of pages without an overflow of [int]; the objects obey [HashLaws] and
    [IndexLaws], indices that are erased from are not negative, and [malloc] returns unused
    addresses. *)
Theorem index_refines_list size limit t ops :
  erts_index_init size limit = Some t → 0 <= limit <= max_limit → Forall index_op_ok ops →
  (∀ st, st !! malloc st = None) →
  match list_calls (1024 * ((limit + 1023) / 1024)) [] ops with
  | None => index_calls ∅ t ops = Ok None
  | Some (ks, ixs) => ∃ st' t', index_calls ∅ t ops = Ok (Some (st', t', ixs)) ∧
      t_entries t' = zlen ks ∧ NoDup ks ∧
      ∀ i k, ks !! i = Some k → ∃ p o, erts_index_lookup t' (Z.of_nat i) = Ok p ∧
        st' !! p = Some o ∧ hkey o = k ∧ slot_index o = Z.of_nat i
  end.
Proof.
  intros Hi Hl Hops Hf. pose proof (index_rep_init (K := K) size limit t Hi Hl) as Hr.
  pose proof (index_calls_sim ∅ t ∅ [] ops Hr Hops Hf) as Hsim.
  assert (t_limit t = limit) as El.
  { unfold erts_index_init in Hi. by destruct (hash_init _); simplify_eq/=. }
  unfold index_capacity in Hsim. rewrite El, index_pages_eq, Z.mul_comm in Hsim by done.
  change INDEX_PAGE_SIZE with 1024 in Hsim.
  destruct (list_calls _ [] ops) as [[ks ixs]|]; [|done].
  destruct Hsim as (st' & t' & m' & E & Hr' & _). exists st', t'. split_and!; [done| | |].
  - by destruct Hr'.
  - by destruct Hr'.
  - intros i k Hk. by apply (index_lookup_spec st' t' m' ks).
Qed.
End IndexRun.

Lemma index_refines_list_witness :
  ∃ t, erts_index_init 8 100 = Some t ∧
    ∃ st' t', index_calls next_free ∅ t
        [IPut template_ab; IPut template_e; IPut template_ab; IErase 1; IGet template_e;
         IPut template_e; IGet template_e] = Ok (Some (st', t', [0; 1; 0; 0; -1; 1; 1])) ∧
      t_entries t' = 2.
Proof.
  eexists. split; [reflexivity|].
  destruct (index_refines_list (K := Z * bytes) next_free 8 100 _
    [IPut template_ab; IPut template_e; IPut template_ab; IErase 1; IGet template_e;
     IPut template_e; IGet template_e] eq_refl) as (st' & t' & E & Hn & _).
  - done.
  - assert (hok template_ab) by (split; [done|]; by intros v [= <-]).
    assert (hok template_e) by (split; [done|]; by intros v [= <-]).
    repeat (constructor; [done|]). constructor.
  - apply next_free_fresh.
  - exists st', t'. split; [exact E|exact Hn].
Defined.

(** * Atoms *)

(** A request for an atom: characters, their encoding, and the memory that holds it. *)
Record atom_req := mk_req { rq_enc : ErtsAtomEncoding; rq_chars : list Z; rq_bytes : bytes; rq_rest : bytes }.

Definition req_ok (rq : atom_req) : Prop :=
  encoded (rq_enc rq) (rq_chars rq) (rq_bytes rq) ∧ zlen (rq_chars rq) <= MAX_ATOM_CHARACTERS.

(** Calls of [erts_atom_put]; [None] when the table was full. *)
Fixpoint atom_puts (malloc : gmap Z Atom → Z) (uninit : Z) (st : gmap Z Atom) (t : IndexTable)
    (reqs : list atom_req) : res (option (gmap Z Atom * IndexTable * list Z)) :=
  match reqs with
  | [] => Ok (Some (st, t, []))
  | rq :: reqs =>
      r ← erts_atom_put malloc st t (rq_bytes rq ++ rq_rest rq) (zlen (rq_bytes rq)) (rq_enc rq)
        false uninit;
      match r with
      | A_atom st t i =>
          r ← atom_puts malloc uninit st t reqs;
          Ok (match r with None => None | Some (st, t, ixs) => Some (st, t, i :: ixs) end)
      | _ => Ok None
      end
  end.

(** Interning character strings. *)
Fixpoint intern (cap : Z) (names : list (list Z)) (reqs : list (list Z)) :
    option (list (list Z) * list Z) :=
  match reqs with
  | [] => Some (names, [])
  | cps :: reqs =>
      '(names, i) ← match position names cps with
        | Some i => Some (names, Z.of_nat i)
        | None => if zlen names =? cap then None else Some (names ++ [cps], zlen names)
        end;
      '(names, ixs) ← intern cap names reqs;
      Some (names, i :: ixs)
  end.

Lemma utf8_inj cps cps' : Forall scalar cps → Forall scalar cps' → utf8 cps = utf8 cps' → cps = cps'.
Proof.
  intros Hs Hs' E. rewrite <- (app_nil_r (utf8 cps')) in E.
  apply utf8_prefix in E as (c2 & -> & E & _); [|done..]. destruct c2 as [|c c2]; [by rewrite app_nil_r|].
  apply (f_equal zlen) in E. rewrite utf8_cons, zlen_app, zlen_nil in E.
  pose proof (utf8_encode_len c). pose proof (zlen_nonneg (utf8 c2)). lia.
Qed.

(** The table with the character strings [names]. *)
Definition names_ok (names : list (list Z)) : Prop :=
  Forall (λ cps, Forall scalar cps ∧ zlen cps <= MAX_ATOM_CHARACTERS) names.

Lemma names_lookup names (i : nat) cps :
  names_ok names → Forall scalar cps → (utf8 <$> names) !! i = Some (utf8 cps) ↔ names !! i = Some cps.
Proof.
  intros Hn Hs. rewrite list_lookup_fmap. destruct (names !! i) as [nm|] eqn:E; simpl; [|by split].
  pose proof (Forall_lookup_1 _ _ _ _ Hn E) as [Hsn _]. split; [|congruence].
  intros [= Eu]. f_equal. by apply utf8_inj.
Qed.

Lemma names_elem names cps :
  names_ok names → Forall scalar cps → utf8 cps ∈ utf8 <$> names → cps ∈ names.
Proof.
  intros Hn Hs [i Hi]%list_elem_of_lookup_1. apply (names_lookup names i cps Hn Hs) in Hi.
  by eapply list_elem_of_lookup_2.
Qed.

Lemma atom_puts_sim malloc uninit st t names reqs :
  atoms_rep st t (utf8 <$> names) → names_ok names → Forall req_ok reqs →
  (∀ st, st !! malloc st = None) →
  match intern (index_capacity (t_limit t)) names (rq_chars <$> reqs) with
  | None => atom_puts malloc uninit st t reqs = Ok None
  | Some (names', ixs) => ∃ st' t', atom_puts malloc uninit st t reqs = Ok (Some (st', t', ixs)) ∧
      atoms_rep st' t' (utf8 <$> names') ∧ names_ok names'
  end.
Proof.
  intros Hr Hn Hreqs Hf. revert st t names Hr Hn.
  induction Hreqs as [|rq reqs [Henc Hlen] _ IH]; intros st t names Hr Hn; [by exists st, t|].
  pose proof (encoded_scalar _ _ _ Henc) as Hs.
  destruct (erts_atom_put_spec malloc st t _ _ _ _ (rq_rest rq) false uninit Hr Henc Hlen (Hf st))
    as [Hold Hnew]. cbn [fmap list_fmap map atom_puts intern] in *.
  destruct (position names (rq_chars rq)) as [i|] eqn:Ep; simpl.
  - rewrite (Hold i) by by apply names_lookup, position_Some. simpl. specialize (IH st t names Hr Hn).
    destruct (intern _ names _) as [[names' ixs]|]; simpl; [|by rewrite IH].
    destruct IH as (st' & t' & -> & ? & ?). by exists st', t'.
  - assert (utf8 (rq_chars rq) ∉ utf8 <$> names) as Hno.
    { intros Hin. apply position_None in Ep. by apply Ep, names_elem. }
    specialize (Hnew Hno). unfold atom_added in Hnew.
    replace (zlen (utf8 <$> names)) with (zlen names) in Hnew by (symmetry; apply zlen_map).
    destruct (zlen names =? index_capacity (t_limit t)); simpl; [by rewrite Hnew|].
    destruct Hnew as (st1 & t1 & -> & Hr1 & Hl1 & _). simpl.
    assert (names_ok (names ++ [rq_chars rq])) as Hn1.
    { apply Forall_app. split; [done|]. by constructor. }
    specialize (IH st1 t1 (names ++ [rq_chars rq])). rewrite fmap_app, Hl1 in IH.
    specialize (IH Hr1 Hn1).
    destruct (intern _ (names ++ _) _) as [[names' ixs]|]; simpl; [|by rewrite IH].
    destruct IH as (st' & t' & -> & ? & ?). by exists st', t'.
Qed.

(** C20: Atoms are interned character strings.  Any sequence of [erts_atom_put] calls on
    an empty table, for names of at most 255 characters in any of the three encodings,
    runs to its end without leaving the name's bytes; two calls return the same atom
    exactly when their characters are the same, whatever the encodings, new atoms are
    numbered consecutively, and the program exits only when the table is full, that is,
    holds [limit] atoms rounded up to a multiple of 1024 (the limit is at most INT_MAX - 1024,
    so that the number of pages does not overflow, and [malloc] returns unused addresses).
    Afterwards [erts_atom_get] finds exactly the atoms that were put, and [atom_tab]
    holds the UTF-8 text of every atom. *)
Theorem atoms_interned malloc uninit size limit t reqs :
  erts_index_init size limit = Some t → 0 <= limit <= max_limit → Forall req_ok reqs →
  (∀ st, st !! malloc st = None) →
  match intern (1024 * ((limit + 1023) / 1024)) [] (rq_chars <$> reqs) with
  | None => atom_puts malloc uninit ∅ t reqs = Ok None
  | Some (names, ixs) =>
      ∃ st' t', atom_puts malloc uninit ∅ t reqs = Ok (Some (st', t', ixs)) ∧
        (∀ rq, req_ok rq →
           erts_atom_get st' t' (rq_bytes rq ++ rq_rest rq) (zlen (rq_bytes rq)) (rq_enc rq) =
           Ok (Z.of_nat <$> position names (rq_chars rq))) ∧
        (∀ i cps, names !! i = Some cps →
           ∃ a, atom_tab st' t' (Z.of_nat i) = Ok a ∧ atom_text a = utf8 cps)
  end.
Proof.
  intros Hi Hl Hreqs Hf. pose proof (index_rep_init (K := Z * bytes) size limit t Hi Hl) as Hr.
  assert (t_limit t = limit) as El.
  { unfold erts_index_init in Hi. by destruct (hash_init _); simplify_eq/=. }
  pose proof (atom_puts_sim malloc uninit ∅ t [] reqs) as Hsim. unfold index_capacity in Hsim. rewrite El, index_pages_eq, Z.mul_comm in Hsim by done.
  specialize (Hsim ltac:(split; [by exists ∅|constructor]) ltac:(constructor) Hreqs Hf).
  destruct (intern _ [] _) as [[names ixs]|]; [|done].
  destruct Hsim as (st' & t' & E & Hr' & Hn). exists st', t'. split_and!; [done| |].
  - intros rq [Henc Hlen]. pose proof (encoded_scalar _ _ _ Henc) as Hs.
    destruct (erts_atom_get_spec st' t' _ _ _ _ (rq_rest rq) Hr' Henc Hlen) as (r & -> & Hin & Hout).
    f_equal. destruct (position names (rq_chars rq)) as [i|] eqn:Ep.
    + apply (Hin i). apply names_lookup; [done..|]. by apply position_Some.
    + apply Hout. intros Hin'. apply position_None in Ep. by apply Ep, names_elem.
  - intros i cps Hi'. destruct Hr' as [[m Hr'] _].
    destruct (index_lookup_spec st' t' m _ i (atom_key (utf8 cps)) Hr') as (p & o & Hp & Ho & Hk & _).
    { by rewrite !list_lookup_fmap, Hi'. }
    exists o. unfold atom_tab. rewrite Hp, bind_Ok, (deref_Some _ _ _ Ho).
    split; [done|]. by injection Hk.
Qed.

Lemma atoms_interned_witness :
  ∃ t, erts_index_init 8 100 = Some t ∧
    ∃ st' t', atom_puts next_free 0 ∅ t
        [mk_req ERTS_ATOM_ENC_LATIN1 [233] [233] []; mk_req ERTS_ATOM_ENC_UTF8 [111; 107] [111; 107] [7];
         mk_req ERTS_ATOM_ENC_UTF8 [233] [195; 169] []; mk_req ERTS_ATOM_ENC_7BIT_ASCII [111; 107] [111; 107] []]
      = Ok (Some (st', t', [0; 1; 0; 1])).
Proof.
  eexists. split; [reflexivity|].
  destruct (atoms_interned next_free 0 8 100 _
    [mk_req ERTS_ATOM_ENC_LATIN1 [233] [233] []; mk_req ERTS_ATOM_ENC_UTF8 [111; 107] [111; 107] [7];
     mk_req ERTS_ATOM_ENC_UTF8 [233] [195; 169] []; mk_req ERTS_ATOM_ENC_7BIT_ASCII [111; 107] [111; 107] []]
    eq_refl) as (st' & t' & E & _).
  - done.
  - repeat (constructor; [split; [split; [reflexivity|]|done];
      repeat constructor; simpl; unfold byte, scalar; lia|]). constructor.
  - apply next_free_fresh.
  - exists st', t'. exact E.
Defined.

(** Without truncation, [erts_atom_put] refuses a name that is not the UTF-8 text of
    at most 255 characters, and leaves the table alone.  (The name must not end in the
    byte 194 or 195, see [atom_put_reads_past_name].) *)
Theorem atom_put_refuses malloc st t names l rest uninit :
  atoms_rep st t names → Forall byte l → hash_safe l →
  (∀ cps, Forall scalar cps → zlen cps <= 255 → l ≠ utf8 cps) →
  erts_atom_put malloc st t (l ++ rest) (zlen l) ERTS_ATOM_ENC_UTF8 false uninit = Ok A_non_value.
Proof.
  intros Hr Hb Hs Hv. apply erts_atom_put_bad_utf8 with names; auto.
  intros (cps & E & Hsc & Hl). by apply (Hv cps).
Qed.

Lemma atom_put_refuses_witness :
  ∃ t, erts_index_init 8 100 = Some t ∧
    erts_atom_put next_free ∅ t [237; 160; 128; 1] 3 ERTS_ATOM_ENC_UTF8 false 0 = Ok A_non_value.
Proof.
  eexists. split; [reflexivity|].
  apply (atom_put_refuses next_free ∅ _ [] [237; 160; 128] [1] 0).
  - split; [|constructor]. exists ∅. by apply (index_rep_init 8 100).
  - repeat constructor; unfold byte; lia.
  - by intros v [= <-].
  - intros [|c cps] Hs _; [done|]. apply Forall_cons in Hs as [[Hc Hsur] _]. rewrite utf8_cons.
    unfold utf8_encode.
    destruct (Z.ltb_spec c 128), (Z.ltb_spec c 2048), (Z.ltb_spec c 65536); try lia;
      cbn [app]; intros E; injection E; intros; lia || dlia.
Defined.

(** The name of one byte 194: hashing it reads the byte after it. *)
Lemma atom_put_reads_past_name malloc st t trunc uninit :
  erts_atom_put malloc st t [194] 1 ERTS_ATOM_ENC_UTF8 trunc uninit = Fault.
Proof. by destruct trunc. Qed.

(** A truncated name stores whatever the count of latin-1 characters held before. *)
Lemma atom_put_truncated_count malloc :
  (∀ st, st !! malloc st = None) →
  ∃ t, erts_index_init 8 100 = Some t ∧ ∀ uninit, - 2 ^ 15 <= uninit < 2 ^ 15 →
    ∃ st' t' a, erts_atom_put malloc ∅ t (replicate 256 97) 256 ERTS_ATOM_ENC_UTF8 true uninit =
        Ok (A_atom st' t' 0) ∧ atom_tab st' t' 0 = Ok a ∧
      atom_text a = replicate 255 97 ∧ a_latin1_chars a = uninit.
Proof.
  intros Hf. eexists. split; [reflexivity|]. intros uninit Hu.
  set (t := mk_index _ _ _ _ _). pose proof (index_rep_init (K := Z * bytes) 8 100 t eq_refl ltac:(done)) as Hr.
  assert (atoms_rep ∅ t []) as Har by (split; [by exists ∅|constructor]).
  assert (Forall byte (replicate 256 97)) as Hby by (apply Forall_replicate; unfold byte; lia).
  destruct (atoms_get ∅ t [] (replicate 256 97) [] Har) as (r & Hg & _ & Hno);
    [done|by intros v [= <-]|].
  rewrite app_nil_r in Hg. change (zlen (replicate 256 97)) with 256 in Hg.
  assert (erts_analyze_utf8_x (replicate 256 97) 0 256 None MAX_ATOM_CHARACTERS =
    Ok (mk_utf8 ERTS_UTF8_OK_MAX_CHARS 255 255 None None)) as Ea by (vm_compute; reflexivity).
  pose proof (atoms_put malloc ∅ t [] (replicate 255 97) [97] uninit Har) as Hput.
  unfold atom_added in Hput. change (zlen [] =? index_capacity (t_limit t)) with false in Hput. cbv iota in Hput.
  destruct Hput as (st' & t' & Ep & _ & _ & Ht); [|by intros ?%elem_of_nil|apply Hf|done|].
  { exists (replicate 255 97). split_and!; [by vm_compute| |by vm_compute].
    apply Forall_replicate. unfold scalar. lia. }
  exists st', t', (mk_atom 0 255 uninit (atom_ord0 (replicate 255 97)) (replicate 255 97)).
  split_and!; [|exact Ht|by vm_compute|done].
  unfold erts_atom_put, atom_put_text. cbn [Z.ltb Z.compare andb negb Z.gtb MAX_ATOM_SZ_LIMIT].
  rewrite Hg, bind_Ok, (Hno (not_elem_of_nil _)). cbn [Z.geb Z.compare].
  rewrite Ea, bind_Ok. exact Ep.
Qed.

(** * UTF-8 *)

(** C30: [erts_analyze_utf8_x] on [size] bytes finds the longest prefix of the text that
    is the UTF-8 encoding of Unicode scalar values (no surrogates, no overlong forms, at
    most 0x10FFFF), bounded by [max_chars] characters when that is not 0.  It returns OK
    exactly when the whole text is, with the number of its characters and, when all are
    below 256, of its latin-1 characters, otherwise -1; it always ends and reads nothing
    after the text. *)
Theorem utf8_analysis_correct l ext max_chars :
  Forall byte l → 0 <= max_chars →
  ∃ r cps rest, erts_analyze_utf8_x (l ++ ext) 0 (zlen l) None max_chars = Ok r ∧
    l = utf8 cps ++ rest ∧ Forall scalar cps ∧
    ur_err_pos r = zlen (utf8 cps) ∧ ur_num_chars r = zlen cps ∧
    ((ur_code r = ERTS_UTF8_OK ∧ rest = [] ∧ (max_chars = 0 ∨ zlen cps <= max_chars) ∧
        ur_latin1 r = Some (if all_latin1 cps then zlen cps else -1)) ∨
     ((ur_code r = ERTS_UTF8_ERROR ∨ ur_code r = ERTS_UTF8_INCOMPLETE) ∧ rest ≠ [] ∧
        ∀ cp rest', scalar cp → rest ≠ utf8_encode cp ++ rest') ∨
     (ur_code r = ERTS_UTF8_OK_MAX_CHARS ∧ rest ≠ [] ∧ max_chars ≠ 0 ∧ zlen cps = max_chars)).
Proof.
  intros Hl Hm. destruct (analyze_utf8_spec l ext true max_chars Hl Hm) as (r & E & Han).
  destruct Han as (cps & rest & El & Hs & He & Hn & _ & Hcase).
  exists r, cps, rest. rewrite Z.add_0_l in *. by split_and!.
Qed.

Lemma utf8_analysis_correct_witness :
  ∃ r, erts_analyze_utf8_x ([226; 130; 172; 65; 192; 128] ++ [1]) 0 6 None 0 = Ok r ∧
    ur_err_pos r = 4 ∧ ur_code r = ERTS_UTF8_ERROR.
Proof.
  destruct (utf8_analysis_correct [226; 130; 172; 65; 192; 128] [1] 0) as (r & cps & rest & E & _).
  - repeat constructor; unfold byte; lia.
  - lia.
  - exists r. split; [exact E|]. revert E. vm_compute. by intros [= <-].
Defined.

(** * The order of atoms *)

(** C36: [erts_cmp_atoms] orders atoms by their texts, byte by byte: negative, zero or
    positive as the first text is lexicographically smaller than, equal to or larger
    than the second.  The shortcut through [ord0], which packs the first 31 bits of a
    text into an [int], neither overflows nor changes the order, for texts of any
    length and with NUL characters. *)
Theorem cmp_atoms_lexicographic a b :
  atom_ok a → atom_ok b → Forall byte (a_name a) → Forall byte (a_name b) →
  a_ord0 a = atom_ord0 (atom_text a) → a_ord0 b = atom_ord0 (atom_text b) →
  (erts_cmp_atoms a b ?= 0) = lex (atom_text a) (atom_text b).
Proof. apply erts_cmp_atoms_lex. Qed.

Lemma cmp_atoms_lexicographic_witness :
  let a := atom_alloc (template 3 [97; 98; 0] 3) in
  let b := atom_alloc (template 5 [97; 98; 0; 0; 1] 5) in
  (erts_cmp_atoms a b ?= 0) = Lt.
Proof.
  apply (cmp_atoms_lexicographic (atom_alloc (template 3 [97; 98; 0] 3))
    (atom_alloc (template 5 [97; 98; 0; 0; 1] 5))).
  - split; [done|]. by intros v [= <-].
  - split; [done|]. by intros v [= <-].
  - repeat constructor; unfold byte; lia.
  - repeat constructor; unfold byte; lia.
  - reflexivity.
  - reflexivity.
Defined.
