(* ===== verification/TermCmp.v ===== *)
(** The order of terms (utils.c): [erts_cmp] with its work stack.

    The terms modelled are integers, atoms, references, ports and pids of the own node,
    tuples, lists and binaries of whole bytes.  An atom is an index, and [atom_tab] gives its
    entry in the atom table.  Floats, maps, funs and terms of other nodes are left out; the
    argument [exact], which distinguishes 1 from 1.0, makes no difference then.

    [is_same] compares pointers: it is a parameter, of which the code relies on what the class
    [Pointers] says. *)
From S2P Require Import Prelude Scan BigDigits BigShift BigSqr BigBits Big Utf8 Hash Index AtomTab.
Set Warnings "-register-all".

Inductive Term :=
| T_small (i : Z)
| T_big (sign : bool) (v : list Z)
| T_atom (i : Z)
| T_ref (numbers : list Z)
| T_port (data : Z)
| T_pid (data : Z)
| T_tuple (l : list Term)
| T_nil
| T_list (hd tl : Term)
| T_binary (b : bytes).

#[export] Instance Term_eq_dec : EqDecision Term.
Proof.
  refine (fix go (a b : Term) {struct a} : Decision (a = b) :=
    match a, b with
    | T_small i, T_small j => cast_if (decide (i = j))
    | T_big s v, T_big s' v' => cast_if_and (decide (s = s')) (decide (v = v'))
    | T_atom i, T_atom j => cast_if (decide (i = j))
    | T_ref n, T_ref n' => cast_if (decide (n = n'))
    | T_port d, T_port d' => cast_if (decide (d = d'))
    | T_pid d, T_pid d' => cast_if (decide (d = d'))
    | T_tuple l, T_tuple l' => cast_if (@list_eq_dec _ go l l')
    | T_nil, T_nil => left _
    | T_list h t, T_list h' t' => cast_if_and (go h h') (go t t')
    | T_binary x, T_binary y => cast_if (decide (x = y))
    | _, _ => right _
    end); clear go; abstract intuition congruence.
Defined.

(** The tags of erl_term.h, which have the reverse order of the terms. *)
Definition BINARY_DEF : Z := 0.
Definition LIST_DEF : Z := 1.
Definition NIL_DEF : Z := 2.
Definition TUPLE_DEF : Z := 4.
Definition PID_DEF : Z := 5.
Definition PORT_DEF : Z := 7.
Definition REF_DEF : Z := 11.
Definition ATOM_DEF : Z := 13.
Definition BIG_DEF : Z := 15.
Definition SMALL_DEF : Z := 16.

Definition tag_val_def (t : Term) : Z :=
  match t with
  | T_small _ => SMALL_DEF
  | T_big _ _ => BIG_DEF
  | T_atom _ => ATOM_DEF
  | T_ref _ => REF_DEF
  | T_port _ => PORT_DEF
  | T_pid _ => PID_DEF
  | T_tuple _ => TUPLE_DEF
  | T_nil => NIL_DEF
  | T_list _ _ => LIST_DEF
  | T_binary _ => BINARY_DEF
  end.

Definition is_atom (t : Term) : bool := if t is T_atom _ then true else false.
Definition is_list (t : Term) : bool := if t is T_list _ _ then true else false.

(** Terms that are a word, and not a pointer to the heap. *)
Definition is_immed (t : Term) : bool :=
  match t with T_small _ | T_atom _ | T_port _ | T_pid _ | T_nil => true | _ => false end.

(** [atom_tab(atom_val(t))], and the number of atoms in the table. *)
Class AtomNames := { atom_entry : Z → Atom; n_atoms : Z }.

Class Pointers := is_same : Term → Term → bool.
Class PointersLaws `{Pointers} : Prop := {
  same_eq a b : is_same a b = true → a = b;
  same_immed a : is_immed a = true → is_same a a = true }.

(** A place where the comparison goes on: with two terms ([tailrecur], or [tailrecur_ne] if
    they are known not to be the same), at [pop_next], or nowhere. *)
Inductive goto_label :=
| tailrecur (a b : Term)
| tailrecur_ne (a b : Term)
| pop_next
| not_equal (j : Z).

(** What the stack holds: the tails of two lists, or the rests of two arrays. *)
Inductive work :=
| TERMS (a b : Term)
| TERM_ARRAY (aa bb : list Term).

Section Cmp.
Context `{AtomNames} `{Pointers}.
Implicit Types (a b : Term) (aa bb : list Term) (stack : list work).

(** [ON_CMP_GOTO] *)
Definition on_cmp (j : Z) : goto_label := if j =? 0 then pop_next else not_equal j.

Definition cmp_atoms_of (i j : Z) : Z := erts_cmp_atoms (atom_entry i) (atom_entry j).

(** The words from the last one down, once the lengths are the same. *)
Fixpoint cmp_ref_words (anum bnum : list Z) : goto_label :=
  match anum, bnum with
  | x :: anum, y :: bnum => if x =? y then cmp_ref_words anum bnum else not_equal (swrap 32 (x - y))
  | _, _ => pop_next
  end.

Definition nonzero_from (n : nat) (num : list Z) : bool := existsb (λ x, negb (x =? 0)) (drop n num).

(** [ref_common], for two references of this node. *)
Definition cmp_refs (anum bnum : list Z) : goto_label :=
  let alen := length anum in
  let blen := length bnum in
  if nonzero_from blen anum then not_equal 1
  else if nonzero_from alen bnum then not_equal (-1)
  else
    let len := Nat.min alen blen in
    cmp_ref_words (rev (take len anum)) (rev (take len bnum)).

Definition cmp_binaries (a b : bytes) : goto_label :=
  let min_size := Nat.min (length a) (length b) in
  let c := memcmp (take min_size a) (take min_size b) in
  if negb (c =? 0) then not_equal c else on_cmp (zlen a - zlen b).

(** The loop for two lists: from the first elements that are not the same. *)
Fixpoint cmp_lists (a b : Term) stack : goto_label * list work :=
  match a, b with
  | T_list ahd atl, T_list bhd btl =>
      if negb (is_same ahd bhd) then (tailrecur_ne ahd bhd, TERMS atl btl :: stack)
      else if is_same atl btl then (pop_next, stack)
      else if negb (is_list atl) || negb (is_list btl) then (tailrecur_ne atl btl, stack)
      else cmp_lists atl btl stack
  | _, _ => (tailrecur_ne a b, stack)
  end.

(** [term_array] *)
Fixpoint term_array aa bb stack : res (goto_label * list work) :=
  match aa, bb with
  | [a], [b] => Ok (tailrecur a b, stack)
  | a :: aa, b :: bb =>
      if is_same a b then term_array aa bb stack
      else
        match a, b with
        | T_atom i, T_atom j =>
            let j := cmp_atoms_of i j in
            if negb (j =? 0) then Ok (not_equal j, stack) else term_array aa bb stack
        | T_small i, T_small j =>
            let j := i - j in
            if negb (j =? 0) then Ok (not_equal j, stack) else term_array aa bb stack
        | _, _ => Ok (tailrecur_ne a b, TERM_ARRAY aa bb :: stack)
        end
  | _, _ => Fault
  end.

(** [mixed_types] *)
Definition mixed_types a b : goto_label :=
  let j := match a, b with
           | T_small _, T_big s _ => if s then 1 else -1
           | T_big s _, T_small _ => if s then -1 else 1
           | _, _ => tag_val_def b - tag_val_def a
           end in
  on_cmp j.

(** From [tailrecur_ne] on. *)
Definition cmp_ne a b stack : res (goto_label * list work) :=
  match a, b with
  | T_atom i, T_atom j => Ok (on_cmp (cmp_atoms_of i j), stack)
  | T_small i, T_small j => Ok (on_cmp (i - j), stack)
  | T_port adata, T_port bdata => Ok (on_cmp (swrap 64 (wrap 64 (adata - bdata))), stack)
  | T_pid adata, T_pid bdata =>
      Ok (if negb (adata =? bdata) then not_equal (if adata <? bdata then -1 else 1) else pop_next, stack)
  | T_list _ _, T_list _ _ => Ok (cmp_lists a b stack)
  | T_tuple aa, T_tuple bb =>
      let i := zlen aa in
      if negb (i =? zlen bb) then Ok (not_equal (to_int (i - zlen bb)), stack)
      else if i =? 0 then Ok (pop_next, stack)
      else term_array aa bb stack
  | T_big s v, T_big s' v' => j ← big_comp (Big s v) (Big s' v'); Ok (on_cmp j, stack)
  | T_ref anum, T_ref bnum => Ok (cmp_refs anum bnum, stack)
  | T_binary x, T_binary y => Ok (cmp_binaries x y, stack)
  | _, _ => Ok (mixed_types a b, stack)
  end.

Fixpoint cmp_run (fuel : nat) (l : goto_label) stack : res Z :=
  match fuel with
  | O => NoFuel
  | S fuel =>
      match l with
      | tailrecur a b => if is_same a b then cmp_run fuel pop_next stack else cmp_run fuel (tailrecur_ne a b) stack
      | tailrecur_ne a b => '(l, stack) ← cmp_ne a b stack; cmp_run fuel l stack
      | pop_next =>
          match stack with
          | [] => Ok 0
          | TERM_ARRAY aa bb :: stack => '(l, stack) ← term_array aa bb stack; cmp_run fuel l stack
          | TERMS a b :: stack => cmp_run fuel (tailrecur a b) stack
          end
      | not_equal j => Ok j
      end
  end.

(** Each term is looked at once, in three steps. *)
Fixpoint term_size (t : Term) : nat :=
  match t with
  | T_tuple l => S (sum_list_with term_size l)
  | T_list h t => S (term_size h + term_size t)
  | _ => 1
  end.

Definition erts_cmp_compound a b : res Z := cmp_run (S (3 * term_size a)) (tailrecur a b) [].

Definition erts_cmp a b : res Z :=
  match a, b with
  | T_atom i, T_atom j => Ok (cmp_atoms_of i j)
  | T_small i, T_small j => Ok (i - j)
  | _, _ => erts_cmp_compound a b
  end.

End Cmp.
