(* ===== verification/TermOrd.v ===== *)
(** The order of terms as Erlang defines it, against [erts_cmp] (TermCmp.v).

    [term_compare] is the order by recursion on the terms.  Every term also has a sequence of
    numbers ([sort_key]) such that the order of terms is the lexicographic order of the
    sequences, whatever follows them: what the work stack of [erts_cmp] still holds is then
    simply the rest of the sequence. *)
From S2P Require Import Prelude Scan BigDigits BigShift BigSqr BigBits Big BigSpec Utf8 Hash Index AtomTab AtomCmp TermCmp.

(** * Sequences *)

Definition then_compare (c d : comparison) : comparison := match c with Eq => d | c => c end.

Lemma lex_same s x y : lex (s ++ x) (s ++ y) = lex x y.
Proof. induction s as [|c s IH]; [done|]. cbn. by rewrite Z.compare_refl. Qed.

Lemma lex_cons c d x y : lex (c :: x) (d :: y) = then_compare (c ?= d) (lex x y).
Proof. cbn. by destruct (c ?= d). Qed.

Lemma lex_refl s : lex s s = Eq.
Proof. induction s as [|c s IH]; [done|]. cbn. by rewrite Z.compare_refl. Qed.

Lemma lex_eq s s' : lex s s' = Eq → s = s'.
Proof.
  revert s'. induction s as [|c s IH]; intros [|d s']; cbn; try done. destruct (Z.compare_spec c d); try done. intros E. f_equal; auto.
Qed.

Lemma lex_sym s s' : lex s' s = CompOpp (lex s s').
Proof.
  revert s'. induction s as [|c s IH]; intros [|d s']; cbn; try done. rewrite (Z.compare_antisym c d), IH. by destruct (c ?= d).
Qed.

Lemma lex_trans x y z : lex x y = Lt → lex y z = Lt → lex x z = Lt.
Proof.
  revert y z. induction x as [|a x IH]; intros [|b y] [|c z]; cbn; try done.
  destruct (Z.compare_spec a b), (Z.compare_spec b c), (Z.compare_spec a c); intros; subst; try done; try lia. by eapply IH.
Qed.

(** Texts with an end that is lower than all bytes. *)
Lemma lex_terminated x y s s' :
  Forall byte x → Forall byte y → lex (x ++ -1 :: s) (y ++ -1 :: s') = then_compare (lex x y) (lex s s').
Proof.
  intros Hx. revert y. induction Hx as [|a x Ha Hx IH]; intros [|b y] Hy; cbn [app]; rewrite ?lex_cons.
  - done.
  - apply Forall_cons in Hy as [[? ?] _]. destruct (Z.compare_spec (-1) b); (done || lia).
  - destruct Ha. destruct (Z.compare_spec a (-1)); (done || lia).
  - apply Forall_cons in Hy as [_ Hy]. destruct (a ?= b); [by apply IH|done..].
Qed.

(** Sequences of the same length. *)
Lemma lex_length x y s s' : length x = length y → lex (x ++ s) (y ++ s') = then_compare (lex x y) (lex s s').
Proof.
  revert y. induction x as [|a x IH]; intros [|b y] Hl; cbn; try done. destruct (a ?= b); [|done..]. apply IH. by injection Hl.
Qed.

Section Lexicographic.
Context {A : Type} (f : A → A → comparison).
Fixpoint lexicographic (la lb : list A) : comparison :=
  match la, lb with
  | [], [] => Eq
  | [], _ => Lt
  | _, [] => Gt
  | a :: la, b :: lb => then_compare (f a b) (lexicographic la lb)
  end.
End Lexicographic.

Lemma Term_induction (P : Term → Prop) :
  (∀ t, (∀ l, t ≠ T_tuple l) → is_list t = false → P t) → (∀ l, Forall P l → P (T_tuple l)) → (∀ h t, P h → P t → P (T_list h t)) → ∀ t, P t.
Proof.
  intros Hleaf Htuple Hlist. fix IH 1. intros [| | | | | |l| |h t|]; try (by apply Hleaf).
  - apply Htuple. induction l as [|t l IHl]; constructor; [apply IH|done].
  - apply Hlist; apply IH.
Qed.

(** * Terms *)

Class AtomNamesLaws `{AtomNames} : Prop := {
  an_ok i : 0 <= i < n_atoms → atom_ok (atom_entry i) ∧ Forall byte (a_name (atom_entry i)) ∧ a_ord0 (atom_entry i) = atom_ord0 (atom_text (atom_entry i));
  an_inj i j : 0 <= i < n_atoms → 0 <= j < n_atoms → atom_text (atom_entry i) = atom_text (atom_entry j) → i = j }.

#[export] Instance byte_dec x : Decision (byte x).
Proof. unfold byte. apply _. Defined.
#[export] Instance normal_dec v : Decision (normal v).
Proof. unfold normal. apply _. Defined.
#[export] Instance snum_dec s v : Decision (snum s v).
Proof. unfold snum. apply _. Defined.

Section Order.
Context `{AtomNames}.
Implicit Types (a b t : Term) (l : list Term) (s : list Z) (stack : list work).

Definition text_of (i : Z) : bytes := atom_text (atom_entry i).

(** A term that the runtime system can make: a small integer fits, a large one is no small
    one, an atom is in the table, a reference has three numbers.  Those of references are less
    than 2^31 here, since [erts_cmp] takes their difference as a signed number. *)
Definition leaf_ok t : Prop :=
  match t with
  | T_small i => MIN_SMALL <= i <= MAX_SMALL
  | T_big s v => snum s v ∧ ¬ (MIN_SMALL <= sval s v <= MAX_SMALL)
  | T_atom i => 0 <= i < n_atoms
  | T_ref n => length n = 3%nat ∧ Forall (λ x, 0 <= x < 2 ^ 31) n
  | T_port d => 0 <= d < 2 ^ 28
  | T_pid d => 0 <= d < 2 ^ 28
  | T_tuple l => zlen l < 2 ^ 31
  | T_binary b => Forall byte b
  | _ => True
  end.

#[export] Instance leaf_ok_dec t : Decision (leaf_ok t).
Proof. destruct t; cbn; apply _. Defined.

Fixpoint term_ok t : bool :=
  bool_decide (leaf_ok t) &&
  match t with
  | T_tuple l => forallb term_ok l
  | T_list h t => term_ok h && term_ok t
  | _ => true
  end.

(** ** The order *)

(** numbers < atoms < references < ports < pids < tuples < [] < lists < binaries *)
Definition kind_of t : Z :=
  match t with
  | T_small _ | T_big _ _ => 0
  | T_atom _ => 1
  | T_ref _ => 2
  | T_port _ => 3
  | T_pid _ => 4
  | T_tuple _ => 5
  | T_nil => 6
  | T_list _ _ => 7
  | T_binary _ => 8
  end.

Definition int_value t : Z := match t with T_small i => i | T_big s v => sval s v | _ => 0 end.

Definition compare_leaves a b : comparison :=
  match a, b with
  | T_atom i, T_atom j => lex (text_of i) (text_of j)
  | T_ref m, T_ref n => lex (rev m) (rev n)
  | T_port d, T_port e | T_pid d, T_pid e => d ?= e
  | T_binary x, T_binary y => lex x y
  | _, _ => then_compare (kind_of a ?= kind_of b) (int_value a ?= int_value b)
  end.

(** Tuples by their sizes and then by their elements, lists by their elements. *)
Fixpoint term_compare a b : comparison :=
  match a, b with
  | T_tuple la, T_tuple lb => then_compare (zlen la ?= zlen lb) (lexicographic term_compare la lb)
  | T_list h t, T_list h' t' => then_compare (term_compare h h') (term_compare t t')
  | _, _ => compare_leaves a b
  end.

(** ** Sequences *)

Definition leaf_key t : list Z :=
  match t with
  | T_small i => [i]
  | T_big s v => [sval s v]
  | T_atom i => text_of i ++ [-1]
  | T_ref n => rev n
  | T_port d | T_pid d => [d]
  | T_tuple l => [zlen l]
  | T_binary b => b ++ [-1]
  | T_nil | T_list _ _ => []
  end.

Fixpoint sort_key t : list Z :=
  kind_of t :: leaf_key t ++
  match t with
  | T_tuple l => concat (map sort_key l)
  | T_list h t => sort_key h ++ sort_key t
  | _ => []
  end.

Context `{!AtomNamesLaws}.

Lemma term_ok_leaf t : term_ok t = true → leaf_ok t.
Proof. destruct t; cbn [term_ok]; intros [? _]%andb_true_iff; by eapply bool_decide_eq_true. Qed.

Lemma term_ok_tuple l : term_ok (T_tuple l) = true → Forall (λ t, term_ok t = true) l.
Proof. cbn. intros [_ Hl]%andb_true_iff. induction l as [|t l IH]; constructor; cbn in Hl; apply andb_true_iff in Hl as [? ?]; auto. Qed.

Lemma term_ok_list h t : term_ok (T_list h t) = true → term_ok h = true ∧ term_ok t = true.
Proof. cbn. by intros [? ?]%andb_true_iff. Qed.

Lemma text_bytes i : 0 <= i < n_atoms → Forall byte (text_of i).
Proof. intros Hi. destruct (an_ok i Hi) as (_ & Hb & _). by apply Forall_take. Qed.

Lemma compare_leaves_key a b s s' :
  leaf_ok a → leaf_ok b → (∀ l l', a = T_tuple l → b = T_tuple l' → False) → (is_list a = false ∨ is_list b = false) →
  lex (kind_of a :: leaf_key a ++ s) (kind_of b :: leaf_key b ++ s') = then_compare (compare_leaves a b) (lex s s').
Proof.
  intros Ha Hb Ht Hl. rewrite lex_cons.
  destruct a, b; cbn [kind_of leaf_key compare_leaves Z.compare then_compare] in *; try done; try (by destruct Hl); try (by exfalso; eapply Ht);
    rewrite ?Z.compare_refl; cbn [then_compare app int_value]; rewrite ?lex_cons; try done.
  - rewrite <- !app_assoc. cbn [app]. apply lex_terminated; by apply text_bytes.
  - apply lex_length. rewrite !length_rev. destruct Ha as [-> _], Hb as [-> _]. done.
  - rewrite <- !app_assoc. cbn [app]. by apply lex_terminated.
Qed.

Lemma then_compare_assoc c d e : then_compare (then_compare c d) e = then_compare c (then_compare d e).
Proof. by destruct c. Qed.

(** The order of terms is that of their sequences, whatever follows. *)
Lemma term_compare_key a b s s' :
  term_ok a = true → term_ok b = true → lex (sort_key a ++ s) (sort_key b ++ s') = then_compare (term_compare a b) (lex s s').
Proof.
  revert b s s'. induction a as [a Hnt Hnl|l IH|h t IHh IHt] using Term_induction; intros b s s' Ha Hb.
  - pose proof (compare_leaves_key a b) as Hk.
    assert (term_compare a b = compare_leaves a b) as ->.
    { destruct a; try done. by edestruct Hnt. }
    assert (∀ x, sort_key a ++ x = kind_of a :: leaf_key a ++ x) as ->.
    { intros x. destruct a; try done; try (by edestruct Hnt); cbn [sort_key]; by rewrite ?app_nil_r. }
    destruct b; try (by destruct a; (done || by edestruct Hnt)).
    all: cbn [sort_key]; rewrite ?app_nil_r; cbn [app]; apply Hk; try (by apply term_ok_leaf); auto; intros ? ? -> _; by edestruct Hnt.
  - destruct b as [| | | | | |l'| |h t|]; try done.
    all: try (cbn; done).
    pose proof (term_ok_tuple _ Ha) as Hla. pose proof (term_ok_tuple _ Hb) as Hlb. clear Ha Hb.
    cbn [sort_key term_compare kind_of leaf_key app]. rewrite !lex_cons, Z.compare_refl. cbn [then_compare]. rewrite then_compare_assoc.
    destruct (Z.compare_spec (zlen l) (zlen l')) as [E| |]; [|done..]. cbn [then_compare].
    revert l' s s' E Hlb. induction IH as [|x l Hx IH IHl]; intros [|y l'] s s' E Hlb; rewrite ?zlen_cons, ?zlen_nil in E.
    + done.
    + pose proof (zlen_nonneg l'). lia.
    + pose proof (zlen_nonneg l). lia.
    + apply Forall_cons in Hla as [Hxa Hla], Hlb as [Hyb Hlb]. cbn [map concat lexicographic]. rewrite <- !app_assoc, (Hx y) by done.
      rewrite then_compare_assoc. f_equal. apply IHl; [done|lia|done].
  - destruct b as [| | | | | |l'| |h' t'|]; try (by cbn).
    apply term_ok_list in Ha as [? ?], Hb as [? ?]. cbn [sort_key term_compare kind_of leaf_key app]. rewrite lex_cons, Z.compare_refl. cbn [then_compare].
    by rewrite <- !app_assoc, IHh, IHt, then_compare_assoc by done.
Qed.

Lemma then_compare_Eq c d : then_compare c d = Eq ↔ c = Eq ∧ d = Eq.
Proof. destruct c; cbn; naive_solver. Qed.

Lemma term_compare_lex a b : term_ok a = true → term_ok b = true → term_compare a b = lex (sort_key a) (sort_key b).
Proof.
  intros Ha Hb. pose proof (term_compare_key a b [] [] Ha Hb) as E. rewrite !app_nil_r in E. rewrite E. by destruct (term_compare a b).
Qed.

(** ** A total order *)

Lemma compare_leaves_eq a b :
  leaf_ok a → leaf_ok b → (∀ l, a ≠ T_tuple l) → is_list a = false → compare_leaves a b = Eq → a = b.
Proof.
  intros Ha Hb Ht Hl. assert (∀ x y : Z, (x ?= y) = Eq → x = y) as Hz by (intros x y; apply Z.compare_eq).
  destruct a, b; cbn in *; try done; try (by edestruct Ht); intros E.
  - f_equal. by apply Hz.
  - apply Hz in E. destruct Hb as [_ []]. by subst.
  - apply Hz in E. destruct Ha as [_ []]. by subst.
  - apply Hz in E. destruct (sval_inj sign v sign0 v0) as [-> ->]; naive_solver.
  - f_equal. apply an_inj; [done..|]. by apply lex_eq.
  - f_equal. apply lex_eq in E. by apply rev_inj in E.
  - f_equal. by apply Hz.
  - f_equal. by apply Hz.
  - f_equal. by apply lex_eq.
Qed.

Lemma term_compare_eq a b : term_ok a = true → term_ok b = true → term_compare a b = Eq → a = b.
Proof.
  revert b. induction a as [a Hnt Hnl|l IH|h t IHh IHt] using Term_induction; intros b Ha Hb.
  - replace (term_compare a b) with (compare_leaves a b) by (destruct a; try done; by edestruct Hnt).
    apply compare_leaves_eq; auto using term_ok_leaf.
  - destruct b as [| | | | | |l'| |h t|]; try done. pose proof (term_ok_tuple _ Ha) as Hla. pose proof (term_ok_tuple _ Hb) as Hlb. clear Ha Hb.
    cbn [term_compare]. intros [_ E]%then_compare_Eq. f_equal.
    revert l' E Hlb. induction IH as [|x l Hx IH IHl]; intros [|y l'] E Hlb; cbn [lexicographic] in E; try done.
    apply then_compare_Eq in E as [E1 E2]. apply Forall_cons in Hla as [? ?], Hlb as [? ?]. f_equal; auto.
  - destruct b as [| | | | | |l'| |h' t'|]; try done. apply term_ok_list in Ha as [? ?], Hb as [? ?].
    cbn [term_compare]. intros [E1 E2]%then_compare_Eq. f_equal; auto.
Qed.

Lemma term_compare_refl a : term_ok a = true → term_compare a a = Eq.
Proof. intros Ha. by rewrite term_compare_lex, lex_refl. Qed.

Lemma term_compare_sym a b : term_ok a = true → term_ok b = true → term_compare b a = CompOpp (term_compare a b).
Proof. intros Ha Hb. rewrite !term_compare_lex by done. apply lex_sym. Qed.

Lemma term_compare_trans a b c :
  term_ok a = true → term_ok b = true → term_ok c = true → term_compare a b = Lt → term_compare b c = Lt → term_compare a c = Lt.
Proof. intros Ha Hb Hc. rewrite !term_compare_lex by done. apply lex_trans. Qed.

End Order.

(** * [erts_cmp] *)

Section Machine.
Context `{AtomNames} `{!AtomNamesLaws} `{Pointers} `{!PointersLaws}.
Implicit Types (a b t : Term) (aa bb : list Term) (stack : list work) (l : goto_label).

Definition work_ok (w : work) : Prop :=
  match w with
  | TERMS a b => term_ok a = true ∧ term_ok b = true
  | TERM_ARRAY aa bb => aa ≠ [] ∧ length aa = length bb ∧ Forall (λ t, term_ok t = true) aa ∧ Forall (λ t, term_ok t = true) bb
  end.

Definition label_ok l : Prop :=
  match l with tailrecur a b | tailrecur_ne a b => term_ok a = true ∧ term_ok b = true | _ => True end.

Definition keys_of aa : list Z := concat (map sort_key aa).
Definition left_keys (w : work) : list Z := match w with TERMS a _ => sort_key a | TERM_ARRAY aa _ => keys_of aa end.
Definition right_keys (w : work) : list Z := match w with TERMS _ b => sort_key b | TERM_ARRAY _ bb => keys_of bb end.
Definition lefts stack : list Z := concat (map left_keys stack).
Definition rights stack : list Z := concat (map right_keys stack).

(** What is to be compared at a label with this stack. *)
Definition outcome_of l stack : comparison :=
  match l with
  | tailrecur a b | tailrecur_ne a b => lex (sort_key a ++ lefts stack) (sort_key b ++ rights stack)
  | pop_next => lex (lefts stack) (rights stack)
  | not_equal j => j ?= 0
  end.

(** The steps that are left. *)
Definition sizes aa : nat := sum_list_with term_size aa.
Definition work_cost (w : work) : nat := match w with TERMS a _ => S (3 * term_size a) | TERM_ARRAY aa _ => S (3 * sizes aa) end.
Definition cost l stack : nat :=
  (match l with tailrecur a _ => 3 * term_size a | tailrecur_ne a _ => 3 * term_size a - 1 | pop_next => 1 | not_equal _ => 0 end) +
  sum_list_with work_cost stack.

Lemma term_size_pos t : (1 <= term_size t)%nat.
Proof. destruct t; cbn; lia. Qed.

(** A block leads to a label with the same comparison and fewer steps left, of [k]. *)
Definition leads (r : res (goto_label * list work)) (c : comparison) (k : nat) : Prop :=
  ∃ l stack, r = Ok (l, stack) ∧ label_ok l ∧ Forall work_ok stack ∧ outcome_of l stack = c ∧ (cost l stack < k)%nat.

Lemma leads_on_cmp j c stack k :
  (j ?= 0) = c → Forall work_ok stack → (1 + sum_list_with work_cost stack < k)%nat →
  leads (Ok (on_cmp j, stack)) (then_compare c (lex (lefts stack) (rights stack))) k.
Proof.
  intros <- Hs Hk. exists (on_cmp j), stack. unfold on_cmp. destruct (Z.eqb_spec j 0) as [->|Hj]; (split_and!; [done|done|done| |cbn; lia]); [done|].
  cbn. by destruct (Z.compare_spec j 0).
Qed.

Lemma leads_not_equal j c d stack k :
  (j ?= 0) = c → c ≠ Eq → Forall work_ok stack → (sum_list_with work_cost stack < k)%nat → leads (Ok (not_equal j, stack)) (then_compare c d) k.
Proof. intros <- Hc Hs Hk. exists (not_equal j), stack. split_and!; [done|done|done| |cbn; lia]. cbn. by destruct (j ?= 0). Qed.

Lemma cmp_atoms_of_lex i j :
  0 <= i < n_atoms → 0 <= j < n_atoms → (cmp_atoms_of i j ?= 0) = lex (text_of i) (text_of j).
Proof.
  intros Hi Hj. destruct (an_ok i Hi) as (? & ? & ?), (an_ok j Hj) as (? & ? & ?). by apply erts_cmp_atoms_lex.
Qed.

Lemma sub_compare x y : (x - y ?= 0) = (x ?= y).
Proof. destruct (Z.compare_spec (x - y) 0), (Z.compare_spec x y); (done || lia). Qed.

Lemma memcmp_lex x y : length x = length y → (memcmp x y ?= 0) = lex x y.
Proof.
  revert y. induction x as [|c x IH]; intros [|d y] Hl; cbn [memcmp lex]; try done.
  destruct (Z.eqb_spec c d) as [->|Hne]; [rewrite Z.compare_refl; apply IH; by injection Hl|]. rewrite sub_compare. by destruct (Z.compare_spec c d).
Qed.

Lemma lex_min x y : lex x y = then_compare (lex (take (length x `min` length y) x) (take (length x `min` length y) y)) (zlen x ?= zlen y).
Proof.
  revert y. induction x as [|c x IH]; intros [|d y]; cbn [length Nat.min take lex]; rewrite ?zlen_cons, ?zlen_nil; cbn [then_compare]; try done.
  - pose proof (zlen_nonneg y). symmetry. apply Z.compare_lt_iff. lia.
  - pose proof (zlen_nonneg x). symmetry. apply Z.compare_gt_iff. lia.
  - replace (1 + zlen x ?= 1 + zlen y) with (zlen x ?= zlen y) by (destruct (Z.compare_spec (zlen x) (zlen y)), (Z.compare_spec (1 + zlen x) (1 + zlen y)); (done || lia)).
    destruct (c ?= d); [apply IH|done..].
Qed.

Lemma cmp_ref_words_ok x y stack k :
  length x = length y → Forall (λ z, 0 <= z < 2 ^ 31) x → Forall (λ z, 0 <= z < 2 ^ 31) y → Forall work_ok stack → (1 + sum_list_with work_cost stack < k)%nat →
  leads (Ok (cmp_ref_words x y, stack)) (then_compare (lex x y) (lex (lefts stack) (rights stack))) k.
Proof.
  intros Hl Hx. revert y Hl. induction Hx as [|c x Hc Hx IH]; intros [|d y] Hl Hy Hs Hk; try done; cbn [cmp_ref_words].
  - exists pop_next, stack. split_and!; [done|done|done|done|cbn; lia].
  - apply Forall_cons in Hy as [Hd Hy]. rewrite lex_cons, then_compare_assoc.
    destruct (Z.eqb_spec c d) as [->|Hne]; [rewrite Z.compare_refl; apply IH; [by injection Hl|done..]|].
    apply leads_not_equal; [|by rewrite Z.compare_eq_iff|done|lia]. rewrite swrap_small by lia. apply sub_compare.
Qed.

Lemma cmp_refs_ok x y stack k :
  leaf_ok (T_ref x) → leaf_ok (T_ref y) → Forall work_ok stack → (1 + sum_list_with work_cost stack < k)%nat →
  leads (Ok (cmp_refs x y, stack)) (then_compare (lex (rev x) (rev y)) (lex (lefts stack) (rights stack))) k.
Proof.
  intros [Hlx Hx] [Hly Hy] Hs Hk. unfold cmp_refs, nonzero_from. rewrite Hlx, Hly, !drop_ge by lia. cbn [existsb Nat.min].
  rewrite !take_ge by lia. apply cmp_ref_words_ok; [by rewrite !length_rev, Hlx, Hly|by apply Forall_rev|by apply Forall_rev|done..].
Qed.

Lemma cmp_binaries_ok x y stack k :
  Forall work_ok stack → (1 + sum_list_with work_cost stack < k)%nat →
  leads (Ok (cmp_binaries x y, stack)) (then_compare (lex x y) (lex (lefts stack) (rights stack))) k.
Proof.
  intros Hs Hk. unfold cmp_binaries. rewrite lex_min, then_compare_assoc. set (m := (_ `min` _)%nat).
  pose proof (memcmp_lex (take m x) (take m y) ltac:(rewrite !length_take; lia)) as E. rewrite <- E.
  destruct (Z.eqb_spec (memcmp (take m x) (take m y)) 0) as [->|Hne]; cbn [negb].
  - apply leads_on_cmp; [apply sub_compare|done|done].
  - apply leads_not_equal; [done|by rewrite Z.compare_eq_iff|done|lia].
Qed.

Lemma is_same_key a b x y : is_same a b = true → lex (sort_key a ++ x) (sort_key b ++ y) = lex x y.
Proof. intros ->%same_eq. apply lex_same. Qed.

Lemma keys_cons a aa : keys_of (a :: aa) = sort_key a ++ keys_of aa.
Proof. done. Qed.

(** A label with other terms and the same comparison. *)
Lemma leads_to l stack c k :
  label_ok l → Forall work_ok stack → outcome_of l stack = c → (cost l stack < k)%nat → leads (Ok (l, stack)) c k.
Proof. intros. by exists l, stack. Qed.

Lemma leads_weaken r c k k' : leads r c k → (k <= k')%nat → leads r c k'.
Proof. intros (l & stack & ? & ? & ? & ? & ?) Hk. exists l, stack. split_and!; (done || lia). Qed.

Lemma term_array_ok aa bb stack :
  aa ≠ [] → length aa = length bb → Forall (λ t, term_ok t = true) aa → Forall (λ t, term_ok t = true) bb → Forall work_ok stack →
  leads (term_array aa bb stack) (lex (keys_of aa ++ lefts stack) (keys_of bb ++ rights stack)) (2 + 3 * sizes aa + sum_list_with work_cost stack).
Proof.
  intros Hne Hl Ha. revert bb Hne Hl. induction Ha as [|a aa Ha Hla IH]; intros [|b bb] Hne Hl Hb Hs; try done.
  apply Forall_cons in Hb as [Hb Hlb]. injection Hl as Hl. rewrite !keys_cons, <- !app_assoc. pose proof (term_size_pos a) as Hpos.
  destruct aa as [|a1 aa], bb as [|b1 bb]; try done.
  { apply leads_to; [done|done|done|]. cbn. lia. }
  specialize (IH (b1 :: bb) ltac:(done) Hl Hlb Hs).
  assert (leads (term_array (a1 :: aa) (b1 :: bb) stack) (lex (keys_of (a1 :: aa) ++ lefts stack) (keys_of (b1 :: bb) ++ rights stack))
    (2 + 3 * sizes (a :: a1 :: aa) + sum_list_with work_cost stack)) as Hrest by (eapply leads_weaken; [exact IH|cbn; lia]).
  assert (leads (Ok (tailrecur_ne a b, TERM_ARRAY (a1 :: aa) (b1 :: bb) :: stack))
    (lex (sort_key a ++ keys_of (a1 :: aa) ++ lefts stack) (sort_key b ++ keys_of (b1 :: bb) ++ rights stack)) (2 + 3 * sizes (a :: a1 :: aa) + sum_list_with work_cost stack)) as Hpush.
  { apply leads_to; [done| |done|cbn; lia]. constructor; [|done]. by split_and!. }
  remember (a1 :: aa) as aa' eqn:Eaa. remember (b1 :: bb) as bb' eqn:Ebb.
  assert (term_array (a :: aa') (b :: bb') stack = if is_same a b then term_array aa' bb' stack else
    match a, b with
    | T_atom i, T_atom j => if negb (cmp_atoms_of i j =? 0) then Ok (not_equal (cmp_atoms_of i j), stack) else term_array aa' bb' stack
    | T_small i, T_small j => if negb (i - j =? 0) then Ok (not_equal (i - j), stack) else term_array aa' bb' stack
    | _, _ => Ok (tailrecur_ne a b, TERM_ARRAY aa' bb' :: stack)
    end) as -> by (by subst aa' bb').
  destruct (is_same a b) eqn:Esame; [by rewrite (is_same_key _ _ _ _ Esame)|].
  rewrite term_compare_key in Hpush |- * by done. apply term_ok_leaf in Ha, Hb.
  destruct a as [i| |i| | | | | | |], b as [j| |j| | | | | | |]; try exact Hpush; cbn [term_compare compare_leaves kind_of int_value then_compare Z.compare] in *.
  - destruct (Z.eqb_spec (i - j) 0); cbn [negb].
    + replace j with i by lia. by rewrite Z.compare_refl.
    + apply leads_not_equal; [apply sub_compare|rewrite Z.compare_eq_iff; lia|done|cbn; lia].
  - rewrite <- (cmp_atoms_of_lex i j) by done. destruct (Z.eqb_spec (cmp_atoms_of i j) 0) as [->|]; cbn [negb]; [done|].
    apply leads_not_equal; [done|by rewrite Z.compare_eq_iff|done|cbn; lia].
Qed.

Lemma cmp_lists_ok a b stack :
  is_list a = true → is_list b = true → term_ok a = true → term_ok b = true → Forall work_ok stack →
  ∃ l stack', cmp_lists a b stack = (l, stack') ∧
    leads (Ok (l, stack')) (lex (sort_key a ++ lefts stack) (sort_key b ++ rights stack)) (3 * term_size a - 1 + sum_list_with work_cost stack).
Proof.
  revert b. induction a as [| | | | | | | |h _ t IH|bytes_a]; intros b Hla Hlb Ha Hb Hs; try done. destruct b as [| | | | | | | |h' t'|]; try done.
  apply term_ok_list in Ha as [Hh Ht], Hb as [Hh' Ht']. pose proof (term_size_pos h). pose proof (term_size_pos t).
  cbn [cmp_lists sort_key kind_of leaf_key app]. rewrite lex_cons, Z.compare_refl, <- !app_assoc. cbn [then_compare].
  destruct (is_same h h') eqn:Eh; cbn [negb].
  2: { eexists _, _. split; [done|]. apply leads_to; [done| |done|cbn; lia]. by constructor. }
  rewrite (is_same_key _ _ _ _ Eh). destruct (is_same t t') eqn:Et.
  { eexists _, _. split; [done|]. rewrite (is_same_key _ _ _ _ Et). apply leads_to; [done|done|done|cbn; lia]. }
  destruct (is_list t) eqn:El, (is_list t') eqn:El'; cbn [negb orb].
  2-4: eexists _, _; (split; [done|]); apply leads_to; [done|done|done|cbn; lia].
  destruct (IH t' eq_refl El' Ht Ht' Hs) as (l & stack' & -> & Hr). eexists _, _. split; [done|]. eapply leads_weaken; [exact Hr|cbn; lia].
Qed.

(** [mixed_types]: the kinds differ, or one integer is small and the other is not. *)
Lemma mixed_types_ok a b stack k :
  leaf_ok a → leaf_ok b → tag_val_def a ≠ tag_val_def b → Forall work_ok stack → (1 + sum_list_with work_cost stack < k)%nat →
  leads (Ok (mixed_types a b, stack)) (then_compare (term_compare a b) (lex (lefts stack) (rights stack))) k.
Proof.
  intros Ha Hb Hne Hs Hk. apply leads_on_cmp; [|done|done].
  assert (∀ s v, snum s v ∧ ¬ (MIN_SMALL <= sval s v <= MAX_SMALL) → if s then sval s v < MIN_SMALL else MAX_SMALL < sval s v) as Hbig.
  { intros s v [(Hd & _ & _) Hn]. pose proof (val_bound v Hd) as [Hv _]. unfold MIN_SMALL, MAX_SMALL in *. destruct s; cbn [sval] in *; lia. }
  destruct a, b; try done; cbn [leaf_ok] in Ha, Hb; cbn [term_compare compare_leaves kind_of int_value then_compare Z.compare].
  - specialize (Hbig _ _ Hb). clear Hb Hne. destruct sign; symmetry; [apply Z.compare_gt_iff|apply Z.compare_lt_iff]; lia.
  - specialize (Hbig _ _ Ha). clear Ha Hne. destruct sign; symmetry; [apply Z.compare_lt_iff|apply Z.compare_gt_iff]; lia.
Qed.

Lemma cmp_ne_ok a b stack :
  term_ok a = true → term_ok b = true → Forall work_ok stack →
  leads (cmp_ne a b stack) (lex (sort_key a ++ lefts stack) (sort_key b ++ rights stack)) (cost (tailrecur_ne a b) stack).
Proof.
  intros Ha Hb Hs. pose proof (term_ok_leaf _ Ha) as Hla. pose proof (term_ok_leaf _ Hb) as Hlb. pose proof (term_size_pos a) as Hpos.
  assert (1 + sum_list_with work_cost stack < cost (tailrecur_ne a b) stack)%nat as Hk by (cbn; lia).
  destruct (is_list a && is_list b) eqn:El.
  { apply andb_true_iff in El as [E1 E2]. destruct (cmp_lists_ok a b stack E1 E2 Ha Hb Hs) as (l & stack' & E & Hr).
    destruct a; try done. destruct b; try done. cbn [cmp_ne]. rewrite E. exact Hr. }
  destruct a as [| | | | | |aa| | |], b as [| | | | | |bb| | |]; try done;
    try (rewrite term_compare_key by done; by apply mixed_types_ok); cbn [cmp_ne].
  all: try (lazymatch goal with |- context [T_tuple] => fail | _ => idtac end;
    rewrite term_compare_key by done; cbn [term_compare compare_leaves kind_of int_value then_compare Z.compare]).
  - apply leads_on_cmp; [apply sub_compare|done|done].
  - destruct Hla as [Hla _], Hlb as [Hlb _]. rewrite (big_comp_spec _ _ (sval sign v) (sval sign0 v0)) by (eexists _, _; done). rewrite bind_Ok.
    apply leads_on_cmp; [by destruct (sval sign v ?= sval sign0 v0)|done|done].
  - apply leads_on_cmp; [by apply cmp_atoms_of_lex|done|done].
  - by apply cmp_refs_ok.
  - cbn in Hla, Hlb. assert (swrap 64 (wrap 64 (data - data0)) = data - data0) as ->.
    { rewrite swrap_wrap by lia. apply swrap_small; lia. }
    apply leads_on_cmp; [apply sub_compare|done|done].
  - destruct (Z.eqb_spec data data0) as [->|Hne]; cbn [negb].
    + rewrite Z.compare_refl. by apply leads_to.
    + apply leads_not_equal; [|by rewrite Z.compare_eq_iff|done|lia]. by destruct (Z.ltb_spec data data0), (Z.compare_spec data data0); try lia.
  - cbn in Hla, Hlb. pose proof (zlen_nonneg aa). pose proof (zlen_nonneg bb).
    cbn [sort_key kind_of leaf_key app]. rewrite !lex_cons, Z.compare_refl. cbn [then_compare].
    destruct (Z.eqb_spec (zlen aa) (zlen bb)) as [E|Hne]; cbn [negb].
    + rewrite E, Z.compare_refl, <- E. cbn [then_compare]. destruct (Z.eqb_spec (zlen aa) 0) as [E0|].
      * destruct aa; [|pose proof (zlen_nonneg aa); rewrite zlen_cons in E0; lia]. destruct bb; [|pose proof (zlen_nonneg bb); rewrite zlen_cons, zlen_nil in E; lia].
        by apply leads_to.
      * eapply leads_weaken; [apply term_array_ok; [by intros ->|unfold zlen in E; lia|by apply term_ok_tuple..|done]|]. cbn. unfold sizes. lia.
    + apply leads_not_equal; [|by rewrite Z.compare_eq_iff|done|lia]. rewrite to_int_small by (unfold INT_MAX; lia). apply sub_compare.
  - by apply leads_to.
  - by apply cmp_binaries_ok.
Qed.

Lemma cmp_run_ok fuel l stack :
  (cost l stack < fuel)%nat → label_ok l → Forall work_ok stack → ∃ j, cmp_run fuel l stack = Ok j ∧ (j ?= 0) = outcome_of l stack.
Proof.
  revert l stack. induction fuel as [|fuel IH]; intros l stack Hf Hl Hs; [lia|].
  assert (∀ r c, leads r c (cost l stack) → ∃ j, ('(l, stack) ← r; cmp_run fuel l stack) = Ok j ∧ (j ?= 0) = c) as Hblock.
  { intros r c (l' & stack' & -> & Hl' & Hs' & <- & Hc). rewrite bind_Ok. apply IH; [lia|done|done]. }
  destruct l as [a b|a b| |j]; cbn [cmp_run].
  - destruct Hl as [Ha Hb]. pose proof (term_size_pos a). destruct (is_same a b) eqn:E.
    + cbn [outcome_of]. rewrite (is_same_key _ _ _ _ E). apply (IH pop_next); [cbn in *; lia|done|done].
    + apply (IH (tailrecur_ne a b)); [cbn in *; lia|done|done].
  - destruct Hl as [Ha Hb]. apply Hblock. by apply cmp_ne_ok.
  - destruct stack as [|[a b|aa bb] stack]; [by exists 0|..]; apply Forall_cons in Hs as [Hw Hs].
    + apply (IH (tailrecur a b)); [cbn in *; lia|done|done].
    + destruct Hw as (Hne & Hlen & Ha & Hb). apply Hblock. cbn [outcome_of lefts rights map concat left_keys right_keys].
      eapply leads_weaken; [by apply term_array_ok|]. cbn. lia.
  - by exists j.
Qed.

Lemma erts_cmp_ok a b : term_ok a = true → term_ok b = true → ∃ j, erts_cmp a b = Ok j ∧ (j ?= 0) = term_compare a b.
Proof.
  intros Ha Hb.
  assert (∃ j, erts_cmp_compound a b = Ok j ∧ (j ?= 0) = term_compare a b) as Hc.
  { unfold erts_cmp_compound. destruct (cmp_run_ok (S (3 * term_size a)) (tailrecur a b) []) as (j & -> & Ej); [cbn; lia|done|done|].
    exists j. split; [done|]. rewrite Ej, term_compare_lex by done. cbn. by rewrite !app_nil_r. }
  pose proof (term_ok_leaf _ Ha). pose proof (term_ok_leaf _ Hb).
  destruct a as [i| |i| | | | | | |]; try exact Hc; destruct b as [j| |j| | | | | | |]; try exact Hc; cbn [erts_cmp].
  - exists (i - j). split; [done|]. cbn. apply sub_compare.
  - exists (cmp_atoms_of i j). split; [done|]. by apply cmp_atoms_of_lex.
Qed.

End Machine.
