(* ===== verification/TermProps.v ===== *)
(** The order of terms: what [erts_cmp] promises, and where it fails.

    On the terms of TermOrd.v it computes the standard order, which is total; it always ends,
    whichever subterms are shared.  For references with large numbers it is no order. *)
From S2P Require Import Prelude Scan BigDigits BigShift BigSqr BigBits Big BigSpec Utf8 Hash Index AtomTab AtomCmp TermCmp TermOrd.

Section Props.
Context `{AtomNames} `{!AtomNamesLaws} `{Pointers} `{!PointersLaws}.

(** C8: [erts_cmp] returns on any two terms of the kinds modelled: integers, atoms, ports and
    pids of this node, references of this node whose numbers are below 2^31 (beyond that
    the code's order is cyclic, see [references_cyclic]), tuples, lists and binaries, nested
    in any way, but no floats, maps or funs.  Its sign is the standard order of terms:
    numbers, atoms, references, ports, pids, tuples, the empty list, lists, binaries; atoms by
    their texts, tuples by their sizes and then element by element, lists element by element,
    binaries byte by byte.  The order is total: it takes only the same term as equal, it is
    antisymmetric and transitive.  What the code does with pointers that are the same makes no
    difference, and its work stack always empties. *)
Theorem erts_cmp_total_order a b c :
  term_ok a = true → term_ok b = true → term_ok c = true →
  (∃ j, erts_cmp a b = Ok j ∧ (j ?= 0) = term_compare a b) ∧
  (term_compare a b = Eq ↔ a = b) ∧ term_compare b a = CompOpp (term_compare a b) ∧
  (term_compare a b = Lt → term_compare b c = Lt → term_compare a c = Lt).
Proof.
  intros Ha Hb Hc. split; [by apply erts_cmp_ok|]. split; [|split; [by apply term_compare_sym|by apply term_compare_trans]].
  split; [by apply term_compare_eq|]. intros ->. by apply term_compare_refl.
Qed.

End Props.

(** * Sample terms *)

Module Samples.

(** Six atoms. *)
Definition sample_names : list bytes := [str "_"; str "$1"; str "a"; str "b"; str "$_"; str "$end_of_table"].
Definition sample_text (i : Z) : bytes := default [] (sample_names !! Z.to_nat i).
#[export] Instance sample_atoms : AtomNames := {|
  atom_entry i := atom_alloc (template (zlen (sample_text i)) (sample_text i) (zlen (sample_text i))); n_atoms := 6 |}.

#[export] Instance sample_atoms_laws : AtomNamesLaws.
Proof.
  assert (∀ i : Z, 0 <= i < 6 → i = 0 ∨ i = 1 ∨ i = 2 ∨ i = 3 ∨ i = 4 ∨ i = 5) as Hi by lia.
  split.
  - intros i [-> |[-> |[-> |[-> |[-> | ->]]]]]%Hi; (split; [split; [by vm_compute|by intros v [= <-]]|split; [repeat constructor; unfold byte; lia|done]]).
  - intros i j [-> |[-> |[-> |[-> |[-> | ->]]]]]%Hi [-> |[-> |[-> |[-> |[-> | ->]]]]]%Hi; (done || by vm_compute).
Defined.

(** Only words are known to be the same. *)
#[export] Instance sample_pointers : Pointers := λ a b, is_immed a && bool_decide (a = b).
#[export] Instance sample_pointers_laws : PointersLaws.
Proof.
  split; unfold is_same, sample_pointers.
  - intros a b [_ E]%andb_true_iff. by eapply bool_decide_eq_true.
  - intros a ->. by apply bool_decide_eq_true.
Defined.

(** {a, [1 | 2^64]}, {a, [1, b]} and a binary. *)
Definition sample_a : Term := T_tuple [T_atom 2; T_list (T_small 1) (T_big false [0; 1])].
Definition sample_b : Term := T_tuple [T_atom 2; T_list (T_small 1) (T_list (T_atom 3) T_nil)].
Definition sample_c : Term := T_binary [0; 255].

Lemma erts_cmp_total_order_witness :
  (∃ j, erts_cmp sample_a sample_b = Ok j ∧ (j ?= 0) = Lt) ∧ term_compare sample_a sample_c = Lt.
Proof.
  destruct (erts_cmp_total_order sample_a sample_b sample_c) as (Hc & _ & _ & Ht); [by vm_compute..|].
  split; [exact Hc|]. by apply Ht; vm_compute.
Defined.

(** The numbers of references are subtracted as signed 32-bit numbers: three references of
    which each is less than the next, and the last less than the first. *)
Definition ref_of (n : Z) : Term := T_ref [n; 0; 0].
Lemma references_cyclic :
  erts_cmp (ref_of 0) (ref_of (2 ^ 30)) = Ok (- 2 ^ 30) ∧
  erts_cmp (ref_of (2 ^ 30)) (ref_of (2 ^ 31)) = Ok (- 2 ^ 30) ∧
  erts_cmp (ref_of (2 ^ 31)) (ref_of 0) = Ok (- 2 ^ 31).
Proof. by vm_compute. Qed.

End Samples.
