(* ===== verification/DbSeg.v ===== *)
(** The segments of an ETS hash table (erts/emulator/beam/erl_db_hash.c): the buckets of
    a table are in segments of 256, found through a segment table that is part of one of
    the segments.  A segment with a segment table ("extended") is allocated one segment
    before its table is used, and its table is given up one segment before it is freed.

    A pointer to a segment is a number, a segment that is not in the heap has been freed,
    and a pointer to a segment table is the pointer to its segment.  Reading a pointer
    that was never stored, a segment that was freed or a table of a plain segment is
    [Fault].  The second part shows that the buckets behave as one list. *)
From S2P Require Import Prelude.

Definition SEGSZ_EXP : Z := 8.
Definition SEGSZ : Z := 256.
Definition SEGSZ_MASK : Z := 255.
Definition NSEG_1 : Z := 2.
Definition NSEG_2 : Z := 256.
Definition NSEG_INC : Z := 128.

Record ext_table := mk_ext { prev_segtab : option nat; e_nsegs : Z; e_segtab : list (option nat) }.

(** [struct segment] and [struct ext_segment] *)
Record segment (A : Type) := mk_segment { buckets : list (list A); s_ext : option ext_table }.
Arguments mk_segment {A} _ _.
Arguments buckets {A} _.
Arguments s_ext {A} _.

(** [segtab], [nsegs], [nslots] of [DbTableHash], the memory and the number of
    allocations so far. *)
Record segs (A : Type) := mk_segs {
  g_heap : gmap nat (segment A); g_next : nat; g_segtab : nat; g_nsegs : Z; g_nslots : Z }.
Arguments mk_segs {A} _ _ _ _ _.
Arguments g_heap {A} _.
Arguments g_next {A} _.
Arguments g_segtab {A} _.
Arguments g_nsegs {A} _.
Arguments g_nslots {A} _.

(** Whether the n-th allocation of a segment succeeds. *)
Class SegMemory := alloc_succeeds : nat → bool.

Section Model.
Context {A : Type} `{SegMemory}.
Implicit Types g : segs A.

Definition set_heap g (h : gmap nat (segment A)) : segs A := mk_segs h (g_next g) (g_segtab g) (g_nsegs g) (g_nslots g).
Definition SET_SEGTAB g (segtab : nat) (nsegs : Z) : segs A := mk_segs (g_heap g) (g_next g) segtab nsegs (g_nslots g).
Definition set_nslots g (nslots : Z) : segs A := mk_segs (g_heap g) (g_next g) (g_segtab g) (g_nsegs g) nslots.

(** [l[i]] *)
Definition at_ix {B} (l : list B) (i : Z) : res B :=
  if i <? 0 then Fault else match l !! Z.to_nat i with Some x => Ok x | None => Fault end.

Definition put_ix {B} (l : list B) (i : Z) (x : B) : res (list B) :=
  if (0 <=? i) && (i <? zlen l) then Ok (<[Z.to_nat i := x]> l) else Fault.

Definition deref_segment g (id : nat) : res (segment A) :=
  match g_heap g !! id with Some s => Ok s | None => Fault end.

Definition table_of (s : segment A) : res ext_table :=
  match s_ext s with Some e => Ok e | None => Fault end.

(** [SEGTAB(tb)[i]] *)
Definition SEGTAB_at g (i : Z) : res nat :=
  s ← deref_segment g (g_segtab g); e ← table_of s; p ← at_ix (e_segtab e) i;
  match p with Some id => Ok id | None => Fault end.

(** [SEGTAB(tb)[i] = p] *)
Definition SEGTAB_put g (i : Z) (p : option nat) : res (segs A) :=
  s ← deref_segment g (g_segtab g); e ← table_of s; l ← put_ix (e_segtab e) i p;
  Ok (set_heap g (<[g_segtab g := mk_segment (buckets s) (Some (mk_ext (prev_segtab e) (e_nsegs e) l))]> (g_heap g))).

Definition BUCKET g (i : Z) : res (list A) :=
  id ← SEGTAB_at g (Z.shiftr i SEGSZ_EXP); s ← deref_segment g id; at_ix (buckets s) (Z.land i SEGSZ_MASK).

Definition set_BUCKET g (i : Z) (c : list A) : res (segs A) :=
  id ← SEGTAB_at g (Z.shiftr i SEGSZ_EXP); s ← deref_segment g id; l ← put_ix (buckets s) (Z.land i SEGSZ_MASK) c;
  Ok (set_heap g (<[id := mk_segment l (s_ext s)]> (g_heap g))).

(** A new segment. *)
Definition alloc_segment g (ext : option ext_table) : nat * segs A :=
  let id := g_next g in
  (id, mk_segs (<[id := mk_segment (replicate (Z.to_nat SEGSZ) []) ext]> (g_heap g)) (S id) (g_segtab g) (g_nsegs g) (g_nslots g)).

Definition alloc_failed g : segs A := mk_segs (g_heap g) (S (g_next g)) (g_segtab g) (g_nsegs g) (g_nslots g).

Definition alloc_ext_seg g (seg_ix : Z) (old_segtab : option nat) : res (nat * segs A) :=
  let nsegs := if seg_ix =? 0 then NSEG_1 else if seg_ix =? 1 then NSEG_2 else seg_ix + NSEG_INC in
  if negb (alloc_succeeds (g_next g)) then Fault
  else
    copied ← match old_segtab with
             | None => Ok []
             | Some p =>
                 s ← deref_segment g p; e ← table_of s;
                 if (g_nsegs g <=? zlen (e_segtab e)) && (g_nsegs g <=? nsegs)
                 then Ok (take (Z.to_nat (g_nsegs g)) (e_segtab e)) else Fault
             end;
    l ← put_ix (copied ++ replicate (Z.to_nat nsegs - length copied) None) seg_ix (Some (g_next g));
    Ok (alloc_segment g (Some (mk_ext old_segtab nsegs l))).

Definition alloc_seg g : res (bool * segs A) :=
  let seg_ix := Z.shiftr (g_nslots g) SEGSZ_EXP in
  if seg_ix + 1 =? g_nsegs g then
    '(id, g) ← alloc_ext_seg g seg_ix (Some (g_segtab g));
    g ← SEGTAB_put g seg_ix (Some id);
    Ok (true, set_nslots g (g_nslots g + SEGSZ))
  else
    g ← (if seg_ix =? g_nsegs g then
           id ← SEGTAB_at g (seg_ix - 1); s ← deref_segment g id; e ← table_of s; Ok (SET_SEGTAB g id (e_nsegs e))
         else Ok g);
    if negb (alloc_succeeds (g_next g)) then g ← SEGTAB_put (alloc_failed g) seg_ix None; Ok (false, g)
    else
      let '(id, g) := alloc_segment g None in
      g ← SEGTAB_put g seg_ix (Some id);
      Ok (true, set_nslots g (g_nslots g + SEGSZ)).

Definition free_seg g (free_records : bool) : res (Z * segs A) :=
  let seg_ix := Z.shiftr (g_nslots g) SEGSZ_EXP - 1 in
  id ← SEGTAB_at g seg_ix;
  top ← deref_segment g id;
  let nrecords := if free_records then zlen (concat (buckets top)) else 0 in
  g ← (if (seg_ix =? g_nsegs g - 1) || (seg_ix =? 0) then _ ← table_of top; Ok g
       else
         newtop ← SEGTAB_at g (seg_ix - 1);
         if bool_decide (g_segtab g = newtop) then
           s ← deref_segment g newtop; e ← table_of s;
           Ok match prev_segtab e with Some p => SET_SEGTAB g p seg_ix | None => g end
         else Ok g);
  Ok (nrecords, set_nslots (set_heap g (delete id (g_heap g))) (g_nslots g - SEGSZ)).

(** The segments of a new table ([db_create_hash]). *)
Definition new_segs g : res (segs A) :=
  '(id, g) ← alloc_ext_seg g 0 None; Ok (set_nslots (SET_SEGTAB g id NSEG_1) SEGSZ).

End Model.

(** * The buckets as a list *)

(** The extended segments, by level: their index and the size of their table. *)
Definition level_size (j : nat) : Z := match j with O => 2 | S j => 256 + 127 * Z.of_nat j end.
Definition level_ix (j : nat) : Z := match j with O => 0 | S j => level_size j - 1 end.

Lemma level_size_mono i j : (i < j)%nat → level_size i < level_size j.
Proof. destruct i, j; cbn; lia. Qed.

Lemma level_ix_mono i j : (i < j)%nat → level_ix i < level_ix j.
Proof. destruct i as [|i], j as [|j]; cbn; try lia; intros; [destruct j; cbn; lia|]. pose proof (level_size_mono i j). lia. Qed.

Lemma level_ix_size j : 0 <= level_ix j < level_size j.
Proof. destruct j as [|[|j]]; cbn; lia. Qed.

(** Every index is an extended segment of one level only. *)
Lemma level_ix_inj i j : level_ix i = level_ix j → i = j.
Proof. intros. destruct (Nat.lt_total i j) as [Hl|[?|Hl]]; [|done|]; apply level_ix_mono in Hl; lia. Qed.

Section Proofs.
Context {A : Type} `{SegMemory}.
Implicit Types g : segs A.

(** [ids]: the segments; [bss]: their buckets; [J]: the level of the table in use. *)
Record segs_ok g (ids : list nat) (J : nat) (bss : list (list (list A))) : Prop := {
  so_len : length bss = length ids;
  so_nodup : NoDup ids;
  so_fresh : ∀ id, id ∈ ids → (id < g_next g)%nat;
  so_heap : ∀ i id bs, ids !! i = Some id → bss !! i = Some bs → ∃ x, g_heap g !! id = Some (mk_segment bs x);
  so_size : Forall (λ bs, length bs = Z.to_nat SEGSZ) bss;
  so_slots : g_nslots g = SEGSZ * zlen ids;
  so_tab : ids !! Z.to_nat (level_ix J) = Some (g_segtab g);
  so_nsegs : g_nsegs g = level_size J;
  so_level : (match J with O => True | S j => level_size j <= zlen ids end) ∧ zlen ids <= level_size J;
  so_ext : ∀ j id, ids !! Z.to_nat (level_ix j) = Some id →
    ∃ bs prev l, g_heap g !! id = Some (mk_segment bs (Some (mk_ext prev (level_size j) l))) ∧ zlen l = level_size j ∧
      (∀ k id', ids !! k = Some id' → Z.of_nat k < level_size j → l !! k = Some (Some id')) ∧
      match j with O => prev = None | S j' => ∃ p, prev = Some p ∧ ids !! Z.to_nat (level_ix j') = Some p end }.

(** The table in use has an entry behind its own segment. *)
Definition tight (ids : list nat) (J : nat) : Prop := match J with O => 1 <= zlen ids | S j => level_size j < zlen ids end.

Definition represents g (B : list (list A)) : Prop :=
  ∃ ids J bss, segs_ok g ids J bss ∧ tight ids J ∧ B = concat bss.

Lemma at_ix_ok {B} (l : list B) i x : l !! i = Some x → at_ix l (Z.of_nat i) = Ok x.
Proof. intros E. unfold at_ix. destruct (Z.ltb_spec (Z.of_nat i) 0); [lia|]. by rewrite Nat2Z.id, E. Qed.

Lemma put_ix_ok {B} (l : list B) i x : (i < length l)%nat → put_ix l (Z.of_nat i) x = Ok (<[i := x]> l).
Proof.
  intros Hi. unfold put_ix, zlen. destruct (Z.leb_spec 0 (Z.of_nat i)), (Z.ltb_spec (Z.of_nat i) (Z.of_nat (length l))); try lia.
  cbn. by rewrite Nat2Z.id.
Qed.

Lemma deref_segment_ok g id s : g_heap g !! id = Some s → deref_segment g id = Ok s.
Proof. intros E. unfold deref_segment. by rewrite E. Qed.

Lemma SEGTAB_at_ok g ids J bss i id : segs_ok g ids J bss → ids !! i = Some id → SEGTAB_at g (Z.of_nat i) = Ok id.
Proof.
  intros Hs Hi. destruct (so_ext _ _ _ _ Hs J _ (so_tab _ _ _ _ Hs)) as (bs & prev & l & E & Hl & Hent & _).
  unfold SEGTAB_at. rewrite (deref_segment_ok _ _ _ E), bind_Ok. cbn [table_of s_ext]. rewrite bind_Ok. cbn [e_segtab].
  apply lookup_lt_Some in Hi as Hlt. destruct (so_level _ _ _ _ Hs) as [_ Hn]. unfold zlen in Hn.
  by rewrite (at_ix_ok _ _ _ (Hent i id Hi ltac:(lia))).
Qed.

(** Bucket numbers. *)
Lemma concat_lookup {B} (n : nat) (ll : list (list B)) i :
  (0 < n)%nat → Forall (λ l, length l = n) ll → concat ll !! i = (ll !! (i / n)%nat ≫= λ l, l !! (i mod n)%nat).
Proof.
  intros Hn Hf. revert i. induction Hf as [|l ll Hl _ IH]; intros i; [done|]. cbn [concat].
  destruct (Nat.lt_ge_cases i n) as [Hlt|Hge].
  - rewrite lookup_app_l, Nat.div_small, Nat.mod_small by lia. done.
  - rewrite lookup_app_r, IH, Hl by lia.
    assert (i / n = S ((i - n) / n) ∧ i mod n = (i - n) mod n)%nat as [-> ->]; [|done].
    replace i with ((i - n) + 1 * n)%nat at 1 3 by lia. rewrite Nat.div_add, Nat.Div0.mod_add by lia. lia.
Qed.

Lemma length_concat_const {B} (n : nat) (ll : list (list B)) :
  Forall (λ l, length l = n) ll → length (concat ll) = (n * length ll)%nat.
Proof. induction 1 as [|l ll Hl _ IH]; cbn; [lia|]. rewrite length_app, IH, Hl. lia. Qed.

Lemma bucket_number i :
  0 <= i → Z.shiftr i SEGSZ_EXP = Z.of_nat (Z.to_nat i / 256) ∧ Z.land i SEGSZ_MASK = Z.of_nat (Z.to_nat i mod 256).
Proof.
  intros Hi. split.
  - rewrite Z.shiftr_div_pow2 by done. change (2 ^ SEGSZ_EXP) with 256. rewrite Nat2Z.inj_div, Z2Nat.id by done. done.
  - change SEGSZ_MASK with (Z.ones 8). rewrite Z.land_ones by done. rewrite Nat2Z.inj_mod, Z2Nat.id by done. done.
Qed.

(** The segment of a bucket. *)
Lemma bucket_segment g ids J bss i c :
  segs_ok g ids J bss → 0 <= i → concat bss !! Z.to_nat i = Some c →
  ∃ id bs x, ids !! (Z.to_nat i / 256)%nat = Some id ∧ bss !! (Z.to_nat i / 256)%nat = Some bs ∧
    bs !! (Z.to_nat i mod 256)%nat = Some c ∧ g_heap g !! id = Some (mk_segment bs x).
Proof.
  intros Hs Hi E. rewrite (concat_lookup 256) in E by (apply (so_size _ _ _ _ Hs) || lia).
  destruct (bss !! _) as [bs|] eqn:Eb; [|done]. cbn in E.
  destruct (lookup_lt_is_Some_2 ids (Z.to_nat i / 256)) as [id Eid].
  { rewrite <- (so_len _ _ _ _ Hs). by eapply lookup_lt_Some. }
  destruct (so_heap _ _ _ _ Hs _ _ _ Eid Eb) as [x Ex]. by exists id, bs, x.
Qed.

Lemma BUCKET_ok g B i c : represents g B → 0 <= i → B !! Z.to_nat i = Some c → BUCKET g i = Ok c.
Proof.
  intros (ids & J & bss & Hs & Ht & ->) Hi E. destruct (bucket_segment _ _ _ _ _ _ Hs Hi E) as (id & bs & x & Eid & _ & Ec & Eh).
  unfold BUCKET. destruct (bucket_number i Hi) as [-> ->]. rewrite (SEGTAB_at_ok _ _ _ _ _ _ Hs Eid), bind_Ok.
  rewrite (deref_segment_ok _ _ _ Eh), bind_Ok. by apply at_ix_ok.
Qed.

Lemma insert_concat {B} (n : nat) (ll : list (list B)) i l x :
  (0 < n)%nat → Forall (λ l, length l = n) ll → ll !! (i / n)%nat = Some l →
  concat (<[(i / n)%nat := <[(i mod n)%nat := x]> l]> ll) = <[i := x]> (concat ll).
Proof.
  intros Hn Hf El. assert (length l = n) as Hl by (eapply Forall_lookup_1 in Hf; done).
  apply lookup_lt_Some in El as Hlt. assert (i < length (concat ll))%nat.
  { rewrite (length_concat_const n) by done. pose proof (Nat.div_mod i n). pose proof (Nat.mod_upper_bound i n). nia. }
  apply list_eq. intros k. rewrite (concat_lookup n) by (done || (apply Forall_insert; [done|by rewrite length_insert])).
  destruct (decide (k = i)) as [->|Hne].
  - rewrite (list_lookup_insert_eq _ i), (list_lookup_insert_eq ll) by done. cbn. apply list_lookup_insert_eq. rewrite Hl. apply Nat.mod_upper_bound. lia.
  - rewrite (list_lookup_insert_ne (concat ll) i k), (concat_lookup n ll) by done.
    destruct (decide (k / n = i / n)%nat) as [Ed|Nd]; [|by rewrite list_lookup_insert_ne].
    rewrite Ed, list_lookup_insert_eq, El by done. cbn. apply list_lookup_insert_ne. intros Em. apply Hne.
    rewrite (Nat.div_mod k n), (Nat.div_mod i n) by lia. congruence.
Qed.

(** A segment of the table is replaced by one with other buckets. *)
Lemma segs_ok_update g ids J bss i id bs x bs' :
  segs_ok g ids J bss → ids !! i = Some id → bss !! i = Some bs → g_heap g !! id = Some (mk_segment bs x) →
  length bs' = Z.to_nat SEGSZ → segs_ok (set_heap g (<[id := mk_segment bs' x]> (g_heap g))) ids J (<[i := bs']> bss).
Proof.
  intros [Hlen Hnd Hfr Hh Hsz Hsl Htab Hns Hlv Hext] Ei Eb Ex Hl. split; cbn; try done.
  - by rewrite length_insert.
  - intros k id' bs1 Ek Ebk. destruct (decide (k = i)) as [->|Hne].
    + rewrite list_lookup_insert_eq in Ebk by (by eapply lookup_lt_Some). injection Ebk as <-. assert (id' = id) as -> by congruence.
      exists x. by rewrite lookup_insert_eq.
    + rewrite list_lookup_insert_ne in Ebk by done. destruct (Hh k id' bs1 Ek Ebk) as [x' Ex']. exists x'.
      rewrite lookup_insert_ne; [done|]. intros ->. apply Hne. by eapply NoDup_lookup.
  - by apply Forall_insert.
  - intros j id' Ej. destruct (Hext j id' Ej) as (bs1 & prev & l & E & Hrest). destruct (decide (id' = id)) as [->|Hne].
    + rewrite Ex in E. injection E as -> ->. exists bs', prev, l. by rewrite lookup_insert_eq.
    + exists bs1, prev, l. by rewrite lookup_insert_ne.
Qed.

Lemma set_BUCKET_ok g B i c :
  represents g B → 0 <= i < zlen B →
  ∃ h, set_BUCKET g i c = Ok (set_heap g h) ∧ represents (set_heap g h) (<[Z.to_nat i := c]> B).
Proof.
  intros (ids & J & bss & Hs & Ht & ->) Hi. destruct (lookup_lt_is_Some_2 (concat bss) (Z.to_nat i)) as [c0 E0]; [unfold zlen in *; lia|].
  destruct (bucket_segment _ _ _ _ _ _ Hs (proj1 Hi) E0) as (id & bs & x & Eid & Ebs & Ec & Eh).
  unfold set_BUCKET. destruct (bucket_number i (proj1 Hi)) as [-> ->]. rewrite (SEGTAB_at_ok _ _ _ _ _ _ Hs Eid), bind_Ok.
  rewrite (deref_segment_ok _ _ _ Eh), bind_Ok. cbn [buckets s_ext].
  rewrite put_ix_ok, bind_Ok by (by eapply lookup_lt_Some). eexists. split; [done|].
  eexists ids, J, _. split_and!; [eapply segs_ok_update; [done|done|done|done|]|done|].
  - rewrite length_insert. pose proof (so_size _ _ _ _ Hs) as Hf. by eapply Forall_lookup_1 in Hf.
  - symmetry. apply insert_concat; [lia|apply (so_size _ _ _ _ Hs)|done].
Qed.

(** ** A new segment *)

Lemma nslots_segments g ids J bss : segs_ok g ids J bss → Z.shiftr (g_nslots g) SEGSZ_EXP = Z.of_nat (length ids).
Proof.
  intros Hs. rewrite (so_slots _ _ _ _ Hs). unfold SEGSZ, SEGSZ_EXP, zlen. rewrite Z.shiftr_div_pow2 by done.
  change (2 ^ 8) with 256. rewrite Z.mul_comm. by apply Z.div_mul.
Qed.

(** An entry of the table in use is set. *)
Lemma SEGTAB_put_ok g ids J bss i p :
  segs_ok g ids J bss → Z.of_nat i < level_size J →
  ∃ bs prev l, g_heap g !! g_segtab g = Some (mk_segment bs (Some (mk_ext prev (level_size J) l))) ∧ zlen l = level_size J ∧
    SEGTAB_put g (Z.of_nat i) p =
      Ok (set_heap g (<[g_segtab g := mk_segment bs (Some (mk_ext prev (level_size J) (<[i := p]> l)))]> (g_heap g))).
Proof.
  intros Hs Hi. destruct (so_ext _ _ _ _ Hs J _ (so_tab _ _ _ _ Hs)) as (bs & prev & l & E & Hl & _ & _).
  exists bs, prev, l. split; [done|]. split; [done|]. unfold SEGTAB_put. rewrite (deref_segment_ok _ _ _ E), bind_Ok. cbn [table_of s_ext].
  rewrite bind_Ok. cbn [e_segtab]. rewrite put_ix_ok, bind_Ok by (unfold zlen in Hl; lia). done.
Qed.

(** The new segment [id] with the extension [x] is entered in the table in use. *)
Lemma segs_ok_add g ids J bss bs prev l id x :
  segs_ok g ids J bss → id = g_next g → zlen ids < level_size J →
  g_heap g !! g_segtab g = Some (mk_segment bs (Some (mk_ext prev (level_size J) l))) →
  (∀ j, Z.of_nat (length ids) = level_ix j → ∃ t, x = Some (mk_ext (Some (g_segtab g)) (level_size j) t) ∧ j = S J ∧ zlen t = level_size j ∧
    (∀ k id', (ids ++ [id]) !! k = Some id' → t !! k = Some (Some id'))) →
  segs_ok (mk_segs (<[g_segtab g := mk_segment bs (Some (mk_ext prev (level_size J) (<[length ids := Some id]> l)))]>
      (<[id := mk_segment (replicate (Z.to_nat SEGSZ) []) x]> (g_heap g))) (S id) (g_segtab g) (g_nsegs g) (g_nslots g + SEGSZ))
    (ids ++ [id]) J (bss ++ [replicate (Z.to_nat SEGSZ) []]).
Proof.
  intros [Hlen Hnd Hfr Hh Hsz Hsl Htab Hns Hlv Hext] -> Hn Eh Hx.
  assert (g_next g ∉ ids) as Hnew by (intros Hin; apply Hfr in Hin; lia).
  assert (g_segtab g ∈ ids) as Hst by (by eapply list_elem_of_lookup_2). assert (g_segtab g ≠ g_next g) as Hne by (intros E; by rewrite E in Hst).
  assert (∀ k y, (ids ++ [g_next g]) !! k = Some y → ids !! k = Some y ∧ y ≠ g_next g ∨ k = length ids ∧ y = g_next g) as Hsnoc.
  { intros k y [[? E]|[-> ->]]%lookup_snoc_Some; [left; split; [done|]; intros ->; apply Hnew; by eapply list_elem_of_lookup_2|by right]. }
  split; cbn; try done.
  - rewrite !length_app. cbn. lia.
  - apply NoDup_app. split; [done|]. split; [|apply NoDup_singleton]. intros y Hy ->%list_elem_of_singleton. done.
  - intros y [Hy| ->%list_elem_of_singleton]%elem_of_app; [apply Hfr in Hy|]; lia.
  - intros i y b Ey Eb. destruct (Hsnoc _ _ Ey) as [[Ey' Hy]|[-> ->]].
    + rewrite lookup_app_l in Eb by (rewrite Hlen; by eapply lookup_lt_Some). destruct (Hh i y b Ey' Eb) as [z Ez].
      destruct (decide (y = g_segtab g)) as [->|Hy2].
      * rewrite Eh in Ez. injection Ez as <- <-. eexists. by rewrite lookup_insert_eq.
      * exists z. by rewrite !lookup_insert_ne.
    + rewrite <- Hlen, list_lookup_middle in Eb by done. injection Eb as <-. exists x. by rewrite lookup_insert_ne, lookup_insert_eq.
  - apply Forall_app. split; [done|]. apply Forall_singleton. apply length_replicate.
  - rewrite Hsl, zlen_app. cbn. unfold zlen. cbn. lia.
  - by apply lookup_app_l_Some.
  - rewrite zlen_app. change (zlen [g_next g]) with 1. split; [destruct J; [done|]|]; lia.
  - intros j y Ey. destruct (Hsnoc _ _ Ey) as [[Ey' Hy]|[Ej ->]].
    + destruct (Hext j y Ey') as (b & pr & t & Et & Hlt & Hent & Hpr).
      destruct (decide (y = g_segtab g)) as [->|Hy2].
      * assert (j = J) as ->.
        { pose proof (level_ix_size j). pose proof (level_ix_size J). apply level_ix_inj.
          enough (Z.to_nat (level_ix j) = Z.to_nat (level_ix J)) by lia. by eapply NoDup_lookup. }
        rewrite Eh in Et. injection Et as <- <- <-. exists bs, prev, (<[length ids := Some (g_next g)]> l). rewrite lookup_insert_eq.
        split; [done|]. split; [unfold zlen in *; by rewrite length_insert|]. split.
        -- intros k y Ek Hk. destruct (Hsnoc _ _ Ek) as [[Ek' _]|[-> ->]].
           ++ rewrite list_lookup_insert_ne by (apply lookup_lt_Some in Ek'; lia). by apply Hent.
           ++ apply list_lookup_insert_eq. unfold zlen in *. lia.
        -- destruct J; [done|]. destruct Hpr as (p & -> & Hp). exists p. split; [done|]. by apply lookup_app_l_Some.
      * exists b, pr, t. rewrite !lookup_insert_ne by done. split; [done|]. split; [done|]. split.
        -- intros k z Ek Hk. destruct (Hsnoc _ _ Ek) as [[Ek' _]|[-> ->]]; [by apply Hent|]. exfalso.
           assert (j ≠ J) by (intros ->; rewrite Htab in Ey'; congruence).
           apply lookup_lt_Some in Ey'. pose proof (level_ix_size j). unfold zlen in *. destruct (Nat.lt_total j J) as [Hj|[?|Hj]]; [|done|].
           ++ destruct J as [|J']; [lia|]. assert (level_size j <= level_size J'); [|lia].
              destruct (decide (j = J')) as [->|]; [done|]. apply Z.lt_le_incl, level_size_mono. lia.
           ++ assert (level_ix (S J) <= level_ix j); [|cbn in *; lia].
              destruct (decide (j = S J)) as [->|]; [done|]. apply Z.lt_le_incl, level_ix_mono. lia.
        -- destruct j; [done|]. destruct Hpr as (p & -> & Hp). exists p. split; [done|]. by apply lookup_app_l_Some.
    + pose proof (level_ix_size j). destruct (Hx j) as (t & -> & -> & Ht & Hent); [lia|]. rewrite lookup_insert_ne, lookup_insert_eq by done.
      eexists _, _, t. split; [done|]. split; [done|]. split; [by intros k y Ek _; apply Hent|]. exists (g_segtab g). split; [done|].
      by apply lookup_app_l_Some.
Qed.

(** The table in use is full: the one of the last segment is used from now on. *)
Lemma segs_ok_switch g ids J bss :
  segs_ok g ids J bss → zlen ids = level_size J →
  ∃ id bs prev l, SEGTAB_at g (Z.of_nat (length ids) - 1) = Ok id ∧
    g_heap g !! id = Some (mk_segment bs (Some (mk_ext prev (level_size (S J)) l))) ∧
    segs_ok (SET_SEGTAB g id (level_size (S J))) ids (S J) bss.
Proof.
  intros Hs Hn. pose proof (level_ix_size J). unfold zlen in *.
  destruct (lookup_lt_is_Some_2 ids (length ids - 1)) as [id Eid]; [lia|].
  assert (ids !! Z.to_nat (level_ix (S J)) = Some id) as Eix by (rewrite <- Eid; f_equal; cbn; lia).
  destruct (so_ext _ _ _ _ Hs _ _ Eix) as (bs & prev & l & Eh & _). exists id, bs, prev, l.
  replace (Z.of_nat (length ids) - 1) with (Z.of_nat (length ids - 1)) by lia. split; [by eapply SEGTAB_at_ok|]. split; [done|].
  destruct Hs as [? ? ? ? ? ? ? ? ? ?]. split; cbn; try done. unfold zlen. pose proof (level_size_mono J (S J)). cbn in *. lia.
Qed.

(** A plain segment is added. *)
Lemma alloc_plain_ok g ids J bss :
  segs_ok g ids J bss → zlen ids + 1 < level_size J →
  ∃ g', SEGTAB_put (alloc_segment g None).2 (Z.of_nat (length ids)) (Some (g_next g)) = Ok g' ∧
    g_nslots g' = g_nslots g ∧
    segs_ok (set_nslots g' (g_nslots g + SEGSZ)) (ids ++ [g_next g]) J (bss ++ [replicate (Z.to_nat SEGSZ) []]).
Proof.
  intros Hs Hn. destruct (SEGTAB_put_ok g ids J bss (length ids) (Some (g_next g)) Hs) as (bs & prev & l & Eh & Hl & _); [unfold zlen in *; lia|].
  assert (g_segtab g ≠ g_next g) as Hne.
  { intros E. assert (g_segtab g ∈ ids) as Hin by (eapply list_elem_of_lookup_2, (so_tab _ _ _ _ Hs)). apply (so_fresh _ _ _ _ Hs) in Hin. lia. }
  unfold SEGTAB_put. cbn [alloc_segment snd g_segtab]. unfold deref_segment. cbn [g_heap]. rewrite lookup_insert_ne, Eh, bind_Ok by done.
  cbn [table_of s_ext]. rewrite bind_Ok. cbn [e_segtab]. rewrite put_ix_ok, bind_Ok by (unfold zlen in *; lia).
  eexists. split; [done|]. split; [done|]. apply (segs_ok_add g ids J bss bs prev l (g_next g) None); [done|done|lia|done|].
  intros j Ej. exfalso. destruct (Nat.lt_total j (S J)) as [Hj|[->|Hj]]; [|cbn in Ej; unfold zlen in *; lia|].
  - destruct (so_level _ _ _ _ Hs) as [Hlo _]. pose proof (level_ix_size j). destruct (decide (j = J)) as [->|].
    + pose proof (lookup_lt_Some _ _ _ (so_tab _ _ _ _ Hs)) as Hlt. lia.
    + destruct J as [|J']; [lia|]. assert (level_size j <= level_size J'); [|unfold zlen in *; lia].
      destruct (decide (j = J')) as [->|]; [done|]. apply Z.lt_le_incl, level_size_mono. lia.
  - apply level_ix_mono in Hj. cbn in Hj. unfold zlen in *. lia.
Qed.

(** A segment with a new table is added. *)
Lemma alloc_ext_ok g ids J bss :
  segs_ok g ids J bss → zlen ids + 1 = level_size J → alloc_succeeds (g_next g) = true →
  ∃ g1 g', alloc_ext_seg g (Z.of_nat (length ids)) (Some (g_segtab g)) = Ok (g_next g, g1) ∧
    SEGTAB_put g1 (Z.of_nat (length ids)) (Some (g_next g)) = Ok g' ∧ g_nslots g' = g_nslots g ∧
    segs_ok (set_nslots g' (g_nslots g + SEGSZ)) (ids ++ [g_next g]) J (bss ++ [replicate (Z.to_nat SEGSZ) []]).
Proof.
  intros Hs Hn Hal. destruct (SEGTAB_put_ok g ids J bss (length ids) (Some (g_next g)) Hs) as (bs & prev & l & Eh & Hl & _); [unfold zlen in *; lia|].
  destruct (so_ext _ _ _ _ Hs J _ (so_tab _ _ _ _ Hs)) as (bs' & prev' & l' & Eh' & _ & Hent & _). rewrite Eh in Eh'. injection Eh' as <- <- <-.
  assert (g_segtab g ≠ g_next g) as Hne.
  { intros E. assert (g_segtab g ∈ ids) as Hin by (eapply list_elem_of_lookup_2, (so_tab _ _ _ _ Hs)). apply (so_fresh _ _ _ _ Hs) in Hin. lia. }
  assert ((if Z.of_nat (length ids) =? 0 then NSEG_1 else if Z.of_nat (length ids) =? 1 then NSEG_2 else Z.of_nat (length ids) + NSEG_INC) = level_size (S J)) as Ens.
  { pose proof (lookup_lt_Some _ _ _ (so_tab _ _ _ _ Hs)) as Hlt. unfold zlen, NSEG_1, NSEG_2, NSEG_INC in *.
    destruct (Z.eqb_spec (Z.of_nat (length ids)) 0), (Z.eqb_spec (Z.of_nat (length ids)) 1); try lia; destruct J; cbn in *; lia. }
  unfold alloc_ext_seg. rewrite Ens, Hal, (so_nsegs _ _ _ _ Hs). cbn [negb]. unfold deref_segment at 1. rewrite Eh, bind_Ok. cbn [table_of s_ext]. rewrite bind_Ok.
  cbn [e_segtab]. pose proof (level_size_mono J (S J) ltac:(lia)) as Hmono. pose proof (level_ix_size J) as HJ.
  rewrite Hl. rewrite (proj2 (Z.leb_le (level_size J) (level_size J))), (proj2 (Z.leb_le (level_size J) (level_size (S J)))) by lia. cbn [andb]. rewrite bind_Ok.
  rewrite (take_ge l) by (unfold zlen in *; lia).
  set (t0 := l ++ replicate (Z.to_nat (level_size (S J)) - length l) None).
  assert (length t0 = Z.to_nat (level_size (S J))) as Ht0 by (subst t0; rewrite length_app, length_replicate; unfold zlen in *; lia).
  rewrite put_ix_ok, bind_Ok by (unfold zlen in *; lia). eexists _, _. split; [done|].
  unfold SEGTAB_put. cbn [alloc_segment snd g_segtab]. unfold deref_segment. cbn [g_heap]. rewrite lookup_insert_ne, Eh, bind_Ok by done.
  cbn [table_of s_ext]. rewrite bind_Ok. cbn [e_segtab]. rewrite put_ix_ok, bind_Ok by (unfold zlen in *; lia).
  split; [done|]. split; [done|]. apply (segs_ok_add g ids J bss bs prev l (g_next g)); [done|done|lia|done|].
  intros j Ej. assert (j = S J) as -> by (apply level_ix_inj; cbn [level_ix]; unfold zlen in *; lia).
  eexists. split; [done|]. split; [done|]. split; [unfold zlen in *; rewrite length_insert; lia|].
  intros k y [[Hk Ek]|[-> <-]]%lookup_snoc_Some; [|apply list_lookup_insert_eq; unfold zlen in *; lia].
  rewrite list_lookup_insert_ne by lia. subst t0. apply lookup_app_l_Some. apply Hent; [done|]. unfold zlen in *. lia.
Qed.

Lemma alloc_seg_ok g B :
  represents g B → (∀ n, alloc_succeeds n = true) →
  ∃ g', alloc_seg g = Ok (true, g') ∧ represents g' (B ++ replicate (Z.to_nat SEGSZ) []) ∧ g_nslots g' = g_nslots g + SEGSZ.
Proof.
  intros (ids & J & bss & Hs & Ht & ->) Hal. unfold alloc_seg. rewrite (nslots_segments _ _ _ _ Hs), (so_nsegs _ _ _ _ Hs).
  assert (∀ g0 g' J', segs_ok g0 ids J' bss → segs_ok g' (ids ++ [g_next g]) J' (bss ++ [replicate (Z.to_nat SEGSZ) []]) →
    represents g' (concat bss ++ replicate (Z.to_nat SEGSZ) [])) as Hrep.
  { intros g0 g' J' H0 Hs'. exists (ids ++ [g_next g]), J'. eexists. split; [exact Hs'|]. split; [|rewrite concat_app; cbn; by rewrite app_nil_r].
    destruct (so_level _ _ _ _ H0) as [Hlo _]. unfold tight. rewrite zlen_app. change (zlen [g_next g]) with 1. pose proof (zlen_nonneg ids). destruct J'; lia. }
  destruct (Z.eqb_spec (Z.of_nat (length ids) + 1) (level_size J)) as [E|Ne].
  - destruct (alloc_ext_ok g ids J bss Hs E (Hal _)) as (g1 & g' & E1 & E2 & En & Hs'). rewrite E1, bind_Ok, E2, bind_Ok, En.
    eexists. split; [done|]. split; [by eapply Hrep|done].
  - destruct (Z.eqb_spec (Z.of_nat (length ids)) (level_size J)) as [E|Ne2].
    + destruct (segs_ok_switch g ids J bss Hs E) as (id & bs & prev & l & E1 & Eh & Hs1).
      rewrite E1, bind_Ok, (deref_segment_ok _ _ _ Eh), bind_Ok. cbn [table_of s_ext]. rewrite !bind_Ok. cbn [e_nsegs]. rewrite Hal. cbn [negb].
      destruct (alloc_plain_ok _ _ _ _ Hs1) as (g' & E2 & En & Hs'); [unfold zlen; rewrite E; destruct J; cbn; lia|].
      change (alloc_segment (SET_SEGTAB g id (level_size (S J))) None)
        with (g_next g, (alloc_segment (SET_SEGTAB g id (level_size (S J))) None).2). cbv iota beta.
      change (g_next (SET_SEGTAB g id (level_size (S J)))) with (g_next g) in E2. rewrite E2, bind_Ok, En.
      eexists. split; [done|]. split; [eapply Hrep; [exact Hs1|exact Hs']|done].
    + rewrite bind_Ok, Hal. cbn [negb]. destruct (so_level _ _ _ _ Hs) as [_ Hle]. unfold zlen in Hle.
      destruct (alloc_plain_ok _ _ _ _ Hs) as (g' & E2 & En & Hs'); [unfold zlen; lia|].
      change (alloc_segment g None) with (g_next g, (alloc_segment g None).2). cbv iota beta. rewrite E2, bind_Ok, En.
      eexists. split; [done|]. split; [by eapply Hrep|done].
Qed.

(** ** The last segment is freed *)

Lemma segs_ok_remove g ids id J0 J bss bs p :
  segs_ok g (ids ++ [id]) J0 (bss ++ [bs]) → ids !! Z.to_nat (level_ix J) = Some p →
  (match J with O => True | S j => level_size j <= zlen ids end) ∧ zlen ids <= level_size J →
  segs_ok (mk_segs (delete id (g_heap g)) (g_next g) p (level_size J) (g_nslots g - SEGSZ)) ids J bss.
Proof.
  intros [Hlen Hnd Hfr Hh Hsz Hsl Htab Hns Hlv Hext] Ep HJ. rewrite !length_app in Hlen. cbn in Hlen.
  apply NoDup_app in Hnd as (Hnd & Hnot & _). assert (∀ i y, ids !! i = Some y → y ≠ id) as Hne.
  { intros i y Ey ->. apply (Hnot id); [by eapply list_elem_of_lookup_2|by apply list_elem_of_singleton]. }
  split; cbn; try done.
  - lia.
  - intros y Hy. apply Hfr, elem_of_app. by left.
  - intros i y b Ey Eb. destruct (Hh i y b) as [x Ex]; [by apply lookup_app_l_Some|by apply lookup_app_l_Some|]. exists x.
    rewrite lookup_delete_ne; [done|]. apply not_eq_sym. by eapply Hne.
  - by apply Forall_app in Hsz as [? _].
  - rewrite Hsl, zlen_app. change (zlen [id]) with 1. lia.
  - intros j y Ey. destruct (Hext j y) as (b & prev & l & Eh & Hl & Hent & Hpr); [by apply lookup_app_l_Some|].
    exists b, prev, l. rewrite lookup_delete_ne by (apply not_eq_sym; by eapply Hne). split; [done|]. split; [done|]. split.
    + intros k y' Ek. apply Hent. by apply lookup_app_l_Some.
    + destruct j as [|j]; [done|]. destruct Hpr as (q & -> & Eq). exists q. split; [done|].
      rewrite lookup_app_l in Eq; [done|]. apply lookup_lt_Some in Ey. pose proof (level_ix_mono j (S j)). pose proof (level_ix_size j). lia.
Qed.

Lemma free_seg_ok g B T fr :
  represents g (B ++ T) → length T = Z.to_nat SEGSZ → B ≠ [] →
  ∃ n g', free_seg g fr = Ok (n, g') ∧ represents g' B ∧ g_nslots g' = g_nslots g - SEGSZ.
Proof.
  intros (ids & J & bss & Hs & Ht & E) HT HB.
  destruct bss as [|bs bss _] using rev_ind; [by destruct B, T|].
  destruct ids as [|id ids _] using rev_ind; [pose proof (so_len _ _ _ _ Hs) as Hl; rewrite length_app in Hl; cbn in Hl; lia|].
  assert (B = concat bss ∧ T = bs) as [-> ->].
  { rewrite concat_app in E. cbn in E. rewrite app_nil_r in E. apply app_inj_2 in E; [done|]. rewrite HT.
    pose proof (so_size _ _ _ _ Hs) as Hsz. apply Forall_app in Hsz as [_ Hsz]. apply Forall_inv in Hsz. by rewrite Hsz. }
  clear E. pose proof (so_len _ _ _ _ Hs) as Hlen. rewrite !length_app in Hlen. cbn in Hlen.
  assert (1 <= length ids)%nat as Hpos by (destruct bss; [done|cbn in *; lia]).
  assert (zlen (ids ++ [id]) = Z.of_nat (length ids) + 1) as Hz by (rewrite zlen_app; done).
  pose proof (so_level _ _ _ _ Hs) as [Hlo Hhi]. rewrite Hz in *. pose proof (level_ix_size J) as HJ.
  assert (NoDup ids ∧ id ∉ ids) as [Hnd Hid].
  { pose proof (so_nodup _ _ _ _ Hs) as (Hnd & Hnot & _)%NoDup_app. split; [done|]. intros Hin. by apply (Hnot id Hin), list_elem_of_singleton. }
  unfold free_seg. rewrite (nslots_segments _ _ _ _ Hs), length_app. cbn [length].
  replace (Z.of_nat (length ids + 1) - 1) with (Z.of_nat (length ids)) by lia.
  rewrite (SEGTAB_at_ok _ _ _ _ (length ids) id Hs), bind_Ok by (by apply list_lookup_middle).
  destruct (so_heap _ _ _ _ Hs (length ids) id bs) as [x Ex]; [by apply list_lookup_middle|by apply list_lookup_middle; lia|].
  rewrite (deref_segment_ok _ _ _ Ex), bind_Ok. rewrite (so_nsegs _ _ _ _ Hs).
  assert (∀ J' p, ids !! Z.to_nat (level_ix J') = Some p → tight ids J' → zlen ids <= level_size J' →
    represents (mk_segs (delete id (g_heap g)) (g_next g) p (level_size J') (g_nslots g - SEGSZ)) (concat bss)) as Hrep.
  { intros J' p Ep Ht' Hle. exists ids, J', bss. split; [|done]. eapply segs_ok_remove; [exact Hs|done|]. split; [|done].
    destruct J'; [done|]. cbn in Ht'. lia. }
  assert (ids !! Z.to_nat (level_ix J) = Some (g_segtab g) → tight ids J → zlen ids <= level_size J →
    represents (set_nslots (set_heap g (delete id (g_heap g))) (g_nslots g - SEGSZ)) (concat bss)) as Hkeep.
  { intros Ep Ht' Hle. pose proof (Hrep J (g_segtab g) Ep Ht' Hle) as Hr. by rewrite <- (so_nsegs _ _ _ _ Hs) in Hr. }
  assert (∀ k y, ids !! k = Some y → (ids ++ [id]) !! k = Some y) as Hin by (intros; by apply lookup_app_l_Some).
  rewrite (proj2 (Z.eqb_neq (Z.of_nat (length ids)) 0)), orb_false_r by lia.
  destruct (Z.eqb_spec (Z.of_nat (length ids)) (level_size J - 1)) as [En|Nn].
  - destruct (so_ext _ _ _ _ Hs (S J) id) as (b & prev & l & Eh & _); [cbn [level_ix]; apply list_lookup_middle; lia|].
    rewrite Ex in Eh. injection Eh as -> ->. cbn [table_of s_ext]. rewrite !bind_Ok. eexists _, _. split; [done|]. split; [|done].
    apply Hkeep.
    + pose proof (so_tab _ _ _ _ Hs) as Etab. rewrite lookup_app_l in Etab; [done|]. destruct J as [|[|J]]; cbn in *; lia.
    + unfold tight. destruct J as [|J]; [unfold zlen; lia|]. unfold zlen. destruct J; cbn in *; lia.
    + unfold zlen. lia.
  - destruct (lookup_lt_is_Some_2 ids (length ids - 1)) as [newtop Enew]; [lia|].
    replace (Z.of_nat (length ids) - 1) with (Z.of_nat (length ids - 1)) by lia. rewrite (SEGTAB_at_ok _ _ _ _ _ _ Hs (Hin _ _ Enew)), bind_Ok.
    destruct (bool_decide_reflect (g_segtab g = newtop)) as [Etab|Ntab].
    + assert (Z.to_nat (level_ix J) = (length ids - 1)%nat) as Eix.
      { eapply (NoDup_lookup (ids ++ [id])); [apply (so_nodup _ _ _ _ Hs)|apply (so_tab _ _ _ _ Hs)|]. rewrite Etab. by apply Hin. }
      destruct J as [|j]; [cbn in *; lia|]. pose proof (level_ix_mono j (S j) ltac:(lia)). pose proof (level_ix_size j).
      destruct (so_ext _ _ _ _ Hs (S j) newtop) as (b & prev & l & Eh & _ & _ & p & -> & Ep); [rewrite Eix; by apply Hin|].
      rewrite (deref_segment_ok _ _ _ Eh), bind_Ok. cbn [table_of s_ext]. rewrite !bind_Ok. cbn [prev_segtab]. eexists _, _. split; [done|]. split; [|done].
      cbn [set_nslots set_heap SET_SEGTAB g_segtab g_nsegs g_nslots g_heap g_next].
      assert (Z.of_nat (length ids) = level_size j) as -> by (cbn [level_ix] in *; lia). rewrite lookup_app_l in Ep by lia. apply Hrep; [done| |unfold zlen; cbn [level_ix] in *; lia].
      unfold tight. destruct j as [|j]; [unfold zlen; lia|]. pose proof (level_size_mono j (S j)). unfold zlen. cbn [level_ix] in *. lia.
    + rewrite bind_Ok. eexists _, _. split; [done|]. split; [|done].
      apply Hkeep.
      * pose proof (so_tab _ _ _ _ Hs) as Etab. apply lookup_snoc_Some in Etab as [[_ ?]|[Eix _]]; [done|]. exfalso. destruct J as [|j]; cbn in *; lia.
      * unfold tight in *. rewrite Hz in Ht. unfold zlen. destruct J as [|j]; [lia|]. destruct (Z.eq_dec (Z.of_nat (length ids)) (level_size j)) as [Ee|]; [|lia].
        exfalso. apply Ntab. pose proof (so_tab _ _ _ _ Hs) as Etab. cbn [level_ix] in Etab.
        replace (Z.to_nat (level_size j - 1)) with (length ids - 1)%nat in Etab by lia. rewrite (Hin _ _ Enew) in Etab. congruence.
      * unfold zlen. lia.
Qed.

Lemma new_segs_ok g :
  (∀ n, alloc_succeeds n = true) →
  ∃ g', new_segs g = Ok g' ∧ represents g' (replicate (Z.to_nat SEGSZ) []) ∧ g_nslots g' = SEGSZ.
Proof.
  intros Hal. unfold new_segs, alloc_ext_seg. rewrite Hal. cbn [negb Z.eqb]. rewrite bind_Ok. eexists. split; [done|]. split; [|done].
  exists [g_next g], 0%nat, [replicate (Z.to_nat SEGSZ) []]. split; [|split; [done|cbn; by rewrite app_nil_r]].
  split; cbn [set_nslots SET_SEGTAB alloc_segment g_heap g_next g_segtab g_nsegs g_nslots]; try done.
  - apply NoDup_singleton.
  - intros id ->%list_elem_of_singleton. lia.
  - intros [|i] id bs [= <-] [= <-]. eexists. by rewrite lookup_insert_eq.
  - apply Forall_singleton, length_replicate.
  - intros j id Ej. assert (j = 0)%nat as ->.
    { destruct j as [|j]; [done|]. apply lookup_lt_Some in Ej. pose proof (level_ix_mono 0 (S j)). cbn in *. lia. }
    injection Ej as <-. eexists _, _, _. rewrite lookup_insert_eq. split; [done|]. split; [done|]. split; [|done].
    intros [|k] id' E Hk; [injection E as <-; done|done].
Qed.

(** The length of the list of buckets. *)
Lemma represents_length g B : represents g B → g_nslots g = zlen B.
Proof.
  intros (ids & J & bss & Hs & _ & ->). rewrite (so_slots _ _ _ _ Hs). unfold zlen. rewrite (length_concat_const (Z.to_nat SEGSZ)) by apply (so_size _ _ _ _ Hs).
  rewrite (so_len _ _ _ _ Hs). unfold SEGSZ. lia.
Qed.

Lemma represents_segments g B : represents g B → ∃ n, (1 <= n)%nat ∧ length B = (Z.to_nat SEGSZ * n)%nat.
Proof.
  intros (ids & J & bss & Hs & Ht & ->). exists (length bss). rewrite (length_concat_const (Z.to_nat SEGSZ)) by apply (so_size _ _ _ _ Hs).
  split; [|done]. rewrite (so_len _ _ _ _ Hs). unfold tight, zlen in Ht. destruct J as [|j]; [lia|]. destruct j; cbn in Ht; lia.
Qed.

(** The first segment is the last one to be freed. *)
Lemma free_seg_last g T fr : represents g T → length T = Z.to_nat SEGSZ → ∃ n g', free_seg g fr = Ok (n, g') ∧ g_nslots g' = 0.
Proof.
  intros Hr HT. pose proof (represents_length _ _ Hr) as Hl. assert (g_nslots g = SEGSZ) as Hn by (rewrite Hl; unfold zlen, SEGSZ in *; lia).
  destruct Hr as (ids & J & bss & Hs & Ht & E). assert (length ids = 1%nat) as Hids.
  { pose proof (so_slots _ _ _ _ Hs) as Hsl. unfold zlen, SEGSZ in *. lia. }
  destruct ids as [|id [|]]; [done| |done]. assert (J = O) as ->. { destruct J as [|[|j]]; [done|..]; unfold tight, zlen in Ht; cbn in Ht; lia. }
  destruct (so_ext _ _ _ _ Hs 0%nat id eq_refl) as (bs & prev & l & Eh & _).
  unfold free_seg. rewrite Hn. change (Z.shiftr SEGSZ SEGSZ_EXP - 1) with (Z.of_nat 0). rewrite (SEGTAB_at_ok _ _ _ _ 0 id Hs), bind_Ok by done.
  rewrite (deref_segment_ok _ _ _ Eh), bind_Ok. cbn [Z.of_nat]. rewrite orb_true_r. cbn [table_of s_ext]. rewrite !bind_Ok. eexists _, _. split; [done|]. cbn. lia.
Qed.

(** Freeing the segments one after the other. *)
Definition freeing g : Prop := g_nslots g = 0 ∨ ∃ B, represents g B.

Lemma free_seg_freeing g fr : freeing g → g_nslots g ≠ 0 → ∃ n g', free_seg g fr = Ok (n, g') ∧ freeing g' ∧ 0 <= g_nslots g' < g_nslots g.
Proof.
  intros [?|[B Hr]] Hn; [done|]. pose proof (represents_length _ _ Hr) as Hl. destruct (represents_segments _ _ Hr) as (m & Hm & Hlen).
  destruct (decide (m = 1%nat)) as [->|Hne].
  - destruct (free_seg_last _ _ fr Hr ltac:(lia)) as (n & g' & -> & E). exists n, g'. split; [done|]. rewrite E.
    split; [by left|]. rewrite Hl in *. pose proof (zlen_nonneg B). lia.
  - rewrite <- (take_drop (Z.to_nat SEGSZ * (m - 1))%nat B) in Hr. destruct (free_seg_ok g _ _ fr Hr) as (n & g' & -> & Hr' & E).
    + rewrite length_drop. unfold SEGSZ in *. lia.
    + intros E%(f_equal length). rewrite length_take in E. cbn [length] in E. unfold SEGSZ in *. lia.
    + exists n, g'. split; [done|]. split; [right; eauto|]. rewrite E, Hl. unfold zlen, SEGSZ in *. lia.
Qed.

End Proofs.
