(* ===== verification/DbHash.v ===== *)
(** ETS tables of the types set, bag and duplicate_bag (erts/emulator/beam/erl_db_hash.c):
    linear hashing, with one bucket split or joined at a time, and the deletion of
    objects of a table that is fixed, which are only marked until it is released.

    A bucket is the list of its objects, the first one first.  A table operation runs
    under the lock of the table, so that it is atomic here; [is_resizing] and the race
    checks are kept.  Terms, the position of the key in an object and the hash function
    are parameters. *)
From S2P Require Import Prelude DbSeg.

Definition CHAIN_LEN : Z := 6.
Definition DB_HASH_LOCK_CNT : Z := 64.
Definition DB_HASH_LOCK_MASK : Z := 63.
Definition DELETE_RECORD_LIMIT : Z := 10000.
Definition MAX_HASH : Z := 4026531839.
Definition INVALID_HASH : Z := 4294967295.

Inductive db_error :=
  DB_ERROR_NONE | DB_ERROR_BADITEM | DB_ERROR_BADTABLE | DB_ERROR_SYSRES | DB_ERROR_BADKEY | DB_ERROR_BADPARAM | DB_ERROR_UNSPEC.
Inductive table_type := DB_SET | DB_BAG | DB_DUPLICATE_BAG.

#[export] Instance table_type_eq_dec : EqDecision table_type.
Proof. solve_decision. Defined.

(** Objects are tuples with a key; [EQ] and [db_eq] are equality. *)
Class DbTerms (term obj : Type) := {
  term_eq_dec :: EqDecision term;
  obj_eq_dec :: EqDecision obj;
  GETKEY : obj → term;
  arityval : obj → Z;
  tpl : obj → Z → term;
  set_key : obj → term → obj;
  internal_hash : term → Z }.

Record HashDbTerm (obj : Type) := mk_term { hvalue : Z; dbterm : obj }.
Arguments mk_term {obj} _ _.
Arguments hvalue {obj} _.
Arguments dbterm {obj} _.

Record DbTableHash (obj : Type) := mk_table {
  t_type : table_type;
  nitems : Z;
  nfixed : Z;
  fixdel : list Z;
  szm : Z;
  nactive : Z;
  is_resizing : bool;
  t_segs : segs (HashDbTerm obj) }.
Arguments mk_table {obj} _ _ _ _ _ _ _ _.
Arguments t_type {obj} _.
Arguments nitems {obj} _.
Arguments nfixed {obj} _.
Arguments fixdel {obj} _.
Arguments szm {obj} _.
Arguments nactive {obj} _.
Arguments is_resizing {obj} _.
Arguments t_segs {obj} _.

Section Model.
Context `{SegMemory} {term obj : Type} `{DbTerms term obj}.
Abbreviation hterm := (HashDbTerm obj).
Abbreviation table := (DbTableHash obj).
Implicit Types (tb : table) (b : hterm) (c : list hterm).

Definition set_nitems tb n : table :=
  mk_table (t_type tb) n (nfixed tb) (fixdel tb) (szm tb) (nactive tb) (is_resizing tb) (t_segs tb).
Definition set_nfixed tb n : table :=
  mk_table (t_type tb) (nitems tb) n (fixdel tb) (szm tb) (nactive tb) (is_resizing tb) (t_segs tb).
Definition set_fixdel tb l : table :=
  mk_table (t_type tb) (nitems tb) (nfixed tb) l (szm tb) (nactive tb) (is_resizing tb) (t_segs tb).
Definition set_szm_active tb s n : table :=
  mk_table (t_type tb) (nitems tb) (nfixed tb) (fixdel tb) s n (is_resizing tb) (t_segs tb).
Definition set_resizing tb r : table :=
  mk_table (t_type tb) (nitems tb) (nfixed tb) (fixdel tb) (szm tb) (nactive tb) r (t_segs tb).
Definition set_segs tb g : table :=
  mk_table (t_type tb) (nitems tb) (nfixed tb) (fixdel tb) (szm tb) (nactive tb) (is_resizing tb) g.

Definition bucket tb (ix : Z) : res (list hterm) := BUCKET (t_segs tb) ix.
Definition put_bucket tb (ix : Z) c : res table := g ← set_BUCKET (t_segs tb) ix c; Ok (set_segs tb g).

Definition NACTIVE tb : Z := to_int (nactive tb).
Definition NITEMS tb : Z := to_int (nitems tb).
Definition IS_FIXED tb : bool := negb (nfixed tb =? 0).

Definition MAKE_HASH (key : term) : Z := internal_hash key mod MAX_HASH.

Definition hash_to_ix tb (hval : Z) : Z :=
  let mask := szm tb in
  let ix := Z.land hval mask in
  if ix >=? nactive tb then Z.land ix (Z.shiftr mask 1) else ix.

(** * Objects *)

Definition deleted b : bool := hvalue b =? INVALID_HASH.
Definition EQ (key : term) b : bool := bool_decide (key = GETKEY (dbterm b)).

Definition has_live_key b (key : term) (hval : Z) : bool :=
  if negb (hvalue b =? hval) then false else EQ key b.

Definition has_key b (key : term) (hval : Z) : bool :=
  if negb (hvalue b =? hval) && negb (deleted b) then false else EQ key b.

Definition pseudo_delete b : hterm := mk_term INVALID_HASH (dbterm b).

(** The slot of a pseudo-deleted object is noted, unless the table is not fixed. *)
Definition add_fixed_deletion tb (ix fixated_by_me : Z) : bool * table :=
  if nfixed tb <=? fixated_by_me then (false, tb) else (true, set_fixdel tb (ix :: fixdel tb)).

(** The chain up to the first object with [f], and the rest. *)
Fixpoint split_at (f : hterm → bool) c : list hterm * list hterm :=
  match c with
  | [] => ([], [])
  | b :: c' => if f b then ([], c) else let '(pre, post) := split_at f c' in (b :: pre, post)
  end.

(** The next slot to visit, or 0: the slots of one lock after those of another. *)
Definition next_slot tb (ix : Z) : Z :=
  let ix := ix + DB_HASH_LOCK_CNT in
  if ix <? NACTIVE tb then ix else Z.land (ix + 1) DB_HASH_LOCK_MASK.

(** * Growing and shrinking *)

Definition begin_resizing tb : bool * table :=
  if is_resizing tb then (false, tb) else (true, set_resizing tb true).
Definition done_resizing tb : table := set_resizing tb false.

(** The chain is split in two, keeping the order: [cur] is the reversed chain that the
    last object was left in, [oth] the other one, [from] the index that stays in [cur];
    [swapped]: [cur] is the chain of the new bucket. *)
Fixpoint split_chain (mask from : Z) (swapped : bool) c (cur oth : list hterm) : list hterm * list hterm :=
  match c with
  | [] => if swapped then (rev oth, rev cur) else (rev cur, rev oth)
  | p :: c =>
      if deleted p then split_chain mask from swapped c cur oth
      else
        let ix := to_int (Z.land (hvalue p) mask) in
        if negb (ix =? from) then split_chain mask ix (negb swapped) c (p :: oth) cur
        else split_chain mask from swapped c (p :: cur) oth
  end.

Definition grow tb (n : Z) : res table :=
  let '(ok, tb) := begin_resizing tb in
  if negb ok then Ok tb
  else if negb (NACTIVE tb =? n) then Ok (done_resizing tb)
  else
    '(ok, tb) ← (if n =? g_nslots (t_segs tb) then '(ok, g) ← alloc_seg (t_segs tb); Ok (ok, set_segs tb g) else Ok (true, tb));
    if negb ok then Ok (done_resizing tb)
    else
      let mask := to_int (szm tb) in
      let '(from_ix, mask) := if n <=? mask then (Z.land n (Z.shiftr mask 1), mask)
                              else (0, to_int (Z.lor (Z.shiftl mask 1) 1)) in
      if IS_FIXED tb then Ok (done_resizing tb)
      else
        let tb := set_szm_active tb (if from_ix =? 0 then mask else szm tb) (nactive tb + 1) in
        let tb := done_resizing tb in
        p ← bucket tb from_ix;
        let '(stay, move) := split_chain mask from_ix false p [] [] in
        tb ← put_bucket tb from_ix stay;
        put_bucket tb n move.

Definition shrink tb (n : Z) : res table :=
  let '(ok, tb) := begin_resizing tb in
  if negb ok then Ok tb
  else if NACTIVE tb =? n then
    let src_ix := n - 1 in
    let low_szm := Z.shiftr (to_int (szm tb)) 1 in
    let dst_ix := Z.land src_ix low_szm in
    if negb (IS_FIXED tb) then
      src ← bucket tb src_ix;
      dst ← bucket tb dst_ix;
      tb ← put_bucket tb dst_ix (filter (λ b, deleted b = false) src ++ dst);
      tb ← put_bucket tb src_ix [];
      let tb := set_szm_active tb (if dst_ix =? 0 then low_szm else szm tb) src_ix in
      if g_nslots (t_segs tb) - src_ix >=? SEGSZ then
        '(_, g) ← free_seg (t_segs tb) false; Ok (done_resizing (set_segs tb g))
      else Ok (done_resizing tb)
    else Ok (done_resizing tb)
  else Ok (done_resizing tb).

Definition try_shrink tb : res table :=
  let n := NACTIVE tb in
  if (n >? SEGSZ) && (NITEMS tb <? n * CHAIN_LEN) && negb (IS_FIXED tb) then shrink tb n else Ok tb.

(** After an object was added. *)
Definition try_grow tb : res table :=
  let items := to_int (nitems tb) in
  let n := NACTIVE tb in
  if (items >? n * (CHAIN_LEN + 1)) && negb (IS_FIXED tb) then grow tb n else Ok tb.

(** * Creation and deletion of a table *)

Definition db_create_hash tb : res table :=
  g ← new_segs (t_segs tb);
  Ok (mk_table (t_type tb) (nitems tb) (nfixed tb) [] SEGSZ_MASK SEGSZ false g).

(** Segments are freed until [done] reaches the limit; the result: all are. *)
Fixpoint free_segs (fuel : nat) (g : segs hterm) (did : Z) : res (bool * segs hterm) :=
  if negb (g_nslots g =? 0) then
    match fuel with
    | O => NoFuel
    | S fuel =>
        '(_, g) ← free_seg g true;
        if did + 1 >=? DELETE_RECORD_LIMIT / CHAIN_LEN / SEGSZ then Ok (false, g) else free_segs fuel g (did + 1)
    end
  else Ok (true, g).

Definition db_free_table_continue_hash tb : res (bool * table) :=
  let limit := 2 * DELETE_RECORD_LIMIT in
  if zlen (fixdel tb) >=? limit then Ok (false, set_fixdel tb (drop (Z.to_nat limit) (fixdel tb)))
  else
    '(r, g) ← free_segs (Z.to_nat (g_nslots (t_segs tb))) (t_segs tb) (zlen (fixdel tb) / 2);
    Ok (r, set_segs (set_fixdel tb []) g).

Fixpoint db_free_table_hash (fuel : nat) tb : res table :=
  match fuel with
  | O => NoFuel
  | S fuel => '(r, tb) ← db_free_table_continue_hash tb; if (r : bool) then Ok tb else db_free_table_hash fuel tb
  end.

(** * Fixation *)

(** [safe_fixtable(true)] and the implicit fixation by other functions. *)
Definition fix_table tb : table := set_nfixed tb (nfixed tb + 1).

Fixpoint purge_slots (ixs : list Z) tb : res table :=
  match ixs with
  | [] => Ok tb
  | ix :: ixs =>
      tb ← (if ix <? NACTIVE tb then
              c ← bucket tb ix; put_bucket tb ix (filter (λ b, deleted b = false) c)
            else Ok tb);
      purge_slots ixs tb
  end.

(** A table that has been fixed again keeps its list. *)
Definition db_unfix_table_hash tb : res table :=
  if IS_FIXED tb then Ok tb else purge_slots (fixdel tb) (set_fixdel tb []).

Definition unfix_table tb : res table :=
  let tb := set_nfixed tb (nfixed tb - 1) in
  if negb (IS_FIXED tb) then db_unfix_table_hash tb else Ok tb.

(** * Insertion *)

(** Lnew: a new object between [pre] and [post]. *)
Definition put_new tb (ix hval : Z) (o : obj) (pre post : list hterm) : res (db_error * table) :=
  tb ← put_bucket tb ix (pre ++ mk_term hval o :: post);
  tb ← try_grow (set_nitems tb (nitems tb + 1));
  Ok (DB_ERROR_NONE, tb).

(** An object that is alive among those with the key at the beginning. *)
Fixpoint live_in_run (key : term) (hval : Z) (first : bool) c : bool :=
  match c with
  | [] => false
  | q :: c => if first || has_key q key hval then negb (deleted q) || live_in_run key hval false c else false
  end.

(** The object [o] among those with the key at the beginning: what is before it, it, and
    what is after it. *)
Fixpoint find_in_run (key : term) (hval : Z) (o : obj) (first : bool) c : option (list hterm * hterm * list hterm) :=
  match c with
  | [] => None
  | q :: c =>
      if first || has_key q key hval then
        if bool_decide (o = dbterm q) then Some ([], q, c)
        else '(pre, q', post) ← find_in_run key hval o false c; Some (q :: pre, q', post)
      else None
  end.

Definition db_put_hash tb (o : obj) (key_clash_fail : bool) : res (db_error * table) :=
  let key := GETKEY o in
  let hval := MAKE_HASH key in
  let ix := hash_to_ix tb hval in
  c ← bucket tb ix;
  let '(pre, post) := split_at (λ b, has_key b key hval) c in
  match post with
  | [] => put_new tb ix hval o pre []
  | b :: bnext =>
      match t_type tb with
      | DB_SET =>
          if negb (deleted b) && key_clash_fail then Ok (DB_ERROR_BADKEY, tb)
          else
            let tb := if deleted b then set_nitems tb (nitems tb + 1) else tb in
            tb ← put_bucket tb ix (pre ++ mk_term hval o :: bnext);
            Ok (DB_ERROR_NONE, tb)
      | ty =>
          if key_clash_fail then
            if live_in_run key hval true post then Ok (DB_ERROR_BADKEY, tb) else put_new tb ix hval o pre post
          else if bool_decide (ty = DB_BAG) then
            match find_in_run key hval o true post with
            | Some (qpre, q, qpost) =>
                if deleted q then
                  let tb := set_nitems tb (nitems tb + 1) in
                  tb ← put_bucket tb ix (pre ++ mk_term hval (dbterm q) :: qpre ++ qpost);
                  Ok (DB_ERROR_NONE, tb)
                else Ok (DB_ERROR_NONE, tb)
            | None => put_new tb ix hval o pre post
            end
          else put_new tb ix hval o pre post
      end
  end.

(** * Lookup *)

(** The objects that are alive, consed to a list one after the other. *)
Definition build_term_list c : list obj := rev (dbterm <$> filter (λ b, deleted b = false) c).

(** The objects with the key of the first one, and what is after them. *)
Definition get_term_list tb (key : term) (hval : Z) (b1 : hterm) (rest : list hterm) : list obj * list hterm :=
  match t_type tb with
  | DB_SET => (build_term_list [b1], rest)
  | _ =>
      let '(run, bend) := split_at (λ b, negb (has_key b key hval)) rest in (build_term_list (b1 :: run), bend)
  end.

Definition db_get_hash tb (key : term) : res (list obj) :=
  let hval := MAKE_HASH key in
  c ← bucket tb (hash_to_ix tb hval);
  match (split_at (λ b, has_live_key b key hval) c).2 with
  | [] => Ok []
  | b :: rest => Ok (get_term_list tb key hval b rest).1
  end.

Definition db_member_hash tb (key : term) : res bool :=
  let hval := MAKE_HASH key in
  c ← bucket tb (hash_to_ix tb hval);
  Ok (existsb (λ b, has_live_key b key hval) c).

Definition db_get_element_hash tb (key : term) (ndex : Z) : res (db_error * list term) :=
  let hval := MAKE_HASH key in
  c ← bucket tb (hash_to_ix tb hval);
  match (split_at (λ b, has_live_key b key hval) c).2 with
  | [] => Ok (DB_ERROR_BADKEY, [])
  | b1 :: rest =>
      if ndex >? arityval (dbterm b1) then Ok (DB_ERROR_BADITEM, [])
      else match t_type tb with
      | DB_SET => Ok (DB_ERROR_NONE, [tpl (dbterm b1) ndex])
      | _ =>
          let run := (split_at (λ b, negb (has_key b key hval)) rest).1 in
          if existsb (λ b, (ndex >? arityval (dbterm b)) && negb (deleted b)) run then Ok (DB_ERROR_BADITEM, [])
          else Ok (DB_ERROR_NONE, (λ o, tpl o ndex) <$> build_term_list (b1 :: run))
      end
  end.

Definition db_slot_hash tb (slot : Z) : res (db_error * option (list obj)) :=
  if slot <? 0 then Ok (DB_ERROR_BADPARAM, None)
  else
    let n := NACTIVE tb in
    if slot <? n then c ← bucket tb slot; Ok (DB_ERROR_NONE, Some (build_term_list c))
    else if slot =? n then Ok (DB_ERROR_NONE, None)
    else Ok (DB_ERROR_BADPARAM, None).

(** * Iteration *)

(** The first object that is alive from the slots after [ix] on. *)
Fixpoint next_in_slots (fuel : nat) tb (ix : Z) : res (option (Z * hterm * list hterm)) :=
  match fuel with
  | O => NoFuel
  | S fuel =>
      let i := next_slot tb ix in
      if i =? 0 then Ok None
      else
        c ← bucket tb i;
        match (split_at (λ b, negb (deleted b)) c).2 with
        | b :: rest => Ok (Some (i, b, rest))
        | [] => next_in_slots fuel tb i
        end
  end.

(** [next]: [rest] is what is after the object in its bucket. *)
Definition next tb (ix : Z) (rest : list hterm) : res (option (Z * hterm * list hterm)) :=
  match (split_at (λ b, negb (deleted b)) rest).2 with
  | b :: rest => Ok (Some (ix, b, rest))
  | [] => next_in_slots (Z.to_nat (nactive tb)) tb ix
  end.

(** The loop of [db_first_hash]: the first bucket that is not empty. *)
Fixpoint first_bucket (fuel : nat) tb (ix : Z) : res (option (Z * hterm * list hterm)) :=
  match fuel with
  | O => NoFuel
  | S fuel =>
      c ← bucket tb ix;
      match c with
      | b :: rest => if deleted b then next tb ix rest else Ok (Some (ix, b, rest))
      | [] => let i := next_slot tb ix in if i =? 0 then Ok None else first_bucket fuel tb i
      end
  end.

Definition key_of (r : option (Z * hterm * list hterm)) : option term := (λ '(_, b, _), GETKEY (dbterm b)) <$> r.

Definition db_first_hash tb : res (option term) :=
  r ← first_bucket (Z.to_nat (nactive tb)) tb 0; Ok (key_of r).

(** The other objects of a bag with the key are passed over. *)
Fixpoint skip_key (fuel : nat) tb (key : term) (hval : Z) (r : option (Z * hterm * list hterm)) :
    res (option (Z * hterm * list hterm)) :=
  match r with
  | Some (ix, b, rest) =>
      if negb (has_live_key b key hval) then Ok r
      else match fuel with
      | O => NoFuel
      | S fuel => r ← next tb ix rest; skip_key fuel tb key hval r
      end
  | None => Ok None
  end.

(** The key after [key]; [None]: [key] is not in the table. *)
Definition db_next_hash tb (key : term) : res (option (option term)) :=
  let hval := MAKE_HASH key in
  let ix := hash_to_ix tb hval in
  c ← bucket tb ix;
  match (split_at (λ b, has_key b key hval) c).2 with
  | [] => Ok None
  | _ :: rest =>
      r ← next tb ix rest;
      r ← (if bool_decide (t_type tb = DB_SET) then Ok r else skip_key (S (length c)) tb key hval r);
      Ok (Some (key_of r))
  end.

(** * Deletion *)

(** The loop of [db_erase_hash]: [diff] objects have been deleted so far. *)
Fixpoint erase_key_loop tb (ix : Z) (key : term) (hval diff : Z) c : list hterm * Z * table :=
  match c with
  | [] => ([], diff, tb)
  | b :: c' =>
      if has_live_key b key hval then
        let '(fixed, tb) := if (diff - 1 =? -1) && IS_FIXED tb then add_fixed_deletion tb ix 0 else (false, tb) in
        let '(l, diff, tb) := erase_key_loop tb ix key hval (diff - 1) c' in
        (if (fixed : bool) then pseudo_delete b :: l else l, diff, tb)
      else if negb (diff =? 0) && negb (deleted b) then (c, diff, tb)
      else let '(l, diff, tb) := erase_key_loop tb ix key hval diff c' in (b :: l, diff, tb)
  end.

(** What the functions do after the loop. *)
Definition erased tb (diff : Z) : res table :=
  if negb (diff =? 0) then try_shrink (set_nitems tb (nitems tb + diff)) else Ok tb.

Definition db_erase_hash tb (key : term) : res table :=
  let hval := MAKE_HASH key in
  let ix := hash_to_ix tb hval in
  c ← bucket tb ix;
  let '(c, diff, tb) := erase_key_loop tb ix key hval 0 c in
  tb ← put_bucket tb ix c;
  erased tb diff.

(** The loop of [db_erase_object_hash]. *)
Fixpoint erase_object_loop tb (ix : Z) (o : obj) (key : term) (hval diff nkeys : Z) c : list hterm * Z * table :=
  match c with
  | [] => ([], diff, tb)
  | b :: c' =>
      if has_live_key b key hval then
        if bool_decide (o = dbterm b) then
          let '(fixed, tb) := if (nkeys + 1 =? 1) && IS_FIXED tb then add_fixed_deletion tb ix 0 else (false, tb) in
          let '(l, diff, tb) := if bool_decide (t_type tb = DB_DUPLICATE_BAG)
                                then erase_object_loop tb ix o key hval (diff - 1) (nkeys + 1) c'
                                else (c', diff - 1, tb) in
          (if (fixed : bool) then pseudo_delete b :: l else l, diff, tb)
        else let '(l, diff, tb) := erase_object_loop tb ix o key hval diff (nkeys + 1) c' in (b :: l, diff, tb)
      else if negb (diff =? 0) && negb (deleted b) then (c, diff, tb)
      else let '(l, diff, tb) := erase_object_loop tb ix o key hval diff nkeys c' in (b :: l, diff, tb)
  end.

Definition db_erase_object_hash tb (o : obj) : res table :=
  let key := GETKEY o in
  let hval := MAKE_HASH key in
  let ix := hash_to_ix tb hval in
  c ← bucket tb ix;
  let '(c, diff, tb) := erase_object_loop tb ix o key hval 0 0 c in
  tb ← put_bucket tb ix c;
  erased tb diff.

(** The loop of [db_take_hash] over the objects up to [bend]. *)
Fixpoint take_loop tb (ix diff : Z) (run : list hterm) : list hterm * Z * table :=
  match run with
  | [] => ([], diff, tb)
  | b :: run =>
      let '(fixed, tb) := if (diff - 1 =? -1) && IS_FIXED tb then add_fixed_deletion tb ix 0 else (false, tb) in
      let '(l, diff, tb) := take_loop tb ix (diff - 1) run in
      (if (fixed : bool) then pseudo_delete b :: l else l, diff, tb)
  end.

Definition db_take_hash tb (key : term) : res (list obj * table) :=
  let hval := MAKE_HASH key in
  let ix := hash_to_ix tb hval in
  c ← bucket tb ix;
  let '(pre, post) := split_at (λ b, has_live_key b key hval) c in
  match post with
  | [] => Ok ([], tb)
  | b :: rest =>
      let '(l, bend) := get_term_list tb key hval b rest in
      let '(run, diff, tb) := take_loop tb ix 0 (take (length post - length bend) post) in
      tb ← put_bucket tb ix (pre ++ run ++ bend);
      tb ← erased tb diff;
      Ok (l, tb)
  end.

(** The loop of [db_mark_all_deleted_hash], from slot [ix] on. *)
Fixpoint mark_slots (fuel : nat) (ix : Z) tb : res table :=
  match fuel with
  | O => Ok tb
  | S fuel =>
      c ← bucket tb ix;
      tb ← (if bool_decide (c = []) then Ok tb
            else put_bucket (add_fixed_deletion tb ix 0).2 ix (pseudo_delete <$> c));
      mark_slots fuel (ix + 1) tb
  end.

Definition db_mark_all_deleted_hash tb : res table :=
  tb ← mark_slots (Z.to_nat (NACTIVE tb)) 0 tb; Ok (set_nitems tb 0).

Definition free_fuel tb : nat := S (length (fixdel tb) + Z.to_nat (g_nslots (t_segs tb))).

Definition db_delete_all_objects_hash tb : res table :=
  if IS_FIXED tb then db_mark_all_deleted_hash tb
  else tb ← db_free_table_hash (free_fuel tb) tb; tb ← db_create_hash tb; Ok (set_nitems tb 0).

(** * Updates in place *)

(** [DbUpdateHandle]: the bucket, the position in it and the flags. *)
Record update_handle := mk_handle { h_ix : Z; h_pos : nat; h_new_object : bool; h_inc_try_grow : bool }.

Definition db_lookup_dbterm_hash tb (key : term) (o : option obj) : res (option (update_handle * table)) :=
  let hval := MAKE_HASH key in
  let ix := hash_to_ix tb hval in
  c ← bucket tb ix;
  let '(pre, post) := split_at (λ b, has_key b key hval) c in
  let found flag_new flag_grow tb := Ok (Some (mk_handle ix (length pre) flag_new flag_grow, tb)) in
  match post with
  | b :: next =>
      if negb (deleted b) then found false false tb
      else match o with
      | None => Ok None
      | Some o =>
          tb ← put_bucket tb ix (pre ++ mk_term hval (set_key o key) :: next);
          found true false (set_nitems tb (nitems tb + 1))
      end
  | [] =>
      match o with
      | None => Ok None
      | Some o => tb ← put_bucket tb ix (pre ++ [mk_term hval (set_key o key)]); found true true tb
      end
  end.

(** The object of the handle, and its replacement by one of the same key. *)
Definition handle_object tb (h : update_handle) : res hterm :=
  c ← bucket tb (h_ix h); match c !! h_pos h with Some b => Ok b | None => Fault end.

Definition handle_store tb (h : update_handle) (o : obj) : res table :=
  c ← bucket tb (h_ix h);
  match c !! h_pos h with
  | Some b => put_bucket tb (h_ix h) (<[h_pos h := mk_term (hvalue b) o]> c)
  | None => Fault
  end.

Definition db_finalize_dbterm_hash (cret : db_error) (h : update_handle) tb : res table :=
  b ← handle_object tb h;
  c ← bucket tb (h_ix h);
  match cret with
  | DB_ERROR_NONE =>
      if h_inc_try_grow h then try_grow (set_nitems tb (nitems tb + 1)) else Ok tb
  | _ =>
      if h_new_object h then
        let '(fixed, tb) := if IS_FIXED tb then add_fixed_deletion tb (hash_to_ix tb (hvalue b)) 0 else (false, tb) in
        tb ← put_bucket tb (h_ix h) (if (fixed : bool) then <[h_pos h := pseudo_delete b]> c
                                     else take (h_pos h) c ++ drop (S (h_pos h)) c);
        try_shrink (set_nitems tb (nitems tb - 1))
      else if h_inc_try_grow h then try_grow (set_nitems tb (nitems tb + 1)) else Ok tb
  end.

End Model.
