(* ===== verification/DbHashSpec.v ===== *)
(** ETS hash tables (DbHash.v): the invariant of a table and what every operation does to
    the objects of every key. *)
From S2P Require Import Prelude DbSeg DbHash.

(** * Chains *)

Section Chains.
Context `{SegMemory} {term obj : Type} `{DbTerms term obj}.
Abbreviation hterm := (HashDbTerm obj).
Implicit Types (b : hterm) (c pre run post : list hterm) (k : term).

Definition keyof b : term := GETKEY (dbterm b).
Definition keys c : list term := keyof <$> c.

(** Objects with the same key are next to each other. *)
Fixpoint grouped c : Prop :=
  match c with
  | [] => True
  | b :: c => grouped c ∧ (keyof b ∉ keys c ∨ head (keys c) = Some (keyof b))
  end.

(** The objects with the key [k], between those with other keys. *)
Record view c k pre run post : Prop := {
  v_eq : c = pre ++ run ++ post;
  v_pre : k ∉ keys pre;
  v_run : Forall (λ b, keyof b = k) run;
  v_post : k ∉ keys post;
  v_gpre : grouped pre;
  v_gpost : grouped post;
  v_none : run = [] → post = [];
  v_disj : ∀ k', k' ∈ keys pre → k' ∉ keys post }.

Lemma keys_nil k : k ∈ keys [] → False.
Proof. apply not_elem_of_nil. Qed.

Lemma keys_app c1 c2 : keys (c1 ++ c2) = keys c1 ++ keys c2.
Proof. apply fmap_app. Qed.

Lemma grouped_app c1 c2 : grouped c1 → grouped c2 → (∀ k, k ∈ keys c1 → k ∉ keys c2) → grouped (c1 ++ c2).
Proof.
  induction c1 as [|b c1 IH]; intros H1 H2 Hd; [done|]. destruct H1 as [H1 Hb]. cbn [app grouped]. split.
  - apply IH; [done|done|]. intros k Hk. apply Hd. cbn. by right.
  - rewrite keys_app. destruct Hb as [Hb|Hb].
    + left. intros [?|Hin]%elem_of_app; [done|]. apply (Hd (keyof b)); [cbn; left|done].
    + right. by destruct c1.
Qed.

Lemma grouped_run k run : Forall (λ b, keyof b = k) run → grouped run.
Proof.
  induction 1 as [|b run Hb Hr IH]; [done|]. split; [done|]. destruct Hr as [|b' run Hb' _]; [left; apply not_elem_of_nil|].
  right. cbn. by rewrite Hb, Hb'.
Qed.

Lemma run_keys k k' run : Forall (λ b, keyof b = k) run → k' ∈ keys run → k' = k.
Proof. intros Hr (b & -> & Hb)%list_elem_of_fmap. by eapply Forall_forall in Hr. Qed.

(** The group can be replaced by another one. *)
Lemma view_grouped c k pre run post run' :
  view c k pre run post → Forall (λ b, keyof b = k) run' → grouped (pre ++ run' ++ post).
Proof.
  intros [_ Hpre _ Hpost Gpre Gpost _ Hd] Hr. apply grouped_app; [done| |].
  - apply grouped_app; [by eapply grouped_run|done|]. intros k' Hk'. by rewrite (run_keys _ _ _ Hr Hk').
  - intros k' Hk'. rewrite keys_app. intros [Hin|Hin]%elem_of_app; [|by apply (Hd k')].
    rewrite (run_keys _ _ _ Hr Hin) in Hk'. done.
Qed.

Lemma grouped_view c k : grouped c → ∃ pre run post, view c k pre run post.
Proof.
  induction c as [|b c IH]; intros Hg.
  { exists [], [], []. split; try done; try apply not_elem_of_nil. by intros k' []%keys_nil. }
  destruct Hg as [Hg Hb]. destruct (IH Hg) as (pre & run & post & [-> Hpre Hrun Hpost Gpre Gpost Hnone Hd]).
  destruct (decide (keyof b = k)) as [Ek|Nk].
  - destruct pre as [|b' pre].
    + exists [], (b :: run), post. split; try done. by constructor.
    + assert (run = []) as ->.
      { destruct run as [|r run]; [done|]. exfalso. apply Forall_cons in Hrun as [Hr _]. destruct Hb as [Hb|Hb].
        - apply Hb. rewrite !keys_app. apply elem_of_app. right. apply elem_of_cons. left. congruence.
        - cbn in Hb. injection Hb as Hb. apply Hpre. apply elem_of_cons. left. congruence. }
      rewrite (Hnone eq_refl) in *. exists [], [b], (b' :: pre). split; try done.
      * by rewrite app_nil_r.
      * by constructor.
      * by intros k' []%keys_nil.
  - exists (b :: pre), run, post. split; try done.
    + cbn. intros [?|?]%elem_of_cons; [congruence|done].
    + split; [done|]. destruct Hb as [Hb|Hb].
      * left. intros Hin. apply Hb. rewrite keys_app. apply elem_of_app. by left.
      * destruct pre as [|b' pre]; [left; apply not_elem_of_nil|by right].
    + intros k' [->|Hk']%elem_of_cons; [|by apply Hd]. intros Hin. destruct run as [|r run]; [rewrite (Hnone eq_refl) in Hin; by apply keys_nil in Hin|].
      destruct Hb as [Hb|Hb].
      * apply Hb. rewrite !keys_app. apply elem_of_app. right. apply elem_of_app. by right.
      * destruct pre as [|b' pre]; cbn in Hb; injection Hb as Hb; [apply Forall_cons in Hrun as [Hr _]; congruence|].
        apply (Hd (keyof b)); [apply elem_of_cons; left; congruence|done].
Qed.

(** * The objects of a key *)

Definition live c : list hterm := filter (λ b, deleted b = false) c.

(** In the order of insertion. *)
Definition content k c : list obj := rev (dbterm <$> live (filter (λ b, keyof b = k) c)).

Lemma filter_other k c : k ∉ keys c → filter (λ b, keyof b = k) c = [].
Proof.
  intros Hk. induction c as [|b c IH]; [done|]. cbn in Hk. apply not_elem_of_cons in Hk as [Hne Hk].
  rewrite filter_cons_False by congruence. auto.
Qed.

Lemma filter_run k run : Forall (λ b, keyof b = k) run → filter (λ b, keyof b = k) run = run.
Proof. induction 1 as [|b run Hb _ IH]; [done|]. rewrite filter_cons_True by done. by f_equal. Qed.

Lemma content_view c k pre run post : view c k pre run post → content k c = rev (dbterm <$> live run).
Proof.
  intros [-> Hpre Hrun Hpost _ _ _ _]. unfold content. by rewrite !filter_app, (filter_other k pre), (filter_other k post), filter_run, app_nil_r by done.
Qed.

(** Other keys are not concerned by what is done to the group of [k]. *)
Lemma content_other c k pre run post run' k' :
  view c k pre run post → Forall (λ b, keyof b = k) run' → k' ≠ k → content k' (pre ++ run' ++ post) = content k' c.
Proof.
  intros [-> _ Hrun _ _ _ _ _] Hr Hne. unfold content. rewrite !filter_app.
  by rewrite (filter_other k' run), (filter_other k' run') by (intros Hin; by apply run_keys with (k := k) in Hin).
Qed.

Lemma content_replace c k pre run post run' :
  view c k pre run post → Forall (λ b, keyof b = k) run' → content k (pre ++ run' ++ post) = rev (dbterm <$> live run').
Proof.
  intros [_ Hpre _ Hpost _ _ _ _] Hr. unfold content.
  by rewrite !filter_app, (filter_other k pre), (filter_other k post), filter_run, app_nil_r by done.
Qed.

Lemma live_app c1 c2 : live (c1 ++ c2) = live c1 ++ live c2.
Proof. apply filter_app. Qed.

(** An object that comes again later in the group is deleted there. *)
Fixpoint bag_ok run : Prop :=
  match run with
  | [] => True
  | b :: run => bag_ok run ∧ dbterm b ∉ dbterm <$> live run
  end.

(** What a group of objects with one key looks like. *)
Definition run_ok (ty : table_type) run : Prop :=
  match ty with DB_SET => (length run <= 1)%nat | DB_BAG => bag_ok run | DB_DUPLICATE_BAG => True end.

Lemma run_ok_nil ty : run_ok ty [].
Proof. destruct ty; cbn; [lia|done|done]. Qed.

Lemma view_filter c k pre run post : view c k pre run post → filter (λ b, keyof b = k) c = run.
Proof. intros [-> Hpre Hrun Hpost _ _ _ _]. by rewrite !filter_app, (filter_other k pre), (filter_other k post), filter_run, app_nil_r by done. Qed.

Lemma unique_replace ty c k pre run post run' :
  view c k pre run post → Forall (λ b, keyof b = k) run' → run_ok ty run' →
  (∀ k', run_ok ty (filter (λ b, keyof b = k') c)) → ∀ k', run_ok ty (filter (λ b, keyof b = k') (pre ++ run' ++ post)).
Proof.
  intros [-> Hpre Hrun Hpost _ _ _ _] Hr Hu' Hu k'. destruct (decide (k' = k)) as [->|Hne].
  - by rewrite !filter_app, (filter_other k pre), (filter_other k post), filter_run, app_nil_r by done.
  - specialize (Hu k'). rewrite !filter_app in *.
    rewrite (filter_other k' run) in Hu by (intros Hin; by apply run_keys with (k := k) in Hin).
    by rewrite (filter_other k' run') by (intros Hin; by apply run_keys with (k := k) in Hin).
Qed.

(** * What the tests on keys mean *)

(** A hash value is that of the key, or marks a deleted object. *)
Definition hashed b : Prop := hvalue b = MAKE_HASH (keyof b) ∨ hvalue b = INVALID_HASH.

Lemma hash_range k : 0 <= MAKE_HASH k < MAX_HASH.
Proof. unfold MAKE_HASH. apply Z.mod_pos_bound. done. Qed.

Lemma hash_valid k : MAKE_HASH k ≠ INVALID_HASH.
Proof. pose proof (hash_range k). unfold MAX_HASH, INVALID_HASH in *. lia. Qed.

Lemma has_key_spec b k : hashed b → has_key b k (MAKE_HASH k) = bool_decide (keyof b = k).
Proof.
  intros Hb. unfold has_key, EQ, deleted. fold (keyof b).
  destruct (Z.eqb_spec (hvalue b) (MAKE_HASH k)) as [E|Ne]; cbn [negb andb]; [apply bool_decide_ext; split; congruence|].
  destruct (Z.eqb_spec (hvalue b) INVALID_HASH) as [E|Ne2]; cbn [negb]; [apply bool_decide_ext; split; congruence|].
  symmetry. apply bool_decide_eq_false. intros Hk. destruct Hb as [Hb|Hb]; [|done]. rewrite Hk in Hb. done.
Qed.

Lemma has_live_key_spec b k : hashed b → has_live_key b k (MAKE_HASH k) = negb (deleted b) && bool_decide (keyof b = k).
Proof.
  intros Hb. unfold has_live_key, EQ, deleted. fold (keyof b). pose proof (hash_valid k).
  destruct (Z.eqb_spec (hvalue b) (MAKE_HASH k)) as [E|Ne]; cbn [negb].
  - rewrite (proj2 (Z.eqb_neq _ _)) by congruence. cbn. apply bool_decide_ext. split; congruence.
  - destruct (Z.eqb_spec (hvalue b) INVALID_HASH) as [E|Ne2]; cbn [negb andb]; [done|].
    symmetry. apply bool_decide_eq_false. intros Hk. destruct Hb as [Hb|Hb]; [|done]. rewrite Hk in Hb. done.
Qed.

Lemma split_at_spec (f : hterm → bool) pre post :
  Forall (λ b, f b = false) pre → match post with [] => True | b :: _ => f b = true end → split_at f (pre ++ post) = (pre, post).
Proof.
  intros Hpre Hpost. induction Hpre as [|b pre Hb _ IH]; cbn; [|by rewrite Hb, IH].
  destruct post as [|b post]; [done|]. cbn. by rewrite Hpost.
Qed.

Lemma split_has_key c k pre run post :
  view c k pre run post → Forall hashed c → split_at (λ b, has_key b k (MAKE_HASH k)) c = (pre, run ++ post).
Proof.
  intros [-> Hpre Hrun Hpost _ _ Hnone _] [Hh1 [Hh2 _]%Forall_app]%Forall_app. apply split_at_spec.
  - apply Forall_forall. intros b Hb. rewrite has_key_spec by (by eapply Forall_forall in Hh1). apply bool_decide_eq_false.
    intros <-. apply Hpre. by apply list_elem_of_fmap_2.
  - destruct run as [|b run]; [by rewrite (Hnone eq_refl)|]. cbn. apply Forall_cons in Hrun as [Hb _], Hh2 as [Hhb _].
    rewrite has_key_spec by done. by apply bool_decide_eq_true.
Qed.

End Chains.

(** * Addresses *)

(** The slot of a hash value in a table with [n] slots and the mask [2 ^ k - 1]. *)
Definition addr (n k h : Z) : Z := let r := h mod 2 ^ k in if n <=? r then r mod 2 ^ (k - 1) else r.

Lemma mod_low k h : 0 < k → (h mod 2 ^ k) mod 2 ^ (k - 1) = h mod 2 ^ (k - 1).
Proof.
  intros Hk. pose proof (pow2_split k Hk) as E. rewrite E, Z.mul_comm.
  rewrite Z.rem_mul_r by lia. rewrite Z.mul_comm, Z.mod_add by lia. apply Z.mod_mod. lia.
Qed.

(** Both halves of the address space. *)
Lemma mod_half k h :
  0 < k → h mod 2 ^ k = h mod 2 ^ (k - 1) ∨ h mod 2 ^ k = h mod 2 ^ (k - 1) + 2 ^ (k - 1).
Proof.
  intros Hk. pose proof (pow2_split k Hk) as E. rewrite E, (Z.mul_comm 2), Z.rem_mul_r by lia.
  pose proof (Z.mod_pos_bound (h / 2 ^ (k - 1)) 2 ltac:(lia)) as Hr.
  assert ((h / 2 ^ (k - 1)) mod 2 = 0 ∨ (h / 2 ^ (k - 1)) mod 2 = 1) as [-> | ->] by lia; [left|right]; lia.
Qed.

Section Addresses.
Context (n k h : Z) (Hk : 0 < k).

Lemma pow_half : 0 < 2 ^ (k - 1) ∧ 2 ^ k = 2 * 2 ^ (k - 1).
Proof. split; [lia|by apply pow2_split]. Qed.

Lemma addr_range : 2 ^ (k - 1) <= n → 0 <= addr n k h < n.
Proof.
  intros Hn. unfold addr. pose proof (Z.mod_pos_bound h (2 ^ k) ltac:(lia)). rewrite mod_low by done.
  pose proof (Z.mod_pos_bound h (2 ^ (k - 1)) ltac:(lia)). destruct (Z.leb_spec n (h mod 2 ^ k)); lia.
Qed.

Lemma addr_full : n = 2 ^ k → addr n k h = addr n (k + 1) h.
Proof.
  intros ->. unfold addr. pose proof (Z.mod_pos_bound h (2 ^ k) ltac:(lia)). destruct (Z.leb_spec (2 ^ k) (h mod 2 ^ k)); [lia|].
  replace (k + 1 - 1) with k by lia. pose proof (mod_half (k + 1) h ltac:(lia)) as Hm. replace (k + 1 - 1) with k in Hm by lia.
  replace (h mod 2 ^ k) with ((h mod 2 ^ (k + 1)) mod 2 ^ k) at 1.
  2: { pose proof (mod_low (k + 1) h ltac:(lia)) as Hl. by replace (k + 1 - 1) with k in Hl by lia. }
  destruct (Z.leb_spec (2 ^ k) (h mod 2 ^ (k + 1))); [done|]. apply Z.mod_small. pose proof (Z.mod_pos_bound h (2 ^ (k + 1)) ltac:(lia)). lia.
Qed.

Lemma addr_grow : 2 ^ (k - 1) <= n < 2 ^ k → addr (n + 1) k h = if h mod 2 ^ k =? n then n else addr n k h.
Proof.
  intros Hn. unfold addr. destruct (Z.eqb_spec (h mod 2 ^ k) n) as [->|].
  - destruct (Z.leb_spec (n + 1) n); lia.
  - destruct (Z.leb_spec (n + 1) (h mod 2 ^ k)), (Z.leb_spec n (h mod 2 ^ k)); lia || done.
Qed.

(** The bucket [n] is split off the bucket [n - 2 ^ (k - 1)]. *)
Lemma addr_from : 2 ^ (k - 1) <= n < 2 ^ k →
  addr n k h = n - 2 ^ (k - 1) ↔ h mod 2 ^ k = n ∨ h mod 2 ^ k = n - 2 ^ (k - 1).
Proof.
  intros Hn. unfold addr. destruct pow_half as [Hp E]. rewrite mod_low by done. pose proof (mod_half k h Hk) as Hm.
  pose proof (Z.mod_pos_bound h (2 ^ (k - 1)) ltac:(lia)). destruct (Z.leb_spec n (h mod 2 ^ k)); lia.
Qed.

End Addresses.

Lemma ones_mask k : 0 <= k → 2 ^ k - 1 = Z.ones k.
Proof. intros. rewrite Z.ones_equiv. lia. Qed.

Lemma mask_low k : 0 < k → Z.shiftr (2 ^ k - 1) 1 = 2 ^ (k - 1) - 1.
Proof.
  intros Hk. rewrite Z.shiftr_div_pow2 by done. pose proof (pow2_split k Hk) as ->. change (2 ^ 1) with 2.
  symmetry. apply (Z.div_unique_pos _ _ _ 1); lia.
Qed.

Lemma land_mask x k : 0 <= k → Z.land x (2 ^ k - 1) = x mod 2 ^ k.
Proof. intros. rewrite ones_mask by done. by apply Z.land_ones. Qed.

(** * Tables *)

(** The number of objects up to which no [int] overflows. *)
Definition max_items : Z := 2 ^ 31 - 8.

Section Tables.
Context `{SegMemory} {term obj : Type} `{DbTerms term obj}.
Abbreviation hterm := (HashDbTerm obj).
Abbreviation table := (DbTableHash obj).
Implicit Types (tb : table) (b : hterm) (c pre run post : list hterm) (k : term) (B : list (list hterm)).
Context (Hal : ∀ n, alloc_succeeds n = true).

Definition slot tb k : Z := hash_to_ix tb (MAKE_HASH k).

(** A pseudo-deleted object is in a fixed table, and its slot is noted. *)
Definition entry_ok tb (i : Z) b : Prop :=
  slot tb (keyof b) = i ∧
  (hvalue b = MAKE_HASH (keyof b) ∨ hvalue b = INVALID_HASH ∧ nfixed tb ≠ 0 ∧ i ∈ fixdel tb).

Record chain_ok tb (i : Z) c : Prop := {
  co_grouped : grouped c;
  co_unique : ∀ k, run_ok (t_type tb) (filter (λ b, keyof b = k) c);
  co_entries : Forall (entry_ok tb i) c }.

Record shape_ok tb (k : Z) : Prop := {
  sh_mask : szm tb = 2 ^ k - 1;
  sh_k : 8 <= k;
  sh_active : 2 ^ (k - 1) < nactive tb <= 2 ^ k }.

Record table_ok tb B : Prop := {
  ok_segs : represents (t_segs tb) B;
  ok_idle : is_resizing tb = false;
  ok_shape : ∃ e : Z, shape_ok tb e;
  ok_min : SEGSZ <= nactive tb;
  ok_slots : nactive tb <= zlen B < nactive tb + SEGSZ;
  ok_load : nactive tb = SEGSZ ∨ 7 * (nactive tb - 1) < max_items;
  ok_rest : ∀ i c, nactive tb <= Z.of_nat i → B !! i = Some c → c = [];
  ok_chain : ∀ i c, B !! i = Some c → chain_ok tb (Z.of_nat i) c;
  ok_fixed : 0 <= nfixed tb ∧ (nfixed tb = 0 → fixdel tb = []);
  ok_fixdel : Forall (λ ix, 0 <= ix < nactive tb) (fixdel tb);
  ok_items : nitems tb = zlen (live (concat B)) ∧ nitems tb <= max_items }.

(** The objects of a key, in the order of their insertion. *)
Definition objects tb B k : list obj :=
  match B !! Z.to_nat (slot tb k) with Some c => content k c | None => [] end.

Lemma hash_to_ix_addr tb (e h : Z) : shape_ok tb e → hash_to_ix tb h = addr (nactive tb) e h.
Proof.
  intros [Hm Hk _]. unfold hash_to_ix, addr. rewrite Hm, mask_low, !land_mask by lia. rewrite Z.geb_leb. done.
Qed.

Lemma slot_range tb B k : table_ok tb B → 0 <= slot tb k < nactive tb.
Proof.
  intros Hok. destruct (ok_shape _ _ Hok) as (e & Hs). unfold slot. rewrite (hash_to_ix_addr _ _ _ Hs). destruct Hs. apply addr_range; lia.
Qed.

Lemma active_small tb B : table_ok tb B → SEGSZ <= nactive tb ∧ 7 * nactive tb < 2 ^ 31.
Proof. intros Hok. pose proof (ok_min _ _ Hok). destruct (ok_load _ _ Hok); unfold SEGSZ, max_items in *; lia. Qed.

Lemma NACTIVE_ok tb B : table_ok tb B → NACTIVE tb = nactive tb.
Proof. intros Hok. destruct (active_small _ _ Hok). apply to_int_small. unfold SEGSZ, INT_MAX in *. lia. Qed.

Lemma NITEMS_ok tb B : table_ok tb B → NITEMS tb = nitems tb.
Proof.
  intros Hok. destruct (ok_items _ _ Hok) as [E Hle]. apply to_int_small. pose proof (zlen_nonneg (live (concat B))).
  unfold max_items, INT_MAX in *. lia.
Qed.

(** The bucket of a key. *)
Lemma bucket_ok tb B i c : table_ok tb B → 0 <= i → B !! Z.to_nat i = Some c → bucket tb i = Ok c.
Proof. intros Hok Hi E. by apply (BUCKET_ok _ B); [apply Hok|..]. Qed.

Lemma slot_bucket tb B k :
  table_ok tb B → ∃ c, B !! Z.to_nat (slot tb k) = Some c ∧ bucket tb (slot tb k) = Ok c ∧ chain_ok tb (slot tb k) c.
Proof.
  intros Hok. pose proof (slot_range _ _ k Hok). pose proof (ok_slots _ _ Hok).
  destruct (lookup_lt_is_Some_2 B (Z.to_nat (slot tb k))) as [c E]; [unfold zlen in *; lia|]. exists c. split; [done|].
  split; [by eapply bucket_ok; [..|lia|]|]. pose proof (ok_chain _ _ Hok _ _ E) as Hc. by rewrite Z2Nat.id in Hc by lia.
Qed.

Lemma chain_hashed tb i c : chain_ok tb i c → Forall hashed c.
Proof.
  intros [_ _ He]. eapply Forall_impl; [exact He|]. intros b [_ [?|[? _]]]; [by left|by right].
Qed.

Lemma put_bucket_ok tb B ix c :
  represents (t_segs tb) B → 0 <= ix < zlen B →
  ∃ g, put_bucket tb ix c = Ok (set_segs tb g) ∧ represents g (<[Z.to_nat ix := c]> B) ∧ g_nslots g = g_nslots (t_segs tb).
Proof.
  intros Hr Hi. destruct (set_BUCKET_ok _ _ _ c Hr Hi) as (h & E & Hr'). exists (set_heap (t_segs tb) h). unfold put_bucket. by rewrite E.
Qed.

Lemma live_insert B i c c' :
  B !! i = Some c → zlen (live (concat (<[i := c']> B))) = zlen (live (concat B)) + (zlen (live c') - zlen (live c)).
Proof.
  intros E. assert (∃ B1 B2, B = B1 ++ c :: B2 ∧ length B1 = (i + 0)%nat) as (B1 & B2 & -> & Hl).
  { exists (take i B), (drop (S i) B). split; [symmetry; by apply take_drop_middle|]. rewrite length_take. apply lookup_lt_Some in E. lia. }
  rewrite <- (Nat.add_0_r i), <- Hl, <- (Nat.add_0_r (length B1)), insert_app_r. cbn [insert list_insert].
  rewrite !concat_app. cbn [concat]. rewrite !live_app, !zlen_app. lia.
Qed.

(** ** One group of a chain is replaced *)

(** The slots of a table do not depend on its other fields. *)
Lemma slot_same tb tb' k : szm tb' = szm tb → nactive tb' = nactive tb → slot tb' k = slot tb k.
Proof. intros E1 E2. unfold slot, hash_to_ix. by rewrite E1, E2. Qed.

Lemma entry_same tb tb' i b :
  szm tb' = szm tb → nactive tb' = nactive tb → nfixed tb' = nfixed tb → fixdel tb ⊆ fixdel tb' → entry_ok tb i b → entry_ok tb' i b.
Proof.
  intros E1 E2 E3 E4 [Hs He]. split; [by rewrite (slot_same tb tb')|]. rewrite E3. destruct He as [?|(? & ? & ?)]; [by left|right].
  split_and!; [done|done|by apply E4].
Qed.

Lemma run_update tb B k c pre run post run' fd n' :
  table_ok tb B → B !! Z.to_nat (slot tb k) = Some c → view c k pre run post →
  Forall (λ b, keyof b = k) run' →
  Forall (λ b, hvalue b = MAKE_HASH k ∨ hvalue b = INVALID_HASH ∧ nfixed tb ≠ 0 ∧ slot tb k ∈ fd) run' →
  run_ok (t_type tb) run' → fd = fixdel tb ∨ nfixed tb ≠ 0 ∧ fd = slot tb k :: fixdel tb →
  n' = nitems tb + (zlen (live run') - zlen (live run)) → n' <= max_items →
  ∃ g, (∀ tb0, t_segs tb0 = t_segs tb → put_bucket tb0 (slot tb k) (pre ++ run' ++ post) = Ok (set_segs tb0 g)) ∧
    let tb' := set_segs (set_nitems (set_fixdel tb fd) n') g in
    let B' := <[Z.to_nat (slot tb k) := pre ++ run' ++ post]> B in
    table_ok tb' B' ∧ objects tb' B' k = rev (dbterm <$> live run') ∧ ∀ k', k' ≠ k → objects tb' B' k' = objects tb B k'.
Proof.
  intros Hok Ec Hv Hk He Hu Hfd -> Hmax. pose proof (slot_range _ _ k Hok) as Hsl. pose proof (ok_slots _ _ Hok) as Hlen.
  destruct (put_bucket_ok tb B (slot tb k) (pre ++ run' ++ post) (ok_segs _ _ Hok)) as (g & Eg & Hg & Hn); [lia|].
  exists g. split.
  { intros tb0 E0. unfold put_bucket in *. rewrite E0. apply bind_Ok_inv in Eg as (g' & -> & Eg). by injection Eg as ->. }
  cbv zeta. set (tb' := set_segs (set_nitems (set_fixdel tb fd) _) g). set (B' := <[_ := _]> B).
  assert (∀ k', slot tb' k' = slot tb k') as Hslot by (intros; by apply slot_same).
  assert (B' !! Z.to_nat (slot tb k) = Some (pre ++ run' ++ post)) as Enew by (apply list_lookup_insert_eq; unfold zlen in *; lia).
  assert (fixdel tb ⊆ fixdel tb') as Hsub by (destruct Hfd as [->|[_ ->]]; [done|intros ?; by right]).
  pose proof (ok_chain _ _ Hok _ _ Ec) as Hc. rewrite Z2Nat.id in Hc by lia.
  split; [split|].
  - done.
  - apply Hok.
  - destruct (ok_shape _ _ Hok) as (e & [? ? ?]). exists e. by split.
  - apply Hok.
  - cbn. unfold B', zlen in *. rewrite length_insert. apply Hok.
  - apply Hok.
  - intros i ci Hi Ei. unfold B' in Ei. destruct (decide (i = Z.to_nat (slot tb k))) as [->|Hne]; [cbn in Hi; lia|].
    rewrite list_lookup_insert_ne in Ei by done. by apply (ok_rest _ _ Hok i).
  - intros i ci Ei. unfold B' in Ei. destruct (decide (i = Z.to_nat (slot tb k))) as [->|Hne].
    + fold B' in Ei. rewrite Enew in Ei. injection Ei as <-. rewrite Z2Nat.id by lia. split.
      * by eapply view_grouped.
      * by eapply unique_replace; [done|..|apply Hc].
      * destruct Hc as [_ _ Hent]. rewrite (v_eq _ _ _ _ _ Hv) in Hent. apply Forall_app in Hent as [He1 [_ He3]%Forall_app].
        apply Forall_app. split; [eapply Forall_impl; [exact He1|]; intros ?; by apply (entry_same tb tb')|].
        apply Forall_app. split; [|eapply Forall_impl; [exact He3|]; intros ?; by apply (entry_same tb tb')].
        apply Forall_forall. intros b Hb. rewrite Forall_forall in He, Hk. specialize (He b Hb). specialize (Hk b Hb). cbn in He, Hk.
        split; [by rewrite Hslot, Hk|]. rewrite Hk. exact He.
    + rewrite list_lookup_insert_ne in Ei by done. pose proof (ok_chain _ _ Hok _ _ Ei) as [? ? Hent]. split; [done|done|].
      eapply Forall_impl; [exact Hent|]. intros ?; by apply (entry_same tb tb').
  - cbn. split; [apply Hok|]. intros E0. destruct Hfd as [->|[? _]]; [by apply (ok_fixed _ _ Hok)|done].
  - cbn. destruct Hfd as [->|[_ ->]]; [apply Hok|]. constructor; [lia|apply Hok].
  - cbn. split; [|done]. destruct (ok_items _ _ Hok) as [-> _]. unfold B'. rewrite (live_insert B _ c) by done.
    pose proof (v_eq _ _ _ _ _ Hv) as ->. rewrite !live_app, !zlen_app. lia.
  - split.
    + unfold objects. rewrite Hslot, Enew. by eapply content_replace.
    + intros k' Hne. unfold objects. rewrite Hslot. destruct (decide (slot tb k' = slot tb k)) as [->|Hd].
      * rewrite Enew, Ec. by eapply content_other.
      * unfold B'. rewrite list_lookup_insert_ne; [done|]. pose proof (slot_range _ _ k' Hok). lia.
Qed.

(** ** Buckets are split and joined *)

Lemma filter_sub (q : term → bool) v k c :
  filter (λ b, keyof b = k) (filter (λ b, q (keyof b) = v) c) = if bool_decide (q k = v) then filter (λ b, keyof b = k) c else [].
Proof.
  induction c as [|b c IH]; [by case_bool_decide|]. destruct (decide (q (keyof b) = v)) as [Eq|Nq].
  - rewrite (filter_cons_True _ b) by done. rewrite !filter_cons, IH. destruct (decide (keyof b = k)) as [<-|]; [by rewrite bool_decide_true|done].
  - rewrite (filter_cons_False _ b) by done. rewrite IH, filter_cons. destruct (decide (keyof b = k)) as [<-|]; [by rewrite bool_decide_false|done].
Qed.

Lemma grouped_sub (q : term → bool) v c : grouped c → grouped (filter (λ b, q (keyof b) = v) c).
Proof.
  induction c as [|b c IH]; [done|]. intros [Hg Hb]. rewrite filter_cons. destruct (decide _) as [Eq|Nq]; [|by apply IH].
  split; [by apply IH|]. destruct Hb as [Hb|Hb].
  - left. intros Hin. apply Hb. unfold keys in *. apply list_elem_of_fmap in Hin as (b' & -> & [_ Hb']%list_elem_of_filter).
    by apply list_elem_of_fmap_2.
  - right. destruct c as [|b' c]; [done|]. cbn in Hb. injection Hb as Hb. rewrite filter_cons_True by congruence. cbn. by rewrite Hb.
Qed.

Lemma length_sub (q : term → bool) c :
  zlen (filter (λ b, q (keyof b) = false) c) + zlen (filter (λ b, q (keyof b) = true) c) = zlen c.
Proof. induction c as [|b c IH]; [done|]. rewrite !filter_cons, zlen_cons. repeat destruct (decide _); rewrite ?zlen_cons; destruct (q (keyof b)); congruence || lia. Qed.

Lemma split_chain_run mask from n (q : term → bool) c cur oth sw :
  n ≠ from → Forall (λ b, deleted b = false ∧ to_int (Z.land (hvalue b) mask) = if q (keyof b) then n else from) c →
  split_chain mask (if sw : bool then n else from) sw c cur oth =
    (rev (if sw then oth else cur) ++ filter (λ b, q (keyof b) = false) c,
     rev (if sw then cur else oth) ++ filter (λ b, q (keyof b) = true) c).
Proof.
  intros Hne Hc. revert cur oth sw. induction Hc as [|b c [Hd Hb] _ IH]; intros cur oth sw; cbn [split_chain].
  { rewrite !app_nil_r. by destruct sw. }
  rewrite Hd, Hb, !filter_cons. cbv zeta.
  destruct (q (keyof b)), sw; repeat destruct (decide _); try congruence;
    rewrite ?Z.eqb_refl, ?(proj2 (Z.eqb_neq n from)), ?(proj2 (Z.eqb_neq from n)) by done; cbn [negb];
    [rewrite (IH _ _ true)|rewrite (IH _ _ true)|rewrite (IH _ _ false)|rewrite (IH _ _ false)]; cbn [rev]; by rewrite <- ?app_assoc.
Qed.

Lemma split_chain_ok mask from n (q : term → bool) c :
  n ≠ from → Forall (λ b, deleted b = false ∧ to_int (Z.land (hvalue b) mask) = if q (keyof b) then n else from) c →
  split_chain mask from false c [] [] = (filter (λ b, q (keyof b) = false) c, filter (λ b, q (keyof b) = true) c).
Proof. intros Hne Hc. by rewrite (split_chain_run mask from n q c [] [] false). Qed.

(** In a table that is not fixed all objects are alive. *)
Definition fresh_entry tb (i : Z) b : Prop := slot tb (keyof b) = i ∧ hvalue b = MAKE_HASH (keyof b).

Lemma fresh_live tb i c : Forall (fresh_entry tb i) c → live c = c.
Proof.
  induction 1 as [|b c [_ Hb] _ IH]; [done|]. unfold live in *. rewrite filter_cons_True; [by rewrite IH|].
  unfold deleted. rewrite Hb. apply Z.eqb_neq, hash_valid.
Qed.

Lemma unfixed_fresh tb i c : nfixed tb = 0 → Forall (entry_ok tb i) c → Forall (fresh_entry tb i) c.
Proof. intros Hf Hc. eapply Forall_impl; [exact Hc|]. intros b [? [?|(_ & ? & _)]]; [by split|done]. Qed.

(** The objects of every key are moved to the bucket of the key in the new table. *)
Lemma rehash_ok tb B tb' B' :
  table_ok tb B → nfixed tb = 0 →
  t_type tb' = t_type tb → nitems tb' = nitems tb → nfixed tb' = nfixed tb → fixdel tb' = fixdel tb → is_resizing tb' = false →
  represents (t_segs tb') B' → (∃ e, shape_ok tb' e) → SEGSZ <= nactive tb' → nactive tb' <= zlen B' < nactive tb' + SEGSZ →
  nactive tb' = SEGSZ ∨ 7 * (nactive tb' - 1) < max_items →
  (∀ i c, B' !! i = Some c → grouped c ∧ Forall (fresh_entry tb' (Z.of_nat i)) c) →
  (∀ k i c, slot tb' k = Z.of_nat i → B' !! i = Some c →
     ∃ c0, B !! Z.to_nat (slot tb k) = Some c0 ∧ filter (λ b, keyof b = k) c = filter (λ b, keyof b = k) c0) →
  zlen (live (concat B')) = zlen (live (concat B)) →
  table_ok tb' B' ∧ ∀ k, objects tb' B' k = objects tb B k.
Proof.
  intros Hok Hf Ety Eni Enf Efd Hid Hrep [e Hsh] Hmin Hlen Hload Hent Hkey Hlive.
  assert (∀ k, 0 <= slot tb' k < nactive tb') as Hsl.
  { intros k. unfold slot. rewrite (hash_to_ix_addr _ _ _ Hsh). destruct Hsh. apply addr_range; lia. }
  split; [split; try done; try (by exists e)|].
  - intros i c Hi Ei. destruct (Hent _ _ Ei) as [_ Hc]. destruct c as [|b c]; [done|]. apply Forall_cons in Hc as [[Hs _] _].
    pose proof (Hsl (keyof b)). lia.
  - intros i c Ei. destruct (Hent _ _ Ei) as [Hg Hc]. split; [done| |].
    + intros k. rewrite Ety. destruct (decide (slot tb' k = Z.of_nat i)) as [Es|Ns].
      * destruct (Hkey _ _ _ Es Ei) as (c0 & E0 & ->). by apply (ok_chain _ _ Hok _ _ E0).
      * rewrite filter_other; [apply run_ok_nil|]. intros (b & -> & Hb)%list_elem_of_fmap. rewrite Forall_forall in Hc.
        by destruct (Hc _ Hb) as [? _].
    + eapply Forall_impl; [exact Hc|]. intros b [? ?]. split; [done|by left].
  - rewrite Enf, Efd. apply Hok.
  - rewrite Efd, (proj2 (ok_fixed _ _ Hok) Hf). constructor.
  - rewrite Eni, Hlive. apply Hok.
  - intros k. pose proof (Hsl k) as Hk. destruct (lookup_lt_is_Some_2 B' (Z.to_nat (slot tb' k))) as [c Ec]; [unfold zlen in *; lia|].
    unfold objects. rewrite Ec. destruct (Hkey k _ c ltac:(rewrite Z2Nat.id; [done|lia]) Ec) as (c0 & -> & E). unfold content. by rewrite E.
Qed.

Lemma concat_empty {A} n : concat (replicate n []) = @nil A.
Proof. by induction n. Qed.

Section Grow.
Context tb B (e : Z) (m : nat) c.
Context (Hok : table_ok tb B) (Hf : nfixed tb = 0) (He : 8 <= e) (Hn : 2 ^ (e - 1) <= nactive tb < 2 ^ e).
Context (Haddr : ∀ k, slot tb k = addr (nactive tb) e (MAKE_HASH k)).
Context (Hc : B !! Z.to_nat (nactive tb - 2 ^ (e - 1)) = Some c).

(** The keys that go to the new bucket. *)
Definition moves k : bool := MAKE_HASH k mod 2 ^ e =? nactive tb.

Definition split_buckets : list (list hterm) :=
  <[Z.to_nat (nactive tb) := filter (λ b, moves (keyof b) = true) c]>
    (<[Z.to_nat (nactive tb - 2 ^ (e - 1)) := filter (λ b, moves (keyof b) = false) c]> (B ++ replicate m [])).

Lemma from_fresh : Forall (fresh_entry tb (nactive tb - 2 ^ (e - 1))) c.
Proof.
  destruct (ok_chain _ _ Hok _ _ Hc) as [_ _ Hent]. apply unfixed_fresh; [done|]. by rewrite Z2Nat.id in Hent by lia.
Qed.

Lemma split_addr tb' k : shape_ok tb' e → nactive tb' = nactive tb + 1 →
  slot tb' k = if moves k then nactive tb else slot tb k.
Proof.
  intros Hs Ea. unfold slot at 1. rewrite (hash_to_ix_addr _ _ _ Hs), Ea, addr_grow by lia. by rewrite Haddr.
Qed.

Lemma moves_from k : moves k = true → slot tb k = nactive tb - 2 ^ (e - 1).
Proof. unfold moves. intros Hm%Z.eqb_eq. rewrite Haddr. apply addr_from; [lia|done|by left]. Qed.

Lemma added_bucket i c' : (B ++ replicate m []) !! i = Some c' → Z.of_nat i < nactive tb → B !! i = Some c'.
Proof. intros E Hi. pose proof (ok_slots _ _ Hok). rewrite lookup_app_l in E; [done|]. unfold zlen in *. lia. Qed.

Lemma added_empty i c' : (B ++ replicate m []) !! i = Some c' → nactive tb <= Z.of_nat i → c' = [].
Proof.
  intros [E|[_ E]]%lookup_app_Some Hi; [by apply (ok_rest _ _ Hok _ _ Hi)|]. by apply lookup_replicate in E as [-> _].
Qed.

Lemma split_lookup i c' : split_buckets !! i = Some c' →
  Z.of_nat i = nactive tb ∧ c' = filter (λ b, moves (keyof b) = true) c ∨
  Z.of_nat i = nactive tb - 2 ^ (e - 1) ∧ c' = filter (λ b, moves (keyof b) = false) c ∨
  Z.of_nat i ≠ nactive tb ∧ Z.of_nat i ≠ nactive tb - 2 ^ (e - 1) ∧ (B ++ replicate m []) !! i = Some c'.
Proof.
  unfold split_buckets. intros Ei. apply list_lookup_insert_Some in Ei as [(<- & <- & _)|[Hne Ei]]; [left; split; [lia|done]|right].
  apply list_lookup_insert_Some in Ei as [(<- & <- & _)|[Hne' Ei]]; [left; split; [lia|done]|right]. split_and!; [lia|lia|done].
Qed.

Lemma split_entries tb' i c' : shape_ok tb' e → nactive tb' = nactive tb + 1 → split_buckets !! i = Some c' →
  grouped c' ∧ Forall (fresh_entry tb' (Z.of_nat i)) c'.
Proof.
  intros Hs Ea Ei. pose proof from_fresh as Hfr. pose proof (co_grouped _ _ _ (ok_chain _ _ Hok _ _ Hc)) as Hgr.
  assert (∀ v b, b ∈ filter (λ b, moves (keyof b) = v) c → fresh_entry tb' (if v then nactive tb else nactive tb - 2 ^ (e - 1)) b) as Hin.
  { intros v b [Hv Hb]%list_elem_of_filter. rewrite Forall_forall in Hfr. destruct (Hfr _ Hb) as [Hsl Hh].
    split; [|done]. by rewrite (split_addr tb') , Hv, Hsl by done. }
  apply split_lookup in Ei as [(-> & ->)|[(-> & ->)|(N1 & N2 & Ei)]].
  - split; [by apply grouped_sub|]. apply Forall_forall, (Hin true).
  - split; [by apply grouped_sub|]. apply Forall_forall, (Hin false).
  - destruct (Z.lt_ge_cases (Z.of_nat i) (nactive tb)) as [Hlt|Hge]; [|by rewrite (added_empty _ _ Ei Hge)].
    destruct (ok_chain _ _ Hok _ _ (added_bucket _ _ Ei Hlt)) as [Hg _ Hent]. split; [done|].
    apply (unfixed_fresh _ _ _ Hf) in Hent. eapply Forall_impl; [exact Hent|]. intros b [Hsl Hh]. split; [|done].
    rewrite (split_addr tb') by done. destruct (moves (keyof b)) eqn:Em; [|done]. apply moves_from in Em. congruence.
Qed.

Lemma split_keys tb' k i c' : shape_ok tb' e → nactive tb' = nactive tb + 1 → slot tb' k = Z.of_nat i → split_buckets !! i = Some c' →
  ∃ c0, B !! Z.to_nat (slot tb k) = Some c0 ∧ filter (λ b, keyof b = k) c' = filter (λ b, keyof b = k) c0.
Proof.
  intros Hs Ea Esl Ei. rewrite (split_addr tb') in Esl by done. pose proof (slot_range _ _ k Hok) as Hr.
  destruct (moves k) eqn:Em.
  - apply split_lookup in Ei as [(_ & ->)|[(Hi & _)|(Hi & _)]]; [|lia|congruence]. exists c. split; [by rewrite (moves_from _ Em)|].
    rewrite filter_sub. by rewrite bool_decide_true.
  - apply split_lookup in Ei as [(Hi & _)|[(Hi & ->)|(_ & _ & Ei)]]; [lia| |].
    + exists c. rewrite Esl, Hi. split; [done|]. rewrite filter_sub. by rewrite bool_decide_true.
    + exists c'. split; [|done]. rewrite Esl, Nat2Z.id. apply added_bucket; [done|lia].
Qed.

Lemma split_live : nactive tb < zlen (B ++ replicate m []) → zlen (live (concat split_buckets)) = zlen (live (concat B)).
Proof.
  intros Hlen. pose proof from_fresh as Hfr. pose proof (ok_slots _ _ Hok).
  assert (∀ v, live (filter (λ b, moves (keyof b) = v) c) = filter (λ b, moves (keyof b) = v) c) as Hl.
  { intros v. apply (fresh_live tb (nactive tb - 2 ^ (e - 1))). apply Forall_forall.
    intros b [_ Hb]%list_elem_of_filter. by eapply Forall_forall in Hfr. }
  destruct (lookup_lt_is_Some_2 (B ++ replicate m []) (Z.to_nat (nactive tb))) as [c' E']; [unfold zlen in *; lia|].
  unfold split_buckets. rewrite (live_insert _ _ c') by (rewrite list_lookup_insert_ne; [done|lia]).
  rewrite (live_insert _ _ c) by (rewrite lookup_app_l; [done|unfold zlen in *; lia]).
  assert (c' = []) as -> by (apply (added_empty _ _ E'); lia).
  rewrite !Hl, (fresh_live _ _ _ Hfr), concat_app, concat_empty, app_nil_r. pose proof (length_sub moves c).
  change (zlen (live [])) with 0. lia.
Qed.

End Grow.

(** What a step that moves objects to other buckets leaves as it was. *)
Record moved tb B tb' B' : Prop := {
  mv_ok : table_ok tb' B';
  mv_type : t_type tb' = t_type tb;
  mv_items : nitems tb' = nitems tb;
  mv_nfixed : nfixed tb' = nfixed tb;
  mv_objects : ∀ k, objects tb' B' k = objects tb B k;
  mv_fixed : nfixed tb ≠ 0 → tb' = tb ∧ B' = B }.

Lemma moved_refl tb B : table_ok tb B → moved tb B tb B.
Proof. by split. Qed.

(** The slots of the next round, and the bucket to split. *)
Lemma grow_address tb B :
  table_ok tb B → ∃ e, 8 <= e ∧ 2 ^ (e - 1) <= nactive tb < 2 ^ e ∧ (∀ k, slot tb k = addr (nactive tb) e (MAKE_HASH k)) ∧
    (if nactive tb <=? to_int (szm tb) then (Z.land (nactive tb) (Z.shiftr (to_int (szm tb)) 1), to_int (szm tb))
     else (0, to_int (Z.lor (Z.shiftl (to_int (szm tb)) 1) 1))) = (nactive tb - 2 ^ (e - 1), 2 ^ e - 1) ∧
    (if nactive tb - 2 ^ (e - 1) =? 0 then 2 ^ e - 1 else szm tb) = 2 ^ e - 1.
Proof.
  intros Hok. destruct (ok_shape _ _ Hok) as (e & Hs). destruct (active_small _ _ Hok) as [_ Hsm]. pose proof Hs as [Hm Hk Ha].
  pose proof (pow2_split e ltac:(lia)) as Hp. assert (to_int (szm tb) = 2 ^ e - 1) as Em by (rewrite Hm; apply to_int_small; unfold INT_MAX; lia).
  rewrite Em. assert (∀ k, slot tb k = addr (nactive tb) e (MAKE_HASH k)) as Hsl by (intros; by apply hash_to_ix_addr).
  destruct (Z.eq_dec (nactive tb) (2 ^ e)) as [Ea|Na].
  - exists (e + 1). pose proof (pow2_split (e + 1) ltac:(lia)) as Hp1. replace (e + 1 - 1) with e in * by lia. split_and!; [lia|lia|lia| | |].
    + intros k. rewrite Hsl. by apply addr_full; [lia|].
    + destruct (Z.leb_spec (nactive tb) (2 ^ e - 1)); [lia|]. f_equal; [lia|].
      replace (Z.lor _ 1) with (2 ^ (e + 1) - 1); [apply to_int_small; unfold INT_MAX; lia|].
      rewrite lor_shiftl_add by lia. lia.
    + rewrite (proj2 (Z.eqb_eq _ _)) by lia. done.
  - exists e. split_and!; [done|lia|lia|done| |].
    + destruct (Z.leb_spec (nactive tb) (2 ^ e - 1)); [|lia]. rewrite mask_low, land_mask by lia. f_equal.
      symmetry. apply (Z.mod_unique_pos _ _ 1); lia.
    + rewrite (proj2 (Z.eqb_neq _ _)) by lia. done.
Qed.

(** The segments have room for one more bucket. *)
Lemma grow_room tb B :
  table_ok tb B → ∃ g1 m,
    (∀ tb0, t_segs tb0 = t_segs tb →
       (if nactive tb =? g_nslots (t_segs tb0) then '(ok, g) ← alloc_seg (t_segs tb0); Ok (ok, set_segs tb0 g) else Ok (true, tb0)) =
       Ok (true, set_segs tb0 g1)) ∧
    represents g1 (B ++ replicate m []) ∧ nactive tb < zlen (B ++ replicate m []) <= nactive tb + SEGSZ.
Proof.
  intros Hok. pose proof (represents_length _ _ (ok_segs _ _ Hok)) as Hl. pose proof (ok_slots _ _ Hok).
  destruct (Z.eqb_spec (nactive tb) (zlen B)) as [E|N].
  - destruct (alloc_seg_ok _ _ (ok_segs _ _ Hok) Hal) as (g' & Ea & Hg & _). exists g', (Z.to_nat SEGSZ). split_and!; [|done|..].
    + intros tb0 ->. by rewrite Hl, E, Z.eqb_refl, Ea.
    + unfold zlen, SEGSZ in *; rewrite length_app, length_replicate; lia.
    + unfold zlen, SEGSZ in *; rewrite length_app, length_replicate; lia.
  - exists (t_segs tb), 0%nat. cbn [replicate]. rewrite app_nil_r. split_and!; [|apply Hok|lia|lia].
    intros tb0 E0. rewrite E0, Hl, (proj2 (Z.eqb_neq _ _)) by done. rewrite <- E0. by destruct tb0.
Qed.

Lemma split_from tb B e c :
  table_ok tb B → nfixed tb = 0 → 8 <= e → 2 ^ (e - 1) <= nactive tb < 2 ^ e → (∀ k, slot tb k = addr (nactive tb) e (MAKE_HASH k)) →
  B !! Z.to_nat (nactive tb - 2 ^ (e - 1)) = Some c →
  split_chain (2 ^ e - 1) (nactive tb - 2 ^ (e - 1)) false c [] [] =
    (filter (λ b, moves tb e (keyof b) = false) c, filter (λ b, moves tb e (keyof b) = true) c).
Proof.
  intros Hok Hf He Hn Haddr Hc. destruct (active_small _ _ Hok) as [_ Hsm]. apply (split_chain_ok _ _ (nactive tb)); [lia|].
  eapply Forall_impl; [by eapply (from_fresh tb B)|]. intros b [Hsl Hh]. rewrite Haddr in Hsl. pose proof (pow2_split e ltac:(lia)).
  split; [unfold deleted; rewrite Hh; apply Z.eqb_neq, hash_valid|]. apply addr_from in Hsl; [|lia|done]. unfold moves.
  rewrite Hh, land_mask by lia. rewrite to_int_small by (unfold INT_MAX; lia).
  destruct (Z.eqb_spec (MAKE_HASH (keyof b) mod 2 ^ e) (nactive tb)); lia.
Qed.

Lemma grow_ok tb B :
  table_ok tb B → nfixed tb = 0 → 7 * nactive tb < max_items → ∃ tb' B', grow tb (nactive tb) = Ok tb' ∧ moved tb B tb' B'.
Proof.
  intros Hok Hf Hload. destruct (grow_address _ _ Hok) as (e & He & Hn & Haddr & Efrom & Emask). pose proof (ok_slots _ _ Hok) as Hlen.
  destruct (grow_room _ _ Hok) as (g1 & m & Eroom & Hrep & Hroom).
  destruct (lookup_lt_is_Some_2 B (Z.to_nat (nactive tb - 2 ^ (e - 1)))) as [c Hc]; [unfold zlen in *; lia|].
  set (tb2 := set_segs (set_szm_active tb (2 ^ e - 1) (nactive tb + 1)) g1).
  destruct (put_bucket_ok tb2 _ (nactive tb - 2 ^ (e - 1)) (filter (λ b, moves tb e (keyof b) = false) c) Hrep) as (g2 & E2 & Hg2 & _); [lia|].
  destruct (put_bucket_ok (set_segs tb2 g2) _ (nactive tb) (filter (λ b, moves tb e (keyof b) = true) c) Hg2) as (g3 & E3 & Hg3 & _).
  { unfold zlen in *. rewrite length_insert. lia. }
  fold (split_buckets tb B e m c) in Hg3. exists (set_segs (set_segs tb2 g2) g3), (split_buckets tb B e m c). split.
  - unfold grow, begin_resizing. rewrite (ok_idle _ _ Hok). cbn [negb]. change (NACTIVE (set_resizing tb true)) with (NACTIVE tb).
    rewrite (NACTIVE_ok _ _ Hok), Z.eqb_refl. cbn [negb]. rewrite Eroom, bind_Ok by done. cbn [negb]. cbv zeta.
    unfold IS_FIXED. cbn [szm nactive nfixed set_segs set_resizing]. rewrite Efrom, Hf. cbn [Z.eqb negb]. rewrite Emask.
    replace (done_resizing _) with tb2 by (unfold tb2; pose proof (ok_idle _ _ Hok); destruct tb; cbn in *; by subst).
    unfold bucket. cbn [t_segs tb2 set_segs]. rewrite (BUCKET_ok _ _ _ c Hrep), bind_Ok;
      [|lia|rewrite lookup_app_l; [done|unfold zlen in *; lia]].
    by rewrite (split_from _ B), E2, bind_Ok by done.
  - assert (shape_ok (set_segs (set_segs tb2 g2) g3) e) as Hsh by (split; cbn; [done|lia|lia]).
    destruct (rehash_ok tb B (set_segs (set_segs tb2 g2) g3) (split_buckets tb B e m c)) as [Hok' Hobj]; try done; cbn.
    + apply Hok.
    + by exists e.
    + pose proof (ok_min _ _ Hok). lia.
    + unfold split_buckets, zlen in *. rewrite !length_insert. lia.
    + right. lia.
    + intros i c'. by apply (split_entries tb B e m c).
    + intros k i c'. by apply (split_keys tb B e m c).
    + apply split_live; try done. lia.
Qed.

Lemma try_grow_ok tb B : table_ok tb B → ∃ tb' B', try_grow tb = Ok tb' ∧ moved tb B tb' B'.
Proof.
  intros Hok. unfold try_grow, CHAIN_LEN. change (to_int (nitems tb)) with (NITEMS tb). rewrite (NITEMS_ok _ _ Hok), (NACTIVE_ok _ _ Hok).
  destruct (_ && _) eqn:E; [|exists tb, B; split; [done|by apply moved_refl]].
  apply andb_prop in E as [Hi%Z.gtb_lt Hf]. unfold IS_FIXED in Hf. rewrite negb_involutive in Hf. apply Z.eqb_eq in Hf.
  apply grow_ok; [done|done|]. pose proof (proj2 (ok_items _ _ Hok)). lia.
Qed.

Lemma bucket_fresh tb B i c : table_ok tb B → nfixed tb = 0 → B !! Z.to_nat i = Some c → 0 <= i → Forall (fresh_entry tb i) c.
Proof.
  intros Hok Hf Hc Hi. destruct (ok_chain _ _ Hok _ _ Hc) as [_ _ Hent]. apply unfixed_fresh; [done|]. by rewrite Z2Nat.id in Hent by lia.
Qed.

Lemma fresh_keys tb i c k : Forall (fresh_entry tb i) c → slot tb k ≠ i → k ∉ keys c.
Proof. intros Hc Hs (b & -> & Hb)%list_elem_of_fmap. rewrite Forall_forall in Hc. by destruct (Hc _ Hb). Qed.

Section Shrink.
Context tb B tb' (e : Z) (cs cd : list hterm).
Context (Hok : table_ok tb B) (Hf : nfixed tb = 0) (He : 8 <= e) (Hn : 2 ^ (e - 1) < nactive tb <= 2 ^ e) (Hmin : SEGSZ < nactive tb).
Context (Ea : nactive tb' = nactive tb - 1) (Haddr : ∀ k, slot tb k = addr (nactive tb) e (MAKE_HASH k)).
Context (Haddr' : ∀ k, slot tb' k = addr (nactive tb') e (MAKE_HASH k)).

Definition dst : Z := nactive tb' - 2 ^ (e - 1).

Context (Hcs : B !! Z.to_nat (nactive tb') = Some cs) (Hcd : B !! Z.to_nat dst = Some cd).

Definition joined : list (list hterm) := <[Z.to_nat (nactive tb') := []]> (<[Z.to_nat dst := cs ++ cd]> B).

Lemma dst_range : 0 <= dst < nactive tb'.
Proof. unfold dst. lia. Qed.

(** A key is in the bucket that goes away, or where it was. *)
Lemma join_addr k : slot tb k = nactive tb' ∧ slot tb' k = dst ∨ slot tb k = slot tb' k ∧ slot tb k ≠ nactive tb'.
Proof.
  rewrite Haddr, Haddr'. replace (nactive tb) with (nactive tb' + 1) by lia. rewrite addr_grow by lia. unfold dst.
  destruct (Z.eqb_spec (MAKE_HASH k mod 2 ^ e) (nactive tb')) as [E|N].
  - left. split; [done|]. apply addr_from; [lia|lia|by left].
  - right. pose proof (addr_range (nactive tb') e (MAKE_HASH k) ltac:(lia) ltac:(lia)). split; [done|lia].
Qed.

Lemma joined_lookup i c' : joined !! i = Some c' →
  c' = [] ∧ Z.of_nat i = nactive tb' ∨ Z.of_nat i = dst ∧ c' = cs ++ cd ∨ Z.of_nat i ≠ nactive tb' ∧ Z.of_nat i ≠ dst ∧ B !! i = Some c'.
Proof.
  pose proof dst_range. unfold joined. intros Ei. apply list_lookup_insert_Some in Ei as [(<- & <- & _)|[Hne Ei]]; [left; split; [done|lia]|right].
  apply list_lookup_insert_Some in Ei as [(<- & <- & _)|[Hne' Ei]]; [left; split; [lia|done]|right]. split_and!; [lia|lia|done].
Qed.

Lemma joined_entries i c' : joined !! i = Some c' → grouped c' ∧ Forall (fresh_entry tb' (Z.of_nat i)) c'.
Proof.
  pose proof dst_range as Hd. pose proof (bucket_fresh _ _ _ _ Hok Hf Hcs ltac:(lia)) as Hfs. pose proof (bucket_fresh _ _ _ _ Hok Hf Hcd ltac:(lia)) as Hfd.
  intros [(-> & _)|[(Hi & ->)|(N1 & N2 & Ei)]]%joined_lookup; [done| |].
  - split.
    + apply grouped_app; [apply (ok_chain _ _ Hok _ _ Hcs)|apply (ok_chain _ _ Hok _ _ Hcd)|].
      intros k (b & -> & Hb)%list_elem_of_fmap. apply (fresh_keys tb dst _ _ Hfd). rewrite Forall_forall in Hfs.
      destruct (Hfs _ Hb) as [-> _]. lia.
    + rewrite Hi. apply Forall_app. split.
      * eapply Forall_impl; [exact Hfs|]. intros b [Hs Hh]. split; [|done]. destruct (join_addr (keyof b)) as [[_ ?]|[_ ?]]; [done|congruence].
      * eapply Forall_impl; [exact Hfd|]. intros b [Hs Hh]. split; [|done]. destruct (join_addr (keyof b)) as [[? ?]|[? ?]]; [lia|congruence].
  - pose proof (ok_chain _ _ Hok _ _ Ei) as [Hg _ Hent]. split; [done|]. apply (unfixed_fresh _ _ _ Hf) in Hent.
    eapply Forall_impl; [exact Hent|]. intros b [Hs Hh]. split; [|done]. destruct (join_addr (keyof b)) as [[? ?]|[? ?]]; congruence.
Qed.

Lemma joined_keys k i c' : slot tb' k = Z.of_nat i → joined !! i = Some c' →
  ∃ c0, B !! Z.to_nat (slot tb k) = Some c0 ∧ filter (λ b, keyof b = k) c' = filter (λ b, keyof b = k) c0.
Proof.
  intros Esl Ei. pose proof dst_range as Hd. pose proof (bucket_fresh _ _ _ _ Hok Hf Hcs ltac:(lia)) as Hfs. pose proof (bucket_fresh _ _ _ _ Hok Hf Hcd ltac:(lia)) as Hfd.
  destruct (join_addr k) as [[E1 E2]|[E1 E2]].
  - apply joined_lookup in Ei as [(_ & Hi)|[(Hi & ->)|(? & ? & _)]]; [lia| |congruence]. exists cs. rewrite E1. split; [done|].
    rewrite filter_app, (filter_other k cd), app_nil_r; [done|]. apply (fresh_keys tb _ _ _ Hfd). lia.
  - apply joined_lookup in Ei as [(_ & Hi)|[(Hi & ->)|(_ & _ & Ei)]]; [congruence| |].
    + exists cd. rewrite E1, Esl, Hi. split; [done|]. rewrite filter_app, (filter_other k cs); [done|]. by apply (fresh_keys tb _ _ _ Hfs).
    + exists c'. by rewrite E1, Esl, Nat2Z.id.
Qed.

Lemma joined_live : zlen (live (concat joined)) = zlen (live (concat B)).
Proof.
  pose proof dst_range. unfold joined. rewrite (live_insert _ _ cs) by (rewrite list_lookup_insert_ne; [done|lia]).
  rewrite (live_insert _ _ cd) by done. rewrite live_app, zlen_app. change (zlen (live [])) with 0. lia.
Qed.

End Shrink.

(** The last segment is freed when none of its buckets is in use. *)
Lemma shrink_room B g (n : Z) :
  represents g B → SEGSZ <= n → n < zlen B <= n + SEGSZ → (∀ i c, n <= Z.of_nat i → B !! i = Some c → c = []) →
  ∃ g' B' T, B = B' ++ T ∧ concat T = [] ∧ represents g' B' ∧ n <= zlen B' < n + SEGSZ ∧
    ∀ tb0, t_segs tb0 = g →
      (if g_nslots (t_segs tb0) - n >=? SEGSZ then '(_, g) ← free_seg (t_segs tb0) false; Ok (done_resizing (set_segs tb0 g))
       else Ok (done_resizing tb0)) = Ok (done_resizing (set_segs tb0 g')).
Proof.
  intros Hr Hn Hlen Hempty. pose proof (represents_length _ _ Hr) as Hl. destruct (Z.leb_spec SEGSZ (g_nslots g - n)) as [Hge|Hlt].
  - rewrite <- (take_drop (Z.to_nat n) B) in Hr.
    destruct (free_seg_ok _ _ _ false Hr) as (m & g' & Efree & Hr' & _).
    { unfold zlen, SEGSZ in *. rewrite length_drop. lia. }
    { intros E%(f_equal length). unfold zlen, SEGSZ in *. rewrite length_take in E. cbn in E. lia. }
    exists g', (take (Z.to_nat n) B), (drop (Z.to_nat n) B). split_and!; [by rewrite take_drop| |done|..].
    + assert (drop (Z.to_nat n) B = replicate (length B - Z.to_nat n) []) as ->; [|apply concat_empty].
      apply list_eq. intros i. destruct (drop (Z.to_nat n) B !! i) as [c|] eqn:E.
      * pose proof E as E'. apply lookup_lt_Some in E'. rewrite length_drop in E'. rewrite lookup_drop in E.
        rewrite (Hempty (Z.to_nat n + i)%nat c ltac:(lia) E). symmetry. by apply lookup_replicate_2.
      * apply lookup_ge_None in E. symmetry. apply lookup_ge_None. rewrite length_replicate. by rewrite length_drop in E.
    + unfold zlen, SEGSZ in *. rewrite length_take. lia.
    + unfold zlen, SEGSZ in *. rewrite length_take. lia.
    + intros tb0 ->. by rewrite (proj2 (Z.geb_le _ _) Hge), Efree.
  - exists g, B, []. rewrite app_nil_r. split_and!; [done|done|done|lia|lia|].
    intros tb0 <-. rewrite Z.geb_leb, (proj2 (Z.leb_gt _ _)) by done. by destruct tb0.
Qed.

Lemma shrink_address tb B tb' :
  table_ok tb B → SEGSZ < nactive tb → nactive tb' = nactive tb - 1 →
  szm tb' = (if Z.land (nactive tb - 1) (Z.shiftr (to_int (szm tb)) 1) =? 0 then Z.shiftr (to_int (szm tb)) 1 else szm tb) →
  ∃ e, 8 <= e ∧ 2 ^ (e - 1) < nactive tb <= 2 ^ e ∧ (∀ k, slot tb k = addr (nactive tb) e (MAKE_HASH k)) ∧
    (∃ e', shape_ok tb' e') ∧ (∀ k, slot tb' k = addr (nactive tb') e (MAKE_HASH k)) ∧
    Z.land (nactive tb - 1) (Z.shiftr (to_int (szm tb)) 1) = nactive tb - 1 - 2 ^ (e - 1).
Proof.
  intros Hok Hmin Ea Es. destruct (ok_shape _ _ Hok) as (e & Hs). destruct (active_small _ _ Hok) as [_ Hsm]. pose proof Hs as [Hm Hk Ha].
  pose proof (pow2_split e ltac:(lia)) as Hp. assert (to_int (szm tb) = 2 ^ e - 1) as Em by (rewrite Hm; apply to_int_small; unfold INT_MAX; lia).
  assert (Z.land (nactive tb - 1) (Z.shiftr (to_int (szm tb)) 1) = nactive tb - 1 - 2 ^ (e - 1)) as Ed.
  { rewrite Em, mask_low, land_mask by lia. symmetry. apply (Z.mod_unique_pos _ _ 1); lia. }
  rewrite Ed in Es |- *. rewrite Em, mask_low in Es by lia. exists e. split_and!; [done|lia|lia|intros; by apply hash_to_ix_addr| | |done].
  - destruct (Z.eqb_spec (nactive tb - 1 - 2 ^ (e - 1)) 0) as [E0|N0].
    + exists (e - 1). assert (8 < e). { destruct (Z.eq_dec e 8) as [->|]; [unfold SEGSZ in *; lia|lia]. }
      pose proof (pow2_split (e - 1) ltac:(lia)). split; lia.
    + exists e. split; lia.
  - intros k. destruct (Z.eqb_spec (nactive tb - 1 - 2 ^ (e - 1)) 0) as [E0|N0].
    + assert (8 < e). { destruct (Z.eq_dec e 8) as [->|]; [unfold SEGSZ in *; lia|lia]. }
      pose proof (pow2_split (e - 1) ltac:(lia)). unfold slot. rewrite (hash_to_ix_addr _ (e - 1)) by (split; lia).
      rewrite addr_full by lia. by replace (e - 1 + 1) with e by lia.
    + unfold slot. apply hash_to_ix_addr. split; lia.
Qed.

Lemma shrink_ok tb B :
  table_ok tb B → nfixed tb = 0 → SEGSZ < nactive tb → ∃ tb' B', shrink tb (nactive tb) = Ok tb' ∧ moved tb B tb' B'.
Proof.
  intros Hok Hf Hmin. pose proof (ok_slots _ _ Hok) as Hlen. set (low := Z.shiftr (to_int (szm tb)) 1).
  set (tb' := set_szm_active tb (if Z.land (nactive tb - 1) low =? 0 then low else szm tb) (nactive tb - 1)).
  destruct (shrink_address tb B tb' Hok Hmin eq_refl eq_refl) as (e & He & Hn & Haddr & Hsh & Haddr' & Ed).
  pose proof (dst_range tb tb' e He Hn eq_refl) as Hd. change (nactive tb - 1 - 2 ^ (e - 1)) with (dst tb' e) in Ed. fold low in Ed.
  destruct (lookup_lt_is_Some_2 B (Z.to_nat (nactive tb'))) as [cs Hcs]; [unfold zlen in *; cbn; lia|].
  destruct (lookup_lt_is_Some_2 B (Z.to_nat (dst tb' e))) as [cd Hcd]; [unfold zlen in *; cbn in Hd; lia|].
  pose proof (bucket_fresh tb B _ _ Hok Hf Hcs ltac:(lia)) as Hfs.
  destruct (put_bucket_ok (set_resizing tb true) B (dst tb' e) (cs ++ cd) (ok_segs _ _ Hok)) as (g1 & E1 & Hg1 & _); [cbn in Hd; lia|].
  destruct (put_bucket_ok (set_segs (set_resizing tb true) g1) _ (nactive tb') [] Hg1) as (g2 & E2 & Hg2 & _).
  { unfold zlen in *. rewrite length_insert. cbn. lia. }
  fold (joined B tb' e cs cd) in Hg2.
  assert (∀ i c, joined B tb' e cs cd !! i = Some c → grouped c ∧ Forall (fresh_entry tb' (Z.of_nat i)) c) as Hent.
  { intros i c. by apply (joined_entries tb B tb' e cs cd). }
  destruct (shrink_room _ g2 (nactive tb') Hg2) as (g3 & B' & T & EB & ET & Hg3 & Hlen' & Efree).
  - cbn. lia.
  - unfold joined, zlen in *. rewrite !length_insert. cbn. lia.
  - intros i c Hi Ei. destruct (Hent _ _ Ei) as [_ Hc]. destruct c as [|b c]; [done|]. apply Forall_cons in Hc as [[Hs _] _].
    rewrite Haddr' in Hs. pose proof (addr_range (nactive tb') e (MAKE_HASH (keyof b)) ltac:(lia) ltac:(cbn; lia)). lia.
  - exists (set_segs tb' g3), B'. split.
    + unfold shrink, begin_resizing. rewrite (ok_idle _ _ Hok). cbn [negb]. change (NACTIVE (set_resizing tb true)) with (NACTIVE tb).
      rewrite (NACTIVE_ok _ _ Hok), Z.eqb_refl. unfold IS_FIXED. cbn [nfixed szm set_resizing]. rewrite Hf. cbn [Z.eqb negb]. cbv zeta.
      fold low. rewrite Ed. unfold bucket. cbn [t_segs set_resizing].
      rewrite (BUCKET_ok _ _ (nactive tb - 1) cs (ok_segs _ _ Hok) ltac:(cbn in Hd; lia) Hcs), bind_Ok.
      rewrite (BUCKET_ok _ _ (dst tb' e) cd (ok_segs _ _ Hok) ltac:(lia) Hcd), bind_Ok. fold (live cs).
      rewrite (fresh_live _ _ _ Hfs), E1, bind_Ok. change (nactive tb') with (nactive tb - 1) in E2, Efree. rewrite E2, bind_Ok.
      rewrite Efree by done. f_equal. unfold tb'. rewrite Ed. pose proof (ok_idle _ _ Hok) as Hid. clear -Hid. destruct tb; cbn in *. by subst.
    + assert (∀ i c, B' !! i = Some c → joined B tb' e cs cd !! i = Some c) as Hsub by (intros i c Ei; rewrite EB; by apply lookup_app_l_Some).
      destruct (rehash_ok tb B (set_segs tb' g3) B') as [Hok' Hobj]; try done.
      * apply Hok.
      * destruct Hsh as (e' & [? ? ?]). exists e'. by split.
      * cbn. lia.
      * right. destruct (ok_load _ _ Hok); cbn; lia.
      * intros i c Ei. by apply Hent, Hsub.
      * intros k i c Hs Ei. eapply (joined_keys tb B tb' e cs cd); [done..|]. by apply Hsub.
      * rewrite <- (joined_live tb B tb' e cs cd) by done. by rewrite EB, concat_app, ET, app_nil_r.
Qed.

Lemma try_shrink_ok tb B : table_ok tb B → ∃ tb' B', try_shrink tb = Ok tb' ∧ moved tb B tb' B'.
Proof.
  intros Hok. unfold try_shrink. rewrite (NITEMS_ok _ _ Hok), (NACTIVE_ok _ _ Hok).
  destruct (_ && negb (IS_FIXED tb)) eqn:E; [|exists tb, B; split; [done|by apply moved_refl]].
  apply andb_prop in E as [[Hn%Z.gtb_lt _]%andb_prop Hf]. unfold IS_FIXED in Hf. rewrite negb_involutive in Hf. apply Z.eqb_eq in Hf.
  by apply shrink_ok.
Qed.

End Tables.
