(* ===== verification/DbHashOps.v ===== *)
(** ETS hash tables (DbHash.v): what every operation does to the objects of a table that
    satisfies the invariant of DbHashSpec.v, and to the order in which its keys are visited. *)
From S2P Require Import Prelude DbSeg DbHash DbHashSpec.

(** * The order of the slots *)

(** The slots of one lock. *)
Definition row (n j : Z) : list Z := (λ i, j + 64 * i) <$> seqZ 0 ((n - 1 - j) / 64 + 1).

Definition slot_order (n : Z) : list Z := concat (row n <$> seqZ 0 64).

(** Every slot is followed by the next one in the list, the last one by [stop]. *)
Fixpoint linked (f : Z → Z) (l : list Z) (stop : Z) : Prop :=
  match l with [] => True | x :: l => f x = default stop (head l) ∧ linked f l stop end.

Lemma linked_app f l1 l2 stop : linked f l1 (default stop (head l2)) → linked f l2 stop → linked f (l1 ++ l2) stop.
Proof.
  induction l1 as [|x l1 IH]; [done|]. intros [Hx H1] H2. split; [|by apply IH]. rewrite Hx. by destruct l1.
Qed.

Lemma linked_at f l1 x l2 stop : linked f (l1 ++ x :: l2) stop → f x = default stop (head l2).
Proof. induction l1 as [|y l1 IH]; intros [Hx H1]; [done|by apply IH]. Qed.

Section Order.
Context {term obj : Type} `{DbTerms term obj} (tb : DbTableHash obj) (n : Z) (Hn : NACTIVE tb = n) (Hmin : 64 <= n).

Lemma row_linked j : 0 <= j < 64 → linked (next_slot tb) (row n j) (Z.land (j + 1) 63).
Proof.
  intros Hj. unfold row. set (m := (n - 1 - j) / 64 + 1).
  assert (∀ d : nat, ∀ a, 0 <= a → m = a + Z.of_nat d → linked (next_slot tb) ((λ i, j + 64 * i) <$> seqZ a (Z.of_nat d)) (Z.land (j + 1) 63)) as Hall.
  { induction d as [|d IH]; intros a Ha Em; [done|]. rewrite seqZ_cons by lia. cbn [fmap list_fmap linked].
    replace (Z.pred (Z.of_nat (S d))) with (Z.of_nat d) by lia. split; [|apply IH; lia].
    unfold next_slot, DB_HASH_LOCK_CNT, DB_HASH_LOCK_MASK. rewrite Hn. destruct d as [|d].
    - cbn. destruct (Z.ltb_spec (j + 64 * a + 64) n); [unfold m in Em; dlia|].
      change 63 with (Z.ones 6). rewrite !Z.land_ones by done. change (2 ^ 6) with 64. unfold id.
      replace (j + 64 * a + 64 + 1) with (j + 1 + (a + 1) * 64) by lia. by apply Z.mod_add.
    - rewrite (seqZ_cons (Z.succ a)) by lia. cbn [fmap list_fmap head default from_option].
      destruct (Z.ltb_spec (j + 64 * a + 64) n); [unfold id; lia|]. unfold m in Em. dlia. }
  replace m with (Z.of_nat (Z.to_nat m)); [apply Hall; [lia|]|]; unfold m; dlia.
Qed.

Lemma row_head j : 0 <= j < 64 → head (row n j) = Some j.
Proof. intros Hj. unfold row. rewrite seqZ_cons by dlia. cbn. f_equal. lia. Qed.

Lemma order_linked : linked (next_slot tb) (slot_order n) 0.
Proof.
  unfold slot_order.
  assert (∀ d : nat, ∀ a, 0 <= a → 64 = a + Z.of_nat d → linked (next_slot tb) (concat (row n <$> seqZ a (Z.of_nat d))) 0) as Hall.
  { induction d as [|d IH]; intros a Ha Ed; [done|]. rewrite seqZ_cons by lia. cbn [fmap list_fmap concat].
    replace (Z.pred (Z.of_nat (S d))) with (Z.of_nat d) by lia. apply linked_app; [|apply IH; lia].
    replace (default 0 _) with (Z.land (a + 1) 63); [apply row_linked; lia|]. destruct d as [|d].
    - cbn. replace a with 63 by lia. done.
    - rewrite (seqZ_cons (Z.succ a)) by lia. cbn [fmap list_fmap concat].
      pose proof (row_head (Z.succ a) ltac:(lia)) as Hh. destruct (row n (Z.succ a)) as [|x l]; [done|]. cbn in Hh |- *. unfold id. injection Hh as ->.
      change 63 with (Z.ones 6). rewrite Z.land_ones by done. change (2 ^ 6) with 64. rewrite Z.mod_small; lia. }
  apply (Hall 64%nat 0); lia.
Qed.

Lemma order_head : head (slot_order n) = Some 0.
Proof.
  unfold slot_order. rewrite seqZ_cons by lia. rewrite fmap_cons. cbn [concat]. pose proof (row_head 0 ltac:(lia)) as Hh.
  by destruct (row n 0).
Qed.

End Order.

Lemma slot_order_elem n x : 64 <= n → x ∈ slot_order n ↔ 0 <= x < n.
Proof.
  intros Hn. unfold slot_order. rewrite list_elem_of_In, in_concat. split.
  - intros (l & Hl & Hx). rewrite <- list_elem_of_In in Hl. rewrite <- list_elem_of_In in Hx. apply list_elem_of_fmap in Hl as (j & -> & Hj%elem_of_seqZ).
    apply list_elem_of_fmap in Hx as (i & -> & Hi%elem_of_seqZ). dlia.
  - intros Hx. exists (row n (x mod 64)). rewrite <- !list_elem_of_In. split.
    + apply list_elem_of_fmap_2, elem_of_seqZ. dlia.
    + apply list_elem_of_fmap. exists (x / 64). split; [dlia|]. apply elem_of_seqZ. dlia.
Qed.

Lemma slot_order_nodup n : NoDup (slot_order n).
Proof.
  unfold slot_order. pose proof (NoDup_seqZ 0 64) as Hnd. revert Hnd.
  assert (∀ j, j ∈ seqZ 0 64 → 0 <= j < 64) as Hr by (intros j ?%elem_of_seqZ; lia). revert Hr.
  induction (seqZ 0 64) as [|j js IH]; intros Hr; [constructor|]. intros [Hj Hnd]%NoDup_cons. cbn [fmap list_fmap concat].
  apply NoDup_app. split_and!; [| |apply IH; [|done]; intros; apply Hr; by right].
  - apply NoDup_fmap_2; [intros ? ? ?; lia|apply NoDup_seqZ].
  - intros x (i & -> & Hi%elem_of_seqZ)%list_elem_of_fmap. rewrite list_elem_of_In, in_concat. intros (l & Hl & Hx).
    rewrite <- list_elem_of_In in Hl. rewrite <- list_elem_of_In in Hx. apply list_elem_of_fmap in Hl as (j' & -> & Hj').
    apply list_elem_of_fmap in Hx as (i' & E & _). assert (j = j') as ->; [|done]. pose proof (Hr j ltac:(left)). pose proof (Hr j' ltac:(by right)). lia.
Qed.

(** * Effects *)

Section Ops.
Context `{SegMemory} {term obj : Type} `{DbTerms term obj}.
Abbreviation hterm := (HashDbTerm obj).
Abbreviation table := (DbTableHash obj).
Implicit Types (tb : table) (b : hterm) (c pre run post : list hterm) (k : term) (o : obj) (B : list (list hterm)).
Context (Hal : ∀ n, alloc_succeeds n = true).

Definition chain_at B (i : Z) : list hterm := default [] (B !! Z.to_nat i).

(** The keys in the order in which they are visited. *)
Definition sequence tb B : list term := concat ((λ i, remove_dups (keys (chain_at B i))) <$> slot_order (nactive tb)).

(** The objects of [k] become [l], and nothing else changes; while a table is fixed, no
    key leaves the sequence, and the order stays. *)
Record effect tb B tb' B' k (l : list obj) : Prop := {
  ef_ok : table_ok tb' B';
  ef_type : t_type tb' = t_type tb;
  ef_nfixed : nfixed tb' = nfixed tb;
  ef_items : nitems tb' = nitems tb + (zlen l - zlen (objects tb B k));
  ef_objects : objects tb' B' k = l;
  ef_others : ∀ k', k' ≠ k → objects tb' B' k' = objects tb B k';
  ef_order : nfixed tb ≠ 0 → nactive tb' = nactive tb ∧ sequence tb B `sublist_of` sequence tb' B' }.

Lemma effect_moved tb B tb1 B1 tb' B' k l : effect tb B tb1 B1 k l → moved tb1 B1 tb' B' → effect tb B tb' B' k l.
Proof.
  intros [Hok1 Ht Hf Hi Ho Hoth Hord] [Hok' Ht' Hi' Hf' Ho' Hfix]. split; try done; try congruence.
  - intros k' Hk'. rewrite Ho'. by apply Hoth.
  - intros Hn. destruct Hfix as [-> ->]; [congruence|]. by apply Hord.
Qed.

Lemma effect_refl tb B k : table_ok tb B → effect tb B tb B k (objects tb B k).
Proof. intros Hok. split; try done; lia. Qed.

Lemma remove_dups_app_disjoint {A} `{EqDecision A} (l1 l2 : list A) :
  (∀ x, x ∈ l1 → x ∉ l2) → remove_dups (l1 ++ l2) = remove_dups l1 ++ remove_dups l2.
Proof.
  induction l1 as [|x l1 IH]; intros Hd; [done|]. cbn. rewrite IH by (intros y Hy; apply Hd; by right).
  assert (x ∉ l2) as Hx by (apply Hd; left). destruct (decide_rel elem_of x (l1 ++ l2)) as [Hin|Hn], (decide_rel elem_of x l1) as [Hi|Hn']; try done.
  - by apply elem_of_app in Hin as [?|?].
  - destruct Hn. apply elem_of_app. by left.
Qed.

Lemma remove_dups_run k run : Forall (λ b, keyof b = k) run → remove_dups (keys run) = if decide (run = []) then [] else [k].
Proof.
  induction 1 as [|b run Hb Hr IH]; [done|]. cbn. rewrite Hb. fold (keys run). rewrite IH.
  destruct run as [|b' run]; [done|]. apply Forall_cons in Hr as [Hb' _]. cbn. rewrite Hb'.
  destruct (decide_rel _ _ _) as [_|Hn]; [done|]. exfalso. apply Hn. left.
Qed.

Lemma group_sublist c k pre run post run' :
  view c k pre run post → Forall (λ b, keyof b = k) run' → (run ≠ [] → run' ≠ []) →
  remove_dups (keys c) `sublist_of` remove_dups (keys (pre ++ run' ++ post)).
Proof.
  intros Hv Hr Hne. pose proof Hv as [-> Hpre Hrun Hpost _ _ _ Hd].
  assert (∀ r, Forall (λ b, keyof b = k) r →
    remove_dups (keys (pre ++ r ++ post)) = remove_dups (keys pre) ++ remove_dups (keys r) ++ remove_dups (keys post)) as Happ.
  { intros r Hrr. rewrite !keys_app, !remove_dups_app_disjoint; [done| |].
    - intros x Hx. by rewrite (run_keys _ _ _ Hrr Hx).
    - intros x Hx [Hin|Hin]%elem_of_app; [|by apply (Hd x)]. rewrite (run_keys _ _ _ Hrr Hin) in Hx. done. }
  rewrite !Happ by done. apply sublist_app; [done|]. apply sublist_app; [|done].
  rewrite (remove_dups_run k run), (remove_dups_run k run') by done.
  destruct (decide (run = [])); [apply sublist_nil_l|]. destruct (decide (run' = [])); [by destruct Hne|done].
Qed.

(** One bucket has been changed. *)
Lemma sequence_sublist tb B tb' B' :
  nactive tb' = nactive tb → (∀ i, remove_dups (keys (chain_at B i)) `sublist_of` remove_dups (keys (chain_at B' i))) →
  sequence tb B `sublist_of` sequence tb' B'.
Proof.
  intros Ea Hi. unfold sequence. rewrite Ea. induction (slot_order (nactive tb)) as [|i l IH]; [done|]. cbn. by apply sublist_app.
Qed.

(** The bucket of a key and the group of its objects. *)
Record key_view tb B k c pre run post : Prop := {
  kv_at : B !! Z.to_nat (slot tb k) = Some c;
  kv_bucket : bucket tb (slot tb k) = Ok c;
  kv_view : view c k pre run post;
  kv_hashed : Forall hashed c;
  kv_run : run_ok (t_type tb) run;
  kv_entries : Forall (λ b, hvalue b = MAKE_HASH k ∨ hvalue b = INVALID_HASH ∧ nfixed tb ≠ 0 ∧ slot tb k ∈ fixdel tb) run;
  kv_objects : objects tb B k = rev (dbterm <$> live run) }.

Lemma view_key tb B k : table_ok tb B → ∃ c pre run post, key_view tb B k c pre run post.
Proof.
  intros Hok. destruct (slot_bucket _ _ k Hok) as (c & Ec & Eb & Hc). destruct (grouped_view c k (co_grouped _ _ _ Hc)) as (pre & run & post & Hv).
  exists c, pre, run, post. split; try done.
  - by eapply chain_hashed.
  - rewrite <- (view_filter _ _ _ _ _ Hv). apply Hc.
  - pose proof (co_entries _ _ _ Hc) as He. rewrite (v_eq _ _ _ _ _ Hv) in He. apply Forall_app in He as [_ [He _]%Forall_app].
    pose proof (v_run _ _ _ _ _ Hv) as Hk. apply Forall_forall. intros b Hb. rewrite Forall_forall in He, Hk.
    destruct (He _ Hb) as [_ Hh]. by rewrite (Hk _ Hb) in Hh.
  - unfold objects. rewrite Ec. by eapply content_view.
Qed.

(** The group of a key is replaced. *)
Lemma run_effect tb B k c pre run post run' fd n' :
  table_ok tb B → key_view tb B k c pre run post →
  Forall (λ b, keyof b = k) run' →
  Forall (λ b, hvalue b = MAKE_HASH k ∨ hvalue b = INVALID_HASH ∧ nfixed tb ≠ 0 ∧ slot tb k ∈ fd) run' →
  run_ok (t_type tb) run' → fd = fixdel tb ∨ nfixed tb ≠ 0 ∧ fd = slot tb k :: fixdel tb →
  n' = nitems tb + (zlen (live run') - zlen (live run)) → n' <= max_items → (nfixed tb ≠ 0 → run ≠ [] → run' ≠ []) →
  ∃ g B', (∀ tb0, t_segs tb0 = t_segs tb → put_bucket tb0 (slot tb k) (pre ++ run' ++ post) = Ok (set_segs tb0 g)) ∧
    effect tb B (set_segs (set_nitems (set_fixdel tb fd) n') g) B' k (rev (dbterm <$> live run')) ∧
    (run' ≠ [] → key_view (set_segs (set_nitems (set_fixdel tb fd) n') g) B' k (pre ++ run' ++ post) pre run' post).
Proof.
  intros Hok [Ec _ Hv _ _ _ Hobj] Hk He Hu Hfd Hn Hmax Hne.
  destruct (run_update tb B k c pre run post run' fd n') as (g & Hput & Hok' & Hl & Hoth); try done.
  exists g, (<[Z.to_nat (slot tb k) := pre ++ run' ++ post]> B). split; [done|]. set (tb' := set_segs _ g) in *. set (B' := <[_ := _]> B) in *.
  assert (B' !! Z.to_nat (slot tb' k) = Some (pre ++ run' ++ post)) as Ec' by (apply list_lookup_insert_eq; by eapply lookup_lt_Some).
  split; [split; try done|].
  - cbn. rewrite Hn, Hobj. unfold zlen. rewrite !length_rev, !length_fmap. done.
  - intros Hf. split; [done|]. apply sequence_sublist; [done|]. intros i. unfold chain_at.
    destruct (decide (Z.to_nat (slot tb k) = Z.to_nat i)) as [<-|Hni]; [|by unfold B'; rewrite list_lookup_insert_ne].
    change (B' !! Z.to_nat (slot tb k)) with (B' !! Z.to_nat (slot tb' k)). rewrite Ec', Ec. cbn. eapply group_sublist; [done|done|]. auto.
  - intros Hne'. pose proof (slot_range _ _ k Hok') as Hsl. pose proof (ok_chain _ _ Hok' _ _ Ec') as Hc'. rewrite Z2Nat.id in Hc' by lia.
    split; try done.
    + by eapply bucket_ok; [..|lia|].
    + destruct Hv. split; done.
    + by eapply chain_hashed.
Qed.

(** ** Insertion *)

Lemma deleted_new h o : deleted (mk_term (MAKE_HASH h) o) = false.
Proof. unfold deleted. cbn. apply Z.eqb_neq, hash_valid. Qed.

Lemma live_new k o run : live (mk_term (MAKE_HASH k) o :: run) = mk_term (MAKE_HASH k) o :: live run.
Proof. unfold live. rewrite filter_cons_True; [done|apply deleted_new]. Qed.

Lemma put_new_ok tb B k c pre run post o :
  table_ok tb B → key_view tb B k c pre run post → GETKEY o = k → nitems tb < max_items →
  run_ok (t_type tb) (mk_term (MAKE_HASH k) o :: run) →
  ∃ tb' B', put_new tb (slot tb k) (MAKE_HASH k) o pre (run ++ post) = Ok (DB_ERROR_NONE, tb') ∧
    effect tb B tb' B' k (objects tb B k ++ [o]).
Proof.
  intros Hok Hv Hk Hmax Hu. pose proof (v_run _ _ _ _ _ (kv_view _ _ _ _ _ _ _ Hv)) as Hr.
  destruct (run_effect tb B k c pre run post (mk_term (MAKE_HASH k) o :: run) (fixdel tb) (nitems tb + 1)) as (g & B1 & Hput & Hef & _); try done.
  - by constructor.
  - constructor; [by left|apply Hv].
  - by left.
  - rewrite live_new, zlen_cons. lia.
  - lia.
  - rewrite live_new in Hef. cbn [fmap list_fmap rev] in Hef. rewrite <- (kv_objects _ _ _ _ _ _ _ Hv) in Hef.
    destruct (try_grow_ok Hal _ _ (ef_ok _ _ _ _ _ _ Hef)) as (tb' & B' & Eg & Hm).
    exists tb', B'. split; [|by eapply effect_moved]. unfold put_new. cbn [app] in Hput. rewrite (Hput tb), bind_Ok by done.
    cbn [nitems set_segs]. replace (set_nitems _ _) with (set_segs (set_nitems (set_fixdel tb (fixdel tb)) (nitems tb + 1)) g) by (by destruct tb).
    by rewrite Eg.
Qed.

(** ** What insertion means *)

Definition spec_put (ty : table_type) (l : list obj) o (key_clash_fail : bool) : db_error * list obj :=
  if key_clash_fail && negb (bool_decide (l = [])) then (DB_ERROR_BADKEY, l)
  else match ty with
  | DB_SET => (DB_ERROR_NONE, [o])
  | DB_BAG => (DB_ERROR_NONE, if bool_decide (o ∈ l) then l else l ++ [o])
  | DB_DUPLICATE_BAG => (DB_ERROR_NONE, l ++ [o])
  end.

Lemma no_objects run : rev (dbterm <$> live run) = [] ↔ live run = [].
Proof.
  split; [|by intros ->]. intros E%(f_equal length). rewrite length_rev, length_fmap in E. by destruct (live run).
Qed.

Lemma live_in_run_ok k run post first :
  Forall (λ b, keyof b = k) run → Forall hashed run → k ∉ keys post → Forall hashed post →
  first = false ∨ run ≠ [] → live_in_run k (MAKE_HASH k) first (run ++ post) = negb (bool_decide (live run = [])).
Proof.
  intros Hr Hh Hp Hhp. revert first. induction Hr as [|b run Hb _ IH]; intros first Hf; cbn [app].
  - destruct Hf as [->|]; [|done]. destruct post as [|b post]; [done|]. cbn. apply Forall_cons in Hhp as [Hb _].
    rewrite has_key_spec, bool_decide_false by (done || (intros <-; apply Hp; left)). done.
  - apply Forall_cons in Hh as [Hhb Hh]. cbn [live_in_run]. rewrite has_key_spec, (bool_decide_true _ Hb), orb_true_r by done.
    rewrite IH by (done || by left). unfold live. rewrite filter_cons. destruct (decide (deleted b = false)) as [Hd|Hd]; [by rewrite Hd|].
    by destruct (deleted b).
Qed.

Lemma find_in_run_ok k run post o first :
  Forall (λ b, keyof b = k) run → Forall hashed run → k ∉ keys post → Forall hashed post → first = false ∨ run ≠ [] →
  match find_in_run k (MAKE_HASH k) o first (run ++ post) with
  | Some (qpre, q, qpost) => ∃ r, qpost = r ++ post ∧ run = qpre ++ q :: r ∧ dbterm q = o ∧ o ∉ dbterm <$> qpre
  | None => o ∉ dbterm <$> run
  end.
Proof.
  intros Hr Hh Hp Hhp. revert first. induction Hr as [|b run Hb _ IH]; intros first Hf; cbn [app].
  - destruct Hf as [->|]; [|done]. destruct post as [|b post]; [apply not_elem_of_nil|]. cbn. apply Forall_cons in Hhp as [Hb _].
    rewrite has_key_spec, bool_decide_false by (done || (intros <-; apply Hp; left)). apply not_elem_of_nil.
  - apply Forall_cons in Hh as [Hhb Hh]. cbn [find_in_run]. rewrite has_key_spec, (bool_decide_true _ Hb), orb_true_r by done.
    case_bool_decide as Eo; [exists run; split_and!; [done|done|done|apply not_elem_of_nil]|].
    specialize (IH Hh false ltac:(by left)). destruct (find_in_run _ _ _ _ _) as [[[qpre q] qpost]|]; cbn.
    + destruct IH as (r & -> & -> & Eq & Hin). exists r. split_and!; [done|done|done|]. intros [?|?]%elem_of_cons; [congruence|done].
    + intros [?|?]%elem_of_cons; [congruence|done].
Qed.

Lemma bag_ok_app run1 run2 :
  bag_ok (run1 ++ run2) ↔ bag_ok run1 ∧ bag_ok run2 ∧ ∀ b, b ∈ run1 → dbterm b ∉ dbterm <$> live run2.
Proof.
  induction run1 as [|b run1 IH]; cbn; [split; [intros ?; split_and!; [done|done|by intros b ?%elem_of_nil]|tauto]|].
  rewrite IH, live_app, fmap_app, not_elem_of_app. split.
  - intros ((? & ? & Hall) & ? & ?). split_and!; try done. intros b' [->|?]%elem_of_cons; [done|by apply Hall].
  - intros ((? & ?) & ? & Hall). split_and!; try done; [intros b' ?; apply Hall; by right|apply Hall; left].
Qed.

(** An object that is not in the group, or only deleted. *)
Lemma run_ok_new ty k o run :
  run_ok ty run → ty ≠ DB_SET ∨ run = [] → (ty = DB_BAG → o ∉ dbterm <$> live run) → run_ok ty (mk_term (MAKE_HASH k) o :: run).
Proof.
  intros Hr Hs Hb. destruct ty; cbn in *.
  - destruct Hs as [?| ->]; [done|cbn; lia].
  - split; [done|by apply Hb].
  - done.
Qed.

Lemma live_cons b run : live (b :: run) = if deleted b then live run else b :: live run.
Proof.
  unfold live. rewrite filter_cons. destruct (deleted b) eqn:E; [by destruct (decide (true = false))|by destruct (decide (false = false))].
Qed.

Lemma put_set_ok tb B k c pre b post o clash :
  table_ok tb B → key_view tb B k c pre [b] post → GETKEY o = k → nitems tb < max_items → t_type tb = DB_SET →
  ∃ tb' B', (if negb (deleted b) && clash then Ok (DB_ERROR_BADKEY, tb)
             else tb' ← put_bucket (if deleted b then set_nitems tb (nitems tb + 1) else tb) (slot tb k) (pre ++ mk_term (MAKE_HASH k) o :: post);
                  Ok (DB_ERROR_NONE, tb')) = Ok ((spec_put DB_SET (objects tb B k) o clash).1, tb') ∧
    effect tb B tb' B' k (spec_put DB_SET (objects tb B k) o clash).2.
Proof.
  intros Hok Hv Hk Hmax Ety. rewrite (kv_objects _ _ _ _ _ _ _ Hv). unfold spec_put.
  assert (rev (dbterm <$> live [b]) = if deleted b then [] else [dbterm b]) as El by (rewrite live_cons; by destruct (deleted b)).
  rewrite El. destruct (negb (deleted b) && clash) eqn:Ecl.
  - apply andb_prop in Ecl as [Hd%negb_true_iff ->]. rewrite Hd in *. cbn. exists tb, B. split; [done|]. rewrite <- El, <- (kv_objects _ _ _ _ _ _ _ Hv). by apply effect_refl.
  - assert ((clash && negb (bool_decide ((if deleted b then [] else [dbterm b]) = []))) = false) as -> by (by destruct (deleted b), clash).
    destruct (run_effect tb B k c pre [b] post [mk_term (MAKE_HASH k) o] (fixdel tb) (if deleted b then nitems tb + 1 else nitems tb))
      as (g & B1 & Hput & Hef & _); try done.
    + by constructor.
    + constructor; [by left|done].
    + rewrite Ety. cbn. lia.
    + by left.
    + rewrite live_new, live_cons. unfold zlen. destruct (deleted b); cbn; lia.
    + destruct (deleted b); lia.
    + cbn [app] in Hput. rewrite Hput, bind_Ok by (by destruct (deleted b)).
      exists (set_segs (set_nitems (set_fixdel tb (fixdel tb)) (if deleted b then nitems tb + 1 else nitems tb)) g), B1. split.
      * cbn. do 2 f_equal. destruct tb, (deleted b); done.
      * by rewrite live_new in Hef.
Qed.

Lemma revive_ok tb B k c pre qpre q r post o :
  table_ok tb B → key_view tb B k c pre (qpre ++ q :: r) post → nitems tb < max_items → t_type tb = DB_BAG →
  deleted q = true → dbterm q = o → o ∉ dbterm <$> qpre →
  ∃ tb' B', (tb' ← put_bucket (set_nitems tb (nitems tb + 1)) (slot tb k) (pre ++ mk_term (MAKE_HASH k) (dbterm q) :: qpre ++ r ++ post);
             Ok (DB_ERROR_NONE, tb')) = Ok (DB_ERROR_NONE, tb') ∧
    effect tb B tb' B' k (objects tb B k ++ [o]) ∧ o ∉ objects tb B k.
Proof.
  intros Hok Hv Hmax Ety Hd Eo Ho. pose proof (v_run _ _ _ _ _ (kv_view _ _ _ _ _ _ _ Hv)) as Hr. pose proof (kv_entries _ _ _ _ _ _ _ Hv) as He.
  pose proof (kv_run _ _ _ _ _ _ _ Hv) as Hu. rewrite Ety in Hu. apply bag_ok_app in Hu as (U1 & [U2 U3] & U4).
  apply Forall_app in Hr as [Hr1 [Hq Hr2]%Forall_cons], He as [He1 [_ He2]%Forall_cons].
  assert (live (qpre ++ q :: r) = live (qpre ++ r)) as El by (rewrite !live_app; f_equal; unfold live; by rewrite filter_cons_False by congruence).
  assert (o ∉ dbterm <$> live (qpre ++ r)) as Hno.
  { rewrite live_app, fmap_app, not_elem_of_app. split; [|by subst o]. intros (b & -> & [_ Hb]%list_elem_of_filter)%list_elem_of_fmap.
    apply Ho. by apply list_elem_of_fmap_2. }
  destruct (run_effect tb B k c pre (qpre ++ q :: r) post (mk_term (MAKE_HASH k) o :: qpre ++ r) (fixdel tb) (nitems tb + 1))
    as (g & B1 & Hput & Hef & _); try done.
  - constructor; [by subst o|by apply Forall_app].
  - constructor; [by left|by apply Forall_app].
  - rewrite Ety. split; [|done]. apply bag_ok_app. split_and!; [done|done|]. intros b Hb. specialize (U4 b Hb).
    unfold live in U4. by rewrite filter_cons_False in U4 by congruence.
  - by left.
  - rewrite live_new, El, zlen_cons. lia.
  - lia.
  - rewrite Eo. cbn [app] in Hput. rewrite <- app_assoc in Hput. rewrite Hput, bind_Ok by done.
    exists (set_segs (set_nitems (set_fixdel tb (fixdel tb)) (nitems tb + 1)) g), B1. split_and!.
    + by destruct tb.
    + rewrite live_new in Hef. cbn [fmap list_fmap rev] in Hef. by rewrite (kv_objects _ _ _ _ _ _ _ Hv), El.
    + rewrite (kv_objects _ _ _ _ _ _ _ Hv), El, list_elem_of_In, <- in_rev, <- list_elem_of_In. done.
Qed.

Lemma elem_of_live_rev o run : o ∈ rev (dbterm <$> live run) ↔ o ∈ dbterm <$> live run.
Proof. by rewrite !list_elem_of_In, <- in_rev. Qed.

Lemma db_put_hash_ok tb B o clash :
  table_ok tb B → nitems tb < max_items →
  ∃ tb' B', db_put_hash tb o clash = Ok ((spec_put (t_type tb) (objects tb B (GETKEY o)) o clash).1, tb') ∧
    effect tb B tb' B' (GETKEY o) (spec_put (t_type tb) (objects tb B (GETKEY o)) o clash).2.
Proof.
  intros Hok Hmax. destruct (view_key tb B (GETKEY o) Hok) as (c & pre & run & post & Hv). pose proof Hv as [_ Eb Hvw Hh Hu _ Hobj].
  unfold db_put_hash. fold (slot tb (GETKEY o)). rewrite Eb, bind_Ok, (split_has_key _ _ _ _ _ Hvw Hh).
  pose proof (put_new_ok tb B _ c pre run post o Hok Hv eq_refl Hmax) as Hnew.
  pose proof Hvw as [Ec _ Hrun Hpost _ _ Hnone _]. rewrite Ec in Hh. apply Forall_app in Hh as [_ [Hh1 Hh2]%Forall_app].
  destruct run as [|b run].
  { rewrite (Hnone eq_refl) in *. cbn [app] in *. rewrite Hobj in *. cbn in Hnew |- *. unfold spec_put. rewrite bool_decide_true, andb_false_r by done.
    destruct Hnew as (tb' & B' & E & Hef); [apply run_ok_new; [apply run_ok_nil|by right|intros _; apply not_elem_of_nil]|].
    exists tb', B'. destruct (t_type tb); [done| |done]. by rewrite bool_decide_false by apply not_elem_of_nil. }
  cbn [app]. destruct (t_type tb) eqn:Ety.
  { destruct run as [|]; [|cbn in Hu; lia]. by apply (put_set_ok tb B _ c). }
  all: rewrite (live_in_run_ok _ (b :: run) post true) by (done || by right).
  all: unfold spec_put; cbn [app] in Hnew.
  all: assert (bool_decide (objects tb B (GETKEY o) = []) = bool_decide (live (b :: run) = [])) as -> by (rewrite Hobj; apply bool_decide_ext, no_objects).
  - destruct clash; cbn [andb].
    + case_bool_decide as El; cbn [negb]; [|exists tb, B; split; [done|by apply effect_refl]].
      rewrite bool_decide_false by (rewrite Hobj, El; apply not_elem_of_nil). apply Hnew, run_ok_new; [done|by left|].
      intros _. rewrite El. apply not_elem_of_nil.
    + rewrite bool_decide_true by done. pose proof (find_in_run_ok _ (b :: run) post o true Hrun Hh1 Hpost Hh2 ltac:(by right)) as Hfind.
      cbn [app] in Hfind. destruct (find_in_run _ _ _ _ _) as [[[qpre q] qpost]|].
      * destruct Hfind as (r & -> & Er & Eo & Hq). destruct (deleted q) eqn:Ed.
        -- rewrite Er in Hv. destruct (revive_ok tb B (GETKEY o) c pre qpre q r post o) as (tb' & B' & E & Hef & Hno); try done.
           exists tb', B'. by rewrite bool_decide_false.
        -- exists tb, B. rewrite bool_decide_true; [split; [done|by apply effect_refl]|]. rewrite Hobj, elem_of_live_rev, Er, <- Eo.
           apply list_elem_of_fmap_2, list_elem_of_filter. split; [done|]. apply elem_of_app. right. left.
      * rewrite bool_decide_false.
        -- apply Hnew, run_ok_new; [done|by left|]. intros _ (b' & -> & [_ Hb']%list_elem_of_filter)%list_elem_of_fmap.
           apply Hfind. by apply list_elem_of_fmap_2.
        -- rewrite Hobj, elem_of_live_rev. intros (b' & -> & [_ Hb']%list_elem_of_filter)%list_elem_of_fmap.
           apply Hfind. by apply list_elem_of_fmap_2.
  - destruct clash; cbn [andb].
    + case_bool_decide as El; cbn [negb]; [|exists tb, B; split; [done|by apply effect_refl]]. by apply Hnew.
    + rewrite bool_decide_false by done. by apply Hnew.
Qed.

(** ** Lookup *)

Lemma live_dead run : Forall (λ b, deleted b = true) run ↔ live run = [].
Proof.
  split.
  - induction 1 as [|b run Hb _ IH]; [done|]. by rewrite live_cons, Hb.
  - induction run as [|b run IH]; [done|]. rewrite live_cons. destruct (deleted b) eqn:E; [|done]. intros ?. constructor; auto.
Qed.

(** The objects that are dead before the first one that is alive. *)
Lemma first_live run : live run = [] ∨ ∃ dead b r, run = dead ++ b :: r ∧ Forall (λ b, deleted b = true) dead ∧ deleted b = false.
Proof.
  induction run as [|b run [IH|(dead & b' & r & -> & Hd & Hb)]]; [by left|..]; destruct (deleted b) eqn:E.
  - left. by rewrite live_cons, E.
  - right. by exists [], b, run.
  - right. exists (b :: dead), b', r. split_and!; [done|by constructor|done].
  - right. by exists [], b, (dead ++ b' :: r).
Qed.

Lemma no_live_key k c : Forall hashed c → k ∉ keys c → Forall (λ b, has_live_key b k (MAKE_HASH k) = false) c.
Proof.
  intros Hh Hk. apply Forall_forall. intros b Hb. rewrite has_live_key_spec by (by eapply Forall_forall in Hh).
  rewrite bool_decide_false, andb_false_r; [done|]. intros <-. apply Hk. by apply list_elem_of_fmap_2.
Qed.

Lemma dead_live_key k c : Forall hashed c → Forall (λ b, deleted b = true) c → Forall (λ b, has_live_key b k (MAKE_HASH k) = false) c.
Proof.
  intros Hh Hd. apply Forall_forall. intros b Hb. rewrite has_live_key_spec by (by eapply Forall_forall in Hh).
  rewrite Forall_forall in Hd. by rewrite (Hd _ Hb).
Qed.

Lemma live_key k b : hashed b → keyof b = k → deleted b = false → has_live_key b k (MAKE_HASH k) = true.
Proof. intros Hh Hk Hd. by rewrite has_live_key_spec, Hd, bool_decide_true. Qed.

Record live_split c k pre dead b r post : Prop := {
  ls_run : Forall (λ b, keyof b = k) (dead ++ b :: r);
  ls_dead : Forall (λ b, deleted b = true) dead;
  ls_live : deleted b = false;
  ls_split : split_at (λ b, has_live_key b k (MAKE_HASH k)) c = (pre ++ dead, b :: r ++ post);
  ls_rest : split_at (λ b, negb (has_key b k (MAKE_HASH k))) (r ++ post) = (r, post) }.

Lemma split_has_live_key c k pre run post :
  view c k pre run post → Forall hashed c →
  live run = [] ∧ split_at (λ b, has_live_key b k (MAKE_HASH k)) c = (c, []) ∨
  ∃ dead b r, run = dead ++ b :: r ∧ live_split c k pre dead b r post.
Proof.
  intros [-> Hpre Hrun Hpost _ _ _ _] [Hh1 [Hh2 Hh3]%Forall_app]%Forall_app. destruct (first_live run) as [Hl|(dead & b & r & -> & Hd & Hb)].
  - left. split; [done|]. rewrite <- (app_nil_r (pre ++ run ++ post)) at 1. apply split_at_spec; [|done].
    rewrite !Forall_app. split_and!; [by apply no_live_key|apply dead_live_key; [done|by apply live_dead]|by apply no_live_key].
  - right. exists dead, b, r. split; [done|]. pose proof Hh2 as [Hhd [Hhb Hhr]%Forall_cons]%Forall_app.
    pose proof Hrun as [_ [Hkb Hkr]%Forall_cons]%Forall_app. split; try done.
    + replace (pre ++ (dead ++ b :: r) ++ post) with ((pre ++ dead) ++ b :: r ++ post) by (by rewrite <- !app_assoc).
      apply split_at_spec; [|by apply live_key]. apply Forall_app. split; [by apply no_live_key|by apply dead_live_key].
    + apply split_at_spec.
      * apply Forall_forall. intros b' Hb'. rewrite Forall_forall in Hhr, Hkr. rewrite has_key_spec by auto. by rewrite bool_decide_true by auto.
      * destruct post as [|b' post]; [done|]. apply Forall_cons in Hh3 as [? _]. rewrite has_key_spec, bool_decide_false; [done| |done].
        intros <-. apply Hpost. left.
Qed.

Lemma live_after_dead dead b r : Forall (λ b, deleted b = true) dead → deleted b = false → live (dead ++ b :: r) = b :: live r.
Proof. intros Hd Hb. by rewrite live_app, (proj1 (live_dead dead)), live_cons, Hb. Qed.

Lemma get_term_list_ok tb B k c pre dead b r post :
  key_view tb B k c pre (dead ++ b :: r) post → live_split c k pre dead b r post →
  get_term_list tb k (MAKE_HASH k) b (r ++ post) = (objects tb B k, post).
Proof.
  intros Hv [_ Hd Hb _ Hrest]. unfold get_term_list, build_term_list. rewrite (kv_objects _ _ _ _ _ _ _ Hv), (live_after_dead _ _ _ Hd Hb).
  pose proof (kv_run _ _ _ _ _ _ _ Hv) as Hu. destruct (t_type tb); rewrite ?Hrest.
  - cbn in Hu. rewrite length_app in Hu. cbn in Hu. destruct r; [|cbn in Hu; lia]. fold (live [b]). by rewrite live_cons, Hb.
  - fold (live (b :: r)). by rewrite live_cons, Hb.
  - fold (live (b :: r)). by rewrite live_cons, Hb.
Qed.

Lemma db_get_hash_ok tb B k : table_ok tb B → db_get_hash tb k = Ok (objects tb B k).
Proof.
  intros Hok. destruct (view_key tb B k Hok) as (c & pre & run & post & Hv). pose proof Hv as [_ Eb Hvw Hh _ _ Hobj].
  unfold db_get_hash. fold (slot tb k). rewrite Eb, bind_Ok. destruct (split_has_live_key _ _ _ _ _ Hvw Hh) as [[El ->]|(dead & b & r & -> & Hs)].
  - by rewrite Hobj, El.
  - rewrite (ls_split _ _ _ _ _ _ _ Hs). cbn. by rewrite (get_term_list_ok tb B _ _ _ _ _ _ _ Hv Hs).
Qed.

(** [lookup_element]: an element of every object, if all have it. *)
Definition spec_element (l : list obj) (ndex : Z) : db_error * list term :=
  if bool_decide (l = []) then (DB_ERROR_BADKEY, [])
  else if existsb (λ o, ndex >? arityval o) l then (DB_ERROR_BADITEM, [])
  else (DB_ERROR_NONE, (λ o, tpl o ndex) <$> l).

Lemma existsb_rev {A} (f : A → bool) l : existsb f (rev l) = existsb f l.
Proof. induction l as [|x l IH]; [done|]. cbn. rewrite existsb_app, IH. cbn. rewrite orb_false_r. apply orb_comm. Qed.

Lemma existsb_live (f : obj → bool) run : existsb (λ b, f (dbterm b) && negb (deleted b)) run = existsb f (dbterm <$> live run).
Proof.
  induction run as [|b run IH]; [done|]. cbn [existsb]. rewrite live_cons, IH. destruct (deleted b); cbn; [by rewrite andb_false_r|by rewrite andb_true_r].
Qed.

Lemma db_get_element_hash_ok tb B k ndex : table_ok tb B → db_get_element_hash tb k ndex = Ok (spec_element (objects tb B k) ndex).
Proof.
  intros Hok. destruct (view_key tb B k Hok) as (c & pre & run & post & Hv). pose proof Hv as [_ Eb Hvw Hh Hu _ Hobj].
  unfold db_get_element_hash. fold (slot tb k). rewrite Eb, bind_Ok. destruct (split_has_live_key _ _ _ _ _ Hvw Hh) as [[El ->]|(dead & b & r & -> & Hs)].
  - by rewrite Hobj, El.
  - pose proof (get_term_list_ok tb B _ _ _ _ _ _ _ Hv Hs) as Eget. destruct Hs as [_ Hd Hb -> Hrest]. cbn [snd]. unfold get_term_list in Eget.
    unfold spec_element. rewrite Hobj, existsb_rev, (live_after_dead _ _ _ Hd Hb). rewrite fmap_cons. cbn [rev existsb].
    rewrite bool_decide_false by (by intros [_ ?]%app_eq_nil). rewrite <- existsb_live. rewrite Hrest in Eget |- *. cbn [fst]. destruct (ndex >? arityval (dbterm b)); [done|]. cbn [orb].
    rewrite Hobj, (live_after_dead _ _ _ Hd Hb) in Eget. destruct (t_type tb).
    + cbn in Hu. rewrite length_app in Hu. destruct r; [done|cbn in Hu; lia].
    + destruct (existsb _ r); [done|]. injection Eget as ->. done.
    + destruct (existsb _ r); [done|]. injection Eget as ->. done.
Qed.

Lemma db_member_hash_ok tb B k : table_ok tb B → db_member_hash tb k = Ok (negb (bool_decide (objects tb B k = []))).
Proof.
  intros Hok. destruct (view_key tb B k Hok) as (c & pre & run & post & Hv). pose proof Hv as [_ Eb Hvw Hh _ _ Hobj].
  unfold db_member_hash. fold (slot tb k). rewrite Eb, bind_Ok. f_equal.
  assert (∀ f : hterm → bool, existsb f c = negb (bool_decide ((split_at f c).2 = []))) as ->.
  { intros f. clear. induction c as [|b c IH]; [done|]. cbn. destruct (f b); [done|]. rewrite IH. by destruct (split_at f c). }
  f_equal. apply bool_decide_ext. rewrite Hobj, no_objects. destruct (split_has_live_key _ _ _ _ _ Hvw Hh) as [[El ->]|(dead & b & r & -> & Hs)]; [done|].
  rewrite (ls_split _ _ _ _ _ _ _ Hs), (live_after_dead _ _ _ (ls_dead _ _ _ _ _ _ _ Hs) (ls_live _ _ _ _ _ _ _ Hs)). done.
Qed.

(** ** Deletion *)

(** The objects with [P] go; the first object that is alive is kept as a mark if the table
    is fixed. *)
Definition remain (P : obj → bool) (fixed : bool) dead b r : list hterm :=
  dead ++ (if P (dbterm b) then if fixed then [pseudo_delete b] else [] else [b]) ++ filter (λ b, deleted b || negb (P (dbterm b)) = true) r.

Lemma deleted_pseudo b : deleted (pseudo_delete b) = true.
Proof. done. Qed.

Lemma live_kept (P : obj → bool) r :
  live (filter (λ b, deleted b || negb (P (dbterm b)) = true) r) = filter (λ b, P (dbterm b) = false) (live r).
Proof.
  induction r as [|b r IH]; [done|]. rewrite live_cons, filter_cons. destruct (deleted b) eqn:Ed.
  - destruct (decide _) as [_|Hn]; [by rewrite live_cons, Ed|done].
  - rewrite filter_cons. destruct (P (dbterm b)); repeat destruct (decide _); try done. by rewrite live_cons, Ed, IH.
Qed.

Lemma remain_live P fixed dead b r :
  Forall (λ b, deleted b = true) dead → deleted b = false →
  live (remain P fixed dead b r) = filter (λ b, P (dbterm b) = false) (live (dead ++ b :: r)).
Proof.
  intros Hd Hb. unfold remain. rewrite live_after_dead, !live_app, (proj1 (live_dead dead) Hd), live_kept by done. cbn [app].
  rewrite filter_cons. destruct (P (dbterm b)); repeat destruct (decide _); try done; [by destruct fixed|]. by rewrite live_cons, Hb.
Qed.

Lemma remain_elem P fixed dead b r b' : b' ∈ remain P fixed dead b r → b' = pseudo_delete b ∧ P (dbterm b) && fixed = true ∨ b' ∈ dead ++ b :: r.
Proof.
  unfold remain. rewrite !elem_of_app. intros [?|[Hb|[_ ?]%list_elem_of_filter]].
  - right. by left.
  - destruct (P (dbterm b)), fixed; try by apply not_elem_of_nil in Hb.
    + left. by apply list_elem_of_singleton in Hb.
    + right. apply list_elem_of_singleton in Hb as ->. right. left.
    + right. apply list_elem_of_singleton in Hb as ->. right. left.
  - right. right. by right.
Qed.

Lemma bag_ok_sub (f : hterm → bool) run : bag_ok run → bag_ok (filter (λ b, f b = true) run).
Proof.
  induction run as [|b run IH]; [done|]. intros [Hr Hb]. rewrite filter_cons. destruct (decide _); [|by apply IH]. split; [by apply IH|].
  intros (b' & E & [Hd [_ Hb']%list_elem_of_filter]%list_elem_of_filter)%list_elem_of_fmap. apply Hb. rewrite E.
  apply list_elem_of_fmap_2, list_elem_of_filter. done.
Qed.

Lemma remain_ok ty P fixed dead b r : run_ok ty (dead ++ b :: r) → deleted b = false → run_ok ty (remain P fixed dead b r).
Proof.
  intros Hu Hb. unfold remain. destruct ty; [| |done]; cbn in *.
  - rewrite !length_app in *. cbn in Hu. destruct r; [|cbn in Hu; lia]. destruct (P (dbterm b)), fixed; cbn; lia.
  - apply bag_ok_app in Hu as (U1 & [U2 U3] & U4). rewrite !bag_ok_app.
    assert (∀ o, o ∉ dbterm <$> live r → o ∉ dbterm <$> live (filter (λ b0, deleted b0 || negb (P (dbterm b0)) = true) r)) as Hsub.
    { intros o Ho (b' & -> & [Hd [_ Hb']%list_elem_of_filter]%list_elem_of_filter)%list_elem_of_fmap. apply Ho.
      apply list_elem_of_fmap_2, list_elem_of_filter. done. }
    assert (∀ b', b' ∈ dead → dbterm b' ≠ dbterm b ∧ dbterm b' ∉ dbterm <$> live r) as Hdead.
    { intros b' Hb'. specialize (U4 b' Hb'). rewrite live_cons, Hb in U4. by apply not_elem_of_cons in U4. }
    split_and!; [done| |by apply bag_ok_sub| |].
    + destruct (P (dbterm b)), fixed; cbn; try done; (split; [done|apply not_elem_of_nil]).
    + intros b' Hb'. destruct (P (dbterm b)); [destruct fixed; [|by apply not_elem_of_nil in Hb']|];
        apply list_elem_of_singleton in Hb' as ->; by apply Hsub.
    + intros b' Hb'. destruct (Hdead b' Hb') as [Hne Hno]. rewrite live_app, fmap_app, not_elem_of_app. split; [|by apply Hsub].
      destruct (P (dbterm b)); [destruct fixed; apply not_elem_of_nil|]. rewrite live_cons, Hb. by apply not_elem_of_cons; split; [|apply not_elem_of_nil].
Qed.

Lemma rev_filter {A} (f : A → bool) v l : rev (filter (λ x, f x = v) l) = filter (λ x, f x = v) (rev l).
Proof.
  induction l as [|x l IH]; [done|]. cbn [rev]. rewrite filter_app, <- IH, !filter_cons. destruct (decide _); [done|]. cbn. by rewrite app_nil_r.
Qed.

Lemma fmap_filter (P : obj → bool) v run : dbterm <$> filter (λ b, P (dbterm b) = v) run = filter (λ o, P o = v) (dbterm <$> run).
Proof. induction run as [|b run IH]; [done|]. rewrite fmap_cons, !filter_cons. destruct (decide _); [|done]. by rewrite fmap_cons, IH. Qed.

Lemma zlen_filter_le {A} (P : A → Prop) `{∀ x, Decision (P x)} l : zlen (filter P l) <= zlen l.
Proof. unfold zlen. pose proof (length_filter P l). lia. Qed.

(** What the three functions do with the chain that their loop has made. *)
Lemma erase_effect tb B k c pre dead b r post (P : obj → bool) diff :
  table_ok tb B → key_view tb B k c pre (dead ++ b :: r) post → Forall (λ b, deleted b = true) dead → deleted b = false →
  diff = zlen (live (remain P (IS_FIXED tb) dead b r)) - zlen (live (dead ++ b :: r)) →
  ∃ tb' B', (tb1 ← put_bucket (set_fixdel tb (if P (dbterm b) && IS_FIXED tb then slot tb k :: fixdel tb else fixdel tb)) (slot tb k)
                    (pre ++ remain P (IS_FIXED tb) dead b r ++ post);
             erased tb1 diff) = Ok tb' ∧
    effect tb B tb' B' k (filter (λ o, P o = false) (objects tb B k)).
Proof.
  intros Hok Hv Hd Hb ->. set (fd := if P (dbterm b) && IS_FIXED tb then _ else _). pose proof (v_run _ _ _ _ _ (kv_view _ _ _ _ _ _ _ Hv)) as Hr.
  set (run := dead ++ b :: r) in *. set (run' := remain P (IS_FIXED tb) dead b r).
  assert (fixdel tb ⊆ fd) as Hsub by (unfold fd; destruct (_ && _); [intros ?; by right|done]).
  assert (Forall (λ b, keyof b = k) run') as Hr'.
  { apply Forall_forall. rewrite Forall_forall in Hr. intros b' [[-> _]|Hb']%remain_elem; [apply (Hr b), elem_of_app; right; left|by apply Hr]. }
  pose proof (remain_live P (IS_FIXED tb) dead b r Hd Hb) as El. fold run run' in El. pose proof (zlen_filter_le (λ b, P (dbterm b) = false) (live run)) as Hle.
  rewrite <- El in Hle. pose proof (proj2 (ok_items _ _ Hok)) as Hmax.
  destruct (run_effect tb B k c pre run post run' fd (nitems tb + (zlen (live run') - zlen (live run)))) as (g & B1 & Hput & Hef & _); try done.
  - apply Forall_forall. pose proof (kv_entries _ _ _ _ _ _ _ Hv) as He. rewrite Forall_forall in He.
    intros b' [[-> Hp]|Hb']%remain_elem.
    + right. unfold fd. rewrite Hp. apply andb_prop in Hp as [_ Hf]. unfold IS_FIXED in Hf. apply negb_true_iff, Z.eqb_neq in Hf.
      split_and!; [done|done|left].
    + destruct (He _ Hb') as [?|(? & ? & ?)]; [by left|right]. split_and!; [done|done|by apply Hsub].
  - apply remain_ok; [apply Hv|done].
  - unfold fd. destruct (P (dbterm b) && IS_FIXED tb) eqn:Hp; [right|by left]. apply andb_prop in Hp as [_ Hf]. unfold IS_FIXED in Hf.
    by apply negb_true_iff, Z.eqb_neq in Hf.
  - lia.
  - intros Hf _. unfold run', remain, IS_FIXED. rewrite (proj2 (Z.eqb_neq _ _) Hf). cbn [negb]. destruct (P (dbterm b)); by destruct dead.
  - assert (rev (dbterm <$> live run') = filter (λ o, P o = false) (objects tb B k)) as Eobj.
    { by rewrite El, fmap_filter, rev_filter, (kv_objects _ _ _ _ _ _ _ Hv). }
    rewrite Eobj in Hef. rewrite Hput, bind_Ok by done. unfold erased. destruct (Z.eqb_spec (zlen (live run') - zlen (live run)) 0) as [E0|N0]; cbn [negb].
    + rewrite E0, Z.add_0_r in Hef. replace (set_segs (set_nitems _ _) g) with (set_segs (set_fixdel tb fd) g) in Hef by (by destruct tb). eauto.
    + destruct (try_shrink_ok _ _ (ef_ok _ _ _ _ _ _ Hef)) as (tb' & B' & Eg & Hm). exists tb', B'. split; [|by eapply effect_moved].
      rewrite <- Eg. by destruct tb.
Qed.

Lemma fixed_deletion tb B (ix : Z) (first : bool) :
  table_ok tb B → (if first && IS_FIXED tb then add_fixed_deletion tb ix 0 else (false, tb)) =
    (first && IS_FIXED tb, set_fixdel tb (if first && IS_FIXED tb then ix :: fixdel tb else fixdel tb)).
Proof.
  intros Hok. destruct (ok_fixed _ _ Hok) as [Hf _]. unfold IS_FIXED, add_fixed_deletion.
  destruct first, (Z.eqb_spec (nfixed tb) 0); cbn; [by destruct tb| |by destruct tb|by destruct tb].
  destruct (Z.leb_spec (nfixed tb) 0); [lia|done].
Qed.

(** *** db_erase_hash *)

Lemma erase_key_loop_skip tb ix k pre c :
  Forall (λ b, has_live_key b k (MAKE_HASH k) = false) pre →
  erase_key_loop tb ix k (MAKE_HASH k) 0 (pre ++ c) = let '(l, diff, tb) := erase_key_loop tb ix k (MAKE_HASH k) 0 c in (pre ++ l, diff, tb).
Proof.
  induction 1 as [|b pre Hb _ IH]; cbn [app]; [by destruct (erase_key_loop _ _ _ _ _ _) as [[? ?] ?]|].
  cbn [erase_key_loop]. rewrite Hb. cbn [Z.eqb negb andb]. rewrite IH. by destruct (erase_key_loop tb ix k (MAKE_HASH k) 0 c) as [[? ?] ?].
Qed.

Lemma erase_key_loop_other tb ix k diff c :
  Forall (λ b, has_live_key b k (MAKE_HASH k) = false) c → erase_key_loop tb ix k (MAKE_HASH k) diff c = (c, diff, tb).
Proof. induction 1 as [|b c Hb _ IH]; [done|]. cbn [erase_key_loop]. rewrite Hb, IH. by destruct (_ && _). Qed.

Lemma erase_key_loop_rest tb ix k diff r post :
  diff < 0 → Forall (λ b, keyof b = k) r → Forall hashed r → Forall hashed post → k ∉ keys post →
  erase_key_loop tb ix k (MAKE_HASH k) diff (r ++ post) =
    (filter (λ b, deleted b || negb true = true) r ++ post, diff - zlen (live r), tb).
Proof.
  intros Hdiff Hr Hh Hhp Hp. revert diff Hdiff. induction Hr as [|b r Hb _ IH]; intros diff Hdiff; cbn [app].
  - rewrite erase_key_loop_other by (by apply no_live_key). cbn. f_equal. f_equal. unfold live, zlen. cbn. lia.
  - apply Forall_cons in Hh as [Hhb Hh]. cbn [erase_key_loop]. rewrite has_live_key_spec, (bool_decide_true _ Hb), andb_true_r by done.
    rewrite live_cons, filter_cons. destruct (deleted b); cbn [negb orb andb].
    + rewrite andb_false_r, IH by done. by destruct (decide _).
    + rewrite (proj2 (Z.eqb_neq (diff - 1) (-1))) by lia. cbn [andb]. rewrite IH by (done || lia). rewrite zlen_cons.
      destruct (decide _); [done|]. f_equal. f_equal. lia.
Qed.

Lemma kept_all r : zlen (filter (λ b, deleted b || negb true = true) r) + zlen (live r) = zlen r.
Proof.
  induction r as [|b r IH]; [done|]. rewrite live_cons, filter_cons, zlen_cons. destruct (deleted b); repeat destruct (decide _); try done; rewrite zlen_cons; lia.
Qed.

Lemma filter_none (l : list obj) : filter (λ _, true = false) l = [].
Proof. by induction l. Qed.

(** The parts of a chain that were hashed. *)
Lemma view_hashed c k pre run post : view c k pre run post → Forall hashed c → Forall hashed pre ∧ Forall hashed run ∧ Forall hashed post.
Proof. intros [-> _ _ _ _ _ _ _]. by rewrite !Forall_app. Qed.

Lemma same_bucket tb B k c : table_ok tb B → bucket tb (slot tb k) = Ok c → B !! Z.to_nat (slot tb k) = Some c →
  ∃ tb', put_bucket tb (slot tb k) c = Ok tb' ∧ effect tb B tb' B k (objects tb B k).
Proof.
  intros Hok Eb Ec. destruct (view_key tb B k Hok) as (c' & pre & run & post & Hv). pose proof Hv as [Ec' _ Hvw _ Hu He Hobj].
  assert (c' = c) as -> by congruence.
  destruct (run_update tb B k c pre run post run (fixdel tb) (nitems tb)) as (g & Hput & Hok' & Hl & Hoth); try done.
  - apply Hvw.
  - by left.
  - lia.
  - apply (ok_items _ _ Hok).
  - rewrite <- (v_eq _ _ _ _ _ Hvw), list_insert_id in * by done. exists (set_segs tb g). split; [by apply Hput|].
    replace (set_segs (set_nitems _ _) g) with (set_segs tb g) in * by (by destruct tb).
    split; try done; cbn; [lia].
Qed.

Lemma db_erase_hash_ok tb B k : table_ok tb B → ∃ tb' B', db_erase_hash tb k = Ok tb' ∧ effect tb B tb' B' k [].
Proof.
  intros Hok. destruct (view_key tb B k Hok) as (c & pre & run & post & Hv). pose proof Hv as [Ec Eb Hvw Hh _ _ Hobj].
  destruct (view_hashed _ _ _ _ _ Hvw Hh) as (Hhpre & Hhrun & Hhpost). pose proof Hvw as [Eqc Hpre Hrun Hpost _ _ _ _].
  unfold db_erase_hash. fold (slot tb k). rewrite Eb, bind_Ok. destruct (first_live run) as [El|(dead & b & r & -> & Hd & Hb)].
  - rewrite erase_key_loop_other.
    + destruct (same_bucket tb B k c Hok Eb Ec) as (tb' & -> & Hef). exists tb', B. split; [done|]. by rewrite Hobj, El in Hef.
    + rewrite Eqc, !Forall_app. split_and!; [by apply no_live_key|apply dead_live_key; [done|by apply live_dead]|by apply no_live_key].
  - apply Forall_app in Hhrun as [Hh1 [Hh2 Hh3]%Forall_cons]. pose proof Hrun as [_ [Hkb Hkr]%Forall_cons]%Forall_app.
    destruct (erase_effect tb B k c pre dead b r post (λ _, true) (-1 - zlen (live r)) Hok Hv Hd Hb) as (tb' & B' & E & Hef).
    { rewrite remain_live, live_after_dead by done. assert (∀ l : list hterm, filter (λ _, true = false) l = []) as -> by (by intros l; induction l).
      rewrite zlen_cons, zlen_nil. lia. }
    rewrite filter_none in Hef. exists tb', B'. split; [|done]. rewrite <- E, Eqc, <- app_assoc, app_assoc, erase_key_loop_skip.
    2: { apply Forall_app. split; [by apply no_live_key|by apply dead_live_key]. }
    cbn [app erase_key_loop]. rewrite live_key by done. cbn [Z.sub Z.add Z.opp Z.eqb Pos.eqb]. change (-1 =? -1) with true.
    rewrite (fixed_deletion tb B (slot tb k) true Hok). cbn [andb]. rewrite erase_key_loop_rest by done. unfold remain. cbn [app].
    destruct (IS_FIXED tb); by rewrite <- !app_assoc.
Qed.

(** *** db_erase_object_hash *)

Definition is_obj o : obj → bool := λ o', bool_decide (o = o').

Lemma is_obj_false o o' : o ≠ o' → is_obj o o' = false.
Proof. intros. by apply bool_decide_eq_false. Qed.

Lemma object_loop_other tb ix o k diff nkeys c :
  Forall (λ b, has_live_key b k (MAKE_HASH k) = false) c → erase_object_loop tb ix o k (MAKE_HASH k) diff nkeys c = (c, diff, tb).
Proof. induction 1 as [|b c Hb _ IH]; [done|]. cbn [erase_object_loop]. rewrite Hb, IH. by destruct (_ && _). Qed.

Lemma object_loop_skip tb ix o k pre c :
  Forall (λ b, has_live_key b k (MAKE_HASH k) = false) pre →
  erase_object_loop tb ix o k (MAKE_HASH k) 0 0 (pre ++ c) =
    let '(l, diff, tb) := erase_object_loop tb ix o k (MAKE_HASH k) 0 0 c in (pre ++ l, diff, tb).
Proof.
  induction 1 as [|b pre Hb _ IH]; cbn [app]; [by destruct (erase_object_loop _ _ _ _ _ _ _ _) as [[? ?] ?]|].
  cbn [erase_object_loop]. rewrite Hb. cbn [Z.eqb negb andb]. rewrite IH. by destruct (erase_object_loop tb ix o k (MAKE_HASH k) 0 0 c) as [[? ?] ?].
Qed.

(** The objects that stay. *)
Abbreviation kept o r := (filter (λ b, deleted b || negb (is_obj o (dbterm b)) = true) r).

Lemma kept_absent o r : o ∉ dbterm <$> live r → kept o r = r.
Proof.
  induction r as [|b r IH]; [done|]. rewrite live_cons, filter_cons. intros Ho.
  destruct (deleted b) eqn:Ed; cbn [orb]; [destruct (decide _); [by rewrite IH|done]|].
  apply not_elem_of_cons in Ho as [Hne Ho]. rewrite is_obj_false by done. cbn [negb]. destruct (decide _); [by rewrite IH|done].
Qed.

Lemma object_loop_rest tb ix o k diff nkeys r post :
  1 <= nkeys → t_type tb = DB_DUPLICATE_BAG ∨ bag_ok r →
  Forall (λ b, keyof b = k) r → Forall hashed r → Forall hashed post → k ∉ keys post →
  erase_object_loop tb ix o k (MAKE_HASH k) diff nkeys (r ++ post) =
    (kept o r ++ post, diff + (zlen (live (kept o r)) - zlen (live r)), tb).
Proof.
  intros Hn Hu Hr Hh Hhp Hp. revert diff nkeys Hn Hu. induction Hr as [|b r Hb _ IH]; intros diff nkeys Hn Hu; cbn [app].
  - rewrite object_loop_other by (by apply no_live_key). cbn. f_equal. f_equal. lia.
  - apply Forall_cons in Hh as [Hhb Hh]. cbn [erase_object_loop]. rewrite has_live_key_spec, (bool_decide_true _ Hb), andb_true_r by done.
    assert (t_type tb = DB_DUPLICATE_BAG ∨ bag_ok r) as Hu' by (destruct Hu as [?|[? _]]; [by left|by right]).
    rewrite live_cons, filter_cons. fold (is_obj o (dbterm b)). destruct (deleted b) eqn:Ed; cbn [negb orb andb].
    + rewrite andb_false_r, IH by done. destruct (decide _); [|done]. by rewrite live_cons, Ed.
    + rewrite (proj2 (Z.eqb_neq (nkeys + 1) 1)) by lia. cbn [andb]. destruct (is_obj o (dbterm b)) eqn:Eo; cbn [negb].
      * apply bool_decide_eq_true in Eo. destruct (decide (false = true)); [done|]. rewrite zlen_cons. case_bool_decide as Ety.
        -- rewrite IH by (done || lia). f_equal. f_equal. lia.
        -- destruct Hu as [?|[_ Hno]]; [done|]. rewrite <- Eo in Hno. rewrite (kept_absent o r) by done. f_equal. f_equal. lia.
      * destruct (decide (true = true)); [|done]. rewrite IH by (done || lia). rewrite live_cons, Ed, !zlen_cons. f_equal. f_equal. lia.
Qed.

Lemma db_erase_object_hash_ok tb B o :
  table_ok tb B → ∃ tb' B', db_erase_object_hash tb o = Ok tb' ∧
    effect tb B tb' B' (GETKEY o) (filter (λ o', is_obj o o' = false) (objects tb B (GETKEY o))).
Proof.
  intros Hok. set (k := GETKEY o). destruct (view_key tb B k Hok) as (c & pre & run & post & Hv). pose proof Hv as [Ec Eb Hvw Hh Hu _ Hobj].
  destruct (view_hashed _ _ _ _ _ Hvw Hh) as (Hhpre & Hhrun & Hhpost). pose proof Hvw as [Eqc Hpre Hrun Hpost _ _ _ _].
  unfold db_erase_object_hash. fold k. fold (slot tb k). rewrite Eb, bind_Ok. destruct (first_live run) as [El|(dead & b & r & -> & Hd & Hb)].
  - rewrite object_loop_other.
    + destruct (same_bucket tb B k c Hok Eb Ec) as (tb' & -> & Hef). exists tb', B. split; [done|]. by rewrite Hobj, El in *.
    + rewrite Eqc, !Forall_app. split_and!; [by apply no_live_key|apply dead_live_key; [done|by apply live_dead]|by apply no_live_key].
  - apply Forall_app in Hhrun as [Hh1 [Hh2 Hh3]%Forall_cons]. pose proof Hrun as [_ [Hkb Hkr]%Forall_cons]%Forall_app.
    assert (t_type tb = DB_DUPLICATE_BAG ∨ bag_ok (b :: r)) as Hbag.
    { destruct (t_type tb); cbn in Hu; [right|right; by apply bag_ok_app in Hu as (_ & ? & _)|by left]. rewrite length_app in Hu.
      destruct r; [by split; [|apply not_elem_of_nil]|cbn in Hu; lia]. }
    destruct (erase_effect tb B k c pre dead b r post (is_obj o) _ Hok Hv Hd Hb eq_refl) as (tb' & B' & E & Hef).
    exists tb', B'. split; [|done]. rewrite <- E, Eqc, <- app_assoc, app_assoc, object_loop_skip.
    2: { apply Forall_app. split; [by apply no_live_key|by apply dead_live_key]. }
    rewrite remain_live, live_after_dead by done. cbn [app erase_object_loop]. rewrite live_key by done. change (0 + 1 =? 1) with true.
    unfold remain. rewrite filter_cons. fold (is_obj o (dbterm b)). destruct (is_obj o (dbterm b)) eqn:Eo; cbn [andb].
    + apply bool_decide_eq_true in Eo. rewrite (fixed_deletion tb B (slot tb k) true Hok). cbn [andb]. destruct (decide (true = false)); [done|]. cbn [t_type set_fixdel].
      assert ((if bool_decide (t_type tb = DB_DUPLICATE_BAG)
        then erase_object_loop (set_fixdel tb (if IS_FIXED tb then slot tb k :: fixdel tb else fixdel tb)) (slot tb k) o k (MAKE_HASH k) (0 - 1) (0 + 1) (r ++ post)
        else (r ++ post, 0 - 1, set_fixdel tb (if IS_FIXED tb then slot tb k :: fixdel tb else fixdel tb))) =
        (kept o r ++ post, -1 + (zlen (live (kept o r)) - zlen (live r)), set_fixdel tb (if IS_FIXED tb then slot tb k :: fixdel tb else fixdel tb))) as ->.
      { case_bool_decide as Ety; [by apply object_loop_rest; [lia|left|..]|]. destruct Hbag as [?|[_ Hno]]; [done|]. rewrite <- Eo in Hno.
        rewrite (kept_absent o r) by done. f_equal. f_equal. lia. }
      rewrite live_kept. rewrite zlen_cons. replace (-1 + _) with (zlen (filter (λ b, is_obj o (dbterm b) = false) (live r)) - (1 + zlen (live r))) by lia.
      destruct (IS_FIXED tb); by rewrite <- !app_assoc.
    + destruct (decide (false = false)); [|done]. rewrite object_loop_rest; [|lia|destruct Hbag as [?|[? _]]; [by left|by right]|done..].
      rewrite live_kept, !zlen_cons. replace (set_fixdel tb (fixdel tb)) with tb by (by destruct tb). rewrite <- !app_assoc. cbn [app].
      by replace (0 + _) with (1 + zlen (filter (λ b, is_obj o (dbterm b) = false) (live r)) - (1 + zlen (live r))) by lia.
Qed.

(** *** db_take_hash *)

(** The loop counts every object of the group, so that they all have to be alive. *)
Lemma take_loop_rest tb ix diff r : diff < 0 → take_loop tb ix diff r = ([], diff - zlen r, tb).
Proof.
  revert diff. induction r as [|b r IH]; intros diff Hd; cbn [take_loop]; [f_equal; f_equal; rewrite zlen_nil; lia|].
  rewrite (proj2 (Z.eqb_neq (diff - 1) (-1))) by lia. cbn [andb]. rewrite IH by lia. f_equal. f_equal. rewrite zlen_cons. lia.
Qed.

Lemma take_group {A} (l r : list A) : take (length (l ++ r) - length r) (l ++ r) = l.
Proof. rewrite length_app, Nat.add_sub. apply take_app_length. Qed.

Lemma unfixed_live tb B k c pre run post : nfixed tb = 0 → key_view tb B k c pre run post → live run = run.
Proof.
  intros Hf Hv. pose proof (kv_entries _ _ _ _ _ _ _ Hv) as He. clear Hv. induction He as [|b run Hb _ IH]; [done|].
  rewrite live_cons, IH. destruct Hb as [Hb|(_ & ? & _)]; [|done]. unfold deleted. rewrite Hb. by rewrite (proj2 (Z.eqb_neq _ _) (hash_valid k)).
Qed.

Lemma db_take_hash_ok tb B k :
  table_ok tb B → t_type tb = DB_SET ∨ nfixed tb = 0 →
  ∃ tb' B', db_take_hash tb k = Ok (objects tb B k, tb') ∧ effect tb B tb' B' k [].
Proof.
  intros Hok Hty. destruct (view_key tb B k Hok) as (c & pre & run & post & Hv). pose proof Hv as [Ec Eb Hvw Hh Hu _ Hobj].
  unfold db_take_hash. fold (slot tb k). rewrite Eb, bind_Ok. destruct (split_has_live_key _ _ _ _ _ Hvw Hh) as [[El ->]|(dead & b & r & -> & Hs)].
  - exists tb, B. split; [by rewrite Hobj, El|]. pose proof (effect_refl tb B k Hok) as Hef. rewrite Hobj, El in Hef. by cbn in Hef.
  - pose proof (get_term_list_ok tb B _ _ _ _ _ _ _ Hv Hs) as Eget. destruct Hs as [_ Hd Hb -> _]. rewrite Eget.
    assert (live r = r ∧ filter (λ b, deleted b || negb true = true) r = []) as [Elr Ekr].
    { assert (live r = r) as El.
      { destruct Hty as [Ety|Hf].
        - rewrite Ety in Hu. cbn in Hu. rewrite length_app in Hu. destruct r; [done|cbn in Hu; lia].
        - pose proof (unfixed_live _ _ _ _ _ _ _ Hf Hv) as El. rewrite live_app, live_cons, Hb, (proj1 (live_dead dead) Hd) in El. cbn in El.
          destruct dead as [|d dead]; [by injection El|]. cbn in El. exfalso. apply Forall_cons in Hd as [Hd _].
          injection El as -> _. congruence. }
      split; [done|]. pose proof (kept_all r) as Hk. rewrite El in Hk. apply length_zero_iff_nil. unfold zlen in Hk. lia. }
    destruct (erase_effect tb B k c pre dead b r post (λ _, true) (-1 - zlen r) Hok Hv Hd Hb) as (tb' & B' & E & Hef).
    { rewrite remain_live, live_after_dead by done. assert (∀ l : list hterm, filter (λ _, true = false) l = []) as -> by (by intros l; induction l).
      rewrite zlen_cons, zlen_nil, Elr. lia. }
    rewrite filter_none in Hef. exists tb', B'. split; [|done]. change (b :: r ++ post) with ((b :: r) ++ post). rewrite take_group.
    cbn [take_loop]. change (0 - 1 =? -1) with true. rewrite (fixed_deletion tb B (slot tb k) true Hok). cbn [andb]. rewrite take_loop_rest by done.
    unfold remain in E. rewrite Ekr, app_nil_r in E. cbn [andb] in E. rewrite <- !app_assoc in *.
    apply bind_Ok_inv in E as (tb1 & E1 & E2). change (0 - 1 - zlen r) with (-1 - zlen r).
    destruct (IS_FIXED tb); cbn [app] in *; rewrite E1, bind_Ok, E2; done.
Qed.

(** ** Fixation *)

(** The objects of every key stay. *)
Record kept_all_objects tb B tb' B' (n : Z) : Prop := {
  ka_ok : table_ok tb' B';
  ka_type : t_type tb' = t_type tb;
  ka_nfixed : nfixed tb' = n;
  ka_items : nitems tb' = nitems tb;
  ka_objects : ∀ k, objects tb' B' k = objects tb B k;
  ka_order : n ≠ 0 → nactive tb' = nactive tb ∧ B' = B }.

Lemma nfixed_ok tb B n :
  table_ok tb B → 0 < n → kept_all_objects tb B (set_nfixed tb n) B n.
Proof.
  intros Hok Hn. pose proof Hok as [H1 H2 (e & [He1 He2 He3]) H4 H5 H6 H7 H8 [H9 H9'] H10 H11]. split; try done. split; try done.
  - by exists e.
  - intros i c Ei. destruct (H8 _ _ Ei) as [Hg Hu He]. split; [done|done|]. eapply Forall_impl; [exact He|].
    intros b [Hs [Hb|(Hb & _ & Hin)]]; (split; [done|]); [by left|right]. split_and!; [done|cbn; lia|done].
  - cbn. lia.
Qed.

Lemma fix_table_ok tb B : table_ok tb B → kept_all_objects tb B (fix_table tb) B (nfixed tb + 1).
Proof. intros Hok. apply nfixed_ok; [done|]. pose proof (ok_fixed _ _ Hok). lia. Qed.

Lemma live_idemp c : live (live c) = live c.
Proof. unfold live. rewrite list_filter_filter. apply list_filter_iff. intros b. tauto. Qed.

Lemma purge_slots_ok ixs tb B n :
  represents (t_segs tb) B → NACTIVE tb = n → n <= zlen B → Forall (λ ix, 0 <= ix < n) ixs →
  ∃ g B', purge_slots ixs tb = Ok (set_segs tb g) ∧ represents g B' ∧ length B' = length B ∧
    ∀ i, B' !! i = (λ c, if decide (Z.of_nat i ∈ ixs) then live c else c) <$> B !! i.
Proof.
  intros Hr Hn Hlen Hix. revert tb B Hr Hn Hlen. induction Hix as [|ix ixs Hix _ IH]; intros tb B Hr Hn Hlen; cbn [purge_slots].
  { exists (t_segs tb), B. split_and!; [by destruct tb|done|done|]. intros i. destruct (B !! i); [|done]. cbn. destruct (decide _) as [[]%elem_of_nil|]; done. }
  rewrite Hn, (proj2 (Z.ltb_lt _ _)) by lia. destruct (lookup_lt_is_Some_2 B (Z.to_nat ix)) as [c Ec]; [unfold zlen in *; lia|].
  unfold bucket. rewrite (BUCKET_ok _ _ ix c Hr ltac:(lia) Ec), bind_Ok. fold (live c).
  destruct (put_bucket_ok tb B ix (live c) Hr) as (g1 & -> & Hr1 & _); [lia|]. rewrite bind_Ok.
  destruct (IH (set_segs tb g1) _ Hr1 Hn) as (g & B' & E & Hr' & Hl & Hi); [unfold zlen in *; rewrite length_insert; lia|].
  exists g, B'. split_and!; [done|done|by rewrite Hl, length_insert|]. intros i. rewrite Hi.
  destruct (decide (i = Z.to_nat ix)) as [->|Hne].
  - rewrite list_lookup_insert_eq by (by eapply lookup_lt_Some). rewrite Ec. cbn. rewrite Z2Nat.id by lia.
    destruct (decide (ix ∈ ix :: ixs)) as [_|Hn']; [|destruct Hn'; left]. destruct (decide (ix ∈ ixs)); [|done]. f_equal. apply live_idemp.
  - rewrite list_lookup_insert_ne by done. destruct (B !! i); [|done]. cbn. f_equal.
    destruct (decide (Z.of_nat i ∈ ixs)) as [Hin|Hin], (decide (Z.of_nat i ∈ ix :: ixs)) as [Hin'|Hin']; try done.
    + destruct Hin'. by right.
    + apply elem_of_cons in Hin' as [?|?]; [lia|done].
Qed.

Lemma grouped_head c k : grouped c → head (keys c) = Some k → ∃ run post, c = run ++ post ∧ Forall (λ b, keyof b = k) run ∧ k ∉ keys post.
Proof.
  induction c as [|b c IH]; [done|]. intros [Hg Hb] Hk. cbn in Hk. injection Hk as Hk. destruct Hb as [Hb|Hb].
  - exists [b], c. split_and!; [done|by constructor|by subst k].
  - destruct IH as (run & post & -> & Hr & Hp); [done|by rewrite Hb, Hk|]. exists (b :: run), post. split_and!; [done|by constructor|done].
Qed.

Lemma grouped_live c : grouped c → grouped (live c).
Proof.
  induction c as [|b c IH]; [done|]. intros [Hg Hb]. rewrite live_cons. destruct (deleted b); [by apply IH|]. split; [by apply IH|].
  assert (∀ k l, k ∉ keys l → k ∉ keys (live l)) as Hsub.
  { intros k l Hk (b' & -> & [_ Hb']%list_elem_of_filter)%list_elem_of_fmap. apply Hk. by apply list_elem_of_fmap_2. }
  destruct Hb as [Hb|Hb]; [left; by apply Hsub|]. destruct (grouped_head c _ Hg Hb) as (run & post & -> & Hr & Hp). rewrite live_app.
  destruct (live run) as [|b' l] eqn:El; [left; by apply Hsub|right]. cbn. f_equal. rewrite Forall_forall in Hr. apply Hr.
  assert (b' ∈ live run) as [_ ?]%list_elem_of_filter by (rewrite El; left). done.
Qed.

Lemma filter_live k c : filter (λ b, keyof b = k) (live c) = live (filter (λ b, keyof b = k) c).
Proof. unfold live. rewrite !list_filter_filter. apply list_filter_iff. intros b. tauto. Qed.

Lemma run_ok_live ty run : run_ok ty run → run_ok ty (live run).
Proof.
  destruct ty; cbn; [|intros Hr|done].
  - pose proof (length_filter (λ b, deleted b = false) run). unfold live. lia.
  - replace (live run) with (filter (λ b, negb (deleted b) = true) run); [by apply bag_ok_sub|].
    unfold live. apply list_filter_iff. intros b. by destruct (deleted b).
Qed.

Lemma live_concat B : live (concat (live <$> B)) = live (concat B).
Proof. induction B as [|c B IH]; [done|]. cbn [fmap list_fmap concat]. by rewrite !live_app, IH, live_idemp. Qed.

(** The table is released for good: the marked objects are removed. *)
Lemma unfixed_ok tb B g :
  table_ok tb B → represents g (live <$> B) → kept_all_objects tb B (set_segs (set_fixdel (set_nfixed tb 0) []) g) (live <$> B) 0.
Proof.
  intros Hok Hg. pose proof Hok as [H1 H2 (e & [He1 He2 He3]) H4 H5 H6 H7 H8 [H9 H9'] H10 [H11 H11']]. split; try done; [split; try done|].
  - by exists e.
  - cbn. unfold zlen in *. by rewrite length_fmap.
  - intros i c Hi Ei. rewrite list_lookup_fmap in Ei. destruct (B !! i) as [c0|] eqn:E0; [|done]. injection Ei as <-. by rewrite (H7 _ _ Hi E0).
  - intros i c Ei. rewrite list_lookup_fmap in Ei. destruct (B !! i) as [c0|] eqn:E0; [|done]. injection Ei as <-.
    destruct (H8 _ _ E0) as [Hgr Hu He]. split.
    + by apply grouped_live.
    + intros k. rewrite filter_live. by apply run_ok_live.
    + apply Forall_forall. intros b [Hd Hb]%list_elem_of_filter. rewrite Forall_forall in He. destruct (He _ Hb) as [Hs [Hh|(Hh & _)]]; [split; [done|by left]|].
      exfalso. unfold deleted in Hd. by rewrite Hh in Hd.
  - cbn. rewrite live_concat. done.
  - intros k. unfold objects. change (slot (set_segs _ g) k) with (slot tb k). rewrite list_lookup_fmap. destruct (B !! _); [|done]. cbn.
    unfold content. by rewrite filter_live, live_idemp.
Qed.

Lemma unfix_table_ok tb B :
  table_ok tb B → 0 < nfixed tb → ∃ tb' B', unfix_table tb = Ok tb' ∧ kept_all_objects tb B tb' B' (nfixed tb - 1).
Proof.
  intros Hok Hf. unfold unfix_table, db_unfix_table_hash, IS_FIXED. cbn [nfixed set_nfixed]. destruct (Z.eqb_spec (nfixed tb - 1) 0) as [E0|N0]; cbn [negb].
  - set (tb1 := set_fixdel (set_nfixed tb (nfixed tb - 1)) []). pose proof (ok_slots _ _ Hok) as Hsl.
    destruct (purge_slots_ok (fixdel tb) tb1 B (nactive tb)) as (g & B' & E & Hg & Hl & Hi).
    + apply Hok.
    + apply (NACTIVE_ok _ _ Hok).
    + lia.
    + apply Hok.
    + exists (set_segs tb1 g), B'. split; [done|]. assert (B' = live <$> B) as ->.
      { apply list_eq. intros i. rewrite Hi, list_lookup_fmap. destruct (B !! i) as [c|] eqn:Ec; [|done]. cbn. f_equal.
        destruct (decide _) as [|Hn]; [done|]. symmetry. apply (fresh_live tb (Z.of_nat i)). destruct (ok_chain _ _ Hok _ _ Ec) as [_ _ He].
        eapply Forall_impl; [exact He|]. intros b [Hs [?|(_ & _ & ?)]]; done. }
      unfold tb1. rewrite E0. by apply unfixed_ok.
  - exists (set_nfixed tb (nfixed tb - 1)), B. split; [done|]. apply nfixed_ok; [done|lia].
Qed.

(** ** Deleting all objects *)

Lemma pseudo_keys c : keys (pseudo_delete <$> c) = keys c.
Proof. unfold keys. rewrite <- list_fmap_compose. by apply list_fmap_ext. Qed.

Lemma grouped_keys c c' : keys c' = keys c → grouped c → grouped c'.
Proof.
  revert c'. induction c as [|b c IH]; intros [|b' c'] Ek; try done. cbn in Ek. injection Ek as Eb Ek. intros [Hg Hb]. split; [by apply IH|].
  cbn. fold (keys c'). unfold keys in *. by rewrite Ek, Eb.
Qed.

Lemma pseudo_live c : live (pseudo_delete <$> c) = [].
Proof. apply live_dead. by apply Forall_fmap, Forall_true. Qed.

Lemma bag_ok_dead run : live run = [] → bag_ok run.
Proof.
  induction run as [|b run IH]; [done|]. rewrite live_cons. destruct (deleted b); [|done]. intros E. split; [by apply IH|]. rewrite E. apply not_elem_of_nil.
Qed.

Lemma mark_slots_ok fuel (ix : nat) tb B :
  represents (t_segs tb) B → (ix + fuel <= length B)%nat → 0 < nfixed tb →
  ∃ g fd B', mark_slots fuel (Z.of_nat ix) tb = Ok (set_segs (set_fixdel tb fd) g) ∧ represents g B' ∧ length B' = length B ∧
    fixdel tb ⊆ fd ∧ Forall (λ x, x ∈ fixdel tb ∨ Z.of_nat ix <= x < Z.of_nat (ix + fuel)) fd ∧
    (∀ i c, (ix <= i < ix + fuel)%nat → B !! i = Some c → c ≠ [] → Z.of_nat i ∈ fd) ∧
    ∀ i, B' !! i = (λ c, if decide (ix <= i < ix + fuel)%nat then pseudo_delete <$> c else c) <$> B !! i.
Proof.
  revert ix tb B. induction fuel as [|fuel IH]; intros ix tb B Hr Hlen Hf; cbn [mark_slots].
  { exists (t_segs tb), (fixdel tb), B. split_and!; [by destruct tb|done|done|done|apply Forall_forall; intros; by left|intros; lia|].
    intros i. destruct (B !! i); [|done]. cbn. by destruct (decide _); [lia|]. }
  destruct (lookup_lt_is_Some_2 B ix) as [c Ec]; [lia|]. unfold bucket. rewrite (BUCKET_ok _ B (Z.of_nat ix) c) by (done || lia || by rewrite Nat2Z.id). rewrite bind_Ok.
  assert (∃ g1 fd1, (if bool_decide (c = []) then Ok tb else put_bucket (add_fixed_deletion tb (Z.of_nat ix) 0).2 (Z.of_nat ix) (pseudo_delete <$> c)) =
    Ok (set_segs (set_fixdel tb fd1) g1) ∧ represents g1 (<[ix := pseudo_delete <$> c]> B) ∧ fixdel tb ⊆ fd1 ∧ (c ≠ [] → Z.of_nat ix ∈ fd1) ∧
    Forall (λ x, x ∈ fixdel tb ∨ x = Z.of_nat ix) fd1) as (g1 & fd1 & -> & Hr1 & Hsub1 & Hin1 & Hfd1).
  { case_bool_decide as Hc.
    - subst c. exists (t_segs tb), (fixdel tb). split_and!; [by destruct tb|by rewrite list_insert_id|done|done|apply Forall_forall; intros; by left].
    - unfold add_fixed_deletion. rewrite (proj2 (Z.leb_gt _ _)) by done. cbn [snd].
      destruct (put_bucket_ok (set_fixdel tb (Z.of_nat ix :: fixdel tb)) B (Z.of_nat ix) (pseudo_delete <$> c) Hr) as (g1 & -> & Hr1 & _); [unfold zlen; lia|].
      rewrite Nat2Z.id in Hr1. exists g1, (Z.of_nat ix :: fixdel tb). split_and!; [done|done|intros ?; by right|intros _; left|].
      constructor; [by right|apply Forall_forall; intros; by left]. }
  rewrite bind_Ok. replace (Z.of_nat ix + 1) with (Z.of_nat (S ix)) by lia.
  destruct (IH (S ix) (set_segs (set_fixdel tb fd1) g1) _ Hr1) as (g & fd & B' & E & Hr' & Hl & Hsub & Hrange & Hin & Hi); [rewrite length_insert; lia|done|].
  exists g, fd, B'. split_and!; [done|done|by rewrite Hl, length_insert|by transitivity fd1| | |].
  - eapply Forall_impl; [exact Hrange|]. cbn. intros x [Hx|?]; [|right; lia]. rewrite Forall_forall in Hfd1. destruct (Hfd1 x Hx) as [?| ->]; [by left|right; lia].
  - intros i c' Hir Ei Hne. destruct (decide (i = ix)) as [->|Hni]; [apply Hsub, Hin1; congruence|].
    apply (Hin i c'); [lia| |done]. by rewrite list_lookup_insert_ne.
  - intros i. rewrite Hi. destruct (decide (i = ix)) as [->|Hni].
    + rewrite list_lookup_insert_eq, Ec by lia. cbn. repeat destruct (decide _); lia || done.
    + rewrite list_lookup_insert_ne by done. destruct (B !! i); [|done]. cbn. repeat destruct (decide _); lia || done.
Qed.

(** All objects are gone; the keys of a fixed table are still visited in order. *)
Record cleared tb B tb' B' : Prop := {
  cl_ok : table_ok tb' B';
  cl_type : t_type tb' = t_type tb;
  cl_nfixed : nfixed tb' = nfixed tb;
  cl_items : nitems tb' = 0;
  cl_objects : ∀ k, objects tb' B' k = [];
  cl_order : nfixed tb ≠ 0 → nactive tb' = nactive tb ∧ sequence tb B `sublist_of` sequence tb' B' }.

Lemma live_concat_nil B : (∀ i c, B !! i = Some c → live c = []) → live (concat B) = [].
Proof.
  induction B as [|c B IH]; intros Hc; [done|]. cbn [concat]. rewrite live_app, (Hc 0%nat c eq_refl), IH; [done|]. intros i c' Ei. by apply (Hc (S i)).
Qed.

Lemma mark_all_ok tb B : table_ok tb B → nfixed tb ≠ 0 → ∃ tb' B', db_mark_all_deleted_hash tb = Ok tb' ∧ cleared tb B tb' B'.
Proof.
  intros Hok Hf. pose proof Hok as [H1 H2 (e & [He1 He2 He3]) H4 H5 H6 H7 H8 [H9 H9'] H10 [H11 H11']].
  destruct (mark_slots_ok (Z.to_nat (nactive tb)) 0 tb B H1) as (g & fd & B' & E & Hg & Hl & Hsub & Hrange & Hin & Hi); [unfold zlen, SEGSZ in *; lia|lia|].
  assert (B' = (λ c, pseudo_delete <$> c) <$> B) as EB.
  { apply list_eq. intros i. rewrite Hi, list_lookup_fmap. destruct (B !! i) as [c|] eqn:Ec; [|done]. cbn. f_equal. destruct (decide _) as [|Hn]; [done|].
    rewrite (H7 i c); [done|lia|done]. }
  assert (∀ i c, B' !! i = Some c → ∃ c0, B !! i = Some c0 ∧ c = pseudo_delete <$> c0) as Hat.
  { intros i c Ei. rewrite EB, list_lookup_fmap in Ei. destruct (B !! i) as [c0|]; [|done]. injection Ei as <-. eauto. }
  exists (set_nitems (set_segs (set_fixdel tb fd) g) 0), B'. split.
  { unfold db_mark_all_deleted_hash. rewrite (NACTIVE_ok _ _ Hok). change (Z.of_nat 0) with 0 in E. by rewrite E. }
  split; try done; [split; try done|..].
  - by exists e.
  - cbn. unfold zlen in *. by rewrite Hl.
  - intros i c Hia (c0 & E0 & ->)%Hat. by rewrite (H7 i c0).
  - intros i c (c0 & E0 & ->)%Hat. destruct (H8 _ _ E0) as [Hgr Hu He]. split.
    + eapply grouped_keys; [apply pseudo_keys|done].
    + intros k. assert (filter (λ b, keyof b = k) (pseudo_delete <$> c0) = pseudo_delete <$> filter (λ b, keyof b = k) c0) as ->.
      { clear. induction c0 as [|b c0 IH]; [done|]. rewrite fmap_cons, !filter_cons, IH. by destruct (decide (keyof b = k)), (decide (keyof (pseudo_delete b) = k)). }
      specialize (Hu k). cbn [t_type set_nitems set_segs set_fixdel]. destruct (t_type tb); [cbn in *; by rewrite length_fmap|apply bag_ok_dead, pseudo_live|done].
    + apply Forall_fmap, Forall_forall. intros b Hb. rewrite Forall_forall in He. destruct (He _ Hb) as [Hs _]. split; [done|right].
      split_and!; [done|done|]. apply (Hin i c0); [|done|by intros ->; apply elem_of_nil in Hb].
      assert (Z.of_nat i < nactive tb); [|lia]. destruct (Z.lt_ge_cases (Z.of_nat i) (nactive tb)) as [?|Hge]; [done|]. rewrite (H7 i c0 Hge E0) in Hb. by apply elem_of_nil in Hb.
  - eapply Forall_impl; [exact Hrange|]. cbn. intros x [Hx|Hx]; [|lia]. by eapply Forall_forall in H10.
  - rewrite live_concat_nil; [done|]. intros i c (c0 & _ & ->)%Hat. apply pseudo_live.
  - intros k. unfold objects. destruct (B' !! _) as [c|] eqn:Ec; [|done]. apply Hat in Ec as (c0 & _ & ->). unfold content.
    apply no_objects. rewrite <- filter_live, pseudo_live. done.
  - intros _. split; [done|]. apply sequence_sublist; [done|]. intros i. unfold chain_at. rewrite EB, list_lookup_fmap.
    destruct (B !! _) as [c|]; [|done].
    change (remove_dups (keys c) `sublist_of` remove_dups (keys (pseudo_delete <$> c))). by rewrite pseudo_keys.
Qed.

(** The segments of a table that is not fixed are freed, six at a time. *)
Lemma free_segs_ok fuel (g : segs hterm) did :
  freeing g → 0 <= g_nslots g <= Z.of_nat fuel →
  ∃ (r : bool) g', free_segs fuel g did = Ok (r, g') ∧ freeing g' ∧ 0 <= g_nslots g' ∧
    if r then g_nslots g' = 0 else g_nslots g' < g_nslots g.
Proof.
  revert g did. induction fuel as [|fuel IH]; intros g did Hfr Hb; cbn [free_segs]; destruct (Z.eqb_spec (g_nslots g) 0) as [E0|N0]; cbn [negb].
  1, 3: by exists true, g; split_and!; [..|lia|].
  - lia.
  - destruct (free_seg_freeing g true Hfr N0) as (n & g' & -> & Hfr' & Hlt). rewrite bind_Ok. destruct (_ >=? _).
    + exists false, g'. split_and!; [done|done|lia|lia].
    + destruct (IH g' (did + 1) Hfr' ltac:(lia)) as (r & g'' & -> & Hfr'' & H0' & Hr). exists r, g''. split_and!; [done|done|done|]. destruct r; lia.
Qed.

Lemma db_free_table_hash_ok fuel tb :
  freeing (t_segs tb) → fixdel tb = [] → 0 <= g_nslots (t_segs tb) < Z.of_nat fuel →
  ∃ g, db_free_table_hash fuel tb = Ok (set_segs tb g) ∧ g_nslots g = 0.
Proof.
  revert tb. induction fuel as [|fuel IH]; intros tb Hfr Hfd Hb; [lia|]. cbn [db_free_table_hash]. unfold db_free_table_continue_hash. rewrite Hfd.
  change (zlen (@nil Z)) with 0. change (0 >=? 2 * DELETE_RECORD_LIMIT) with false. cbv iota.
  destruct (free_segs_ok (Z.to_nat (g_nslots (t_segs tb))) (t_segs tb) (0 / 2) Hfr ltac:(lia)) as (r & g & -> & Hfr' & H0' & Hr). rewrite !bind_Ok.
  replace (set_fixdel tb []) with tb by (rewrite <- Hfd; by destruct tb). destruct r; [by exists g|].
  destruct (IH (set_segs tb g)) as (g' & -> & E0); [done|done|cbn; lia|]. by exists g'.
Qed.

Lemma db_create_hash_ok tb :
  nitems tb = 0 → 0 <= nfixed tb → ∃ tb', db_create_hash tb = Ok tb' ∧ table_ok tb' (replicate (Z.to_nat SEGSZ) []) ∧
    t_type tb' = t_type tb ∧ nfixed tb' = nfixed tb ∧ nitems tb' = nitems tb ∧ ∀ k, objects tb' (replicate (Z.to_nat SEGSZ) []) k = [].
Proof.
  intros Hn Hf. unfold db_create_hash. destruct (new_segs_ok (t_segs tb) Hal) as (g & -> & Hg & _). rewrite bind_Ok. eexists. split; [done|].
  assert (∀ i c, replicate (Z.to_nat SEGSZ) (@nil hterm) !! i = Some c → c = []) as Hnil by (by intros i c [-> _]%lookup_replicate).
  split_and!; try done.
  - split; try done.
    + exists 8. by split.
    + by left.
    + intros i c _ Ei. by apply (Hnil i).
    + intros i c ->%Hnil. split; [done| |constructor]. intros k. apply run_ok_nil.
    + cbn. rewrite Hn, concat_empty. done.
  - intros k. unfold objects. destruct (replicate _ _ !! _) as [c|] eqn:E; [|done]. by rewrite (Hnil _ _ E).
Qed.

Lemma db_delete_all_objects_hash_ok tb B : table_ok tb B → ∃ tb' B', db_delete_all_objects_hash tb = Ok tb' ∧ cleared tb B tb' B'.
Proof.
  intros Hok. unfold db_delete_all_objects_hash, IS_FIXED. destruct (Z.eqb_spec (nfixed tb) 0) as [E0|N0]; cbn [negb]; [|by apply mark_all_ok].
  pose proof (proj2 (ok_fixed _ _ Hok) E0) as Efd. pose proof (represents_length _ _ (ok_segs _ _ Hok)) as Hl. pose proof (zlen_nonneg B).
  destruct (db_free_table_hash_ok (free_fuel tb) tb) as (g & -> & Hg); [right; eexists; apply Hok|done|unfold free_fuel; lia|]. rewrite bind_Ok.
  unfold db_create_hash. destruct (new_segs_ok (t_segs (set_segs tb g)) Hal) as (g' & Eg & Hg' & _). rewrite Eg, !bind_Ok.
  destruct (db_create_hash_ok (set_nitems (set_segs tb g) 0) eq_refl ltac:(cbn; lia)) as (tb' & E & Hok' & ? & ? & ? & Hobj).
  exists tb', (replicate (Z.to_nat SEGSZ) []). split; [|by split].
  unfold db_create_hash in E. cbn [t_segs set_nitems] in E. rewrite Eg, bind_Ok in E. rewrite <- E. done.
Qed.

(** ** Updates in place *)

(** What a function of erl_db.c does with the handle when its update succeeds. *)
Definition update_term tb k (default : option obj) (f : obj → obj) : res (bool * table) :=
  r ← db_lookup_dbterm_hash tb k default;
  match r with
  | None => Ok (false, tb)
  | Some (h, tb) =>
      b ← handle_object tb h;
      tb ← handle_store tb h (f (dbterm b));
      tb ← db_finalize_dbterm_hash DB_ERROR_NONE h tb;
      Ok (true, tb)
  end.

Definition spec_update (l : list obj) k (default : option obj) (f : obj → obj) : bool * list obj :=
  match l, default with
  | o :: _, _ => (true, [f o])
  | [], Some o => (true, [f (set_key o k)])
  | [], None => (false, [])
  end.

(** The object of the handle is replaced, whatever the counter says meanwhile. *)
Lemma store_ok tb B k pre b post o h :
  table_ok tb B → key_view tb B k (pre ++ [b] ++ post) pre [b] post → deleted b = false → GETKEY o = k → t_type tb = DB_SET →
  h_ix h = slot tb k → h_pos h = length pre →
  ∃ g B' b', effect tb B (set_segs tb g) B' k [o] ∧
    ∀ tb0, t_segs tb0 = t_segs tb →
      handle_object tb0 h = Ok b ∧ handle_store tb0 h o = Ok (set_segs tb0 g) ∧
      handle_object (set_segs tb0 g) h = Ok b' ∧ is_Ok (bucket (set_segs tb0 g) (h_ix h)).
Proof.
  intros Hok Hv Hb Ho Ety Eix Epos. pose proof (kv_bucket _ _ _ _ _ _ _ Hv) as Eb. pose proof (kv_entries _ _ _ _ _ _ _ Hv) as He.
  apply Forall_cons in He as [He _].
  assert (hvalue b = MAKE_HASH k) as Eh. { destruct He as [?|(Eh & _)]; [done|]. unfold deleted in Hb. by rewrite Eh in Hb. }
  destruct (run_effect tb B k (pre ++ [b] ++ post) pre [b] post [mk_term (MAKE_HASH k) o] (fixdel tb) (nitems tb)) as (g & B' & Hput & Hef & Hv'); try done.
  - by constructor.
  - constructor; [by left|done].
  - rewrite Ety. cbn. lia.
  - by left.
  - rewrite live_new, live_cons, Hb. unfold zlen. cbn. lia.
  - apply (ok_items _ _ Hok).
  - specialize (Hv' ltac:(done)). pose proof (kv_bucket _ _ _ _ _ _ _ Hv') as Eb'. rewrite live_new in Hef. cbn in Hef.
    replace (set_nitems (set_fixdel tb (fixdel tb)) (nitems tb)) with tb in * by (by destruct tb).
    exists g, B', (mk_term (MAKE_HASH k) o). split; [done|]. intros tb0 E0. unfold handle_object, handle_store, bucket in *. rewrite Eix, Epos, E0, Eb. cbn [t_segs set_segs set_nitems] in *.
    change (slot (set_segs tb g) k) with (slot tb k) in Eb'. rewrite !bind_Ok. cbn [app] in *. rewrite (list_lookup_middle pre post b (length pre) eq_refl). split_and!.
    + done.
    + rewrite Eh. rewrite <- (Hput tb0 E0). f_equal. rewrite <- (Nat.add_0_r (length pre)), insert_app_r. done.
    + rewrite Eb', bind_Ok. by rewrite (list_lookup_middle pre post _ (length pre) eq_refl).
    + rewrite Eb'. by eexists.
Qed.

Lemma finalize_ok tb h b : handle_object tb h = Ok b → is_Ok (bucket tb (h_ix h)) →
  db_finalize_dbterm_hash DB_ERROR_NONE h tb = if h_inc_try_grow h then try_grow (set_nitems tb (nitems tb + 1)) else Ok tb.
Proof. intros Eo [c Ec]. unfold db_finalize_dbterm_hash. by rewrite Eo, bind_Ok, Ec. Qed.

Lemma effect_trans tb B tb1 B1 tb2 B2 k l1 l2 : effect tb B tb1 B1 k l1 → effect tb1 B1 tb2 B2 k l2 → effect tb B tb2 B2 k l2.
Proof.
  intros E1 E2. split; try apply E2.
  - by rewrite (ef_type _ _ _ _ _ _ E2), (ef_type _ _ _ _ _ _ E1).
  - by rewrite (ef_nfixed _ _ _ _ _ _ E2), (ef_nfixed _ _ _ _ _ _ E1).
  - rewrite (ef_items _ _ _ _ _ _ E2), (ef_items _ _ _ _ _ _ E1), (ef_objects _ _ _ _ _ _ E1). lia.
  - intros k' Hk'. by rewrite (ef_others _ _ _ _ _ _ E2), (ef_others _ _ _ _ _ _ E1).
  - intros Hn. destruct (ef_order _ _ _ _ _ _ E1 Hn) as [Ea1 Hs1]. destruct (ef_order _ _ _ _ _ _ E2) as [Ea2 Hs2]; [by rewrite (ef_nfixed _ _ _ _ _ _ E1)|].
    split; [congruence|by transitivity (sequence tb1 B1)].
Qed.

Lemma update_term_ok tb B k d (f : obj → obj) :
  table_ok tb B → t_type tb = DB_SET → nitems tb < max_items → (∀ o, GETKEY (f o) = GETKEY o) → (∀ o, GETKEY (set_key o k) = k) →
  ∃ tb' B', update_term tb k d f = Ok ((spec_update (objects tb B k) k d f).1, tb') ∧ effect tb B tb' B' k (spec_update (objects tb B k) k d f).2.
Proof.
  intros Hok Ety Hmax Hf Hset. destruct (view_key tb B k Hok) as (c & pre & run & post & Hv). pose proof Hv as [Ec Eb Hvw Hh Hu _ Hobj].
  pose proof Hvw as [Eqc _ Hrun _ _ _ Hnone _]. unfold update_term, db_lookup_dbterm_hash. fold (slot tb k). rewrite Eb, bind_Ok, (split_has_key _ _ _ _ _ Hvw Hh), Hobj.
  rewrite Ety in Hu. cbn in Hu. assert (∀ o, run_ok (t_type tb) [mk_term (MAKE_HASH k) o]) as Hone by (intros o; rewrite Ety; cbn; lia).
  assert (∀ b n, run = [b] ∧ deleted b = true ∨ run = [] → n = nitems tb + 1 → ∀ o, GETKEY o = k →
    ∃ g B1, (∀ tb0, t_segs tb0 = t_segs tb → put_bucket tb0 (slot tb k) (pre ++ [mk_term (MAKE_HASH k) o] ++ post) = Ok (set_segs tb0 g)) ∧
      effect tb B (set_segs (set_nitems tb n) g) B1 k [o] ∧
      key_view (set_segs (set_nitems tb n) g) B1 k (pre ++ [mk_term (MAKE_HASH k) o] ++ post) pre [mk_term (MAKE_HASH k) o] post) as Hnew.
  { intros b n Hr -> o Ho. destruct (run_effect tb B k c pre run post [mk_term (MAKE_HASH k) o] (fixdel tb) (nitems tb + 1)) as (g & B1 & Hput & Hef & Hv'); try done.
    - by constructor.
    - constructor; [by left|done].
    - by left.
    - rewrite live_new. destruct Hr as [[-> Hd]| ->]; [rewrite live_cons, Hd|]; cbn; unfold zlen; cbn; lia.
    - lia.
    - replace (set_fixdel tb (fixdel tb)) with tb in * by (by destruct tb). exists g, B1. split; [done|]. rewrite live_new in Hef. split; [done|by apply Hv']. }
  destruct run as [|b [|]]; [| |cbn in Hu; lia].
  - rewrite (Hnone eq_refl) in *. cbn [app]. destruct d as [o|]; [|exists tb, B; split; [done|]; pose proof (effect_refl tb B k Hok) as Hr; by rewrite Hobj in Hr].
    destruct (Hnew (mk_term 0 o) _ (or_intror eq_refl) eq_refl (set_key o k) (Hset o)) as (g & B1 & Hput & Hef & Hv1). cbn [app] in Hput. rewrite (Hput tb), !bind_Ok by done.
    set (h := mk_handle _ _ _ _). destruct (store_ok _ _ _ _ _ _ (f (set_key o k)) h (ef_ok _ _ _ _ _ _ Hef) Hv1) as (g2 & B2 & b2 & Hef2 & Hst); try done.
    { apply deleted_new. } { by rewrite Hf. }
    destruct (Hst (set_segs tb g) eq_refl) as (-> & Est & Eobj & Ebk). rewrite !bind_Ok. cbn [dbterm]. rewrite Est, bind_Ok.
    rewrite (finalize_ok _ _ b2 Eobj Ebk). cbn [h_inc_try_grow h].
    pose proof (effect_trans _ _ _ _ _ _ _ _ _ Hef Hef2) as Hef3. destruct (try_grow_ok Hal _ _ (ef_ok _ _ _ _ _ _ Hef3)) as (tb' & B' & Eg & Hm).
    exists tb', B'. split; [|by eapply effect_moved]. change (set_nitems _ _) with (set_segs (set_segs (set_nitems tb (nitems tb + 1)) g) g2). by rewrite Eg.
  - cbn [app]. rewrite live_cons. destruct (deleted b) eqn:Ed; cbn [negb].
    + destruct d as [o|]; [|exists tb, B; split; [done|]; pose proof (effect_refl tb B k Hok) as Hr; by rewrite Hobj, live_cons, Ed in Hr].
      destruct (Hnew b _ (or_introl (conj eq_refl Ed)) eq_refl (set_key o k) (Hset o)) as (g & B1 & Hput & Hef & Hv1). cbn [app] in Hput. rewrite (Hput tb), !bind_Ok by done.
      set (h := mk_handle _ _ _ _). destruct (store_ok _ _ _ _ _ _ (f (set_key o k)) h (ef_ok _ _ _ _ _ _ Hef) Hv1) as (g2 & B2 & b2 & Hef2 & Hst); try done.
      { apply deleted_new. } { by rewrite Hf. }
      destruct (Hst (set_nitems (set_segs tb g) (nitems (set_segs tb g) + 1)) eq_refl) as (-> & Est & Eobj & Ebk). rewrite !bind_Ok. cbn [dbterm]. rewrite Est, bind_Ok.
      rewrite (finalize_ok _ _ b2 Eobj Ebk). cbn [h_inc_try_grow h]. rewrite bind_Ok.
      eexists _, B2. split; [done|]. exact (effect_trans _ _ _ _ _ _ _ _ _ Hef Hef2).
    + rewrite Eqc in Hv. rewrite bind_Ok. set (h := mk_handle _ _ _ _). apply Forall_cons in Hrun as [Hkb _].
      destruct (store_ok _ _ _ _ _ _ (f (dbterm b)) h Hok Hv Ed) as (g2 & B2 & b2 & Hef2 & Hst); try done; [by rewrite Hf|].
      destruct (Hst tb eq_refl) as (-> & Est & Eobj & Ebk). rewrite bind_Ok, Est, bind_Ok.
      rewrite (finalize_ok _ _ b2 Eobj Ebk). cbn [h_inc_try_grow h]. rewrite bind_Ok. eauto.
Qed.

End Ops.
