(* ===== verification/DbHashIter.v ===== *)
(** ETS hash tables (DbHash.v): the functions [db_first_hash] and [db_next_hash] visit the
    keys of [sequence] (DbHashOps.v) that have an object, one after the other. *)
From S2P Require Import Prelude DbSeg DbHash DbHashSpec DbHashOps.

Section Lists.
Context {A : Type}.
Implicit Types (l : list A) (x : A).

Lemma filter_ext_in (P Q : A → Prop) `{∀ x, Decision (P x), ∀ x, Decision (Q x)} l : (∀ x, x ∈ l → P x ↔ Q x) → filter P l = filter Q l.
Proof.
  induction l as [|x l IH]; intros Hl; [done|]. rewrite !filter_cons, IH by (intros; apply Hl; by right).
  pose proof (Hl x ltac:(left)) as Hx. destruct (decide (P x)), (decide (Q x)); tauto || done.
Qed.

Lemma filter_nothing (P : A → Prop) `{∀ x, Decision (P x)} l : (∀ x, x ∈ l → ¬ P x) → filter P l = [].
Proof. induction l as [|x l IH]; intros Hl; [done|]. rewrite filter_cons_False by (apply Hl; left). apply IH. intros y Hy. apply Hl. by right. Qed.

Lemma head_app l1 l2 : head (l1 ++ l2) = match head l1 with Some x => Some x | None => head l2 end.
Proof. by destruct l1. Qed.

(** The first element comes before the others. *)
Lemma sublist_before (a b : A) bs l : NoDup l → [a; b] `sublist_of` l → b :: bs `sublist_of` l → a :: b :: bs `sublist_of` l.
Proof.
  intros Hnd Hab Hbs. induction l as [|x l IH]; [by inversion Hab|]. apply NoDup_cons in Hnd as [Hx Hnd].
  apply sublist_cons_r in Hab as [Hab|(l' & E & Hb)].
  - apply sublist_cons. apply IH; [done|done|]. apply sublist_cons_r in Hbs as [?|(l' & E & _)]; [done|]. injection E as -> ->. exfalso.
    apply Hx. eapply (elem_of_sublist [a; x]); [|exact Hab]. right. left.
  - injection E as -> <-. apply sublist_skip. apply sublist_cons_r in Hbs as [?|(l' & E & _)]; [done|]. injection E as -> ->. exfalso.
    apply Hx. eapply (elem_of_sublist [x]); [|exact Hb]. left.
Qed.

Lemma head_filter_before (P : A → Prop) `{∀ x, Decision (P x)} l k :
  head (filter P l) = Some k → k ∈ l ∧ ∀ x, x ∈ l → P x → x = k ∨ [k; x] `sublist_of` l.
Proof.
  intros Hk. pose proof (sublist_filter P l) as Hs. destruct (filter P l) as [|k' f] eqn:Ef; [done|]. injection Hk as ->.
  split; [eapply elem_of_sublist; [left|exact Hs]|]. intros x Hx HP.
  assert (x ∈ k :: f) as Hin by (rewrite <- Ef; by apply list_elem_of_filter). apply elem_of_cons in Hin as [->|Hin]; [by left|right].
  transitivity (k :: f); [|done]. apply sublist_skip. by apply singleton_sublist_l.
Qed.

Lemma filter_head_split (P : A → Prop) `{∀ x, Decision (P x)} l k f :
  filter P l = k :: f → ∃ m1 m2, l = m1 ++ k :: m2 ∧ filter P m2 = f.
Proof.
  induction l as [|y l IH]; [done|]. rewrite filter_cons. destruct (decide (P y)).
  - intros Ef. injection Ef as -> <-. by exists [], l.
  - intros Ef. destruct (IH Ef) as (m1 & m2 & -> & Em). by exists (y :: m1), m2.
Qed.

Lemma before_rest (l1 l2 : list A) a b : NoDup (l1 ++ a :: l2) → [a; b] `sublist_of` l1 ++ a :: l2 → b ∈ l2.
Proof.
  induction l1 as [|y l1 IH]; cbn; intros [Hn Hnd]%NoDup_cons Hs; apply sublist_cons_r in Hs as [Hs|(l' & E & Hs)].
  - exfalso. apply Hn. eapply elem_of_sublist; [|exact Hs]. left.
  - injection E as <-. by apply singleton_sublist_l.
  - by apply IH.
  - injection E as -> <-. exfalso. apply Hn, elem_of_app. right. left.
Qed.

End Lists.

Section Iter.
Context `{SegMemory} {term obj : Type} `{DbTerms term obj}.
Abbreviation hterm := (HashDbTerm obj).
Abbreviation table := (DbTableHash obj).
Implicit Types (tb : table) (b : hterm) (c pre run post rest : list hterm) (k x : term) (B : list (list hterm)).

(** The first object that is alive, and what is after it. *)
Lemma split_live_spec c :
  match (split_at (λ b, negb (deleted b)) c).2 with
  | [] => live c = []
  | b :: rest => ∃ dead, c = dead ++ b :: rest ∧ Forall (λ b, deleted b = true) dead ∧ deleted b = false
  end.
Proof.
  destruct (first_live c) as [El|(dead & b & r & -> & Hd & Hb)].
  - assert (split_at (λ b, negb (deleted b)) (c ++ []) = (c, [])) as Es.
    { apply split_at_spec; [|done]. apply live_dead in El. eapply Forall_impl; [exact El|]. by intros b ->. }
    rewrite app_nil_r in Es. by rewrite Es.
  - rewrite split_at_spec; [by exists dead| |by rewrite Hb]. eapply Forall_impl; [exact Hd|]. by intros b' ->.
Qed.

(** The first key of a chain with an object. *)
Lemma chain_first c :
  grouped c → head (filter (λ x, content x c ≠ []) (remove_dups (keys c))) = keyof <$> head (live c).
Proof.
  intros Hg. assert (∀ x, live (filter (λ b, keyof b = x) c) ≠ [] ↔ content x c ≠ []) as Hc by (intros x; unfold content; by rewrite no_objects).
  destruct (live c) as [|b l] eqn:El.
  { rewrite filter_nothing; [done|]. intros x _. rewrite <- Hc, <- filter_live, El. auto. }
  cbn [head fmap option_fmap option_map]. destruct (grouped_view c (keyof b) Hg) as (pre & run & post & Hv). pose proof Hv as [-> Hpre Hrun Hpost _ _ _ Hd].
  assert (live pre = []) as Epre.
  { rewrite live_app in El. destruct (live pre) as [|b0 l0] eqn:E0; [done|]. cbn in El. injection El as -> _. exfalso. apply Hpre.
    assert (b ∈ live pre) as [_ ?]%list_elem_of_filter by (rewrite E0; left). by apply list_elem_of_fmap_2. }
  assert (run ≠ []) as Hne. { intros ->. rewrite (v_none _ _ _ _ _ Hv) in El by done. by rewrite !app_nil_r, Epre in El. }
  assert (content (keyof b) (pre ++ run ++ post) ≠ []) as Hb.
  { apply Hc. rewrite <- filter_live, El, filter_cons_True by done. done. }
  rewrite !keys_app, remove_dups_app_disjoint, filter_app, head_app.
  - rewrite filter_nothing.
    + rewrite remove_dups_app_disjoint by (intros y Hy; by rewrite (run_keys _ _ _ Hrun Hy)).
      rewrite (remove_dups_run _ _ Hrun). destruct (decide (run = [])); [done|]. cbn [app head]. by rewrite filter_cons_True.
    + intros x Hx. rewrite elem_of_remove_dups in Hx. rewrite <- Hc, !filter_app, !live_app, (filter_other x run), (filter_other x post), <- filter_live, Epre; [by intros []|by apply Hd|].
      intros Hin. rewrite (run_keys _ _ _ Hrun Hin) in Hx. done.
  - intros x Hx [Hin|Hin]%elem_of_app; [|by apply (Hd x)]. rewrite (run_keys _ _ _ Hrun Hin) in Hx. done.
Qed.

Section Table.
Context tb B (Hok : table_ok tb B).

Definition has_objects x : Prop := objects tb B x ≠ [].

#[local] Instance has_objects_dec x : Decision (has_objects x).
Proof. unfold has_objects. apply _. Defined.

Lemma chain_at_ok i : 0 <= i < nactive tb → bucket tb i = Ok (chain_at B i) ∧ chain_ok tb i (chain_at B i) ∧ B !! Z.to_nat i = Some (chain_at B i).
Proof.
  intros Hi. pose proof (ok_slots _ _ Hok). destruct (lookup_lt_is_Some_2 B (Z.to_nat i)) as [c Ec]; [unfold zlen in *; lia|].
  unfold chain_at. rewrite Ec. cbn. split_and!; [by eapply bucket_ok; [..|lia|]| |done].
  pose proof (ok_chain _ _ Hok _ _ Ec) as Hc. by rewrite Z2Nat.id in Hc by lia.
Qed.

Lemma chain_slot i x : 0 <= i < nactive tb → x ∈ keys (chain_at B i) → slot tb x = i.
Proof.
  intros Hi (b & -> & Hb)%list_elem_of_fmap. destruct (chain_at_ok i Hi) as (_ & [_ _ He] & _). rewrite Forall_forall in He. apply (He _ Hb).
Qed.

Lemma objects_at i x : 0 <= i < nactive tb → x ∈ keys (chain_at B i) → objects tb B x = content x (chain_at B i).
Proof. intros Hi Hx. unfold objects. rewrite (chain_slot _ _ Hi Hx). by destruct (chain_at_ok i Hi) as (_ & _ & ->). Qed.

Abbreviation order := (slot_order (nactive tb)).

Lemma order_elem i : i ∈ order ↔ 0 <= i < nactive tb.
Proof. apply slot_order_elem. pose proof (ok_min _ _ Hok). unfold SEGSZ in *. lia. Qed.

Lemma order_next l1 i l2 : order = l1 ++ i :: l2 → next_slot tb i = default 0 (head l2).
Proof.
  intros E. pose proof (ok_min _ _ Hok). pose proof (order_linked tb (nactive tb) (NACTIVE_ok _ _ Hok) ltac:(unfold SEGSZ in *; lia)) as Hl.
  rewrite E in Hl. by apply linked_at in Hl.
Qed.

(** 0 is the first slot, so that it ends the list. *)
Lemma order_zero l1 l2 : order = l1 ++ 0 :: l2 → l1 = [].
Proof.
  intros E. pose proof (ok_min _ _ Hok). pose proof (order_head (nactive tb) ltac:(unfold SEGSZ in *; lia)) as Hh.
  pose proof (slot_order_nodup (nactive tb)) as Hnd. rewrite E in Hh, Hnd. destruct l1 as [|y l1]; [done|]. injection Hh as ->.
  apply NoDup_cons in Hnd as [Hn _]. exfalso. apply Hn, elem_of_app. right. left.
Qed.

(** The first object that is alive in the slots of [l]. *)
Fixpoint search (l : list Z) : option (Z * hterm * list hterm) :=
  match l with
  | [] => None
  | i :: l => match (split_at (λ b, negb (deleted b)) (chain_at B i)).2 with b :: rest => Some (i, b, rest) | [] => search l end
  end.

(** Among [rest] or in the slots of [l]. *)
Definition search_from (i : Z) rest (l : list Z) : option (Z * hterm * list hterm) :=
  match (split_at (λ b, negb (deleted b)) rest).2 with b :: rest => Some (i, b, rest) | [] => search l end.

Lemma next_in_slots_ok fuel l1 i l2 :
  order = l1 ++ i :: l2 → (length l2 < fuel)%nat → next_in_slots fuel tb i = Ok (search l2).
Proof.
  revert l1 i l2. induction fuel as [|fuel IH]; intros l1 i l2 E Hf; [lia|]. cbn [next_in_slots]. rewrite (order_next _ _ _ E).
  destruct l2 as [|j l2]; [done|]. cbn [head default from_option id]. unfold id. assert (0 <= j < nactive tb) as Hj by (apply order_elem; rewrite E; apply elem_of_app; right; right; left).
  assert (order = (l1 ++ [i]) ++ j :: l2) as E' by (by rewrite <- app_assoc).
  destruct (Z.eqb_spec j 0) as [->|_]; [apply order_zero in E'; by destruct l1|]. destruct (chain_at_ok j Hj) as (-> & _ & _). rewrite bind_Ok.
  cbn [search]. destruct (split_at _ (chain_at B j)).2 as [|b rest]; [|done]. apply (IH (l1 ++ [i])); [done|cbn in Hf; lia].
Qed.

Lemma order_length : (length order <= Z.to_nat (nactive tb))%nat.
Proof.
  pose proof (ok_min _ _ Hok). assert (order ⊆+ seqZ 0 (nactive tb)) as Hs%submseteq_length.
  { apply NoDup_submseteq; [apply slot_order_nodup|]. intros i Hi%order_elem. apply elem_of_seqZ. lia. }
  by rewrite length_seqZ in Hs.
Qed.

Lemma next_search l1 i l2 rest : order = l1 ++ i :: l2 → next tb i rest = Ok (search_from i rest l2).
Proof.
  intros E. unfold next, search_from. destruct (split_at _ rest).2; [|done]. apply (next_in_slots_ok _ l1); [done|].
  pose proof order_length as Hl. rewrite E, length_app in Hl. cbn in Hl. lia.
Qed.

(** ** The keys found *)

Definition visits (l : list Z) : list term := concat ((λ i, remove_dups (keys (chain_at B i))) <$> l).

Lemma key_search l : (∀ i, i ∈ l → 0 <= i < nactive tb) → key_of (search l) = head (filter has_objects (visits l)).
Proof.
  induction l as [|i l IH]; intros Hl; [done|]. cbn [search]. unfold visits. rewrite fmap_cons. cbn [concat]. rewrite filter_app, head_app.
  assert (0 <= i < nactive tb) as Hi by (apply Hl; left). destruct (chain_at_ok i Hi) as (_ & [Hg _ _] & _).
  rewrite (filter_ext_in has_objects (λ x, content x (chain_at B i) ≠ [])).
  2: { intros x Hx. rewrite elem_of_remove_dups in Hx. unfold has_objects. by rewrite (objects_at i). }
  rewrite (chain_first _ Hg). pose proof (split_live_spec (chain_at B i)) as Hs. destruct (split_at _ _).2 as [|b rest].
  - rewrite Hs. cbn. apply IH. intros j Hj. apply Hl. by right.
  - destruct Hs as (dead & -> & Hd & Hb). by rewrite (live_after_dead _ _ _ Hd Hb).
Qed.

Lemma key_search_from i pre run post k l :
  0 <= i < nactive tb → (∀ i, i ∈ l → 0 <= i < nactive tb) → view (chain_at B i) k pre run post →
  key_of (search_from i post l) = head (filter has_objects (remove_dups (keys post) ++ visits l)).
Proof.
  intros Hi Hl Hv. pose proof Hv as [Ec _ Hrun Hpost _ Gpost _ Hd]. rewrite filter_app, head_app.
  rewrite (filter_ext_in has_objects (λ x, content x post ≠ [])).
  2: { intros x Hx. rewrite elem_of_remove_dups in Hx. unfold has_objects. rewrite (objects_at i), Ec.
    - unfold content. rewrite !filter_app, (filter_other x pre), (filter_other x run); [done| |by intros ?; apply (Hd x)].
      intros Hin. by rewrite (run_keys _ _ _ Hrun Hin) in Hx.
    - done.
    - rewrite Ec, !keys_app. apply elem_of_app. right. apply elem_of_app. by right. }
  rewrite (chain_first _ Gpost). unfold search_from. pose proof (split_live_spec post) as Hs. destruct (split_at _ _).2 as [|b rest].
  - rewrite Hs. cbn. by apply key_search.
  - destruct Hs as (dead & -> & Hdead & Hb). by rewrite (live_after_dead _ _ _ Hdead Hb).
Qed.

(** ** The other objects of a bag with the key *)

Lemma search_other l k j b rest :
  (∀ i, i ∈ l → 0 <= i < nactive tb) → slot tb k ∉ l → search l = Some (j, b, rest) → keyof b ≠ k ∧ hashed b.
Proof.
  intros Hl Hk. induction l as [|i l IH]; [done|]. cbn [search]. apply not_elem_of_cons in Hk as [Hne Hk].
  assert (0 <= i < nactive tb) as Hi by (apply Hl; left). destruct (chain_at_ok i Hi) as (_ & Hc & _).
  pose proof (split_live_spec (chain_at B i)) as Hs. destruct (split_at _ _).2 as [|b' rest'].
  - apply IH; [|done]. intros j' Hj'. apply Hl. by right.
  - intros E. injection E as -> -> ->. destruct Hs as (dead & Ec & _ & _). assert (b ∈ chain_at B j) as Hb by (rewrite Ec; apply elem_of_app; right; left).
    split; [intros <-; apply Hne; apply chain_slot; [done|by apply list_elem_of_fmap_2]|].
    pose proof (chain_hashed _ _ _ Hc) as Hh. by eapply Forall_forall in Hh.
Qed.

Lemma search_from_other i post k l j b rest :
  (∀ i, i ∈ l → 0 <= i < nactive tb) → slot tb k ∉ l → Forall hashed post → k ∉ keys post →
  search_from i post l = Some (j, b, rest) → has_live_key b k (MAKE_HASH k) = false.
Proof.
  intros Hl Hk Hh Hp. unfold search_from. pose proof (split_live_spec post) as Hs. destruct (split_at _ post).2 as [|b' rest'].
  - intros E. destruct (search_other _ _ _ _ _ Hl Hk E) as [Hne Hb]. rewrite has_live_key_spec by done. by rewrite bool_decide_false, andb_false_r.
  - intros E. injection E as -> -> ->. destruct Hs as (dead & -> & _ & _). pose proof (no_live_key _ _ Hh Hp) as Hn.
    apply Forall_app in Hn as [_ [Hn _]%Forall_cons]. done.
Qed.

Lemma skip_key_ok fuel l1 i l2 k run post :
  order = l1 ++ i :: l2 → slot tb k ∉ l2 → Forall (λ b, keyof b = k) run → Forall hashed run → Forall hashed post → k ∉ keys post →
  (length run < fuel)%nat →
  (r ← next tb i (run ++ post); skip_key fuel tb k (MAKE_HASH k) r) = Ok (search_from i post l2).
Proof.
  intros E Hk Hrun Hh Hhp Hp. rewrite (next_search l1 i l2) by done. rewrite bind_Ok.
  assert (∀ j, j ∈ l2 → 0 <= j < nactive tb) as Hl2 by (intros j Hj; apply order_elem; rewrite E; apply elem_of_app; right; by right).
  revert run Hrun Hh. induction fuel as [|fuel IH]; intros run Hrun Hh Hf; [lia|].
  destruct (first_live run) as [El|(dead & b & r & -> & Hd & Hb)].
  - assert (search_from i (run ++ post) l2 = search_from i post l2) as ->.
    { unfold search_from. clear -El. induction run as [|b run IH]; [done|]. rewrite live_cons in El. cbn. destruct (deleted b) eqn:Ed; [|done]. cbn.
      rewrite <- IH by done. by destruct (split_at _ (run ++ post)). }
    destruct (search_from i post l2) as [[[j b] rest]|] eqn:Es; [|done]. cbn [skip_key].
    by rewrite (search_from_other i post k l2 j b rest).
  - assert (search_from i ((dead ++ b :: r) ++ post) l2 = Some (i, b, r ++ post)) as ->.
    { unfold search_from. rewrite <- app_assoc. cbn [app]. rewrite split_at_spec; [done| |by rewrite Hb].
      eapply Forall_impl; [exact Hd|]. by intros ? ->. }
    apply Forall_app in Hrun as [_ [Hkb Hr]%Forall_cons], Hh as [_ [Hhb Hhr]%Forall_cons].
    cbn [skip_key]. rewrite live_key by done. cbn [negb]. rewrite (next_search l1 i l2) by done. rewrite bind_Ok.
    apply IH; [done|done|]. rewrite length_app in Hf. cbn in Hf. lia.
Qed.

(** * Iteration *)

Lemma order_split k : ∃ l1 l2, order = l1 ++ slot tb k :: l2 ∧ (slot tb k ∉ l2) ∧ slot tb k ∉ l1.
Proof.
  pose proof (slot_range _ _ k Hok) as Hr. apply order_elem in Hr. apply list_elem_of_split in Hr as (l1 & l2 & E). exists l1, l2. split; [done|].
  pose proof (slot_order_nodup (nactive tb)) as Hnd. rewrite E in Hnd. apply NoDup_app in Hnd as (_ & Hd & [Hn _]%NoDup_cons). split; [done|].
  intros Hin. apply (Hd _ Hin). left.
Qed.

Lemma sequence_visits : sequence tb B = visits order.
Proof. done. Qed.

Lemma visits_app l1 l2 : visits (l1 ++ l2) = visits l1 ++ visits l2.
Proof. unfold visits. by rewrite fmap_app, concat_app. Qed.

Lemma elem_of_visits x l : x ∈ visits l ↔ ∃ i, i ∈ l ∧ x ∈ keys (chain_at B i).
Proof.
  unfold visits. rewrite list_elem_of_In, in_concat. split.
  - intros (ks & Hks & Hx). rewrite <- list_elem_of_In in Hks. rewrite <- list_elem_of_In in Hx. apply list_elem_of_fmap in Hks as (i & -> & Hi).
    rewrite elem_of_remove_dups in Hx. eauto.
  - intros (i & Hi & Hx). exists (remove_dups (keys (chain_at B i))). rewrite <- !list_elem_of_In. rewrite elem_of_remove_dups.
    split; [apply list_elem_of_fmap; eauto|done].
Qed.

Lemma visits_nodup l : NoDup l → (∀ i, i ∈ l → 0 <= i < nactive tb) → NoDup (visits l).
Proof.
  induction l as [|i l IH]; intros Hnd Hl; [constructor|]. apply NoDup_cons in Hnd as [Hi Hnd]. unfold visits. rewrite fmap_cons. cbn [concat]. apply NoDup_app. split_and!.
  - apply NoDup_remove_dups.
  - intros x Hx. rewrite elem_of_remove_dups in Hx. intros (j & Hj & Hxj)%elem_of_visits.
    rewrite <- (chain_slot i x), (chain_slot j x) in Hi; [done|apply Hl; by right|done|apply Hl; left|done].
  - apply IH; [done|]. intros j Hj. apply Hl. by right.
Qed.

Lemma sequence_nodup : NoDup (sequence tb B).
Proof. rewrite sequence_visits. apply visits_nodup; [apply slot_order_nodup|]. intros i. by rewrite order_elem. Qed.

(** A key with an object is in the sequence. *)
Lemma has_objects_sequence x : has_objects x → x ∈ sequence tb B.
Proof.
  intros Hx. rewrite sequence_visits, elem_of_visits. pose proof (slot_range _ _ x Hok) as Hr. exists (slot tb x). split; [by apply order_elem|].
  unfold has_objects, objects in Hx. destruct (chain_at_ok _ Hr) as (_ & _ & E). rewrite E in Hx. destruct (decide (x ∈ keys (chain_at B (slot tb x)))) as [|Hn]; [done|].
  exfalso. apply Hx. unfold content. by rewrite (filter_other _ _ Hn).
Qed.

Lemma db_next_hash_ok k l1 l2 :
  sequence tb B = l1 ++ k :: l2 → db_next_hash tb k = Ok (Some (head (filter has_objects l2))).
Proof.
  intros E. destruct (order_split k) as (o1 & o2 & Eo & Hk2 & Hk1). pose proof (slot_range _ _ k Hok) as Hr.
  assert (∀ j, j ∈ o2 → 0 <= j < nactive tb) as Ho2 by (intros j Hj; apply order_elem; rewrite Eo; apply elem_of_app; right; by right).
  destruct (chain_at_ok _ Hr) as (Eb & Hc & _). destruct (grouped_view _ k (co_grouped _ _ _ Hc)) as (pre & run & post & Hv).
  pose proof (chain_hashed _ _ _ Hc) as Hh. destruct (view_hashed _ _ _ _ _ Hv Hh) as (_ & Hhr & Hhp). pose proof Hv as [Ec Hpre Hrun Hpost _ _ Hnone Hd].
  assert (run ≠ []) as Hne.
  { intros ->. rewrite (Hnone eq_refl), !app_nil_r in Ec. assert (k ∈ sequence tb B) as Hin by (rewrite E; apply elem_of_app; right; left).
    rewrite sequence_visits, elem_of_visits in Hin. destruct Hin as (j & Hj & Hkj). rewrite order_elem in Hj. rewrite <- (chain_slot j k Hj Hkj), Ec in Hkj. done. }
  assert (l2 = remove_dups (keys post) ++ visits o2) as ->.
  { assert (sequence tb B = (visits o1 ++ remove_dups (keys pre)) ++ k :: remove_dups (keys post) ++ visits o2) as E2.
    { rewrite sequence_visits, Eo, visits_app. unfold visits at 2. rewrite fmap_cons. cbn [concat]. fold (visits o2). rewrite Ec, !keys_app.
      rewrite !remove_dups_app_disjoint, (remove_dups_run _ _ Hrun).
      - destruct (decide (run = [])); [done|]. by rewrite <- !app_assoc.
      - intros y Hy. by rewrite (run_keys _ _ _ Hrun Hy).
      - intros y Hy [Hin|Hin]%elem_of_app; [|by apply (Hd y)]. by rewrite (run_keys _ _ _ Hrun Hin) in Hy. }
    pose proof sequence_nodup as Hnd. rewrite E in E2, Hnd. clear -E2 Hnd. revert E2 Hnd.
    generalize (visits o1 ++ remove_dups (keys pre)), (remove_dups (keys post) ++ visits o2). clear. intros m1 m2. revert m1.
    induction l1 as [|y l1 IH]; intros [|z m1] E Hnd; cbn in *; injection E.
    - done.
    - intros -> <-. apply NoDup_cons in Hnd as [Hn _]. exfalso. apply Hn, elem_of_app. right. left.
    - intros <- ->. apply NoDup_cons in Hnd as [Hn _]. exfalso. apply Hn, elem_of_app. right. left.
    - intros E' _. apply NoDup_cons in Hnd as [_ Hnd]. by apply (IH m1). }
  rewrite <- (key_search_from _ _ _ _ k o2 Hr Ho2 Hv). unfold db_next_hash. fold (slot tb k). rewrite Eb, bind_Ok, (split_has_key _ _ _ _ _ Hv Hh).
  destruct run as [|b run]; [done|]. cbn [snd app]. apply Forall_cons in Hrun as [Hkb Hrun], Hhr as [Hhb Hhr].
  case_bool_decide as Ety.
  - rewrite (next_search o1 _ o2) by done. rewrite !bind_Ok. pose proof (co_unique _ _ _ Hc k) as Hu. rewrite (view_filter _ _ _ _ _ Hv), Ety in Hu. cbn in Hu.
    destruct run; [done|cbn in Hu; lia].
  - rewrite <- bind_assoc, (skip_key_ok _ o1 _ o2), bind_Ok; try done. rewrite Ec, !length_app. cbn. lia.
Qed.

Lemma db_first_hash_ok : db_first_hash tb = Ok (head (filter has_objects (sequence tb B))).
Proof.
  assert (∀ fuel l1 i l2, order = l1 ++ i :: l2 → (length l2 < fuel)%nat → ∃ r, first_bucket fuel tb i = Ok r ∧ key_of r = key_of (search (i :: l2))) as Hall.
  { induction fuel as [|fuel IH]; intros l1 i l2 E Hf; [lia|]. cbn [first_bucket].
    assert (0 <= i < nactive tb) as Hi by (apply order_elem; rewrite E; apply elem_of_app; right; left). destruct (chain_at_ok i Hi) as (-> & _ & _). rewrite bind_Ok.
    destruct (chain_at B i) as [|b c] eqn:Ec.
    - rewrite (order_next _ _ _ E). destruct l2 as [|j l2]; [exists None; cbn; by rewrite Ec|]. cbn [head default from_option id]. unfold id.
      assert (order = (l1 ++ [i]) ++ j :: l2) as E' by (by rewrite <- app_assoc). destruct (Z.eqb_spec j 0) as [->|_]; [apply order_zero in E'; by destruct l1|].
      destruct (IH _ _ _ E' ltac:(cbn in Hf; lia)) as (r & -> & Er). exists r. split; [done|]. rewrite Er. cbn [search]. by rewrite Ec.
    - destruct (deleted b) eqn:Ed.
      + rewrite (next_search l1 i l2) by done. exists (search_from i c l2). split; [done|]. cbn [search]. rewrite Ec. cbn [split_at]. rewrite Ed. cbn [negb].
        unfold search_from. by destruct (split_at _ c).
      + exists (Some (i, b, c)). split; [done|]. cbn [search]. rewrite Ec. cbn [split_at]. by rewrite Ed. }
  pose proof (ok_min _ _ Hok). pose proof (order_head (nactive tb) ltac:(unfold SEGSZ in *; lia)) as Hh. pose proof order_length as Hl.
  destruct order as [|z l] eqn:Eo; [done|]. injection Hh as ->. unfold db_first_hash.
  destruct (Hall (Z.to_nat (nactive tb)) [] 0 l eq_refl ltac:(cbn in Hl; lia)) as (r & -> & Er). rewrite bind_Ok, Er, key_search.
  - rewrite sequence_visits, Eo. done.
  - intros i Hi. apply order_elem. by rewrite Eo.
Qed.

End Table.
End Iter.
