(* ===== verification/DbHashProps.v ===== *)
(** ETS hash tables (DbHash.v): the properties of a table over its whole life.

    A history is a list of operations on a new table.  It refines a store that knows only
    the objects of every key in the order of their insertion, their number and how often
    the table is fixed: buckets that are split and joined, segments that come and go, and
    objects that are only marked as deleted cannot be seen in these histories (which leave
    out the operations [store_step] has no contract for).  A traversal of a fixed table
    visits no key twice and misses no key that stays in the table, whatever is inserted and
    deleted meanwhile. *)
From S2P Require Import Prelude DbSeg DbHash DbHashSpec DbHashOps DbHashIter.

(** * Histories *)

Inductive db_op (term obj : Type) :=
| Put (o : obj) (key_clash_fail : bool)
| Get (k : term)
| Member (k : term)
| Element (k : term) (ndex : Z)
| Erase (k : term)
| EraseObject (o : obj)
| Take (k : term)
| Update (k : term) (default : option obj) (f : obj → obj)
| DeleteAll
| Fix
| Unfix
| Size.
Arguments Put {term obj} _ _.
Arguments Get {term obj} _.
Arguments Member {term obj} _.
Arguments Element {term obj} _ _.
Arguments Erase {term obj} _.
Arguments EraseObject {term obj} _.
Arguments Take {term obj} _.
Arguments Update {term obj} _ _ _.
Arguments DeleteAll {term obj}.
Arguments Fix {term obj}.
Arguments Unfix {term obj}.
Arguments Size {term obj}.

Inductive db_out (term obj : Type) :=
| OErr (e : db_error)
| OObjs (l : list obj)
| OTerms (e : db_error) (l : list term)
| OBool (b : bool)
| ODone
| OSize (n : Z).
Arguments OErr {term obj} _.
Arguments OObjs {term obj} _.
Arguments OTerms {term obj} _ _.
Arguments OBool {term obj} _.
Arguments ODone {term obj}.
Arguments OSize {term obj} _.

(** What a table promises. *)
Record store (term obj : Type) := mk_store { st_objs : term → list obj; st_size : Z; st_fixed : Z }.
Arguments mk_store {term obj} _ _ _.
Arguments st_objs {term obj} _ _.
Arguments st_size {term obj} _.
Arguments st_fixed {term obj} _.

Section Props.
Context `{SegMemory} {term obj : Type} `{DbTerms term obj}.
Abbreviation table := (DbTableHash obj).
Abbreviation op := (db_op term obj).
Abbreviation out := (db_out term obj).
Implicit Types (tb : table) (k x : term) (o : obj) (s : store term obj) (ops : list op).

Definition step tb (p : op) : res (out * table) :=
  match p with
  | Put o clash => '(e, tb) ← db_put_hash tb o clash; Ok (OErr e, tb)
  | Get k => l ← db_get_hash tb k; Ok (OObjs l, tb)
  | Member k => b ← db_member_hash tb k; Ok (OBool b, tb)
  | Element k n => '(e, l) ← db_get_element_hash tb k n; Ok (OTerms e l, tb)
  | Erase k => tb ← db_erase_hash tb k; Ok (ODone, tb)
  | EraseObject o => tb ← db_erase_object_hash tb o; Ok (ODone, tb)
  | Take k => '(l, tb) ← db_take_hash tb k; Ok (OObjs l, tb)
  | Update k d f => '(b, tb) ← update_term tb k d f; Ok (OBool b, tb)
  | DeleteAll => tb ← db_delete_all_objects_hash tb; Ok (ODone, tb)
  | Fix => Ok (ODone, fix_table tb)
  | Unfix => tb ← unfix_table tb; Ok (ODone, tb)
  | Size => Ok (OSize (nitems tb), tb)
  end.

Fixpoint steps tb ops : res (list out * table) :=
  match ops with
  | [] => Ok ([], tb)
  | p :: ops => '(r, tb) ← step tb p; '(rs, tb) ← steps tb ops; Ok (r :: rs, tb)
  end.

Definition new_table (ty : table_type) : res table := db_create_hash (mk_table ty 0 0 [] 0 0 false (mk_segs ∅ 0 0 0 0)).

(** ** The store *)

Definition store_put s k (l : list obj) : store term obj :=
  mk_store (λ k', if decide (k' = k) then l else st_objs s k') (st_size s + (zlen l - zlen (st_objs s k))) (st_fixed s).

(** An operation of the store, or nothing if the table has no contract for it: to release a
    table that is not fixed, to take from a bag that is fixed, to update an object of a bag. *)
Definition store_step (ty : table_type) s (p : op) : option (out * store term obj) :=
  match p with
  | Put o clash =>
      let '(e, l) := spec_put ty (st_objs s (GETKEY o)) o clash in Some (OErr e, store_put s (GETKEY o) l)
  | Get k => Some (OObjs (st_objs s k), s)
  | Member k => Some (OBool (negb (bool_decide (st_objs s k = []))), s)
  | Element k n => let '(e, l) := spec_element (st_objs s k) n in Some (OTerms e l, s)
  | Erase k => Some (ODone, store_put s k [])
  | EraseObject o => Some (ODone, store_put s (GETKEY o) (filter (λ o', is_obj o o' = false) (st_objs s (GETKEY o))))
  | Take k =>
      if bool_decide (ty = DB_SET) || (st_fixed s =? 0) then Some (OObjs (st_objs s k), store_put s k []) else None
  | Update k d f =>
      if bool_decide (ty = DB_SET) then
        let '(b, l) := spec_update (st_objs s k) k d f in Some (OBool b, store_put s k l)
      else None
  | DeleteAll => Some (ODone, mk_store (λ _, []) 0 (st_fixed s))
  | Fix => Some (ODone, mk_store (st_objs s) (st_size s) (st_fixed s + 1))
  | Unfix => if 0 <? st_fixed s then Some (ODone, mk_store (st_objs s) (st_size s) (st_fixed s - 1)) else None
  | Size => Some (OSize (st_size s), s)
  end.

Fixpoint store_steps (ty : table_type) s ops : option (list out * store term obj) :=
  match ops with
  | [] => Some ([], s)
  | p :: ops => '(r, s) ← store_step ty s p; '(rs, s) ← store_steps ty s ops; Some (r :: rs, s)
  end.

Definition empty_store : store term obj := mk_store (λ _, []) 0 0.

(** The functions of an update keep the key, and so does the default object. *)
Definition op_ok (p : op) : Prop :=
  match p with
  | Update k _ f => (∀ o, GETKEY (f o) = GETKEY o) ∧ ∀ o, GETKEY (set_key o k) = k
  | _ => True
  end.

(** ** Refinement *)

Record refines tb (B : list (list (HashDbTerm obj))) (ty : table_type) s : Prop := {
  rf_ok : table_ok tb B;
  rf_type : t_type tb = ty;
  rf_objs : ∀ k, objects tb B k = st_objs s k;
  rf_size : nitems tb = st_size s;
  rf_fixed : nfixed tb = st_fixed s }.

(** What a step does to a table that stays fixed. *)
Definition keeps_order tb B tb' B' : Prop :=
  nfixed tb ≠ 0 → nfixed tb' ≠ 0 → nactive tb' = nactive tb ∧ sequence tb B `sublist_of` sequence tb' B'.

Lemma effect_refines tb B ty s tb' B' k l :
  refines tb B ty s → effect tb B tb' B' k l → refines tb' B' ty (store_put s k l) ∧ keeps_order tb B tb' B'.
Proof.
  intros [Hok Hty Ho Hs Hf] He. split; [split|intros Hn _; by apply He].
  - apply He.
  - rewrite (ef_type _ _ _ _ _ _ He). done.
  - intros k'. cbn. destruct (decide (k' = k)) as [->|Hne]; [apply He|]. by rewrite (ef_others _ _ _ _ _ _ He).
  - cbn. by rewrite (ef_items _ _ _ _ _ _ He), Hs, Ho.
  - cbn. by rewrite (ef_nfixed _ _ _ _ _ _ He).
Qed.

Lemma kept_refines tb B ty s tb' B' n :
  refines tb B ty s → kept_all_objects tb B tb' B' n → refines tb' B' ty (mk_store (st_objs s) (st_size s) n) ∧ keeps_order tb B tb' B'.
Proof.
  intros [Hok Hty Ho Hs Hf] [Hok' Hty' Hn' Hi Hobj Hord]. split; [split; cbn; try done|].
  - congruence.
  - intros k. by rewrite Hobj.
  - congruence.
  - intros _ Hn. destruct Hord as [Ea ->]; [congruence|]. split; [done|]. unfold sequence. by rewrite Ea.
Qed.

Lemma same_refines tb B ty s : refines tb B ty s → refines tb B ty s ∧ keeps_order tb B tb B.
Proof. by intros Hr; split; [|intros _ _]. Qed.

Context (Hal : ∀ n, alloc_succeeds n = true).

Lemma spec_put_size ty (l : list obj) o clash : zlen (spec_put ty l o clash).2 <= zlen l + 1.
Proof.
  unfold spec_put. pose proof (zlen_nonneg l). destruct (_ && _); [cbn; lia|]. destruct ty; cbn; [unfold zlen in *; cbn; lia| |rewrite zlen_app; done].
  case_bool_decide; [lia|rewrite zlen_app; done].
Qed.

Lemma spec_update_size (l : list obj) k d f : zlen (spec_update l k d f).2 <= zlen l + 1.
Proof. unfold spec_update. destruct l as [|o l]; [destruct d|]; unfold zlen; cbn; lia. Qed.

(** An operation on the objects of one key. *)
Lemma effect_step tb B ty s tb' B' k l :
  refines tb B ty s → effect tb B tb' B' k l → zlen l <= zlen (st_objs s k) + 1 →
  refines tb' B' ty (store_put s k l) ∧ keeps_order tb B tb' B' ∧ nitems tb' <= nitems tb + 1.
Proof.
  intros Hr He Hl. destruct (effect_refines _ _ _ _ _ _ _ _ Hr He) as [Hr' Hk]. split_and!; [done|done|].
  rewrite (ef_items _ _ _ _ _ _ He), (rf_objs _ _ _ _ Hr). lia.
Qed.

Lemma step_refines tb B ty s p r s' :
  refines tb B ty s → nitems tb < max_items → op_ok p → store_step ty s p = Some (r, s') →
  ∃ tb' B', step tb p = Ok (r, tb') ∧ refines tb' B' ty s' ∧ keeps_order tb B tb' B' ∧ nitems tb' <= nitems tb + 1.
Proof.
  intros Hr Hmax Hp E. pose proof Hr as [Hok Hty Ho Hs Hf]. destruct (same_refines _ _ _ _ Hr) as [_ Hsame].
  destruct p as [o clash|k|k|k n|k|o|k|k d f| | | |]; cbn [store_step step op_ok] in *.
  - destruct (db_put_hash_ok Hal tb B o clash Hok Hmax) as (tb' & B' & -> & He). rewrite Hty, Ho in *. pose proof (spec_put_size ty (st_objs s (GETKEY o)) o clash) as Hsz.
    destruct (spec_put _ _ _ _) as [e l]. injection E as <- <-. exists tb', B'. split; [done|]. by apply effect_step.
  - injection E as <- <-. exists tb, B. rewrite (db_get_hash_ok _ _ _ Hok), Ho. split_and!; [done|done|done|lia].
  - injection E as <- <-. exists tb, B. rewrite (db_member_hash_ok _ _ _ Hok), Ho. split_and!; [done|done|done|lia].
  - rewrite (db_get_element_hash_ok _ _ _ _ Hok), Ho. destruct (spec_element _ _) as [e l]. injection E as <- <-. exists tb, B. split_and!; [done|done|done|lia].
  - injection E as <- <-. destruct (db_erase_hash_ok tb B k Hok) as (tb' & B' & -> & He). exists tb', B'. split; [done|].
    apply effect_step; [done|done|]. pose proof (zlen_nonneg (st_objs s k)). rewrite zlen_nil. lia.
  - injection E as <- <-. destruct (db_erase_object_hash_ok tb B o Hok) as (tb' & B' & -> & He). exists tb', B'. split; [done|]. rewrite Ho in He.
    apply effect_step; [done|done|]. pose proof (zlen_filter_le (λ o', is_obj o o' = false) (st_objs s (GETKEY o))). lia.
  - destruct (_ || _) eqn:Ec; [|done]. injection E as <- <-. destruct (db_take_hash_ok tb B k Hok) as (tb' & B' & -> & He).
    + apply orb_prop in Ec as [Ec%bool_decide_eq_true|Ec%Z.eqb_eq]; [left|right]; congruence.
    + exists tb', B'. rewrite Ho. split; [done|]. apply effect_step; [done|done|]. pose proof (zlen_nonneg (st_objs s k)). rewrite zlen_nil. lia.
  - case_bool_decide as Ety; [|done]. destruct Hp as [Hf1 Hf2]. destruct (update_term_ok Hal tb B k d f Hok ltac:(congruence) Hmax Hf1 Hf2) as (tb' & B' & -> & He).
    rewrite Ho in *. pose proof (spec_update_size (st_objs s k) k d f) as Hsz. destruct (spec_update _ _ _ _) as [b l]. injection E as <- <-.
    exists tb', B'. split; [done|]. by apply effect_step.
  - injection E as <- <-. destruct (db_delete_all_objects_hash_ok Hal tb B Hok) as (tb' & B' & -> & [Hok' Hty' Hf' Hi' Ho' Hord]). exists tb', B'. split_and!; [done| | |].
    + split; cbn; try done; congruence.
    + intros Hn _. by apply Hord.
    + pose proof (proj1 (ok_items _ _ Hok)). pose proof (zlen_nonneg (live (concat B))). lia.
  - injection E as <- <-. pose proof (fix_table_ok tb B Hok) as Hk. exists (fix_table tb), B. split; [done|]. rewrite Hf in Hk.
    destruct (kept_refines _ _ _ _ _ _ _ Hr Hk) as [Hr' Hko]. split_and!; [done|done|cbn; lia].
  - destruct (Z.ltb_spec 0 (st_fixed s)); [|done]. injection E as <- <-. destruct (unfix_table_ok tb B Hok ltac:(lia)) as (tb' & B' & -> & Hk). exists tb', B'. split; [done|].
    rewrite Hf in Hk. destruct (kept_refines _ _ _ _ _ _ _ Hr Hk) as [Hr' Hko]. split_and!; [done|done|]. rewrite (ka_items _ _ _ _ _ Hk). lia.
  - injection E as <- <-. exists tb, B. rewrite Hs. split_and!; [done|done|done|lia].
Qed.

Lemma steps_refine_bound tb B ty s ops rs s' :
  refines tb B ty s → nitems tb + zlen ops <= max_items → Forall op_ok ops → store_steps ty s ops = Some (rs, s') →
  ∃ tb' B', steps tb ops = Ok (rs, tb') ∧ refines tb' B' ty s' ∧ nitems tb' <= nitems tb + zlen ops.
Proof.
  revert tb B s rs. induction ops as [|p ops IH]; intros tb B s rs Hr Hmax Hp E.
  { injection E as <- <-. exists tb, B. rewrite zlen_nil in *. split_and!; [done|done|lia]. }
  apply Forall_cons in Hp as [Hp Hps]. rewrite zlen_cons in Hmax. pose proof (zlen_nonneg ops). cbn [store_steps] in E.
  destruct (store_step ty s p) as [[r s1]|] eqn:E1; [|done]. cbn in E. destruct (store_steps ty s1 ops) as [[rs' s2]|] eqn:E2; [|done]. cbn in E. injection E as <- <-.
  destruct (step_refines _ _ _ _ _ _ _ Hr ltac:(lia) Hp E1) as (tb1 & B1 & Es & Hr1 & _ & Hi). destruct (IH tb1 B1 s1 rs' Hr1 ltac:(lia) Hps E2) as (tb' & B' & Es' & Hr' & Hi').
  exists tb', B'. rewrite zlen_cons. split_and!; [cbn [steps]; by rewrite Es, bind_Ok, Es'|done|lia].
Qed.

Lemma new_table_ok ty : ∃ tb B, new_table ty = Ok tb ∧ refines tb B ty empty_store ∧ nitems tb = 0.
Proof.
  destruct (db_create_hash_ok Hal (mk_table ty 0 0 [] 0 0 false (mk_segs ∅ 0 0 0 0)) eq_refl ltac:(done)) as (tb & E & Hok & Hty & Hf & Hi & Ho).
  exists tb, (replicate (Z.to_nat SEGSZ) []). split_and!; [done| |done]. by split.
Qed.

(** C2: a table of any of the three types behaves as a store that keeps the objects of every
    key in the order of their insertion: every history of the operations that the store has
    ([store_step]) gives the results of the store, and leaves the objects and the size
    of the store, for up to [max_items] operations and if no allocation fails.  The
    operations are insertions, lookups, deletions, fixing and releasing, taking the objects
    of a key, and updates that succeed.  Left out are: taking from a bag that is fixed
    (the count of objects goes wrong, see [take_counts_marked_objects]), updates of bags
    (which the callers refuse), updates that fail (see [failed_default_is_counted]) and
    the release of a table that is not fixed. *)
Theorem table_refines_store ty ops rs s :
  zlen ops <= max_items → Forall op_ok ops → store_steps ty empty_store ops = Some (rs, s) →
  ∃ tb, (tb ← new_table ty; steps tb ops) = Ok (rs, tb) ∧ nitems tb = st_size s ∧ ∀ k, db_get_hash tb k = Ok (st_objs s k).
Proof.
  intros Hmax Hp E. destruct (new_table_ok ty) as (tb0 & B0 & -> & Hr0 & E0).
  destruct (steps_refine_bound tb0 B0 ty empty_store ops rs s Hr0 ltac:(lia) Hp E) as (tb & B & Es & [Hok _ Ho Hs _] & _). exists tb. rewrite bind_Ok. split_and!; [done|done|].
  intros k. by rewrite (db_get_hash_ok _ _ _ Hok), Ho.
Qed.

(** * Traversals *)

(** The keys after [k]: the operations of one batch are done before each [next]; the result
    says whether the end was reached. *)
Fixpoint walk tb k (batches : list (list op)) : res (list term * bool) :=
  match batches with
  | [] => Ok ([], false)
  | ops :: batches =>
      '(_, tb) ← steps tb ops;
      r ← db_next_hash tb k;
      match r with
      | None => Fault
      | Some None => Ok ([], true)
      | Some (Some k') => '(ks, e) ← walk tb k' batches; Ok (k' :: ks, e)
      end
  end.

Definition traverse tb (batches : list (list op)) : res (list term * bool) :=
  r ← db_first_hash tb;
  match r with
  | None => Ok ([], true)
  | Some k => '(ks, e) ← walk tb k batches; Ok (k :: ks, e)
  end.

(** Operations during a traversal: all but those that release the table, and the exceptions
    of [store_step]. *)
Definition fixed_op (ty : table_type) (p : op) : Prop :=
  match p with
  | Unfix => False
  | Take _ => ty = DB_SET
  | Update _ _ _ => ty = DB_SET ∧ op_ok p
  | _ => True
  end.

(** The key [x] is not deleted. *)
Definition keeps x (p : op) : Prop :=
  match p with
  | Erase k | Take k => k ≠ x
  | EraseObject o => GETKEY o ≠ x
  | DeleteAll => False
  | _ => True
  end.

Lemma fixed_op_ok ty p : fixed_op ty p → op_ok p.
Proof. destruct p; try done. by intros [_ ?]. Qed.

Lemma spec_put_nonempty ty (l : list obj) o clash : l ≠ [] → (spec_put ty l o clash).2 ≠ [].
Proof.
  intros Hl. unfold spec_put. destruct (_ && _); [done|]. destruct ty; cbn; [done| |by intros [_ ?]%app_eq_nil].
  case_bool_decide; [done|by intros [_ ?]%app_eq_nil].
Qed.

Lemma fixed_store_step ty s p : 0 < st_fixed s → fixed_op ty p →
  ∃ r s', store_step ty s p = Some (r, s') ∧ 0 < st_fixed s' ∧ ∀ x, keeps x p → st_objs s x ≠ [] → st_objs s' x ≠ [].
Proof.
  intros Hf Hp.
  assert (∀ k l x, (k = x → st_objs s x ≠ [] → l ≠ []) → st_objs s x ≠ [] → st_objs (store_put s k l) x ≠ []) as Hput.
  { intros k l x Hl Hx. cbn. destruct (decide (x = k)) as [->|]; [by apply Hl|done]. }
  destruct p as [o clash|k|k|k n|k|o|k|k d f| | | |]; cbn [store_step fixed_op] in *.
  - pose proof (λ Hl, spec_put_nonempty ty (st_objs s (GETKEY o)) o clash Hl) as Hne. destruct (spec_put _ _ _ _) as [e l].
    eexists _, _. split_and!; [done|done|]. intros x _. apply Hput. by intros <-.
  - by eexists _, _.
  - by eexists _, _.
  - destruct (spec_element _ _). by eexists _, _.
  - eexists _, _. split_and!; [done|done|]. intros x Hx. by apply Hput.
  - eexists _, _. split_and!; [done|done|]. intros x Hx. by apply Hput.
  - rewrite bool_decide_true by done. eexists _, _. split_and!; [done|done|]. intros x Hx. by apply Hput.
  - rewrite bool_decide_true by apply Hp. destruct (spec_update _ _ _ _) as [b l] eqn:El. eexists _, _. split_and!; [done|done|].
    intros x _. apply Hput. intros -> Hx. unfold spec_update in El. destruct (st_objs s x); [done|]. by injection El as _ <-.
  - by eexists _, _.
  - eexists _, _. split_and!; [done|cbn; lia|done].
  - done.
  - by eexists _, _.
Qed.

(** A batch of operations. *)
Lemma batch_ok tb B ty s ops :
  refines tb B ty s → 0 < st_fixed s → nitems tb + zlen ops <= max_items → Forall (fixed_op ty) ops →
  ∃ rs tb' B' s', steps tb ops = Ok (rs, tb') ∧ refines tb' B' ty s' ∧ 0 < st_fixed s' ∧ nitems tb' <= nitems tb + zlen ops ∧
    sequence tb B `sublist_of` sequence tb' B' ∧ ∀ x, Forall (keeps x) ops → st_objs s x ≠ [] → st_objs s' x ≠ [].
Proof.
  revert tb B s. induction ops as [|p ops IH]; intros tb B s Hr Hf Hmax Hp.
  { exists [], tb, B, s. split_and!; [done|done|done|rewrite zlen_nil; lia|done|done]. }
  apply Forall_cons in Hp as [Hp Hps]. rewrite zlen_cons in *. pose proof (zlen_nonneg ops).
  destruct (fixed_store_step ty s p Hf Hp) as (r & s1 & E1 & Hf1 & Hx1).
  destruct (step_refines _ _ _ _ _ _ _ Hr ltac:(lia) (fixed_op_ok _ _ Hp) E1) as (tb1 & B1 & Es & Hr1 & Hk & Hi).
  destruct (IH tb1 B1 s1 Hr1 Hf1 ltac:(lia) Hps) as (rs & tb' & B' & s' & Es' & Hr' & Hf' & Hi' & Hsub & Hx').
  exists (r :: rs), tb', B', s'. split_and!; [cbn [steps]; by rewrite Es, bind_Ok, Es'|done|done|lia| |].
  - transitivity (sequence tb1 B1); [|done]. apply Hk; [rewrite (rf_fixed _ _ _ _ Hr); lia|rewrite (rf_fixed _ _ _ _ Hr1); lia].
  - intros x [Hxp Hxs]%Forall_cons Hx. apply Hx'; [done|]. by apply Hx1.
Qed.

Lemma walk_ok batches tb B ty s k :
  refines tb B ty s → 0 < st_fixed s → nitems tb + zlen (concat batches) <= max_items → Forall (Forall (fixed_op ty)) batches →
  k ∈ sequence tb B →
  ∃ ks e tb' B', walk tb k batches = Ok (ks, e) ∧ table_ok tb' B' ∧ sequence tb B `sublist_of` sequence tb' B' ∧ k :: ks `sublist_of` sequence tb' B' ∧
    (e = true → ∀ x, [k; x] `sublist_of` sequence tb B → st_objs s x ≠ [] → Forall (keeps x) (concat batches) → x ∈ ks).
Proof.
  revert tb B s k. induction batches as [|ops batches IH]; intros tb B s k Hr Hf Hmax Hp Hk.
  { exists [], false, tb, B. split_and!; [done|apply Hr|done|by apply singleton_sublist_l|done]. }
  apply Forall_cons in Hp as [Hp Hps]. cbn [concat] in *. rewrite zlen_app in Hmax. pose proof (zlen_nonneg ops). pose proof (zlen_nonneg (concat batches)).
  destruct (batch_ok tb B ty s ops Hr Hf ltac:(lia) Hp) as (rs & tb1 & B1 & s1 & Es & Hr1 & Hf1 & Hi1 & Hsub1 & Hx1).
  pose proof (rf_ok _ _ _ _ Hr1) as Hok1. pose proof (sequence_nodup tb1 B1 Hok1) as Hnd. assert (k ∈ sequence tb1 B1) as Hk1 by (by eapply elem_of_sublist).
  apply list_elem_of_split in Hk1 as (l1 & l2 & El). pose proof (db_next_hash_ok tb1 B1 Hok1 k l1 l2 El) as Enext.
  cbn [walk]. rewrite Es, bind_Ok, Enext, bind_Ok. rewrite El in Hnd.
  assert (∀ x, [k; x] `sublist_of` sequence tb B → st_objs s x ≠ [] → Forall (keeps x) ops → x ∈ filter (has_objects tb1 B1) l2) as Hafter.
  { intros x Hs Hx Hkp. apply list_elem_of_filter. split; [unfold has_objects; rewrite (rf_objs _ _ _ _ Hr1); by apply Hx1|].
    apply (before_rest l1 l2 k); [done|]. rewrite <- El. by transitivity (sequence tb B). }
  assert (filter (has_objects tb1 B1) l2 `sublist_of` l2) as Hfs by apply sublist_filter.
  destruct (filter (has_objects tb1 B1) l2) as [|k' f]; cbn [head].
  - exists [], true, tb1, B1. split_and!; [done|done|done| |].
    + apply singleton_sublist_l. rewrite El. apply elem_of_app. right. left.
    + intros _ x Hs Hx [Hkp _]%Forall_app. by apply Hafter in Hs.
  - assert (k' ∈ l2) as Hk2 by (eapply elem_of_sublist; [left|exact Hfs]).
    assert ([k; k'] `sublist_of` sequence tb1 B1) as Hkk. { rewrite El. apply sublist_inserts_l, sublist_skip. by apply singleton_sublist_l. }
    destruct (IH tb1 B1 s1 k' Hr1 Hf1 ltac:(lia) Hps) as (ks & e & tb' & B' & -> & Hok' & Hsub' & Hks & Hx').
    { rewrite El. apply elem_of_app. right. by right. }
    exists (k' :: ks), e, tb', B'. split_and!; [done|done|by transitivity (sequence tb1 B1)| |].
    + apply sublist_before; [by apply sequence_nodup|by transitivity (sequence tb1 B1)|done].
    + intros He x Hs Hx [Hkp Hkps]%Forall_app. specialize (Hafter x Hs Hx Hkp). apply elem_of_cons in Hafter as [->|Hf']; [left|right].
      apply (Hx' He); [|by apply Hx1|done]. rewrite El. apply sublist_inserts_l, sublist_cons. transitivity (k' :: f); [|done]. apply sublist_skip. by apply singleton_sublist_l.
Qed.

(** C3: a traversal of a fixed table by [first] and [next] never fails, visits no key twice,
    and if it reaches the end has visited every key that was in the table at the beginning
    and has not been deleted since, whatever else is inserted and deleted between the steps. *)
Theorem fixed_traversal ty ops rs s batches :
  zlen ops + zlen (concat batches) <= max_items → Forall op_ok ops → store_steps ty empty_store ops = Some (rs, s) → 0 < st_fixed s →
  Forall (Forall (fixed_op ty)) batches →
  ∃ tb ks e, (tb ← new_table ty; steps tb ops) = Ok (rs, tb) ∧ traverse tb batches = Ok (ks, e) ∧ NoDup ks ∧
    (e = true → ∀ x, st_objs s x ≠ [] → Forall (keeps x) (concat batches) → x ∈ ks).
Proof.
  intros Hmax Hp E Hf Hb. destruct (new_table_ok ty) as (tb0 & B0 & -> & Hr0 & E0). pose proof (zlen_nonneg (concat batches)).
  destruct (steps_refine_bound tb0 B0 ty empty_store ops rs s Hr0 ltac:(lia) Hp E) as (tb & B & Es & Hr & Hi). exists tb.
  rewrite bind_Ok. pose proof (rf_ok _ _ _ _ Hr) as Hok. unfold traverse. rewrite (db_first_hash_ok tb B Hok), bind_Ok.
  destruct (head _) as [k|] eqn:Eh.
  - destruct (head_filter_before _ _ _ Eh) as [Hk Hbef].
    destruct (walk_ok batches tb B ty s k Hr Hf ltac:(lia) Hb Hk) as (ks & e & tb' & B' & -> & Hok' & _ & Hks & Hx).
    exists (k :: ks), e. split_and!; [done|done| |].
    + eapply sublist_NoDup; [by apply (sequence_nodup tb' B')|done].
    + intros He x Hox Hkp. assert (has_objects tb B x) as Hhas by (unfold has_objects; by rewrite (rf_objs _ _ _ _ Hr)).
      destruct (Hbef x (has_objects_sequence tb B Hok x Hhas) Hhas) as [->|Hs]; [left|right]. by apply (Hx He).
  - exists [], true. split_and!; [done|done|constructor|]. intros _ x Hox _. exfalso.
    assert (has_objects tb B x) as Hhas by (unfold has_objects; by rewrite (rf_objs _ _ _ _ Hr)).
    assert (x ∈ filter (has_objects tb B) (sequence tb B)) as Hin by (apply list_elem_of_filter; split; [done|by apply has_objects_sequence]).
    destruct (filter (has_objects tb B) (sequence tb B)); [by apply elem_of_nil in Hin|done].
Qed.

(** A traversal during which nothing happens. *)
Lemma walk_quiet tb B n l1 k l2 :
  table_ok tb B → sequence tb B = l1 ++ k :: l2 → (length (filter (has_objects tb B) l2) < n)%nat →
  walk tb k (replicate n []) = Ok (filter (has_objects tb B) l2, true).
Proof.
  intros Hok. revert l1 k l2. induction n as [|n IH]; intros l1 k l2 E Hn; [lia|]. cbn [replicate walk steps]. rewrite bind_Ok, (db_next_hash_ok tb B Hok k l1 l2 E), bind_Ok.
  destruct (filter (has_objects tb B) l2) as [|k' f] eqn:Ef; [done|]. cbn [head].
  destruct (filter_head_split _ _ _ _ Ef) as (m1 & m2 & -> & Em).
  rewrite (IH (l1 ++ k :: m1) k' m2), bind_Ok, Em; [done|by rewrite E, <- app_assoc|]. rewrite Em. cbn in Hn. lia.
Qed.

Lemma live_keys_bound tb B : table_ok tb B → zlen (filter (has_objects tb B) (sequence tb B)) <= nitems tb.
Proof.
  intros Hok. rewrite (proj1 (ok_items _ _ Hok)). assert (filter (has_objects tb B) (sequence tb B) ⊆+ keys (live (concat B))) as Hs%submseteq_length.
  { apply NoDup_submseteq; [apply NoDup_filter; by apply sequence_nodup|]. intros x [Hx _]%list_elem_of_filter.
    unfold has_objects, objects in Hx. destruct (B !! Z.to_nat (slot tb x)) as [c|] eqn:Ec; [|done]. unfold content in Hx.
    rewrite no_objects, <- filter_live in Hx. destruct (filter _ (live c)) as [|b l] eqn:El; [done|].
    assert (b ∈ filter (λ b, keyof b = x) (live c)) as [<- [Hd Hb]%list_elem_of_filter]%list_elem_of_filter by (rewrite El; left).
    apply list_elem_of_fmap_2, list_elem_of_filter. split; [done|]. rewrite list_elem_of_In, in_concat. exists c. rewrite <- !list_elem_of_In.
    split; [by eapply list_elem_of_lookup_2|done]. }
  unfold zlen, keys in *. rewrite length_fmap in Hs. lia.
Qed.

(** C19: a traversal during which nothing happens ends after as many steps as the table has
    objects at most, and visits exactly the keys of the table, each of them once. *)
Theorem traversal_complete ty ops rs s n :
  zlen ops <= max_items → Forall op_ok ops → store_steps ty empty_store ops = Some (rs, s) → st_size s <= Z.of_nat n →
  ∃ tb ks, (tb ← new_table ty; steps tb ops) = Ok (rs, tb) ∧ traverse tb (replicate n []) = Ok (ks, true) ∧ NoDup ks ∧
    ∀ x, x ∈ ks ↔ st_objs s x ≠ [].
Proof.
  intros Hmax Hp E Hn. destruct (new_table_ok ty) as (tb0 & B0 & -> & Hr0 & E0).
  destruct (steps_refine_bound tb0 B0 ty empty_store ops rs s Hr0 ltac:(lia) Hp E) as (tb & B & Es & Hr & Hi). pose proof (rf_ok _ _ _ _ Hr) as Hok.
  pose proof (live_keys_bound tb B Hok) as Hb. rewrite (rf_size _ _ _ _ Hr) in Hb.
  exists tb, (filter (has_objects tb B) (sequence tb B)). rewrite bind_Ok. split_and!; [done| |apply NoDup_filter; by apply sequence_nodup|].
  - unfold traverse. rewrite (db_first_hash_ok tb B Hok), bind_Ok. destruct (filter (has_objects tb B) (sequence tb B)) as [|k f] eqn:Ef; [done|]. cbn [head].
    destruct (filter_head_split _ _ _ _ Ef) as (m1 & m2 & Em & Ef2).
    rewrite (walk_quiet tb B n m1 k m2 Hok Em), bind_Ok, Ef2; [done|]. rewrite Ef2. rewrite zlen_cons in Hb. unfold zlen in *. lia.
  - intros x. rewrite list_elem_of_filter. unfold has_objects. rewrite (rf_objs _ _ _ _ Hr). split; [tauto|]. intros Hx. split; [done|].
    apply has_objects_sequence; [done|]. unfold has_objects. by rewrite (rf_objs _ _ _ _ Hr).
Qed.

End Props.

(** * Sample tables *)

Module Samples.

(** Objects are pairs with the key first; a key is its own hash value. *)
#[local] Instance sample_terms : DbTerms Z (Z * Z) := {|
  GETKEY := fst; arityval _ := 2; tpl o i := if i =? 1 then o.1 else o.2; set_key o k := (k, o.2); internal_hash k := k |}.

Definition run_sample `{SegMemory} (ty : table_type) (ops : list (db_op Z (Z * Z))) : res (list (db_out Z (Z * Z))) :=
  '(rs, _) ← (tb ← new_table ty; steps tb ops); Ok rs.

#[local] Instance sample_memory : SegMemory := λ _, true.

(** Keys that are 256 apart share a bucket.  The table is a bag; one object is deleted while
    it is fixed and comes back. *)
Definition sample_history : list (db_op Z (Z * Z)) :=
  [Put (1, 10) false; Put (1, 11) false; Fix; EraseObject (1, 10); Put (257, 20) false; Put (1, 10) false; Get 1; Unfix].

Lemma table_refines_store_witness :
  ∃ tb, (tb ← new_table DB_BAG; steps tb sample_history) =
    Ok ([OErr DB_ERROR_NONE; OErr DB_ERROR_NONE; ODone; ODone; OErr DB_ERROR_NONE; OErr DB_ERROR_NONE;
         OObjs [(1, 11); (1, 10)]; ODone], tb) ∧
    db_get_hash tb 1 = Ok [(1, 11); (1, 10)] ∧ db_get_hash tb 257 = Ok [(257, 20)].
Proof.
  assert (∃ s, store_steps DB_BAG empty_store sample_history =
      Some ([OErr DB_ERROR_NONE; OErr DB_ERROR_NONE; ODone; ODone; OErr DB_ERROR_NONE; OErr DB_ERROR_NONE; OObjs [(1, 11); (1, 10)]; ODone], s) ∧
    st_objs s 1 = [(1, 11); (1, 10)] ∧ st_objs s 257 = [(257, 20)]) as (s & Es & E1 & E2)
    by (eexists; split; [vm_compute; reflexivity|by vm_compute]).
  destruct (table_refines_store (λ _, eq_refl) DB_BAG sample_history _ s ltac:(by vm_compute) ltac:(repeat constructor) Es) as (tb & E & _ & Hg).
  exists tb. split; [exact E|]. rewrite !Hg, E1, E2. by split.
Defined.

Lemma fixed_traversal_witness :
  ∃ tb ks e, (tb ← new_table DB_SET; steps tb [Put (1, 10) false; Put (257, 20) false; Put (64, 30) false; Fix]) =
      Ok ([OErr DB_ERROR_NONE; OErr DB_ERROR_NONE; OErr DB_ERROR_NONE; ODone], tb) ∧
    traverse tb [[Erase 64; Put (513, 0) false]; [Erase 1]; []; []] = Ok (ks, e) ∧ NoDup ks ∧ (e = true → 257 ∈ ks).
Proof.
  destruct (fixed_traversal (λ _, eq_refl) DB_SET [Put (1, 10) false; Put (257, 20) false; Put (64, 30) false; Fix] _ _
    [[Erase 64; Put (513, 0) false]; [Erase 1]; []; []] ltac:(by vm_compute) ltac:(repeat constructor) eq_refl ltac:(by vm_compute) ltac:(repeat constructor))
    as (tb & ks & e & E & Et & Hnd & Hx).
  exists tb, ks, e. split; [exact E|]. split; [exact Et|]. split; [exact Hnd|]. intros He. apply (Hx He 257); [by vm_compute|by repeat constructor].
Defined.

Lemma traversal_complete_witness :
  ∃ tb ks, (tb ← new_table DB_SET; steps tb [Put (1, 10) false; Put (257, 20) false; Put (64, 30) false; Erase 1]) =
      Ok ([OErr DB_ERROR_NONE; OErr DB_ERROR_NONE; OErr DB_ERROR_NONE; ODone], tb) ∧
    traverse tb [[]; []] = Ok (ks, true) ∧ NoDup ks ∧ 257 ∈ ks.
Proof.
  destruct (traversal_complete (λ _, eq_refl) DB_SET [Put (1, 10) false; Put (257, 20) false; Put (64, 30) false; Erase 1] _ _ 2
    ltac:(by vm_compute) ltac:(repeat constructor) eq_refl ltac:(by vm_compute)) as (tb & ks & E & Et & Hnd & Hx).
  exists tb, ks. split; [exact E|]. split; [exact Et|]. split; [exact Hnd|]. apply Hx. by vm_compute.
Defined.

(** * What the contract leaves out *)

(** [db_take_hash] counts the marked objects of a bag that is fixed, so that the size of the
    table becomes negative. *)
Lemma take_counts_marked_objects :
  run_sample DB_DUPLICATE_BAG
    [Fix; Put (1, 1) false; Put (1, 2) false; EraseObject (1, 2); Put (1, 3) false; Take 1; Size] =
  Ok [ODone; OErr DB_ERROR_NONE; OErr DB_ERROR_NONE; ODone; OErr DB_ERROR_NONE; OObjs [(1, 1); (1, 3)]; OSize (-1)].
Proof. by vm_compute. Qed.

(** An update that fails on a default object that has just been inserted takes back an
    increment of the size that has not been done. *)
Lemma failed_default_is_counted :
  (tb ← new_table DB_SET;
   r ← db_lookup_dbterm_hash tb 5 (Some (0, 0));
   match r with
   | Some (h, tb) => tb ← db_finalize_dbterm_hash DB_ERROR_BADITEM h tb; Ok (nitems tb)
   | None => Fault
   end) = Ok (-1).
Proof. by vm_compute. Qed.

(** If the allocation of the segment after an extended one fails, the larger segment table is
    in use all the same, and the next shrinking frees the segment that holds it. *)
Lemma failed_allocation_frees_segtab :
  let mem : SegMemory := λ n, Nat.ltb n 2 in
  (g ← @new_segs (Z * Z) mem (mk_segs ∅ 0 0 0 0);
   '(_, g) ← @alloc_seg _ mem g;
   '(ok, g) ← @alloc_seg _ mem g;
   '(_, g) ← free_seg g false;
   Ok (ok, BUCKET g 0)) = Ok (false, Fault).
Proof. by vm_compute. Qed.

End Samples.
