(* ===== verification/DbTree.v ===== *)
(** ETS tables of the type ordered_set (erts/emulator/beam/erl_db_tree.c): an AVL tree of
    objects, and a stack of nodes that is kept from one operation to the next, so that
    [next], [prev] and [slot] need not start from the root.

    The stack holds the addresses of nodes; a node is looked up in the tree when its address
    is followed, and an address that is no longer in the tree is [Fault].  The stacks have
    room for [STACK_NEED] entries.  An operation that changes the table has the lock for
    writing and is one step; operations that read run at the same time and take the static
    stack if it is free ([t_busy]), so that they are modelled for both cases.  The comparison of
    terms and the position of the key in an object are parameters. *)
From S2P Require Import Prelude Avl DbHash.

Definition TREE_MAX_ELEMENTS : Z := 4294967295.
Definition DELETE_RECORD_LIMIT : Z := 12000.

(** [CMP] compares terms by the class of the terms they are equal to (1 and 1.0 have the same). *)
Class TermOrder (term V : Type) := {
  keyval : term → V;
  kcmp : V → V → Z;
  am_EOT : term }.

Record TreeDbTerm (obj : Type) := mk_node { n_addr : nat; n_obj : obj }.
Arguments mk_node {obj} _ _.
Arguments n_addr {obj} _.
Arguments n_obj {obj} _.

(** [s_array]: the top first; [pos] is its length. *)
Record DbTreeStack := mk_stack { s_array : list nat; s_slot : Z }.

Record DbTableTree (obj : Type) := mk_tree {
  t_root : tree (TreeDbTerm obj);
  t_nitems : Z;
  t_busy : bool;
  t_static : DbTreeStack;
  t_next : nat }.
Arguments mk_tree {obj} _ _ _ _ _.
Arguments t_root {obj} _.
Arguments t_nitems {obj} _.
Arguments t_busy {obj} _.
Arguments t_static {obj} _.
Arguments t_next {obj} _.

Section Model.
Context {term obj V : Type} `{DbTerms term obj} `{TermOrder term V}.
Abbreviation node := (TreeDbTerm obj).
Abbreviation table := (DbTableTree obj).
Implicit Types (tb : table) (n : node) (t this : tree node) (s : DbTreeStack) (key : term) (d : dir).

Definition set_root tb t : table := mk_tree t (t_nitems tb) (t_busy tb) (t_static tb) (t_next tb).
Definition set_nitems tb (i : Z) : table := mk_tree (t_root tb) i (t_busy tb) (t_static tb) (t_next tb).
Definition set_busy tb (b : bool) : table := mk_tree (t_root tb) (t_nitems tb) b (t_static tb) (t_next tb).
Definition set_static tb s : table := mk_tree (t_root tb) (t_nitems tb) (t_busy tb) s (t_next tb).
Definition set_next_addr tb (a : nat) : table := mk_tree (t_root tb) (t_nitems tb) (t_busy tb) (t_static tb) a.

Definition NITEMS tb : Z := to_int (t_nitems tb).

Definition CMP (a b : term) : Z := kcmp (keyval a) (keyval b).
Definition node_key n : term := GETKEY (n_obj n).
Definition cmp_key key n : Z := CMP key (node_key n).
Definition cmp_key_eq key n : bool := cmp_key key n =? 0.

(** A new node has a new address. *)
Definition new_dbterm tb (o : obj) : node * table := (mk_node (t_next tb) o, set_next_addr tb (S (t_next tb))).
Definition replace_dbterm tb (old : node) (o : obj) : node * table := new_dbterm tb o.

(** * Nodes and stacks *)

Definition child d t : tree node :=
  match t with
  | Null => Null
  | Node l _ _ r => match d with DIR_LEFT => l | DIR_RIGHT => r end
  end.

Definition opp d : dir := match d with DIR_LEFT => DIR_RIGHT | DIR_RIGHT => DIR_LEFT end.

Definition is_ptr t (a : nat) : bool := match t with Null => false | Node _ _ n _ => (n_addr n =? a)%nat end.

(** The node at an address. *)
Fixpoint node_at (a : nat) t : tree node :=
  match t with
  | Null => Null
  | Node l _ n r =>
      if (n_addr n =? a)%nat then t
      else match node_at a l with Null => node_at a r | t => t end
  end.

Definition node_deref tb (a : nat) : res (tree node) :=
  match node_at a (t_root tb) with Null => Fault | t => Ok t end.

Definition PUSH_NODE (arr : list nat) n : res (list nat) :=
  if (length arr <? STACK_NEED)%nat then Ok (n_addr n :: arr) else Fault.

(** NULL if the stack is empty. *)
Definition TOP_NODE tb (arr : list nat) : res (tree node) :=
  match arr with [] => Ok Null | a :: _ => node_deref tb a end.

Definition get_static_stack tb : option DbTreeStack * table :=
  if t_busy tb then (None, tb) else (Some (t_static tb), set_busy tb true).

(** The static stack, or an empty dynamic one. *)
Definition get_any_stack tb : bool * DbTreeStack * table :=
  match get_static_stack tb with
  | (Some s, tb) => (true, s, tb)
  | (None, tb) => (false, mk_stack [] 0, tb)
  end.

(** What was done to the static stack is seen from now on. *)
Definition release_stack tb (static : bool) s : table :=
  if static then set_busy (set_static tb s) false else tb.

Definition reset_static_stack tb : table := set_static tb (mk_stack [] 0).

(** The nodes from [this] to the last one in the direction [d] go on the stack. *)
Fixpoint push_down d this (arr : list nat) : res (tree node * list nat) :=
  match this with
  | Null => Fault
  | Node l _ n r =>
      arr ← PUSH_NODE arr n;
      let c := match d with DIR_LEFT => l | DIR_RIGHT => r end in
      match c with
      | Null => Ok (this, arr)
      | Node _ _ _ _ => push_down d c arr
      end
  end.

(** The same without a stack. *)
Fixpoint walk_down d this : res (tree node) :=
  match this with
  | Null => Fault
  | Node l _ n r =>
      let c := match d with DIR_LEFT => l | DIR_RIGHT => r end in
      match c with
      | Null => Ok this
      | Node _ _ _ _ => walk_down d c
      end
  end.

(** Nodes are popped, until the top of the stack is a node that [stop]s the loop, given the
    address popped before it, or there is none. *)
Fixpoint pop_until (stop : tree node → nat → bool) tb (arr : list nat) : res (tree node * list nat) :=
  match arr with
  | [] => Ok (Null, [])
  | tmp :: arr =>
      this ← TOP_NODE tb arr;
      match this with
      | Null => Ok (Null, arr)
      | Node _ _ _ _ => if stop this tmp then Ok (this, arr) else pop_until stop tb arr
      end
  end.

(** * The next and the previous node *)

(** [c], as the functions compare it: positive if the key is further on in direction [d]. *)
Definition towards d (c : Z) : Z := match d with DIR_RIGHT => c | DIR_LEFT => - c end.

(** The search from the root in [find_next] ([d] is [DIR_RIGHT]) and [find_prev] ([DIR_LEFT]);
    [true]: the node is the result. *)
Fixpoint rebuild d key this (arr : list nat) : res (bool * tree node * list nat) :=
  match this with
  | Null => Fault
  | Node l _ n r =>
      arr ← PUSH_NODE arr n;
      let c := towards d (cmp_key key n) in
      if c >? 0 then
        let t := match d with DIR_LEFT => l | DIR_RIGHT => r end in
        match t with
        | Null => Ok (false, this, arr)
        | Node _ _ _ _ => rebuild d key t arr
        end
      else if c <? 0 then
        let t := match d with DIR_LEFT => r | DIR_RIGHT => l end in
        match t with
        | Null => Ok (true, this, arr)
        | Node _ _ _ _ => rebuild d key t arr
        end
      else Ok (false, this, arr)
  end.

Definition count_slot d (slot : Z) : Z :=
  if slot >? 0 then match d with DIR_RIGHT => slot + 1 | DIR_LEFT => slot - 1 end else slot.

(** The next node from this one. *)
Definition advance d tb this s : res (tree node * DbTreeStack) :=
  match child d this with
  | Null =>
      '(this, arr) ← pop_until (λ t tmp, negb (is_ptr (child d t) tmp)) tb (s_array s);
      match this with
      | Null => Ok (Null, mk_stack arr 0)
      | Node _ _ _ _ => Ok (this, mk_stack arr (count_slot d (s_slot s)))
      end
  | t =>
      '(this, arr) ← push_down (opp d) t (s_array s);
      Ok (this, mk_stack arr (count_slot d (s_slot s)))
  end.

Definition find_dir d tb s key : res (tree node * DbTreeStack) :=
  this ← TOP_NODE tb (s_array s);
  let s := match this with
           | Null => s
           | Node _ _ n _ => if cmp_key_eq key n then s else mk_stack [] 0
           end in
  match s_array s with
  | [] =>
      match t_root tb with
      | Null => Ok (Null, s)
      | root =>
          '(found, this, arr) ← rebuild d key root [];
          if (found : bool) then Ok (this, mk_stack arr (s_slot s)) else advance d tb this (mk_stack arr (s_slot s))
      end
  | _ => advance d tb this s
  end.

Definition find_next tb s key : res (tree node * DbTreeStack) := find_dir DIR_RIGHT tb s key.
Definition find_prev tb s key : res (tree node * DbTreeStack) := find_dir DIR_LEFT tb s key.

Definition key_of this : res term := match this with Null => Fault | Node _ _ n _ => Ok (node_key n) end.
Definition obj_of this : res obj := match this with Null => Fault | Node _ _ n _ => Ok (n_obj n) end.

Definition db_create_tree tb : table := mk_tree Null (t_nitems tb) false (mk_stack [] 0) (t_next tb).

Definition db_first_tree tb : res (term * table) :=
  match t_root tb with
  | Null => Ok (am_EOT, tb)
  | root =>
      match get_static_stack tb with
      | (Some _, tb) =>
          '(this, arr) ← push_down DIR_LEFT root [];
          key ← key_of this;
          Ok (key, release_stack tb true (mk_stack arr 1))
      | (None, tb) => this ← walk_down DIR_LEFT root; key ← key_of this; Ok (key, tb)
      end
  end.

Definition db_last_tree tb : res (term * table) :=
  match t_root tb with
  | Null => Ok (am_EOT, tb)
  | root =>
      match get_static_stack tb with
      | (Some _, tb) =>
          '(this, arr) ← push_down DIR_RIGHT root [];
          key ← key_of this;
          Ok (key, release_stack tb true (mk_stack arr (NITEMS tb)))
      | (None, tb) => this ← walk_down DIR_RIGHT root; key ← key_of this; Ok (key, tb)
      end
  end.

Definition db_next_tree tb key : res (db_error * term * table) :=
  if bool_decide (key = am_EOT) then Ok (DB_ERROR_BADKEY, am_EOT, tb)
  else
    let '(static, s, tb) := get_any_stack tb in
    '(this, s) ← find_next tb s key;
    let tb := release_stack tb static s in
    match this with
    | Null => Ok (DB_ERROR_NONE, am_EOT, tb)
    | Node _ _ n _ => Ok (DB_ERROR_NONE, node_key n, tb)
    end.

Definition db_prev_tree tb key : res (db_error * term * table) :=
  if bool_decide (key = am_EOT) then Ok (DB_ERROR_BADKEY, am_EOT, tb)
  else
    let '(static, s, tb) := get_any_stack tb in
    '(this, s) ← find_prev tb s key;
    let tb := release_stack tb static s in
    match this with
    | Null => Ok (DB_ERROR_NONE, am_EOT, tb)
    | Node _ _ n _ => Ok (DB_ERROR_NONE, node_key n, tb)
    end.

(** * The node at a position *)

(** The loop of [slot_search]; [this] is the top of the stack. *)
Fixpoint slot_loop (fuel : nat) tb (slot : Z) this s : res (tree node * DbTreeStack) :=
  match this with
  | Null => Ok (Null, s)
  | Node _ _ _ _ =>
      if s_slot s =? slot then Ok (this, s)
      else match fuel with
      | O => NoFuel
      | S fuel =>
          let d := if slot >? s_slot s then DIR_RIGHT else DIR_LEFT in
          '(this, arr) ← (match child d this with
                          | Null => pop_until (λ t tmp, is_ptr (child (opp d) t) tmp) tb (s_array s)
                          | t => push_down (opp d) t (s_array s)
                          end);
          slot_loop fuel tb slot this (mk_stack arr (match d with DIR_RIGHT => s_slot s + 1 | DIR_LEFT => s_slot s - 1 end))
      end
  end.

Definition slot_search tb (slot : Z) : res (tree node * table) :=
  let '(static, s, tb) := get_any_stack tb in
  let s := if slot =? 1 then mk_stack (s_array s) 0 else s in
  let s := if s_slot s =? 0 then mk_stack [] (s_slot s) else s in
  top ← TOP_NODE tb (s_array s);
  match top, t_root tb with
  | Null, Null => Ok (Null, release_stack tb static s)
  | Null, root =>
      '(this, arr) ← push_down DIR_LEFT root (s_array s);
      '(this, s) ← slot_loop (Z.to_nat (Z.abs (slot - 1))) tb slot this (mk_stack arr 1);
      Ok (this, release_stack tb static s)
  | this, _ =>
      '(this, s) ← slot_loop (Z.to_nat (Z.abs (slot - s_slot s))) tb slot this s;
      Ok (this, release_stack tb static s)
  end.

(** The result is a list with the object, or [am_EOT] ([None]). *)
Definition db_slot_tree tb (slot : Z) : res (db_error * option (list obj) * table) :=
  if (slot <? 0) || (slot >? NITEMS tb) then Ok (DB_ERROR_BADPARAM, None, tb)
  else if slot =? NITEMS tb then Ok (DB_ERROR_NONE, None, tb)
  else
    '(st, tb) ← slot_search tb (slot + 1);
    match st with
    | Null => Ok (DB_ERROR_UNSPEC, None, tb)
    | Node _ _ n _ => Ok (DB_ERROR_NONE, Some [n_obj n], tb)
    end.

(** * Insertion and lookup *)

Definition db_put_tree tb (o : obj) (key_clash_fail : bool) : res (db_error * table) :=
  let key := GETKEY o in
  let tb := reset_static_stack tb in
  '(this, stk) ← descend (cmp_key key) (t_root tb) [];
  match this with
  | Null =>
      if t_nitems tb + 1 >=? TREE_MAX_ELEMENTS then Ok (DB_ERROR_SYSRES, tb)
      else
        let '(n, tb) := new_dbterm tb o in
        root ← insertion_rotation stk (Node Null 0 n Null) true;
        Ok (DB_ERROR_NONE, set_root (set_nitems tb (t_nitems tb + 1)) root)
  | Node l b old r =>
      if negb key_clash_fail then
        let '(n, tb) := replace_dbterm tb old o in
        root ← insertion_rotation stk (Node l b n r) false;
        Ok (DB_ERROR_NONE, set_root tb root)
      else Ok (DB_ERROR_BADKEY, tb)
  end.

(** The search loop of [find_node]. *)
Fixpoint find_from key this : tree node :=
  match this with
  | Null => Null
  | Node l _ n r =>
      let res := cmp_key key n in
      if negb (res =? 0) then if res <? 0 then find_from key l else find_from key r else this
  end.

Definition find_node tb key : res (tree node * table) :=
  match get_static_stack tb with
  | (None, tb) => Ok (find_from key (t_root tb), tb)
  | (Some s, tb) =>
      top ← TOP_NODE tb (s_array s);
      let this := match top with
                  | Null => find_from key (t_root tb)
                  | Node _ _ n _ => if negb (cmp_key_eq key n) then find_from key (t_root tb) else top
                  end in
      Ok (this, release_stack tb true s)
  end.

Definition db_get_tree tb key : res (list obj * table) :=
  '(this, tb) ← find_node tb key;
  match this with
  | Null => Ok ([], tb)
  | Node _ _ n _ => Ok ([n_obj n], tb)
  end.

Definition db_member_tree tb key : res (bool * table) :=
  '(this, tb) ← find_node tb key;
  Ok (match this with Null => false | Node _ _ _ _ => true end, tb).

Definition db_get_element_tree tb key (ndex : Z) : res (db_error * option term * table) :=
  '(this, tb) ← find_node tb key;
  match this with
  | Null => Ok (DB_ERROR_BADKEY, None, tb)
  | Node _ _ n _ =>
      if ndex >? arityval (n_obj n) then Ok (DB_ERROR_BADPARAM, None, tb)
      else Ok (DB_ERROR_NONE, Some (tpl (n_obj n) ndex), tb)
  end.

(** * Deletion *)

Definition linkout_tree tb key : res (option node * table) :=
  let tb := reset_static_stack tb in
  r ← tree_remove (cmp_key key) (t_root tb);
  match r with
  | None => Ok (None, tb)
  | Some (q, root) => Ok (Some q, set_root (set_nitems tb (t_nitems tb - 1)) root)
  end.

(** The same search, with a comparison of the objects where the key is found. *)
Definition linkout_object_tree tb (o : obj) : res (option node * table) :=
  let key := GETKEY o in
  let tb := reset_static_stack tb in
  '(this, _) ← descend (cmp_key key) (t_root tb) [];
  match this with
  | Null => Ok (None, tb)
  | Node _ _ q _ => if negb (bool_decide (o = n_obj q)) then Ok (None, tb) else linkout_tree tb key
  end.

Definition db_erase_tree tb key : res table := '(_, tb) ← linkout_tree tb key; Ok tb.
Definition db_erase_object_tree tb (o : obj) : res table := '(_, tb) ← linkout_object_tree tb o; Ok tb.

Definition db_take_tree tb key : res (list obj * table) :=
  '(this, tb) ← linkout_tree tb key;
  Ok (match this with Some n => [n_obj n] | None => [] end, tb).

(** [do_free_tree_cont]: the nodes on the stack with what is left of their children, and the
    nodes that have been freed.  [root] is the node the inner loop is at, [Null] when the next
    one is to be popped. *)
Fixpoint do_free_tree_cont (fuel : nat) (root : tree node) (stk : list (tree node)) (num_left : Z) :
    res (bool * list (tree node) * list node) :=
  match fuel with
  | O => NoFuel
  | S fuel =>
      let push t := if (length stk <? STACK_NEED)%nat then Ok (t :: stk) else Fault in
      match root with
      | Null =>
          match stk with
          | [] => Ok (true, [], [])
          | Null :: stk => Ok (true, stk, [])
          | root :: stk => do_free_tree_cont fuel root stk num_left
          end
      | Node l b n r =>
          match l with
          | Node _ _ _ _ => stk ← push (Node Null b n r); do_free_tree_cont fuel l stk num_left
          | Null =>
              match r with
              | Node _ _ _ _ => stk ← push (Node Null b n Null); do_free_tree_cont fuel r stk num_left
              | Null =>
                  if num_left - 1 >? 0 then
                    '(done, stk, l) ← do_free_tree_cont fuel Null stk (num_left - 1); Ok (done, stk, n :: l)
                  else Ok (false, stk, [n])
              end
          end
      end
  end.

(** The calls of [db_free_table_continue_tree] until the table is free; the first one puts the
    root on the stack.  Result: the nodes freed. *)
Fixpoint free_table_loop (calls fuel : nat) (stk : list (tree node)) : res (list node) :=
  match calls with
  | O => NoFuel
  | S calls =>
      '(done, stk, l) ← do_free_tree_cont fuel Null stk DELETE_RECORD_LIMIT;
      if (done : bool) then Ok l else l' ← free_table_loop calls fuel stk; Ok (l ++ l')
  end.

Definition free_fuel tb : nat := (4 * length (elements (t_root tb)) + 2)%nat.

Definition db_free_table_tree tb : res (list node) := free_table_loop (free_fuel tb) (free_fuel tb) [t_root tb].

Definition db_delete_all_objects_tree tb : res table :=
  _ ← db_free_table_tree tb; Ok (set_nitems (db_create_tree tb) 0).

(** * Updates in place *)

(** The address of the pointer to the node with the key, as the way to it from the root. *)
Fixpoint find_node2 key t : option (list dir) :=
  match t with
  | Null => None
  | Node l _ n r =>
      let res := cmp_key key n in
      if negb (res =? 0) then
        if res <? 0 then cons DIR_LEFT <$> find_node2 key l else cons DIR_RIGHT <$> find_node2 key r
      else Some []
  end.

Fixpoint get_at (p : list dir) t : tree node :=
  match p with [] => t | d :: p => get_at p (child d t) end.

(** [*pp]'s node has new contents. *)
Fixpoint set_at (p : list dir) (n : node) t : tree node :=
  match t with
  | Null => Null
  | Node l b m r =>
      match p with
      | [] => Node l b n r
      | DIR_LEFT :: p => Node (set_at p n l) b m r
      | DIR_RIGHT :: p => Node l b m (set_at p n r)
      end
  end.

(** [DbUpdateHandle]: the pointer and whether the object has been inserted for it. *)
Record tree_handle := mk_handle { h_bp : list dir; h_new_object : bool }.

Definition db_lookup_dbterm_tree tb key (default : option obj) : res (option tree_handle * table) :=
  match find_node2 key (t_root tb) with
  | Some pp => Ok (Some (mk_handle pp false), tb)
  | None =>
      match default with
      | None => Ok (None, tb)
      | Some o =>
          '(e, tb) ← db_put_tree tb (set_key o key) true;
          match e with
          | DB_ERROR_NONE =>
              match find_node2 key (t_root tb) with
              | Some pp => Ok (Some (mk_handle pp true), tb)
              | None => Fault
              end
          | _ => Ok (None, tb)
          end
      end
  end.

Definition handle_node tb (h : tree_handle) : res node :=
  match get_at (h_bp h) (t_root tb) with Null => Fault | Node _ _ n _ => Ok n end.

(** The object of the handle is changed where it is. *)
Definition handle_store tb (h : tree_handle) (o : obj) : res table :=
  n ← handle_node tb h; Ok (set_root tb (set_at (h_bp h) (mk_node (n_addr n) o) (t_root tb))).

(** [resize]: [DB_MUST_RESIZE], the object needs a node of another size. *)
Definition db_finalize_dbterm_tree (cret : db_error) (resize : bool) (h : tree_handle) tb : res table :=
  bp ← handle_node tb h;
  if h_new_object h && negb (match cret with DB_ERROR_NONE => true | _ => false end) then db_erase_tree tb (node_key bp)
  else if resize then
    let '(n, tb) := new_dbterm tb (n_obj bp) in
    Ok (reset_static_stack (set_root tb (set_at (h_bp h) n (t_root tb))))
  else Ok tb.

End Model.
