(* ===== verification/DbTreePath.v ===== *)
(** ETS ordered sets (DbTree.v): positions in the tree.

    A node is at a position when the stack holds the addresses of the nodes from the root to
    it; the position splits the contents of the tree into what is before and after the node.
    The moves of the code are the same to the left and to the right, so that the lemmas are
    stated for a direction. *)
From S2P Require Import Prelude Avl DbHash DbTree.

Lemma list_filter_False {A} (P : A → Prop) `{∀ x, Decision (P x)} l : Forall (λ x, ¬ P x) l → filter P l = [].
Proof. induction 1 as [|x l Hx Hl IH]; [done|]. by rewrite filter_cons_False. Qed.

Lemma list_filter_True {A} (P : A → Prop) `{∀ x, Decision (P x)} l : Forall P l → filter P l = l.
Proof. induction 1 as [|x l Hx Hl IH]; [done|]. by rewrite filter_cons_True, IH. Qed.

Lemma head_rev {A} (l : list A) : head (rev l) = last l.
Proof.
  induction l as [|x l IH] using rev_ind; [done|]. rewrite rev_app_distr, last_snoc. done.
Qed.

Lemma filter_rev {A} (P : A → Prop) `{∀ x, Decision (P x)} (l : list A) : filter P (rev l) = rev (filter P l).
Proof.
  induction l as [|x l IH]; [done|]. cbn [rev]. rewrite filter_app, IH, !filter_cons.
  destruct (decide (P x)); [done|]. by rewrite app_nil_r.
Qed.

Lemma list_filter_fmap {A B} (f : A → B) (P : B → Prop) `{∀ x, Decision (P x)} (l : list A) : filter P (f <$> l) = f <$> filter (λ x, P (f x)) l.
Proof. induction l as [|x l IH]; [done|]. rewrite fmap_cons, !filter_cons, IH. by destruct (decide (P (f x))). Qed.

Lemma head_fmap {A B} (f : A → B) (l : list A) : head (f <$> l) = f <$> head l.
Proof. by destruct l. Qed.

(** * Zippers *)

Section Zipper.
Context {A : Type}.
Implicit Types (t this : tree A) (f : frame A) (stk : list (frame A)) (d : dir).

#[export] Instance dir_eq_dec : EqDecision dir.
Proof. solve_decision. Defined.

Definition f_dir f : dir := match f with InLeft _ _ _ => DIR_LEFT | InRight _ _ _ => DIR_RIGHT end.
Definition f_node f : A := match f with InLeft _ n _ => n | InRight _ _ n => n end.
Definition f_other f : tree A := match f with InLeft _ _ r => r | InRight l _ _ => l end.

Fixpoint plug_all stk t : tree A := match stk with [] => t | f :: stk => plug_all stk (plug f t) end.

(** The frame of a node, when its child in a direction is entered. *)
Definition enter d (l : tree A) b n r : frame A := match d with DIR_LEFT => InLeft b n r | DIR_RIGHT => InRight l b n end.

(** What is in a tree, ahead of a hole and behind it, in the order of a direction. *)
Definition els d t : list A := match d with DIR_RIGHT => elements t | DIR_LEFT => rev (elements t) end.
Definition aft d stk : list A := match d with DIR_RIGHT => after stk | DIR_LEFT => rev (before stk) end.
Definition bef d stk : list A := match d with DIR_RIGHT => before stk | DIR_LEFT => rev (after stk) end.

Definition kid d (l r : tree A) : tree A := match d with DIR_LEFT => l | DIR_RIGHT => r end.

Lemma tree_case t : t = Null ∨ ∃ l b n r, t = Node l b n r.
Proof. destruct t; eauto 10. Qed.

Lemma opp_opp d : opp (opp d) = d.
Proof. by destruct d. Qed.

Lemma els_opp d t : els (opp d) t = rev (els d t).
Proof. destruct d; cbn; [by rewrite rev_involutive|done]. Qed.
Lemma aft_opp d stk : aft (opp d) stk = rev (bef d stk).
Proof. destruct d; cbn; [by rewrite rev_involutive|done]. Qed.
Lemma bef_opp d stk : bef (opp d) stk = rev (aft d stk).
Proof. destruct d; cbn; [by rewrite rev_involutive|done]. Qed.

Lemma els_node d l b n r : els d (Node l b n r) = els d (kid (opp d) l r) ++ n :: els d (kid d l r).
Proof. destruct d; cbn; [|done]. rewrite rev_app_distr. cbn. by rewrite <- app_assoc. Qed.

Lemma els_null d : els d Null = [].
Proof. by destruct d. Qed.

Lemma aft_same d f stk : f_dir f = d → aft d (f :: stk) = aft d stk.
Proof. intros <-. by destruct f. Qed.

Lemma aft_other d f stk : f_dir f = opp d → aft d (f :: stk) = f_node f :: els d (f_other f) ++ aft d stk.
Proof. destruct f, d; try done. intros _. cbn. rewrite !rev_app_distr. cbn. done. Qed.

Lemma bef_same d f stk : f_dir f = d → bef d (f :: stk) = bef d stk ++ els d (f_other f) ++ [f_node f].
Proof.
  intros <-. destruct f; cbn; [|done]. rewrite rev_app_distr, <- app_assoc. done.
Qed.

Lemma bef_other d f stk : f_dir f = opp d → bef d (f :: stk) = bef d stk.
Proof. by destruct f, d. Qed.

Lemma f_dir_enter d l b n r : f_dir (enter d l b n r) = d.
Proof. by destruct d. Qed.
Lemma f_node_enter d l b n r : f_node (enter d l b n r) = n.
Proof. by destruct d. Qed.
Lemma f_other_enter d l b n r : f_other (enter d l b n r) = kid (opp d) l r.
Proof. by destruct d. Qed.
Lemma plug_enter d l b n r : plug (enter d l b n r) (kid d l r) = Node l b n r.
Proof. by destruct d. Qed.

Lemma plug_node f t : ∃ b, plug f t = Node (kid DIR_LEFT (if decide (f_dir f = DIR_LEFT) then t else f_other f) Null) b (f_node f)
                                          (kid DIR_RIGHT Null (if decide (f_dir f = DIR_RIGHT) then t else f_other f)).
Proof. destruct f; cbn; eauto. Qed.

Lemma elements_plug_all stk t : elements (plug_all stk t) = before stk ++ elements t ++ after stk.
Proof.
  revert t. induction stk as [|[b n r|l b n] stk IH]; intros t; cbn [plug_all before after].
  - by rewrite app_nil_r.
  - rewrite IH. cbn [plug elements]. by rewrite <- !app_assoc.
  - rewrite IH. cbn [plug elements]. rewrite <- !app_assoc. done.
Qed.

Lemma els_plug_all d stk t : els d (plug_all stk t) = bef d stk ++ els d t ++ aft d stk.
Proof.
  destruct d; cbn [els bef aft]; rewrite elements_plug_all; [|done].
  by rewrite !rev_app_distr, <- app_assoc.
Qed.

Lemma height_plug_all stk t : Z.of_nat (length stk) + height t <= height (plug_all stk t).
Proof.
  revert t. induction stk as [|f stk IH]; intros t; cbn [plug_all length]; [lia|].
  specialize (IH (plug f t)). enough (height t + 1 <= height (plug f t)) by lia. destruct f; cbn [plug height]; lia.
Qed.

(** Replacing the node at the end of the way. *)
Lemma insertion_rotation_false stk t : insertion_rotation stk t false = Ok (plug_all stk t).
Proof. revert t. induction stk as [|f stk IH]; intros t; cbn [insertion_rotation plug_all]; [done|apply IH]. Qed.

End Zipper.

(** * Addresses *)

Section Paths.
Context {term obj V : Type} `{DbTerms term obj} `{TermOrder term V}.
Abbreviation node := (TreeDbTerm obj).
Abbreviation table := (DbTableTree obj).
Implicit Types (tb : table) (n x y : node) (t this root : tree node) (s : DbTreeStack) (key : term) (d : dir) (arr : list nat)
  (pre post : list node) (stk : list (frame node)).

Definition addrs t : list nat := n_addr <$> elements t.
Definition frame_addrs stk : list nat := (λ f, n_addr (f_node f)) <$> stk.

Lemma node_at_null a t : a ∉ addrs t → node_at a t = Null.
Proof.
  unfold addrs. induction t as [|l IHl b n r IHr]; intros Ha; [done|]. cbn [elements node_at] in *.
  rewrite fmap_app, fmap_cons, elem_of_app, elem_of_cons in Ha.
  destruct (Nat.eqb_spec (n_addr n) a); [naive_solver|]. rewrite IHl, IHr by naive_solver. done.
Qed.

Lemma node_at_self l b n r : node_at (n_addr n) (Node l b n r) = Node l b n r.
Proof. cbn [node_at]. by rewrite Nat.eqb_refl. Qed.

Lemma addrs_sublist stk t : addrs t `sublist_of` addrs (plug_all stk t).
Proof.
  unfold addrs. rewrite elements_plug_all, !fmap_app. by apply sublist_inserts_l, sublist_inserts_r.
Qed.

Lemma node_at_plug a f t :
  NoDup (addrs (plug f t)) → a ∈ addrs t → node_at a (plug f t) = node_at a t.
Proof.
  unfold addrs. intros Hnd Ha. destruct f as [b n r|l b n]; cbn [plug node_at elements] in *;
    rewrite fmap_app, fmap_cons in Hnd; apply NoDup_app in Hnd as (Hl & Hd & Hr).
  - destruct (Nat.eqb_spec (n_addr n) a) as [<-|]; [destruct (Hd _ Ha); left|].
    destruct (node_at a t) eqn:E; [|done]. apply node_at_null. unfold addrs. intros Hr'. destruct (Hd a Ha). by right.
  - apply NoDup_cons in Hr as [Hn Hr]. destruct (Nat.eqb_spec (n_addr n) a) as [<-|]; [done|].
    rewrite node_at_null; [done|]. intros Hl'. destruct (Hd a Hl'). by right.
Qed.

Lemma node_at_plug_all a stk t :
  NoDup (addrs (plug_all stk t)) → a ∈ addrs t → node_at a (plug_all stk t) = node_at a t.
Proof.
  revert t. induction stk as [|f stk IH]; intros t Hnd Ha; cbn [plug_all] in *; [done|].
  rewrite IH; [|done|].
  - apply node_at_plug; [|done]. eapply sublist_NoDup; [exact Hnd|apply addrs_sublist].
  - destruct f; unfold addrs; cbn [plug elements]; rewrite fmap_app, fmap_cons, elem_of_app, elem_of_cons; auto.
Qed.

Lemma node_at_position stk l b x r :
  NoDup (addrs (plug_all stk (Node l b x r))) → node_at (n_addr x) (plug_all stk (Node l b x r)) = Node l b x r.
Proof.
  intros Hnd. rewrite node_at_plug_all; [apply node_at_self|done|].
  unfold addrs. cbn [elements]. rewrite fmap_app, fmap_cons, elem_of_app, elem_of_cons. auto.
Qed.

(** [this] is in the tree, the stack leads to it, and [pre] and [post] are around it. *)
Definition at_node root arr this pre x post : Prop :=
  ∃ stk l b r, this = Node l b x r ∧ plug_all stk this = root ∧ arr = n_addr x :: frame_addrs stk ∧
    pre = before stk ++ elements l ∧ post = elements r ++ after stk.

Lemma at_node_elements root arr this pre x post : at_node root arr this pre x post → elements root = pre ++ x :: post.
Proof.
  intros (stk & l & b & r & -> & <- & _ & -> & ->). rewrite elements_plug_all. cbn [elements]. by rewrite <- !app_assoc.
Qed.

(** The position after this one in a direction. *)
Definition next_pos d pre x post : option (list node * node * list node) :=
  match d with
  | DIR_RIGHT => match post with [] => None | y :: post => Some (pre ++ [x], y, post) end
  | DIR_LEFT => match rev pre with [] => None | y :: pre => Some (rev pre, y, x :: post) end
  end.

Definition ahead d pre post : list node := match d with DIR_RIGHT => post | DIR_LEFT => rev pre end.

Lemma at_node_ahead d stk root l b x r pre post :
  plug_all stk (Node l b x r) = root → pre = before stk ++ elements l → post = elements r ++ after stk →
  ahead d pre post = els d (kid d l r) ++ aft d stk.
Proof. intros _ -> ->. destruct d; cbn; [by rewrite rev_app_distr|done]. Qed.

(** A node with the right nodes ahead of it is the next one. *)
Lemma at_next d root arr this pre x post arr' this' pre' y post' ys :
  at_node root arr this pre x post → at_node root arr' this' pre' y post' →
  ahead d pre post = y :: ys → ahead d pre' post' = ys → next_pos d pre x post = Some (pre', y, post').
Proof.
  intros H1%at_node_elements H2%at_node_elements Ha Ha'. rewrite H1 in H2. destruct d; cbn in *.
  - rewrite Ha. apply (f_equal (rev (A:=_))) in Ha. rewrite rev_involutive in Ha. cbn in Ha. subst pre. subst ys.
    rewrite rev_involutive in H2 |- *. rewrite <- app_assoc in H2. cbn in H2. by apply app_inv_head in H2 as [= ->].
  - subst. assert ((pre ++ [x]) ++ y :: ys = pre' ++ y :: ys) as ->%app_inv_tail by (by rewrite <- app_assoc). done.
Qed.

Lemma next_pos_ahead d pre x post :
  match next_pos d pre x post with
  | None => ahead d pre post = []
  | Some (pre', y, post') => ahead d pre post = y :: ahead d pre' post'
  end.
Proof. destruct d; cbn; [destruct (rev pre); [done|by rewrite rev_involutive]|by destruct post]. Qed.

Lemma next_pos_back d pre x post pre' y post' :
  next_pos (opp d) pre' y post' = Some (pre, x, post) → next_pos d pre x post = Some (pre', y, post').
Proof.
  destruct d; cbn; intros E.
  - destruct post' as [|z post']; [done|]. injection E as <- <- <-. rewrite rev_app_distr. cbn. by rewrite rev_involutive.
  - destruct (rev pre') as [|z q] eqn:Er; [done|]. injection E as <- <- <-.
    apply (f_equal (rev (A:=_))) in Er. rewrite rev_involutive in Er. by rewrite Er.
Qed.

(** A stack that leads to a node; the position of the node is noted, or it is not. *)
Record located root s this pre x post : Prop := {
  lo_at : at_node root (s_array s) this pre x post;
  lo_slot : s_slot s = 0 ∨ s_slot s = 1 + zlen pre }.

(** What holds of a stack between two operations. *)
Definition stack_ok root s : Prop := s = mk_stack [] 0 ∨ ∃ this pre x post, located root s this pre x post.

(** A search has ended at a node, or there is none. *)
Definition found_at root s this (r : option node) : Prop :=
  match r with None => this = Null ∧ s = mk_stack [] 0 | Some y => ∃ pre post, located root s this pre y post end.

Lemma found_stack_ok root s this r : found_at root s this r → stack_ok root s.
Proof. destruct r as [y|]; [intros (pre & post & Hl); right; eauto|intros [_ ->]; by left]. Qed.

Lemma located_node root s this pre x post : located root s this pre x post → ∃ l b r, this = Node l b x r.
Proof. intros [(? & l & b & r & -> & _) _]. eauto. Qed.

(** ** Moves *)

Section Moves.
Context tb (Hnd : NoDup (addrs (t_root tb))) (Hh : height (t_root tb) <= 45).

Lemma PUSH_NODE_ok arr n : (length arr < 50)%nat → PUSH_NODE arr n = Ok (n_addr n :: arr).
Proof. intros Hl. unfold PUSH_NODE, STACK_NEED. by rewrite (proj2 (Nat.ltb_lt _ _) Hl). Qed.

Lemma path_room stk l b n r :
  plug_all stk (Node l b n r) = t_root tb → (length (frame_addrs stk) < 50)%nat.
Proof.
  intros E. pose proof (height_plug_all stk (Node l b n r)) as Hp. rewrite E in Hp.
  pose proof (height_nonneg l). pose proof (height_nonneg r). cbn [height] in Hp.
  unfold frame_addrs. rewrite length_fmap. lia.
Qed.

Lemma node_deref_ok stk l b n r :
  plug_all stk (Node l b n r) = t_root tb → node_deref tb (n_addr n) = Ok (Node l b n r).
Proof. intros E. unfold node_deref. rewrite <- E, node_at_position; [done|]. by rewrite E. Qed.

Lemma TOP_NODE_ok arr this pre x post : at_node (t_root tb) arr this pre x post → TOP_NODE tb arr = Ok this.
Proof. intros (stk & l & b & r & -> & E & -> & _). cbn [TOP_NODE]. by apply node_deref_ok in E. Qed.

(** Down to the end: nothing more of the subtree is ahead. *)
Lemma push_down_ok e t stk :
  t ≠ Null → plug_all stk t = t_root tb →
  ∃ this arr pre x post, push_down e t (frame_addrs stk) = Ok (this, arr) ∧ at_node (t_root tb) arr this pre x post ∧
    ahead e pre post = aft e stk.
Proof.
  revert stk. induction t as [|l IHl b n r IHr]; intros stk Hne E; [done|]. cbn [push_down].
  rewrite PUSH_NODE_ok by (by eapply path_room). rewrite bind_Ok.
  change (match e with DIR_LEFT => l | DIR_RIGHT => r end) with (kid e l r).
  assert (∀ stk, kid e l r ≠ Null → plug_all stk (kid e l r) = t_root tb →
    ∃ this arr pre x post, push_down e (kid e l r) (frame_addrs stk) = Ok (this, arr) ∧ at_node (t_root tb) arr this pre x post ∧
      ahead e pre post = aft e stk) as IH by (destruct e; [exact IHl|exact IHr]).
  destruct (kid e l r) as [|cl cb cn cr] eqn:Ek.
  - eexists _, _, _, n, _. split; [done|]. split; [by exists stk, l, b, r|].
    rewrite (at_node_ahead e stk _ l b n r _ _ E eq_refl eq_refl), Ek, els_null. done.
  - destruct (IH (enter e l b n r :: stk)) as (this & arr & pre & x & post & Ep & Hat & Ha); [done| |].
    + cbn [plug_all]. rewrite <- Ek, plug_enter. done.
    + exists this, arr, pre, x, post. unfold frame_addrs in *. rewrite fmap_cons, f_node_enter in Ep. split_and!; [done..|].
      rewrite Ha. apply aft_same, f_dir_enter.
Qed.

Definition stops d (stop : tree node → nat → bool) : Prop :=
  ∀ f l b n r, NoDup (addrs (plug f (Node l b n r))) → stop (plug f (Node l b n r)) (n_addr n) = bool_decide (f_dir f = opp d).

(** Up to the first node that has been entered from behind. *)
Lemma pop_until_ok d stop stk l b x r :
  stops d stop → plug_all stk (Node l b x r) = t_root tb →
  ∃ this arr, pop_until stop tb (n_addr x :: frame_addrs stk) = Ok (this, arr) ∧
    match aft d stk with
    | [] => this = Null ∧ arr = []
    | y :: ys => ∃ pre post, at_node (t_root tb) arr this pre y post ∧ ahead d pre post = ys
    end.
Proof.
  intros Hs. revert l b x r. induction stk as [|f stk IH]; intros l b x r E.
  { cbn. eexists _, _. split; [done|]. by destruct d. }
  cbn [plug_all] in E. cbn [frame_addrs pop_until TOP_NODE fmap list_fmap].
  assert (∃ l' b' r', plug f (Node l b x r) = Node l' b' (f_node f) r') as (l' & b' & r' & Ef) by (destruct f; cbn; eauto).
  rewrite Ef in E. rewrite (node_deref_ok _ _ _ _ _ E), bind_Ok, <- Ef.
  rewrite Hs by (eapply sublist_NoDup; [exact Hnd|]; rewrite <- E, <- Ef; apply addrs_sublist). rewrite Ef.
  destruct (decide (f_dir f = opp d)) as [Hd|Hd].
  - rewrite bool_decide_true by done. eexists _, _. split; [done|]. rewrite aft_other by done.
    eexists _, _. split; [by exists stk, l', b', r'|].
    rewrite (at_node_ahead d _ _ _ _ _ _ _ _ E eq_refl eq_refl). f_equal.
    destruct f, d; try done; cbn in Ef |- *; by injection Ef as <- <- <-.
  - rewrite bool_decide_false by done. rewrite aft_same by (by destruct f, d). by apply (IH l' b' (f_node f) r').
Qed.

(** One step in a direction, whichever way the loop that pops is written. *)
Lemma move_ok d stop arr this pre x post :
  stops d stop → at_node (t_root tb) arr this pre x post →
  ∃ this' arr',
    (match child d this with Null => pop_until stop tb arr | t => push_down (opp d) t arr end) = Ok (this', arr') ∧
    match next_pos d pre x post with
    | None => this' = Null ∧ arr' = []
    | Some (pre', y, post') => at_node (t_root tb) arr' this' pre' y post'
    end.
Proof.
  intros Hs Hat. pose proof Hat as (stk & l & b & r & -> & E & -> & Epre & Epost).
  pose proof (at_node_ahead d stk _ l b x r _ _ E Epre Epost) as Ha.
  pose proof (at_node_ahead (opp d) stk _ l b x r _ _ E Epre Epost) as Hb.
  change (child d (Node l b x r)) with (kid d l r). destruct (kid d l r) as [|cl cb cn cr] eqn:Ek.
  - destruct (pop_until_ok d stop stk l b x r Hs E) as (this' & arr' & Ep & Hr). exists this', arr'. split; [done|].
    rewrite els_null in Ha. cbn [app] in Ha. destruct (aft d stk) as [|y ys].
    + pose proof (next_pos_ahead d pre x post) as Hn. rewrite Ha in Hn. by destruct (next_pos d pre x post) as [[[??]?]|].
    + destruct Hr as (pre1 & post1 & Hat' & Ha1). by rewrite (at_next d _ _ _ _ _ _ _ _ _ _ _ _ Hat Hat' Ha Ha1).
  - destruct (push_down_ok (opp d) (Node cl cb cn cr) (enter d l b x r :: stk)) as (this' & arr' & pre1 & y1 & post1 & Ep & Hat' & Ha'); [done| |].
    { cbn [plug_all]. rewrite <- Ek, plug_enter. done. }
    exists this', arr'. unfold frame_addrs in *. rewrite fmap_cons, f_node_enter in Ep. split; [done|].
    rewrite aft_other, f_node_enter, f_other_enter in Ha' by (rewrite f_dir_enter; by destruct d).
    rewrite <- Hb in Ha'. pose proof (at_next (opp d) _ _ _ _ _ _ _ _ _ _ _ _ Hat' Hat Ha' eq_refl) as En.
    by rewrite (next_pos_back d _ _ _ _ _ _ En).
Qed.

Lemma elem_addrs l b n r : n_addr n ∈ addrs (Node l b n r).
Proof. unfold addrs. cbn [elements]. rewrite fmap_app, fmap_cons, elem_of_app, elem_of_cons. auto. Qed.

Lemma other_ptr f l b n r :
  NoDup (addrs (plug f (Node l b n r))) → is_ptr (f_other f) (n_addr n) = false.
Proof.
  pose proof (elem_addrs l b n r) as Hin. generalize dependent (Node l b n r). intros t Hin Hn.
  destruct (f_other f) as [|ol ob on orr] eqn:Eo; [done|]. pose proof (elem_addrs ol ob on orr) as Hin'. rewrite <- Eo in Hin'.
  cbn. apply Nat.eqb_neq. intros E. rewrite E in Hin'. unfold addrs in *.
  destruct f as [fb fn fr|fl fb fn]; cbn [plug elements f_other] in *;
    rewrite !fmap_app, !fmap_cons in Hn; apply NoDup_app in Hn as (_ & Hd & _); apply (Hd (n_addr n)); (done || by right).
Qed.

Lemma stops_not_from d : stops d (λ t tmp, negb (is_ptr (child d t) tmp)).
Proof.
  intros f l b n r Hn. pose proof (other_ptr f l b n r Hn) as Ho.
  destruct d, f; cbn in *; rewrite ?Ho, ?Nat.eqb_refl; done.
Qed.

Lemma stops_from d : stops d (λ t tmp, is_ptr (child (opp d) t) tmp).
Proof.
  intros f l b n r Hn. pose proof (other_ptr f l b n r Hn) as Ho.
  destruct d, f; cbn in *; rewrite ?Ho, ?Nat.eqb_refl; done.
Qed.

Lemma next_pos_zlen d pre x post pre' y post' :
  next_pos d pre x post = Some (pre', y, post') →
  zlen pre' = match d with DIR_RIGHT => zlen pre + 1 | DIR_LEFT => zlen pre - 1 end.
Proof.
  destruct d; cbn; intros E.
  - destruct (rev pre) as [|z q] eqn:Er; [done|]. injection E as <- <- <-.
    apply (f_equal (rev (A:=_))) in Er. rewrite rev_involutive in Er. subst pre. cbn. rewrite zlen_app. zl.
  - destruct post; [done|]. injection E as <- <- <-. zl.
Qed.

Lemma push_down_node e t arr arr' : push_down e t arr ≠ Ok (Null, arr').
Proof.
  revert arr. induction t as [|l IHl b n r IHr]; intros arr; [done|]. cbn [push_down].
  unfold PUSH_NODE. destruct (_ <? _)%nat; [|done]. rewrite bind_Ok.
  destruct e; [destruct l; [done|by apply IHl]|destruct r; [done|by apply IHr]].
Qed.

Lemma advance_ok d s this pre x post :
  located (t_root tb) s this pre x post →
  ∃ this' s', advance d tb this s = Ok (this', s') ∧
    match next_pos d pre x post with
    | None => this' = Null ∧ s' = mk_stack [] 0
    | Some (pre', y, post') => located (t_root tb) s' this' pre' y post'
    end.
Proof.
  intros [Hat Hs]. destruct (move_ok d _ _ _ _ _ _ (stops_not_from d) Hat) as (this' & arr' & E & Hr).
  assert (advance d tb this s = (if this' is Null then Ok (Null, mk_stack arr' 0) else Ok (this', mk_stack arr' (count_slot d (s_slot s))))) as Ea.
  { unfold advance. destruct (child d this) eqn:Ec; rewrite E, bind_Ok; [done|]. destruct this'; [|done].
    by apply push_down_node in E. }
  rewrite Ea. destruct (next_pos d pre x post) as [[[pre' y] post']|] eqn:En.
  - assert (∃ l b r, this' = Node l b y r) as (l & b & r & ->) by (destruct Hr as (?&?&?&?&->&_); eauto).
    eexists _, _. split; [done|]. split; [done|]. cbn [s_slot]. apply next_pos_zlen in En. unfold count_slot. pose proof (zlen_nonneg pre).
    destruct Hs as [->| ->]; [by left|right]. destruct (Z.gtb_spec (1 + zlen pre) 0); [|lia]. destruct d; lia.
  - destruct Hr as [-> ->]. by eexists _, _.
Qed.

(** ** Searching *)

Abbreviation nkey := (λ n, keyval (node_key n)).
Abbreviation tsorted := (sorted (kcmp (V:=V)) nkey).
Context `{!KeyCmp V kcmp} (Hsort : tsorted (elements (t_root tb))).

(** The node is beyond the key in a direction, or the key is beyond the node. *)
Definition beyond d key n : Prop := towards d (cmp_key key n) < 0.
Definition passed d key n : Prop := 0 < towards d (cmp_key key n).

#[export] Instance beyond_dec d key n : Decision (beyond d key n).
Proof. unfold beyond. apply _. Defined.

Lemma subtree_sorted stk t : plug_all stk t = t_root tb → tsorted (elements t).
Proof.
  intros E. rewrite <- E, elements_plug_all in Hsort. apply sorted_app in Hsort as (_ & Hs & _).
  by apply sorted_app in Hs as (Hs & _).
Qed.

Definition behind d pre post : list node := match d with DIR_RIGHT => pre | DIR_LEFT => rev post end.

(** The nodes around one, seen from a key. *)
Lemma around_list d key pre x post :
  tsorted (pre ++ x :: post) →
  (towards d (cmp_key key x) <= 0 → Forall (beyond d key) (ahead d pre post)) ∧
  (0 <= towards d (cmp_key key x) → Forall (passed d key) (behind d pre post)).
Proof.
  intros Hs. destruct (sorted_around kcmp nkey (keyval key) _ _ _ Hs) as [Hr Hl].
  unfold at_key in *. unfold beyond, passed, cmp_key, CMP in *.
  destruct d; cbn [towards ahead behind]; split; intros Hc.
  - apply Forall_rev. eapply Forall_impl; [apply Hl; lia|]. cbn. lia.
  - apply Forall_rev. eapply Forall_impl; [apply Hr; lia|]. cbn. lia.
  - eapply Forall_impl; [apply Hr; lia|]. cbn. lia.
  - eapply Forall_impl; [apply Hl; lia|]. cbn. lia.
Qed.

Lemma around d key l b n r :
  tsorted (elements (Node l b n r)) →
  (towards d (cmp_key key n) <= 0 → Forall (beyond d key) (els d (kid d l r))) ∧
  (0 <= towards d (cmp_key key n) → Forall (passed d key) (els d (kid (opp d) l r))).
Proof. intros Hs. pose proof (around_list d key _ _ _ Hs) as Ha. by destruct d. Qed.

Lemma at_node_behind d stk l (x : node) r pre post :
  pre = before stk ++ elements l → post = elements r ++ after stk →
  behind d pre post = bef d stk ++ els d (kid (opp d) l r).
Proof. intros -> ->. destruct d; cbn; [by rewrite rev_app_distr|done]. Qed.

(** The end of the search: the first node beyond the key, or the last one that is not. *)
Lemma rebuild_ok d key t stk :
  t ≠ Null → plug_all stk t = t_root tb → Forall (passed d key) (bef d stk) → Forall (beyond d key) (aft d stk) →
  ∃ found this arr pre x post, rebuild d key t (frame_addrs stk) = Ok (found, this, arr) ∧
    at_node (t_root tb) arr this pre x post ∧ Forall (passed d key) (behind d pre post) ∧ Forall (beyond d key) (ahead d pre post) ∧
    (if (found : bool) then beyond d key x else ¬ beyond d key x).
Proof.
  revert stk. induction t as [|l IHl b n r IHr]; intros stk Hne E Hb Ha; [done|]. cbn [rebuild].
  rewrite PUSH_NODE_ok by (by eapply path_room). rewrite bind_Ok.
  change (match d with DIR_LEFT => l | DIR_RIGHT => r end) with (kid d l r).
  assert (match d with DIR_LEFT => r | DIR_RIGHT => l end = kid (opp d) l r) as -> by (by destruct d).
  destruct (around d key l b n r (subtree_sorted _ _ E)) as [Hbey Hpas].
  pose proof (at_node_ahead d stk _ l b n r _ _ E eq_refl eq_refl) as Eah. pose proof (at_node_behind d stk l n r _ _ eq_refl eq_refl) as Ebe.
  assert (∀ e found, Forall (passed d key) (els d (kid (opp d) l r)) → Forall (beyond d key) (els d (kid d l r)) →
    (if (found : bool) then beyond d key n else ¬ beyond d key n) → e = rebuild d key (Node l b n r) (frame_addrs stk) →
    ∃ found' this arr pre x post, Ok (found, Node l b n r, n_addr n :: frame_addrs stk) = Ok (found', this, arr) ∧
    at_node (t_root tb) arr this pre x post ∧ Forall (passed d key) (behind d pre post) ∧ Forall (beyond d key) (ahead d pre post) ∧
    (if (found' : bool) then beyond d key x else ¬ beyond d key x)) as Hstop.
  { intros e found Hp Hby Hf _. eexists found, _, _, _, n, _. split; [done|]. split; [by exists stk, l, b, r|].
    rewrite Eah, Ebe. split_and!; [by apply Forall_app|by apply Forall_app|done]. }
  assert (∀ e, kid e l r ≠ Null → Forall (passed d key) (bef d (enter e l b n r :: stk)) → Forall (beyond d key) (aft d (enter e l b n r :: stk)) →
    ∃ found this arr pre x post, rebuild d key (kid e l r) (n_addr n :: frame_addrs stk) = Ok (found, this, arr) ∧
    at_node (t_root tb) arr this pre x post ∧ Forall (passed d key) (behind d pre post) ∧ Forall (beyond d key) (ahead d pre post) ∧
    (if (found : bool) then beyond d key x else ¬ beyond d key x)) as IH.
  { intros e Hk Hb' Ha'. replace (n_addr n :: frame_addrs stk) with (frame_addrs (enter e l b n r :: stk)) by (unfold frame_addrs; by rewrite fmap_cons, f_node_enter).
    assert (plug_all (enter e l b n r :: stk) (kid e l r) = t_root tb) as E' by (cbn [plug_all]; by rewrite plug_enter).
    destruct e; [by apply IHl|by apply IHr]. }
  clear IHl IHr. destruct (Z.gtb_spec (towards d (cmp_key key n)) 0) as [Hc|Hc].
  - specialize (Hpas ltac:(lia)). destruct (kid d l r) as [|cl cb cn cr] eqn:Ek.
    + apply (Hstop (rebuild d key (Node l b n r) (frame_addrs stk))); [done|by rewrite els_null|unfold beyond; lia|done].
    + rewrite <- Ek. apply (IH d); [by rewrite Ek| |].
      * rewrite bef_same, f_other_enter, f_node_enter by apply f_dir_enter. repeat apply Forall_app_2; [done..|]. by constructor.
      * by rewrite aft_same by apply f_dir_enter.
  - specialize (Hbey ltac:(lia)). destruct (Z.ltb_spec (towards d (cmp_key key n)) 0) as [Hc'|Hc'].
    + destruct (kid (opp d) l r) as [|cl cb cn cr] eqn:Ek.
      * apply (Hstop (rebuild d key (Node l b n r) (frame_addrs stk))); [by rewrite els_null|done|done|done].
      * rewrite <- Ek. apply (IH (opp d)); [by rewrite Ek| |].
        -- by rewrite bef_other by apply f_dir_enter.
        -- rewrite aft_other, f_other_enter, f_node_enter, opp_opp by apply f_dir_enter. constructor; [done|]. by apply Forall_app_2.
    + specialize (Hpas ltac:(lia)). apply (Hstop (rebuild d key (Node l b n r) (frame_addrs stk))); [done|done|unfold beyond; lia|done].
Qed.

(** ** The next node *)

Lemma els_at d arr this pre x post :
  at_node (t_root tb) arr this pre x post → els d (t_root tb) = behind d pre post ++ x :: ahead d pre post.
Proof.
  intros E%at_node_elements. destruct d; cbn [els behind ahead]; rewrite E; [|done].
  rewrite rev_app_distr. cbn. by rewrite <- app_assoc.
Qed.

Definition first_beyond d key : option node := head (filter (beyond d key) (els d (t_root tb))).

Lemma first_beyond_at d key arr this pre x post :
  at_node (t_root tb) arr this pre x post → Forall (passed d key) (behind d pre post) → Forall (beyond d key) (ahead d pre post) →
  first_beyond d key = if decide (beyond d key x) then Some x else (λ '(_, y, _), y) <$> next_pos d pre x post.
Proof.
  intros Hat Hp Hb. unfold first_beyond. rewrite (els_at d _ _ _ _ _ Hat), filter_app, filter_cons, (list_filter_False _ (behind _ _ _)).
  - destruct (decide (beyond d key x)); [done|]. cbn [app]. rewrite list_filter_True by done.
    pose proof (next_pos_ahead d pre x post) as Hn. destruct (next_pos d pre x post) as [[[??]?]|]; by rewrite Hn.
  - eapply Forall_impl; [exact Hp|]. unfold passed, beyond. intros; lia.
Qed.

Lemma advance_found d s this pre x post :
  located (t_root tb) s this pre x post →
  ∃ this' s', advance d tb this s = Ok (this', s') ∧ found_at (t_root tb) s' this' ((λ '(_, y, _), y) <$> next_pos d pre x post).
Proof.
  intros Hl. destruct (advance_ok d s this pre x post Hl) as (this' & s' & E & Hr). exists this', s'. split; [done|].
  destruct (next_pos d pre x post) as [[[pre' y] post']|]; cbn; [by exists pre', post'|done].
Qed.

Lemma find_dir_ok d s key :
  stack_ok (t_root tb) s → ∃ this s', find_dir d tb s key = Ok (this, s') ∧ found_at (t_root tb) s' this (first_beyond d key).
Proof.
  intros Hs.
  assert (∃ this s', find_dir d tb (mk_stack [] 0) key = Ok (this, s') ∧ found_at (t_root tb) s' this (first_beyond d key)) as Hfresh.
  { unfold find_dir. cbn [s_array TOP_NODE]. rewrite bind_Ok. destruct (tree_case (t_root tb)) as [Er|(rl & rb & rn & rr & Er)].
    { rewrite Er. exists Null, (mk_stack [] 0). split; [done|]. unfold first_beyond. by rewrite Er, els_null. }
    rewrite Er. destruct (rebuild_ok d key (Node rl rb rn rr) []) as (found & this & arr & pre & x & post & E & Hat & Hp & Hb & Hf);
      [done|done|by destruct d|by destruct d|].
    unfold frame_addrs in E. cbn [fmap list_fmap] in E. cbn [s_array s_slot]. rewrite E, bind_Ok, <- Er. pose proof (first_beyond_at d key _ _ _ _ _ Hat Hp Hb) as Ef.
    assert (located (t_root tb) (mk_stack arr 0) this pre x post) as Hl by (split; [done|by left]). destruct found.
    - rewrite decide_True in Ef by done. rewrite Ef. exists this, (mk_stack arr 0). split; [done|]. by exists pre, post.
    - rewrite decide_False in Ef by done. rewrite Ef. by apply advance_found. }
  destruct Hs as [->|(this & pre & x & post & Hl)]; [done|].
  destruct (located_node _ _ _ _ _ _ Hl) as (l & b & r & ->). unfold find_dir in *. rewrite (TOP_NODE_ok _ _ _ _ _ (lo_at _ _ _ _ _ _ Hl)), bind_Ok.
  unfold cmp_key_eq. destruct (Z.eqb_spec (cmp_key key x) 0) as [Ec|Ec]; [|exact Hfresh].
  destruct (lo_at _ _ _ _ _ _ Hl) as (stk & ? & ? & ? & _ & _ & -> & _). 
  pose proof (at_node_elements _ _ _ _ _ _ (lo_at _ _ _ _ _ _ Hl)) as Ee. pose proof Hsort as Hs. rewrite Ee in Hs.
  destruct (around_list d key _ _ _ Hs) as [Hb Hp].
  assert (towards d (cmp_key key x) = 0) as Et by (destruct d; cbn; lia).
  rewrite (first_beyond_at d key _ _ _ _ _ (lo_at _ _ _ _ _ _ Hl)), decide_False; [by apply advance_found|unfold beyond; lia|apply Hp; lia|apply Hb; lia].
Qed.

(** ** The ends of the table and positions *)

Lemma push_down_end d l b n r :
  t_root tb = Node l b n r →
  ∃ this arr pre x post, push_down d (t_root tb) [] = Ok (this, arr) ∧ at_node (t_root tb) arr this pre x post ∧ ahead d pre post = [].
Proof.
  intros E. destruct (push_down_ok d (t_root tb) []) as (this & arr & pre & x & post & Ep & Hat & Ha); [by rewrite E|done|].
  exists this, arr, pre, x, post. split_and!; [done..|]. rewrite Ha. by destruct d.
Qed.

Lemma walk_down_push d t arr this arr' : push_down d t arr = Ok (this, arr') → walk_down d t = Ok this.
Proof.
  revert arr. induction t as [|l IHl b n r IHr]; intros arr; [done|]. cbn [push_down walk_down].
  unfold PUSH_NODE. destruct (_ <? _)%nat; [|done]. rewrite bind_Ok. destruct d.
  - destruct l; [by intros [= <- <-]|apply IHl].
  - destruct r; [by intros [= <- <-]|apply IHr].
Qed.

Lemma slot_loop_ok fuel slot s this pre x post :
  at_node (t_root tb) (s_array s) this pre x post → s_slot s = 1 + zlen pre →
  1 <= slot <= zlen (elements (t_root tb)) → Z.abs (slot - s_slot s) <= Z.of_nat fuel →
  ∃ this' s' pre' y post', slot_loop fuel tb slot this s = Ok (this', s') ∧ located (t_root tb) s' this' pre' y post' ∧ zlen pre' = slot - 1.
Proof.
  revert s this pre x post. induction fuel as [|fuel IH]; intros s this pre x post Hat Hs Hr Hf;
    pose proof Hat as (stk & l & b & r & -> & _); cbn [slot_loop].
  - destruct (Z.eqb_spec (s_slot s) slot); [|lia]. eexists _, s, pre, x, post. split; [done|]. split; [split; [done|by right]|lia].
  - destruct (Z.eqb_spec (s_slot s) slot).
    { eexists _, s, pre, x, post. split; [done|]. split; [split; [done|by right]|lia]. }
    set (d := if slot >? s_slot s then DIR_RIGHT else DIR_LEFT).
    destruct (move_ok d _ _ _ _ _ _ (stops_from d) Hat) as (this' & arr' & E & Hm). rewrite E, bind_Ok.
    pose proof (at_node_elements _ _ _ _ _ _ Hat) as Ee. rewrite Ee in Hr. rewrite zlen_app, zlen_cons in Hr.
    assert (next_pos d pre x post ≠ None) as Hne.
    { pose proof (next_pos_ahead d pre x post) as Hn. intros En. rewrite En in Hn. subst d. destruct (Z.gtb_spec slot (s_slot s)); cbn in Hn.
      - subst post. rewrite zlen_nil in Hr. lia.
      - apply (f_equal (rev (A:=_))) in Hn. rewrite rev_involutive in Hn. subst pre. cbn in *. rewrite zlen_nil in Hs. lia. }
    destruct (next_pos d pre x post) as [[[pre' y] post']|] eqn:En; [|done]. apply next_pos_zlen in En.
    assert (zlen pre' = (match d with DIR_RIGHT => s_slot s + 1 | DIR_LEFT => s_slot s - 1 end) - 1) as Ez by (destruct d; lia).
    eapply IH; [exact Hm|cbn [s_slot]; lia|rewrite Ee, zlen_app, zlen_cons; lia|cbn [s_slot]].
    subst d. destruct (Z.gtb_spec slot (s_slot s)); lia.
Qed.

End Moves.
End Paths.
