(* ===== verification/DbTreeOps.v ===== *)
(** ETS ordered sets (DbTree.v): what every operation does.

    The contents of a table are its objects in the order of their keys.  The invariant of a
    table ([tree_ok]) says that the tree is balanced and sorted, that the counter is right
    and that the static stack is empty or leads to a node; every operation keeps it, and its
    results are those of the list of objects. *)
From stdpp Require Import sorting.
From S2P Require Import Prelude Avl DbHash DbTree DbTreePath.
#[local] Open Scope Z_scope.

Section Ops.
Context {term obj V : Type} `{DbTerms term obj} `{TermOrder term V} `{!KeyCmp V kcmp}.
Abbreviation node := (TreeDbTerm obj).
Abbreviation table := (DbTableTree obj).
Abbreviation nkey := (λ n : node, keyval (node_key n)).
Abbreviation tsorted := (sorted (kcmp (V:=V)) nkey).
Implicit Types (tb : table) (n x y : node) (t this root : tree node) (s : DbTreeStack) (key k : term) (d : dir) (arr : list nat)
  (o : obj) (l : list obj).

(** * Sorted lists of objects *)

(** The objects with a key below, equal to and above [k]. *)
Definition below k l : list obj := filter (λ o, 0 < CMP k (GETKEY o)) l.
Definition same k l : list obj := filter (λ o, CMP k (GETKEY o) = 0) l.
Definition above k l : list obj := filter (λ o, CMP k (GETKEY o) < 0) l.

Record key_split k l lo eq hi : Prop := {
  ks_eq : l = lo ++ eq ++ hi;
  ks_lo : Forall (λ o, 0 < CMP k (GETKEY o)) lo;
  ks_same : Forall (λ o, CMP k (GETKEY o) = 0) eq;
  ks_hi : Forall (λ o, CMP k (GETKEY o) < 0) hi }.

Lemma key_split_parts k l lo eq hi :
  key_split k l lo eq hi → below k l = lo ∧ same k l = eq ∧ above k l = hi.
Proof.
  intros [-> Hlo Heq Hhi]. unfold below, same, above. rewrite !filter_app.
  assert (∀ (P Q : obj → Prop) `{∀ o, Decision (P o)} (l' : list obj), Forall Q l' → (∀ o, Q o → ¬ P o) → filter P l' = []) as Hno.
  { intros P Q ? l' Hl Hpq. apply list_filter_False. eapply Forall_impl; [exact Hl|]. auto. }
  rewrite (Hno (λ o, 0 < CMP k (GETKEY o)) _ _ eq Heq), (Hno (λ o, 0 < CMP k (GETKEY o)) _ _ hi Hhi),
    (Hno (λ o, CMP k (GETKEY o) = 0) _ _ lo Hlo), (Hno (λ o, CMP k (GETKEY o) = 0) _ _ hi Hhi),
    (Hno (λ o, CMP k (GETKEY o) < 0) _ _ lo Hlo), (Hno (λ o, CMP k (GETKEY o) < 0) _ _ eq Heq) by (cbn; intros; lia).
  rewrite !list_filter_True by done. rewrite !app_nil_r. done.
Qed.

(** * The invariant *)

Definition max_objects : Z := 2 ^ 31 - 1.

Record tree_ok tb l : Prop := {
  to_valid : valid (kcmp (V:=V)) nkey (t_root tb);
  to_nodup : NoDup (addrs (t_root tb));
  to_fresh : Forall (λ a, (a < t_next tb)%nat) (addrs (t_root tb));
  to_objs : n_obj <$> elements (t_root tb) = l;
  to_items : t_nitems tb = zlen l;
  to_bound : zlen l <= max_objects;
  to_stack : stack_ok (t_root tb) (t_static tb) }.

Lemma tree_ok_zlen tb l : tree_ok tb l → zlen (elements (t_root tb)) = zlen l.
Proof. intros Hok. rewrite <- (to_objs _ _ Hok). unfold zlen. by rewrite length_fmap. Qed.

Lemma tree_ok_small tb l : tree_ok tb l → zlen (elements (t_root tb)) < 2 ^ 32.
Proof. intros Hok. rewrite (tree_ok_zlen _ _ Hok). pose proof (to_bound _ _ Hok). unfold max_objects in *. lia. Qed.

Lemma tree_ok_height tb l : tree_ok tb l → height (t_root tb) <= 45.
Proof. intros Hok. apply avl_height; [apply Hok|by eapply tree_ok_small]. Qed.

Lemma tree_ok_NITEMS tb l : tree_ok tb l → NITEMS tb = zlen l.
Proof.
  intros Hok. unfold NITEMS. rewrite (to_items _ _ Hok). apply to_int_small. pose proof (to_bound _ _ Hok). pose proof (zlen_nonneg l).
  unfold max_objects, INT_MAX in *. lia.
Qed.

(** A position in the tree splits the objects by its key. *)
Lemma node_split k pre x post :
  tsorted (pre ++ x :: post) → cmp_key k x = 0 →
  key_split k (n_obj <$> pre ++ x :: post) (n_obj <$> pre) [n_obj x] (n_obj <$> post).
Proof.
  intros Hs E. destruct (around_list DIR_RIGHT k _ _ _ Hs) as [Hb Hp]. cbn in Hb, Hp. rewrite E in Hb, Hp.
  split.
  - by rewrite fmap_app.
  - apply Forall_fmap. eapply Forall_impl; [apply Hp; lia|]. done.
  - constructor; [exact E|constructor].
  - apply Forall_fmap. eapply Forall_impl; [apply Hb; lia|]. done.
Qed.

Lemma absent_split k (lo hi : list node) :
  Forall (λ n, at_key kcmp nkey (keyval k) n > 0) lo → Forall (λ n, at_key kcmp nkey (keyval k) n < 0) hi →
  key_split k (n_obj <$> lo ++ hi) (n_obj <$> lo) [] (n_obj <$> hi).
Proof.
  intros Hlo Hhi. split; [by rewrite fmap_app| |constructor|].
  - apply Forall_fmap. eapply Forall_impl; [exact Hlo|]. intros n Hn. unfold at_key, node_key in Hn. unfold CMP. cbn. lia.
  - apply Forall_fmap. eapply Forall_impl; [exact Hhi|]. done.
Qed.

(** * Reading *)

(** An operation that reads leaves another static stack behind, at most. *)
Definition reads tb tb' : Prop := ∃ s, stack_ok (t_root tb) s ∧ tb' = set_static tb s.

Lemma reads_ok tb tb' l : tree_ok tb l → reads tb tb' → tree_ok tb' l ∧ t_busy tb' = t_busy tb.
Proof. intros Hok (s & Hs & ->). split; [|done]. by destruct Hok; split. Qed.

Lemma reads_refl tb l : tree_ok tb l → reads tb tb.
Proof. intros Hok. exists (t_static tb). split; [apply Hok|by destruct tb]. Qed.

(** The operations take the static stack or an empty one; nothing else depends on it. *)
Lemma any_stack tb l :
  tree_ok tb l →
  ∃ static s tb1, get_any_stack tb = (static, s, tb1) ∧ stack_ok (t_root tb) s ∧ t_root tb1 = t_root tb ∧
    ∀ s', stack_ok (t_root tb) s' → reads tb (release_stack tb1 static s').
Proof.
  intros Hok. unfold get_any_stack, get_static_stack. destruct (t_busy tb) eqn:Eb.
  - exists false, (mk_stack [] 0), tb. split_and!; [done|by left|done|]. intros s' _. by eapply reads_refl.
  - exists true, (t_static tb), (set_busy tb true). split_and!; [done|apply Hok|done|]. intros s' Hs'. exists s'. split; [done|].
    destruct tb as [r i b st nx]. cbn in *. by subst.
Qed.

Definition key_or_end (r : option obj) : term := match r with Some o => GETKEY o | None => am_EOT end.

Lemma first_beyond_objs tb l d k :
  tree_ok tb l → n_obj <$> first_beyond tb d k = match d with DIR_RIGHT => head (above k l) | DIR_LEFT => last (below k l) end.
Proof.
  intros Hok. unfold first_beyond, above, below. rewrite <- (to_objs _ _ Hok).
  destruct d; cbn [els]; rewrite list_filter_fmap.
  - rewrite fmap_last, <- head_rev, <- filter_rev. f_equal. f_equal. apply list_filter_iff. intros n. unfold beyond, cmp_key, node_key. cbn. lia.
  - rewrite <- head_fmap. done.
Qed.

(** ** Next and previous *)

Lemma dir_ok tb l d k :
  tree_ok tb l →
  ∃ tb', (let '(static, s, tb) := get_any_stack tb in
          '(this, s) ← find_dir d tb s k;
          let tb := release_stack tb static s in
          match this with
          | Null => Ok (DB_ERROR_NONE, am_EOT, tb)
          | Node _ _ n _ => Ok (DB_ERROR_NONE, node_key n, tb)
          end) = Ok (DB_ERROR_NONE, key_or_end (match d with DIR_RIGHT => head (above k l) | DIR_LEFT => last (below k l) end), tb') ∧ reads tb tb'.
Proof.
  intros Hok. destruct (any_stack tb l Hok) as (static & s & tb1 & -> & Hs & Er & Hrel).
  pose proof (find_dir_ok (V:=V) tb1) as Hfd. unfold first_beyond in Hfd. rewrite Er in Hfd.
  destruct (Hfd (to_nodup _ _ Hok) (tree_ok_height _ _ Hok) _ (proj2 (to_valid _ _ Hok)) d s k Hs) as (this & s' & -> & Hf).
  rewrite bind_Ok. exists (release_stack tb1 static s'). split; [|apply Hrel; by eapply found_stack_ok].
  rewrite <- (first_beyond_objs tb l d k Hok). unfold first_beyond. destruct (head _) as [y|]; cbn.
  - destruct Hf as (pre & post & Hl). destruct (located_node _ _ _ _ _ _ Hl) as (?&?&?&->). done.
  - by destruct Hf as [-> _].
Qed.

Theorem db_next_tree_ok tb l k :
  tree_ok tb l →
  ∃ tb', db_next_tree tb k = Ok (if bool_decide (k = am_EOT) then DB_ERROR_BADKEY else DB_ERROR_NONE,
                                 if bool_decide (k = am_EOT) then am_EOT else key_or_end (head (above k l)), tb') ∧ reads tb tb'.
Proof.
  intros Hok. unfold db_next_tree. destruct (bool_decide (k = am_EOT)); [exists tb; split; [done|by eapply reads_refl]|].
  by apply (dir_ok tb l DIR_RIGHT k).
Qed.

Theorem db_prev_tree_ok tb l k :
  tree_ok tb l →
  ∃ tb', db_prev_tree tb k = Ok (if bool_decide (k = am_EOT) then DB_ERROR_BADKEY else DB_ERROR_NONE,
                                 if bool_decide (k = am_EOT) then am_EOT else key_or_end (last (below k l)), tb') ∧ reads tb tb'.
Proof.
  intros Hok. unfold db_prev_tree. destruct (bool_decide (k = am_EOT)); [exists tb; split; [done|by eapply reads_refl]|].
  by apply (dir_ok tb l DIR_LEFT k).
Qed.

(** ** First and last *)

(** The last node in a direction, with a stack that leads to it. *)
Lemma end_ok tb l d :
  tree_ok tb l → t_root tb ≠ Null →
  ∃ this arr pre x post, push_down d (t_root tb) [] = Ok (this, arr) ∧ walk_down d (t_root tb) = Ok this ∧
    key_of this = Ok (node_key x) ∧ at_node (t_root tb) arr this pre x post ∧ ahead d pre post = [] ∧
    l = n_obj <$> pre ++ x :: post.
Proof.
  intros Hok Hne. destruct (tree_case (t_root tb)) as [?|(rl & rb & rn & rr & Er)]; [done|].
  destruct (push_down_end tb (tree_ok_height _ _ Hok) d _ _ _ _ Er) as (this & arr & pre & x & post & Ep & Hat & Ha).
  exists this, arr, pre, x, post. split_and!; [done|by eapply walk_down_push|by destruct Hat as (?&?&?&?&->&_)|done|done|].
  rewrite <- (to_objs _ _ Hok). by rewrite (at_node_elements _ _ _ _ _ _ Hat).
Qed.

Lemma empty_root tb l : tree_ok tb l → t_root tb = Null → l = [].
Proof. intros Hok E. by rewrite <- (to_objs _ _ Hok), E. Qed.

Theorem db_first_tree_ok tb l :
  tree_ok tb l → ∃ tb', db_first_tree tb = Ok (key_or_end (head l), tb') ∧ reads tb tb'.
Proof.
  intros Hok. unfold db_first_tree. destruct (tree_case (t_root tb)) as [E|(rl & rb & rn & rr & E)].
  { rewrite E, (empty_root _ _ Hok E). exists tb. split; [done|by eapply reads_refl]. }
  rewrite E. cbv iota. rewrite <- E. assert (t_root tb ≠ Null) as Hne by (by rewrite E). clear E. destruct (end_ok tb l DIR_LEFT Hok Hne) as (this & arr & pre & x & post & Ep & Ew & Ek & Hat & Ha & ->).
  assert (pre = []) as -> by (cbn in Ha; by apply (f_equal (rev (A:=_))) in Ha; rewrite rev_involutive in Ha).
  unfold get_static_stack. destruct (t_busy tb) eqn:Eb.
  - rewrite Ew, bind_Ok, Ek, bind_Ok. exists tb. split; [done|by eapply reads_refl].
  - rewrite Ep, bind_Ok, Ek, bind_Ok. eexists. split; [done|]. exists (mk_stack arr 1). split.
    + right. exists this, [], x, post. split; [done|by right].
    + destruct tb; cbn in *; by subst.
Qed.

Theorem db_last_tree_ok tb l :
  tree_ok tb l → ∃ tb', db_last_tree tb = Ok (key_or_end (last l), tb') ∧ reads tb tb'.
Proof.
  intros Hok. unfold db_last_tree. destruct (tree_case (t_root tb)) as [E|(rl & rb & rn & rr & E)].
  { rewrite E, (empty_root _ _ Hok E). exists tb. split; [done|by eapply reads_refl]. }
  rewrite E. cbv iota. rewrite <- E. assert (t_root tb ≠ Null) as Hne by (by rewrite E). clear E. destruct (end_ok tb l DIR_RIGHT Hok Hne) as (this & arr & pre & x & post & Ep & Ew & Ek & Hat & Ha & El).
  cbn in Ha. subst post. pose proof (tree_ok_NITEMS _ _ Hok) as En. assert (last l = Some (n_obj x)) as -> by (by rewrite El, fmap_last, last_snoc).
  unfold get_static_stack. destruct (t_busy tb) eqn:Eb.
  - rewrite Ew, bind_Ok, Ek, bind_Ok. exists tb. split; [done|by eapply reads_refl].
  - rewrite Ep, bind_Ok, Ek, bind_Ok. change (NITEMS (set_busy tb true)) with (NITEMS tb). rewrite En. eexists. split; [done|]. exists (mk_stack arr (zlen l)). split.
    + right. exists this, pre, x, []. split; [done|right]. cbn [s_slot]. rewrite El. unfold zlen. rewrite length_fmap, length_app. cbn [length]. lia.
    + destruct tb; cbn in *. by subst.
Qed.

(** ** Positions *)

(** The stack that [slot_search] starts with: if the position is not noted it is dropped. *)
Lemma slot_start root s i :
  stack_ok root s →
  let s := if i =? 1 then mk_stack (s_array s) 0 else s in
  let s := if s_slot s =? 0 then mk_stack [] (s_slot s) else s in
  s = mk_stack [] 0 ∨ ∃ this pre x post, at_node root (s_array s) this pre x post ∧ s_slot s = 1 + zlen pre.
Proof.
  intros Hs. destruct (i =? 1); cbn [s_slot Z.eqb]; [by left|].
  destruct Hs as [->|(this & pre & x & post & Hat & Hsl)]; [by left|].
  destruct (Z.eqb_spec (s_slot s) 0) as [->|]; [by left|right]. exists this, pre, x, post. split; [done|]. by destruct Hsl.
Qed.

Lemma slot_search_ok tb l i :
  tree_ok tb l → 1 <= i <= zlen l →
  ∃ this tb' s' pre x post, slot_search tb i = Ok (this, tb') ∧ reads tb tb' ∧ located (t_root tb) s' this pre x post ∧ zlen pre = i - 1.
Proof.
  intros Hok Hi. unfold slot_search. destruct (any_stack tb l Hok) as (static & s & tb1 & -> & Hs & Er & Hrel).
  pose proof (slot_start (t_root tb) s i Hs) as Hs1. cbv zeta in Hs1 |- *.
  set (s1 := if s_slot (if i =? 1 then _ else s) =? 0 then _ else _) in *. clearbody s1. clear s Hs.
  pose proof (to_nodup _ _ Hok) as Hnd. pose proof (tree_ok_height _ _ Hok) as Hh. pose proof (tree_ok_zlen _ _ Hok) as Hz.
  rewrite <- Er in Hs1, Hnd, Hh, Hz.
  assert (∀ (n : nat) s this pre x post, at_node (t_root tb1) (s_array s) this pre x post → s_slot s = 1 + zlen pre → Z.abs (i - s_slot s) <= Z.of_nat n →
    ∃ this' tb' s' pre' x' post', ('(this, s) ← slot_loop n tb1 i this s; Ok (this, release_stack tb1 static s)) = Ok (this', tb') ∧
      reads tb tb' ∧ located (t_root tb) s' this' pre' x' post' ∧ zlen pre' = i - 1) as Hloop.
  { intros n s this pre x post Hat Hsl Hn.
    destruct (slot_loop_ok tb1 Hnd Hh n i s this pre x post Hat Hsl ltac:(lia) Hn) as (this' & s' & pre' & x' & post' & -> & Hl & Hp).
    rewrite bind_Ok. rewrite Er in Hl. exists this', (release_stack tb1 static s'), s', pre', x', post'. split_and!; [done| |done|done].
    apply Hrel. right. by eauto. }
  destruct Hs1 as [->|(this & pre & x & post & Hat & Hsl)].
  - cbn [s_array TOP_NODE]. rewrite bind_Ok. destruct (tree_case (t_root tb1)) as [E|(rl & rb & rn & rr & E)].
    { rewrite E in Hz. cbn in Hz. rewrite zlen_nil in Hz. lia. }
    destruct (push_down_end tb1 Hh DIR_LEFT _ _ _ _ E) as (this & arr & pre & x & post & Ep & Hat & Ha).
    rewrite E. cbv iota. rewrite <- E, Ep, bind_Ok.
    assert (pre = []) as -> by (cbn in Ha; by apply (f_equal (rev (A:=_))) in Ha; rewrite rev_involutive in Ha).
    apply (Hloop _ (mk_stack arr 1) this [] x post); [done|done|cbn [s_slot]; lia].
  - rewrite (TOP_NODE_ok tb1 Hnd _ _ _ _ _ Hat), bind_Ok. pose proof Hat as (? & ? & ? & ? & E & _). rewrite E. cbv iota. rewrite <- E.
    apply (Hloop _ s1 this pre x post); [done|done|lia].
Qed.

Theorem db_slot_tree_ok tb l i :
  tree_ok tb l →
  ∃ tb', db_slot_tree tb i =
      Ok (if (i <? 0) || (i >? zlen l) then DB_ERROR_BADPARAM else DB_ERROR_NONE,
          if i <? 0 then None else (λ o, [o]) <$> l !! Z.to_nat i, tb') ∧ reads tb tb'.
Proof.
  intros Hok. unfold db_slot_tree. rewrite (tree_ok_NITEMS _ _ Hok).
  assert (zlen l <= i → l !! Z.to_nat i = None) as Hout by (intros; apply lookup_ge_None_2; unfold zlen in *; lia).
  destruct (Z.ltb_spec i 0) as [Hneg|Hneg]; cbn [orb]; [exists tb; split; [done|by eapply reads_refl]|].
  destruct (Z.gtb_spec i (zlen l)); [rewrite Hout by lia; exists tb; split; [done|by eapply reads_refl]|].
  destruct (Z.eqb_spec i (zlen l)); [rewrite Hout by lia; exists tb; split; [done|by eapply reads_refl]|].
  destruct (slot_search_ok tb l (i + 1) Hok ltac:(lia)) as (this & tb' & s' & pre & x & post & -> & Hr & Hl & Hz).
  rewrite bind_Ok. exists tb'. split; [|done]. destruct (located_node _ _ _ _ _ _ Hl) as (?&?&?&->).
  rewrite <- (to_objs _ _ Hok), (at_node_elements _ _ _ _ _ _ (lo_at _ _ _ _ _ _ Hl)), fmap_app, lookup_app_r, fmap_cons.
  - rewrite length_fmap. replace (Z.to_nat i - length pre)%nat with O by (unfold zlen in *; lia). done.
  - rewrite length_fmap. unfold zlen in *. lia.
Qed.

(** ** Lookup *)

Lemma find_from_elem k t :
  tsorted (elements t) →
  match find_from k t with
  | Null => Forall (λ n, cmp_key k n ≠ 0) (elements t)
  | Node _ _ n _ => n ∈ elements t ∧ cmp_key k n = 0
  end.
Proof.
  induction t as [|l IHl b n r IHr]; intros Hs; [constructor|]. cbn [find_from elements] in *.
  destruct (sorted_around kcmp nkey (keyval k) _ _ _ Hs) as [Hr Hl].
  apply sorted_app in Hs as (Hsl & Hsr & _). apply StronglySorted_cons in Hsr as [_ Hsr]. specialize (IHl Hsl). specialize (IHr Hsr).
  destruct (Z.eqb_spec (cmp_key k n) 0) as [E|E]; cbn [negb].
  { split; [|done]. rewrite elem_of_app, elem_of_cons. auto. }
  unfold at_key in *. unfold cmp_key, CMP, node_key in *. destruct (Z.ltb_spec (kcmp (keyval k) (keyval (GETKEY (n_obj n)))) 0).
  - destruct (find_from k l) as [|? ? m ?].
    + apply Forall_app. split; [done|]. constructor; [lia|]. eapply Forall_impl; [apply Hr; lia|]. cbn. lia.
    + destruct IHl. split; [|done]. apply elem_of_app. auto.
  - destruct (find_from k r) as [|? ? m ?].
    + apply Forall_app. split; [|by constructor]. eapply Forall_impl; [apply Hl; lia|]. cbn. lia.
    + destruct IHr. split; [|done]. rewrite elem_of_app, elem_of_cons. auto.
Qed.

Lemma same_of_elem tb l k n :
  tree_ok tb l → n ∈ elements (t_root tb) → cmp_key k n = 0 → same k l = [n_obj n].
Proof.
  intros Hok (pre & post & E)%list_elem_of_split Hk. pose proof (proj2 (to_valid _ _ Hok)) as Hs. rewrite E in Hs.
  rewrite <- (to_objs _ _ Hok), E. apply (key_split_parts k _ _ _ _ (node_split k pre n post Hs Hk)).
Qed.

(** What a node that was found, or not, says of the objects. *)
Lemma same_of_find tb l k this :
  tree_ok tb l →
  match this with
  | Null => Forall (λ n, cmp_key k n ≠ 0) (elements (t_root tb))
  | Node _ _ n _ => n ∈ elements (t_root tb) ∧ cmp_key k n = 0
  end →
  match this with Null => same k l = [] | Node _ _ n _ => same k l = [n_obj n] end.
Proof.
  intros Hok. destruct this as [|? ? n ?]; [|intros [??]; by eapply same_of_elem].
  intros Hf. unfold same. rewrite <- (to_objs _ _ Hok). by apply list_filter_False, Forall_fmap.
Qed.

Lemma find_from_ok tb l k :
  tree_ok tb l →
  match find_from k (t_root tb) with Null => same k l = [] | Node _ _ n _ => same k l = [n_obj n] end.
Proof. intros Hok. apply (same_of_find tb l k); [done|]. apply (find_from_elem k _ (proj2 (to_valid _ _ Hok))). Qed.

(** The node with the key. *)
Lemma find_node_elem tb l k :
  tree_ok tb l →
  ∃ this tb', find_node tb k = Ok (this, tb') ∧ reads tb tb' ∧
    match this with
    | Null => Forall (λ n, cmp_key k n ≠ 0) (elements (t_root tb))
    | Node _ _ n _ => n ∈ elements (t_root tb) ∧ cmp_key k n = 0
    end.
Proof.
  intros Hok. pose proof (find_from_elem k _ (proj2 (to_valid _ _ Hok))) as Hf. unfold find_node, get_static_stack. destruct (t_busy tb) eqn:Eb.
  { eexists _, tb. split; [done|]. split; [by eapply reads_refl|done]. }
  assert (reads tb (release_stack (set_busy tb true) true (t_static tb))) as Hr.
  { exists (t_static tb). split; [apply Hok|]. destruct tb; cbn in *. by subst. }
  change (t_root (set_busy tb true)) with (t_root tb).
  destruct (to_stack _ _ Hok) as [E|(this & pre & x & post & Hl)].
  { rewrite E in Hr |- *. cbn [s_array TOP_NODE]. rewrite bind_Ok. eexists _, _. split; [done|]. by split. }
  change (TOP_NODE (set_busy tb true)) with (TOP_NODE tb).
  rewrite (TOP_NODE_ok tb (to_nodup _ _ Hok) _ _ _ _ _ (lo_at _ _ _ _ _ _ Hl)), bind_Ok.
  destruct (located_node _ _ _ _ _ _ Hl) as (? & ? & ? & ->). unfold cmp_key_eq. destruct (Z.eqb_spec (cmp_key k x) 0) as [Ek|Ek]; cbn [negb].
  - eexists _, _. split; [done|]. split; [done|]. split; [|done].
    rewrite (at_node_elements _ _ _ _ _ _ (lo_at _ _ _ _ _ _ Hl)), elem_of_app, elem_of_cons. auto.
  - eexists _, _. split; [done|]. by split.
Qed.

Lemma find_node_ok tb l k :
  tree_ok tb l →
  ∃ this tb', find_node tb k = Ok (this, tb') ∧ reads tb tb' ∧
    match this with Null => same k l = [] | Node _ _ n _ => same k l = [n_obj n] end.
Proof.
  intros Hok. destruct (find_node_elem tb l k Hok) as (this & tb' & E & Hr & Hf). exists this, tb'. split; [done|]. split; [done|].
  by eapply same_of_find.
Qed.

Theorem db_get_tree_ok tb l k : tree_ok tb l → ∃ tb', db_get_tree tb k = Ok (same k l, tb') ∧ reads tb tb'.
Proof.
  intros Hok. unfold db_get_tree. destruct (find_node_ok tb l k Hok) as (this & tb' & -> & Hr & Hs). rewrite bind_Ok. exists tb'.
  by destruct this; rewrite Hs.
Qed.

Theorem db_member_tree_ok tb l k :
  tree_ok tb l → ∃ tb', db_member_tree tb k = Ok (negb (bool_decide (same k l = [])), tb') ∧ reads tb tb'.
Proof.
  intros Hok. unfold db_member_tree. destruct (find_node_ok tb l k Hok) as (this & tb' & -> & Hr & Hs). rewrite bind_Ok. exists tb'.
  by destruct this; rewrite Hs.
Qed.

Definition spec_element (l : list obj) (ndex : Z) : db_error * option term :=
  match l with
  | [] => (DB_ERROR_BADKEY, None)
  | o :: _ => if ndex >? arityval o then (DB_ERROR_BADPARAM, None) else (DB_ERROR_NONE, Some (tpl o ndex))
  end.

Theorem db_get_element_tree_ok tb l k ndex :
  tree_ok tb l → ∃ tb', db_get_element_tree tb k ndex = Ok (spec_element (same k l) ndex, tb') ∧ reads tb tb'.
Proof.
  intros Hok. unfold db_get_element_tree. destruct (find_node_ok tb l k Hok) as (this & tb' & -> & Hr & Hs). rewrite bind_Ok. exists tb'.
  destruct this; rewrite Hs; cbn [spec_element]; [done|]. by destruct (_ >? _).
Qed.

(** * Writing *)

Definition spec_put l o (clash : bool) : db_error * list obj :=
  let k := GETKEY o in
  match same k l with
  | [] => (DB_ERROR_NONE, below k l ++ o :: above k l)
  | _ :: _ => if clash then (DB_ERROR_BADKEY, l) else (DB_ERROR_NONE, below k l ++ o :: above k l)
  end.

Definition spec_erase l k : list obj := below k l ++ above k l.

(** What holds after a change of the tree. *)
Lemma changed_ok tb l t i nx :
  valid (kcmp (V:=V)) nkey t → NoDup (addrs t) → Forall (λ a, (a < nx)%nat) (addrs t) → n_obj <$> elements t = l → i = zlen l → zlen l <= max_objects →
  tree_ok (mk_tree t i (t_busy tb) (mk_stack [] 0) nx) l.
Proof. intros. split; try done. by left. Qed.

(** A node with a new address among the others. *)
Lemma fresh_nodup (lo hi : list node) (n : node) nx :
  NoDup (n_addr <$> lo ++ hi) → Forall (λ a, (a < nx)%nat) (n_addr <$> lo ++ hi) → n_addr n = nx →
  NoDup (n_addr <$> lo ++ n :: hi) ∧ Forall (λ a, (a < S nx)%nat) (n_addr <$> lo ++ n :: hi).
Proof.
  intros Hnd Hf E. assert (n_addr <$> lo ++ n :: hi ≡ₚ n_addr n :: (n_addr <$> lo ++ hi)) as Hp.
  { rewrite !fmap_app, fmap_cons. by rewrite Permutation_middle. }
  rewrite Hp. split.
  - constructor; [|done]. intros Hin. rewrite Forall_forall in Hf. specialize (Hf _ Hin). cbn in Hf. lia.
  - constructor; [lia|]. eapply Forall_impl; [exact Hf|]. cbn. lia.
Qed.

Lemma drop_node (lo hi : list node) (n : node) nx :
  NoDup (n_addr <$> lo ++ n :: hi) → Forall (λ a, (a < nx)%nat) (n_addr <$> lo ++ n :: hi) →
  NoDup (n_addr <$> lo ++ hi) ∧ Forall (λ a, (a < nx)%nat) (n_addr <$> lo ++ hi).
Proof.
  assert (n_addr <$> lo ++ n :: hi ≡ₚ n_addr n :: (n_addr <$> lo ++ hi)) as ->.
  { rewrite !fmap_app, fmap_cons. by rewrite Permutation_middle. }
  by intros [_ ?]%NoDup_cons [_ ?]%Forall_cons.
Qed.

Lemma sorted_replace (lo hi : list node) n n' :
  tsorted (lo ++ n :: hi) → nkey n' = nkey n → tsorted (lo ++ n' :: hi).
Proof.
  intros (Hl & Hr & Hlr)%sorted_app E. apply StronglySorted_cons in Hr as [Hn Hr]. apply sorted_app. split_and!; [done| |].
  - apply StronglySorted_cons. split; [|done]. cbn in E |- *. by rewrite E.
  - eapply Forall_impl; [exact Hlr|]. intros m [Hm Hms]%Forall_cons. constructor; [|done]. cbn in E, Hm |- *. by rewrite E.
Qed.

Lemma kcmp_self (v : V) : kcmp v v = 0.
Proof. by apply kcmp_eq. Qed.

(** The search from the root, for a table. *)
Lemma descend_ok tb l k :
  tree_ok tb l →
  ∃ this stk lo hi, descend (cmp_key k) (t_root tb) [] = Ok (this, stk) ∧ avl this ∧ avl_ctx stk (height this) ∧
    before stk = lo ∧ after stk = hi ∧ elements (t_root tb) = lo ++ elements this ++ hi ∧
    match this with
    | Null => key_split k l (n_obj <$> lo) [] (n_obj <$> hi)
    | Node tl _ n tr => cmp_key k n = 0 ∧
        key_split k l (n_obj <$> lo ++ elements tl) [n_obj n] (n_obj <$> elements tr ++ hi)
    end.
Proof.
  intros Hok. destruct (to_valid _ _ Hok) as [Havl Hs]. pose proof (tree_ok_height _ _ Hok) as Hh.
  destruct (descend_spec kcmp nkey (keyval k) (t_root tb) []) as (this & stk & lo & hi & E & Ht & Hc & Eb & Ea & Ee & Hlo & Hhi & Hk & _);
    [done|done|done|unfold STACK_NEED; cbn [length]; lia|].
  cbn [before after app] in Eb, Ea. rewrite app_nil_r in Ea. exists this, stk, lo, hi. split_and!; try done.
  rewrite <- (to_objs _ _ Hok), Ee. destruct this as [|tl b n tr]; [by apply absent_split|].
  assert (cmp_key k n = 0) as Ek by (unfold cmp_key, CMP; cbn in Hk; rewrite <- Hk; apply kcmp_self). split; [done|].
  rewrite Ee in Hs. cbn [elements] in *. rewrite <- app_assoc in Hs |- *. cbn [app] in *. rewrite app_assoc in Hs |- *. by apply node_split.
Qed.

Theorem db_put_tree_ok tb l o clash :
  tree_ok tb l → zlen l < max_objects →
  ∃ tb', db_put_tree tb o clash = Ok ((spec_put l o clash).1, tb') ∧ tree_ok tb' (spec_put l o clash).2 ∧ t_busy tb' = t_busy tb.
Proof.
  intros Hok Hmax. unfold db_put_tree, spec_put. change (t_root (reset_static_stack tb)) with (t_root tb).
  destruct (descend_ok tb l (GETKEY o) Hok) as (this & stk & lo & hi & -> & Ht & Hc & Eb & Ea & Ee & Hsp). rewrite bind_Ok.
  destruct (to_valid _ _ Hok) as [_ Hs]. pose proof (to_nodup _ _ Hok) as Hnd. pose proof (to_fresh _ _ Hok) as Hf. unfold addrs in Hnd, Hf.
  set (new := mk_node (t_next tb) o). rewrite Ee in Hs, Hnd, Hf. destruct this as [|tl b old tr].
  - destruct (key_split_parts _ _ _ _ _ Hsp) as (-> & -> & ->). cbn [t_nitems reset_static_stack set_static]. rewrite (to_items _ _ Hok).
    destruct (Z.geb_spec (zlen l + 1) TREE_MAX_ELEMENTS); [unfold TREE_MAX_ELEMENTS, max_objects in *; lia|]. unfold new_dbterm. change (t_next (reset_static_stack tb)) with (t_next tb). fold new.
    destruct (insertion_rotation_spec stk (Node Null 0 new Null) 0 true) as (t' & E & Ht' & Ee'); [done|cbn; split_and!; (done || lia)|done|by right|].
    rewrite E, bind_Ok. eexists. split; [done|]. split; [|done]. cbn [elements app] in *. rewrite Eb, Ea in Ee'.
    destruct (fresh_nodup lo hi new (t_next tb) Hnd Hf eq_refl) as [Hnd' Hf']. apply changed_ok.
    + split; [done|]. rewrite Ee'. apply (sorted_insert kcmp nkey); [done| |].
      * destruct Hsp as [_ Hl _ _]. rewrite Forall_fmap in Hl. eapply Forall_impl; [exact Hl|]. unfold at_key, CMP, compose, node_key. cbn. lia.
      * destruct Hsp as [_ _ _ Hl]. by rewrite Forall_fmap in Hl.
    + unfold addrs. by rewrite Ee'.
    + unfold addrs. by rewrite Ee'.
    + rewrite Ee'. by rewrite fmap_app.
    + cbn. rewrite (to_items _ _ Hok), (ks_eq _ _ _ _ _ Hsp). cbn [app]. rewrite !zlen_app, zlen_cons. lia.
    + rewrite (ks_eq _ _ _ _ _ Hsp) in Hmax. cbn [app] in Hmax. rewrite zlen_app in Hmax. cbn [snd]. rewrite zlen_app, zlen_cons. lia.
  - destruct Hsp as [Ek Hsp]. destruct (key_split_parts _ _ _ _ _ Hsp) as (-> & -> & ->). destruct clash; cbn [negb].
    { eexists. split; [done|]. split; [|done]. destruct Hok. by apply changed_ok. }
    unfold replace_dbterm, new_dbterm.
    destruct (insertion_rotation_spec stk (Node tl b new tr) (height (Node tl b old tr)) false) as (t' & E & Ht' & Ee'); [done|done|cbn; lia|done|].
    change (t_next (reset_static_stack tb)) with (t_next tb). fold new. rewrite E, bind_Ok. eexists. split; [done|]. split; [|done].
    rewrite Eb, Ea in Ee'. cbn [elements] in *. rewrite <- app_assoc in *. cbn [app] in *. rewrite app_assoc in *.
    destruct (drop_node _ _ _ _ Hnd Hf) as [Hnd0 Hf0]. destruct (fresh_nodup _ _ new (t_next tb) Hnd0 Hf0 eq_refl) as [Hnd' Hf'].
    apply changed_ok.
    + split; [done|]. rewrite Ee'. apply (sorted_replace _ _ old); [done|]. by apply kcmp_eq.
    + unfold addrs. by rewrite Ee'.
    + unfold addrs. by rewrite Ee'.
    + rewrite Ee'. by rewrite (fmap_app _ (lo ++ _)).
    + etransitivity; [exact (to_items _ _ Hok)|]. rewrite (ks_eq _ _ _ _ _ Hsp). cbn [app snd]. by rewrite !zlen_app, !zlen_cons.
    + rewrite (ks_eq _ _ _ _ _ Hsp) in Hmax. cbn [app snd] in *. rewrite zlen_app, zlen_cons in *. lia.
Qed.

(** ** Deletion *)

Lemma find_key_None_inv v (ln : list node) : find_key kcmp nkey v ln = None → Forall (λ n, at_key kcmp nkey v n ≠ 0) ln.
Proof.
  induction ln as [|n ln IH]; [constructor|]. cbn [find_key]. destruct (Z.eqb_spec (at_key kcmp nkey v n) 0); [done|].
  intros E. constructor; [done|by apply IH].
Qed.

Lemma linkout_tree_ok tb l k :
  tree_ok tb l →
  ∃ r tb', linkout_tree tb k = Ok (r, tb') ∧ tree_ok tb' (spec_erase l k) ∧ t_busy tb' = t_busy tb ∧
    same k l = match r with None => [] | Some n => [n_obj n] end.
Proof.
  intros Hok. unfold linkout_tree, spec_erase. change (t_root (reset_static_stack tb)) with (t_root tb).
  destruct (tree_remove_spec kcmp nkey (keyval k) (t_root tb) (to_valid _ _ Hok) (tree_ok_small _ _ Hok)) as (r & E & Hr).
  change (tree_remove (cmp_key k) (t_root tb)) with (tree_remove (at_key kcmp nkey (keyval k)) (t_root tb)). rewrite E, bind_Ok. clear E.
  destruct (find_key kcmp nkey (keyval k) (elements (t_root tb))) as [n|] eqn:Ef.
  - destruct Hr as (t' & lo & hi & -> & Hv & Ee & Ee' & Hlo & Hhi). apply (find_key_key kcmp nkey) in Ef.
    assert (cmp_key k n = 0) as Ek by (unfold cmp_key, CMP; cbn in Ef; rewrite Ef; apply kcmp_self).
    pose proof (proj2 (to_valid _ _ Hok)) as Hs. rewrite Ee in Hs. pose proof (node_split k lo n hi Hs Ek) as Hsp.
    rewrite <- Ee, (to_objs _ _ Hok) in Hsp. destruct (key_split_parts _ _ _ _ _ Hsp) as (-> & Esame & ->).
    pose proof (to_nodup _ _ Hok) as Hnd. pose proof (to_fresh _ _ Hok) as Hf. unfold addrs in Hnd, Hf. rewrite Ee in Hnd, Hf.
    destruct (drop_node _ _ _ _ Hnd Hf) as [Hnd0 Hf0].
    assert (zlen l = zlen (n_obj <$> lo) + 1 + zlen (n_obj <$> hi)) as El by (rewrite (ks_eq _ _ _ _ _ Hsp), !zlen_app; cbn; unfold zlen; cbn [length]; lia).
    exists (Some n). eexists. split; [done|]. split; [|split; done]. apply changed_ok; [done|..]; unfold addrs; rewrite ?Ee'; try done.
    + by rewrite fmap_app.
    + cbn. rewrite (to_items _ _ Hok), zlen_app. lia.
    + pose proof (to_bound _ _ Hok). rewrite zlen_app. lia.
  - subst r. apply find_key_None_inv in Ef. exists None. eexists. split; [done|].
    assert (same k l = []) as Es.
    { unfold same. rewrite <- (to_objs _ _ Hok). apply list_filter_False, Forall_fmap. exact Ef. }
    split; [|by split]. destruct (descend_ok tb l k Hok) as (this & stk & lo & hi & _ & _ & _ & _ & _ & _ & Hsp).
    assert (below k l ++ above k l = l) as ->.
    { destruct this as [|tl b n tr]; [|destruct Hsp as [_ Hsp]]; destruct (key_split_parts _ _ _ _ _ Hsp) as (-> & Es' & ->); [|by rewrite Es in Es'].
      by rewrite (ks_eq _ _ _ _ _ Hsp). }
    destruct Hok. by apply changed_ok.
Qed.

Theorem db_erase_tree_ok tb l k :
  tree_ok tb l → ∃ tb', db_erase_tree tb k = Ok tb' ∧ tree_ok tb' (spec_erase l k) ∧ t_busy tb' = t_busy tb.
Proof.
  intros Hok. unfold db_erase_tree. destruct (linkout_tree_ok tb l k Hok) as (r & tb' & -> & Hok' & Hb & _). rewrite bind_Ok. by exists tb'.
Qed.

Theorem db_take_tree_ok tb l k :
  tree_ok tb l → ∃ tb', db_take_tree tb k = Ok (same k l, tb') ∧ tree_ok tb' (spec_erase l k) ∧ t_busy tb' = t_busy tb.
Proof.
  intros Hok. unfold db_take_tree. destruct (linkout_tree_ok tb l k Hok) as (r & tb' & -> & Hok' & Hb & ->). rewrite bind_Ok. exists tb'. by destruct r.
Qed.

Definition spec_erase_object l o : list obj := filter (λ o', o' ≠ o) l.

Theorem db_erase_object_tree_ok tb l o :
  tree_ok tb l → ∃ tb', db_erase_object_tree tb o = Ok tb' ∧ tree_ok tb' (spec_erase_object l o) ∧ t_busy tb' = t_busy tb.
Proof.
  intros Hok. unfold db_erase_object_tree, linkout_object_tree. change (t_root (reset_static_stack tb)) with (t_root tb).
  destruct (descend_ok tb l (GETKEY o) Hok) as (this & stk & lo & hi & -> & _ & _ & _ & _ & _ & Hsp). rewrite bind_Ok.
  assert (tree_ok (reset_static_stack tb) l) as Hok0 by (destruct Hok; by apply changed_ok).
  assert (∀ l', Forall (λ o', CMP (GETKEY o) (GETKEY o') ≠ 0) l' → filter (λ o', o' ≠ o) l' = l') as Hall.
  { intros l' Hl. apply list_filter_True. eapply Forall_impl; [exact Hl|]. cbn. intros o' Hne ->. destruct Hne. apply kcmp_self. }
  assert (∀ eq lo hi, key_split (GETKEY o) l lo eq hi → filter (λ o', o' ≠ o) l = lo ++ filter (λ o', o' ≠ o) eq ++ hi) as Hfil.
  { intros eq lo' hi' Hs. rewrite (ks_eq _ _ _ _ _ Hs), !filter_app. f_equal; [|f_equal]; apply Hall.
    - eapply Forall_impl; [apply Hs|]. cbn. lia.
    - eapply Forall_impl; [apply Hs|]. cbn. lia. }
  unfold spec_erase_object. destruct this as [|tl b n tr].
  - rewrite bind_Ok. eexists. split; [done|]. split; [|done]. rewrite (Hfil _ _ _ Hsp), filter_nil, <- (ks_eq _ _ _ _ _ Hsp). done.
  - destruct Hsp as [_ Hsp]. destruct (key_split_parts _ _ _ _ _ Hsp) as (Eb & _ & Ea). case_bool_decide as Eo; cbn [negb].
    + destruct (linkout_tree_ok _ l (GETKEY o) Hok0) as (r & tb' & -> & Hok' & Hb & _). rewrite bind_Ok. exists tb'. split; [done|]. split; [|done].
      rewrite (Hfil _ _ _ Hsp), filter_cons_False by (intros Hne; by apply Hne). rewrite filter_nil. unfold spec_erase in Hok'. by rewrite Eb, Ea in Hok'.
    + rewrite bind_Ok. eexists. split; [done|]. split; [|done]. rewrite (Hfil _ _ _ Hsp), filter_cons_True by (intros Hne; by apply Eo).
      rewrite filter_nil, <- (ks_eq _ _ _ _ _ Hsp). done.
Qed.

End Ops.
