(* ===== verification/DbTreeUpd.v ===== *)
(** ETS ordered sets (DbTree.v): freeing a table, and updates of objects in their place. *)
From stdpp Require Import sorting.
From S2P Require Import Prelude Avl DbHash DbTree DbTreePath DbTreeOps.
#[local] Open Scope Z_scope.

(** * Freeing *)

Section Free.
Context {obj : Type}.
Abbreviation node := (TreeDbTerm obj).
Implicit Types (t root : tree node) (stk : list (tree node)).

(** What is still to be freed, in the order it will be. *)
Definition pending root stk : list node := postorder root ++ concat (postorder <$> stk).

(** The nodes on the stack leave room for what is pushed on top of them. *)
Fixpoint room stk : Prop :=
  match stk with
  | [] => True
  | t :: stk => t ≠ Null ∧ Z.of_nat (length stk) + height t <= 45 ∧ room stk
  end.

(** The steps that are left at most. *)
Definition steps_left root stk : Z :=
  4 * zlen (pending root stk) - 2 * (Z.of_nat (length stk)) - match root with Null => -1 | Node _ _ _ _ => 2 end.

Lemma zlen_postorder_node (l : tree node) b n r : zlen (postorder (Node l b n r)) = zlen (postorder l) + zlen (postorder r) + 1.
Proof. cbn [postorder]. rewrite !zlen_app, zlen_cons, zlen_nil. lia. Qed.

Lemma pending_zlen root stk : room stk → Z.of_nat (length stk) <= zlen (concat (postorder <$> stk)).
Proof.
  induction stk as [|t stk IH]; intros Hr; [done|]. destruct Hr as (Hne & _ & Hr). cbn [length fmap list_fmap concat]. rewrite zlen_app. specialize (IH Hr).
  destruct (tree_case t) as [?|(l & b & n & r & ->)]; [done|]. rewrite zlen_postorder_node.
  pose proof (zlen_nonneg (postorder l)). pose proof (zlen_nonneg (postorder r)). lia.
Qed.

Lemma do_free_tree_cont_ok fuel root stk num :
  room stk → Z.of_nat (length stk) + height root <= 45 → 0 < num → steps_left root stk < Z.of_nat fuel →
  ∃ done stk' l, do_free_tree_cont fuel root stk num = Ok (done, stk', l) ∧ pending root stk = l ++ concat (postorder <$> stk') ∧
    room stk' ∧ if (done : bool) then stk' = [] else l ≠ [].
Proof.
  revert root stk num. induction fuel as [|fuel IH]; intros root stk num Hroom Hh Hnum Hf.
  { exfalso. pose proof (pending_zlen root stk Hroom). unfold steps_left, pending in Hf. rewrite zlen_app in Hf.
    destruct (tree_case root) as [->|(l & b & n & r & ->)]; [cbn [postorder] in Hf; rewrite zlen_nil in Hf; lia|]. rewrite zlen_postorder_node in Hf.
    pose proof (zlen_nonneg (postorder l)). pose proof (zlen_nonneg (postorder r)). lia. }
  assert (∀ t stk, (Z.of_nat (length stk) < 50) → (if (length stk <? STACK_NEED)%nat then Ok (t :: stk) else Fault) = Ok (t :: stk)) as Hpush.
  { intros t stk' Hl. unfold STACK_NEED. by rewrite (proj2 (Nat.ltb_lt _ _)) by lia. }
  cbn [do_free_tree_cont]. destruct root as [|l b n r].
  - destruct stk as [|t stk]; [by exists true, [], []|]. destruct Hroom as (Hne & Ht & Hroom). destruct t as [|tl tb tn tr]; [done|].
    destruct (IH (Node tl tb tn tr) stk num) as (dn & stk' & fr & E & Hp & Hr' & Hd); [done|done|done| |by exists dn, stk', fr].
    revert Hf. unfold steps_left. cbn [length]. unfold pending. cbn. lia.
  - pose proof (height_nonneg l). pose proof (height_nonneg r). cbn [height] in Hh. destruct l as [|ll lb ln lr].
    + destruct r as [|rl rb rn rr].
      * destruct (Z.gtb_spec (num - 1) 0).
        -- destruct (IH Null stk (num - 1)) as (dn & stk' & fr & E & Hp & Hr' & Hd); [done|cbn [height]; lia|lia| |].
           { revert Hf. unfold steps_left, pending. cbn. rewrite zlen_cons. lia. }
           rewrite E, bind_Ok. exists dn, stk', (n :: fr). split_and!; [done| |done|by destruct dn].
           unfold pending in *. cbn [postorder app] in *. by rewrite Hp.
        -- by exists false, stk, [n].
      * rewrite Hpush by lia. rewrite bind_Ok. set (r := Node rl rb rn rr) in *.
        destruct (IH r (Node Null b n Null :: stk) num) as (dn & stk' & fr & E & Hp & Hr' & Hd);
          [cbn [room height]; split_and!; [done|lia|done]|cbn [length]; lia|done| |].
        { revert Hf. unfold steps_left, pending. cbn [length]. cbn. rewrite !zlen_app, !zlen_cons, !zlen_nil. subst r. cbn [height] in *. lia. }
        exists dn, stk', fr. split_and!; [done| |done|done]. rewrite <- Hp. unfold pending. cbn. by rewrite <- app_assoc.
    + set (l := Node ll lb ln lr) in *. rewrite Hpush by lia. rewrite bind_Ok.
      destruct (IH l (Node Null b n r :: stk) num) as (dn & stk' & fr & E & Hp & Hr' & Hd);
        [cbn [room height]; split_and!; [done|lia|done]|cbn [length]; lia|done| |].
      { revert Hf. unfold steps_left, pending. cbn [length]. cbn [postorder concat fmap list_fmap app]. rewrite !zlen_app. subst l. cbn [postorder]. lia. }
      exists dn, stk', fr. split_and!; [done| |done|done]. rewrite <- Hp. unfold pending. cbn [postorder concat fmap list_fmap app]. by rewrite <- !app_assoc.
Qed.

(** Every node of a table is freed, exactly once. *)
Lemma free_table_loop_ok calls fuel stk :
  room stk → zlen (concat (postorder <$> stk)) < Z.of_nat calls → 4 * zlen (concat (postorder <$> stk)) + 1 < Z.of_nat fuel →
  free_table_loop calls fuel stk = Ok (concat (postorder <$> stk)).
Proof.
  revert stk. induction calls as [|calls IH]; intros stk Hroom Hc Hf; [pose proof (zlen_nonneg (concat (postorder <$> stk))); lia|].
  cbn [free_table_loop].
  destruct (do_free_tree_cont_ok fuel Null stk DELETE_RECORD_LIMIT Hroom) as (dn & stk' & l & -> & Hp & Hr' & Hd).
  - destruct stk as [|t stk]; [done|]. destruct Hroom as (Hne & Ht & _).
    destruct (tree_case t) as [?|(tl & b & n & tr & ->)]; [done|]. cbn [length height] in *. pose proof (height_nonneg tl). pose proof (height_nonneg tr). lia.
  - done.
  - unfold steps_left, pending. cbn [postorder app]. lia.
  - rewrite bind_Ok. unfold pending in Hp. cbn [postorder app] in Hp. rewrite Hp in Hc, Hf |- *. destruct dn.
    + subst stk'. cbn. by rewrite app_nil_r.
    + assert (0 < zlen l) by (destruct l; [done|]; rewrite zlen_cons; pose proof (zlen_nonneg l); lia).
      rewrite zlen_app in Hc, Hf. rewrite IH, bind_Ok; [done|done|lia|lia].
Qed.

(** A table is freed, every node exactly once, within the calls and steps allowed. *)
Lemma db_free_table_tree_ok (tb : DbTableTree obj) : avl (t_root tb) → zlen (elements (t_root tb)) < 2 ^ 32 → db_free_table_tree tb = Ok (postorder (t_root tb)).
Proof.
  intros Havl Hz. pose proof (avl_height _ Havl Hz) as Hh. unfold db_free_table_tree, free_fuel.
  destruct (tree_case (t_root tb)) as [->|(l & b & n & r & E)]; [done|].
  assert (zlen (postorder (t_root tb)) = zlen (elements (t_root tb))) as Ez by (unfold zlen; by rewrite postorder_elements).
  rewrite free_table_loop_ok; [cbn [fmap list_fmap concat]; by rewrite app_nil_r|..].
  - cbn [room length]. split_and!; [by rewrite E|lia|done].
  - cbn [fmap list_fmap concat]. rewrite app_nil_r, Ez. unfold zlen. lia.
  - cbn [fmap list_fmap concat]. rewrite app_nil_r, Ez. unfold zlen. lia.
Qed.

End Free.

Section Ops.
Context {term obj V : Type} `{DbTerms term obj} `{TermOrder term V} `{!KeyCmp V kcmp}.
Abbreviation table := (DbTableTree obj).
Abbreviation nkey := (λ n : TreeDbTerm obj, keyval (node_key n)).
Abbreviation tsorted := (sorted (kcmp (V:=V)) nkey).
Implicit Types (tb : table) (n x y : TreeDbTerm obj) (t this root : tree (TreeDbTerm obj)) (s : DbTreeStack) (key k : term) (d : dir) (o : obj) (l : list obj).

Lemma db_create_tree_ok tb : tree_ok (set_nitems (db_create_tree tb) 0) [].
Proof. split; try constructor; cbn; (done || constructor). Qed.

Theorem db_delete_all_objects_tree_ok tb l :
  tree_ok tb l → ∃ tb', db_delete_all_objects_tree tb = Ok tb' ∧ tree_ok tb' [] ∧ t_busy tb' = false.
Proof.
  intros Hok. unfold db_delete_all_objects_tree.
  rewrite db_free_table_tree_ok, bind_Ok by (apply Hok || by eapply tree_ok_small). eexists. split; [done|]. split; [apply db_create_tree_ok|done].
Qed.

(** * Updates *)

(** Trees of the same shape with the same addresses. *)
Fixpoint same_addrs t t' : Prop :=
  match t, t' with
  | Null, Null => True
  | Node l _ n r, Node l' _ n' r' => n_addr n = n_addr n' ∧ same_addrs l l' ∧ same_addrs r r'
  | _, _ => False
  end.

Lemma same_addrs_refl t : same_addrs t t.
Proof. induction t; cbn; auto. Qed.

Lemma same_addrs_addrs t t' : same_addrs t t' → addrs t = addrs t'.
Proof.
  unfold addrs. revert t'. induction t as [|l IHl b n r IHr]; intros [|l' b' n' r']; cbn; try done.
  intros (E & Hl & Hr). rewrite !fmap_app, !fmap_cons. by rewrite (IHl _ Hl), (IHr _ Hr), E.
Qed.

Lemma same_addrs_length t t' : same_addrs t t' → length (elements t) = length (elements t').
Proof. intros E%same_addrs_addrs%(f_equal length). unfold addrs in E. by rewrite !length_fmap in E. Qed.

Lemma same_addrs_plug_all stk t root' :
  same_addrs (plug_all stk t) root' →
  ∃ stk' t', root' = plug_all stk' t' ∧ same_addrs t t' ∧ frame_addrs stk = frame_addrs stk' ∧ length (before stk) = length (before stk').
Proof.
  revert t. induction stk as [|f stk IH]; intros t Hs; cbn [plug_all] in Hs; [by exists [], root'|].
  destruct (IH _ Hs) as (stk' & p & -> & Hp & Ea & El). destruct f as [b n r|l b n]; destruct p as [|l' b' n' r']; cbn [plug same_addrs] in Hp; try done;
    destruct Hp as (E & Hl & Hr).
  - exists (InLeft b' n' r' :: stk'), l'. cbn. split_and!; [done|done|by rewrite E; f_equal|done].
  - exists (InRight l' b' n' :: stk'), r'. cbn. split_and!; [done|done|by rewrite E; f_equal|].
    rewrite !length_app, El. cbn. by rewrite (same_addrs_length _ _ Hl).
Qed.

(** The static stack is good for another tree with the same addresses. *)
Lemma same_addrs_stack root root' s : same_addrs root root' → stack_ok root s → stack_ok root' s.
Proof.
  intros Hs [->|(this & pre & x & post & (stk & l & b & r & -> & <- & Earr & -> & ->) & Hsl)]; [by left|right].
  destruct (same_addrs_plug_all _ _ _ Hs) as (stk' & [|l' b' x' r'] & -> & Ht & Ea & El); [done|]. cbn [same_addrs] in Ht. destruct Ht as (E & Hl & _).
  exists (Node l' b' x' r'), (before stk' ++ elements l'), x', (elements r' ++ after stk'). split.
  - exists stk', l', b', r'. split_and!; [done|done| |done|done]. by rewrite Earr, Ea, E.
  - unfold zlen in *. rewrite length_app in *. by rewrite <- El, <- (same_addrs_length _ _ Hl).
Qed.

(** The node at the end of a way from the root is replaced. *)
Lemma set_at_ok p n' t :
  match get_at p t with
  | Null => True
  | Node _ _ n _ => ∃ lo hi, elements t = lo ++ n :: hi ∧ elements (set_at p n' t) = lo ++ n' :: hi ∧
      height (set_at p n' t) = height t ∧ (avl t → avl (set_at p n' t)) ∧ (n_addr n' = n_addr n → same_addrs t (set_at p n' t))
  end.
Proof.
  revert t. induction p as [|d p IH]; intros [|l b m r]; cbn [get_at child]; try done.
  { exists (elements l), (elements r). cbn. split_and!; try done. intros E. split_and!; [done|apply same_addrs_refl..]. }
  { assert (∀ p, get_at p (Null : tree (TreeDbTerm obj)) = Null) as Hn by (intros q; induction q; cbn; auto). by rewrite Hn. }
  destruct d.
  - specialize (IH l). destruct (get_at p l) as [|? ? n ?]; [done|]. destruct IH as (lo & hi & E & E' & Eh & Ha & Hs).
    exists lo, (hi ++ m :: elements r). cbn. rewrite E, E', Eh. rewrite <- !app_assoc. cbn. split_and!; try done.
    + intros (? & ? & ? & ?). split_and!; (lia || auto).
    + intros En. split_and!; [done|by apply Hs|apply same_addrs_refl].
  - specialize (IH r). destruct (get_at p r) as [|? ? n ?]; [done|]. destruct IH as (lo & hi & E & E' & Eh & Ha & Hs).
    exists (elements l ++ m :: lo), hi. cbn. rewrite E, E', Eh. rewrite <- !app_assoc. cbn. split_and!; try done.
    + intros (? & ? & ? & ?). split_and!; (lia || auto).
    + intros En. split_and!; [done|apply same_addrs_refl|by apply Hs].
Qed.

Lemma get_at_null (p : list dir) : get_at p (Null : tree (TreeDbTerm obj)) = Null.
Proof. induction p; cbn; auto. Qed.

(** The way to the node with the key, as the search of [find_from] goes it. *)
Lemma find_node2_ok k t :
  match find_node2 k t with
  | None => find_from k t = Null
  | Some p => get_at p t = find_from k t ∧ find_from k t ≠ Null
  end.
Proof.
  induction t as [|l IHl b n r IHr]; [done|]. cbn [find_node2 find_from]. destruct (cmp_key k n =? 0); cbn [negb]; [done|].
  destruct (cmp_key k n <? 0).
  - destruct (find_node2 k l); cbn; done.
  - destruct (find_node2 k r); cbn; done.
Qed.

Lemma get_set_at p n' t tl b n tr : get_at p t = Node tl b n tr → get_at p (set_at p n' t) = Node tl b n' tr.
Proof.
  revert t. induction p as [|d p IH]; intros [|l0 b0 m r0]; cbn [get_at set_at child]; try done.
  - by intros [= -> -> -> ->].
  - by rewrite get_at_null.
  - destruct d; cbn [get_at child]; apply IH.
Qed.

(** The object with the key is replaced by one of the same key. *)
Definition replaced k o l : list obj := below k l ++ o :: above k l.

Lemma replaced_split k o l : CMP k (GETKEY o) = 0 → key_split k (replaced k o l) (below k l) [o] (above k l).
Proof.
  intros E. split; [done| |by constructor|].
  - apply Forall_forall. intros o' Ho. apply list_elem_of_filter in Ho. apply Ho.
  - apply Forall_forall. intros o' Ho. apply list_elem_of_filter in Ho. apply Ho.
Qed.

Lemma replaced_twice k o o' l : CMP k (GETKEY o) = 0 → replaced k o' (replaced k o l) = replaced k o' l.
Proof. intros E. unfold replaced at 1. by destruct (key_split_parts _ _ _ _ _ (replaced_split k o l E)) as (-> & _ & ->). Qed.

Lemma replaced_same k o l : same k l = [o] → (∃ lo eq hi, key_split k l lo eq hi) → replaced k o l = l.
Proof.
  intros Es (lo & eq & hi & Hsp). unfold replaced. destruct (key_split_parts _ _ _ _ _ Hsp) as (-> & Es' & ->).
  rewrite Es in Es'. subst eq. by rewrite (ks_eq _ _ _ _ _ Hsp).
Qed.

Lemma tree_key_split tb l k : tree_ok tb l → ∃ lo eq hi, key_split k l lo eq hi.
Proof.
  intros Hok. destruct (descend_ok tb l k Hok) as ([|? ? n ?] & stk & lo & hi & _ & _ & _ & _ & _ & _ & Hsp); [|destruct Hsp as [_ Hsp]]; eauto.
Qed.

(** What the replacement of a node does to a table, apart from addresses. *)
Lemma set_at_table tb l k p tl b n tr n' :
  tree_ok tb l → get_at p (t_root tb) = Node tl b n tr → cmp_key k n = 0 → nkey n' = nkey n →
  ∃ lo hi, elements (t_root tb) = lo ++ n :: hi ∧ elements (set_at p n' (t_root tb)) = lo ++ n' :: hi ∧
    valid (kcmp (V:=V)) nkey (set_at p n' (t_root tb)) ∧ n_obj <$> elements (set_at p n' (t_root tb)) = replaced k (n_obj n') l ∧
    zlen (replaced k (n_obj n') l) = zlen l ∧ same k l = [n_obj n].
Proof.
  intros Hok E Ek En. pose proof (set_at_ok p n' (t_root tb)) as Hset. rewrite E in Hset. destruct Hset as (lo & hi & Ee & Ee' & _ & Ha & _).
  exists lo, hi. destruct (to_valid _ _ Hok) as [Havl Hs]. rewrite Ee in Hs. pose proof (node_split k lo n hi Hs Ek) as Hsp.
  rewrite <- Ee, (to_objs _ _ Hok) in Hsp. destruct (key_split_parts _ _ _ _ _ Hsp) as (Eb & Es & Ea). unfold replaced. rewrite Eb, Ea.
  split_and!; [done|done| | | |done].
  - split; [auto|]. rewrite Ee'. by eapply sorted_replace.
  - rewrite Ee'. by rewrite fmap_app.
  - rewrite (ks_eq _ _ _ _ _ Hsp). cbn [app]. by rewrite !zlen_app, !zlen_cons.
Qed.

Lemma store_in_place tb l k p tl b n tr o :
  tree_ok tb l → get_at p (t_root tb) = Node tl b n tr → cmp_key k n = 0 → keyval (GETKEY o) = nkey n →
  tree_ok (set_root tb (set_at p (mk_node (n_addr n) o) (t_root tb))) (replaced k o l).
Proof.
  intros Hok E Ek En. destruct (set_at_table tb l k p tl b n tr (mk_node (n_addr n) o) Hok E Ek En) as (lo & hi & Ee & Ee' & Hv & Ho & Hz & _). cbn [n_obj] in Ho, Hz.
  pose proof (set_at_ok p (mk_node (n_addr n) o) (t_root tb)) as Hset. rewrite E in Hset. destruct Hset as (_ & _ & _ & _ & _ & _ & Hs).
  specialize (Hs eq_refl). split; cbn [t_root set_root t_nitems t_static t_next]; try done.
  - rewrite <- (same_addrs_addrs _ _ Hs). apply Hok.
  - rewrite <- (same_addrs_addrs _ _ Hs). apply Hok.
  - rewrite Hz. apply Hok.
  - rewrite Hz. apply Hok.
  - eapply same_addrs_stack; [exact Hs|apply Hok].
Qed.

Lemma store_resized tb l k p tl b n tr o :
  tree_ok tb l → get_at p (t_root tb) = Node tl b n tr → cmp_key k n = 0 → keyval (GETKEY o) = nkey n →
  tree_ok (reset_static_stack (set_root (set_next_addr tb (S (t_next tb))) (set_at p (mk_node (t_next tb) o) (t_root tb)))) (replaced k o l).
Proof.
  intros Hok E Ek En. destruct (set_at_table tb l k p tl b n tr (mk_node (t_next tb) o) Hok E Ek En) as (lo & hi & Ee & Ee' & Hv & Ho & Hz & _). cbn [n_obj] in Ho, Hz.
  pose proof (to_nodup _ _ Hok) as Hnd. pose proof (to_fresh _ _ Hok) as Hf. unfold addrs in Hnd, Hf. rewrite Ee in Hnd, Hf.
  destruct (drop_node _ _ _ _ Hnd Hf) as [Hnd0 Hf0]. destruct (fresh_nodup _ _ (mk_node (t_next tb) o) (t_next tb) Hnd0 Hf0 eq_refl) as [Hnd' Hf'].
  apply changed_ok; [done|unfold addrs; cbn [t_root set_root]; by rewrite Ee'..|done| |].
  - rewrite Hz. apply Hok.
  - rewrite Hz. apply Hok.
Qed.

(** What a function of erl_db.c does with a handle: [f] is its update, or nothing if it fails. *)
Definition update_term tb k (default : option obj) (f : obj → option obj) (resize : bool) : res (bool * table) :=
  '(r, tb) ← db_lookup_dbterm_tree tb k default;
  match r with
  | None => Ok (false, tb)
  | Some h =>
      n ← handle_node tb h;
      match f (n_obj n) with
      | Some o =>
          tb ← handle_store tb h o;
          tb ← db_finalize_dbterm_tree DB_ERROR_NONE resize h tb;
          Ok (true, tb)
      | None => tb ← db_finalize_dbterm_tree DB_ERROR_BADITEM resize h tb; Ok (false, tb)
      end
  end.

Definition spec_update l k (default : option obj) (f : obj → option obj) : bool * list obj :=
  match same k l, default with
  | o :: _, _ => match f o with Some o => (true, replaced k o l) | None => (false, l) end
  | [], Some o => match f (set_key o k) with Some o => (true, replaced k o l) | None => (false, l) end
  | [], None => (false, l)
  end.

(** The end of an update of the node that the handle leads to. *)
Lemma tree_finalize_ok tb l k p tl b n tr resize :
  tree_ok tb l → get_at p (t_root tb) = Node tl b n tr → cmp_key k n = 0 → ∀ cret is_new,
  (is_new && negb (match cret with DB_ERROR_NONE => true | _ => false end) = false) →
  ∃ tb', db_finalize_dbterm_tree cret resize (mk_handle p is_new) tb = Ok tb' ∧ tree_ok tb' l ∧ t_busy tb' = t_busy tb.
Proof.
  intros Hok E Ek cret is_new Hc. unfold db_finalize_dbterm_tree, handle_node. cbn [h_bp h_new_object]. rewrite E, bind_Ok, Hc.
  destruct resize; [|by exists tb]. cbn [new_dbterm]. eexists. split; [done|]. split; [|done].
  change (t_root (set_next_addr tb _)) with (t_root tb).
  destruct (set_at_table tb l k p tl b n tr n Hok E Ek eq_refl) as (_ & _ & _ & _ & _ & _ & _ & Es).
  rewrite <- (replaced_same k (n_obj n) l Es (tree_key_split tb l k Hok)) at 1. by apply (store_resized tb l k p tl b n tr).
Qed.

Lemma update_found tb l k p tl b n tr f resize is_new :
  tree_ok tb l → get_at p (t_root tb) = Node tl b n tr → cmp_key k n = 0 → (∀ o o', f o = Some o' → GETKEY o' = GETKEY o) →
  match f (n_obj n) with
  | Some o => ∃ tb', (tb ← handle_store tb (mk_handle p is_new) o; tb ← db_finalize_dbterm_tree DB_ERROR_NONE resize (mk_handle p is_new) tb; Ok (true, tb)) = Ok (true, tb') ∧
      tree_ok tb' (replaced k o l) ∧ t_busy tb' = t_busy tb
  | None => is_new = false → ∃ tb', (tb ← db_finalize_dbterm_tree DB_ERROR_BADITEM resize (mk_handle p is_new) tb; Ok (false, tb)) = Ok (false, tb') ∧
      tree_ok tb' l ∧ t_busy tb' = t_busy tb
  end.
Proof.
  intros Hok E Ek Hf. destruct (f (n_obj n)) as [o|] eqn:Ef.
  - apply Hf in Ef. assert (keyval (GETKEY o) = nkey n) as En by (cbn; unfold node_key; by rewrite Ef).
    unfold handle_store, handle_node. cbn [h_bp]. rewrite E, !bind_Ok.
    pose proof (store_in_place tb l k p tl b n tr o Hok E Ek En) as Hok1.
    destruct (tree_finalize_ok _ _ k p tl b (mk_node (n_addr n) o) tr resize Hok1) with (cret := DB_ERROR_NONE) (is_new := is_new) as (tb' & -> & Hok' & Hb).
    + cbn [t_root set_root]. by eapply get_set_at.
    + unfold cmp_key, node_key in *. cbn. by rewrite Ef.
    + by destruct is_new.
    + rewrite bind_Ok. by exists tb'.
  - intros ->. destruct (tree_finalize_ok tb l k p tl b n tr resize Hok E Ek DB_ERROR_BADITEM false eq_refl) as (tb' & -> & Hok' & Hb). rewrite bind_Ok. by exists tb'.
Qed.

Lemma find_node2_found tb l k o :
  tree_ok tb l → same k l = [o] →
  ∃ p tl b n tr, find_node2 k (t_root tb) = Some p ∧ get_at p (t_root tb) = Node tl b n tr ∧ cmp_key k n = 0 ∧ n_obj n = o.
Proof.
  intros Hok Es. pose proof (find_node2_ok k (t_root tb)) as Hp. pose proof (find_from_ok tb l k Hok) as Hf.
  pose proof (find_from_elem k _ (proj2 (to_valid _ _ Hok))) as He.
  destruct (find_from k (t_root tb)) as [|tl b n tr]; [by rewrite Es in Hf|]. rewrite Es in Hf. injection Hf as ->. destruct He as [_ Hk].
  destruct (find_node2 k (t_root tb)) as [p|]; [|done]. destruct Hp as [Hp _]. by exists p, tl, b, n, tr.
Qed.

Theorem tree_update_ok tb l k default f resize :
  tree_ok tb l → zlen l < max_objects → (∀ o o', f o = Some o' → GETKEY o' = GETKEY o) → (∀ o, GETKEY (set_key o k) = k) →
  ∃ tb', update_term tb k default f resize = Ok ((spec_update l k default f).1, tb') ∧ tree_ok tb' (spec_update l k default f).2 ∧ t_busy tb' = t_busy tb.
Proof.
  intros Hok Hmax Hf Hset. unfold update_term, spec_update, db_lookup_dbterm_tree.
  destruct (same k l) as [|o eq] eqn:Es.
  - assert (find_node2 k (t_root tb) = None) as ->.
    { pose proof (find_node2_ok k (t_root tb)) as Hp. pose proof (find_from_ok tb l k Hok) as Hff. destruct (find_node2 k (t_root tb)); [|done].
      destruct Hp as [_ Hp]. destruct (find_from k (t_root tb)); [done|]. by rewrite Es in Hff. }
    destruct default as [o|]; [|rewrite bind_Ok; by exists tb]. set (o1 := set_key o k).
    destruct (db_put_tree_ok tb l o1 true Hok Hmax) as (tb1 & E1 & Hok1 & Hb1). unfold spec_put in *. unfold o1 in Hok1, E1. rewrite Hset, Es in *. fold o1 in Hok1, E1.
    cbn [fst snd] in *. fold (replaced k o1 l) in Hok1. rewrite E1, bind_Ok.
    assert (CMP k (GETKEY o1) = 0) as Ek1 by (unfold o1; rewrite Hset; apply kcmp_self).
    destruct (key_split_parts _ _ _ _ _ (replaced_split k o1 l Ek1)) as (Ebl & Esm & Eab).
    destruct (find_node2_found tb1 _ k o1 Hok1 Esm) as (p & tl & b & n & tr & -> & Eg & Ek & En). rewrite bind_Ok.
    unfold handle_node at 1. cbn [h_bp]. rewrite Eg, bind_Ok.
    pose proof (update_found tb1 _ k p tl b n tr f resize true Hok1 Eg Ek Hf) as Hu. rewrite En in Hu |- *.
    destruct (f o1) as [o2|].
    + destruct Hu as (tb' & -> & Hok' & Hb). exists tb'. split; [done|]. cbn [fst snd]. split; [by rewrite replaced_twice in Hok'|congruence].
    + unfold db_finalize_dbterm_tree, handle_node. cbn [h_bp h_new_object andb negb]. rewrite Eg, bind_Ok.
      destruct (db_erase_tree_ok tb1 _ (node_key n) Hok1) as (tb' & -> & Hok' & Hb). rewrite bind_Ok. exists tb'. split; [done|]. cbn [fst snd].
      split; [|congruence]. unfold node_key, spec_erase in Hok'. rewrite En in Hok'. unfold o1 in Hok' at 1 3. rewrite !Hset, Ebl, Eab in Hok'.
      destruct (tree_key_split tb l k Hok) as (lo & eq & hi & Hsp). destruct (key_split_parts _ _ _ _ _ Hsp) as (E2 & E3 & E4). rewrite Es in E3. subst eq.
      rewrite E2, E4 in Hok'. by rewrite (ks_eq _ _ _ _ _ Hsp).
  - assert (same k l = [o]) as Es1.
    { pose proof (find_from_ok tb l k Hok) as Hff. rewrite Es in Hff. destruct (find_from k (t_root tb)); [done|]. injection Hff as -> ->. done. }
    destruct (find_node2_found tb _ k o Hok Es1) as (p & tl & b & n & tr & -> & Eg & Ek & En). rewrite bind_Ok.
    unfold handle_node at 1. cbn [h_bp]. rewrite Eg, bind_Ok.
    pose proof (update_found tb _ k p tl b n tr f resize false Hok Eg Ek Hf) as Hu. rewrite En in Hu |- *.
    destruct (f o) as [o2|].
    + destruct Hu as (tb' & -> & Hok' & Hb). by exists tb'.
    + destruct Hu as (tb' & -> & Hok' & Hb); [done|]. by exists tb'.
Qed.

End Ops.
