(* ===== verification/DbTreeProps.v ===== *)
(** ETS ordered sets (DbTree.v): the properties of a table over its whole life.

    A history of operations on a new table has the results of a sorted list of objects:
    neither the balance of the tree nor the stack of nodes that one operation leaves to the
    next can be seen, whether or not the stack is free. *)
From stdpp Require Import sorting.
From S2P Require Import Prelude Avl DbHash DbTree DbTreePath DbTreeOps DbTreeUpd.
#[local] Open Scope Z_scope.

(** * Histories *)

Inductive tree_op (term obj : Type) :=
| Put (o : obj) (key_clash_fail : bool)
| Get (k : term)
| Member (k : term)
| Element (k : term) (ndex : Z)
| First
| Last
| Next (k : term)
| Prev (k : term)
| Slot (i : Z)
| Erase (k : term)
| EraseObject (o : obj)
| Take (k : term)
| Update (k : term) (default : option obj) (f : obj → option obj) (must_resize : bool)
| DeleteAll
| Busy (b : bool)
| Size.
Arguments Put {term obj} _ _.
Arguments Get {term obj} _.
Arguments Member {term obj} _.
Arguments Element {term obj} _ _.
Arguments First {term obj}.
Arguments Last {term obj}.
Arguments Next {term obj} _.
Arguments Prev {term obj} _.
Arguments Slot {term obj} _.
Arguments Erase {term obj} _.
Arguments EraseObject {term obj} _.
Arguments Take {term obj} _.
Arguments Update {term obj} _ _ _ _.
Arguments DeleteAll {term obj}.
Arguments Busy {term obj} _.
Arguments Size {term obj}.

Inductive tree_out (term obj : Type) :=
| OErr (e : db_error)
| OObjs (l : list obj)
| OTerm (e : db_error) (t : term)
| OElem (e : db_error) (t : option term)
| OSlot (e : db_error) (l : option (list obj))
| OBool (b : bool)
| ODone
| OSize (n : Z).
Arguments OErr {term obj} _.
Arguments OObjs {term obj} _.
Arguments OTerm {term obj} _ _.
Arguments OElem {term obj} _ _.
Arguments OSlot {term obj} _ _.
Arguments OBool {term obj} _.
Arguments ODone {term obj}.
Arguments OSize {term obj} _.

Section Props.
Context {term obj V : Type} `{DbTerms term obj} `{TermOrder term V}.
Abbreviation table := (DbTableTree obj).
Abbreviation op := (tree_op term obj).
Abbreviation out := (tree_out term obj).
Implicit Types (tb : table) (k : term) (o : obj) (l : list obj) (ops : list op).

(** [Busy]: another reader takes the static stack, or gives it back. *)
Definition step tb (p : op) : res (out * table) :=
  match p with
  | Put o clash => '(e, tb) ← db_put_tree tb o clash; Ok (OErr e, tb)
  | Get k => '(l, tb) ← db_get_tree tb k; Ok (OObjs l, tb)
  | Member k => '(b, tb) ← db_member_tree tb k; Ok (OBool b, tb)
  | Element k n => '(e, t, tb) ← db_get_element_tree tb k n; Ok (OElem e t, tb)
  | First => '(t, tb) ← db_first_tree tb; Ok (OTerm DB_ERROR_NONE t, tb)
  | Last => '(t, tb) ← db_last_tree tb; Ok (OTerm DB_ERROR_NONE t, tb)
  | Next k => '(e, t, tb) ← db_next_tree tb k; Ok (OTerm e t, tb)
  | Prev k => '(e, t, tb) ← db_prev_tree tb k; Ok (OTerm e t, tb)
  | Slot i => '(e, l, tb) ← db_slot_tree tb i; Ok (OSlot e l, tb)
  | Erase k => tb ← db_erase_tree tb k; Ok (ODone, tb)
  | EraseObject o => tb ← db_erase_object_tree tb o; Ok (ODone, tb)
  | Take k => '(l, tb) ← db_take_tree tb k; Ok (OObjs l, tb)
  | Update k d f resize => '(b, tb) ← update_term tb k d f resize; Ok (OBool b, tb)
  | DeleteAll => tb ← db_delete_all_objects_tree tb; Ok (ODone, tb)
  | Busy b => Ok (ODone, set_busy tb b)
  | Size => Ok (OSize (t_nitems tb), tb)
  end.

Fixpoint steps tb ops : res (list out * table) :=
  match ops with
  | [] => Ok ([], tb)
  | p :: ops => '(r, tb) ← step tb p; '(rs, tb) ← steps tb ops; Ok (r :: rs, tb)
  end.

Definition new_table : table := db_create_tree (mk_tree Null 0 false (mk_stack [] 0) 0).

(** ** The list *)

(** What a table promises: the objects are a list that is sorted by their keys. *)
Definition list_step l (p : op) : out * list obj :=
  match p with
  | Put o clash => let '(e, l) := spec_put l o clash in (OErr e, l)
  | Get k => (OObjs (same k l), l)
  | Member k => (OBool (negb (bool_decide (same k l = []))), l)
  | Element k n => let '(e, t) := spec_element (same k l) n in (OElem e t, l)
  | First => (OTerm DB_ERROR_NONE (key_or_end (head l)), l)
  | Last => (OTerm DB_ERROR_NONE (key_or_end (last l)), l)
  | Next k =>
      if bool_decide (k = am_EOT) then (OTerm DB_ERROR_BADKEY am_EOT, l)
      else (OTerm DB_ERROR_NONE (key_or_end (head (above k l))), l)
  | Prev k =>
      if bool_decide (k = am_EOT) then (OTerm DB_ERROR_BADKEY am_EOT, l)
      else (OTerm DB_ERROR_NONE (key_or_end (last (below k l))), l)
  | Slot i =>
      if (i <? 0) || (i >? zlen l) then (OSlot DB_ERROR_BADPARAM None, l)
      else (OSlot DB_ERROR_NONE ((λ o, [o]) <$> l !! Z.to_nat i), l)
  | Erase k => (ODone, spec_erase l k)
  | EraseObject o => (ODone, spec_erase_object l o)
  | Take k => (OObjs (same k l), spec_erase l k)
  | Update k d f _ => let '(b, l) := spec_update l k d f in (OBool b, l)
  | DeleteAll => (ODone, [])
  | Busy _ => (ODone, l)
  | Size => (OSize (zlen l), l)
  end.

Fixpoint list_steps l ops : list out * list obj :=
  match ops with
  | [] => ([], l)
  | p :: ops => let '(r, l) := list_step l p in let '(rs, l) := list_steps l ops in (r :: rs, l)
  end.

(** The functions of an update keep the key, and so does the default object. *)
Definition op_ok (p : op) : Prop :=
  match p with
  | Update k _ f _ => (∀ o o', f o = Some o' → GETKEY o' = GETKEY o) ∧ ∀ o, GETKEY (set_key o k) = k
  | _ => True
  end.

(** ** Refinement *)

Context `{!KeyCmp V kcmp}.

Lemma tree_ok_busy tb l b : tree_ok tb l → tree_ok (set_busy tb b) l.
Proof. intros Hok. by destruct Hok; split. Qed.

Lemma zlen_filter (P : obj → Prop) `{∀ o, Decision (P o)} l : zlen (filter P l) <= zlen l.
Proof. unfold zlen. pose proof (length_filter P l). lia. Qed.

Lemma parts_zlen tb l k : tree_ok tb l → zlen (below k l) + zlen (same k l) + zlen (above k l) = zlen l.
Proof.
  intros Hok. destruct (tree_key_split tb l k Hok) as (lo & eq & hi & Hsp).
  destruct (key_split_parts _ _ _ _ _ Hsp) as (-> & -> & ->). rewrite (ks_eq _ _ _ _ _ Hsp), !zlen_app. lia.
Qed.

(** No operation adds more than one object. *)
Lemma list_step_zlen tb l p : tree_ok tb l → zlen (list_step l p).2 <= zlen l + 1.
Proof.
  intros Hok. assert (∀ k o, zlen (below k l ++ o :: above k l) <= zlen l + 1) as Hput.
  { intros k o. pose proof (parts_zlen tb l k Hok). pose proof (zlen_nonneg (same k l)). rewrite zlen_app, zlen_cons. lia. }
  assert (∀ k, zlen (below k l ++ above k l) <= zlen l + 1) as Hdel.
  { intros k. pose proof (parts_zlen tb l k Hok). pose proof (zlen_nonneg (same k l)). rewrite zlen_app. lia. }
  destruct p; cbn [list_step]; try (cbn; lia).
  - unfold spec_put. destruct (same _ l); [apply Hput|]. destruct key_clash_fail; [cbn; lia|apply Hput].
  - destruct (spec_element _ _). cbn. lia.
  - case_bool_decide; cbn; lia.
  - case_bool_decide; cbn; lia.
  - destruct (_ || _); cbn; lia.
  - apply Hdel.
  - cbn. unfold spec_erase_object. pose proof (zlen_filter (λ o', o' ≠ o) l). lia.
  - apply Hdel.
  - unfold spec_update. destruct (same k l), default; try (cbn; lia); destruct (f _); (apply Hput || cbn; lia).
  - cbn. pose proof (zlen_nonneg l). rewrite zlen_nil. lia.
Qed.

(** One operation does what it does to the list. *)
Lemma step_ok tb l p :
  tree_ok tb l → zlen l < max_objects → op_ok p → ∃ tb', step tb p = Ok ((list_step l p).1, tb') ∧ tree_ok tb' (list_step l p).2.
Proof.
  intros Hok Hmax Hp. destruct p; cbn [step list_step].
  - destruct (db_put_tree_ok tb l o key_clash_fail Hok Hmax) as (tb' & -> & Hok' & _). rewrite bind_Ok. exists tb'. by destruct (spec_put _ _ _).
  - destruct (db_get_tree_ok tb l k Hok) as (tb' & -> & Hr). rewrite bind_Ok. exists tb'. split; [done|by eapply reads_ok].
  - destruct (db_member_tree_ok tb l k Hok) as (tb' & -> & Hr). rewrite bind_Ok. exists tb'. split; [done|by eapply reads_ok].
  - destruct (db_get_element_tree_ok tb l k ndex Hok) as (tb' & -> & Hr). rewrite bind_Ok. exists tb'.
    destruct (spec_element _ _). split; [done|by eapply reads_ok].
  - destruct (db_first_tree_ok tb l Hok) as (tb' & -> & Hr). rewrite bind_Ok. exists tb'. split; [done|by eapply reads_ok].
  - destruct (db_last_tree_ok tb l Hok) as (tb' & -> & Hr). rewrite bind_Ok. exists tb'. split; [done|by eapply reads_ok].
  - destruct (db_next_tree_ok tb l k Hok) as (tb' & -> & Hr). rewrite bind_Ok. exists tb'.
    case_bool_decide; (split; [done|by eapply reads_ok]).
  - destruct (db_prev_tree_ok tb l k Hok) as (tb' & -> & Hr). rewrite bind_Ok. exists tb'.
    case_bool_decide; (split; [done|by eapply reads_ok]).
  - destruct (db_slot_tree_ok tb l i Hok) as (tb' & -> & Hr). rewrite bind_Ok. exists tb'. split; [|by destruct (_ || _); eapply reads_ok].
    destruct (Z.ltb_spec i 0); [done|]. cbn [orb]. destruct (Z.gtb_spec i (zlen l)); [|done].
    rewrite (lookup_ge_None_2 l) by (unfold zlen in *; lia). done.
  - destruct (db_erase_tree_ok tb l k Hok) as (tb' & -> & Hok' & _). rewrite bind_Ok. by exists tb'.
  - destruct (db_erase_object_tree_ok tb l o Hok) as (tb' & -> & Hok' & _). rewrite bind_Ok. by exists tb'.
  - destruct (db_take_tree_ok tb l k Hok) as (tb' & -> & Hok' & _). rewrite bind_Ok. by exists tb'.
  - destruct Hp as [Hf Hset]. destruct (tree_update_ok tb l k default f must_resize Hok Hmax Hf Hset) as (tb' & -> & Hok' & _). rewrite bind_Ok. exists tb'.
    by destruct (spec_update _ _ _ _).
  - destruct (db_delete_all_objects_tree_ok tb l Hok) as (tb' & -> & Hok' & _). rewrite bind_Ok. by exists tb'.
  - eexists. split; [done|]. by apply tree_ok_busy.
  - exists tb. split; [|done]. by rewrite (to_items _ _ Hok).
Qed.

Lemma steps_ok tb l ops :
  tree_ok tb l → zlen l + zlen ops <= max_objects → Forall op_ok ops →
  ∃ tb', steps tb ops = Ok ((list_steps l ops).1, tb') ∧ tree_ok tb' (list_steps l ops).2.
Proof.
  revert tb l. induction ops as [|p ops IH]; intros tb l Hok Hmax Hp; cbn [steps list_steps]; [by exists tb|].
  apply Forall_cons in Hp as [Hp Hps]. rewrite zlen_cons in Hmax. pose proof (zlen_nonneg ops).
  destruct (step_ok tb l p Hok ltac:(lia) Hp) as (tb1 & -> & Hok1). rewrite bind_Ok. pose proof (list_step_zlen tb l p Hok) as Hz.
  destruct (list_step l p) as [r l1]. cbn [fst snd] in *. destruct (IH tb1 l1 Hok1 ltac:(lia) Hps) as (tb' & -> & Hok'). rewrite bind_Ok.
  exists tb'. by destruct (list_steps l1 ops).
Qed.

Lemma new_tree_ok : tree_ok new_table [].
Proof. exact (db_create_tree_ok (mk_tree Null 0 false (mk_stack [] 0) 0)). Qed.

(** C4: every history of operations on an ordered set has the results of a list of objects that
    is sorted by their keys: insertion with its rebalancing, deletion, lookup, [first], [next],
    [last], [prev], positions and updates, with the static stack free or taken by others.  The
    operations never leave their stacks, follow no dangling pointer, and the contents of the tree
    from left to right are the list. *)
Theorem ordered_set_refines_list ops :
  zlen ops <= max_objects → Forall op_ok ops →
  ∃ tb, steps new_table ops = Ok ((list_steps [] ops).1, tb) ∧ n_obj <$> elements (t_root tb) = (list_steps [] ops).2 ∧
    avl (t_root tb) ∧ StronglySorted (λ a b, CMP (GETKEY a) (GETKEY b) < 0) (list_steps [] ops).2.
Proof.
  intros Hmax Hp. destruct (steps_ok new_table [] ops new_tree_ok ltac:(rewrite zlen_nil; lia) Hp) as (tb & E & Hok).
  exists tb. split_and!; [done|apply Hok|apply Hok|]. rewrite <- (to_objs _ _ Hok).
  pose proof (proj2 (to_valid _ _ Hok)) as Hs. unfold sorted in Hs. induction Hs as [|n ln Hs IH Hn]; cbn; constructor; [done|].
  apply Forall_fmap. exact Hn.
Qed.

End Props.

(** * Sample tables *)

Module Samples.

(** Objects are pairs with the key first; keys are numbers, [-1] stands for the end. *)
#[local] Instance sample_terms : DbTerms Z (Z * Z) := {|
  GETKEY := fst; arityval _ := 2; tpl o i := if i =? 1 then o.1 else o.2; set_key o k := (k, o.2); internal_hash k := k |}.
#[local] Instance sample_order : TermOrder Z Z := {| keyval k := k; kcmp := Z.sub; am_EOT := -1 |}.
#[local] Instance sample_cmp : KeyCmp Z (kcmp (V:=Z)).
Proof. split; cbn; intros; lia. Defined.

(** A rotation, a walk along the stack, an update that fails and a deletion that moves a node. *)
Definition sample_history : list (tree_op Z (Z * Z)) :=
  [Put (3, 0) false; Put (2, 0) false; Put (1, 0) false; First; Next 1; Busy true; Next 2; Busy false; Slot 2;
   Update 4 (Some (0, 7)) (λ _, None) false; Erase 2; Prev 3; Size].

Lemma ordered_set_refines_list_witness :
  ∃ tb, steps new_table sample_history =
    Ok ([OErr DB_ERROR_NONE; OErr DB_ERROR_NONE; OErr DB_ERROR_NONE; OTerm DB_ERROR_NONE 1; OTerm DB_ERROR_NONE 2; ODone;
         OTerm DB_ERROR_NONE 3; ODone; OSlot DB_ERROR_NONE (Some [(3, 0)]); OBool false; ODone; OTerm DB_ERROR_NONE 1; OSize 2], tb) ∧
    n_obj <$> elements (t_root tb) = [(1, 0); (3, 0)].
Proof.
  destruct (ordered_set_refines_list sample_history ltac:(by vm_compute)) as (tb & E & Ee & _).
  - repeat (constructor; try done). 
  - exists tb. split; [exact E|exact Ee].
Defined.

(** The same, computed. *)
Lemma sample_runs :
  (λ '(rs, _), rs) <$> (match steps new_table sample_history with Ok r => Some r | _ => None end) = Some (list_steps [] sample_history).1.
Proof. by vm_compute. Qed.

End Samples.
