(* ===== verification/DbTreeSelect.v ===== *)
(** ETS ordered sets: the select functions of erl_db_tree.c.

    A match specification is compiled elsewhere; here it is a function from objects to
    results.  From the keys of its patterns [analyze_pattern] computes the part of the tree
    to search ([mp_info]); a key that is only partly bound is compared with
    [cmp_partly_bound].  A call visits 1000 objects at most, and then traps to itself with a
    continuation. *)
From S2P Require Import Prelude Avl DbHash DbTree.

(** The keys of patterns, which may have variables: one against a key, 0 if the key can match,
    and two as terms ([CMP]). *)
Class PartlyBound (pat term : Type) := {
  cmp_partly_bound : pat → term → Z;
  cmp_keys : pat → pat → Z }.

(** What [analyze_pattern] finds; [save_term] is the address of a node. *)
Record mp_info (pat : Type) := mk_mpi {
  something_can_match : bool;
  some_limitation : bool;
  got_partial : bool;
  least : pat;
  most : pat;
  save_term : nat }.
Arguments mk_mpi {pat} _ _ _ _ _ _.
Arguments something_can_match {pat} _.
Arguments some_limitation {pat} _.
Arguments got_partial {pat} _.
Arguments least {pat} _.
Arguments most {pat} _.
Arguments save_term {pat} _.

(** A result, or the continuation: the last key, the end condition and what has been found. *)
Inductive outcome (pat term R : Type) :=
| Done (r : R)
| Trap (lastkey : term) (end_condition : option pat) (r : R).
Arguments Done {pat term R} _.
Arguments Trap {pat term R} _ _ _.

(** The contexts of the functions that visit an object. *)
Record count_context (pat obj : Type) := mk_count {
  c_end : option pat; c_last : option (TreeDbTerm obj); c_max : Z; c_got : Z }.
Arguments mk_count {pat obj} _ _ _ _.
Arguments c_end {pat obj} _.
Arguments c_last {pat obj} _.
Arguments c_max {pat obj} _.
Arguments c_got {pat obj} _.

(** [sd_freed]: the nodes given to [free_term]; [sd_erase]: the last one is still to be. *)
Record delete_context (pat obj : Type) := mk_delete {
  sd_end : option pat; sd_last : option (TreeDbTerm obj); sd_erase : bool; sd_max : Z; sd_accum : Z; sd_freed : list (TreeDbTerm obj) }.
Arguments mk_delete {pat obj} _ _ _ _ _ _.
Arguments sd_end {pat obj} _.
Arguments sd_last {pat obj} _.
Arguments sd_erase {pat obj} _.
Arguments sd_max {pat obj} _.
Arguments sd_accum {pat obj} _.
Arguments sd_freed {pat obj} _.

(** [sl_accum]: the results, the last one first. *)
Record select_context (pat obj R : Type) := mk_select {
  sl_end : option pat; sl_last : option (TreeDbTerm obj); sl_max : Z; sl_accum : list R; sl_got : Z }.
Arguments mk_select {pat obj R} _ _ _ _ _.
Arguments sl_end {pat obj R} _.
Arguments sl_last {pat obj R} _.
Arguments sl_max {pat obj R} _.
Arguments sl_accum {pat obj R} _.
Arguments sl_got {pat obj R} _.

(** The results of a match specification, and whether the match made a heap fragment, so that
    the function must trap. *)
Record match_prog (obj R : Type) := mk_mp { mp_result : obj → option R; mp_mbuf : obj → bool }.
Arguments mk_mp {obj R} _ _.
Arguments mp_result {obj R} _ _.
Arguments mp_mbuf {obj R} _ _.

Section Select.
Context {pat term obj V : Type} `{DbTerms term obj} `{TermOrder term V} `{PartlyBound pat term}.
Abbreviation node := (TreeDbTerm obj).
Abbreviation table := (DbTableTree obj).
Implicit Types (tb : table) (n : node) (this t : tree node) (s : DbTreeStack) (key : term) (d : dir).

(** * Traversal *)

(** The search of [find_next_from_pb_key] ([d] is [DIR_RIGHT]) and [find_prev_from_pb_key]
    ([DIR_LEFT]): the first node beyond the partly bound key. *)
Fixpoint pb_search d tb (key : pat) this (arr : list nat) : res (tree node * list nat) :=
  match this with
  | Null => Fault
  | Node l _ n r =>
      arr ← PUSH_NODE arr n;
      if towards d (cmp_partly_bound key (node_key n)) >=? 0 then
        let t := match d with DIR_LEFT => l | DIR_RIGHT => r end in
        match t with
        | Null => pop_until (λ t tmp, negb (is_ptr (child d t) tmp)) tb arr
        | Node _ _ _ _ => pb_search d tb key t arr
        end
      else
        let t := match d with DIR_LEFT => r | DIR_RIGHT => l end in
        match t with
        | Null => Ok (this, arr)
        | Node _ _ _ _ => pb_search d tb key t arr
        end
  end.

Definition find_from_pb_key d tb (key : pat) : res (tree node * DbTreeStack) :=
  match t_root tb with
  | Null => Ok (Null, mk_stack [] 0)
  | root => '(this, arr) ← pb_search d tb key root []; Ok (this, mk_stack arr 0)
  end.

Definition find_next_from_pb_key tb (key : pat) : res (tree node * DbTreeStack) := find_from_pb_key DIR_RIGHT tb key.
Definition find_prev_from_pb_key tb (key : pat) : res (tree node * DbTreeStack) := find_from_pb_key DIR_LEFT tb key.

(** The stack of a traversal: the static one of the table, which [doit] may reset, or one
    that only the traversal has. *)
Definition stack_of (static : bool) tb s : DbTreeStack := if static then t_static tb else s.
Definition stack_to (static : bool) tb s : table := if static then set_static tb s else tb.

Definition ptr_of this : option nat := match this with Null => None | Node _ _ n _ => Some (n_addr n) end.

Section Traverse.
Context {C : Type} (doit : table → nat → C → res (bool * table * C)).

(** [next] is found before [this] is visited, so that [doit] may remove it. *)
Fixpoint traverse_loop (fuel : nat) d (static : bool) (next : option nat) tb s (c : C) : res (table * DbTreeStack * C) :=
  match next with
  | None => Ok (tb, s, c)
  | Some a =>
      match fuel with
      | O => NoFuel
      | S fuel =>
          this ← node_deref tb a;
          key ← key_of this;
          '(nx, s) ← find_dir d tb (stack_of static tb s) key;
          '(go, tb, c) ← doit (stack_to static tb s) a c;
          if (go : bool) then traverse_loop fuel d static (ptr_of nx) tb s c else Ok (tb, s, c)
      end
  end.

(** [traverse_backwards] ([DIR_LEFT]) and [traverse_forward] ([DIR_RIGHT]): from [lastkey] on,
    or from the other end of the table. *)
Definition traverse d (static : bool) tb s (lastkey : option term) (c : C) : res (table * DbTreeStack * C) :=
  let fuel := length (elements (t_root tb)) in
  match lastkey with
  | None =>
      let s := mk_stack [] 0 in
      match t_root tb with
      | Null => Ok (stack_to static tb s, s, c)
      | root =>
          '(this, arr) ← push_down (opp d) root (s_array s);
          let s := mk_stack arr 0 in
          traverse_loop fuel d static (ptr_of this) (stack_to static tb s) s c
      end
  | Some key =>
      '(next, s) ← find_dir d tb (stack_of static tb s) key;
      traverse_loop fuel d static (ptr_of next) (stack_to static tb s) s c
  end.
End Traverse.

(** [end_condition] has been passed, going in direction [d]. *)
Definition past_end d (end_condition : option pat) key : bool :=
  match end_condition with
  | None => false
  | Some e => towards d (cmp_partly_bound e key) <? 0
  end.

Definition node_of tb (a : nat) : res node :=
  this ← node_deref tb a; match this with Null => Fault | Node _ _ n _ => Ok n end.

(** * Counting *)

Definition doit_select_count (mp : obj → bool) tb (a : nat) (sc : count_context pat obj) : res (bool * table * count_context pat obj) :=
  n ← node_of tb a;
  if past_end DIR_LEFT (c_end sc) (node_key n) then
    Ok (false, tb, mk_count (c_end sc) (Some n) (c_max sc) (c_got sc))
  else
    let got := if mp (n_obj n) then c_got sc + 1 else c_got sc in
    let max := c_max sc - 1 in
    Ok (negb (max <=? 0), tb, mk_count (c_end sc) (Some n) max got).

Definition last_key (o : option node) : res term := match o with Some n => Ok (node_key n) | None => Fault end.

(** The search area of the functions that go backwards. *)
Definition start_backwards tb s (mpi : mp_info pat) : res (option term * option pat * DbTreeStack) :=
  if some_limitation mpi then
    '(this, s) ← find_next_from_pb_key tb (most mpi);
    Ok (match this with Null => None | Node _ _ n _ => Some (node_key n) end, Some (least mpi), s)
  else Ok (None, None, s).

Definition single_key (mpi : mp_info pat) : bool :=
  negb (got_partial mpi) && some_limitation mpi && (cmp_keys (least mpi) (most mpi) =? 0).

Definition db_select_count_tree (mp : obj → bool) (mpi : mp_info pat) tb : res (outcome pat term Z * table) :=
  if negb (something_can_match mpi) then Ok (Done 0, tb)
  else if single_key mpi then
    '(_, tb, sc) ← doit_select_count mp tb (save_term mpi) (mk_count None None 1000 0);
    Ok (Done (c_got sc), tb)
  else
    let '(static, s, tb) := get_any_stack tb in
    '(lastkey, end_condition, s) ← start_backwards tb s mpi;
    '(tb, s, sc) ← traverse (doit_select_count mp) DIR_LEFT false tb s lastkey (mk_count end_condition None 1000 0);
    let tb := release_stack tb static s in
    if c_max sc >? 0 then Ok (Done (c_got sc), tb)
    else key ← last_key (c_last sc); Ok (Trap key end_condition (c_got sc), tb).

(** The continuation: the end condition is tested only when the call is over. *)
Definition db_select_count_continue_tree (mp : obj → bool) (lastkey : term) (end_condition : option pat) (got : Z) tb : res (outcome pat term Z * table) :=
  let '(static, s, tb) := get_any_stack tb in
  '(tb, s, sc) ← traverse (doit_select_count mp) DIR_LEFT false tb s (Some lastkey) (mk_count None None 1000 got);
  let tb := release_stack tb static s in
  if c_max sc >? 0 then Ok (Done (c_got sc), tb)
  else
    key ← last_key (c_last sc);
    if past_end DIR_LEFT end_condition key then Ok (Done (c_got sc), tb)
    else Ok (Trap key end_condition (c_got sc), tb).

(** * Deleting *)

(** The memory of the last node, if it has been taken out, is freed by the next call. *)
Definition free_lastterm (sc : delete_context pat obj) : list node :=
  if sd_erase sc then match sd_last sc with Some n => sd_freed sc ++ [n] | None => sd_freed sc end else sd_freed sc.

Definition doit_select_delete (mp : obj → bool) tb (a : nat) (sc : delete_context pat obj) : res (bool * table * delete_context pat obj) :=
  let freed := free_lastterm sc in
  n ← node_of tb a;
  if past_end DIR_LEFT (sd_end sc) (node_key n) then
    Ok (false, tb, mk_delete (sd_end sc) (Some n) false (sd_max sc) (sd_accum sc) freed)
  else
    '(erase, tb) ← (if mp (n_obj n) then '(_, tb) ← linkout_tree tb (node_key n); Ok (true, tb) else Ok (false, tb));
    let max := sd_max sc - 1 in
    Ok (negb (max <=? 0), tb, mk_delete (sd_end sc) (Some n) erase max (if (erase : bool) then sd_accum sc + 1 else sd_accum sc) freed).

(** Deletion has the table for itself and uses the static stack as it is. *)
Definition db_select_delete_tree (mp : obj → bool) (mpi : mp_info pat) tb : res (outcome pat term Z * list node * table) :=
  if negb (something_can_match mpi) then Ok (Done 0, [], tb)
  else if single_key mpi then
    '(_, tb, sc) ← doit_select_delete mp tb (save_term mpi) (mk_delete None None false 1000 0 []);
    Ok (Done (sd_accum sc), free_lastterm sc, tb)
  else
    '(lastkey, end_condition, s) ← start_backwards tb (t_static tb) mpi;
    '(tb, _, sc) ← traverse (doit_select_delete mp) DIR_LEFT true (set_static tb s) s lastkey (mk_delete end_condition None false 1000 0 []);
    if sd_max sc >? 0 then Ok (Done (sd_accum sc), free_lastterm sc, tb)
    else key ← last_key (sd_last sc); Ok (Trap key end_condition (sd_accum sc), free_lastterm sc, tb).

Definition db_select_delete_continue_tree (mp : obj → bool) (lastkey : term) (end_condition : option pat) (accum : Z) tb :
    res (outcome pat term Z * list node * table) :=
  '(tb, _, sc) ← traverse (doit_select_delete mp) DIR_LEFT true tb (t_static tb) (Some lastkey) (mk_delete None None false 1000 accum []);
  if sd_max sc >? 0 then Ok (Done (sd_accum sc), free_lastterm sc, tb)
  else
    key ← last_key (sd_last sc);
    if past_end DIR_LEFT end_condition key then Ok (Done (sd_accum sc), free_lastterm sc, tb)
    else Ok (Trap key end_condition (sd_accum sc), free_lastterm sc, tb).

(** * Selecting *)

Definition doit_select {R} (mp : match_prog obj R) d tb (a : nat) (sc : select_context pat obj R) : res (bool * table * select_context pat obj R) :=
  n ← node_of tb a;
  if past_end d (sl_end sc) (node_key n) then
    Ok (false, tb, mk_select (sl_end sc) (Some n) (sl_max sc) (sl_accum sc) (sl_got sc))
  else
    let accum := match mp_result mp (n_obj n) with Some r => r :: sl_accum sc | None => sl_accum sc end in
    let max := (if mp_mbuf mp (n_obj n) then 0 else sl_max sc) - 1 in
    Ok (negb (max <=? 0), tb, mk_select (sl_end sc) (Some n) max accum (sl_got sc)).

(** The search area for both directions: [d] is the one of the traversal. *)
Definition start_select d tb s (mpi : mp_info pat) : res (option term * option pat * DbTreeStack) :=
  match d with
  | DIR_LEFT => start_backwards tb s mpi
  | DIR_RIGHT =>
      if some_limitation mpi then
        '(this, s) ← find_prev_from_pb_key tb (least mpi);
        Ok (match this with Null => None | Node _ _ n _ => Some (node_key n) end, Some (most mpi), s)
      else Ok (None, None, s)
  end.

(** The results are built from the tail of the list: backwards, unless [reverse]. *)
Definition db_select_tree {R} (mp : match_prog obj R) (mpi : mp_info pat) (reverse : bool) tb : res (outcome pat term (list R) * table) :=
  if negb (something_can_match mpi) then Ok (Done [], tb)
  else if single_key mpi then
    '(_, tb, sc) ← doit_select mp DIR_LEFT tb (save_term mpi) (mk_select None None 1000 [] 0);
    Ok (Done (sl_accum sc), tb)
  else
    let '(static, s, tb) := get_any_stack tb in
    let d := if reverse then DIR_RIGHT else DIR_LEFT in
    '(lastkey, end_condition, s) ← start_select d tb s mpi;
    '(tb, s, sc) ← traverse (doit_select mp d) d false tb s lastkey (mk_select end_condition None 1000 [] 0);
    let tb := release_stack tb static s in
    if sl_max sc >? 0 then Ok (Done (sl_accum sc), tb)
    else key ← last_key (sl_last sc); Ok (Trap key end_condition (sl_accum sc), tb).

(** [db_select_continue_tree] with a chunk size of 0. *)
Definition db_select_continue_tree {R} (mp : match_prog obj R) (reverse : bool) (lastkey : term) (end_condition : option pat) (accum : list R) tb :
    res (outcome pat term (list R) * table) :=
  let '(static, s, tb) := get_any_stack tb in
  let d := if reverse then DIR_RIGHT else DIR_LEFT in
  '(tb, s, sc) ← traverse (doit_select mp d) d false tb s (Some lastkey) (mk_select None None 1000 accum 0);
  let tb := release_stack tb static s in
  if sl_max sc >? 0 then Ok (Done (sl_accum sc), tb)
  else
    key ← last_key (sl_last sc);
    if past_end d end_condition key then Ok (Done (sl_accum sc), tb)
    else Ok (Trap key end_condition (sl_accum sc), tb).

End Select.

(** * Selecting in chunks *)

(** A chunk, the last result first, with the key to go on from, or without one at the end of
    the table; [ets_select_reverse] turns it.  [Whole]: all there is, to be returned as it is. *)
Inductive chunk_outcome (pat term R : Type) :=
| EndOfTable
| Whole (l : list R)
| Chunk (l : list R) (continuation : option (term * option pat))
| ChunkTrap (lastkey : term) (end_condition : option pat) (accum : list R) (got : Z).
Arguments EndOfTable {pat term R}.
Arguments Whole {pat term R} _.
Arguments Chunk {pat term R} _ _.
Arguments ChunkTrap {pat term R} _ _ _ _.

(** Reductions of a process before another one runs. *)
Definition CONTEXT_REDS : Z := 2000.

(** The loop of [ets_select_reverse]: what is left of the list, and the result. *)
Fixpoint select_reverse_loop {A} (max_iter : Z) (list result : list A) : Datatypes.list A * Datatypes.list A :=
  match list with
  | [] => ([], result)
  | x :: tl => if max_iter - 1 =? 0 then (list, result) else select_reverse_loop (max_iter - 1) tl (x :: result)
  end.

(** With the calls to itself. *)
Fixpoint ets_select_reverse {A} (fuel : nat) (list result : list A) : res (Datatypes.list A) :=
  match select_reverse_loop (CONTEXT_REDS * 10) list result with
  | ([], result) => Ok result
  | (list, result) => match fuel with O => NoFuel | S fuel => ets_select_reverse fuel list result end
  end.

Section Chunk.
Context {pat term obj V : Type} `{DbTerms term obj} `{TermOrder term V} `{PartlyBound pat term}.
Context {R : Type} (mp : match_prog obj R) (chunk_size : Z) (reverse : bool).
Abbreviation table := (DbTableTree obj).
Implicit Types (tb : table).

Definition doit_select_chunk d tb (a : nat) (sc : select_context pat obj R) : res (bool * table * select_context pat obj R) :=
  n ← node_of tb a;
  if past_end d (sl_end sc) (node_key n) then
    Ok (false, tb, mk_select (sl_end sc) (Some n) (sl_max sc) (sl_accum sc) (sl_got sc))
  else
    let '(got, accum) := match mp_result mp (n_obj n) with Some r => (sl_got sc + 1, r :: sl_accum sc) | None => (sl_got sc, sl_accum sc) end in
    let max := (if mp_mbuf mp (n_obj n) then 0 else sl_max sc) - 1 in
    Ok (negb ((max <=? 0) || (got =? chunk_size)), tb, mk_select (sl_end sc) (Some n) max accum got).

(** The end of the table, with what has been found. *)
Definition end_of_table (sc : select_context pat obj R) : chunk_outcome pat term R :=
  if sl_got sc =? 0 then EndOfTable else Chunk (sl_accum sc) None.

(** A call that has not been cut short. *)
Definition chunk_done (end_condition : option pat) (sc : select_context pat obj R) : res (chunk_outcome pat term R) :=
  match sl_last sc with
  | None => Ok (end_of_table sc)
  | Some n => if sl_got sc <? chunk_size then Ok (end_of_table sc) else Ok (Chunk (sl_accum sc) (Some (node_key n, end_condition)))
  end.

(** Chunks are collected in the other direction than complete results. *)
Definition chunk_dir : dir := if reverse then DIR_LEFT else DIR_RIGHT.

Definition db_select_chunk_tree (mpi : mp_info pat) tb : res (chunk_outcome pat term R * table) :=
  if negb (something_can_match mpi) then Ok (EndOfTable, tb)
  else if single_key mpi then
    '(_, tb, sc) ← doit_select mp DIR_LEFT tb (save_term mpi) (mk_select None None 1000 [] 0);
    Ok (match sl_accum sc with [] => EndOfTable | l => Whole l end, tb)
  else
    let '(static, s, tb) := get_any_stack tb in
    '(lastkey, end_condition, s) ← start_select chunk_dir tb s mpi;
    '(tb, s, sc) ← traverse (doit_select_chunk chunk_dir) chunk_dir false tb s lastkey (mk_select end_condition None 1000 [] 0);
    let tb := release_stack tb static s in
    if (sl_max sc >? 0) || (sl_got sc =? chunk_size) then out ← chunk_done end_condition sc; Ok (out, tb)
    else key ← last_key (sl_last sc); Ok (ChunkTrap key end_condition (sl_accum sc) (sl_got sc), tb).

(** [db_select_continue_tree] with a chunk size. *)
Definition db_select_continue_chunk_tree (lastkey : term) (end_condition : option pat) (accum : list R) (got : Z) tb :
    res (chunk_outcome pat term R * table) :=
  let '(static, s, tb) := get_any_stack tb in
  '(tb, s, sc) ← traverse (doit_select_chunk chunk_dir) chunk_dir false tb s (Some lastkey) (mk_select None None 1000 accum got);
  let tb := release_stack tb static s in
  if (sl_max sc >? 0) || (sl_got sc =? chunk_size) then out ← chunk_done end_condition sc; Ok (out, tb)
  else
    key ← last_key (sl_last sc);
    if past_end chunk_dir end_condition key then Ok (end_of_table sc, tb)
    else Ok (ChunkTrap key end_condition (sl_accum sc) (sl_got sc), tb).

End Chunk.
