(* ===== verification/DbTreeTrav.v ===== *)
(** ETS ordered sets: traversals (DbTreeSelect.v).

    A traversal visits the nodes ahead of a key in the order of its direction, whatever is
    done to the node that is visited: the next one has been found before.  The functions
    that trap are treated alike: a call visits some nodes and ends, or gives a key from
    which the next call goes on. *)
From stdpp Require Import sorting.
From S2P Require Import Prelude Avl DbHash DbTree DbTreePath DbTreeOps DbTreeUpd DbTreeSelect.
#[local] Open Scope Z_scope.

(** A partly bound key divides the keys: those below what it can match, and those above. *)
Class PartlyBoundLaws (pat term V : Type) `{TermOrder term V} `{PartlyBound pat term} : Prop := {
  pb_above p (a b : term) : CMP a b < 0 → cmp_partly_bound p a < 0 → cmp_partly_bound p b < 0;
  pb_below p (a b : term) : CMP a b < 0 → 0 < cmp_partly_bound p b → 0 < cmp_partly_bound p a }.

Section Trav.
Context {term obj V : Type} `{DbTerms term obj} `{TermOrder term V} `{!KeyCmp V kcmp}.
Abbreviation node := (TreeDbTerm obj).
Abbreviation table := (DbTableTree obj).
Abbreviation nkey := (λ n : node, keyval (node_key n)).
Abbreviation tsorted := (sorted (kcmp (V:=V)) nkey).
Implicit Types (tb : table) (n x y : node) (t this root : tree node) (s : DbTreeStack) (key k : term) (d : dir) (arr : list nat)
  (o : obj) (l : list obj) (ys done rest : list node).

(** ** What is ahead of a key *)

Lemma els_pre_post d root done y rest :
  els d root = done ++ y :: rest →
  ∃ pre post, elements root = pre ++ y :: post ∧ ahead d pre post = rest ∧ behind d pre post = done.
Proof.
  destruct d; cbn [els ahead behind]; intros E; [|by exists done, rest].
  apply (f_equal (rev (A:=_))) in E. rewrite rev_involutive, rev_app_distr in E. cbn in E. rewrite <- app_assoc in E.
  exists (rev rest), (rev done). by rewrite !rev_involutive.
Qed.

Lemma ahead_of_node tb l d done y rest :
  tree_ok tb l → els d (t_root tb) = done ++ y :: rest →
  Forall (beyond d (node_key y)) rest ∧ Forall (λ n, ¬ beyond d (node_key y) n) (done ++ [y]).
Proof.
  intros Hok E. destruct (els_pre_post _ _ _ _ _ E) as (pre & post & Ee & <- & <-). pose proof (proj2 (to_valid _ _ Hok)) as Hs. rewrite Ee in Hs.
  destruct (around_list d (node_key y) pre y post Hs) as [Hb Hp].
  assert (cmp_key (node_key y) y = 0) as Ey by apply kcmp_self.
  assert (towards d (cmp_key (node_key y) y) = 0) as Et by (rewrite Ey; by destruct d).
  split; [apply Hb; lia|]. apply Forall_app. split; [|constructor; [unfold beyond; lia|constructor]].
  eapply Forall_impl; [apply Hp; lia|]. unfold passed, beyond. lia.
Qed.

Lemma first_beyond_node tb l d done y rest :
  tree_ok tb l → els d (t_root tb) = done ++ y :: rest → first_beyond tb d (node_key y) = head rest.
Proof.
  intros Hok E. destruct (ahead_of_node tb l d done y rest Hok E) as [Hb Hp]. unfold first_beyond.
  rewrite E, cons_middle, app_assoc, filter_app, (list_filter_False _ _ Hp), (list_filter_True _ _ Hb). done.
Qed.

(** A node is found by its address. *)
Lemma node_at_elem t n : NoDup (addrs t) → n ∈ elements t → ∃ tl b tr, node_at (n_addr n) t = Node tl b n tr.
Proof.
  unfold addrs. induction t as [|l IHl b m r IHr]; intros Hnd Hin; [by apply elem_of_nil in Hin|]. cbn [elements node_at] in *.
  rewrite fmap_app, fmap_cons in Hnd. apply NoDup_app in Hnd as (Hl & Hd & Hr). apply NoDup_cons in Hr as [Hm Hr].
  apply elem_of_app in Hin as [Hin|[->|Hin]%elem_of_cons].
  - destruct (Nat.eqb_spec (n_addr m) (n_addr n)) as [E|]; [destruct (Hd (n_addr n)); [by apply list_elem_of_fmap_2|rewrite <- E; left]|].
    destruct (IHl Hl Hin) as (? & ? & ? & ->). eauto.
  - rewrite Nat.eqb_refl. eauto.
  - destruct (Nat.eqb_spec (n_addr m) (n_addr n)) as [E|]; [destruct Hm; rewrite E; by apply list_elem_of_fmap_2|].
    rewrite (node_at_null _ l); [by apply IHr|]. unfold addrs. intros Hl'. destruct (Hd _ Hl'). right. by apply list_elem_of_fmap_2.
Qed.

Lemma node_deref_elem tb l n : tree_ok tb l → n ∈ elements (t_root tb) → ∃ tl b tr, node_deref tb (n_addr n) = Ok (Node tl b n tr).
Proof.
  intros Hok Hin. destruct (node_at_elem _ _ (to_nodup _ _ Hok) Hin) as (tl & b & tr & E). unfold node_deref. rewrite E. eauto.
Qed.

Lemma els_elem d root n : n ∈ els d root ↔ n ∈ elements root.
Proof. destruct d; cbn [els]; [|done]. rewrite !list_elem_of_In, <- in_rev. done. Qed.

Lemma els_nodup d tb l : tree_ok tb l → NoDup (els d (t_root tb)).
Proof.
  intros Hok. apply (NoDup_fmap_1 n_addr). assert (els d (t_root tb) ≡ₚ elements (t_root tb)) as -> by (destruct d; cbn [els]; [symmetry; apply Permutation_rev|done]).
  apply (to_nodup _ _ Hok).
Qed.

(** ** One traversal *)

Section Traverse.
Context {C : Type} (doit : table → nat → C → res (bool * table * C)).
Context (d : dir) (static : bool) (go : C → node → bool) (upd : C → node → C) (del : C → node → bool).

(** The visits that are made: the context, and the nodes that stay in the table. *)
Fixpoint run (c : C) ys : C * list node :=
  match ys with
  | [] => (c, [])
  | y :: ys =>
      let stay := if del c y then [] else [y] in
      if go c y then let '(c, r) := run (upd c y) ys in (c, stay ++ r) else (upd c y, stay ++ ys)
  end.

(** What is asked of a visit.  Only with the static stack may a node be removed. *)
Definition doit_ok : Prop := ∀ tb l c pre n post,
  tree_ok tb l → elements (t_root tb) = pre ++ n :: post →
  ∃ tb', doit tb (n_addr n) c = Ok (go c n, tb', upd c n) ∧
    if del c n then static = true ∧ tree_ok tb' (n_obj <$> pre ++ post) ∧ elements (t_root tb') = pre ++ post ∧ t_busy tb' = t_busy tb
    else tb' = tb.

Context (Hdoit : doit_ok).

Lemma doit_els tb l c done y rest :
  tree_ok tb l → els d (t_root tb) = done ++ y :: rest →
  ∃ tb' l', doit tb (n_addr y) c = Ok (go c y, tb', upd c y) ∧ tree_ok tb' l' ∧
    els d (t_root tb') = done ++ (if del c y then [] else [y]) ++ rest ∧ (static = false → tb' = tb) ∧ t_busy tb' = t_busy tb.
Proof.
  intros Hok E. destruct (els_pre_post _ _ _ _ _ E) as (pre & post & Ee & Ea & Eb).
  destruct (Hdoit tb l c pre y post Hok Ee) as (tb' & Ed & Hr). destruct (del c y).
  - destruct Hr as (Hs & Hok' & Ee' & Hb). exists tb'. eexists. split_and!; [done|done| |by rewrite Hs|done].
    destruct d; cbn [els ahead behind] in *; rewrite Ee'; [rewrite rev_app_distr|]; by subst.
  - subst tb'. by exists tb, l.
Qed.

Lemma stack_to_ok tb l s : tree_ok tb l → stack_ok (t_root tb) s → tree_ok (stack_to static tb s) l.
Proof. intros Hok Hs. destruct static; [|done]. cbn. by destruct Hok; split. Qed.

Lemma stack_to_root tb s : t_root (stack_to static tb s) = t_root tb.
Proof. by destruct static. Qed.
Lemma stack_to_busy tb s : t_busy (stack_to static tb s) = t_busy tb.
Proof. by destruct static. Qed.

Lemma traverse_loop_ok fuel tb l s c done ys :
  tree_ok tb l → stack_ok (t_root tb) (stack_of static tb s) → els d (t_root tb) = done ++ ys → (length ys <= fuel)%nat →
  ∃ tb' s' l', traverse_loop doit fuel d static (n_addr <$> head ys) tb s c = Ok (tb', s', (run c ys).1) ∧
    tree_ok tb' l' ∧ els d (t_root tb') = done ++ (run c ys).2 ∧ stack_ok (t_root tb') (stack_of static tb' s') ∧
    (static = false → tb' = tb) ∧ t_busy tb' = t_busy tb.
Proof.
  revert tb l s c done ys. induction fuel as [|fuel IH]; intros tb l s c done ys Hok Hs E Hl; destruct ys as [|y ys]; cbn [length] in Hl; try lia.
  { exists tb, s, l. split_and!; done. }
  { exists tb, s, l. split_and!; done. }
  cbn [head fmap option_fmap option_map traverse_loop run].
  assert (y ∈ elements (t_root tb)) as Hin by (rewrite <- (els_elem d), E, elem_of_app; right; left).
  destruct (node_deref_elem tb l y Hok Hin) as (? & ? & ? & ->). rewrite bind_Ok. cbn [key_of]. rewrite bind_Ok.
  destruct (find_dir_ok tb (to_nodup _ _ Hok) (tree_ok_height _ _ Hok) (proj2 (to_valid _ _ Hok)) d _ (node_key y) Hs) as (nx & s1 & -> & Hf).
  rewrite bind_Ok. rewrite (first_beyond_node tb l d done y ys Hok E) in Hf. pose proof (found_stack_ok _ _ _ _ Hf) as Hs1.
  assert (ptr_of nx = n_addr <$> head ys) as ->.
  { destruct ys as [|z ys]; cbn in Hf |- *; [by destruct Hf as [-> _]|]. destruct Hf as (? & ? & Hloc). by destruct (located_node _ _ _ _ _ _ Hloc) as (? & ? & ? & ->). }
  pose proof (stack_to_ok tb l s1 Hok Hs1) as Hok1. rewrite <- (stack_to_root tb s1) in E.
  destruct (doit_els _ l c done y ys Hok1 E) as (tb2 & l2 & -> & Hok2 & E2 & Hsame & Hb2). rewrite bind_Ok. rewrite stack_to_busy in Hb2.
  assert (stack_ok (t_root tb2) (stack_of static tb2 s1)) as Hs2.
  { unfold stack_of. destruct static; [apply Hok2|]. by rewrite (Hsame eq_refl). }
  destruct (go c y).
  - rewrite app_assoc in E2. destruct (IH tb2 l2 s1 (upd c y) _ ys Hok2 Hs2 E2 ltac:(lia)) as (tb' & s' & l' & -> & Hok' & E' & Hs' & Hsame' & Hb').
    exists tb', s', l'. destruct (run (upd c y) ys) as [c' r]. cbn [fst snd] in *. split_and!; [done|done|by rewrite E', app_assoc|done| |congruence].
    intros Hst. rewrite (Hsame' Hst), (Hsame Hst). by rewrite Hst.
  - exists tb2, s1, l2. cbn [fst snd]. split_and!; [done|done|done|done| |done]. intros Hst. rewrite (Hsame Hst). by rewrite Hst.
Qed.

(** A traversal from a key on visits what is ahead of the key; without a key, everything. *)
Definition from_key (lastkey : option term) root : list node :=
  match lastkey with Some k => filter (beyond d k) (els d root) | None => els d root end.

Lemma beyond_split tb l k : tree_ok tb l → ∃ done, els d (t_root tb) = done ++ filter (beyond d k) (els d (t_root tb)) ∧ Forall (λ n, ¬ beyond d k n) done.
Proof.
  intros Hok. assert (∀ done ys, els d (t_root tb) = done ++ ys → ∃ done', ys = done' ++ filter (beyond d k) ys ∧ Forall (λ n, ¬ beyond d k n) done') as Hgen.
  { intros done ys. revert done. induction ys as [|y ys IH]; intros done E; [by exists []|]. rewrite filter_cons.
    destruct (decide (beyond d k y)) as [Hy|Hy].
    - exists []. split; [|done]. cbn [app]. f_equal. rewrite list_filter_True; [done|].
      destruct (els_pre_post _ _ _ _ _ E) as (pre & post & Ee & <- & _). pose proof (proj2 (to_valid _ _ Hok)) as Hs. rewrite Ee in Hs.
      apply (around_list d k pre y post Hs). unfold beyond in Hy. lia.
    - destruct (IH (done ++ [y])) as (done' & E' & Hd); [by rewrite E, <- app_assoc|]. exists (y :: done'). split; [by rewrite E' at 1|by constructor]. }
  apply (Hgen [] _ eq_refl).
Qed.

Lemma traverse_ok tb l s lastkey c :
  tree_ok tb l → stack_ok (t_root tb) (stack_of static tb s) →
  ∃ tb' s' l' done, traverse doit d static tb s lastkey c = Ok (tb', s', (run c (from_key lastkey (t_root tb))).1) ∧
    els d (t_root tb) = done ++ from_key lastkey (t_root tb) ∧
    tree_ok tb' l' ∧ els d (t_root tb') = done ++ (run c (from_key lastkey (t_root tb))).2 ∧ stack_ok (t_root tb') (stack_of static tb' s') ∧
    (static = false → tb' = tb) ∧ t_busy tb' = t_busy tb.
Proof.
  intros Hok Hs.
  assert (length (els d (t_root tb)) = length (elements (t_root tb))) as Hlen by (destruct d; cbn [els]; [apply length_rev|done]).
  unfold traverse. destruct lastkey as [k|]; cbn [from_key].
  - destruct (find_dir_ok tb (to_nodup _ _ Hok) (tree_ok_height _ _ Hok) (proj2 (to_valid _ _ Hok)) d _ k Hs) as (nx & s1 & -> & Hf). rewrite bind_Ok.
    destruct (beyond_split tb l k Hok) as (done & E & Hd). unfold first_beyond in Hf. set (ys := filter (beyond d k) (els d (t_root tb))) in *.
    assert (ptr_of nx = n_addr <$> head ys) as ->.
    { destruct ys as [|z ys]; cbn in Hf |- *; [by destruct Hf as [-> _]|]. destruct Hf as (? & ? & Hloc). by destruct (located_node _ _ _ _ _ _ Hloc) as (? & ? & ? & ->). }
    pose proof (found_stack_ok _ _ _ _ Hf) as Hs1. pose proof (stack_to_ok tb l s1 Hok Hs1) as Hok1.
    destruct (traverse_loop_ok (length (elements (t_root tb))) (stack_to static tb s1) l s1 c done ys Hok1) as (tb' & s' & l' & -> & Hok' & E' & Hs' & Hsame & Hb).
    + rewrite stack_to_root. unfold stack_of. by destruct static.
    + by rewrite stack_to_root.
    + rewrite <- Hlen, E, length_app. lia.
    + exists tb', s', l', done. rewrite stack_to_busy in Hb. split_and!; try done. intros Hst. rewrite (Hsame Hst). by rewrite Hst.
  - destruct (tree_case (t_root tb)) as [Er|(rl & rb & rn & rr & Er)].
    + rewrite Er. exists (stack_to static tb (mk_stack [] 0)), (mk_stack [] 0), l, []. rewrite els_null. cbn [run fst snd app]. rewrite stack_to_root, stack_to_busy, Er, els_null.
      split_and!; try done; [apply stack_to_ok; [done|by left]|unfold stack_of; destruct static; by left|]. by intros ->.
    + rewrite Er. cbv iota. rewrite <- Er. cbn [s_array].
      destruct (push_down_end tb (tree_ok_height _ _ Hok) (opp d) _ _ _ _ Er) as (this & arr & pre & x & post & -> & Hat & Ha). rewrite bind_Ok.
      assert (els d (t_root tb) = x :: ahead d pre post) as E.
      { rewrite (els_at tb d _ _ _ _ _ Hat). enough (behind d pre post = []) as ->; [done|]. destruct d; cbn in Ha |- *; [by rewrite Ha|].
        apply (f_equal (rev (A:=_))) in Ha. by rewrite rev_involutive in Ha. }
      assert (stack_ok (t_root tb) (mk_stack arr 0)) as Hs1 by (right; exists this, pre, x, post; split; [done|by left]).
      assert (ptr_of this = n_addr <$> head (els d (t_root tb))) as -> by (rewrite E; by destruct Hat as (? & ? & ? & ? & -> & _)).
      pose proof (stack_to_ok tb l _ Hok Hs1) as Hok1.
      destruct (traverse_loop_ok (length (elements (t_root tb))) (stack_to static tb (mk_stack arr 0)) l (mk_stack arr 0) c [] (els d (t_root tb)) Hok1)
        as (tb' & s' & l' & -> & Hok' & E' & Hs' & Hsame & Hb).
      * rewrite stack_to_root. unfold stack_of. by destruct static.
      * by rewrite stack_to_root.
      * by rewrite Hlen.
      * exists tb', s', l', []. rewrite stack_to_busy in Hb. split_and!; try done. intros Hst. rewrite (Hsame Hst). by rewrite Hst.
Qed.
End Traverse.

(** ** Calls that trap *)

Section Bounded.
Context {pat : Type} `{PartlyBound pat term} `{!PartlyBoundLaws pat term V}.
Context (d : dir).

(** A partly bound key divides the nodes like a key does. *)
Definition pb_beyond e n : Prop := towards d (cmp_partly_bound e (node_key n)) < 0.

#[export] Instance pb_beyond_dec e n : Decision (pb_beyond e n).
Proof. unfold pb_beyond. apply _. Defined.

Lemma pb_around e pre x post :
  tsorted (pre ++ x :: post) →
  (pb_beyond e x → Forall (pb_beyond e) (ahead d pre post)) ∧ (¬ pb_beyond e x → Forall (λ n, ¬ pb_beyond e n) (behind d pre post)).
Proof.
  intros (Hl & Hr & Hlr)%sorted_app. apply StronglySorted_cons in Hr as [Hx Hr]. unfold pb_beyond.
  assert (Forall (λ n, CMP (node_key n) (node_key x) < 0) pre) as Hpre.
  { eapply Forall_impl; [exact Hlr|]. intros n [Hn _]%Forall_cons. exact Hn. }
  assert (Forall (λ n, CMP (node_key x) (node_key n) < 0) post) as Hpost by exact Hx.
  destruct d; cbn [towards ahead behind]; split; intros Hc.
  - apply Forall_rev. eapply Forall_impl; [exact Hpre|]. cbn. intros n Hn. pose proof (pb_below e _ _ Hn) as Hm. specialize (Hm ltac:(lia)). lia.
  - apply Forall_rev. eapply Forall_impl; [exact Hpost|]. cbn. intros n Hn Hn'. apply Hc. pose proof (pb_below e _ _ Hn) as Hm. specialize (Hm ltac:(lia)). lia.
  - eapply Forall_impl; [exact Hpost|]. cbn. intros n Hn. by apply (pb_above e _ _ Hn).
  - eapply Forall_impl; [exact Hpre|]. cbn. intros n Hn Hn'. apply Hc. by apply (pb_above e _ _ Hn).
Qed.

Lemma past_ahead tb l e done y rest :
  tree_ok tb l → els d (t_root tb) = done ++ y :: rest → past_end d e (node_key y) = true → Forall (λ n, past_end d e (node_key n) = true) (y :: rest).
Proof.
  intros Hok E Hy. constructor; [done|]. destruct e as [e|]; [|done]. cbn [past_end] in *.
  destruct (els_pre_post _ _ _ _ _ E) as (pre & post & Ee & <- & _). pose proof (proj2 (to_valid _ _ Hok)) as Hs. rewrite Ee in Hs.
  apply Z.ltb_lt in Hy. eapply Forall_impl; [by apply (pb_around e pre y post Hs)|]. intros n Hn. by apply Z.ltb_lt.
Qed.

Context {C R : Type} (go : C → node → bool) (upd : C → node → C) (del' : C → node → bool) (del : node → bool).
Context (cmax : C → Z) (cend : C → option pat) (clast : C → option node) (pay : C → R) (padd : R → node → R).

(** What the contexts of the callbacks have in common. *)
Record bounded : Prop := {
  bd_end c n : cend (upd c n) = cend c;
  bd_past c n : past_end d (cend c) (node_key n) = true →
    go c n = false ∧ del' c n = false ∧ cmax (upd c n) = cmax c ∧ pay (upd c n) = pay c;
  bd_visit c n : past_end d (cend c) (node_key n) = false → 0 < cmax c →
    go c n = negb (cmax (upd c n) <=? 0) ∧ del' c n = del n ∧ cmax (upd c n) < cmax c ∧ clast (upd c n) = Some n ∧
    pay (upd c n) = padd (pay c) n }.

Context (Hb : bounded).

Definition stay ys : list node := filter (λ n, del n = false) ys.

(** A visit that changes nothing. *)
Definition inert n : Prop := (∀ r, padd r n = r) ∧ del n = false.

Lemma traverse_run_ok c ys :
  0 < cmax c →
  ∃ vis rest, ys = vis ++ rest ∧ (run go upd del' c ys).2 = stay vis ++ rest ∧
    pay (run go upd del' c ys).1 = fold_left padd vis (pay c) ∧
    ((0 < cmax (run go upd del' c ys).1 ∧ (rest = [] ∨ ∃ y rest', rest = y :: rest' ∧ past_end d (cend c) (node_key y) = true)) ∨
     (cmax (run go upd del' c ys).1 <= 0 ∧ ∃ vis0 y, vis = vis0 ++ [y] ∧ clast (run go upd del' c ys).1 = Some y)).
Proof.
  revert c. induction ys as [|y ys IH]; intros c Hc; cbn [run].
  { exists [], []. split_and!; try done. left. auto. }
  destruct (past_end d (cend c) (node_key y)) eqn:Ep.
  - destruct (bd_past Hb c y Ep) as (-> & -> & Em & Epay). exists [], (y :: ys). cbn [fst snd app]. rewrite Em, Epay. split_and!; try done. left. split; [done|right; by exists y, ys].
  - destruct (bd_visit Hb c y Ep Hc) as (-> & -> & Em & El & Epay).
    assert (stay [y] = if del y then [] else [y]) as Est.
    { unfold stay. destruct (del y) eqn:E; [by rewrite filter_cons_False by (by rewrite E)|by rewrite filter_cons_True]. }
    destruct (Z.leb_spec (cmax (upd c y)) 0); cbn [negb].
    + exists [y], ys. cbn [fst snd]. split_and!; [done|by rewrite Est|done|]. right. split; [done|]. by exists [], y.
    + destruct (IH (upd c y)) as (vis & rest & E & E2 & Epay' & Hcase); [done|]. rewrite (bd_end Hb) in Hcase.
      exists (y :: vis), rest. destruct (run go upd del' (upd c y) ys) as [c' r]. cbn [fst snd] in *. split_and!.
      * by rewrite E.
      * rewrite E2, <- Est. unfold stay. by rewrite (filter_cons _ y vis), filter_cons, filter_nil; destruct (decide (del y = false)).
      * rewrite Epay', Epay. done.
      * destruct Hcase as [?|[? (vis0 & z & -> & ?)]]; [by left|right]. split; [done|]. by exists (y :: vis0), z.
Qed.

(** ** What a call has done *)

(** The nodes that were to be visited are [done ++ area]; the call visited some of them.
    [idle]: what is known of the others when the call is the last one. *)
Definition call_result_with (idle : node → Prop) done area e (r : R) (out : outcome pat term R) tb' : Prop :=
  ∃ l' vis rest, area = vis ++ rest ∧ tree_ok tb' l' ∧ els d (t_root tb') = done ++ stay vis ++ rest ∧
    match out with
    | Done r' => r' = fold_left padd vis r ∧ Forall idle rest
    | Trap k e' r' => r' = fold_left padd vis r ∧ e' = e ∧ vis ≠ [] ∧ from_key d (Some k) (t_root tb') = rest
    end.

Definition covers_with (idle : node → Prop) e tb : Prop := ∀ n, n ∈ elements (t_root tb) → past_end d e (node_key n) = true → idle n.

Definition call_result := call_result_with inert.
Definition covers := covers_with inert.

(** What follows the traversal: the result if it has not been cut short, or a continuation;
    a continuation whose key is past the end is not needed. *)
Definition conclude (check : bool) e (c : C) : res (outcome pat term R) :=
  if cmax c >? 0 then Ok (Done (pay c))
  else key ← last_key (clast c); if check && past_end d e key then Ok (Done (pay c)) else Ok (Trap key e (pay c)).

Context (doit : table → nat → C → res (bool * table * C)) (static : bool) (Hdoit : doit_ok doit static go upd del').

Lemma call_ok_with (idle : node → Prop) tb l s lastkey c e check :
  tree_ok tb l → stack_ok (t_root tb) (stack_of static tb s) → 0 < cmax c → (cend c = e ∨ cend c = None) → covers_with idle e tb →
  ∃ tb' s' c' done out, traverse doit d static tb s lastkey c = Ok (tb', s', c') ∧ els d (t_root tb) = done ++ from_key d lastkey (t_root tb) ∧
    conclude check e c' = Ok out ∧ call_result_with idle done (from_key d lastkey (t_root tb)) e (pay c) out tb' ∧
    stack_ok (t_root tb') (stack_of static tb' s') ∧ (static = false → tb' = tb) ∧ t_busy tb' = t_busy tb ∧
    c' = (run go upd del' c (from_key d lastkey (t_root tb))).1.
Proof.
  intros Hok Hs Hc He Hcov. destruct (traverse_ok doit d static go upd del' Hdoit tb l s lastkey c Hok Hs) as (tb' & s' & l' & done & E & Ed & Hok' & Ed' & Hs' & Hsame & Hbusy).
  set (area := from_key d lastkey (t_root tb)) in *. destruct (traverse_run_ok c area Hc) as (vis & rest & Ea & E2 & Epay & Hcase).
  assert (∀ y rest', rest = y :: rest' → past_end d e (node_key y) = true → Forall idle rest) as Hpast.
  { intros y rest' -> Hy. rewrite Ea, app_assoc in Ed. pose proof (past_ahead tb l e _ y rest' Hok Ed Hy) as Hall. rewrite Forall_forall in Hall |- *.
    intros n Hn. apply Hcov; [|by apply Hall]. apply (els_elem d). rewrite Ed. apply elem_of_app. by right. }
  exists tb', s', (run go upd del' c area).1, done. unfold conclude, call_result_with. rewrite E2 in Ed'. destruct Hcase as [[Hm Hr]|[Hm (vis0 & y & Ev & El)]].
  - rewrite (proj2 (Z.gtb_gt _ _)) by lia. eexists. split_and!; try done. exists l', vis, rest. split_and!; try done.
    destruct Hr as [->|(y & rest' & Er & Hy)]; [done|]. eapply Hpast; [done|]. destruct He as [<-|He]; [done|by rewrite He in Hy].
  - destruct (Z.gtb_spec (cmax (run go upd del' c area).1) 0); [lia|]. rewrite El. cbn [last_key]. rewrite bind_Ok.
    assert (els d (t_root tb) = (done ++ vis0) ++ y :: rest) as Ey by (rewrite Ed, Ea, Ev, <- !app_assoc; done).
    destruct (check && past_end d e (node_key y)) eqn:Ecp.
    + apply andb_true_iff in Ecp as [_ Hy]. eexists. split_and!; try done. exists l', vis, rest. split_and!; try done.
      pose proof (past_ahead tb l e _ y rest Hok Ey Hy) as Hall. apply Forall_cons in Hall as [_ Hall]. rewrite Forall_forall in Hall |- *.
      intros n Hn. apply Hcov; [|by apply Hall]. apply (els_elem d). rewrite Ey, elem_of_app, elem_of_cons. auto.
    + eexists. split_and!; try done. exists l', vis, rest. split_and!; try done; [by destruct vis0; subst vis|].
      cbn [from_key]. destruct (ahead_of_node tb l d _ y rest Hok Ey) as [Hbey Hnot].
      rewrite Ed', app_assoc, filter_app, (list_filter_True _ rest Hbey), list_filter_False; [done|].
      apply Forall_app in Hnot as [[Hdone Hvis0]%Forall_app Hy]. apply Forall_app. split; [done|].
      apply Forall_forall. intros n [_ Hn]%list_elem_of_filter. rewrite Ev in Hn. revert n Hn. apply Forall_forall. by apply Forall_app.
Qed.

Lemma call_ok tb l s lastkey c e check :
  tree_ok tb l → stack_ok (t_root tb) (stack_of static tb s) → 0 < cmax c → (cend c = e ∨ cend c = None) → covers e tb →
  ∃ tb' s' c' done out, traverse doit d static tb s lastkey c = Ok (tb', s', c') ∧ els d (t_root tb) = done ++ from_key d lastkey (t_root tb) ∧
    conclude check e c' = Ok out ∧ call_result done (from_key d lastkey (t_root tb)) e (pay c) out tb' ∧
    stack_ok (t_root tb') (stack_of static tb' s') ∧ (static = false → tb' = tb) ∧ t_busy tb' = t_busy tb ∧
    c' = (run go upd del' c (from_key d lastkey (t_root tb))).1.
Proof. apply call_ok_with. Qed.

(** ** All calls together *)

Fixpoint finish (fuel : nat) (cont : term → option pat → R → table → res (outcome pat term R * table)) (out : outcome pat term R) tb : res (R * table) :=
  match out with
  | Done r => Ok (r, tb)
  | Trap k e r =>
      match fuel with
      | O => NoFuel
      | S fuel => '(out, tb) ← cont k e r tb; finish fuel cont out tb
      end
  end.

Definition cont_ok (cont : term → option pat → R → table → res (outcome pat term R * table)) : Prop := ∀ tb l k e r,
  tree_ok tb l → covers e tb →
  ∃ done out tb', cont k e r tb = Ok (out, tb') ∧ els d (t_root tb) = done ++ from_key d (Some k) (t_root tb) ∧
    call_result done (from_key d (Some k) (t_root tb)) e r out tb'.

Lemma fold_inert ys r : Forall inert ys → fold_left padd ys r = r ∧ stay ys = ys.
Proof.
  intros Hi. split.
  - revert r. induction Hi as [|y ys [Hy _] _ IH]; intros r; cbn; [done|]. by rewrite Hy.
  - apply list_filter_True. eapply Forall_impl; [exact Hi|]. by intros y [_ ?].
Qed.

Lemma finish_ok cont done area e r out tb' fuel :
  cont_ok cont → call_result done area e r out tb' → (∀ n, n ∈ done ++ area → past_end d e (node_key n) = true → inert n) → (length area <= fuel)%nat →
  ∃ tb2 l2, finish fuel cont out tb' = Ok (fold_left padd area r, tb2) ∧ tree_ok tb2 l2 ∧ els d (t_root tb2) = done ++ stay area.
Proof.
  intros Hcont. revert done area r out tb'. induction fuel as [|fuel IH]; intros done area r out tb' (l' & vis & rest & -> & Hok' & Ed & Hout) Hin Hf;
    destruct out as [r'|k e' r'].
  1,3: destruct Hout as [-> Hi]; destruct (fold_inert rest (fold_left padd vis r) Hi) as [Hfold Hstay]; exists tb', l'; rewrite fold_left_app, Hfold;
    split_and!; [done|done|]; unfold stay in *; by rewrite filter_app, Hstay.
  - destruct Hout as (_ & _ & Hne & _). destruct vis; [done|]. cbn in Hf. lia.
  - destruct Hout as (-> & -> & Hne & Ek). cbn [finish].
    assert (covers e tb') as Hcov.
    { intros n Hn%(els_elem d) Hp. apply Hin; [|done]. rewrite Ed in Hn. rewrite !elem_of_app in *. destruct Hn as [?|[Hn|?]]; auto. apply list_elem_of_filter in Hn as [_ ?]. auto. }
    destruct (Hcont tb' l' k e (fold_left padd vis r) Hok' Hcov) as (done2 & out2 & tb2 & -> & Ed2 & Hr2). rewrite bind_Ok.
    rewrite Ek in Ed2, Hr2. rewrite Ed, app_assoc in Ed2. apply app_inv_tail in Ed2. subst done2.
    destruct (IH _ _ _ _ _ Hr2) as (tb3 & l3 & -> & Hok3 & Ed3).
    + intros n Hn Hp. apply Hin; [|done]. rewrite !elem_of_app in *. destruct Hn as [[?|Hn]|?]; auto. apply list_elem_of_filter in Hn as [_ ?]. auto.
    + rewrite length_app in Hf. destruct vis; [done|]. cbn in Hf. lia.
    + exists tb3, l3. split_and!; [by rewrite fold_left_app|done|]. rewrite Ed3, <- app_assoc. unfold stay. by rewrite filter_app.
Qed.

End Bounded.

End Trav.
