(* ===== verification/DbTreeSelProps.v ===== *)
(** ETS ordered sets: the properties of the select functions (DbTreeSelect.v).

    Selecting, counting and deleting treat every object that matches exactly once and in
    order, whatever part of the tree is searched and however often the functions trap, if the
    part that is left out holds nothing that matches. *)
From stdpp Require Import sorting.
From S2P Require Import Prelude Avl DbHash DbTree DbTreePath DbTreeOps DbTreeUpd DbTreeSelect DbTreeTrav DbTreeProps.
#[local] Open Scope Z_scope.

Section Sel.
Context {pat term obj V : Type} `{DbTerms term obj} `{TermOrder term V} `{!KeyCmp V kcmp} `{PartlyBound pat term} `{!PartlyBoundLaws pat term V}.
Abbreviation node := (TreeDbTerm obj).
Abbreviation table := (DbTableTree obj).
Abbreviation nkey := (λ n : node, keyval (node_key n)).
Abbreviation tsorted := (sorted (kcmp (V:=V)) nkey).
Implicit Types (tb : table) (n x y : node) (t this root : tree node) (s : DbTreeStack) (key k : term) (d : dir) (arr : list nat)
  (o : obj) (l : list obj) (mpi : mp_info pat).

(** * The search area *)

Section Search.
Context tb l (Hok : tree_ok tb l).

Lemma pb_search_ok d e t stk :
  t ≠ Null → plug_all stk t = t_root tb → Forall (λ n, ¬ pb_beyond d e n) (bef d stk) → Forall (pb_beyond d e) (aft d stk) →
  ∃ this arr, pb_search d tb e t (frame_addrs stk) = Ok (this, arr) ∧
    found_at (t_root tb) (mk_stack arr 0) this (head (filter (pb_beyond d e) (els d t ++ aft d stk))).
Proof.
  pose proof (to_nodup _ _ Hok) as Hnd. pose proof (tree_ok_height _ _ Hok) as Hh. pose proof (proj2 (to_valid _ _ Hok)) as Hsort.
  revert stk. induction t as [|l0 IHl b n r IHr]; intros stk Hne E Hb Ha; [done|]. cbn [pb_search].
  rewrite (PUSH_NODE_ok _ n) by (by eapply (path_room tb Hh)). rewrite bind_Ok.
  change (match d with DIR_LEFT => l0 | DIR_RIGHT => r end) with (kid d l0 r).
  assert (match d with DIR_LEFT => r | DIR_RIGHT => l0 end = kid (opp d) l0 r) as -> by (by destruct d).
  assert (∀ d', kid d' l0 r ≠ Null → Forall (λ n, ¬ pb_beyond d e n) (bef d (enter d' l0 b n r :: stk)) → Forall (pb_beyond d e) (aft d (enter d' l0 b n r :: stk)) →
    ∃ this arr, pb_search d tb e (kid d' l0 r) (n_addr n :: frame_addrs stk) = Ok (this, arr) ∧
    found_at (t_root tb) (mk_stack arr 0) this (head (filter (pb_beyond d e) (els d (kid d' l0 r) ++ aft d (enter d' l0 b n r :: stk))))) as IH.
  { intros d' Hk Hb' Ha'. replace (n_addr n :: frame_addrs stk) with (frame_addrs (enter d' l0 b n r :: stk)) by (unfold frame_addrs; by rewrite fmap_cons, f_node_enter).
    assert (plug_all (enter d' l0 b n r :: stk) (kid d' l0 r) = t_root tb) as E' by (cbn [plug_all]; by rewrite plug_enter).
    destruct d'; [by apply IHl|by apply IHr]. }
  clear IHl IHr. pose proof (at_node_ahead d stk _ l0 b n r _ _ E eq_refl eq_refl) as Eah. pose proof (at_node_behind d stk l0 n r _ _ eq_refl eq_refl) as Ebe.
  pose proof Hsort as Hs. rewrite <- E, elements_plug_all in Hs. cbn [elements] in Hs. rewrite <- app_assoc in Hs. cbn [app] in Hs. rewrite app_assoc in Hs.
  destruct (pb_around d e _ n _ Hs) as [Hbey Hnot]. rewrite Eah in Hbey. rewrite Ebe in Hnot.
  rewrite els_node, <- app_assoc, filter_app. cbn [app]. rewrite filter_cons, filter_app.
  destruct (Z.geb_spec (towards d (cmp_partly_bound e (node_key n))) 0) as [Hc|Hc].
  - assert (¬ pb_beyond d e n) as Hn by (unfold pb_beyond; lia). specialize (Hnot Hn). apply Forall_app in Hnot as [_ Hnot].
    rewrite (list_filter_False _ _ Hnot), decide_False by done. cbn [app]. destruct (kid d l0 r) as [|cl cb cn cr] eqn:Ek.
    + destruct (pop_until_ok tb Hnd d _ stk l0 b n r (stops_not_from d) E) as (this & arr & -> & Hr). exists this, arr. split; [done|].
      rewrite els_null, filter_nil. cbn [app]. rewrite (list_filter_True _ _ Ha). destruct (aft d stk) as [|y ys]; cbn [head found_at].
      * destruct Hr as [-> ->]. done.
      * destruct Hr as (pre & post & Hat & _). exists pre, post. split; [done|by left].
    + rewrite <- Ek. destruct (IH d) as (this & arr & Es & Hf).
      * by rewrite Ek.
      * rewrite bef_same, f_other_enter, f_node_enter by apply f_dir_enter. repeat apply Forall_app_2; [done..|]. by constructor.
      * by rewrite aft_same by apply f_dir_enter.
      * exists this, arr. split; [done|]. rewrite aft_same, filter_app in Hf by apply f_dir_enter. done.
  - assert (pb_beyond d e n) as Hn by done. specialize (Hbey Hn). apply Forall_app in Hbey as [Hbey _].
    rewrite decide_True by done. rewrite (list_filter_True _ _ Hbey), (list_filter_True _ _ Ha).
    destruct (kid (opp d) l0 r) as [|cl cb cn cr] eqn:Ek.
    + exists (Node l0 b n r), (n_addr n :: frame_addrs stk). split; [done|]. rewrite els_null, filter_nil. cbn [app head found_at].
      exists (before stk ++ elements l0), (elements r ++ after stk). split; [by exists stk, l0, b, r|by left].
    + rewrite <- Ek. destruct (IH (opp d)) as (this & arr & Es & Hf).
      * by rewrite Ek.
      * by rewrite bef_other by apply f_dir_enter.
      * rewrite aft_other, f_other_enter, f_node_enter, opp_opp by apply f_dir_enter. constructor; [done|]. by apply Forall_app_2.
      * exists this, arr. split; [done|]. rewrite aft_other, f_other_enter, f_node_enter, opp_opp, filter_app, filter_cons, filter_app in Hf by apply f_dir_enter.
        rewrite decide_True, (list_filter_True _ _ Hbey), (list_filter_True _ _ Ha) in Hf by done. done.
Qed.

(** The first node beyond a partly bound key. *)
Lemma find_from_pb_key_ok d e :
  ∃ this s, find_from_pb_key d tb e = Ok (this, s) ∧ found_at (t_root tb) s this (head (filter (pb_beyond d e) (els d (t_root tb)))).
Proof.
  unfold find_from_pb_key. destruct (tree_case (t_root tb)) as [Er|(rl & rb & rn & rr & Er)].
  - rewrite Er. exists Null, (mk_stack [] 0). split; [done|]. by rewrite els_null.
  - destruct (pb_search_ok d e (t_root tb) []) as (this & arr & E & Hf); [by rewrite Er|done|by destruct d|by destruct d|].
    rewrite Er. cbv iota. rewrite <- Er. unfold frame_addrs in E. cbn [fmap list_fmap] in E. rewrite E, bind_Ok. exists this, (mk_stack arr 0). split; [done|].
    assert (aft d ([] : list (frame node)) = []) as Eaft by (by destruct d). by rewrite Eaft, app_nil_r in Hf.
Qed.

End Search.

(** The ends of the search area, for the direction of the traversal. *)
Definition from_end d mpi : pat := match d with DIR_LEFT => most mpi | DIR_RIGHT => least mpi end.
Definition to_end d mpi : option pat := if some_limitation mpi then Some (match d with DIR_LEFT => least mpi | DIR_RIGHT => most mpi end) else None.

(** The traversal starts with the first object that is not before the search area. *)
Lemma start_select_ok tb l s d mpi :
  tree_ok tb l → stack_ok (t_root tb) s →
  ∃ lk s', start_select d tb s mpi = Ok (lk, to_end d mpi, s') ∧ stack_ok (t_root tb) s' ∧
    ∀ done, els d (t_root tb) = done ++ from_key d lk (t_root tb) → ∀ n, n ∈ done → some_limitation mpi = true ∧ pb_beyond (opp d) (from_end d mpi) n.
Proof.
  intros Hok Hs. unfold start_select, start_backwards, find_next_from_pb_key, find_prev_from_pb_key, to_end.
  assert (∀ (lk : option term) done, lk = None → els d (t_root tb) = done ++ from_key d lk (t_root tb) → done = []) as Hall.
  { intros lk done -> E. cbn [from_key] in E. apply (f_equal length) in E. rewrite length_app in E. destruct done; [done|cbn in E; lia]. }
  destruct (some_limitation mpi) eqn:El.
  2: { exists None, s. split; [by destruct d|]. split; [done|]. intros done E n Hn. rewrite (Hall _ _ eq_refl E) in Hn. by apply elem_of_nil in Hn. }
  destruct (find_from_pb_key_ok tb l Hok (opp d) (from_end d mpi)) as (this & s' & E & Hf).
  exists (match this with Null => None | Node _ _ n _ => Some (node_key n) end), s'. split; [|split; [by eapply found_stack_ok|]].
  { destruct d; cbn [opp from_end] in E; by rewrite E, bind_Ok. }
  intros done Ed n Hn. split; [done|]. destruct (head (filter _ _)) as [y|] eqn:Eh.
  - destruct Hf as (pre & post & Hl). destruct (located_node _ _ _ _ _ _ Hl) as (? & ? & ? & ->).
    pose proof (els_at tb d _ _ _ _ _ (lo_at _ _ _ _ _ _ Hl)) as Ey. destruct (ahead_of_node tb l d _ y _ Hok Ey) as [Hb Hnb].
    assert (pb_beyond (opp d) (from_end d mpi) y) as Hy.
    { assert (y ∈ filter (pb_beyond (opp d) (from_end d mpi)) (els (opp d) (t_root tb))) as [? _]%list_elem_of_filter; [|done].
      destruct (filter _ _); [done|]. injection Eh as ->. left. }
    cbn [from_key] in Ed. rewrite Ey, cons_middle, app_assoc, filter_app, (list_filter_False _ _ Hnb), (list_filter_True _ _ Hb) in Ed. cbn [app] in Ed.
    apply app_inv_tail in Ed. subst done.
    pose proof (at_node_elements _ _ _ _ _ _ (lo_at _ _ _ _ _ _ Hl)) as Ee. pose proof (proj2 (to_valid _ _ Hok)) as Hsort. rewrite Ee in Hsort.
    destruct (pb_around (opp d) (from_end d mpi) pre y post Hsort) as [Hbey _]. specialize (Hbey Hy).
    assert (ahead (opp d) pre post = rev (behind d pre post)) as Ea by (destruct d; cbn; [by rewrite rev_involutive|done]).
    rewrite Ea in Hbey. apply elem_of_app in Hn as [Hn|Hn%list_elem_of_singleton]; [|by subst].
    rewrite Forall_forall in Hbey. apply Hbey. rewrite list_elem_of_In, <- in_rev, <- list_elem_of_In. done.
  - destruct Hf as [-> _]. rewrite (Hall _ _ eq_refl Ed) in Hn. by apply elem_of_nil in Hn.
Qed.

(** What the analysis of the patterns promises: an object that matches is in the search area. *)
Record range_sound mpi tb (m : obj → bool) : Prop := {
  rs_nothing : something_can_match mpi = false → ∀ n, n ∈ elements (t_root tb) → m (n_obj n) = false;
  rs_single : something_can_match mpi = true → single_key mpi = true →
    ∃ y, y ∈ elements (t_root tb) ∧ n_addr y = save_term mpi ∧ ∀ n, n ∈ elements (t_root tb) → n ≠ y → m (n_obj n) = false;
  rs_range : some_limitation mpi = true → ∀ n, n ∈ elements (t_root tb) →
    0 < cmp_partly_bound (least mpi) (node_key n) ∨ cmp_partly_bound (most mpi) (node_key n) < 0 → m (n_obj n) = false }.

Lemma range_past mpi tb m d n :
  range_sound mpi tb m → n ∈ elements (t_root tb) → past_end d (to_end d mpi) (node_key n) = true → m (n_obj n) = false.
Proof.
  intros Hr Hn Hp. unfold to_end in Hp. destruct (some_limitation mpi) eqn:El; [|done]. apply (rs_range _ _ _ Hr El n Hn).
  destruct d; cbn in Hp; apply Z.ltb_lt in Hp; [left|right]; lia.
Qed.

Lemma range_before mpi tb m d n :
  range_sound mpi tb m → n ∈ elements (t_root tb) → some_limitation mpi = true → pb_beyond (opp d) (from_end d mpi) n → m (n_obj n) = false.
Proof.
  intros Hr Hn El Hp. apply (rs_range _ _ _ Hr El n Hn). unfold pb_beyond in Hp. destruct d; cbn in Hp; [right|left]; lia.
Qed.

(** * The callbacks *)

Lemma node_of_elem tb l n : tree_ok tb l → n ∈ elements (t_root tb) → node_of tb (n_addr n) = Ok n.
Proof. intros Hok Hn. unfold node_of. destruct (node_deref_elem tb l n Hok Hn) as (? & ? & ? & ->). by rewrite bind_Ok. Qed.

Lemma elem_mid {A} (x : A) pre post : x ∈ pre ++ x :: post.
Proof. apply elem_of_app. right. left. Qed.

(** ** Counting *)

Section Count.
Context (mp : obj → bool).
Definition count_past (c : count_context pat obj) n : bool := past_end DIR_LEFT (c_end c) (node_key n).
Definition count_go (c : count_context pat obj) n : bool := if count_past c n then false else negb (c_max c - 1 <=? 0).
Definition count_upd (c : count_context pat obj) n : count_context pat obj :=
  if count_past c n then mk_count (c_end c) (Some n) (c_max c) (c_got c)
  else mk_count (c_end c) (Some n) (c_max c - 1) (if mp (n_obj n) then c_got c + 1 else c_got c).
Definition count_add (r : Z) n : Z := if mp (n_obj n) then r + 1 else r.

Lemma count_bounded : bounded DIR_LEFT count_go count_upd (λ _ _, false) (λ _, false) c_max c_end c_last c_got count_add.
Proof.
  split; intros c n; unfold count_go, count_upd, count_past, count_add.
  - by destruct (past_end _ _ _).
  - by intros ->.
  - intros -> Hc. cbn. split_and!; (done || lia).
Qed.

Lemma count_doit_ok : doit_ok (doit_select_count mp) false count_go count_upd (λ _ _, false).
Proof.
  intros tb l c pre n post Hok E. exists tb. split; [|done].
  unfold doit_select_count. rewrite (node_of_elem tb l) by (done || rewrite E; apply elem_mid). rewrite bind_Ok.
  unfold count_go, count_upd, count_past. by destruct (past_end _ _ _).
Qed.

Lemma count_inert n : mp (n_obj n) = false → inert (λ _, false) count_add n.
Proof. intros E. split; [|done]. intros r. unfold count_add. by rewrite E. Qed.

Lemma count_fold ys r : fold_left count_add ys r = r + zlen (filter (λ n, mp (n_obj n) = true) ys).
Proof.
  revert r. induction ys as [|y ys IH]; intros r; cbn [fold_left]; [rewrite filter_nil, zlen_nil; lia|]. rewrite IH, filter_cons. unfold count_add.
  destruct (decide (mp (n_obj y) = true)) as [->|Hne]; [rewrite zlen_cons; lia|]. by rewrite (not_true_is_false _ Hne).
Qed.
End Count.

(** ** Deleting *)

Lemma find_key_at (lo hi : list node) n : tsorted (lo ++ n :: hi) → find_key kcmp nkey (keyval (node_key n)) (lo ++ n :: hi) = Some n.
Proof.
  intros Hs. destruct (sorted_around kcmp nkey (keyval (node_key n)) _ _ _ Hs) as [_ Hl].
  assert (at_key kcmp nkey (keyval (node_key n)) n = 0) as E by apply kcmp_self.
  rewrite find_key_app, find_key_gt by (apply Hl; lia). cbn [find_key]. by rewrite E.
Qed.

(** The node with the key is taken out; the others stay as they are. *)
Lemma linkout_node tb l pre n post :
  tree_ok tb l → elements (t_root tb) = pre ++ n :: post →
  ∃ tb', linkout_tree tb (node_key n) = Ok (Some n, tb') ∧ tree_ok tb' (n_obj <$> pre ++ post) ∧ elements (t_root tb') = pre ++ post ∧ t_busy tb' = t_busy tb.
Proof.
  intros Hok E. destruct (linkout_tree_ok tb l (node_key n) Hok) as (r & tb' & El & Hok' & Hb & _).
  unfold linkout_tree in El. change (t_root (reset_static_stack tb)) with (t_root tb) in El.
  pose proof (proj2 (to_valid _ _ Hok)) as Hs. rewrite E in Hs.
  destruct (tree_remove_spec kcmp nkey (keyval (node_key n)) (t_root tb) (to_valid _ _ Hok) (tree_ok_small _ _ Hok)) as (r' & Er & Hr).
  change (tree_remove (cmp_key (node_key n)) (t_root tb)) with (tree_remove (at_key kcmp nkey (keyval (node_key n))) (t_root tb)) in El.
  rewrite Er, bind_Ok in El. rewrite E, (find_key_at _ _ _ Hs) in Hr. destruct Hr as (t' & lo & hi & -> & _ & Ee & Ee' & Hlo & _).
  injection El as <- <-. eexists. split; [unfold linkout_tree; change (t_root (reset_static_stack tb)) with (t_root tb);
    change (tree_remove (cmp_key (node_key n)) (t_root tb)) with (tree_remove (at_key kcmp nkey (keyval (node_key n))) (t_root tb)); by rewrite Er, bind_Ok|].
  assert (lo = pre ∧ hi = post) as [-> ->].
  { destruct (sorted_around kcmp nkey (keyval (node_key n)) _ _ _ Hs) as [_ Hgt]. assert (at_key kcmp nkey (keyval (node_key n)) n = 0) as E0 by apply kcmp_self.
    specialize (Hgt ltac:(lia)). clear -Ee Hgt Hlo E0. revert lo Ee Hlo. induction Hgt as [|p pre Hp Hpre IH]; intros [|a lo] Ee Hlo; cbn in Ee.
    - by injection Ee as ->.
    - injection Ee as -> _. apply Forall_cons in Hlo as [Ha _]. lia.
    - injection Ee as <- _. lia.
    - injection Ee as <- Ee. apply Forall_cons in Hlo as [_ Hlo]. destruct (IH lo Ee Hlo) as [-> ->]. done. }
  cbn [t_root set_root] in *. split; [|by rewrite Ee'].
  rewrite <- Ee', (to_objs _ _ Hok' : n_obj <$> elements t' = _). done.
Qed.

Section Delete.
Context (mp : obj → bool).
Definition delete_past (c : delete_context pat obj) n : bool := past_end DIR_LEFT (sd_end c) (node_key n).
Definition delete_go (c : delete_context pat obj) n : bool := if delete_past c n then false else negb (sd_max c - 1 <=? 0).
Definition delete_upd (c : delete_context pat obj) n : delete_context pat obj :=
  if delete_past c n then mk_delete (sd_end c) (Some n) false (sd_max c) (sd_accum c) (free_lastterm c)
  else mk_delete (sd_end c) (Some n) (mp (n_obj n)) (sd_max c - 1) (if mp (n_obj n) then sd_accum c + 1 else sd_accum c) (free_lastterm c).
Definition delete_del (n : node) : bool := mp (n_obj n).
Definition delete_del' (c : delete_context pat obj) n : bool := if delete_past c n then false else delete_del n.
Definition delete_pay (c : delete_context pat obj) : Z * list node := (sd_accum c, free_lastterm c).
Definition delete_add (r : Z * list node) n : Z * list node := if mp (n_obj n) then (r.1 + 1, r.2 ++ [n]) else r.

Lemma delete_bounded : bounded DIR_LEFT delete_go delete_upd delete_del' delete_del sd_max sd_end sd_last delete_pay delete_add.
Proof.
  split; intros c n; unfold delete_go, delete_upd, delete_del', delete_past, delete_add, delete_pay.
  - by destruct (past_end _ _ _).
  - by intros ->.
  - intros -> Hc. cbn. split_and!; try (done || lia). by destruct (mp (n_obj n)).
Qed.

Lemma delete_doit_ok : doit_ok (doit_select_delete mp) true delete_go delete_upd delete_del'.
Proof.
  intros tb l c pre n post Hok E. unfold doit_select_delete. rewrite (node_of_elem tb l) by (done || rewrite E; apply elem_mid). rewrite bind_Ok.
  unfold delete_go, delete_upd, delete_del', delete_del, delete_past. destruct (past_end _ _ _); [by exists tb|].
  destruct (mp (n_obj n)); [|rewrite bind_Ok; by exists tb].
  destruct (linkout_node tb l pre n post Hok E) as (tb' & -> & Hok' & Ee & Hb). rewrite !bind_Ok. by exists tb'.
Qed.

Lemma delete_inert n : mp (n_obj n) = false → inert delete_del delete_add n.
Proof. intros E. split; [|done]. intros r. unfold delete_add. by rewrite E. Qed.

Lemma delete_fold ys r :
  fold_left delete_add ys r = (r.1 + zlen (filter (λ n, mp (n_obj n) = true) ys), r.2 ++ filter (λ n, mp (n_obj n) = true) ys).
Proof.
  revert r. induction ys as [|y ys IH]; intros [a fr]; cbn [fold_left]; [rewrite filter_nil, zlen_nil, app_nil_r; cbn; f_equal; lia|].
  rewrite IH, filter_cons. unfold delete_add. destruct (decide (mp (n_obj y) = true)) as [->|Hne]; cbn [fst snd].
  - rewrite zlen_cons, <- app_assoc. cbn. f_equal. lia.
  - by rewrite (not_true_is_false _ Hne).
Qed.
End Delete.

(** ** Selecting *)

Section Select.
Context {R : Type} (mp : match_prog obj R) (d : dir).
Definition select_past (c : select_context pat obj R) n : bool := past_end d (sl_end c) (node_key n).
Definition select_max (c : select_context pat obj R) n : Z := (if mp_mbuf mp (n_obj n) then 0 else sl_max c) - 1.
Definition select_go (c : select_context pat obj R) n : bool := if select_past c n then false else negb (select_max c n <=? 0).
Definition select_add (r : list R) n : list R := match mp_result mp (n_obj n) with Some x => x :: r | None => r end.
Definition select_upd (c : select_context pat obj R) n : select_context pat obj R :=
  if select_past c n then mk_select (sl_end c) (Some n) (sl_max c) (sl_accum c) (sl_got c)
  else mk_select (sl_end c) (Some n) (select_max c n) (select_add (sl_accum c) n) (sl_got c).

Lemma select_bounded : bounded d select_go select_upd (λ _ _, false) (λ _, false) sl_max sl_end sl_last sl_accum select_add.
Proof.
  split; intros c n; unfold select_go, select_upd, select_past, select_max.
  - by destruct (past_end _ _ _).
  - by intros ->.
  - intros -> Hc. cbn. split_and!; try done. destruct (mp_mbuf _ _); lia.
Qed.

Lemma select_doit_ok : doit_ok (doit_select mp d) false select_go select_upd (λ _ _, false).
Proof.
  intros tb l c pre n post Hok E. exists tb. split; [|done].
  unfold doit_select. rewrite (node_of_elem tb l) by (done || rewrite E; apply elem_mid). rewrite bind_Ok.
  unfold select_go, select_upd, select_past. by destruct (past_end _ _ _).
Qed.

Definition matches (o : obj) : bool := match mp_result mp o with Some _ => true | None => false end.

Lemma select_inert n : matches (n_obj n) = false → inert (λ _, false) select_add n.
Proof. intros E. split; [|done]. intros r. unfold select_add, matches in *. by destruct (mp_result mp (n_obj n)). Qed.

Lemma select_fold ys r : fold_left select_add ys r = rev (omap (λ n, mp_result mp (n_obj n)) ys) ++ r.
Proof.
  revert r. induction ys as [|y ys IH]; intros r; [done|]. cbn [fold_left omap list_omap]. rewrite IH. unfold select_add.
  destruct (mp_result mp (n_obj y)); [|done]. cbn. by rewrite <- app_assoc.
Qed.
End Select.

(** * Whole calls *)

(** The stack of an operation that reads, with the table. *)
Lemma any_stack_tree tb l :
  tree_ok tb l →
  ∃ static s tb1, get_any_stack tb = (static, s, tb1) ∧ tree_ok tb1 l ∧ stack_ok (t_root tb) s ∧ t_root tb1 = t_root tb ∧
    ∀ s', stack_ok (t_root tb) s' → tree_ok (release_stack tb1 static s') l ∧ t_root (release_stack tb1 static s') = t_root tb.
Proof.
  intros Hok. unfold get_any_stack, get_static_stack. destruct (t_busy tb).
  - exists false, (mk_stack [] 0), tb. split_and!; [done|done|by left|done|]. intros s' _. by split.
  - exists true, (t_static tb), (set_busy tb true). split_and!; [done|by apply tree_ok_busy|apply Hok|done|]. intros s' Hs'. split; [|done].
    by destruct Hok; split.
Qed.

Section Whole.
Context {R : Type} (d : dir) (del : node → bool) (padd : R → node → R).
Implicit Types (e : option pat).

Lemma call_result_root done area e r out tb tb' :
  call_result d del padd done area e r out tb → t_root tb' = t_root tb → (∀ l, tree_ok tb l → tree_ok tb' l) →
  call_result d del padd done area e r out tb'.
Proof.
  intros (l' & vis & rest & Ea & Hok & Ed & Hout) E Ht. exists l', vis, rest. rewrite E. split_and!; [done|by apply Ht|done|]. by destruct out.
Qed.

Lemma whole_ok cont fuel out tb tb' done area e r :
  els d (t_root tb) = done ++ area → Forall (inert del padd) done → call_result d del padd done area e r out tb' →
  cont_ok d del padd cont → covers d del padd e tb → (length (elements (t_root tb)) <= fuel)%nat →
  ∃ tb2 l2, finish fuel cont out tb' = Ok (fold_left padd (els d (t_root tb)) r, tb2) ∧ tree_ok tb2 l2 ∧ els d (t_root tb2) = stay del (els d (t_root tb)).
Proof.
  intros E Hi Hr Hcont Hcov Hf.
  destruct (finish_ok d del padd cont done area e r out tb' fuel Hcont Hr) as (tb2 & l2 & -> & Hok & Ed).
  - intros n Hn Hp. apply Hcov; [|done]. apply (els_elem d). by rewrite E.
  - assert (length (els d (t_root tb)) = length (elements (t_root tb))) as El by (destruct d; cbn [els]; [apply length_rev|done]).
    rewrite E, length_app in El. lia.
  - exists tb2, l2. destruct (fold_inert del padd done r Hi) as [Hfold Hstay]. rewrite E, fold_left_app, Hfold. split_and!; [done|done|].
    rewrite Ed. unfold stay in *. by rewrite filter_app, Hstay.
Qed.

(** The case that nothing can match. *)
Lemma nothing_ok tb l e r :
  tree_ok tb l → call_result d del padd (els d (t_root tb)) [] e r (Done r) tb.
Proof. intros Hok. exists l, [], []. split_and!; try done. by rewrite app_nil_r. Qed.

(** The case that a single object can match. *)
Lemma single_ok {C} go upd del' cmax cend clast (pay : C → R) doit static tb l y c e :
  bounded d go upd del' del cmax cend clast pay padd → doit_ok doit static go upd del' → tree_ok tb l → y ∈ elements (t_root tb) →
  (∀ n, n ∈ elements (t_root tb) → n ≠ y → inert del padd n) → cend c = None → 0 < cmax c →
  ∃ tb' done rest, doit tb (n_addr y) c = Ok (go c y, tb', upd c y) ∧ els d (t_root tb) = done ++ y :: rest ∧ Forall (inert del padd) done ∧
    call_result d del padd done (y :: rest) e (pay c) (Done (pay (upd c y))) tb'.
Proof.
  intros Hb Hd Hok Hy Hi Hc Hm. apply (els_elem d) in Hy. apply list_elem_of_split in Hy as (done & rest & E).
  destruct (doit_els doit d static go upd del' Hd tb l c done y rest Hok E) as (tb' & l' & Ed & Hok' & Ee & _ & _).
  destruct (bd_visit _ _ _ _ _ _ _ _ _ _ Hb c y) as (_ & Edel & _ & _ & Epay); [by rewrite Hc|done|].
  assert (NoDup (done ++ y :: rest)) as Hnd by (rewrite <- E; by eapply els_nodup).
  assert (∀ n, n ∈ done ++ rest → inert del padd n) as Hothers.
  { intros n Hn. apply Hi.
    - apply (els_elem d). rewrite E. rewrite elem_of_app in *. destruct Hn; [by left|right; by right].
    - intros ->. rewrite <- Permutation_middle in Hnd. by apply NoDup_cons in Hnd as [? _]. }
  exists tb', done, rest. split_and!; [done|done|apply Forall_forall; intros n Hn; apply Hothers, elem_of_app; by left|].
  exists l', [y], rest. split; [done|]. split; [done|]. split.
  - rewrite Ee, Edel. unfold stay. destruct (del y) eqn:Ey; [by rewrite filter_cons_False by (by rewrite Ey)|by rewrite filter_cons_True].
  - split; [by rewrite Epay|]. apply Forall_forall. intros n Hn. apply Hothers, elem_of_app. by right.
Qed.
End Whole.

Lemma conclude_end {C R} d (cmax : C → Z) (clast : C → option node) (pay : C → R) (check : bool) e c tb out :
  conclude d cmax clast pay check e c = Ok out →
  (if cmax c >? 0 then Ok (Done (pay c), tb)
   else key ← last_key (clast c); if check && past_end d e key then Ok (Done (pay c), tb) else Ok (Trap key e (pay c), tb)) = Ok (out, tb).
Proof.
  unfold conclude. destruct (cmax c >? 0); [by intros [= <-]|]. destruct (last_key (clast c)); cbn; try done. by destruct (check && _); intros [= <-].
Qed.

Lemma sound_covers {R} d del (padd : R → node → R) mpi tb m :
  range_sound mpi tb m → (∀ n, m (n_obj n) = false → inert del padd n) → covers d del padd (to_end d mpi) tb.
Proof. intros Hr Hi n Hn Hp. apply Hi. by eapply range_past. Qed.

(** What is before the area, when the traversal has found where to start. *)
Lemma sound_done {R} d del (padd : R → node → R) mpi tb m done area :
  range_sound mpi tb m → (∀ n, m (n_obj n) = false → inert del padd n) → els d (t_root tb) = done ++ area →
  (∀ n, n ∈ done → some_limitation mpi = true ∧ pb_beyond (opp d) (from_end d mpi) n) → Forall (inert del padd) done.
Proof.
  intros Hr Hi E Hd. apply Forall_forall. intros n Hn. destruct (Hd n Hn) as [Hs Hb]. apply Hi.
  eapply range_before; [done| |done|done]. apply (els_elem d). rewrite E. apply elem_of_app. by left.
Qed.

(** A call that reads: the traversal, and what follows it. *)
Lemma reading_call_ok {C R} d go upd del' del cmax cend clast (pay : C → R) padd doit tb l lk c e check static s tb1 s0 :
  bounded d go upd del' del cmax cend clast pay padd → doit_ok doit false go upd del' →
  tree_ok tb l → covers d del padd e tb → (cend c = e ∨ cend c = None) → 0 < cmax c → tree_ok tb1 l → t_root tb1 = t_root tb →
  get_any_stack tb = (static, s, tb1) →
  (∀ s', stack_ok (t_root tb) s' → tree_ok (release_stack tb1 static s') l ∧ t_root (release_stack tb1 static s') = t_root tb) →
  stack_ok (t_root tb) s0 →
  ∃ dn out tb2,
    ('(tb, s, sc) ← traverse doit d false tb1 s0 lk c;
     let tb := release_stack tb static s in
     if cmax sc >? 0 then Ok (Done (pay sc), tb)
     else
       key ← last_key (clast sc);
       if check && past_end d e key then Ok (Done (pay sc), tb) else Ok (Trap key e (pay sc), tb)) = Ok (out, tb2) ∧
    els d (t_root tb) = dn ++ from_key d lk (t_root tb) ∧ call_result d del padd dn (from_key d lk (t_root tb)) e (pay c) out tb2.
Proof.
  intros Hb Hd Hok Hcov He Hc Hok1 Er _ Hrel Hs. rewrite <- Er in Hs.
  destruct (call_ok d _ _ _ _ _ _ _ _ _ Hb _ false Hd tb1 l s0 lk c e check Hok1 Hs Hc He)
    as (tb' & s' & c' & dn & out & -> & Ed & Ec & Hr & Hs' & Hsame & _); [unfold covers, covers_with; by rewrite Er|].
  specialize (Hsame eq_refl). subst tb'. rewrite bind_Ok. cbn [stack_of] in Hs'. rewrite Er in Hs', Ed, Hr. destruct (Hrel s' Hs') as [Hok2 Er2].
  exists dn, out, (release_stack tb1 static s'). split; [|split; [done|]].
  - apply (conclude_end d cmax clast pay check e c' (release_stack tb1 static s') out Ec).
  - eapply call_result_root; [exact Hr|by rewrite Er2|].
    intros l' Hl'. rewrite <- (to_objs _ _ Hl'), Er, (to_objs _ _ Hok). done.
Qed.

(** ** Counting *)

Lemma count_cont_ok mp : cont_ok DIR_LEFT (λ _, false) (count_add mp) (db_select_count_continue_tree mp).
Proof.
  intros tb l k e r Hok Hcov. unfold db_select_count_continue_tree.
  destruct (any_stack_tree tb l Hok) as (static & s & tb1 & Eg & Hok1 & Hs & Er & Hrel). rewrite Eg.
  destruct (reading_call_ok DIR_LEFT _ _ _ _ _ _ _ _ _ _ tb l (Some k) (mk_count None None 1000 r) e true static s tb1 s (count_bounded mp) (count_doit_ok mp) Hok Hcov)
    as (dn & out & tb2 & E & Ed & Hr); try done; [by right|]. by exists dn, out, tb2.
Qed.

Definition select_count_all (mp : obj → bool) mpi (fuel : nat) tb : res (Z * table) :=
  '(out, tb) ← db_select_count_tree mp mpi tb; finish fuel (db_select_count_continue_tree mp) out tb.

Lemma select_count_ok mp mpi tb l fuel :
  tree_ok tb l → range_sound mpi tb mp → (length l <= fuel)%nat →
  ∃ tb', select_count_all mp mpi fuel tb = Ok (zlen (filter (λ o, mp o = true) l), tb') ∧ tree_ok tb' l.
Proof.
  intros Hok Hr Hf. pose proof (sound_covers DIR_LEFT _ _ mpi tb mp Hr (count_inert mp)) as Hcov.
  assert (∃ dn area out tb', db_select_count_tree mp mpi tb = Ok (out, tb') ∧ els DIR_LEFT (t_root tb) = dn ++ area ∧
    Forall (inert (λ _, false) (count_add mp)) dn ∧ call_result DIR_LEFT (λ _, false) (count_add mp) dn area (to_end DIR_LEFT mpi) 0 out tb')
    as (dn & area & out & tb1 & E & Ed & Hi & Hres).
  { unfold db_select_count_tree. destruct (something_can_match mpi) eqn:Esome; cbn [negb].
    2: { exists (els DIR_LEFT (t_root tb)), [], (Done 0), tb. split_and!; [done|by rewrite app_nil_r| |by eapply nothing_ok].
         apply Forall_forall. intros n Hn. apply count_inert, (rs_nothing _ _ _ Hr Esome). by apply (els_elem DIR_LEFT). }
    destruct (single_key mpi) eqn:Esing.
    { destruct (rs_single _ _ _ Hr Esome Esing) as (y & Hy & <- & Ho).
      destruct (single_ok DIR_LEFT _ _ _ _ _ _ _ _ _ _ _ tb l y (mk_count None None 1000 0) (to_end DIR_LEFT mpi) (count_bounded mp) (count_doit_ok mp) Hok Hy)
        as (tb' & dn & rest & -> & Ed & Hi & Hres); [by intros n Hn Hne; apply count_inert, Ho|done|done|]. rewrite bind_Ok. by exists dn, (y :: rest), (Done (c_got (count_upd mp (mk_count None None 1000 0) y))), tb'. }
    destruct (any_stack_tree tb l Hok) as (static & s & tb1 & Eg & Hok1 & Hs & Er & Hrel). rewrite Eg.
    pose proof Hs as Hs1. rewrite <- Er in Hs1. destruct (start_select_ok tb1 l s DIR_LEFT mpi Hok1 Hs1) as (lk & s0 & Es & Hs0 & Hdn). cbn [start_select] in Es.
    rewrite Es, bind_Ok. rewrite Er in Hs0, Hdn.
    destruct (reading_call_ok DIR_LEFT _ _ _ _ _ _ _ _ _ _ tb l lk (mk_count (to_end DIR_LEFT mpi) None 1000 0) (to_end DIR_LEFT mpi) false static s tb1 s0
      (count_bounded mp) (count_doit_ok mp) Hok Hcov) as (dn & out & tb2 & E & Ed & Hres); try done; [by left|].
    exists dn, (from_key DIR_LEFT lk (t_root tb)), out, tb2. split_and!; [exact E|done| |done].
    eapply sound_done; [done|by apply count_inert|done|by apply Hdn]. }
  unfold select_count_all. rewrite E, bind_Ok.
  destruct (whole_ok DIR_LEFT _ _ (db_select_count_continue_tree mp) fuel out tb tb1 dn area (to_end DIR_LEFT mpi) 0 Ed Hi Hres (count_cont_ok mp) Hcov)
    as (tb2 & l2 & -> & Hok2 & Ed2).
  { pose proof (tree_ok_zlen _ _ Hok). unfold zlen in *. lia. }
  exists tb2. assert (l2 = l) as ->.
  { rewrite <- (to_objs _ _ Hok2), <- (to_objs _ _ Hok). f_equal. unfold stay in Ed2. rewrite list_filter_True in Ed2 by (by apply Forall_true).
    cbn [els] in Ed2. apply (f_equal (rev (A:=_))) in Ed2. by rewrite !rev_involutive in Ed2. }
  split; [|done]. rewrite count_fold. f_equal. f_equal. rewrite <- (to_objs _ _ Hok). cbn [els]. rewrite filter_rev, list_filter_fmap. unfold zlen.
  rewrite length_rev, length_fmap. lia.
Qed.

(** ** Selecting *)

Lemma select_cont_ok {R} (mp : match_prog obj R) (reverse : bool) :
  let d := if reverse then DIR_RIGHT else DIR_LEFT in
  cont_ok d (λ _, false) (select_add mp) (db_select_continue_tree mp reverse).
Proof.
  intros d tb l k e r Hok Hcov. unfold db_select_continue_tree. fold d.
  destruct (any_stack_tree tb l Hok) as (static & s & tb1 & Eg & Hok1 & Hs & Er & Hrel). rewrite Eg.
  destruct (reading_call_ok d _ _ _ _ _ _ _ _ _ _ tb l (Some k) (mk_select None None 1000 r 0) e true static s tb1 s
    (select_bounded mp d) (select_doit_ok mp d) Hok Hcov) as (dn & out & tb2 & E & Ed & Hr); try done; [by right|]. by exists dn, out, tb2.
Qed.

Definition select_all {R} (mp : match_prog obj R) mpi (reverse : bool) (fuel : nat) tb : res (list R * table) :=
  '(out, tb) ← db_select_tree mp mpi reverse tb; finish fuel (db_select_continue_tree mp reverse) out tb.

(** A traversal in a direction finds the objects in that order. *)
Lemma omap_els {R} (f : obj → option R) d tb l :
  tree_ok tb l → omap (λ n, f (n_obj n)) (els d (t_root tb)) = match d with DIR_RIGHT => omap f l | DIR_LEFT => rev (omap f l) end.
Proof.
  intros Hok. assert (∀ ln : list node, omap (λ n, f (n_obj n)) ln = omap f (n_obj <$> ln)) as Ho.
  { intros ln. induction ln as [|n ln IH]; [done|]. cbn. by rewrite IH. }
  rewrite <- (to_objs _ _ Hok). destruct d; cbn [els]; rewrite Ho; [|done].
  induction (elements (t_root tb)) as [|n ln IH]; [done|]. cbn [rev]. rewrite fmap_app, omap_app, IH. cbn. destruct (f (n_obj n)); [done|]. by rewrite app_nil_r.
Qed.

(** Nothing has changed if nothing was deleted. *)
Lemma unchanged_ok tb tb' l l' d :
  tree_ok tb l → tree_ok tb' l' → els d (t_root tb') = stay (λ _ : node, false) (els d (t_root tb)) → l' = l.
Proof.
  intros Hok Hok' E. unfold stay in E. rewrite list_filter_True in E by (by apply Forall_true). rewrite <- (to_objs _ _ Hok'), <- (to_objs _ _ Hok). f_equal.
  destruct d; cbn [els] in E; [|done]. apply (f_equal (rev (A:=_))) in E. by rewrite !rev_involutive in E.
Qed.

Lemma select_ok {R} (mp : match_prog obj R) mpi (reverse : bool) tb l fuel :
  tree_ok tb l → range_sound mpi tb (matches mp) → (length l <= fuel)%nat →
  ∃ tb', select_all mp mpi reverse fuel tb = Ok (if reverse then rev (omap (mp_result mp) l) else omap (mp_result mp) l, tb') ∧ tree_ok tb' l.
Proof.
  intros Hok Hr Hf. set (d := if reverse then DIR_RIGHT else DIR_LEFT).
  pose proof (sound_covers d _ _ mpi tb (matches mp) Hr (select_inert mp)) as Hcov.
  assert (∃ dn area out tb', db_select_tree mp mpi reverse tb = Ok (out, tb') ∧ els d (t_root tb) = dn ++ area ∧
    Forall (inert (λ _, false) (select_add mp)) dn ∧ call_result d (λ _, false) (select_add mp) dn area (to_end d mpi) [] out tb')
    as (dn & area & out & tb1 & E & Ed & Hi & Hres).
  { unfold db_select_tree. fold d. destruct (something_can_match mpi) eqn:Esome; cbn [negb].
    2: { exists (els d (t_root tb)), [], (Done []), tb. split_and!; [done|by rewrite app_nil_r| |by eapply nothing_ok].
         apply Forall_forall. intros n Hn. apply select_inert, (rs_nothing _ _ _ Hr Esome). by apply (els_elem d). }
    destruct (single_key mpi) eqn:Esing.
    { destruct (rs_single _ _ _ Hr Esome Esing) as (y & Hy & <- & Ho). set (c := mk_select None None 1000 [] 0 : select_context pat obj R).
      destruct (single_ok d _ _ _ _ _ _ _ _ _ _ _ tb l y c (to_end d mpi) (select_bounded mp d) (select_doit_ok mp d) Hok Hy)
        as (tb' & dn & rest & E & Ed & Hi & Hres); [by intros n Hn Hne; apply select_inert, Ho|done|done|].
      exists dn, (y :: rest), (Done (sl_accum (select_upd mp d c y))), tb'; split_and!; [|done|done|done].
      assert (doit_select mp DIR_LEFT tb (n_addr y) c = doit_select mp d tb (n_addr y) c) as -> by (by unfold doit_select); by rewrite E, bind_Ok. }
    destruct (any_stack_tree tb l Hok) as (static & s & tb1 & Eg & Hok1 & Hs & Er & Hrel). rewrite Eg.
    pose proof Hs as Hs1. rewrite <- Er in Hs1. destruct (start_select_ok tb1 l s d mpi Hok1 Hs1) as (lk & s0 & Es & Hs0 & Hdn).
    rewrite Es, bind_Ok. rewrite Er in Hs0, Hdn.
    destruct (reading_call_ok d _ _ _ _ _ _ _ _ _ _ tb l lk (mk_select (to_end d mpi) None 1000 [] 0) (to_end d mpi) false static s tb1 s0
      (select_bounded mp d) (select_doit_ok mp d) Hok Hcov) as (dn & out & tb2 & E & Ed & Hres); try done; [by left|].
    exists dn, (from_key d lk (t_root tb)), out, tb2. split_and!; [exact E|done| |done].
    eapply sound_done; [done|by apply select_inert|done|by apply Hdn]. }
  unfold select_all. rewrite E, bind_Ok.
  destruct (whole_ok d _ _ (db_select_continue_tree mp reverse) fuel out tb tb1 dn area (to_end d mpi) [] Ed Hi Hres (select_cont_ok mp reverse) Hcov)
    as (tb2 & l2 & -> & Hok2 & Ed2).
  { pose proof (tree_ok_zlen _ _ Hok). unfold zlen in *. lia. }
  exists tb2. rewrite (unchanged_ok _ _ _ _ _ Hok Hok2 Ed2) in Hok2. split; [|done].
  rewrite select_fold, app_nil_r, (omap_els _ d tb l Hok). subst d. destruct reverse; [done|by rewrite rev_involutive].
Qed.

(** ** Deleting *)

(** The outcome with the nodes that have been freed by all calls. *)
Definition with_freed (fr : list node) (r : outcome pat term Z * list node * table) : outcome pat term (Z * list node) * table :=
  let '(out, fr', tb) := r in
  (match out with Done a => Done (a, fr ++ fr') | Trap k e a => Trap k e (a, fr ++ fr') end, tb).

Definition delete_cont (mp : obj → bool) k (e : option pat) (r : Z * list node) tb : res (outcome pat term (Z * list node) * table) :=
  x ← db_select_delete_continue_tree mp k e r.1 tb; Ok (with_freed r.2 x).

Definition select_delete_all (mp : obj → bool) mpi (fuel : nat) tb : res (Z * list node * table) :=
  x ← db_select_delete_tree mp mpi tb; let '(out, tb) := with_freed [] x in finish fuel (delete_cont mp) out tb.

Lemma delete_prefix mp done area (e : option pat) a fr out tb :
  call_result DIR_LEFT (delete_del mp) (delete_add mp) done area e (a, []) out tb →
  call_result DIR_LEFT (delete_del mp) (delete_add mp) done area e (a, fr)
    (match out with Done (a, f) => Done (a, fr ++ f) | Trap k e (a, f) => Trap k e (a, fr ++ f) end) tb.
Proof.
  intros (l' & vis & rest & Ea & Hok & Ed & Hout). exists l', vis, rest. split_and!; try done. rewrite !delete_fold in *. cbn [fst snd app] in *.
  destruct out as [[a' f]|k e' [a' f]]; [destruct Hout as [[= -> ->] ?]|destruct Hout as ([= -> ->] & ?)]; done.
Qed.

(** A call that deletes, from any stack that is good. *)
Lemma delete_call_ok mp tb l lk s e (c : delete_context pat obj) (check : bool) :
  tree_ok tb l → stack_ok (t_root tb) s → t_static tb = s → covers DIR_LEFT (delete_del mp) (delete_add mp) e tb → (sd_end c = e ∨ sd_end c = None) → 0 < sd_max c →
  ∃ dn out tb2,
    (x ← ('(tb, _, sc) ← traverse (doit_select_delete mp) DIR_LEFT true tb s lk c;
          if sd_max sc >? 0 then Ok (Done (sd_accum sc), free_lastterm sc, tb)
          else
            key ← last_key (sd_last sc);
            if check && past_end DIR_LEFT e key then Ok (Done (sd_accum sc), free_lastterm sc, tb)
            else Ok (Trap key e (sd_accum sc), free_lastterm sc, tb)); Ok (with_freed [] x)) = Ok (out, tb2) ∧
    els DIR_LEFT (t_root tb) = dn ++ from_key DIR_LEFT lk (t_root tb) ∧
    call_result DIR_LEFT (delete_del mp) (delete_add mp) dn (from_key DIR_LEFT lk (t_root tb)) e (delete_pay c) out tb2.
Proof.
  intros Hok Hs <- Hcov He Hm.
  destruct (call_ok DIR_LEFT _ _ _ _ _ _ _ _ _ (delete_bounded mp) _ true (delete_doit_ok mp) tb l (t_static tb) lk c e check Hok Hs Hm He Hcov)
    as (tb' & s' & c' & dn & out & -> & Ed & Ec & Hr & _).
  rewrite bind_Ok. exists dn, out, tb'. split; [|done]. unfold conclude in Ec. destruct (sd_max c' >? 0); [by injection Ec as <-|].
  destruct (last_key (sd_last c')) as [key| |]; cbn in Ec |- *; try done. by destruct (check && _); injection Ec as <-.
Qed.

Lemma delete_cont_ok mp : cont_ok DIR_LEFT (delete_del mp) (delete_add mp) (delete_cont mp).
Proof.
  intros tb l k e [a fr] Hok Hcov. unfold delete_cont, db_select_delete_continue_tree. cbn [fst snd].
  destruct (delete_call_ok mp tb l (Some k) (t_static tb) e (mk_delete None None false 1000 a []) true Hok (to_stack _ _ Hok) eq_refl Hcov)
    as (dn & out & tb2 & E & Ed & Hr); [by right|done|].
  pose proof (delete_prefix mp dn _ e a fr out tb2 Hr) as Hr'. exists dn. eexists _, tb2. split; [|by split; [|exact Hr']].
  cbn [andb] in E. destruct (bind_Ok_inv _ _ _ E) as ([[o f] t2] & -> & Eo). rewrite bind_Ok. cbn in Eo |- *. injection Eo as <- ->. by destruct o.
Qed.

Lemma select_delete_ok mp mpi tb l fuel :
  tree_ok tb l → range_sound mpi tb mp → (length l <= fuel)%nat →
  ∃ freed tb', select_delete_all mp mpi fuel tb = Ok (zlen (filter (λ o, mp o = true) l), freed, tb') ∧
    tree_ok tb' (filter (λ o, mp o = false) l) ∧ freed = filter (λ n, mp (n_obj n) = true) (rev (elements (t_root tb))).
Proof.
  intros Hok Hr Hf. pose proof (sound_covers DIR_LEFT (delete_del mp) (delete_add mp) mpi tb mp Hr (delete_inert mp)) as Hcov.
  assert (∃ dn area out tb', (x ← db_select_delete_tree mp mpi tb; Ok (with_freed [] x)) = Ok (out, tb') ∧ els DIR_LEFT (t_root tb) = dn ++ area ∧
    Forall (inert (delete_del mp) (delete_add mp)) dn ∧ call_result DIR_LEFT (delete_del mp) (delete_add mp) dn area (to_end DIR_LEFT mpi) (0, []) out tb')
    as (dn & area & out & tb1 & E & Ed & Hi & Hres).
  { unfold db_select_delete_tree. destruct (something_can_match mpi) eqn:Esome; cbn [negb].
    2: { rewrite bind_Ok. exists (els DIR_LEFT (t_root tb)), [], (Done (0, [])), tb. split_and!; [done|by rewrite app_nil_r| |by eapply nothing_ok].
         apply Forall_forall. intros n Hn. apply delete_inert, (rs_nothing _ _ _ Hr Esome). by apply (els_elem DIR_LEFT). }
    destruct (single_key mpi) eqn:Esing.
    { destruct (rs_single _ _ _ Hr Esome Esing) as (y & Hy & <- & Ho). set (c := mk_delete None None false 1000 0 [] : delete_context pat obj).
      destruct (single_ok DIR_LEFT _ _ _ _ _ _ _ _ _ _ _ tb l y c (to_end DIR_LEFT mpi) (delete_bounded mp) (delete_doit_ok mp) Hok Hy)
        as (tb' & dn & rest & -> & Ed & Hi & Hres); [by intros n Hn Hne; apply delete_inert, Ho|done|done|].
      rewrite !bind_Ok. by exists dn, (y :: rest), (Done (delete_pay (delete_upd mp c y))), tb'. }
    destruct (start_select_ok tb l (t_static tb) DIR_LEFT mpi Hok (to_stack _ _ Hok)) as (lk & s0 & Es & Hs0 & Hdn). cbn [start_select] in Es. rewrite Es, bind_Ok.
    assert (tree_ok (set_static tb s0) l) as Hok0 by (by destruct Hok; split).
    destruct (delete_call_ok mp (set_static tb s0) l lk s0 (to_end DIR_LEFT mpi) (mk_delete (to_end DIR_LEFT mpi) None false 1000 0 []) false Hok0 Hs0 eq_refl Hcov)
      as (dn & out & tb2 & E & Ed & Hres); [by left|done|].
    exists dn, (from_key DIR_LEFT lk (t_root tb)), out, tb2. split_and!; [exact E|done| |done].
    eapply sound_done; [done|by apply delete_inert|exact Ed|by apply Hdn]. }
  unfold select_delete_all. destruct (bind_Ok_inv _ _ _ E) as (x & -> & Ex). rewrite bind_Ok. injection Ex as ->.
  destruct (whole_ok DIR_LEFT _ _ (delete_cont mp) fuel out tb tb1 dn area (to_end DIR_LEFT mpi) (0, []) Ed Hi Hres (delete_cont_ok mp) Hcov)
    as (tb2 & l2 & -> & Hok2 & Ed2).
  { pose proof (tree_ok_zlen _ _ Hok). unfold zlen in *. lia. }
  eexists _, tb2. rewrite delete_fold. cbn [fst snd app els] in *. split; [|split].
  - f_equal. f_equal. f_equal. rewrite <- (to_objs _ _ Hok), filter_rev, list_filter_fmap. unfold zlen. rewrite length_rev, length_fmap. done.
  - enough (l2 = filter (λ o, mp o = false) l) as <- by done. rewrite <- (to_objs _ _ Hok2), <- (to_objs _ _ Hok), list_filter_fmap.
    unfold stay, delete_del in Ed2. rewrite filter_rev in Ed2. apply (f_equal (rev (A:=_))) in Ed2. rewrite !rev_involutive in Ed2. by rewrite Ed2.
  - done.
Qed.

End Sel.
(** * The life of a table *)

Section Life.
Context {pat term obj V : Type} `{DbTerms term obj} `{TermOrder term V} `{!KeyCmp V kcmp} `{PartlyBound pat term} `{!PartlyBoundLaws pat term V}.
Implicit Types (tb : DbTableTree obj) (l : list obj) (mpi : mp_info pat) (ops : list (tree_op term obj)).

(** A table after a history, with the list it stands for. *)
Lemma history_ok ops rs tb :
  zlen ops <= max_objects → Forall op_ok ops → steps new_table ops = Ok (rs, tb) → tree_ok tb (list_steps [] ops).2.
Proof.
  intros Hmax Hp E. destruct (steps_ok new_table [] ops new_tree_ok ltac:(rewrite zlen_nil; lia) Hp) as (tb' & E' & Hok).
  rewrite E in E'. by injection E' as _ ->.
Qed.

(** [ets:select] and [ets:select_count] on an ordered set, whatever happened to the table
    before: the results are those of the objects that match, each once, in the order of their
    keys (or, for [reverse], the other way round), and their number is exact; however often the
    functions trap, whichever of the three ways of searching the analysis of the patterns
    chooses, and the objects of the table stay.  [range_sound]: no object outside the search
    area matches. *)
Theorem select_exact {R} (mp : match_prog obj R) mpi (reverse : bool) ops rs tb (fuel : nat) :
  let l := (list_steps [] ops).2 in
  zlen ops <= max_objects → Forall op_ok ops → steps new_table ops = Ok (rs, tb) → range_sound mpi tb (matches mp) → (length l <= fuel)%nat →
  (∃ tb', select_all mp mpi reverse fuel tb = Ok (if reverse then rev (omap (mp_result mp) l) else omap (mp_result mp) l, tb') ∧
     n_obj <$> elements (t_root tb') = l) ∧
  (∃ tb', select_count_all (matches mp) mpi fuel tb = Ok (zlen (filter (λ o, matches mp o = true) l), tb') ∧
     n_obj <$> elements (t_root tb') = l).
Proof.
  intros l Hmax Hp E Hr Hf. pose proof (history_ok ops rs tb Hmax Hp E) as Hok. split.
  - destruct (select_ok mp mpi reverse tb l fuel Hok Hr Hf) as (tb' & -> & Hok'). exists tb'. split; [done|apply Hok'].
  - destruct (select_count_ok (matches mp) mpi tb l fuel Hok Hr Hf) as (tb' & -> & Hok'). exists tb'. split; [done|apply Hok'].
Qed.

(** C7: [ets:select_delete] on an ordered set, given a search area that no matching object lies
    outside of ([range_sound]) and partly bound keys that compare monotonically with the keys
    of the table ([PartlyBoundLaws]; both are shown for the patterns of DbPatternProps.v and
    do not hold for all patterns): the objects that match go and no others, while
    the tree is rebalanced under the traversal; the call counts them, gives the memory of each
    of their nodes back exactly once, and leaves a balanced tree whose number of items is right. *)
Theorem select_delete_exact (mp : obj → bool) mpi ops rs tb (fuel : nat) :
  let l := (list_steps [] ops).2 in
  zlen ops <= max_objects → Forall op_ok ops → steps new_table ops = Ok (rs, tb) → range_sound mpi tb mp → (length l <= fuel)%nat →
  ∃ freed tb', select_delete_all mp mpi fuel tb = Ok (zlen (filter (λ o, mp o = true) l), freed, tb') ∧
    n_obj <$> elements (t_root tb') = filter (λ o, mp o = false) l ∧ t_nitems tb' = zlen (filter (λ o, mp o = false) l) ∧ avl (t_root tb') ∧
    freed = filter (λ n, mp (n_obj n) = true) (rev (elements (t_root tb))) ∧ NoDup (n_addr <$> freed).
Proof.
  intros l Hmax Hp E Hr Hf. pose proof (history_ok ops rs tb Hmax Hp E) as Hok.
  destruct (select_delete_ok mp mpi tb l fuel Hok Hr Hf) as (freed & tb' & -> & Hok' & Ef). exists freed, tb'.
  split_and!; [done|apply Hok'|by rewrite (to_items _ _ Hok')|apply Hok'|done|]. subst freed.
  eapply (sublist_NoDup _ (n_addr <$> rev (elements (t_root tb)))).
  - rewrite <- Permutation_rev. apply (to_nodup _ _ Hok).
  - apply fmap_sublist, sublist_filter.
Qed.

End Life.

(** * Sample tables *)

Module Samples.

(** As in DbTreeProps.v: pairs with numbers as keys; a number as a partly bound key matches itself. *)
#[local] Instance sample_terms : DbTerms Z (Z * Z) := {|
  GETKEY := fst; arityval _ := 2; tpl o i := if i =? 1 then o.1 else o.2; set_key o k := (k, o.2); internal_hash k := k |}.
#[local] Instance sample_order : TermOrder Z Z := {| keyval k := k; kcmp := Z.sub; am_EOT := -1 |}.
#[local] Instance sample_cmp : KeyCmp Z (kcmp (V:=Z)).
Proof. split; cbn; intros; lia. Defined.
#[local] Instance sample_pb : PartlyBound Z Z := {| cmp_partly_bound := Z.sub; cmp_keys := Z.sub |}.
#[local] Instance sample_pb_laws : PartlyBoundLaws Z Z Z.
Proof. split; unfold cmp_partly_bound, sample_pb; cbn; intros; lia. Defined.

Definition sample_ops : list (tree_op Z (Z * Z)) :=
  [Put (3, 0) false; Put (2, 5) false; Put (1, 5) false; Put (5, 5) false; Put (4, 5) false].
Definition sample_table : DbTableTree (Z * Z) := match steps new_table sample_ops with Ok (_, tb) => tb | _ => new_table end.
Definition sample_outs : list (tree_out Z (Z * Z)) := match steps new_table sample_ops with Ok (rs, _) => rs | _ => [] end.

(** Objects with the keys 2 to 4 are asked for, with a second element that is not 0. *)
Definition sample_mpi : mp_info Z := mk_mpi true true true 2 4 O.
Definition sample_mp : match_prog (Z * Z) Z :=
  mk_mp (λ o, if (2 <=? o.1) && (o.1 <=? 4) && negb (o.2 =? 0) then Some o.1 else None) (λ o, o.1 =? 4).

Lemma sample_sound : range_sound sample_mpi sample_table (matches sample_mp).
Proof.
  split; [done|done|]. intros _ n Hn Hp. unfold cmp_partly_bound, sample_pb, node_key, matches in *. destruct n as [a [k v]]. cbn in *.
  destruct (Z.leb_spec 2 k), (Z.leb_spec k 4); cbn; done || lia.
Defined.

Lemma select_exact_witness :
  (∃ tb', select_all sample_mp sample_mpi false 5 sample_table = Ok ([2; 4], tb') ∧ n_obj <$> elements (t_root tb') = [(1, 5); (2, 5); (3, 0); (4, 5); (5, 5)]) ∧
  (∃ tb', select_count_all (matches sample_mp) sample_mpi 5 sample_table = Ok (2, tb') ∧ n_obj <$> elements (t_root tb') = [(1, 5); (2, 5); (3, 0); (4, 5); (5, 5)]).
Proof.
  refine (select_exact sample_mp sample_mpi false sample_ops sample_outs sample_table 5 _ _ _ sample_sound _).
  - by vm_compute.
  - repeat (constructor; try done).
  - by vm_compute.
  - by vm_compute; repeat constructor.
Defined.

Lemma select_delete_exact_witness :
  ∃ freed tb', select_delete_all (matches sample_mp) sample_mpi 5 sample_table = Ok (2, freed, tb') ∧ n_obj <$> elements (t_root tb') = [(1, 5); (3, 0); (5, 5)] ∧
    n_obj <$> freed = [(4, 5); (2, 5)].
Proof.
  destruct (select_delete_exact (matches sample_mp) sample_mpi sample_ops sample_outs sample_table 5) as (freed & tb' & E & Ee & _ & _ & Ef & _).
  - by vm_compute.
  - repeat (constructor; try done).
  - by vm_compute.
  - apply sample_sound.
  - by vm_compute; repeat constructor.
  - exists freed, tb'. split; [exact E|]. split; [exact Ee|]. rewrite Ef. by vm_compute.
Defined.

(** The same, computed. *)
Lemma sample_select_runs :
  (λ '(rs, _), rs) <$> (match select_all sample_mp sample_mpi true 5 sample_table with Ok r => Some r | _ => None end) = Some [4; 2].
Proof. by vm_compute. Qed.

End Samples.
