(* ===== verification/DbTreeChunk.v ===== *)
(** ETS ordered sets: [ets:select] with a chunk size (DbTreeSelect.v).

    Between two chunks, and whenever a call traps, other processes may change the table in any
    way.  The chunks together still visit the objects in the order of their keys, none twice,
    and every object that stays in the table; all chunks but the last have exactly the size
    that was asked for. *)
From stdpp Require Import sorting.
From S2P Require Import Prelude Avl DbHash DbTree DbTreePath DbTreeOps DbTreeUpd DbTreeSelect DbTreeTrav DbTreeProps DbTreeSelProps.
#[local] Open Scope Z_scope.

(** * Turning a chunk *)

Lemma select_reverse_loop_ok {A} (l r : list A) max :
  1 < max → ∃ l1 l2, l = l1 ++ l2 ∧ select_reverse_loop max l r = (l2, rev l1 ++ r) ∧ (l2 = [] ∨ l1 ≠ []).
Proof.
  revert r max. induction l as [|x l IH]; intros r max Hmax; cbn [select_reverse_loop]; [exists [], []; auto|].
  destruct (Z.eqb_spec (max - 1) 0); [lia|]. destruct (Z.eq_dec max 2) as [->|].
  - exists [x], l. split; [done|]. split; [|by right]. cbn [select_reverse_loop]. change (2 - 1) with 1. by destruct l.
  - destruct (IH (x :: r) (max - 1) ltac:(lia)) as (l1 & l2 & -> & -> & _). exists (x :: l1), l2. cbn. rewrite <- app_assoc. split_and!; [done|done|by right].
Qed.

(** However many calls it takes. *)
Lemma ets_select_reverse_ok {A} fuel (l r : list A) : (length l <= fuel)%nat → ets_select_reverse fuel l r = Ok (rev l ++ r).
Proof.
  revert l r. induction fuel as [|fuel IH]; intros l r Hf; cbn [ets_select_reverse].
  - destruct l; [done|cbn in Hf; lia].
  - destruct (select_reverse_loop_ok l r (CONTEXT_REDS * 10) ltac:(done)) as (l1 & l2 & -> & -> & Hl).
    destruct l2 as [|x l2]; [by rewrite app_nil_r|]. destruct Hl as [?|Hl]; [done|]. rewrite length_app in Hf.
    rewrite IH; [by rewrite rev_app_distr, <- app_assoc|]. destruct l1; [done|]. cbn in *. lia.
Qed.

Section Chunks.
Context {pat term obj V : Type} `{DbTerms term obj} `{TermOrder term V} `{!KeyCmp V kcmp} `{PartlyBound pat term} `{!PartlyBoundLaws pat term V}.
Context {R : Type} (mp : match_prog obj R) (chunk : Z) (reverse : bool) (Hchunk : 0 < chunk).
Abbreviation node := (TreeDbTerm obj).
Abbreviation table := (DbTableTree obj).
Abbreviation d := (chunk_dir reverse).
Implicit Types (tb : table) (n x y : node) (k : term) (e : option pat) (o : obj) (l : list obj) (a : list R) (g : Z) (vis rest area : list node).

(** * The visits of one call *)

Definition chunk_add (r : list R * Z) n : list R * Z := match mp_result mp (n_obj n) with Some x => (x :: r.1, r.2 + 1) | None => r end.
Definition chunk_pay (c : select_context pat obj R) : list R * Z := (sl_accum c, sl_got c).
Definition chunk_past (c : select_context pat obj R) n : bool := past_end d (sl_end c) (node_key n).
Definition chunk_go (c : select_context pat obj R) n : bool :=
  if chunk_past c n then false else negb ((select_max mp c n <=? 0) || ((chunk_add (chunk_pay c) n).2 =? chunk)).
Definition chunk_upd (c : select_context pat obj R) n : select_context pat obj R :=
  if chunk_past c n then mk_select (sl_end c) (Some n) (sl_max c) (sl_accum c) (sl_got c)
  else mk_select (sl_end c) (Some n) (select_max mp c n) (chunk_add (chunk_pay c) n).1 (chunk_add (chunk_pay c) n).2.

(** A full chunk ends the traversal like the counter does. *)
Definition chunk_max (c : select_context pat obj R) : Z := if sl_got c =? chunk then 0 else sl_max c.

Lemma chunk_bounded : bounded d chunk_go chunk_upd (λ _ _, false) (λ _, false) chunk_max sl_end sl_last chunk_pay chunk_add.
Proof.
  split; intros c n; unfold chunk_go, chunk_upd, chunk_past, chunk_max.
  - by destruct (past_end _ _ _).
  - by intros ->.
  - intros -> Hc. cbn [sl_got sl_max sl_last]. destruct (Z.eqb_spec (sl_got c) chunk); [lia|]. split_and!; try done.
    + destruct (_ =? chunk); [by rewrite orb_true_r|by rewrite orb_false_r].
    + unfold select_max. destruct (_ =? chunk); [lia|]. destruct (mp_mbuf _ _); lia.
    + unfold chunk_pay at 1. cbn. by destruct (chunk_add _ _).
Qed.

Lemma chunk_doit_ok : doit_ok (doit_select_chunk mp chunk d) false chunk_go chunk_upd (λ _ _, false).
Proof.
  intros tb l c pre n post Hok E. exists tb. split; [|done].
  unfold doit_select_chunk. rewrite (node_of_elem tb l) by (done || rewrite E; apply elem_mid). rewrite bind_Ok.
  unfold chunk_go, chunk_upd, chunk_past, chunk_add, select_max. destruct (past_end _ _ _); [done|]. by destruct (mp_result mp (n_obj n)).
Qed.

Definition results (ys : list node) : list R := omap (λ n, mp_result mp (n_obj n)) ys.

Lemma chunk_fold ys (r : list R * Z) : fold_left chunk_add ys r = (rev (results ys) ++ r.1, r.2 + zlen (results ys)).
Proof.
  revert r. induction ys as [|y ys IH]; intros r; cbn [fold_left]; [cbn; rewrite zlen_nil, Z.add_0_r; by destruct r|]. rewrite IH.
  unfold chunk_add, results. cbn [omap list_omap]. destruct (mp_result mp (n_obj y)); [|done]. cbn. rewrite zlen_cons, <- app_assoc. cbn. f_equal. lia.
Qed.

(** The number of results never passes the chunk size. *)
Lemma run_got c ys : sl_got c <= chunk → (ys = [] ∨ sl_got c < chunk) → sl_got (run chunk_go chunk_upd (λ _ _, false) c ys).1 <= chunk.
Proof.
  revert c. induction ys as [|y ys IH]; intros c Hle Hlt; cbn [run]; [done|]. destruct Hlt as [?|Hlt]; [done|].
  assert (sl_got (chunk_upd c y) <= chunk) as Hu.
  { unfold chunk_upd, chunk_add. destruct (chunk_past c y); [done|]. destruct (mp_result _ _); cbn; lia. }
  destruct (chunk_go c y) eqn:Eg; cbn [fst]; [|done].
  assert (sl_got (chunk_upd c y) < chunk) as Hu'.
  { unfold chunk_go in Eg. unfold chunk_upd in *. destruct (chunk_past c y); [done|]. cbn in *.
    apply negb_true_iff, orb_false_iff in Eg as [_ Eg]. apply Z.eqb_neq in Eg. lia. }
  specialize (IH (chunk_upd c y) Hu (or_intror Hu')). by destruct (run _ _ _ (chunk_upd c y) ys).
Qed.

(** A node that need not be visited. *)
Definition idle e n : Prop := past_end d e (node_key n) = true ∨ mp_result mp (n_obj n) = None.

(** What a call returns for the nodes ahead of it, of which it has visited some. *)
Definition chunk_spec area e a g (out : chunk_outcome pat term R) tb : Prop :=
  ∃ vis rest, area = vis ++ rest ∧
    let res := rev (results vis) ++ a in let got := g + zlen (results vis) in
    match out with
    | EndOfTable => got = 0 ∧ Forall (idle e) rest
    | Whole r => r = res ∧ zlen r = 1 ∧ Forall (idle e) rest
    | Chunk r None => r = res ∧ got ≠ 0 ∧ got <= chunk ∧ Forall (idle e) rest
    | Chunk r (Some (k, e')) => r = res ∧ got = chunk ∧ e' = e ∧ vis ≠ [] ∧ from_key d (Some k) (t_root tb) = rest
    | ChunkTrap k e' r g' => r = res ∧ g' = got ∧ got < chunk ∧ e' = e ∧ vis ≠ [] ∧ from_key d (Some k) (t_root tb) = rest
    end.

Lemma end_of_table_spec area vis rest e a g (c : select_context pat obj R) tb :
  area = vis ++ rest → chunk_pay c = fold_left chunk_add vis (a, g) → Forall (idle e) rest → sl_got c <= chunk →
  chunk_spec area e a g (end_of_table c) tb.
Proof.
  intros -> Hp Hi Hc. rewrite chunk_fold in Hp. injection Hp as Ha Hg. cbn [fst snd] in Ha, Hg. exists vis, rest. split; [done|].
  unfold end_of_table. destruct (Z.eqb_spec (sl_got c) 0); cbn; split_and!; (done || lia).
Qed.

(** A traversal for a chunk, and what follows it. *)
Lemma chunk_call_ok tb l lk (c : select_context pat obj R) e (check : bool) static tb1 s0 :
  tree_ok tb l → (sl_end c = e ∨ sl_end c = None) → 0 < sl_max c → sl_got c < chunk → tree_ok tb1 l → t_root tb1 = t_root tb →
  (∀ s', stack_ok (t_root tb) s' → tree_ok (release_stack tb1 static s') l ∧ t_root (release_stack tb1 static s') = t_root tb) →
  stack_ok (t_root tb) s0 →
  ∃ out tb2,
    ('(tb, s, sc) ← traverse (doit_select_chunk mp chunk d) d false tb1 s0 lk c;
     let tb := release_stack tb static s in
     if (sl_max sc >? 0) || (sl_got sc =? chunk) then out ← chunk_done chunk e sc; Ok (out, tb)
     else
       key ← last_key (sl_last sc);
       if check && past_end d e key then Ok (end_of_table sc, tb) else Ok (ChunkTrap key e (sl_accum sc) (sl_got sc), tb)) = Ok (out, tb2) ∧
    chunk_spec (from_key d lk (t_root tb)) e (sl_accum c) (sl_got c) out tb2 ∧ tree_ok tb2 l ∧ t_root tb2 = t_root tb.
Proof.
  intros Hok He Hm Hg Hok1 Er Hrel Hs. rewrite <- Er in Hs.
  assert (0 < chunk_max c) as Hc by (unfold chunk_max; destruct (Z.eqb_spec (sl_got c) chunk); lia).
  assert (∀ check, ∃ s' c' dn out, traverse (doit_select_chunk mp chunk d) d false tb1 s0 lk c = Ok (tb1, s', c') ∧
    conclude d chunk_max sl_last chunk_pay check e c' = Ok out ∧
    call_result_with d (λ _, false) chunk_add (idle e) dn (from_key d lk (t_root tb1)) e (sl_accum c, sl_got c) out tb1 ∧ stack_ok (t_root tb1) s' ∧ sl_got c' <= chunk) as Hcall.
  { intros b. destruct (call_ok_with d _ _ _ _ _ _ _ _ _ chunk_bounded _ false chunk_doit_ok (idle e) tb1 l s0 lk c e b Hok1 Hs Hc He (λ n _ Hp, or_introl Hp))
      as (tb' & s' & c' & dn & out & E & _ & Ec & Hr & Hs' & Hsame & _ & ->). specialize (Hsame eq_refl). subst tb'.
    eexists s', _, dn, out. split_and!; [exact E|exact Ec|done|done|]. apply run_got; lia. }
  destruct (Hcall false) as (s' & c' & dn & out1 & E & Ec & Hr & Hs' & Hle). rewrite E, bind_Ok. rewrite Er in Hs'. destruct (Hrel s' Hs') as [Hok2 Er2].
  enough (∃ out, (if (sl_max c' >? 0) || (sl_got c' =? chunk) then out ← chunk_done chunk e c'; Ok (out, release_stack tb1 static s')
     else key ← last_key (sl_last c'); if check && past_end d e key then Ok (end_of_table c', release_stack tb1 static s')
          else Ok (ChunkTrap key e (sl_accum c') (sl_got c'), release_stack tb1 static s')) = Ok (out, release_stack tb1 static s') ∧
     chunk_spec (from_key d lk (t_root tb)) e (sl_accum c) (sl_got c) out (release_stack tb1 static s')) as (out & Eo & Hspec)
    by (by exists out, (release_stack tb1 static s')).
  rewrite Er in Hr. destruct Hr as (_ & vis & rest & Ea & _ & _ & Hout). unfold conclude, chunk_max in Ec.
  destruct (Z.eqb_spec (sl_got c') chunk) as [Eg|Eg].
  - rewrite orb_true_r. cbn [Z.gtb Z.compare] in Ec. destruct (sl_last c') as [n|] eqn:El; [|done]. cbn in Ec. injection Ec as <-.
    unfold chunk_done. rewrite El. destruct (Z.ltb_spec (sl_got c') chunk); [lia|]. rewrite bind_Ok. eexists. split; [done|].
    destruct Hout as (Hp & _ & Hne & Hk). rewrite chunk_fold in Hp. injection Hp as Ha Hg'. cbn [fst snd] in Ha, Hg'. rewrite Er in Hk.
    exists vis, rest. rewrite Er2. cbv zeta. split_and!; (done || lia).
  - rewrite orb_false_r. destruct (sl_max c' >? 0).
    + injection Ec as <-. destruct Hout as [Hp Hi]. exists (end_of_table c'). split; [|by eapply end_of_table_spec].
      unfold chunk_done. destruct (sl_last c'); [|done]. destruct (Z.ltb_spec (sl_got c') chunk); [done|lia].
    + destruct (sl_last c') as [n|] eqn:El; [|done]. cbn in Ec. injection Ec as <-. cbn [last_key]. rewrite bind_Ok.
      destruct (check && past_end d e (node_key n)) eqn:Ep.
      * exists (end_of_table c'). split; [done|]. apply andb_true_iff in Ep as [_ Ep].
        destruct (Hcall true) as (s2 & c2 & dn2 & out2 & E2 & Ec2 & Hr2 & _). rewrite E in E2. injection E2 as <- <-.
        unfold conclude, chunk_max in Ec2. destruct (Z.eqb_spec (sl_got c') chunk); [done|].
        destruct Hr2 as (_ & vis2 & rest2 & Ea2 & _ & _ & Hout2). rewrite Er in Ea2.
        destruct (sl_max c' >? 0); [injection Ec2 as <-|rewrite El in Ec2; cbn in Ec2; rewrite Ep in Ec2; cbn in Ec2; injection Ec2 as <-];
          destruct Hout2 as [Hp Hi]; by eapply end_of_table_spec.
      * eexists. split; [done|]. destruct Hout as (Hp & _ & Hne & Hk). rewrite chunk_fold in Hp. injection Hp as Ha Hg'. cbn [fst snd] in Ha, Hg'. rewrite Er in Hk.
        exists vis, rest. rewrite Er2. cbv zeta. split_and!; (done || lia).
Qed.

Lemma continue_chunk_ok tb l k e a g :
  tree_ok tb l → g < chunk →
  ∃ out tb2, db_select_continue_chunk_tree mp chunk reverse k e a g tb = Ok (out, tb2) ∧
    chunk_spec (from_key d (Some k) (t_root tb)) e a g out tb2 ∧ tree_ok tb2 l ∧ t_root tb2 = t_root tb.
Proof.
  intros Hok Hg. unfold db_select_continue_chunk_tree. destruct (any_stack_tree tb l Hok) as (static & s & tb1 & Eg & Hok1 & Hs & Er & Hrel). rewrite Eg.
  apply (chunk_call_ok tb l (Some k) (mk_select None None 1000 a g) e true static tb1 s); try done. by right.
Qed.

(** * The calls together *)

Abbreviation ops := (list (tree_op term obj)).

(** [gaps]: what is done to the table before each call that goes on, then nothing more. *)
Definition resume (drive : list ops → chunk_outcome pat term R → table → res (list (list R) * table)) (gaps : list ops) k e a g tb : res (list (list R) * table) :=
  '(_, tb) ← steps tb (default [] (head gaps)); '(out, tb) ← db_select_continue_chunk_tree mp chunk reverse k e a g tb; drive (tail gaps) out tb.

(** The chunks that are delivered. *)
Fixpoint drive (fuel : nat) (gaps : list ops) (out : chunk_outcome pat term R) tb : res (list (list R) * table) :=
  match out with
  | EndOfTable => Ok ([], tb)
  | Whole r => Ok ([r], tb)
  | Chunk r None => r' ← ets_select_reverse (length r) r []; Ok ([r'], tb)
  | Chunk r (Some (k, e)) =>
      r' ← ets_select_reverse (length r) r [];
      match fuel with O => NoFuel | S fuel => '(cs, tb) ← resume (drive fuel) gaps k e [] 0 tb; Ok (r' :: cs, tb) end
  | ChunkTrap k e a g => match fuel with O => NoFuel | S fuel => resume (drive fuel) gaps k e a g tb end
  end.

Definition select_chunks (mpi : mp_info pat) (fuel : nat) (gaps : list ops) tb : res (list (list R) * table) :=
  '(out, tb) ← db_select_chunk_tree mp chunk reverse mpi tb; drive fuel gaps out tb.

(** The contents of the table, over time. *)
Fixpoint lists_of l (gaps : list ops) : list (list obj) :=
  l :: match gaps with [] => [] | p :: gaps => lists_of (list_steps l p).2 gaps end.

Definition after_gap l (gaps : list ops) : list obj := (list_steps l (default [] (head gaps))).2.

Lemma lists_of_head l gaps : l ∈ lists_of l gaps.
Proof. destruct gaps; left. Qed.

Lemma lists_of_tail l gaps l' : l' ∈ lists_of (after_gap l gaps) (tail gaps) → l' ∈ lists_of l gaps.
Proof. destruct gaps; [done|]. by right. Qed.

(** ** The order of the visits *)

(** [x] comes before [y]. *)
Definition comes (x y : term) : Prop := towards d (CMP x y) < 0.

#[local] Instance comes_dec (x y : term) : Decision (comes x y).
Proof. unfold comes. apply _. Defined.

Lemma comes_flip (x y : term) : towards d (CMP x y) < 0 ↔ 0 < towards d (CMP y x).
Proof. unfold CMP. pose proof (kcmp_sym (keyval x) (keyval y)). pose proof (kcmp_sym (keyval y) (keyval x)). destruct d; cbn; lia. Qed.

Lemma comes_trans (x y z : term) : comes x y → comes y z → comes x z.
Proof.
  unfold comes, CMP. destruct d; cbn.
  - intros Hx Hy. pose proof (kcmp_sym (keyval z) (keyval x)). pose proof (kcmp_sym (keyval y) (keyval x)). pose proof (kcmp_sym (keyval z) (keyval y)).
    pose proof (kcmp_trans (keyval z) (keyval y) (keyval x)). lia.
  - apply kcmp_trans.
Qed.

Lemma not_after (x y z : term) : ¬ comes y x → comes y z → comes x z.
Proof.
  intros Hn Hz. destruct (Z.eq_dec (CMP y x) 0) as [E|E]; [unfold comes, CMP in *; apply kcmp_eq in E; by rewrite <- E|].
  apply (comes_trans _ y); [|done]. apply comes_flip. unfold comes in Hn. destruct d; cbn in *; lia.
Qed.

Lemma not_before (x y z : term) : comes x y → ¬ comes z y → comes x z.
Proof.
  intros Hx Hn. destruct (Z.eq_dec (CMP z y) 0) as [E|E]; [unfold comes, CMP in *; apply kcmp_eq in E; by rewrite E|].
  apply (comes_trans _ y); [done|]. apply comes_flip. unfold comes in Hn. destruct d; cbn in *; lia.
Qed.

(** An object is ahead of where a call goes on; without a key, everything is. *)
Definition ahead_of (pos : option term) o : Prop := match pos with Some k => comes k (GETKEY o) | None => True end.
Definition in_order (os : list obj) : Prop := StronglySorted (λ o o', comes (GETKEY o) (GETKEY o')) os.

Lemma area_split tb l pos : tree_ok tb l → ∃ dn, els d (t_root tb) = dn ++ from_key d pos (t_root tb).
Proof. intros Hok. destruct pos as [k|]; [destruct (beyond_split d tb l k Hok) as (dn & ? & _); by exists dn|by exists []]. Qed.

Lemma area_elem tb l pos o : tree_ok tb l → o ∈ n_obj <$> from_key d pos (t_root tb) ↔ o ∈ l ∧ ahead_of pos o.
Proof.
  intros Hok. rewrite <- (to_objs _ _ Hok). rewrite !list_elem_of_fmap. split.
  - intros (n & -> & Hn). split.
    + exists n. split; [done|]. apply (els_elem d). destruct pos; cbn [from_key] in Hn; [by apply list_elem_of_filter in Hn as []|done].
    + destruct pos; cbn [from_key] in Hn |- *; [by apply list_elem_of_filter in Hn as []|done].
  - intros [(n & -> & Hn) Ha]. apply (els_elem d) in Hn. exists n. split; [done|]. destruct pos; cbn [from_key] in *; [by apply list_elem_of_filter|done].
Qed.

Lemma in_order_app (os os' : list obj) :
  in_order os → in_order os' → (∀ o o', o ∈ os → o' ∈ os' → comes (GETKEY o) (GETKEY o')) → in_order (os ++ os').
Proof.
  intros Hs Hs' Hc. induction Hs as [|o os Hs IH Ho]; [done|]. cbn. constructor.
  - apply IH. intros x y Hx. apply Hc. by right.
  - apply Forall_app. split; [done|]. apply Forall_forall. intros y Hy. apply Hc; [left|done].
Qed.

Lemma area_order tb l dn area : tree_ok tb l → els d (t_root tb) = dn ++ area → in_order (n_obj <$> area).
Proof.
  intros Hok. revert dn. induction area as [|y area IH]; intros dn E; cbn; constructor.
  - apply (IH (dn ++ [y])). by rewrite E, <- app_assoc.
  - apply Forall_fmap. eapply Forall_impl; [apply (ahead_of_node tb l d dn y area Hok E)|]. done.
Qed.

Lemma results_fmap ys : results ys = omap (mp_result mp) (n_obj <$> ys).
Proof. unfold results. induction ys as [|y ys IH]; [done|]. cbn. by rewrite IH. Qed.

(** What the visits of all calls from [pos] to the end condition are. *)
Record visits_ok e (pos : option term) l (gaps : list ops) (vis : list obj) : Prop := {
  vo_order : in_order vis;
  vo_ahead : Forall (ahead_of pos) vis;
  vo_sound o : o ∈ vis → ∃ l', l' ∈ lists_of l gaps ∧ o ∈ l';
  vo_complete o : (∀ l', l' ∈ lists_of l gaps → o ∈ l') → ahead_of pos o → past_end d e (GETKEY o) = false → mp_result mp o ≠ None → o ∈ vis }.

Lemma visits_end tb l e pos gaps vis rest :
  tree_ok tb l → from_key d pos (t_root tb) = vis ++ rest → Forall (idle e) rest → visits_ok e pos l gaps (n_obj <$> vis).
Proof.
  intros Hok E Hr. destruct (area_split tb l pos Hok) as (dn & Ed). pose proof (area_order tb l dn _ Hok Ed) as Hord.
  assert (∀ o, o ∈ n_obj <$> vis → o ∈ l ∧ ahead_of pos o) as Hin.
  { intros o Ho. apply (area_elem tb l pos o Hok). rewrite E, fmap_app, elem_of_app. by left. }
  split.
  - rewrite E, fmap_app in Hord. by apply StronglySorted_app in Hord as (? & ? & ?).
  - apply Forall_forall. intros o Ho. by apply Hin.
  - intros o Ho. exists l. split; [apply lists_of_head|by apply Hin].
  - intros o Ho Ha He Hm. specialize (Ho l (lists_of_head l gaps)). assert (o ∈ n_obj <$> vis ++ rest) as Hv by (rewrite <- E; by apply (area_elem tb l pos o Hok)).
    rewrite fmap_app, elem_of_app in Hv. destruct Hv as [?|(n & -> & Hn)%list_elem_of_fmap]; [done|]. rewrite Forall_forall in Hr. destruct (Hr n Hn) as [Hp|]; [|done]. by rewrite (Hp : past_end d e (GETKEY (n_obj n)) = true) in He.
Qed.

(** One call more, at a table that may have changed. *)
Lemma visits_step tb l e pos gaps vis rest k os :
  tree_ok tb l → from_key d pos (t_root tb) = vis ++ rest → vis ≠ [] → from_key d (Some k) (t_root tb) = rest →
  visits_ok e (Some k) (after_gap l gaps) (tail gaps) os → visits_ok e pos l gaps ((n_obj <$> vis) ++ os).
Proof.
  intros Hok E Hne Hk [Hord Hah Hs Hc]. destruct (area_split tb l pos Hok) as (dn & Ed). pose proof (area_order tb l dn _ Hok Ed) as Hord0.
  assert (∀ o, o ∈ n_obj <$> vis → o ∈ l ∧ ahead_of pos o) as Hin.
  { intros o Ho. apply (area_elem tb l pos o Hok). rewrite E, fmap_app, elem_of_app. by left. }
  assert (∀ o, o ∈ n_obj <$> vis → ¬ comes k (GETKEY o)) as Hnot.
  { intros o (n & -> & Hn)%list_elem_of_fmap Hb. cbn [from_key] in Hk. pose proof Hk as Hk2. rewrite Ed, E, app_assoc, filter_app in Hk2.
    assert (filter (beyond d k) rest = rest) as Hrest by (rewrite <- Hk; apply list_filter_True, Forall_forall; by intros ? [? _]%list_elem_of_filter).
    rewrite Hrest in Hk2. apply (app_inv_tail rest _ []) in Hk2.
    assert (n ∈ filter (beyond d k) (dn ++ vis)) as Hf by (apply list_elem_of_filter; split; [done|]; apply elem_of_app; by right).
    rewrite Hk2 in Hf. by apply elem_of_nil in Hf. }
  rewrite Forall_forall in Hah. assert (∀ o, o ∈ os → ahead_of pos o) as Hos.
  { intros o Ho. destruct pos as [p|]; [|done]. destruct vis as [|y vis]; [done|]. assert (n_obj y ∈ n_obj <$> y :: vis) as Hy by left.
    apply (comes_trans _ k); [|by apply Hah]. apply (not_before _ (GETKEY (n_obj y))); [by apply Hin|by apply Hnot]. }
  split.
  - apply in_order_app; [rewrite E, fmap_app in Hord0; by apply StronglySorted_app in Hord0 as (? & ? & ?)|done|].
    intros o o' Ho Ho'. apply (not_after _ k); [by apply Hnot|by apply Hah].
  - apply Forall_app. split; apply Forall_forall; [intros o Ho; by apply Hin|done].
  - intros o [Ho|Ho]%elem_of_app; [exists l; split; [apply lists_of_head|by apply Hin]|].
    destruct (Hs o Ho) as (l' & Hl' & ?). exists l'. split; [by apply lists_of_tail|done].
  - intros o Ho Ha He Hm. apply elem_of_app. assert (o ∈ n_obj <$> vis ++ rest) as Hv.
    { rewrite <- E. apply (area_elem tb l pos o Hok). split; [apply Ho, lists_of_head|done]. }
    rewrite fmap_app, elem_of_app in Hv. destruct Hv as [?|Hv]; [by left|]. right. apply Hc; [|by rewrite <- Hk in Hv; apply (area_elem tb l) in Hv as []|done|done].
    intros l' Hl'. by apply Ho, lists_of_tail.
Qed.

(** ** The chunks *)

(** All chunks but the last are full, and none is empty. *)
Definition chunked (cs : list (list R)) : Prop := Forall (λ c, 0 < zlen c <= chunk) cs ∧ Forall (λ c, zlen c = chunk) (removelast cs).

Lemma chunked_one c : 0 < zlen c <= chunk → chunked [c].
Proof. intros Hc. split; [by constructor|done]. Qed.

Lemma chunked_cons c cs : zlen c = chunk → chunked cs → chunked (c :: cs).
Proof. intros Hc [Ha Hb]. split; [constructor; [lia|done]|]. destruct cs; cbn [removelast] in *; [done|]. by constructor. Qed.

Lemma list_steps_length tb l (os : ops) :
  tree_ok tb l → zlen l + zlen os <= max_objects → Forall op_ok os → (length (list_steps l os).2 <= length l + length os)%nat.
Proof.
  revert tb l. induction os as [|p os IH]; intros tb l Hok Hmax Hp; cbn [list_steps]; [cbn; lia|].
  apply Forall_cons in Hp as [Hp Hps]. rewrite zlen_cons in Hmax. pose proof (zlen_nonneg os).
  destruct (step_ok tb l p Hok ltac:(lia) Hp) as (tb1 & _ & Hok1). pose proof (list_step_zlen tb l p Hok) as Hz.
  destruct (list_step l p) as [r l1]. cbn [fst snd] in *. specialize (IH tb1 l1 Hok1 ltac:(lia) Hps). destruct (list_steps l1 os). cbn in *.
  unfold zlen in *. lia.
Qed.

Lemma area_length tb l pos : tree_ok tb l → (length (from_key d pos (t_root tb)) <= length l)%nat.
Proof.
  intros Hok. destruct (area_split tb l pos Hok) as (dn & E). apply (f_equal length) in E. rewrite length_app in E.
  assert (length (els d (t_root tb)) = length (elements (t_root tb))) as El by (destruct d; cbn [els]; [apply length_rev|done]).
  pose proof (tree_ok_zlen _ _ Hok). unfold zlen in *. lia.
Qed.

(** The calls that are left at most. *)
Definition need (gaps : list ops) l area : nat := match gaps with [] => length area | _ => length gaps + length l + length (concat gaps) end.

Definition drive_spec (fuel : nat) (drv : list ops → chunk_outcome pat term R → table → res (list (list R) * table)) : Prop :=
  ∀ gaps out tb l pos e a g,
    tree_ok tb l → chunk_spec (from_key d pos (t_root tb)) e a g out tb → g = zlen a → g < chunk →
    zlen l + zlen (concat gaps) <= max_objects → Forall op_ok (concat gaps) → (need gaps l (from_key d pos (t_root tb)) <= fuel)%nat →
    ∃ cs tb2 (vis : list obj), drv gaps out tb = Ok (cs, tb2) ∧ concat cs = rev a ++ omap (mp_result mp) vis ∧ chunked cs ∧ visits_ok e pos l gaps vis ∧
      ∃ l', l' ∈ lists_of l gaps ∧ tree_ok tb2 l'.

Lemma resume_ok fuel drv gaps tb l k e a g :
  drive_spec fuel drv → tree_ok tb l → g = zlen a → g < chunk →
  zlen l + zlen (concat gaps) <= max_objects → Forall op_ok (concat gaps) →
  (match gaps with [] => length (from_key d (Some k) (t_root tb)) <= fuel | _ => length gaps + length l + length (concat gaps) <= S fuel end)%nat →
  ∃ cs tb2 os, resume drv gaps k e a g tb = Ok (cs, tb2) ∧ concat cs = rev a ++ omap (mp_result mp) os ∧ chunked cs ∧
    visits_ok e (Some k) (after_gap l gaps) (tail gaps) os ∧ ∃ l', l' ∈ lists_of l gaps ∧ tree_ok tb2 l'.
Proof.
  intros Hd Hok Ha Hg Hmax Hp Hf. unfold resume.
  assert (zlen l + zlen (default [] (head gaps)) <= max_objects ∧ Forall op_ok (default [] (head gaps)) ∧ Forall op_ok (concat (tail gaps)) ∧
    length (concat gaps) = (length (default [] (head gaps)) + length (concat (tail gaps)))%nat) as (Hm1 & Hp1 & Hp2 & Elen).
  { destruct gaps as [|p gaps]; cbn in *; [done|]. rewrite zlen_app in Hmax. pose proof (zlen_nonneg (concat gaps)). apply Forall_app in Hp as [? ?].
    split_and!; [lia|done|done|by rewrite length_app]. }
  destruct (steps_ok tb l _ Hok Hm1 Hp1) as (tb1 & E1 & Hok1). rewrite E1, bind_Ok.
  pose proof (list_steps_length tb l _ Hok Hm1 Hp1) as Hlen. fold (after_gap l gaps) in Hok1, Hlen.
  destruct (continue_chunk_ok tb1 _ k e a g Hok1 Hg) as (out & tb2 & -> & Hspec & Hok2 & Er). rewrite bind_Ok. rewrite <- Er in Hspec.
  destruct (Hd (tail gaps) out tb2 (after_gap l gaps) (Some k) e a g Hok2 Hspec Ha Hg) as (cs & tb3 & os & -> & Ec & Hc & Hv & l' & Hl' & Hok3).
  - unfold zlen in *. lia.
  - done.
  - rewrite Er. unfold need. destruct gaps as [|p gaps].
    + cbn in E1. injection E1 as <-. done.
    + cbn [tail head default] in *. cbn [length] in Hf. pose proof (area_length tb1 _ (Some k) Hok1). cbn in Elen, Hlen, Hf. destruct gaps; cbn [length] in *; lia.
  - exists cs, tb3, os. split_and!; try done. exists l'. split; [by apply lists_of_tail|done].
Qed.

Lemma drive_eq fuel gaps out tb :
  drive fuel gaps out tb = match out with
  | EndOfTable => Ok ([], tb)
  | Whole r => Ok ([r], tb)
  | Chunk r None => r' ← ets_select_reverse (length r) r []; Ok ([r'], tb)
  | Chunk r (Some (k, e)) =>
      r' ← ets_select_reverse (length r) r [];
      match fuel with O => NoFuel | S fuel => '(cs, tb) ← resume (drive fuel) gaps k e [] 0 tb; Ok (r' :: cs, tb) end
  | ChunkTrap k e a g => match fuel with O => NoFuel | S fuel => resume (drive fuel) gaps k e a g tb end
  end.
Proof. by destruct fuel. Qed.

(** The results of a call in the order they are delivered. *)
Lemma delivered a vis : rev (rev (results vis) ++ a) = rev a ++ omap (mp_result mp) (n_obj <$> vis).
Proof. by rewrite rev_app_distr, rev_involutive, results_fmap. Qed.

Lemma delivered_zlen a vis : zlen (rev (rev (results vis) ++ a)) = zlen a + zlen (results vis).
Proof. unfold zlen. rewrite length_rev, length_app, length_rev. lia. Qed.

Lemma turned (r : list R) : ets_select_reverse (length r) r [] = Ok (rev r).
Proof. by rewrite ets_select_reverse_ok, app_nil_r. Qed.

(** A call that goes on has visited something. *)
Lemma need_step gaps l vis rest k tb fuel :
  (need gaps l (vis ++ rest) <= fuel)%nat → vis ≠ [] → from_key d (Some k) (t_root tb) = rest →
  ∃ fuel', fuel = S fuel' ∧
    (match gaps with [] => length (from_key d (Some k) (t_root tb)) <= fuel' | _ => length gaps + length l + length (concat gaps) <= S fuel' end)%nat.
Proof.
  intros Hf Hne ->. unfold need in Hf. rewrite length_app in Hf. destruct vis as [|y vis]; [done|].
  destruct fuel as [|f]; [destruct gaps; cbn in Hf; lia|]. exists f. split; [done|]. destruct gaps; cbn [length] in *; lia.
Qed.

Lemma drive_ok fuel : drive_spec fuel (drive fuel).
Proof.
  induction fuel as [fuel IH] using (well_founded_induction lt_wf).
  intros gaps out tb l pos e a g Hok (vis & rest & E & Hout) Hg Hlt Hmax Hp Hf. cbv zeta in Hout. rewrite E in Hf. rewrite drive_eq.
  assert (∃ l', l' ∈ lists_of l gaps ∧ tree_ok tb l') as Hfin by (exists l; split; [apply lists_of_head|done]).
  pose proof (zlen_nonneg (results vis)) as Hz. destruct out as [|r|r [[k e']|]|k e' r g'].
  - destruct Hout as [Hnone Hr]. destruct a; [|rewrite zlen_cons in Hg; pose proof (zlen_nonneg a); lia].
    exists [], tb, (n_obj <$> vis). split_and!; [done| |done|by eapply visits_end|done].
    rewrite <- results_fmap. destruct (results vis) as [|x r]; [done|]. rewrite zlen_nil, zlen_cons in *. pose proof (zlen_nonneg r). lia.
  - destruct Hout as (Er & Hr & Hrest). exists [r], tb, (n_obj <$> vis). split_and!; [done| |apply chunked_one; lia|by eapply visits_end|done].
    rewrite <- delivered, <- Er. cbn. rewrite app_nil_r. destruct r as [|x [|x2 r]]; [done|done|]. rewrite !zlen_cons in Hr. pose proof (zlen_nonneg r). lia.
  - destruct Hout as (-> & Hgot & -> & Hne & Hk). rewrite turned, bind_Ok. destruct (need_step gaps l vis rest k tb fuel Hf Hne Hk) as (fuel' & -> & Hf').
    destruct (resume_ok fuel' (drive fuel') gaps tb l k e [] 0 (IH fuel' ltac:(lia)) Hok) as (cs & tb2 & os & -> & Ec & Hc & Hv & Hfin'); try done.
    rewrite bind_Ok. eexists _, tb2, ((n_obj <$> vis) ++ os). split_and!; [done| | |by eapply visits_step|done].
    + cbn [concat]. rewrite Ec, delivered, omap_app, <- app_assoc. done.
    + apply chunked_cons; [|done]. rewrite delivered_zlen. lia.
  - destruct Hout as (-> & Hne & Hgot & Hrest). rewrite turned, bind_Ok. eexists _, tb, (n_obj <$> vis). split_and!; [done| | |by eapply visits_end|done].
    + cbn [concat]. by rewrite app_nil_r, delivered.
    + apply chunked_one. rewrite delivered_zlen. pose proof (zlen_nonneg a). lia.
  - destruct Hout as (-> & -> & Hgot & -> & Hne & Hk). destruct (need_step gaps l vis rest k tb fuel Hf Hne Hk) as (fuel' & -> & Hf').
    destruct (resume_ok fuel' (drive fuel') gaps tb l k e (rev (results vis) ++ a) (g + zlen (results vis)) (IH fuel' ltac:(lia)) Hok)
      as (cs & tb2 & os & -> & Ec & Hc & Hv & Hfin'); try done.
    { unfold zlen in *. rewrite length_app, length_rev. lia. }
    exists cs, tb2, ((n_obj <$> vis) ++ os). split_and!; [done| |done|by eapply visits_step|done].
    rewrite Ec, delivered, omap_app, <- app_assoc. done.
Qed.

(** * The first call *)

Lemma results_none ys : (∀ n, n ∈ ys → mp_result mp (n_obj n) = None) → results ys = [].
Proof.
  unfold results. induction ys as [|y ys IH]; intros Hn; [done|]. cbn. rewrite (Hn y) by left. apply IH. intros n Hin. apply Hn. by right.
Qed.

Lemma no_match o : matches mp o = false → mp_result mp o = None.
Proof. unfold matches. by destruct (mp_result mp o). Qed.

Lemma first_chunk_ok mpi tb l :
  tree_ok tb l → range_sound mpi tb (matches mp) →
  ∃ out tb2 pos, db_select_chunk_tree mp chunk reverse mpi tb = Ok (out, tb2) ∧ chunk_spec (from_key d pos (t_root tb)) (to_end d mpi) [] 0 out tb2 ∧
    tree_ok tb2 l ∧ t_root tb2 = t_root tb ∧ ∀ o, o ∈ l → ¬ ahead_of pos o → mp_result mp o = None.
Proof.
  intros Hok Hr. unfold db_select_chunk_tree. destruct (something_can_match mpi) eqn:Esome; cbn [negb].
  2: { exists EndOfTable, tb, None. split_and!; try done. exists [], (els d (t_root tb)). split; [done|]. cbv zeta. split; [done|].
       apply Forall_forall. intros n Hn%els_elem. right. by apply no_match, (rs_nothing _ _ _ Hr Esome). }
  destruct (single_key mpi) eqn:Esing.
  { destruct (rs_single _ _ _ Hr Esome Esing) as (y & Hy & <- & Ho). unfold doit_select. rewrite (node_of_elem tb l y Hok Hy), bind_Ok. cbn [sl_end past_end]. rewrite bind_Ok. cbn [sl_accum].
    eexists _, tb, None. split_and!; [done| |done|done|done]. exists (els d (t_root tb)), []. split; [by rewrite app_nil_r|]. cbv zeta. rewrite app_nil_r.
    assert (results (els d (t_root tb)) = match mp_result mp (n_obj y) with Some r => [r] | None => [] end) as Eres.
    { apply (els_elem d) in Hy. apply list_elem_of_split in Hy as (dn & rest & E). pose proof (els_nodup d tb l Hok) as Hnd. rewrite E in Hnd |- *.
      apply NoDup_app in Hnd as (_ & Hdn & [Hy _]%NoDup_cons). unfold results. rewrite omap_app. cbn [omap list_omap]. fold (results dn). fold (results rest).
      rewrite !results_none.
      - by destruct (mp_result mp (n_obj y)).
      - intros n Hn. apply no_match, Ho; [apply (els_elem d); rewrite E, elem_of_app; right; by right|by intros ->].
      - intros n Hn. apply no_match, Ho; [apply (els_elem d); rewrite E, elem_of_app; by left|intros ->; apply (Hdn y Hn); left]. }
    rewrite Eres. by destruct (mp_result mp (n_obj y)). }
  destruct (any_stack_tree tb l Hok) as (static & s & tb1 & Eg & Hok1 & Hs & Er & Hrel). rewrite Eg.
  pose proof Hs as Hs1. rewrite <- Er in Hs1. destruct (start_select_ok tb1 l s d mpi Hok1 Hs1) as (lk & s0 & Es & Hs0 & Hdn). rewrite Es, bind_Ok. rewrite Er in Hs0, Hdn.
  destruct (chunk_call_ok tb l lk (mk_select (to_end d mpi) None 1000 [] 0) (to_end d mpi) false static tb1 s0) as (out & tb2 & E & Hspec & Hok2 & Er2); try done; [by left|].
  exists out, tb2, lk. split_and!; [exact E|done|done|done|]. intros o Ho Hn. destruct (area_split tb l lk Hok) as (dn & Ed).
  rewrite <- (to_objs _ _ Hok) in Ho. apply list_elem_of_fmap in Ho as (n & -> & Hin). apply no_match. pose proof Hin as Hin'. apply (els_elem d) in Hin. rewrite Ed in Hin.
  apply elem_of_app in Hin as [Hin|Hin].
  - destruct (Hdn dn Ed n Hin) as [Hl Hb]. by eapply range_before.
  - destruct Hn. apply (list_elem_of_fmap_2 n_obj) in Hin. by apply (area_elem tb l lk) in Hin as [].
Qed.

(** Without changes the visits are all there is to find. *)
Lemma visits_exact tb l e pos (vis : list obj) :
  tree_ok tb l → visits_ok e pos l [] vis → (∀ o, o ∈ l → past_end d e (GETKEY o) = true → mp_result mp o = None) → (∀ o, o ∈ l → ¬ ahead_of pos o → mp_result mp o = None) →
  omap (mp_result mp) vis = if reverse then rev (omap (mp_result mp) l) else omap (mp_result mp) l.
Proof.
  intros Hok [Hord _ Hs Hc] He Hpos. set (P := λ o, matches mp o = true).
  assert (∀ os : list obj, omap (mp_result mp) os = omap (mp_result mp) (filter P os)) as Hfilter.
  { intros os. induction os as [|o os IH]; [done|]. cbn [omap list_omap]. rewrite filter_cons. destruct (decide (P o)) as [HP|HP]; cbn [omap list_omap]; [by rewrite IH|].
    unfold P in HP. rewrite not_true_iff_false in HP. by rewrite (no_match o HP), IH. }
  assert (∀ os : list obj, in_order os → in_order (filter P os)) as Hfo.
  { intros os. induction 1 as [|o os Hos IH Ho]; [constructor|]. rewrite filter_cons. destruct (decide (P o)); [|done]. constructor; [done|].
    rewrite Forall_forall in Ho |- *. intros x [_ Hx]%list_elem_of_filter. by apply Ho. }
  assert (∀ x : term, ¬ comes x x) as Hirr by (intros x; unfold comes, CMP; rewrite kcmp_self; by destruct d).
  assert (∀ os : list obj, in_order os → NoDup os) as Hnd.
  { intros os. induction 1 as [|o os Hos IH Ho]; constructor; [|done]. intros Hin. rewrite Forall_forall in Ho. by apply (Hirr (GETKEY o)), Ho. }
  pose proof (area_order tb l [] (els d (t_root tb)) Hok eq_refl) as Hall.
  assert (filter P vis = filter P (n_obj <$> els d (t_root tb))) as E.
  { refine (StronglySorted_unique_strong (λ o o', comes (GETKEY o) (GETKEY o')) _ _ _ (Hfo _ Hord) (Hfo _ Hall) _).
    - intros x y _ _ Hx Hy. by destruct (Hirr _ (comes_trans _ _ _ Hx Hy)).
    - apply NoDup_Permutation; [by apply Hnd, Hfo|by apply Hnd, Hfo|]. intros o. rewrite !list_elem_of_filter. split; intros [HP Ho]; (split; [done|]).
      + destruct (Hs o Ho) as (l' & ->%list_elem_of_singleton & Hl). by apply (area_elem tb l None).
      + apply (area_elem tb l None) in Ho as [Ho _]; [|done]. apply Hc.
        * by intros l' ->%list_elem_of_singleton.
        * destruct pos as [k|]; [|done]. destruct (decide (comes k (GETKEY o))) as [|Hn]; [done|]. unfold P, matches in HP. by rewrite (Hpos o Ho Hn) in HP.
        * apply not_true_is_false. intros Hp. unfold P, matches in HP. by rewrite (He o Ho Hp) in HP.
        * unfold P, matches in HP. by destruct (mp_result mp o). }
  rewrite Hfilter, E, <- Hfilter, <- results_fmap. unfold results. rewrite (omap_els _ d tb l Hok). unfold chunk_dir. by destruct reverse.
Qed.

(** All calls from a table that is as it should be. *)
Lemma select_chunks_ok mpi tb l (gaps : list ops) (fuel : nat) :
  tree_ok tb l → zlen l + zlen (concat gaps) <= max_objects → Forall op_ok (concat gaps) → range_sound mpi tb (matches mp) →
  (length gaps + length l + length (concat gaps) <= fuel)%nat →
  ∃ cs tb' (vis : list obj), select_chunks mpi fuel gaps tb = Ok (cs, tb') ∧ concat cs = omap (mp_result mp) vis ∧ in_order vis ∧
    (∀ o, o ∈ vis → ∃ l', l' ∈ lists_of l gaps ∧ o ∈ l') ∧
    (∀ o, (∀ l', l' ∈ lists_of l gaps → o ∈ l') → mp_result mp o ≠ None → o ∈ vis) ∧
    chunked cs ∧ n_obj <$> elements (t_root tb') ∈ lists_of l gaps ∧
    (gaps = [] → concat cs = if reverse then rev (omap (mp_result mp) l) else omap (mp_result mp) l).
Proof.
  intros Hok Hmax Hpg Hr Hf.
  unfold select_chunks. destruct (first_chunk_ok mpi tb l Hok Hr) as (out & tb2 & pos & -> & Hspec & Hok2 & Er & Hpos). rewrite bind_Ok. rewrite <- Er in Hspec.
  destruct (drive_ok fuel gaps out tb2 l pos (to_end d mpi) [] 0 Hok2 Hspec) as (cs & tb3 & vis & -> & Ec & Hc & Hv & l' & Hl' & Hok3); try done.
  - unfold need. pose proof (area_length tb2 l pos Hok2). destruct gaps; cbn [length concat] in *; lia.
  - assert (∀ o, o ∈ l → past_end d (to_end d mpi) (GETKEY o) = true → mp_result mp o = None) as He.
    { intros o Ho Hp'. rewrite <- (to_objs _ _ Hok) in Ho. apply list_elem_of_fmap in Ho as (n & -> & Hn). by eapply no_match, range_past. }
    exists cs, tb3, vis. split_and!; [done|done|apply Hv|apply Hv| |done|by rewrite (to_objs _ _ Hok3)|].
    + intros o Ho Hm. pose proof (Ho l (lists_of_head l gaps)) as Hl. apply (vo_complete _ _ _ _ _ Hv); [done| | |done].
      * destruct pos as [k|]; [|done]. destruct (decide (comes k (GETKEY o))) as [|Hn]; [done|]. by destruct Hm; apply Hpos.
      * apply not_true_is_false. intros Hp'. by apply Hm, He.
    + intros ->. rewrite Ec. by apply (visits_exact tb2 l (to_end d mpi) pos).
Qed.

(** * The life of a table *)

(** C6: [ets:select] with a chunk size on an ordered set, given a search area that no matching
    object of the table lies outside of ([range_sound]) and partly bound keys that compare
    monotonically with the keys of the table ([PartlyBoundLaws]; both are shown for the patterns
    of DbPatternProps.v and do not hold for all patterns), from the first chunk to the end of
    the table, while other processes change the table between the chunks and at every trap:
    each call returns; the results are those of objects that were in the table, in the order of
    their keys and no key twice; no object that matches and stays in the table is left out; all
    chunks but the last have exactly the size asked for, and none is empty.  A table that does
    not change gives exactly its results.  [gaps] is what the others do before each further
    call; there are fewer than 2^31 objects and operations. *)
Theorem select_chunks_exact mpi (history : ops) rs tb (gaps : list ops) (fuel : nat) :
  let l := (list_steps [] history).2 in
  zlen history <= max_objects → zlen l + zlen (concat gaps) <= max_objects → Forall op_ok history → Forall op_ok (concat gaps) →
  steps new_table history = Ok (rs, tb) → range_sound mpi tb (matches mp) → (length gaps + length l + length (concat gaps) <= fuel)%nat →
  ∃ cs tb' (vis : list obj), select_chunks mpi fuel gaps tb = Ok (cs, tb') ∧ concat cs = omap (mp_result mp) vis ∧ in_order vis ∧
    (∀ o, o ∈ vis → ∃ l', l' ∈ lists_of l gaps ∧ o ∈ l') ∧
    (∀ o, (∀ l', l' ∈ lists_of l gaps → o ∈ l') → mp_result mp o ≠ None → o ∈ vis) ∧
    chunked cs ∧ n_obj <$> elements (t_root tb') ∈ lists_of l gaps ∧
    (gaps = [] → concat cs = if reverse then rev (omap (mp_result mp) l) else omap (mp_result mp) l).
Proof. intros l Hmax Hmax2 Hp Hpg E Hr Hf. pose proof (history_ok history rs tb Hmax Hp E) as Hok. by apply select_chunks_ok. Qed.
End Chunks.

(** * Samples *)

Module Samples.

(** As in DbTreeSelProps.v: pairs with numbers as keys; a number as a partly bound key matches itself. *)
#[local] Instance sample_terms : DbTerms Z (Z * Z) := {|
  GETKEY := fst; arityval _ := 2; tpl o i := if i =? 1 then o.1 else o.2; set_key o k := (k, o.2); internal_hash k := k |}.
#[local] Instance sample_order : TermOrder Z Z := {| keyval k := k; kcmp := Z.sub; am_EOT := -1 |}.
#[local] Instance sample_cmp : KeyCmp Z (kcmp (V:=Z)).
Proof. split; cbn; intros; lia. Defined.
#[local] Instance sample_pb : PartlyBound Z Z := {| cmp_partly_bound := Z.sub; cmp_keys := Z.sub |}.
#[local] Instance sample_pb_laws : PartlyBoundLaws Z Z Z.
Proof. split; unfold cmp_partly_bound, sample_pb; cbn; intros; lia. Defined.

Definition sample_history : list (tree_op Z (Z * Z)) := (λ k, Put (k, k) false) <$> [5; 1; 3; 7; 2; 6; 4].
Definition sample_table : DbTableTree (Z * Z) := match steps new_table sample_history with Ok (_, tb) => tb | _ => new_table end.
Definition sample_outs : list (tree_out Z (Z * Z)) := match steps new_table sample_history with Ok (rs, _) => rs | _ => [] end.

(** The objects with the keys 2 to 6 but not 3; a match makes a heap fragment, so that the calls trap. *)
Definition sample_mpi : mp_info Z := mk_mpi true true true 2 6 O.
Definition sample_mp : match_prog (Z * Z) Z := mk_mp (λ o, if (2 <=? o.1) && (o.1 <=? 6) && negb (o.1 =? 3) then Some o.1 else None) (λ _, true).

Lemma chunk_sample_sound : range_sound sample_mpi sample_table (matches sample_mp).
Proof.
  split; [done|done|]. intros _ n Hn Hp. unfold cmp_partly_bound, sample_pb, node_key, matches in *. destruct n as [a [k v]]. cbn in *.
  destruct (Z.leb_spec 2 k), (Z.leb_spec k 6); cbn; done || lia.
Defined.

(** Before the second call the object 4 goes and 0 comes, before the third one 1 goes and 7 is replaced. *)
Definition sample_gaps : list (list (tree_op Z (Z * Z))) := [[Erase 4; Put (0, 0) false]; [Erase 1; Put (7, 8) false]].

Lemma select_chunks_exact_witness :
  ∃ cs tb' (vis : list (Z * Z)), select_chunks sample_mp 2 false sample_mpi 20 sample_gaps sample_table = Ok (cs, tb') ∧
    (2, 2) ∈ vis ∧ (5, 5) ∈ vis ∧ (6, 6) ∈ vis ∧ chunked 2 cs ∧ concat cs = omap (mp_result sample_mp) vis.
Proof.
  destruct (select_chunks_exact sample_mp 2 false ltac:(lia) sample_mpi sample_history sample_outs sample_table sample_gaps 20)
    as (cs & tb' & vis & E & Ec & _ & _ & Hc & Hch & _).
  - by vm_compute.
  - by vm_compute.
  - repeat (constructor; try done).
  - repeat (constructor; try done).
  - by vm_compute.
  - apply chunk_sample_sound.
  - by vm_compute; repeat constructor.
  - exists cs, tb', vis. split; [exact E|].
    assert (Forall (λ o, Forall (λ l', o ∈ l') (lists_of (list_steps [] sample_history).2 sample_gaps) ∧ mp_result sample_mp o ≠ None) [(2, 2); (5, 5); (6, 6)]) as Hall
      by (apply (bool_decide_unpack _); by vm_compute).
    rewrite Forall_forall in Hall. assert (∀ o, o ∈ [(2, 2); (5, 5); (6, 6)] → o ∈ vis) as Hvis.
    { intros o [Ho Hm]%Hall. rewrite Forall_forall in Ho. by apply Hc. }
    split_and!; [..|done|done]; apply Hvis; [left|right; left|right; right; left].
Defined.

(** The same, computed: what is delivered. *)
Lemma sample_chunks_run :
  (λ '(cs, _), cs) <$> (match select_chunks sample_mp 2 false sample_mpi 20 sample_gaps sample_table with Ok r => Some r | _ => None end) = Some [[2; 5]; [6]] ∧
  (λ '(cs, _), cs) <$> (match select_chunks sample_mp 2 true sample_mpi 20 [] sample_table with Ok r => Some r | _ => None end) = Some [[6; 5]; [4; 2]].
Proof. by vm_compute. Qed.

End Samples.
