(* ===== verification/DbPattern.v ===== *)
(** ETS ordered sets over the terms of TermCmp.v: the keys of patterns.

    A pattern is a term with variables, the atoms _ and $N.  A key that has variables is
    partly bound; [do_cmp_partly_bound] compares it with the key of an object,
    [do_partly_bound_can_match] with another one, and [analyze_pattern] finds from all
    patterns the part of the tree to search (erl_db_tree.c; variables in erl_db_util.c).
    None of the modelled terms has a map in it, so that [db_has_map] is false. *)
From S2P Require Import Prelude BigDigits Big Utf8 Hash Index AtomTab TermCmp TermOrd Avl DbHash DbTree DbTreeSelect.

(** * The objects of a table *)

(** The position of the key, and the atoms that the code knows by their names. *)
Class EtsTable `{AtomNames} := {
  keypos : Z;
  am_Underscore : Z;
  am_DollarUnderscore : Z;
  am_EOT_atom : Z;
  keypos_pos : 1 <= keypos;
  am_EOT_good : term_ok (T_atom am_EOT_atom) = true }.

Section Variables.
Context `{EtsTable}.

(** * Variables *)

(** The digits after the first: [N = N*10 + ( *b - '0')] in an [int]. *)
Fixpoint variable_number (b : bytes) (N : Z) : Z :=
  match b with
  | [] => N
  | c :: b => if (48 <=? c) && (c <=? 57) then variable_number b (to_int (N * 10 + (c - 48))) else -1
  end.

Definition db_is_variable (t : Term) : Z :=
  match t with
  | T_atom i =>
      match text_of i with
      | 36 :: c :: b =>
          if c =? 48 then if bool_decide (b = []) then 0 else -1
          else if (49 <=? c) && (c <=? 57) then variable_number b (c - 48)
          else -1
      | _ => -1
      end
  | _ => -1
  end.

(** [is_atom(a) && (a == am_Underscore || db_is_variable(a) >= 0)] *)
Definition is_var (t : Term) : bool :=
  match t with T_atom i => (i =? am_Underscore) || (db_is_variable t >=? 0) | _ => false end.

(** No list in an object ends in an atom that looks like a variable. *)
Fixpoint plain (t : Term) : bool :=
  match t with
  | T_tuple l => forallb plain l
  | T_list h t => plain h && plain t && negb (is_var t)
  | _ => true
  end.

Definition object_ok (t : Term) : bool := term_ok t && plain t.

End Variables.

(** * Objects and keys *)

(** A key of an object, and of a pattern. *)
Record key_term `{EtsTable} := mk_key { key_val : Term; key_good : object_ok key_val = true }.
Arguments mk_key {_ _} _ _.
Record pat_term `{EtsTable} := mk_pat { pat_val : Term; pat_good : term_ok pat_val = true }.
Arguments mk_pat {_ _} _ _.

(** A tuple that is long enough to have a key. *)
Record row `{EtsTable} := mk_row {
  row_val : list Term;
  row_good : object_ok (T_tuple row_val) = true;
  row_long : (keypos <=? zlen row_val) = true }.
Arguments mk_row {_ _} _ _ _.

Section Objects.
Context `{EtsTable} `{Pointers}.

Lemma key_ext (a b : key_term) : key_val a = key_val b → a = b.
Proof. destruct a as [a Ha], b as [b Hb]. cbn. intros ->. f_equal. apply eq_pi. apply _. Qed.

Lemma row_ext (a b : row) : row_val a = row_val b → a = b.
Proof. destruct a as [a Ha La], b as [b Hb Lb]. cbn. intros ->. f_equal; apply eq_pi; apply _. Qed.

#[export] Instance key_term_eq_dec : EqDecision key_term.
Proof. intros a b. destruct (decide (key_val a = key_val b)) as [E|E]; [left; by apply key_ext|right; by intros ->]. Defined.

#[export] Instance row_eq_dec : EqDecision row.
Proof. intros a b. destruct (decide (row_val a = row_val b)) as [E|E]; [left; by apply row_ext|right; by intros ->]. Defined.

(** A term as a key; the terms of the system are good. *)
Definition to_key (t : Term) : key_term :=
  match bool_dec (object_ok t) true with left E => mk_key t E | right _ => mk_key T_nil eq_refl end.

Definition to_pat (t : Term) : pat_term :=
  match bool_dec (term_ok t) true with left E => mk_pat t E | right _ => mk_pat T_nil eq_refl end.

(** The element at a position, from 1 on. *)
Definition element_of (l : list Term) (i : Z) : Term := default T_nil (l !! Z.to_nat (i - 1)).

Lemma object_ok_tuple l : object_ok (T_tuple l) = true → Forall (λ t, object_ok t = true) l.
Proof.
  unfold object_ok. intros [Hl%term_ok_tuple Hp]%andb_true_iff. cbn [plain] in Hp. rewrite forallb_forall in Hp.
  rewrite Forall_forall in Hl |- *. intros t Ht. rewrite (Hl t Ht). apply Hp. by apply list_elem_of_In.
Qed.

Lemma element_good l i : object_ok (T_tuple l) = true → object_ok (element_of l i) = true.
Proof.
  intros Hl%object_ok_tuple. unfold element_of. destruct (l !! _) as [t|] eqn:E; [|done]. exact (Forall_lookup_1 _ _ _ _ Hl E).
Qed.

Definition row_key (o : row) : key_term := mk_key (element_of (row_val o) keypos) (element_good _ _ (row_good o)).

(** A tuple with another key. *)
Definition with_key (l : list Term) (t : Term) : list Term := <[Z.to_nat (keypos - 1) := t]> l.

Lemma with_key_good l t : object_ok (T_tuple l) = true → object_ok t = true → object_ok (T_tuple (with_key l t)) = true.
Proof.
  unfold with_key. intros Hl Ht. pose proof (object_ok_tuple _ Hl) as Hf. apply andb_true_iff in Hl as [Hl _]. pose proof (term_ok_leaf _ Hl) as Hz.
  assert (Forall (λ t, object_ok t = true) (<[Z.to_nat (keypos - 1) := t]> l)) as Hf' by (by apply Forall_insert).
  unfold object_ok. cbn [term_ok plain]. rewrite bool_decide_true by (cbn in *; unfold zlen in *; by rewrite length_insert).
  cbn [andb]. apply andb_true_iff. rewrite !forallb_forall. rewrite Forall_forall in Hf'.
  split; intros x Hx%list_elem_of_In; by destruct (proj1 (andb_true_iff _ _) (Hf' x Hx)).
Qed.

Lemma with_key_long l t : (keypos <=? zlen l) = true → (keypos <=? zlen (with_key l t)) = true.
Proof. unfold with_key, zlen. by rewrite length_insert. Qed.

(** Ordered sets do not hash. *)
#[export] Instance row_terms : DbTerms key_term row := {|
  GETKEY := row_key;
  arityval o := zlen (row_val o);
  tpl o i := mk_key (element_of (row_val o) i) (element_good _ _ (row_good o));
  set_key o k := mk_row (with_key (row_val o) (key_val k)) (with_key_good _ _ (row_good o) (key_good k)) (with_key_long _ _ (row_long o));
  internal_hash _ := 0 |}.

Lemma am_EOT_object : object_ok (T_atom am_EOT_atom) = true.
Proof. unfold object_ok. by rewrite am_EOT_good. Qed.

(** [erts_cmp] always returns ([erts_cmp_ok]). *)
Definition cmp_terms (a b : Term) : Z := match erts_cmp a b with Ok j => j | _ => 0 end.

#[export] Instance key_order : TermOrder key_term key_term := {|
  keyval k := k; kcmp a b := cmp_terms (key_val a) (key_val b); am_EOT := mk_key (T_atom am_EOT_atom) (am_EOT_object) |}.

(** What [db_has_variable] pushes for a list: the elements, and the tail at last. *)
Fixpoint push_list (node : Term) (s : list Term) : list Term :=
  match node with
  | T_list h t => push_list t (h :: s)
  | _ => node :: s
  end.

Fixpoint has_variable_loop (fuel : nat) (s : list Term) : res bool :=
  match s with
  | [] => Ok false
  | node :: s =>
      match fuel with
      | O => NoFuel
      | S fuel =>
          match node with
          | T_list _ _ => has_variable_loop fuel (push_list node s)
          | T_tuple l => has_variable_loop fuel (rev_append l s)
          | _ => if is_var node then Ok true else has_variable_loop fuel s
          end
      end
  end.

Definition db_has_variable (node : Term) : res bool := has_variable_loop (term_size node) [node].

Definition db_getkey (t : Term) : option Term :=
  match t with
  | T_tuple l => if zlen l >=? keypos then Some (element_of l keypos) else None
  | _ => None
  end.

(** * Partly bound keys *)

(** [is_same] for a term of a pattern and one of an object: the table has copies of its own,
    so that only words are the same. *)
Definition same_word (a b : Term) : bool := is_immed a && bool_decide (a = b).

(** The result, and [*done]: a variable has been met. *)
Fixpoint do_cmp_partly_bound (a b : Term) : Z * bool :=
  if is_var a then (0, true)
  else if same_word a b then (0, false)
  else
    match a, b with
    | T_list h t, T_list h' t' =>
        let '(j, done) := do_cmp_partly_bound h h' in
        if negb (j =? 0) || done then (j, done)
        else if same_word t t' then (0, false)
        else do_cmp_partly_bound t t'
    | T_tuple aa, T_tuple bb =>
        if zlen aa <? zlen bb then (-1, false)
        else if zlen aa >? zlen bb then (1, false)
        else
          (fix elements aa bb :=
             match aa, bb with
             | a :: aa, b :: bb =>
                 let '(j, done) := do_cmp_partly_bound a b in
                 if negb (j =? 0) || done then (j, done) else elements aa bb
             | _, _ => (0, false)
             end) aa bb
    | _, _ => (cmp_terms a b, false)
    end.

#[export] Instance key_partly_bound : PartlyBound pat_term key_term := {|
  cmp_partly_bound partly_bound_key bound_key := (do_cmp_partly_bound (pat_val partly_bound_key) (key_val bound_key)).1;
  cmp_keys a b := cmp_terms (pat_val a) (pat_val b) |}.

(** [do_partly_bound_can_match_lesser] for [DIR_LEFT], [do_partly_bound_can_match_greater] for
    [DIR_RIGHT]: they differ in the sign that they test. *)
Fixpoint do_partly_bound_can_match (d : dir) (a b : Term) : bool * bool :=
  if is_var a then (negb (is_var b), true)
  else if is_var b then (false, true)
  else if is_same a b then (false, false)
  else if negb (tag_val_def a =? tag_val_def b) then (towards d (cmp_terms a b) >? 0, true)
  else
    match a, b with
    | T_tuple aa, T_tuple bb =>
        if towards d (zlen aa - zlen bb) >? 0 then (true, false)
        else if towards d (zlen aa - zlen bb) <? 0 then (false, false)
        else
          (fix elements aa bb :=
             match aa, bb with
             | a :: aa, b :: bb =>
                 let '(j, done) := do_partly_bound_can_match d a b in
                 if j || done then (j, done) else elements aa bb
             | _, _ => (false, false)
             end) aa bb
    | T_list h t, T_list h' t' =>
        let '(j, done) := do_partly_bound_can_match d h h' in
        if j || done then (j, done)
        else if is_same t t' then (false, false)
        else do_partly_bound_can_match d t t'
    | _, _ =>
        let i := cmp_terms a b in
        (towards d i >? 0, negb (i =? 0))
    end.

Definition partly_bound_can_match_lesser (a b : Term) : bool := (do_partly_bound_can_match DIR_LEFT a b).1.
Definition partly_bound_can_match_greater (a b : Term) : bool := (do_partly_bound_can_match DIR_RIGHT a b).1.

(** * The analysis of patterns *)

(** 0: no limit, or a partly bound key; 1: the key of an object, with its node; -1: nothing
    can match. *)
Definition key_given (tb : DbTableTree row) (pattern : Term) : res (Z * option nat * option Term * DbTableTree row) :=
  if (bool_decide (pattern = T_atom am_Underscore)) || negb (db_is_variable pattern =? -1) then Ok (0, None, None, tb)
  else
    match db_getkey pattern with
    | None => Ok (-1, None, None, tb)
    | Some key =>
        has ← db_has_variable key;
        if negb has then
          '(this, tb) ← find_node tb (to_key key);
          match this with
          | Null => Ok (-1, None, None, tb)
          | Node _ _ n _ => Ok (1, Some (n_addr n), None, tb)
          end
        else if negb (bool_decide (key = T_atom am_Underscore)) && (db_is_variable key <? 0) then Ok (0, None, Some key, tb)
        else Ok (0, None, None, tb)
    end.

(** What the loop over the patterns has found so far; [None] for a term that is not set. *)
Record analysis := mk_an {
  an_all_objects : bool;
  an_something : bool;
  an_limitation : bool;
  an_partial : bool;
  an_least : option Term;
  an_most : option Term;
  an_save : nat }.

(** A pattern, its guards and its body, of a proper list. *)
Definition match_clause (t : Term) : option (Term * Term * Term) :=
  match t with T_tuple [m; g; b] => Some (m, g, b) | _ => None end.

Fixpoint proper_list (t : Term) : option (list Term) :=
  match t with
  | T_nil => Some []
  | T_list h t => cons h <$> proper_list t
  | _ => None
  end.

Definition returns_object (body : Term) : bool :=
  bool_decide (body = T_list (T_atom am_DollarUnderscore) T_nil).

(** [least], [most] and the rest for one more pattern. *)
Definition add_key (an : analysis) (key : option Term) : analysis :=
  match key with
  | None => an
  | Some key =>
      let least := match an_least an with
                   | None => key
                   | Some least => if partly_bound_can_match_lesser key least then key else least
                   end in
      let most := match an_most an with
                  | None => key
                  | Some most => if partly_bound_can_match_greater key most then key else most
                  end in
      mk_an (an_all_objects an) (an_something an) (an_limitation an) (an_partial an) (Some least) (Some most) (an_save an)
  end.

Definition analyze_head (an : analysis) (tb : DbTableTree row) (tpl body : Term) : res (analysis * DbTableTree row) :=
  let all := an_all_objects an && returns_object body in
  '(r, node, partly_bound, tb) ← key_given tb tpl;
  let save := default (an_save an) node in
  if r >=? 0 then
    let '(key, limitation, partial) :=
      if r >? 0 then (db_getkey tpl, an_limitation an, an_partial an)
      else match partly_bound with
           | Some key => (Some key, an_limitation an, true)
           | None => (None, false, an_partial an)
           end in
    Ok (add_key (mk_an all true limitation partial (an_least an) (an_most an) save) key, tb)
  else Ok (mk_an all (an_something an) (an_limitation an) (an_partial an) (an_least an) (an_most an) save, tb).

(** [None]: a clause is no tuple of three elements. *)
Fixpoint analyze_loop (an : analysis) (tb : DbTableTree row) (clauses : list Term) : res (option analysis * DbTableTree row) :=
  match clauses with
  | [] => Ok (Some an, tb)
  | t :: clauses =>
      match match_clause t with
      | None => Ok (None, tb)
      | Some (m, _, b) => '(an, tb) ← analyze_head an tb m b; analyze_loop an tb clauses
      end
  end.

Definition mpi_of (an : analysis) : mp_info pat_term :=
  mk_mpi (an_something an) (an_limitation an) (an_partial an) (to_pat (default T_nil (an_least an))) (to_pat (default T_nil (an_most an))) (an_save an).

(** The match program is compiled elsewhere ([db_match_compile]); [None] is
    [DB_ERROR_BADPARAM]. *)
Definition analyze_pattern {R} (db_match_compile : list (Term * Term * Term) → option (match_prog row R)) (tb : DbTableTree row) (pattern : Term) :
    res (option (mp_info pat_term * bool * match_prog row R) * DbTableTree row) :=
  match proper_list pattern with
  | None => Ok (None, tb)
  | Some clauses =>
      '(an, tb) ← analyze_loop (mk_an true false true false None None O) tb clauses;
      match an with
      | None => Ok (None, tb)
      | Some an =>
          match db_match_compile (omap match_clause clauses) with
          | None => Ok (None, tb)
          | Some mp => Ok (Some (mpi_of an, an_all_objects an, mp), tb)
          end
      end
  end.

End Objects.
