(* ===== verification/DbPatternSpec.v ===== *)
(** Partly bound keys (DbPattern.v) as sequences of numbers.

    Up to its first variable a partly bound key has a sequence ([key_then]) as a term has one
    (TermOrd.v).  [do_cmp_partly_bound] compares the sequences as far as that of the pattern
    goes; a key that the pattern matches begins with it. *)
From S2P Require Import Prelude BigDigits Big BigSpec Utf8 Hash Index AtomTab AtomCmp TermCmp TermOrd Avl DbHash DbTree DbTreeSelect DbTreeTrav DbPattern.

(** * Sequences *)

(** Comparison as far as the first sequence goes. *)
Fixpoint lex_cut (s k : list Z) : comparison :=
  match s, k with
  | [], _ => Eq
  | _ :: _, [] => Gt
  | c :: s, d :: k => then_compare (c ?= d) (lex_cut s k)
  end.

Lemma lex_cut_same s x y : lex_cut (s ++ x) (s ++ y) = lex_cut x y.
Proof. induction s as [|c s IH]; [done|]. cbn [app lex_cut]. by rewrite Z.compare_refl. Qed.

Lemma lex_cut_above s k k' : lex k k' = Lt → lex_cut s k = Lt → lex_cut s k' = Lt.
Proof.
  revert k k'. induction s as [|c s IH]; intros [|d k] [|e k']; cbn [lex_cut lex]; try done.
  destruct (Z.compare_spec d e), (Z.compare_spec c d), (Z.compare_spec c e); cbn [then_compare]; intros; subst; try done; try lia. by eapply IH.
Qed.

Lemma lex_cut_below s k k' : lex k k' = Lt → lex_cut s k' = Gt → lex_cut s k = Gt.
Proof.
  revert k k'. induction s as [|c s IH]; intros [|d k] [|e k']; cbn [lex_cut lex]; try done.
  destruct (Z.compare_spec d e), (Z.compare_spec c d), (Z.compare_spec c e); cbn [then_compare]; intros; subst; try done; try lia. by eapply IH.
Qed.

(** Being below a sequence, as an order of sequences. *)
Lemma lex_cut_Gt s k : lex_cut s k = Gt ↔ lex k s = Lt.
Proof.
  revert k. induction s as [|c s IH]; intros [|d k]; cbn [lex_cut lex]; try done.
  rewrite (Z.compare_antisym c d). destruct (Z.compare_spec c d); cbn [CompOpp then_compare]; [apply IH|done..].
Qed.

(** Above: the order of the negated sequences, in which a prefix is the larger one. *)
Lemma lex_cut_Lt s k : lex_cut s k = Lt → lex (map Z.opp k) (map Z.opp s) = Lt.
Proof.
  revert k. induction s as [|c s IH]; intros [|d k]; cbn [lex_cut lex map]; try done.
  destruct (Z.compare_spec c d), (Z.compare_spec (- d) (- c)); cbn [then_compare]; try done; try lia. apply IH.
Qed.

Lemma lex_opp_Lt s k : lex (map Z.opp k) (map Z.opp s) = Lt → lex_cut s k = Lt ∨ ∃ t, t ≠ [] ∧ s = k ++ t.
Proof.
  revert k. induction s as [|c s IH]; intros [|d k]; cbn [lex_cut lex map]; try done.
  - right. by exists (c :: s).
  - destruct (Z.compare_spec c d), (Z.compare_spec (- d) (- c)); cbn [then_compare]; try done; try lia; [|by left].
    intros [?|(t & ? & ->)]%IH; [by left|right]. exists t. by subst.
Qed.

Lemma lex_le_trans x y z : lex x y ≠ Gt → lex y z ≠ Gt → lex x z ≠ Gt.
Proof.
  intros Hxy Hyz. destruct (lex x y) eqn:E1; [|destruct (lex y z) eqn:E2|done]; [apply lex_eq in E1; by subst|apply lex_eq in E2; subst; by rewrite E1| |done].
  by rewrite (lex_trans x y z).
Qed.

Lemma lex_lt_le x y z : lex x y = Lt → lex y z ≠ Gt → lex x z = Lt.
Proof. intros Hxy Hyz. destruct (lex y z) eqn:E; [apply lex_eq in E; by subst|by eapply lex_trans|done]. Qed.

(** The first place where two sequences differ. *)
Inductive differ (s k : list Z) (c d : Z) : Prop :=
| differ_at u v w : c ≠ d → s = u ++ c :: v → k = u ++ d :: w → differ s k c d.

Lemma differ_or_prefix s k : (∃ c d, differ s k c d) ∨ (∃ t, k = s ++ t) ∨ ∃ t, s = k ++ t.
Proof.
  revert k. induction s as [|c s IH]; intros [|d k]; [by right; left; exists []|by right; left; exists (d :: k)|by right; right; exists (c :: s)|].
  destruct (decide (c = d)) as [->|Hne]; [|left; exists c, d; by exists [] s k].
  destruct (IH k) as [(c & e & [u v w ? -> ->])|[[t ->]|[t ->]]]; [left; exists c, e; by exists (d :: u) v w|right; left; by exists t|right; right; by exists t].
Qed.

Lemma differ_lex_map (f : Z → Z) s k c d x y :
  (∀ a b, f a = f b → a = b) → differ s k c d → lex (map f s ++ x) (map f k ++ y) = (f c ?= f d).
Proof.
  intros Hf [u v w Hne -> ->]. rewrite !map_app, <- !app_assoc, lex_same. cbn [map app]. rewrite lex_cons.
  destruct (Z.compare_spec (f c) (f d)) as [E| |]; [|done..]. by apply Hf in E.
Qed.

Lemma differ_lex s k c d x y : differ s k c d → lex (s ++ x) (k ++ y) = (c ?= d).
Proof. intros Hd. pose proof (differ_lex_map (λ c, c) s k c d x y ltac:(done) Hd) as E. by rewrite !map_id in E. Qed.

Lemma differ_cut s k c d x y : differ s k c d → lex_cut (s ++ x) (k ++ y) = (c ?= d).
Proof.
  intros [u v w Hne -> ->]. rewrite <- !app_assoc, lex_cut_same. cbn [app lex_cut]. by destruct (Z.compare_spec c d).
Qed.

Section Keys.
Context `{EtsTable} `{!AtomNamesLaws} `{Pointers} `{!PointersLaws}.
Implicit Types (a b p q t : Term) (l : list Term) (x y s : list Z).

(** ** Terms *)

Lemma key_ok (k : key_term) : term_ok (key_val k) = true.
Proof. pose proof (key_good k) as Hk. by apply andb_true_iff in Hk as [? _]. Qed.

Lemma key_plain (k : key_term) : plain (key_val k) = true.
Proof. pose proof (key_good k) as Hk. by apply andb_true_iff in Hk as [_ ?]. Qed.

Lemma cmp_terms_ok a b : term_ok a = true → term_ok b = true → (cmp_terms a b ?= 0) = term_compare a b.
Proof. intros Ha Hb. destruct (erts_cmp_ok a b Ha Hb) as (j & E & Ej). unfold cmp_terms. by rewrite E. Qed.

(** No sequence is the beginning of another one. *)
Lemma terms_differ a b :
  term_ok a = true → term_ok b = true → a = b ∨ ∃ c d, differ (sort_key a) (sort_key b) c d ∧ term_compare a b = (c ?= d) ∧ c ≠ d.
Proof.
  intros Ha Hb. destruct (differ_or_prefix (sort_key a) (sort_key b)) as [(c & d & Hd)|Hpre].
  { right. exists c, d. split; [done|]. split; [|by destruct Hd].
    pose proof (differ_lex _ _ _ _ [] [] Hd) as E. rewrite (term_compare_key a b) in E by done. rewrite <- E. by destruct (term_compare a b). }
  left. apply term_compare_eq; [done..|]. destruct Hpre as [[t E]|[t E]].
  - pose proof (term_compare_key a b t [] Ha Hb) as E1. pose proof (term_compare_key a b (t ++ [0]) [] Ha Hb) as E2. pose proof (term_compare_key a b t [0] Ha Hb) as E3.
    rewrite app_nil_r, <- E, lex_refl in E1. symmetry in E1. by apply then_compare_Eq in E1 as [? _].
  - pose proof (term_compare_key a b [] t Ha Hb) as E1. rewrite app_nil_r, <- E, lex_refl in E1. symmetry in E1. by apply then_compare_Eq in E1 as [? _].
Qed.

#[export] Instance key_cmp_laws : KeyCmp key_term (kcmp (TermOrder := key_order)).
Proof.
  assert (∀ a b : key_term, (kcmp (TermOrder := key_order) a b ?= 0) = term_compare (key_val a) (key_val b)) as Hc.
  { intros a b. cbn. apply cmp_terms_ok; apply key_ok. }
  split.
  - intros a b. rewrite <- Z.compare_eq_iff, Hc. split; [|intros ->; apply term_compare_refl, key_ok].
    intros E. apply key_ext, term_compare_eq; [apply key_ok..|done].
  - intros a b. rewrite Z.gt_lt_iff, <- Z.compare_lt_iff, <- Z.compare_gt_iff, !Hc.
    rewrite (term_compare_sym (key_val a) (key_val b)) by apply key_ok. by destruct (term_compare (key_val a) (key_val b)).
  - intros a b c. rewrite <- !Z.compare_lt_iff, !Hc. apply term_compare_trans; apply key_ok.
Qed.

(** ** Variables *)

Fixpoint has_var t : bool :=
  match t with
  | T_list h t => has_var h || has_var t
  | T_tuple l => existsb has_var l
  | _ => is_var t
  end.

Lemma push_list_ok t l :
  existsb has_var (push_list t l) = has_var t || existsb has_var l ∧ (sizes (push_list t l) <= term_size t + sizes l)%nat ∧
  (is_list t = true → sizes (push_list t l) < term_size t + sizes l)%nat.
Proof.
  revert l. induction t as [| | | | | | | |h _ t IH|]; intros l0; try (split_and!; [done|done|by intros ?]).
  cbn [push_list has_var term_size]. destruct (IH (h :: l0)) as (-> & Hs & _). cbn [existsb].
  split; [destruct (has_var h), (has_var t); done|]. unfold sizes in *. cbn [sum_list_with] in *. split; [lia|intros _; lia].
Qed.

Lemma has_variable_loop_ok fuel l : (sizes l <= fuel)%nat → has_variable_loop fuel l = Ok (existsb has_var l).
Proof.
  revert l. induction fuel as [|fuel IH]; intros [|t l] Hf; try done; cbn in Hf; pose proof (term_size_pos t) as Hp.
  { unfold sizes in Hf. cbn in Hf. lia. }
  unfold sizes in Hf. cbn [sum_list_with] in Hf. cbn [has_variable_loop existsb].
  destruct t as [| | | | | |l'| |h t|]; try (cbn [has_var]; destruct (is_var _); [done|]; rewrite IH; [done|unfold sizes; cbn in Hf; lia]).
  - rewrite IH.
    + f_equal. rewrite rev_append_rev, existsb_app. cbn [has_var]. f_equal. rewrite eq_iff_eq_true, !existsb_exists. by setoid_rewrite <- in_rev.
    + unfold sizes. rewrite rev_append_rev, sum_list_with_app, rev_alt. change (rev_append l' []) with (reverse l'). rewrite sum_list_with_reverse. cbn in Hf. lia.
  - destruct (push_list_ok (T_list h t) l) as (E & _ & Hs). rewrite IH; [by rewrite E|]. unfold sizes in *. specialize (Hs eq_refl). lia.
Qed.

Lemma db_has_variable_ok t : db_has_variable t = Ok (has_var t).
Proof. unfold db_has_variable. rewrite has_variable_loop_ok by (unfold sizes; cbn; lia). cbn. by rewrite orb_false_r. Qed.

(** ** Partly bound keys *)

(** The sequence up to the first variable, or with [rest]; [f] is applied to the numbers. *)
Fixpoint key_then (f : Z → Z) p (rest : list Z) : list Z :=
  match p with
  | T_tuple l => map f [kind_of p; zlen l] ++ foldr (key_then f) rest l
  | T_list h t => map f [kind_of p] ++ key_then f h (key_then f t rest)
  | _ => if is_var p then [] else map f (sort_key p) ++ rest
  end.
Abbreviation bound_then := (key_then (λ c, c)).

Lemma leaf_cut p b rest y :
  term_ok p = true → term_ok b = true →
  lex_cut (sort_key p ++ rest) (sort_key b ++ y) = then_compare (cmp_terms p b ?= 0) (lex_cut rest y).
Proof.
  intros Hp Hb. rewrite cmp_terms_ok by done. destruct (terms_differ p b Hp Hb) as [->|(c & d & Hd & -> & Hne)].
  - by rewrite term_compare_refl, lex_cut_same.
  - rewrite (differ_cut _ _ _ _ _ _ Hd). by destruct (Z.compare_spec c d).
Qed.

(** What a comparison [r] of [p] with [b] says of their sequences. *)
Definition cut_by (r : Z * bool) (P : list Z → list Z) b : Prop :=
  (r.2 = true → r.1 = 0) ∧ ∀ rest y, lex_cut (P rest) (sort_key b ++ y) = if r.2 then Eq else then_compare (r.1 ?= 0) (lex_cut rest y).

Lemma kinds_cut p b rest y : term_ok p = true → term_ok b = true → kind_of p ≠ kind_of b →
  ∀ s, lex_cut (kind_of p :: s) (sort_key b ++ y) = then_compare (cmp_terms p b ?= 0) (lex_cut rest y).
Proof.
  intros Hp Hb Hne s. rewrite <- (leaf_cut p b rest y) by done.
  destruct p, b; cbn [sort_key app lex_cut kind_of] in *; (done || by destruct (_ ?= _) eqn:E; [apply Z.compare_eq in E|..]).
Qed.

Lemma do_cmp_ok p b : term_ok p = true → term_ok b = true → plain b = true → cut_by (do_cmp_partly_bound p b) (bound_then p) b.
Proof.
  revert b. induction p as [p Hnt Hnl|l IH|h t IHh IHt] using Term_induction; intros b Hp Hb Hpl.
  - destruct (is_var p) eqn:Ev.
    { assert (do_cmp_partly_bound p b = (0, true)) as -> by (destruct p; cbn [do_cmp_partly_bound]; by rewrite ?Ev). split; [done|]. intros rest y.
      by destruct p; cbn [key_then]; rewrite ?Ev. }
    assert (∀ rest, bound_then p rest = sort_key p ++ rest) as Hk.
    { intros rest. destruct p; cbn [key_then]; rewrite ?Ev, ?map_id; (done || by destruct (Hnt _ eq_refl)). }
    assert (do_cmp_partly_bound p b = (if same_word p b then 0 else cmp_terms p b, false)) as ->.
    { destruct p; cbn [do_cmp_partly_bound]; rewrite Ev; destruct (same_word _ b); (done || by destruct (Hnt _ eq_refl)). }
    split; [done|]. intros rest y. cbn [fst snd]. rewrite Hk, leaf_cut by done. unfold same_word.
    destruct (is_immed p); [|done]. case_bool_decide; [|done]. subst b. cbn [andb]. by rewrite cmp_terms_ok, term_compare_refl by done.
  - destruct b as [| | | | | |l'| | |]; try (split; [done|]; intros rest y; by apply (kinds_cut (T_tuple l))).
    cbn [do_cmp_partly_bound is_var same_word is_immed andb]. pose proof (term_ok_tuple _ Hp) as Hl. pose proof (term_ok_tuple _ Hb) as Hl'. cbn [plain] in Hpl. clear Hp Hb.
    assert (∀ rest y, lex_cut (bound_then (T_tuple l) rest) (sort_key (T_tuple l') ++ y) =
      then_compare (zlen l ?= zlen l') (lex_cut (foldr bound_then rest l) (keys_of l' ++ y))) as Hk.
    { intros rest y. cbn [key_then map sort_key app lex_cut kind_of leaf_key]. by rewrite Z.compare_refl. }
    rewrite Z.gtb_ltb. destruct (Z.ltb_spec (zlen l) (zlen l')) as [Hlt|Hge].
    { split; [done|]. intros rest y. rewrite Hk. apply Z.compare_lt_iff in Hlt as ->. done. }
    destruct (Z.ltb_spec (zlen l') (zlen l)) as [Hgt|Hle].
    { split; [done|]. intros rest y. rewrite Hk. apply Z.compare_gt_iff in Hgt as ->. done. }
    assert (length l = length l') as Hlen by (unfold zlen in *; lia).
    assert (zlen l = zlen l') as Ez by lia. rewrite Ez, Z.compare_refl in Hk. cbn [then_compare] in Hk. clear Ez Hge Hle.
    match goal with |- cut_by ?r _ _ => enough ((r.2 = true → r.1 = 0) ∧ ∀ rest y, lex_cut (foldr bound_then rest l) (keys_of l' ++ y) =
      if r.2 then Eq else then_compare (r.1 ?= 0) (lex_cut rest y)) as [Hd Hr] by (split; [done|]; intros rest y; rewrite Hk; apply Hr) end. clear Hk.
    revert l' Hlen Hl' Hpl. induction IH as [|p l Hx IH IHl]; intros [|b l'] Hlen Hl' Hpl; try done.
    cbn [forallb] in Hpl. apply andb_true_iff in Hpl as [Hpb Hpl].
    apply Forall_cons in Hl as [Hp Hl], Hl' as [Hb Hl']. injection Hlen as Hlen. specialize (IHl Hl l' Hlen Hl' Hpl) as [Hd2 Hr2].
    destruct (Hx b Hp Hb Hpb) as [Hd Hr]. destruct (do_cmp_partly_bound p b) as [j done]. cbn [fst snd] in *.
    assert (∀ rest y, lex_cut (foldr bound_then rest (p :: l)) (keys_of (b :: l') ++ y) =
      if done then Eq else then_compare (j ?= 0) (lex_cut (foldr bound_then rest l) (keys_of l' ++ y))) as Hr'.
    { intros rest y. rewrite keys_cons, <- app_assoc. apply Hr. }
    destruct done; [rewrite orb_true_r; by split|]. rewrite orb_false_r. destruct (Z.eqb_spec j 0) as [->|Hj]; cbn [negb].
    + split; [done|]. intros rest y. rewrite Hr'. apply Hr2.
    + split; [done|]. intros rest y. rewrite Hr'. cbn [fst snd]. destruct (Z.compare_spec j 0); [done|done|done].
  - destruct b as [| | | | | | | |h' t'|]; try (split; [done|]; intros rest y; by apply (kinds_cut (T_list h t))).
    cbn [do_cmp_partly_bound is_var]. change (same_word (T_list h t) (T_list h' t')) with false. cbv iota.
    apply term_ok_list in Hp as [Hh Ht], Hb as [Hh' Ht'].
    cbn [plain] in Hpl. apply andb_true_iff in Hpl as [[Hph Hpt]%andb_true_iff Hnv].
    assert (∀ rest y, lex_cut (bound_then (T_list h t) rest) (sort_key (T_list h' t') ++ y) =
      lex_cut (bound_then h (bound_then t rest)) (sort_key h' ++ sort_key t' ++ y)) as Hk.
    { intros rest y. cbn [key_then map sort_key app lex_cut kind_of leaf_key]. by rewrite Z.compare_refl, <- app_assoc. }
    destruct (IHh h' Hh Hh' Hph) as [Hd Hr], (IHt t' Ht Ht' Hpt) as [Hd2 Hr2]. destruct (do_cmp_partly_bound h h') as [j done]. cbn [fst snd] in *.
    destruct done; [rewrite orb_true_r; split; [done|]; intros rest y; by rewrite Hk, Hr|]. rewrite orb_false_r.
    destruct (Z.eqb_spec j 0) as [->|Hj]; cbn [negb]; [|split; [done|]; intros rest y; rewrite Hk, Hr; cbn [fst snd]; by destruct (Z.compare_spec j 0)].
    destruct (same_word t t') eqn:Es; [|split; [done|]; intros rest y; by rewrite Hk, Hr, Hr2].
    apply andb_true_iff in Es as [Him ->%bool_decide_eq_true]. apply negb_true_iff in Hnv. split; [done|]. intros rest y. rewrite Hk, Hr. cbn [fst snd then_compare Z.compare].
    assert (bound_then t' rest = sort_key t' ++ rest) as -> by (destruct t'; cbn [key_then]; rewrite ?Hnv, ?map_id; done).
    by rewrite lex_cut_same.
Qed.

(** The sequence of a partly bound key, and its comparison with a key. *)
Abbreviation bound p := (bound_then p []).

Lemma partly_bound_cut (p : pat_term) (k : key_term) : (cmp_partly_bound p k ?= 0) = lex_cut (bound (pat_val p)) (sort_key (key_val k)).
Proof.
  destruct (do_cmp_ok (pat_val p) (key_val k) (pat_good p) (key_ok k) (key_plain k)) as [Hd Hr]. specialize (Hr [] []). rewrite app_nil_r in Hr.
  rewrite Hr. cbn. destruct (do_cmp_partly_bound (pat_val p) (key_val k)) as [j [|]]; cbn in *; [by rewrite Hd|]. by destruct (j ?= 0).
Qed.

#[export] Instance partly_bound_laws : PartlyBoundLaws pat_term key_term key_term.
Proof.
  assert (∀ a b : key_term, kcmp (TermOrder := key_order) (keyval a) (keyval b) < 0 → lex (sort_key (key_val a)) (sort_key (key_val b)) = Lt) as Hc.
  { intros a b Hab. rewrite <- term_compare_lex by apply key_ok. rewrite <- cmp_terms_ok by apply key_ok. by apply Z.compare_lt_iff. }
  split; intros p a b Hab%Hc.
  - rewrite <- !Z.compare_lt_iff, !partly_bound_cut. by apply lex_cut_above.
  - rewrite <- !Z.compare_gt_iff, !partly_bound_cut. by apply lex_cut_below.
Qed.

(** ** What a pattern matches *)

(** [b] is [p] with terms for the variables (whether or not the same for the same variable). *)
Fixpoint fits p b : bool :=
  is_var p ||
  match p, b with
  | T_tuple l, T_tuple l' =>
      (fix elements l l' :=
         match l, l' with
         | [], [] => true
         | p :: l, b :: l' => fits p b && elements l l'
         | _, _ => false
         end) l l'
  | T_list h t, T_list h' t' => fits h h' && fits t t'
  | _, _ => bool_decide (p = b)
  end.

Definition fit_all l l' : bool :=
  (fix elements l l' :=
     match l, l' with
     | [], [] => true
     | p :: l, b :: l' => fits p b && elements l l'
     | _, _ => false
     end) l l'.

Lemma fits_tuple l b : fits (T_tuple l) b = true → ∃ l', b = T_tuple l' ∧ fit_all l l' = true.
Proof. cbn [fits is_var orb]. destruct b; try (by rewrite bool_decide_eq_true). intros Hl. by eexists. Qed.

Lemma fit_all_length l l' : fit_all l l' = true → length l = length l'.
Proof. revert l'. induction l as [|p l IH]; intros [|b l']; cbn; try done. intros [_ ?]%andb_true_iff. f_equal. by apply IH. Qed.

Lemma fit_all_lookup l l' i p b : fit_all l l' = true → l !! i = Some p → l' !! i = Some b → fits p b = true.
Proof.
  revert l' i. induction l as [|q l IH]; intros [|c l'] [|i]; cbn; try done; intros [? ?]%andb_true_iff; [by intros [= ->] [= ->]|]. by apply IH.
Qed.

(** A key that fits begins with the sequence of the pattern. *)
Lemma fits_cut p b rest y : fits p b = true → lex_cut (bound_then p rest) (sort_key b ++ y) = Eq ∨ lex_cut (bound_then p rest) (sort_key b ++ y) = lex_cut rest y.
Proof.
  revert b rest y. induction p as [p Hnt Hnl|l IH|h t IHh IHt] using Term_induction; intros b rest y Hf.
  - destruct (is_var p) eqn:Ev; [left; by destruct p; cbn [key_then]; rewrite ?Ev|]. right.
    assert (p = b) as <- by (destruct p; cbn [fits] in Hf; rewrite ?Ev in Hf; cbn [orb] in Hf; (done || (by destruct (Hnt _ eq_refl)) || by apply bool_decide_eq_true in Hf)).
    assert (bound_then p rest = sort_key p ++ rest) as -> by (destruct p; cbn [key_then]; rewrite ?Ev, ?map_id; (done || by destruct (Hnt _ eq_refl))).
    by rewrite lex_cut_same.
  - apply fits_tuple in Hf as (l' & -> & Hf). pose proof (fit_all_length _ _ Hf) as Hlen.
    cbn [key_then map sort_key app lex_cut kind_of leaf_key]. rewrite Z.compare_refl. unfold zlen. rewrite Hlen, Z.compare_refl. cbn [then_compare].
    change (concat (map sort_key l')) with (keys_of l'). clear Hlen. revert l' Hf. induction IH as [|p l Hp IH IHl]; intros [|b l'] Hf; try done; [by right|].
    cbn in Hf. apply andb_true_iff in Hf as [Hf1 Hf2]. cbn [foldr]. rewrite keys_cons, <- app_assoc.
    destruct (Hp b (foldr bound_then rest l) (keys_of l' ++ y) Hf1) as [->| ->]; [by left|]. by apply IHl.
  - destruct b as [| | | | | | | |h' t'|]; try (by cbn in Hf; rewrite bool_decide_eq_true in Hf). cbn in Hf. apply andb_true_iff in Hf as [Hf1 Hf2].
    cbn [key_then map sort_key app lex_cut kind_of leaf_key]. rewrite Z.compare_refl, <- app_assoc. cbn [then_compare].
    destruct (IHh h' (bound_then t rest) (sort_key t' ++ y) Hf1) as [->| ->]; [by left|]. by apply IHt.
Qed.

Lemma fits_bound p b : fits p b = true → lex_cut (bound p) (sort_key b) = Eq.
Proof. intros Hf. destruct (fits_cut p b [] [] Hf) as [E|E]; by rewrite app_nil_r in E. Qed.

(** A key is never the beginning of the sequence of a partly bound key. *)
Lemma bound_no_prefix p b (x : list Z) : term_ok p = true → term_ok b = true → plain b = true → bound p = sort_key b ++ x → x = [].
Proof.
  intros Hp Hb Hpl E. destruct x as [|c x]; [done|]. destruct (do_cmp_ok p b Hp Hb Hpl) as [_ Hr].
  pose proof (Hr [] []) as E1. pose proof (Hr [] [c + 1]) as E2. rewrite E, lex_cut_same in E1, E2. cbn [lex_cut] in E1, E2.
  destruct (Z.compare_spec c (c + 1)); [lia| |lia]. cbn [then_compare] in E2. destruct (do_cmp_partly_bound p b).2; [done|]. congruence.
Qed.

(** A ground term fits only itself, and has its own sequence. *)
Lemma ground_bound p rest : has_var p = false → bound_then p rest = sort_key p ++ rest.
Proof.
  revert rest. induction p as [p Hnt Hnl|l IH|h t IHh IHt] using Term_induction; intros rest Hg.
  - destruct p; cbn [key_then has_var] in *; rewrite ?Hg, ?map_id; (done || by destruct (Hnt _ eq_refl)).
  - cbn [key_then map sort_key app kind_of leaf_key]. f_equal. f_equal. cbn [has_var] in Hg. induction IH as [|p l Hp IH IHl]; [done|].
    cbn [existsb] in Hg. apply orb_false_iff in Hg as [Hg1 Hg2]. cbn [foldr map concat]. by rewrite Hp, IHl, app_assoc.
  - cbn [has_var] in Hg. apply orb_false_iff in Hg as [Hg1 Hg2]. cbn [key_then map sort_key app kind_of leaf_key]. by rewrite IHh, IHt, app_assoc.
Qed.

Lemma ground_fits p b : has_var p = false → fits p b = true → p = b.
Proof.
  revert b. induction p as [p Hnt Hnl|l IH|h t IHh IHt] using Term_induction; intros b Hg Hf.
  - destruct p; cbn [fits has_var] in *; rewrite ?Hg in Hf; cbn [orb] in Hf; (done || (by destruct (Hnt _ eq_refl)) || by apply bool_decide_eq_true in Hf).
  - apply fits_tuple in Hf as (l' & -> & Hf). f_equal. cbn [has_var] in Hg. revert l' Hf. induction IH as [|p l Hp IH IHl]; intros [|b l'] Hf; try done.
    cbn [existsb] in Hg. apply orb_false_iff in Hg as [Hg1 Hg2]. cbn in Hf. apply andb_true_iff in Hf as [Hf1 Hf2]. f_equal; auto.
  - cbn [has_var] in Hg. apply orb_false_iff in Hg as [Hg1 Hg2].
    destruct b as [| | | | | | | |h' t'|]; try (by cbn in Hf; rewrite bool_decide_eq_true in Hf). cbn in Hf. apply andb_true_iff in Hf as [Hf1 Hf2]. f_equal; auto.
Qed.

End Keys.
