(* ===== verification/DbPatternLimits.v ===== *)
(** The limits of a search (DbPattern.v): which of two partly bound keys can match lesser or
    greater keys, and what [analyze_pattern] finds.

    [do_partly_bound_can_match] orders the sequences of the keys (DbPatternSpec.v), plainly for
    the lower limit and negated for the upper one.  It does so if the tuples inside the keys
    have one arity; otherwise it forgets that it has found a difference. *)
From S2P Require Import Prelude BigDigits Big BigSpec Utf8 Hash Index AtomTab AtomCmp TermCmp TermOrd Avl DbHash DbTree DbTreePath DbTreeOps DbTreeSelect DbTreeTrav DbPattern DbPatternSpec.

(** All tuples have [n] elements. *)
Fixpoint all_arity (n : Z) (t : Term) : bool :=
  match t with
  | T_tuple l => (zlen l =? n) && forallb (all_arity n) l
  | T_list h t => all_arity n h && all_arity n t
  | _ => true
  end.

(** All tuples inside, if the key itself is a tuple. *)
Definition inner_arity (n : Z) (t : Term) : bool := match t with T_tuple l => forallb (all_arity n) l | _ => all_arity n t end.

Section Limits.
Context `{EtsTable} `{!AtomNamesLaws} `{Pointers} `{!PointersLaws}.
Implicit Types (a b p q t : Term) (l : list Term) (x y s : list Z).

Abbreviation bound_then := (key_then (λ c, c)).
Abbreviation away d := (towards (opp d)).
Abbreviation seq d := (key_then (away d)).

Lemma towards_inj d (c e : Z) : towards d c = towards d e → c = e.
Proof. destruct d; cbn; lia. Qed.

(** The end of a sequence does not matter, or it is what follows. *)
Lemma key_then_shape f p : (∃ s, ∀ x, key_then f p x = s) ∨ ∃ s, ∀ x, key_then f p x = s ++ x.
Proof.
  induction p as [p Hnt Hnl|l IH|h t IHh IHt] using Term_induction.
  - destruct (is_var p) eqn:Ev; [left; exists []; intros x; destruct p; cbn [key_then]; by rewrite ?Ev|right; exists (map f (sort_key p))].
    intros x. destruct p; cbn [key_then]; rewrite ?Ev; (done || by destruct (Hnt _ eq_refl)).
  - assert ((∃ s, ∀ x, foldr (key_then f) x l = s) ∨ ∃ s, ∀ x, foldr (key_then f) x l = s ++ x) as [[s Hs]|[s Hs]].
    { induction IH as [|p l Hp IH IHl]; [right; by exists []|]. cbn [foldr]. destruct Hp as [[s Hs]|[s Hs]]; [left; exists s; intros x; by rewrite Hs|].
      destruct IHl as [[s' Hs']|[s' Hs']]; [left|right]; exists (s ++ s'); intros x; rewrite Hs, Hs'; [done|by rewrite app_assoc]. }
    + left. exists (map f [5; zlen l] ++ s). intros x. cbn [key_then kind_of]. by rewrite Hs.
    + right. exists (map f [5; zlen l] ++ s). intros x. cbn [key_then kind_of]. by rewrite Hs, app_assoc.
  - destruct IHh as [[s Hs]|[s Hs]]; [left; exists (map f [7] ++ s); intros x; cbn [key_then kind_of]; by rewrite Hs|].
    destruct IHt as [[s' Hs']|[s' Hs']]; [left|right]; exists (map f [7] ++ s ++ s'); intros x; cbn [key_then kind_of]; rewrite Hs, Hs'; [done|by rewrite <- !app_assoc].
Qed.

Lemma key_then_map f p x : key_then f p (map f x) = map f (bound_then p x).
Proof.
  revert x. induction p as [p Hnt Hnl|l IH|h t IHh IHt] using Term_induction; intros x.
  - destruct (is_var p) eqn:Ev; [by destruct p; cbn [key_then]; rewrite ?Ev|].
    destruct p; cbn [key_then]; rewrite ?Ev, ?map_id, ?map_app; (done || by destruct (Hnt _ eq_refl)).
  - cbn [key_then]. rewrite !map_app, !map_id. f_equal. induction IH as [|p l Hp IH IHl]; [done|]. cbn [foldr]. by rewrite IHl, Hp.
  - cbn [key_then]. by rewrite !map_app, !map_id, IHt, IHh.
Qed.

(** ** Two partly bound keys *)

(** What a result says of two sequences, whatever follows. *)
Definition says (r : bool * bool) (A B : list Z → list Z) : Prop :=
  if r.1 then ∀ x y, lex (A x) (B y) ≠ Gt
  else if r.2 then ∀ x y, lex (A x) (B y) ≠ Lt
  else ∀ x y, (lex x y ≠ Gt → lex (A x) (B y) ≠ Gt) ∧ (lex x y ≠ Lt → lex (A x) (B y) ≠ Lt).

Lemma says_same f p : says (false, false) (key_then f p) (key_then f p).
Proof. intros x y. destruct (key_then_shape f p) as [[s Hs]|[s Hs]]; rewrite !Hs, ?lex_refl, ?lex_same; done. Qed.

Lemma says_then r A B A' B' : says r A B → r.1 = false → r.2 = false → ∀ r', says r' A' B' → says r' (λ x, A (A' x)) (λ y, B (B' y)).
Proof.
  destruct r as [j done]. cbn. intros Hs -> -> [j' done'] Hs'. unfold says in *. cbn [fst snd] in *.
  destruct j'; [intros x y; apply Hs, Hs'|]. destruct done'; [intros x y; apply Hs, Hs'|]. intros x y. split; intros Hxy; apply Hs; by apply Hs'.
Qed.

(** A decision does not depend on what follows. *)
Lemma says_decided r A B A' B' : says r A B → r.1 || r.2 = true → says r (λ x, A (A' x)) (λ y, B (B' y)).
Proof. destruct r as [[|] [|]]; cbn; intros Hs Hr x y; (done || apply Hs). Qed.

Lemma says_prefix r (s : list Z) A B : says r A B → says r (λ x, s ++ A x) (λ y, s ++ B y).
Proof. unfold says. destruct r as [[|] [|]]; cbn; intros Hs x y; rewrite lex_same; apply Hs. Qed.

(** A comparison that finds a difference. *)
Lemma says_differ d j (c e : Z) A B :
  (j ?= 0) = (c ?= e) → c ≠ e → (∀ x y, lex (A x) (B y) = (away d c ?= away d e)) → says (towards d j >? 0, true) A B.
Proof.
  intros Hj Hne Hl. unfold says. cbn [fst snd]. destruct (Z.gtb_spec (towards d j) 0); intros x y; rewrite Hl;
    destruct d; cbn [towards opp] in *; destruct (Z.compare_spec j 0), (Z.compare_spec c e); try done; try lia;
    match goal with |- (?u ?= ?v) ≠ _ => destruct (Z.compare_spec u v) end; (done || lia).
Qed.

Lemma seq_head f p x : is_var p = false → ∃ s, key_then f p x = f (kind_of p) :: s.
Proof. intros Hv. destruct p; cbn [key_then]; rewrite ?Hv; eexists; done. Qed.

Lemma leaf_seq f p x : is_var p = false → (∀ l, p ≠ T_tuple l) → is_list p = false → key_then f p x = map f (sort_key p) ++ x.
Proof. intros Hv Hnt Hnl. destruct p; cbn [key_then]; rewrite ?Hv; (done || by destruct (Hnt _ eq_refl)). Qed.

(** Terms with different tags, and words and the like with the same. *)
Lemma tags_differ d a b :
  term_ok a = true → term_ok b = true → is_var a = false → is_var b = false → tag_val_def a ≠ tag_val_def b →
  says (towards d (cmp_terms a b) >? 0, true) (seq d a) (seq d b).
Proof.
  intros Ha Hb Hva Hvb Hne. destruct (decide (kind_of a = kind_of b)) as [Ek|Ek].
  - assert ((∀ l, a ≠ T_tuple l) ∧ is_list a = false ∧ (∀ l, b ≠ T_tuple l) ∧ is_list b = false) as (? & ? & ? & ?) by (by destruct a, b).
    destruct (terms_differ a b Ha Hb) as [->|(c & e & Hd & E & Hce)]; [done|]. rewrite <- cmp_terms_ok in E by done.
    eapply says_differ; [exact E|done|]. intros x y. rewrite !leaf_seq by done. apply differ_lex_map; [by apply towards_inj|done].
  - apply (says_differ d _ (kind_of a) (kind_of b)); [|done|].
    + rewrite cmp_terms_ok by done. destruct a, b; (done || by destruct (Ek eq_refl)).
    + intros x y. destruct (seq_head (away d) a x Hva) as [s ->], (seq_head (away d) b y Hvb) as [s' ->]. rewrite lex_cons.
      destruct (Z.compare_spec (away d (kind_of a)) (away d (kind_of b))) as [E| |]; [by apply towards_inj in E|done..].
Qed.

Lemma leaves_same_tag d a b :
  term_ok a = true → term_ok b = true → is_var a = false → is_var b = false → tag_val_def a = tag_val_def b → (∀ l, a ≠ T_tuple l) → is_list a = false →
  says (towards d (cmp_terms a b) >? 0, negb (cmp_terms a b =? 0)) (seq d a) (seq d b).
Proof.
  intros Ha Hb Hva Hvb Et Hnt Hnl. assert ((∀ l, b ≠ T_tuple l) ∧ is_list b = false) as [Hnt' Hnl'].
  { destruct a, b; try done. by destruct (Hnt _ eq_refl). }
  destruct (terms_differ a b Ha Hb) as [->|(c & e & Hd & E & Hce)].
  - assert (cmp_terms b b = 0) as -> by (apply Z.compare_eq; rewrite cmp_terms_ok by done; by apply term_compare_refl).
    assert ((towards d 0 >? 0) = false) as -> by (by destruct d). apply says_same.
  - rewrite <- cmp_terms_ok in E by done. destruct (Z.eqb_spec (cmp_terms a b) 0) as [E0|]; cbn [negb].
    + rewrite E0 in E. symmetry in E. by apply Z.compare_eq in E.
    + eapply says_differ; [exact E|done|]. intros x y. rewrite !leaf_seq by done. apply differ_lex_map; [by apply towards_inj|done].
Qed.

(** The loop for the elements of two tuples. *)
Definition match_elements d : list Term → list Term → bool * bool :=
  fix elements aa bb :=
    match aa, bb with
    | a :: aa, b :: bb =>
        let '(j, done) := do_partly_bound_can_match d a b in
        if j || done then (j, done) else elements aa bb
    | _, _ => (false, false)
    end.

Lemma match_elements_ok d l l' :
  length l = length l' → Forall2 (λ a b, says (do_partly_bound_can_match d a b) (seq d a) (seq d b)) l l' →
  says (match_elements d l l') (λ x, foldr (seq d) x l) (λ y, foldr (seq d) y l').
Proof.
  intros _ Hl. induction Hl as [|a b l l' Hab Hl IH]; [done|]. cbn [match_elements foldr].
  destruct (do_partly_bound_can_match d a b) as [j done] eqn:E. destruct (j || done) eqn:Ed; [by apply (says_decided (j, done))|].
  apply orb_false_iff in Ed as [-> ->]. by apply (says_then (false, false)).
Qed.

(** The cases that do not depend on the kind of term. *)
Lemma can_match_common d a b (r : bool * bool) :
  term_ok a = true → term_ok b = true →
  (is_var a = false → is_var b = false → tag_val_def a = tag_val_def b → says r (seq d a) (seq d b)) →
  says (if is_var a then (negb (is_var b), true) else if is_var b then (false, true) else if is_same a b then (false, false)
        else if negb (tag_val_def a =? tag_val_def b) then (towards d (cmp_terms a b) >? 0, true) else r) (seq d a) (seq d b).
Proof.
  intros Ha Hb Hr. assert (∀ c x, is_var c = true → seq d c x = []) as Hvar by (intros c x Hc; destruct c; cbn [key_then]; by rewrite ?Hc).
  destruct (is_var a) eqn:Ea, (is_var b) eqn:Eb; cbn [negb].
  - intros x y. by rewrite !Hvar.
  - intros x y. rewrite (Hvar a) by done. by destruct (seq d b y).
  - intros x y. rewrite (Hvar b) by done. by destruct (seq d a x).
  - destruct (is_same a b) eqn:Es; [apply same_eq in Es as ->; apply says_same|].
    destruct (Z.eqb_spec (tag_val_def a) (tag_val_def b)); cbn [negb]; [by apply Hr|]. by apply tags_differ.
Qed.

Lemma says_tuple d r l l' : zlen l = zlen l' → says r (λ x, foldr (seq d) x l) (λ y, foldr (seq d) y l') → says r (seq d (T_tuple l)) (seq d (T_tuple l')).
Proof.
  intros El Hs. pose proof (says_prefix r (map (away d) [5; zlen l]) _ _ Hs) as Hp. unfold says in *. cbn [key_then kind_of]. rewrite <- El. exact Hp.
Qed.

Lemma can_match_ok n d a b :
  term_ok a = true → term_ok b = true → all_arity n a = true → all_arity n b = true → says (do_partly_bound_can_match d a b) (seq d a) (seq d b).
Proof.
  revert b. induction a as [a Hnt Hnl|l IH|h t IHh IHt] using Term_induction; intros b Ha Hb Hna Hnb.
  - assert (do_partly_bound_can_match d a b = if is_var a then (negb (is_var b), true) else if is_var b then (false, true) else if is_same a b then (false, false)
      else if negb (tag_val_def a =? tag_val_def b) then (towards d (cmp_terms a b) >? 0, true)
      else (towards d (cmp_terms a b) >? 0, negb (cmp_terms a b =? 0))) as -> by (destruct a; (done || by destruct (Hnt _ eq_refl))).
    apply can_match_common; [done..|]. intros. by apply leaves_same_tag.
  - cbn [do_partly_bound_can_match]. apply (can_match_common d (T_tuple l)); [done..|]. intros _ _ Et. destruct b as [| | | | | |l'| | |]; try done.
    cbn [all_arity] in Hna, Hnb. apply andb_true_iff in Hna as [El%Z.eqb_eq Hna], Hnb as [El'%Z.eqb_eq Hnb].
    assert (zlen l - zlen l' = 0) as -> by lia. assert ((towards d 0 >? 0) = false) as -> by (by destruct d). assert ((towards d 0 <? 0) = false) as -> by (by destruct d).
    apply says_tuple; [lia|]. apply match_elements_ok; [unfold zlen in *; lia|]. apply term_ok_tuple in Ha, Hb.
    assert (length l = length l') as Hlen by (unfold zlen in *; lia). clear El El' Et. revert l' Hlen Hb Hnb.
    induction IH as [|a l Hx IH IHl]; intros [|b l'] Hlen Hb Hnb; try done; constructor; apply Forall_cons in Ha as [? ?], Hb as [? ?];
      cbn [forallb] in Hna, Hnb; apply andb_true_iff in Hna as [? ?], Hnb as [? ?]; [by apply Hx|apply IHl; auto].
  - cbn [do_partly_bound_can_match]. apply (can_match_common d (T_list h t)); [done..|]. intros _ _ Et. destruct b as [| | | | | | | |h' t'|]; try done.
    apply term_ok_list in Ha as [? ?], Hb as [? ?]. cbn [all_arity] in Hna, Hnb. apply andb_true_iff in Hna as [? ?], Hnb as [? ?].
    assert (∀ r, says r (λ x, seq d h (seq d t x)) (λ y, seq d h' (seq d t' y)) → says r (seq d (T_list h t)) (seq d (T_list h' t'))) as Hp.
    { intros r Hr. exact (says_prefix r (map (away d) [7]) _ _ Hr). }
    apply Hp. specialize (IHh h'). destruct (do_partly_bound_can_match d h h') as [j done] eqn:E. destruct (j || done) eqn:Ed.
    { apply (says_decided (j, done)); [by apply IHh|done]. }
    apply orb_false_iff in Ed as [-> ->]. apply (says_then (false, false)); [by apply IHh|done|done|].
    destruct (is_same t t') eqn:Es; [apply same_eq in Es as ->; apply says_same|]. by apply IHt.
Qed.

(** At the top two tuples may have different arities. *)
Lemma can_match_top n d a b :
  term_ok a = true → term_ok b = true → inner_arity n a = true → inner_arity n b = true →
  if (do_partly_bound_can_match d a b).1 then lex (seq d a []) (seq d b []) ≠ Gt else lex (seq d a []) (seq d b []) ≠ Lt.
Proof.
  intros Ha Hb Hna Hnb.
  assert (∀ r, says r (seq d a) (seq d b) → if r.1 then lex (seq d a []) (seq d b []) ≠ Gt else lex (seq d a []) (seq d b []) ≠ Lt) as Hsays.
  { intros [[|] [|]] Hs; cbn in *; [apply Hs|apply Hs|apply Hs|]. by apply Hs. }
  assert (∃ r, do_partly_bound_can_match d a b = if is_var a then (negb (is_var b), true) else if is_var b then (false, true) else if is_same a b then (false, false)
      else if negb (tag_val_def a =? tag_val_def b) then (towards d (cmp_terms a b) >? 0, true) else r) as [r E] by (destruct a; by eexists).
  assert (tag_val_def a ≠ tag_val_def b → says (do_partly_bound_can_match d a b) (seq d a) (seq d b)) as Htag.
  { intros Hne. rewrite E. by apply can_match_common. }
  destruct (decide (tag_val_def a = tag_val_def b)) as [Et|Hne]; [|by apply Hsays, Htag].
  destruct a as [| | | | | |l| |h t|], b as [| | | | | |l'| |h' t'|]; try done; try (by apply Hsays, (can_match_ok n)).
  clear Htag E r Et. cbn [do_partly_bound_can_match is_var]. destruct (is_same (T_tuple l) (T_tuple l')) eqn:Es; [apply Hsays; apply same_eq in Es as ->; apply says_same|].
  change (negb (tag_val_def (T_tuple l) =? tag_val_def (T_tuple l'))) with false. cbv iota.
  assert (∀ e, lex (seq d (T_tuple l) []) (seq d (T_tuple l') []) = then_compare (away d (zlen l) ?= away d (zlen l')) e ∨ zlen l = zlen l') as Hhead.
  { intros e. cbn [key_then map kind_of app]. rewrite !lex_cons, Z.compare_refl. cbn [then_compare].
    destruct (Z.compare_spec (away d (zlen l)) (away d (zlen l'))) as [E| |]; [right; by apply towards_inj in E|by left..]. }
  destruct (Z.gtb_spec (towards d (zlen l - zlen l')) 0) as [Hgt|Hle].
  { cbn [fst]. destruct (Hhead Eq) as [->|E]; [|destruct d; cbn in Hgt; lia].
    destruct d; cbn in Hgt |- *; match goal with |- then_compare (?u ?= ?v) _ ≠ _ => destruct (Z.compare_spec u v) end; (done || lia). }
  destruct (Z.ltb_spec (towards d (zlen l - zlen l')) 0) as [Hlt|Hge].
  { cbn [fst]. destruct (Hhead Eq) as [->|E]; [|destruct d; cbn in Hlt; lia].
    destruct d; cbn in Hlt |- *; match goal with |- then_compare (?u ?= ?v) _ ≠ _ => destruct (Z.compare_spec u v) end; (done || lia). }
  assert (zlen l = zlen l') as El by (destruct d; cbn in *; lia). apply Hsays, says_tuple; [done|].
  apply match_elements_ok; [unfold zlen in *; lia|]. apply term_ok_tuple in Ha, Hb. cbn [inner_arity] in Hna, Hnb.
  assert (length l = length l') as Hlen by (unfold zlen in *; lia). clear Hle Hge Hhead El Es Hsays. revert l' Hlen Hb Hnb.
  induction l as [|a l IHl]; intros [|b l'] Hlen Hb Hnb; try done; constructor; apply Forall_cons in Ha as [? ?], Hb as [? ?];
    cbn [forallb] in Hna, Hnb; apply andb_true_iff in Hna as [? ?], Hnb as [? ?]; [by apply (can_match_ok n)|apply IHl; auto].
Qed.

(** The order of the limits: [p] is at least as far as [q] in direction [d]. *)
Definition farther d p q : Prop := lex (seq d p []) (seq d q []) ≠ Gt.

Lemma farther_refl d p : farther d p p.
Proof. unfold farther. by rewrite lex_refl. Qed.

Lemma farther_trans d p q r : farther d p q → farther d q r → farther d p r.
Proof. apply lex_le_trans. Qed.

Lemma can_match_farther n d p q :
  term_ok p = true → term_ok q = true → inner_arity n p = true → inner_arity n q = true →
  if (do_partly_bound_can_match d p q).1 then farther d p q else farther d q p.
Proof.
  intros Hp Hq Hnp Hnq. pose proof (can_match_top n d p q Hp Hq Hnp Hnq) as Hc. unfold farther. destruct (do_partly_bound_can_match d p q).1; [done|].
  rewrite (lex_sym (seq d p [])). by destruct (lex (seq d p []) (seq d q [])).
Qed.

Lemma seq_left p : seq DIR_LEFT p [] = bound_then p [].
Proof. done. Qed.

Lemma seq_right p : seq DIR_RIGHT p [] = map Z.opp (bound_then p []).
Proof. exact (key_then_map Z.opp p []). Qed.

(** No key beyond the farthest pattern fits one of the others. *)
Lemma below_least p (least : pat_term) (k : key_term) :
  term_ok p = true → farther DIR_LEFT (pat_val least) p → 0 < cmp_partly_bound least k → fits p (key_val k) = false.
Proof.
  intros Hp Hf Hk. apply not_true_is_false. intros Hfit%fits_bound. apply Z.compare_gt_iff in Hk. rewrite partly_bound_cut in Hk.
  unfold farther in Hf. rewrite !seq_left in Hf. apply lex_cut_Gt in Hk. pose proof (lex_lt_le _ _ _ Hk Hf) as Hlt. apply lex_cut_Gt in Hlt. discriminate (eq_trans (eq_sym Hlt) Hfit).
Qed.

Lemma above_most p (most : pat_term) (k : key_term) :
  term_ok p = true → farther DIR_RIGHT (pat_val most) p → cmp_partly_bound most k < 0 → fits p (key_val k) = false.
Proof.
  intros Hp Hf Hk. apply not_true_is_false. intros Hfit%fits_bound. apply Z.compare_lt_iff in Hk. rewrite partly_bound_cut in Hk.
  unfold farther in Hf. rewrite !seq_right in Hf. apply lex_cut_Lt in Hk. pose proof (lex_lt_le _ _ _ Hk Hf) as Hlt.
  apply lex_opp_Lt in Hlt as [Hlt|(t & Ht & E)]; [congruence|]. by apply bound_no_prefix in E; [|done|apply key_ok|apply key_plain].
Qed.

End Limits.
