(* ===== verification/DbPatternAnalysis.v ===== *)
(** What [analyze_pattern] (DbPattern.v) finds: no object outside the search area fits a
    pattern. *)
From stdpp Require Import sorting.
From S2P Require Import Prelude BigDigits Big BigSpec Utf8 Hash Index AtomTab AtomCmp TermCmp TermOrd Avl DbHash DbTree DbTreePath DbTreeOps DbTreeSelect DbTreeTrav DbTreeProps DbTreeSelProps DbPattern DbPatternSpec DbPatternLimits.
#[local] Open Scope Z_scope.

Section Analysis.
Context `{EtsTable} `{!AtomNamesLaws} `{Pointers} `{!PointersLaws}.
Abbreviation node := (TreeDbTerm row).
Abbreviation table := (DbTableTree row).
Implicit Types (tb : table) (h p : Term) (x y : node) (o : row) (hs : list Term) (an : analysis).

(** ** Patterns and objects *)

Definition head_fits h o : bool := fits h (T_tuple (row_val o)).

Lemma ground_plain p : has_var p = false → plain p = true.
Proof.
  induction p as [p Hnt Hnl|l IH|h t IHh IHt] using Term_induction; intros Hg.
  - destruct p; (done || by destruct (Hnt _ eq_refl)).
  - cbn [has_var plain] in *. induction IH as [|p l Hp IH IHl]; [done|]. cbn [existsb forallb] in *. apply orb_false_iff in Hg as [Hg1 Hg2]. by rewrite Hp, IHl.
  - cbn [has_var plain] in *. apply orb_false_iff in Hg as [Hg1 Hg2]. rewrite IHh, IHt by done.
    assert (is_var t = false) as -> by (destruct t; (done || exact Hg2)). done.
Qed.

Lemma to_key_val p : term_ok p = true → has_var p = false → key_val (to_key p) = p.
Proof.
  intros Hp Hg%ground_plain. unfold to_key. destruct (bool_dec (object_ok p) true) as [|Hne]; [done|]. destruct Hne. unfold object_ok. by rewrite Hp, Hg.
Qed.

Lemma to_pat_val p : term_ok p = true → pat_val (to_pat p) = p.
Proof. intros Hp. unfold to_pat. by destruct (bool_dec (term_ok p) true). Qed.

(** An object fits a pattern only if its key fits the key of the pattern. *)
Lemma head_fits_key h o : is_var h = false → head_fits h o = true → ∃ p, db_getkey h = Some p ∧ fits p (key_val (row_key o)) = true.
Proof.
  intros Hv Hf. unfold head_fits in Hf.
  assert (∃ l, h = T_tuple l) as [l ->] by (destruct h; cbn [fits] in Hf; rewrite ?Hv in Hf; cbn [orb] in Hf; (by rewrite bool_decide_eq_true in Hf) || by eexists).
  apply fits_tuple in Hf as (l' & [= <-] & Hf). pose proof (fit_all_length _ _ Hf) as Hlen. pose proof (row_long o) as Hlong.
  cbn [db_getkey]. assert ((zlen l >=? keypos) = true) as -> by (unfold zlen in *; rewrite Hlen; rewrite Z.geb_leb; exact Hlong).
  eexists. split; [done|]. pose proof keypos_pos as Hpos. apply Z.leb_le in Hlong. unfold row_key, element_of. cbn [key_val].
  destruct (lookup_lt_is_Some_2 l (Z.to_nat (keypos - 1))) as [p Ep]; [unfold zlen in *; lia|].
  destruct (lookup_lt_is_Some_2 (row_val o) (Z.to_nat (keypos - 1))) as [k Ek]; [unfold zlen in *; lia|].
  rewrite Ep, Ek. cbn [default from_option id]. by eapply fit_all_lookup.
Qed.

Lemma getkey_ok h p : db_getkey h = Some p → term_ok h = true → term_ok p = true.
Proof.
  intros E Hh. destruct h; try done. cbn in E. destruct (zlen l >=? keypos); [|done]. injection E as <-. apply term_ok_tuple in Hh.
  unfold element_of. destruct (l !! _) as [t|] eqn:Et; [|done]. exact (Forall_lookup_1 _ _ _ _ Hh Et).
Qed.

Lemma getkey_var h p : db_getkey h = Some p → is_var h = false.
Proof. by destruct h. Qed.

Lemma cmp_key_zero (k : key_term) x : cmp_key k x = 0 ↔ k = node_key x.
Proof. apply (kcmp_eq (kcmp := kcmp (TermOrder := key_order))). Qed.

(** ** One pattern *)

Context (n : Z) (root : tree node).

(** No object fits; an object that fits has a key that fits [p]. *)
Definition dead h : Prop := ∀ x, x ∈ elements root → head_fits h (n_obj x) = false.
Definition keyed h p : Prop :=
  term_ok p = true ∧ inner_arity n p = true ∧ ∀ x, x ∈ elements root → head_fits h (n_obj x) = true → fits p (key_val (node_key x)) = true.
Definition good_head h : Prop := term_ok h = true ∧ ∀ p, db_getkey h = Some p → inner_arity n p = true.

Lemma getkey_keyed h p : good_head h → db_getkey h = Some p → keyed h p.
Proof.
  intros [Hh Hn] E. split; [by eapply getkey_ok|]. split; [by apply Hn|]. intros x Hx Hf.
  destruct (head_fits_key h (n_obj x)) as (p' & E' & Hf'); [by eapply getkey_var|done|]. rewrite E in E'. by injection E' as <-.
Qed.

Inductive head_case h : Z * option nat * option Term → Prop :=
| head_free : head_case h (0, None, None)
| head_dead : dead h → head_case h (-1, None, None)
| head_bound p y : db_getkey h = Some p → keyed h p → has_var p = false → y ∈ elements root → key_val (node_key y) = p → head_case h (1, Some (n_addr y), None)
| head_partial p : db_getkey h = Some p → keyed h p → head_case h (0, None, Some p).

Lemma key_given_ok tb l h :
  tree_ok tb l → t_root tb = root → good_head h → ∃ r tb', key_given tb h = Ok (r, tb') ∧ head_case h r ∧ reads tb tb'.
Proof.
  intros Hok Er Hh. pose proof (reads_refl tb l Hok) as Hrefl. unfold key_given.
  destruct (bool_decide (h = T_atom am_Underscore) || negb (db_is_variable h =? -1)) eqn:Ev; [eexists _, tb; split; [done|]; split; [constructor|done]|].
  apply orb_false_iff in Ev as [Eu%bool_decide_eq_false Ev]. apply negb_false_iff, Z.eqb_eq in Ev.
  assert (is_var h = false) as Hv.
  { destruct h; try done. unfold is_var. rewrite Ev. destruct (Z.eqb_spec i am_Underscore) as [->|]; [by destruct Eu|done]. }
  destruct (db_getkey h) as [p|] eqn:Ek.
  2: { eexists _, tb. split; [done|]. split; [|done]. constructor. intros x Hx. apply not_true_is_false. intros Hf.
       destruct (head_fits_key h (n_obj x) Hv Hf) as (p & E & _). congruence. }
  pose proof (getkey_keyed h p Hh Ek) as Hkey. rewrite db_has_variable_ok, bind_Ok. destruct (has_var p) eqn:Eg; cbn [negb].
  { destruct (negb (bool_decide (p = T_atom am_Underscore)) && (db_is_variable p <? 0)); eexists _, tb; (split; [done|]; split; [|done]); by econstructor. }
  destruct (find_node_elem tb l (to_key p) Hok) as (this & tb' & -> & Hr & Hthis). rewrite bind_Ok. rewrite Er in Hthis.
  assert (key_val (to_key p) = p) as Ep by (apply to_key_val; [apply Hkey|done]).
  destruct this as [|? ? y ?]; eexists _, tb'; (split; [done|]; split; [|done]).
  - constructor. intros x Hx. apply not_true_is_false. intros Hf. rewrite Forall_forall in Hthis. apply (Hthis x Hx). apply cmp_key_zero, key_ext. rewrite Ep.
    apply ground_fits; [done|]. by apply Hkey.
  - destruct Hthis as [Hy E%cmp_key_zero]. econstructor; [done..|]. by rewrite <- E.
Qed.

(** ** All patterns *)

(** [p] lies between the limits that have been found. *)
Definition within an p : Prop :=
  ∃ lo hi, an_least an = Some lo ∧ an_most an = Some hi ∧ farther DIR_LEFT lo p ∧ farther DIR_RIGHT hi p.

Definition limit_ok an p : Prop := term_ok p = true ∧ inner_arity n p = true ∧ (an_partial an = false → has_var p = false).

Record an_inv hs an : Prop := {
  iv_dead : an_something an = false → Forall dead hs;
  iv_keys : an_limitation an = true → Forall (λ h, dead h ∨ ∃ p, keyed h p ∧ (an_partial an = false → has_var p = false) ∧ within an p) hs;
  iv_least p : an_least an = Some p → limit_ok an p;
  iv_most p : an_most an = Some p → limit_ok an p;
  iv_both : (an_least an = None ∧ an_most an = None) ∨ (∃ lo hi, an_least an = Some lo ∧ an_most an = Some hi);
  iv_single : an_partial an = false → an_limitation an = true → an_something an = true →
    ∃ y, y ∈ elements root ∧ n_addr y = an_save an ∧ has_var (key_val (node_key y)) = false ∧ within an (key_val (node_key y)) }.

Lemma add_key_within an p q :
  (∀ r, an_least an = Some r → limit_ok an r) → (∀ r, an_most an = Some r → limit_ok an r) →
  ((an_least an = None ∧ an_most an = None) ∨ ∃ lo hi, an_least an = Some lo ∧ an_most an = Some hi) → limit_ok an p →
  (q = p ∨ within an q) → within (add_key an (Some p)) q.
Proof.
  intros Hlo Hhi Hboth (Hp & Hnp & _) Hq. unfold within, add_key. cbn [an_least an_most].
  destruct Hboth as [[El Em]|(lo & hi & El & Em)].
  { rewrite El, Em. exists p, p. split_and!; [done|done|..]; (destruct Hq as [->|(? & ? & ? & _)]; [apply farther_refl|congruence]). }
  rewrite El, Em. destruct (Hlo _ El) as (Hl1 & Hl2 & _), (Hhi _ Em) as (Hh1 & Hh2 & _).
  pose proof (can_match_farther n DIR_LEFT p lo Hp Hl1 Hnp Hl2) as Hcl. pose proof (can_match_farther n DIR_RIGHT p hi Hp Hh1 Hnp Hh2) as Hcr.
  unfold partly_bound_can_match_lesser, partly_bound_can_match_greater.
  assert (farther DIR_LEFT lo q ∧ farther DIR_RIGHT hi q ∨ q = p) as Hq'.
  { destruct Hq as [->|(lo' & hi' & El' & Em' & Hl & Hr)]; [by right|left]. rewrite El in El'. rewrite Em in Em'. by injection El' as <-; injection Em' as <-. }
  eexists _, _. split; [done|]. split; [done|].
  destruct (do_partly_bound_can_match DIR_LEFT p lo).1, (do_partly_bound_can_match DIR_RIGHT p hi).1;
    (destruct Hq' as [[Hl Hr]| ->]; split; (done || apply farther_refl || by eapply farther_trans)).
Qed.

(** The analysis with one more key [p] of the head [h]. *)
Lemma add_key_inv hs an h p save partial all :
  an_inv hs an → keyed h p → (partial = false → an_partial an = false ∧ has_var p = false ∧ ∃ y, y ∈ elements root ∧ n_addr y = save ∧ key_val (node_key y) = p) →
  an_inv (hs ++ [h]) (add_key (mk_an all true (an_limitation an) partial (an_least an) (an_most an) save) (Some p)).
Proof.
  intros Hinv Hkey Hpart. set (an1 := mk_an all true (an_limitation an) partial (an_least an) (an_most an) save).
  assert (limit_ok an1 p) as Hp by (destruct Hkey as (? & ? & _); split_and!; [done|done|]; intros E; by apply Hpart).
  assert (∀ q, limit_ok an q → limit_ok an1 q) as Hlim.
  { intros q (? & ? & Hg). split_and!; [done|done|]. intros E. by apply Hg, Hpart. }
  assert (∀ q, q = p ∨ within an q → within (add_key an1 (Some p)) q) as Hw.
  { intros q Hq. apply add_key_within; [intros r Hr; apply Hlim, (iv_least _ _ Hinv), Hr|intros r Hr; apply Hlim, (iv_most _ _ Hinv), Hr|apply (iv_both _ _ Hinv)|done|exact Hq]. }
  split.
  - done.
  - intros Hl. apply Forall_app. split.
    + eapply Forall_impl; [by apply (iv_keys _ _ Hinv)|]. intros h' [?|(q & Hq & Hg & Hwq)]; [by left|right]. exists q. split; [done|]. split; [|apply Hw; by right].
      intros E. by apply Hg, Hpart.
    + constructor; [|done]. right. exists p. split; [done|]. split; [intros E; by apply Hpart|apply Hw; by left].
  - intros q E. cbn in E. injection E as <-. destruct (an_least an) as [lo|] eqn:El; [|done]. destruct (partly_bound_can_match_lesser _ _); [done|]. apply Hlim, (iv_least _ _ Hinv), El.
  - intros q E. cbn in E. injection E as <-. destruct (an_most an) as [hi|] eqn:Em; [|done]. destruct (partly_bound_can_match_greater _ _); [done|]. apply Hlim, (iv_most _ _ Hinv), Em.
  - right. by eexists _, _.
  - intros E _ _. cbn in E. destruct (Hpart E) as (_ & Hg & y & Hy & Ha & Ek). exists y. split_and!; [done|done|by rewrite Ek|]. apply Hw. by left.
Qed.

Lemma analyze_head_ok tb l hs an h body :
  tree_ok tb l → t_root tb = root → good_head h → an_inv hs an →
  ∃ an' tb', analyze_head an tb h body = Ok (an', tb') ∧ an_inv (hs ++ [h]) an' ∧ reads tb tb'.
Proof.
  intros Hok Er Hh Hinv. unfold analyze_head. destruct (key_given_ok tb l h Hok Er Hh) as (r & tb' & -> & Hcase & Hr). rewrite bind_Ok.
  set (all := an_all_objects an && returns_object body).
  destruct Hcase as [|Hd|p y Ek Hkey Hg Hy Eky|p Ek Hkey]; eexists _, tb'; (split; [done|]; split; [|done]).
  - cbn. destruct Hinv as [I1 I2 I3 I4 I5 I6]. split; try done.
  - cbn. destruct Hinv as [I1 I2 I3 I4 I5 I6]. split; try done; intros E; apply Forall_app; (split; [auto|constructor; [|done]; auto]).
  - rewrite Ek. apply add_key_inv; [done|done|]. intros E. split; [done|]. split; [done|]. by exists y.
  - by apply add_key_inv.
Qed.

(** The pattern of a clause. *)
Definition clause_head (c : Term * Term * Term) : Term := c.1.1.

Lemma analyze_loop_ok tb l hs an clauses :
  tree_ok tb l → t_root tb = root → Forall (λ c, ∃ h g b, match_clause c = Some (h, g, b) ∧ good_head h) clauses → an_inv hs an →
  ∃ an' tb', analyze_loop an tb clauses = Ok (Some an', tb') ∧ an_inv (hs ++ (clause_head <$> omap match_clause clauses)) an' ∧ reads tb tb'.
Proof.
  intros Hok Er Hc. revert tb hs an Hok Er. induction Hc as [|c clauses (h & g & b & Em & Hh) Hc IH]; intros tb hs an Hok Er Hinv; cbn [analyze_loop].
  - exists an, tb. split; [done|]. split; [by rewrite app_nil_r|by eapply reads_refl].
  - rewrite Em. destruct (analyze_head_ok tb l hs an h b Hok Er Hh Hinv) as (an1 & tb1 & -> & Hinv1 & Hr1). rewrite bind_Ok.
    destruct (reads_ok tb tb1 l Hok Hr1) as [Hok1 _]. assert (t_root tb1 = root) as Er1 by (destruct Hr1 as (s & _ & ->); exact Er).
    destruct (IH tb1 (hs ++ [h]) an1 Hok1 Er1 Hinv1) as (an' & tb' & -> & Hinv' & Hr'). exists an', tb'. split; [done|]. split.
    + cbn [omap list_omap]. rewrite Em. by rewrite fmap_cons, cons_middle, app_assoc.
    + destruct Hr1 as (s1 & Hs1 & ->), Hr' as (s' & Hs' & ->). exists s'. by split.
Qed.

Lemma an_inv_nil : an_inv [] (mk_an true false true false None None O).
Proof. split; try done. by left. Qed.

(** ** The search area *)

(** Limits of ground keys that are the same leave one key. *)
Lemma within_single an p lo :
  within an p → an_least an = Some lo → an_most an = Some lo → term_ok lo = true → term_ok p = true → has_var lo = false → has_var p = false → p = lo.
Proof.
  intros (lo' & hi' & El & Em & Hl & Hr) El' Em' Hok Hp Hg Hgp. rewrite El' in El. rewrite Em' in Em. injection El as <-. injection Em as <-.
  unfold farther in *. rewrite !seq_left, !ground_bound, !app_nil_r in Hl by done. rewrite !seq_right, !ground_bound, !app_nil_r in Hr by done.
  destruct (terms_differ lo p Hok Hp) as [->|(c & e & Hd & _ & Hne)]; [done|]. exfalso.
  pose proof (differ_lex _ _ _ _ [] [] Hd) as E1. pose proof (differ_lex_map Z.opp _ _ _ _ [] [] ltac:(lia) Hd) as E2. rewrite !app_nil_r in E1, E2. rewrite E1 in Hl. rewrite E2 in Hr.
  destruct (Z.compare_spec c e), (Z.compare_spec (- c) (- e)); (done || lia).
Qed.

Lemma sorted_node_inj tb l x y : tree_ok tb l → x ∈ elements (t_root tb) → y ∈ elements (t_root tb) → node_key x = node_key y → x = y.
Proof.
  intros Hok Hx Hy E. pose proof (proj2 (to_valid _ _ Hok)) as Hs. apply list_elem_of_split in Hy as (pre & post & Ee). rewrite Ee in Hs, Hx.
  apply sorted_app in Hs as (_ & Hs & Hlr). apply StronglySorted_cons in Hs as [Hs _].
  assert (∀ a b : node, node_key a = node_key b → kcmp (TermOrder := key_order) (keyval (node_key a)) (keyval (node_key b)) < 0 → False) as Hself.
  { intros a b -> Hlt. pose proof (proj2 (kcmp_eq (kcmp := kcmp (TermOrder := key_order)) (keyval (node_key b)) _) eq_refl). lia. }
  rewrite Forall_forall in Hs, Hlr. apply elem_of_app in Hx as [Hx|[->|Hx]%elem_of_cons]; [|done|].
  - exfalso. specialize (Hlr x Hx). apply Forall_cons in Hlr as [Hlr _]. by eapply Hself.
  - exfalso. by eapply (Hself y x), Hs.
Qed.

End Analysis.

Section Sound.
Context `{EtsTable} `{!AtomNamesLaws} `{Pointers} `{!PointersLaws}.
Implicit Types (tb : DbTableTree row) (h p : Term) (x y : TreeDbTerm row) (o : row) (hs : list Term) (an : analysis).

Lemma range_sound_analysis n tb l hs an (m : row → bool) :
  tree_ok tb l → an_inv n (t_root tb) hs an → (∀ o, m o = true → ∃ h, h ∈ hs ∧ head_fits h o = true) → range_sound (mpi_of an) tb m.
Proof.
  intros Hok Hinv Hm.
  assert (∀ x, x ∈ elements (t_root tb) → m (n_obj x) = true → ∃ h, h ∈ hs ∧ ¬ dead (t_root tb) h ∧ head_fits h (n_obj x) = true) as Hlive.
  { intros x Hx (h & Hh & Hf)%Hm. exists h. split; [done|]. split; [|done]. intros Hd. specialize (Hd x Hx). congruence. }
  assert (∀ x, x ∈ elements (t_root tb) → an_limitation an = true → m (n_obj x) = true →
    ∃ p, term_ok p = true ∧ fits p (key_val (node_key x)) = true ∧ (an_partial an = false → has_var p = false) ∧ within an p) as Hkeys.
  { intros x Hx El (h & Hh & Hd & Hf)%Hlive; [|done]. pose proof (iv_keys _ _ _ _ Hinv El) as Hall. rewrite Forall_forall in Hall.
    destruct (Hall h Hh) as [?|(p & (Hp & _ & Hfit) & Hg & Hw)]; [done|]. exists p. split_and!; [done|by apply Hfit|done|done]. }
  assert (∀ p, within an p → pat_val (least (mpi_of an)) = default T_nil (an_least an) ∧ pat_val (most (mpi_of an)) = default T_nil (an_most an)) as Hlims.
  { intros p (lo & hi & El & Em & _). cbn. rewrite El, Em. cbn.
    destruct (iv_least _ _ _ _ Hinv lo El) as [? _], (iv_most _ _ _ _ Hinv hi Em) as [? _]. by rewrite !to_pat_val. }
  split.
  - intros Es x Hx. apply not_true_is_false. intros (h & Hh & Hd & _)%Hlive; [|done]. apply Hd.
    pose proof (iv_dead _ _ _ _ Hinv Es) as Hall. rewrite Forall_forall in Hall. by apply Hall.
  - intros Es Hsingle. unfold single_key in Hsingle. apply andb_true_iff in Hsingle as [[Hpart%negb_true_iff Hlimit]%andb_true_iff Ecmp%Z.eqb_eq]. cbn in Es, Hpart, Hlimit.
    destruct (iv_single _ _ _ _ Hinv Hpart Hlimit Es) as (y & Hy & Ha & Hgy & Hwy). exists y. split; [done|]. split; [done|].
    destruct (Hlims _ Hwy) as [E1 E2]. change (cmp_terms (pat_val (least (mpi_of an))) (pat_val (most (mpi_of an))) = 0) in Ecmp. rewrite E1, E2 in Ecmp. pose proof Hwy as (lo & hi & El & Em & _). rewrite El, Em in Ecmp. cbn in Ecmp.
    destruct (iv_least _ _ _ _ Hinv lo El) as (Hlo & _ & Hglo), (iv_most _ _ _ _ Hinv hi Em) as (Hhi & _ & _).
    assert (lo = hi) as <- by (apply term_compare_eq; [done..|]; rewrite <- cmp_terms_ok, Ecmp by done; done). specialize (Hglo Hpart).
    assert (∀ p, within an p → term_ok p = true → has_var p = false → p = lo) as Huniq by (intros p Hw Hp Hg; by apply (within_single an)).
    intros x Hx Hne. apply not_true_is_false. intros (p & Hp & Hfit & Hg & Hw)%Hkeys; [|done..]. destruct Hne. apply (sorted_node_inj tb l); [done..|].
    specialize (Hg Hpart). apply key_ext. rewrite <- (ground_fits p _ Hg Hfit), (Huniq p Hw Hp Hg). symmetry. apply Huniq; [done|apply key_ok|done].
  - intros Hlimit x Hx Hcmp. apply not_true_is_false. intros (p & Hp & Hfit & _ & Hw)%Hkeys; [|done..]. cbn in Hlimit.
    destruct (Hlims _ Hw) as [E1 E2]. destruct Hw as (lo & hi & El & Em & Hl & Hr). rewrite El in E1. rewrite Em in E2. change (default T_nil (Some lo)) with lo in E1. change (default T_nil (Some hi)) with hi in E2.
    destruct Hcmp as [Hcmp|Hcmp].
    + rewrite (below_least p (least (mpi_of an)) (node_key x)) in Hfit; [done|done|by rewrite E1|done].
    + rewrite (above_most p (most (mpi_of an)) (node_key x)) in Hfit; [done|done|by rewrite E2|done].
Qed.

End Sound.
