(* ===== verification/DbPatternProps.v ===== *)
(** ETS ordered sets over terms: selecting with patterns, from the list of clauses to the
    results, and where the analysis of the patterns goes wrong. *)
From S2P Require Import Prelude Scan BigDigits Big BigSpec Utf8 Hash Index AtomTab AtomCmp TermCmp TermOrd TermProps Avl DbHash DbTree DbTreePath DbTreeOps DbTreeUpd DbTreeProps DbTreeSelect DbTreeTrav DbTreeSelProps DbTreeChunk DbPattern DbPatternSpec DbPatternLimits DbPatternAnalysis.
#[local] Open Scope Z_scope.

Section Props.
Context `{EtsTable} `{!AtomNamesLaws} `{Pointers} `{!PointersLaws}.
Implicit Types (tb : DbTableTree row) (l : list row) (ops : list (tree_op key_term row)) (clauses : list Term).

(** A clause {Pattern, Guards, Body}; the tuples inside the key of the pattern have [n]
    elements. *)
Definition good_clause (n : Z) (c : Term) : Prop := ∃ h g b, match_clause c = Some (h, g, b) ∧ good_head n h.

(** The match program gives results only for objects that fit one of the patterns. *)
Definition respects {R} (mp : match_prog row R) (cs : list (Term * Term * Term)) : Prop :=
  ∀ o, matches mp o = true → ∃ h, h ∈ clause_head <$> cs ∧ head_fits h o = true.

Lemma analyze_pattern_ok {R} compile (mp : match_prog row R) n tb l pattern clauses :
  tree_ok tb l → proper_list pattern = Some clauses → Forall (good_clause n) clauses →
  compile (omap match_clause clauses) = Some mp → respects mp (omap match_clause clauses) →
  ∃ mpi all tb', analyze_pattern compile tb pattern = Ok (Some (mpi, all, mp), tb') ∧ tree_ok tb' l ∧ range_sound mpi tb' (matches mp).
Proof.
  intros Hok El Hc Ec Hmp. unfold analyze_pattern. rewrite El.
  destruct (analyze_loop_ok n (t_root tb) tb l [] _ clauses Hok eq_refl Hc (an_inv_nil n (t_root tb))) as (an & tb' & -> & Hinv & Hr).
  rewrite bind_Ok, Ec. eexists _, _, tb'. split; [done|]. destruct (reads_ok tb tb' l Hok Hr) as [Hok' _]. split; [done|].
  apply (range_sound_analysis n tb' l (clause_head <$> omap match_clause clauses)); [done| |exact Hmp]. destruct Hr as (s & _ & ->). exact Hinv.
Qed.

(** C5: selecting from an ordered set whose objects are tuples of terms, after any history of
    the table, with any list of clauses.  The analysis of the patterns, with its bound and partly
    bound keys, and the search return exactly the results of the objects that match, each once
    and in the standard order of their keys, at once or in chunks of any size; counting returns their number; deleting removes
    exactly them.  The terms are those of [row]: integers, atoms, references whose numbers are
    below 2^31, ports, pids, tuples, lists and binaries, without floats, maps and funs, and no
    list in an object ends in an atom that looks like a variable.  The match program may give
    results only for objects that fit a pattern; the tuples inside the keys of the patterns all
    have the same number of elements; the history has fewer than 2^31 operations. *)
Theorem select_patterns_exact {R} compile (mp : match_prog row R) n pattern clauses (reverse : bool) ops rs tb (fuel : nat) :
  let l := (list_steps [] ops).2 in
  zlen ops <= max_objects → Forall op_ok ops → steps new_table ops = Ok (rs, tb) →
  proper_list pattern = Some clauses → Forall (good_clause n) clauses →
  compile (omap match_clause clauses) = Some mp → respects mp (omap match_clause clauses) → (length l <= fuel)%nat →
  ∃ mpi all tb1, analyze_pattern compile tb pattern = Ok (Some (mpi, all, mp), tb1) ∧
    (∃ tb', select_all mp mpi reverse fuel tb1 = Ok (if reverse then rev (omap (mp_result mp) l) else omap (mp_result mp) l, tb')) ∧
    (∀ chunk, 0 < chunk → ∃ cs tb', select_chunks mp chunk reverse mpi fuel [] tb1 = Ok (cs, tb') ∧ chunked chunk cs ∧
       concat cs = if reverse then rev (omap (mp_result mp) l) else omap (mp_result mp) l) ∧
    (∃ tb', select_count_all (matches mp) mpi fuel tb1 = Ok (zlen (filter (λ o, matches mp o = true) l), tb')) ∧
    (∃ freed tb', select_delete_all (matches mp) mpi fuel tb1 = Ok (zlen (filter (λ o, matches mp o = true) l), freed, tb') ∧
       n_obj <$> elements (t_root tb') = filter (λ o, matches mp o = false) l).
Proof.
  intros l Hmax Hp E El Hc Ec Hmp Hf. pose proof (history_ok ops rs tb Hmax Hp E) as Hok.
  destruct (analyze_pattern_ok compile mp n tb l pattern clauses Hok El Hc Ec Hmp) as (mpi & all & tb1 & -> & Hok1 & Hr).
  exists mpi, all, tb1. split; [done|].
  destruct (select_ok mp mpi reverse tb1 l fuel Hok1 Hr Hf) as (tb2 & E2 & _).
  destruct (select_count_ok (matches mp) mpi tb1 l fuel Hok1 Hr Hf) as (tb3 & E3 & _).
  destruct (select_delete_ok (matches mp) mpi tb1 l fuel Hok1 Hr Hf) as (freed & tb4 & E4 & Hok4 & _).
  split; [by exists tb2|]. split; [|split; [by exists tb3|]].
  { intros chunk Hch. destruct (select_chunks_ok mp chunk reverse Hch mpi tb1 l [] fuel Hok1) as (cs & tb' & _ & Ech & _ & _ & _ & _ & Hc' & _ & Hx); cbn; try done.
    - rewrite zlen_nil. pose proof (to_bound _ _ Hok1). lia.
    - lia.
    - exists cs, tb'. split_and!; [done|done|by apply Hx]. }
  exists freed, tb4. split; [done|apply Hok4].
Qed.

End Props.

(** * Sample tables *)

Module Samples.
Import TermProps.Samples.

#[export] Instance sample_ets : EtsTable := {|
  keypos := 1; am_Underscore := 0; am_DollarUnderscore := 4; am_EOT_atom := 5; keypos_pos := ltac:(lia); am_EOT_good := eq_refl |}.

Definition int (i : Z) : Term := T_small i.
Definition pair (a b : Term) : Term := T_tuple [a; b].
(** {Key, Value} *)
Definition row_of (k v : Term) : row :=
  match bool_dec (object_ok (T_tuple [k; v])) true with
  | left E => mk_row [k; v] E eq_refl
  | right _ => mk_row [T_nil] eq_refl eq_refl
  end.
Definition key_of_row (o : row) : Term := key_val (row_key o).

(** The clause [{Pattern, [], ['$_']}] *)
Definition clause (h : Term) : Term := T_tuple [h; T_nil; T_list (T_atom 4) T_nil].
Definition list_of (ts : list Term) : Term := foldr T_list T_nil ts.

(** A match program that gives the keys of the objects that fit. *)
Definition compile (cs : list (Term * Term * Term)) : option (match_prog row Term) :=
  Some (mk_mp (λ o, if existsb (λ h, head_fits h o) (clause_head <$> cs) then Some (key_of_row o) else None) (λ _, false)).

Lemma compile_respects cs mp : compile cs = Some mp → respects mp cs.
Proof.
  intros [= <-] o Hm. unfold matches in Hm. cbn in Hm. destruct (existsb _ _) eqn:E; [|done].
  apply existsb_exists in E as (h & Hh%list_elem_of_In & Hf). by exists h.
Qed.

(** {{b,1},a} {{a,2},a} {{a,1},a} and all objects with the key {a,_}. *)
Definition sample_ops : list (tree_op key_term row) :=
  [Put (row_of (pair (T_atom 3) (int 1)) (T_atom 2)) false; Put (row_of (pair (T_atom 2) (int 2)) (T_atom 2)) false;
   Put (row_of (pair (T_atom 2) (int 1)) (T_atom 2)) false].
Definition table_after (ops : list (tree_op key_term row)) : DbTableTree row := match steps new_table ops with Ok (_, tb) => tb | _ => new_table end.
Definition outs_after (ops : list (tree_op key_term row)) : list (tree_out key_term row) := match steps new_table ops with Ok (rs, _) => rs | _ => [] end.
Definition runs (ops : list (tree_op key_term row)) : bool := match steps new_table ops with Ok _ => true | _ => false end.
Lemma steps_after ops : runs ops = true → steps new_table ops = Ok (outs_after ops, table_after ops).
Proof. unfold runs, outs_after, table_after. by destruct (steps new_table ops) as [[]| |]. Defined.

Definition sample_clauses : list Term := [clause (pair (pair (T_atom 2) (T_atom 0)) (T_atom 1))].

Definition sample_mp : match_prog row Term := default (mk_mp (λ _, None) (λ _, false)) (compile (omap match_clause sample_clauses)).

Lemma select_patterns_exact_witness :
  ∃ mpi all tb1, analyze_pattern compile (table_after sample_ops) (list_of sample_clauses) = Ok (Some (mpi, all, sample_mp), tb1) ∧
    ∃ tb', select_all sample_mp mpi false 3 tb1 = Ok ([pair (T_atom 2) (int 1); pair (T_atom 2) (int 2)], tb').
Proof.
  destruct (select_patterns_exact compile sample_mp 2 (list_of sample_clauses) sample_clauses false sample_ops (outs_after sample_ops) (table_after sample_ops) 3)
    as (mpi & all & tb1 & E & Hs & _).
  - by vm_compute.
  - repeat (constructor; try done).
  - apply steps_after. by vm_compute.
  - by vm_compute.
  - constructor; [|done]. eexists _, _, _. split; [done|]. split; [by vm_compute|]. intros p [= <-]. by vm_compute.
  - done.
  - by apply compile_respects.
  - by vm_compute; repeat constructor.
  - exists mpi, all, tb1. split; [exact E|exact Hs].
Defined.

(** Two objects with the keys {{1},1} and {{1,2},0}, and a clause for each of them: only the
    second object is found.  A tuple with fewer elements inside a key is less, but the comparison
    for the limits goes on with the next elements, so that {{1,2},0} is taken to be the least
    and the greatest key. *)
Definition nested_key_1 : Term := pair (T_tuple [int 1]) (int 1).
Definition nested_key_2 : Term := pair (pair (int 1) (int 2)) (int 0).
Definition nested_ops : list (tree_op key_term row) := [Put (row_of nested_key_1 T_nil) false; Put (row_of nested_key_2 T_nil) false].
Definition nested_clauses : list Term := [clause (pair nested_key_1 (T_atom 0)); clause (pair nested_key_2 (T_atom 0))].

Lemma select_misses_object :
  (λ l, key_of_row <$> l) (list_steps [] nested_ops).2 = [nested_key_1; nested_key_2] ∧
  (match analyze_pattern compile (table_after nested_ops) (list_of nested_clauses) with
   | Ok (Some (mpi, _, mp), tb) => match select_all mp mpi false 2 tb with Ok (keys, _) => keys | _ => [] end
   | _ => []
   end) = [nested_key_2].
Proof. by vm_compute. Qed.

(** Keys with a list that ends in the atom _: of {[a|_],2} < {[a|b],1} the pattern {[a|_],1}
    matches the second, but it is taken to be less than the first. *)
Lemma partly_bound_not_monotone :
  let list_with t := T_list (T_atom 2) t in
  let p := pair (list_with (T_atom 0)) (int 1) in
  let k1 := pair (list_with (T_atom 0)) (int 2) in
  let k2 := pair (list_with (T_atom 3)) (int 1) in
  term_compare k1 k2 = Lt ∧ do_cmp_partly_bound p k1 = (-1, false) ∧ do_cmp_partly_bound p k2 = (0, true) ∧ fits p k2 = true.
Proof. by vm_compute. Qed.

End Samples.
