(* ===== verification/TimerWheel.v ===== *)
(** The timer wheel (erts/emulator/beam/time.c, erl_time.h): setting and cancelling
    timers, firing the ones that are due with yielding, and the search for the next
    timeout.

    A circular list is the list of its timers from the one [w[slot]] points to; the list
    of the sentinel likewise, without the sentinel.  Timers are addresses, their structs
    are in [tw_timers].  Times are the non-negative 64-bit times of the runtime system,
    which stay far from overflow; [yield_start_pos] is an [int] in the code and is one
    here.  The callback of a timer may set and cancel timers: it is a parameter that
    gives the operations it performs. *)
From S2P Require Import Prelude.

Definition ERTS_TIW_SIZE : Z := 65536.
Definition ERTS_TWHEEL_SLOT_AT_ONCE : Z := -1.
Definition ERTS_TWHEEL_SLOT_INACTIVE : Z := -2.
Definition ERTS_TWHEEL_BUMP_YIELD_LIMIT : Z := 100.

(** Nanoseconds, and clock ticks of a millisecond. *)
Definition ERTS_MONOTONIC_TIME_UNIT : Z := 1000 * 1000 * 1000.
Definition ERTS_CLKTCK_RESOLUTION : Z := 1000.
Definition ERTS_MONOTONIC_TO_CLKTCKS (mon : Z) : Z :=
  Z.quot mon (Z.quot ERTS_MONOTONIC_TIME_UNIT ERTS_CLKTCK_RESOLUTION).
Definition ERTS_CLKTCKS_TO_MONOTONIC (tcks : Z) : Z :=
  tcks * Z.quot ERTS_MONOTONIC_TIME_UNIT ERTS_CLKTCK_RESOLUTION.
Definition ERTS_SEC_TO_MONOTONIC (sec : Z) : Z := sec * (1000 * 1000 * 1000).
Definition ERTS_MONOTONIC_DAY : Z := ERTS_SEC_TO_MONOTONIC (60 * 60 * 24).

(** [x & (ERTS_TIW_SIZE-1)] *)
Definition slot_of (x : Z) : Z := Z.land x (ERTS_TIW_SIZE - 1).

(** [ix++; if (ix == ERTS_TIW_SIZE) ix = 0] *)
Definition next_ix (ix : Z) : Z := if ix + 1 =? ERTS_TIW_SIZE then 0 else ix + 1.

Record ErtsTWheelTimer := mk_timer { t_timeout_pos : Z; t_slot : Z }.

Record ErtsTimerWheel := mk_wheel {
  tw_timers : gmap Z ErtsTWheelTimer;
  tw_w : gmap Z (list Z);
  tw_pos : Z;
  tw_nto : Z;
  tw_at_once : list Z;
  tw_at_once_nto : Z;
  tw_yield_slot : Z;
  tw_yield_slots_left : Z;
  tw_yield_start_pos : Z;
  tw_sentinel : list Z;
  tw_true_next : bool;
  tw_next : Z }.

(** [w[slot]], empty for NULL. *)
Definition wslot (t : ErtsTimerWheel) (i : Z) : list Z := default [] (tw_w t !! i).

(** * Updates of single fields *)

Definition set_timer_of (t : ErtsTimerWheel) (p : Z) (tm : ErtsTWheelTimer) : ErtsTimerWheel :=
  mk_wheel (<[p := tm]> (tw_timers t)) (tw_w t) (tw_pos t) (tw_nto t) (tw_at_once t)
    (tw_at_once_nto t) (tw_yield_slot t) (tw_yield_slots_left t) (tw_yield_start_pos t)
    (tw_sentinel t) (tw_true_next t) (tw_next t).

Definition set_slot (t : ErtsTimerWheel) (i : Z) (l : list Z) : ErtsTimerWheel :=
  mk_wheel (tw_timers t) (<[i := l]> (tw_w t)) (tw_pos t) (tw_nto t) (tw_at_once t)
    (tw_at_once_nto t) (tw_yield_slot t) (tw_yield_slots_left t) (tw_yield_start_pos t)
    (tw_sentinel t) (tw_true_next t) (tw_next t).

Definition set_pos (t : ErtsTimerWheel) (pos : Z) : ErtsTimerWheel :=
  mk_wheel (tw_timers t) (tw_w t) pos (tw_nto t) (tw_at_once t)
    (tw_at_once_nto t) (tw_yield_slot t) (tw_yield_slots_left t) (tw_yield_start_pos t)
    (tw_sentinel t) (tw_true_next t) (tw_next t).

Definition set_nto (t : ErtsTimerWheel) (nto : Z) : ErtsTimerWheel :=
  mk_wheel (tw_timers t) (tw_w t) (tw_pos t) nto (tw_at_once t)
    (tw_at_once_nto t) (tw_yield_slot t) (tw_yield_slots_left t) (tw_yield_start_pos t)
    (tw_sentinel t) (tw_true_next t) (tw_next t).

Definition set_at_once (t : ErtsTimerWheel) (l : list Z) (n : Z) : ErtsTimerWheel :=
  mk_wheel (tw_timers t) (tw_w t) (tw_pos t) (tw_nto t) l n
    (tw_yield_slot t) (tw_yield_slots_left t) (tw_yield_start_pos t)
    (tw_sentinel t) (tw_true_next t) (tw_next t).

Definition set_yield (t : ErtsTimerWheel) (slot left start : Z) : ErtsTimerWheel :=
  mk_wheel (tw_timers t) (tw_w t) (tw_pos t) (tw_nto t) (tw_at_once t)
    (tw_at_once_nto t) slot left start (tw_sentinel t) (tw_true_next t) (tw_next t).

Definition set_yield_slot (t : ErtsTimerWheel) (slot : Z) : ErtsTimerWheel :=
  set_yield t slot (tw_yield_slots_left t) (tw_yield_start_pos t).

Definition set_sentinel (t : ErtsTimerWheel) (l : list Z) : ErtsTimerWheel :=
  mk_wheel (tw_timers t) (tw_w t) (tw_pos t) (tw_nto t) (tw_at_once t)
    (tw_at_once_nto t) (tw_yield_slot t) (tw_yield_slots_left t) (tw_yield_start_pos t)
    l (tw_true_next t) (tw_next t).

Definition set_next (t : ErtsTimerWheel) (tr : bool) (next : Z) : ErtsTimerWheel :=
  mk_wheel (tw_timers t) (tw_w t) (tw_pos t) (tw_nto t) (tw_at_once t)
    (tw_at_once_nto t) (tw_yield_slot t) (tw_yield_slots_left t) (tw_yield_start_pos t)
    (tw_sentinel t) tr next.

(** * Setting and cancelling *)

Definition erts_create_timer_wheel (mtime : Z) : ErtsTimerWheel :=
  mk_wheel ∅ ∅ (ERTS_MONOTONIC_TO_CLKTCKS mtime) 0 [] 0 ERTS_TWHEEL_SLOT_INACTIVE 0 0 []
    false (mtime + ERTS_MONOTONIC_DAY).

(** Insertion before the timer [w[slot]] points to: at the end of the circle. *)
Definition insert_timer_into_slot (t : ErtsTimerWheel) (slot p : Z) (timeout_pos : Z) :
    ErtsTimerWheel :=
  set_timer_of (set_slot t slot (wslot t slot ++ [p])) p (mk_timer timeout_pos slot).

Definition unlink (p : Z) (l : list Z) : list Z := filter (λ x, x ≠ p) l.

(** A timer with a slot is in the circle of that slot or of the sentinel; unlinking it
    takes it out of the one it is in. *)
Definition remove_timer (t : ErtsTimerWheel) (p : Z) (tm : ErtsTWheelTimer) : ErtsTimerWheel :=
  let slot := t_slot tm in
  let t :=
    if slot >=? 0 then
      set_sentinel (set_slot t slot (unlink p (wslot t slot))) (unlink p (tw_sentinel t))
    else set_at_once t (unlink p (tw_at_once t)) (tw_at_once_nto t - 1) in
  let t := set_timer_of t p (mk_timer (t_timeout_pos tm) ERTS_TWHEEL_SLOT_INACTIVE) in
  set_nto t (tw_nto t - 1).

(** A timer that is active must not be set (or initialised) again. *)
Definition erts_twheel_set_timer (t : ErtsTimerWheel) (p timeout_pos : Z) : res ErtsTimerWheel :=
  match tw_timers t !! p with
  | None => Fault
  | Some tm =>
      if negb (t_slot tm =? ERTS_TWHEEL_SLOT_INACTIVE) then Fault
      else
        let '(t, timeout_time) :=
          if timeout_pos <=? tw_pos t then
            let t := set_nto t (tw_nto t + 1) in
            let t := set_at_once t (tw_at_once t ++ [p]) (tw_at_once_nto t + 1) in
            (set_timer_of t p (mk_timer (tw_pos t) ERTS_TWHEEL_SLOT_AT_ONCE),
             ERTS_CLKTCKS_TO_MONOTONIC (tw_pos t))
          else
            let slot := slot_of timeout_pos in
            let t := insert_timer_into_slot t slot p timeout_pos in
            (set_nto t (tw_nto t + 1), ERTS_CLKTCKS_TO_MONOTONIC timeout_pos) in
        Ok (if timeout_time <? tw_next t then set_next t true timeout_time else t)
  end.

(** The cancel callback is not modelled. *)
Definition erts_twheel_cancel_timer (t : ErtsTimerWheel) (p : Z) : res ErtsTimerWheel :=
  match tw_timers t !! p with
  | None => Fault
  | Some tm =>
      if t_slot tm =? ERTS_TWHEEL_SLOT_INACTIVE then Ok t else Ok (remove_timer t p tm)
  end.

Definition is_inactive (t : ErtsTimerWheel) (p : Z) : bool :=
  match tw_timers t !! p with
  | None => true
  | Some tm => t_slot tm =? ERTS_TWHEEL_SLOT_INACTIVE
  end.

Definition erts_twheel_init_timer (t : ErtsTimerWheel) (p : Z) : res ErtsTimerWheel :=
  if is_inactive t p then
    Ok (set_timer_of t p (mk_timer (default 0 (t_timeout_pos <$> tw_timers t !! p))
          ERTS_TWHEEL_SLOT_INACTIVE))
  else Fault.

(** * The next timeout *)

(** The timers of one slot; the last component is the [goto found_next]. *)
Fixpoint scan_slot (tms : gmap Z ErtsTWheelTimer) (l : list Z) (min_timeout_pos : Z)
    (true_min : bool) (slot_timeout_pos : Z) : res (Z * bool * bool) :=
  match l with
  | [] => Ok (min_timeout_pos, true_min, false)
  | p :: l =>
      match tms !! p with
      | None => Fault
      | Some tm =>
          let timeout_pos := t_timeout_pos tm in
          if min_timeout_pos >? timeout_pos then
            if timeout_pos <=? slot_timeout_pos then Ok (timeout_pos, true, true)
            else scan_slot tms l timeout_pos true slot_timeout_pos
          else scan_slot tms l min_timeout_pos true_min slot_timeout_pos
      end
  end.

(** [do { .. } while (start_ix != tiw_pos_ix)]: [n] slots are left. *)
Fixpoint scan_slots (n : nat) (t : ErtsTimerWheel) (ix slot_timeout_pos min_timeout_pos : Z)
    (true_min : bool) : res (Z * bool) :=
  match n with
  | O => Ok (min_timeout_pos, true_min)
  | S n =>
      let slot_timeout_pos := slot_timeout_pos + 1 in
      if slot_timeout_pos >=? min_timeout_pos then Ok (min_timeout_pos, true_min)
      else
        '(min_timeout_pos, true_min, found) ←
          scan_slot (tw_timers t) (wslot t ix) min_timeout_pos true_min slot_timeout_pos;
        if found : bool then Ok (min_timeout_pos, true_min)
        else scan_slots n t (next_ix ix) slot_timeout_pos min_timeout_pos true_min
  end.

(** The wheel and the time found. [search_all] is [Some now] with the time that
    [erts_get_monotonic_time] returns, or [None] for a search up to [limit]. *)
Definition find_next_timeout (t : ErtsTimerWheel) (search_all : option Z) (limit : Z) :
    res (ErtsTimerWheel * Z) :=
  '(t, min_timeout_pos, true_min) ←
    if tw_nto t =? 0 then
      let t := match search_all with
        | None => t
        | Some now => set_pos t (ERTS_MONOTONIC_TO_CLKTCKS now)
        end in
      Ok (t, tw_pos t + ERTS_MONOTONIC_TO_CLKTCKS ERTS_MONOTONIC_DAY, false)
    else
      let min_timeout_pos := match search_all with
        | Some _ => tw_pos t + ERTS_MONOTONIC_TO_CLKTCKS ERTS_MONOTONIC_DAY
        | None => ERTS_MONOTONIC_TO_CLKTCKS limit
        end in
      '(m, tr) ← scan_slots (Z.to_nat ERTS_TIW_SIZE) t (slot_of (tw_pos t)) (tw_pos t)
        min_timeout_pos false;
      Ok (t, m, tr);
  let min_timeout := ERTS_CLKTCKS_TO_MONOTONIC min_timeout_pos in
  Ok (set_next t true_min min_timeout, min_timeout).

Definition erts_check_next_timeout_time (t : ErtsTimerWheel) (now : Z) : res (ErtsTimerWheel * Z) :=
  if tw_true_next t then Ok (t, tw_next t) else find_next_timeout t (Some now) 0.

(** * Firing *)

(** What a callback does to the wheel. *)
Inductive tw_op :=
| TInit (p : Z)
| TSet (p timeout_pos : Z)
| TCancel (p : Z).

(** What happened, in order. *)
Inductive tevent :=
| Ev_set (p timeout_pos : Z)
| Ev_cancel (p : Z)
| Ev_fire (p : Z).

Definition run_op (t : ErtsTimerWheel) (op : tw_op) : res (ErtsTimerWheel * list tevent) :=
  match op with
  | TInit p => t ← erts_twheel_init_timer t p; Ok (t, [])
  | TSet p timeout_pos => t ← erts_twheel_set_timer t p timeout_pos; Ok (t, [Ev_set p timeout_pos])
  | TCancel p =>
      t' ← erts_twheel_cancel_timer t p;
      Ok (t', if is_inactive t p then [] else [Ev_cancel p])
  end.

Fixpoint run_ops (t : ErtsTimerWheel) (ops : list tw_op) : res (ErtsTimerWheel * list tevent) :=
  match ops with
  | [] => Ok (t, [])
  | op :: ops =>
      '(t, ev) ← run_op t op;
      '(t, evs) ← run_ops t ops;
      Ok (t, ev ++ evs)
  end.

Section Bump.
(** The rest of the program, and what the callback of a timer does. *)
Context {E : Type} (timeout : E → ErtsTimerWheel → Z → E * list tw_op).

(** The wheel, the rest of the program and what has happened so far. *)
Record world := mk_world { wd_wheel : ErtsTimerWheel; wd_env : E; wd_log : list tevent }.

Definition upd (x : world) (t : ErtsTimerWheel) : world := mk_world t (wd_env x) (wd_log x).

Definition timeout_timer (x : world) (p : Z) : res world :=
  let t := wd_wheel x in
  match tw_timers t !! p with
  | None => Fault
  | Some tm =>
      let t := set_timer_of t p (mk_timer (t_timeout_pos tm) ERTS_TWHEEL_SLOT_INACTIVE) in
      let '(e, ops) := timeout (wd_env x) t p in
      '(t, evs) ← run_ops t ops;
      Ok (mk_world t e (wd_log x ++ Ev_fire p :: evs))
  end.

(** The "at once" queue; the boolean is true when the function has yielded. *)
Fixpoint at_once_loop (n : nat) (old_pos : Z) (x : world) (yield_count : Z) :
    res (world * Z * bool) :=
  let t := wd_wheel x in
  match tw_at_once t with
  | [] => Ok (x, yield_count, false)
  | p :: rest =>
      let yield_count := yield_count - 1 in
      if yield_count <=? 0 then
        Ok (upd x (set_next (set_yield_slot t ERTS_TWHEEL_SLOT_AT_ONCE) true
                     (ERTS_CLKTCKS_TO_MONOTONIC old_pos)), yield_count, true)
      else match n with
      | O => NoFuel
      | S n =>
          x ← timeout_timer
            (upd x (set_at_once (set_nto t (tw_nto t - 1)) rest (tw_at_once_nto t - 1))) p;
          at_once_loop n old_pos x yield_count
      end
  end.

(** One timer of the slot [ix] that has been taken off the circle. *)
Definition slot_timer (ix bump_to : Z) (x : world) (p yield_count : Z) : res (world * Z) :=
  match tw_timers (wd_wheel x) !! p with
  | None => Fault
  | Some tm =>
      if t_timeout_pos tm >? bump_to then
        Ok (upd x (insert_timer_into_slot (wd_wheel x) ix p (t_timeout_pos tm)), yield_count + 1)
      else
        x ← timeout_timer x p;
        Ok (upd x (set_nto (wd_wheel x) (tw_nto (wd_wheel x) - 1)), yield_count)
  end.

(** The label [restart_yielded_slot]. *)
Fixpoint restart_slot (n : nat) (ix slots old_pos bump_to : Z) (x : world) (yield_count : Z) :
    res (world * Z * bool) :=
  let t := wd_wheel x in
  match tw_sentinel t with
  | [] => Ok (x, yield_count, false)
  | p :: rest =>
      let yield_count := yield_count - 1 in
      if yield_count <=? 0 then
        Ok (upd x (set_yield (set_next t true (ERTS_CLKTCKS_TO_MONOTONIC old_pos))
                     ix slots (to_int old_pos)), yield_count, true)
      else match n with
      | O => NoFuel
      | S n =>
          '(x, yield_count) ← slot_timer ix bump_to (upd x (set_sentinel t rest)) p yield_count;
          restart_slot n ix slots old_pos bump_to x yield_count
      end
  end.

(** The body of [while (slots > 0)]. *)
Definition visit_slot (ix slots old_pos bump_to : Z) (x : world) (yield_count : Z) :
    res (world * Z * bool) :=
  let t := wd_wheel x in
  match wslot t ix with
  | [] => Ok (x, yield_count, false)
  | p :: rest =>
      let t := match rest with [] => t | _ => set_sentinel t rest end in
      let t := set_slot t ix [] in
      '(x, yield_count) ← slot_timer ix bump_to (upd x t) p yield_count;
      restart_slot (length (tw_sentinel (wd_wheel x))) ix slots old_pos bump_to x yield_count
  end.

(** [while (slots > 0)], with [n] rounds at most. *)
Fixpoint slots_loop (n : nat) (slots ix old_pos bump_to : Z) (x : world) (yield_count : Z) :
    res (world * Z * bool) :=
  if slots <=? 0 then Ok (x, yield_count, false)
  else match n with
  | O => NoFuel
  | S n =>
      '(x, yield_count, yielded) ← visit_slot ix slots old_pos bump_to x yield_count;
      if yielded : bool then Ok (x, yield_count, true)
      else slots_loop n (slots - 1) (next_ix ix) old_pos bump_to x yield_count
  end.

(** The label [empty_wheel]. *)
Definition empty_wheel (curr_time bump_to : Z) (x : world) : world :=
  let t := wd_wheel x in
  upd x (set_yield_slot (set_pos (set_next t false (curr_time + ERTS_MONOTONIC_DAY)) bump_to)
           ERTS_TWHEEL_SLOT_INACTIVE).

(** Positions known to have no timeouts are skipped. *)
Definition skip_to (t : ErtsTimerWheel) (bump_to : Z) : ErtsTimerWheel :=
  if tw_true_next t then
    let skip := ERTS_MONOTONIC_TO_CLKTCKS (tw_next t) in
    let skip := if skip >? bump_to then bump_to else skip in
    let skip := skip - 1 in
    if skip >? tw_pos t then set_pos t skip else t
  else t.

(** [while (1)]; the boolean is true for [return] and false for [break].  The second
    round always ends it. *)
Fixpoint bump_loop (n : nat) (curr_time bump_to : Z) (x : world) (yield_count : Z) :
    res (world * Z * bool) :=
  match n with
  | O => NoFuel
  | S n =>
      let old_pos := tw_pos (wd_wheel x) in
      if tw_nto (wd_wheel x) =? 0 then Ok (empty_wheel curr_time bump_to x, yield_count, true)
      else
        '(x, yield_count, yielded) ←
          at_once_loop (Z.to_nat yield_count) old_pos x yield_count;
        if yielded : bool then Ok (x, yield_count, true)
        else if tw_pos (wd_wheel x) >=? bump_to then Ok (x, yield_count, false)
        else if tw_nto (wd_wheel x) =? 0 then Ok (empty_wheel curr_time bump_to x, yield_count, true)
        else
          let t := skip_to (wd_wheel x) bump_to in
          let ix := slot_of (tw_pos t + 1) in
          let tmp_slots := bump_to - tw_pos t in
          let slots := if tmp_slots <? ERTS_TIW_SIZE then tmp_slots else ERTS_TIW_SIZE in
          '(x, yield_count, yielded) ←
            slots_loop (Z.to_nat slots) slots ix old_pos bump_to (upd x (set_pos t bump_to)) yield_count;
          if yielded : bool then Ok (x, yield_count, true)
          else bump_loop n curr_time bump_to x yield_count
  end.

(** What follows the loops when nothing has yielded. *)
Definition bump_end (curr_time : Z) (x : world) : res world :=
  let t := set_yield_slot (wd_wheel x) ERTS_TWHEEL_SLOT_INACTIVE in
  let t := set_next t false (curr_time + ERTS_MONOTONIC_DAY) in
  '(t, _) ← find_next_timeout t None (curr_time + ERTS_SEC_TO_MONOTONIC 2);
  Ok (upd x t).

(** One round of [do .. while (yielded_slot_restarted)] from its start. *)
Definition bump_fresh (curr_time : Z) (x : world) (yield_count : Z) : res world :=
  '(x, yield_count, ret) ←
    bump_loop 2 curr_time (ERTS_MONOTONIC_TO_CLKTCKS curr_time) x yield_count;
  if ret : bool then Ok x else bump_end curr_time x.

Definition erts_bump_timers (x : world) (curr_time : Z) : res world :=
  let yield_count := ERTS_TWHEEL_BUMP_YIELD_LIMIT in
  let t := wd_wheel x in
  if tw_yield_slot t >=? 0 then
    let ix := tw_yield_slot t in
    let slots := tw_yield_slots_left t in
    let bump_to := tw_pos t in
    let old_pos := tw_yield_start_pos t in
    '(x, yield_count, yielded) ←
      restart_slot (length (tw_sentinel t)) ix slots old_pos bump_to x yield_count;
    if yielded : bool then Ok x
    else
      '(x, yield_count, yielded) ←
        slots_loop (Z.to_nat (slots - 1)) (slots - 1) (next_ix ix) old_pos bump_to x yield_count;
      if yielded : bool then Ok x
      else
        '(x, yield_count, ret) ← bump_loop 2 curr_time bump_to x yield_count;
        if ret : bool then Ok x else bump_fresh curr_time x yield_count
  else bump_fresh curr_time x yield_count.

End Bump.
