(* ===== verification/TimerInv.v ===== *)
(** The timer wheel as a map from timers to their timeouts: the invariant of the wheel,
    and that setting, cancelling and firing follow the map. *)
From S2P Require Import Prelude TimerWheel.

Abbreviation tick := ERTS_MONOTONIC_TO_CLKTCKS.
Abbreviation mono := ERTS_CLKTCKS_TO_MONOTONIC.
Abbreviation inactive := ERTS_TWHEEL_SLOT_INACTIVE.
Abbreviation at_once := ERTS_TWHEEL_SLOT_AT_ONCE.

(** * Time and slots *)

Lemma tick_mono x : tick (mono x) = x.
Proof.
  unfold ERTS_MONOTONIC_TO_CLKTCKS, ERTS_CLKTCKS_TO_MONOTONIC.
  change (Z.quot ERTS_MONOTONIC_TIME_UNIT ERTS_CLKTCK_RESOLUTION) with 1000000.
  apply Z.quot_mul. lia.
Qed.

Lemma tick_le x y : x <= y → tick x <= tick y.
Proof. intros. apply Z.quot_le_mono; [done|lia]. Qed.

Lemma mono_le x y : x <= y → mono x <= mono y.
Proof. unfold ERTS_CLKTCKS_TO_MONOTONIC. change (Z.quot _ _) with 1000000. lia. Qed.

Lemma mono_lt x y : x < y → mono x < mono y.
Proof. unfold ERTS_CLKTCKS_TO_MONOTONIC. change (Z.quot _ _) with 1000000. lia. Qed.

Lemma mono_tick x : 0 <= x → mono (tick x) <= x.
Proof.
  intros. unfold ERTS_MONOTONIC_TO_CLKTCKS, ERTS_CLKTCKS_TO_MONOTONIC.
  change (Z.quot ERTS_MONOTONIC_TIME_UNIT ERTS_CLKTCK_RESOLUTION) with 1000000.
  rewrite Z.quot_div_nonneg by lia. dlia.
Qed.

Lemma tick_le_mono x y : x <= mono y → tick x <= y.
Proof. intros. rewrite <- (tick_mono y). by apply tick_le. Qed.

Lemma slot_of_mod x : slot_of x = x mod 65536.
Proof.
  unfold slot_of. change (ERTS_TIW_SIZE - 1) with (Z.ones 16). by rewrite Z.land_ones.
Qed.

Lemma slot_of_range x : 0 <= slot_of x < 65536.
Proof. rewrite slot_of_mod. dlia. Qed.

Lemma next_ix_mod ix : 0 <= ix < 65536 → next_ix ix = (ix + 1) mod 65536.
Proof.
  intros. unfold next_ix, ERTS_TIW_SIZE. destruct (Z.eqb_spec (ix + 1) 65536); dlia.
Qed.

(** [window ix n i]: slot [i] is one of the [n] slots from [ix] on. *)
Definition window (ix n i : Z) : Prop := (i - ix) mod 65536 < n.

Lemma window_next ix n i :
  0 <= ix < 65536 → 0 <= i < 65536 → window ix n i → i ≠ ix → window (next_ix ix) (n - 1) i.
Proof. unfold window. intros. rewrite next_ix_mod by done. dlia. Qed.

Lemma window_none ix n i : n <= 0 → ¬ window ix n i.
Proof. unfold window. intros. dlia. Qed.

(** The slots visited after [pos] hold every timeout up to [bump_to]. *)
Lemma window_due pos bump_to q :
  pos < q <= bump_to →
  window (slot_of (pos + 1)) (if bump_to - pos <? ERTS_TIW_SIZE then bump_to - pos else ERTS_TIW_SIZE)
    (slot_of q).
Proof.
  intros. unfold window, ERTS_TIW_SIZE. rewrite !slot_of_mod.
  destruct (Z.ltb_spec (bump_to - pos) 65536); dlia.
Qed.

(** * Events on a map *)

Definition replay1 (now : Z) (A : gmap Z Z) (ev : tevent) : option (gmap Z Z) :=
  match ev with
  | Ev_set p q => match A !! p with None => Some (<[p := q]> A) | Some _ => None end
  | Ev_cancel p => match A !! p with Some _ => Some (delete p A) | None => None end
  | Ev_fire p =>
      match A !! p with
      | Some q => if q <=? now then Some (delete p A) else None
      | None => None
      end
  end.

(** [replay now A evs]: the map after the events, when every one of them is allowed: only
    inactive timers are set, only active ones are cancelled, and a timer fires when it is
    active and due at [now]. *)
Fixpoint replay (now : Z) (A : gmap Z Z) (evs : list tevent) : option (gmap Z Z) :=
  match evs with
  | [] => Some A
  | ev :: evs => A ← replay1 now A ev; replay now A evs
  end.

Lemma replay_app now A evs1 evs2 :
  replay now A (evs1 ++ evs2) = (A ← replay now A evs1; replay now A evs2).
Proof.
  revert A. induction evs1 as [|ev evs1 IH]; intros A; simpl; [done|].
  destruct (replay1 now A ev); simpl; [apply IH|done].
Qed.

Definition is_fire (ev : tevent) : bool := match ev with Ev_fire _ => true | _ => false end.

(** The number of timers fired. *)
Definition fires (evs : list tevent) : Z := zlen (filter (λ ev, is_fire ev = true) evs).

Lemma fires_app evs1 evs2 : fires (evs1 ++ evs2) = fires evs1 + fires evs2.
Proof. unfold fires. by rewrite filter_app, zlen_app. Qed.

Lemma fires_nonneg evs : 0 <= fires evs.
Proof. apply zlen_nonneg. Qed.

(** * The wheel and the map *)

(** [tw_rel t A win six k]: the active timers of the wheel are those of the map [A] of
    timeouts.  Each is in the list its slot says (the list of the sentinel holds timers of
    slot [six]); those in the wheel are not due, except in the slots [win]; the count is
    [k] above the number of active timers. *)
Record tw_rel (t : ErtsTimerWheel) (A : gmap Z Z) (win : Z → Prop) (six k : Z) : Prop := {
  tr_map p : match A !! p with
    | Some q => ∃ tm, tw_timers t !! p = Some tm ∧
        ((0 <= t_slot tm ∧ t_timeout_pos tm = q) ∨ (t_slot tm = at_once ∧ q <= tw_pos t))
    | None => ∀ tm, tw_timers t !! p = Some tm → t_slot tm = inactive
    end;
  tr_once p : p ∈ tw_at_once t ↔ ∃ tm, tw_timers t !! p = Some tm ∧ t_slot tm = at_once;
  tr_wheel i p : (p ∈ wslot t i ∨ (p ∈ tw_sentinel t ∧ i = six)) ↔
    0 <= i ∧ ∃ tm, tw_timers t !! p = Some tm ∧ t_slot tm = i;
  tr_slot p tm : tw_timers t !! p = Some tm → 0 <= t_slot tm →
    t_slot tm = slot_of (t_timeout_pos tm);
  tr_nodup : NoDup (tw_at_once t) ∧ NoDup (tw_sentinel t) ∧ (∀ i, NoDup (wslot t i));
  tr_disj p : p ∈ tw_sentinel t → p ∉ wslot t six;
  tr_due i p tm : p ∈ wslot t i → tw_timers t !! p = Some tm →
    tw_pos t < t_timeout_pos tm ∨ win i;
  tr_nto : tw_nto t = k + Z.of_nat (size A) }.

(** [above t o]: the timers with a slot time out after [o]. *)
Definition above (t : ErtsTimerWheel) (o : Z) : Prop :=
  ∀ p tm, tw_timers t !! p = Some tm → 0 <= t_slot tm → o < t_timeout_pos tm.

(** The timers with a slot do not time out before [next_timeout_time] when this is known
    to be a timeout, and otherwise at most one tick before it. *)
Definition next_ok (t : ErtsTimerWheel) : Prop :=
  ∀ p tm, tw_timers t !! p = Some tm → 0 <= t_slot tm →
    tw_next t <= mono (t_timeout_pos tm + if tw_true_next t then 0 else 1).

(** [next_timeout_time] is known and has been reached: the wheel has work left. *)
Definition urgent (t : ErtsTimerWheel) : Prop :=
  tw_true_next t = true ∧ tw_next t <= mono (tw_pos t).

(** A next time that is only a bound has not been reached, and timers of the "at once" queue
    make the wheel urgent. *)
Definition prompt (t : ErtsTimerWheel) : Prop :=
  (tw_true_next t = false → mono (tw_pos t) < tw_next t) ∧ (tw_at_once t ≠ [] → urgent t).

(** [removes p l l']: [l'] is [l] without [p]. *)
Definition removes (p : Z) (l l' : list Z) : Prop :=
  (∀ x, x ∈ l' ↔ x ∈ l ∧ x ≠ p) ∧ (NoDup l → NoDup l').

Lemma removes_unlink p l : removes p l (unlink p l).
Proof.
  split; [|apply NoDup_filter]. intros x. unfold unlink. rewrite list_elem_of_filter. tauto.
Qed.

Lemma removes_head p l : NoDup (p :: l) → removes p (p :: l) l.
Proof.
  intros [Hp Hl]%NoDup_cons. split; [|done]. intros x. rewrite elem_of_cons. split.
  - intros Hx. split; [by right|]. by intros ->.
  - by intros [[->|?] ?].
Qed.

Lemma removes_absent p l : p ∉ l → removes p l l.
Proof. intros Hp. split; [|done]. intros x. split; [|by intros [? _]]. intros Hx. split; [done|congruence]. Qed.

Lemma tw_rel_active t A win six k p tm :
  tw_rel t A win six k → tw_timers t !! p = Some tm → t_slot tm ≠ inactive → is_Some (A !! p).
Proof.
  intros Hr Hp Hs. pose proof (tr_map _ _ _ _ _ Hr p) as Hm. destruct (A !! p); [by eexists|].
  by specialize (Hm tm Hp).
Qed.

(** Taking a timer out. *)
Lemma tw_rel_remove t t' A win six k k' p q tp :
  tw_rel t A win six k → A !! p = Some q →
  tw_timers t' = <[p := mk_timer tp inactive]> (tw_timers t) →
  removes p (tw_at_once t) (tw_at_once t') → removes p (tw_sentinel t) (tw_sentinel t') →
  (∀ i, removes p (wslot t i) (wslot t' i)) → tw_pos t' = tw_pos t →
  tw_nto t' = k' + Z.of_nat (size A) - 1 →
  tw_rel t' (delete p A) win six k'.
Proof.
  intros [Hm Ho Hw Hs (Hn1 & Hn2 & Hn3) Hd Hdue Hn] Hp Et [Ro No] [Rs Ns] Rw Epos Ento.
  constructor.
  - intros p'. rewrite Et. destruct (decide (p' = p)) as [->|Hne].
    + rewrite lookup_delete_eq, lookup_insert_eq. by intros tm [= <-].
    + rewrite lookup_delete_ne, lookup_insert_ne, Epos by done. apply Hm.
  - intros p'. rewrite Et, Ro, Ho. destruct (decide (p' = p)) as [->|Hne].
    + rewrite lookup_insert_eq. split; [by intros [_ []]|]. by intros (tm & [= <-] & ?).
    + rewrite lookup_insert_ne by done. tauto.
  - intros i p'. destruct (Rw i) as [Rwi _]. rewrite Et, Rwi, Rs. pose proof (Hw i p') as Hwi.
    destruct (decide (p' = p)) as [->|Hne].
    + rewrite lookup_insert_eq. split; [by intros [[_ []]|[[_ []] _]]|].
      intros (Hi & tm & [= <-] & Hsl). simpl in Hsl. unfold ERTS_TWHEEL_SLOT_INACTIVE in Hsl. lia.
    + rewrite lookup_insert_ne by done. tauto.
  - intros p' tm. rewrite Et. destruct (decide (p' = p)) as [->|Hne].
    + rewrite lookup_insert_eq. by intros [= <-].
    + rewrite lookup_insert_ne by done. apply Hs.
  - split_and!; [auto|auto|]. intros i. by apply (Rw i).
  - intros p'. rewrite Rs. destruct (Rw six) as [Rwi _]. rewrite Rwi. intros [Hp' _] [Hw' _].
    by apply (Hd p').
  - intros i p' tm. destruct (Rw i) as [Rwi _]. rewrite Rwi, Et, Epos. intros [Hpi Hne].
    rewrite lookup_insert_ne by done. by apply Hdue.
  - rewrite Ento, map_size_delete_Some by (by eexists).
    assert (size A ≠ 0%nat) by (intros E; apply map_size_empty_iff in E; subst; by rewrite lookup_empty in Hp).
    lia.
Qed.

(** Adding a timer to the wheel. *)
Lemma tw_rel_add t t' A win six k p q :
  tw_rel t A win six k → A !! p = None → tw_pos t < q →
  tw_timers t' = <[p := mk_timer q (slot_of q)]> (tw_timers t) →
  tw_at_once t' = tw_at_once t → tw_sentinel t' = tw_sentinel t →
  (∀ i, wslot t' i = if decide (i = slot_of q) then wslot t i ++ [p] else wslot t i) →
  tw_pos t' = tw_pos t → tw_nto t' = tw_nto t + 1 →
  tw_rel t' (<[p := q]> A) win six k.
Proof.
  intros Hr Hp Hq Et Eo Es Ew Epos Ento. pose proof (slot_of_range q) as Hsq.
  assert (Hin : ∀ tm, tw_timers t !! p = Some tm → t_slot tm = inactive).
  { pose proof (tr_map _ _ _ _ _ Hr p) as Hm. by rewrite Hp in Hm. }
  assert (Hno : p ∉ tw_at_once t ∧ p ∉ tw_sentinel t ∧ ∀ i, p ∉ wslot t i).
  { split_and!.
    - intros (tm & Htm & Hsl)%(tr_once _ _ _ _ _ Hr). rewrite (Hin tm Htm) in Hsl. done.
    - intros Hx. destruct (proj1 (tr_wheel _ _ _ _ _ Hr six p)) as (Hi & tm & Htm & Hsl); [by right|].
      rewrite (Hin tm Htm) in Hsl. subst. done.
    - intros i Hx. destruct (proj1 (tr_wheel _ _ _ _ _ Hr i p)) as (Hi & tm & Htm & Hsl); [by left|].
      rewrite (Hin tm Htm) in Hsl. subst. done. }
  destruct Hr as [Hm Ho Hw Hs (Hn1 & Hn2 & Hn3) Hd Hdue Hn]. destruct Hno as (No & Ns & Nw).
  assert (Hwmem : ∀ i p', p' ∈ wslot t' i ↔ p' ∈ wslot t i ∨ (p' = p ∧ i = slot_of q)).
  { intros i p'. rewrite Ew. destruct (decide (i = slot_of q)) as [->|Hne];
      [rewrite elem_of_app, list_elem_of_singleton|]; tauto. }
  constructor.
  - intros p'. rewrite Et, Epos. destruct (decide (p' = p)) as [->|Hne].
    + rewrite !lookup_insert_eq. eexists. split; [done|]. left. simpl. lia.
    + rewrite !lookup_insert_ne by done. apply Hm.
  - intros p'. rewrite Et, Eo, Ho. destruct (decide (p' = p)) as [->|Hne].
    + rewrite lookup_insert_eq. split.
      * intros (tm & Htm & Hsl). rewrite (Hin tm Htm) in Hsl. done.
      * intros (tm & [= <-] & Hsl). simpl in Hsl. unfold ERTS_TWHEEL_SLOT_AT_ONCE in Hsl. lia.
    + by rewrite lookup_insert_ne.
  - intros i p'. rewrite Hwmem, Et, Es. destruct (decide (p' = p)) as [->|Hne].
    + rewrite lookup_insert_eq. split.
      * intros [[Hx|[_ ->]]|[Hx _]]; [by destruct (Nw i)| |done]. split; [lia|]. eexists. done.
      * intros (Hi & tm & [= <-] & <-). simpl. auto.
    + rewrite lookup_insert_ne by done. rewrite <- Hw. clear - Hne. tauto.
  - intros p' tm. rewrite Et. destruct (decide (p' = p)) as [->|Hne].
    + rewrite lookup_insert_eq. by intros [= <-].
    + rewrite lookup_insert_ne by done. apply Hs.
  - rewrite Eo, Es. split_and!; [done|done|]. intros i. rewrite Ew.
    destruct (decide _); [|done]. apply NoDup_app. split_and!; [done| |apply NoDup_singleton].
    intros x Hx ->%list_elem_of_singleton. by apply (Nw i).
  - intros p'. rewrite Es, Hwmem. intros Hp' [Hx|[-> _]]; [by apply (Hd p')|done].
  - intros i p' tm. rewrite Hwmem, Et, Epos. intros Hx. destruct (decide (p' = p)) as [->|Hne].
    + rewrite lookup_insert_eq. intros [= <-]. by left.
    + rewrite lookup_insert_ne by done. apply Hdue. clear - Hne Hx. tauto.
  - rewrite Ento, Hn, map_size_insert_None by done. lia.
Qed.

(** Adding a timer that is due at once. *)
Lemma tw_rel_add_once t t' A win six k p q :
  tw_rel t A win six k → A !! p = None → q <= tw_pos t →
  tw_timers t' = <[p := mk_timer (tw_pos t) at_once]> (tw_timers t) →
  tw_at_once t' = tw_at_once t ++ [p] → tw_sentinel t' = tw_sentinel t →
  (∀ i, wslot t' i = wslot t i) → tw_pos t' = tw_pos t → tw_nto t' = tw_nto t + 1 →
  tw_rel t' (<[p := q]> A) win six k.
Proof.
  intros Hr Hp Hq Et Eo Es Ew Epos Ento.
  assert (Hin : ∀ tm, tw_timers t !! p = Some tm → t_slot tm = inactive).
  { pose proof (tr_map _ _ _ _ _ Hr p) as Hm. by rewrite Hp in Hm. }
  assert (No : p ∉ tw_at_once t).
  { intros (tm & Htm & Hsl)%(tr_once _ _ _ _ _ Hr). rewrite (Hin tm Htm) in Hsl. done. }
  destruct Hr as [Hm Ho Hw Hs (Hn1 & Hn2 & Hn3) Hd Hdue Hn]. constructor.
  - intros p'. rewrite Et, Epos. destruct (decide (p' = p)) as [->|Hne].
    + rewrite !lookup_insert_eq. eexists. split; [done|]. by right.
    + rewrite !lookup_insert_ne by done. apply Hm.
  - intros p'. rewrite Et, Eo, elem_of_app, list_elem_of_singleton, Ho.
    destruct (decide (p' = p)) as [->|Hne].
    + rewrite lookup_insert_eq. split; [intros _; by eexists|by right].
    + rewrite lookup_insert_ne by done. tauto.
  - intros i p'. rewrite Ew, Es, Et, Hw. destruct (decide (p' = p)) as [->|Hne].
    + rewrite lookup_insert_eq. split; intros (Hi & tm & Htm & Hsl); exfalso.
      * rewrite (Hin tm Htm) in Hsl. unfold ERTS_TWHEEL_SLOT_INACTIVE in Hsl. lia.
      * injection Htm as <-. simpl in Hsl. unfold ERTS_TWHEEL_SLOT_AT_ONCE in Hsl. lia.
    + by rewrite lookup_insert_ne.
  - intros p' tm. rewrite Et. destruct (decide (p' = p)) as [->|Hne].
    + rewrite lookup_insert_eq. by intros [= <-].
    + rewrite lookup_insert_ne by done. apply Hs.
  - rewrite Eo, Es. split_and!; [|done|intros i; by rewrite Ew].
    apply NoDup_app. split_and!; [done| |apply NoDup_singleton].
    by intros x Hx ->%list_elem_of_singleton.
  - intros p'. rewrite Es, Ew. apply Hd.
  - intros i p' tm. rewrite Ew, Et, Epos. intros Hx. destruct (decide (p' = p)) as [->|Hne].
    + exfalso. destruct (proj1 (Hw i p) (or_introl Hx)) as (Hi & tm' & Htm & Hsl).
      rewrite (Hin tm' Htm) in Hsl. unfold ERTS_TWHEEL_SLOT_INACTIVE in Hsl. lia.
    + rewrite lookup_insert_ne by done. by apply Hdue.
  - rewrite Ento, Hn, map_size_insert_None by done. lia.
Qed.

(** A timer of the sentinel back into its slot. *)
Lemma tw_rel_put_back t t' A win six k p rest tm :
  tw_rel t A win six k → tw_sentinel t = p :: rest → tw_timers t !! p = Some tm →
  tw_pos t < t_timeout_pos tm →
  tw_timers t' = tw_timers t → tw_at_once t' = tw_at_once t → tw_sentinel t' = rest →
  (∀ i, wslot t' i = if decide (i = six) then wslot t i ++ [p] else wslot t i) →
  tw_pos t' = tw_pos t → tw_nto t' = tw_nto t →
  tw_rel t' A win six k.
Proof.
  intros [Hm Ho Hw Hs (Hn1 & Hn2 & Hn3) Hd Hdue Hn] Hsen Hp Hq Et Eo Es Ew Epos Ento.
  assert (p ∉ wslot t six) as Npw by (apply Hd; rewrite Hsen; set_solver).
  rewrite Hsen in Hn2, Hd, Hw. apply NoDup_cons in Hn2 as [Hpr Hn2].
  assert (Hwmem : ∀ i p', p' ∈ wslot t' i ↔ p' ∈ wslot t i ∨ (p' = p ∧ i = six)).
  { intros i p'. rewrite Ew. destruct (decide (i = six)) as [->|Hne];
      [rewrite elem_of_app, list_elem_of_singleton|]; tauto. }
  constructor.
  - intros p'. rewrite Et, Epos. apply Hm.
  - intros p'. by rewrite Et, Eo.
  - intros i p'. rewrite Hwmem, Et, Es, <- Hw, elem_of_cons. clear. tauto.
  - intros p' tm'. rewrite Et. apply Hs.
  - rewrite Eo, Es. split_and!; [done|done|]. intros i. rewrite Ew. destruct (decide _) as [->|]; [|done].
    apply NoDup_app. split_and!; [done| |apply NoDup_singleton].
    by intros x Hx ->%list_elem_of_singleton.
  - intros p'. rewrite Es, Hwmem. intros Hp' [Hx|[-> _]]; [|done].
    apply (Hd p'); [|done]. by apply elem_of_cons; right.
  - intros i p' tm'. rewrite Hwmem, Et, Epos. intros [Hx|[-> ->]] Hp'; [by apply (Hdue i p')|].
    left. congruence.
  - by rewrite Ento.
Qed.

(** * Operations *)

(** What an operation leaves alone; the sentinel's circle only loses timers. *)
Definition framed_by (t t' : ErtsTimerWheel) : Prop :=
  tw_pos t' = tw_pos t ∧ tw_yield_slot t' = tw_yield_slot t ∧
  tw_yield_slots_left t' = tw_yield_slots_left t ∧ tw_yield_start_pos t' = tw_yield_start_pos t ∧
  (length (tw_sentinel t') <= length (tw_sentinel t))%nat.

#[export] Instance framed_by_preorder : PreOrder framed_by.
Proof.
  split; [intros t; by split_and!|]. unfold framed_by. intros t1 t2 t3 H1 H2.
  destruct_and! H1. destruct_and! H2. split_and!; try congruence. lia.
Qed.

(** The wheel between two steps, with the floor [o] of its timeouts. *)
Record live (t : ErtsTimerWheel) (A : gmap Z Z) (win : Z → Prop) (six k o : Z) : Prop := {
  lv_rel : tw_rel t A win six k;
  lv_above : above t o;
  lv_next : next_ok t;
  lv_floor : o <= tw_pos t }.

Lemma wslot_set_slot t i l j :
  wslot (set_slot t i l) j = if decide (j = i) then l else wslot t j.
Proof.
  unfold wslot, set_slot. simpl. destruct (decide (j = i)) as [->|Hne].
  - by rewrite lookup_insert_eq.
  - by rewrite lookup_insert_ne.
Qed.

Lemma live_set t A win six k o p q t' :
  live t A win six k o → erts_twheel_set_timer t p q = Ok t' →
  A !! p = None ∧ live t' (<[p := q]> A) win six k o ∧ framed_by t t'.
Proof.
  intros [Hr Ha Hn Hf]. unfold erts_twheel_set_timer.
  destruct (tw_timers t !! p) as [tm|] eqn:Ep; [|done].
  destruct (Z.eqb_spec (t_slot tm) inactive) as [Hsl|]; [|done]. cbn [negb].
  assert (A !! p = None) as Hp.
  { pose proof (tr_map _ _ _ _ _ Hr p) as Hm. destruct (A !! p) as [q'|]; [|done].
    destruct Hm as (tm' & Htm & Hc). assert (tm' = tm) as -> by congruence.
    rewrite Hsl in Hc. unfold ERTS_TWHEEL_SLOT_INACTIVE, ERTS_TWHEEL_SLOT_AT_ONCE in Hc. lia. }
  assert (Hup : ∀ t1 q',
    tw_rel t1 (<[p := q]> A) win six k → tw_pos t1 = tw_pos t → framed_by t t1 →
    tw_true_next t1 = tw_true_next t → tw_next t1 = tw_next t →
    (∀ p' tm', tw_timers t1 !! p' = Some tm' → 0 <= t_slot tm' →
       tw_timers t !! p' = Some tm' ∨ (t_timeout_pos tm' = q' ∧ tw_pos t < q')) →
    live (if mono q' <? tw_next t1 then set_next t1 true (mono q') else t1) (<[p := q]> A) win six k o ∧
    framed_by t (if mono q' <? tw_next t1 then set_next t1 true (mono q') else t1)).
  { intros t1 q' Hr1 Epos Hfr Etr Enx Htm.
    assert (above t1 o) as Ha1.
    { intros p' tm' Hp' Hs'. destruct (Htm p' tm' Hp' Hs') as [Ht|[-> ?]]; [by eapply Ha|lia]. }
    destruct (Z.ltb_spec (mono q') (tw_next t1)) as [Hlt|Hge]; (split; [|done]).
    - constructor; [by destruct Hr1|done| |simpl; lia]. intros p' tm' Hp' Hs'. simpl in *. rewrite Z.add_0_r.
      destruct (Htm p' tm' Hp' Hs') as [Ht|[-> ?]]; [|done].
      specialize (Hn p' tm' Ht Hs'). rewrite Enx in Hlt. apply mono_le.
      assert (mono q' < mono (t_timeout_pos tm' + 1)) as Hm.
      { eapply Z.lt_le_trans; [exact Hlt|]. etrans; [exact Hn|]. apply mono_le. destruct (tw_true_next t); lia. }
      revert Hm. unfold ERTS_CLKTCKS_TO_MONOTONIC. change (Z.quot _ _) with 1000000. lia.
    - constructor; [done|done| |lia]. intros p' tm' Hp' Hs'. rewrite Etr, Enx.
      destruct (Htm p' tm' Hp' Hs') as [Ht|[-> ?]]; [by apply (Hn p')|]. rewrite Enx in Hge.
      etrans; [exact Hge|]. apply mono_le. destruct (tw_true_next t); lia. }
  destruct (Z.leb_spec q (tw_pos t)) as [Hle|Hgt]; intros [= <-]; (split; [done|]).
  - match goal with |- live (if _ then set_next ?t1 _ _ else _) _ _ _ _ _ ∧ _ =>
      apply (Hup t1 (tw_pos t)) end; try done; [by apply (tw_rel_add_once t)|].
    intros p' tm' Hp' Hs'. simpl in Hp'. destruct (decide (p' = p)) as [->|Hne].
    + rewrite lookup_insert_eq in Hp'. injection Hp' as <-. done.
    + rewrite lookup_insert_ne in Hp' by done. by left.
  - match goal with |- live (if _ then set_next ?t1 _ _ else _) _ _ _ _ _ ∧ _ =>
      apply (Hup t1 q) end; try done; [apply (tw_rel_add t); try done; intros i; etrans; [apply wslot_set_slot|];
        by destruct (decide (i = slot_of q)) as [->|]|].
    intros p' tm' Hp' Hs'. simpl in Hp'. destruct (decide (p' = p)) as [->|Hne].
    + rewrite lookup_insert_eq in Hp'. injection Hp' as <-. by right.
    + rewrite lookup_insert_ne in Hp' by done. by left.
Qed.

Lemma live_cancel t A win six k o p t' :
  live t A win six k o → erts_twheel_cancel_timer t p = Ok t' →
  (if is_inactive t p then t' = t ∧ A !! p = None
   else is_Some (A !! p) ∧ live t' (delete p A) win six k o) ∧ framed_by t t'.
Proof.
  intros [Hr Ha Hn Hf]. unfold erts_twheel_cancel_timer, is_inactive.
  destruct (tw_timers t !! p) as [tm|] eqn:Ep; [|done].
  destruct (Z.eqb_spec (t_slot tm) inactive) as [Hsl|Hsl]; intros [= <-].
  { split; [|done]. split; [done|]. pose proof (tr_map _ _ _ _ _ Hr p) as Hm.
    destruct (A !! p) as [q'|]; [|done]. destruct Hm as (tm' & Htm & Hc).
    assert (tm' = tm) as -> by congruence. rewrite Hsl in Hc.
    unfold ERTS_TWHEEL_SLOT_INACTIVE, ERTS_TWHEEL_SLOT_AT_ONCE in Hc. lia. }
  destruct (tw_rel_active _ _ _ _ _ _ _ Hr Ep Hsl) as [q Hq].
  assert (Hout : t_slot tm >= 0 → p ∉ tw_at_once t).
  { intros H0 (tm' & Htm & Hs')%(tr_once _ _ _ _ _ Hr). assert (tm' = tm) as -> by congruence.
    unfold ERTS_TWHEEL_SLOT_AT_ONCE in Hs'. lia. }
  assert (Hin : ∀ i, p ∈ wslot t i ∨ (p ∈ tw_sentinel t ∧ i = six) → 0 <= i ∧ t_slot tm = i).
  { intros i (Hi & tm' & Htm & Hs')%(tr_wheel _ _ _ _ _ Hr). by assert (tm' = tm) as -> by congruence. }
  assert (tw_rel (remove_timer t p tm) (delete p A) win six k) as Hr'.
  { eapply (tw_rel_remove t _ A win six k k p q (t_timeout_pos tm)); try done.
    - unfold remove_timer. by destruct (t_slot tm >=? 0).
    - unfold remove_timer. rewrite Z.geb_leb. destruct (Z.leb_spec 0 (t_slot tm)); simpl.
      + apply removes_absent, Hout. lia.
      + apply removes_unlink.
    - unfold remove_timer. rewrite Z.geb_leb. destruct (Z.leb_spec 0 (t_slot tm)); simpl.
      + apply removes_unlink.
      + apply removes_absent. intros Hx. destruct (Hin six) as [? <-]; [by right|lia].
    - intros i. unfold remove_timer. rewrite Z.geb_leb. destruct (Z.leb_spec 0 (t_slot tm)); simpl.
      + change (removes p (wslot t i) (wslot (set_slot t (t_slot tm) (unlink p (wslot t (t_slot tm)))) i)).
        rewrite wslot_set_slot. destruct (decide (i = t_slot tm)) as [->|Hne]; [apply removes_unlink|].
        apply removes_absent. intros Hx. destruct (Hin i); [by left|done].
      + apply removes_absent. intros Hx. destruct (Hin i) as [? <-]; [by left|lia].
    - unfold remove_timer. by destruct (t_slot tm >=? 0).
    - unfold remove_timer. pose proof (tr_nto _ _ _ _ _ Hr). destruct (t_slot tm >=? 0); simpl; lia. }
  assert (framed_by t (remove_timer t p tm)) as Hfr.
  { unfold remove_timer. destruct (t_slot tm >=? 0); [|done]. split_and!; try done. simpl.
    apply length_filter. }
  assert (Htm : ∀ p' tm', tw_timers (remove_timer t p tm) !! p' = Some tm' → 0 <= t_slot tm' →
    tw_timers t !! p' = Some tm').
  { intros p' tm' Hp' Hs'.
    assert (tw_timers (remove_timer t p tm) = <[p := mk_timer (t_timeout_pos tm) inactive]> (tw_timers t)) as E
      by (unfold remove_timer; by destruct (t_slot tm >=? 0)).
    rewrite E in Hp'. destruct (decide (p' = p)) as [->|Hne].
    - rewrite lookup_insert_eq in Hp'. injection Hp' as <-. done.
    - by rewrite lookup_insert_ne in Hp'. }
  assert (tw_true_next (remove_timer t p tm) = tw_true_next t ∧ tw_next (remove_timer t p tm) = tw_next t)
    as [Etr Enx] by (unfold remove_timer; by destruct (t_slot tm >=? 0)).
  split; [|done]. split; [by eexists|]. constructor; [done| | |].
  - intros p' tm' Hp' Hs'. by eapply Ha; eauto.
  - intros p' tm' Hp' Hs'. rewrite Etr, Enx. by eapply Hn; eauto.
  - destruct Hfr as [-> _]. done.
Qed.

Lemma live_init t A win six k o p t' :
  live t A win six k o → erts_twheel_init_timer t p = Ok t' → live t' A win six k o ∧ framed_by t t'.
Proof.
  intros [Hr Ha Hn Hf]. unfold erts_twheel_init_timer. destruct (is_inactive t p) eqn:Ei; [|done].
  intros [= <-]. set (tm0 := mk_timer _ _).
  assert (Hin : ∀ tm, tw_timers t !! p = Some tm → t_slot tm = inactive).
  { intros tm Htm. unfold is_inactive in Ei. rewrite Htm in Ei. by apply Z.eqb_eq. }
  assert (Hsame : ∀ p' tm', <[p := tm0]> (tw_timers t) !! p' = Some tm' → t_slot tm' ≠ inactive →
    tw_timers t !! p' = Some tm').
  { intros p' tm'. destruct (decide (p' = p)) as [->|Hne].
    - rewrite lookup_insert_eq. by intros [= <-].
    - by rewrite lookup_insert_ne. }
  assert (Hback : ∀ p' tm', tw_timers t !! p' = Some tm' → t_slot tm' ≠ inactive →
    <[p := tm0]> (tw_timers t) !! p' = Some tm').
  { intros p' tm' Hp' Hs'. destruct (decide (p' = p)) as [->|Hne].
    - destruct Hs'. by apply Hin.
    - by rewrite lookup_insert_ne. }
  assert (Hne : ∀ i, 0 <= i → i ≠ inactive) by (unfold ERTS_TWHEEL_SLOT_INACTIVE; lia).
  split; [|done]. destruct Hr as [Hm Ho Hw Hs (Hn1 & Hn2 & Hn3) Hd Hdue Hnto].
  constructor; [constructor; simpl; try done| | |done].
  - intros p'. specialize (Hm p'). destruct (A !! p') as [q|].
    + destruct Hm as (tm & Htm & Hc). exists tm. split; [|done]. apply Hback; [done|].
      destruct Hc as [[? _]|[-> _]]; [by apply Hne|done].
    + intros tm Htm. destruct (decide (t_slot tm = inactive)) as [|Hi]; [done|]. apply Hm. by apply Hsame.
  - intros p'. rewrite Ho. split; intros (tm & Htm & Hsl); exists tm; (split; [|done]).
    + apply Hback; [done|]. by rewrite Hsl.
    + apply Hsame; [done|]. by rewrite Hsl.
  - intros i p'. rewrite (Hw i p'). split; intros (Hi & tm & Htm & Hsl); (split; [done|]); exists tm;
      (split; [|done]); [apply Hback|apply Hsame]; try done; rewrite Hsl; auto.
  - intros p' tm Htm H0. apply Hs with p'; [|done]. apply Hsame; auto.
  - intros i p' tm Hi Htm. apply Hdue with p'; [done|].
    destruct (proj1 (Hw i p') (or_introl Hi)) as (? & tm' & Htm' & Hsl).
    assert (<[p := tm0]> (tw_timers t) !! p' = Some tm') as E by (apply Hback; [done|]; rewrite Hsl; auto).
    congruence.
  - intros p' tm' Hp' Hs'. apply (Ha p'); [|done]. apply Hsame; auto.
  - intros p' tm' Hp' Hs'. simpl. apply (Hn p'); [|done]. apply Hsame; auto.
Qed.

(** * The next time across operations *)

Lemma run_op_next t op t' evs :
  run_op t op = Ok (t', evs) → (urgent t → urgent t') ∧ (prompt t → prompt t').
Proof.
  destruct op as [p|p q|p]; simpl; intros (t1 & H1 & [= <- _])%bind_Ok_inv.
  - unfold erts_twheel_init_timer in H1. destruct (is_inactive t p); [|done].
    by injection H1 as <-.
  - unfold erts_twheel_set_timer in H1. destruct (tw_timers t !! p) as [tm|]; [|done].
    destruct (negb _); [done|]. unfold urgent, prompt.
    destruct (Z.leb_spec q (tw_pos t)) as [Hq|Hq]; simpl in H1;
      match type of H1 with context [if ?a <? ?b then _ else _] => destruct (Z.ltb_spec a b) end;
      injection H1 as <-; unfold urgent in *; simpl; (split; [intros [? ?]|intros [Hb Ho]]);
      try (split; [done|lia]); try done.
    + split; [done|]. intros _. split; [|lia]. destruct (tw_true_next t); [done|]. specialize (Hb eq_refl). lia.
    + split; [done|]. intros Hne. destruct (Ho Hne). split; [done|lia].
  - unfold erts_twheel_cancel_timer in H1. destruct (tw_timers t !! p) as [tm|]; [|done].
    destruct (_ =? inactive); injection H1 as <-; [done|]. unfold remove_timer, prompt, urgent.
    destruct (_ >=? 0); simpl; [done|]. split; [done|]. intros [Hb Ho]. split; [done|].
    intros Hne. apply Ho. intros E0. rewrite E0 in Hne. done.
Qed.

Lemma run_ops_next t ops t' evs :
  run_ops t ops = Ok (t', evs) → (urgent t → urgent t') ∧ (prompt t → prompt t').
Proof.
  revert t evs. induction ops as [|op ops IH]; intros t evs; simpl; [by intros [= <- _]|].
  intros ([t1 ev1] & H1 & ([t2 ev2] & H2 & [= <- _])%bind_Ok_inv)%bind_Ok_inv.
  destruct (run_op_next _ _ _ _ H1), (IH _ _ H2). auto.
Qed.

(** No timers, no "at once" queue. *)
Lemma tw_rel_empty_once t win six k : tw_rel t ∅ win six k → tw_at_once t = [].
Proof.
  intros Hr. destruct (tw_at_once t) as [|p l] eqn:Eo; [done|].
  destruct (proj1 (tr_once _ _ _ _ _ Hr p)) as (tm & Htm & Hsl); [rewrite Eo; set_solver|].
  pose proof (tr_map _ _ _ _ _ Hr p) as Hm. rewrite lookup_empty in Hm.
  specialize (Hm tm Htm). by rewrite Hsl in Hm.
Qed.

Lemma prompt_settled t : tw_at_once t = [] → (tw_true_next t = false → mono (tw_pos t) < tw_next t) → prompt t.
Proof. intros Eo Hn. split; [done|]. by rewrite Eo. Qed.
