(* ===== verification/TimerBump.v ===== *)
(** [erts_bump_timers] on a wheel that represents a map of timeouts: the loops end, what
    they do is allowed on the map, and what is due has fired when they do not yield. *)
From S2P Require Import Prelude TimerWheel TimerInv.

Lemma live_run_op t A win six k o now op t' evs :
  live t A win six k o → run_op t op = Ok (t', evs) →
  ∃ A', replay now A evs = Some A' ∧ live t' A' win six k o ∧ framed_by t t' ∧ fires evs = 0.
Proof.
  intros Hl. destruct op as [p|p q|p]; simpl.
  - intros (t1 & Ht1 & [= <- <-])%bind_Ok_inv. destruct (live_init _ _ _ _ _ _ _ _ Hl Ht1).
    by exists A.
  - intros (t1 & Ht1 & [= <- <-])%bind_Ok_inv.
    destruct (live_set _ _ _ _ _ _ _ _ _ Hl Ht1) as (Hp & ? & ?).
    exists (<[p := q]> A). simpl. by rewrite Hp.
  - intros (t1 & Ht1 & [= <- <-])%bind_Ok_inv.
    destruct (live_cancel _ _ _ _ _ _ _ _ Hl Ht1) as [Hc ?]. destruct (is_inactive t p).
    + destruct Hc as [-> _]. by exists A.
    + destruct Hc as [[q Hq] ?]. exists (delete p A). simpl. by rewrite Hq.
Qed.

Lemma live_run_ops t A win six k o now ops t' evs :
  live t A win six k o → run_ops t ops = Ok (t', evs) →
  ∃ A', replay now A evs = Some A' ∧ live t' A' win six k o ∧ framed_by t t' ∧ fires evs = 0.
Proof.
  revert t A evs. induction ops as [|op ops IH]; intros t A evs Hl; simpl.
  { intros [= <- <-]. by exists A. }
  intros ([t1 ev1] & H1 & ([t2 ev2] & H2 & [= <- <-])%bind_Ok_inv)%bind_Ok_inv.
  destruct (live_run_op _ _ _ _ _ _ now _ _ _ Hl H1) as (A1 & E1 & Hl1 & Hf1 & N1).
  destruct (IH _ _ _ Hl1 H2) as (A2 & E2 & Hl2 & Hf2 & N2).
  exists A2. rewrite replay_app, E1, fires_app. split_and!; [done|done|by etrans|lia].
Qed.

Section Bump.
Context {E : Type} (timeout : E → ErtsTimerWheel → Z → E * list tw_op).
Context (Hcb : ∀ e t p, is_Ok (run_ops t (timeout e t p).2)).
(** [allowed]: the events of the callbacks. *)
Context (allowed : tevent → Prop) (Hfire : ∀ p, allowed (Ev_fire p)).
Context (Hall : ∀ e t p t' evs, run_ops t (timeout e t p).2 = Ok (t', evs) → Forall allowed evs).
Context (now : Z).

(** [goes x x' A A' yc yc']: from [x] to [x'] events happened that take the map [A] to
    [A']; what was spent of the yield count was spent on firing timers. *)
Definition goes (x x' : world (E := E)) (A A' : gmap Z Z) (yc yc' : Z) : Prop :=
  ∃ evs, wd_log x' = wd_log x ++ evs ∧ replay now A evs = Some A' ∧ yc <= fires evs + yc' ∧
    Forall allowed evs.

Lemma goes_refl x x' A yc yc' : wd_log x' = wd_log x → yc <= yc' → goes x x' A A yc yc'.
Proof. intros E1 Hy. exists []. rewrite app_nil_r. split_and!; [done|done|done|constructor]. Qed.

Lemma goes_trans x x1 x2 A A1 A2 yc yc1 yc2 :
  goes x x1 A A1 yc yc1 → goes x1 x2 A1 A2 yc1 yc2 → goes x x2 A A2 yc yc2.
Proof.
  intros (ev1 & E1 & R1 & F1 & L1) (ev2 & E2 & R2 & F2 & L2). exists (ev1 ++ ev2).
  rewrite replay_app, R1, fires_app, E2, E1, app_assoc. split_and!; [done|done|lia|by apply Forall_app].
Qed.

Lemma goes_le x x' A A' yc yc1 yc' yc1' :
  goes x x' A A' yc yc' → yc1 <= yc → yc' <= yc1' → goes x x' A A' yc1 yc1'.
Proof. intros (ev & ? & ? & ? & ?) ? ?. exists ev. split_and!; [done|done|lia|done]. Qed.

(** Firing a timer that has been taken out. *)
Lemma timeout_timer_live x p A win six k o q tm :
  A !! p = Some q → q <= now → tw_timers (wd_wheel x) !! p = Some tm →
  live (set_timer_of (wd_wheel x) p (mk_timer (t_timeout_pos tm) inactive)) (delete p A) win six k o →
  ∃ x' A', timeout_timer timeout x p = Ok x' ∧ live (wd_wheel x') A' win six k o ∧
    framed_by (wd_wheel x) (wd_wheel x') ∧ ∀ yc, goes x x' A A' (yc + 1) yc.
Proof.
  intros Hq Hnow Hp Hl. unfold timeout_timer. rewrite Hp.
  set (t1 := set_timer_of _ _ _) in *. pose proof (Hcb (wd_env x) t1 p) as [[t2 evs] Hops].
  destruct (timeout (wd_env x) t1 p) as [e ops] eqn:Et. simpl in Hops. rewrite Hops, bind_Ok.
  destruct (live_run_ops _ _ _ _ _ _ now _ _ _ Hl Hops) as (A2 & E2 & Hl2 & Hf2 & N2).
  eexists _, A2. split; [done|]. split; [done|]. split; [done|]. intros yc.
  exists (Ev_fire p :: evs). split; [done|]. simpl. rewrite Hq.
  destruct (Z.leb_spec q now); [|lia]. split; [done|].
  split; [|constructor; [done|]; eapply (Hall (wd_env x) t1 p); by rewrite Et].
  change (fires (Ev_fire p :: evs)) with (zlen (Ev_fire p :: filter (λ ev, is_fire ev = true) evs)).
  rewrite zlen_cons. unfold fires in N2. lia.
Qed.

(** The record of a yield: the next timeout is the floor. *)
Lemma live_yield t A win six k o a b c :
  live t A win six k o → live (set_yield (set_next t true (mono o)) a b c) A win six k o.
Proof.
  intros [Hr Ha Hn Hf]. constructor; [by destruct Hr|done| |done].
  intros p tm Hp Hs. simpl. rewrite Z.add_0_r. apply mono_le. specialize (Ha p tm Hp Hs). lia.
Qed.

Lemma urgent_yield t o a b c : o <= tw_pos t → urgent (set_yield (set_next t true (mono o)) a b c).
Proof. intros. split; [done|]. by apply mono_le. Qed.

(** Inactive timers do not count. *)
Lemma live_take_out t t1 A win six k k' o p q tp :
  live t A win six k o → A !! p = Some q →
  tw_timers t1 = <[p := mk_timer tp inactive]> (tw_timers t) →
  removes p (tw_at_once t) (tw_at_once t1) → removes p (tw_sentinel t) (tw_sentinel t1) →
  (∀ i, removes p (wslot t i) (wslot t1 i)) → tw_pos t1 = tw_pos t →
  tw_nto t1 = k' + Z.of_nat (size A) - 1 →
  tw_true_next t1 = tw_true_next t → tw_next t1 = tw_next t →
  live t1 (delete p A) win six k' o.
Proof.
  intros [Hr Ha Hn Hf] Hp Et Ro Rs Rw Epos Ento Etr Enx.
  assert (Htm : ∀ p' tm', tw_timers t1 !! p' = Some tm' → 0 <= t_slot tm' → tw_timers t !! p' = Some tm').
  { intros p' tm' Hp' Hs'. rewrite Et in Hp'. destruct (decide (p' = p)) as [->|Hne].
    - rewrite lookup_insert_eq in Hp'. by injection Hp' as <-.
    - by rewrite lookup_insert_ne in Hp'. }
  constructor; [by eapply (tw_rel_remove t)| | |by rewrite Epos].
  - intros p' tm' Hp' Hs'. by eapply Ha; eauto.
  - intros p' tm' Hp' Hs'. rewrite Etr, Enx. by eapply Hn; eauto.
Qed.

(** The timers of the "at once" queue. *)
Lemma at_once_loop_live n x A win six o yc :
  live (wd_wheel x) A win six 0 o → o = tw_pos (wd_wheel x) → o <= now → yc <= Z.of_nat n →
  ∃ x' yc' b A', at_once_loop timeout n o x yc = Ok (x', yc', b) ∧
    live (wd_wheel x') A' win six 0 o ∧ tw_pos (wd_wheel x') = o ∧
    (length (tw_sentinel (wd_wheel x')) <= length (tw_sentinel (wd_wheel x)))%nat ∧
    if b : bool then tw_yield_slot (wd_wheel x') = at_once ∧ urgent (wd_wheel x') ∧ yc' <= 0 ∧
      goes x x' A A' yc (yc' + 1)
    else tw_at_once (wd_wheel x') = [] ∧ framed_by (wd_wheel x) (wd_wheel x') ∧ goes x x' A A' yc yc'.
Proof.
  revert x A yc. induction n as [|n IH]; intros x A yc Hl Ho Hnow Hyc; cbn [at_once_loop];
    destruct (tw_at_once (wd_wheel x)) as [|p rest] eqn:Eq.
  1,3: exists x, yc, false, A; split_and!; try done; by apply goes_refl.
  - destruct (Z.leb_spec (yc - 1) 0) as [Hle|]; [|lia].
    eexists _, _, true, A. split; [done|].
    split_and!; try done; [by apply live_yield|by apply urgent_yield; lia|by apply goes_refl; [|lia]].
  - destruct (Z.leb_spec (yc - 1) 0) as [Hle|Hgt].
    { eexists _, _, true, A. split; [done|].
      split_and!; try done; [by apply live_yield|by apply urgent_yield; lia|by apply goes_refl; [|lia]]. }
    set (t := wd_wheel x) in *. set (t1 := set_at_once _ _ _). pose proof (lv_rel _ _ _ _ _ _ Hl) as Hr.
    destruct (proj1 (tr_once _ _ _ _ _ Hr p)) as (tm & Htm & Hsl); [rewrite Eq; set_solver|].
    pose proof (tr_map _ _ _ _ _ Hr p) as Hm. destruct (A !! p) as [q|] eqn:Eqp.
    2:{ specialize (Hm tm Htm). rewrite Hsl in Hm. done. }
    destruct Hm as (tm' & Htm' & Hc). assert (tm' = tm) as -> by congruence.
    destruct Hc as [[H0 _]|[_ Hqp]]; [rewrite Hsl in H0; done|].
    assert (Hno : ∀ i, ¬ (p ∈ wslot t i ∨ (p ∈ tw_sentinel t ∧ i = six))).
    { intros i (? & tm1 & ? & ?)%(tr_wheel _ _ _ _ _ Hr). assert (tm1 = tm) as -> by congruence.
      subst i. rewrite Hsl in *. done. }
    assert (live (set_timer_of t1 p (mk_timer (t_timeout_pos tm) inactive)) (delete p A) win six 0 o) as Hl1.
    { eapply (live_take_out t _ A win six 0 0); try done.
      - simpl. rewrite Eq. apply removes_head. rewrite <- Eq. by destruct (tr_nodup _ _ _ _ _ Hr).
      - apply removes_absent. intros Hx. by apply (Hno six); right.
      - intros i. apply removes_absent. intros Hx. by apply (Hno i); left.
      - simpl. rewrite (tr_nto _ _ _ _ _ Hr). lia. }
    destruct (timeout_timer_live (upd x t1) p A win six 0 o q tm Eqp ltac:(lia) Htm Hl1)
      as (x1 & A1 & -> & Hl2 & (Hf1 & Hf2 & Hf3 & Hf4 & Hf5) & Hg). rewrite bind_Ok.
    simpl in Hf1, Hf2, Hf3, Hf4, Hf5.
    destruct (IH x1 A1 (yc - 1) Hl2 ltac:(lia) Hnow ltac:(lia)) as (x' & yc' & b & A' & -> & Hl' & Hp' & Hs' & Hb).
    exists x', yc', b, A'. split_and!; [done|done|done|lia|].
    specialize (Hg (yc - 1)). replace (yc - 1 + 1) with yc in Hg by lia.
    destruct b.
    + destruct Hb as (? & ? & ? & Hg'). split_and!; [done|done|done|]. by eapply goes_trans.
    + destruct Hb as (? & Hfr' & Hg'). split_and!; [done| |by eapply goes_trans].
      destruct Hfr' as (? & ? & ? & ? & ?). split_and!; try congruence. lia.
Qed.

(** The first timer of the sentinel's circle. *)
Lemma slot_timer_live x t A win ix o p rest yc :
  live t A win ix 0 o → tw_sentinel t = p :: rest → wd_wheel x = set_sentinel t rest →
  tw_pos t <= now →
  ∃ x' yc' A', slot_timer timeout ix (tw_pos t) x p yc = Ok (x', yc') ∧
    live (wd_wheel x') A' win ix 0 o ∧ framed_by (wd_wheel x) (wd_wheel x') ∧
    goes x x' A A' (yc + 1) yc'.
Proof.
  intros Hl Hsen Hx Hnow. pose proof (lv_rel _ _ _ _ _ _ Hl) as Hr.
  destruct (proj1 (tr_wheel _ _ _ _ _ Hr ix p)) as (H0 & tm & Htm & Hsl).
  { right. split; [rewrite Hsen; set_solver|done]. }
  destruct (tr_nodup _ _ _ _ _ Hr) as (_ & Hnd & _). rewrite Hsen in Hnd.
  assert (tw_timers (wd_wheel x) !! p = Some tm) as Htx by (by rewrite Hx).
  unfold slot_timer. rewrite Htx, Z.gtb_ltb.
  destruct (Z.ltb_spec (tw_pos t) (t_timeout_pos tm)) as [Hlt|Hge].
  - eexists _, _, A. split; [done|]. split; [|split; [by rewrite Hx|by apply goes_refl; [|lia]]].
    assert (insert_timer_into_slot (wd_wheel x) ix p (t_timeout_pos tm) =
      set_slot (wd_wheel x) ix (wslot (wd_wheel x) ix ++ [p])) as Ei.
    { unfold insert_timer_into_slot, set_timer_of. simpl.
      rewrite insert_id; [by destruct (wd_wheel x)|]. rewrite Htx. destruct tm. simpl in *. by subst. }
    simpl. rewrite Ei, Hx. destruct Hl as [_ Ha Hn Hf]. constructor; [|done..].
    eapply (tw_rel_put_back t); try done. intros i. rewrite wslot_set_slot.
    destruct (decide (i = ix)) as [->|]; done.
  - pose proof (tr_map _ _ _ _ _ Hr p) as Hm. destruct (A !! p) as [q|] eqn:Eqp.
    2:{ specialize (Hm tm Htm). rewrite Hsl in Hm. by rewrite Hm in H0. }
    destruct Hm as (tm' & Htm' & Hc). assert (tm' = tm) as -> by congruence.
    destruct Hc as [[_ Hq]|[Hc _]]; [|rewrite Hsl in Hc; by rewrite Hc in H0].
    assert (live (set_timer_of (wd_wheel x) p (mk_timer (t_timeout_pos tm) inactive)) (delete p A) win ix 1 o)
      as Hl1.
    { rewrite Hx. eapply (live_take_out t _ A win ix 0 1); try done.
      - apply removes_absent. intros (tm1 & ? & Hs1)%(tr_once _ _ _ _ _ Hr).
        assert (tm1 = tm) as -> by congruence. rewrite Hsl in Hs1. by rewrite Hs1 in H0.
      - rewrite Hsen. by apply removes_head.
      - intros i. apply removes_absent. intros Hi.
        destruct (proj1 (tr_wheel _ _ _ _ _ Hr i p) (or_introl Hi)) as (_ & tm1 & ? & Hs1).
        assert (tm1 = tm) as -> by congruence. rewrite Hsl in Hs1. subst i.
        apply (tr_disj _ _ _ _ _ Hr p); [|done]. rewrite Hsen. set_solver.
      - simpl. rewrite (tr_nto _ _ _ _ _ Hr). lia. }
    destruct (timeout_timer_live x p A win ix 1 o q tm Eqp ltac:(lia) Htx Hl1)
      as (x1 & A1 & -> & Hl2 & Hfr & Hg). rewrite bind_Ok.
    eexists _, _, A1. split; [done|]. split; [|split; [done|]].
    + destruct Hl2 as [Hr2 Ha2 Hn2 Hf2]. constructor; [|done..].
      destruct Hr2 as [? ? ? ? ? ? ? Hn]. constructor; try done. simpl. lia.
    + destruct (Hg yc) as (evs & ? & ? & ?). by exists evs.
Qed.

(** The rest of the sentinel's circle. *)
Lemma restart_slot_live n slots x A win ix o yc bump_to :
  live (wd_wheel x) A win ix 0 o → bump_to = tw_pos (wd_wheel x) → bump_to <= now →
  (length (tw_sentinel (wd_wheel x)) <= n)%nat →
  ∃ x' yc' b A', restart_slot timeout n ix slots o bump_to x yc = Ok (x', yc', b) ∧
    live (wd_wheel x') A' win ix 0 o ∧ tw_pos (wd_wheel x') = bump_to ∧
    if b : bool then tw_yield_slot (wd_wheel x') = ix ∧ tw_yield_slots_left (wd_wheel x') = slots ∧
      tw_yield_start_pos (wd_wheel x') = to_int o ∧ urgent (wd_wheel x') ∧ yc' <= 0 ∧ goes x x' A A' yc (yc' + 1)
    else tw_sentinel (wd_wheel x') = [] ∧ framed_by (wd_wheel x) (wd_wheel x') ∧ goes x x' A A' yc yc'.
Proof.
  intros Hl Hb Hnow. revert x A yc Hl Hb.
  induction n as [|n IH]; intros x A yc Hl Hb Hlen; cbn [restart_slot];
    destruct (tw_sentinel (wd_wheel x)) as [|p rest] eqn:Eq.
  1,3: exists x, yc, false, A; split_and!; try done; by apply goes_refl.
  { simpl in Hlen. lia. }
  destruct (Z.leb_spec (yc - 1) 0) as [Hle|Hgt].
  { eexists _, _, true, A. split; [done|].
    split_and!; try done; [by apply live_yield|apply urgent_yield; by destruct Hl|by apply goes_refl; [|lia]]. }
  rewrite Hb. destruct (slot_timer_live (upd x (set_sentinel (wd_wheel x) rest)) (wd_wheel x) A win ix o p rest
    (yc - 1) Hl Eq eq_refl ltac:(lia)) as (x1 & yc1 & A1 & -> & Hl1 & (F1 & F2 & F3 & F4 & F5) & Hg).
  rewrite bind_Ok. simpl in F1, F2, F3, F4, F5. simpl in Hlen.
  destruct (IH x1 A1 yc1 Hl1 ltac:(lia) ltac:(lia)) as (x' & yc' & b & A' & E' & Hl' & Hp' & Hr').
  rewrite <- Hb. exists x', yc', b, A'. split; [done|]. split; [done|]. split; [done|].
  assert (goes x x1 A A1 yc yc1) as Hg1 by (by eapply goes_le; [exact Hg|lia|lia]).
  destruct b.
  - destruct Hr' as (? & ? & ? & ? & ? & ?). split_and!; try done. by eapply goes_trans.
  - destruct Hr' as (? & (? & ? & ? & ? & ?) & ?). split_and!; [done| |by eapply goes_trans].
    split_and!; try congruence. rewrite Eq. simpl. lia.
Qed.
(** ** The slots *)

Lemma tw_rel_slot_range t A win six k i p :
  tw_rel t A win six k → p ∈ wslot t i → 0 <= i < 65536.
Proof.
  intros Hr Hp. destruct (proj1 (tr_wheel _ _ _ _ _ Hr i p) (or_introl Hp)) as (H0 & tm & Htm & <-).
  rewrite (tr_slot _ _ _ _ _ Hr p tm Htm H0). apply slot_of_range.
Qed.

(** With nothing in the sentinel's circle, its slot does not matter, and the slots that
    may hold due timers may be restricted to the non-empty ones. *)
Lemma tw_rel_win t A win win' six six' k :
  tw_rel t A win six k → tw_sentinel t = [] →
  (∀ i, 0 <= i < 65536 → wslot t i ≠ [] → win i → win' i) → tw_rel t A win' six' k.
Proof.
  intros Hr Hs Hw. pose proof Hr as [Hm Ho Hwh Hsl Hn Hd Hdue Hnto]. constructor; try done.
  - intros i p. rewrite <- Hwh, Hs. clear. set_solver.
  - intros p. rewrite Hs. by intros ?%elem_of_nil.
  - intros i p tm Hi Hp. destruct (Hdue i p tm Hi Hp) as [|Hwi]; [by left|]. right.
    apply Hw; [by eapply tw_rel_slot_range| |done]. intros E0. rewrite E0 in Hi. by apply elem_of_nil in Hi.
Qed.

(** Moving the timers of a slot to the sentinel's circle. *)
Lemma tw_rel_open t A win win' six k ix :
  tw_rel t A win six k → tw_sentinel t = [] → 0 <= ix →
  (∀ i, 0 <= i < 65536 → i ≠ ix → win i → win' i) →
  tw_rel (set_sentinel (set_slot t ix []) (wslot t ix)) A win' ix k.
Proof.
  intros Hr Hs Hix Hw. pose proof Hr as [Hm Ho Hwh Hsl (Hn1 & Hn2 & Hn3) Hd Hdue Hnto].
  assert (Ew : ∀ i, wslot (set_sentinel (set_slot t ix []) (wslot t ix)) i =
    if decide (i = ix) then [] else wslot t i) by (intros i; apply wslot_set_slot).
  constructor; try done.
  - intros i p. rewrite Ew. etrans; [|apply Hwh]. simpl. rewrite Hs.
    destruct (decide (i = ix)) as [->|Hne]; [clear|clear - Hne]; set_solver.
  - simpl. split_and!; [done|done|]. intros i. rewrite Ew. destruct (decide _); [constructor|done].
  - intros p _. rewrite Ew. rewrite decide_True by done. apply not_elem_of_nil.
  - intros i p tm. rewrite Ew. destruct (decide (i = ix)) as [->|Hne]; [by intros ?%elem_of_nil|].
    intros Hi Hp. destruct (Hdue i p tm Hi Hp) as [|Hwi]; [by left|]. right. simpl.
    apply Hw; [by eapply tw_rel_slot_range|done|done].
Qed.

(** A wheel that has yielded in a slot. *)
Definition yielded_in (t : ErtsTimerWheel) (A : gmap Z Z) (o : Z) : Prop :=
  0 <= tw_yield_slot t < 65536 ∧ 1 <= tw_yield_slots_left t ∧ tw_yield_start_pos t = to_int o ∧ urgent t ∧
  live t A (window (next_ix (tw_yield_slot t)) (tw_yield_slots_left t - 1)) (tw_yield_slot t) 0 o.

(** A wheel in which only timers of the "at once" queue may be due. *)
Definition settled (t : ErtsTimerWheel) (A : gmap Z Z) (o : Z) : Prop :=
  tw_sentinel t = [] ∧ ∃ six, live t A (λ _, False) six 0 o.

Lemma visit_slot_live x A ix six slots o yc bump_to :
  live (wd_wheel x) A (window ix slots) six 0 o → tw_sentinel (wd_wheel x) = [] →
  0 <= ix < 65536 → 1 <= slots → bump_to = tw_pos (wd_wheel x) → bump_to <= now →
  ∃ x' yc' b A', visit_slot timeout ix slots o bump_to x yc = Ok (x', yc', b) ∧
    tw_pos (wd_wheel x') = bump_to ∧
    if b : bool then yielded_in (wd_wheel x') A' o ∧ yc' <= 0 ∧ goes x x' A A' yc (yc' + 1)
    else live (wd_wheel x') A' (window (next_ix ix) (slots - 1)) ix 0 o ∧
      tw_sentinel (wd_wheel x') = [] ∧ goes x x' A A' yc yc'.
Proof.
  intros Hl Hs Hix Hsl Hb Hnow. unfold visit_slot.
  destruct (wslot (wd_wheel x) ix) as [|p rest] eqn:Ew.
  { exists x, yc, false, A. split_and!; try done; [|by apply goes_refl].
    destruct Hl as [Hr Ha Hn Hf]. constructor; [|done..].
    eapply tw_rel_win; [done|done|]. intros i Hi Hne Hw. apply window_next; try done. congruence. }
  set (t := wd_wheel x) in *. set (tv := set_sentinel (set_slot t ix []) (p :: rest)).
  assert (live tv A (window (next_ix ix) (slots - 1)) ix 0 o) as Hlv.
  { destruct Hl as [Hr Ha Hn Hf]. constructor; [|done..]. subst tv. rewrite <- Ew.
    eapply tw_rel_open; [done|done|lia|]. intros i Hi Hne Hw. by apply window_next. }
  assert (set_slot (match rest with [] => t | _ => set_sentinel t rest end) ix [] = set_sentinel tv rest) as Et.
  { destruct rest; [|done]. subst tv. destruct t. simpl in *. subst. done. }
  destruct (slot_timer_live (upd x (set_sentinel tv rest)) tv A _ ix o p rest yc Hlv eq_refl eq_refl)
    as (x1 & yc1 & A1 & E1 & Hl1 & (F1 & F2 & F3 & F4 & F5) & Hg); [simpl; lia|].
  simpl in F1. change (tw_pos tv) with (tw_pos t) in E1. rewrite Et, Hb, E1, bind_Ok.
  destruct (restart_slot_live (length (tw_sentinel (wd_wheel x1))) slots x1 A1 _ ix o yc1 (tw_pos t) Hl1)
    as (x' & yc' & b & A' & -> & Hl' & Hp' & Hr'); [done|lia|lia|].
  exists x', yc', b, A'. split; [done|]. split; [done|].
  assert (goes x x1 A A1 yc yc1) as Hg1 by (by eapply goes_le; [exact Hg|lia|lia]).
  destruct b.
  - destruct Hr' as (Hy & Hyl & Hys & ? & ? & ?). split_and!; [|done|by eapply goes_trans].
    unfold yielded_in. rewrite Hy, Hyl. by split_and!; try lia.
  - destruct Hr' as (? & _ & ?). split_and!; [done|done|by eapply goes_trans].
Qed.

Lemma slots_loop_live n x A ix six slots o yc bump_to :
  live (wd_wheel x) A (window ix slots) six 0 o → tw_sentinel (wd_wheel x) = [] →
  0 <= ix < 65536 → slots <= Z.of_nat n → bump_to = tw_pos (wd_wheel x) → bump_to <= now →
  ∃ x' yc' b A', slots_loop timeout n slots ix o bump_to x yc = Ok (x', yc', b) ∧
    tw_pos (wd_wheel x') = bump_to ∧
    if b : bool then yielded_in (wd_wheel x') A' o ∧ yc' <= 0 ∧ goes x x' A A' yc (yc' + 1)
    else settled (wd_wheel x') A' o ∧ goes x x' A A' yc yc'.
Proof.
  revert x A ix six slots yc. induction n as [|n IH]; intros x A ix six slots yc Hl Hs Hix Hn Hb Hnow;
    cbn [slots_loop]; destruct (Z.leb_spec slots 0) as [Hle|Hgt].
  1,3: exists x, yc, false, A; (split; [done|]); (split; [done|]); (split; [|by apply goes_refl]);
    (split; [done|]); exists six; destruct Hl as [Hr Ha Hnx Hf]; (constructor; [|done..]);
    (eapply tw_rel_win; [done|done|]); intros i _ _ Hw; by apply (window_none ix slots i).
  { lia. }
  destruct (visit_slot_live x A ix six slots o yc bump_to Hl Hs Hix ltac:(lia) Hb Hnow)
    as (x1 & yc1 & b1 & A1 & -> & Hp1 & H1). rewrite bind_Ok. destruct b1.
  { exists x1, yc1, true, A1. split; [done|]. by split. }
  destruct H1 as (Hl1 & Hs1 & Hg1).
  destruct (IH x1 A1 (next_ix ix) ix (slots - 1) yc1 Hl1 Hs1) as (x' & yc' & b & A' & -> & Hp' & H'); try lia.
  { rewrite next_ix_mod by done. dlia. }
  exists x', yc', b, A'. split; [done|]. split; [done|]. destruct b.
  - destruct H' as (? & ? & ?). split_and!; [done|done|by eapply goes_trans].
  - destruct H' as (? & ?). split; [done|by eapply goes_trans].
Qed.
(** ** The position moves *)

(** A settled wheel, whatever [next_timeout_time] says. *)
Definition calm (t : ErtsTimerWheel) (A : gmap Z Z) : Prop :=
  tw_sentinel t = [] ∧ ∃ six, tw_rel t A (λ _, False) six 0.

Lemma settled_calm t A o : settled t A o → calm t A.
Proof. intros (Hs & six & [Hr _ _ _]). split; [done|]. by exists six. Qed.

(** Its timers with a slot are after the position. *)
Lemma calm_above t A : calm t A → above t (tw_pos t).
Proof.
  intros (Hs & six & Hr) p tm Hp H0.
  destruct (proj2 (tr_wheel _ _ _ _ _ Hr (t_slot tm) p)) as [Hw|[Hw _]]; [by eauto| |].
  - by destruct (tr_due _ _ _ _ _ Hr _ p tm Hw Hp).
  - rewrite Hs in Hw. by apply elem_of_nil in Hw.
Qed.

Lemma settled_pos t A o : settled t A o → settled t A (tw_pos t).
Proof.
  intros Hst. pose proof (calm_above t A (settled_calm t A o Hst)) as Ha. destruct Hst as (Hs & six & [Hr _ Hn _]).
  split; [done|]. exists six. by constructor.
Qed.

(** An empty wheel may be put anywhere. *)
Lemma calm_empty t A pos next ys :
  calm t A → tw_nto t = 0 →
  A = ∅ ∧ settled (set_yield_slot (set_pos (set_next t false next) pos) ys) ∅ pos.
Proof.
  intros (Hs & six & Hr) Hn. rewrite (tr_nto _ _ _ _ _ Hr) in Hn.
  assert (A = ∅) as -> by (apply map_size_empty_iff; lia). split; [done|].
  assert (Hin : ∀ p tm, tw_timers t !! p = Some tm → t_slot tm = inactive).
  { intros p. pose proof (tr_map _ _ _ _ _ Hr p) as Hm. by rewrite lookup_empty in Hm. }
  assert (Hneg : ∀ p tm, tw_timers t !! p = Some tm → ¬ 0 <= t_slot tm).
  { intros p tm Hp. rewrite (Hin p tm Hp). unfold ERTS_TWHEEL_SLOT_INACTIVE. lia. }
  destruct Hr as [Hm Ho Hw Hsl Hnd Hd Hdue Hnto].
  split; [done|]. exists six. constructor; [constructor; try done|..].
  - intros i p tm Hi Hp. exfalso. destruct (proj1 (Hw i p) (or_introl Hi)) as (H0 & tm' & Hp' & Hsl').
    apply (Hneg p tm' Hp'). lia.
  - intros p tm Hp H0. by destruct (Hneg p tm Hp).
  - intros p tm Hp H0. by destruct (Hneg p tm Hp).
  - done.
Qed.

Lemma live_advance t A o six pos win :
  live t A (λ _, False) six 0 o → tw_pos t <= pos →
  (∀ p tm, tw_timers t !! p = Some tm → 0 <= t_slot tm → t_timeout_pos tm <= pos → win (t_slot tm)) →
  live (set_pos t pos) A win six 0 o.
Proof.
  intros [Hr Ha Hn Hf] Hpos Hwin. constructor; [|done|done|simpl; lia].
  destruct Hr as [Hm Ho Hw Hsl Hnd Hd Hdue Hnto]. constructor; try done.
  - intros p. simpl. specialize (Hm p). destruct (A !! p); [|done].
    destruct Hm as (tm & Hp & Hc). exists tm. split; [done|]. destruct Hc as [?|[? ?]]; [by left|right; split; [done|lia]].
  - intros i p tm Hi Hp. simpl. destruct (Z.lt_ge_cases pos (t_timeout_pos tm)) as [|Hle]; [by left|]. right.
    destruct (proj1 (Hw i p) (or_introl Hi)) as (H0 & tm' & Hp' & <-).
    assert (tm' = tm) as -> by (simpl in Hp; congruence). by eapply Hwin.
Qed.

(** Skipping stays before every timer of the wheel. *)
Lemma skip_to_spec t bump_to :
  next_ok t → above t (tw_pos t) → tw_pos t < bump_to →
  ∃ pos', skip_to t bump_to = set_pos t pos' ∧ tw_pos t <= pos' < bump_to ∧ above t pos'.
Proof.
  intros Hn Ha Hlt. unfold skip_to.
  assert (t = set_pos t (tw_pos t)) as Et by (by destruct t).
  destruct (tw_true_next t) eqn:Etr; [|by exists (tw_pos t); split_and!; [done|lia|lia|done]].
  rewrite !Z.gtb_ltb. set (s := if bump_to <? tick (tw_next t) then bump_to else tick (tw_next t)).
  destruct (Z.ltb_spec (tw_pos t) (s - 1)) as [Hs|]; [|by exists (tw_pos t); split_and!; [done|lia|lia|done]].
  exists (s - 1). split; [done|].
  assert (s <= bump_to ∧ s <= tick (tw_next t)) as [? ?]
    by (subst s; destruct (Z.ltb_spec bump_to (tick (tw_next t))); lia).
  split; [lia|]. intros p tm Hp Hp0. specialize (Hn p tm Hp Hp0). rewrite Etr, Z.add_0_r in Hn.
  apply tick_le_mono in Hn. lia.
Qed.

(** ** The whole function *)

(** The wheel between calls. *)
Definition wheel_ok (t : ErtsTimerWheel) (A : gmap Z Z) : Prop :=
  0 <= tw_pos t ∧
  ((tw_yield_slot t < 0 ∧ settled t A (tw_pos t) ∧ prompt t) ∨ (∃ o, - 2 ^ 31 <= o ∧ yielded_in t A o)).

(** A call that returns from inside the loops: with an empty wheel, or a yield. *)
Definition returned (x x' : world (E := E)) (A A' : gmap Z Z) (yc yc' : Z) : Prop :=
  wheel_ok (wd_wheel x') A' ∧ tw_pos (wd_wheel x') <= now ∧
  ((tw_yield_slot (wd_wheel x') = inactive ∧ A' = ∅ ∧ goes x x' A A' yc yc') ∨
   (tw_yield_slot (wd_wheel x') ≠ inactive ∧ yc' <= 0 ∧ goes x x' A A' yc (yc' + 1))).

Lemma empty_wheel_returned curr_time bump_to x x1 A A1 o yc yc1 :
  settled (wd_wheel x1) A1 o → tw_nto (wd_wheel x1) = 0 → 0 <= bump_to <= now → mono bump_to <= curr_time → goes x x1 A A1 yc yc1 →
  ∃ A', returned x (empty_wheel curr_time bump_to x1) A A' yc yc1.
Proof.
  intros Hst Hn Hb Hbc Hg.
  destruct (calm_empty _ _ bump_to (curr_time + ERTS_MONOTONIC_DAY) inactive
    (settled_calm _ _ _ Hst) Hn) as [-> Hs].
  assert (prompt (set_yield_slot (set_pos (set_next (wd_wheel x1) false (curr_time + ERTS_MONOTONIC_DAY)) bump_to)
    inactive)) as Hpr.
  { destruct Hs as (_ & six & [Hr _ _ _]). apply prompt_settled; [by eapply tw_rel_empty_once|].
    intros _. simpl. unfold ERTS_MONOTONIC_DAY, ERTS_SEC_TO_MONOTONIC. lia. }
  exists ∅. split; [split; [simpl; lia|by left]|]. split; [simpl; lia|]. left. split_and!; [done|done|].
  destruct Hg as (evs & ? & ? & ?). by exists evs.
Qed.

Lemma bump_loop_live n curr_time bump_to x A o yc :
  settled (wd_wheel x) A o → 0 <= tw_pos (wd_wheel x) <= bump_to → bump_to <= now → mono bump_to <= curr_time →
  (if decide (tw_pos (wd_wheel x) < bump_to) then (2 <= n)%nat else (1 <= n)%nat) →
  ∃ x' yc' b A', bump_loop timeout n curr_time bump_to x yc = Ok (x', yc', b) ∧
    if b : bool then returned x x' A A' yc yc'
    else settled (wd_wheel x') A' bump_to ∧ tw_pos (wd_wheel x') = bump_to ∧
      tw_at_once (wd_wheel x') = [] ∧ goes x x' A A' yc yc'.
Proof.
  revert x A o yc. induction n as [|n IH]; intros x A o yc Hst Hpos Hnow Hbc Hn.
  { destruct (decide _); lia. }
  cbn [bump_loop]. destruct (Z.eqb_spec (tw_nto (wd_wheel x)) 0) as [Hz|Hz].
  { destruct (empty_wheel_returned curr_time bump_to x x A A o yc yc Hst Hz ltac:(lia) Hbc) as [A' ?];
      [by apply goes_refl|]. by eexists _, _, true, A'. }
  destruct (settled_pos _ _ _ Hst) as (Hs & six & Hl). set (t := wd_wheel x) in *.
  destruct (at_once_loop_live (Z.to_nat yc) x A (λ _, False) six (tw_pos t) yc Hl eq_refl)
    as (x1 & yc1 & b1 & A1 & -> & Hl1 & Hp1 & Hs1 & H1); [lia|lia|]. rewrite bind_Ok.
  assert (settled (wd_wheel x1) A1 (tw_pos t)) as Hst1.
  { split; [|by exists six]. fold t in Hs1. rewrite Hs in Hs1. simpl in Hs1.
    destruct (tw_sentinel (wd_wheel x1)); [done|simpl in Hs1; lia]. }
  destruct b1.
  { destruct H1 as (Hy & Hu & Hyc & Hg). exists x1, yc1, true, A1. split; [done|]. split.
    - split; [lia|]. left. rewrite Hy. split_and!; [done|by rewrite Hp1|]. split; [|done].
      destruct Hu as [-> _]. done.
    - split; [lia|]. right. by rewrite Hy. }
  destruct H1 as (Ho1 & _ & Hg1). rewrite Z.geb_leb, Hp1.
  destruct (Z.leb_spec bump_to (tw_pos t)) as [Hge|Hlt].
  { exists x1, yc1, false, A1. split; [done|]. assert (tw_pos t = bump_to) as Eb by lia.
    rewrite Hp1, <- Eb. split; [done|]. by split_and!. }
  destruct (Z.eqb_spec (tw_nto (wd_wheel x1)) 0) as [Hz1|Hz1].
  { destruct (empty_wheel_returned curr_time bump_to x x1 A A1 _ yc yc1 Hst1 Hz1 ltac:(lia) Hbc Hg1) as [A' ?].
    by eexists _, _, true, A'. }
  destruct (skip_to_spec (wd_wheel x1) bump_to) as (pos' & -> & Hpos' & Ha').
  { by destruct Hl1. }
  { by eapply calm_above, settled_calm. }
  { lia. }
  change (set_pos (set_pos (wd_wheel x1) pos') bump_to) with (set_pos (wd_wheel x1) bump_to).
  change (tw_pos (set_pos (wd_wheel x1) pos')) with pos'.
  set (slots := if bump_to - pos' <? ERTS_TIW_SIZE then bump_to - pos' else ERTS_TIW_SIZE).
  destruct (slots_loop_live (Z.to_nat slots) (upd x1 (set_pos (wd_wheel x1) bump_to)) A1 (slot_of (pos' + 1)) six
    slots (tw_pos t) yc1 bump_to) as (x2 & yc2 & b2 & A2 & -> & Hp2 & H2).
  { apply live_advance; [done|lia|]. intros p tm Hp H0 Hle.
    rewrite (tr_slot _ _ _ _ _ (lv_rel _ _ _ _ _ _ Hl1) p tm Hp H0). apply window_due.
    specialize (Ha' p tm Hp H0). lia. }
  { by destruct Hst1. }
  { apply slot_of_range. }
  { lia. }
  { done. }
  { done. }
  rewrite bind_Ok.
  assert (∀ yc yc' A0 A', goes (upd x1 (set_pos (wd_wheel x1) bump_to)) x2 A0 A' yc yc' → goes x1 x2 A0 A' yc yc')
    as Hup by (intros ? ? ? ? (evs & ? & ? & ?); by exists evs).
  destruct b2.
  { destruct H2 as (Hy & Hyc & Hg2). exists x2, yc2, true, A2. split; [done|]. split.
    - split; [lia|]. right. exists (tw_pos t). split; [lia|done].
    - split; [lia|]. right. destruct Hy as (Hy & _). split_and!; [|done|by eapply goes_trans; eauto].
      unfold ERTS_TWHEEL_SLOT_INACTIVE. lia. }
  destruct H2 as (Hst2 & Hg2).
  destruct (IH x2 A2 (tw_pos t) yc2 Hst2) as (x' & yc' & b & A' & E' & H').
  { lia. }
  { done. }
  { done. }
  { rewrite decide_False by lia. rewrite decide_True in Hn by lia. lia. }
  exists x', yc', b, A'. split; [done|]. pose proof (goes_trans _ _ _ _ _ _ _ _ _ Hg1 (Hup _ _ _ _ Hg2)) as Hg.
  destruct b.
  - destruct H' as (? & ? & [(? & ? & ?)|(? & ? & ?)]); (split; [done|]); (split; [done|]); [left|right];
      (split_and!; [done|done|by eapply goes_trans]).
  - destruct H' as (? & ? & ? & ?). split; [done|]. split_and!; [done|done|by eapply goes_trans].
Qed.
End Bump.
