(* ===== verification/TimerNext.v ===== *)
(** The search for the next timeout ([find_next_timeout]), and [erts_bump_timers] as a
    whole. *)
From S2P Require Import Prelude TimerWheel TimerInv TimerBump.

(** * One slot *)

Definition timeout_at (tms : gmap Z ErtsTWheelTimer) (p q : Z) : Prop :=
  ∃ tm, tms !! p = Some tm ∧ t_timeout_pos tm = q.

Lemma scan_slot_spec tms l m0 tr0 sp :
  (∀ p, p ∈ l → is_Some (tms !! p)) →
  ∃ m tr found, scan_slot tms l m0 tr0 sp = Ok (m, tr, found) ∧
    if found : bool then tr = true ∧ m < m0 ∧ m <= sp ∧ ∃ p, p ∈ l ∧ timeout_at tms p m
    else (∀ p q, p ∈ l → timeout_at tms p q → m <= q) ∧
      ((tr = tr0 ∧ m = m0) ∨ (tr = true ∧ sp < m < m0 ∧ ∃ p, p ∈ l ∧ timeout_at tms p m)).
Proof.
  revert m0 tr0. induction l as [|p l IH]; intros m0 tr0 Hl; simpl.
  { exists m0, tr0, false. split; [done|]. split; [|by left]. by intros p q ?%elem_of_nil. }
  destruct (Hl p) as [tm Htm]; [set_solver|]. rewrite Htm, Z.gtb_ltb.
  assert (timeout_at tms p (t_timeout_pos tm)) as Hat by (by exists tm).
  assert (∀ q, timeout_at tms p q → q = t_timeout_pos tm) as Hfun.
  { intros q (tm' & ? & <-). congruence. }
  assert (∀ p', p' ∈ l → is_Some (tms !! p')) as Hl' by (intros; apply Hl; set_solver).
  destruct (Z.ltb_spec (t_timeout_pos tm) m0) as [Hlt|Hge].
  - destruct (Z.leb_spec (t_timeout_pos tm) sp) as [Hle|Hgt].
    { eexists _, true, true. split; [done|]. split_and!; try done. exists p. split; [set_solver|done]. }
    destruct (IH (t_timeout_pos tm) true Hl') as (m & tr & f & -> & Hf). exists m, tr, f. split; [done|].
    destruct f.
    + destruct Hf as (? & ? & ? & p' & ? & ?). split_and!; [done|lia|done|]. exists p'. split; [set_solver|done].
    + destruct Hf as [Hall Hc]. split.
      * intros p' q Hp' Hq. apply elem_of_cons in Hp' as [->|Hp']; [|by eauto].
        apply Hfun in Hq as ->. destruct Hc as [[_ ->]|(_ & ? & _)]; lia.
      * right. destruct Hc as [[-> ->]|(-> & ? & p' & ? & ?)].
        -- split_and!; try done. exists p. split; [set_solver|done].
        -- split_and!; try done; try lia. exists p'. split; [set_solver|done].
  - destruct (IH m0 tr0 Hl') as (m & tr & f & -> & Hf). exists m, tr, f. split; [done|].
    destruct f.
    + destruct Hf as (? & ? & ? & p' & ? & ?). split_and!; [done|lia|done|]. exists p'. split; [set_solver|done].
    + destruct Hf as [Hall Hc]. split.
      * intros p' q Hp' Hq. apply elem_of_cons in Hp' as [->|Hp']; [|by eauto].
        apply Hfun in Hq as ->. destruct Hc as [[_ ->]|(_ & ? & _)]; lia.
      * destruct Hc as [?|(-> & ? & p' & ? & ?)]; [by left|]. right. split_and!; try done; try lia.
        exists p'. split; [set_solver|done].
Qed.

(** * All slots *)

Section Scan.
Context (t : ErtsTimerWheel) (A : gmap Z Z) (Hst : calm t A).

(** [due_at q]: a timer with a slot times out at [q]. *)
Definition due_at (q : Z) : Prop :=
  ∃ p tm, tw_timers t !! p = Some tm ∧ 0 <= t_slot tm ∧ t_timeout_pos tm = q.

Lemma due_at_pos q : due_at q → tw_pos t < q.
Proof. intros (p & tm & Hp & H0 & <-). by eapply calm_above. Qed.

(** The slot of a timeout holds it. *)
Lemma due_at_slot q : due_at q → ∃ p, p ∈ wslot t (slot_of q) ∧ timeout_at (tw_timers t) p q.
Proof.
  intros (p & tm & Hp & H0 & <-). destruct Hst as (Hs & six & Hr).
  exists p. split; [|by exists tm]. rewrite <- (tr_slot _ _ _ _ _ Hr p tm Hp H0).
  destruct (proj2 (tr_wheel _ _ _ _ _ Hr (t_slot tm) p)) as [|[Hx _]]; [by eauto|done|].
  rewrite Hs in Hx. by apply elem_of_nil in Hx.
Qed.

Lemma wslot_due i p : p ∈ wslot t i → ∃ q, timeout_at (tw_timers t) p q ∧ due_at q ∧ slot_of q = i.
Proof.
  intros Hp. destruct Hst as (Hs & six & Hr).
  destruct (proj1 (tr_wheel _ _ _ _ _ Hr i p) (or_introl Hp)) as (H0 & tm & Htm & <-).
  exists (t_timeout_pos tm). split_and!; [by exists tm|by exists p, tm|].
  symmetry. by eapply tr_slot.
Qed.

(** A minimum that is a timeout stays one. *)
Lemma scan_slots_true n ix sp m m' tr' : scan_slots n t ix sp m true = Ok (m', tr') → tr' = true.
Proof.
  revert ix sp m. induction n as [|n IH]; intros ix sp m; cbn [scan_slots]; [by intros [= _ <-]|].
  destruct (_ >=? _); [by intros [= _ <-]|].
  intros ([[m1 tr1] found] & H1 & H2)%bind_Ok_inv.
  assert (tr1 = true) as ->.
  { revert m H1. induction (wslot t ix) as [|p l IHl]; intros m; simpl; [by intros [= _ <- _]|].
    destruct (tw_timers t !! p) as [tm|]; [|done]. destruct (_ >? _); [|apply IHl].
    destruct (_ <=? _); [by intros [= _ <- _]|apply IHl]. }
  destruct found; [by injection H2 as _ <-|by eapply IH].
Qed.

(** The search from [j] slots after the position, when what was seen so far allows the
    minimum [m]. *)
Lemma scan_slots_spec n j m tr :
  Z.of_nat n + j = 65536 → 0 <= j →
  (∀ q, due_at q → (q - tw_pos t) mod 65536 < j → m <= q) →
  (tr = true → tw_pos t + 65536 < m) →
  ¬ due_at (tw_pos t + 65536) ∨ m <= tw_pos t + 65536 →
  ∃ m' tr', scan_slots n t (slot_of (tw_pos t + j)) (tw_pos t + j) m tr = Ok (m', tr') ∧
    (∀ q, due_at q → m' <= q + if tr' : bool then 0 else 1) ∧ (m' = m ∨ (tr' = true ∧ due_at m')) ∧
    (tw_pos t + 65536 < m → ∀ q, due_at q → m' <= q).
Proof.
  revert j m tr. induction n as [|n IH]; intros j m tr Hn Hj Hseen Htr Hcond; cbn [scan_slots].
  { assert (∀ q, due_at q → m <= q) as Hm by (intros q Hq; apply Hseen; [done|dlia]).
    exists m, tr. split_and!; [done| |by left|done]. intros q Hq. specialize (Hm q Hq). destruct tr; lia. }
  rewrite Z.geb_leb. destruct (Z.leb_spec m (tw_pos t + j + 1)) as [Hle|Hgt].
  { exists m, tr. split_and!; [done| |by left|lia]. intros q Hq. destruct tr; [specialize (Htr eq_refl); lia|].
    pose proof (due_at_pos q Hq). destruct (Z.lt_ge_cases ((q - tw_pos t) mod 65536) j) as [Hlt|Hge].
    - specialize (Hseen q Hq Hlt). lia.
    - dlia. }
  destruct (scan_slot_spec (tw_timers t) (wslot t (slot_of (tw_pos t + j))) m tr (tw_pos t + j + 1))
    as (m1 & tr1 & found & -> & Hf).
  { intros p Hp. destruct (wslot_due _ p Hp) as (q & (tm & -> & _) & _). by eexists. }
  rewrite bind_Ok.
  assert (Hslot : ∀ q, slot_of q = slot_of (tw_pos t + j) → (q - tw_pos t) mod 65536 = j).
  { intros q. rewrite !slot_of_mod. intros. dlia. }
  destruct found.
  - destruct Hf as (-> & Hm & Hsp & p & Hp & Hat). exists m1, true.
    destruct (wslot_due _ p Hp) as (q1 & Hat1 & Hdue1 & Hs1).
    assert (q1 = m1) as -> by (destruct Hat as (? & ? & <-), Hat1 as (? & ? & <-); congruence).
    apply Hslot in Hs1. pose proof (due_at_pos m1 Hdue1) as Hpos1.
    assert (m1 = tw_pos t + j) as Em by dlia.
    assert (∀ q, due_at q → m1 <= q) as Hm1; [|split_and!; [done| |by right|done]; intros q Hq; specialize (Hm1 q Hq); lia].
    intros q Hq. pose proof (due_at_pos q Hq).
    destruct (Z.lt_ge_cases ((q - tw_pos t) mod 65536) j) as [Hlt|Hge].
    + specialize (Hseen q Hq Hlt). lia.
    + dlia.
  - destruct Hf as [Hall Hc].
    replace (next_ix (slot_of (tw_pos t + j))) with (slot_of (tw_pos t + (j + 1))).
    2:{ rewrite next_ix_mod by apply slot_of_range. rewrite !slot_of_mod. dlia. }
    replace (tw_pos t + j + 1) with (tw_pos t + (j + 1)) by lia.
    assert (m1 <= m) by (destruct Hc as [[_ ->]|(_ & ? & _)]; lia).
    assert (tr1 = true → tw_pos t + 65536 < m1) as Htr1.
    { destruct Hc as [[-> ->]|(_ & Hm & p & Hp & Hat)]; [done|]. intros _.
      destruct (wslot_due _ p Hp) as (q1 & Hat1 & Hdue1 & Hs1).
      assert (q1 = m1) as -> by (destruct Hat as (? & ? & <-), Hat1 as (? & ? & <-); congruence).
      apply Hslot in Hs1. assert (tw_pos t + 65536 <= m1) by dlia.
      destruct Hcond as [Hno|]; [|lia]. assert (m1 ≠ tw_pos t + 65536) by congruence. lia. }
    destruct (IH (j + 1) m1 tr1) as (m' & tr' & E' & H1 & H2 & H3);
      [lia|lia| |done|destruct Hcond; [by left|right; lia]|].
    2:{ exists m', tr'. split_and!; [done|done| |].
      - destruct H2 as [-> |?]; [|by right]. destruct Hc as [[_ ->]|(-> & _ & p & Hp & Hat)]; [by left|]. right.
        split; [by eapply scan_slots_true|]. destruct (wslot_due _ p Hp) as (q1 & (tm1 & ? & <-) & Hdue1 & _).
        destruct Hat as (tm & ? & <-). by replace tm with tm1 by congruence.
      - intros Hm. apply H3. destruct Hc as [[_ ->]|(-> & _)]; [done|by apply Htr1]. }
    intros q Hq Hlt. destruct (Z.lt_ge_cases ((q - tw_pos t) mod 65536) j) as [Hlt'|Hge].
    + specialize (Hseen q Hq Hlt'). lia.
    + destruct (due_at_slot q Hq) as (p & Hp & Hat). apply (Hall p q); [|done].
      replace (slot_of (tw_pos t + j)) with (slot_of q); [done|]. rewrite !slot_of_mod. dlia.
Qed.
End Scan.

(** An empty wheel has nothing due. *)
Lemma calm_none t A q : calm t A → tw_nto t = 0 → ¬ due_at t q.
Proof.
  intros (Hs & six & Hr) Hn (p & tm & Htm & H0 & _). rewrite (tr_nto _ _ _ _ _ Hr) in Hn.
  assert (A = ∅) as -> by (apply map_size_empty_iff; lia).
  pose proof (tr_map _ _ _ _ _ Hr p) as Hm. rewrite lookup_empty in Hm. rewrite (Hm tm Htm) in H0. done.
Qed.

(** The search in a settled wheel.  A search of the whole wheel is right unless a timer
    times out exactly one turn ahead. *)
Lemma find_next_calm t A search_all limit :
  calm t A → 0 <= tw_pos t →
  match search_all with
  | Some now => ¬ due_at t (tw_pos t + 65536)
  | None => tw_pos t < tick limit <= tw_pos t + 65536
  end →
  ∃ t' time, find_next_timeout t search_all limit = Ok (t', time) ∧
    settled t' A (tw_pos t') ∧ time = tw_next t' ∧
    tw_pos t' = match search_all with
      | Some now => if tw_nto t =? 0 then tick now else tw_pos t
      | None => tw_pos t
      end ∧
    tw_yield_slot t' = tw_yield_slot t ∧ tw_at_once t' = tw_at_once t ∧
    (tw_true_next t' = false → mono (tw_pos t') < tw_next t') ∧
    (is_Some search_all → ∀ q, due_at t q → time <= mono q) ∧
    (time = mono (tw_pos t' + tick ERTS_MONOTONIC_DAY) ∨ search_all = None ∨ ∃ q, due_at t q ∧ time = mono q).
Proof.
  intros Hst Hpos Hcond. unfold find_next_timeout. destruct (Z.eqb_spec (tw_nto t) 0) as [Hz|Hz].
  { assert (∀ q, ¬ due_at t q) as Hno by (intros q; by eapply calm_none).
    assert (∀ x, mono x < mono (x + tick ERTS_MONOTONIC_DAY)) as Hday
      by (intros x; apply mono_lt; change (tick ERTS_MONOTONIC_DAY) with 86400000; lia).
    rewrite bind_Ok. eexists _, _. split; [done|].
    destruct search_all as [now|]; cbn [tw_pos set_next set_pos].
    - destruct (calm_empty t A (tick now) (mono (tick now + tick ERTS_MONOTONIC_DAY))
        (tw_yield_slot t) Hst Hz) as [-> Hs].
      split; [|split_and!; try done; [intros _ q Hq; by destruct (Hno q)|by left]].
      replace (set_next _ _ _) with
        (set_yield_slot (set_pos (set_next t false (mono (tick now + tick ERTS_MONOTONIC_DAY))) (tick now))
           (tw_yield_slot t)); [done|]. by destruct t.
    - destruct (calm_empty t A (tw_pos t) (mono (tw_pos t + tick ERTS_MONOTONIC_DAY))
        (tw_yield_slot t) Hst Hz) as [-> Hs].
      split; [|split_and!; try done; by left].
      replace (set_next _ _ _) with
        (set_yield_slot (set_pos (set_next t false (mono (tw_pos t + tick ERTS_MONOTONIC_DAY))) (tw_pos t))
           (tw_yield_slot t)); [done|]. by destruct t. }
  set (m0 := match search_all with Some _ => _ | None => _ end).
  assert (tw_pos t < m0) as Hm0.
  { subst m0. change (tick ERTS_MONOTONIC_DAY) with 86400000. destruct search_all; lia. }
  destruct (scan_slots_spec t A Hst (Z.to_nat ERTS_TIW_SIZE) 0 m0 false) as (m & tr & E & Hm & Htr & Hall).
  { done. }
  { done. }
  { intros q _ Hq. exfalso. dlia. }
  { done. }
  { subst m0. destruct search_all; [by left|right; lia]. }
  rewrite Z.add_0_r in E. rewrite E, !bind_Ok. eexists _, _. split; [done|].
  split; [|split_and!; [done|by destruct search_all|done|done| | |]].
  2:{ simpl. intros ->. apply mono_lt. by destruct Htr as [-> |[]]. }
  2:{ intros [now ->] q Hq. apply mono_le, Hall; [|done]. subst m0.
      change (tick ERTS_MONOTONIC_DAY) with 86400000. lia. }
  2:{ destruct Htr as [-> |[_ Hd]]; [|by eauto]. subst m0. destruct search_all; by auto. }
  pose proof (calm_above t A Hst) as Ha. destruct Hst as (Hs & six & Hr). split; [done|]. exists six.
  constructor; [by destruct Hr|done| |done]. intros p tm Hp H0. simpl. apply mono_le, Hm.
  by exists p, tm.
Qed.

(** * The whole function *)

Lemma wheel_ok_create mtime : 0 <= mtime → wheel_ok (erts_create_timer_wheel mtime) ∅.
Proof.
  intros Hm. assert (0 <= tick mtime) as Hp by (apply Z.quot_pos; done).
  assert (prompt (erts_create_timer_wheel mtime)) as Hpr.
  { apply prompt_settled; [done|]. intros _. simpl. pose proof (mono_tick mtime Hm).
    unfold ERTS_MONOTONIC_DAY, ERTS_SEC_TO_MONOTONIC. lia. }
  split; [done|]. left. split; [done|]. split; [|done]. split; [done|]. exists 0.
  constructor; [constructor; simpl; try done|done|done|done].
  - intros p. rewrite lookup_empty. intros tm. by rewrite lookup_empty.
  - intros p. split; [by intros ?%elem_of_nil|]. by intros (tm & ? & _).
  - intros i p. unfold wslot. simpl. split; [|by intros (_ & tm & ? & _)].
    intros [?%elem_of_nil|[?%elem_of_nil _]]; done.
  - split_and!; [constructor..|]. intros i. unfold wslot. simpl. constructor.
  - intros p ?%elem_of_nil. done.
Qed.

Section Main.
Context {E : Type} (timeout : E → ErtsTimerWheel → Z → E * list tw_op).
Context (Hcb : ∀ e t p, is_Ok (run_ops t (timeout e t p).2)).
Context (allowed : tevent → Prop) (Hfire : ∀ p, allowed (Ev_fire p)).
Context (Hall : ∀ e t p t' evs, run_ops t (timeout e t p).2 = Ok (t', evs) → Forall allowed evs).
Context (curr_time : Z).
Abbreviation now := (tick curr_time).

(** What a call has done when it returns [x']. *)
Definition bumped (x x' : world (E := E)) (A : gmap Z Z) (yc : Z) : Prop :=
  ∃ A' yc', wheel_ok (wd_wheel x') A' ∧ tw_pos (wd_wheel x') <= now ∧ goes allowed now x x' A A' yc yc' ∧
    ((tw_yield_slot (wd_wheel x') = inactive ∧ ∀ p q, A' !! p = Some q → now < q) ∨
     (tw_yield_slot (wd_wheel x') ≠ inactive ∧ yc' <= 1)).

Lemma returned_bumped x x' A A' yc yc' : returned allowed now x x' A A' yc yc' → bumped x x' A yc.
Proof.
  intros (Hok & Hpn & [(Hy & -> & Hg)|(Hy & Hyc & Hg)]).
  - exists ∅, yc'. split; [done|]. split; [done|]. split; [done|]. left. split; [done|]. intros p q Hq.
    by rewrite lookup_empty in Hq.
  - exists A', (yc' + 1). split; [done|]. split; [done|]. split; [done|]. right. split; [done|lia].
Qed.

Lemma bump_fresh_bumped x A o yc :
  0 <= curr_time → settled (wd_wheel x) A o → 0 <= tw_pos (wd_wheel x) <= now →
  ∃ x', bump_fresh timeout curr_time x yc = Ok x' ∧ bumped x x' A yc.
Proof.
  intros Hc Hst Hpos. unfold bump_fresh.
  destruct (bump_loop_live timeout Hcb allowed Hfire Hall now 2 curr_time now x A o yc Hst Hpos) as (x1 & yc1 & b & A1 & -> & H1).
  { lia. }
  { by apply mono_tick. }
  { destruct (decide _); lia. }
  rewrite bind_Ok. destruct b.
  { exists x1. split; [done|]. by eapply returned_bumped. }
  destruct H1 as (Hst1 & Hp1 & Ho1 & Hg). unfold bump_end.
  set (t1 := set_next (set_yield_slot (wd_wheel x1) inactive) false (curr_time + ERTS_MONOTONIC_DAY)).
  assert (calm t1 A1) as Hcalm.
  { apply settled_calm in Hst1 as (Hs & six & Hr). split; [done|]. exists six. by destruct Hr. }
  destruct (find_next_calm t1 A1 None (curr_time + ERTS_SEC_TO_MONOTONIC 2) Hcalm)
    as (t' & time & -> & Hst' & _ & Hp' & Hy' & Ho' & Hb' & _ & _).
  { simpl. lia. }
  { simpl. rewrite Hp1. unfold ERTS_MONOTONIC_TO_CLKTCKS.
    change (Z.quot ERTS_MONOTONIC_TIME_UNIT ERTS_CLKTCK_RESOLUTION) with 1000000.
    unfold ERTS_SEC_TO_MONOTONIC. rewrite !Z.quot_div_nonneg by lia. dlia. }
  assert (tw_pos t' = now) as Ept by (by rewrite Hp').
  assert (wheel_ok t' A1) as Hok.
  { split; [lia|]. left. split; [by rewrite Hy'|]. split; [done|]. apply prompt_settled; [by rewrite Ho'|done]. }
  rewrite bind_Ok. eexists. split; [done|]. exists A1, yc1. split; [done|]. split; [simpl; lia|]. split.
  - by destruct Hg as (evs & ? & ? & ?); exists evs.
  - left. split; [done|]. intros p q Hq. pose proof (settled_calm _ _ _ Hst') as Hc'.
    pose proof (calm_above _ _ Hc') as Ha. destruct Hc' as (Hs & six & Hr).
    pose proof (tr_map _ _ _ _ _ Hr p) as Hm. rewrite Hq in Hm. destruct Hm as (tm & Htm & [[H0 <-]|[H0 _]]).
    + specialize (Ha p tm Htm H0). lia.
    + exfalso. assert (p ∈ tw_at_once t') as Hin by (apply (tr_once _ _ _ _ _ Hr); eauto).
      rewrite Ho' in Hin. simpl in Hin. rewrite Ho1 in Hin. by apply elem_of_nil in Hin.
Qed.

(** Work left by a yield is finished first. *)
Lemma bump_resumed x A o :
  0 <= curr_time → yielded_in (wd_wheel x) A o → - 2 ^ 31 <= o → 0 <= tw_pos (wd_wheel x) <= now →
  ∃ x', erts_bump_timers timeout x curr_time = Ok x' ∧ bumped x x' A ERTS_TWHEEL_BUMP_YIELD_LIMIT.
Proof.
  intros Hc (Hys & Hsl & Hst & Hu & Hl) Ho Hpos. unfold erts_bump_timers. rewrite Z.geb_leb.
  set (t := wd_wheel x) in *. destruct (Z.leb_spec 0 (tw_yield_slot t)); [|lia].
  assert (to_int o <= o ∧ - 2 ^ 31 <= to_int o) as [Hoo Hoo2].
  { pose proof (swrap_range 32 o ltac:(lia)) as Hr. change (32 - 1) with 31 in Hr. fold (to_int o) in Hr.
    split; [|lia]. destruct (Z.le_gt_cases o INT_MAX); [rewrite to_int_small; lia|unfold INT_MAX in *; lia]. }
  rewrite Hst. set (o' := to_int o) in *.
  assert (live t A (window (next_ix (tw_yield_slot t)) (tw_yield_slots_left t - 1)) (tw_yield_slot t) 0 o') as Hl'.
  { destruct Hl as [Hr Ha Hn Hf]. constructor; [done| |done|lia].
    intros p tm Hp H0. specialize (Ha p tm Hp H0). lia. }
  assert (Hyield : ∀ x1 A1 yc1, yielded_in (wd_wheel x1) A1 o' → tw_pos (wd_wheel x1) = tw_pos t → yc1 <= 0 →
    goes allowed now x x1 A A1 ERTS_TWHEEL_BUMP_YIELD_LIMIT (yc1 + 1) → bumped x x1 A ERTS_TWHEEL_BUMP_YIELD_LIMIT).
  { intros x1 A1 yc1 Hy Hp Hyc Hg. exists A1, (yc1 + 1). split; [|split; [lia|split; [done|]]].
    - split; [lia|]. right. by exists o'.
    - right. destruct Hy as (Hy & _). unfold ERTS_TWHEEL_SLOT_INACTIVE. lia. }
  destruct (restart_slot_live timeout Hcb allowed Hfire Hall now (length (tw_sentinel t)) (tw_yield_slots_left t) x A _
    (tw_yield_slot t) o' ERTS_TWHEEL_BUMP_YIELD_LIMIT (tw_pos t) Hl')
    as (x1 & yc1 & b1 & A1 & -> & Hl1 & Hp1 & H1); [done|lia|done|]. rewrite bind_Ok. destruct b1.
  { destruct H1 as (E1 & E2 & E3 & Hu1 & Hyc & Hg). exists x1. split; [done|].
    eapply Hyield; [|done|done|done]. unfold yielded_in. rewrite E1, E2. split_and!; try lia; try done. }
  destruct H1 as (Hs1 & _ & Hg1).
  destruct (slots_loop_live timeout Hcb allowed Hfire Hall now (Z.to_nat (tw_yield_slots_left t - 1)) x1 A1
    (next_ix (tw_yield_slot t)) (tw_yield_slot t) (tw_yield_slots_left t - 1) o' yc1 (tw_pos t) Hl1 Hs1)
    as (x2 & yc2 & b2 & A2 & -> & Hp2 & H2); [|lia|lia|lia|].
  { rewrite next_ix_mod by done. dlia. }
  rewrite bind_Ok. destruct b2.
  { destruct H2 as (Hy & Hyc & Hg). exists x2. split; [done|].
    eapply Hyield; [done|done|done|]. by eapply goes_trans. }
  destruct H2 as (Hst2 & Hg2).
  destruct (bump_loop_live timeout Hcb allowed Hfire Hall now 2 curr_time (tw_pos t) x2 A2 o' yc2 Hst2)
    as (x3 & yc3 & b3 & A3 & -> & H3); [lia|lia|etrans; [apply mono_le|by apply mono_tick]; lia|destruct (decide _); lia|]. rewrite bind_Ok.
  pose proof (goes_trans _ _ _ _ _ _ _ _ _ _ _ Hg1 Hg2) as Hg12. destruct b3.
  { exists x3. split; [done|]. destruct H3 as (Hok & Hpn & [(Hy & -> & Hg)|(Hy & Hyc & Hg)]);
      eapply returned_bumped; (split; [done|]); (split; [done|]); [left|right]; (split_and!; [done|done|by eapply goes_trans]). }
  destruct H3 as (Hst3 & Hp3 & _ & Hg3).
  destruct (bump_fresh_bumped x3 A3 (tw_pos t) yc3 Hc Hst3 ltac:(lia)) as (x' & -> & A' & yc' & Hok & Hpn & Hg & Hend).
  exists x'. split; [done|]. exists A', yc'. split; [done|]. split; [done|]. split; [|done].
  eapply goes_trans; [|done]. by eapply goes_trans.
Qed.

Lemma bump_timers_bumped x A :
  0 <= curr_time → wheel_ok (wd_wheel x) A → tw_pos (wd_wheel x) <= now →
  ∃ x', erts_bump_timers timeout x curr_time = Ok x' ∧ bumped x x' A ERTS_TWHEEL_BUMP_YIELD_LIMIT.
Proof.
  intros Hc (Hp & [(Hy & Hst & _)|(o & Ho & Hy)]) Hnow; [|by eapply bump_resumed].
  unfold erts_bump_timers. rewrite Z.geb_leb. destruct (Z.leb_spec 0 (tw_yield_slot (wd_wheel x))); [lia|].
  by eapply bump_fresh_bumped.
Qed.
End Main.
