(* ===== verification/TimerProps.v ===== *)
(** Properties of the timer wheel: it follows a map of timeouts, fires what is due and
    nothing else, finishes its work when called again, and reports the next timeout. *)
From S2P Require Import Prelude TimerWheel TimerInv TimerBump TimerNext.

(** Operations between calls keep the wheel in order. *)
Lemma run_ops_ok t A now ops t' evs :
  wheel_ok t A → run_ops t ops = Ok (t', evs) →
  ∃ A', replay now A evs = Some A' ∧ wheel_ok t' A'.
Proof.
  intros (Hp & Hcase) Hops. destruct (run_ops_next _ _ _ _ Hops) as [Hu Hpr].
  destruct Hcase as [(Hy & (Hs & six & Hl) & Hb)|(o & Ho & Hy & Hsl & Hst & Hur & Hl)];
    destruct (live_run_ops _ _ _ _ _ _ now _ _ _ Hl Hops) as (A' & E & Hl' & (F1 & F2 & F3 & F4 & F5) & _);
    exists A'; (split; [done|]); (split; [lia|]).
  - left. split; [lia|]. split; [|by apply Hpr]. rewrite Hs in F5. split; [|exists six; by rewrite F1].
    destruct (tw_sentinel t'); [done|simpl in F5; lia].
  - right. exists o. split; [done|]. unfold yielded_in. rewrite F2, F3, F4. by split_and!; try lia; auto.
Qed.

(** * The wheels of a program *)

(** A search of the whole wheel starts when no timer times out exactly one turn of the wheel
    after its position.  (A known next time is returned without a search.) *)
Definition no_full_turn (t : ErtsTimerWheel) : Prop :=
  tw_true_next t = true ∨ ¬ due_at t (tw_pos t + ERTS_TIW_SIZE).

(** [reached t A]: a wheel that a program can have, and the timeouts of its active timers.
    It creates the wheel, sets and cancels timers, calls [erts_bump_timers] with callbacks
    that set only inactive timers and with times that do not go back, and asks for the next
    timeout, with [no_full_turn]. *)
Inductive reached : ErtsTimerWheel → gmap Z Z → Prop :=
| reached_create mtime : 0 <= mtime → reached (erts_create_timer_wheel mtime) ∅
| reached_ops t A ops t' evs A' :
    reached t A → run_ops t ops = Ok (t', evs) → replay 0 A evs = Some A' → reached t' A'
| reached_bump E (timeout : E → ErtsTimerWheel → Z → E * list tw_op) x A curr_time x' evs A' :
    (∀ e t p, is_Ok (run_ops t (timeout e t p).2)) →
    reached (wd_wheel x) A → 0 <= curr_time →
    tw_pos (wd_wheel x) <= ERTS_MONOTONIC_TO_CLKTCKS curr_time →
    erts_bump_timers timeout x curr_time = Ok x' → wd_log x' = wd_log x ++ evs →
    replay (ERTS_MONOTONIC_TO_CLKTCKS curr_time) A evs = Some A' → reached (wd_wheel x') A'
| reached_next t A now t' time :
    reached t A → 0 <= now → no_full_turn t →
    erts_check_next_timeout_time t now = Ok (t', time) → reached t' A.

(** The answer to the question for the next timeout. *)
Lemma check_next_ok t A now :
  wheel_ok t A → 0 <= now → no_full_turn t →
  ∃ t' time, erts_check_next_timeout_time t now = Ok (t', time) ∧ wheel_ok t' A ∧
    (∀ p q, A !! p = Some q → time <= mono (Z.max q (tw_pos t))) ∧
    (tw_true_next t = false → time = mono (tw_pos t' + tick ERTS_MONOTONIC_DAY) ∨
       ∃ p q, A !! p = Some q ∧ time = mono q).
Proof.
  intros Hok Hnow Hturn. unfold erts_check_next_timeout_time. destruct (tw_true_next t) eqn:Etr.
  { exists t, (tw_next t). split_and!; [done|done| |done]. intros p q Hq.
    destruct Hok as (_ & [(_ & (_ & six & [Hr _ Hn _]) & Hpr)|(o & _ & _ & _ & _ & Hu & _)]).
    2:{ etrans; [apply Hu|]. apply mono_le. lia. }
    pose proof (tr_map _ _ _ _ _ Hr p) as Hm. rewrite Hq in Hm. destruct Hm as (tm & Htm & [[H0 <-]|[H0 Hle]]).
    - specialize (Hn p tm Htm H0). rewrite Etr, Z.add_0_r in Hn. etrans; [exact Hn|]. apply mono_le. lia.
    - assert (p ∈ tw_at_once t) as Hin by (apply (tr_once _ _ _ _ _ Hr); eauto).
      etrans; [apply Hpr|apply mono_le; lia]. intros E. rewrite E in Hin. by apply elem_of_nil in Hin. }
  destruct Hok as (Hp & [(Hy & Hst & Hpr)|(o & _ & _ & _ & _ & [Hu _] & _)]); [|congruence].
  assert (tw_at_once t = []) as Eo.
  { destruct (tw_at_once t) eqn:E; [done|]. destruct Hpr as [_ Hu]. destruct Hu as [Hu _]; congruence. }
  destruct Hturn as [|Hturn]; [congruence|]. pose proof (settled_calm _ _ _ Hst) as Hcalm.
  destruct (find_next_calm t A (Some now) 0 Hcalm Hp Hturn)
    as (t' & time & -> & Hst' & Et & Hp' & Hy' & Eo' & Hb' & Hle & Heq).
  assert (0 <= tick now) by (by apply Z.quot_pos). destruct Hcalm as (_ & six & Hr).
  assert (Hdue : ∀ p q, A !! p = Some q → due_at t q).
  { intros p q Hq. pose proof (tr_map _ _ _ _ _ Hr p) as Hm. rewrite Hq in Hm.
    destruct Hm as (tm & Htm & [[H0 <-]|[H0 _]]); [by exists p, tm|].
    assert (p ∈ tw_at_once t) as Hin by (apply (tr_once _ _ _ _ _ Hr); eauto).
    rewrite Eo in Hin. by apply elem_of_nil in Hin. }
  exists t', time. split; [done|]. split_and!.
  - split; [rewrite Hp'; by destruct (_ =? 0)|]. left. split; [lia|]. split; [done|].
    apply prompt_settled; [congruence|done].
  - intros p q Hq. etrans; [apply Hle; [by eexists|by eapply Hdue]|]. apply mono_le. lia.
  - intros _. destruct Heq as [?|[?|(q & (p & tm & Htm & H0 & <-) & ?)]]; [by left|done|right].
    pose proof (tr_map _ _ _ _ _ Hr p) as Hm. destruct (A !! p) as [q|] eqn:Eq.
    + exists p, q. split; [done|]. destruct Hm as (tm' & Htm' & Hc). assert (tm' = tm) as -> by congruence.
      destruct Hc as [[_ <-]|[Hs _]]; [done|]. rewrite Hs in H0. done.
    + rewrite (Hm tm Htm) in H0. done.
Qed.

Lemma reached_ok t A : reached t A → wheel_ok t A.
Proof.
  induction 1 as [mtime Hm|t A ops t' evs A' _ IH Hops Hr|E timeout x A curr_time x' evs A' Hcb _ IH Hc Hp E' El Hr
    |t A now t' time _ IH Hnow Hturn E'].
  - by apply wheel_ok_create.
  - destruct (run_ops_ok _ _ 0 _ _ _ IH Hops) as (A2 & Hr2 & ?). assert (A2 = A') as -> by congruence. done.
  - destruct (bump_timers_bumped timeout Hcb (λ _, True) ltac:(done) ltac:(intros; by apply Forall_true)
      curr_time x A Hc IH Hp) as (x2 & E2 & A2 & yc2 & Hok2 & _ & (ev2 & El2 & Hr2 & _) & _).
    assert (x2 = x') as -> by congruence. assert (ev2 = evs) as -> by (apply (app_inv_head (wd_log x)); congruence).
    assert (A2 = A') as -> by congruence. done.
  - destruct (check_next_ok t A now IH Hnow Hturn) as (t2 & time2 & E2 & ? & _). assert (t2 = t') as -> by congruence. done.
Qed.

(** A callback that counts, and sets its timer again. *)
Definition rearm (period : Z) (n : nat) (t : ErtsTimerWheel) (p : Z) : nat * list tw_op :=
  (S n, if is_inactive t p then [TInit p; TSet p (tw_pos t + period)] else []).

Lemma rearm_safe period n t p : is_Ok (run_ops t (rearm period n t p).2).
Proof.
  unfold rearm. simpl. destruct (is_inactive t p) eqn:Ei; [|by eexists]. cbn [run_ops run_op].
  unfold erts_twheel_init_timer. rewrite Ei. cbn [mbind res_bind]. unfold erts_twheel_set_timer.
  simpl tw_timers. rewrite lookup_insert_eq. simpl. destruct (_ <=? _); by eexists.
Qed.

(** A wheel with two timers, created at time 0. *)
Definition two_timers : ErtsTimerWheel :=
  match run_ops (erts_create_timer_wheel 0) [TInit 1; TInit 2; TSet 1 5; TSet 2 700] with
  | Ok (t, _) => t
  | _ => erts_create_timer_wheel 0
  end.

Lemma two_timers_reached : reached two_timers {[1 := 5; 2 := 700]}.
Proof.
  apply (reached_ops (erts_create_timer_wheel 0) ∅ [TInit 1; TInit 2; TSet 1 5; TSet 2 700]
    two_timers [Ev_set 1 5; Ev_set 2 700]); [by apply reached_create|by vm_compute|by vm_compute].
Defined.

(** C10: [erts_bump_timers] follows a map from the active timers to their timeouts.  In every
    state that a program can reach ([reached]: from a created wheel by setting and cancelling
    timers, by earlier calls, also ones that have yielded in the middle of a slot, and by
    asking for the next timeout, where a search of the wheel must not start while a timer
    times out exactly one turn, 65536 ticks, after the position), with a time that has not
    gone back, and whatever the timers' callbacks set and cancel, the call ends; what happened during the call (timers
    fired, set and cancelled, in order) is allowed on the map: a timer fires only when it is
    active and its timeout has been reached, and once.  Afterwards the wheel represents the
    resulting map and is again such a state, and either no active timer is due, or the call has yielded after firing
    at least 99 timers.  (The callbacks set only inactive timers.) *)
Theorem bump_timers_correct {E} (timeout : E → ErtsTimerWheel → Z → E * list tw_op) x A curr_time :
  (∀ e t p, is_Ok (run_ops t (timeout e t p).2)) →
  reached (wd_wheel x) A → 0 <= curr_time →
  tw_pos (wd_wheel x) <= ERTS_MONOTONIC_TO_CLKTCKS curr_time →
  ∃ x' evs A', erts_bump_timers timeout x curr_time = Ok x' ∧ wd_log x' = wd_log x ++ evs ∧
    replay (ERTS_MONOTONIC_TO_CLKTCKS curr_time) A evs = Some A' ∧ reached (wd_wheel x') A' ∧
    ((tw_yield_slot (wd_wheel x') = ERTS_TWHEEL_SLOT_INACTIVE ∧
        ∀ p q, A' !! p = Some q → ERTS_MONOTONIC_TO_CLKTCKS curr_time < q) ∨
     (tw_yield_slot (wd_wheel x') ≠ ERTS_TWHEEL_SLOT_INACTIVE ∧ 99 <= fires evs)).
Proof.
  intros Hcb Hreach Hc Hp. pose proof (reached_ok _ _ Hreach) as Hok.
  destruct (bump_timers_bumped timeout Hcb (λ _, True) ltac:(done) ltac:(intros; by apply Forall_true)
    curr_time x A Hc Hok Hp) as (x' & E' & A' & yc' & _ & _ & (evs & El & Hr & Hf & _) & Hend).
  exists x', evs, A'. split_and!; [done|done|done|by eapply (reached_bump E timeout x)|].
  destruct Hend as [?|[? ?]]; [by left|right]. split; [done|].
  unfold ERTS_TWHEEL_BUMP_YIELD_LIMIT in Hf. lia.
Qed.

Lemma bump_timers_correct_witness :
  ∃ x' evs A', erts_bump_timers (rearm 10) (mk_world two_timers 0%nat []) 5000000 = Ok x' ∧
    wd_log x' = evs ∧ evs = [Ev_fire 1; Ev_set 1 15] ∧ replay 5 {[1 := 5; 2 := 700]} evs = Some A' ∧
    A' !! 1 = Some 15.
Proof.
  destruct (bump_timers_correct (rearm 10) (mk_world two_timers 0%nat []) {[1 := 5; 2 := 700]} 5000000)
    as (x' & evs & A' & E & El & Hr & _).
  - apply rearm_safe.
  - apply two_timers_reached.
  - lia.
  - by vm_compute.
  - exists x', evs, A'. assert (evs = [Ev_fire 1; Ev_set 1 15]) as ->.
    { assert (wd_log <$> Some x' = Some [Ev_fire 1; Ev_set 1 15]) as Hx.
      { assert (match erts_bump_timers (rearm 10) (mk_world two_timers 0%nat []) 5000000 with
          | Ok x => Some (wd_log x) | _ => None end = Some [Ev_fire 1; Ev_set 1 15]) as Hv
          by (vm_compute; reflexivity). rewrite E in Hv. exact Hv. }
      simpl in Hx. injection Hx as Hx. rewrite El in Hx. exact Hx. }
    split_and!; [exact E|exact El|reflexivity|exact Hr|].
    revert Hr. change (ERTS_MONOTONIC_TO_CLKTCKS 5000000) with 5.
    assert (∀ X, replay 5 {[1 := 5; 2 := 700]} [Ev_fire 1; Ev_set 1 15] = Some X → X !! 1 = Some 15) as Hg;
      [|apply Hg]. intros X HX. vm_compute in HX. injection HX as <-. reflexivity.
Defined.

(** * Everything due fires *)

(** Calls with the same time until the work is done, at most [n] of them. *)
Fixpoint bump_until_done {E} (timeout : E → ErtsTimerWheel → Z → E * list tw_op) (n : nat)
    (x : world) (curr_time : Z) : res world :=
  match n with
  | O => Ok x
  | S n =>
      x ← erts_bump_timers timeout x curr_time;
      if tw_yield_slot (wd_wheel x) =? ERTS_TWHEEL_SLOT_INACTIVE then Ok x
      else bump_until_done timeout n x curr_time
  end.

Definition no_set (op : tw_op) : Prop := match op with TSet _ _ => False | _ => True end.
Definition not_set (ev : tevent) : Prop := match ev with Ev_set _ _ => False | _ => True end.

Lemma run_ops_not_set t ops t' evs :
  Forall no_set ops → run_ops t ops = Ok (t', evs) → Forall not_set evs.
Proof.
  intros Hops. revert t evs. induction Hops as [|op ops Hop _ IH]; intros t evs; simpl.
  { intros [= <- <-]. constructor. }
  intros ([t1 ev1] & H1 & ([t2 ev2] & H2 & [= <- <-])%bind_Ok_inv)%bind_Ok_inv.
  apply Forall_app. split; [|by eapply IH]. destruct op as [p|p q|p]; [| |]; simpl in H1; [|done|];
    apply bind_Ok_inv in H1 as (t3 & _ & [= <- <-]); [constructor|].
  destruct (is_inactive t p); by repeat constructor.
Qed.

(** Without settings the map only shrinks, by at least the timers fired, and what is
    gone was fired or cancelled. *)
Lemma replay_not_set now A evs A' :
  Forall not_set evs → replay now A evs = Some A' →
  A' ⊆ A ∧ Z.of_nat (size A') + fires evs <= Z.of_nat (size A) ∧
  ∀ p, is_Some (A !! p) → A' !! p = None → Ev_fire p ∈ evs ∨ Ev_cancel p ∈ evs.
Proof.
  intros Hev. revert A. induction Hev as [|ev evs Hev _ IH]; intros A; simpl.
  { intros [= <-]. split_and!; [done|change (fires []) with 0; lia|]. intros p [q Hq]. congruence. }
  destruct (replay1 now A ev) as [A1|] eqn:E1; simpl; [|done]. intros Hr.
  destruct (IH A1 Hr) as (Hsub & Hsz & Hgone).
  assert (∃ p, A1 = delete p A ∧ is_Some (A !! p) ∧ (ev = Ev_fire p ∨ ev = Ev_cancel p)) as (p & -> & Hp & Hcase).
  { destruct ev as [p q|p|p]; simpl in E1; [done|..]; destruct (A !! p) as [q|] eqn:Ep; try done;
      [|destruct (q <=? now); [|done]]; injection E1 as <-; exists p; eauto. }
  assert (size A ≠ 0%nat) by (intros Hz%map_size_empty_iff; subst A; destruct Hp; by rewrite lookup_empty in *).
  rewrite map_size_delete_Some in Hsz by done.
  assert (fires (ev :: evs) = (if is_fire ev then 1 else 0) + fires evs) as Hfs.
  { unfold fires. rewrite filter_cons. destruct (is_fire ev); [by rewrite decide_True, zlen_cons|].
    by rewrite decide_False. }
  split_and!.
  - etrans; [exact Hsub|apply delete_subseteq].
  - rewrite Hfs. destruct (is_fire ev); lia.
  - intros p' Hp' Hn. destruct (decide (p' = p)) as [->|Hne].
    + destruct Hcase as [-> | ->]; [left|right]; by constructor.
    + destruct (Hgone p') as [|]; [by rewrite lookup_delete_ne|done|left|right]; by constructor.
Qed.

(** C16: Every due timer fires.  In every state that a program can reach ([reached], as
    for [erts_bump_timers] above: searches for the next timeout have not started with a
    timer exactly one turn ahead), when callbacks set no new timers, calling
    [erts_bump_timers] again while it yields comes to an end: with [k] active timers,
    [k / 99 + 1] calls are enough.  Then every timer whose timeout has been reached has
    been fired or has been cancelled by a callback, and the others are still active. *)
Theorem timers_all_fire {E} (timeout : E → ErtsTimerWheel → Z → E * list tw_op) n x A curr_time :
  (∀ e t p, is_Ok (run_ops t (timeout e t p).2)) → (∀ e t p, Forall no_set (timeout e t p).2) →
  reached (wd_wheel x) A → 0 <= curr_time →
  tw_pos (wd_wheel x) <= ERTS_MONOTONIC_TO_CLKTCKS curr_time → Z.of_nat (size A) < 99 * Z.of_nat n →
  ∃ x' evs A', bump_until_done timeout n x curr_time = Ok x' ∧ wd_log x' = wd_log x ++ evs ∧
    tw_yield_slot (wd_wheel x') = ERTS_TWHEEL_SLOT_INACTIVE ∧ reached (wd_wheel x') A' ∧
    (∀ p q, A !! p = Some q → q <= ERTS_MONOTONIC_TO_CLKTCKS curr_time →
       Ev_fire p ∈ evs ∨ Ev_cancel p ∈ evs) ∧
    (∀ p q, A' !! p = Some q → A !! p = Some q ∧ ERTS_MONOTONIC_TO_CLKTCKS curr_time < q).
Proof.
  intros Hcb Hns. set (now := ERTS_MONOTONIC_TO_CLKTCKS curr_time).
  revert x A. induction n as [|n IH]; intros x A Hreach Hc Hp Hsz; [lia|]. cbn [bump_until_done].
  destruct (bump_timers_bumped timeout Hcb not_set ltac:(done)
    ltac:(intros e t p t' evs He; by eapply run_ops_not_set) curr_time x A Hc (reached_ok _ _ Hreach) Hp)
    as (x1 & E1 & A1 & yc1 & _ & Hp1 & (ev1 & El1 & Hr1 & Hf1 & Hs1) & Hend).
  assert (reached (wd_wheel x1) A1) as Hok1 by (by eapply (reached_bump E timeout x)).
  rewrite E1, bind_Ok.
  destruct (replay_not_set _ _ _ _ Hs1 Hr1) as (Hsub & Hsz1 & Hgone). pose proof (fires_nonneg ev1).
  assert (Hsome : ∀ p q, A1 !! p = Some q → A !! p = Some q) by (intros p q Hq; by eapply lookup_weaken).
  destruct Hend as [[Hy Hlate]|[Hy Hyc]].
  - rewrite Hy. simpl. exists x1, ev1, A1. split_and!; [done|done|done|done| |].
    + intros p q Hq Hle. apply Hgone; [by eexists|]. destruct (A1 !! p) as [q'|] eqn:Eq; [|done].
      pose proof (Hsome p q' Eq) as Hq'. pose proof (Hlate p q' Eq) as Hl'. rewrite Hq in Hq'.
      injection Hq' as ->. fold now in Hl'. lia.
    + intros p q Hq. split; [by apply Hsome|by apply (Hlate p)].
  - apply Z.eqb_neq in Hy. rewrite Hy. unfold ERTS_TWHEEL_BUMP_YIELD_LIMIT in Hf1.
    destruct (IH x1 A1 Hok1 Hc Hp1 ltac:(lia)) as (x' & ev2 & A' & E' & El2 & Hy2 & Hok2 & Hfired & Hleft).
    exists x', (ev1 ++ ev2), A'. rewrite El2, El1, app_assoc. split_and!; [done|done|done|done| |].
    + intros p q Hq Hle. rewrite !elem_of_app. destruct (A1 !! p) as [q'|] eqn:Eq.
      * pose proof (Hsome p q' Eq). simplify_eq. destruct (Hfired p q Eq Hle); auto.
      * destruct (Hgone p) as [|]; [by eexists|done|auto..].
    + intros p q Hq. destruct (Hleft p q Hq). split; [by apply Hsome|done].
Qed.

(** A callback that does nothing to the wheel. *)
Definition silent : unit → ErtsTimerWheel → Z → unit * list tw_op := λ _ _ _, (tt, []).

Lemma timers_all_fire_witness :
  ∃ x' evs, bump_until_done silent 1 (mk_world two_timers tt []) 800000000 = Ok x' ∧
    wd_log x' = evs ∧ (Ev_fire 1 ∈ evs ∨ Ev_cancel 1 ∈ evs) ∧ (Ev_fire 2 ∈ evs ∨ Ev_cancel 2 ∈ evs).
Proof.
  destruct (timers_all_fire silent 1 (mk_world two_timers tt []) {[1 := 5; 2 := 700]} 800000000)
    as (x' & evs & A' & E & El & _ & _ & Hf & _).
  - intros. by eexists.
  - intros. constructor.
  - apply two_timers_reached.
  - lia.
  - by vm_compute.
  - by vm_compute.
  - exists x', evs. split_and!; [exact E|exact El|apply (Hf 1 5)|apply (Hf 2 700)]; by vm_compute.
Defined.

(** * The next timeout *)

(** C33: [erts_check_next_timeout_time], on every wheel that a program can have ([reached]),
    also between the calls of a yielding [erts_bump_timers], returns a time that is not after
    the timeout of any active timer; when timers are due already it is not after the wheel's
    position.  When the next time was not known and the wheel is searched, the answer is the
    timeout of an active timer, or a day after the position.  The wheel afterwards represents
    the same timers.  As in [reached], a search starts when no timer times out exactly one
    turn of the wheel (65536 ticks) after its position. *)
Theorem next_timeout_sound t A now :
  reached t A → 0 <= now → no_full_turn t →
  ∃ t' time, erts_check_next_timeout_time t now = Ok (t', time) ∧ reached t' A ∧
    (∀ p q, A !! p = Some q → time <= ERTS_CLKTCKS_TO_MONOTONIC (Z.max q (tw_pos t))) ∧
    (tw_true_next t = false →
       time = ERTS_CLKTCKS_TO_MONOTONIC (tw_pos t' + ERTS_MONOTONIC_TO_CLKTCKS ERTS_MONOTONIC_DAY) ∨
       ∃ p q, A !! p = Some q ∧ time = ERTS_CLKTCKS_TO_MONOTONIC q).
Proof.
  intros Hreach Hnow Hturn.
  destruct (check_next_ok t A now (reached_ok _ _ Hreach) Hnow Hturn) as (t' & time & E & _ & Hle & Heq).
  exists t', time. split_and!; [done|by eapply reached_next|done|done].
Qed.

(** A timer three seconds ahead, after a call that has searched two seconds. *)
Definition far_timer : ErtsTimerWheel :=
  match run_ops (erts_create_timer_wheel 0) [TInit 1; TSet 1 3000] with
  | Ok (t, _) =>
      match erts_bump_timers silent (mk_world t tt []) 0 with
      | Ok x => wd_wheel x
      | _ => t
      end
  | _ => erts_create_timer_wheel 0
  end.

Lemma far_timer_reached : reached far_timer {[1 := 3000]}.
Proof.
  destruct (run_ops (erts_create_timer_wheel 0) [TInit 1; TSet 1 3000]) as [[t evs]| |] eqn:E;
    [|vm_compute in E; discriminate..].
  assert (reached t {[1 := 3000]}) as Ht.
  { apply (reached_ops (erts_create_timer_wheel 0) ∅ [TInit 1; TSet 1 3000] t evs);
      [by apply reached_create|exact E|]. vm_compute in E. injection E as <- <-. by vm_compute. }
  unfold far_timer. rewrite E.
  destruct (erts_bump_timers silent (mk_world t tt []) 0) as [x| |] eqn:E2;
    [|vm_compute in E; injection E as <- <-; vm_compute in E2; discriminate..].
  apply (reached_bump unit silent (mk_world t tt []) {[1 := 3000]} 0 x []); try done.
  - intros. by eexists.
  - vm_compute in E. injection E as <- <-. done.
  - vm_compute in E. injection E as <- <-. vm_compute in E2. by injection E2 as <-.
Defined.

(** Two timers, of which the second times out one tick less than a turn ahead. *)
Definition near_turn (a b : Z) : res (ErtsTimerWheel * list tevent) :=
  run_ops (erts_create_timer_wheel 0) [TInit 1; TInit 2; TSet 1 a; TSet 2 b].

Lemma next_timeout_sound_witness :
  tw_true_next far_timer = false ∧
  ∃ t' time, erts_check_next_timeout_time far_timer 0 = Ok (t', time) ∧
    time <= ERTS_CLKTCKS_TO_MONOTONIC 3000.
Proof.
  split; [by vm_compute|].
  destruct (next_timeout_sound far_timer {[1 := 3000]} 0) as (t' & time & E & _ & Ht & _).
  - apply far_timer_reached.
  - lia.
  - right. assert (tw_pos far_timer = 0) as -> by (by vm_compute).
    assert (tw_timers far_timer = {[1 := mk_timer 3000 3000]}) as Et by (vm_compute; reflexivity).
    intros (p & tm & Hp & _ & Hq). rewrite Et, lookup_singleton_Some in Hp.
    destruct Hp as [_ <-]. discriminate.
  - exists t', time. split; [exact E|]. assert (tw_pos far_timer = 0) as E0 by (by vm_compute).
    rewrite E0 in Ht. apply (Ht 1 3000). by vm_compute.
Defined.

(** The proviso [no_full_turn] of [reached] is needed.  With timers at ticks 65537 and
    65536, after a call at tick 1 the next timeout is reported as 65537 although the other
    timer is due at 65536; the call at 65537 then skips the slot of that timer, which is
    still not fired 65535 ticks after its timeout. *)
Theorem timer_lost_for_a_turn :
  ∃ t x1 t1 x2 x3, near_turn 65537 65536 = Ok (t, [Ev_set 1 65537; Ev_set 2 65536]) ∧
    erts_bump_timers silent (mk_world t tt []) 1000000 = Ok x1 ∧
    erts_check_next_timeout_time (wd_wheel x1) 1000000 = Ok (t1, 65537000000) ∧
    erts_bump_timers silent (mk_world t1 tt []) 65537000000 = Ok x2 ∧ wd_log x2 = [Ev_fire 1] ∧
    erts_bump_timers silent (mk_world (wd_wheel x2) tt []) 131071000000 = Ok x3 ∧ wd_log x3 = [].
Proof.
  do 5 eexists. split_and!.
  - vm_compute. reflexivity.
  - vm_compute. reflexivity.
  - vm_compute. reflexivity.
  - vm_compute. reflexivity.
  - vm_compute. reflexivity.
  - vm_compute. reflexivity.
  - vm_compute. reflexivity.
Qed.
